(* ===== verification/_CoqProject ===== *)
-Q . S2P
Prelude.v
Types.v
Bytes.v
Protocol.v
Text.v
Membership.v
Gossip.v
FailureDetector.v
HashRing.v
WheelHeap.v
TtlWheel.v
WheelLinks.v
Buffers.v
Wal.v
Snapshot.v
Clock.v
Store.v
StoreFacts.v
LruStore.v
LfuStore.v
StoreSpec.v
Persistence.v
CrashTrace.v
Directory.v
Recovery.v
Disk.v
Durability.v
Hazards.v
Iblt.v
AeCodec.v
CacheStore.v
AntiEntropy.v
AeDigest.v
AeSync.v
AeRound.v
AeConverge.v
HintQueue.v
HintJournal.v
Fanout.v
ReadQuorum.v
Replication.v
ReplicationSpec.v
Auth.v
Operations.v
Handlers.v
Cluster.v
Connection.v
ShardManager.v
