(* ===== verification/Prelude.v ===== *)
(** * cinder: a verified model of the distributed cache

    cinder is a replicated in-memory cache: a node keeps versioned entries in a
    sharded store with LRU or LFU eviction and a TTL wheel, logs accepted
    writes to a write-ahead log with periodic snapshots, finds the owners of a
    key on a consistent hash ring, learns who is in the cluster by gossip and
    probing, and speaks a binary protocol to clients and peers.  Conflicting
    writes are settled by one last-writer-wins order everywhere.

    The development translates this code into Rocq functions and proves what
    makes each part correct.  Every file below states in its own header which
    source files it follows; definitions keep the names of the source.

    ** Conventions

    Bytes and strings are lists of [byte]; a w-bit integer is a [Z] whose
    wrap-around is written out ([u8] .. [u64], [wrap w]); vectors are lists,
    hash maps are [gmap]s, or association lists where the order of iteration
    matters.  An operation is a function of the state it locks, so one call is
    atomic.  Fallible code returns [Result]; undefined behaviour and failed
    assertions of the source (reading outside a vector, following a dangling
    iterator, writing past a buffer) are [None], and the theorems show that
    they are not reached.  What the operating system, the clock, the random
    generator, the transport or a hash function answers is an argument.

    ** Files

    - [Prelude]: bytes, machine integers, little-endian images, decimal text,
      association lists and generic lemmas.
    - [Types] (common/types.hpp, status.hpp): errors, [Result], the bit-packed
      entry and the last-writer-wins order.
    - [Bytes] (net/byte_reader.hpp, byte_writer.hpp) and [Protocol]
      (net/protocol.hpp, protocol.cpp): the wire format.
    - [Text] (common/parse.hpp): numbers and peer addresses.
    - [Membership], [Gossip], [FailureDetector] (cluster/): the membership
      table, its dissemination and the probing of peers.
    - [HashRing] (hashing/): the consistent hash ring.
    - [WheelHeap], [TtlWheel], [WheelLinks] (store/ttl_wheel.hpp): the timers.
    - [Buffers], [Wal], [Snapshot] (store/detail/io_utils.hpp, store/wal.hpp, wal.cpp,
      store/snapshot.hpp, snapshot.cpp): the files on disk.
    - [Clock] (cluster/clock.hpp): steady and system time.
    - [Store], [StoreFacts], [LruStore], [LfuStore], [StoreSpec]
      (store/detail/eviction_store_base.hpp, lru_store and lfu_store): the
      store; the class [Policy] is the interface between the base class and an
      eviction policy, [PolicyLaws] what the base class relies on.  [StoreSpec]
      holds the contract of the store as a map from keys to entries.
    - [Persistence] (store/persistence.hpp, persistence.cpp): the manager of log
      and snapshots; [Directory], [Recovery], [Disk], [Durability]: the names
      in its directory, replay as a map of records, what the files hold, and
      the system of store, manager and disk under crashes; [Hazards]: failing
      requests.  The manager runs on any [FileSystem]: on a directory, or on
      one that also records each operation on files; [CrashTrace] shows that
      the two agree, so that the recorded operations are the points at which
      a crash can come.
    - [Iblt] (node/iblt.hpp, node/anti_entropy/iblt.cpp): invertible Bloom
      lookup tables and their decoding.
    - [AeCodec] (node/anti_entropy_codec.hpp, codec.cpp): the messages of
      anti-entropy.
    - [CacheStore] (store/cache_store.hpp): the store as anti-entropy sees it, a
      class of operations with their laws, which [StoreSpec] discharges for
      every eviction policy.
    - [AntiEntropy] (node/anti_entropy.hpp, core.cpp): the manager.  [AeDigest]:
      its digest against the store; [AeSync]: selecting, diffing and applying
      entries; [AeRound], [AeConverge]: a round between two nodes, handler by
      handler.
    - [HintQueue], [HintJournal] (node/hint_queue.hpp, hint_journal.cpp): hints
      for replicas that failed, in memory and on disk.
    - [Fanout], [ReadQuorum] (node/fanout.hpp, read_quorum.hpp): reports of many
      targets reduced by one consumer, shared reads and the reducer of votes.
    - [Replication] (node/replication_manager.cpp): quorum writes and reads,
      repair and hints; [ReplicationSpec]: what a whole call does to a node, against
      the laws of [CacheStore].
    - [Auth] (common/hmac.cpp): tokens.  [Operations] (node/cache_operations.hpp):
      reads and writes as the adapters call them.  [Handlers] (the request path
      of net/tcp/connection.cpp): from a frame to its answer.  [Connection] (the
      rest of that file): reads, writes, queue, flags and drain.
    - [Cluster]: nodes that answer each other's requests.
    - [ShardManager] (node/shard_manager.cpp): rebalancing keys after the ring
      changed.

    ** What the theorems show

    - Convergence: two stores with room, of any policies, that received the same
      writes hold the same entries ([lww_replicas_converge]); tables that
      received the same rumors about a node agree on it, when no two of them
      differ in state at one incarnation ([rumors_converge]); key placement
      depends on the set of nodes only ([placement_from_membership]).
    - Memory safety and invariants: [store_invariant], [ring_invariant],
      [membership_invariant], [encode_request_total].
    - Refinement: the wheel implements a map of timers
      ([wheel_refines_timers]), the intrusive links implement the slots
      ([links_implement_slots]), gossip's peer list follows the table
      ([gossip_peers_track_table]).
    - The store: writes, reads, expiry and eviction on every branch
      ([putVersioned_lww], [read_your_writes], [reads_hide_expired],
      [sweep_reaps_expired], [lru_evicts_oldest], [lfu_evicts_rarest]) and the
      feed to anti-entropy ([feed_in_sync]).
    - Round trips: wire messages, gossip views, log records and snapshots; and
      the log after a crash ([wal_crash_recovery]).
    - The ring's guarantees on lookups and on moved keys, and the failure
      detector's verdicts.
    - Behaviour that departs from what the comments say is stated as theorems
      as well: [silent_peer_never_dead], [leave_keeps_incarnation],
      [self_evicted_write_breaks_feed], [oversized_update_deletes],
      [v1_append_corrupts], [failed_append_loses_batch] and others.
    - Durability: what was flushed or compacted survives a crash
      ([flushed_writes_survive]), a crash at any byte or file operation of a
      flush loses only a suffix of the queued writes ([recovery_keeps_prefix])
      and may come anywhere in a compaction ([compaction_crash_safe]); and the failures of the disk that do lose
      data ([unpublished_compaction_loses_log], [expired_record_resurrects],
      [unlinked_log_drops_writes]).
    - Anti-entropy: a round makes two nodes agree on the winner of every key
      ([round_converges]), against the laws of the store; sketches decode to
      the symmetric difference ([difference_exact], [difference_sound]); the
      incremental digest is what a scan gives ([digest_tracks_store]), except
      where the rehash goes wrong ([rehash_over_expired],
      [rehash_loses_concurrent_write]); and its messages round-trip.
    - Replication: a quorum read that counted R copies sees every quorum write
      acknowledged before it ([quorum_read_sees_write]), through the handlers
      of the nodes; the parts
      are the fan-out ([fanout_decides_once]), the decision
      ([write_quorum_decision]), shared reads ([flights_answer_once]) and whole
      calls on a node ([replicated_write], [replicated_read]).
    - Hints: the queue is a bounded list ([hint_queue_refines_fifo]), the journal
      survives a crash ([journal_crash_recovery]), replay delivers and forgets
      ([hint_replay]); and where hints do get lost
      ([append_after_compaction_overwrites], [append_behind_torn_tail_lost],
      [compaction_forgets_hint]).
    - Rebalancing: a copy is dropped only once the owners have what the
      rebalance saw ([handover_safe]); when all requests succeed it is dropped
      if the first owner answers last and kept otherwise
      ([handover_completes]); owners in quarantine are left out
      ([quarantined_owner_left_out]) and a newer write can be dropped with the
      copy ([newer_write_dropped]).
    - Connections and credentials: [connection_invariant] (without drain),
      [requests_need_credentials], [token_verdicts]; and what is wrong with them
      ([drain_starts_second_read], [peers_denied],
      [absent_replica_not_repaired]).

    ** Bounds and fuel

    Loops that are not structural take fuel: the eviction loop one more than
    the length of the shard's list, of which every turn drops a node; the
    heap's sifts the length of the vector; the overflow drain of a tick one
    more than the number of overdue timers; replay one more than the number of
    bytes left; the ring's binary search the length of the range.  Each is
    proved to be enough, by theorems that state that a result is returned.
    The store's theorems bound the number of operations by 2^62, so that the
    64-bit Lamport clock does not wrap, and say what happens at the end of the
    62-bit version field ([version_exhaustion]).  The wheel's tick counter has
    64 bits too and wraps; the theorems bound the ticks by [max_ticks], which a
    steady clock cannot exceed ([steady_ticks]).
    The durability theorems are about runs in which nothing expires up to a
    time [limit], the writes fit into one shard without evictions (the sum of
    their sizes is at most [share]), and fewer than 2^32 steps are taken, so
    that segment numbers and the counts in snapshots keep their widths.  A
    crash leaves the directory as the operations on files before it made it,
    with a write cut at any byte; reordered or lost page-cache writes are not
    modelled, and crashes within a run come during flushes.
    Peeling takes as fuel one more than what its own budget lets it queue.
    [round_converges] assumes what a round relies on: neither node's entries
    exceed the other's room or the fetch budget, nothing expires on the way,
    the 64-bit hash does not collide on the keys and on the strings of the
    groups at hand, different sets of writes in a bucket have different sums
    of hashes, writes with one stamp are the same write, and sketches of
    differing buckets can be peeled.  Its witness runs two pairs of LRU
    stores, one that compares rows and one that decodes sketches.
    The walks of the hint queue take as fuel the capacity of the array, recovery
    of the journal one more than the length of the file.
    [quorum_read_sees_write] assumes that no node runs out of room, that nothing
    written to the key expires before the read, that no secret is set and that
    the nodes serve requests of their peers only in between; its witness runs three nodes.  HMAC-SHA256 is assumed to have images of 32
    bytes that differ for the texts a node signs ([hmac_ok]).

    ** Not modelled

    Locks, atomics and threads beyond the atomicity of an operation and the
    orders of completions; sockets, Asio, TLS and gRPC (the server, the
    transport, the client and the gateway); the wiring of a node; YAML
    configuration; OpenSSL; metrics, logging and tracing, on which no result
    depends; the command line tools.  XXH3 and [std::hash] are arguments.  The LFU policy's loop
    increments an erased iterator before it stops; the model takes that
    increment to have no effect. *)

From Stdlib Require Export ZArith Lia Strings.Byte.
From stdpp Require Export base list gmap strings sorting.

(** ** Bytes and byte strings

    [std::byte], the characters of a [std::string] and the elements of a wire
    buffer are all modelled by the 256-element type [byte]; [std::string] and
    [std::vector<std::byte>] are lists of them. *)

Abbreviation bytes := (list byte).

#[global] Instance byte_eq_decision : EqDecision byte := Byte.byte_eq_dec.

#[global] Program Instance byte_countable : Countable byte :=
  inj_countable Byte.to_N Byte.of_N _.
Next Obligation. intros b. apply Byte.of_to_N. Qed.

(** A string literal of the source as a byte string. *)
Definition lit (s : String.string) : bytes := String.list_byte_of_string s.

Definition Z_of_byte (b : byte) : Z := Z.of_N (Byte.to_N b).

Definition byte_of_Z (z : Z) : byte :=
  match Byte.of_N (Z.to_N (z mod 256)) with
  | Some b => b
  | None => x00
  end.

(** ** Machine integers: unsigned wrap-around at a width. *)

Definition wrap (w z : Z) : Z := (z mod 2 ^ w)%Z.
Abbreviation u8 := (wrap 8).
Abbreviation u16 := (wrap 16).
Abbreviation u32 := (wrap 32).
Abbreviation u64 := (wrap 64).

Definition in_u (w z : Z) : Prop := (0 <= z < 2 ^ w)%Z.

(** Reinterpretation of a [w]-bit pattern as two's complement. *)
Definition to_signed (w z : Z) : Z :=
  let r := wrap w z in
  if (r <? 2 ^ (w - 1))%Z then r else (r - 2 ^ w)%Z.

(** ** Little-endian images of integers (the host byte order). *)

Fixpoint le_encode (n : nat) (z : Z) : bytes :=
  match n with
  | O => []
  | S n' => byte_of_Z z :: le_encode n' (z / 256)
  end.

Fixpoint le_decode (l : bytes) : Z :=
  match l with
  | [] => 0
  | b :: l' => Z_of_byte b + 256 * le_decode l'
  end%Z.

(** [std::byteswap] on an [n]-byte integer. *)
Definition byteswap (n : nat) (z : Z) : Z := le_decode (rev (le_encode n z)).

(** ** Decimal text ([std::to_string], [std::from_chars]). *)

Definition digit_byte (d : Z) : byte := byte_of_Z (48 + d).

Definition is_digit (b : byte) : bool :=
  (48 <=? Z_of_byte b)%Z && (Z_of_byte b <=? 57)%Z.

Definition digit_val (b : byte) : Z := (Z_of_byte b - 48)%Z.

(** Digits of [z] in front of [acc]; [fuel] bounds the number of digits. *)
Fixpoint to_dec (fuel : nat) (z : Z) (acc : bytes) : bytes :=
  match fuel with
  | O => acc
  | S f =>
      let acc' := digit_byte (z mod 10) :: acc in
      if (z <? 10)%Z then acc' else to_dec f (z / 10) acc'
  end.

(** [std::to_string] on an unsigned value below [2^64]: at most 20 digits. *)
Definition to_string (z : Z) : bytes := to_dec 20 z [].

Fixpoint digits_value (acc : Z) (l : bytes) : Z :=
  match l with
  | [] => acc
  | b :: l' => digits_value (acc * 10 + digit_val b) l'
  end.

(** ** Lexicographic order of byte strings ([std::less<std::string>]). *)

Fixpoint bytes_leb (a b : bytes) : bool :=
  match a, b with
  | [], _ => true
  | _ :: _, [] => false
  | x :: a', y :: b' =>
      if (Z_of_byte x <? Z_of_byte y)%Z then true
      else if (Z_of_byte y <? Z_of_byte x)%Z then false
      else bytes_leb a' b'
  end.

(** ** Association lists kept in insertion order

    The dense hash map of the repository stores its pairs in a vector in
    insertion order; the code that iterates one sees that order. *)

Section assoc.
Context {K : Type} `{!EqDecision K} {V : Type}.

Fixpoint alookup (k : K) (l : list (K * V)) : option V :=
  match l with
  | [] => None
  | (k', v) :: l' => if decide (k = k') then Some v else alookup k l'
  end.

(** Update in place when the key is present, append otherwise. *)
Fixpoint aset (k : K) (v : V) (l : list (K * V)) : list (K * V) :=
  match l with
  | [] => [(k, v)]
  | (k', v') :: l' => if decide (k = k') then (k', v) :: l' else (k', v') :: aset k v l'
  end.

Lemma alookup_aset_eq k v l : alookup k (aset k v l) = Some v.
Proof. induction l as [|[k' v'] l IH]; simpl; repeat (case_decide; simpl); congruence || done. Qed.

Lemma alookup_aset_ne k k' v l : k ≠ k' → alookup k' (aset k v l) = alookup k' l.
Proof. intros. induction l as [|[k0 v0] l IH]; simpl; repeat (case_decide; simpl); congruence || done. Qed.

Lemma alookup_elem k v l : alookup k l = Some v → (k, v) ∈ l.
Proof.
  induction l as [|[k0 v0] l IH]; simpl; [done|].
  case_decide; intros; simplify_eq; [by left | right; auto].
Qed.

Lemma elem_alookup k v l : NoDup l.*1 → (k, v) ∈ l → alookup k l = Some v.
Proof.
  induction l as [|[k0 v0] l IH]; simpl; intros Hnd Hin; [by apply not_elem_of_nil in Hin|].
  apply NoDup_cons in Hnd as [Hk0 Hnd].
  apply elem_of_cons in Hin as [?|Hin]; simplify_eq; [by rewrite decide_True|].
  rewrite decide_False; [by apply IH|].
  intros ->. apply Hk0. apply list_elem_of_fmap. by exists (k0, v).
Qed.

Lemma aset_keys_in k v l : k ∈ l.*1 → (aset k v l).*1 = l.*1.
Proof.
  induction l as [|[k0 v0] l IH]; simpl; intros Hin; [by apply not_elem_of_nil in Hin|].
  case_decide; simpl; [done|]. f_equal. apply IH. set_solver.
Qed.

Lemma aset_keys_notin k v l : k ∉ l.*1 → aset k v l = l ++ [(k, v)].
Proof.
  induction l as [|[k0 v0] l IH]; simpl; intros Hin; [done|].
  rewrite decide_False by set_solver. f_equal. apply IH. set_solver.
Qed.

Lemma aset_NoDup k v l : NoDup l.*1 → NoDup (aset k v l).*1.
Proof.
  intros Hnd. destruct (decide (k ∈ l.*1)) as [Hin|Hin].
  - by rewrite aset_keys_in.
  - rewrite aset_keys_notin, fmap_app by done. apply NoDup_app.
    split_and!; [done| |apply NoDup_singleton]. set_solver.
Qed.

End assoc.

(** ** Facts about bytes and machine integers *)

Lemma Z_of_byte_range b : (0 <= Z_of_byte b < 256)%Z.
Proof. unfold Z_of_byte. pose proof (Byte.to_N_bounded b). lia. Qed.

Lemma byte_of_Z_of_byte b : byte_of_Z (Z_of_byte b) = b.
Proof.
  unfold byte_of_Z. rewrite Z.mod_small by apply Z_of_byte_range.
  unfold Z_of_byte. rewrite N2Z.id, Byte.of_to_N. done.
Qed.

Lemma Z_of_byte_of_Z z : Z_of_byte (byte_of_Z z) = (z mod 256)%Z.
Proof.
  unfold byte_of_Z. pose proof (Z.mod_pos_bound z 256 ltac:(lia)) as Hb.
  destruct (Byte.of_N (Z.to_N (z mod 256))) as [b|] eqn:E.
  - apply Byte.to_of_N in E. unfold Z_of_byte. rewrite E, Z2N.id by lia. done.
  - apply Byte.of_N_None_iff in E. lia.
Qed.

Lemma Z_of_byte_inj b b' : Z_of_byte b = Z_of_byte b' → b = b'.
Proof. intros H. rewrite <- (byte_of_Z_of_byte b), <- (byte_of_Z_of_byte b'). by rewrite H. Qed.

Lemma wrap_range w z : (0 <= w)%Z → in_u w (wrap w z).
Proof. intros. unfold in_u, wrap. apply Z.mod_pos_bound. lia. Qed.

Lemma wrap_small w z : in_u w z → wrap w z = z.
Proof. apply Z.mod_small. Qed.

Lemma to_signed_range w z : (0 < w)%Z → (- 2 ^ (w - 1) <= to_signed w z < 2 ^ (w - 1))%Z.
Proof.
  intros Hw. unfold to_signed. pose proof (wrap_range w z) as Hr. unfold in_u in Hr.
  assert (2 ^ w = 2 * 2 ^ (w - 1))%Z by (rewrite <- Z.pow_succ_r by lia; f_equal; lia).
  destruct (Z.ltb_spec (wrap w z) (2 ^ (w - 1))); lia.
Qed.

Lemma to_signed_small w z : (0 < w)%Z → (- 2 ^ (w - 1) <= z < 2 ^ (w - 1))%Z → to_signed w z = z.
Proof.
  intros Hw Hz. assert (2 ^ w = 2 * 2 ^ (w - 1))%Z as E by (rewrite <- Z.pow_succ_r by lia; f_equal; lia).
  unfold to_signed, wrap. destruct (Z.ltb_spec z 0).
  - rewrite <- (Z.mod_add z 1 (2 ^ w)), Z.mod_small by lia. destruct (Z.ltb_spec (z + 1 * 2 ^ w) (2 ^ (w - 1))); lia.
  - rewrite Z.mod_small by lia. destruct (Z.ltb_spec z (2 ^ (w - 1))); lia.
Qed.

Lemma wrap_idemp w z : (0 <= w)%Z → wrap w (wrap w z) = wrap w z.
Proof. intros. by apply wrap_small, wrap_range. Qed.

Lemma le_encode_length n z : length (le_encode n z) = n.
Proof. revert z. induction n; simpl; intros; congruence || by rewrite IHn. Qed.

Lemma le_decode_encode n z : le_decode (le_encode n z) = (z mod 256 ^ Z.of_nat n)%Z.
Proof.
  revert z. induction n as [|n IH]; intros z; cbn [le_encode le_decode].
  { by rewrite Z.mod_1_r. }
  rewrite Z_of_byte_of_Z, IH, Nat2Z.inj_succ, Z.pow_succ_r by lia.
  rewrite Z.rem_mul_r by lia. done.
Qed.

Lemma le_encode_decode l : le_encode (length l) (le_decode l) = l.
Proof.
  induction l as [|b l IH]; cbn [length le_encode le_decode]; [done|].
  pose proof (Z_of_byte_range b).
  f_equal.
  - apply Z_of_byte_inj. rewrite Z_of_byte_of_Z.
    rewrite Z.mul_comm, Z.mod_add, Z.mod_small by lia. done.
  - rewrite Z.mul_comm, Z.div_add, Z.div_small, Z.add_0_l by lia. done.
Qed.

Lemma le_encode_decode' n l : length l = n → le_encode n (le_decode l) = l.
Proof. intros <-. apply le_encode_decode. Qed.

Lemma le_decode_range l : (0 <= le_decode l < 256 ^ Z.of_nat (length l))%Z.
Proof.
  induction l as [|b l IH]; cbn [length le_decode]; [done|].
  pose proof (Z_of_byte_range b). rewrite Nat2Z.inj_succ, Z.pow_succ_r by lia. lia.
Qed.

(** Byte-swapping twice is the identity at the width. *)
Lemma byteswap_involutive n z :
  byteswap n (byteswap n z) = (z mod 256 ^ Z.of_nat n)%Z.
Proof.
  unfold byteswap. rewrite le_encode_decode' by by rewrite length_rev, le_encode_length.
  by rewrite rev_involutive, le_decode_encode.
Qed.

(** ** Facts about decimal text *)

Lemma digit_byte_props d :
  (0 <= d < 10)%Z → is_digit (digit_byte d) = true ∧ digit_val (digit_byte d) = d.
Proof.
  intros. unfold is_digit, digit_val, digit_byte.
  rewrite Z_of_byte_of_Z, Z.mod_small by lia. split; [|lia].
  apply andb_true_iff. split; apply Z.leb_le; lia.
Qed.

Lemma to_dec_digits f z acc :
  (0 <= z)%Z → forallb is_digit acc = true → forallb is_digit (to_dec f z acc) = true.
Proof.
  revert z acc. induction f as [|f IH]; intros z acc Hz Hacc; simpl; [done|].
  pose proof (Z.mod_pos_bound z 10 ltac:(lia)) as Hm.
  destruct (digit_byte_props _ Hm) as [Hd _].
  case_match; simpl; [by rewrite Hd|]. apply IH; [by apply Z.div_pos; lia|].
  simpl. by rewrite Hd.
Qed.

Lemma to_dec_value f z acc :
  (0 <= z < 10 ^ Z.of_nat f)%Z →
  digits_value 0 (to_dec f z acc) = digits_value z acc.
Proof.
  revert z acc. induction f as [|f IH]; intros z acc Hz; simpl.
  { change (10 ^ Z.of_nat 0)%Z with 1%Z in Hz. by replace z with 0%Z by lia. }
  pose proof (Z.mod_pos_bound z 10 ltac:(lia)) as Hm.
  destruct (digit_byte_props _ Hm) as [_ Hv].
  rewrite Nat2Z.inj_succ, Z.pow_succ_r in Hz by lia.
  destruct (Z.ltb_spec z 10); simpl.
  - rewrite Hv. rewrite Z.mod_small by lia. done.
  - rewrite IH; simpl.
    + rewrite Hv. f_equal. rewrite Z.mul_comm. symmetry. apply Z_div_mod_eq_full.
    + split; [apply Z.div_pos; lia|]. apply Z.div_lt_upper_bound; lia.
Qed.

Lemma to_dec_nonempty f z acc : acc ≠ [] ∨ f ≠ 0 → to_dec f z acc ≠ [].
Proof.
  revert z acc. induction f as [|f IH]; intros z acc [H|H]; simpl; try done;
    case_match; try done; apply IH; by left.
Qed.

Lemma to_string_digits z : (0 <= z)%Z → forallb is_digit (to_string z) = true.
Proof. intros. by apply to_dec_digits. Qed.

Lemma to_string_value z : in_u 64 z → digits_value 0 (to_string z) = z.
Proof. intros H. apply to_dec_value. unfold in_u in H. split; [lia|]. etransitivity; [apply H|]. done. Qed.

Lemma to_string_nonempty z : to_string z ≠ [].
Proof. apply to_dec_nonempty. by right. Qed.

Lemma digit_ne b c : is_digit b = true → is_digit c = false → b ≠ c.
Proof. congruence. Qed.

Lemma digits_no_sep (l : bytes) c :
  forallb is_digit l = true → is_digit c = false → c ∉ l.
Proof.
  intros Hl Hc Hin. rewrite forallb_forall in Hl.
  apply list_elem_of_In in Hin. by rewrite Hl in Hc.
Qed.

Lemma to_string_no_sep z c : (0 <= z)%Z → is_digit c = false → c ∉ to_string z.
Proof. intros. apply digits_no_sep; [by apply to_string_digits|done]. Qed.

(** A list is split at the last occurrence of an element in one way. *)
Lemma split_last_inj {A} (c : A) (a b x y : list A) : c ∉ x → c ∉ y → a ++ c :: x = b ++ c :: y → a = b ∧ x = y.
Proof.
  intros Hx Hy. revert b. induction a as [|z a IH]; intros [|w b]; cbn [app]; intros E.
  - by injection E.
  - injection E as _ ->. destruct Hx. apply elem_of_app. right. left.
  - injection E as _ <-. destruct Hy. apply elem_of_app. right. left.
  - injection E as -> E. by apply IH in E as [-> ->].
Qed.

(** ** The byte-string order is total. *)

Lemma bytes_leb_total a b : bytes_leb a b = true ∨ bytes_leb b a = true.
Proof.
  revert b. induction a as [|x a IH]; intros [|y b]; simpl; auto.
  destruct (Z.ltb_spec (Z_of_byte x) (Z_of_byte y)), (Z.ltb_spec (Z_of_byte y) (Z_of_byte x)); auto; lia.
Qed.

Lemma bytes_leb_antisymm a b : bytes_leb a b = true → bytes_leb b a = true → a = b.
Proof.
  revert b. induction a as [|x a IH]; intros [|y b]; simpl; try done.
  destruct (Z.ltb_spec (Z_of_byte x) (Z_of_byte y)), (Z.ltb_spec (Z_of_byte y) (Z_of_byte x)); try done; try lia.
  intros. f_equal; [apply Z_of_byte_inj; lia|auto].
Qed.

Lemma bytes_leb_trans a b c : bytes_leb a b = true → bytes_leb b c = true → bytes_leb a c = true.
Proof.
  revert b c. induction a as [|x a IH]; intros [|y b] [|z c]; simpl; try done.
  destruct (Z.ltb_spec (Z_of_byte x) (Z_of_byte y)), (Z.ltb_spec (Z_of_byte y) (Z_of_byte x)),
    (Z.ltb_spec (Z_of_byte y) (Z_of_byte z)), (Z.ltb_spec (Z_of_byte z) (Z_of_byte y)),
    (Z.ltb_spec (Z_of_byte x) (Z_of_byte z)), (Z.ltb_spec (Z_of_byte z) (Z_of_byte x)); try done; try lia.
  eauto.
Qed.

Definition bytes_le (a b : bytes) : Prop := bytes_leb a b = true.

#[global] Instance bytes_le_dec : RelDecision bytes_le.
Proof. intros a b. unfold bytes_le. apply _. Defined.

#[global] Instance bytes_le_trans : Transitive bytes_le.
Proof. intros a b c. apply bytes_leb_trans. Qed.

#[global] Instance bytes_le_total : Total bytes_le.
Proof. intros a b. apply bytes_leb_total. Qed.

(** ** Bits of machine words *)

Section bits.
Local Open Scope Z_scope.

Lemma land_pow2_testbit x k : 0 <= k → negb (Z.land x (2 ^ k) =? 0) = Z.testbit x k.
Proof.
  intros Hk. destruct (Z.testbit x k) eqn:E.
  - apply negb_true_iff, Z.eqb_neq. intros H.
    assert (Z.testbit (Z.land x (2 ^ k)) k = true) as Hb.
    { by rewrite Z.land_spec, E, Z.pow2_bits_true. }
    by rewrite H, Z.bits_0 in Hb.
  - apply negb_false_iff, Z.eqb_eq, Z.bits_inj'. intros n Hn.
    rewrite Z.land_spec, Z.bits_0. destruct (decide (n = k)) as [->|]; [by rewrite E|].
    by rewrite Z.pow2_bits_false, andb_false_r.
Qed.

Lemma testbit_wrap w z n : 0 <= n < w → Z.testbit (wrap w z) n = Z.testbit z n.
Proof. intros. unfold wrap. by rewrite Z.mod_pow2_bits_low by lia. Qed.

Lemma testbit_wrap_hi w z n : 0 <= w <= n → Z.testbit (wrap w z) n = false.
Proof. intros. unfold wrap. by rewrite Z.mod_pow2_bits_high by lia. Qed.

Lemma testbit_hi z w n : in_u w z → 0 <= w <= n → Z.testbit z n = false.
Proof. intros Hz Hn. rewrite <- (wrap_small _ _ Hz). by apply testbit_wrap_hi. Qed.

Lemma in_u_testbit w z : 0 <= w → (∀ n, w <= n → Z.testbit z n = false) → in_u w z.
Proof.
  intros Hw H. assert (z = wrap w z) as ->; [|by apply wrap_range].
  apply Z.bits_inj'. intros n Hn. destruct (decide (n < w)).
  - by rewrite testbit_wrap by lia.
  - rewrite testbit_wrap_hi by lia. apply H. lia.
Qed.

(** Masking with [~(1 << k)] at width [w] clears exactly bit [k]. *)
Lemma testbit_clear w z k n :
  in_u w z → 0 <= k < w → 0 <= n →
  Z.testbit (Z.land z (wrap w (Z.lnot (2 ^ k)))) n = if n =? k then false else Z.testbit z n.
Proof.
  intros Hz Hk Hn. rewrite Z.land_spec.
  destruct (Z.lt_ge_cases n w).
  - rewrite testbit_wrap, Z.lnot_spec by lia. destruct (Z.eqb_spec n k) as [->|].
    + by rewrite Z.pow2_bits_true, andb_false_r by lia.
    + by rewrite Z.pow2_bits_false, andb_true_r by lia.
  - rewrite (testbit_hi z w n Hz) by lia. by case_match.
Qed.

Lemma lor_shiftl_add a b k : 0 <= k → 0 <= b < 2 ^ k → Z.lor (Z.shiftl a k) b = a * 2 ^ k + b.
Proof.
  intros Hk Hb. rewrite <- Z.shiftl_mul_pow2 by done. rewrite Z.add_comm.
  symmetry. rewrite Z.lor_comm.
  rewrite <- Z.lxor_lor.
  - apply Z.add_nocarry_lxor. apply Z.bits_inj'. intros n Hn. rewrite Z.land_spec, Z.bits_0.
    destruct (Z.lt_ge_cases n k); [by rewrite Z.shiftl_spec_low, andb_false_r|].
    by rewrite (testbit_hi b k) by (done || lia).
  - apply Z.bits_inj'. intros n Hn. rewrite Z.land_spec, Z.bits_0.
    destruct (Z.lt_ge_cases n k); [by rewrite Z.shiftl_spec_low, andb_false_r|].
    by rewrite (testbit_hi b k) by (done || lia).
Qed.

End bits.

(** ** Filters that keep everything or nothing *)

Lemma filter_all_true {A} (P : A → Prop) `{!∀ x, Decision (P x)} (l : list A) : (∀ x, x ∈ l → P x) → filter P l = l.
Proof.
  induction l as [|x l IH]; intros HP; [done|]. rewrite filter_cons_True by (apply HP; by left).
  f_equal. apply IH. intros y Hy. apply HP. by right.
Qed.

Lemma filter_all_false {A} (P : A → Prop) `{!∀ x, Decision (P x)} (l : list A) : (∀ x, x ∈ l → ¬ P x) → filter P l = [].
Proof.
  induction l as [|x l IH]; intros HP; [done|]. rewrite filter_cons_False by (apply HP; by left).
  apply IH. intros y Hy. apply HP. by right.
Qed.

(** ** Neighbours in a list *)

Section adj.
Context {A : Type}.
Implicit Types (a b x : A) (l : list A).

(** The pairs of neighbours of a list. *)
Definition adj (l : list A) : list (A * A) := zip l (tail l).

Lemma adj_cons a b l : adj (a :: b :: l) = (a, b) :: adj (b :: l).
Proof. done. Qed.

Lemma adj_app l x r : adj (l ++ x :: r) = adj (l ++ [x]) ++ adj (x :: r).
Proof.
  induction l as [|a l IH]; [done|]. destruct l as [|b l]; [done|].
  change (adj (a :: b :: (l ++ x :: r)) = adj (a :: b :: (l ++ [x])) ++ adj (x :: r)).
  rewrite !adj_cons. exact (f_equal (cons (a, b)) IH).
Qed.

Lemma adj_snoc l a b : adj (l ++ [a; b]) = adj (l ++ [a]) ++ [(a, b)].
Proof. by rewrite adj_app. Qed.

Lemma adj_fst l x : (adj (l ++ [x])).*1 = l.
Proof.
  induction l as [|a l IH]; [done|]. destruct l as [|b l]; [done|].
  change ((adj (a :: b :: (l ++ [x]))).*1 = a :: b :: l). rewrite adj_cons. exact (f_equal (cons a) IH).
Qed.

Lemma adj_snd l x : (adj (x :: l)).*2 = l.
Proof. revert x. induction l as [|a l IH]; intros x; [done|]. rewrite adj_cons. exact (f_equal (cons a) (IH a)). Qed.

Lemma nodup_pairs a b (P : list (A * A)) :
  NoDup ((a, b) :: P).*1 → NoDup ((a, b) :: P).*2 → ∀ c d, (c, d) ∈ P → c ≠ a ∧ d ≠ b.
Proof.
  simpl. intros [H1 _]%NoDup_cons [H2 _]%NoDup_cons c d Hin.
  split; intros ->; [apply H1; by apply (list_elem_of_fmap_2 fst _ (a, d))|apply H2; by apply (list_elem_of_fmap_2 snd _ (c, b))].
Qed.

(** Taking an element out from between two ends joins its neighbours. *)
Lemma adj_split x l1 n l2 y :
  ∃ p q P, adj (x :: (l1 ++ n :: l2) ++ [y]) ≡ₚ (p, n) :: (n, q) :: P ∧ adj (x :: (l1 ++ l2) ++ [y]) ≡ₚ (p, q) :: P.
Proof.
  rewrite <- !app_assoc. simpl.
  destruct (exists_last (l := x :: l1)) as (l & p & Hp); [done|].
  destruct (l2 ++ [y]) as [|q r] eqn:Hq; [by destruct l2|].
  exists p, q, (adj (l ++ [p]) ++ adj (q :: r)).
  change (x :: l1 ++ n :: q :: r) with ((x :: l1) ++ n :: q :: r).
  change (x :: l1 ++ q :: r) with ((x :: l1) ++ q :: r).
  rewrite Hp, <- !app_assoc. simpl. rewrite (adj_app l p (n :: q :: r)), (adj_app l p (q :: r)).
  rewrite (adj_cons p), (adj_cons n), (adj_cons p). split.
  - by rewrite <- !Permutation_middle.
  - by rewrite <- Permutation_middle.
Qed.

Lemma adj_push x l n y :
  ∃ p P, adj (x :: l ++ [y]) ≡ₚ (p, y) :: P ∧ adj (x :: (l ++ [n]) ++ [y]) ≡ₚ (p, n) :: (n, y) :: P.
Proof.
  rewrite <- app_assoc. simpl. destruct (exists_last (l := x :: l)) as (r & p & Hp); [done|].
  exists p, (adj (r ++ [p])).
  change (x :: l ++ [y]) with ((x :: l) ++ [y]). change (x :: l ++ [n; y]) with ((x :: l) ++ [n; y]).
  rewrite Hp, <- !app_assoc. simpl. rewrite (adj_app r p [y]), (adj_app r p [n; y]), !adj_cons.
  split; rewrite Permutation_app_comm; done.
Qed.

End adj.

(** ** Prefixes *)

Lemma prefix_snoc {A} (p l : list A) x : p `prefix_of` l ++ [x] → p `prefix_of` l ∨ p = l ++ [x].
Proof.
  intros [k E]. destruct k as [|z k _] using rev_ind; [right; by rewrite app_nil_r in E|].
  left. rewrite app_assoc in E. apply app_inj_tail in E as [-> _]. by apply prefix_app_r.
Qed.

(** ** A concatenation of images cut short *)

Lemma cut_concat {A B} (f : A → list B) (es : list A) (j : nat) :
  ∃ kept tail, take j (concat (f <$> es)) = concat (f <$> kept) ++ tail ∧
    (tail = [] ∨ ∃ e, e ∈ es ∧ tail `prefix_of` f e ∧ tail ≠ f e) ∧
    kept `prefix_of` es ∧ ∀ p, p `prefix_of` es → length (concat (f <$> p)) <= j → p `prefix_of` kept.
Proof.
  revert j. induction es as [|e es IH]; intros j.
  { exists [], []. simpl; rewrite take_nil. split_and!; try done. by left. }
  rewrite fmap_cons. cbn [concat]. destruct (decide (length (f e) <= j)) as [Hle|Hgt].
  - destruct (IH (j - length (f e))) as (kept & tail & E & Ht & Hp & Hm). exists (e :: kept), tail. split_and!.
    + rewrite take_app_ge, E by done. rewrite fmap_cons. cbn [concat]. by rewrite <- app_assoc.
    + destruct Ht as [->|(x & Hx & ?)]; [by left|]. right. exists x. split; [by right|done].
    + by apply prefix_cons.
    + intros [|e' p] Hpe Hs; [apply prefix_nil|]. pose proof (prefix_cons_inv_1 _ _ _ _ Hpe) as ->.
      apply prefix_cons, Hm; [by apply prefix_cons_inv_2 in Hpe|]. rewrite fmap_cons in Hs. cbn [concat] in Hs.
      rewrite length_app in Hs. lia.
  - exists [], (take j (f e)). rewrite take_app_le by lia. split_and!.
    + done.
    + right. exists e. split_and!; [by left| |].
      * exists (drop j (f e)). by rewrite take_drop.
      * intros E. apply (f_equal length) in E. rewrite length_take in E. lia.
    + apply prefix_nil.
    + intros [|e' p] Hpe Hs; [apply prefix_nil|]. pose proof (prefix_cons_inv_1 _ _ _ _ Hpe) as ->.
      rewrite fmap_cons in Hs. cbn [concat] in Hs. rewrite length_app in Hs. lia.
Qed.
