(* ===== verification/Types.v ===== *)
(** * Common types (include/cinder/common/types.hpp, status.hpp)

    [Status]: error codes, the error value with its cause chain, and the
    [Result] type of every fallible operation.  [Entry]: the bit-packed
    [VersionedEntry] of the stores and the wire.  [Lww]: the total order that
    every convergence path of the program shares. *)

From S2P Require Import Prelude.

Module Status.

Inductive Errc :=
  | OK | NotFound | CapacityExceeded | InvalidArgument | TtlExpired | NotSupported
  | InternalError | Timeout | NotReady | PermissionDenied | CorruptData.

#[global] Instance Errc_eq_dec : EqDecision Errc.
Proof. solve_decision. Defined.

(** [std::to_underlying] *)
Definition Errc_code (e : Errc) : Z :=
  match e with
  | OK => 0 | NotFound => 1 | CapacityExceeded => 2 | InvalidArgument => 3
  | TtlExpired => 4 | NotSupported => 5 | InternalError => 6 | Timeout => 7
  | NotReady => 8 | PermissionDenied => 9 | CorruptData => 10
  end.

(** [Error]: the code, the message buffer and the owned cause.  The source
    location is diagnostic only and is left out. *)
Inductive Error := MkError (code : Errc) (message : bytes) (cause : option Error).

Definition code (e : Error) : Errc := let 'MkError c _ _ := e in c.
Definition message (e : Error) : bytes := let 'MkError _ m _ := e in m.
Definition cause (e : Error) : option Error := let 'MkError _ _ c := e in c.

(** The 48-byte buffer keeps at most 47 bytes of the message. *)
Definition mkError (c : Errc) (msg : bytes) : Error :=
  MkError c (take (Nat.min (length msg) (48 - 1)) msg) None.

Definition wrapError (e : Error) (c : Errc) (msg : bytes) : Error :=
  MkError c (message (mkError c msg)) (Some e).

Definition asRetryable (e : Error) (context : bytes) : Error :=
  wrapError e NotReady context.

Definition Errc_of (raw : Z) : option Errc :=
  match raw with
  | 0 => Some OK | 1 => Some NotFound | 2 => Some CapacityExceeded
  | 3 => Some InvalidArgument | 4 => Some TtlExpired | 5 => Some NotSupported
  | 6 => Some InternalError | 7 => Some Timeout | 8 => Some NotReady
  | 9 => Some PermissionDenied | 10 => Some CorruptData
  | _ => None
  end%Z.

(** The enumeration has a fixed underlying type, so a value read from the wire
    may name none of the enumerators; [raw] is the underlying value. *)
Definition toString (raw : Z) : bytes :=
  lit match Errc_of raw with
      | Some OK => "OK"
      | Some NotFound => "(not found)"
      | Some CapacityExceeded => "(capacity exceeded)"
      | Some InvalidArgument => "(invalid argument)"
      | Some TtlExpired => "(ttl expired)"
      | Some NotSupported => "(not supported)"
      | Some InternalError => "(internal error)"
      | Some Timeout => "(timeout)"
      | Some NotReady => "(not ready)"
      | Some PermissionDenied => "(permission denied)"
      | Some CorruptData => "(corrupt data)"
      | None => "(unknown)"
      end.

Inductive Result (A : Type) :=
  | Ok (a : A)
  | Err (e : Error).
Arguments Ok {A} a.
Arguments Err {A} e.

Definition bindR {A B} (r : Result A) (f : A → Result B) : Result B :=
  match r with
  | Ok a => f a
  | Err e => Err e
  end.

(** The chain of codes from an error to its root cause. *)
Fixpoint chain (e : Error) : list Errc :=
  let 'MkError c _ k := e in
  c :: match k with None => [] | Some e' => chain e' end.

End Status.
Export Status.

Declare Scope result_scope.
Delimit Scope result_scope with result.
Notation "'let*' x := c 'in' k" := (bindR c (λ x, k))
  (at level 10, x pattern, c at level 100, k at level 200) : result_scope.

Module Entry.
Local Open Scope Z_scope.

Record VersionedEntry := mkEntry {
  version_and_ttl : Z;   (* uint64_t: bit 0 has_ttl, bit 1 tombstone, bits 2-63 version *)
  expires_at : Z;        (* steady_clock::time_point, nanoseconds *)
  writer_node_hash : Z;  (* uint64_t *)
  value : bytes }.

#[global] Instance VersionedEntry_eq_dec : EqDecision VersionedEntry.
Proof. solve_decision. Defined.

(** [VersionedEntry entry;] *)
Definition emptyEntry : VersionedEntry := mkEntry 0 0 0 [].

Definition version (e : VersionedEntry) : Z := Z.shiftr (version_and_ttl e) 2.

Definition hasTtl (e : VersionedEntry) : bool :=
  negb (Z.land (version_and_ttl e) 1 =? 0).

Definition isTombstone (e : VersionedEntry) : bool :=
  negb (Z.land (version_and_ttl e) 2 =? 0).

Definition with_vt (vt : Z) (e : VersionedEntry) : VersionedEntry :=
  mkEntry vt (expires_at e) (writer_node_hash e) (value e).

Definition setVersion (v : Z) (e : VersionedEntry) : VersionedEntry :=
  with_vt (Z.lor (u64 (Z.shiftl v 2)) (Z.land (version_and_ttl e) 3)) e.

Definition setHasTtl (ttl : bool) (e : VersionedEntry) : VersionedEntry :=
  with_vt (Z.lor (Z.land (version_and_ttl e) (u64 (Z.lnot 1))) (if ttl then 1 else 0)) e.

Definition setVersionAndTtl (v : Z) (ttl : bool) (e : VersionedEntry) : VersionedEntry :=
  with_vt (Z.lor (u64 (Z.shiftl v 2)) (if ttl then 1 else 0)) e.

Definition setTombstone (t : bool) (e : VersionedEntry) : VersionedEntry :=
  with_vt (Z.lor (Z.land (version_and_ttl e) (u64 (Z.lnot 2))) (if t then 2 else 0)) e.

Definition with_value (v : bytes) (e : VersionedEntry) : VersionedEntry :=
  mkEntry (version_and_ttl e) (expires_at e) (writer_node_hash e) v.

Definition with_expires (t : Z) (e : VersionedEntry) : VersionedEntry :=
  mkEntry (version_and_ttl e) t (writer_node_hash e) (value e).

Definition with_writer (w : Z) (e : VersionedEntry) : VersionedEntry :=
  mkEntry (version_and_ttl e) (expires_at e) w (value e).

(** The packed word is a [uint64_t]. *)
Definition wf (e : VersionedEntry) : Prop := in_u 64 (version_and_ttl e).

End Entry.

Module Lww.
Import Entry.
Local Open Scope Z_scope.

Record LwwStamp := mkStamp { s_version : Z; s_writer : Z; s_tombstone : bool }.

#[global] Instance LwwStamp_eq_dec : EqDecision LwwStamp.
Proof. solve_decision. Defined.

Inductive LwwOrder := Less | Equal | Greater.

#[global] Instance LwwOrder_eq_dec : EqDecision LwwOrder.
Proof. solve_decision. Defined.

Definition compareLww (a b : LwwStamp) : LwwOrder :=
  if negb (s_version a =? s_version b) then
    if s_version a <? s_version b then Less else Greater
  else if negb (s_writer a =? s_writer b) then
    if s_writer a <? s_writer b then Less else Greater
  else if negb (Bool.eqb (s_tombstone a) (s_tombstone b)) then
    if s_tombstone a then Greater else Less
  else Equal.

Definition lwwWinsOver (incoming resident : LwwStamp) : bool :=
  match compareLww incoming resident with Greater => true | _ => false end.

Definition lwwCovers (incoming resident : LwwStamp) : bool :=
  match compareLww incoming resident with Less => false | _ => true end.

Definition stampOf (e : VersionedEntry) : LwwStamp :=
  mkStamp (version e) (writer_node_hash e) (isTombstone e).

(** The specification of a write to a key that has room: the resident on a
    strict loss, else the incoming entry.  [put_outcome] and the laws of
    [CacheStore] say that the store follows it. *)
Definition applyLww (resident : option VersionedEntry) (incoming : VersionedEntry) : VersionedEntry :=
  match resident with
  | None => incoming
  | Some r => if lwwCovers (stampOf incoming) (stampOf r) then incoming else r
  end.

End Lww.

(** ** Facts about the packed word *)

Module EntryFacts.
Import Entry.
Local Open Scope Z_scope.

Lemma hasTtl_bit e : hasTtl e = Z.testbit (version_and_ttl e) 0.
Proof. apply (land_pow2_testbit _ 0). lia. Qed.

Lemma isTombstone_bit e : isTombstone e = Z.testbit (version_and_ttl e) 1.
Proof. apply (land_pow2_testbit _ 1). lia. Qed.

Lemma version_bit e n : 0 <= n → Z.testbit (version e) n = Z.testbit (version_and_ttl e) (n + 2).
Proof. intros. unfold version. by rewrite Z.shiftr_spec by lia. Qed.

Lemma version_ext e v :
  in_u 62 v → (∀ n, 0 <= n < 62 → Z.testbit (version_and_ttl e) (n + 2) = Z.testbit v n) →
  wf e → version e = v.
Proof.
  intros Hv H He. apply Z.bits_inj'. intros n Hn. rewrite version_bit by lia.
  destruct (Z.lt_ge_cases n 62); [apply H; lia|].
  rewrite (testbit_hi v 62) by (done || lia). apply (testbit_hi _ 64); [done|lia].
Qed.

Lemma version_range e : wf e → in_u 62 (version e).
Proof.
  intros He. apply in_u_testbit; [lia|]. intros n Hn. rewrite version_bit by lia.
  apply (testbit_hi _ 64); [done|lia].
Qed.

Definition flag (b : bool) (k : Z) : Z := if b then 2 ^ k else 0.

Lemma flag_bit b k n : 0 <= k → 0 <= n → Z.testbit (flag b k) n = b && (n =? k).
Proof.
  intros. unfold flag. destruct b; [|by rewrite Z.bits_0].
  destruct (Z.eqb_spec n k) as [->|]; [by rewrite Z.pow2_bits_true|by rewrite Z.pow2_bits_false by lia].
Qed.

Lemma setVersion_bits v e n :
  wf e → 0 <= n →
  Z.testbit (version_and_ttl (setVersion v e)) n =
  if n <? 2 then Z.testbit (version_and_ttl e) n else if n <? 64 then Z.testbit v (n - 2) else false.
Proof.
  intros He Hn. unfold setVersion; simpl. rewrite Z.lor_spec, Z.land_spec.
  change 3 with (Z.ones 2).
  destruct (Z.ltb_spec n 2).
  - rewrite testbit_wrap, Z.shiftl_spec_low, Z.ones_spec_low by lia. by rewrite andb_true_r.
  - rewrite Z.ones_spec_high, andb_false_r, orb_false_r by lia.
    destruct (Z.ltb_spec n 64).
    + by rewrite testbit_wrap, Z.shiftl_spec by lia.
    + by rewrite testbit_wrap_hi by lia.
Qed.

Lemma setHasTtl_bits b e n :
  wf e → 0 <= n →
  Z.testbit (version_and_ttl (setHasTtl b e)) n =
  if n =? 0 then b else Z.testbit (version_and_ttl e) n.
Proof.
  intros He Hn. unfold setHasTtl; simpl. rewrite Z.lor_spec.
  change (Z.lnot 1) with (Z.lnot (2 ^ 0)). rewrite testbit_clear by (done || lia).
  change (if b then 1 else 0) with (flag b 0). rewrite flag_bit by lia.
  destruct (n =? 0); simpl; [by rewrite andb_true_r|by rewrite andb_false_r, orb_false_r].
Qed.

Lemma setTombstone_bits b e n :
  wf e → 0 <= n →
  Z.testbit (version_and_ttl (setTombstone b e)) n =
  if n =? 1 then b else Z.testbit (version_and_ttl e) n.
Proof.
  intros He Hn. unfold setTombstone; simpl. rewrite Z.lor_spec.
  change (Z.lnot 2) with (Z.lnot (2 ^ 1)). rewrite testbit_clear by (done || lia).
  change (if b then 2 else 0) with (flag b 1). rewrite flag_bit by lia.
  destruct (n =? 1); simpl; [by rewrite andb_true_r|by rewrite andb_false_r, orb_false_r].
Qed.

Lemma setVersionAndTtl_bits v b e n :
  0 <= n →
  Z.testbit (version_and_ttl (setVersionAndTtl v b e)) n =
  if n =? 0 then b else if n <? 2 then false else if n <? 64 then Z.testbit v (n - 2) else false.
Proof.
  intros Hn. unfold setVersionAndTtl; simpl. rewrite Z.lor_spec.
  change (if b then 1 else 0) with (flag b 0). rewrite flag_bit by lia.
  destruct (Z.ltb_spec n 2).
  - rewrite testbit_wrap, Z.shiftl_spec_low by lia.
    destruct (n =? 0); simpl; by rewrite ?andb_true_r, ?andb_false_r.
  - destruct (Z.eqb_spec n 0); [lia|]. rewrite andb_false_r, orb_false_r.
    destruct (Z.ltb_spec n 64).
    + by rewrite testbit_wrap, Z.shiftl_spec by lia.
    + by rewrite testbit_wrap_hi by lia.
Qed.

Lemma emptyEntry_wf : wf emptyEntry.
Proof. by vm_compute. Qed.

Lemma setVersion_wf v e : wf e → wf (setVersion v e).
Proof.
  intros. apply in_u_testbit; [lia|]. intros n ?. rewrite setVersion_bits by (done || lia).
  by destruct (Z.ltb_spec n 2), (Z.ltb_spec n 64); try lia.
Qed.

Lemma setHasTtl_wf b e : wf e → wf (setHasTtl b e).
Proof.
  intros. apply in_u_testbit; [lia|]. intros n ?. rewrite setHasTtl_bits by (done || lia).
  destruct (Z.eqb_spec n 0); [lia|]. by apply (testbit_hi _ 64).
Qed.

Lemma setTombstone_wf b e : wf e → wf (setTombstone b e).
Proof.
  intros. apply in_u_testbit; [lia|]. intros n ?. rewrite setTombstone_bits by (done || lia).
  destruct (Z.eqb_spec n 1); [lia|]. by apply (testbit_hi _ 64).
Qed.

Lemma setVersionAndTtl_wf v b e : wf (setVersionAndTtl v b e).
Proof.
  intros. apply in_u_testbit; [lia|]. intros n ?. rewrite setVersionAndTtl_bits by lia.
  by destruct (Z.eqb_spec n 0), (Z.ltb_spec n 2), (Z.ltb_spec n 64); try lia.
Qed.

#[export] Hint Resolve emptyEntry_wf setVersion_wf setHasTtl_wf setTombstone_wf setVersionAndTtl_wf : entry.

(** The version field has 62 bits: the two top bits of the argument are lost. *)
Lemma setVersion_version v e : wf e → version (setVersion v e) = wrap 62 v.
Proof.
  intros. apply version_ext; [by apply wrap_range| |by auto with entry].
  intros n Hn. rewrite setVersion_bits, testbit_wrap by (done || lia).
  destruct (Z.ltb_spec (n + 2) 2), (Z.ltb_spec (n + 2) 64); try lia. f_equal; lia.
Qed.

Lemma setVersion_hasTtl v e : wf e → hasTtl (setVersion v e) = hasTtl e.
Proof. intros. by rewrite !hasTtl_bit, setVersion_bits by (done || lia). Qed.

Lemma setVersion_isTombstone v e : wf e → isTombstone (setVersion v e) = isTombstone e.
Proof. intros. by rewrite !isTombstone_bit, setVersion_bits by (done || lia). Qed.

Lemma setHasTtl_hasTtl b e : wf e → hasTtl (setHasTtl b e) = b.
Proof. intros. by rewrite hasTtl_bit, setHasTtl_bits by (done || lia). Qed.

Lemma setHasTtl_isTombstone b e : wf e → isTombstone (setHasTtl b e) = isTombstone e.
Proof. intros. by rewrite !isTombstone_bit, setHasTtl_bits by (done || lia). Qed.

Lemma setHasTtl_version b e : wf e → version (setHasTtl b e) = version e.
Proof.
  intros. apply version_ext; [by apply version_range| |by auto with entry].
  intros n Hn. rewrite setHasTtl_bits, version_bit by (done || lia).
  by destruct (Z.eqb_spec (n + 2) 0); [lia|].
Qed.

Lemma setTombstone_isTombstone b e : wf e → isTombstone (setTombstone b e) = b.
Proof. intros. by rewrite isTombstone_bit, setTombstone_bits by (done || lia). Qed.

Lemma setTombstone_hasTtl b e : wf e → hasTtl (setTombstone b e) = hasTtl e.
Proof. intros. by rewrite !hasTtl_bit, setTombstone_bits by (done || lia). Qed.

Lemma setTombstone_version b e : wf e → version (setTombstone b e) = version e.
Proof.
  intros. apply version_ext; [by apply version_range| |by auto with entry].
  intros n Hn. rewrite setTombstone_bits, version_bit by (done || lia).
  by destruct (Z.eqb_spec (n + 2) 1); [lia|].
Qed.

Lemma setVersionAndTtl_version v b e : version (setVersionAndTtl v b e) = wrap 62 v.
Proof.
  intros. apply version_ext; [by apply wrap_range| |by auto with entry].
  intros n Hn. rewrite setVersionAndTtl_bits, testbit_wrap by lia.
  destruct (Z.eqb_spec (n + 2) 0), (Z.ltb_spec (n + 2) 2), (Z.ltb_spec (n + 2) 64); try lia. f_equal; lia.
Qed.

#[export] Hint Rewrite setVersion_version setVersion_hasTtl setVersion_isTombstone
  setHasTtl_hasTtl setHasTtl_isTombstone setHasTtl_version setTombstone_isTombstone
  setTombstone_hasTtl setTombstone_version setVersionAndTtl_version
  using (solve [auto with entry]) : entry.

(** the packed word.  Each of the three fields that share a 64-bit word
    (62-bit version, TTL flag, tombstone flag) reads back what its setter wrote,
    the version truncated to 62 bits, and no setter disturbs the other fields. *)
Theorem entry_fields_independent (e : VersionedEntry) (v : Z) (b : bool) :
  wf e →
  (version (setVersion v e) = wrap 62 v ∧ hasTtl (setVersion v e) = hasTtl e
    ∧ isTombstone (setVersion v e) = isTombstone e) ∧
  (version (setHasTtl b e) = version e ∧ hasTtl (setHasTtl b e) = b
    ∧ isTombstone (setHasTtl b e) = isTombstone e) ∧
  (version (setTombstone b e) = version e ∧ hasTtl (setTombstone b e) = hasTtl e
    ∧ isTombstone (setTombstone b e) = b) ∧
  (version (setVersionAndTtl v b e) = wrap 62 v ∧ hasTtl (setVersionAndTtl v b e) = b
    ∧ isTombstone (setVersionAndTtl v b e) = false) ∧
  wf (setVersion v e) ∧ wf (setHasTtl b e) ∧ wf (setTombstone b e) ∧ wf (setVersionAndTtl v b e).
Proof.
  intros He. autorewrite with entry. split_and!; auto with entry.
  - by rewrite hasTtl_bit, setVersionAndTtl_bits by lia.
  - by rewrite isTombstone_bit, setVersionAndTtl_bits by lia.
Qed.

Lemma entry_fields_independent_witness :
  version (setVersion 5 (mkEntry 3 0 0 [])) = 5 ∧ isTombstone (setVersion 5 (mkEntry 3 0 0 [])) = true.
Proof.
  destruct (entry_fields_independent (mkEntry 3 0 0 []) 5 false) as [(Hv & _ & Ht) _]; [by vm_compute|].
  split; [exact Hv|exact Ht].
Defined.

End EntryFacts.

(** ** Facts about the last-writer-wins order *)

Module LwwFacts.
Import Entry Lww.
Local Open Scope Z_scope.

(** The order as a relation: lexicographic in (version, writer, tombstone). *)
Definition lww_lt (a b : LwwStamp) : Prop :=
  s_version a < s_version b ∨
  (s_version a = s_version b ∧
    (s_writer a < s_writer b ∨
    (s_writer a = s_writer b ∧ s_tombstone a = false ∧ s_tombstone b = true))).

Definition lww_le (a b : LwwStamp) : Prop := a = b ∨ lww_lt a b.

(** Case analysis of a comparison into the relation it decides. *)
Variant lww_spec (a b : LwwStamp) : LwwOrder → Prop :=
  | lww_spec_lt : lww_lt a b → lww_spec a b Less
  | lww_spec_eq : a = b → lww_spec a b Equal
  | lww_spec_gt : lww_lt b a → lww_spec a b Greater.

Lemma compareLww_spec a b : lww_spec a b (compareLww a b).
Proof.
  destruct a as [va wa ta], b as [vb wb tb]. unfold compareLww; simpl.
  destruct (Z.eqb_spec va vb) as [->|]; simpl;
    [|destruct (Z.ltb_spec va vb); constructor; left; simpl; lia].
  destruct (Z.eqb_spec wa wb) as [->|]; simpl;
    [|destruct (Z.ltb_spec wa wb); constructor; right; simpl; lia].
  destruct ta, tb; simpl; constructor; try done; right; simpl; auto.
Qed.

Lemma lww_lt_irrefl a : ¬ lww_lt a a.
Proof. unfold lww_lt. destruct a as [? ? []]; simpl; naive_solver lia. Qed.

Lemma lww_lt_trans a b c : lww_lt a b → lww_lt b c → lww_lt a c.
Proof. unfold lww_lt. intros. naive_solver lia. Qed.

Lemma lww_lt_asymm a b : lww_lt a b → ¬ lww_lt b a.
Proof. intros H H'. by apply (lww_lt_irrefl a), (lww_lt_trans _ b). Qed.

Lemma lww_le_trans a b c : lww_le a b → lww_le b c → lww_le a c.
Proof. intros [->|?] [->|?]; unfold lww_le; eauto using lww_lt_trans. Qed.

Lemma lww_le_antisymm a b : lww_le a b → lww_le b a → a = b.
Proof. intros [->|?] [?|?]; try done. exfalso. by eapply lww_lt_asymm. Qed.

Lemma lwwCovers_le a b : lwwCovers a b = true ↔ lww_le b a.
Proof.
  unfold lwwCovers, lww_le. destruct (compareLww_spec a b) as [H|H|H]; split; try done; eauto.
  intros [->|H']; [by apply lww_lt_irrefl in H|by apply lww_lt_asymm in H].
Qed.

Lemma lwwCovers_false a b : lwwCovers a b = false ↔ lww_lt a b.
Proof.
  unfold lwwCovers. destruct (compareLww_spec a b) as [H|H|H]; split; try done; intros H'.
  - subst. by apply lww_lt_irrefl in H'.
  - by apply lww_lt_asymm in H'.
Qed.

Lemma compareLww_Less a b : compareLww a b = Less ↔ lww_lt a b.
Proof. rewrite <- lwwCovers_false. unfold lwwCovers. by destruct (compareLww a b). Qed.

Lemma compareLww_Equal a b : compareLww a b = Equal ↔ a = b.
Proof.
  destruct (compareLww_spec a b) as [H|H|H]; split; try done;
    intros H'; subst; by apply lww_lt_irrefl in H.
Qed.

#[export] Hint Resolve lww_lt_trans lww_le_trans : lww.

Lemma lwwWinsOver_lt a b : lwwWinsOver a b = true ↔ lww_lt b a.
Proof.
  unfold lwwWinsOver. destruct (compareLww_spec a b) as [Hlt|Heq|Hgt]; (split; [try done|]).
  - intros Hgt. by destruct (lww_lt_asymm _ _ Hlt).
  - intros Hgt. rewrite Heq in Hgt. by destruct (lww_lt_irrefl _ Hgt).
  - done.
Qed.

(** The writes a replica applied, folded into its register. *)
Definition deliver (r : option VersionedEntry) (es : list VersionedEntry) : option VersionedEntry :=
  foldl (λ r e, Some (applyLww r e)) r es.

Definition seen (r : option VersionedEntry) (es : list VersionedEntry) (x : VersionedEntry) : Prop :=
  r = Some x ∨ x ∈ es.

Lemma applyLww_max r e :
  (applyLww r e = e ∨ r = Some (applyLww r e)) ∧
  lww_le (stampOf e) (stampOf (applyLww r e)) ∧
  (∀ x, r = Some x → lww_le (stampOf x) (stampOf (applyLww r e))).
Proof.
  destruct r as [r|]; simpl; [|split_and!; [by left|by left|done]].
  destruct (lwwCovers (stampOf e) (stampOf r)) eqn:E.
  - apply lwwCovers_le in E. split_and!; [by left|by left|]. intros; simplify_eq; done.
  - apply lwwCovers_false in E. split_and!; [by right|by right|]. intros; simplify_eq; by left.
Qed.

(** The register ends on a write that was delivered and that no other one beats. *)
Lemma deliver_max r es m :
  deliver r es = Some m →
  seen r es m ∧ ∀ x, seen r es x → lww_le (stampOf x) (stampOf m).
Proof.
  revert r. induction es as [|e es IH]; intros r; simpl.
  { intros ->. split; [by left|]. intros x [?|?%not_elem_of_nil]; simplify_eq; [by left|done]. }
  intros H. apply IH in H as [Hin Hmax].
  destruct (applyLww_max r e) as (Hsel & He & Hr). split.
  - destruct Hin as [[= <-]|Hin]; [|right; set_solver].
    destruct Hsel as [->|?]; [right; set_solver|by left].
  - pose proof (Hmax (applyLww r e) ltac:(by left)) as Hm.
    intros x [Hx|[->|Hx]%elem_of_cons].
    + eauto with lww.
    + eauto with lww.
    + apply Hmax. by right.
Qed.

Lemma deliver_Some r es : r ≠ None ∨ es ≠ [] → is_Some (deliver r es).
Proof.
  revert r. induction es as [|e es IH]; intros r [H|H]; simpl; try done.
  - by destruct r.
  - apply IH. by left.
  - apply IH. by left.
Qed.

(** conflict resolution is a strict total order.  Two stamps compare equal only
    when they are equal, the comparison is antisymmetric and transitive, and
    winning is exactly not being covered. *)
Theorem compareLww_total_order :
  (∀ a b, compareLww a b = Equal ↔ a = b) ∧
  (∀ a b, compareLww a b = Greater ↔ compareLww b a = Less) ∧
  (∀ a b c, compareLww a b = Less → compareLww b c = Less → compareLww a c = Less) ∧
  (∀ a b, lwwWinsOver a b = negb (lwwCovers b a)).
Proof.
  split_and!.
  - apply compareLww_Equal.
  - intros a b. rewrite compareLww_Less.
    destruct (compareLww_spec a b) as [H|H|H]; split; try done.
    + intros H'. by apply lww_lt_asymm in H'.
    + intros H'. subst. by apply lww_lt_irrefl in H'.
  - intros a b c. rewrite !compareLww_Less. apply lww_lt_trans.
  - intros a b. unfold lwwWinsOver, lwwCovers.
    destruct (compareLww_spec a b) as [H|H|H], (compareLww_spec b a) as [H'|H'|H']; try done;
      subst; exfalso; first [by eapply lww_lt_irrefl | by eapply lww_lt_asymm].
Qed.

(** The order of the writes, and their repetition, does not matter. *)
Lemma deliver_any_order (r : option VersionedEntry) (es es' : list VersionedEntry) :
  (∀ x, x ∈ es ↔ x ∈ es') →
  (∀ x y, seen r es x → seen r es y → stampOf x = stampOf y → x = y) →
  deliver r es = deliver r es'.
Proof.
  intros Hset Hinj.
  assert (∀ x, seen r es x ↔ seen r es' x) as Hseen by (intros; unfold seen; by rewrite Hset).
  destruct (deliver r es) as [m|] eqn:E, (deliver r es') as [m'|] eqn:E'; try done.
  - apply deliver_max in E as [Hm Hmax], E' as [Hm' Hmax'].
    f_equal. apply Hinj; [done|by apply Hseen|].
    apply lww_le_antisymm; [apply Hmax', Hseen, Hm|apply Hmax, Hseen, Hm'].
  - apply deliver_max in E as [Hm _]. apply Hseen in Hm.
    destruct (deliver_Some r es') as [? ?]; [|congruence].
    destruct Hm as [->|Hm]; [by left|right]. by intros ->; apply not_elem_of_nil in Hm.
  - apply deliver_max in E' as [Hm _]. apply Hseen in Hm.
    destruct (deliver_Some r es) as [? ?]; [|congruence].
    destruct Hm as [->|Hm]; [by left|right]. by intros ->; apply not_elem_of_nil in Hm.
Qed.

End LwwFacts.
