(* ===== verification/Bytes.v ===== *)
(** * Sequential byte buffers (include/cinder/net/byte_reader.hpp, byte_writer.hpp)

    [ByteReader] walks a span and fails on truncated input; [ByteWriter] fills
    a pre-sized buffer.  The reader advances only on success.  A write past the
    end of the buffer is an assertion failure of the source and is [None]
    here; the encoders of [Protocol] are proved never to reach it. *)

From S2P Require Import Prelude Types.
Local Open Scope Z_scope.

(** [size()] of a buffer as a [size_t]. *)
Definition zlen (b : bytes) : Z := Z.of_nat (length b).

Definition truncated : Error := mkError InvalidArgument (lit "truncated").

Module ByteReader.

Record t := mk { data : bytes; off : nat }.

Definition make (d : bytes) : t := mk d 0.

Definition remaining (r : t) : Z :=
  if (off r <=? length (data r))%nat then zlen (data r) - Z.of_nat (off r) else 0.

(** [read<T>] with [n = sizeof(T)]: copy [n] bytes into a host integer (little
    endian) and swap them, the wire order being big-endian. *)
Definition read (n : nat) (r : t) : Result Z * t :=
  if Z.of_nat n >? remaining r then (Err truncated, r)
  else
    let val := le_decode (take n (drop (off r) (data r))) in
    (Ok (byteswap n val), mk (data r) (off r + n)).

Definition readByte (r : t) : Result Z * t :=
  if (length (data r) <=? off r)%nat then (Err truncated, r)
  else
    match data r !! off r with
    | Some b => (Ok (Z_of_byte b), mk (data r) (off r + 1))
    | None => (Err truncated, r)
    end.

Definition readBytes (n : Z) (r : t) : Result bytes * t :=
  if n >? remaining r then (Err truncated, r)
  else (Ok (take (Z.to_nat n) (drop (off r) (data r))), mk (data r) (off r + Z.to_nat n)).

(** [readString] and [readStringView] return the same bytes. *)
Definition readStringView (len : Z) (r : t) : Result bytes * t :=
  match readBytes len r with
  | (Ok b, r') => (Ok b, r')
  | (Err e, r') => (Err e, r')
  end.

Definition readString (len : Z) (r : t) : Result bytes * t :=
  match readStringView len r with
  | (Ok v, r') => (Ok v, r')
  | (Err e, r') => (Err e, r')
  end.

End ByteReader.

Module ByteWriter.

Record t := mk { out : bytes; off : nat }.

Definition make (o : bytes) : t := mk o 0.

(** Overwrite [bs] at the offset; [None] is the failed assertion. *)
Definition writeBytes (bs : bytes) (w : t) : option t :=
  if (off w + length bs <=? length (out w))%nat then
    Some (mk (take (off w) (out w) ++ bs ++ drop (off w + length bs) (out w)) (off w + length bs))
  else None.

(** [write<T>] with [n = sizeof(T)]: swap to big-endian, then store the host
    (little-endian) image. *)
Definition write (n : nat) (val : Z) (w : t) : option t :=
  writeBytes (le_encode n (byteswap n val)) w.

Definition writeByte (val : Z) (w : t) : option t := writeBytes [byte_of_Z val] w.

Definition writeString (s : bytes) (w : t) : option t := writeBytes s w.

End ByteWriter.

(** [std::vector::resize] *)
Definition resize (n : nat) (o : bytes) : bytes := take n o ++ replicate (n - length o) x00.

(** Big-endian image of an [n]-byte integer: what the wire carries. *)
Definition be (n : nat) (z : Z) : bytes := rev (le_encode n z).

#[global] Arguments ByteWriter.write : simpl never.
#[global] Arguments ByteReader.read : simpl never.
#[global] Arguments zlen : simpl never.

Lemma zlen_app a b : zlen (a ++ b) = zlen a + zlen b.
Proof. unfold zlen. rewrite length_app. lia. Qed.

(** ** Facts *)

Lemma be_length n z : length (be n z) = n.
Proof. unfold be. by rewrite length_rev, le_encode_length. Qed.

Lemma write_image n z : le_encode n (byteswap n z) = be n z.
Proof.
  unfold byteswap, be. by rewrite le_encode_decode' by by rewrite length_rev, le_encode_length.
Qed.

Lemma read_image n z : byteswap n (le_decode (be n z)) = z mod 256 ^ Z.of_nat n.
Proof.
  unfold byteswap. rewrite le_encode_decode' by apply be_length. unfold be.
  by rewrite rev_involutive, le_decode_encode.
Qed.

Lemma byteswap_range n z : 0 <= byteswap n z < 256 ^ Z.of_nat n.
Proof.
  unfold byteswap. pose proof (le_decode_range (rev (le_encode n z))) as H.
  by rewrite length_rev, le_encode_length in H.
Qed.

(** The unread part of a reader. *)
Definition at_rest (r : ByteReader.t) (rest : bytes) : Prop :=
  (ByteReader.off r <= length (ByteReader.data r))%nat ∧
  drop (ByteReader.off r) (ByteReader.data r) = rest.

Lemma at_rest_make d : at_rest (ByteReader.make d) d.
Proof. split; simpl; [lia|done]. Qed.

Lemma at_rest_remaining r rest : at_rest r rest → ByteReader.remaining r = zlen rest.
Proof.
  intros [H <-]. unfold ByteReader.remaining, zlen.
  destruct (Nat.leb_spec (ByteReader.off r) (length (ByteReader.data r))); [|lia].
  rewrite length_drop. lia.
Qed.

Lemma at_rest_step r a rest :
  at_rest r (a ++ rest) → at_rest (ByteReader.mk (ByteReader.data r) (ByteReader.off r + length a)) rest.
Proof.
  intros [H E]. split; simpl.
  - apply (f_equal length) in E. rewrite length_drop, length_app in E. lia.
  - by rewrite <- drop_drop, E, drop_app_length.
Qed.

(** Reading back what a write laid down, whatever follows it. *)
Lemma read_be n z r rest :
  at_rest r (be n z ++ rest) →
  ∃ r', ByteReader.read n r = (Ok (z mod 256 ^ Z.of_nat n), r') ∧ at_rest r' rest.
Proof.
  intros H. unfold ByteReader.read. rewrite (at_rest_remaining _ _ H).
  unfold zlen. rewrite length_app, be_length.
  destruct (Z.gtb_spec (Z.of_nat n) (Z.of_nat (n + length rest))); [lia|].
  pose proof (at_rest_step _ _ _ H) as Hs. rewrite be_length in Hs.
  eexists. split; [|exact Hs].
  destruct H as [_ ->]. rewrite take_app_length' by by rewrite be_length. by rewrite read_image.
Qed.

Lemma read_bytes_app s r rest :
  at_rest r (s ++ rest) →
  ∃ r', ByteReader.readStringView (zlen s) r = (Ok s, r') ∧ at_rest r' rest.
Proof.
  intros H. unfold ByteReader.readStringView, ByteReader.readBytes.
  rewrite (at_rest_remaining _ _ H). unfold zlen. rewrite length_app.
  destruct (Z.gtb_spec (Z.of_nat (length s)) (Z.of_nat (length s + length rest))); [lia|].
  eexists. rewrite Nat2Z.id. split; [|by apply at_rest_step].
  destruct H as [_ ->]. by rewrite take_app_length.
Qed.

(** What a successful read says about the input. *)
Lemma read_Ok_inv n r rest z r' :
  at_rest r rest → ByteReader.read n r = (Ok z, r') →
  ∃ rest', rest = be n z ++ rest' ∧ at_rest r' rest' ∧ 0 <= z < 256 ^ Z.of_nat n.
Proof.
  intros H. unfold ByteReader.read. rewrite (at_rest_remaining _ _ H). unfold zlen.
  destruct (Z.gtb_spec (Z.of_nat n) (Z.of_nat (length rest))) as [|Hn]; [done|].
  destruct H as [Hoff <-]. rewrite length_drop in Hn. intros [= <- <-].
  set (l := take n (drop (ByteReader.off r) (ByteReader.data r))).
  assert (length l = n) as Hl by (unfold l; rewrite length_take, length_drop; lia).
  exists (drop n (drop (ByteReader.off r) (ByteReader.data r))).
  split_and!; try apply byteswap_range.
  - assert (be n (byteswap n (le_decode l)) = l) as ->; [|by unfold l; rewrite take_drop].
    unfold be, byteswap. rewrite (le_encode_decode' n l) by done.
    rewrite le_encode_decode' by by rewrite length_rev. apply rev_involutive.
  - split; simpl; [lia|]. by rewrite drop_drop.
Qed.

Lemma readString_Ok_inv n r rest s r' :
  0 <= n → at_rest r rest → ByteReader.readStringView n r = (Ok s, r') →
  ∃ rest', rest = s ++ rest' ∧ at_rest r' rest' ∧ zlen s = n.
Proof.
  intros H0 H. unfold ByteReader.readStringView, ByteReader.readBytes.
  rewrite (at_rest_remaining _ _ H). unfold zlen.
  destruct (Z.gtb_spec n (Z.of_nat (length rest))) as [|Hn]; [done|].
  destruct H as [Hoff <-]. rewrite length_drop in Hn. intros [= <- <-].
  exists (drop (Z.to_nat n) (drop (ByteReader.off r) (ByteReader.data r))). split_and!.
  - by rewrite take_drop.
  - split; simpl; [lia|]. by rewrite drop_drop.
  - rewrite length_take, length_drop. lia.
Qed.

(** A writer that has produced [pre] and has [n] bytes of room left. *)
Definition wrote (w : ByteWriter.t) (pre : bytes) (n : nat) : Prop :=
  ∃ rest, ByteWriter.out w = pre ++ rest ∧ ByteWriter.off w = length pre ∧ length rest = n.

Lemma wrote_make o : wrote (ByteWriter.make o) [] (length o).
Proof. by exists o. Qed.

Lemma wrote_writeBytes w pre n bs :
  wrote w pre n → (length bs <= n)%nat →
  ∃ w', ByteWriter.writeBytes bs w = Some w' ∧ wrote w' (pre ++ bs) (n - length bs).
Proof.
  intros (rest & Ho & Hoff & Hn) Hlen. unfold ByteWriter.writeBytes. rewrite Ho, Hoff, length_app.
  destruct (Nat.leb_spec (length pre + length bs) (length pre + length rest)); [|lia].
  eexists. split; [done|]. exists (drop (length bs) rest). simpl. split_and!.
  - rewrite take_app_length, <- drop_drop, drop_app_length. by rewrite (assoc_L (++)).
  - by rewrite length_app.
  - rewrite length_drop. lia.
Qed.

Lemma wrote_write w pre n k z :
  wrote w pre n → (k <= n)%nat →
  ∃ w', ByteWriter.write k z w = Some w' ∧ wrote w' (pre ++ be k z) (n - k).
Proof.
  intros H Hk. unfold ByteWriter.write. rewrite write_image.
  destruct (wrote_writeBytes w pre n (be k z)) as (w' & ? & Hw); [done|by rewrite be_length|].
  rewrite be_length in Hw. eauto.
Qed.

Lemma wrote_done w pre : wrote w pre 0 → ByteWriter.out w = pre ∧ ByteWriter.off w = length pre.
Proof. intros (rest & -> & ? & ?). destruct rest; [|done]. by rewrite app_nil_r. Qed.

Lemma resize_length n o : length (resize n o) = n.
Proof. unfold resize. rewrite length_app, length_take, length_replicate. lia. Qed.

Lemma be4_bytes z :
  be 4 z = [byte_of_Z (z / 256 / 256 / 256); byte_of_Z (z / 256 / 256); byte_of_Z (z / 256); byte_of_Z z].
Proof. done. Qed.

Lemma be1_byte z : be 1 z = [byte_of_Z z].
Proof. done. Qed.

#[global] Opaque be.
