(* ===== verification/Protocol.v ===== *)
(** * Wire protocol (include/cinder/net/protocol.hpp, src/net/protocol.cpp)

    Frame parsing, the request and response encoders over [ByteWriter], and
    the decoders over [ByteReader], statement by statement.  The facts relate
    both sides to one layout function per message. *)

From S2P Require Import Prelude Types Bytes.
Local Open Scope Z_scope.

Definition K_MAGIC : Z := 0xC1.
Definition K_VERSION : Z := 5.
Definition K_MAX_MESSAGE_SIZE : Z := 67108864.

(** magic + version, opcode, payload length *)
Definition computeFrameHeaderSize : Z := 0 + 2 + 1 + 4.
Definition K_FRAME_HEADER_SIZE : Z := computeFrameHeaderSize.
Definition K_MAX_PAYLOAD_SIZE : Z := K_MAX_MESSAGE_SIZE - K_FRAME_HEADER_SIZE.

Definition K_FLAG_HAS_TTL : Z := Z.shiftl 1 0.
Definition K_FLAG_HAS_EXPIRES_AT : Z := Z.shiftl 1 1.
Definition K_FLAG_HAS_TRACE : Z := Z.shiftl 1 2.
Definition K_FLAG_HAS_AUTH : Z := Z.shiftl 1 3.
Definition K_FLAG_HAS_TOMBSTONE : Z := Z.shiftl 1 4.

Definition UINT32_MAX : Z := 2 ^ 32 - 1.

Inductive Opcode :=
  | Get | Set_ | Del | Ping | Gossip | Replicate | Hint | GetVersioned
  | AntiEntropyDigest | AntiEntropySync | AdminInfo | AdminCluster | AdminRing
  | AdminCompact | AdminConfigReload | AdminShutdown.

#[global] Instance Opcode_eq_dec : EqDecision Opcode.
Proof. solve_decision. Defined.

Definition opcode_code (o : Opcode) : Z :=
  match o with
  | Get => 1 | Set_ => 2 | Del => 3 | Ping => 4 | Gossip => 5 | Replicate => 6
  | Hint => 7 | GetVersioned => 8 | AntiEntropyDigest => 9 | AntiEntropySync => 10
  | AdminInfo => 11 | AdminCluster => 12 | AdminRing => 13 | AdminCompact => 14
  | AdminConfigReload => 15 | AdminShutdown => 16
  end.

Definition all_opcodes : list Opcode :=
  [Get; Set_; Del; Ping; Gossip; Replicate; Hint; GetVersioned; AntiEntropyDigest;
   AntiEntropySync; AdminInfo; AdminCluster; AdminRing; AdminCompact; AdminConfigReload;
   AdminShutdown].

(** The compile-time check: every enumerator lies in the decoder's range and
    the range has no other value. *)
Definition opcodeRangeCoverage : bool :=
  let min := opcode_code Get in
  let max := opcode_code AdminShutdown in
  forallb (λ op, negb ((opcode_code op <? min) || (max <? opcode_code op))) all_opcodes &&
  (Z.of_nat (length all_opcodes) =? max - min + 1).

(** [static_cast<Opcode>] on a value inside the validated range. *)
Definition opcode_of (raw : Z) : option Opcode :=
  list_find (λ op, opcode_code op = raw) all_opcodes ≫= λ '(_, op), Some op.

Record Request := mkRequest {
  opcode : Opcode;
  trace_id : Z;
  span_id : Z;
  key : bytes;
  value : bytes;
  version : Z;
  writer_node_hash : Z;
  ttl : option Z;          (* milliseconds, int64_t count *)
  expires_at : option Z;   (* system_clock::time_point, nanoseconds *)
  tombstone : bool }.

#[global] Instance Request_eq_dec : EqDecision Request.
Proof. solve_decision. Defined.

Record DecodedRequest := mkDecoded { req : Request; auth_token : bytes }.

Record Response := mkResponse {
  status : Z;              (* underlying value of Errc *)
  r_value : option bytes;
  r_version : Z;
  r_writer_node_hash : Z;
  r_expires_at : option Z; (* system_clock::time_point, nanoseconds *)
  r_tombstone : bool;
  r_trace_id : Z;
  r_span_id : Z }.

(** ** Frames *)

Definition invalid {A} (msg : String.string) : Result A := Err (mkError InvalidArgument (lit msg)).

Definition byte_at (b : bytes) (i : nat) : Z :=
  match b !! i with Some x => Z_of_byte x | None => 0 end.

(** Four bytes assembled most significant first. *)
Definition readBe32 (buf : bytes) : Z :=
  Z.lor (Z.lor (Z.lor (Z.shiftl (byte_at buf 0) 24) (Z.shiftl (byte_at buf 1) 16))
    (Z.shiftl (byte_at buf 2) 8)) (byte_at buf 3).

Record FrameView := mkFrameView { fv_opcode : Z; fv_payload : bytes }.

Definition parseFrame (frame : bytes) : Result FrameView :=
  if zlen frame <? K_FRAME_HEADER_SIZE then invalid "frame too small"
  else if negb (byte_at frame 0 =? K_MAGIC) then invalid "bad magic"
  else if negb (byte_at frame 1 =? K_VERSION) then invalid "bad version"
  else
    let payload_size := readBe32 (drop 3 frame) in
    if K_MAX_PAYLOAD_SIZE <? payload_size then invalid "payload too large"
    else if zlen frame - K_FRAME_HEADER_SIZE <? payload_size then invalid "truncated frame"
    else Ok (mkFrameView (byte_at frame 2)
               (take (Z.to_nat payload_size) (drop (Z.to_nat K_FRAME_HEADER_SIZE) frame))).

Definition frameSizeForPayload (payload_size : Z) : Result Z :=
  if K_MAX_PAYLOAD_SIZE <? payload_size then invalid "message too large"
  else Ok (K_FRAME_HEADER_SIZE + payload_size).

(** [None] is the [false] of the source, which leaves the counter alone. *)
Definition addPayloadSize (payload_size field_size : Z) : option Z :=
  if (K_MAX_PAYLOAD_SIZE <? payload_size) || (K_MAX_PAYLOAD_SIZE - payload_size <? field_size)
  then None
  else Some (payload_size + field_size).

Definition addAll (payload_size : Z) (fields : list Z) : option Z :=
  foldl (λ acc n, acc ≫= λ p, addPayloadSize p n) (Some payload_size) fields.

Definition opt_field (b : bool) (n : Z) : list Z := if b then [n] else [].
Definition has {A} (o : option A) : bool := match o with Some _ => true | None => false end.

(** [duration_cast<milliseconds>] of a nanosecond count truncates toward zero. *)
Definition to_ms (ns : Z) : Z := Z.quot ns 1000000.

(** [static_cast<uint64_t>] of the millisecond count. *)
Definition expiry_wire (ns : Z) : Z := u64 (to_ms ns).

Definition K_MAX_MS : Z := (2 ^ 63 - 1) / 1000000.

(** Conditional write statements. *)
Definition when_some {A} (o : option A) (k : A → ByteWriter.t → option ByteWriter.t)
    (w : ByteWriter.t) : option ByteWriter.t :=
  match o with Some a => k a w | None => Some w end.

Definition when (b : bool) (k : ByteWriter.t → option ByteWriter.t)
    (w : ByteWriter.t) : option ByteWriter.t :=
  if b then k w else Some w.

Definition orflag (b : bool) (f : Z) (flags : Z) : Z := if b then Z.lor flags f else flags.

(** ** Requests *)

(** The write statements, in order; each is a step of the writer. *)
Definition writeRequest (req : Request) (auth : bytes) (payload_size : Z)
    (w : ByteWriter.t) : option ByteWriter.t :=
  let has_trace := negb (trace_id req =? 0) in
  let has_auth := negb (zlen auth =? 0) in
  w ← ByteWriter.writeByte K_MAGIC w;
  w ← ByteWriter.writeByte K_VERSION w;
  w ← ByteWriter.writeByte (opcode_code (opcode req)) w;
  w ← ByteWriter.write 4 (u32 payload_size) w;
  let flags := orflag (has (ttl req)) K_FLAG_HAS_TTL 0 in
  let flags := orflag (has (expires_at req)) K_FLAG_HAS_EXPIRES_AT flags in
  let flags := orflag (tombstone req) K_FLAG_HAS_TOMBSTONE flags in
  let flags := orflag has_trace K_FLAG_HAS_TRACE flags in
  let flags := orflag has_auth K_FLAG_HAS_AUTH flags in
  w ← ByteWriter.writeByte flags w;
  w ← when_some (ttl req) (λ t, ByteWriter.write 4 (u32 t)) w;
  w ← when_some (expires_at req) (λ t, ByteWriter.write 8 (expiry_wire t)) w;
  w ← ByteWriter.write 8 (version req) w;
  w ← ByteWriter.write 8 (writer_node_hash req) w;
  w ← ByteWriter.write 4 (u32 (zlen (key req))) w;
  w ← ByteWriter.writeString (key req) w;
  w ← ByteWriter.write 4 (u32 (zlen (value req))) w;
  w ← when (negb (zlen (value req) =? 0)) (ByteWriter.writeString (value req)) w;
  w ← when has_trace (λ w, ByteWriter.write 8 (trace_id req) w ≫= ByteWriter.write 8 (span_id req)) w;
  when has_auth (ByteWriter.writeString auth) w.

(** Resize the caller's buffer, run the writes, and check that they filled it:
    [None] is an overrun or the failed final assertion. *)
Definition fill (body : ByteWriter.t → option ByteWriter.t) (total : Z) (out : bytes)
    : option (Result bytes) :=
  let out := resize (Z.to_nat total) out in
  w ← body (ByteWriter.make out);
  if (ByteWriter.off w =? length out)%nat then Some (Ok (ByteWriter.out w)) else None.

Definition encodeInto (req : Request) (out : bytes) (auth : bytes) : option (Result bytes) :=
  if (UINT32_MAX <? zlen (key req)) || (UINT32_MAX <? zlen (value req))
  then Some (invalid "message too large") else
  match addAll 0 ([4; zlen (key req); 4; zlen (value req); 8 * 2]
                  ++ opt_field (has (ttl req)) 4 ++ [1] ++ opt_field (has (expires_at req)) 8) with
  | None => Some (invalid "message too large")
  | Some p0 =>
  let has_trace := negb (trace_id req =? 0) in
  match addAll p0 (opt_field has_trace (8 * 2)) with
  | None => Some (invalid "message too large")
  | Some p1 =>
  let has_auth := negb (zlen auth =? 0) in
  if has_auth && negb (zlen auth =? 32) then Some (invalid "auth token must be 32 bytes") else
  match addAll p1 (opt_field has_auth 32) with
  | None => Some (invalid "message too large")
  | Some payload_size =>
  match frameSizeForPayload payload_size with
  | Err e => Some (Err e)
  | Ok total => fill (writeRequest req auth payload_size) total out
  end end end end.

Definition encode (req : Request) (auth : bytes) : option (Result bytes) := encodeInto req [] auth.

(** Sequencing of reader steps: the first error is returned. *)
Notation "'read!' x , r := c 'in' k" :=
  (match c with (Ok x, r) => k | (Err e, _) => Err e end)
  (at level 10, x name, r name, c at level 100, k at level 200).

Definition flag_set (flags f : Z) : bool := negb (Z.land flags f =? 0).

(** A relative time to live in milliseconds. *)
Definition readTtl (present : bool) (r : ByteReader.t) : Result (option Z) * ByteReader.t :=
  if present then
    match ByteReader.read 4 r with
    | (Ok t, r) => (Ok (Some t), r)
    | (Err e, r) => (Err e, r)
    end
  else (Ok None, r).

(** An absolute wall-clock expiry in milliseconds, if it fits a [time_point]. *)
Definition readExpiry (present : bool) (r : ByteReader.t) : Result (option Z) * ByteReader.t :=
  if present then
    match ByteReader.read 8 r with
    | (Ok e, r) =>
        if K_MAX_MS <? e then (invalid "expires_at overflow", r) else (Ok (Some (e * 1000000)), r)
    | (Err e, r) => (Err e, r)
    end
  else (Ok None, r).

(** A length-prefixed string; a zero length reads nothing. *)
Definition readSized (r : ByteReader.t) : Result bytes * ByteReader.t :=
  match ByteReader.read 4 r with
  | (Ok len, r) => if 0 <? len then ByteReader.readStringView len r else (Ok [], r)
  | (Err e, r) => (Err e, r)
  end.

(** The optional trace context: ignored when fewer than 16 bytes remain, and a
    zero trace id carries no span. *)
Definition readTrace (flags : Z) (r : ByteReader.t) : Z * Z * ByteReader.t :=
  if flag_set flags K_FLAG_HAS_TRACE && (8 * 2 <=? ByteReader.remaining r) then
    let '(tid, r) := ByteReader.read 8 r in
    let '(sid, r) := ByteReader.read 8 r in
    match tid, sid with
    | Ok t, Ok s => (t, if t =? 0 then 0 else s, r)
    | _, _ => (0, 0, r)
    end
  else (0, 0, r).

Definition decode (frame : bytes) : Result DecodedRequest :=
  match parseFrame frame with
  | Err e => Err e
  | Ok view =>
  let r := ByteReader.make (fv_payload view) in
  let raw_opcode := fv_opcode view in
  if (raw_opcode <? opcode_code Get) || (opcode_code AdminShutdown <? raw_opcode)
  then invalid "unknown opcode" else
  match opcode_of raw_opcode with
  | None => invalid "unknown opcode"
  | Some op =>
  read! flags, r := ByteReader.read 1 r in
  read! ttl, r := readTtl (flag_set flags K_FLAG_HAS_TTL) r in
  read! expires_at, r := readExpiry (flag_set flags K_FLAG_HAS_EXPIRES_AT) r in
  read! version, r := ByteReader.read 8 r in
  read! writer_node_hash, r := ByteReader.read 8 r in
  read! key, r := readSized r in
  read! value, r := readSized r in
  let '(trace_id, span_id, r) := readTrace flags r in
  let auth_token :=
    if flag_set flags K_FLAG_HAS_AUTH && (32 <=? ByteReader.remaining r) then
      match ByteReader.readBytes 32 r with (Ok a, _) => a | (Err _, _) => [] end
    else [] in
  Ok (mkDecoded
        (mkRequest op trace_id span_id key value version writer_node_hash ttl expires_at
           (flag_set flags K_FLAG_HAS_TOMBSTONE))
        auth_token)
  end end.

(** ** Responses *)

Definition writeResponse (res : Response) (payload_size : Z)
    (w : ByteWriter.t) : option ByteWriter.t :=
  let has_version_meta := negb (r_version res =? 0) || negb (r_writer_node_hash res =? 0) in
  let flags := orflag has_version_meta 1 0 in
  let flags := orflag (has (r_expires_at res)) K_FLAG_HAS_EXPIRES_AT flags in
  let flags := orflag (r_tombstone res) K_FLAG_HAS_TOMBSTONE flags in
  let has_trace := negb (r_trace_id res =? 0) in
  let flags := orflag has_trace K_FLAG_HAS_TRACE flags in
  w ← ByteWriter.writeByte K_MAGIC w;
  w ← ByteWriter.writeByte K_VERSION w;
  w ← ByteWriter.writeByte 0 w;
  w ← ByteWriter.write 4 (u32 payload_size) w;
  w ← ByteWriter.writeByte (status res) w;
  w ← ByteWriter.writeByte flags w;
  w ← when has_version_meta
        (λ w, ByteWriter.write 8 (r_version res) w ≫= ByteWriter.write 8 (r_writer_node_hash res)) w;
  w ← when_some (r_expires_at res) (λ t, ByteWriter.write 8 (expiry_wire t)) w;
  w ← ByteWriter.write 4 (u32 (if has (r_value res) then 1 else 0)) w;
  w ← when_some (r_value res) (λ v, ByteWriter.writeString v) w;
  when has_trace
    (λ w, ByteWriter.write 8 (r_trace_id res) w ≫= ByteWriter.write 8 (r_span_id res)) w.

Definition encodeResponseInto (res : Response) (out : bytes) : option (Result bytes) :=
  let has_version_meta := negb (r_version res =? 0) || negb (r_writer_node_hash res =? 0) in
  let has_trace := negb (r_trace_id res =? 0) in
  match addAll 0 ([1 * 2 + 4] ++ opt_field has_version_meta (8 * 2)
                  ++ opt_field (has (r_expires_at res)) 8) with
  | None => Some (invalid "message too large")
  | Some p0 =>
  match (match r_value res with
         | None => Some p0
         | Some v => if UINT32_MAX <? zlen v then None else addPayloadSize p0 (zlen v)
         end) with
  | None => Some (invalid "message too large")
  | Some p1 =>
  match addAll p1 (opt_field has_trace (8 * 2)) with
  | None => Some (invalid "message too large")
  | Some payload_size =>
  match frameSizeForPayload payload_size with
  | Err e => Some (Err e)
  | Ok total => fill (writeResponse res payload_size) total out
  end end end end.

Definition encodeResponse (res : Response) : option (Result bytes) := encodeResponseInto res [].

(** The version metadata, when flagged. *)
Definition readMeta (present : bool) (r : ByteReader.t) : Result (Z * Z) * ByteReader.t :=
  if present then
    match ByteReader.read 8 r with
    | (Ok v, r) =>
        match ByteReader.read 8 r with
        | (Ok h, r) => (Ok (v, h), r)
        | (Err e, r) => (Err e, r)
        end
    | (Err e, r) => (Err e, r)
    end
  else (Ok (0, 0), r).

(** The value takes what remains but for a complete trace context. *)
Definition readValue (flags has_val : Z) (r : ByteReader.t) : Result (option bytes) * ByteReader.t :=
  if negb (has_val =? 0) then
    let trace_size := if flag_set flags K_FLAG_HAS_TRACE then 8 * 2 else 0 in
    let remaining := ByteReader.remaining r in
    let val_len := if trace_size <? remaining then remaining - trace_size else 0 in
    match ByteReader.readStringView val_len r with
    | (Ok v, r) => (Ok (Some v), r)
    | (Err e, r) => (Err e, r)
    end
  else (Ok None, r).

Definition decodeResponse (frame : bytes) : Result Response :=
  match parseFrame frame with
  | Err e => Err e
  | Ok view =>
  let r := ByteReader.make (fv_payload view) in
  read! status, r := ByteReader.read 1 r in
  read! flags, r := (if 0 <? ByteReader.remaining r then ByteReader.read 1 r else (Ok 0, r)) in
  read! meta, r := readMeta (flag_set flags 1) r in
  read! expires_at, r := readExpiry (flag_set flags K_FLAG_HAS_EXPIRES_AT) r in
  read! has_val, r := ByteReader.read 4 r in
  read! value, r := readValue flags has_val r in
  let '(trace_id, span_id, r) := readTrace flags r in
  Ok (mkResponse status value meta.1 meta.2 expires_at
        (flag_set flags K_FLAG_HAS_TOMBSTONE) trace_id span_id)
  end.

(** ** Layouts

    What the encoders put on the wire, as one list. *)

Definition opt_bytes {A} (o : option A) (f : A → bytes) : bytes :=
  match o with Some a => f a | None => [] end.

Definition request_flags (req : Request) (auth : bytes) : Z :=
  orflag (negb (zlen auth =? 0)) K_FLAG_HAS_AUTH
    (orflag (negb (trace_id req =? 0)) K_FLAG_HAS_TRACE
      (orflag (tombstone req) K_FLAG_HAS_TOMBSTONE
        (orflag (has (expires_at req)) K_FLAG_HAS_EXPIRES_AT
          (orflag (has (ttl req)) K_FLAG_HAS_TTL 0)))).

Definition trace_bytes (t s : Z) : bytes := if t =? 0 then [] else be 8 t ++ be 8 s.

Definition request_payload (req : Request) (auth : bytes) : bytes :=
  [byte_of_Z (request_flags req auth)]
  ++ opt_bytes (ttl req) (λ t, be 4 (u32 t))
  ++ opt_bytes (expires_at req) (λ t, be 8 (expiry_wire t))
  ++ be 8 (version req) ++ be 8 (writer_node_hash req)
  ++ be 4 (u32 (zlen (key req))) ++ key req
  ++ be 4 (u32 (zlen (value req))) ++ value req
  ++ trace_bytes (trace_id req) (span_id req) ++ auth.

Definition frame_of (op : Z) (payload : bytes) : bytes :=
  [byte_of_Z K_MAGIC; byte_of_Z K_VERSION; byte_of_Z op] ++ be 4 (zlen payload) ++ payload.

Definition response_flags (res : Response) : Z :=
  orflag (negb (r_trace_id res =? 0)) K_FLAG_HAS_TRACE
    (orflag (r_tombstone res) K_FLAG_HAS_TOMBSTONE
      (orflag (has (r_expires_at res)) K_FLAG_HAS_EXPIRES_AT
        (orflag (negb (r_version res =? 0) || negb (r_writer_node_hash res =? 0)) 1 0))).

Definition response_payload (res : Response) : bytes :=
  [byte_of_Z (status res); byte_of_Z (response_flags res)]
  ++ (if negb (r_version res =? 0) || negb (r_writer_node_hash res =? 0)
      then be 8 (r_version res) ++ be 8 (r_writer_node_hash res) else [])
  ++ opt_bytes (r_expires_at res) (λ t, be 8 (expiry_wire t))
  ++ be 4 (u32 (if has (r_value res) then 1 else 0))
  ++ opt_bytes (r_value res) id
  ++ trace_bytes (r_trace_id res) (r_span_id res).

(** ** What survives a trip over the wire *)

Definition canonical_request (req : Request) : Request :=
  mkRequest (opcode req) (trace_id req) (if trace_id req =? 0 then 0 else span_id req)
    (key req) (value req) (version req) (writer_node_hash req)
    (u32 <$> ttl req) ((λ t, expiry_wire t * 1000000) <$> expires_at req) (tombstone req).

Definition canonical_response (res : Response) : Response :=
  mkResponse (status res) (r_value res) (r_version res) (r_writer_node_hash res)
    ((λ t, expiry_wire t * 1000000) <$> r_expires_at res) (r_tombstone res)
    (r_trace_id res) (if r_trace_id res =? 0 then 0 else r_span_id res).

(** The fields that are unsigned 64-bit integers of the structs hold such values. *)
Definition request_typed (req : Request) : Prop :=
  in_u 64 (trace_id req) ∧ in_u 64 (span_id req) ∧ in_u 64 (version req)
  ∧ in_u 64 (writer_node_hash req).

Definition response_typed (res : Response) : Prop :=
  in_u 8 (status res) ∧ in_u 64 (r_version res) ∧ in_u 64 (r_writer_node_hash res)
  ∧ in_u 64 (r_trace_id res) ∧ in_u 64 (r_span_id res).

(** An expiry the decoder accepts: not before the epoch, and within the range
    of a nanosecond [time_point]. *)
Definition expiry_ok (o : option Z) : Prop :=
  match o with Some t => expiry_wire t <= K_MAX_MS | None => True end.

Definition fits (payload : bytes) : Prop := zlen payload <= K_MAX_PAYLOAD_SIZE.

(** ** Facts: sizes *)

Definition zsum (l : list Z) : Z := foldr Z.add 0 l.

Lemma addAll_None fs : foldl (λ acc n, acc ≫= λ p, addPayloadSize p n) None fs = None.
Proof. by induction fs. Qed.

Lemma zsum_nonneg fs : Forall (λ n, 0 <= n) fs → 0 <= zsum fs.
Proof. induction 1; simpl; lia. Qed.

(** The running size check accepts exactly the totals within the budget. *)
Lemma addAll_spec p fs :
  0 <= p <= K_MAX_PAYLOAD_SIZE → Forall (λ n, 0 <= n) fs →
  addAll p fs = if K_MAX_PAYLOAD_SIZE <? p + zsum fs then None else Some (p + zsum fs).
Proof.
  intros Hp Hfs. revert p Hp. induction Hfs as [|n fs Hn Hfs IH]; intros p Hp; unfold addAll; simpl.
  { rewrite Z.add_0_r. destruct (Z.ltb_spec K_MAX_PAYLOAD_SIZE p); [lia|done]. }
  apply zsum_nonneg in Hfs.
  unfold addPayloadSize. destruct (Z.ltb_spec K_MAX_PAYLOAD_SIZE p); [lia|]; simpl.
  destruct (Z.ltb_spec (K_MAX_PAYLOAD_SIZE - p) n); simpl.
  - rewrite addAll_None. destruct (Z.ltb_spec K_MAX_PAYLOAD_SIZE (p + (n + zsum fs))); [done|lia].
  - change (foldl _ _ fs) with (addAll (p + n) fs). rewrite IH by lia. by rewrite Z.add_assoc.
Qed.

Lemma addAll_app p fs gs :
  addAll p (fs ++ gs) = addAll p fs ≫= λ q, addAll q gs.
Proof.
  unfold addAll. rewrite foldl_app.
  destruct (foldl _ (Some p) fs); simpl; [done|apply addAll_None].
Qed.

Lemma opt_field_nonneg b n : 0 <= n → Forall (λ n, 0 <= n) (opt_field b n).
Proof. destruct b; repeat constructor; done. Qed.

Lemma zsum_app a b : zsum (a ++ b) = zsum a + zsum b.
Proof. induction a; simpl; lia. Qed.

Lemma zsum_opt b n : zsum (opt_field b n) = if b then n else 0.
Proof. destruct b; simpl; lia. Qed.

Lemma zlen_be n z : zlen (be n z) = Z.of_nat n.
Proof. unfold zlen. by rewrite be_length. Qed.

Lemma zlen_nonneg b : 0 <= zlen b.
Proof. unfold zlen. lia. Qed.

Lemma zlen_trace t s : zlen (trace_bytes t s) = if negb (t =? 0) then 16 else 0.
Proof. unfold trace_bytes. destruct (t =? 0); simpl; [done|]. by rewrite zlen_app, !zlen_be. Qed.

Lemma zlen_opt_be {A} (o : option A) n f :
  zlen (opt_bytes o (λ t, be n (f t))) = if has o then Z.of_nat n else 0.
Proof. destruct o; simpl; [by rewrite zlen_be|done]. Qed.

Definition auth_ok (auth : bytes) : Prop := auth = [] ∨ zlen auth = 32.

Lemma auth_ok_size auth : auth_ok auth → zlen auth = if negb (zlen auth =? 0) then 32 else 0.
Proof. intros [->|H]; [done|by rewrite H]. Qed.

Definition request_fields (req : Request) : list Z :=
  [4; zlen (key req); 4; zlen (value req); 16]
  ++ opt_field (has (ttl req)) 4 ++ [1] ++ opt_field (has (expires_at req)) 8
  ++ opt_field (negb (trace_id req =? 0)) 16.

Lemma request_size req auth :
  auth_ok auth →
  zlen (request_payload req auth)
  = zsum (request_fields req) + (if negb (zlen auth =? 0) then 32 else 0).
Proof.
  intros Ha. rewrite <- (auth_ok_size _ Ha). unfold request_payload, request_fields.
  rewrite !zlen_app, !zlen_be, !zlen_opt_be, zlen_trace, !zsum_app, !zsum_opt.
  change (zlen [_]) with 1. simpl zsum. repeat case_match; lia.
Qed.

Lemma request_fields_nonneg req : Forall (λ n, 0 <= n) (request_fields req).
Proof.
  unfold request_fields. pose proof (zlen_nonneg (key req)). pose proof (zlen_nonneg (value req)).
  repeat first [apply Forall_app_2 | apply opt_field_nonneg | constructor]; lia.
Qed.

(** ** Facts: the encoders fill their buffer exactly *)

(** A writer step that appends [bs]. *)
Definition writes (k : ByteWriter.t → option ByteWriter.t) (bs : bytes) : Prop :=
  ∀ w pre n, wrote w pre n → (length bs <= n)%nat →
  ∃ w', k w = Some w' ∧ wrote w' (pre ++ bs) (n - length bs).

Lemma writes_bind f g a b : writes f a → writes g b → writes (λ w, f w ≫= g) (a ++ b).
Proof.
  intros Hf Hg w pre n Hw Hlen. rewrite length_app in Hlen.
  destruct (Hf w pre n Hw) as (w1 & E1 & H1); [lia|]. rewrite E1; simpl.
  destruct (Hg w1 _ _ H1) as (w2 & E2 & H2); [lia|].
  exists w2. split; [done|]. rewrite (assoc_L (++)), length_app.
  by replace (n - (length a + length b))%nat with (n - length a - length b)%nat by lia.
Qed.

Lemma writes_bytes bs : writes (ByteWriter.writeBytes bs) bs.
Proof. intros w pre n. apply wrote_writeBytes. Qed.

Lemma writes_string s : writes (ByteWriter.writeString s) s.
Proof. apply writes_bytes. Qed.

Lemma writes_byte z : writes (ByteWriter.writeByte z) [byte_of_Z z].
Proof. apply writes_bytes. Qed.

Lemma writes_int k z : writes (ByteWriter.write k z) (be k z).
Proof. intros w pre n ? Hl. rewrite be_length in *. by apply wrote_write. Qed.

Lemma writes_none : writes Some [].
Proof. intros w pre n Hw _. exists w. rewrite app_nil_r, Nat.sub_0_r. done. Qed.

Lemma writes_when b k bs : writes k bs → writes (when b k) (if b then bs else []).
Proof. intros H. destruct b; [exact H|apply writes_none]. Qed.

Lemma writes_when_some {A} (o : option A) k f :
  (∀ a, writes (k a) (f a)) → writes (when_some o k) (opt_bytes o f).
Proof. intros H. destruct o as [a|]; [exact (H a)|apply writes_none]. Qed.

Create HintDb writes.
#[export] Hint Resolve writes_string writes_byte writes_int writes_when writes_when_some : writes.

(** Composes the layout of a sequence of writer steps. *)
Ltac writes_seq := repeat (first [eapply writes_bind | solve [eauto 4 with writes] | apply writes_when]).

Lemma fill_spec k bs out :
  writes k bs → fill k (zlen bs) out = Some (Ok bs).
Proof.
  intros Hk. unfold fill, zlen. rewrite Nat2Z.id.
  destruct (Hk _ _ _ (wrote_make (resize (length bs) out))) as (w & E & H); [by rewrite resize_length|].
  rewrite E; simpl. rewrite resize_length, Nat.sub_diag in H.
  apply wrote_done in H as [-> ->]. simpl. by rewrite resize_length, Nat.eqb_refl.
Qed.

Lemma fits_u32 p : fits p → in_u 32 (zlen p).
Proof. intros H. split; [apply zlen_nonneg|]. eapply Z.le_lt_trans; [apply H|done]. Qed.

Lemma writeRequest_writes req auth :
  auth_ok auth → fits (request_payload req auth) →
  writes (writeRequest req auth (zlen (request_payload req auth)))
    (frame_of (opcode_code (opcode req)) (request_payload req auth)).
Proof.
  intros Ha Hfit.
  assert (u32 (zlen (request_payload req auth)) = zlen (request_payload req auth)) as Hp.
  { by apply wrap_small, fits_u32. }
  assert (frame_of (opcode_code (opcode req)) (request_payload req auth) =
    [byte_of_Z K_MAGIC] ++ [byte_of_Z K_VERSION] ++ [byte_of_Z (opcode_code (opcode req))]
    ++ be 4 (u32 (zlen (request_payload req auth)))
    ++ [byte_of_Z (request_flags req auth)]
    ++ opt_bytes (ttl req) (λ t, be 4 (u32 t))
    ++ opt_bytes (expires_at req) (λ t, be 8 (expiry_wire t))
    ++ be 8 (version req) ++ be 8 (writer_node_hash req)
    ++ be 4 (u32 (zlen (key req))) ++ key req
    ++ be 4 (u32 (zlen (value req))) ++ (if negb (zlen (value req) =? 0) then value req else [])
    ++ (if negb (trace_id req =? 0) then be 8 (trace_id req) ++ be 8 (span_id req) else [])
    ++ (if negb (zlen auth =? 0) then auth else [])) as ->.
  { unfold frame_of. rewrite Hp. unfold request_payload at 2. simpl. repeat f_equal.
    - destruct (value req); [done|]. unfold zlen. by destruct (Z.eqb_spec (Z.of_nat (length (b :: l))) 0).
    - unfold trace_bytes. by destruct (trace_id req =? 0).
    - destruct Ha as [->|Ha]; [done|by rewrite Ha]. }
  unfold writeRequest. writes_seq.
Qed.

Lemma invalid_code {A} msg e : @invalid A msg = Err e → code e = InvalidArgument.
Proof. by intros [= <-]. Qed.

(** The size accumulations of the request encoder, as comparisons of totals. *)
Lemma encodeInto_eq req out auth :
  let has_auth := negb (zlen auth =? 0) in
  let n := zsum (request_fields req) in
  let total := n + (if has_auth then 32 else 0) in
  encodeInto req out auth =
    if K_MAX_PAYLOAD_SIZE <? n then Some (invalid "message too large")
    else if has_auth && negb (zlen auth =? 32) then Some (invalid "auth token must be 32 bytes")
    else if K_MAX_PAYLOAD_SIZE <? total then Some (invalid "message too large")
    else fill (writeRequest req auth total) (K_FRAME_HEADER_SIZE + total) out.
Proof.
  intros has_auth n total. subst total n.
  pose proof (request_fields_nonneg req) as Hnn.
  pose proof (zlen_nonneg (key req)). pose proof (zlen_nonneg (value req)).
  assert (K_MAX_PAYLOAD_SIZE <= UINT32_MAX) by done.
  unfold encodeInto.
  set (base := [4; zlen (key req); 4; zlen (value req); 8 * 2]
    ++ opt_field (has (ttl req)) 4 ++ [1] ++ opt_field (has (expires_at req)) 8).
  set (tr := opt_field (negb (trace_id req =? 0)) (8 * 2)).
  assert (request_fields req = base ++ tr) as Hf.
  { unfold request_fields, base, tr. by rewrite <- !(assoc_L (++)). }
  rewrite Hf in Hnn |- *. apply Forall_app in Hnn as [Hb Ht].
  assert (zlen (key req) <= zsum base ∧ zlen (value req) <= zsum base) as [??].
  { unfold base. rewrite !zsum_app, !zsum_opt. simpl zsum. repeat case_match; lia. }
  pose proof (zsum_nonneg _ Ht). pose proof (zsum_nonneg _ Hb). rewrite zsum_app. fold has_auth.
  assert (0 <= (if has_auth then 32 else 0)) by (case_match; lia).
  destruct (Z.ltb_spec UINT32_MAX (zlen (key req))), (Z.ltb_spec UINT32_MAX (zlen (value req))); simpl orb;
    try (destruct (Z.ltb_spec K_MAX_PAYLOAD_SIZE (zsum base + zsum tr)); [done|lia]).
  rewrite addAll_spec by (done || lia). rewrite Z.add_0_l.
  destruct (Z.ltb_spec K_MAX_PAYLOAD_SIZE (zsum base));
    [destruct (Z.ltb_spec K_MAX_PAYLOAD_SIZE (zsum base + zsum tr)); [done|lia]|].
  rewrite addAll_spec by (done || lia).
  destruct (Z.ltb_spec K_MAX_PAYLOAD_SIZE (zsum base + zsum tr)); [done|].
  destruct (has_auth && negb (zlen auth =? 32)); [done|].
  rewrite addAll_spec by (by apply opt_field_nonneg || lia). rewrite zsum_opt.
  destruct (Z.ltb_spec K_MAX_PAYLOAD_SIZE (zsum base + zsum tr + (if has_auth then 32 else 0))); [done|].
  unfold frameSizeForPayload.
  destruct (Z.ltb_spec K_MAX_PAYLOAD_SIZE (zsum base + zsum tr + (if has_auth then 32 else 0))); [lia|done].
Qed.

Lemma auth_ok_dec auth :
  auth_ok auth ↔ negb (zlen auth =? 0) && negb (zlen auth =? 32) = false.
Proof.
  unfold auth_ok. rewrite andb_false_iff, !negb_false_iff, !Z.eqb_eq. unfold zlen.
  split; intros [H|H]; auto; left; [by subst|]. destruct auth; [done|simpl in H; lia].
Qed.

Lemma zlen_frame op p : zlen (frame_of op p) = K_FRAME_HEADER_SIZE + zlen p.
Proof. unfold frame_of. rewrite !zlen_app, zlen_be. change (zlen [_; _; _]) with 3.
  change K_FRAME_HEADER_SIZE with 7. lia. Qed.

Lemma encodeInto_Ok req out auth :
  auth_ok auth → fits (request_payload req auth) →
  encodeInto req out auth = Some (Ok (frame_of (opcode_code (opcode req)) (request_payload req auth))).
Proof.
  intros Ha Hfit. pose proof (request_size req auth Ha) as Hsize.
  rewrite encodeInto_eq. rewrite <- Hsize. rewrite (proj1 (auth_ok_dec auth) Ha).
  assert (0 <= (if negb (zlen auth =? 0) then 32 else 0)) by (case_match; lia).
  unfold fits in Hfit.
  destruct (Z.ltb_spec K_MAX_PAYLOAD_SIZE (zsum (request_fields req))); [lia|].
  destruct (Z.ltb_spec K_MAX_PAYLOAD_SIZE (zlen (request_payload req auth))); [lia|].
  rewrite <- (zlen_frame (opcode_code (opcode req))). by apply fill_spec, writeRequest_writes.
Qed.

Lemma encodeInto_Err req out auth :
  ¬ (auth_ok auth ∧ fits (request_payload req auth)) →
  ∃ e, encodeInto req out auth = Some (Err e) ∧ code e = InvalidArgument.
Proof.
  intros Hn. rewrite encodeInto_eq.
  case_match; [by eexists|].
  destruct (negb (zlen auth =? 0) && negb (zlen auth =? 32)) eqn:Ha; [by eexists|].
  apply auth_ok_dec in Ha. rewrite <- (request_size req auth Ha).
  destruct (Z.ltb_spec K_MAX_PAYLOAD_SIZE (zlen (request_payload req auth))); [by eexists|].
  by destruct Hn.
Qed.

(** ** Facts: frames *)

Lemma readBe32_be z rest : in_u 32 z → readBe32 (be 4 z ++ rest) = z.
Proof.
  intros Hz. unfold in_u in Hz. rewrite be4_bytes. unfold readBe32, byte_at; simpl.
  rewrite !Z_of_byte_of_Z.
  set (b3 := z / 256 / 256 / 256 mod 256). set (b2 := z / 256 / 256 mod 256).
  set (b1 := z / 256 mod 256). set (b0 := z mod 256).
  assert (∀ a, 0 <= a mod 256 < 2 ^ 8) as Hb by (intros; apply Z.mod_pos_bound; lia).
  change 24 with (8 + 16). change 16 with (8 + 8). rewrite <- !Z.shiftl_shiftl by lia.
  rewrite <- Z.shiftl_lor, <- Z.shiftl_lor, <- Z.shiftl_lor.
  rewrite !lor_shiftl_add by (lia || apply Hb). subst b3 b2 b1 b0.
  change (2 ^ 8) with 256.
  assert (0 <= z / 256 / 256 / 256 < 256) as H3.
  { rewrite !Z.div_div by lia. split; [apply Z.div_pos; lia|]. apply Z.div_lt_upper_bound; lia. }
  rewrite (Z.mod_small (z / 256 / 256 / 256)) by done.
  pose proof (Z_div_mod_eq_full z 256). pose proof (Z_div_mod_eq_full (z / 256) 256).
  pose proof (Z_div_mod_eq_full (z / 256 / 256) 256). lia.
Qed.

Lemma parseFrame_frame op p tail :
  in_u 8 op → fits p → parseFrame (frame_of op p ++ tail) = Ok (mkFrameView op p).
Proof.
  intros Hop Hfit. pose proof (fits_u32 p Hfit) as Hu. unfold fits in Hfit.
  unfold parseFrame. rewrite zlen_app, zlen_frame.
  pose proof (zlen_nonneg p). pose proof (zlen_nonneg tail).
  destruct (Z.ltb_spec (K_FRAME_HEADER_SIZE + zlen p + zlen tail) K_FRAME_HEADER_SIZE); [lia|].
  unfold frame_of. rewrite <- !(assoc_L (++)).
  change (byte_at _ 0) with K_MAGIC. change (byte_at _ 1) with K_VERSION.
  rewrite !Z.eqb_refl; simpl negb.
  change (drop 3 _) with (be 4 (zlen p) ++ p ++ tail). rewrite readBe32_be by done.
  destruct (Z.ltb_spec K_MAX_PAYLOAD_SIZE (zlen p)); [lia|].
  destruct (Z.ltb_spec (K_FRAME_HEADER_SIZE + zlen p + zlen tail - K_FRAME_HEADER_SIZE) (zlen p)); [lia|].
  change (byte_at _ 2) with (Z_of_byte (byte_of_Z op)).
  rewrite Z_of_byte_of_Z, Z.mod_small by done. do 2 f_equal.
  change (Z.to_nat K_FRAME_HEADER_SIZE) with (3 + 4)%nat. rewrite <- drop_drop.
  change (drop 3 _) with (be 4 (zlen p) ++ p ++ tail).
  rewrite drop_app_length' by by rewrite be_length. unfold zlen. rewrite Nat2Z.id.
  by rewrite take_app_length.
Qed.

(** ** Facts: decoding what was encoded *)

Lemma request_flags_spec req auth :
  let f := request_flags req auth in
  in_u 8 f ∧ flag_set f K_FLAG_HAS_TTL = has (ttl req)
  ∧ flag_set f K_FLAG_HAS_EXPIRES_AT = has (expires_at req)
  ∧ flag_set f K_FLAG_HAS_TOMBSTONE = tombstone req
  ∧ flag_set f K_FLAG_HAS_TRACE = negb (trace_id req =? 0)
  ∧ flag_set f K_FLAG_HAS_AUTH = negb (zlen auth =? 0).
Proof.
  unfold request_flags.
  destruct (has (ttl req)), (has (expires_at req)), (tombstone req),
    (negb (trace_id req =? 0)), (negb (zlen auth =? 0)); by vm_compute.
Qed.

Lemma read_int n z r rest :
  at_rest r (be n z ++ rest) → in_u (8 * Z.of_nat n) z →
  ∃ r', ByteReader.read n r = (Ok z, r') ∧ at_rest r' rest.
Proof.
  intros H Hz. destruct (read_be _ _ _ _ H) as (r' & E & H'). exists r'. split; [|done].
  rewrite E. do 2 f_equal. apply Z.mod_small. unfold in_u in Hz.
  change 256 with (2 ^ 8). by rewrite <- Z.pow_mul_r by lia.
Qed.

Lemma readSized_be s r rest :
  in_u 32 (zlen s) → at_rest r (be 4 (u32 (zlen s)) ++ s ++ rest) →
  ∃ r', readSized r = (Ok s, r') ∧ at_rest r' rest.
Proof.
  intros Hs H. rewrite wrap_small in H by done. unfold readSized.
  destruct (read_int _ _ _ _ H Hs) as (r1 & -> & H1).
  destruct (Z.ltb_spec 0 (zlen s)); [by apply read_bytes_app|].
  exists r1. destruct s; [done|]. unfold zlen in *. simpl in *. lia.
Qed.

Lemma readTtl_be o r rest :
  at_rest r (opt_bytes o (λ t, be 4 (u32 t)) ++ rest) →
  ∃ r', readTtl (has o) r = (Ok (u32 <$> o), r') ∧ at_rest r' rest.
Proof.
  intros H. destruct o as [t|]; simpl in *; [|by exists r].
  destruct (read_int _ _ _ _ H) as (r1 & E & H1); [by apply (wrap_range 32)|].
  unfold readTtl. rewrite E. by exists r1.
Qed.

Lemma readExpiry_be o r rest :
  expiry_ok o → at_rest r (opt_bytes o (λ t, be 8 (expiry_wire t)) ++ rest) →
  ∃ r', readExpiry (has o) r = (Ok ((λ t, expiry_wire t * 1000000) <$> o), r') ∧ at_rest r' rest.
Proof.
  intros Ho H. destruct o as [t|]; simpl in *; [|by exists r].
  destruct (read_int _ _ _ _ H) as (r1 & E & H1); [by apply (wrap_range 64)|].
  unfold readExpiry. rewrite E. destruct (Z.ltb_spec K_MAX_MS (expiry_wire t)); [lia|]. by exists r1.
Qed.

Lemma readTrace_be flags t s r rest :
  flag_set flags K_FLAG_HAS_TRACE = negb (t =? 0) → in_u 64 t → in_u 64 s →
  at_rest r (trace_bytes t s ++ rest) →
  ∃ r', readTrace flags r = (t, if t =? 0 then 0 else s, r') ∧ at_rest r' rest.
Proof.
  intros Hf Ht Hs H. unfold readTrace. rewrite Hf, (at_rest_remaining _ _ H), zlen_app, zlen_trace.
  pose proof (zlen_nonneg rest). unfold trace_bytes in H.
  destruct (Z.eqb_spec t 0) as [->|Hne]; simpl negb; simpl andb; [by exists r|].
  destruct (Z.leb_spec (8 * 2) (16 + zlen rest)); [|lia].
  rewrite <- (assoc_L (++)) in H.
  destruct (read_int _ _ _ _ H Ht) as (r1 & -> & Hr1).
  destruct (read_int _ _ _ _ Hr1 Hs) as (r2 & -> & Hr2).
  exists r2. by destruct (Z.eqb_spec t 0).
Qed.

Lemma opcode_roundtrip op :
  in_u 8 (opcode_code op) ∧ opcode_of (opcode_code op) = Some op
  ∧ (opcode_code op <? opcode_code Get) || (opcode_code AdminShutdown <? opcode_code op) = false.
Proof. destruct op; by vm_compute. Qed.

Lemma request_parts req auth :
  fits (request_payload req auth) → in_u 32 (zlen (key req)) ∧ in_u 32 (zlen (value req)).
Proof.
  intros Hfit. unfold fits, request_payload in Hfit. rewrite !zlen_app in Hfit.
  assert (∀ b, zlen b <= K_MAX_PAYLOAD_SIZE → in_u 32 (zlen b)) as Hu by (intros; by apply fits_u32).
  repeat match type of Hfit with context [zlen ?b] =>
    match goal with H : 0 <= zlen b |- _ => fail 1 | _ => idtac end;
    pose proof (zlen_nonneg b); let x := fresh "x" in set (x := zlen b) in * end.
  split; apply Hu; lia.
Qed.

Lemma decode_encoded req auth tail :
  request_typed req → auth_ok auth → fits (request_payload req auth) → expiry_ok (expires_at req) →
  decode (frame_of (opcode_code (opcode req)) (request_payload req auth) ++ tail)
  = Ok (mkDecoded (canonical_request req) auth).
Proof.
  intros (Htid & Hsid & Hver & Hwr) Ha Hfit Hexp.
  destruct (opcode_roundtrip (opcode req)) as (Hop8 & Hop & Hrange).
  destruct (request_flags_spec req auth) as (Hf8 & Httl & Hex & Htomb & Htr & Hau).
  destruct (request_parts req auth Hfit) as [Hk Hv].
  unfold decode. rewrite parseFrame_frame by done. simpl fv_opcode. rewrite Hrange, Hop. simpl fv_payload.
  pose proof (at_rest_make (request_payload req auth)) as H0.
  unfold request_payload in H0 at 2. rewrite <- be1_byte in H0.
  destruct (read_int _ _ _ _ H0 Hf8) as (r1 & -> & H1). rewrite Httl.
  destruct (readTtl_be _ _ _ H1) as (r2 & -> & H2).
  rewrite Hex. destruct (readExpiry_be _ _ _ Hexp H2) as (r3 & -> & H3).
  destruct (read_int _ _ _ _ H3 Hver) as (r4 & -> & H4).
  destruct (read_int _ _ _ _ H4 Hwr) as (r5 & -> & H5).
  destruct (readSized_be _ _ _ Hk H5) as (r6 & -> & H6).
  destruct (readSized_be _ _ _ Hv H6) as (r7 & -> & H7).
  destruct (readTrace_be _ _ _ _ _ Htr Htid Hsid H7) as (r8 & -> & H8).
  rewrite Hau, Htomb, (at_rest_remaining _ _ H8). unfold canonical_request. do 2 f_equal.
  destruct Ha as [->|Ha]; [done|]. rewrite Ha; simpl.
  rewrite <- (app_nil_r auth) in H8. destruct (read_bytes_app _ _ _ H8) as (r9 & E & _).
  unfold ByteReader.readStringView in E. rewrite Ha in E.
  destruct (ByteReader.readBytes 32 r8) as [[]]; by simplify_eq.
Qed.

Lemma decode_expiry_overflow req auth tail :
  auth_ok auth → fits (request_payload req auth) → ¬ expiry_ok (expires_at req) →
  decode (frame_of (opcode_code (opcode req)) (request_payload req auth) ++ tail)
  = invalid "expires_at overflow".
Proof.
  intros Ha Hfit Hexp.
  destruct (opcode_roundtrip (opcode req)) as (Hop8 & Hop & Hrange).
  destruct (request_flags_spec req auth) as (Hf8 & Httl & Hex & _).
  unfold decode. rewrite parseFrame_frame by done. simpl fv_opcode. rewrite Hrange, Hop. simpl fv_payload.
  pose proof (at_rest_make (request_payload req auth)) as H0.
  unfold request_payload in H0 at 2. rewrite <- be1_byte in H0.
  destruct (read_int _ _ _ _ H0 Hf8) as (r1 & -> & H1). rewrite Httl.
  destruct (readTtl_be _ _ _ H1) as (r2 & -> & H2).
  rewrite Hex. destruct (expires_at req) as [t|]; [|by destruct Hexp]. simpl in *.
  destruct (read_int _ _ _ _ H2) as (r3 & E & H3); [by apply (wrap_range 64)|].
  unfold readExpiry. rewrite E. by destruct (Z.ltb_spec K_MAX_MS (expiry_wire t)).
Qed.

(** ** Facts: what a successful decode says about its frame *)

Lemma parseFrame_Ok_inv f v : parseFrame f = Ok v → fits (fv_payload v).
Proof.
  unfold parseFrame. repeat case_match; try done. intros [= <-]. simpl. unfold fits, zlen in *.
  repeat match goal with H : (_ <? _) = false |- _ => apply Z.ltb_ge in H end.
  assert (0 <= K_MAX_PAYLOAD_SIZE) by done. rewrite length_take. lia.
Qed.

Lemma readTtl_inv b r rest o r' :
  at_rest r rest → readTtl b r = (Ok o, r') →
  ∃ rest', at_rest r' rest' ∧ zlen rest = (if has o then 4 else 0) + zlen rest' ∧ u32 <$> o = o.
Proof.
  intros H. unfold readTtl. destruct b; [|intros [= <- <-]; by exists rest].
  destruct (ByteReader.read 4 r) as [[t|] r1] eqn:E; [|done]. intros [= <- <-].
  destruct (read_Ok_inv _ _ _ _ _ H E) as (rest' & -> & H1 & Ht). exists rest'.
  split_and!; [done|by rewrite zlen_app, zlen_be|]. simpl. by rewrite wrap_small.
Qed.

Lemma expiry_wire_ms e : 0 <= e <= K_MAX_MS → expiry_wire (e * 1000000) = e.
Proof.
  intros. unfold expiry_wire, to_ms. rewrite Z.quot_mul by lia. apply wrap_small.
  split; [lia|]. eapply Z.le_lt_trans; [apply H|done].
Qed.

Lemma readExpiry_inv b r rest o r' :
  at_rest r rest → readExpiry b r = (Ok o, r') →
  ∃ rest', at_rest r' rest' ∧ zlen rest = (if has o then 8 else 0) + zlen rest'
    ∧ expiry_ok o ∧ (λ t, expiry_wire t * 1000000) <$> o = o.
Proof.
  intros H. unfold readExpiry. destruct b; [|intros [= <- <-]; by exists rest].
  destruct (ByteReader.read 8 r) as [[e|] r1] eqn:E; [|done].
  destruct (Z.ltb_spec K_MAX_MS e); [done|]. intros [= <- <-].
  destruct (read_Ok_inv _ _ _ _ _ H E) as (rest' & -> & H1 & He). exists rest'.
  split_and!; [done|by rewrite zlen_app, zlen_be| |]; simpl; by rewrite expiry_wire_ms by lia.
Qed.

Lemma readSized_inv r rest s r' :
  at_rest r rest → readSized r = (Ok s, r') →
  ∃ rest', at_rest r' rest' ∧ zlen rest = 4 + zlen s + zlen rest'.
Proof.
  intros H. unfold readSized. destruct (ByteReader.read 4 r) as [[n|] r1] eqn:E; [|done].
  destruct (read_Ok_inv _ _ _ _ _ H E) as (rest1 & -> & H1 & Hn). rewrite zlen_app, zlen_be.
  destruct (Z.ltb_spec 0 n).
  - intros E2. destruct (readString_Ok_inv n r1 rest1 s r') as (rest' & -> & H2 & _); [lia|done..|].
    exists rest'. rewrite zlen_app. split; [done|lia].
  - intros [= <- <-]. exists rest1. split; [done|]. unfold zlen; simpl; lia.
Qed.

Lemma readTrace_inv flags r rest t s r' :
  at_rest r rest → readTrace flags r = (t, s, r') →
  ∃ rest', at_rest r' rest' ∧ (if negb (t =? 0) then 16 else 0) + zlen rest' <= zlen rest
    ∧ in_u 64 t ∧ in_u 64 s ∧ (if t =? 0 then 0 else s) = s.
Proof.
  intros H. unfold readTrace.
  destruct (flag_set flags K_FLAG_HAS_TRACE && (8 * 2 <=? ByteReader.remaining r)) eqn:Hc.
  2:{ intros [= <- <- <-]. exists rest. simpl. split_and!; done. }
  apply andb_true_iff in Hc as [_ Hc%Z.leb_le]. rewrite (at_rest_remaining _ _ H) in Hc.
  destruct (ByteReader.read 8 r) as [[t1|] r1] eqn:E1.
  2:{ unfold ByteReader.read in E1. rewrite (at_rest_remaining _ _ H) in E1.
      destruct (Z.gtb_spec (Z.of_nat 8) (zlen rest)); [lia|done]. }
  destruct (read_Ok_inv _ _ _ _ _ H E1) as (rest1 & -> & H1 & Ht1). rewrite zlen_app, zlen_be in Hc |- *.
  destruct (ByteReader.read 8 r1) as [[s1|] r2] eqn:E2.
  2:{ unfold ByteReader.read in E2. rewrite (at_rest_remaining _ _ H1) in E2.
      destruct (Z.gtb_spec (Z.of_nat 8) (zlen rest1)); [lia|done]. }
  destruct (read_Ok_inv _ _ _ _ _ H1 E2) as (rest2 & -> & H2 & Hs1). rewrite zlen_app, zlen_be.
  intros [= <- <- <-]. exists rest2. pose proof (zlen_nonneg rest2).
  destruct (t1 =? 0) eqn:Hz; simpl; split_and!; try done; lia.
Qed.

Lemma decode_Ok_inv f d :
  decode f = Ok d →
  request_typed (req d) ∧ auth_ok (auth_token d) ∧ fits (request_payload (req d) (auth_token d))
  ∧ expiry_ok (expires_at (req d)) ∧ canonical_request (req d) = req d.
Proof.
  unfold decode. destruct (parseFrame f) as [v|] eqn:Hp; [|done].
  apply parseFrame_Ok_inv in Hp as Hfit. unfold fits in Hfit.
  case_match; [done|]. destruct (opcode_of (fv_opcode v)) as [op|]; [|done].
  pose proof (at_rest_make (fv_payload v)) as H0.
  destruct (ByteReader.read 1 _) as [[flags|] r1] eqn:E1; [|done].
  destruct (read_Ok_inv _ _ _ _ _ H0 E1) as (p1 & P1 & H1 & _).
  rewrite P1, zlen_app, zlen_be in Hfit.
  destruct (readTtl _ r1) as [[ttl|] r2] eqn:E2; [|done].
  destruct (readTtl_inv _ _ _ _ _ H1 E2) as (p2 & H2 & L2 & Cttl).
  destruct (readExpiry _ r2) as [[ex|] r3] eqn:E3; [|done].
  destruct (readExpiry_inv _ _ _ _ _ H2 E3) as (p3 & H3 & L3 & Hex & Cex).
  destruct (ByteReader.read 8 r3) as [[ver|] r4] eqn:E4; [|done].
  destruct (read_Ok_inv _ _ _ _ _ H3 E4) as (p4 & -> & H4 & Hver). rewrite zlen_app, zlen_be in L3.
  destruct (ByteReader.read 8 r4) as [[wr|] r5] eqn:E5; [|done].
  destruct (read_Ok_inv _ _ _ _ _ H4 E5) as (p5 & -> & H5 & Hwr). rewrite zlen_app, zlen_be in L3.
  destruct (readSized r5) as [[k|] r6] eqn:E6; [|done].
  destruct (readSized_inv _ _ _ _ H5 E6) as (p6 & H6 & L6).
  destruct (readSized r6) as [[val|] r7] eqn:E7; [|done].
  destruct (readSized_inv _ _ _ _ H6 E7) as (p7 & H7 & L7).
  destruct (readTrace flags r7) as [[tid sid] r8] eqn:E8.
  destruct (readTrace_inv _ _ _ _ _ _ H7 E8) as (p8 & H8 & L8 & Htid & Hsid & Csid).
  set (auth := if flag_set flags K_FLAG_HAS_AUTH && (32 <=? ByteReader.remaining r8) then
      match ByteReader.readBytes 32 r8 with (Ok a, _) => a | (Err _, _) => [] end else []).
  assert (auth_ok auth ∧ zlen auth <= zlen p8) as [Ha La].
  { subst auth. pose proof (zlen_nonneg p8).
    destruct (flag_set flags K_FLAG_HAS_AUTH && (32 <=? ByteReader.remaining r8)); [|split; [by left|done]].
    destruct (ByteReader.readBytes 32 r8) as [[a|] r9] eqn:E9; [|split; [by left|done]].
    destruct (readString_Ok_inv 32 r8 p8 a r9) as (p9 & -> & _ & Hl); [done|done| |].
    { unfold ByteReader.readStringView. by rewrite E9. }
    rewrite zlen_app. pose proof (zlen_nonneg p9). split; [by right|lia]. }
  intros [= <-]. simpl. split_and!; try done.
  - unfold fits, request_payload; simpl.
    change (byte_of_Z ?a :: ?l) with ([byte_of_Z a] ++ l).
    rewrite !zlen_app, !zlen_be, !zlen_opt_be, zlen_trace. change (zlen [_]) with 1.
    repeat case_match; lia.
  - unfold canonical_request; simpl. by rewrite Cttl, Cex, Csid.
Qed.

(** ** Facts: responses *)

Definition has_meta (res : Response) : bool :=
  negb (r_version res =? 0) || negb (r_writer_node_hash res =? 0).

Definition response_fields (res : Response) : list Z :=
  ([6] ++ opt_field (has_meta res) 16 ++ opt_field (has (r_expires_at res)) 8)
  ++ [zlen (opt_bytes (r_value res) id)] ++ opt_field (negb (r_trace_id res =? 0)) 16.

Lemma response_size res : zlen (response_payload res) = zsum (response_fields res).
Proof.
  unfold response_payload, response_fields. rewrite !zlen_app, !zlen_be, zlen_opt_be, zlen_trace.
  rewrite !zsum_app, !zsum_opt. fold (has_meta res). change (zlen [_; _]) with 2. simpl zsum.
  destruct (has_meta res); rewrite ?zlen_app, ?zlen_be; change (zlen []) with 0; repeat case_match; lia.
Qed.

Lemma response_flags_spec res :
  let f := response_flags res in
  in_u 8 f ∧ flag_set f 1 = has_meta res
  ∧ flag_set f K_FLAG_HAS_EXPIRES_AT = has (r_expires_at res)
  ∧ flag_set f K_FLAG_HAS_TOMBSTONE = r_tombstone res
  ∧ flag_set f K_FLAG_HAS_TRACE = negb (r_trace_id res =? 0).
Proof.
  unfold response_flags, has_meta.
  destruct (negb (r_version res =? 0) || negb (r_writer_node_hash res =? 0)),
    (has (r_expires_at res)), (r_tombstone res), (negb (r_trace_id res =? 0)); by vm_compute.
Qed.

Lemma writeResponse_writes res :
  fits (response_payload res) →
  writes (writeResponse res (zlen (response_payload res))) (frame_of 0 (response_payload res)).
Proof.
  intros Hfit.
  assert (u32 (zlen (response_payload res)) = zlen (response_payload res)) as Hp
    by by apply wrap_small, fits_u32.
  assert (frame_of 0 (response_payload res) =
    [byte_of_Z K_MAGIC] ++ [byte_of_Z K_VERSION] ++ [byte_of_Z 0]
    ++ be 4 (u32 (zlen (response_payload res)))
    ++ [byte_of_Z (status res)] ++ [byte_of_Z (response_flags res)]
    ++ (if has_meta res then be 8 (r_version res) ++ be 8 (r_writer_node_hash res) else [])
    ++ opt_bytes (r_expires_at res) (λ t, be 8 (expiry_wire t))
    ++ be 4 (u32 (if has (r_value res) then 1 else 0))
    ++ opt_bytes (r_value res) id
    ++ (if negb (r_trace_id res =? 0) then be 8 (r_trace_id res) ++ be 8 (r_span_id res) else [])) as ->.
  { unfold frame_of. rewrite Hp. unfold response_payload at 2. simpl. repeat f_equal.
    unfold trace_bytes. by destruct (r_trace_id res =? 0). }
  unfold writeResponse. fold (has_meta res). writes_seq.
Qed.

Lemma value_size p (o : option bytes) :
  0 <= p <= K_MAX_PAYLOAD_SIZE →
  (match o with
   | None => Some p
   | Some v => if UINT32_MAX <? zlen v then None else addPayloadSize p (zlen v)
   end) = if K_MAX_PAYLOAD_SIZE <? p + zlen (opt_bytes o id) then None
          else Some (p + zlen (opt_bytes o id)).
Proof.
  intros Hp. assert (K_MAX_PAYLOAD_SIZE <= UINT32_MAX) by done.
  destruct o as [w|]; simpl opt_bytes; change (id ?x) with x.
  - unfold addPayloadSize.
    destruct (Z.ltb_spec UINT32_MAX (zlen w)), (Z.ltb_spec K_MAX_PAYLOAD_SIZE p),
      (Z.ltb_spec (K_MAX_PAYLOAD_SIZE - p) (zlen w)),
      (Z.ltb_spec K_MAX_PAYLOAD_SIZE (p + zlen w)); simpl; done || lia.
  - change (zlen []) with 0. rewrite Z.add_0_r.
    destruct (Z.ltb_spec K_MAX_PAYLOAD_SIZE p); [lia|done].
Qed.

(** The response encoder writes its layout exactly when it fits the budget. *)
Lemma encodeResponseInto_eq res out :
  encodeResponseInto res out =
    if K_MAX_PAYLOAD_SIZE <? zlen (response_payload res) then Some (invalid "message too large")
    else Some (Ok (frame_of 0 (response_payload res))).
Proof.
  unfold encodeResponseInto. fold (has_meta res).
  change (1 * 2 + 4) with 6. change (8 * 2) with 16.
  set (base := [6] ++ opt_field (has_meta res) 16 ++ opt_field (has (r_expires_at res)) 8).
  set (v := zlen (opt_bytes (r_value res) id)). assert (0 <= v) by apply zlen_nonneg.
  set (tr := opt_field (negb (r_trace_id res =? 0)) 16).
  assert (zlen (response_payload res) = zsum base + (v + zsum tr)) as Hs.
  { rewrite response_size. unfold response_fields. fold base v tr.
    rewrite !(zsum_app base), zsum_app. cbn [zsum foldr]. lia. }
  assert (Forall (λ n, 0 <= n) base) as Hb.
  { subst base. repeat first [apply Forall_app_2 | apply opt_field_nonneg | constructor]; lia. }
  assert (Forall (λ n, 0 <= n) tr) as Ht by by apply opt_field_nonneg.
  pose proof (zsum_nonneg _ Hb). pose proof (zsum_nonneg _ Ht).
  rewrite addAll_spec by (done || lia). rewrite Z.add_0_l, Hs.
  destruct (Z.ltb_spec K_MAX_PAYLOAD_SIZE (zsum base));
    [destruct (Z.ltb_spec K_MAX_PAYLOAD_SIZE (zsum base + (v + zsum tr))); [done|lia]|].
  rewrite value_size by lia. fold v.
  destruct (Z.ltb_spec K_MAX_PAYLOAD_SIZE (zsum base + v));
    [destruct (Z.ltb_spec K_MAX_PAYLOAD_SIZE (zsum base + (v + zsum tr))); [done|lia]|].
  rewrite addAll_spec by (done || lia). rewrite <- Z.add_assoc.
  destruct (Z.ltb_spec K_MAX_PAYLOAD_SIZE (zsum base + (v + zsum tr))) as [|Hfit]; [done|].
  unfold frameSizeForPayload.
  destruct (Z.ltb_spec K_MAX_PAYLOAD_SIZE (zsum base + (v + zsum tr))); [lia|].
  rewrite <- Hs in Hfit |- *. rewrite <- (zlen_frame 0). by apply fill_spec, writeResponse_writes.
Qed.

Lemma readMeta_be res r rest :
  in_u 64 (r_version res) → in_u 64 (r_writer_node_hash res) →
  at_rest r ((if has_meta res then be 8 (r_version res) ++ be 8 (r_writer_node_hash res) else []) ++ rest) →
  ∃ r', readMeta (has_meta res) r = (Ok (r_version res, r_writer_node_hash res), r') ∧ at_rest r' rest.
Proof.
  intros Hv Hw H. unfold readMeta. destruct (has_meta res) eqn:Hm.
  - rewrite <- (assoc_L (++)) in H.
    destruct (read_int _ _ _ _ H Hv) as (r1 & -> & H1).
    destruct (read_int _ _ _ _ H1 Hw) as (r2 & -> & H2). by exists r2.
  - exists r. split; [|done]. unfold has_meta in Hm. apply orb_false_iff in Hm as [E1 E2].
    apply negb_false_iff, Z.eqb_eq in E1, E2. by rewrite E1, E2.
Qed.

Lemma readValue_be flags res r rest :
  flag_set flags K_FLAG_HAS_TRACE = negb (r_trace_id res =? 0) →
  rest = trace_bytes (r_trace_id res) (r_span_id res) →
  at_rest r (opt_bytes (r_value res) id ++ rest) →
  ∃ r', readValue flags (if has (r_value res) then 1 else 0) r = (Ok (r_value res), r') ∧ at_rest r' rest.
Proof.
  intros Hf Hrest H. unfold readValue. destruct (r_value res) as [v|]; simpl in *; [|by exists r].
  change (id v) with v in H. rewrite (at_rest_remaining _ _ H), zlen_app, Hf, Hrest, zlen_trace.
  pose proof (zlen_nonneg v).
  assert ((if (if negb (r_trace_id res =? 0) then 8 * 2 else 0) <?
              zlen v + (if negb (r_trace_id res =? 0) then 16 else 0)
           then zlen v + (if negb (r_trace_id res =? 0) then 16 else 0)
                - (if negb (r_trace_id res =? 0) then 8 * 2 else 0) else 0) = zlen v) as ->.
  { destruct (negb (r_trace_id res =? 0)); case_match; try lia;
      match goal with H : (_ <? _) = false |- _ => apply Z.ltb_ge in H end; lia. }
  destruct (read_bytes_app _ _ _ H) as (r1 & -> & H1). exists r1. by subst rest.
Qed.

Lemma decodeResponse_encoded res tail :
  response_typed res → fits (response_payload res) → expiry_ok (r_expires_at res) →
  decodeResponse (frame_of 0 (response_payload res) ++ tail) = Ok (canonical_response res).
Proof.
  intros (Hst & Hver & Hwr & Htid & Hsid) Hfit Hexp.
  destruct (response_flags_spec res) as (Hf8 & Hmeta & Hex & Htomb & Htr).
  unfold decodeResponse. rewrite parseFrame_frame by done. simpl fv_payload.
  pose proof (at_rest_make (response_payload res)) as R0.
  unfold response_payload in R0 at 2.
  change ([byte_of_Z (status res); byte_of_Z (response_flags res)])
    with ([byte_of_Z (status res)] ++ [byte_of_Z (response_flags res)]) in R0.
  rewrite <- !be1_byte, <- (assoc_L (++)) in R0.
  destruct (read_int _ _ _ _ R0 Hst) as (r1 & -> & R1).
  rewrite (at_rest_remaining _ _ R1), zlen_app, zlen_be.
  match goal with |- context [0 <? Z.of_nat 1 + zlen ?l] =>
    pose proof (zlen_nonneg l); destruct (Z.ltb_spec 0 (Z.of_nat 1 + zlen l)); [|lia] end.
  destruct (read_int _ _ _ _ R1 Hf8) as (r2 & -> & R2). rewrite Hmeta.
  destruct (readMeta_be _ _ _ Hver Hwr R2) as (r3 & -> & R3).
  rewrite Hex. destruct (readExpiry_be _ _ _ Hexp R3) as (r4 & -> & R4).
  destruct (read_int _ _ _ _ R4) as (r5 & -> & R5); [by apply (wrap_range 32)|].
  rewrite (wrap_small 32) by (case_match; done).
  destruct (readValue_be _ _ _ _ Htr eq_refl R5) as (r6 & -> & R6).
  rewrite <- (app_nil_r (trace_bytes _ _)) in R6.
  destruct (readTrace_be _ _ _ _ _ Htr Htid Hsid R6) as (r7 & -> & _).
  by rewrite Htomb.
Qed.

(** ** Properties *)

(** C36: encoding a request never writes out of bounds and fails only as documented:
    it returns a frame of exactly the announced size, within the message limit,
    when the auth tag is empty or 32 bytes and the payload fits, and
    InvalidArgument otherwise. *)
Theorem encode_request_total (rq : Request) (out auth : bytes) :
  (auth_ok auth ∧ fits (request_payload rq auth) ∧
   ∃ frame, encodeInto rq out auth = Some (Ok frame) ∧ zlen frame <= K_MAX_MESSAGE_SIZE
     ∧ zlen frame = K_FRAME_HEADER_SIZE + zlen (request_payload rq auth)) ∨
  (¬ (auth_ok auth ∧ fits (request_payload rq auth)) ∧
   ∃ e, encodeInto rq out auth = Some (Err e) ∧ code e = InvalidArgument).
Proof.
  destruct (negb (zlen auth =? 0) && negb (zlen auth =? 32)) eqn:Ha.
  { right. assert (¬ (auth_ok auth ∧ fits (request_payload rq auth))) as Hn.
    { rewrite auth_ok_dec, Ha. by intros []. }
    split; [done|]. by apply encodeInto_Err. }
  apply auth_ok_dec in Ha. destruct (Z.le_gt_cases (zlen (request_payload rq auth)) K_MAX_PAYLOAD_SIZE) as [Hfit|Hfit].
  - left. split_and!; [done|done|]. eexists. split; [by apply encodeInto_Ok|].
    rewrite zlen_frame. split; [|done]. unfold K_MAX_PAYLOAD_SIZE in Hfit. lia.
  - right. assert (¬ (auth_ok auth ∧ fits (request_payload rq auth))) as Hn.
    { unfold fits. lia. }
    split; [done|]. by apply encodeInto_Err.
Qed.

(** C30: request round trip.  A frame made by the encoder, whatever follows it in
    the buffer, decodes to the same auth tag and to the request in the form in
    which the wire carries it: the TTL modulo [2 ^ 32] milliseconds, the expiry
    in whole milliseconds, no span without a trace, and everything else as it
    was.  When the expiry is outside the range of the clock decoding fails
    instead. *)
Theorem request_roundtrip (rq : Request) (out auth tail frame : bytes) :
  request_typed rq → encodeInto rq out auth = Some (Ok frame) →
  (expiry_ok (expires_at rq) → decode (frame ++ tail) = Ok (mkDecoded (canonical_request rq) auth)) ∧
  (¬ expiry_ok (expires_at rq) → decode (frame ++ tail) = invalid "expires_at overflow").
Proof.
  intros Hty He.
  assert (auth_ok auth ∧ fits (request_payload rq auth)) as [Ha Hfit].
  { apply dec_stable. intros Hn. destruct (encodeInto_Err rq out auth Hn) as (e & E & _). congruence. }
  rewrite encodeInto_Ok in He by done. simplify_eq.
  split; intros; [by apply decode_encoded|by apply decode_expiry_overflow].
Qed.

(** decoding is stable.  Every request the decoder accepts can be encoded again,
    and the new frame decodes to the same request. *)
Theorem decode_encode_decode (frame out : bytes) (d : DecodedRequest) :
  decode frame = Ok d →
  ∃ frame', encodeInto (req d) out (auth_token d) = Some (Ok frame') ∧ decode frame' = Ok d.
Proof.
  intros H. apply decode_Ok_inv in H as (Hty & Ha & Hfit & Hex & Hc).
  eexists. split; [by apply encodeInto_Ok|].
  rewrite <- (app_nil_r (frame_of _ _)), decode_encoded, Hc by done. by destruct d.
Qed.

(** response round trip.  A response encodes into a frame within the limits that
    decodes to it, or is refused as too large exactly when its payload does not
    fit. *)
Theorem response_roundtrip (res : Response) (out tail : bytes) :
  response_typed res → expiry_ok (r_expires_at res) →
  (fits (response_payload res) ∧
    ∃ frame, encodeResponseInto res out = Some (Ok frame) ∧ zlen frame <= K_MAX_MESSAGE_SIZE
      ∧ decodeResponse (frame ++ tail) = Ok (canonical_response res)) ∨
  (¬ fits (response_payload res) ∧ encodeResponseInto res out = Some (invalid "message too large")).
Proof.
  intros Hty Hex. rewrite encodeResponseInto_eq. unfold fits.
  destruct (Z.ltb_spec K_MAX_PAYLOAD_SIZE (zlen (response_payload res))) as [|Hfit]; [right; split; [lia|done]|].
  left. split; [done|]. eexists. split; [done|].
  split; [|by apply decodeResponse_encoded].
  rewrite zlen_frame. unfold K_MAX_PAYLOAD_SIZE in Hfit. lia.
Qed.

(** ** Concrete messages *)

Definition sample_request : Request :=
  mkRequest Set_ 7 9 (lit "key") (lit "value") 12 99 (Some 1500) None false.

Definition sample_frame : bytes :=
  match encodeInto sample_request [] [] with Some (Ok frame) => frame | _ => [] end.

Lemma request_roundtrip_witness : decode (sample_frame ++ lit "rest") = Ok (mkDecoded (canonical_request sample_request) []).
Proof.
  apply (request_roundtrip sample_request [] [] (lit "rest") sample_frame); [by vm_compute..].
Defined.

Lemma decode_encode_decode_witness :
  ∃ frame', encodeInto (canonical_request sample_request) [] [] = Some (Ok frame') ∧
    decode frame' = Ok (mkDecoded (canonical_request sample_request) []).
Proof.
  apply (decode_encode_decode sample_frame [] (mkDecoded (canonical_request sample_request) [])). by vm_compute.
Defined.

Definition sample_response : Response := mkResponse 0 (Some (lit "value")) 12 99 None false 7 9.

Lemma response_roundtrip_witness :
  ∃ frame, encodeResponseInto sample_response [] = Some (Ok frame) ∧
    decodeResponse (frame ++ lit "rest") = Ok (canonical_response sample_response).
Proof.
  destruct (response_roundtrip sample_response [] (lit "rest")) as [[_ (frame & E & _ & D)]|[Hn _]]; [by vm_compute|done| |].
  - exact (ex_intro _ frame (conj E D)).
  - destruct Hn. by vm_compute.
Defined.
