(* ===== verification/Text.v ===== *)
(** * Text parsing (include/cinder/common/parse.hpp)

    The [std::string_view] searches and [std::from_chars] as the parsers use
    them, [parseUint] and [parsePeer]. *)

From S2P Require Import Prelude Types.

(** ** Searches; [None] is [npos]. *)

Fixpoint index_of (c : byte) (s : bytes) : option nat :=
  match s with
  | [] => None
  | b :: s' => if decide (b = c) then Some 0 else S <$> index_of c s'
  end.

(** [s.find(c, pos)]; a position past the end finds nothing. *)
Definition find (c : byte) (pos : nat) (s : bytes) : option nat :=
  (λ i, pos + i) <$> index_of c (drop pos s).

(** [s.rfind(c)] *)
Definition rfind (c : byte) (s : bytes) : option nat :=
  (λ i, length s - 1 - i) <$> index_of c (rev s).

(** [s.substr(pos, count)] for [pos <= size()] *)
Definition substr (pos count : nat) (s : bytes) : bytes := take count (drop pos s).

(** ** Numbers *)

Fixpoint take_digits (s : bytes) : bytes :=
  match s with
  | b :: s' => if is_digit b then b :: take_digits s' else []
  | [] => []
  end.

(** [std::from_chars] for a [w]-bit unsigned type: the value and the number of
    characters consumed; [None] for [invalid_argument] (no digit) and for
    [result_out_of_range]. *)
Definition from_chars (w : Z) (s : bytes) : option (Z * nat) :=
  let ds := take_digits s in
  if (length ds =? 0)%nat then None
  else
    let v := digits_value 0 ds in
    if (v <? 2 ^ w)%Z then Some (v, length ds) else None.

Definition parseUint (w : Z) (digits : bytes) : option Z :=
  match from_chars w digits with
  | Some (v, n) => if (n =? length digits)%nat then Some v else None
  | None => None
  end.

Definition c_at : byte := "@"%byte.
Definition c_colon : byte := ":"%byte.
Definition c_semi : byte := ";"%byte.

(** [ClusterConfig::NodeConfig] *)
Record NodeConfig := mkNodeConfig { nc_id : bytes; nc_host : bytes; nc_port : Z }.

Definition parsePeer (peer : bytes) : option NodeConfig :=
  match rfind c_at peer with
  | None => None
  | Some at_ =>
  match find c_colon at_ peer with
  | None => None
  | Some colon =>
  if (at_ =? 0)%nat || (colon =? at_ + 1)%nat then None else
  let digits := drop (colon + 1) peer in
  match parseUint 16 digits with
  | None => None
  | Some port =>
      Some (mkNodeConfig (substr 0 at_ peer) (substr (at_ + 1) (colon - at_ - 1) peer) port)
  end end end.

(** ** Facts *)

Lemma index_of_None c s : index_of c s = None ↔ c ∉ s.
Proof.
  induction s as [|b s IH]; simpl; [split; [intros _; apply not_elem_of_nil|done]|].
  case_decide; subst; [split; [done|set_solver]|].
  rewrite fmap_None, IH. set_solver.
Qed.

Lemma index_of_app c a s : c ∉ a → index_of c (a ++ c :: s) = Some (length a).
Proof.
  induction a as [|b a IH]; simpl; intros H; [by rewrite decide_True|].
  rewrite decide_False by set_solver. by rewrite IH by set_solver.
Qed.

Lemma find_app c pos pre a s :
  length pre = pos → c ∉ a → find c pos (pre ++ a ++ c :: s) = Some (pos + length a).
Proof. intros <- H. unfold find. by rewrite drop_app_length, index_of_app. Qed.

Lemma find_Some c pos s i :
  find c pos s = Some i → pos ≤ i ∧ i < length s ∧ s !! i = Some c.
Proof.
  unfold find. intros (j & E & ->)%fmap_Some.
  assert (drop pos s !! j = Some c) as Hj.
  { generalize dependent j. generalize (drop pos s) as l.
    induction l as [|b l IH]; intros j; simpl; [done|].
    case_decide; [intros [= <-]; by subst|]. intros (k & E & ->)%fmap_Some. simpl. auto. }
  rewrite lookup_drop in Hj. pose proof (lookup_lt_Some _ _ _ Hj). split_and!; [lia|lia|done].
Qed.

Lemma take_digits_all s : forallb is_digit s = true → take_digits s = s.
Proof. induction s; simpl; [done|]. intros [-> ?]%andb_true_iff. by f_equal; auto. Qed.

Lemma take_digits_prefix s : ∃ rest, s = take_digits s ++ rest ∧ forallb is_digit (take_digits s) = true.
Proof.
  induction s as [|b s (rest & E & H)]; simpl; [by exists []|].
  destruct (is_digit b) eqn:Hb; [|by exists (b :: s)].
  exists rest. simpl. by rewrite <- E, Hb.
Qed.

(** [parseUint] accepts exactly the non-empty digit strings whose value fits. *)
Lemma parseUint_spec w s v :
  parseUint w s = Some v ↔
  s ≠ [] ∧ forallb is_digit s = true ∧ digits_value 0 s = v ∧ (v < 2 ^ w)%Z.
Proof.
  unfold parseUint, from_chars. split.
  - destruct (take_digits_prefix s) as (rest & E & Hd).
    destruct (Nat.eqb_spec (length (take_digits s)) 0); [done|].
    destruct (Z.ltb_spec (digits_value 0 (take_digits s)) (2 ^ w)); [|done].
    destruct (Nat.eqb_spec (length (take_digits s)) (length s)) as [Hl|]; [|done].
    intros [= <-].
    assert (rest = []) as ->.
    { apply (f_equal length) in E. rewrite length_app in E. destruct rest; [done|simpl in E; lia]. }
    rewrite app_nil_r in E. rewrite <- E in *. split_and!; try done. by intros ->.
  - intros (Hne & Hd & Hv & Hw). rewrite take_digits_all, Hv by done.
    destruct (Nat.eqb_spec (length s) 0) as [H|]; [by destruct s|].
    destruct (Z.ltb_spec v (2 ^ w)); [|lia]. by rewrite Nat.eqb_refl.
Qed.

Lemma parseUint_to_string w z :
  in_u w z → (w <= 64)%Z → parseUint w (to_string z) = Some z.
Proof.
  intros Hz Hw. apply parseUint_spec. unfold in_u in Hz.
  assert (2 ^ w <= 2 ^ 64)%Z by (apply Z.pow_le_mono_r; lia).
  split_and!; [apply to_string_nonempty|apply to_string_digits; lia|apply to_string_value; unfold in_u; lia|lia].
Qed.
