(* ===== verification/Membership.v ===== *)
(** * Cluster membership (include/cinder/cluster/membership.hpp, src/cluster/membership.cpp)

    The local view of the cluster.  Every operation is a function of the table
    that also returns the observers it notified; the reads of
    [steady_clock::now()] are the argument [now].  The mutex makes each
    operation atomic, which is what a function of the state says. *)

From S2P Require Import Prelude Types Text.
Local Open Scope Z_scope.

Inductive NodeState := Alive | Suspect | Dead.

#[global] Instance NodeState_eq_dec : EqDecision NodeState.
Proof. solve_decision. Defined.

Record NodeInfo := mkInfo {
  id : bytes;
  host : bytes;
  port : Z;          (* uint16_t *)
  state : NodeState;
  incarnation : Z;   (* uint64_t *)
  joined_at : Z      (* steady_clock::time_point *) }.

#[global] Instance NodeInfo_eq_dec : EqDecision NodeInfo.
Proof. solve_decision. Defined.

Definition set_address (h : bytes) (p : Z) (i : NodeInfo) : NodeInfo :=
  mkInfo (id i) h p (state i) (incarnation i) (joined_at i).
Definition set_state (s : NodeState) (i : NodeInfo) : NodeInfo :=
  mkInfo (id i) (host i) (port i) s (incarnation i) (joined_at i).
Definition set_incarnation (n : Z) (i : NodeInfo) : NodeInfo :=
  mkInfo (id i) (host i) (port i) (state i) n (joined_at i).
Definition set_joined (t : Z) (i : NodeInfo) : NodeInfo :=
  mkInfo (id i) (host i) (port i) (state i) (incarnation i) t.

Module MembershipTable.

Record t := mk {
  self : bytes;
  nodes : gmap bytes NodeInfo;
  cbs : list nat  (* registered observers, in registration order *) }.

Definition with_nodes (m : gmap bytes NodeInfo) (tb : t) : t := mk (self tb) m (cbs tb).

Definition make (self : bytes) : t :=
  mk self (<[self := mkInfo self [] 0 Alive 0 0]> ∅) [].

Definition setSelfAddress (h : bytes) (p : Z) (tb : t) : t :=
  match nodes tb !! self tb with
  | Some i => with_nodes (<[self tb := set_address h p i]> (nodes tb)) tb
  | None => tb
  end.

Definition seed (now : Z) (peers : list NodeConfig) (tb : t) : t :=
  foldl (λ tb peer,
    if decide (nc_id peer = self tb) then tb
    else with_nodes (<[nc_id peer :=
           mkInfo (nc_id peer) (nc_host peer) (nc_port peer) Alive 0 now]> (nodes tb)) tb)
    tb peers.

(** The observers run on a copy of the list, outside the lock. *)
Definition fireCallbacks (tb : t) : list nat := cbs tb.

Definition notify (changed : bool) (tb : t) : t * list nat :=
  (tb, if changed then fireCallbacks tb else []).

(** Returns the table and whether it changed. *)
Definition refuteSelfRumor (rumor : NodeInfo) (tb : t) : t * bool :=
  match nodes tb !! self tb with
  | None => (tb, false)
  | Some s =>
      let new_incarnation := u64 (Z.max (incarnation s) (incarnation rumor) + 1) in
      let '(s, changed) :=
        if incarnation s <=? incarnation rumor then (set_incarnation new_incarnation s, true)
        else (s, false) in
      let '(s, changed) :=
        if decide (state s = Alive) then (s, changed) else (set_state Alive s, true) in
      (with_nodes (<[self tb := s]> (nodes tb)) tb, changed)
  end.

Definition adopt (rumor local : NodeInfo) : NodeInfo :=
  let local := set_incarnation (incarnation rumor) (set_state (state rumor) local) in
  let local :=
    if decide (host local = []) then
      if decide (host rumor = []) then local else set_address (host rumor) (port local) local
    else local in
  if (port local =? 0) && negb (port rumor =? 0)
  then set_address (host local) (port rumor) local else local.

Definition applyRumor (now : Z) (rumor : NodeInfo) (tb : t) : t * list nat :=
  match nodes tb !! id rumor with
  | None =>
      if decide (state rumor = Alive) then
        notify true (with_nodes (<[id rumor := set_joined now rumor]> (nodes tb)) tb)
      else (tb, [])
  | Some local =>
      if incarnation rumor <? incarnation local then (tb, [])
      else if (incarnation rumor =? incarnation local) && bool_decide (state rumor = state local)
      then (tb, [])
      else if bool_decide (id rumor = self tb) && negb (bool_decide (state rumor = Alive)) then
        let '(tb, changed) := refuteSelfRumor rumor tb in notify changed tb
      else
        let state_changed := negb (bool_decide (state local = state rumor)) in
        let incarnation_changed := negb (incarnation local =? incarnation rumor) in
        notify (state_changed || incarnation_changed)
          (with_nodes (<[id rumor := adopt rumor local]> (nodes tb)) tb)
  end.

Definition markSuspect (i : bytes) (tb : t) : t * list nat :=
  match nodes tb !! i with
  | Some info =>
      match state info with
      | Alive => notify true (with_nodes (<[i := set_state Suspect info]> (nodes tb)) tb)
      | Suspect | Dead => (tb, [])
      end
  | None => (tb, [])
  end.

Definition markDead (i : bytes) (tb : t) : t * list nat :=
  match nodes tb !! i with
  | Some info =>
      match state info with
      | Dead => (tb, [])
      | Alive | Suspect => notify true (with_nodes (<[i := set_state Dead info]> (nodes tb)) tb)
      end
  | None => (tb, [])
  end.

Definition markAlive (now : Z) (i : bytes) (inc : Z) (tb : t) : t * list nat :=
  match nodes tb !! i with
  | None => (tb, [])
  | Some info =>
      if bool_decide (state info = Alive) && (inc <=? incarnation info) then (tb, [])
      else
        let info := if decide (state info = Alive) then info else set_joined now info in
        let info := set_incarnation inc (set_state Alive info) in
        notify true (with_nodes (<[i := info]> (nodes tb)) tb)
  end.

Definition get (i : bytes) (tb : t) : option NodeInfo := nodes tb !! i.

(** The flat map iterates in ascending key order. *)
Definition entry_le (a b : bytes * NodeInfo) : Prop := bytes_le a.1 b.1.

#[global] Instance entry_le_dec : RelDecision entry_le.
Proof. intros a b. unfold entry_le. apply _. Defined.

Definition entries (tb : t) : list (bytes * NodeInfo) :=
  merge_sort entry_le (map_to_list (nodes tb)).

Definition snapshot (tb : t) : list NodeInfo := (entries tb).*2.

Definition is_alive (i : NodeInfo) : bool := bool_decide (state i = Alive).

(** The counting loop over [nodes_]. *)
Definition aliveCount (tb : t) : nat :=
  foldl (λ count e, if is_alive e.2 then S count else count) 0%nat (entries tb).

Definition visibleAliveCount (tb : t) : nat :=
  foldl (λ count e, if is_alive e.2 then S count else count) 0%nat (entries tb).

Definition expectedClusterSize (tb : t) : nat := size (nodes tb).

Definition isDegraded (tb : t) : bool :=
  let total := size (nodes tb) in
  if (total =? 0)%nat then true
  else
    let visible := foldl (λ n e, if is_alive e.2 then S n else n) 0%nat (entries tb) in
    (visible <? total / 2 + 1)%nat.

(** [now] and [joined_at] are nanosecond time points, [quarantine] is in
    milliseconds; the comparison is made in nanoseconds. *)
Definition isQuarantined (i : bytes) (now quarantine : Z) (tb : t) : bool :=
  if quarantine <=? 0 then false
  else
    match nodes tb !! i with
    | None => false
    | Some info =>
        if decide (state info = Alive) then now - joined_at info <? quarantine * 1000000 else false
    end.

Definition onChange (cb : nat) (tb : t) : t := mk (self tb) (nodes tb) (cbs tb ++ [cb]).

End MembershipTable.

(** ** The table as a state machine *)

Module MembershipSteps.
Import MembershipTable.

Inductive event :=
  | ESetSelfAddress (h : bytes) (p : Z)
  | ESeed (now : Z) (peers : list NodeConfig)
  | ERumor (now : Z) (rumor : NodeInfo)
  | ESuspect (i : bytes)
  | EDead (i : bytes)
  | EAlive (now : Z) (i : bytes) (inc : Z)
  | EOnChange (cb : nat).

Definition run (e : event) (tb : t) : t * list nat :=
  match e with
  | ESetSelfAddress h p => (setSelfAddress h p tb, [])
  | ESeed now peers => (seed now peers tb, [])
  | ERumor now rumor => applyRumor now rumor tb
  | ESuspect i => markSuspect i tb
  | EDead i => markDead i tb
  | EAlive now i inc => markAlive now i inc tb
  | EOnChange cb => (onChange cb tb, [])
  end.

Inductive reachable (s : bytes) : t → Prop :=
  | reach_init : reachable s (make s)
  | reach_step e tb : reachable s tb → reachable s (run e tb).1.

(** Keys name their entries and this node is always in its own table. *)
Definition wf (tb : t) : Prop :=
  (∀ k i, nodes tb !! k = Some i → id i = k) ∧ is_Some (nodes tb !! self tb).

(** The two fields that gossip disseminates. *)
Definition verdict (i : NodeInfo) : Z * NodeState := (incarnation i, state i).

Definition verdict_at (k : bytes) (tb : t) : option (Z * NodeState) := verdict <$> nodes tb !! k.

End MembershipSteps.

(** ** Facts *)

Module MembershipFacts.
Import MembershipTable MembershipSteps.

Lemma insert_wf tb k i : wf tb → id i = k → wf (with_nodes (<[k := i]> (nodes tb)) tb).
Proof.
  intros [Hid Hself] Hk. split; simpl.
  - intros k' i'. rewrite lookup_insert. case_decide; intros; simplify_eq; auto.
  - rewrite lookup_insert. by case_decide.
Qed.

Lemma with_nodes_self m tb : self (with_nodes m tb) = self tb.
Proof. done. Qed.

Lemma adopt_id r l : id (adopt r l) = id l.
Proof. unfold adopt. repeat case_match; done. Qed.

Lemma adopt_verdict r l : verdict (adopt r l) = verdict r.
Proof. unfold adopt. repeat case_match; done. Qed.

Lemma adopt_incarnation r l : incarnation (adopt r l) = incarnation r.
Proof. unfold adopt. repeat case_match; done. Qed.

(** What [refuteSelfRumor] writes, in one record. *)
Lemma refuteSelfRumor_eq r tb s :
  nodes tb !! self tb = Some s → incarnation s <= incarnation r →
  refuteSelfRumor r tb =
    (with_nodes (<[self tb := set_state Alive (set_incarnation (u64 (incarnation r + 1)) s)]> (nodes tb)) tb, true).
Proof.
  intros E Hle. unfold refuteSelfRumor. rewrite E.
  destruct (Z.leb_spec (incarnation s) (incarnation r)); [|lia].
  rewrite Z.max_r by done. simpl. case_decide as Hs; [|done].
  do 3 f_equal. destruct s; simpl in *. by subst.
Qed.

(** The four outcomes of a rumor. *)
Variant rumor_outcome (now : Z) (r : NodeInfo) (tb : t) : t * list nat → Prop :=
  | rumor_ignored :
      (nodes tb !! id r = None ∧ state r ≠ Alive) ∨
      (∃ l, nodes tb !! id r = Some l ∧ (incarnation r < incarnation l ∨ verdict r = verdict l)) →
      rumor_outcome now r tb (tb, [])
  | rumor_joined :
      nodes tb !! id r = None → state r = Alive →
      rumor_outcome now r tb (with_nodes (<[id r := set_joined now r]> (nodes tb)) tb, cbs tb)
  | rumor_refuted s :
      id r = self tb → nodes tb !! self tb = Some s → state r ≠ Alive →
      incarnation s <= incarnation r → verdict r ≠ verdict s →
      rumor_outcome now r tb
        (with_nodes (<[self tb := set_state Alive (set_incarnation (u64 (incarnation r + 1)) s)]> (nodes tb)) tb,
         cbs tb)
  | rumor_adopted l :
      nodes tb !! id r = Some l → incarnation l <= incarnation r → verdict r ≠ verdict l →
      (id r = self tb → state r = Alive) →
      rumor_outcome now r tb (with_nodes (<[id r := adopt r l]> (nodes tb)) tb, cbs tb).

Lemma applyRumor_cases now r tb : rumor_outcome now r tb (applyRumor now r tb).
Proof.
  unfold applyRumor. destruct (nodes tb !! id r) as [l|] eqn:E.
  2:{ case_decide; [by apply (rumor_joined now r tb)|]. apply rumor_ignored. by left. }
  destruct (Z.ltb_spec (incarnation r) (incarnation l)).
  { apply rumor_ignored. right. exists l. auto. }
  destruct ((incarnation r =? incarnation l) && bool_decide (state r = state l)) eqn:Heq.
  { apply andb_true_iff in Heq as [?%Z.eqb_eq ?%bool_decide_eq_true]. apply rumor_ignored. right. exists l.
    unfold verdict. split; [done|right; congruence]. }
  assert (verdict r ≠ verdict l) as Hv.
  { unfold verdict. intros [= Hi Hs]. by rewrite Hi, Hs, Z.eqb_refl, bool_decide_true in Heq. }
  destruct (bool_decide (id r = self tb) && negb (bool_decide (state r = Alive))) eqn:Hself.
  { apply andb_true_iff in Hself as [Hid%bool_decide_eq_true Hst%negb_true_iff%bool_decide_eq_false].
    rewrite Hid in E. rewrite (refuteSelfRumor_eq r tb l) by done.
    exact (rumor_refuted now r tb l Hid E Hst H Hv). }
  assert (negb (bool_decide (state l = state r)) || negb (incarnation l =? incarnation r) = true) as ->.
  { apply andb_false_iff in Heq as [Hi%Z.eqb_neq|Hs%bool_decide_eq_false].
    - destruct (Z.eqb_spec (incarnation l) (incarnation r)); [congruence|by rewrite orb_true_r].
    - by rewrite bool_decide_false by congruence. }
  apply (rumor_adopted now r tb l); [done|lia|done|]. intros Hid.
  rewrite bool_decide_true in Hself by done. simpl in Hself.
  by apply negb_false_iff, bool_decide_eq_true in Hself.
Qed.

Lemma seed_wf now peers tb : wf tb → wf (seed now peers tb).
Proof.
  unfold seed. revert tb. induction peers as [|p ps IH]; simpl; intros tb Hwf; [done|].
  apply IH. case_decide; [done|]. by apply insert_wf.
Qed.

Lemma run_wf e tb : wf tb → wf (run e tb).1.
Proof.
  intros Hwf. pose proof Hwf as [Hid Hself]. destruct e; simpl.
  - unfold setSelfAddress. case_match; [|done]. apply insert_wf; [done|]. simpl. by apply Hid.
  - by apply seed_wf.
  - destruct (applyRumor_cases now rumor tb); simpl; try done; apply insert_wf; simpl; auto.
    rewrite adopt_id. by apply Hid.
  - unfold markSuspect. repeat case_match; simpl; try done. apply insert_wf; [done|]. simpl. by apply Hid.
  - unfold markDead. repeat case_match; simpl; try done; apply insert_wf; try done; simpl; by apply Hid.
  - unfold markAlive. repeat case_match; simpl; try done; apply insert_wf; try done; simpl; by apply Hid.
  - done.
Qed.

Lemma reachable_wf s tb : reachable s tb → wf tb.
Proof.
  induction 1; [|by apply run_wf]. split; simpl.
  - intros k i. rewrite lookup_insert. case_decide; [intros; simplify_eq; done|]. by rewrite lookup_empty.
  - by rewrite lookup_insert_eq.
Qed.

Lemma run_self e tb : self (run e tb).1 = self tb.
Proof.
  destruct e; simpl; try done.
  - unfold setSelfAddress. by case_match.
  - unfold seed. revert tb. induction peers as [|p ps IH]; intros tb; simpl; [done|]. rewrite IH. by case_decide.
  - by destruct (applyRumor_cases now rumor tb).
  - unfold markSuspect. by repeat case_match.
  - unfold markDead. by repeat case_match.
  - unfold markAlive. by repeat case_match.
Qed.

Lemma reachable_self s tb : reachable s tb → self tb = s.
Proof. induction 1; [done|]. by rewrite run_self. Qed.


Lemma markSuspect_cases i tb :
  markSuspect i tb = (tb, []) ∨
  ∃ n, nodes tb !! i = Some n ∧ state n = Alive ∧
    markSuspect i tb = (with_nodes (<[i := set_state Suspect n]> (nodes tb)) tb, cbs tb).
Proof. unfold markSuspect. repeat case_match; eauto 6. Qed.

Lemma markDead_cases i tb :
  markDead i tb = (tb, []) ∨
  ∃ n, nodes tb !! i = Some n ∧ state n ≠ Dead ∧
    markDead i tb = (with_nodes (<[i := set_state Dead n]> (nodes tb)) tb, cbs tb).
Proof. unfold markDead. repeat case_match; eauto 6; right; eexists; split_and!; eauto; congruence. Qed.

Lemma markAlive_cases now i inc tb :
  markAlive now i inc tb = (tb, []) ∨
  ∃ n n', nodes tb !! i = Some n ∧ state n' = Alive ∧ incarnation n' = inc ∧ id n' = id n ∧ verdict n ≠ verdict n' ∧
    markAlive now i inc tb = (with_nodes (<[i := n']> (nodes tb)) tb, cbs tb).
Proof.
  unfold markAlive. destruct (nodes tb !! i) as [n|] eqn:E; [|by left].
  destruct (bool_decide (state n = Alive) && (inc <=? incarnation n)) eqn:Hc; [by left|]. right.
  eexists n, _. split_and!; [done| | | | |reflexivity]; try done; [by case_decide|].
  unfold verdict; simpl. intros [= Hi Hs]. rewrite bool_decide_true in Hc by done.
  apply Z.leb_gt in Hc. lia.
Qed.

(** An event that does not reset an incarnation from outside: seeding names
    only new peers, [markAlive] is given at least the current incarnation (the
    failure detector passes the current one), and no rumor carries the largest
    [uint64_t]. *)
Definition monotone_event (e : event) (tb : t) : Prop :=
  match e with
  | ESeed _ peers => ∀ p, p ∈ peers → nodes tb !! nc_id p = None
  | ERumor _ r => incarnation r < 2 ^ 64 - 1 ∧ 0 <= incarnation r
  | EAlive _ i inc => ∀ n, nodes tb !! i = Some n → incarnation n <= inc
  | _ => True
  end.

Definition inc_le (m m' : gmap bytes NodeInfo) : Prop :=
  ∀ k i, m !! k = Some i → ∃ i', m' !! k = Some i' ∧ incarnation i <= incarnation i'.

Lemma inc_le_refl m : inc_le m m.
Proof. intros k i ?. exists i. split; [done|lia]. Qed.

Lemma inc_le_insert m k i :
  (∀ i0, m !! k = Some i0 → incarnation i0 <= incarnation i) → inc_le m (<[k := i]> m).
Proof.
  intros H k' i' E. rewrite lookup_insert. case_decide as Hk; [|exists i'; split; [done|lia]].
  subst. eauto.
Qed.

Lemma seed_lookup now peers tb k i :
  (∀ p, p ∈ peers → nodes tb !! nc_id p = None) →
  nodes tb !! k = Some i → nodes (seed now peers tb) !! k = Some i.
Proof.
  intros Hfresh Hk.
  assert (∀ tb', (∀ p, p ∈ peers → nc_id p ≠ k) → nodes tb' !! k = Some i →
    nodes (seed now peers tb') !! k = Some i) as Haux.
  { clear Hfresh Hk. unfold seed. induction peers as [|p ps IH]; simpl; intros tb' Hp Hk; [done|].
    apply IH; [set_solver|]. case_decide; [done|]. simpl.
    rewrite lookup_insert_ne; [done|]. apply Hp. set_solver. }
  apply Haux; [|done]. intros p Hp <-. rewrite Hfresh in Hk; [done|done].
Qed.

Lemma run_inc_le e tb : monotone_event e tb → inc_le (nodes tb) (nodes (run e tb).1).
Proof.
  destruct e as [h p|now peers|now r|i|i|now i inc|cb]; simpl; intros Hm.
  - unfold setSelfAddress. case_match; [|apply inc_le_refl]. apply inc_le_insert. intros; simplify_eq; simpl; lia.
  - intros k i Hk. exists i. split; [by apply seed_lookup|lia].
  - destruct (applyRumor_cases now r tb) as [|E|s Hid E Hst Hle|l E Hle]; simpl; try apply inc_le_refl;
      apply inc_le_insert; simpl; intros i0 E0; simplify_eq.
    + rewrite wrap_small by (unfold in_u; lia). lia.
    + rewrite adopt_incarnation. lia.
  - destruct (markSuspect_cases i tb) as [->|(n & E & _ & ->)]; simpl; [apply inc_le_refl|].
    apply inc_le_insert. intros; simplify_eq; simpl; lia.
  - destruct (markDead_cases i tb) as [->|(n & E & _ & ->)]; simpl; [apply inc_le_refl|].
    apply inc_le_insert. intros; simplify_eq; simpl; lia.
  - destruct (markAlive_cases now i inc tb) as [->|(n & n' & E & _ & Hinc & _ & _ & ->)]; simpl; [apply inc_le_refl|].
    apply inc_le_insert. intros; simplify_eq; auto.
  - apply inc_le_refl.
Qed.

(** *** Rumors about a known peer fold like a register *)

Definition spread (now : Z) (rs : list NodeInfo) (tb : t) : t :=
  foldl (λ tb r, (applyRumor now r tb).1) tb rs.

Lemma applyRumor_peer now r tb l :
  nodes tb !! id r = Some l → id r ≠ self tb →
  ∃ l', nodes (applyRumor now r tb).1 !! id r = Some l' ∧ self (applyRumor now r tb).1 = self tb ∧
    ((verdict l' = verdict r ∧ incarnation l <= incarnation r) ∨
     (verdict l' = verdict l ∧ incarnation r < incarnation l)).
Proof.
  intros El Hs.
  destruct (applyRumor_cases now r tb) as [[[E _]|(l0 & E & Hc)]|E|s Hid|l0 E Hle Hv]; simpl; simplify_eq.
  - eexists. split_and!; try done. destruct Hc as [|Hc]; [by right|left].
    split; [done|]. injection Hc as ? ?. lia.
  - eexists. rewrite lookup_insert_eq. split_and!; [done..|]. rewrite adopt_verdict. auto.
Qed.

Lemma applyRumor_other now r tb k : id r ≠ k → k ≠ self tb → nodes (applyRumor now r tb).1 !! k = nodes tb !! k ∧ self (applyRumor now r tb).1 = self tb.
Proof. intros Hr Hk. destruct (applyRumor_cases now r tb); simpl; rewrite ?lookup_insert_ne by congruence; done. Qed.

(** The rumors about a node. *)
Definition about (k : bytes) (rs : list NodeInfo) : list NodeInfo := filter (λ r, id r = k) rs.

(** After the rumors, the entry carries the verdict of one with the highest
    incarnation among the initial entry and the rumors about the node. *)
Lemma spread_max now rs tb k l :
  nodes tb !! k = Some l → k ≠ self tb →
  ∃ l', nodes (spread now rs tb) !! k = Some l' ∧
    (∃ m, m ∈ l :: about k rs ∧ verdict m = verdict l') ∧
    (∀ m, m ∈ l :: about k rs → incarnation m <= incarnation l').
Proof.
  unfold spread. revert tb l. induction rs as [|r rs IH]; simpl; intros tb l El Hs.
  { exists l. split_and!; [done|exists l; split; [by left|done]|]. intros m ->%list_elem_of_singleton. lia. }
  unfold about. rewrite filter_cons. fold (about k rs). destruct (decide (id r = k)) as [Hr|Hr].
  2:{ destruct (applyRumor_other now r tb k Hr Hs) as [E1 Hself]. apply IH; [by rewrite E1|by rewrite Hself]. }
  rewrite <- Hr in El, Hs. destruct (applyRumor_peer now r tb l El Hs) as (l1 & E1 & Hself & Hv).
  rewrite Hr in *. destruct (IH _ _ E1) as (l' & E' & (m & Hm & Hmv) & Hmax); [by rewrite Hself|].
  exists l'. split; [done|].
  assert (incarnation l1 <= incarnation l') as Hl1 by (apply Hmax; by left).
  assert (verdict l1 = verdict r ∨ verdict l1 = verdict l) as Hone by (destruct Hv as [[? _]|[? _]]; auto).
  assert (incarnation r <= incarnation l1 ∧ incarnation l <= incarnation l1) as [Hr1 Hl].
  { destruct Hv as [[Hv Hle]|[Hv Hlt]]; injection Hv as Hi ?; lia. }
  split.
  - apply elem_of_cons in Hm as [->|Hm]; [|exists m; split; [set_solver|done]].
    destruct Hone as [Hv1|Hv1]; [exists r|exists l]; (split; [set_solver|congruence]).
  - intros m' Hm'. apply elem_of_cons in Hm' as [->|[->|Hm']%elem_of_cons]; [lia|lia|].
    apply Hmax. set_solver.
Qed.

(** *** Histories *)

(** Nobody marks this node in its own table. *)
Definition event_ok (s : bytes) (e : event) (tb : t) : Prop :=
  monotone_event e tb ∧ match e with ESuspect i | EDead i => i ≠ s | _ => True end.

Inductive history (s : bytes) : t → Prop :=
  | history_init : history s (make s)
  | history_step e tb : history s tb → event_ok s e tb → history s (run e tb).1.

Lemma history_reachable s tb : history s tb → reachable s tb.
Proof. induction 1; [apply reach_init|by apply reach_step]. Qed.

Lemma seed_self now peers tb : nodes (seed now peers tb) !! self tb = nodes tb !! self tb.
Proof.
  unfold seed. revert tb. induction peers as [|p ps IH]; intros tb; simpl; [done|]. case_decide as Hp; [apply IH|].
  rewrite <- (with_nodes_self (<[nc_id p := mkInfo (nc_id p) (nc_host p) (nc_port p) Alive 0 now]> (nodes tb)) tb), IH. simpl. by rewrite lookup_insert_ne.
Qed.

Lemma history_alive s tb : history s tb → ∃ me, nodes tb !! s = Some me ∧ state me = Alive.
Proof.
  induction 1 as [|e tb H (me & Eme & Hst) [_ Hok]]; [eexists; simpl; by rewrite lookup_insert_eq|].
  pose proof (reachable_self _ _ (history_reachable _ _ H)) as Hs. destruct e as [h p|now peers|now r|i|i|now i inc|cb]; simpl in *.
  - unfold setSelfAddress. rewrite Hs, Eme. simpl. rewrite lookup_insert_eq. by eexists.
  - rewrite <- Hs, seed_self, Hs. eauto.
  - destruct (applyRumor_cases now r tb) as [|E|s' Hid E|l E Hle Hv Ha]; simpl; [eauto|..].
    + rewrite lookup_insert_ne by congruence. eauto.
    + rewrite Hs, lookup_insert_eq. by eexists.
    + destruct (decide (id r = s)) as [Hr|Hr]; [|rewrite lookup_insert_ne by done; eauto]. rewrite Hr, lookup_insert_eq. eexists. split; [done|].
      pose proof (adopt_verdict r l) as Hav. injection Hav as _ ->. by apply Ha; rewrite Hs.
  - destruct (markSuspect_cases i tb) as [->|(n & E & _ & ->)]; simpl; [eauto|]. rewrite lookup_insert_ne by done. eauto.
  - destruct (markDead_cases i tb) as [->|(n & E & _ & ->)]; simpl; [eauto|]. rewrite lookup_insert_ne by done. eauto.
  - destruct (markAlive_cases now i inc tb) as [->|(n & n' & E & Hn' & _ & _ & _ & ->)]; simpl; [eauto|].
    destruct (decide (i = s)) as [->|Hi]; [rewrite lookup_insert_eq|rewrite lookup_insert_ne by done]; eauto.
  - eauto.
Qed.

Lemma set_joined_kept r l : joined_at (adopt r l) = joined_at l.
Proof. unfold adopt. repeat case_match; done. Qed.

(** The time a node joined moves only when it is marked alive again. *)
Lemma run_joined e tb k i i' :
  monotone_event e tb → nodes tb !! k = Some i → nodes (run e tb).1 !! k = Some i' →
  joined_at i' = joined_at i ∨ ∃ now inc, e = EAlive now k inc ∧ state i ≠ Alive ∧ joined_at i' = now.
Proof.
  assert (∀ k0 n, <[k0 := n]> (nodes tb) !! k = Some i' → nodes tb !! k = Some i → i' = i ∨ k = k0 ∧ i' = n) as Hins.
  { intros k0 n. rewrite lookup_insert. case_decide; intros; simplify_eq; auto. }
  destruct e as [h p|now peers|now r|j|j|now j inc|cb]; simpl; intros Hm Ei E.
  - unfold setSelfAddress in E. destruct (nodes tb !! self tb) as [n|] eqn:En; simpl in E; [|left; congruence].
    destruct (Hins _ _ E Ei) as [->|[-> ->]]; [by left|]. left. simplify_eq. done.
  - rewrite (seed_lookup now peers tb k i Hm Ei) in E. left. congruence.
  - left. destruct (applyRumor_cases now r tb) as [|En|s' Hid En|l En]; simpl in E; [congruence|..];
      (destruct (Hins _ _ E Ei) as [->|[-> ->]]; [done|]); simplify_eq; [done|apply set_joined_kept].
  - left. destruct (markSuspect_cases j tb) as [Eq|(n & En & _ & Eq)]; rewrite Eq in E; simpl in E; [congruence|].
    destruct (Hins _ _ E Ei) as [->|[-> ->]]; [done|]. by simplify_eq.
  - left. destruct (markDead_cases j tb) as [Eq|(n & En & _ & Eq)]; rewrite Eq in E; simpl in E; [congruence|].
    destruct (Hins _ _ E Ei) as [->|[-> ->]]; [done|]. by simplify_eq.
  - unfold markAlive in E. destruct (nodes tb !! j) as [n|] eqn:En; [|left; simpl in E; congruence].
    destruct (bool_decide (state n = Alive) && (inc <=? incarnation n)); [left; simpl in E; congruence|]. simpl in E.
    destruct (Hins _ _ E Ei) as [->|[-> ->]]; [by left|]. simplify_eq. case_decide; [by left|]. right. exists now, inc. done.
  - left. congruence.
Qed.

Lemma entries_perm tb : entries tb ≡ₚ map_to_list (nodes tb).
Proof. apply merge_sort_Permutation. Qed.

(** The Alive entries of the view. *)
Definition alive_entries (tb : t) : list (bytes * NodeInfo) :=
  filter (λ e, state e.2 = Alive) (map_to_list (nodes tb)).

Lemma count_alive l n :
  foldl (λ c (e : bytes * NodeInfo), if is_alive e.2 then S c else c) n l
  = (n + length (filter (λ e, state e.2 = Alive) l))%nat.
Proof.
  revert n. induction l as [|e l IH]; intros n; simpl; [by rewrite Nat.add_0_r|].
  rewrite IH. unfold is_alive. rewrite filter_cons. case_bool_decide; case_decide; try done; simpl; lia.
Qed.

Lemma alive_count_eq tb :
  foldl (λ c (e : bytes * NodeInfo), if is_alive e.2 then S c else c) 0%nat (entries tb)
  = length (alive_entries tb).
Proof. rewrite count_alive; simpl. unfold alive_entries. by rewrite entries_perm. Qed.

Lemma reachable_size s tb : reachable s tb → size (nodes tb) ≠ 0%nat.
Proof.
  intros [_ [i Hi]]%reachable_wf H. apply map_size_empty_inv in H. by rewrite H, lookup_empty in Hi.
Qed.

(** ** Properties *)

(** C33: the membership invariant.  Take any history of a table in which seeding
    names new peers, [markAlive] is given at least the known incarnation, no
    rumor carries the largest incarnation and nobody marks this node in its own
    table.  The self id never changes, every entry is filed under its own id, and
    this node is in its table, Alive.  The next event forgets no node and lowers
    no incarnation; it moves the time a node joined only when it marks a node
    alive that was not; and when it is a rumor that this node is Suspect or Dead,
    this node then has an incarnation above the rumor's, unless it had one
    already. *)
Theorem membership_invariant (s : bytes) (tb : t) (e : event) :
  history s tb → event_ok s e tb →
  let tb' := (run e tb).1 in
  self tb' = s ∧ (∀ k i, nodes tb' !! k = Some i → id i = k) ∧ (∃ me, nodes tb' !! s = Some me ∧ state me = Alive) ∧
  (∀ k i, nodes tb !! k = Some i → ∃ i', nodes tb' !! k = Some i' ∧ incarnation i <= incarnation i' ∧
    (joined_at i' = joined_at i ∨ ∃ now inc, e = EAlive now k inc ∧ state i ≠ Alive ∧ joined_at i' = now)) ∧
  (∀ now r me, e = ERumor now r → id r = s → state r ≠ Alive → nodes tb' !! s = Some me → incarnation r < incarnation me).
Proof.
  intros H Hok tb'. pose proof (history_step s e tb H Hok) as H'. pose proof (history_reachable _ _ H') as Hr'.
  split; [by apply reachable_self|]. split; [apply (reachable_wf _ _ Hr')|]. split; [by apply history_alive|]. destruct Hok as [Hm _]. split.
  - intros k i Ei. destruct (run_inc_le e tb Hm k i Ei) as (i' & Ei' & Hle). exists i'. split; [done|]. split; [done|]. by apply (run_joined e tb k).
  - intros now r me -> Hid Hst Eme. destruct Hm as [Hmax H0]. destruct (history_alive s tb H) as (old & Eold & Hold).
    pose proof (reachable_self _ _ (history_reachable _ _ H)) as Hs. unfold tb' in Eme. cbn [run] in Eme.
    destruct (applyRumor_cases now r tb) as [[[E _]|(l0 & E & Hc)]|E|s' _ E _ Hle|l0 E _ _ Ha]; simpl in Eme; rewrite ?Hs, ?Hid in *; simplify_eq.
    + destruct Hc as [|Hv]; [lia|]. injection Hv as _ Hv. congruence.
    + rewrite lookup_insert_eq in Eme. injection Eme as <-. simpl. rewrite wrap_small by (unfold in_u; lia). lia.
    + by destruct Hst, Ha.
Qed.

(** refutation.  A rumor that this node is Suspect or Dead, at its incarnation
    or a later one, leaves the node Alive in its own table at an incarnation
    strictly above the rumor's, and notifies every observer. *)
Theorem self_rumor_refuted (s : bytes) (tb : t) (now : Z) (r me : NodeInfo) :
  reachable s tb → nodes tb !! s = Some me → id r = s → state r ≠ Alive →
  incarnation me <= incarnation r < 2 ^ 64 - 1 → 0 <= incarnation r → verdict r ≠ verdict me →
  ∃ me', nodes (applyRumor now r tb).1 !! s = Some me' ∧ state me' = Alive ∧
    incarnation r < incarnation me' ∧ (applyRumor now r tb).2 = cbs tb.
Proof.
  intros H Eme Hid Hst Hle H0 Hv. pose proof (reachable_self _ _ H) as Hs. subst s.
  destruct (applyRumor_cases now r tb) as [[[E _]|(l0 & E & Hc)]|E|s' _ E|l0 E _ _ Ha]; simpl;
    rewrite ?Hs in *; simplify_eq.
  - exfalso. destruct Hc; [lia|done].
  - eexists. rewrite lookup_insert_eq. split_and!; try done. simpl.
    rewrite wrap_small by (unfold in_u; lia). lia.
  - exfalso. auto.
Qed.

(** C32: rumors converge.  Two nodes know a third with the same state and
    incarnation.  They receive rumors, in any order and with any repetition,
    about it and about others; the rumors about it are the same for both.  Then
    both end with the same state and incarnation for it, those of the entry or of
    the rumor with the highest incarnation, provided no two of the verdicts in
    play differ in state at one incarnation. *)
Theorem rumors_converge (now now' : Z) (tb tb' : t) (k : bytes) (l l' : NodeInfo) (rs rs' : list NodeInfo) :
  nodes tb !! k = Some l → nodes tb' !! k = Some l' → verdict l = verdict l' → k ≠ self tb → k ≠ self tb' →
  (∀ r, id r = k → r ∈ rs ↔ r ∈ rs') →
  (∀ a b, a ∈ l :: about k rs → b ∈ l :: about k rs → incarnation a = incarnation b → state a = state b) →
  verdict_at k (spread now rs tb) = verdict_at k (spread now' rs' tb') ∧
  ∃ m, m ∈ l :: about k rs ∧ verdict_at k (spread now rs tb) = Some (verdict m) ∧ ∀ r, r ∈ l :: about k rs → incarnation r <= incarnation m.
Proof.
  intros El El' Hl Hk Hk' Hset Huniq.
  assert (∀ r, r ∈ about k rs ↔ r ∈ about k rs') as Habout by (intros r; unfold about; rewrite !list_elem_of_filter; naive_solver).
  destruct (spread_max now rs tb k l El Hk) as (a & Ea & (ma & Hma & Va) & Maxa).
  destruct (spread_max now' rs' tb' k l' El' Hk') as (b & Eb & (mb & Hmb & Vb) & Maxb).
  assert (∃ mb', mb' ∈ l :: about k rs ∧ verdict mb' = verdict b) as (mb' & Hmb' & Vb').
  { apply elem_of_cons in Hmb as [->|Hmb]; [exists l; split; [by left|congruence]|]. exists mb. split; [right; by apply Habout|done]. }
  assert (∃ ma', ma' ∈ l' :: about k rs' ∧ verdict ma' = verdict a) as (ma' & Hma' & Va').
  { apply elem_of_cons in Hma as [->|Hma]; [exists l'; split; [by left|congruence]|]. exists ma. split; [right; by apply Habout|done]. }
  pose proof (Maxa _ Hmb') as H1. pose proof (Maxb _ Hma') as H2. unfold verdict in Va, Vb', Va'.
  assert (verdict ma = verdict mb') as Hv.
  { unfold verdict. assert (incarnation ma = incarnation mb') as Hi by (injection Va; injection Vb'; injection Va'; intros; lia).
    f_equal; [done|]. by apply Huniq. }
  unfold verdict_at. rewrite Ea, Eb. simpl. split; [f_equal; unfold verdict in *; congruence|].
  exists ma. split; [done|]. split; [f_equal; unfold verdict; congruence|]. intros r Hr. injection Va as -> _. by apply Maxa.
Qed.

(** incarnations only grow.  No operation forgets a node or lowers its
    incarnation, for events within the contract of [monotone_event]. *)
Theorem incarnations_monotone (tb : t) (e : event) :
  monotone_event e tb → inc_le (nodes tb) (nodes (run e tb).1).
Proof. apply run_inc_le. Qed.

(** observers run exactly when the view changed, for each of the four
    operations that notify. *)
Theorem notified_iff_changed (now : Z) (r : NodeInfo) (i : bytes) (inc : Z) (tb : t) :
  cbs tb ≠ [] → 0 <= incarnation r < 2 ^ 64 - 1 →
  ((applyRumor now r tb).2 = cbs tb ↔ nodes (applyRumor now r tb).1 ≠ nodes tb) ∧
  ((markSuspect i tb).2 = cbs tb ↔ nodes (markSuspect i tb).1 ≠ nodes tb) ∧
  ((markDead i tb).2 = cbs tb ↔ nodes (markDead i tb).1 ≠ nodes tb) ∧
  ((markAlive now i inc tb).2 = cbs tb ↔ nodes (markAlive now i inc tb).1 ≠ nodes tb).
Proof.
  intros Hcb Hr.
  assert (∀ (m : gmap bytes NodeInfo) k n n',
    m !! k = Some n → verdict n ≠ verdict n' → <[k := n']> m ≠ m) as Hne.
  { intros m k n n' E Hv Heq. rewrite <- Heq, lookup_insert_eq in E. by simplify_eq. }
  split_and!.
  - destruct (applyRumor_cases now r tb) as [_|E|s Hid E Hst Hle Hv|l E Hle Hv]; simpl; split; try done; intros _.
    + intros Heq. rewrite <- Heq, lookup_insert_eq in E. done.
    + eapply Hne; [done|]. unfold verdict; simpl. intros [= Hi _].
      rewrite wrap_small in Hi by (unfold in_u; lia). lia.
    + eapply Hne; [done|]. rewrite adopt_verdict. by apply not_eq_sym.
  - destruct (markSuspect_cases i tb) as [->|(n & E & Hs & ->)]; simpl; split; try done; intros _.
    eapply Hne; [done|]. unfold verdict; simpl. congruence.
  - destruct (markDead_cases i tb) as [->|(n & E & Hs & ->)]; simpl; split; try done; intros _.
    eapply Hne; [done|]. unfold verdict; simpl. congruence.
  - destruct (markAlive_cases now i inc tb) as [->|(n & n' & E & _ & _ & _ & Hv & ->)]; simpl; split; try done; intros _.
    by eapply Hne.
Qed.

(** quorum awareness.  A node reports itself degraded exactly when the nodes
    it sees Alive are not a strict majority of the known cluster, and the two
    counters agree with the number of Alive entries. *)
Theorem degraded_iff_no_majority (s : bytes) (tb : t) :
  reachable s tb →
  (isDegraded tb = false ↔ (expectedClusterSize tb < 2 * length (alive_entries tb))%nat) ∧
  aliveCount tb = length (alive_entries tb) ∧ visibleAliveCount tb = aliveCount tb.
Proof.
  intros H%reachable_size. unfold isDegraded, aliveCount, visibleAliveCount, expectedClusterSize.
  rewrite alive_count_eq. split_and!; [|done..].
  destruct (Nat.eqb_spec (size (nodes tb)) 0); [lia|]. rewrite Nat.ltb_ge.
  pose proof (Nat.div_mod_eq (size (nodes tb)) 2). pose proof (Nat.mod_upper_bound (size (nodes tb)) 2). lia.
Qed.

(** the incarnation counter wraps.  A rumor carrying the largest [uint64_t] is
    refuted at incarnation 0, and a peer that holds that rumor ignores the
    refutation, so the node can never clear it. *)
Theorem self_rumor_wraps (s : bytes) (tb : t) (now : Z) (r me : NodeInfo) :
  reachable s tb → nodes tb !! s = Some me → id r = s → state r ≠ Alive →
  incarnation r = 2 ^ 64 - 1 → incarnation me < 2 ^ 64 - 1 →
  ∃ me', nodes (applyRumor now r tb).1 !! s = Some me' ∧ state me' = Alive ∧ incarnation me' = 0 ∧
    (∀ now' tb' peer, nodes tb' !! s = Some peer → verdict peer = verdict r →
       applyRumor now' me' tb' = (tb', [])).
Proof.
  intros H Eme Hid Hst Hr Hme. pose proof (reachable_self _ _ H) as Hs. subst s.
  destruct (applyRumor_cases now r tb) as [[[E _]|(l0 & E & Hc)]|E|s' _ E|l0 E _ _ Ha]; simpl;
    rewrite ?Hs in *; simplify_eq.
  - exfalso. destruct Hc as [|Hc]; [lia|]. injection Hc as ? ?. lia.
  - eexists. rewrite lookup_insert_eq. split_and!; try done; simpl; rewrite Hr; [done|].
    intros now' tb' peer Ep Hv. injection Hv as Hi Hst'.
    destruct (reachable_wf _ _ H) as [Hids _]. pose proof (Hids _ _ Eme) as Hide.
    unfold applyRumor; simpl. rewrite Hide, Ep. rewrite Hi, Hr. by vm_compute (_ <? _).
  - exfalso. auto.
Qed.


(** ** Concrete tables *)

Definition me : bytes := lit "n1".
Definition peer : bytes := lit "n2".
Definition joined : t := onChange 0 (seed 5 [mkNodeConfig peer (lit "10.0.0.2") 7000] (make me)).

Lemma joined_reachable : reachable me joined.
Proof.
  apply (reach_step me (EOnChange 0)), (reach_step me (ESeed 5 [mkNodeConfig peer (lit "10.0.0.2") 7000])), reach_init.
Qed.

Definition self_entry : NodeInfo := mkInfo me [] 0 Alive 0 0.
Definition peer_entry : NodeInfo := mkInfo peer (lit "10.0.0.2") 7000 Alive 0 5.
Definition dead_rumor (i : bytes) (inc : Z) : NodeInfo := mkInfo i [] 0 Dead inc 0.

Lemma joined_history : history me joined.
Proof.
  apply (history_step me (EOnChange 0)); [|done]. apply (history_step me (ESeed 5 [mkNodeConfig peer (lit "10.0.0.2") 7000])); [apply history_init|].
  split; [|done]. intros p ->%list_elem_of_singleton. by vm_compute.
Qed.

Lemma membership_invariant_witness :
  let tb' := (run (ERumor 9 (dead_rumor me 4)) joined).1 in
  (∃ own, nodes tb' !! me = Some own ∧ state own = Alive) ∧ ∀ own, nodes tb' !! me = Some own → 4 < incarnation own.
Proof.
  destruct (membership_invariant me joined (ERumor 9 (dead_rumor me 4)) joined_history) as (_ & _ & Ha & _ & Hr).
  - split; [vm_compute; split; [reflexivity|discriminate]|exact I].
  - split; [exact Ha|]. intros own. apply (Hr 9 (dead_rumor me 4) own); [reflexivity|reflexivity|discriminate].
Defined.

Lemma self_rumor_refuted_witness :
  ∃ me', nodes (applyRumor 9 (dead_rumor me 4) joined).1 !! me = Some me' ∧ state me' = Alive ∧
    4 < incarnation me' ∧ (applyRumor 9 (dead_rumor me 4) joined).2 = cbs joined.
Proof.
  apply (self_rumor_refuted me joined 9 (dead_rumor me 4) self_entry joined_reachable); try by vm_compute.
Defined.

(** The same peer, seen by another node. *)
Definition elsewhere : t := seed 7 [mkNodeConfig peer (lit "10.0.0.2") 7000] (make (lit "n3")).

Lemma rumors_converge_witness :
  verdict_at peer (spread 9 [dead_rumor peer 1; dead_rumor (lit "n4") 2; dead_rumor peer 3] joined)
  = verdict_at peer (spread 11 [dead_rumor peer 3; dead_rumor peer 1; dead_rumor peer 3] elsewhere).
Proof.
  apply (rumors_converge 9 11 joined elsewhere peer peer_entry (mkInfo peer (lit "10.0.0.2") 7000 Alive 0 7)
    [dead_rumor peer 1; dead_rumor (lit "n4") 2; dead_rumor peer 3] [dead_rumor peer 3; dead_rumor peer 1; dead_rumor peer 3]).
  - by vm_compute.
  - by vm_compute.
  - by vm_compute.
  - by vm_compute.
  - by vm_compute.
  - intros r Hr. rewrite !elem_of_cons, !elem_of_nil. assert (r ≠ dead_rumor (lit "n4") 2) by (intros ->; by vm_compute in Hr). tauto.
  - change (about peer _) with [dead_rumor peer 1; dead_rumor peer 3].
    intros a b [-> |[-> |[-> |Ha%not_elem_of_nil]%elem_of_cons]%elem_of_cons]%elem_of_cons
      [-> |[-> |[-> |Hb%not_elem_of_nil]%elem_of_cons]%elem_of_cons]%elem_of_cons; by vm_compute.
Defined.

Lemma incarnations_monotone_witness :
  inc_le (nodes joined) (nodes (run (ERumor 9 (dead_rumor peer 3)) joined).1).
Proof. apply (incarnations_monotone joined (ERumor 9 (dead_rumor peer 3))). by vm_compute. Defined.

Lemma notified_iff_changed_witness :
  (markDead peer joined).2 = cbs joined ↔ nodes (markDead peer joined).1 ≠ nodes joined.
Proof. apply (notified_iff_changed 9 (dead_rumor peer 3) peer 0 joined); by vm_compute. Defined.

Lemma degraded_iff_no_majority_witness :
  isDegraded joined = false ↔ (expectedClusterSize joined < 2 * length (alive_entries joined))%nat.
Proof. apply (degraded_iff_no_majority me joined joined_reachable). Defined.

Lemma self_rumor_wraps_witness :
  ∃ me', nodes (applyRumor 9 (dead_rumor me (2 ^ 64 - 1)) joined).1 !! me = Some me' ∧ incarnation me' = 0.
Proof.
  destruct (self_rumor_wraps me joined 9 (dead_rumor me (2 ^ 64 - 1)) self_entry joined_reachable)
    as (me' & E & _ & Hi & _); [by vm_compute..|]. by exists me'.
Defined.

End MembershipFacts.
