(* ===== verification/Gossip.v ===== *)
(** * Gossip dissemination (include/cinder/cluster/gossip.hpp, src/cluster/gossip.cpp)

    The text form of a membership view, its parser, and the manager that sends
    views to peers and applies the ones it receives. *)

From S2P Require Import Prelude Types Text Membership Protocol.
Import MembershipTable.
Local Open Scope Z_scope.

(** ** The view codec *)

Definition state_text (s : NodeState) : bytes :=
  match s with
  | Alive => lit "alive"
  | Suspect => lit "suspect"
  | Dead => lit "dead"
  end.

Definition encodeEntry (info : NodeInfo) : bytes :=
  id info ++ [c_at] ++ host info ++ [c_colon] ++ to_string (port info) ++ [c_colon]
  ++ state_text (state info) ++ [c_colon] ++ to_string (incarnation info).

Definition encodeView (view : list NodeInfo) : bytes :=
  foldl (λ out info,
    (if decide (out = []) then out else out ++ [c_semi]) ++ encodeEntry info) [] view.

(** Parse one "id@host:port:state:incarnation"; [None] is the [false] of the
    source, whose partially filled output the caller discards. *)
Definition parseEntry (entry : bytes) : option NodeInfo :=
  let at_ := find c_at 0 entry in
  let colon1 := match at_ with None => None | Some a => find c_colon a entry end in
  let colon2 := match colon1 with None => None | Some c => find c_colon (c + 1) entry end in
  let colon3 := match colon2 with None => None | Some c => find c_colon (c + 1) entry end in
  match at_, colon1, colon2, colon3 with
  | Some a, Some c1, Some c2, Some c3 =>
      let id := substr 0 a entry in
      let host := substr (a + 1) (c1 - a - 1) entry in
      let port_str := substr (c1 + 1) (c2 - c1 - 1) entry in
      match parseUint 16 port_str with
      | None => None
      | Some port =>
          let state_str := substr (c2 + 1) (c3 - c2 - 1) entry in
          match (if decide (state_str = lit "alive") then Some Alive
                 else if decide (state_str = lit "suspect") then Some Suspect
                 else if decide (state_str = lit "dead") then Some Dead
                 else None) with
          | None => None
          | Some state =>
              let inc_str := drop (c3 + 1) entry in
              match parseUint 64 inc_str with
              | None => None
              | Some incarnation => Some (mkInfo id host port state incarnation 0)
              end
          end
      end
  | _, _, _, _ => None
  end.

(** The loop of [decodeView]; each turn advances [start], so the length of
    the input is enough fuel ([decodeView_fields]). *)
Fixpoint decodeView_loop (fuel : nat) (value : bytes) (start : nat) (result : list NodeInfo)
    : list NodeInfo :=
  match fuel with
  | O => result
  | S fuel =>
      if (start <? length value)%nat then
        let end_ := find c_semi start value in
        let entry := substr start
          (match end_ with None => length value - start | Some e => e - start end) value in
        let result :=
          if decide (entry = []) then result
          else match parseEntry entry with Some info => result ++ [info] | None => result end in
        match end_ with
        | None => result
        | Some e => decodeView_loop fuel value (e + 1) result
        end
      else result
  end.

Definition decodeView (value : bytes) : list NodeInfo :=
  decodeView_loop (length value) value 0 [].

(** ** The manager *)

Record message := mkMessage { to : bytes; body : Request }.

Record Manager := mkManager {
  g_self : bytes;
  peers : list bytes;
  started : option nat;  (* the observer registered by start() *)
  table : MembershipTable.t }.

Definition peers_of (me : bytes) (tb : MembershipTable.t) : list bytes :=
  merge_sort bytes_le
    (filter (λ i, i ≠ me) (id <$> snapshot tb)).

Definition rebuildPeersLocked (g : Manager) : Manager :=
  mkManager (g_self g) (peers_of (g_self g) (table g)) (started g) (table g).

(** Run a table operation and the observer it may notify. *)
Definition on_table (op : MembershipTable.t → MembershipTable.t * list nat) (g : Manager) : Manager :=
  let '(tb, fired) := op (table g) in
  let g := mkManager (g_self g) (peers g) (started g) tb in
  match started g with
  | Some cb => if decide (cb ∈ fired) then rebuildPeersLocked g else g
  | None => g
  end.

Definition start (cb : nat) (g : Manager) : Manager :=
  let g := rebuildPeersLocked g in
  mkManager (g_self g) (peers g) (Some cb) (onChange cb (table g)).

(** [ctx] is the thread's trace context (trace id, span id). *)
Definition sendView (ctx : Z * Z) (g : Manager) (to : bytes) : message :=
  mkMessage to (mkRequest Gossip ctx.1 ctx.2 [] (encodeView (snapshot (table g))) 0 0 None None false).

Definition leave (ctx : Z * Z) (g : Manager) : Manager * list message :=
  let g := on_table (markDead (g_self g)) g in
  (g, sendView ctx g <$> peers g).

(** [pick] is the value drawn from the uniform distribution over the peers. *)
Definition tick (ctx : Z * Z) (pick : nat) (g : Manager) : Manager * list message :=
  match peers g !! pick with
  | None => (g, [])
  | Some target => (g, [sendView ctx g target])
  end.

Definition handleMessage (now : Z) (rq : Request) (g : Manager) : Manager :=
  foldl (λ g rumor, on_table (applyRumor now rumor) g) g (decodeView (value rq)).

(** ** Facts: the codec *)

(** Fields between separators, the specification of the decoding loop. *)
Fixpoint split (c : byte) (s : bytes) : list bytes :=
  match s with
  | [] => [[]]
  | b :: s' =>
      if decide (b = c) then [] :: split c s'
      else match split c s' with
           | f :: fs => (b :: f) :: fs
           | [] => [[b]]
           end
  end.

Lemma split_nonempty c s : split c s ≠ [].
Proof. induction s; simpl; repeat case_match; done. Qed.

Lemma split_app c a b : split c (a ++ c :: b) = split c a ++ split c b.
Proof.
  induction a as [|x a IH]; simpl; [by rewrite decide_True|].
  case_decide; [by rewrite IH|]. rewrite IH.
  destruct (split c a) eqn:E; [by apply split_nonempty in E|done].
Qed.

Lemma split_none c s : c ∉ s → split c s = [s].
Proof.
  induction s as [|x s IH]; simpl; intros H; [done|].
  rewrite decide_False by set_solver. by rewrite IH by set_solver.
Qed.

Definition parseField (f : bytes) : option NodeInfo :=
  if decide (f = []) then None else parseEntry f.

Definition fields_view (s : bytes) : list NodeInfo := omap parseField (split c_semi s).

Lemma fields_view_app a b : fields_view (a ++ c_semi :: b) = fields_view a ++ fields_view b.
Proof. unfold fields_view. by rewrite split_app, omap_app. Qed.

Lemma fields_view_one s : c_semi ∉ s → fields_view s = omap parseField [s].
Proof. intros. unfold fields_view. by rewrite split_none. Qed.

Lemma index_of_Some c s i :
  index_of c s = Some i → s = take i s ++ c :: drop (S i) s ∧ c ∉ take i s ∧ (i < length s)%nat.
Proof.
  revert i. induction s as [|b s IH]; intros i; simpl; [done|].
  case_decide as Hb.
  - intros [= <-]. subst. simpl. rewrite drop_0. split_and!; [done|set_solver|lia].
  - intros (j & E & ->)%fmap_Some. destruct (IH j E) as (H1 & H2 & H3). simpl.
    split_and!; [by f_equal|set_solver|lia].
Qed.

Lemma decodeView_loop_spec fuel value start result :
  (length value - start <= fuel)%nat →
  decodeView_loop fuel value start result = result ++ fields_view (drop start value).
Proof.
  revert start result. induction fuel as [|fuel IH]; intros start result Hf; simpl.
  { rewrite drop_ge by lia. by rewrite app_nil_r. }
  destruct (Nat.ltb_spec start (length value)) as [Hlt|Hge].
  2:{ rewrite drop_ge by lia. by rewrite app_nil_r. }
  unfold find. destruct (index_of c_semi (drop start value)) as [i|] eqn:E; simpl.
  - apply index_of_Some in E as (Hsplit & Hnot & Hlen). rewrite length_drop in Hlen.
    replace (start + i - start)%nat with i by lia. fold (substr start i value).
    rewrite IH by lia.
    assert (fields_view (drop start value) =
      omap parseField [substr start i value] ++ fields_view (drop (start + i + 1) value)) as ->.
    { rewrite Hsplit at 1. rewrite fields_view_app, fields_view_one by done.
      rewrite drop_drop. do 3 f_equal. lia. }
    rewrite (assoc_L (++)). f_equal. unfold parseField; simpl.
    repeat case_match; simpl; rewrite ?app_nil_r; done.
  - apply index_of_None in E. rewrite fields_view_one by done. unfold substr.
    rewrite take_ge by (rewrite length_drop; lia).
    unfold parseField; simpl. repeat case_match; simpl; rewrite ?app_nil_r; done.
Qed.

Lemma decodeView_fields value : decodeView value = fields_view value.
Proof. unfold decodeView. by rewrite decodeView_loop_spec by lia. Qed.

(** What the text form can carry: the separators do not occur in the fields
    they end, and the numbers are of their types. *)
Definition encodable (i : NodeInfo) : Prop :=
  c_at ∉ id i ∧ c_semi ∉ id i ∧ c_colon ∉ host i ∧ c_semi ∉ host i
  ∧ in_u 16 (port i) ∧ in_u 64 (incarnation i).

Lemma substr_mid pos count (pre mid post : bytes) :
  length pre = pos → length mid = count → substr pos count (pre ++ mid ++ post) = mid.
Proof. intros <- <-. unfold substr. by rewrite drop_app_length, take_app_length. Qed.

Lemma state_text_no_sep s c : c = c_semi ∨ c = c_colon → c ∉ state_text s.
Proof. intros Hc Hin. apply (bool_decide_pack _) in Hin. destruct s, Hc; subst; by vm_compute in Hin. Qed.

Lemma state_text_inj s : (if decide (state_text s = lit "alive") then Some Alive
                 else if decide (state_text s = lit "suspect") then Some Suspect
                 else if decide (state_text s = lit "dead") then Some Dead
                 else None) = Some s.
Proof. by destruct s. Qed.

Lemma find_at_app c pos (e pre a post : bytes) :
  e = pre ++ a ++ c :: post → length pre = pos → c ∉ a → find c pos e = Some (pos + length a)%nat.
Proof. intros ->. apply find_app. Qed.

Lemma substr_at pos count (e pre mid post : bytes) :
  e = pre ++ mid ++ post → length pre = pos → length mid = count → substr pos count e = mid.
Proof. intros ->. apply substr_mid. Qed.

(** Solves the placement side conditions of a literal concatenation. *)
Ltac placed := first [by list_simplifier | rewrite ?length_app; simpl; rewrite ?length_app; simpl;
  rewrite ?length_app; simpl; rewrite ?length_app; simpl; lia].

Lemma parse_encodeEntry i : encodable i → parseEntry (encodeEntry i) = Some (set_joined 0 i).
Proof.
  intros (Hat & _ & Hcol & _ & Hp & Hi). destruct i as [nid host port st inc j]; simpl in *.
  unfold encodeEntry; simpl.
  assert (0 <= port ∧ 0 <= inc) as [Hp0 Hi0] by (unfold in_u in *; lia).
  pose proof (to_string_no_sep port c_colon Hp0 eq_refl) as Hps.
  pose proof (state_text_no_sep st c_colon (or_intror eq_refl)) as Hss.
  pose proof (parseUint_to_string 16 port Hp ltac:(lia)) as Pp.
  pose proof (parseUint_to_string 64 inc Hi ltac:(lia)) as Pi.
  pose proof (state_text_inj st) as Ps.
  generalize dependent (to_string port). generalize dependent (state_text st).
  generalize dependent (to_string inc). intros ns Pi ss Hss Ps ps Hps Pp.
  set (e := nid ++ c_at :: host ++ c_colon :: ps ++ c_colon :: ss ++ c_colon :: ns).
  unfold parseEntry.
  rewrite (find_at_app c_at 0 e [] nid (host ++ c_colon :: ps ++ c_colon :: ss ++ c_colon :: ns)) by done.
  rewrite (find_at_app c_colon (0 + length nid) e nid (c_at :: host) (ps ++ c_colon :: ss ++ c_colon :: ns))
    by (done || by apply not_elem_of_cons).
  rewrite (find_at_app c_colon (0 + length nid + length (c_at :: host) + 1) e (nid ++ c_at :: host ++ [c_colon]) ps
    (ss ++ c_colon :: ns)) by (done || placed).
  rewrite (find_at_app c_colon (0 + length nid + length (c_at :: host) + 1 + length ps + 1) e
    (nid ++ c_at :: host ++ c_colon :: ps ++ [c_colon]) ss ns) by (done || placed).
  rewrite (substr_at (0 + length nid + length (c_at :: host) + 1) _ e
    (nid ++ c_at :: host ++ [c_colon]) ps (c_colon :: ss ++ c_colon :: ns)) by placed.
  rewrite Pp.
  rewrite (substr_at (0 + length nid + length (c_at :: host) + 1 + length ps + 1) _ e
    (nid ++ c_at :: host ++ c_colon :: ps ++ [c_colon]) ss (c_colon :: ns)) by placed.
  rewrite Ps.
  assert (drop (0 + length nid + length (c_at :: host) + 1 + length ps + 1 + length ss + 1) e = ns) as ->.
  { replace e with ((nid ++ c_at :: host ++ c_colon :: ps ++ c_colon :: ss ++ [c_colon]) ++ ns)
      by (subst e; by list_simplifier).
    rewrite drop_app_length'; [done|]. placed. }
  rewrite Pi. unfold set_joined; simpl. do 2 f_equal.
  - by apply (substr_at 0 _ e [] nid (c_at :: host ++ c_colon :: ps ++ c_colon :: ss ++ c_colon :: ns)).
  - apply (substr_at _ _ e (nid ++ [c_at]) host (c_colon :: ps ++ c_colon :: ss ++ c_colon :: ns)); placed.
Qed.

Lemma encodeEntry_no_semi i : encodable i → c_semi ∉ encodeEntry i.
Proof.
  intros (_ & Hid & _ & Hhost & Hp & Hi). unfold encodeEntry. unfold in_u in *.
  pose proof (to_string_no_sep (port i) c_semi ltac:(lia) eq_refl).
  pose proof (to_string_no_sep (incarnation i) c_semi ltac:(lia) eq_refl).
  pose proof (state_text_no_sep (state i) c_semi (or_introl eq_refl)).
  rewrite !not_elem_of_app. split_and!; try assumption; intros Hc%list_elem_of_singleton; discriminate Hc.
Qed.

Lemma encodeEntry_nonempty i : encodeEntry i ≠ [].
Proof. unfold encodeEntry. intros [_ H]%app_eq_nil. done. Qed.

Lemma fields_view_entry i : encodable i → fields_view (encodeEntry i) = [set_joined 0 i].
Proof.
  intros H. rewrite fields_view_one by by apply encodeEntry_no_semi. simpl. unfold parseField.
  rewrite decide_False by apply encodeEntry_nonempty. by rewrite parse_encodeEntry.
Qed.

Lemma encodeView_fields out view :
  Forall encodable view →
  fields_view (foldl (λ out info,
    (if decide (out = []) then out else out ++ [c_semi]) ++ encodeEntry info) out view)
  = fields_view out ++ (set_joined 0 <$> view).
Proof.
  intros H. revert out. induction H as [|i view Hi _ IH]; intros out; simpl; [by rewrite app_nil_r|].
  rewrite IH. case_decide as Ho.
  - subst. simpl. by rewrite fields_view_entry.
  - rewrite <- (assoc_L (++)). simpl. rewrite fields_view_app, fields_view_entry by done.
    by rewrite <- (assoc_L (++)).
Qed.

Lemma parseEntry_typed e i :
  parseEntry e = Some i →
  in_u 16 (port i) ∧ in_u 64 (incarnation i) ∧ joined_at i = 0.
Proof.
  assert (∀ w s v, parseUint w s = Some v → in_u w v) as Hu.
  { intros w s v (_ & Hd & <- & Hlt)%parseUint_spec. split; [|done].
    assert (∀ l acc, 0 <= acc → forallb is_digit l = true → 0 <= digits_value acc l) as Hpos.
    { induction l as [|b l IH]; simpl; intros acc Ha Hl; [done|].
      apply andb_true_iff in Hl as [Hb Hl]. apply IH; [|done].
      unfold is_digit, digit_val in *. apply andb_true_iff in Hb as [?%Z.leb_le _]. lia. }
    by apply Hpos. }
  unfold parseEntry. repeat case_match; intros; simplify_eq; simpl; split_and!; eauto.
Qed.

(** ** Facts: the manager *)

(** A started manager whose peer list is the table's. *)
Definition synced (g : Manager) : Prop :=
  ∃ cb, started g = Some cb ∧ cb ∈ cbs (table g) ∧ peers g = peers_of (g_self g) (table g).

(** A table operation notifies every observer or changes nothing. *)
Definition honest (op : MembershipTable.t → MembershipTable.t * list nat) : Prop :=
  ∀ tb, op tb = (tb, []) ∨ ((op tb).2 = cbs tb ∧ cbs (op tb).1 = cbs tb).

Lemma applyRumor_honest now r : honest (applyRumor now r).
Proof. intros tb. destruct (MembershipFacts.applyRumor_cases now r tb); auto. Qed.

Lemma markDead_honest i : honest (markDead i).
Proof. intros tb. destruct (MembershipFacts.markDead_cases i tb) as [->|(n & _ & _ & ->)]; auto. Qed.

Lemma on_table_synced op g : honest op → synced g → synced (on_table op g).
Proof.
  intros Hop (cb & Hst & Hcb & Hp). unfold on_table.
  destruct (Hop (table g)) as [->|[Hf Hc]]; simpl.
  - rewrite Hst. by exists cb.
  - destruct (op (table g)) as [tb fired]; simpl in *. subst fired.
    rewrite Hst, decide_True by done. exists cb. simpl. by rewrite Hc.
Qed.

Lemma on_table_fields op g :
  g_self (on_table op g) = g_self g ∧ started (on_table op g) = started g
  ∧ table (on_table op g) = (op (table g)).1.
Proof. unfold on_table. destruct (op (table g)). simpl. repeat case_match; done. Qed.

Lemma start_synced cb g : synced (start cb g).
Proof. exists cb. simpl. split_and!; [done|set_solver|done]. Qed.

Lemma handleMessage_synced now rq g : synced g → synced (handleMessage now rq g).
Proof.
  unfold handleMessage. generalize (decodeView (value rq)) as rs. intros rs. revert g.
  induction rs as [|r rs IH]; simpl; intros g Hg; [done|].
  apply IH, on_table_synced; [apply applyRumor_honest|done].
Qed.

(** ** Properties *)

(** gossip round trip.  Decoding the encoding of a view gives back every entry,
    in order, with the join time reset, for entries whose id and host hold no
    separator. *)
Theorem view_roundtrip (view : list NodeInfo) :
  Forall encodable view → decodeView (encodeView view) = set_joined 0 <$> view.
Proof. intros H. rewrite decodeView_fields. unfold encodeView. by rewrite encodeView_fields. Qed.

(** malformed entries do not spread.  Decoding two texts joined by a separator
    is decoding each one, so an entry that does not parse is skipped alone; and
    whatever is accepted has a 16-bit port, a 64-bit incarnation and no join time. *)
Theorem decodeView_isolates (a b : bytes) :
  decodeView (a ++ [c_semi] ++ b) = decodeView a ++ decodeView b ∧
  ∀ i, i ∈ decodeView a → in_u 16 (port i) ∧ in_u 64 (incarnation i) ∧ joined_at i = 0.
Proof.
  rewrite !decodeView_fields. split; [apply fields_view_app|].
  intros i (f & _ & Hf)%list_elem_of_omap. unfold parseField in Hf. case_decide; [done|].
  by eapply parseEntry_typed.
Qed.

(** the manager's peer list follows the table.  After start, whatever gossip
    arrives, the peers are exactly the known nodes other than this one in sorted
    order, also after leave, which sends the new view to each of them once. *)
Theorem gossip_peers_track_table (now : Z) (ctx : Z * Z) (cb : nat) (g : Manager) (rqs : list Request) :
  let g' := foldl (λ g rq, handleMessage now rq g) (start cb g) rqs in
  peers g' = peers_of (g_self g') (table g') ∧
  peers (leave ctx g').1 = peers_of (g_self g') (table (leave ctx g').1) ∧
  (leave ctx g').2 = sendView ctx (leave ctx g').1 <$> peers_of (g_self g') (table (leave ctx g').1).
Proof.
  intros g'. assert (synced g') as Hg.
  { subst g'. generalize (start_synced cb g). generalize (start cb g) as g0.
    induction rqs as [|rq rqs IH]; simpl; intros g0 H0; [done|]. by apply IH, handleMessage_synced. }
  destruct (on_table_synced (markDead (g_self g')) g') as (c & _ & _ & Hp); [apply markDead_honest|done|].
  destruct (on_table_fields (markDead (g_self g')) g') as (Hs & _ & _). rewrite Hs in Hp.
  split_and!; [by destruct Hg as (? & _ & _ & ?)|done|]. unfold leave; simpl. by rewrite Hp.
Qed.

(** leaving does not advance the incarnation.  The departing node marks itself
    Dead at the incarnation it already had, so a peer that has accepted the
    departure is set back to Alive by a stale rumor of that same incarnation. *)
Theorem leave_keeps_incarnation (ctx : Z * Z) (g : Manager) (me peer : NodeInfo) (now : Z) (tb : MembershipTable.t) :
  nodes (table g) !! g_self g = Some me →
  nodes tb !! id me = Some peer → MembershipSteps.verdict peer = (incarnation me, Dead) → id me ≠ self tb →
  state me = Alive →
  (∃ me', nodes (table (leave ctx g).1) !! g_self g = Some me' ∧ state me' = Dead ∧ incarnation me' = incarnation me) ∧
  MembershipSteps.verdict_at (id me) (applyRumor now me tb).1 = Some (incarnation me, Alive).
Proof.
  intros Hme Hpeer Hv Hself Hst. split.
  - destruct (on_table_fields (markDead (g_self g)) g) as (_ & _ & Ht). unfold leave; simpl. rewrite Ht.
    unfold markDead. rewrite Hme, Hst. simpl. rewrite lookup_insert_eq. by eexists.
  - destruct (MembershipFacts.applyRumor_peer now me tb peer Hpeer Hself) as (l & E & _ & Hc).
    unfold MembershipSteps.verdict_at. rewrite E. simpl. f_equal.
    unfold MembershipSteps.verdict in *. injection Hv as Hi Hs.
    destruct Hc as [[Hl _]|[_ Hlt]]; [|lia]. by rewrite Hl, Hst.
Qed.

(** ** Concrete views *)

Definition sample_view : list NodeInfo :=
  [mkInfo (lit "n1") (lit "10.0.0.1") 7000 Alive 3 0; mkInfo (lit "n2") [] 0 Suspect 18446744073709551615 9].

Lemma encodable_sample : Forall encodable sample_view.
Proof. repeat constructor; simpl; try (by apply (bool_decide_unpack _)); by vm_compute. Qed.

Lemma view_roundtrip_witness : decodeView (encodeView sample_view) = set_joined 0 <$> sample_view.
Proof. apply (view_roundtrip sample_view encodable_sample). Defined.

Definition left_manager : Manager :=
  mkManager MembershipFacts.me [MembershipFacts.peer] (Some 0%nat) MembershipFacts.joined.

(** The peer's own table, after it heard of the departure. *)
Definition peer_table : MembershipTable.t :=
  MembershipTable.mk MembershipFacts.peer
    (<[MembershipFacts.me := mkInfo MembershipFacts.me [] 0 Dead 0 0]> ∅) [].

Lemma leave_keeps_incarnation_witness :
  MembershipSteps.verdict_at MembershipFacts.me (applyRumor 9 MembershipFacts.self_entry peer_table).1 = Some (0, Alive).
Proof.
  apply (leave_keeps_incarnation (1, 2) left_manager MembershipFacts.self_entry
    (mkInfo MembershipFacts.me [] 0 Dead 0 0) 9 peer_table); by vm_compute.
Defined.
