(* ===== verification/FailureDetector.v ===== *)
(** * Failure detection (include/cinder/cluster/failure_detector.hpp, src/cluster/failure_detector.cpp)

    SWIM-style probing.  A tick reads the clock as [now] and returns the peer
    to ping, if any; the transport's completion is a separate step,
    [onProbeResult].  The map of per-peer states iterates in insertion order. *)

From S2P Require Import Prelude Types Text Membership.
Import MembershipTable.
Local Open Scope Z_scope.

Definition K_SUSPECT_THRESHOLD : Z := 2.

Record PeerState := mkPeer {
  sent_at : Z;              (* probe.sent_at, nanoseconds *)
  suspect_since : Z;        (* nanoseconds *)
  flags : Z;                (* uint8_t: bit 0 probe pending, bit 1 suspected *)
  consecutive_failures : Z }.

Definition freshPeer : PeerState := mkPeer 0 0 0 0.

Definition probePending (p : PeerState) : bool := negb (Z.land (flags p) 1 =? 0).

Definition with_flags (f : Z) (p : PeerState) : PeerState :=
  mkPeer (sent_at p) (suspect_since p) f (consecutive_failures p).

Definition setProbePending (pending : bool) (p : PeerState) : PeerState :=
  with_flags (u8 (Z.lor (Z.land (flags p) (u32 (Z.lnot 1))) (if pending then 1 else 0))) p.

Definition isSuspected (p : PeerState) : bool := negb (Z.land (flags p) 2 =? 0).

Definition setSuspected (suspected : bool) (p : PeerState) : PeerState :=
  with_flags (u8 (Z.lor (Z.land (flags p) (u32 (Z.lnot 2))) (if suspected then 2 else 0))) p.

Definition with_sent (t : Z) (p : PeerState) : PeerState :=
  mkPeer t (suspect_since p) (flags p) (consecutive_failures p).
Definition with_since (t : Z) (p : PeerState) : PeerState :=
  mkPeer (sent_at p) t (flags p) (consecutive_failures p).
Definition with_failures (n : Z) (p : PeerState) : PeerState :=
  mkPeer (sent_at p) (suspect_since p) (flags p) n.

Record Detector := mkDetector {
  d_self : bytes;
  suspect_timeout : Z;      (* milliseconds *)
  d_peers : list bytes;
  next_peer : nat;
  peer_state : list (bytes * PeerState);
  d_started : option nat;   (* the observer registered by start() *)
  d_table : MembershipTable.t }.

Definition make (self : bytes) (timeout : Z) (tb : MembershipTable.t) : Detector :=
  mkDetector self timeout [] 0 [] None tb.

Definition with_states (ps : list (bytes * PeerState)) (d : Detector) : Detector :=
  mkDetector (d_self d) (suspect_timeout d) (d_peers d) (next_peer d) ps (d_started d) (d_table d).
Definition with_next (n : nat) (d : Detector) : Detector :=
  mkDetector (d_self d) (suspect_timeout d) (d_peers d) n (peer_state d) (d_started d) (d_table d).
Definition with_table (tb : MembershipTable.t) (d : Detector) : Detector :=
  mkDetector (d_self d) (suspect_timeout d) (d_peers d) (next_peer d) (peer_state d) (d_started d) tb.

Definition setSuspectTimeout (timeout : Z) (d : Detector) : Detector :=
  mkDetector (d_self d) timeout (d_peers d) (next_peer d) (peer_state d) (d_started d) (d_table d).

Definition rebuildPeersLocked (d : Detector) : Detector :=
  mkDetector (d_self d) (suspect_timeout d)
    (merge_sort bytes_le (filter (λ i, i ≠ d_self d) (id <$> snapshot (d_table d))))
    (next_peer d) (peer_state d) (d_started d) (d_table d).

Definition start (cb : nat) (d : Detector) : Detector :=
  let d := rebuildPeersLocked d in
  mkDetector (d_self d) (suspect_timeout d) (d_peers d) (next_peer d) (peer_state d) (Some cb)
    (onChange cb (d_table d)).

(** A table mutation made outside the lock, and the observer it may notify. *)
Definition on_table (op : MembershipTable.t → MembershipTable.t * list nat) (d : Detector) : Detector :=
  let '(tb, fired) := op (d_table d) in
  let d := with_table tb d in
  match d_started d with
  | Some cb => if decide (cb ∈ fired) then rebuildPeersLocked d else d
  | None => d
  end.

(** A duration in nanoseconds exceeds the timeout in milliseconds. *)
Definition past_timeout (d : Detector) (elapsed : Z) : bool := suspect_timeout d * 1000000 <? elapsed.

Definition timed_out (now : Z) (d : Detector) (p : PeerState) : bool :=
  probePending p && past_timeout d (now - sent_at p).

(** The sweep over pending probes. *)
Definition sweep (now : Z) (d : Detector) : Detector * list bytes :=
  (with_states ((λ '(k, p), (k, if timed_out now d p then setProbePending false p else p)) <$> peer_state d) d,
   (filter (λ kp, timed_out now d kp.2 = true) (peer_state d)).*1).

Definition escalates (now : Z) (d : Detector) (kp : bytes * PeerState) : bool :=
  isSuspected kp.2 &&
  match get kp.1 (d_table d) with
  | None => false
  | Some info => bool_decide (state info = Suspect) && past_timeout d (now - suspect_since kp.2)
  end.

Definition escalateSuspectsLocked (now : Z) (d : Detector) : Detector * list bytes :=
  let to_dead := (filter (λ kp, escalates now d kp = true) (peer_state d)).*1 in
  (with_states
    (foldl (λ ps peer,
       match alookup peer ps with
       | Some st => aset peer (with_failures 0 (setSuspected false st)) ps
       | None => ps
       end) (peer_state d) to_dead) d,
   to_dead).

(** Not self, no probe outstanding, not known to be dead. *)
Definition eligible (d : Detector) (peer : bytes) : bool :=
  negb (bool_decide (peer = d_self d)) &&
  negb (match alookup peer (peer_state d) with Some st => probePending st | None => false end) &&
  negb (match get peer (d_table d) with Some info => bool_decide (state info = Dead) | None => false end).

Definition beginProbe (now : Z) (peer : bytes) (d : Detector) : Detector :=
  let st := default freshPeer (alookup peer (peer_state d)) in
  with_states (aset peer (with_sent now (setProbePending true st)) (peer_state d)) d.

(** Round-robin: at most one full turn over the peers. *)
Fixpoint probeLoop (now : Z) (attempts : nat) (d : Detector) : Detector * option bytes :=
  match attempts with
  | O => (d, None)
  | S attempts =>
      match d_peers d !! (next_peer d mod length (d_peers d))%nat with
      | None => (d, None)
      | Some peer =>
          let d := with_next ((next_peer d + 1) mod length (d_peers d))%nat d in
          if eligible d peer then (beginProbe now peer d, Some peer)
          else probeLoop now attempts d
      end
  end.

(** The whole timer handler; the result is the peer to ping. *)
Definition tick (now : Z) (d : Detector) : Detector * option bytes :=
  let '(d, timed) := sweep now d in
  let '(d, dead) := escalateSuspectsLocked now d in
  let '(d, probe) := probeLoop now (length (d_peers d)) d in
  let d := foldl (λ d peer, on_table (markSuspect peer) d) d timed in
  let d := foldl (λ d peer, on_table (markDead peer) d) d dead in
  (d, probe).

Definition onProbeResult (now : Z) (peer : bytes) (acked : bool) (d : Detector) : Detector :=
  match alookup peer (peer_state d) with
  | None => d
  | Some st =>
      let st := setProbePending false st in
      if acked then
        let d := with_states (aset peer (with_failures 0 (setSuspected false st)) (peer_state d)) d in
        let inc := match get peer (d_table d) with Some info => incarnation info | None => 0 end in
        on_table (markAlive now peer inc) d
      else
        let st := with_failures (consecutive_failures st + 1) st in
        let failures := consecutive_failures st in
        let st := if isSuspected st then st else with_since now (setSuspected true st) in
        let d := with_states (aset peer st (peer_state d)) d in
        if failures <? K_SUSPECT_THRESHOLD then d
        else on_table (markSuspect peer) d
  end.

(** ** Vocabulary of the properties *)

(** What the detector goes through: its own handlers, and membership changes
    made by other components (gossip). *)
Inductive event :=
  | EStart (cb : nat)
  | ETick (now : Z)
  | EResult (now : Z) (peer : bytes) (acked : bool)
  | ETable (e : MembershipSteps.event).

Definition run (e : event) (d : Detector) : Detector :=
  match e with
  | EStart cb => start cb d
  | ETick now => (tick now d).1
  | EResult now peer acked => onProbeResult now peer acked d
  | ETable e => on_table (MembershipSteps.run e) d
  end.

Inductive reachable (self : bytes) (timeout : Z) (tb : MembershipTable.t) : Detector → Prop :=
  | reach_make : reachable self timeout tb (make self timeout tb)
  | reach_step e d : reachable self timeout tb d → reachable self timeout tb (run e d).

Definition state_at (p : bytes) (d : Detector) : option NodeState := state <$> get p (d_table d).

(** The probe of [p] is past its deadline. *)
Definition probe_expired (now : Z) (d : Detector) (p : bytes) : bool :=
  match alookup p (peer_state d) with Some st => timed_out now d st | None => false end.

(** [p] has been under suspicion for longer than the timeout. *)
Definition suspicion_expired (now : Z) (d : Detector) (p : bytes) : bool :=
  match alookup p (peer_state d) with Some st => escalates now d (p, st) | None => false end.

(** May [p] be pinged: another node, not Dead, with no ping under way. *)
Definition candidate (now : Z) (d : Detector) (p : bytes) : Prop :=
  p ≠ d_self d ∧ state_at p d ≠ Some Dead ∧
  ∀ st, alookup p (peer_state d) = Some st → probePending st = true → timed_out now d st = true.

(** The state a tick gives to a peer. *)
Definition verdict_after (now : Z) (d : Detector) (p : bytes) (s : NodeState) : NodeState :=
  if suspicion_expired now d p then Dead
  else if probe_expired now d p then match s with Alive => Suspect | s => s end
  else s.

(** ** The flags byte *)

Lemma probePending_bit p : probePending p = Z.testbit (flags p) 0.
Proof. apply (land_pow2_testbit _ 0). lia. Qed.

Lemma isSuspected_bit p : isSuspected p = Z.testbit (flags p) 1.
Proof. apply (land_pow2_testbit _ 1). lia. Qed.

Lemma set_flag_bit (k n f : Z) (b : bool) : 0 <= k < 8 → 0 <= n < 8 →
  Z.testbit (u8 (Z.lor (Z.land f (u32 (Z.lnot (2 ^ k)))) (if b then 2 ^ k else 0))) n
  = if n =? k then b else Z.testbit f n.
Proof.
  intros Hk Hn. rewrite testbit_wrap by lia. rewrite Z.lor_spec, Z.land_spec, testbit_wrap by lia.
  rewrite Z.lnot_spec by lia. destruct b; rewrite ?Z.bits_0, ?Z.pow2_bits_eqb by lia;
    destruct (Z.eqb_spec n k) as [->|]; rewrite ?Z.pow2_bits_eqb, ?Z.eqb_refl by lia; simpl.
  1,3: by rewrite andb_false_r.
  all: replace (k =? n) with false by (symmetry; apply Z.eqb_neq; lia); simpl; by rewrite andb_true_r, ?orb_false_r.
Qed.

Lemma probePending_setProbePending b p : probePending (setProbePending b p) = b.
Proof. rewrite probePending_bit. apply (set_flag_bit 0 0); lia. Qed.
Lemma isSuspected_setProbePending b p : isSuspected (setProbePending b p) = isSuspected p.
Proof. rewrite !isSuspected_bit. apply (set_flag_bit 0 1); lia. Qed.
Lemma probePending_setSuspected b p : probePending (setSuspected b p) = probePending p.
Proof. rewrite !probePending_bit. apply (set_flag_bit 1 0); lia. Qed.
Lemma isSuspected_setSuspected b p : isSuspected (setSuspected b p) = b.
Proof. rewrite isSuspected_bit. apply (set_flag_bit 1 1); lia. Qed.
Lemma probePending_with_failures n p : probePending (with_failures n p) = probePending p.
Proof. done. Qed.
Lemma isSuspected_with_failures n p : isSuspected (with_failures n p) = isSuspected p.
Proof. done. Qed.

Create HintDb detector.
#[export] Hint Rewrite probePending_setProbePending isSuspected_setProbePending
  probePending_setSuspected isSuspected_setSuspected probePending_with_failures isSuspected_with_failures : detector.

(** ** The table writes *)

Lemma detector_on_table_fields op d :
  d_table (on_table op d) = (op (d_table d)).1 ∧ peer_state (on_table op d) = peer_state d ∧
  d_self (on_table op d) = d_self d ∧ next_peer (on_table op d) = next_peer d ∧
  suspect_timeout (on_table op d) = suspect_timeout d.
Proof. unfold on_table. destruct (op (d_table d)). by repeat case_match. Qed.

Lemma on_tables_fields (op : bytes → MembershipTable.t → MembershipTable.t * list nat) ps d :
  let d' := foldl (λ d p, on_table (op p) d) d ps in
  d_table d' = foldl (λ tb p, (op p tb).1) (d_table d) ps ∧ peer_state d' = peer_state d ∧
  d_self d' = d_self d ∧ next_peer d' = next_peer d.
Proof.
  revert d. induction ps as [|p ps IH]; intros d; simpl; [done|].
  destruct (IH (on_table (op p) d)) as (-> & -> & -> & ->).
  by destruct (detector_on_table_fields (op p) d) as (-> & -> & -> & -> & _).
Qed.

Lemma markSuspect_state p k tb :
  state <$> get k (markSuspect p tb).1
  = (λ s, if decide (p = k) then match s with Alive => Suspect | s => s end else s) <$> (state <$> get k tb).
Proof.
  unfold get, markSuspect. destruct (nodes tb !! p) as [n|] eqn:E; [destruct (state n) eqn:Es|]; simpl;
    rewrite ?lookup_insert; case_decide; subst; rewrite ?E; simpl; rewrite ?Es; try done;
    by destruct (nodes tb !! k).
Qed.

Lemma markDead_state p k tb :
  state <$> get k (markDead p tb).1
  = (λ s, if decide (p = k) then Dead else s) <$> (state <$> get k tb).
Proof.
  unfold get, markDead. destruct (nodes tb !! p) as [n|] eqn:E; [destruct (state n) eqn:Es|]; simpl;
    rewrite ?lookup_insert; case_decide; subst; rewrite ?E; simpl; rewrite ?Es; try done;
    by destruct (nodes tb !! k).
Qed.

Lemma marksSuspect_state ps k tb :
  state <$> get k (foldl (λ tb p, (markSuspect p tb).1) tb ps)
  = (λ s, if decide (k ∈ ps) then match s with Alive => Suspect | s => s end else s) <$> (state <$> get k tb).
Proof.
  revert tb. induction ps as [|p ps IH]; intros tb; simpl; [by destruct (get k tb)|].
  rewrite IH, markSuspect_state. destruct (get k tb) as [n|]; simpl; [|done]. f_equal.
  destruct (decide (p = k)) as [->|]; repeat case_decide; try set_solver; by destruct (state n).
Qed.

Lemma marksDead_state ps k tb :
  state <$> get k (foldl (λ tb p, (markDead p tb).1) tb ps)
  = (λ s, if decide (k ∈ ps) then Dead else s) <$> (state <$> get k tb).
Proof.
  revert tb. induction ps as [|p ps IH]; intros tb; simpl; [by destruct (get k tb)|].
  rewrite IH, markDead_state. destruct (get k tb) as [n|]; simpl; [|done]. f_equal.
  destruct (decide (p = k)) as [->|]; repeat case_decide; try done; set_solver.
Qed.

(** ** The sweep, the escalation and the probe loop *)

Lemma alookup_map {V W} (f : V → W) k (l : list (bytes * V)) :
  alookup k ((λ '(k, v), (k, f v)) <$> l) = f <$> alookup k l.
Proof. induction l as [|[k' v] l IH]; simpl; [done|]. by case_decide. Qed.

Lemma sweep_lookup now d p :
  alookup p (peer_state (sweep now d).1)
  = (λ st, if timed_out now d st then setProbePending false st else st) <$> alookup p (peer_state d).
Proof. unfold sweep; simpl. apply alookup_map. Qed.

Lemma elem_keys_filter (P : bytes * PeerState → bool) (l : list (bytes * PeerState)) p :
  NoDup l.*1 →
  p ∈ (filter (λ kp, P kp = true) l).*1 ↔ match alookup p l with Some st => P (p, st) | None => false end = true.
Proof.
  intros Hnd. rewrite list_elem_of_fmap. split.
  - intros ([k st] & -> & [HP Hin]%list_elem_of_filter). simpl.
    by rewrite (elem_alookup _ _ _ Hnd Hin).
  - destruct (alookup p l) as [st|] eqn:E; [|done]. intros HP. exists (p, st). split; [done|].
    apply list_elem_of_filter. split; [done|]. by apply alookup_elem.
Qed.

Lemma NoDup_keys_filter (P : bytes * PeerState → bool) (l : list (bytes * PeerState)) :
  NoDup l.*1 → NoDup (filter (λ kp, P kp = true) l).*1.
Proof.
  intros H. eapply sublist_NoDup; [exact H|]. apply fmap_sublist, sublist_filter.
Qed.

Lemma sweep_timed now d p :
  NoDup (peer_state d).*1 → p ∈ (sweep now d).2 ↔ probe_expired now d p = true.
Proof. intros H. exact (elem_keys_filter (λ kp, timed_out now d kp.2) _ p H). Qed.

Lemma sweep_keys now d : (peer_state (sweep now d).1).*1 = (peer_state d).*1.
Proof.
  unfold sweep; simpl. rewrite <- list_fmap_compose. apply list_fmap_ext. by intros i [k st].
Qed.

(** What escalation does to the states of the escalated peers. *)
Definition reset_all (dead : list bytes) (ps : list (bytes * PeerState)) : list (bytes * PeerState) :=
  foldl (λ ps peer,
    match alookup peer ps with
    | Some st => aset peer (with_failures 0 (setSuspected false st)) ps
    | None => ps
    end) ps dead.

Lemma reset_all_lookup dead ps p :
  NoDup dead →
  alookup p (reset_all dead ps)
  = (λ st, if decide (p ∈ dead) then with_failures 0 (setSuspected false st) else st) <$> alookup p ps.
Proof.
  unfold reset_all. revert ps. induction dead as [|k dead IH]; intros ps Hnd; simpl.
  { by destruct (alookup p ps). }
  apply NoDup_cons in Hnd as [Hk Hnd]. rewrite IH by done. destruct (decide (k = p)) as [->|Hne].
  - destruct (alookup p ps) as [st|] eqn:E; rewrite ?alookup_aset_eq, ?E; simpl; [|done].
    rewrite (decide_False (P := p ∈ dead)) by done. by rewrite decide_True by (by left).
  - assert (alookup p match alookup k ps with
                      | Some st => aset k (with_failures 0 (setSuspected false st)) ps
                      | None => ps end = alookup p ps) as ->.
    { destruct (alookup k ps); [by rewrite alookup_aset_ne|done]. }
    destruct (alookup p ps) as [st|]; simpl; [|done].
    by rewrite (decide_ext (p ∈ k :: dead) (p ∈ dead)) by set_solver.
Qed.

Lemma reset_all_keys dead ps : (reset_all dead ps).*1 = ps.*1.
Proof.
  unfold reset_all. revert ps. induction dead as [|k dead IH]; intros ps; simpl; [done|].
  rewrite IH. destruct (alookup k ps) as [st|] eqn:E; [|done]. apply aset_keys_in.
  apply list_elem_of_fmap. exists (k, st). split; [done|by apply alookup_elem].
Qed.

Lemma escalate_eq now d :
  escalateSuspectsLocked now d =
    (with_states (reset_all (escalateSuspectsLocked now d).2 (peer_state d)) d,
     (escalateSuspectsLocked now d).2).
Proof. done. Qed.

(** The sweep changes nothing escalation looks at. *)
Lemma escalate_dead now d p :
  NoDup (peer_state d).*1 →
  p ∈ (escalateSuspectsLocked now (sweep now d).1).2 ↔ suspicion_expired now d p = true.
Proof.
  intros H. unfold escalateSuspectsLocked; cbn [snd].
  rewrite (elem_keys_filter (escalates now (sweep now d).1)) by by rewrite sweep_keys.
  rewrite sweep_lookup. unfold suspicion_expired. destruct (alookup p (peer_state d)) as [st|]; simpl; [|done].
  unfold escalates; simpl. destruct (timed_out now d st); autorewrite with detector; done.
Qed.

(** The state in which the round-robin runs. *)
Definition swept (now : Z) (d : Detector) : Detector :=
  (escalateSuspectsLocked now (sweep now d).1).1.

Lemma swept_fields now d :
  d_peers (swept now d) = d_peers d ∧ next_peer (swept now d) = next_peer d ∧
  d_self (swept now d) = d_self d ∧ d_table (swept now d) = d_table d.
Proof. done. Qed.

Lemma swept_pending now d p :
  NoDup (peer_state d).*1 →
  match alookup p (peer_state (swept now d)) with Some st => probePending st | None => false end
  = match alookup p (peer_state d) with Some st => probePending st && negb (timed_out now d st) | None => false end.
Proof.
  intros H. unfold swept. rewrite escalate_eq. cbn [fst peer_state with_states].
  rewrite reset_all_lookup. 2:{ apply NoDup_keys_filter. by rewrite sweep_keys. }
  rewrite sweep_lookup. destruct (alookup p (peer_state d)) as [st|]; [|done].
  cbn [fmap option_fmap option_map].
  destruct (timed_out now d st); case_decide; autorewrite with detector;
    by rewrite ?andb_false_r, ?andb_true_r.
Qed.

Lemma eligible_candidate now d p :
  NoDup (peer_state d).*1 → eligible (swept now d) p = true ↔ candidate now d p.
Proof.
  intros H. unfold eligible, candidate. rewrite (swept_pending now d p H).
  destruct (swept_fields now d) as (_ & _ & -> & ->). unfold state_at.
  rewrite !andb_true_iff, !negb_true_iff, bool_decide_eq_false.
  assert (match get p (d_table d) with Some info => bool_decide (state info = Dead) | None => false end = false
    ↔ state <$> get p (d_table d) ≠ Some Dead) as ->.
  { destruct (get p (d_table d)); simpl; [|done]. rewrite bool_decide_eq_false. split; congruence. }
  assert (match alookup p (peer_state d) with
          | Some st => probePending st && negb (timed_out now d st) | None => false end = false
    ↔ ∀ st, alookup p (peer_state d) = Some st → probePending st = true → timed_out now d st = true) as ->.
  { destruct (alookup p (peer_state d)) as [st|]; [|done].
    rewrite andb_false_iff, negb_false_iff. split; [intros Hor st' [= <-]; destruct Hor; congruence|].
    intros Hall. destruct (probePending st) eqn:Ep; [right; by apply Hall|by left]. }
  tauto.
Qed.

Section loop.
Context (now : Z).

Lemma mod_succ (a i n : nat) : n ≠ 0%nat → (((a + 1) mod n + i) mod n = (a + S i) mod n)%nat.
Proof.
  intros Hn. rewrite Nat.Div0.add_mod_idemp_l. f_equal. lia.
Qed.

Lemma probeLoop_spec attempts d :
  let at_ i := d_peers d !! ((next_peer d + i) mod length (d_peers d))%nat in
  match (probeLoop now attempts d).2 with
  | Some p => ∃ i, (i < attempts)%nat ∧ at_ i = Some p ∧ eligible d p = true ∧
      (∀ j q, (j < i)%nat → at_ j = Some q → eligible d q = false) ∧
      (probeLoop now attempts d).1
      = beginProbe now p (with_next ((next_peer d + i + 1) mod length (d_peers d)) d)
  | None => (∀ j q, (j < attempts)%nat → at_ j = Some q → eligible d q = false) ∧
      ∃ m, (probeLoop now attempts d).1 = with_next m d
  end.
Proof.
  revert d. induction attempts as [|k IH]; intros d; cbn zeta.
  { simpl. split; [intros; lia|]. exists (next_peer d). by destruct d. }
  simpl. set (n := length (d_peers d)).
  destruct (d_peers d !! (next_peer d mod n)%nat) as [p|] eqn:Ep.
  2:{ simpl. split; [|exists (next_peer d); by destruct d].
      intros j q _ Hq. apply lookup_lt_Some in Hq. apply lookup_ge_None in Ep.
      pose proof (Nat.mod_upper_bound (next_peer d) n). fold n in Hq, Ep. lia. }
  assert (n ≠ 0%nat) as Hn by (apply lookup_lt_Some in Ep; fold n in Ep; lia).
  change (eligible (with_next ((next_peer d + 1) mod n) d) p) with (eligible d p).
  destruct (eligible d p) eqn:He; cbn [fst snd].
  { exists 0%nat. rewrite Nat.add_0_r. split_and!; [lia|done..|intros; lia|done]. }
  specialize (IH (with_next ((next_peer d + 1) mod n) d)). cbn zeta in IH. simpl in IH. fold n in IH.
  destruct (probeLoop now k _) as [d' [q|]]; cbn [fst snd] in *.
  - destruct IH as (i & Hi & Hat & Hel & Hbefore & ->). rewrite mod_succ in Hat by done.
    exists (S i). split_and!; [lia|done|done| |].
    + intros [|j] q' Hj Hq'; [rewrite Nat.add_0_r in Hq'; congruence|].
      apply (Hbefore j q'); [lia|]. by rewrite mod_succ.
    + f_equal. unfold with_next; simpl. f_equal.
      rewrite <- Nat.add_assoc, mod_succ by done. f_equal. lia.
  - destruct IH as [Hall [m ->]]. split; [|by exists m].
    intros [|j] q' Hj Hq'; [rewrite Nat.add_0_r in Hq'; congruence|].
    apply (Hall j q'); [lia|]. by rewrite mod_succ.
Qed.

(** The loop leaves the table alone and writes at most the probed peer's state. *)
Lemma probeLoop_effect attempts d :
  d_table (probeLoop now attempts d).1 = d_table d ∧
  (peer_state (probeLoop now attempts d).1 = peer_state d ∨
   ∃ p, peer_state (probeLoop now attempts d).1
     = aset p (with_sent now (setProbePending true (default freshPeer (alookup p (peer_state d))))) (peer_state d)).
Proof.
  pose proof (probeLoop_spec attempts d) as H. cbn zeta in H.
  destruct (probeLoop now attempts d) as [d' [p|]]; simpl in *.
  - destruct H as (i & _ & _ & _ & _ & ->). eauto.
  - destruct H as [_ [m ->]]. eauto.
Qed.
End loop.

(** ** The handlers on the whole state *)

Lemma tick_eq now d :
  let d1 := probeLoop now (length (d_peers d)) (swept now d) in
  (tick now d).2 = d1.2 ∧
  peer_state (tick now d).1 = peer_state d1.1 ∧ next_peer (tick now d).1 = next_peer d1.1 ∧
  d_table (tick now d).1
  = foldl (λ tb p, (markDead p tb).1)
      (foldl (λ tb p, (markSuspect p tb).1) (d_table d) (sweep now d).2)
      (escalateSuspectsLocked now (sweep now d).1).2.
Proof.
  cbn zeta. unfold tick, swept. destruct (sweep now d) as [ds timed] eqn:Es. cbn [fst snd].
  destruct (escalateSuspectsLocked now ds) as [de dead] eqn:Ee. cbn [fst snd].
  assert (d_peers de = d_peers d ∧ d_table de = d_table d) as [Hp Ht].
  { apply (f_equal fst) in Es, Ee. cbn [fst] in *. by subst de ds. }
  rewrite Hp. destruct (probeLoop_effect now (length (d_peers d)) de) as [Hpt _].
  destruct (probeLoop now (length (d_peers d)) de) as [dp probe]; cbn [fst snd] in *.
  destruct (on_tables_fields markDead dead (foldl (λ d p, on_table (markSuspect p) d) dp timed)) as (-> & -> & _ & ->).
  destruct (on_tables_fields markSuspect timed dp) as (-> & -> & _ & ->). by rewrite Hpt, Ht.
Qed.

Lemma swept_keys now d : (peer_state (swept now d)).*1 = (peer_state d).*1.
Proof. unfold swept. rewrite escalate_eq. cbn [fst peer_state with_states]. by rewrite reset_all_keys, sweep_keys. Qed.

Lemma tick_NoDup now d : NoDup (peer_state d).*1 → NoDup (peer_state (tick now d).1).*1.
Proof.
  intros H. destruct (tick_eq now d) as (_ & -> & _).
  destruct (probeLoop_effect now (length (d_peers d)) (swept now d)) as [_ [->|[p ->]]];
    [by rewrite swept_keys|]. apply aset_NoDup. by rewrite swept_keys.
Qed.

Lemma tick_states now d p :
  NoDup (peer_state d).*1 →
  state_at p (tick now d).1 = verdict_after now d p <$> state_at p d.
Proof.
  intros H. unfold state_at. destruct (tick_eq now d) as (_ & _ & _ & ->).
  rewrite marksDead_state, marksSuspect_state.
  destruct (get p (d_table d)) as [n|]; [|done]. cbn [fmap option_fmap option_map]. f_equal.
  unfold verdict_after. pose proof (escalate_dead now d p H) as Hd. pose proof (sweep_timed now d p H) as Ht.
  case_decide as Hin; [by rewrite (proj1 Hd Hin)|].
  destruct (suspicion_expired now d p); [tauto|].
  case_decide as Hin2; [by rewrite (proj1 Ht Hin2)|]. destruct (probe_expired now d p); [tauto|done].
Qed.

Lemma onProbeResult_NoDup now p acked d :
  NoDup (peer_state d).*1 → NoDup (peer_state (onProbeResult now p acked d)).*1.
Proof.
  intros H. unfold onProbeResult. destruct (alookup p (peer_state d)); [|done].
  destruct acked; [|case_match; simpl; [by apply aset_NoDup|]];
  match goal with |- context [on_table ?op ?d] => destruct (detector_on_table_fields op d) as (_ & -> & _) end;
    simpl; by apply aset_NoDup.
Qed.

Lemma reachable_NoDup self timeout tb d : reachable self timeout tb d → NoDup (peer_state d).*1.
Proof.
  induction 1 as [|e d _ IH]; [apply NoDup_nil_2|]. destruct e; simpl.
  - done.
  - by apply tick_NoDup.
  - by apply onProbeResult_NoDup.
  - by destruct (detector_on_table_fields (MembershipSteps.run e) d) as (_ & -> & _).
Qed.

(** No peer is under suspicion in the detector's own bookkeeping. *)
Definition unsuspected (d : Detector) : Prop :=
  ∀ p st, alookup p (peer_state d) = Some st → isSuspected st = false.

Lemma tick_unsuspected now d : NoDup (peer_state d).*1 → unsuspected d → unsuspected (tick now d).1.
Proof.
  intros Hnd H. assert (unsuspected (swept now d)) as Hs.
  { intros p st'. unfold swept. rewrite escalate_eq. cbn [fst peer_state with_states].
    rewrite reset_all_lookup by (apply NoDup_keys_filter; by rewrite sweep_keys). rewrite sweep_lookup.
    destruct (alookup p (peer_state d)) as [st|] eqn:E; [|done]. cbn [fmap option_fmap option_map].
    intros [= <-]. apply H in E. destruct (timed_out now d st); case_decide; by autorewrite with detector. }
  intros p st'. destruct (tick_eq now d) as (_ & -> & _).
  destruct (probeLoop_effect now (length (d_peers d)) (swept now d)) as [_ [->|[q ->]]]; [apply Hs|].
  destruct (decide (q = p)) as [->|]; [|by rewrite alookup_aset_ne; [apply Hs|]].
  rewrite alookup_aset_eq. intros [= <-].
  change (isSuspected (setProbePending true (default freshPeer (alookup p (peer_state (swept now d))))) = false).
  autorewrite with detector. destruct (alookup p (peer_state (swept now d))) eqn:E; [by eapply Hs|done].
Qed.

Definition ticks (nows : list Z) (d : Detector) : Detector := foldl (λ d now, (tick now d).1) d nows.

Lemma ticks_app a b d : ticks (a ++ b) d = ticks b (ticks a d).
Proof. apply foldl_app. Qed.

Lemma unsuspected_expired now d p : unsuspected d → suspicion_expired now d p = false.
Proof.
  intros H. unfold suspicion_expired, escalates. destruct (alookup p (peer_state d)) eqn:E; [|done].
  cbn [snd]; by rewrite (H _ _ E).
Qed.

Lemma onProbeResult_acked now p d st i :
  alookup p (peer_state d) = Some st → get p (d_table d) = Some i →
  MembershipSteps.verdict_at p (d_table (onProbeResult now p true d)) = Some (incarnation i, Alive) ∧
  ∃ st', alookup p (peer_state (onProbeResult now p true d)) = Some st' ∧ consecutive_failures st' = 0.
Proof.
  unfold get. intros Hst Hi. unfold onProbeResult. rewrite Hst. cbn [d_table with_states]. unfold get. rewrite Hi.
  match goal with |- context [on_table ?op ?d] => destruct (detector_on_table_fields op d) as (-> & -> & _) end.
  split; [|eexists; split; [apply alookup_aset_eq|done]]. cbn [d_table with_states].
  unfold MembershipSteps.verdict_at, markAlive. rewrite Hi.
  destruct (bool_decide (state i = Alive) && (incarnation i <=? incarnation i)) eqn:Hb; cbn.
  - apply andb_true_iff in Hb as [Ha%bool_decide_eq_true _]. rewrite Hi. cbn.
    unfold MembershipSteps.verdict. by rewrite Ha.
  - rewrite lookup_insert_eq. cbn. by case_decide.
Qed.

Lemma onProbeResult_failed now p d st :
  alookup p (peer_state d) = Some st →
  d_table (onProbeResult now p false d)
  = (if consecutive_failures st + 1 <? K_SUSPECT_THRESHOLD then d_table d else (markSuspect p (d_table d)).1) ∧
  ∃ st', alookup p (peer_state (onProbeResult now p false d)) = Some st' ∧
    consecutive_failures st' = consecutive_failures st + 1.
Proof.
  intros Hst. unfold onProbeResult. rewrite Hst. cbn [consecutive_failures with_failures setProbePending with_flags].
  set (st' := if isSuspected _ then _ else _).
  assert (consecutive_failures st' = consecutive_failures st + 1) as Hf by (unfold st'; by case_match).
  case_match; [split; [done|]; exists st'; split; [apply alookup_aset_eq|done]|].
  match goal with |- context [on_table ?op ?d] => destruct (detector_on_table_fields op d) as (-> & -> & _) end.
  split; [done|]. exists st'. split; [apply alookup_aset_eq|done].
Qed.

(** ** Properties *)

(** which peer a tick pings.  It is the first one in round-robin order,
    starting at [next_peer_], that is another node, not Dead, and has no ping
    under way that is still within its deadline; every peer before it in that
    order was skipped for one of these reasons, the cursor moves just past it,
    and its probe is recorded as pending since now.  A tick pings nobody only
    when no peer qualifies. *)
Theorem tick_probes_round_robin (self : bytes) (timeout : Z) (tb : MembershipTable.t) (d : Detector) (now : Z) :
  reachable self timeout tb d →
  let n := length (d_peers d) in
  let at_ i := d_peers d !! ((next_peer d + i) mod n)%nat in
  match (tick now d).2 with
  | Some p => ∃ i, (i < n)%nat ∧ at_ i = Some p ∧ candidate now d p ∧
      (∀ j q, (j < i)%nat → at_ j = Some q → ¬ candidate now d q) ∧
      next_peer (tick now d).1 = ((next_peer d + i + 1) mod n)%nat ∧
      ∃ st, alookup p (peer_state (tick now d).1) = Some st ∧ probePending st = true ∧ sent_at st = now
  | None => ∀ q, q ∈ d_peers d → ¬ candidate now d q
  end.
Proof.
  intros Hnd%reachable_NoDup. cbn zeta. destruct (tick_eq now d) as (-> & -> & -> & _).
  pose proof (probeLoop_spec now (length (d_peers d)) (swept now d)) as H. cbn zeta in H.
  assert (∀ q, eligible (swept now d) q = false → ¬ candidate now d q) as Hno.
  { intros q Hq Hc. apply (eligible_candidate _ _ _ Hnd) in Hc. congruence. }
  destruct (swept_fields now d) as (Hp & Hn & _). rewrite Hp, Hn in H.
  destruct (probeLoop now (length (d_peers d)) (swept now d)) as [d' [p|]]; cbn [fst snd] in *.
  - destruct H as (i & Hi & Hat & Hel & Hbefore & ->). exists i. split_and!; eauto.
    + by apply eligible_candidate.
    + eexists. split; [apply alookup_aset_eq|]. split; [|done].
      change (probePending (setProbePending true (default freshPeer (alookup p (peer_state (swept now d))))) = true).
      by autorewrite with detector.
  - destruct H as [Hall _]. intros q [k Hk]%list_elem_of_lookup.
    pose proof (lookup_lt_Some _ _ _ Hk) as Hlt. apply Hno.
    set (n := length (d_peers d)) in *.
    apply (Hall ((k + (n - next_peer d mod n)) mod n)%nat q); [apply Nat.mod_upper_bound; lia|].
    rewrite <- Hk. f_equal. rewrite Nat.Div0.add_mod_idemp_r.
    pose proof (Nat.mod_upper_bound (next_peer d) n ltac:(lia)). pose proof (Nat.div_mod_eq (next_peer d) n).
    replace (next_peer d + (k + (n - next_peer d mod n)))%nat with (k + (next_peer d / n + 1) * n)%nat by nia.
    rewrite Nat.Div0.mod_add. apply Nat.mod_small. lia.
Qed.

(** what a tick decides about every node.  A node becomes Dead exactly when
    the table holds it as Suspect and the detector has suspected it for longer
    than the timeout; otherwise an Alive node whose ping is past its deadline
    becomes Suspect; every other node keeps its state. *)
Theorem tick_verdicts (self : bytes) (timeout : Z) (tb : MembershipTable.t) (d : Detector) (now : Z) (p : bytes) :
  reachable self timeout tb d →
  state_at p (tick now d).1 = verdict_after now d p <$> state_at p d.
Proof. intros H%reachable_NoDup. by apply tick_states. Qed.

(** results of pings.  An acknowledged ping makes the peer Alive at its
    incarnation; one failure after that changes nothing in the table; a second
    failure in a row makes the peer Suspect, still at the same incarnation. *)
Theorem probe_streak (d : Detector) (p : bytes) (st : PeerState) (i : NodeInfo) (t0 t1 t2 : Z) :
  alookup p (peer_state d) = Some st → get p (d_table d) = Some i →
  let ok := onProbeResult t0 p true d in
  let once := onProbeResult t1 p false ok in
  let twice := onProbeResult t2 p false once in
  MembershipSteps.verdict_at p (d_table ok) = Some (incarnation i, Alive) ∧
  d_table once = d_table ok ∧
  MembershipSteps.verdict_at p (d_table twice) = Some (incarnation i, Suspect).
Proof.
  intros Hst Hi. cbn zeta.
  destruct (onProbeResult_acked t0 p d st i Hst Hi) as (Hv & st0 & Hst0 & H0).
  destruct (onProbeResult_failed t1 p _ _ Hst0) as (Ht1 & st1 & Hst1 & H1).
  destruct (onProbeResult_failed t2 p _ _ Hst1) as (Ht2 & _). rewrite H0 in Ht1, H1. rewrite H1 in Ht2.
  split_and!; [done|done|]. rewrite Ht2, Ht1. cbn -[markSuspect].
  revert Hv. unfold MembershipSteps.verdict_at, MembershipSteps.verdict, markSuspect.
  destruct (nodes _ !! p) as [n|] eqn:E; [|done]. simpl. intros [= <- Hs]. rewrite Hs. simpl.
  by rewrite lookup_insert_eq.
Qed.

(** a peer whose pings get no completion at all, success or failure, is
    never declared Dead.  Ticks alone, however many and however late, leave
    every node that was not Dead out of that state, because the timeout sweep
    marks the node Suspect in the table without starting the suspicion that
    escalation looks for. *)
Theorem silent_peer_never_dead (self : bytes) (timeout : Z) (tb : MembershipTable.t) (d : Detector)
    (nows : list Z) (p : bytes) :
  reachable self timeout tb d → unsuspected d →
  state_at p (ticks nows d) = Some Dead → state_at p d = Some Dead.
Proof.
  intros Hnd%reachable_NoDup. revert d Hnd. induction nows as [|now nows IH]; intros d Hnd Hu; [done|].
  simpl. intros Hd. apply IH in Hd; [|by apply tick_NoDup|by apply tick_unsuspected].
  rewrite tick_states in Hd by done. destruct (state_at p d) as [s|]; [|done].
  cbn in Hd. unfold verdict_after in Hd. rewrite unsuspected_expired in Hd by done.
  by destruct (probe_expired now d p), s.
Qed.

(** ** A detector with one peer *)

Definition detector0 : Detector :=
  make MembershipFacts.me 100 MembershipFacts.joined.
Definition detector1 : Detector := start 1 detector0.
Definition detector2 : Detector := (tick 0 detector1).1.

Lemma detector1_reachable : reachable MembershipFacts.me 100 MembershipFacts.joined detector1.
Proof. apply (reach_step _ _ _ (EStart 1)), reach_make. Qed.

Lemma detector2_reachable : reachable MembershipFacts.me 100 MembershipFacts.joined detector2.
Proof. apply (reach_step _ _ _ (ETick 0)), detector1_reachable. Qed.

Lemma tick_probes_round_robin_witness : candidate 0 detector1 MembershipFacts.peer ∧ (tick 0 detector1).2 = Some MembershipFacts.peer.
Proof.
  assert ((tick 0 detector1).2 = Some MembershipFacts.peer) as E by (by vm_compute).
  pose proof (tick_probes_round_robin _ _ _ detector1 0 detector1_reachable) as H. cbn zeta in H. rewrite E in H.
  destruct H as (i & _ & _ & Hc & _). exact (conj Hc E).
Defined.

(** The ping sent at 0 is past the 100 ms deadline at 200 ms. *)
Lemma tick_verdicts_witness : state_at MembershipFacts.peer (tick 200000000 detector2).1 = Some Suspect.
Proof.
  pose proof (tick_verdicts _ _ _ detector2 200000000 MembershipFacts.peer detector2_reachable) as H.
  etrans; [exact H|]. by vm_compute.
Defined.

Lemma probe_streak_witness :
  MembershipSteps.verdict_at MembershipFacts.peer
    (d_table (onProbeResult 3 MembershipFacts.peer false
      (onProbeResult 2 MembershipFacts.peer false (onProbeResult 1 MembershipFacts.peer true detector2))))
  = Some (0, Suspect).
Proof.
  apply (probe_streak detector2 MembershipFacts.peer (mkPeer 0 0 1 0) MembershipFacts.peer_entry 1 2 3); by vm_compute.
Defined.

Lemma unsuspected_detector2 : unsuspected detector2.
Proof.
  intros p st. assert (peer_state detector2 = [(MembershipFacts.peer, mkPeer 0 0 1 0)]) as -> by (by vm_compute).
  simpl. case_decide; [|done]. by intros [= <-].
Qed.

Lemma silent_peer_never_dead_witness :
  state_at MembershipFacts.peer (ticks [200000000; 400000000; 900000000] detector2) ≠ Some Dead.
Proof.
  intros H. apply (silent_peer_never_dead _ _ _ detector2 [200000000; 400000000; 900000000] MembershipFacts.peer
    detector2_reachable unsuspected_detector2) in H. revert H. by vm_compute.
Defined.
