(* ===== verification/HashRing.v ===== *)
(** * Consistent hash ring (include/cinder/hashing/consistent_hash_ring.hpp, src/hashing/consistent_hash_ring.cpp)

    The ring publishes immutable snapshots through a compare-and-swap, so each
    mutator is one atomic function of the ring.  The load cells are shared
    between snapshots: a snapshot holds cell names and [cells] is the store
    they point into.  XXH3 is the parameter [hash64]; the order in which
    [std::ranges::sort] leaves equal elements is unspecified, so the sort is
    any function with the laws of the class [Sorter]. *)

From Stdlib Require Import Floats.SpecFloat.
From S2P Require Import Prelude Types.
Local Open Scope Z_scope.

(** [std::ranges::sort] with a projection to [uint64_t]. *)
Class Sorter := {
  sort_by {A} : (A → Z) → list A → list A;
  sort_by_perm {A} (f : A → Z) l : sort_by f l ≡ₚ l;
  sort_by_sorted {A} (f : A → Z) l : Sorted Z.le (f <$> sort_by f l) }.

Inductive Exn := invalid_argument | length_error | logic_error.

(** A call returns, throws, or reads outside a vector. *)
Inductive Outcome (A : Type) := Done (a : A) | Throw (e : Exn) | Undefined.
Arguments Done {A} _.
Arguments Throw {A} _.
Arguments Undefined {A}.

Definition ofOption {A} (o : option A) : Outcome A :=
  match o with Some a => Done a | None => Undefined end.

Definition K_MAX_PHYSICAL_NODES : nat := Z.to_nat 65536.
Definition K_MAX_REPLICAS : Z := 32.
Definition UINT32_MAX : Z := 2 ^ 32 - 1.
(** [std::vector<VnodeEntry>{}.max_size()] for a 16-byte element. *)
Definition VNODE_MAX_SIZE : Z := (2 ^ 63 - 1) / 16.

Record RingSnapshot := mkSnap {
  hashes : list Z;
  node_index : list nat;          (* uint16_t, parallel to [hashes] *)
  physical_nodes : list bytes;
  load_cells : list nat           (* names of cells, parallel to [physical_nodes] *) }.

Record Ring := mkRing {
  vnodes_per_node : Z;
  bounded_load_factor : spec_float;
  snapshot : RingSnapshot;
  cells : list Z                  (* the counters, uint64_t *) }.

Definition with_snapshot (s : RingSnapshot) (cs : list Z) (r : Ring) : Ring :=
  mkRing (vnodes_per_node r) (bounded_load_factor r) s cs.

(** The cast of a container size to [uint16_t]. *)
Definition idx16 (n : nat) : nat := Z.to_nat (u16 (Z.of_nat n)).

(** [!std::isfinite(x) || x < 0.0] *)
Definition bad_factor (x : spec_float) : bool :=
  match x with
  | S754_nan | S754_infinity _ => true
  | _ => SFltb x (S754_zero false)
  end.

Definition make (vnodes : Z) (factor : spec_float) : Outcome Ring :=
  if vnodes <=? 0 then Throw invalid_argument
  else if bad_factor factor then Throw invalid_argument
  else Done (mkRing vnodes factor (mkSnap [] [] [] []) []).

(** [std::ranges::lower_bound]: bisection over the half-open range
    [first, first + len). *)
Fixpoint lower_bound_loop (fuel : nat) (l : list Z) (h : Z) (first len : nat) : nat :=
  match fuel with
  | O => first
  | S fuel =>
      if (len =? 0)%nat then first
      else
        let half := (len / 2)%nat in
        let mid := (first + half)%nat in
        if l !!! mid <? h then lower_bound_loop fuel l h (mid + 1) (len - half - 1)
        else lower_bound_loop fuel l h first half
  end.

Definition lower_bound (l : list Z) (h : Z) : nat := lower_bound_loop (S (length l)) l h 0 (length l).

Fixpoint findIndex (node : bytes) (nodes : list bytes) : option nat :=
  match nodes with
  | [] => None
  | n :: nodes => if decide (n = node) then Some O else S <$> findIndex node nodes
  end.

Section ring.
Context (hash64 : bytes → Z) `{Sorter}.

Definition hashVnode (node : bytes) (vnode : Z) : Z := hash64 (node ++ lit "-" ++ to_string vnode).
Definition hashKey (key : bytes) : Z := hash64 key.

(** The two vectors permuted by one index array sorted on the hashes. *)
Definition sort_lockstep (hs : list Z) (ni : list nat) : option (list Z * list nat) :=
  let order := sort_by (λ i, hs !!! i) (seq 0 (length hs)) in
  hs' ← mapM (hs !!.) order;
  ni' ← mapM (ni !!.) order;
  Some (hs', ni').

Definition addNode (node : bytes) (r : Ring) : Outcome Ring :=
  let old := snapshot r in
  if decide (node ∈ physical_nodes old) then Done r
  else if (K_MAX_PHYSICAL_NODES <=? length (physical_nodes old))%nat then Throw length_error
  else
    let physical := physical_nodes old ++ [node] in
    let phys_idx := idx16 (length physical - 1) in
    let cs := cells r ++ [0] in
    let hs := hashes old ++ (hashVnode node <$> seqZ 0 (vnodes_per_node r)) in
    let ni := node_index old ++ replicate (Z.to_nat (vnodes_per_node r)) phys_idx in
    match sort_lockstep hs ni with
    | None => Undefined
    | Some (hs, ni) =>
        Done (with_snapshot (mkSnap hs ni physical (load_cells old ++ [length (cells r)])) cs r)
    end.

(** *** setNodes *)

Record rebuild := mkRebuild {
  rb_physical : list bytes;
  rb_cells : list nat;
  rb_index : gmap bytes nat;
  rb_remap : list Z;                 (* uint32_t, UINT32_MAX for a removed node *)
  rb_added : list (Z * nat);         (* VnodeEntry *)
  rb_store : list Z }.

(** The loop over the old physical nodes. *)
Fixpoint retain (desired : gset bytes) (old_nodes : list bytes) (old_cells : list nat) (b : rebuild)
    : option rebuild :=
  match old_nodes with
  | [] => Some b
  | id :: old_nodes =>
      match old_cells with
      | [] => None
      | c :: old_cells =>
          if decide (id ∈ desired) then
            let index := idx16 (length (rb_physical b)) in
            retain desired old_nodes old_cells
              (mkRebuild (rb_physical b ++ [id]) (rb_cells b ++ [c]) (<[id := index]> (rb_index b))
                 (rb_remap b ++ [Z.of_nat index]) (rb_added b) (rb_store b))
          else
            retain desired old_nodes old_cells
              (mkRebuild (rb_physical b) (rb_cells b) (rb_index b) (rb_remap b ++ [UINT32_MAX])
                 (rb_added b) (rb_store b))
      end
  end.

(** The loop over the supplied ids. *)
Definition append_one (vnodes : Z) (b : rebuild) (id : bytes) : rebuild :=
  if decide (is_Some (rb_index b !! id)) then b
  else
    let index := idx16 (length (rb_physical b)) in
    mkRebuild (rb_physical b ++ [id]) (rb_cells b ++ [length (rb_store b)]) (<[id := index]> (rb_index b))
      (rb_remap b) (rb_added b ++ ((λ v, (hashVnode id v, index)) <$> seqZ 0 vnodes))
      (rb_store b ++ [0]).

Definition append_new (vnodes : Z) (node_ids : list bytes) (b : rebuild) : rebuild :=
  foldl (append_one vnodes) b node_ids.

(** The merge of the surviving old entries with the sorted new run; [None] is
    a read outside [remap].  Each turn consumes an entry, so [fuel] is their
    number. *)
Fixpoint merge_runs (fuel : nat) (remap : list Z) (old added : list (Z * nat)) : option (list (Z * nat)) :=
  match fuel with
  | O => Some []
  | S fuel =>
      match old with
      | (h, i) :: old' =>
          m ← remap !! i;
          if m =? UINT32_MAX then merge_runs fuel remap old' added
          else
            match added with
            | (h', i') :: added' =>
                if h <=? h' then cons (h, Z.to_nat (u16 m)) <$> merge_runs fuel remap old' added
                else cons (h', i') <$> merge_runs fuel remap old added'
            | [] => cons (h, Z.to_nat (u16 m)) <$> merge_runs fuel remap old' added
            end
      | [] =>
          match added with
          | e :: added' => cons e <$> merge_runs fuel remap [] added'
          | [] => Some []
          end
      end
  end.

Definition setNodes (node_ids : list bytes) (r : Ring) : Outcome Ring :=
  let desired : gset bytes := list_to_set node_ids in
  if (K_MAX_PHYSICAL_NODES <? size desired)%nat then Throw length_error
  else
    let old := snapshot r in
    if (length (physical_nodes old) =? size desired)%nat
       && forallb (λ id, bool_decide (id ∈ desired)) (physical_nodes old) then Done r
    else if VNODE_MAX_SIZE / vnodes_per_node r <? Z.of_nat (size desired) then Throw length_error
    else
      match retain desired (physical_nodes old) (load_cells old) (mkRebuild [] [] ∅ [] [] (cells r)) with
      | None => Undefined
      | Some b =>
          let b := append_new (vnodes_per_node r) node_ids b in
          if negb (length (rb_physical b) =? size desired)%nat then Throw logic_error
          else
            let added := sort_by fst (rb_added b) in
            let run := zip (hashes old) (node_index old) in
            match merge_runs (length run + length added) (rb_remap b) run added with
            | None => Undefined
            | Some es =>
                Done (with_snapshot (mkSnap es.*1 es.*2 (rb_physical b) (rb_cells b)) (rb_store b) r)
            end
      end.

(** *** removeNode *)

Fixpoint drop_vnodes (phys_index : nat) (hs : list Z) (ni : list nat) : option (list Z * list nat) :=
  match hs, ni with
  | [], _ => Some ([], [])
  | h :: hs, i :: ni =>
      '(hs', ni') ← drop_vnodes phys_index hs ni;
      if (i =? phys_index)%nat then Some (hs', ni')
      else Some (h :: hs', (if (phys_index <? i)%nat then i - 1 else i)%nat :: ni')
  | _ :: _, [] => None
  end.

Definition removeNode (node : bytes) (r : Ring) : Outcome Ring :=
  let old := snapshot r in
  match findIndex node (physical_nodes old) with
  | None => Done r
  | Some phys_idx =>
      match drop_vnodes (idx16 phys_idx) (hashes old) (node_index old) with
      | None => Undefined
      | Some (hs, ni) =>
          if (length hs =? length (hashes old))%nat then Done r
          else
            Done (with_snapshot
              (mkSnap hs ni (delete phys_idx (physical_nodes old)) (delete phys_idx (load_cells old)))
              (cells r) r)
      end
  end.

(** *** Lookups *)

Definition start_index (s : RingSnapshot) (key : bytes) : nat :=
  let idx := lower_bound (hashes s) (hashKey key) in
  if (idx =? length (hashes s))%nat then 0%nat else idx.

(** [physical_nodes[node_index[i]]] *)
Definition node_at (s : RingSnapshot) (i : nat) : option bytes :=
  p ← node_index s !! i; physical_nodes s !! p.

Definition getNode (key : bytes) (r : Ring) : option bytes :=
  let s := snapshot r in
  match hashes s with
  | [] => Some []
  | _ => node_at s (start_index s key)
  end.

Definition next_index (s : RingSnapshot) (cur : nat) : nat :=
  if (cur + 1 =? length (hashes s))%nat then 0%nat else (cur + 1)%nat.

(** One turn of the ring at most: [fuel] is the number of its entries. *)
Fixpoint getNodes_loop (fuel : nat) (s : RingSnapshot) (count : Z) (start cur : nat)
    (seen : list nat) (result : list bytes) : option (list bytes) :=
  match fuel with
  | O => Some result
  | S fuel =>
      if Z.of_nat (length result) <? count then
        p ← node_index s !! cur;
        node ← physical_nodes s !! p;
        let '(seen, result) :=
          if decide (p ∈ seen) then (seen, result) else (seen ++ [p], result ++ [node]) in
        let cur := next_index s cur in
        if (cur =? start)%nat then Some result
        else getNodes_loop fuel s count start cur seen result
      else Some result
  end.

Definition getNodes (key : bytes) (replica_count : Z) (r : Ring) : Outcome (list bytes) :=
  if (replica_count <=? 0) || (K_MAX_REPLICAS <? replica_count) then Throw invalid_argument
  else
    let s := snapshot r in
    match hashes s with
    | [] => Done []
    | _ =>
        let start := start_index s key in
        ofOption (getNodes_loop (length (hashes s)) s replica_count start start [] [])
    end.

(** *** Bounded load *)

(** [static_cast<double>] of a [uint64_t], double arithmetic, and the cast of
    [std::ceil] back to [uint64_t] ([None] outside its range). *)
Definition double_of (z : Z) : spec_float := binary_normalize 53 1024 z 0 false.

Definition ceil_u64 (x : spec_float) : option Z :=
  match x with
  | S754_zero _ => Some 0
  | S754_finite s m e =>
      let z := (if s then Z.neg m else Z.pos m) in
      let c := if 0 <=? e then z * 2 ^ e else - ((- z) / 2 ^ (- e)) in
      if (0 <=? c) && (c <? 2 ^ 64) then Some c else None
  | _ => None
  end.

(** The counters of a snapshot, in node order. *)
Definition loads (s : RingSnapshot) (cs : list Z) : option (list Z) := mapM (cs !!.) (load_cells s).

Definition sum64 (l : list Z) : Z := foldl (λ total x, u64 (total + x)) 0 l.

Definition avg_times (factor : spec_float) (total : Z) (n : nat) : spec_float :=
  SFmul 53 1024 (SFdiv 53 1024 (double_of total) (double_of (Z.of_nat n))) factor.

Fixpoint bounded_loop (fuel : nat) (s : RingSnapshot) (ls : list Z) (max_load : Z) (start idx : nat)
    : option bytes :=
  match fuel with
  | O => node_at s start
  | S fuel =>
      phys ← node_index s !! idx;
      node_load ← ls !! phys;
      if node_load <? max_load then physical_nodes s !! phys
      else
        let idx := next_index s idx in
        if (idx =? start)%nat then node_at s start
        else bounded_loop fuel s ls max_load start idx
  end.

Definition getNodeBounded (key : bytes) (r : Ring) : option bytes :=
  if SFleb (bounded_load_factor r) (S754_zero false) then getNode key r
  else
    let s := snapshot r in
    match hashes s with
    | [] => Some []
    | _ =>
        let idx := start_index s key in
        let num_nodes := length (physical_nodes s) in
        if (num_nodes =? 0)%nat then Some []
        else if (num_nodes =? 1)%nat then node_at s idx
        else
          ls ← loads s (cells r);
          max_load ← ceil_u64 (avg_times (bounded_load_factor r) (sum64 ls) num_nodes);
          bounded_loop (length (hashes s)) s ls max_load idx idx
    end.

Definition incrementLoad (node : bytes) (r : Ring) : option Ring :=
  let s := snapshot r in
  match findIndex node (physical_nodes s) with
  | None => Some r
  | Some i =>
      c ← load_cells s !! i;
      v ← cells r !! c;
      Some (with_snapshot s (<[c := u64 (v + 1)]> (cells r)) r)
  end.

(** [None] also stands for the failed assertion on a counter at zero. *)
Definition decrementLoad (node : bytes) (r : Ring) : option Ring :=
  let s := snapshot r in
  match findIndex node (physical_nodes s) with
  | None => Some r
  | Some i =>
      c ← load_cells s !! i;
      v ← cells r !! c;
      if 0 <? v then Some (with_snapshot s (<[c := u64 (v - 1)]> (cells r)) r) else None
  end.

Definition currentLoad (node : bytes) (r : Ring) : option Z :=
  let s := snapshot r in
  match findIndex node (physical_nodes s) with
  | None => Some 0
  | Some i => c ← load_cells s !! i; cells r !! c
  end.

Definition totalLoad (r : Ring) : option Z := sum64 <$> loads (snapshot r) (cells r).

Definition loadFactor (r : Ring) : option spec_float :=
  let s := snapshot r in
  if (length (load_cells s) =? 0)%nat then Some (S754_zero false)
  else
    ls ← loads s (cells r);
    Some (avg_times (bounded_load_factor r) (sum64 ls) (length (load_cells s))).

(** ** Vocabulary of the properties *)

Inductive op := OpAdd (n : bytes) | OpRemove (n : bytes) | OpSet (ns : list bytes) | OpInc (n : bytes) | OpDec (n : bytes).

(** A mutator that throws leaves the published snapshot as it was. *)
Definition step (o : op) (r : Ring) : Outcome Ring :=
  match o with
  | OpAdd n => addNode n r
  | OpRemove n => removeNode n r
  | OpSet ns => setNodes ns r
  | OpInc n => ofOption (incrementLoad n r)
  | OpDec n => ofOption (decrementLoad n r)
  end.

(** [vnodes_per_node] is an [int]. *)
Inductive reachable : Ring → Prop :=
  | reach_make vn f r : vn < 2 ^ 31 → make vn f = Done r → reachable r
  | reach_op o r r' : reachable r → step o r = Done r' → reachable r'.

(** The virtual nodes of a physical node, and of a membership. *)
Definition vnodes (vn : Z) (n : bytes) : list (Z * option bytes) :=
  (λ v, (hashVnode n v, Some n)) <$> seqZ 0 vn.

Definition all_vnodes (vn : Z) (ns : list bytes) : list (Z * option bytes) := ns ≫= vnodes vn.

(** The entries of a snapshot with their owners. *)
Definition owned_by (phys : list bytes) (e : Z * nat) : Z * option bytes := (e.1, phys !! e.2).

Definition owned (s : RingSnapshot) : list (Z * option bytes) :=
  owned_by (physical_nodes s) <$> zip (hashes s) (node_index s).

Record wf (r : Ring) : Prop := mkWf {
  wf_vnodes : 0 < vnodes_per_node r < 2 ^ 31;
  wf_parallel : length (hashes (snapshot r)) = length (node_index (snapshot r));
  wf_sorted : Sorted Z.le (hashes (snapshot r));
  wf_nodes : NoDup (physical_nodes (snapshot r));
  wf_count : (length (physical_nodes (snapshot r)) <= K_MAX_PHYSICAL_NODES)%nat;
  wf_cells : length (load_cells (snapshot r)) = length (physical_nodes (snapshot r));
  wf_cells_nodup : NoDup (load_cells (snapshot r));
  wf_cells_bound : ∀ c, c ∈ load_cells (snapshot r) → (c < length (cells r))%nat;
  wf_owned : owned (snapshot r) ≡ₚ all_vnodes (vnodes_per_node r) (physical_nodes (snapshot r)) }.

(** No two virtual nodes of the membership share a hash. *)
Definition collision_free (vn : Z) (ns : list bytes) : Prop := NoDup (all_vnodes vn ns).*1.

(** The lookup as a search: the first entry at or above [h], else the first. *)
Definition successor (h : Z) (l : list (Z * option bytes)) : option (Z * option bytes) :=
  match List.find (λ e, h <=? e.1) l with Some e => Some e | None => head l end.

(** First occurrences, in order. *)
Fixpoint uniq (seen : list bytes) (l : list bytes) : list bytes :=
  match l with
  | [] => []
  | x :: l => if decide (x ∈ seen) then uniq seen l else x :: uniq (seen ++ [x]) l
  end.

(** [e] is the first entry clockwise of [h]: the least hash at or above [h],
    or the least of all when none is. *)
Definition clockwise_first (h : Z) (l : list (Z * option bytes)) (e : Z * option bytes) : Prop :=
  e ∈ l ∧
  ((h <= e.1 ∧ ∀ e', e' ∈ l → h <= e'.1 → e.1 <= e'.1) ∨
   (∀ e', e' ∈ l → e'.1 < h ∧ e.1 <= e'.1)).

(** ** Bisection *)

Lemma sorted_le (l : list Z) i j x y :
  Sorted Z.le l → (i <= j)%nat → l !! i = Some x → l !! j = Some y → x <= y.
Proof.
  intros Hs%Sorted_StronglySorted Hij; [|intros ???; lia]. revert i j Hij.
  induction Hs as [|z l Hs IH Hall]; intros i j Hij; [by rewrite lookup_nil|].
  destruct i as [|i], j as [|j]; simpl; intros Hx Hy; simplify_eq; try lia.
  - rewrite Forall_forall in Hall. apply Hall. by eapply list_elem_of_lookup_2.
  - apply (IH i j); [lia|done|done].
Qed.

(** The position [p] separates the elements below [h] from the others. *)
Definition separates (l : list Z) (h : Z) (p : nat) : Prop :=
  (p <= length l)%nat ∧ (∀ i x, l !! i = Some x → (i < p)%nat → x < h) ∧
  (∀ i x, l !! i = Some x → (p <= i)%nat → h <= x).

Lemma lower_bound_loop_spec fuel l h first len :
  Sorted Z.le l → (len < fuel)%nat → (first + len <= length l)%nat →
  (∀ i x, l !! i = Some x → (i < first)%nat → x < h) →
  (∀ i x, l !! i = Some x → (first + len <= i)%nat → h <= x) →
  separates l h (lower_bound_loop fuel l h first len).
Proof.
  revert first len. induction fuel as [|fuel IH]; intros first len Hs Hf Hlen Hlo Hhi; [lia|].
  cbn [lower_bound_loop]. destruct (Nat.eqb_spec len 0) as [->|Hne].
  { split; [lia|]. rewrite Nat.add_0_r in Hhi. done. }
  pose proof (Nat.div_lt len 2 ltac:(lia) ltac:(lia)) as Hhalf. set (half := (len / 2)%nat) in *.
  destruct (l !! (first + half)%nat) as [m|] eqn:Em.
  2:{ apply lookup_ge_None in Em. lia. }
  rewrite (list_lookup_total_correct _ _ _ Em). destruct (Z.ltb_spec m h) as [Hm|Hm].
  - apply IH; [done|lia|lia| |].
    + intros i x Hi Hlt. pose proof (sorted_le l i (first + half) x m Hs ltac:(lia) Hi Em). lia.
    + intros i x Hi Hge. apply (Hhi i x Hi). lia.
  - apply IH; [done|lia|lia|done|].
    intros i x Hi Hge. pose proof (sorted_le l (first + half) i m x Hs Hge Em Hi). lia.
Qed.

Lemma lower_bound_spec l h : Sorted Z.le l → separates l h (lower_bound l h).
Proof.
  intros Hs. apply lower_bound_loop_spec; try done; [lia|intros; lia|].
  intros i x Hi Hge. apply lookup_lt_Some in Hi. lia.
Qed.

Lemma separates_unique l h p q : separates l h p → separates l h q → p = q.
Proof.
  intros (Hp & Hp1 & Hp2) (Hq & Hq1 & Hq2). destruct (Nat.lt_trichotomy p q) as [Hlt|[|Hlt]]; [|done|].
  - destruct (lookup_lt_is_Some_2 l p ltac:(lia)) as [x Hx].
    specialize (Hp2 p x Hx ltac:(lia)). specialize (Hq1 p x Hx Hlt). lia.
  - destruct (lookup_lt_is_Some_2 l q ltac:(lia)) as [x Hx].
    specialize (Hq2 q x Hx ltac:(lia)). specialize (Hp1 q x Hx Hlt). lia.
Qed.

(** ** Lists in lock-step *)

Lemma mapM_lookup_order {A} (l : list A) (order : list nat) :
  (∀ i, i ∈ order → (i < length l)%nat) →
  ∃ l', mapM (l !!.) order = Some l' ∧ Some <$> l' = (l !!.) <$> order.
Proof.
  induction order as [|i order IH]; intros Hb; simpl; [by exists []|].
  destruct (lookup_lt_is_Some_2 l i) as [x Hx]; [apply Hb; by left|].
  destruct IH as (l' & E & El); [intros; apply Hb; by right|].
  rewrite Hx, E. cbn. exists (x :: l'). split; [done|]. by rewrite fmap_cons, El.
Qed.

Lemma lookup_seq_perm {A} (l : list A) : (l !!.) <$> seq 0 (length l) = Some <$> l.
Proof.
  apply list_eq. intros i. rewrite !list_lookup_fmap. destruct (decide (i < length l)%nat) as [Hi|Hi].
  - rewrite lookup_seq_lt by done. destruct (lookup_lt_is_Some_2 l i Hi) as [x Hx]. simpl. by rewrite Hx.
  - rewrite lookup_seq_ge by lia. rewrite (lookup_ge_None_2 l i) by lia. done.
Qed.

Lemma fmap_Some_perm {A} (l l' : list A) : Some <$> l ≡ₚ Some <$> l' → l ≡ₚ l'.
Proof.
  intros Hp. assert (∀ k : list A, omap (λ x, x) (Some <$> k) = k) as Hid.
  { intros k. induction k as [|y k IH]; [done|]. cbn. f_equal. exact IH. }
  rewrite <- (Hid l), <- (Hid l'). by rewrite Hp.
Qed.

Lemma zip_lookup_order {A B} (l l' : list A) (k k' : list B) (order : list nat) :
  Some <$> l' = (l !!.) <$> order → Some <$> k' = (k !!.) <$> order →
  Some <$> zip l' k' = (zip l k !!.) <$> order.
Proof.
  revert l' k'. induction order as [|i order IH]; intros [|x l'] [|y k']; try done.
  simpl. intros [= Hx Hl] [= Hy Hk]. f_equal; [|by apply IH].
  by rewrite lookup_zip_with, <- Hx, <- Hy.
Qed.

Lemma sort_lockstep_spec hs ni :
  length hs = length ni →
  ∃ hs' ni', sort_lockstep hs ni = Some (hs', ni') ∧ length hs' = length ni' ∧
    zip hs' ni' ≡ₚ zip hs ni ∧ Sorted Z.le hs'.
Proof.
  intros Hlen. unfold sort_lockstep. set (order := sort_by _ _).
  assert (order ≡ₚ seq 0 (length hs)) as Hperm by apply sort_by_perm.
  assert (∀ i, i ∈ order → (i < length hs)%nat) as Hb.
  { intros i. rewrite Hperm. rewrite elem_of_seq. lia. }
  destruct (mapM_lookup_order hs order Hb) as (hs' & -> & Ehs).
  destruct (mapM_lookup_order ni order) as (ni' & -> & Eni); [by rewrite <- Hlen|]. simpl.
  exists hs', ni'. split_and!; [done| | |].
  - apply (f_equal length) in Ehs. apply (f_equal length) in Eni. rewrite !length_fmap in Ehs. rewrite !length_fmap in Eni. congruence.
  - apply fmap_Some_perm. rewrite (zip_lookup_order hs hs' ni ni' order) by done. rewrite Hperm.
    replace (length hs) with (length (zip hs ni)) by (rewrite length_zip; lia). by rewrite lookup_seq_perm.
  - replace hs' with ((λ i, hs !!! i) <$> order); [apply sort_by_sorted|].
    apply (inj (fmap Some)). rewrite Ehs. rewrite <- list_fmap_compose.
    apply list_fmap_ext. intros i j Hj%list_elem_of_lookup_2%Hb. simpl.
    destruct (lookup_lt_is_Some_2 hs j Hj) as [x Hx]. by rewrite (list_lookup_total_correct _ _ _ Hx).
Qed.

(** ** The invariant *)

Lemma K_MAX_value : Z.of_nat K_MAX_PHYSICAL_NODES = 65536.
Proof. unfold K_MAX_PHYSICAL_NODES. by rewrite Z2Nat.id. Qed.

#[global] Opaque K_MAX_PHYSICAL_NODES.

Lemma idx16_small n : (n < K_MAX_PHYSICAL_NODES)%nat → idx16 n = n.
Proof.
  intros Hn. unfold idx16. pose proof K_MAX_value. rewrite wrap_small by (unfold in_u; lia). lia.
Qed.

(** Every entry names a physical node. *)
Definition in_bounds (phys : list bytes) (l : list (Z * nat)) : Prop :=
  ∀ e, e ∈ l → (e.2 < length phys)%nat.

Lemma in_bounds_of_owned phys l vn ns :
  owned_by phys <$> l ≡ₚ all_vnodes vn ns → in_bounds phys l.
Proof.
  intros Hp e He. assert (owned_by phys e ∈ all_vnodes vn ns) as Hin.
  { rewrite <- Hp. by apply list_elem_of_fmap_2. }
  unfold all_vnodes in Hin. apply list_elem_of_bind in Hin as (n & Hin & _).
  unfold vnodes in Hin. apply list_elem_of_fmap in Hin as (v & Heq & _).
  injection Heq as _ Heq. by apply lookup_lt_Some in Heq.
Qed.

Lemma wf_in_bounds r : wf r → in_bounds (physical_nodes (snapshot r)) (zip (hashes (snapshot r)) (node_index (snapshot r))).
Proof. intros Hwf. eapply in_bounds_of_owned, wf_owned, Hwf. Qed.

Lemma owned_by_app phys extra l :
  in_bounds phys l → owned_by (phys ++ extra) <$> l = owned_by phys <$> l.
Proof.
  intros Hb. apply list_fmap_ext. intros i e He%list_elem_of_lookup_2%Hb.
  unfold owned_by. by rewrite lookup_app_l.
Qed.

Lemma zip_replicate {A B C} (f : A → B) (c : C) (l : list A) :
  zip (f <$> l) (replicate (length l) c) = (λ v, (f v, c)) <$> l.
Proof. induction l; simpl; [done|]. by f_equal. Qed.

Lemma owned_new phys n i vn :
  phys !! i = Some n → owned_by phys <$> ((λ v, (hashVnode n v, i)) <$> seqZ 0 vn) = vnodes vn n.
Proof.
  intros Hi. unfold vnodes. rewrite <- list_fmap_compose. apply list_fmap_ext. intros j v _.
  unfold owned_by; simpl. by rewrite Hi.
Qed.

Lemma all_vnodes_app vn a b : all_vnodes vn (a ++ b) = all_vnodes vn a ++ all_vnodes vn b.
Proof. apply bind_app. Qed.

Lemma make_wf vn f r : vn < 2 ^ 31 → make vn f = Done r → wf r.
Proof.
  intros Hvn. unfold make. destruct (Z.leb_spec vn 0); [done|]. case_match; [done|]. intros [= <-].
  split; simpl; try done; try apply NoDup_nil_2; [lia|]. intros c Hc. by apply not_elem_of_nil in Hc.
Qed.

Lemma addNode_wf node r :
  wf r →
  (addNode node r = Throw length_error ∧ length (physical_nodes (snapshot r)) = K_MAX_PHYSICAL_NODES) ∨
  ∃ r', addNode node r = Done r' ∧ wf r' ∧ vnodes_per_node r' = vnodes_per_node r ∧
    physical_nodes (snapshot r') = (if decide (node ∈ physical_nodes (snapshot r))
      then physical_nodes (snapshot r) else physical_nodes (snapshot r) ++ [node]).
Proof.
  intros Hwf. unfold addNode. case_decide as Hin; [right; by exists r|].
  destruct (Nat.leb_spec K_MAX_PHYSICAL_NODES (length (physical_nodes (snapshot r)))) as [Hmax|Hmax].
  { left. split; [done|]. pose proof (wf_count r Hwf). lia. }
  right. destruct r as [vn fac [hs ni ph lc] cs]; simpl in *.
  replace (idx16 (length (ph ++ [node]) - 1)) with (length ph).
  2:{ rewrite idx16_small; rewrite length_app; simpl; lia. }
  pose proof (wf_parallel _ Hwf) as Hpar. simpl in Hpar.
  edestruct (sort_lockstep_spec (hs ++ (hashVnode node <$> seqZ 0 vn)) (ni ++ replicate (Z.to_nat vn) (length ph)))
    as (hs' & ni' & -> & Hlen & Hperm & Hs).
  { rewrite !length_app, length_fmap, length_replicate, length_seqZ. lia. }
  eexists. split_and!; [done| |done|done]. pose proof (wf_in_bounds _ Hwf) as Hb. simpl in Hb.
  destruct Hwf as [H1 _ _ H4 H5 H6 H7 H8 H9]; simpl in *.
  split; simpl; try done.
  - apply NoDup_app. split_and!; [done|set_solver|apply NoDup_singleton].
  - rewrite length_app; simpl. lia.
  - rewrite !length_app; simpl. lia.
  - apply NoDup_app. split_and!; [done| |apply NoDup_singleton].
    intros c Hc%H8 ->%list_elem_of_singleton. lia.
  - intros c. rewrite length_app; simpl. intros [Hc%H8| ->%list_elem_of_singleton]%elem_of_app; lia.
  - unfold owned in *; simpl in *. rewrite Hperm, zip_with_app, fmap_app by done.
    rewrite owned_by_app by done. rewrite H9, all_vnodes_app. f_equiv.
    rewrite <- (length_seqZ 0 vn), zip_replicate, (owned_new _ node).
    + unfold all_vnodes. simpl. by rewrite app_nil_r.
    + by rewrite lookup_app_r, Nat.sub_diag by lia.
Qed.

Lemma elem_of_vnodes vn n x : x ∈ vnodes vn n → x.2 = Some n.
Proof. unfold vnodes. by intros (v & -> & _)%list_elem_of_fmap. Qed.

Lemma all_vnodes_filter (P : option bytes → Prop) `{!∀ x : Z * option bytes, Decision (P x.2)}
    `{!∀ n : bytes, Decision (P (Some n))} vn ns :
  filter (λ x, P x.2) (all_vnodes vn ns) = all_vnodes vn (filter (λ n, P (Some n)) ns).
Proof.
  unfold all_vnodes. induction ns as [|n ns IH]; [done|]. rewrite bind_cons, filter_app, IH, filter_cons.
  destruct (decide (P (Some n))) as [HP|HP].
  - rewrite bind_cons. f_equal. apply filter_all_true. by intros x ->%elem_of_vnodes.
  - rewrite filter_all_false; [done|]. by intros x ->%elem_of_vnodes.
Qed.

Lemma findIndex_Some n ns i : findIndex n ns = Some i → ns !! i = Some n.
Proof.
  revert i. induction ns as [|m ns IH]; intros i; simpl; [done|].
  case_decide; [by intros [= <-]; subst|]. destruct (findIndex n ns); simpl; [|done].
  intros [= <-]. by apply IH.
Qed.

Lemma findIndex_None n ns : findIndex n ns = None ↔ n ∉ ns.
Proof.
  induction ns as [|m ns IH]; simpl; [set_solver|].
  case_decide; [set_solver|]. destruct (findIndex n ns); simpl; set_solver.
Qed.

Lemma delete_filter (n : bytes) ns i : NoDup ns → ns !! i = Some n → delete i ns = filter (λ m, m ≠ n) ns.
Proof.
  revert i. induction ns as [|m ns IH]; intros i Hnd Hi; [done|]. apply NoDup_cons in Hnd as [Hm Hnd].
  destruct i as [|i]; simpl in Hi.
  - injection Hi as ->. rewrite filter_cons_False by tauto. simpl. rewrite filter_all_true; [done|set_solver].
  - rewrite filter_cons_True by (intros ->; by apply Hm, list_elem_of_lookup_2 with i).
    simpl. f_equal. by apply IH.
Qed.

Definition shift_index (p : nat) (e : Z * nat) : Z * nat :=
  (e.1, if (p <? e.2)%nat then (e.2 - 1)%nat else e.2).

Lemma drop_vnodes_spec p hs ni :
  length hs = length ni →
  let l := shift_index p <$> filter (λ e, e.2 ≠ p) (zip hs ni) in
  drop_vnodes p hs ni = Some (l.*1, l.*2).
Proof.
  cbn zeta. revert ni. induction hs as [|h hs IH]; intros [|i ni] Hlen; simpl in Hlen; try done.
  cbn [drop_vnodes]. rewrite IH by lia. cbn [mbind option_bind]. cbn [zip_with]. rewrite filter_cons; cbn [snd].
  destruct (Nat.eqb_spec i p); case_decide; try done; try congruence.
Qed.

Lemma owned_shift ph n p l :
  NoDup ph → ph !! p = Some n → in_bounds ph l →
  owned_by (delete p ph) <$> (shift_index p <$> filter (λ e, e.2 ≠ p) l)
  = filter (λ x, x.2 ≠ Some n) (owned_by ph <$> l).
Proof.
  intros Hnd Hp. induction l as [|[h i] l IH]; intros Hb; [done|].
  assert (in_bounds ph l) as Hb' by (intros e He; apply Hb; by right).
  rewrite fmap_cons, !filter_cons. cbn [snd owned_by fst].
  destruct (decide (i = p)) as [->|Hne].
  { rewrite decide_False by tauto. rewrite (decide_False (P := ph !! p ≠ Some n)) by tauto. by apply IH. }
  rewrite decide_True by done. rewrite (decide_True (P := ph !! i ≠ Some n)).
  2:{ intros Hi. apply Hne. by eapply NoDup_lookup. }
  rewrite !fmap_cons. f_equal; [|by apply IH]. unfold owned_by, shift_index; cbn [fst snd]. f_equal.
  destruct (Nat.ltb_spec p i).
  - rewrite list_lookup_delete_ge by lia. f_equal. lia.
  - rewrite list_lookup_delete_lt by lia. done.
Qed.

Lemma zip_fst_snd {A B} (l : list (A * B)) : zip l.*1 l.*2 = l.
Proof. induction l as [|[a b] l IH]; simpl; [done|]. by f_equal. Qed.

Lemma owned_sublist_sorted (hs : list Z) (ni : list nat) (l : list (Z * nat)) p :
  length hs = length ni → Sorted Z.le hs → l = filter (λ e, e.2 ≠ p) (zip hs ni) → Sorted Z.le l.*1.
Proof.
  intros Hlen Hs ->. apply Sorted_StronglySorted in Hs; [|intros ???; lia].
  apply StronglySorted_Sorted. assert ((zip hs ni).*1 = hs) as Hz by (apply fst_zip; lia).
  rewrite <- Hz in Hs. clear Hz. induction (zip hs ni) as [|[h i] l IH]; [done|].
  rewrite fmap_cons in Hs. apply StronglySorted_inv in Hs as [Hs Hall].
  rewrite filter_cons. case_decide; [|by apply IH].
  rewrite fmap_cons. constructor; [by apply IH|]. rewrite Forall_forall in Hall |- *.
  intros x Hx. apply Hall. apply list_elem_of_fmap in Hx as (e & -> & [_ He]%list_elem_of_filter).
  by apply list_elem_of_fmap_2.
Qed.

Lemma vnode_exists r n :
  wf r → n ∈ physical_nodes (snapshot r) →
  ∃ e, e ∈ zip (hashes (snapshot r)) (node_index (snapshot r)) ∧ physical_nodes (snapshot r) !! e.2 = Some n.
Proof.
  intros Hwf Hn. assert ((hashVnode n 0, Some n) ∈ owned (snapshot r)) as Hin.
  { rewrite (wf_owned r Hwf). unfold all_vnodes. apply list_elem_of_bind. exists n. split; [|done].
    unfold vnodes. apply list_elem_of_fmap. exists 0. split; [done|]. apply elem_of_seqZ.
    pose proof (wf_vnodes r Hwf). lia. }
  unfold owned in Hin. apply list_elem_of_fmap in Hin as (e & Heq & He). exists e. split; [done|].
  by injection Heq as _ <-.
Qed.

Lemma removeNode_wf node r :
  wf r →
  ∃ r', removeNode node r = Done r' ∧ wf r' ∧ vnodes_per_node r' = vnodes_per_node r ∧
    physical_nodes (snapshot r') = filter (λ m, m ≠ node) (physical_nodes (snapshot r)) ∧
    owned (snapshot r') = filter (λ x, x.2 ≠ Some node) (owned (snapshot r)).
Proof.
  intros Hwf. unfold removeNode. destruct (findIndex node (physical_nodes (snapshot r))) as [p|] eqn:Ep.
  2:{ apply findIndex_None in Ep. exists r. split_and!; try done; rewrite filter_all_true; try done; [by intros x ? ->|].
      intros x Hx. rewrite (wf_owned r Hwf) in Hx. unfold all_vnodes in Hx.
      apply list_elem_of_bind in Hx as (n & ->%elem_of_vnodes & Hn). naive_solver. }
  apply findIndex_Some in Ep.
  pose proof (wf_in_bounds r Hwf) as Hb. pose proof (wf_count r Hwf) as Hc.
  rewrite idx16_small by (apply lookup_lt_Some in Ep; lia).
  rewrite drop_vnodes_spec by apply wf_parallel, Hwf. cbn zeta. set (l := shift_index p <$> _).
  destruct (vnode_exists r node Hwf) as (e & He & Hen); [by eapply list_elem_of_lookup_2|].
  assert (length l.*1 < length (hashes (snapshot r)))%nat as Hlt.
  { unfold l. rewrite !length_fmap. eapply Nat.lt_le_trans; [apply (length_filter_lt _ _ e He)|].
    - assert (e.2 = p) by (by eapply NoDup_lookup; [apply wf_nodes, Hwf|..]). tauto.
    - rewrite length_zip. lia. }
  destruct (Nat.eqb_spec (length l.*1) (length (hashes (snapshot r)))); [lia|].
  eexists. split; [done|]. destruct Hwf as [H1 H2 H3 H4 H5 H6 H7 H8 H9]. cbn -[delete].
  assert (owned (mkSnap l.*1 l.*2 (delete p (physical_nodes (snapshot r))) (delete p (load_cells (snapshot r))))
    = filter (λ x, x.2 ≠ Some node) (owned (snapshot r))) as Hown.
  { unfold owned at 1; cbn -[delete]. rewrite zip_fst_snd. unfold l. by apply owned_shift. }
  split; [|split_and!; [done|by apply delete_filter|done]].
  split; cbn -[delete]; try done.
  - by rewrite !length_fmap.
  - unfold l. rewrite <- list_fmap_compose. change (fst ∘ shift_index p) with (@fst Z nat).
    by eapply (owned_sublist_sorted _ _ _ p).
  - rewrite (delete_filter node) by done. by apply NoDup_filter.
  - rewrite length_delete by eauto. lia.
  - rewrite !length_delete; [lia|eauto|]. apply lookup_lt_is_Some_2. apply lookup_lt_Some in Ep. lia.
  - rewrite delete_take_drop. eapply sublist_NoDup; [exact H7|]. rewrite <- delete_take_drop. apply sublist_delete.
  - intros c Hc'. apply H8. eapply sublist_subseteq; [apply sublist_delete|exact Hc'].
  - etrans; [apply reflexive_eq, Hown|]. rewrite H9.
    etrans; [apply reflexive_eq, (all_vnodes_filter (λ x, x ≠ Some node))|]. rewrite (delete_filter node) by done.
    rewrite (list_filter_iff (λ n, Some n ≠ Some node) (λ n, n ≠ node)); [done|]. intros; split; congruence.
Qed.

(** ** setNodes *)

Section set_nodes.
Context (desired : gset bytes).

(** [b] after the old nodes [ns] have been looked at. *)
Definition remap_ok (ns : list bytes) (phys : list bytes) (remap : list Z) : Prop :=
  length remap = length ns ∧
  ∀ i n, ns !! i = Some n →
    (n ∈ desired → ∃ k, remap !! i = Some (Z.of_nat (idx16 k)) ∧ phys !! k = Some n) ∧
    (n ∉ desired → remap !! i = Some UINT32_MAX).

Lemma remap_ok_snoc ns phys extra remap n z :
  remap_ok ns phys remap →
  (n ∈ desired → ∃ k, z = Z.of_nat (idx16 k) ∧ (phys ++ extra) !! k = Some n) → (n ∉ desired → z = UINT32_MAX) →
  remap_ok (ns ++ [n]) (phys ++ extra) (remap ++ [z]).
Proof.
  intros [Hlen Hok] Hin Hout. split; [rewrite !length_app; simpl; lia|]. intros i m Hi.
  apply lookup_app_Some in Hi as [Hi|[Hge Hi]].
  - destruct (Hok i m Hi) as [H1 H2]. apply lookup_lt_Some in Hi. rewrite !lookup_app_l by lia.
    split; [|done]. intros (k & Hk & Hp)%H1. exists k. split; [done|]. by apply lookup_app_l_Some.
  - apply list_lookup_singleton_Some in Hi as [Hz <-]. assert (i = length remap) as -> by lia.
    rewrite lookup_app_r, Nat.sub_diag by lia. simpl. split; [|by intros ->%Hout].
    intros (k & -> & Hp)%Hin. by exists k.
Qed.

Lemma retain_spec ns cs b done :
  length cs = length ns → remap_ok done (rb_physical b) (rb_remap b) →
  (∀ x, is_Some (rb_index b !! x) ↔ x ∈ rb_physical b) →
  ∃ b', retain desired ns cs b = Some b' ∧
    rb_physical b' = rb_physical b ++ filter (λ n, n ∈ desired) ns ∧
    rb_cells b' = rb_cells b ++ (filter (λ p, p.1 ∈ desired) (zip ns cs)).*2 ∧
    rb_added b' = rb_added b ∧ rb_store b' = rb_store b ∧
    remap_ok (done ++ ns) (rb_physical b') (rb_remap b') ∧
    (∀ x, is_Some (rb_index b' !! x) ↔ x ∈ rb_physical b').
Proof.
  revert cs b done. induction ns as [|n ns IH]; intros cs b done Hlen Hok Hidx; simpl.
  { exists b. rewrite !app_nil_r. done. }
  destruct cs as [|c cs]; simpl in Hlen; [lia|]. rewrite !filter_cons; cbn [fst].
  destruct (decide (n ∈ desired)) as [Hn|Hn].
  - edestruct (IH cs (mkRebuild (rb_physical b ++ [n]) (rb_cells b ++ [c])
      (<[n := idx16 (length (rb_physical b))]> (rb_index b))
      (rb_remap b ++ [Z.of_nat (idx16 (length (rb_physical b)))]) (rb_added b) (rb_store b)) (done ++ [n]))
      as (b' & E & E1 & E2 & E3 & E4 & E5 & E6); [lia| | |].
    + apply remap_ok_snoc; [done| |done]. intros _. eexists. split; [done|].
      by rewrite lookup_app_r, Nat.sub_diag by lia.
    + intros x; simpl. rewrite lookup_insert, elem_of_app, list_elem_of_singleton. case_decide; [naive_solver|].
      rewrite Hidx. naive_solver.
    + exists b'. split; [exact E|]. simpl in *. rewrite <- app_assoc in E1, E2, E5. done.
  - edestruct (IH cs (mkRebuild (rb_physical b) (rb_cells b) (rb_index b)
      (rb_remap b ++ [UINT32_MAX]) (rb_added b) (rb_store b)) (done ++ [n]))
      as (b' & E & E1 & E2 & E3 & E4 & E5 & E6); [lia| |done|].
    + rewrite <- (app_nil_r (rb_physical b)). by apply remap_ok_snoc.
    + exists b'. split; [exact E|]. simpl in *. rewrite <- app_assoc in E5. done.
Qed.

(** The loop that appends new members, from a state with the nodes [base]. *)
Record appended (vn : Z) (base : list bytes) (cells0 : list nat) (store0 : list Z) (b : rebuild) : Prop := mkAppended {
  ap_nodup : NoDup (rb_physical b);
  ap_index : ∀ x, is_Some (rb_index b !! x) ↔ x ∈ rb_physical b;
  ap_new : ∃ new, rb_physical b = base ++ new ∧ in_bounds (rb_physical b) (rb_added b) ∧
    owned_by (rb_physical b) <$> rb_added b = all_vnodes vn new ∧
    rb_cells b = cells0 ++ seq (length store0) (length new) ∧
    rb_store b = store0 ++ replicate (length new) 0 }.

Lemma append_one_prefix vn b n :
  rb_physical b `prefix_of` rb_physical (append_one vn b n) ∧
  rb_remap (append_one vn b n) = rb_remap b ∧
  ∀ x, x ∈ rb_physical (append_one vn b n) → x ∈ rb_physical b ∨ x = n.
Proof.
  unfold append_one. case_decide; simpl; [auto|]. split_and!; [by apply prefix_app_r|done|set_solver].
Qed.

Lemma append_new_prefix vn ids b :
  rb_physical b `prefix_of` rb_physical (append_new vn ids b) ∧
  rb_remap (append_new vn ids b) = rb_remap b ∧
  ∀ x, x ∈ rb_physical (append_new vn ids b) → x ∈ rb_physical b ∨ x ∈ ids.
Proof.
  unfold append_new. revert b. induction ids as [|n ids IH]; intros b; simpl; [auto|].
  destruct (IH (append_one vn b n)) as (H1 & -> & H3), (append_one_prefix vn b n) as (P1 & P2 & P3).
  split_and!; [by etrans|done|]. intros x [[|]%P3|]%H3; set_solver.
Qed.

Lemma append_one_spec vn base cells0 store0 b n :
  appended vn base cells0 store0 b → (length (rb_physical (append_one vn b n)) <= K_MAX_PHYSICAL_NODES)%nat →
  appended vn base cells0 store0 (append_one vn b n) ∧ n ∈ rb_physical (append_one vn b n).
Proof.
  intros [Hnd Hidx (new & E1 & Hb & E2 & E3 & E4)]. unfold append_one. case_decide as Hin; simpl; intros Hmax.
  { split; [|by apply Hidx]. split; [done|done|by exists new]. }
  assert (n ∉ rb_physical b) as Hn by (by rewrite <- Hidx).
  rewrite length_app in Hmax; simpl in Hmax. split; [|set_solver].
  split; simpl.
  - apply NoDup_app. split_and!; [done|set_solver|apply NoDup_singleton].
  - intros x. rewrite lookup_insert, elem_of_app, list_elem_of_singleton. case_decide; [naive_solver|].
    rewrite Hidx. naive_solver.
  - exists (new ++ [n]). rewrite idx16_small by lia. split_and!.
    + by rewrite E1, app_assoc.
    + intros e [He%Hb|He]%elem_of_app; rewrite length_app; simpl; [lia|].
      apply list_elem_of_fmap in He as (v & -> & _). simpl. lia.
    + rewrite fmap_app, owned_by_app, E2, all_vnodes_app by done. f_equal.
      rewrite (owned_new _ n); [unfold all_vnodes; simpl; by rewrite app_nil_r|].
      by rewrite lookup_app_r, Nat.sub_diag by lia.
    + rewrite E3, E4, <- app_assoc, !length_app, length_replicate, seq_app. done.
    + rewrite E4, <- app_assoc, length_app, replicate_add. done.
Qed.

Lemma append_new_nodup vn ids b :
  NoDup (rb_physical b) → (∀ x, is_Some (rb_index b !! x) ↔ x ∈ rb_physical b) →
  NoDup (rb_physical (append_new vn ids b)).
Proof.
  unfold append_new. revert b. induction ids as [|n ids IH]; intros b Hnd Hidx; [done|]. simpl.
  apply IH; unfold append_one; case_decide as Hn; simpl; try done.
  - rewrite Hidx in Hn. apply NoDup_app. split_and!; [done|set_solver|apply NoDup_singleton].
  - intros x. rewrite lookup_insert, elem_of_app, list_elem_of_singleton. case_decide; [naive_solver|].
    rewrite Hidx. naive_solver.
Qed.

Lemma append_new_spec vn base cells0 store0 ids b :
  appended vn base cells0 store0 b →
  (length (rb_physical (append_new vn ids b)) <= K_MAX_PHYSICAL_NODES)%nat →
  appended vn base cells0 store0 (append_new vn ids b) ∧
  ∀ x, x ∈ ids → x ∈ rb_physical (append_new vn ids b).
Proof.
  unfold append_new. revert b. induction ids as [|n ids IH]; intros b Hb Hmax; [split; [done|set_solver]|].
  simpl in *. destruct (append_new_prefix vn ids (append_one vn b n)) as (Hpre & _ & _).
  destruct (append_one_spec vn base cells0 store0 b n Hb) as [H1 Hn].
  { apply prefix_length in Hpre. unfold append_new in Hpre. lia. }
  destruct (IH _ H1 Hmax) as [H2 H3]. split; [done|]. intros x [->|Hx]%elem_of_cons; [|by apply H3].
  destruct Hpre as [k Hk]. unfold append_new in Hk. rewrite Hk. set_solver.
Qed.

(** The surviving old entries under their new indices. *)
Definition survivor (remap : list Z) (e : Z * nat) : option (Z * nat) :=
  m ← remap !! e.2; if m =? UINT32_MAX then None else Some (e.1, Z.to_nat (u16 m)).

Lemma merge_runs_perm fuel remap old added :
  (length old + length added <= fuel)%nat → (∀ e, e ∈ old → (e.2 < length remap)%nat) →
  ∃ es, merge_runs fuel remap old added = Some es ∧ es ≡ₚ omap (survivor remap) old ++ added.
Proof.
  revert old added. induction fuel as [|fuel IH]; intros old added Hf Hb.
  { destruct old, added; simpl in *; try lia. by exists []. }
  destruct old as [|[h i] old].
  { destruct added as [|e added]; simpl; [by exists []|].
    destruct (IH [] added) as (es & -> & Hes); [simpl in *; lia|done|]. exists (e :: es).
    split; [done|]. by rewrite Hes. }
  assert (∀ e, e ∈ old → (e.2 < length remap)%nat) as Hb' by (intros e He; apply Hb; by right).
  destruct (lookup_lt_is_Some_2 remap i) as [m Hm]; [by apply (Hb (h, i)); left|].
  simpl in Hf. destruct (IH old added) as (es & E & Hes); [lia|done|].
  cbn [merge_runs]. rewrite Hm. cbn [mbind option_bind].
  assert (survivor remap (h, i) = if m =? UINT32_MAX then None else Some (h, Z.to_nat (u16 m))) as Hsv.
  { unfold survivor; cbn [fst snd]. by rewrite Hm. }
  destruct (m =? UINT32_MAX) eqn:Hmax.
  { exists es. split; [done|]. cbn [omap list_omap]. by rewrite Hsv. }
  assert (omap (survivor remap) ((h, i) :: old) = (h, Z.to_nat (u16 m)) :: omap (survivor remap) old) as Hk.
  { cbn [omap list_omap]. by rewrite Hsv. }
  rewrite Hk. destruct added as [|[h' i'] added].
  { rewrite E. eexists. split; [done|]. by rewrite Hes. }
  destruct (h <=? h').
  { rewrite E. eexists. split; [done|]. by rewrite Hes. }
  destruct (IH ((h, i) :: old) added) as (es' & -> & Hes'); [simpl in *; lia|done|].
  eexists. split; [done|]. rewrite Hes', Hk. simpl. by rewrite <- Permutation_middle, Permutation_swap.
Qed.

Lemma survivor_hash remap e e' : survivor remap e = Some e' → e'.1 = e.1.
Proof. unfold survivor. destruct (remap !! e.2); simpl; [|done]. case_match; [done|]. by intros [= <-]. Qed.

Lemma StronglySorted_head (x : Z) (l : list (Z * nat)) :
  StronglySorted Z.le (x :: l.*1) → ∀ e, e ∈ l → x <= e.1.
Proof.
  intros [_ Hall]%StronglySorted_inv e He. rewrite Forall_forall in Hall. apply Hall. by apply list_elem_of_fmap_2.
Qed.

Lemma merge_runs_sorted fuel remap old added es :
  (length old + length added <= fuel)%nat → (∀ e, e ∈ old → (e.2 < length remap)%nat) →
  StronglySorted Z.le old.*1 → StronglySorted Z.le added.*1 →
  merge_runs fuel remap old added = Some es → StronglySorted Z.le es.*1.
Proof.
  revert old added es. induction fuel as [|fuel IH]; intros old added es Hf Hb Ho Ha.
  { intros [= <-]. constructor. }
  assert (∀ e es' old' added', (length old' + length added' <= fuel)%nat →
    (∀ x, x ∈ old' → (x.2 < length remap)%nat) →
    StronglySorted Z.le old'.*1 → StronglySorted Z.le added'.*1 →
    (∀ x, x ∈ old' ++ added' → e.1 <= x.1) →
    merge_runs fuel remap old' added' = Some es' → StronglySorted Z.le (e :: es').*1) as Hcons.
  { intros e es' old' added' Hf' Hb' Ho' Ha' Hle E. simpl. constructor; [by eapply IH|].
    apply Forall_forall. intros y (x & -> & Hx)%list_elem_of_fmap.
    destruct (merge_runs_perm fuel remap old' added' Hf' Hb') as (es0 & E0 & Hp). rewrite E in E0.
    injection E0 as <-. rewrite Hp in Hx. apply elem_of_app in Hx as [Hx|Hx]; [|apply Hle; set_solver].
    apply list_elem_of_omap in Hx as (z & Hz & ->%survivor_hash). apply Hle. set_solver. }
  destruct old as [|[h i] old].
  { destruct added as [|e added]; simpl; [intros [= <-]; constructor|].
    destruct (merge_runs fuel remap [] added) as [es'|] eqn:E; [|done]. intros [= <-].
    eapply Hcons; [|..|exact E]; simpl in *; try done; [lia|by apply StronglySorted_inv in Ha as [??]|].
    by apply StronglySorted_head. }
  assert (∀ e, e ∈ old → (e.2 < length remap)%nat) as Hb' by (intros e He; apply Hb; by right).
  pose proof Ho as [Ho' _]%StronglySorted_inv. cbn [merge_runs]. simpl in Hf.
  destruct (remap !! i) as [m|]; [|done]. cbn [mbind option_bind].
  destruct (m =? UINT32_MAX); [apply IH; [lia|done..]|].
  pose proof (StronglySorted_head h old Ho) as Hho.
  assert (∀ h' i' added', added = (h', i') :: added' → ∀ x, x ∈ added → h' <= x.1) as Hha.
  { intros h' i' added' -> x [->|Hx]%elem_of_cons; [simpl; lia|]. by apply (StronglySorted_head h' added' Ha). }
  destruct added as [|[h' i'] added].
  { destruct (merge_runs fuel remap old []) as [es'|] eqn:E; [|done]. intros [= <-].
    eapply Hcons; [|..|exact E]; simpl; try done; [lia|]. rewrite app_nil_r. done. }
  specialize (Hha h' i' added eq_refl). pose proof Ha as [Ha' _]%StronglySorted_inv. simpl in Hf.
  destruct (Z.leb_spec h h').
  - destruct (merge_runs fuel remap old _) as [es'|] eqn:E; [|done]. intros [= <-].
    eapply Hcons; [|..|exact E]; try done; [simpl; lia|]. cbn [fst].
    intros x [Hx%Hho|Hx%Hha]%elem_of_app; lia.
  - destruct (merge_runs fuel remap _ added) as [es'|] eqn:E; [|done]. intros [= <-].
    eapply Hcons; [|..|exact E]; try done; [simpl; lia|]. cbn [fst].
    intros x [[->|Hx%Hho]%elem_of_cons|Hx]%elem_of_app; [simpl; lia|lia|]. apply Hha. by right.
Qed.

Definition keeps (o : option bytes) : Prop := match o with Some n => n ∈ desired | None => False end.

#[local] Instance keeps_dec o : Decision (keeps o).
Proof. destruct o; apply _. Defined.

Lemma owned_survivors ph phys remap l :
  remap_ok ph phys remap → in_bounds ph l → (length phys <= K_MAX_PHYSICAL_NODES)%nat →
  owned_by phys <$> omap (survivor remap) l = filter (λ x, keeps x.2) (owned_by ph <$> l).
Proof.
  intros [Hlen Hok] Hb Hmax. induction l as [|[h i] l IH]; [done|].
  assert (in_bounds ph l) as Hb' by (intros e He; apply Hb; by right).
  assert (i < length ph)%nat as Hi by (apply (Hb (h, i)); set_solver).
  destruct (lookup_lt_is_Some_2 ph i Hi) as [n Hn].
  destruct (Hok i n Hn) as [Hin Hout]. rewrite fmap_cons, filter_cons. cbn [snd owned_by fst].
  cbn [omap list_omap]. unfold survivor at 1; cbn [snd fst]. rewrite Hn.
  destruct (decide (keeps (Some n))) as [Hd|Hd]; simpl in Hd.
  - destruct (Hin Hd) as (k & -> & Hk). cbn [mbind option_bind].
    pose proof (lookup_lt_Some _ _ _ Hk) as Hlt. rewrite idx16_small by lia.
    pose proof K_MAX_value. destruct (Z.eqb_spec (Z.of_nat k) UINT32_MAX) as [HU|_]; [unfold UINT32_MAX in HU; lia|].
    rewrite fmap_cons. f_equal; [|by apply IH]. unfold owned_by; cbn [fst snd].
    rewrite wrap_small by (unfold in_u; lia). by rewrite Nat2Z.id, Hk, ?Hn.
  - rewrite (Hout Hd). cbn [mbind option_bind]. rewrite Z.eqb_refl. by apply IH.
Qed.
End set_nodes.

Lemma vnode_room vn : 0 < vn < 2 ^ 31 → 65536 <= VNODE_MAX_SIZE / vn.
Proof.
  intros Hvn. apply Z.div_le_lower_bound; [lia|]. assert (vn * 65536 <= 2 ^ 31 * 65536) by lia.
  etrans; [eassumption|]. by vm_compute.
Qed.

Lemma nodup_size (l : list bytes) (X : gset bytes) :
  NoDup l → (∀ x, x ∈ l → x ∈ X) → (length l <= size X)%nat.
Proof.
  intros Hnd Hsub. rewrite <- (size_list_to_set (C := gset bytes) l) by done. apply subseteq_size. set_solver.
Qed.

Lemma nodup_full (l : list bytes) (X : gset bytes) :
  NoDup l → (∀ x, x ∈ l → x ∈ X) → length l = size X → ∀ x, x ∈ l ↔ x ∈ X.
Proof.
  intros Hnd Hsub Hlen x. assert ((list_to_set l : gset bytes) = X) as <-; [|by rewrite elem_of_list_to_set].
  apply leibniz_equiv, set_subseteq_size_equiv; [set_solver|]. rewrite size_list_to_set by done. lia.
Qed.

(** What both loops of [setNodes] leave behind. *)
Record rebuilt (ids : list bytes) (r : Ring) (b : rebuild) : Prop := mkRebuilt {
  rt_nodes : NoDup (rb_physical b);
  rt_elem : ∀ x, x ∈ rb_physical b ↔ x ∈ ids;
  rt_remap : remap_ok (list_to_set ids) (physical_nodes (snapshot r)) (rb_physical b) (rb_remap b);
  rt_new : ∃ new,
    let kept := filter (λ n, n ∈@{gset bytes} list_to_set ids) (physical_nodes (snapshot r)) in
    rb_physical b = kept ++ new ∧ in_bounds (rb_physical b) (rb_added b) ∧
    owned_by (rb_physical b) <$> rb_added b = all_vnodes (vnodes_per_node r) new ∧
    rb_cells b = (filter (λ p, p.1 ∈@{gset bytes} list_to_set ids)
                   (zip (physical_nodes (snapshot r)) (load_cells (snapshot r)))).*2
                 ++ seq (length (cells r)) (length new) ∧
    rb_store b = cells r ++ replicate (length new) 0 }.

Lemma rebuild_spec ids r :
  wf r → (size (list_to_set ids : gset bytes) <= K_MAX_PHYSICAL_NODES)%nat →
  ∃ b, retain (list_to_set ids) (physical_nodes (snapshot r)) (load_cells (snapshot r))
         (mkRebuild [] [] ∅ [] [] (cells r)) = Some b ∧
    rebuilt ids r (append_new (vnodes_per_node r) ids b).
Proof.
  intros Hwf Hmax. pose proof (wf_nodes r Hwf) as Hnd.
  destruct (retain_spec (list_to_set ids) (physical_nodes (snapshot r)) (load_cells (snapshot r))
    (mkRebuild [] [] ∅ [] [] (cells r)) []) as (b & E & E1 & E2 & E3 & E4 & Hre & Hidx); simpl in *.
  { apply wf_cells, Hwf. } { by split. } { intros x. rewrite lookup_empty. split; [by intros [??]|set_solver]. }
  exists b. split; [done|].
  assert (appended (vnodes_per_node r) (rb_physical b) (rb_cells b) (cells r) b) as Hap.
  { split; [rewrite E1; by apply NoDup_filter|done|]. exists []. rewrite E3, E4; simpl. rewrite !app_nil_r.
    split_and!; try done. intros e He. by apply not_elem_of_nil in He. }
  destruct (append_new_prefix (vnodes_per_node r) ids b) as (Hpre & Hrm & Hsub).
  assert (∀ x, x ∈ rb_physical (append_new (vnodes_per_node r) ids b) → x ∈ ids) as Hsub'.
  { intros x [Hx|]%Hsub; [|done]. rewrite E1 in Hx. apply list_elem_of_filter in Hx as [Hx _]. set_solver. }
  assert (NoDup (rb_physical b)) as Hndb by (rewrite E1; by apply NoDup_filter).
  destruct (append_new_spec (vnodes_per_node r) (rb_physical b) (rb_cells b) (cells r) ids b Hap)
    as [[H1 H2 (new & F1 & F2 & F3 & F4 & F5)] H3].
  { etrans; [|exact Hmax]. apply nodup_size; [by apply append_new_nodup|]. intros x Hx%Hsub'. set_solver. }
  split; [done|split; [apply Hsub'|apply H3]| |].
  - rewrite Hrm. destruct Hre as [Hl Hre]. split; [done|]. intros i n Hi. destruct (Hre i n Hi) as [Ha Hb].
    split; [|done]. intros (k & Hk & Hp)%Ha. exists k. split; [done|]. by eapply prefix_lookup_Some.
  - exists new. cbn zeta. rewrite <- E1, <- E2. done.
Qed.

Lemma zip_filter_fst {B} (P : bytes → Prop) `{!∀ x, Decision (P x)} (l : list bytes) (k : list B) :
  length k = length l → (filter (λ p, P p.1) (zip l k)).*1 = filter P l.
Proof.
  revert k. induction l as [|x l IH]; intros [|y k] Hlen; try done. simpl in Hlen. simpl.
  rewrite !filter_cons; cbn [fst]. case_decide; [rewrite fmap_cons; f_equal|]; apply IH; lia.
Qed.

Lemma zip_filter_snd_sublist {B} (P : bytes * B → Prop) `{!∀ x, Decision (P x)} (l : list bytes) (k : list B) :
  length k = length l → (filter P (zip l k)).*2 `sublist_of` k.
Proof.
  intros Hlen. rewrite <- (snd_zip l k) at 2 by lia. apply fmap_sublist, sublist_filter.
Qed.

Lemma rebuilt_wf ids r b es :
  wf r → (size (list_to_set ids : gset bytes) <= K_MAX_PHYSICAL_NODES)%nat → rebuilt ids r b →
  es ≡ₚ omap (survivor (rb_remap b)) (zip (hashes (snapshot r)) (node_index (snapshot r))) ++ sort_by fst (rb_added b) →
  Sorted Z.le es.*1 →
  wf (with_snapshot (mkSnap es.*1 es.*2 (rb_physical b) (rb_cells b)) (rb_store b) r).
Proof.
  intros Hwf Hmax [Hnd Hel Hre (new & E1 & E2 & E3 & E4 & E5)] Hp Hs.
  pose proof (wf_in_bounds r Hwf) as Hb.
  assert (length (rb_physical b) <= K_MAX_PHYSICAL_NODES)%nat as Hlen.
  { etrans; [|exact Hmax]. apply nodup_size; [done|]. intros x Hx%Hel. set_solver. }
  destruct Hwf as [H1 H2 H3 H4 H5 H6 H7 H8 H9].
  pose proof (zip_filter_snd_sublist (λ p, p.1 ∈@{gset bytes} list_to_set ids) _ _ H6) as Hsl.
  pose proof (sublist_subseteq _ _ Hsl) as Hsub.
  split; simpl; try done.
  - by rewrite !length_fmap.
  - rewrite E4, E1, !length_app, length_seq, length_fmap.
    rewrite <- (zip_filter_fst _ (physical_nodes (snapshot r)) (load_cells (snapshot r)) H6).
    by rewrite length_fmap.
  - rewrite E4. apply NoDup_app. split_and!.
    + by eapply sublist_NoDup.
    + intros c Hc%Hsub%H8 Hs'%elem_of_seq. lia.
    + apply NoDup_seq.
  - intros c. rewrite E4, E5, length_app, length_replicate. intros [Hc%Hsub%H8|Hc%elem_of_seq]%elem_of_app; lia.
  - unfold owned; simpl. rewrite zip_fst_snd, Hp, fmap_app, (sort_by_perm fst (rb_added b)), E3.
    rewrite (owned_survivors (list_to_set ids) (physical_nodes (snapshot r))) by done.
    fold (owned (snapshot r)). rewrite H9, E1. rewrite all_vnodes_app. f_equiv.
    apply reflexive_eq, (all_vnodes_filter (keeps (list_to_set ids))).
Qed.

Lemma setNodes_wf ids r :
  wf r → (size (list_to_set ids : gset bytes) <= K_MAX_PHYSICAL_NODES)%nat →
  ∃ r', setNodes ids r = Done r' ∧ wf r' ∧ vnodes_per_node r' = vnodes_per_node r ∧
    (r' = r ∨ ∃ b, rebuilt ids r b ∧ physical_nodes (snapshot r') = rb_physical b ∧
       load_cells (snapshot r') = rb_cells b ∧ cells r' = rb_store b) ∧
    (∀ x, x ∈ physical_nodes (snapshot r') ↔ x ∈ ids).
Proof.
  intros Hwf Hmax. unfold setNodes. cbn zeta. destruct (Nat.ltb_spec K_MAX_PHYSICAL_NODES (size (list_to_set ids : gset bytes))); [lia|].
  pose proof (wf_nodes r Hwf) as Hnd.
  destruct ((length (physical_nodes (snapshot r)) =? size (list_to_set ids : gset bytes))%nat && _) eqn:Hsame.
  { apply andb_true_iff in Hsame as [Hlen%Nat.eqb_eq Hall]. rewrite forallb_forall in Hall.
    exists r. split_and!; try done; [by left|]. intros x.
    rewrite (nodup_full (physical_nodes (snapshot r)) (list_to_set ids)) by
      (try done; intros y Hy; eapply bool_decide_eq_true, Hall, list_elem_of_In, Hy).
    by rewrite elem_of_list_to_set. }
  clear Hsame. pose proof K_MAX_value as HK. pose proof (vnode_room _ (wf_vnodes r Hwf)) as Hroom.
  destruct (Z.ltb_spec (VNODE_MAX_SIZE / vnodes_per_node r) (Z.of_nat (size (list_to_set ids : gset bytes)))); [lia|].
  destruct (rebuild_spec ids r Hwf Hmax) as (b & -> & Hb). set (b' := append_new _ _ b) in *.
  assert (length (rb_physical b') = size (list_to_set ids : gset bytes)) as ->.
  { rewrite <- (size_list_to_set (C := gset bytes) (rb_physical b')) by apply Hb. f_equal.
    apply leibniz_equiv. intros x. rewrite !elem_of_list_to_set. apply (rt_elem _ _ _ Hb). }
  rewrite Nat.eqb_refl. cbn [negb].
  assert (∀ e, e ∈ zip (hashes (snapshot r)) (node_index (snapshot r)) → (e.2 < length (rb_remap b'))%nat) as Hin.
  { intros e He. destruct (rt_remap _ _ _ Hb) as [-> _]. by apply (wf_in_bounds r Hwf). }
  edestruct merge_runs_perm as (es & E & Hp); [reflexivity|exact Hin|]. rewrite E.
  eexists. split; [reflexivity|]. split; [|split; [reflexivity|split; [right; exists b'; split; [exact Hb|]; split; [reflexivity|]; split; reflexivity|apply (rt_elem _ _ _ Hb)]]].
  apply (rebuilt_wf ids); [done..|]. apply StronglySorted_Sorted. eapply merge_runs_sorted; [reflexivity|exact Hin| | |exact E].
  - apply Sorted_StronglySorted; [intros ???; lia|]. rewrite fst_zip by (rewrite (wf_parallel r Hwf); lia).
    by apply wf_sorted.
  - apply Sorted_StronglySorted; [intros ???; lia|]. apply sort_by_sorted.
Qed.

(** ** Load cells *)

Lemma findIndex_elem (n : bytes) ns : n ∈ ns → ∃ i, findIndex n ns = Some i ∧ ns !! i = Some n.
Proof.
  intros Hn. destruct (findIndex n ns) as [i|] eqn:E; [exists i; split; [done|by apply findIndex_Some]|].
  by apply findIndex_None in E.
Qed.

(** A node of the ring and the value of its counter. *)
Lemma cell_lookup r n :
  wf r → n ∈ physical_nodes (snapshot r) →
  ∃ i c v, findIndex n (physical_nodes (snapshot r)) = Some i ∧ load_cells (snapshot r) !! i = Some c ∧
    cells r !! c = Some v ∧ (n, c) ∈ zip (physical_nodes (snapshot r)) (load_cells (snapshot r)) ∧
    currentLoad n r = Some v.
Proof.
  intros Hwf (i & Ei & Hi)%findIndex_elem.
  destruct (lookup_lt_is_Some_2 (load_cells (snapshot r)) i) as [c Hc].
  { rewrite (wf_cells r Hwf). by eapply lookup_lt_Some. }
  destruct (lookup_lt_is_Some_2 (cells r) c) as [v Hv]; [by eapply (wf_cells_bound r Hwf), list_elem_of_lookup_2|].
  exists i, c, v. split_and!; try done.
  - apply (list_elem_of_lookup_2 _ i). by rewrite lookup_zip_with, Hi, Hc.
  - unfold currentLoad. rewrite Ei. simpl. by rewrite Hc.
Qed.

Lemma currentLoad_elem r n c :
  wf r → (n, c) ∈ zip (physical_nodes (snapshot r)) (load_cells (snapshot r)) → currentLoad n r = cells r !! c.
Proof.
  intros Hwf [i Hi]%list_elem_of_lookup. rewrite lookup_zip_with in Hi.
  destruct (physical_nodes (snapshot r) !! i) as [m|] eqn:Em; simpl in Hi; [|done].
  destruct (load_cells (snapshot r) !! i) as [c'|] eqn:Ec; simpl in Hi; [|done]. simplify_eq.
  destruct (cell_lookup r n Hwf) as (j & c' & v & Ej & Hc & Hv & _ & Hl); [by eapply list_elem_of_lookup_2|].
  assert (j = i) as ->. { apply findIndex_Some in Ej. by eapply NoDup_lookup; [apply wf_nodes, Hwf|..]. }
  congruence.
Qed.

Lemma with_cells_wf r cs : wf r → length cs = length (cells r) → wf (with_snapshot (snapshot r) cs r).
Proof. intros [] Hlen. split; simpl; try done. by rewrite Hlen. Qed.

Lemma incrementLoad_wf n r : wf r → ∃ r', incrementLoad n r = Some r' ∧ wf r' ∧ vnodes_per_node r' = vnodes_per_node r.
Proof.
  intros Hwf. unfold incrementLoad. destruct (findIndex n (physical_nodes (snapshot r))) as [i|] eqn:Ei; [|eauto].
  destruct (cell_lookup r n Hwf) as (j & c & v & Ej & Hc & Hv & _).
  { apply findIndex_Some in Ei. by eapply list_elem_of_lookup_2. }
  rewrite Ei in Ej. injection Ej as <-. rewrite Hc; simpl. rewrite Hv; simpl. eexists. split; [done|].
  split; [|done]. apply with_cells_wf; [done|]. apply length_insert.
Qed.

Lemma decrementLoad_wf n r :
  wf r → (decrementLoad n r = None ∧ ∃ v, currentLoad n r = Some v ∧ v <= 0) ∨ 
  ∃ r', decrementLoad n r = Some r' ∧ wf r' ∧ vnodes_per_node r' = vnodes_per_node r.
Proof.
  intros Hwf. unfold decrementLoad. destruct (findIndex n (physical_nodes (snapshot r))) as [i|] eqn:Ei; [|eauto].
  destruct (cell_lookup r n Hwf) as (j & c & v & Ej & Hc & Hv & _ & Hl).
  { apply findIndex_Some in Ei. by eapply list_elem_of_lookup_2. }
  rewrite Ei in Ej. injection Ej as <-. rewrite Hc; simpl. rewrite Hv; simpl.
  destruct (Z.ltb_spec 0 v); [right|left; split; [done|by exists v]]. eexists. split; [done|].
  split; [|done]. apply with_cells_wf; [done|]. apply length_insert.
Qed.

Lemma step_wf o r r' : wf r → step o r = Done r' → wf r' ∧ vnodes_per_node r' = vnodes_per_node r.
Proof.
  intros Hwf. destruct o as [n|n|ns|n|n]; simpl; intros E.
  - destruct (addNode_wf n r Hwf) as [[E' _]|(r0 & E' & H0 & H1 & _)]; rewrite E in E'; by simplify_eq.
  - destruct (removeNode_wf n r Hwf) as (r0 & E' & H0 & H1 & _). rewrite E in E'. by simplify_eq.
  - destruct (decide (size (list_to_set ns : gset bytes) <= K_MAX_PHYSICAL_NODES)%nat) as [Hm|Hm].
    + destruct (setNodes_wf ns r Hwf Hm) as (r0 & E' & H0 & H1 & _). rewrite E in E'. by simplify_eq.
    + unfold setNodes in E. cbn zeta in E. by destruct (Nat.ltb_spec K_MAX_PHYSICAL_NODES (size (list_to_set ns : gset bytes))); [|lia].
  - destruct (incrementLoad_wf n r Hwf) as (r0 & E' & H0). rewrite E' in E. simpl in E. by simplify_eq.
  - destruct (decrementLoad_wf n r Hwf) as [[E' _]|(r0 & E' & H0)]; rewrite E' in E; simpl in E; by simplify_eq.
Qed.

Lemma ring_reachable_wf r : reachable r → wf r.
Proof. induction 1 as [|o r r' _ IH E]; [by eapply make_wf|]. by eapply step_wf. Qed.

(** ** Lookups *)

Lemma owned_lookup s i h p :
  hashes s !! i = Some h → node_index s !! i = Some p → owned s !! i = Some (h, physical_nodes s !! p).
Proof. intros Hh Hp. unfold owned. by rewrite list_lookup_fmap, lookup_zip_with, Hh, Hp. Qed.

Lemma owned_hashes s : length (hashes s) = length (node_index s) → (owned s).*1 = hashes s.
Proof.
  intros Hl. unfold owned. rewrite <- list_fmap_compose. change (fst ∘ owned_by (physical_nodes s)) with (@fst Z nat).
  apply fst_zip. lia.
Qed.

Lemma find_at (h : Z) (l : list (Z * option bytes)) p e :
  (∀ i x, l !! i = Some x → (i < p)%nat → x.1 < h) → l !! p = Some e → h <= e.1 →
  List.find (λ e, h <=? e.1) l = Some e.
Proof.
  revert p. induction l as [|y l IH]; intros p Hlo Hp He; [done|]. simpl.
  destruct p as [|p]; simpl in Hp.
  - injection Hp as ->. by destruct (Z.leb_spec h e.1); [|lia].
  - specialize (Hlo O y eq_refl ltac:(lia)) as Hy. destruct (Z.leb_spec h y.1); [lia|].
    apply (IH p); [|done|done]. intros i x Hi Hlt. apply (Hlo (S i) x Hi). lia.
Qed.

Lemma find_none (h : Z) (l : list (Z * option bytes)) :
  (∀ x, x ∈ l → x.1 < h) → List.find (λ e, h <=? e.1) l = None.
Proof.
  induction l as [|y l IH]; intros Hlo; [done|]. simpl. pose proof (Hlo y ltac:(set_solver)).
  destruct (Z.leb_spec h y.1); [lia|]. apply IH. set_solver.
Qed.

(** The bisected index is the position of the successor. *)
Lemma start_index_successor r key :
  wf r → hashes (snapshot r) ≠ [] →
  (start_index (snapshot r) key < length (hashes (snapshot r)))%nat ∧
  owned (snapshot r) !! start_index (snapshot r) key = successor (hashKey key) (owned (snapshot r)).
Proof.
  intros Hwf Hne. set (s := snapshot r) in *. unfold start_index.
  assert (length (hashes s) ≠ 0%nat) as Hlen by (by destruct (hashes s)).
  destruct (lower_bound_spec (hashes s) (hashKey key) (wf_sorted r Hwf)) as (Hle & Hlo & Hhi).
  set (p := lower_bound (hashes s) (hashKey key)) in *.
  pose proof (owned_hashes s (wf_parallel r Hwf)) as Hoh. unfold successor.
  assert (length (owned s) = length (hashes s)) as Hlo' by (rewrite <- Hoh; by rewrite length_fmap).
  destruct (Nat.eqb_spec p (length (hashes s))) as [Hp|Hp].
  - split; [lia|]. rewrite find_none; [by destruct (owned s)|].
    intros x Hx. assert (x.1 ∈ hashes s) as [i Hi]%list_elem_of_lookup by (rewrite <- Hoh; by apply list_elem_of_fmap_2).
    apply (Hlo i); [done|]. apply lookup_lt_Some in Hi. lia.
  - split; [lia|]. destruct (lookup_lt_is_Some_2 (owned s) p ltac:(lia)) as [e He]. rewrite He. symmetry.
    assert (∀ i x, owned s !! i = Some x → hashes s !! i = Some x.1) as Hix.
    { intros i x Hi. rewrite <- Hoh, list_lookup_fmap, Hi. done. }
    rewrite (find_at _ _ p e); [done| |done|].
    + intros i x Hi Hlt. by apply (Hlo i); [apply Hix|].
    + by apply (Hhi p); [apply Hix|].
Qed.

Lemma node_at_owned s i :
  length (hashes s) = length (node_index s) → (i < length (hashes s))%nat → node_at s i = (owned s !! i) ≫= snd.
Proof.
  intros Hl Hi. destruct (lookup_lt_is_Some_2 (hashes s) i Hi) as [h Hh].
  destruct (lookup_lt_is_Some_2 (node_index s) i ltac:(lia)) as [p Hp].
  rewrite (owned_lookup _ _ _ _ Hh Hp). unfold node_at. by rewrite Hp.
Qed.

Lemma getNode_successor key r :
  wf r → hashes (snapshot r) ≠ [] → getNode key r = successor (hashKey key) (owned (snapshot r)) ≫= snd.
Proof.
  intros Hwf Hne. destruct (start_index_successor r key Hwf Hne) as [Hlt Hs]. unfold getNode.
  rewrite node_at_owned by (done || apply wf_parallel, Hwf). rewrite Hs.
  by destruct (hashes (snapshot r)).
Qed.

Lemma hashes_empty r : wf r → hashes (snapshot r) = [] ↔ physical_nodes (snapshot r) = [].
Proof.
  intros Hwf. split; intros E.
  - destruct (physical_nodes (snapshot r)) as [|n ns] eqn:Ep; [done|].
    destruct (vnode_exists r n Hwf) as (e & He & _); [rewrite Ep; by left|]. rewrite E in He.
    by apply not_elem_of_nil in He.
  - pose proof (wf_owned r Hwf) as Ho. rewrite E in Ho. apply Permutation_nil_r in Ho.
    pose proof (owned_hashes _ (wf_parallel r Hwf)) as Hh. by rewrite Ho in Hh.
Qed.

Lemma successor_first h l : Sorted Z.le l.*1 → l ≠ [] → ∃ e, successor h l = Some e ∧ clockwise_first h l e.
Proof.
  intros Hs%Sorted_StronglySorted; [|intros ???; lia].
  assert (∀ (e : Z * option bytes) l', StronglySorted Z.le (e :: l').*1 → ∀ e', e' ∈ e :: l' → e.1 <= e'.1) as Hhd.
  { intros e l' Hs' e' [->|He]%elem_of_cons; [lia|]. apply StronglySorted_inv in Hs' as [_ Hall].
    rewrite Forall_forall in Hall. apply Hall. by apply list_elem_of_fmap_2. }
  intros Hne. unfold successor. destruct (List.find _ l) as [e|] eqn:Ef.
  - exists e. split; [done|]. clear Hne. induction l as [|y l IH]; [done|]. simpl in Ef.
    destruct (Z.leb_spec h y.1).
    + injection Ef as ->. split; [by left|]. left. split; [done|]. intros e' He' _. by apply (Hhd e l).
    + simpl in Hs. apply StronglySorted_inv in Hs as [Hs _]. destruct (IH Hs Ef) as [Hin Hor].
      apply List.find_some in Ef as [_ Hle%Z.leb_le]. split; [by right|]. left. split; [done|].
      intros e' [->|He']%elem_of_cons Hge; [lia|]. destruct Hor as [[_ Hmin]|Hall]; [by apply Hmin|].
      apply Hall in Hin. lia.
  - destruct l as [|y l]; [done|]. exists y. split; [done|]. split; [by left|]. right.
    intros e' He'. split; [|by apply (Hhd y l)]. pose proof (List.find_none _ _ Ef e' ltac:(by apply list_elem_of_In)) as Hn.
    apply Z.leb_gt in Hn. lia.
Qed.

Lemma clockwise_perm h l l' e : l ≡ₚ l' → clockwise_first h l e → clockwise_first h l' e.
Proof. intros Hp. unfold clockwise_first. setoid_rewrite Hp. done. Qed.

Lemma clockwise_unique h l e e' :
  NoDup l.*1 → clockwise_first h l e → clockwise_first h l e' → e = e'.
Proof.
  intros Hnd [Hin Ho] [Hin' Ho']. assert (e.1 = e'.1) as Heq.
  { destruct Ho as [[Hh Hm]|Hm], Ho' as [[Hh' Hm']|Hm'].
    - specialize (Hm _ Hin' Hh'). specialize (Hm' _ Hin Hh). lia.
    - specialize (Hm' _ Hin). lia.
    - specialize (Hm _ Hin'). lia.
    - specialize (Hm _ Hin'). specialize (Hm' _ Hin). lia. }
  apply list_elem_of_lookup in Hin as [i Hi]. apply list_elem_of_lookup in Hin' as [j Hj].
  assert (i = j) as ->; [|congruence].
  eapply NoDup_lookup; [exact Hnd|rewrite list_lookup_fmap, Hi; reflexivity|]. rewrite list_lookup_fmap, Hj. simpl. by rewrite Heq.
Qed.

(** The owner is one of the nodes, found on one of its virtual nodes. *)
Lemma getNode_first key r :
  wf r → physical_nodes (snapshot r) ≠ [] →
  ∃ h n, getNode key r = Some n ∧ n ∈ physical_nodes (snapshot r) ∧
    clockwise_first (hashKey key) (all_vnodes (vnodes_per_node r) (physical_nodes (snapshot r))) (h, Some n).
Proof.
  intros Hwf Hne. assert (hashes (snapshot r) ≠ []) as Hh by (by rewrite hashes_empty).
  rewrite getNode_successor by done.
  pose proof (owned_hashes _ (wf_parallel r Hwf)) as Hoh.
  destruct (successor_first (hashKey key) (owned (snapshot r))) as ([h o] & -> & Hc).
  { rewrite Hoh. by apply wf_sorted. } { intros E. by rewrite E in Hoh. }
  apply (clockwise_perm _ _ _ _ (wf_owned r Hwf)) in Hc. pose proof Hc as [Hin _].
  unfold all_vnodes in Hin. apply list_elem_of_bind in Hin as (n & Ho%elem_of_vnodes & Hn). simpl in Ho. subst o.
  by exists h, n.
Qed.

Lemma all_vnodes_perm vn a b : a ≡ₚ b → all_vnodes vn a ≡ₚ all_vnodes vn b.
Proof. intros Hp. unfold all_vnodes. by rewrite Hp. Qed.

(** *** Sorted lists without ties *)

Lemma sorted_perm_unique (l l' : list (Z * option bytes)) :
  StronglySorted Z.le l.*1 → StronglySorted Z.le l'.*1 → NoDup l.*1 → l ≡ₚ l' → l = l'.
Proof.
  revert l'. induction l as [|e l IH]; intros l' Hs Hs' Hnd Hp.
  { by apply Permutation_nil_l. }
  destruct l' as [|e' l']; [by apply Permutation_nil_r in Hp|].
  simpl in *. apply StronglySorted_inv in Hs as [Hs Ha]. apply StronglySorted_inv in Hs' as [Hs' Ha'].
  rewrite Forall_forall in Ha, Ha'. pose proof Hnd as [Hni Hnd']%NoDup_cons.
  assert (e = e') as <-; [|f_equal; apply IH; try done; by apply (inj (cons e))].
  assert (e ∈ e' :: l') as He by (rewrite <- Hp; by left).
  assert (e' ∈ e :: l) as He' by (rewrite Hp; by left).
  apply elem_of_cons in He as [|He]; [done|]. apply elem_of_cons in He' as [|He']; [done|].
  assert (e.1 = e'.1) as Heq.
  { assert (e.1 <= e'.1) by (by apply Ha, list_elem_of_fmap_2). assert (e'.1 <= e.1) by (by apply Ha', list_elem_of_fmap_2). lia. }
  destruct Hni. rewrite Heq. by apply list_elem_of_fmap_2.
Qed.

Lemma owned_unique r r' :
  wf r → wf r' → vnodes_per_node r = vnodes_per_node r' →
  (∀ x, x ∈ physical_nodes (snapshot r) ↔ x ∈ physical_nodes (snapshot r')) →
  collision_free (vnodes_per_node r) (physical_nodes (snapshot r)) →
  owned (snapshot r) = owned (snapshot r').
Proof.
  intros Hwf Hwf' Hvn Hel Hcf.
  assert (physical_nodes (snapshot r) ≡ₚ physical_nodes (snapshot r')) as Hp.
  { apply NoDup_Permutation; [by apply wf_nodes..|done]. }
  assert (∀ r, wf r → StronglySorted Z.le (owned (snapshot r)).*1) as Hs.
  { intros r0 H0. rewrite owned_hashes by apply wf_parallel, H0.
    apply Sorted_StronglySorted; [intros ???; lia|by apply wf_sorted]. }
  apply sorted_perm_unique; [by apply Hs..| |].
  - unfold collision_free in Hcf. by rewrite (wf_owned r Hwf).
  - rewrite (wf_owned r Hwf), (wf_owned r' Hwf'), Hvn. by apply all_vnodes_perm.
Qed.

(** *** The replica walk *)

Lemma elem_of_uniq x seen l : x ∈ uniq seen l ↔ x ∈ l ∧ x ∉ seen.
Proof.
  revert seen. induction l as [|y l IH]; intros seen; simpl; [set_solver|].
  case_decide; rewrite ?elem_of_cons, IH; [set_solver|]. destruct (decide (x = y)); set_solver.
Qed.

Lemma NoDup_uniq seen l : NoDup (uniq seen l).
Proof.
  revert seen. induction l as [|y l IH]; intros seen; simpl; [apply NoDup_nil_2|].
  case_decide; [done|]. apply NoDup_cons. split; [|done]. rewrite elem_of_uniq. set_solver.
Qed.

(** The owners of the entries, in ring order, and from a position on. *)
Definition owners (s : RingSnapshot) : list bytes := omap snd (owned s).

Definition turn (s : RingSnapshot) (start : nat) : list bytes := drop start (owners s) ++ take start (owners s).

Lemma owned_some r : wf r → Some <$> owners (snapshot r) = (owned (snapshot r)).*2.
Proof.
  intros Hwf. unfold owners. assert (∀ e, e ∈ owned (snapshot r) → is_Some e.2) as Hs.
  { intros e. rewrite (wf_owned r Hwf). unfold all_vnodes. intros (n & ->%elem_of_vnodes & _)%list_elem_of_bind. done. }
  induction (owned (snapshot r)) as [|e l IH]; [done|]. cbn [omap list_omap].
  destruct (Hs e) as [n Hn]; [by left|]. rewrite fmap_cons, Hn, fmap_cons. f_equal. apply IH. set_solver.
Qed.

Lemma owners_lookup r i :
  wf r → (i < length (hashes (snapshot r)))%nat →
  ∃ p n, node_index (snapshot r) !! i = Some p ∧ physical_nodes (snapshot r) !! p = Some n ∧ owners (snapshot r) !! i = Some n.
Proof.
  intros Hwf Hi. destruct (lookup_lt_is_Some_2 _ i Hi) as [h Hh].
  destruct (lookup_lt_is_Some_2 (node_index (snapshot r)) i) as [p Hp]; [by rewrite <- (wf_parallel r Hwf)|].
  pose proof (owned_lookup _ _ _ _ Hh Hp) as Ho. pose proof (f_equal (.!! i) (owned_some r Hwf)) as Hs. simpl in Hs.
  rewrite !list_lookup_fmap, Ho in Hs. simpl in Hs.
  destruct (owners (snapshot r) !! i) as [n|] eqn:En; simpl in Hs; [|done]. injection Hs as Hs. by exists p, n.
Qed.

Lemma owners_length r : wf r → length (owners (snapshot r)) = length (hashes (snapshot r)).
Proof.
  intros Hwf. pose proof (f_equal length (owned_some r Hwf)) as Hl. rewrite !length_fmap in Hl.
  by rewrite Hl, <- (owned_hashes _ (wf_parallel r Hwf)), length_fmap.
Qed.

Lemma turn_lookup (l : list bytes) start j :
  (start < length l)%nat → (j < length l)%nat →
  (drop start l ++ take start l) !! j = l !! ((start + j) mod length l)%nat.
Proof.
  intros Hs Hj. destruct (decide (start + j < length l)%nat) as [Hlt|Hge].
  - rewrite lookup_app_l by (rewrite length_drop; lia). rewrite lookup_drop, Nat.mod_small by lia. done.
  - rewrite lookup_app_r by (rewrite length_drop; lia). rewrite length_drop.
    replace ((start + j) mod length l)%nat with (start + j - length l)%nat.
    + rewrite lookup_take_lt by lia. f_equal. lia.
    + replace (start + j)%nat with (start + j - length l + 1 * length l)%nat at 2 by lia.
      rewrite Nat.Div0.mod_add, Nat.mod_small; lia.
Qed.

Lemma next_index_mod s start j :
  (start < length (hashes s))%nat →
  next_index s ((start + j) mod length (hashes s)) = ((start + (j + 1)) mod length (hashes s))%nat.
Proof.
  intros Hs. unfold next_index. set (n := length (hashes s)) in *.
  pose proof (Nat.mod_upper_bound (start + j) n ltac:(lia)) as Hb.
  rewrite Nat.add_assoc, <- (Nat.Div0.add_mod_idemp_l (start + j) 1).
  destruct (Nat.eqb_spec ((start + j) mod n + 1) n) as [->|Hne]; [by rewrite Nat.Div0.mod_same|].
  symmetry. apply Nat.mod_small. lia.
Qed.

Lemma turn_ends n start j : (start < n)%nat → (j < n)%nat → ((start + (j + 1)) mod n = start)%nat ↔ (j + 1 = n)%nat.
Proof.
  intros Hs Hj. destruct (decide (start + (j + 1) < n)%nat) as [Hlt|Hge].
  - rewrite Nat.mod_small by lia. lia.
  - replace (start + (j + 1))%nat with (start + (j + 1) - n + 1 * n)%nat by lia.
    rewrite Nat.Div0.mod_add. destruct (decide (j + 1 = n)%nat); rewrite Nat.mod_small; lia.
Qed.

Lemma seen_iff (phys : list bytes) p n (seen : list nat) (result : list bytes) :
  NoDup phys → phys !! p = Some n → Some <$> result = (phys !!.) <$> seen → p ∈ seen ↔ n ∈ result.
Proof.
  intros Hnd Hp Hc. assert (n ∈ result ↔ Some n ∈ Some <$> result) as ->.
  { rewrite list_elem_of_fmap. naive_solver. }
  rewrite Hc, list_elem_of_fmap. split; [intros; by exists p|]. intros (q & Hq & Hs).
  assert (p = q) as ->; [|done]. by eapply NoDup_lookup.
Qed.

Lemma getNodes_loop_spec r count start fuel j seen result :
  let s := snapshot r in
  wf r → (start < length (hashes s))%nat → (fuel + j = length (hashes s))%nat → (0 < fuel)%nat →
  Some <$> result = (physical_nodes s !!.) <$> seen →
  getNodes_loop fuel s (Z.of_nat count) start ((start + j) mod length (hashes s)) seen result
  = Some (result ++ take (count - length result) (uniq result (drop j (turn s start)))).
Proof.
  cbn zeta. intros Hwf Hstart. revert j seen result.
  induction fuel as [|fuel IH]; intros j seen result Hf Hpos Hc; [lia|]. cbn [getNodes_loop].
  destruct (Z.ltb_spec (Z.of_nat (length result)) (Z.of_nat count)) as [Hlt|Hge].
  2:{ replace (count - length result)%nat with 0%nat by lia. rewrite take_0, app_nil_r. done. }
  set (cur := ((start + j) mod length (hashes (snapshot r)))%nat).
  destruct (owners_lookup r cur Hwf) as (p & n & Hp & Hn & Ho); [apply Nat.mod_upper_bound; lia|].
  rewrite Hp. cbn [mbind option_bind]. rewrite Hn. cbn [mbind option_bind].
  assert (drop j (turn (snapshot r) start) = n :: drop (S j) (turn (snapshot r) start)) as ->.
  { apply drop_S. unfold turn. pose proof (owners_length r Hwf) as Hl. rewrite turn_lookup, Hl by lia. done. }
  unfold cur. rewrite next_index_mod by done. cbn [uniq].
  rewrite (decide_ext (p ∈ seen) (n ∈ result)) by (by eapply seen_iff; [apply wf_nodes, Hwf|..]).
  set (sr := if decide (n ∈ result) then (seen, result) else (seen ++ [p], result ++ [n])).
  assert (Some <$> sr.2 = (physical_nodes (snapshot r) !!.) <$> sr.1) as Hc'.
  { unfold sr. case_decide; simpl; [done|]. rewrite !fmap_app, Hc. simpl. by rewrite Hn. }
  assert (result ++ take (count - length result)
    (if decide (n ∈ result) then uniq result (drop (S j) (turn (snapshot r) start))
     else n :: uniq (result ++ [n]) (drop (S j) (turn (snapshot r) start)))
    = sr.2 ++ take (count - length sr.2) (uniq sr.2 (drop (S j) (turn (snapshot r) start)))) as ->.
  { unfold sr. case_decide; simpl; [done|]. rewrite length_app, <- app_assoc; simpl. f_equal.
    replace (count - length result)%nat with (S (count - (length result + 1))) by lia. done. }
  rewrite (surjective_pairing sr) at 1. cbn beta iota.
  destruct (Nat.eqb_spec ((start + (j + 1)) mod length (hashes (snapshot r))) start) as [He|He].
  - apply turn_ends in He; [|lia..]. rewrite drop_ge; [cbn [uniq]; by rewrite take_nil, app_nil_r|].
    unfold turn. rewrite length_app, length_drop, length_take, (owners_length r Hwf). lia.
  - rewrite turn_ends in He by lia. replace (S j) with (j + 1)%nat by lia. apply IH; [lia|lia|done].
Qed.

Lemma getNodes_eq key k r :
  wf r → physical_nodes (snapshot r) ≠ [] → 0 < k <= K_MAX_REPLICAS →
  getNodes key k r = Done (take (Z.to_nat k) (uniq [] (turn (snapshot r) (start_index (snapshot r) key)))).
Proof.
  intros Hwf Hne Hk. unfold getNodes.
  replace ((k <=? 0) || (K_MAX_REPLICAS <? k)) with false.
  2:{ symmetry. apply orb_false_iff. rewrite Z.leb_gt, Z.ltb_ge. lia. }
  assert (hashes (snapshot r) ≠ []) as Hh by (by rewrite hashes_empty).
  destruct (start_index_successor r key Hwf Hh) as [Hlt _].
  assert (getNodes_loop (length (hashes (snapshot r))) (snapshot r) k (start_index (snapshot r) key)
    (start_index (snapshot r) key) [] [] =
    Some (take (Z.to_nat k) (uniq [] (turn (snapshot r) (start_index (snapshot r) key))))) as ->.
  2:{ by destruct (hashes (snapshot r)). }
  pose proof (getNodes_loop_spec r (Z.to_nat k) (start_index (snapshot r) key) (length (hashes (snapshot r))) 0 [] [] Hwf Hlt
    ltac:(lia) ltac:(lia) eq_refl) as Hl.
  rewrite Nat.add_0_r, Nat.mod_small, Z2Nat.id in Hl by lia. rewrite Hl. simpl. by rewrite Nat.sub_0_r, drop_0.
Qed.

Lemma elem_of_owners r x : wf r → x ∈ owners (snapshot r) ↔ x ∈ physical_nodes (snapshot r).
Proof.
  intros Hwf. unfold owners. rewrite list_elem_of_omap. setoid_rewrite (wf_owned r Hwf). unfold all_vnodes. split.
  - intros (e & He & Hx). apply list_elem_of_bind in He as (n & Hn%elem_of_vnodes & Hin). congruence.
  - intros Hx. exists (hashVnode x 0, Some x). split; [|done]. apply list_elem_of_bind. exists x. split; [|done].
    apply list_elem_of_fmap. exists 0. split; [done|]. apply elem_of_seqZ. pose proof (wf_vnodes r Hwf). lia.
Qed.

Lemma uniq_turn r start :
  wf r → uniq [] (turn (snapshot r) start) ≡ₚ physical_nodes (snapshot r).
Proof.
  intros Hwf. apply NoDup_Permutation; [apply NoDup_uniq|apply wf_nodes, Hwf|]. intros x.
  rewrite elem_of_uniq, <- (elem_of_owners r x Hwf). unfold turn.
  rewrite elem_of_app, (or_comm (x ∈ drop _ _)), <- elem_of_app, take_drop. set_solver.
Qed.

Lemma getNode_head key r :
  wf r → physical_nodes (snapshot r) ≠ [] →
  getNode key r = head (uniq [] (turn (snapshot r) (start_index (snapshot r) key))).
Proof.
  intros Hwf Hne. assert (hashes (snapshot r) ≠ []) as Hh by (by rewrite hashes_empty).
  destruct (start_index_successor r key Hwf Hh) as [Hlt _]. set (i := start_index (snapshot r) key) in *.
  destruct (owners_lookup r i Hwf Hlt) as (p & n & Hp & Hn & Ho).
  assert (getNode key r = Some n) as ->.
  { unfold getNode. fold i. unfold node_at. rewrite Hp. simpl. rewrite Hn. by destruct (hashes (snapshot r)). }
  unfold turn. rewrite (drop_S _ _ _ Ho). done.
Qed.

(** The replica set of a key. *)
Lemma getNodes_plan r key k :
  wf r → physical_nodes (snapshot r) ≠ [] → 0 < k <= K_MAX_REPLICAS →
  ∃ l, getNodes key k r = Done l ∧ NoDup l ∧ (∀ n, n ∈ l → n ∈ physical_nodes (snapshot r)) ∧
    length l = Nat.min (Z.to_nat k) (length (physical_nodes (snapshot r))) ∧ head l = getNode key r.
Proof.
  intros Hwf Hne Hk. eexists. split; [by apply getNodes_eq|]. set (l := uniq _ _).
  pose proof (uniq_turn r (start_index (snapshot r) key) Hwf) as Hp. fold l in Hp. split_and!.
  - eapply sublist_NoDup; [apply NoDup_uniq|]. apply sublist_take.
  - intros n Hn. rewrite <- Hp. eapply sublist_subseteq; [apply sublist_take|exact Hn].
  - by rewrite length_take, Hp.
  - rewrite getNode_head by done. fold l. destruct (Z.to_nat k) eqn:Ek; [lia|]. by destruct l.
Qed.

(** The successor survives the removal of other nodes' entries. *)
Lemma successor_filter h l (n : bytes) e :
  successor h l = Some e → e.2 ≠ Some n → successor h (filter (λ x, x.2 ≠ Some n) l) = Some e.
Proof.
  unfold successor. intros Hs He.
  destruct (List.find (λ e, h <=? e.1) l) as [e'|] eqn:Ef.
  - injection Hs as ->. assert (List.find (λ e, h <=? e.1) (filter (λ x, x.2 ≠ Some n) l) = Some e) as ->; [|done].
    induction l as [|y l IH]; [done|]. simpl in Ef. rewrite filter_cons.
    destruct (h <=? y.1) eqn:Hy.
    + injection Ef as ->. rewrite decide_True by done. simpl. by rewrite Hy.
    + case_decide; simpl; rewrite ?Hy; by apply IH.
  - destruct l as [|y l]; [done|]. simpl in Hs. injection Hs as ->. rewrite filter_cons_True by done.
    assert (List.find (λ e, h <=? e.1) (e :: filter (λ x, x.2 ≠ Some n) l) = None) as ->; [|done].
    apply find_none. intros x Hx. assert (x ∈ e :: l) as Hin.
    { apply elem_of_cons in Hx as [->|[_ Hx]%list_elem_of_filter]; set_solver. }
    apply Z.leb_gt. by apply (List.find_none _ _ Ef), list_elem_of_In.
Qed.

(** *** Bounded load *)

Lemma bounded_loop_spec r ls max_load start fuel j :
  let s := snapshot r in
  wf r → length ls = length (physical_nodes s) →
  (start < length (hashes s))%nat → (fuel + j = length (hashes s))%nat → (0 < fuel)%nat →
  let over n := ∃ p v, physical_nodes s !! p = Some n ∧ ls !! p = Some v ∧ max_load <= v in
  let under n := ∃ p v, physical_nodes s !! p = Some n ∧ ls !! p = Some v ∧ v < max_load in
  (∃ n pre post, drop j (turn s start) = pre ++ n :: post ∧ Forall over pre ∧ under n ∧
     bounded_loop fuel s ls max_load start ((start + j) mod length (hashes s)) = Some n) ∨
  (Forall over (drop j (turn s start)) ∧
     bounded_loop fuel s ls max_load start ((start + j) mod length (hashes s)) = node_at s start).
Proof.
  cbn zeta. intros Hwf Hls Hstart. revert j.
  induction fuel as [|fuel IH]; intros j Hf Hpos; [lia|]. cbn [bounded_loop].
  destruct (owners_lookup r ((start + j) mod length (hashes (snapshot r))) Hwf) as (p & n & Hp & Hn & Ho);
    [apply Nat.mod_upper_bound; lia|].
  destruct (lookup_lt_is_Some_2 ls p) as [v Hv]; [rewrite Hls; by eapply lookup_lt_Some|].
  rewrite Hp. cbn [mbind option_bind]. rewrite Hv. cbn [mbind option_bind].
  assert (drop j (turn (snapshot r) start) = n :: drop (S j) (turn (snapshot r) start)) as ->.
  { apply drop_S. unfold turn. pose proof (owners_length r Hwf) as Hl. rewrite turn_lookup, Hl by lia. done. }
  destruct (Z.ltb_spec v max_load) as [Hlt|Hge].
  { left. exists n, [], (drop (S j) (turn (snapshot r) start)). split_and!; [done|constructor|by exists p, v|done]. }
  rewrite next_index_mod by done.
  destruct (Nat.eqb_spec ((start + (j + 1)) mod length (hashes (snapshot r))) start) as [He|He].
  - apply turn_ends in He; [|lia..]. right. split; [|done].
    constructor; [by exists p, v|]. rewrite drop_ge; [constructor|].
    unfold turn. rewrite length_app, length_drop, length_take, (owners_length r Hwf). lia.
  - rewrite turn_ends in He by lia. replace (S j) with (j + 1)%nat by lia.
    destruct (IH (j + 1)%nat) as [(m & pre & post & -> & Hpre & Hm & ->)|[Hall ->]]; [lia|lia| |].
    + left. exists m, (n :: pre), post. split_and!; [done|constructor; [by exists p, v|done]|done|done].
    + right. split; [constructor; [by exists p, v|done]|done].
Qed.

(** *** Counters across membership changes *)

(** Every counter of the new ring is the old node's, or a fresh zero. *)
Definition keeps_loads (r r' : Ring) : Prop :=
  ∀ n, n ∈ physical_nodes (snapshot r') →
    currentLoad n r' = if decide (n ∈ physical_nodes (snapshot r)) then currentLoad n r else Some 0.

Lemma keeps_loads_intro r r' extra :
  wf r → wf r' → cells r' = cells r ++ replicate extra 0 →
  (∀ n, n ∈ physical_nodes (snapshot r') →
    ∃ c, (n, c) ∈ zip (physical_nodes (snapshot r')) (load_cells (snapshot r')) ∧
      if decide (n ∈ physical_nodes (snapshot r))
      then (n, c) ∈ zip (physical_nodes (snapshot r)) (load_cells (snapshot r))
      else (length (cells r) <= c)%nat) →
  keeps_loads r r'.
Proof.
  intros Hwf Hwf' Hcs Hz n Hn. destruct (Hz n Hn) as (c & Hc & Hold).
  pose proof (currentLoad_elem r' n c Hwf' Hc) as ->. case_decide as Hin.
  - rewrite (currentLoad_elem r n c Hwf Hold), Hcs. apply lookup_app_l.
    eapply (wf_cells_bound r Hwf), elem_of_zip_r, Hold.
  - destruct (cell_lookup r' n Hwf' Hn) as (i & c' & v & _ & _ & Hv & Hc' & Hl).
    pose proof (currentLoad_elem r' n c Hwf' Hc) as Hl'. rewrite Hl, Hcs in Hl'. rewrite Hcs, <- Hl'.
    rewrite lookup_app_r in Hl' by done. symmetry in Hl'. apply lookup_replicate in Hl' as [-> _]. done.
Qed.

Lemma addNode_loads n r r' : wf r → addNode n r = Done r' → keeps_loads r r'.
Proof.
  intros Hwf E. assert (wf r') as Hwf' by (by eapply (step_wf (OpAdd n))).
  unfold addNode in E. case_decide as Hin.
  { injection E as <-. intros m Hm. by rewrite decide_True. }
  case_match; [discriminate E|]. destruct (sort_lockstep _ _) as [[hs ni]|]; [|discriminate E]. injection E as <-.
  apply (keeps_loads_intro _ _ 1); [done..|]. simpl. intros m Hm.
  rewrite zip_with_app by (symmetry; apply wf_cells, Hwf). apply elem_of_app in Hm as [Hm|Hm%list_elem_of_singleton].
  - destruct (cell_lookup r m Hwf Hm) as (i & c & v & _ & _ & _ & Hc & _). exists c.
    rewrite decide_True by done. set_solver.
  - subst m. exists (length (cells r)). rewrite decide_False by done. simpl. set_solver by lia.
Qed.

Lemma zip_delete {A B} (l : list A) (k : list B) i : zip (delete i l) (delete i k) = delete i (zip l k).
Proof. revert k i. induction l as [|x l IH]; intros [|y k] [|i]; simpl; try done; [by destruct l|]. by rewrite IH. Qed.

Lemma removeNode_loads n r r' : wf r → removeNode n r = Done r' → keeps_loads r r'.
Proof.
  intros Hwf E. assert (wf r') as Hwf' by (by eapply (step_wf (OpRemove n))).
  assert (r' = r → keeps_loads r r') as Hsame.
  { intros ->. intros m Hm. by rewrite decide_True. }
  unfold removeNode in E. destruct (findIndex n (physical_nodes (snapshot r))) as [p|] eqn:Ep; [|by simplify_eq; auto].
  destruct (drop_vnodes _ _ _) as [[hs ni]|]; [|done]. case_match; [by simplify_eq; auto|]. injection E as <-.
  apply findIndex_Some in Ep. apply (keeps_loads_intro _ _ 0); [done|done|by rewrite app_nil_r|].
  cbn [snapshot physical_nodes load_cells with_snapshot]. intros m Hm.
  rewrite (delete_filter n) in Hm by (done || apply wf_nodes, Hwf). apply list_elem_of_filter in Hm as [Hne Hm].
  destruct (cell_lookup r m Hwf Hm) as (i & c & v & Hi & Hc & _ & Hz & _). exists c. rewrite decide_True by done.
  split; [|done]. rewrite zip_delete. apply findIndex_Some in Hi.
  assert (i ≠ p) as Hip by congruence.
  apply list_elem_of_lookup. destruct (decide (i < p)%nat).
  - exists i. rewrite list_lookup_delete_lt by done. by rewrite lookup_zip_with, Hi, Hc.
  - exists (i - 1)%nat. rewrite list_lookup_delete_ge by lia. replace (S (i - 1)) with i by lia.
    by rewrite lookup_zip_with, Hi, Hc.
Qed.

Lemma setNodes_loads ns r r' : wf r → setNodes ns r = Done r' → keeps_loads r r'.
Proof.
  intros Hwf E. destruct (decide (size (list_to_set ns : gset bytes) <= K_MAX_PHYSICAL_NODES)%nat) as [Hm|Hm].
  2:{ unfold setNodes in E. cbn zeta in E.
      by destruct (Nat.ltb_spec K_MAX_PHYSICAL_NODES (size (list_to_set ns : gset bytes))); [|lia]. }
  destruct (setNodes_wf ns r Hwf Hm) as (r0 & E0 & Hwf' & _ & Hor & _). rewrite E in E0. injection E0 as <-.
  destruct Hor as [->|(b & [Hnd Hel _ (new & E1 & _ & _ & E4 & E5)] & Hph & Hlc & Hcs)].
  { intros m Hm'. by rewrite decide_True. }
  set (keep := λ p : bytes * nat, p.1 ∈@{gset bytes} list_to_set ns) in *.
  set (zr := zip (physical_nodes (snapshot r)) (load_cells (snapshot r))) in *.
  assert (zip (physical_nodes (snapshot r')) (load_cells (snapshot r'))
    = filter keep zr ++ zip new (seq (length (cells r)) (length new))) as Hz.
  { rewrite Hph, Hlc, E1, E4.
    rewrite <- (zip_filter_fst _ (physical_nodes (snapshot r)) (load_cells (snapshot r)) (wf_cells r Hwf)).
    fold zr. rewrite zip_with_app by (by rewrite !length_fmap). f_equal. apply zip_fst_snd. }
  apply (keeps_loads_intro _ _ (length new)); [done|done|congruence|]. intros n Hn.
  destruct (cell_lookup r' n Hwf' Hn) as (_ & c & _ & _ & _ & _ & Hc & _). exists c. split; [done|].
  rewrite Hz in Hc. apply elem_of_app in Hc as [Hc|Hc].
  - apply list_elem_of_filter in Hc as [_ Hc]. rewrite decide_True; [done|]. by eapply elem_of_zip_l.
  - pose proof (elem_of_zip_l _ _ _ _ Hc) as Hnew. apply elem_of_zip_r, elem_of_seq in Hc.
    rewrite decide_False; [lia|]. intros Hin. rewrite Hph in Hn. pose proof (proj1 (Hel n) Hn) as Hns.
    rewrite E1 in Hnd. apply NoDup_app in Hnd as (_ & Hdis & _). apply (Hdis n); [|done].
    apply list_elem_of_filter. split; [set_solver|done].
Qed.

(** ** Properties *)

(** C16: the ring's invariant.  Whatever sequence of membership changes and load
    updates produced it, the two parallel vectors have one length, the hashes
    are sorted, the physical nodes are distinct and at most 65536, every node
    has its own load cell, and the entries are exactly the virtual nodes of the
    physical nodes, each with its owner.  No operation reads outside a vector;
    the one assertion that can fail is a decrement of a counter at zero. *)
Theorem ring_invariant (r : Ring) :
  reachable r →
  wf r ∧ ∀ o, step o r = Undefined → ∃ n v, o = OpDec n ∧ currentLoad n r = Some v ∧ v <= 0.
Proof.
  intros Hwf%ring_reachable_wf. split; [done|]. intros [n|n|ns|n|n]; simpl; intros E.
  - destruct (addNode_wf n r Hwf) as [[E' _]|(r' & E' & _)]; congruence.
  - destruct (removeNode_wf n r Hwf) as (r' & E' & _). congruence.
  - destruct (decide (size (list_to_set ns : gset bytes) <= K_MAX_PHYSICAL_NODES)%nat) as [Hm|Hm].
    + destruct (setNodes_wf ns r Hwf Hm) as (r' & E' & _). congruence.
    + unfold setNodes in E. cbn zeta in E.
      by destruct (Nat.ltb_spec K_MAX_PHYSICAL_NODES (size (list_to_set ns : gset bytes))); [|lia].
  - destruct (incrementLoad_wf n r Hwf) as (r' & E' & _). by rewrite E' in E.
  - destruct (decrementLoad_wf n r Hwf) as [[_ (v & Hv)]|(r' & E' & _)]; [by exists n, v|by rewrite E' in E].
Qed.

(** C35: [getNode] with its bisection is the clockwise successor.  On a ring with
    nodes it returns the owner of a virtual node whose hash is the least at or
    above the key's hash, or the least of all when every hash is below; on an
    empty ring it returns the empty id. *)
Theorem getNode_clockwise (r : Ring) (key : bytes) :
  reachable r →
  (physical_nodes (snapshot r) = [] → getNode key r = Some []) ∧
  (physical_nodes (snapshot r) ≠ [] →
    ∃ h n, getNode key r = Some n ∧ n ∈ physical_nodes (snapshot r) ∧
      clockwise_first (hashKey key) (all_vnodes (vnodes_per_node r) (physical_nodes (snapshot r))) (h, Some n)).
Proof.
  intros Hwf%ring_reachable_wf. split; [|by apply getNode_first].
  intros E. apply (hashes_empty r Hwf) in E. unfold getNode. by rewrite E.
Qed.

(** C15: the placement depends on the membership alone.  Two rings with the same
    virtual-node count and the same set of nodes, however they got there (added
    one by one, in any order, with removals in between, or set at once), send
    every key to the same owner and the same replicas, as long as no two virtual
    nodes collide under the hash. *)
Theorem placement_from_membership (r r' : Ring) (key : bytes) (k : Z) :
  reachable r → reachable r' → vnodes_per_node r = vnodes_per_node r' →
  (∀ n, n ∈ physical_nodes (snapshot r) ↔ n ∈ physical_nodes (snapshot r')) →
  collision_free (vnodes_per_node r) (physical_nodes (snapshot r)) →
  getNode key r = getNode key r' ∧ getNodes key k r = getNodes key k r'.
Proof.
  intros Hwf%ring_reachable_wf Hwf'%ring_reachable_wf Hvn Hel Hcf. pose proof (owned_unique r r' Hwf Hwf' Hvn Hel Hcf) as Ho.
  assert (hashes (snapshot r) = hashes (snapshot r')) as Hh.
  { rewrite <- (owned_hashes _ (wf_parallel r Hwf)), <- (owned_hashes _ (wf_parallel r' Hwf')). by rewrite Ho. }
  assert (start_index (snapshot r) key = start_index (snapshot r') key) as Hs by (unfold start_index; by rewrite Hh).
  assert (turn (snapshot r) = turn (snapshot r')) as Ht by (unfold turn, owners; by rewrite Ho).
  destruct (decide (physical_nodes (snapshot r) = [])) as [E|E].
  { apply (hashes_empty r Hwf) in E. unfold getNode, getNodes. rewrite <- Hh, E. done. }
  assert (physical_nodes (snapshot r') ≠ []) as E' by (rewrite <- (hashes_empty r' Hwf'), <- Hh; by rewrite hashes_empty).
  split; [by rewrite !getNode_head, Hs, Ht by done|].
  destruct (decide (0 < k <= K_MAX_REPLICAS)) as [Hk|Hk]; [by rewrite !getNodes_eq, Hs, Ht by done|].
  unfold getNodes. replace ((k <=? 0) || (K_MAX_REPLICAS <? k)) with true; [done|].
  symmetry. apply orb_true_iff. rewrite Z.leb_le, Z.ltb_lt. lia.
Qed.

(** removing a node moves only its own keys: a key owned by another node
    keeps its owner. *)
Theorem removal_moves_only_its_keys (r r' : Ring) (n m key : bytes) :
  reachable r → removeNode n r = Done r' → physical_nodes (snapshot r) ≠ [] →
  getNode key r = Some m → m ≠ n → getNode key r' = Some m.
Proof.
  intros Hwf%ring_reachable_wf E Hne Hg Hmn.
  destruct (removeNode_wf n r Hwf) as (r0 & E0 & Hwf' & _ & Hp & Ho). rewrite E in E0. injection E0 as <-.
  assert (hashes (snapshot r) ≠ []) as Hh by (by rewrite hashes_empty).
  destruct (getNode_first key r Hwf Hne) as (h & m' & Hg' & Hin & _). rewrite Hg in Hg'. injection Hg' as <-.
  assert (hashes (snapshot r') ≠ []) as Hh'.
  { rewrite hashes_empty by done. rewrite Hp. intros Enil.
    assert (m ∈ filter (λ m, m ≠ n) (physical_nodes (snapshot r))) as Hf by (by apply list_elem_of_filter).
    rewrite Enil in Hf. by apply not_elem_of_nil in Hf. }
  rewrite getNode_successor in Hg |- * by done. rewrite Ho.
  destruct (successor (hashKey key) (owned (snapshot r))) as [e|] eqn:Es; [|done]. simpl in Hg.
  by rewrite (successor_filter _ _ _ e) by (done || congruence).
Qed.

(** adding a node moves keys only to it: after the addition every key is
    owned by the new node or by the node that owned it before, as long as no two
    virtual nodes collide under the hash. *)
Theorem addition_moves_only_to_new (r r' : Ring) (n key : bytes) :
  reachable r → addNode n r = Done r' → physical_nodes (snapshot r) ≠ [] → n ∉ physical_nodes (snapshot r) →
  collision_free (vnodes_per_node r) (n :: physical_nodes (snapshot r)) →
  getNode key r' = Some n ∨ getNode key r' = getNode key r.
Proof.
  intros Hwf%ring_reachable_wf E Hne Hn Hcf.
  destruct (addNode_wf n r Hwf) as [[E0 _]|(r0 & E0 & Hwf' & Hvn & Hp)]; rewrite E in E0; [done|]. injection E0 as <-.
  rewrite decide_False in Hp by done.
  destruct (getNode_first key r Hwf Hne) as (h & m & Hg & Hm & Hc).
  destruct (getNode_first key r' Hwf') as (h' & m' & Hg' & Hm' & Hc'); [rewrite Hp; by destruct (physical_nodes (snapshot r))|].
  rewrite Hg, Hg'. rewrite Hp in Hm'. apply elem_of_app in Hm' as [Hm'| ->%list_elem_of_singleton]; [right|by left].
  rewrite Hvn, Hp, all_vnodes_app in Hc'. unfold collision_free in Hcf. cbn [all_vnodes mbind list_bind] in Hcf.
  assert (clockwise_first (hashKey key) (all_vnodes (vnodes_per_node r) (physical_nodes (snapshot r))) (h', Some m')) as Hc0.
  { destruct Hc' as [Hin Hor]. split.
    - apply elem_of_app in Hin as [|Hin]; [done|]. apply list_elem_of_bind in Hin as (x & Hx%elem_of_vnodes & Hs).
      apply list_elem_of_singleton in Hs as ->. injection Hx as ->. done.
    - destruct Hor as [[H1 H2]|H2]; [left; split; [done|]|right]; intros e He; [intros|]; apply H2; set_solver. }
  assert (NoDup (all_vnodes (vnodes_per_node r) (physical_nodes (snapshot r))).*1) as Hnd.
  { rewrite fmap_app in Hcf. by apply NoDup_app in Hcf as (_ & _ & ?). }
  pose proof (clockwise_unique _ _ _ _ Hnd Hc Hc0) as Heq. by injection Heq as _ ->.
Qed.

(** C34: replica sets.  For a count between 1 and 32 the walk terminates within
    one turn and returns distinct nodes of the ring, as many as asked for or all
    of them when there are fewer, the first being [getNode]'s; any other count
    throws. *)
Theorem getNodes_replicas (r : Ring) (key : bytes) (k : Z) :
  reachable r → physical_nodes (snapshot r) ≠ [] →
  (0 < k <= K_MAX_REPLICAS →
    ∃ l, getNodes key k r = Done l ∧ NoDup l ∧ (∀ n, n ∈ l → n ∈ physical_nodes (snapshot r)) ∧
      length l = Nat.min (Z.to_nat k) (length (physical_nodes (snapshot r))) ∧ head l = getNode key r) ∧
  (¬ 0 < k <= K_MAX_REPLICAS → getNodes key k r = Throw invalid_argument).
Proof.
  intros Hwf%ring_reachable_wf Hne. split; [by apply getNodes_plan|].
  intros Hk. unfold getNodes. replace ((k <=? 0) || (K_MAX_REPLICAS <? k)) with true; [done|].
  symmetry. apply orb_true_iff. rewrite Z.leb_le, Z.ltb_lt. lia.
Qed.

(** [setNodes] makes the membership exactly the supplied ids, repeats
    ignored, and refuses more than 65536 distinct ids; its internal consistency
    check and the storage check never fire. *)
Theorem setNodes_exact (r : Ring) (ids : list bytes) :
  reachable r →
  if decide (size (list_to_set ids : gset bytes) <= K_MAX_PHYSICAL_NODES)%nat
  then ∃ r', setNodes ids r = Done r' ∧ ∀ n, n ∈ physical_nodes (snapshot r') ↔ n ∈ ids
  else setNodes ids r = Throw length_error.
Proof.
  intros Hwf%ring_reachable_wf. case_decide as Hm.
  - destruct (setNodes_wf ids r Hwf Hm) as (r' & E & _ & _ & _ & Hel). by exists r'.
  - unfold setNodes. cbn zeta. by destruct (Nat.ltb_spec K_MAX_PHYSICAL_NODES (size (list_to_set ids : gset bytes))); [|lia].
Qed.

(** in-flight counters survive membership changes: after any of the three
    mutators every node that stays keeps its load and every new one starts at
    zero. *)
Theorem loads_survive_membership (r r' : Ring) (o : op) :
  reachable r → step o r = Done r' →
  match o with OpInc _ | OpDec _ => True | _ => keeps_loads r r' end.
Proof.
  intros Hwf%ring_reachable_wf. destruct o; simpl; try done; [apply addNode_loads|apply removeNode_loads|apply setNodes_loads]; done.
Qed.

(** bounded load.  With a positive factor, on a ring of two nodes or more,
    and for a maximum load [m] computed from the average, the walk returns the
    first node clockwise of the key whose load is below [m], and the plain owner
    when every node's load has reached [m].  So a node whose load equals [m] is
    already passed over. *)
Theorem getNodeBounded_first_below (r : Ring) (key : bytes) (ls : list Z) (m : Z) :
  reachable r → SFleb (bounded_load_factor r) (S754_zero false) = false →
  (2 <= length (physical_nodes (snapshot r)))%nat →
  loads (snapshot r) (cells r) = Some ls →
  ceil_u64 (avg_times (bounded_load_factor r) (sum64 ls) (length (physical_nodes (snapshot r)))) = Some m →
  let order := turn (snapshot r) (start_index (snapshot r) key) in
  let load_of n v := ∃ p, physical_nodes (snapshot r) !! p = Some n ∧ ls !! p = Some v in
  (∃ n pre post, order = pre ++ n :: post ∧ (∀ x, x ∈ pre → ∃ v, load_of x v ∧ m <= v) ∧
     (∃ v, load_of n v ∧ v < m) ∧ getNodeBounded key r = Some n) ∨
  ((∀ x, x ∈ physical_nodes (snapshot r) → ∃ v, load_of x v ∧ m <= v) ∧ getNodeBounded key r = getNode key r).
Proof.
  intros Hwf%ring_reachable_wf Hf Hn Hls Hm. cbn zeta.
  assert (physical_nodes (snapshot r) ≠ []) as Hne by (by destruct (physical_nodes (snapshot r)); [simpl in Hn; lia|]).
  assert (hashes (snapshot r) ≠ []) as Hh by (by rewrite hashes_empty).
  destruct (start_index_successor r key Hwf Hh) as [Hlt _]. set (i := start_index (snapshot r) key) in *.
  assert (length ls = length (physical_nodes (snapshot r))) as Hlen.
  { rewrite <- (wf_cells r Hwf). unfold loads in Hls. by apply length_mapM in Hls. }
  assert (getNodeBounded key r = bounded_loop (length (hashes (snapshot r))) (snapshot r) ls m i i) as ->.
  { unfold getNodeBounded. rewrite Hf. fold i. destruct (Nat.eqb_spec (length (physical_nodes (snapshot r))) 0); [lia|].
    destruct (Nat.eqb_spec (length (physical_nodes (snapshot r))) 1); [lia|].
    rewrite Hls. cbn [mbind option_bind]. rewrite Hm. by destruct (hashes (snapshot r)). }
  assert (getNode key r = node_at (snapshot r) i) as -> by (unfold getNode; fold i; by destruct (hashes (snapshot r))).
  pose proof (bounded_loop_spec r ls m i (length (hashes (snapshot r))) 0 Hwf Hlen Hlt ltac:(lia) ltac:(lia)) as Hl.
  cbn zeta in Hl. rewrite drop_0, Nat.add_0_r, Nat.mod_small in Hl by lia.
  destruct Hl as [(n & pre & post & -> & Hpre & (p & v & Hp & Hv & Hlt') & ->)|[Hall ->]]; [left|right].
  - exists n, pre, post. split_and!; [done| |exists v; eauto|done].
    intros x Hx. rewrite Forall_forall in Hpre. destruct (Hpre x Hx) as (q & w & ? & ? & ?). exists w. eauto.
  - split; [|done]. intros x Hx. rewrite Forall_forall in Hall. rewrite <- (uniq_turn r i Hwf) in Hx.
    apply elem_of_uniq in Hx as [Hx _]. destruct (Hall x Hx) as (q & w & ? & ? & ?). exists w. eauto.
Qed.
End ring.

(** ** Concrete rings *)

(** A stable sort satisfies the laws. *)
Definition by_key {A} (f : A → Z) (x y : A) : Prop := f x <= f y.

#[global] Instance by_key_dec {A} (f : A → Z) : RelDecision (by_key f).
Proof. intros x y. unfold by_key. apply _. Defined.

#[global] Instance by_key_total {A} (f : A → Z) : Total (by_key f).
Proof. intros x y. unfold by_key. lia. Qed.

Lemma sorted_by_key {A} (f : A → Z) (l : list A) : Sorted (by_key f) l → Sorted Z.le (f <$> l).
Proof.
  induction 1 as [|x l Hs IH Hhd]; [constructor|]. rewrite fmap_cons. constructor; [done|].
  destruct Hhd; constructor. done.
Qed.

#[global] Instance merge_sorter : Sorter := {|
  sort_by A f := merge_sort (by_key f);
  sort_by_perm A f := merge_sort_Permutation (by_key f);
  sort_by_sorted A f l := sorted_by_key f _ (Sorted_merge_sort (by_key f) l) |}.

(** A toy hash: base 131 over the bytes, at 64 bits. *)
Definition toy_hash (b : bytes) : Z := foldl (λ h x, u64 (h * 131 + Z_of_byte x)) 7 b.

Definition unwrap {A} (d : A) (o : Outcome A) : A := match o with Done a => a | _ => d end.

Definition ring0 : Ring := mkRing 3 (S754_finite false 5629499534213120 (-52)) (mkSnap [] [] [] []) [].
Definition ring1 : Ring := unwrap ring0 (addNode toy_hash (lit "a") ring0).
Definition ring2 : Ring := unwrap ring0 (addNode toy_hash (lit "b") ring1).
Definition ring2' : Ring := unwrap ring0 (setNodes toy_hash [lit "b"; lit "a"; lit "b"] ring0).
Definition ring3 : Ring := unwrap ring0 (addNode toy_hash (lit "c") ring2).

Lemma ring0_reachable : reachable toy_hash ring0.
Proof. apply (reach_make toy_hash 3 (S754_finite false 5629499534213120 (-52))); [lia|reflexivity]. Qed.
Lemma ring1_reachable : reachable toy_hash ring1.
Proof. apply (reach_op toy_hash (OpAdd (lit "a")) ring0); [exact ring0_reachable|by vm_compute]. Qed.
Lemma ring2_reachable : reachable toy_hash ring2.
Proof. apply (reach_op toy_hash (OpAdd (lit "b")) ring1); [exact ring1_reachable|by vm_compute]. Qed.
Lemma ring2'_reachable : reachable toy_hash ring2'.
Proof. apply (reach_op toy_hash (OpSet [lit "b"; lit "a"; lit "b"]) ring0); [exact ring0_reachable|by vm_compute]. Qed.

Lemma ring_invariant_witness : hashes (snapshot ring2) ≠ [] ∧ wf toy_hash ring2.
Proof. split; [by vm_compute|]. apply (ring_invariant toy_hash ring2 ring2_reachable). Defined.

Lemma ring2_nodes : physical_nodes (snapshot ring2) = [lit "a"; lit "b"].
Proof. by vm_compute. Qed.
Lemma ring2'_nodes : physical_nodes (snapshot ring2') = [lit "b"; lit "a"].
Proof. by vm_compute. Qed.

Lemma getNode_clockwise_witness :
  ∃ h n, getNode toy_hash (lit "k") ring2 = Some n ∧ n ∈ physical_nodes (snapshot ring2) ∧
    clockwise_first (hashKey toy_hash (lit "k")) (all_vnodes toy_hash (vnodes_per_node ring2) (physical_nodes (snapshot ring2))) (h, Some n).
Proof. apply (getNode_clockwise toy_hash ring2 (lit "k") ring2_reachable). by rewrite ring2_nodes. Defined.

Lemma placement_from_membership_witness :
  getNode toy_hash (lit "k") ring2 = getNode toy_hash (lit "k") ring2' ∧
  getNodes toy_hash (lit "k") 2 ring2 = getNodes toy_hash (lit "k") 2 ring2'.
Proof.
  apply (placement_from_membership toy_hash ring2 ring2' (lit "k") 2 ring2_reachable ring2'_reachable).
  - by vm_compute.
  - intros n. rewrite ring2_nodes, ring2'_nodes. set_solver.
  - apply (bool_decide_unpack _). by vm_compute.
Defined.

Lemma removal_moves_only_its_keys_witness :
  getNode toy_hash (lit "k") (unwrap ring0 (removeNode (lit "b") ring2)) = Some (lit "a").
Proof.
  apply (removal_moves_only_its_keys toy_hash ring2 _ (lit "b") (lit "a") (lit "k") ring2_reachable); by vm_compute.
Defined.

Lemma addition_moves_only_to_new_witness :
  getNode toy_hash (lit "k") ring3 = Some (lit "c") ∨ getNode toy_hash (lit "k") ring3 = getNode toy_hash (lit "k") ring2.
Proof.
  apply (addition_moves_only_to_new toy_hash ring2 ring3 (lit "c") (lit "k") ring2_reachable).
  - by vm_compute.
  - by rewrite ring2_nodes.
  - apply (bool_decide_unpack _). by vm_compute.
  - apply (bool_decide_unpack _). by vm_compute.
Defined.

Lemma getNodes_replicas_witness :
  ∃ l, getNodes toy_hash (lit "k") 3 ring2 = Done l ∧ length l = 2%nat.
Proof.
  destruct (getNodes_replicas toy_hash ring2 (lit "k") 3 ring2_reachable ltac:(by rewrite ring2_nodes)) as [Hok _].
  destruct (Hok ltac:(by vm_compute)) as (l & El & _ & _ & Hlen & _). exists l.
  rewrite ring2_nodes in Hlen. by split.
Defined.

Lemma setNodes_exact_witness :
  if decide (size (list_to_set [lit "x"; lit "y"; lit "x"] : gset bytes) <= K_MAX_PHYSICAL_NODES)%nat
  then ∃ r', setNodes toy_hash [lit "x"; lit "y"; lit "x"] ring2 = Done r' ∧
    ∀ n, n ∈ physical_nodes (snapshot r') ↔ n ∈ [lit "x"; lit "y"; lit "x"]
  else setNodes toy_hash [lit "x"; lit "y"; lit "x"] ring2 = Throw length_error.
Proof. exact (setNodes_exact toy_hash ring2 [lit "x"; lit "y"; lit "x"] ring2_reachable). Defined.

Definition ring4 : Ring := default ring0 (incrementLoad (lit "a") ring2).

Lemma ring4_reachable : reachable toy_hash ring4.
Proof. apply (reach_op toy_hash (OpInc (lit "a")) ring2); [exact ring2_reachable|by vm_compute]. Qed.

Definition ring5 : Ring := unwrap ring0 (removeNode (lit "b") ring4).

Lemma loads_survive_membership_witness : currentLoad (lit "a") ring4 = Some 1 ∧ keeps_loads ring4 ring5.
Proof.
  split; [by vm_compute|].
  exact (loads_survive_membership toy_hash ring4 ring5 (OpRemove (lit "b")) ring4_reachable
    ltac:(vm_compute; reflexivity)).
Defined.

(** With loads 1 and 0 and a factor of 1.25 the maximum is 1: the owner "a"
    has reached it and the key spills to "b". *)
Lemma getNodeBounded_first_below_witness :
  getNode toy_hash (lit "k") ring4 = Some (lit "a") ∧ getNodeBounded toy_hash (lit "k") ring4 = Some (lit "b") ∧
  ∃ n, getNodeBounded toy_hash (lit "k") ring4 = Some n.
Proof.
  split; [by vm_compute|]. split; [by vm_compute|].
  destruct (getNodeBounded_first_below toy_hash ring4 (lit "k") [1; 0] 1 ring4_reachable)
    as [(n & _ & _ & _ & _ & _ & E)|[_ E]]; [by vm_compute|apply Nat.leb_le; by vm_compute|by vm_compute|by vm_compute| |].
  - by exists n.
  - exists (lit "a"). rewrite E. by vm_compute.
Defined.
