(* ===== verification/WheelHeap.v ===== *)
(** * The wheel's min-heap (include/cinder/store/ttl_wheel.hpp, heap part)

    Long timers sit in a binary heap ordered by tick.  Every node knows its
    position ([WheelNode::heap_index]), so an entry can be removed from the
    middle; [hidx] is that field of the nodes that are in the heap, the others
    having [K_NOT_IN_HEAP].  Nodes are named by numbers.  A step is [None] when
    it would read outside the vector. *)

From S2P Require Import Prelude.

Record Heap := mkHeap {
  heap : list (Z * nat);     (* HeapEntry: absolute_tick, node *)
  hidx : gmap nat nat }.

Definition emptyHeap : Heap := mkHeap [] ∅.

Definition earlier (lhs rhs : nat) (h : Heap) : option bool :=
  a ← heap h !! lhs;
  b ← heap h !! rhs;
  Some (a.1 <? b.1)%Z.

Definition swapHeap (lhs rhs : nat) (h : Heap) : option Heap :=
  a ← heap h !! lhs;
  b ← heap h !! rhs;
  Some (mkHeap (<[lhs := b]> (<[rhs := a]> (heap h))) (<[a.2 := rhs]> (<[b.2 := lhs]> (hidx h)))).

(** The index at least halves: [index + 1] rounds are enough. *)
Fixpoint siftUp_loop (fuel index : nat) (h : Heap) : option Heap :=
  match fuel with
  | O => Some h
  | S fuel =>
      if index =? 0 then Some h
      else
        let parent := (index - 1) / 2 in
        e ← earlier index parent h;
        if (e : bool) then h ← swapHeap index parent h; siftUp_loop fuel parent h
        else Some h
  end.

Definition siftUp (index : nat) (h : Heap) : option Heap := siftUp_loop (S index) index h.

(** The index grows at every round: as many rounds as entries are enough. *)
Fixpoint siftDown_loop (fuel index : nat) (h : Heap) : option Heap :=
  match fuel with
  | O => Some h
  | S fuel =>
      let left := index * 2 + 1 in
      if length (heap h) <=? left then Some h
      else
        let right := left + 1 in
        first ← (if right <? length (heap h) then e ← earlier right left h; Some (if (e : bool) then right else left)
                 else Some left);
        e ← earlier first index h;
        if (e : bool) then h ← swapHeap index first h; siftDown_loop fuel first h
        else Some h
  end.

Definition siftDown (index : nat) (h : Heap) : option Heap := siftDown_loop (length (heap h)) index h.

Definition removeHeapAt (index : nat) (h : Heap) : option Heap :=
  let last := length (heap h) - 1 in
  removed ← heap h !! index;
  h ← (if index =? last then Some h
       else l ← heap h !! last;
            Some (mkHeap (<[index := l]> (heap h)) (<[l.2 := index]> (hidx h))));
  let h := mkHeap (take last (heap h)) (delete removed.2 (hidx h)) in
  if index <? length (heap h) then
    up ← (if 0 <? index then earlier index ((index - 1) / 2) h else Some false);
    if (up : bool) then siftUp index h else siftDown index h
  else Some h.

(** [heap_.push_back] and the sift, as [insert] does for a long timer. *)
Definition pushHeap (tick : Z) (node : nat) (h : Heap) : option Heap :=
  let index := length (heap h) in
  siftUp index (mkHeap (heap h ++ [(tick, node)]) (<[node := index]> (hidx h))).

(** ** Invariants *)

(** Every position knows its node's index and conversely. *)
Definition indexed (h : Heap) : Prop := ∀ n i, hidx h !! n = Some i ↔ ∃ t, heap h !! i = Some (t, n).

(** [i]'s entry is not before its parent's. *)
Definition above (l : list (Z * nat)) (i : nat) : Prop :=
  ∀ x p, i ≠ 0 → l !! i = Some x → l !! ((i - 1) / 2) = Some p → (p.1 <= x.1)%Z.

Definition ordered (l : list (Z * nat)) : Prop := ∀ i, above l i.

(** The children of [j] are not before [j]'s parent. *)
Definition grands (l : list (Z * nat)) (j : nat) : Prop :=
  ∀ c x p, c ≠ 0 → j ≠ 0 → (c - 1) / 2 = j → l !! c = Some x → l !! ((j - 1) / 2) = Some p → (p.1 <= x.1)%Z.

(** Ordered but for the pair above [j], and but for the pairs below [j]. *)
Definition loose_up (l : list (Z * nat)) (j : nat) : Prop := (∀ i, i ≠ j → above l i) ∧ grands l j.
Definition loose_down (l : list (Z * nat)) (j : nat) : Prop :=
  (∀ i, i = 0 ∨ (i - 1) / 2 ≠ j → above l i) ∧ grands l j.

Record heap_wf (h : Heap) : Prop := mkHeapWf { hw_indexed : indexed h; hw_ordered : ordered (heap h) }.

(** ** Swapping *)

Definition flip_at (l r k : nat) : nat := if decide (k = l) then r else if decide (k = r) then l else k.

Lemma flip_at_inj l r : Inj (=) (=) (flip_at l r).
Proof. intros a b. unfold flip_at. repeat case_decide; lia. Qed.

Lemma swap_lookup (l : list (Z * nat)) i j a b k :
  l !! i = Some a → l !! j = Some b → <[i := b]> (<[j := a]> l) !! k = l !! flip_at i j k.
Proof.
  intros Hi Hj. pose proof (lookup_lt_Some _ _ _ Hi). pose proof (lookup_lt_Some _ _ _ Hj). unfold flip_at.
  repeat case_decide; subst.
  - rewrite list_lookup_insert_eq; [done|by rewrite length_insert].
  - rewrite list_lookup_insert_ne, list_lookup_insert_eq by done. done.
  - by rewrite !list_lookup_insert_ne.
Qed.

Lemma swap_perm (l : list (Z * nat)) i j a b :
  l !! i = Some a → l !! j = Some b → <[i := b]> (<[j := a]> l) ≡ₚ l.
Proof.
  intros Hi Hj. apply Permutation_inj. split; [by rewrite !length_insert|].
  exists (flip_at i j). split; [apply flip_at_inj|]. intros k. by apply swap_lookup.
Qed.

Lemma swapHeap_spec i j h a b :
  heap h !! i = Some a → heap h !! j = Some b → i ≠ j → indexed h →
  ∃ h', swapHeap i j h = Some h' ∧ heap h' ≡ₚ heap h ∧ indexed h' ∧
    ∀ k, heap h' !! k = heap h !! flip_at i j k.
Proof.
  intros Hi Hj Hne Hx. unfold swapHeap. rewrite Hi. simpl. rewrite Hj. simpl. eexists. split; [done|].
  simpl. split; [by apply swap_perm|].
  assert (∀ k, <[i := b]> (<[j := a]> (heap h)) !! k = heap h !! flip_at i j k) as Hl by (intros; by apply swap_lookup).
  split; [|done]. intros n k. simpl. rewrite Hl, <- (Hx n (flip_at i j k)). destruct a as [ta na], b as [tb nb]; simpl.
  assert (hidx h !! na = Some i) as Ea by (apply Hx; eauto).
  assert (hidx h !! nb = Some j) as Eb by (apply Hx; eauto).
  assert (hidx h !! n = Some i → n = na) as Hna.
  { intros [t Ht]%Hx. congruence. }
  assert (hidx h !! n = Some j → n = nb) as Hnb.
  { intros [t Ht]%Hx. congruence. }
  rewrite !lookup_insert. unfold flip_at. repeat case_decide; subst; naive_solver.
Qed.

(** ** Sifting *)

Lemma parent_lt i : i ≠ 0 → (i - 1) / 2 < i.
Proof. intros Hi. apply Nat.Div0.div_lt_upper_bound. lia. Qed.

Lemma parent_children i c : c ≠ 0 → (c - 1) / 2 = i ↔ c = 2 * i + 1 ∨ c = 2 * i + 2.
Proof.
  intros Hc. pose proof (Nat.div_mod_eq (c - 1) 2). pose proof (Nat.mod_upper_bound (c - 1) 2). lia.
Qed.

Lemma earlier_spec i j h a b :
  heap h !! i = Some a → heap h !! j = Some b → earlier i j h = Some (a.1 <? b.1)%Z.
Proof. intros Hi Hj. unfold earlier. rewrite Hi. simpl. by rewrite Hj. Qed.

(** Both sifts keep the entries and the index, and restore the order. *)
Definition sifted (h h' : Heap) : Prop := heap h' ≡ₚ heap h ∧ indexed h' ∧ ordered (heap h').

Lemma loose_up_swap l l' j a p :
  j ≠ 0 → l !! j = Some a → l !! ((j - 1) / 2) = Some p → (a.1 < p.1)%Z → loose_up l j →
  (∀ k, l' !! k = l !! flip_at j ((j - 1) / 2) k) → loose_up l' ((j - 1) / 2).
Proof.
  intros Hj Ha Hp Hlt [Hab Hg] Hl. set (q := (j - 1) / 2) in *. pose proof (parent_lt j Hj) as Hq. fold q in Hq.
  assert (∀ k x, l' !! k = Some x → k ≠ j → k ≠ q → l !! k = Some x) as Hother.
  { intros k x. rewrite Hl. unfold flip_at. by repeat case_decide. }
  assert (l' !! j = Some p) as Ej by (rewrite Hl; unfold flip_at; by rewrite decide_True).
  assert (l' !! q = Some a) as Eq.
  { rewrite Hl. unfold flip_at. rewrite decide_False by lia. by rewrite decide_True. }
  split.
  - intros i Hi x y Hi0 Hx Hy. destruct (decide (i = j)) as [->|Hij].
    { fold q in Hy. rewrite Ej in Hx. rewrite Eq in Hy. simplify_eq. lia. }
    pose proof (Hother i x Hx Hij Hi) as Hx'. destruct (decide ((i - 1) / 2 = q)) as [E|E].
    + rewrite E, Eq in Hy. injection Hy as <-. assert (p.1 <= x.1)%Z; [|lia]. apply (Hab i Hij x p Hi0 Hx'). by rewrite E.
    + destruct (decide ((i - 1) / 2 = j)) as [E'|E'].
      * rewrite E', Ej in Hy. injection Hy as <-. apply (Hg i x p Hi0 Hj E' Hx'). done.
      * apply (Hab i Hij x y Hi0 Hx'). by apply Hother.
  - intros c x y Hc Hq0 Hcp Hx Hy. pose proof (parent_lt q Hq0) as Hqq.
    assert (l !! ((q - 1) / 2) = Some y) as Hy' by (apply Hother; [done|lia|lia]).
    assert (y.1 <= p.1)%Z as Hyp by (apply (Hab q ltac:(lia) p y Hq0); done).
    destruct (decide (c = j)) as [->|Hcj]; [rewrite Ej in Hx; simplify_eq; done|].
    assert (c ≠ q) as Hcq by (intros ->; pose proof (parent_lt q Hq0); lia).
    pose proof (Hother c x Hx Hcj Hcq) as Hx'. assert (p.1 <= x.1)%Z; [|lia].
    apply (Hab c Hcj x p Hc Hx'). by rewrite Hcp.
Qed.

Lemma siftUp_loop_spec fuel j h :
  indexed h → j < fuel → j < length (heap h) → loose_up (heap h) j →
  ∃ h', siftUp_loop fuel j h = Some h' ∧ sifted h h'.
Proof.
  revert j h. induction fuel as [|fuel IH]; intros j h Hx Hf Hj Hl; [lia|]. cbn [siftUp_loop].
  destruct (Nat.eqb_spec j 0) as [->|Hj0].
  { exists h. split; [done|]. split_and!; try done. intros i. destruct (decide (i = 0)) as [->|]; [by intros x p|by apply Hl]. }
  pose proof (parent_lt j Hj0) as Hq. destruct (lookup_lt_is_Some_2 (heap h) j Hj) as [a Ha].
  destruct (lookup_lt_is_Some_2 (heap h) ((j - 1) / 2)) as [p Hp]; [lia|].
  cbn zeta. rewrite (earlier_spec _ _ _ _ _ Ha Hp). cbn [mbind option_bind].
  destruct (Z.ltb_spec a.1 p.1) as [Hlt|Hge].
  - destruct (swapHeap_spec j ((j - 1) / 2) h a p Ha Hp ltac:(lia) Hx) as (h1 & -> & Hp1 & Hx1 & Hl1). cbn [mbind option_bind].
    destruct (IH ((j - 1) / 2) h1 Hx1) as (h' & E & Hp2 & Hx2 & Ho); [lia|rewrite Hp1; lia|by eapply loose_up_swap|].
    exists h'. split; [done|]. split_and!; [by rewrite Hp2|done|done].
  - exists h. split; [done|]. split_and!; try done. intros i. destruct (decide (i = j)) as [->|]; [|by apply Hl].
    intros x y _ Hx' Hy. simplify_eq. lia.
Qed.

(** [f] is a child of [j] no later than the other child. *)
Definition first_child (l : list (Z * nat)) (j f : nat) (b : Z * nat) : Prop :=
  (f = 2 * j + 1 ∨ f = 2 * j + 2) ∧ l !! f = Some b ∧
  ∀ c x, c ≠ 0 → (c - 1) / 2 = j → l !! c = Some x → (b.1 <= x.1)%Z.

Lemma loose_down_swap l l' j f a b :
  l !! j = Some a → first_child l j f b → (b.1 < a.1)%Z → loose_down l j →
  (∀ k, l' !! k = l !! flip_at j f k) → loose_down l' f.
Proof.
  intros Ha (Hf & Hb & Hmin) Hlt [Hab Hg] Hl.
  assert (∀ k x, l' !! k = Some x → k ≠ j → k ≠ f → l !! k = Some x) as Hother.
  { intros k x. rewrite Hl. unfold flip_at. by repeat case_decide. }
  assert (l' !! j = Some b) as Ej by (rewrite Hl; unfold flip_at; by rewrite decide_True).
  assert (l' !! f = Some a) as Ef.
  { rewrite Hl. unfold flip_at. rewrite decide_False by lia. by rewrite decide_True. }
  assert ((f - 1) / 2 = j) as Hfj by (apply parent_children; lia).
  split.
  - intros i Hi x y Hi0 Hx Hy. destruct (decide (i = f)) as [->|Hif].
    { rewrite Hfj, Ej in Hy. rewrite Ef in Hx. injection Hx as <-. injection Hy as <-. lia. }
    destruct (decide (i = j)) as [->|Hij].
    { rewrite Ej in Hx. injection Hx as <-. pose proof (parent_lt j Hi0).
      apply (Hg f b y ltac:(lia) Hi0 Hfj Hb). by apply Hother; [|lia|lia]. }
    pose proof (Hother i x Hx Hij Hif) as Hx'. destruct (decide ((i - 1) / 2 = j)) as [E|E].
    + rewrite E, Ej in Hy. injection Hy as <-. by apply (Hmin i x Hi0 E).
    + apply (Hab i ltac:(by right) x y Hi0 Hx'). apply Hother; [done|done|]. by destruct Hi.
  - intros c x y Hc Hf0 Hcp Hx Hy. rewrite Hfj, Ej in Hy. injection Hy as <-.
    pose proof (proj1 (parent_children f c Hc) Hcp) as Hcc.
    assert (l !! c = Some x) as Hx' by (apply Hother; [done|lia|lia]).
    apply (Hab c ltac:(right; lia) x b Hc Hx'). by rewrite Hcp.
Qed.

Lemma loose_down_leaf l j : length l <= j * 2 + 1 → loose_down l j → ordered l.
Proof.
  intros Hlen [Hab _] i x p Hi Hx Hp. apply (Hab i); [|done..]. right. intros E.
  apply (parent_children j i Hi) in E. apply lookup_lt_Some in Hx. lia.
Qed.

Lemma loose_down_done l j f a b :
  l !! j = Some a → first_child l j f b → (a.1 <= b.1)%Z → loose_down l j → ordered l.
Proof.
  intros Ha (_ & _ & Hmin) Hle [Hab _] i x p Hi Hx Hp. destruct (decide ((i - 1) / 2 = j)) as [E|E].
  - rewrite E, Ha in Hp. injection Hp as <-. pose proof (Hmin i x Hi E Hx). lia.
  - apply (Hab i ltac:(by right) x p Hi Hx Hp).
Qed.

(** The choice between the two children. *)
Lemma choose_child h j :
  j * 2 + 1 < length (heap h) →
  ∃ f b, (if j * 2 + 1 + 1 <? length (heap h)
          then e ← earlier (j * 2 + 1 + 1) (j * 2 + 1) h; Some (if (e : bool) then j * 2 + 1 + 1 else j * 2 + 1)
          else Some (j * 2 + 1)) = Some f ∧ first_child (heap h) j f b.
Proof.
  intros Hl. destruct (lookup_lt_is_Some_2 (heap h) (j * 2 + 1) Hl) as [x Hx].
  assert (∀ c, c ≠ 0 → (c - 1) / 2 = j → c = j * 2 + 1 ∨ c = j * 2 + 1 + 1) as Hch.
  { intros c Hc E. apply (parent_children j c Hc) in E. lia. }
  destruct (Nat.ltb_spec (j * 2 + 1 + 1) (length (heap h))) as [Hr|Hr].
  - destruct (lookup_lt_is_Some_2 (heap h) (j * 2 + 1 + 1) Hr) as [y Hy].
    rewrite (earlier_spec _ _ _ _ _ Hy Hx). cbn [mbind option_bind]. destruct (Z.ltb_spec y.1 x.1).
    + exists (j * 2 + 1 + 1), y. split; [done|]. split; [lia|]. split; [done|].
      intros c z Hc E Hz. destruct (Hch c Hc E) as [-> | ->]; simplify_eq; lia.
    + exists (j * 2 + 1), x. split; [done|]. split; [lia|]. split; [done|].
      intros c z Hc E Hz. destruct (Hch c Hc E) as [-> | ->]; simplify_eq; lia.
  - exists (j * 2 + 1), x. split; [done|]. split; [lia|]. split; [done|].
    intros c z Hc E Hz. destruct (Hch c Hc E) as [-> | ->]; [simplify_eq; lia|].
    apply lookup_lt_Some in Hz. lia.
Qed.

Lemma siftDown_loop_spec fuel j h :
  indexed h → length (heap h) <= fuel + j → j < length (heap h) → loose_down (heap h) j →
  ∃ h', siftDown_loop fuel j h = Some h' ∧ sifted h h'.
Proof.
  revert j h. induction fuel as [|fuel IH]; intros j h Hx Hf Hj Hl; [lia|]. cbn [siftDown_loop].
  destruct (Nat.leb_spec (length (heap h)) (j * 2 + 1)) as [Hleaf|Hchild].
  { exists h. split; [done|]. split_and!; try done. by eapply loose_down_leaf. }
  destruct (choose_child h j Hchild) as (f & b & -> & Hfc). cbn [mbind option_bind].
  pose proof Hfc as (Hfj & Hb & _). destruct (lookup_lt_is_Some_2 (heap h) j Hj) as [a Ha].
  rewrite (earlier_spec _ _ _ _ _ Hb Ha). cbn [mbind option_bind]. destruct (Z.ltb_spec b.1 a.1).
  - destruct (swapHeap_spec j f h a b Ha Hb ltac:(lia) Hx) as (h1 & -> & Hp1 & Hx1 & Hl1). cbn [mbind option_bind].
    pose proof (lookup_lt_Some _ _ _ Hb). assert (length (heap h1) = length (heap h)) as Hlen by (by rewrite Hp1).
    destruct (IH f h1 Hx1) as (h' & E & Hp2 & Hx2 & Ho); [lia|lia|by eapply loose_down_swap|].
    exists h'. split; [done|]. split_and!; [by rewrite Hp2|done|done].
  - exists h. split; [done|]. split_and!; try done. by eapply (loose_down_done _ j f a b).
Qed.

(** ** The operations *)

Lemma indexed_node h i j t t' n : indexed h → heap h !! i = Some (t, n) → heap h !! j = Some (t', n) → i = j.
Proof.
  intros Hx Hi Hj. assert (hidx h !! n = Some i) as E1 by (apply Hx; eauto).
  assert (hidx h !! n = Some j) as E2 by (apply Hx; eauto). congruence.
Qed.

Lemma pushHeap_spec t n h :
  heap_wf h → hidx h !! n = None →
  ∃ h', pushHeap t n h = Some h' ∧ heap_wf h' ∧ heap h' ≡ₚ (t, n) :: heap h.
Proof.
  intros [Hx Ho] Hn. unfold pushHeap, siftUp.
  edestruct (siftUp_loop_spec (S (length (heap h))) (length (heap h))
    (mkHeap (heap h ++ [(t, n)]) (<[n := length (heap h)]> (hidx h)))) as (h' & E & Hp & Hx' & Ho').
  - intros m i. simpl. rewrite lookup_insert. case_decide as Hm.
    + subst m. split.
      * intros [= <-]. exists t. by rewrite lookup_app_r, Nat.sub_diag by lia.
      * intros [t' Ht]. apply lookup_app_Some in Ht as [Ht|[Hge Ht]].
        -- assert (hidx h !! n = Some i) by (apply Hx; eauto). congruence.
        -- apply list_lookup_singleton_Some in Ht as [Hi _]. f_equal. lia.
    + rewrite (Hx m i). split; intros [t' Ht].
      * exists t'. by apply lookup_app_l_Some.
      * apply lookup_app_Some in Ht as [Ht|[Hge Ht]]; [eauto|].
        apply list_lookup_singleton_Some in Ht as [_ [= _ ?]]. congruence.
  - lia.
  - simpl. rewrite length_app. simpl. lia.
  - simpl. split.
    + intros i Hi x p Hi0 Hx1 Hp1. apply lookup_app_Some in Hx1 as [Hx1|[Hge Hx1]].
      * pose proof (lookup_lt_Some _ _ _ Hx1). pose proof (parent_lt i Hi0).
        rewrite lookup_app_l in Hp1 by lia. by apply (Ho i x p).
      * apply list_lookup_singleton_Some in Hx1 as [Hz _]. lia.
    + intros c x p Hc Hj Hcp Hx1 _. apply lookup_lt_Some in Hx1. rewrite length_app in Hx1. simpl in Hx1.
      apply (parent_children (length (heap h)) c Hc) in Hcp. lia.
  - exists h'. split; [exact E|]. split; [by split|]. rewrite Hp. simpl. by rewrite Permutation_app_comm.
Qed.

Lemma insert_perm {A} (l : list A) i x y : l !! i = Some x → x :: <[i := y]> l ≡ₚ y :: l.
Proof.
  intros Hi. pose proof (lookup_lt_Some _ _ _ Hi). rewrite (insert_take_drop l i y) by done.
  rewrite <- (take_drop_middle l i x Hi) at 3. rewrite <- !Permutation_middle. apply Permutation_swap.
Qed.

(** The entries below a cut vector, and its index. *)
Lemma indexed_cut h l x idx :
  indexed h → heap h = l ++ [x] → idx = delete x.2 (hidx h) → indexed (mkHeap l idx).
Proof.
  intros Hx Hl ->. intros n i; simpl. rewrite lookup_delete.
  assert (∀ t, heap h !! i = Some (t, n) ↔ l !! i = Some (t, n) ∨ (i = length l ∧ x = (t, n))) as Hi.
  { intros t. rewrite Hl. rewrite lookup_app_Some, list_lookup_singleton_Some. naive_solver lia. }
  case_decide as Hn; [|rewrite (Hx n i); setoid_rewrite Hi; split; [|naive_solver]].
  - split; [done|]. intros [t Ht]. exfalso. assert (heap h !! i = Some (t, n)) as Hh by (apply Hi; by left).
    assert (heap h !! length l = Some x) as Hh2 by (rewrite Hl; by rewrite lookup_app_r, Nat.sub_diag by lia).
    destruct x as [tx nx]; simpl in Hn; subst nx. pose proof (indexed_node _ _ _ _ _ _ Hx Hh Hh2) as ->.
    apply lookup_lt_Some in Ht. lia.
  - intros (t & [Ht|[_ ->]]); [by exists t|done].
Qed.

Lemma ordered_cut l x : ordered (l ++ [x]) → ordered l.
Proof.
  intros Ho i y p Hi Hy Hp. apply (Ho i y p Hi); by apply lookup_app_l_Some.
Qed.

(** Overwriting one entry loosens the order only around it. *)
Lemma overwrite_loose l i y :
  ordered l → let l' := <[i := y]> l in
  grands l' i ∧ ∀ k, k ≠ i → k = 0 ∨ (k - 1) / 2 ≠ i → above l' k.
Proof.
  intros Ho l'. assert (∀ k x, l' !! k = Some x → k ≠ i → l !! k = Some x) as Hk.
  { intros k x Hx Hne. unfold l' in Hx. by rewrite list_lookup_insert_ne in Hx. }
  split.
  - intros c x p Hc Hi Hcp Hx Hp. pose proof (parent_lt i Hi). pose proof (proj1 (parent_children i c Hc) Hcp).
    apply Hk in Hx; [|lia]. apply Hk in Hp; [|lia].
    assert (c < length l) by (by eapply lookup_lt_Some). destruct (lookup_lt_is_Some_2 l i) as [z Hz]; [lia|].
    pose proof (Ho i z p Hi Hz Hp). assert (z.1 <= x.1)%Z; [|lia]. apply (Ho c x z Hc Hx). by rewrite Hcp.
  - intros k Hki Hor x p Hk0 Hx Hp. apply (Ho k x p Hk0); apply Hk; try done. by destruct Hor.
Qed.

Lemma resift h i :
  indexed h → i < length (heap h) → grands (heap h) i →
  (∀ k, k ≠ i → k = 0 ∨ (k - 1) / 2 ≠ i → above (heap h) k) →
  ∃ h', (up ← (if 0 <? i then earlier i ((i - 1) / 2) h else Some false);
         if (up : bool) then siftUp i h else siftDown i h) = Some h' ∧ sifted h h'.
Proof.
  intros Hx Hi Hg Hab. destruct (lookup_lt_is_Some_2 (heap h) i Hi) as [a Ha].
  assert (loose_down (heap h) i → ∃ h', siftDown i h = Some h' ∧ sifted h h') as Hdown.
  { intros Hl. apply siftDown_loop_spec; [done|lia|done|done]. }
  destruct (Nat.ltb_spec 0 i) as [Hi0|Hi0]; cbn [mbind option_bind].
  2:{ apply Hdown. split; [|done]. intros k Hk. destruct (decide (k = i)) as [->|]; [intros x p ?; lia|by apply Hab]. }
  pose proof (parent_lt i ltac:(lia)). destruct (lookup_lt_is_Some_2 (heap h) ((i - 1) / 2)) as [p Hp]; [lia|].
  rewrite (earlier_spec _ _ _ _ _ Ha Hp). cbn [mbind option_bind]. destruct (Z.ltb_spec a.1 p.1).
  - apply siftUp_loop_spec; [done|lia|done|]. split; [|done]. intros k Hk x q Hk0 Hx' Hq.
    destruct (decide ((k - 1) / 2 = i)) as [E|E]; [|by apply (Hab k Hk ltac:(by right) x q)].
    rewrite E, Ha in Hq. injection Hq as <-. pose proof (Hg k x p Hk0 ltac:(lia) E Hx' Hp). lia.
  - apply Hdown. split; [|done]. intros k Hk. destruct (decide (k = i)) as [->|]; [|by apply Hab].
    intros x q _ Hx' Hq. simplify_eq. lia.
Qed.

Lemma removeHeapAt_spec i h t n :
  heap_wf h → heap h !! i = Some (t, n) →
  ∃ h', removeHeapAt i h = Some h' ∧ heap_wf h' ∧ heap h ≡ₚ (t, n) :: heap h'.
Proof.
  intros [Hx Ho] Hi. unfold removeHeapAt. rewrite Hi. cbn [mbind option_bind snd].
  pose proof (lookup_lt_Some _ _ _ Hi) as Hlen. set (last := length (heap h) - 1) in *.
  destruct (lookup_lt_is_Some_2 (heap h) last) as [e He]; [lia|].
  assert (heap h = take last (heap h) ++ [e]) as Hsplit.
  { rewrite <- (take_drop_middle _ _ _ He) at 1. by rewrite drop_ge by lia. }
  destruct (Nat.eqb_spec i last) as [Heq|Hne]; cbn [mbind option_bind heap hidx].
  - subst i. rewrite He in Hi. injection Hi as ->.
    destruct (Nat.ltb_spec last (length (take last (heap h)))) as [Hlt|_]; [rewrite length_take in Hlt; lia|].
    eexists. split; [done|]. split; [split|].
    + by eapply indexed_cut.
    + simpl. eapply ordered_cut. by rewrite <- Hsplit.
    + simpl. rewrite Hsplit at 1. by rewrite Permutation_app_comm.
  - rewrite He. cbn [mbind option_bind heap hidx].
    assert (i < last) as Hil by lia. rewrite take_insert_lt by done.
    set (l0 := take last (heap h)) in *. assert (length l0 = last) as Hl0 by (unfold l0; rewrite length_take; lia).
    assert (l0 !! i = Some (t, n)) as Hi0 by (unfold l0; by rewrite lookup_take_lt).
    set (h2 := mkHeap (<[i := e]> l0) (delete n (<[e.2 := i]> (hidx h)))).
    assert (indexed h2) as Hx2.
    { destruct (swapHeap_spec i last h (t, n) e Hi He Hne Hx) as (hs & Es & _ & Hxs & _).
      unfold swapHeap in Es. rewrite Hi in Es. cbn [mbind option_bind] in Es. rewrite He in Es. cbn [mbind option_bind snd] in Es.
      injection Es as <-. eapply (indexed_cut _ _ (t, n) _ Hxs).
      - simpl. rewrite Hsplit at 1. rewrite insert_app_r_alt by lia. rewrite Hl0, Nat.sub_diag. simpl.
        by rewrite insert_app_l by (rewrite Hl0; lia).
      - simpl. by rewrite delete_insert_eq. }
    destruct (overwrite_loose l0 i e) as [Hg Hab]; [eapply ordered_cut; by rewrite <- Hsplit|].
    replace (i <? length (<[i := e]> l0)) with true by (symmetry; apply Nat.ltb_lt; rewrite length_insert; lia).
    destruct (resift h2 i Hx2) as (h' & E & Hp & Hx' & Ho'); [simpl; rewrite length_insert; lia|done|done|].
    exists h'. split; [exact E|]. split; [by split|]. rewrite Hp. simpl.
    rewrite (insert_perm _ _ _ e Hi0), Hsplit. by rewrite Permutation_app_comm.
Qed.

(** The root is a least entry. *)
Lemma root_least l e : ordered l → l !! 0 = Some e → ∀ i x, l !! i = Some x → (e.1 <= x.1)%Z.
Proof.
  intros Ho H0 i. induction (lt_wf i) as [i _ IH]. intros x Hx. destruct (decide (i = 0)) as [->|Hi]; [simplify_eq; lia|].
  pose proof (parent_lt i Hi) as Hp. destruct (lookup_lt_is_Some_2 l ((i - 1) / 2)) as [p Hpp].
  { apply lookup_lt_Some in Hx. lia. }
  pose proof (IH _ Hp p Hpp). pose proof (Ho i x p Hi Hx Hpp). lia.
Qed.

Lemma emptyHeap_wf : heap_wf emptyHeap.
Proof. split; [|intros i x y; done]. intros n i. simpl. rewrite lookup_empty. split; [done|]. by intros []. Qed.
