(* ===== verification/TtlWheel.v ===== *)
(** * The TTL wheel (include/cinder/store/ttl_wheel.hpp)

    Short timers hang in one of 256 slots, long ones in the heap.  A slot is
    the list of its nodes in link order ([WheelLinks] shows that the intrusive
    links implement these lists); [wslot] is the field [wheel_slot], minus one,
    of the nodes that are linked.  The tick counter and the ticks in the heap are
    [size_t]: they wrap around at 64 bits. *)

From S2P Require Import Prelude WheelHeap.
Local Open Scope Z_scope.

Definition K_SLOT_COUNT : nat := 256.

Record Wheel := mkWheel {
  slots : list (list nat);
  wslot : gmap nat nat;
  hp : Heap;
  cursor : nat;
  tick_count : Z }.

Definition emptyWheel : Wheel := mkWheel (replicate K_SLOT_COUNT []) ∅ emptyHeap 0 0.

Definition with_hp (h : Heap) (w : Wheel) : Wheel := mkWheel (slots w) (wslot w) h (cursor w) (tick_count w).

(** Take a node out of its slot, if it is in one. *)
Definition unlink (n : nat) (w : Wheel) : Wheel :=
  match wslot w !! n with
  | None => w
  | Some i =>
      mkWheel (alter (filter (λ m, m ≠ n)) i (slots w)) (delete n (wslot w)) (hp w) (cursor w) (tick_count w)
  end.

(** Hang a node at the end of a slot's list. *)
Definition linkBefore (n slot : nat) (w : Wheel) : Wheel :=
  mkWheel (alter (λ l, l ++ [n]) slot (slots w)) (<[n := slot]> (wslot w)) (hp w) (cursor w) (tick_count w).

Definition remove (n : nat) (w : Wheel) : option Wheel :=
  let w := unlink n w in
  match hidx (hp w) !! n with
  | None => Some w
  | Some i => h ← removeHeapAt i (hp w); Some (with_hp h w)
  end.

Definition insert (n : nat) (ttl_ticks : Z) (w : Wheel) : option Wheel :=
  w ← remove n w;
  if ttl_ticks <=? Z.of_nat K_SLOT_COUNT then
    let slot := ((cursor w + Z.to_nat ttl_ticks) mod K_SLOT_COUNT)%nat in
    Some (linkBefore n slot w)
  else
    h ← pushHeap (u64 (tick_count w + ttl_ticks)) n (hp w);
    Some (with_hp h w).

Definition advance (w : Wheel) : Wheel :=
  mkWheel (slots w) (wslot w) (hp w) ((cursor w + 1) mod K_SLOT_COUNT)%nat (u64 (tick_count w + 1)).

(** The batch of the current slot, and the wheel without it. *)
Definition drain (w : Wheel) : list nat * Wheel :=
  let batch := slots w !!! cursor w in
  (batch, foldl (λ w n, unlink n w) w batch).

(** The due root of the heap, popped. *)
Definition popDue (w : Wheel) : option (option (nat * Wheel)) :=
  match heap (hp w) !! 0%nat with
  | None => Some None
  | Some (t, n) =>
      if t <=? tick_count w then h ← removeHeapAt 0 (hp w); Some (Some (n, with_hp h w))
      else Some None
  end.

(** [tick] with a callback that may change the state the wheel is part of. *)
Section tick.
Context {S : Type} (wheel_of : S → Wheel) (set_wheel : Wheel → S → S) (on_expired : nat → S → option S).

Fixpoint fire_batch (batch : list nat) (s : S) : option S :=
  match batch with
  | [] => Some s
  | n :: batch => s ← on_expired n s; fire_batch batch s
  end.

Definition expireSlot (s : S) : option S :=
  let '(batch, w) := drain (wheel_of s) in
  fire_batch batch (set_wheel w s).

(** Every turn pops an entry that is due, and a callback adds none that is due
    at once: as many turns as the heap has entries are enough. *)
Fixpoint expireHeap_loop (fuel : nat) (s : S) : option S :=
  match fuel with
  | O => Some s
  | Datatypes.S fuel =>
      r ← popDue (wheel_of s);
      match r with
      | None => Some s
      | Some (n, w) => s ← on_expired n (set_wheel w s); expireHeap_loop fuel s
      end
  end.

Definition expireHeap (s : S) : option S := expireHeap_loop (length (heap (hp (wheel_of s)))) s.

Definition tick (s : S) : option S :=
  let s := set_wheel (advance (wheel_of s)) s in
  s ← expireSlot s;
  expireHeap s.
End tick.

(** ** The timers a wheel stands for *)

(** The tick at which a node fires next. *)
Definition due (w : Wheel) (n : nat) : option Z :=
  match wslot w !! n with
  | Some i => Some (tick_count w + 1 + (Z.of_nat i - Z.of_nat (cursor w) - 1) mod 256)
  | None => i ← hidx (hp w) !! n; fst <$> heap (hp w) !! i
  end.

(** [lo] bounds the ticks of the heap from below: the current tick between
    calls, the one before it in the middle of a tick. *)
Record wheel_inv (lo : Z) (w : Wheel) : Prop := mkWheelInv {
  ww_length : length (slots w) = K_SLOT_COUNT;
  ww_cursor : (cursor w < K_SLOT_COUNT)%nat;
  ww_slot : ∀ n i, wslot w !! n = Some i ↔ n ∈ slots w !!! i;
  ww_nodup : ∀ i, NoDup (slots w !!! i);
  ww_heap : heap_wf (hp w);
  ww_disjoint : ∀ n i, wslot w !! n = Some i → hidx (hp w) !! n = None;
  ww_future : ∀ t n, (t, n) ∈ heap (hp w) → lo < t;
  ww_ticks : in_u 64 (tick_count w) }.

Definition wheel_wf (w : Wheel) : Prop := wheel_inv (tick_count w) w.

(** ** Slots *)

Lemma slot_bound lo w n i : wheel_inv lo w → wslot w !! n = Some i → (i < K_SLOT_COUNT)%nat.
Proof.
  intros Hwf Hi%(ww_slot lo w Hwf). destruct (decide (i < length (slots w))%nat) as [Hlt|Hge].
  - by rewrite (ww_length lo w Hwf) in Hlt.
  - rewrite list_lookup_total_alt, lookup_ge_None_2 in Hi by lia. by apply not_elem_of_nil in Hi.
Qed.

Lemma alter_lookup_total {A} (f : list A → list A) (l : list (list A)) i j :
  f [] = [] ∨ (i < length l)%nat → alter f i l !!! j = if decide (j = i) then f (l !!! i) else l !!! j.
Proof.
  intros Hf. rewrite !list_lookup_total_alt. case_decide as Hj.
  - subst. rewrite list_lookup_alter_eq. destruct (l !! i) as [x|] eqn:E; simpl; [done|].
    destruct Hf as [->|Hf]; [done|]. apply lookup_ge_None in E. lia.
  - by rewrite list_lookup_alter_ne by done.
Qed.

(** A wheel whose heap is as given, and whose nodes outside the heap are in slots. *)
Lemma unlink_wf lo n w : wheel_inv lo w → wheel_inv lo (unlink n w) ∧ wslot (unlink n w) !! n = None ∧
  hp (unlink n w) = hp w ∧ cursor (unlink n w) = cursor w ∧ tick_count (unlink n w) = tick_count w ∧
  ∀ m, m ≠ n → wslot (unlink n w) !! m = wslot w !! m.
Proof.
  intros Hwf. unfold unlink. destruct (wslot w !! n) as [i|] eqn:E; [|by rewrite E].
  simpl. split_and!; try done; [|by rewrite lookup_delete_eq|intros; by rewrite lookup_delete_ne].
  destruct Hwf as [H1 H2 H3 H4 H5 H6 H7 H8]. split; simpl; try done.
  - by rewrite length_alter.
  - intros m j. rewrite alter_lookup_total by (by left). rewrite lookup_delete. case_decide as Hm.
    + subst m. split; [done|]. case_decide; [intros [? _]%list_elem_of_filter; done|].
      intros Hj%H3. congruence.
    + rewrite H3. case_decide; subst; [|done]. rewrite list_elem_of_filter. naive_solver.
  - intros j. rewrite alter_lookup_total by (by left). case_decide; [by apply NoDup_filter|done].
  - intros m j. rewrite lookup_delete. case_decide; [done|]. apply H6.
Qed.

Lemma with_hp_wf lo h w :
  wheel_inv lo w → heap_wf h → (∀ n i, wslot w !! n = Some i → hidx h !! n = None) →
  (∀ t n, (t, n) ∈ heap h → lo < t) → wheel_inv lo (with_hp h w).
Proof. intros [] Hh Hd Hf. by split. Qed.

(** The index of a heap is its content. *)
Lemma hidx_due h n : heap_wf h → ∀ t, (i ← hidx h !! n; fst <$> heap h !! i) = Some t ↔ (t, n) ∈ heap h.
Proof.
  intros [Hx _] t. split.
  - destruct (hidx h !! n) as [i|] eqn:E; simpl; [|done]. apply Hx in E as [t' Ht]. rewrite Ht. simpl.
    intros [= <-]. by eapply list_elem_of_lookup_2.
  - intros [i Hi]%list_elem_of_lookup. assert (hidx h !! n = Some i) as -> by (apply Hx; eauto). simpl. by rewrite Hi.
Qed.

Lemma hidx_none h n : heap_wf h → hidx h !! n = None ↔ ∀ t, (t, n) ∉ heap h.
Proof.
  intros Hwf. split.
  - intros E t Ht%(hidx_due h n Hwf). by rewrite E in Ht.
  - intros Hno. destruct (hidx h !! n) as [i|] eqn:E; [|done]. destruct Hwf as [Hx _].
    apply Hx in E as [t Ht]. destruct (Hno t). by eapply list_elem_of_lookup_2.
Qed.

Lemma due_heap lo w n t : wheel_inv lo w → wslot w !! n = None → due w n = Some t ↔ (t, n) ∈ heap (hp w).
Proof. intros Hwf E. unfold due. rewrite E. by apply hidx_due, (ww_heap lo). Qed.

Lemma due_ext lo w w' n :
  wheel_inv lo w → wheel_inv lo w' → wslot w' !! n = wslot w !! n → cursor w' = cursor w → tick_count w' = tick_count w →
  (∀ t, (t, n) ∈ heap (hp w') ↔ (t, n) ∈ heap (hp w)) → due w' n = due w n.
Proof.
  intros Hwf Hwf' Hs Hc Ht Hh. destruct (wslot w !! n) as [i|] eqn:E.
  - unfold due. by rewrite Hs, E, Hc, Ht.
  - apply option_eq. intros t. rewrite !(due_heap lo) by done. apply Hh.
Qed.

Lemma remove_spec lo n w :
  wheel_inv lo w →
  ∃ w', remove n w = Some w' ∧ wheel_inv lo w' ∧ cursor w' = cursor w ∧ tick_count w' = tick_count w ∧
    wslot w' !! n = None ∧ hidx (hp w') !! n = None ∧ (∀ m, m ≠ n → wslot w' !! m = wslot w !! m) ∧
    ∀ m, due w' m = if decide (m = n) then None else due w m.
Proof.
  intros Hwf. unfold remove. destruct (unlink_wf lo n w Hwf) as (Hwf1 & Hn & Hh & Hc & Ht & Hm).
  destruct (hidx (hp (unlink n w)) !! n) as [i|] eqn:Ei.
  - pose proof Ei as [t Hi]%(hw_indexed _ (ww_heap lo _ Hwf1)).
    destruct (removeHeapAt_spec i _ t n (ww_heap lo _ Hwf1) Hi) as (h' & E & Hh' & Hp). rewrite E. cbn [mbind option_bind].
    assert (∀ t' m, (t', m) ∈ heap h' → (t', m) ∈ heap (hp (unlink n w))) as Hsub by (intros; rewrite Hp; by right).
    assert (∀ m, m ≠ n → ∀ t', (t', m) ∈ heap h' ↔ (t', m) ∈ heap (hp (unlink n w))) as Hother.
    { intros m Hne t'. split; [apply Hsub|]. rewrite Hp. intros [[= -> ->]|]%elem_of_cons; done. }
    assert (wheel_inv lo (with_hp h' (unlink n w))) as Hwf2.
    { apply (with_hp_wf lo); [done|done| |].
      - intros m j Hj. apply (hidx_none h' m Hh'). intros t' Ht'%Hsub.
        pose proof (ww_disjoint lo _ Hwf1 m j Hj) as Hno. by apply (hidx_none _ m (ww_heap lo _ Hwf1)) in Ht'.
      - intros t' m Ht'%Hsub. by apply (ww_future lo _ Hwf1 t' m). }
    assert (hidx h' !! n = None) as Hnone.
    { apply (hidx_none h' n Hh'). intros t' Ht'. pose proof (ww_heap lo _ Hwf1) as [Hx _].
      assert (hidx h' !! n ≠ None) as Hsome.
      { intros E'. by apply (proj1 (hidx_none h' n Hh') E' t'). }
      apply list_elem_of_lookup in Ht' as [j Hj].
      assert (NoDup (snd <$> heap (hp (unlink n w)))) as Hnd.
      { apply NoDup_fmap_2_strong; [|].
        - intros [t1 n1] [t2 n2] [i1 H1]%list_elem_of_lookup [i2 H2]%list_elem_of_lookup E'. simpl in E'. subst n2.
          pose proof (indexed_node _ _ _ _ _ _ Hx H1 H2). congruence.
        - apply NoDup_alt. intros i1 i2 [t1 n1] H1 H2. by eapply indexed_node. }
      rewrite Hp in Hnd. simpl in Hnd. apply NoDup_cons in Hnd as [Hnot _]. apply Hnot.
      apply list_elem_of_fmap. exists (t', n). split; [done|]. by eapply list_elem_of_lookup_2. }
    eexists. split; [done|]. split_and!; try done.
    intros m. case_decide as Hmn.
    + subst m. unfold due. simpl. rewrite Hn, Hnone. done.
    + transitivity (due (unlink n w) m); apply (due_ext lo); try done; [by apply Hother|by apply Hm|]. intros; by rewrite Hh.
  - exists (unlink n w). split_and!; try done. intros m. case_decide as Hmn.
    + subst m. unfold due. by rewrite Hn, Ei.
    + apply (due_ext lo); try done; [by apply Hm|]. intros; by rewrite Hh.
Qed.

Lemma insert_spec lo n ttl w :
  wheel_inv lo w → lo <= tick_count w → 0 <= ttl → tick_count w + ttl < 2 ^ 64 →
  ∃ w', insert n ttl w = Some w' ∧ wheel_inv lo w' ∧ tick_count w' = tick_count w ∧
    ∀ m, due w' m = if decide (m = n) then Some (tick_count w + if ttl =? 0 then 256 else ttl) else due w m.
Proof.
  intros Hwf Hlo Httl Hrange. unfold insert.
  destruct (remove_spec lo n w Hwf) as (w1 & -> & Hwf1 & Hc1 & Ht1 & Hs1 & Hx1 & Hm1 & Hd1). cbn [mbind option_bind].
  destruct (Z.leb_spec ttl (Z.of_nat K_SLOT_COUNT)) as [Hle|Hgt].
  - set (slot := ((cursor w1 + Z.to_nat ttl) mod K_SLOT_COUNT)%nat).
    assert (slot < K_SLOT_COUNT)%nat as Hslot by (apply Nat.mod_upper_bound; unfold K_SLOT_COUNT; lia).
    assert (wheel_inv lo (linkBefore n slot w1)) as Hwf2.
    { destruct Hwf1 as [H1 H2 H3 H4 H5 H6 H7 H8]. unfold linkBefore. split; simpl; try done.
      - by rewrite length_alter.
      - intros m j. rewrite alter_lookup_total by (right; lia). rewrite lookup_insert. case_decide as Hm.
        + subst m. split; [intros [= <-]; rewrite decide_True by done; set_solver|].
          case_decide; [congruence|]. intros Hj%H3. congruence.
        + rewrite H3. case_decide; subst; [|done]. rewrite elem_of_app, list_elem_of_singleton. naive_solver.
      - intros j. rewrite alter_lookup_total by (right; lia). case_decide; [|done].
        apply NoDup_app. split_and!; [done| |apply NoDup_singleton]. intros m Hm ->%list_elem_of_singleton.
        apply H3 in Hm. congruence.
      - intros m j. rewrite lookup_insert. case_decide; [intros; congruence|]. apply H6. }
    eexists. split; [done|]. split_and!; try done. intros m. case_decide as Hm.
    + subst m. unfold due. simpl. rewrite lookup_insert_eq. f_equal. rewrite Ht1.
      assert ((Z.of_nat slot - Z.of_nat (cursor w1) - 1) mod 256 = (ttl - 1) mod 256) as ->.
      { unfold slot. rewrite Nat2Z.inj_mod, Nat2Z.inj_add, Z2Nat.id by done. change (Z.of_nat K_SLOT_COUNT) with 256.
        rewrite (Z.mod_eq (Z.of_nat (cursor w1) + ttl) 256) by lia. set (q := ((_ + ttl) / 256)).
        replace (Z.of_nat (cursor w1) + ttl - 256 * q - Z.of_nat (cursor w1) - 1) with (ttl - 1 + (- q) * 256) by lia.
        apply Z.mod_add. lia. }
      change (Z.of_nat K_SLOT_COUNT) with 256 in Hle. destruct (Z.eqb_spec ttl 0) as [->|]; [change ((0 - 1) mod 256) with 255; lia|].
      rewrite Z.mod_small; lia.
    + rewrite (due_ext lo w1 _ m) by (try done; simpl; by rewrite lookup_insert_ne by done).
      by rewrite Hd1, decide_False by done.
  - assert (u64 (tick_count w1 + ttl) = tick_count w1 + ttl) as ->.
    { apply wrap_small. pose proof (ww_ticks _ _ Hwf) as Hr. unfold in_u in *. lia. }
    destruct (pushHeap_spec (tick_count w1 + ttl) n (hp w1) (ww_heap lo _ Hwf1) Hx1) as (h' & -> & Hh' & Hp).
    cbn [mbind option_bind].
    assert (∀ m, m ≠ n → ∀ t', (t', m) ∈ heap h' ↔ (t', m) ∈ heap (hp w1)) as Hother.
    { intros m Hne t'. rewrite Hp, elem_of_cons. naive_solver. }
    assert (wheel_inv lo (with_hp h' w1)) as Hwf2.
    { apply (with_hp_wf lo); [done|done| |].
      - intros m j Hj. apply (hidx_none h' m Hh'). intros t'. rewrite Hother by congruence.
        apply (hidx_none _ m (ww_heap lo _ Hwf1)). by eapply ww_disjoint.
      - intros t' m. rewrite Hp. intros [[= -> ->]|Hin]%elem_of_cons; [|by eapply ww_future].
        unfold K_SLOT_COUNT in Hgt. lia. }
    eexists. split; [done|]. split_and!; try done. intros m. case_decide as Hm.
    + subst m. destruct (Z.eqb_spec ttl 0); [unfold K_SLOT_COUNT in Hgt; lia|].
      apply (due_heap lo); [done|done|]. simpl. rewrite Hp, Ht1. by left.
    + rewrite (due_ext lo w1 _ m); try done; [by rewrite Hd1, decide_False by done|]. by apply Hother.
Qed.

(** ** A tick *)

Lemma unlink_all_wf lo batch w :
  wheel_inv lo w →
  let w' := foldl (λ w n, unlink n w) w batch in
  wheel_inv lo w' ∧ hp w' = hp w ∧ cursor w' = cursor w ∧ tick_count w' = tick_count w ∧
  ∀ m, wslot w' !! m = if decide (m ∈ batch) then None else wslot w !! m.
Proof.
  cbn zeta. revert w. induction batch as [|n batch IH]; intros w Hwf; simpl.
  { split_and!; try done. }
  destruct (unlink_wf lo n w Hwf) as (Hwf1 & Hn & Hh & Hc & Ht & Hm).
  destruct (IH _ Hwf1) as (H1 & H2 & H3 & H4 & H5). split_and!; try congruence; try done.
  intros m. rewrite H5. destruct (decide (m = n)) as [->|Hne].
  - rewrite Hn. by repeat case_decide; try set_solver.
  - rewrite Hm by done. repeat case_decide; try done; set_solver.
Qed.

Lemma advance_inv w : wheel_wf w → wheel_inv (tick_count w) (advance w).
Proof.
  intros []. split; try done; [apply Nat.mod_upper_bound; unfold K_SLOT_COUNT; lia|]. by apply wrap_range.
Qed.

Lemma advance_tick w : wheel_wf w → tick_count w + 1 < 2 ^ 64 → tick_count (advance w) = tick_count w + 1.
Proof. intros Hwf Ht. apply wrap_small. pose proof (ww_ticks _ _ Hwf) as Hr. unfold in_u in *. lia. Qed.

(** A node in the slot the cursor moves to was due at the new tick; any other
    node keeps its due tick. *)
Lemma advance_due w n :
  wheel_wf w → tick_count w + 1 < 2 ^ 64 →
  (wslot w !! n = Some (cursor (advance w)) → due w n = Some (tick_count w + 1)) ∧
  (wslot w !! n ≠ Some (cursor (advance w)) → due (advance w) n = due w n) ∧
  (wslot w !! n ≠ Some (cursor (advance w)) → due w n = Some (tick_count w + 1) → wslot w !! n = None).
Proof.
  intros Hwf Ht. pose proof (ww_cursor _ _ Hwf) as Hcur. unfold due. rewrite (advance_tick w Hwf Ht). unfold advance. cbn [wslot cursor hp].
  destruct (wslot w !! n) as [i|] eqn:E; [|done].
  pose proof (slot_bound _ _ _ _ Hwf E) as Hi. unfold K_SLOT_COUNT in *.
  set (c := Z.of_nat (cursor w)). assert (0 <= c < 256) as Hc by lia.
  assert (Z.of_nat ((cursor w + 1) mod 256) = (c + 1) mod 256) as Hz by (by rewrite Nat2Z.inj_mod, Nat2Z.inj_add).
  rewrite Hz. split_and!.
  - intros Hs. assert (Z.of_nat i = (c + 1) mod 256) as -> by (rewrite <- Hz; congruence).
    f_equal. clear - Hc. Z.to_euclidean_division_equations. lia.
  - intros Hne. f_equal. assert (Z.of_nat i ≠ (c + 1) mod 256) as Hne' by (intros ?; apply Hne; f_equal; lia).
    clear - Hc Hi Hne'. Z.to_euclidean_division_equations. lia.
  - intros Hne [= Hd]. assert (Z.of_nat i ≠ (c + 1) mod 256) as Hne' by (intros ?; apply Hne; f_equal; lia).
    exfalso. clear - Hc Hi Hne' Hd. Z.to_euclidean_division_equations. lia.
Qed.

Lemma drain_spec w :
  wheel_wf w → tick_count w + 1 < 2 ^ 64 →
  let '(batch, w') := drain (advance w) in
  wheel_inv (tick_count w) w' ∧ tick_count w' = tick_count w + 1 ∧ NoDup batch ∧
  (∀ n, n ∈ batch → due w n = Some (tick_count w + 1)) ∧
  (∀ n, due w n = Some (tick_count w + 1) → n ∉ batch → (tick_count w + 1, n) ∈ heap (hp w')) ∧
  ∀ m, due w' m = if decide (m ∈ batch) then None else due w m.
Proof.
  intros Hwf Ht. unfold drain. pose proof (advance_inv w Hwf) as Hwf1. pose proof (advance_tick w Hwf Ht) as Htick.
  set (batch := slots (advance w) !!! cursor (advance w)).
  destruct (unlink_all_wf _ batch _ Hwf1) as (H1 & H2 & H3 & H4 & H5). set (w' := foldl _ _ _) in *.
  assert (∀ n, n ∈ batch ↔ wslot w !! n = Some (cursor (advance w))) as Hb.
  { intros n. symmetry. apply (ww_slot _ _ Hwf1). }
  split_and!; [done|by rewrite H4|apply (ww_nodup _ _ Hwf1)| | |].
  - intros n Hn%Hb. by apply (advance_due w n Hwf Ht).
  - intros n Hd Hn. rewrite Hb in Hn. pose proof (proj2 (proj2 (advance_due w n Hwf Ht)) Hn Hd) as Hs.
    rewrite H2. by apply (due_heap _ _ _ _ Hwf Hs).
  - intros m. case_decide as Hm.
    + unfold due. rewrite H5, decide_True by done. rewrite H2. simpl.
      apply Hb in Hm. by rewrite (ww_disjoint _ _ Hwf _ _ Hm).
    + rewrite <- (proj1 (proj2 (advance_due w m Hwf Ht))) by (by rewrite <- Hb).
      apply (due_ext (tick_count w)); [done|done| |done|done|by rewrite H2]. by rewrite H5, decide_False by done.
Qed.

Lemma popDue_spec lo w :
  wheel_inv lo w →
  (popDue w = Some None ∧ ∀ t n, (t, n) ∈ heap (hp w) → tick_count w < t) ∨
  ∃ t n w', popDue w = Some (Some (n, w')) ∧ t <= tick_count w ∧ (t, n) ∈ heap (hp w) ∧ lo < t ∧
    wslot w !! n = None ∧ wheel_inv lo w' ∧ tick_count w' = tick_count w ∧ heap (hp w) ≡ₚ (t, n) :: heap (hp w') ∧
    ∀ m, due w' m = if decide (m = n) then None else due w m.
Proof.
  intros Hwf. unfold popDue. destruct (heap (hp w) !! 0%nat) as [[t n]|] eqn:E0.
  2:{ left. split; [done|]. intros t n Hin. destruct (heap (hp w)); [by apply not_elem_of_nil in Hin|done]. }
  destruct (Z.leb_spec t (tick_count w)) as [Hle|Hgt].
  2:{ left. split; [done|]. intros t' n' [i Hi]%list_elem_of_lookup.
      pose proof (root_least _ _ (hw_ordered _ (ww_heap _ _ Hwf)) E0 i _ Hi). simpl in *. lia. }
  right. pose proof (list_elem_of_lookup_2 _ _ _ E0) as Hin.
  assert (hidx (hp w) !! n = Some 0%nat) as Hx by (apply (hw_indexed _ (ww_heap _ _ Hwf)); eauto).
  assert (wslot w !! n = None) as Hs.
  { destruct (wslot w !! n) as [i|] eqn:E; [|done]. pose proof (ww_disjoint _ _ Hwf n i E). congruence. }
  destruct (remove_spec lo n w Hwf) as (w' & E & Hwf' & Hc & Ht & _ & _ & _ & Hd).
  unfold remove, unlink in E. rewrite Hs, Hx in E.
  destruct (removeHeapAt_spec 0 (hp w) t n (ww_heap _ _ Hwf) E0) as (h' & E' & _ & Hp). rewrite E' in E |- *.
  cbn [mbind option_bind] in *. injection E as <-. exists t, n, (with_hp h' w). split_and!; try done.
  by apply (ww_future _ _ Hwf t n).
Qed.

Section rules.
Context {S : Type} (wheel_of : S → Wheel) (set_wheel : Wheel → S → S) (on_expired : nat → S → option S).
Context (Inv : list nat → S → Prop).
Hypothesis Hstep : ∀ n rest s, Inv (n :: rest) s →
  ∃ s', on_expired n s = Some s' ∧ Inv rest s'.

Lemma fire_batch_rule batch s :
  Inv batch s → ∃ s', fire_batch on_expired batch s = Some s' ∧ Inv [] s'.
Proof.
  revert s. induction batch as [|n batch IH]; intros s Hs; simpl; [eauto|].
  destruct (Hstep n batch s Hs) as (s1 & -> & H1). simpl. by apply IH.
Qed.

(** How many entries of the heap are due. *)
Definition overdue (w : Wheel) : nat := length (filter (λ e, e.1 <= tick_count w) (heap (hp w))).

Hypothesis Hwheel : ∀ s, Inv [] s → ∃ lo, wheel_inv lo (wheel_of s).
Hypothesis Hset : ∀ w s, wheel_of (set_wheel w s) = w.
Hypothesis Hpop : ∀ n w s, Inv [] s → popDue (wheel_of s) = Some (Some (n, w)) → Inv [n] (set_wheel w s).
Hypothesis Hover : ∀ n rest s s', Inv (n :: rest) s → on_expired n s = Some s' →
  (overdue (wheel_of s') <= overdue (wheel_of s))%nat.

Lemma expireHeap_loop_rule fuel s :
  Inv [] s → (overdue (wheel_of s) <= fuel)%nat →
  ∃ s', expireHeap_loop wheel_of set_wheel on_expired fuel s = Some s' ∧ Inv [] s' ∧ overdue (wheel_of s') = 0%nat.
Proof.
  revert s. induction fuel as [|fuel IH]; intros s Hs Hf; simpl; [exists s; split_and!; [done|done|lia]|].
  destruct (Hwheel s Hs) as [lo Hwf].
  destruct (popDue_spec lo _ Hwf) as [[E Hno]|(t & n & w' & E & Hle & Hin & _ & _ & _ & Ht & Hp & _)]; rewrite E; simpl.
  { exists s. split_and!; [done|done|]. unfold overdue. rewrite filter_all_false; [done|].
    intros [t n] Hin. simpl. pose proof (Hno t n Hin). lia. }
  pose proof (Hpop n w' s Hs E) as Hn. destruct (Hstep _ _ _ Hn) as (s1 & E1 & H1). rewrite E1. simpl.
  apply IH; [done|]. pose proof (Hover _ _ _ _ Hn E1) as Hle'. rewrite Hset in Hle'.
  assert (overdue (wheel_of s) = Datatypes.S (overdue w')) as Ho; [|lia].
  unfold overdue. rewrite Ht, Hp. by rewrite filter_cons_True by done.
Qed.

Lemma expireHeap_rule s :
  Inv [] s → ∃ s', expireHeap wheel_of set_wheel on_expired s = Some s' ∧ Inv [] s' ∧ overdue (wheel_of s') = 0%nat.
Proof. intros Hs. apply expireHeap_loop_rule; [done|]. unfold overdue. apply length_filter. Qed.
End rules.

Lemma overdue_none lo w : wheel_inv lo w → overdue w = 0%nat → wheel_wf w.
Proof.
  intros [] Ho. split; try done. intros t n Hin. destruct (decide (t <= tick_count w)) as [Hle|]; [|lia].
  apply length_zero_iff_nil in Ho. exfalso. assert ((t, n) ∈ filter (λ e, e.1 <= tick_count w) (heap (hp w))) as Hf.
  { by apply list_elem_of_filter. }
  rewrite Ho in Hf. by apply not_elem_of_nil in Hf.
Qed.

(** ** The wheel as a map of timers *)

(** The callback that only records whom it was called for. *)
Definition record_tick : Wheel * list nat → option (Wheel * list nat) :=
  tick fst (λ w s, (w, s.2)) (λ n s, Some (s.1, s.2 ++ [n])).

Section recorder.
Context (w0 : Wheel).
Local Notation t0 := (tick_count w0).

Record rec_inv (pending : list nat) (s : Wheel * list nat) : Prop := mkRecInv {
  ri_wheel : wheel_inv t0 s.1;
  ri_tick : tick_count s.1 = t0 + 1;
  ri_nodup : NoDup (s.2 ++ pending);
  ri_due : ∀ n, n ∈ s.2 ++ pending → due w0 n = Some (t0 + 1);
  ri_rest : ∀ m, due s.1 m = if decide (m ∈ s.2 ++ pending) then None else due w0 m }.

Lemma rec_step n rest s :
  rec_inv (n :: rest) s → ∃ s', Some (s.1, s.2 ++ [n]) = Some s' ∧ rec_inv rest s'.
Proof.
  intros []. eexists. split; [done|]. assert (s.2 ++ n :: rest = (s.2 ++ [n]) ++ rest) as E by (by rewrite <- app_assoc).
  rewrite E in *. by split.
Qed.

Lemma rec_pop n w s :
  rec_inv [] s → popDue s.1 = Some (Some (n, w)) → rec_inv [n] (w, s.2).
Proof.
  intros [H1 H2 H3 H4 H5] Hpop. rewrite app_nil_r in *.
  destruct (popDue_spec _ _ H1) as [[E _]|(t & n' & w' & E & Hle & Hin & Hlo & Hs & Hwf & Ht & _ & Hd)]; [congruence|].
  rewrite E in Hpop. injection Hpop as -> ->.
  assert (due s.1 n = Some (t0 + 1)) as Hn.
  { rewrite (proj2 (due_heap _ _ n t H1 Hs)) by done. f_equal. lia. }
  rewrite H5 in Hn. destruct (decide (n ∈ s.2)) as [|Hnin]; [done|]. split; simpl; try done.
  - lia.
  - apply NoDup_app. split_and!; [done|set_solver|apply NoDup_singleton].
  - intros m [?| ->%list_elem_of_singleton]%elem_of_app; auto.
  - intros m. rewrite Hd, H5. repeat case_decide; try done; set_solver.
Qed.

Lemma rec_done s n :
  rec_inv [] s → overdue s.1 = 0%nat → due w0 n = Some (t0 + 1) → n ∈ s.2.
Proof.
  intros [H1 H2 H3 H4 H5] Ho Hn. rewrite app_nil_r in *. pose proof (overdue_none _ _ H1 Ho) as Hwf.
  destruct (decide (n ∈ s.2)) as [|Hnin]; [done|]. exfalso.
  pose proof (H5 n) as Hd. rewrite decide_False, Hn in Hd by done.
  destruct (wslot s.1 !! n) as [i|] eqn:Es.
  - unfold due in Hd. rewrite Es in Hd. injection Hd as Hd.
    pose proof (Z.mod_pos_bound (Z.of_nat i - Z.of_nat (cursor s.1) - 1) 256). lia.
  - apply (due_heap _ _ _ _ Hwf Es), (ww_future _ _ Hwf) in Hd. lia.
Qed.
End recorder.

(** A tick calls back exactly the nodes that are due, once each, and leaves
    every other timer as it was. *)
Lemma tick_spec w :
  wheel_wf w → tick_count w + 1 < 2 ^ 64 →
  ∃ w' fired, record_tick (w, []) = Some (w', fired) ∧ wheel_wf w' ∧ tick_count w' = tick_count w + 1 ∧
    NoDup fired ∧ (∀ n, n ∈ fired ↔ due w n = Some (tick_count w + 1)) ∧
    ∀ m, due w' m = if decide (m ∈ fired) then None else due w m.
Proof.
  intros Hwf Ht. unfold record_tick, tick, expireSlot. simpl fst. pose proof (drain_spec w Hwf Ht) as Hdr.
  destruct (drain (advance w)) as [batch w1]. destruct Hdr as (H1 & H2 & H3 & H4 & _ & H6). simpl.
  assert (rec_inv w batch (w1, [])) as Hi by done.
  destruct (fire_batch_rule _ _ (rec_step w) _ _ Hi) as (s1 & E1 & Hi1). rewrite E1. simpl.
  destruct (expireHeap_rule fst (λ w s, (w, s.2)) _ (rec_inv w) (rec_step w)
    (λ s H, ex_intro _ _ (ri_wheel _ _ _ H)) (λ _ _, eq_refl) (rec_pop w)) with s1 as ([w2 fired] & E2 & Hi2 & Ho); [|done|].
  { intros n rest s s' _ [= <-]. done. }
  exists w2, fired. pose proof (λ n, rec_done w (w2, fired) n Hi2 Ho) as Hd.
  destruct Hi2 as [J1 J2 J3 J4 J5]. simpl in *. rewrite app_nil_r in *. split_and!; try done.
  - by apply (overdue_none (tick_count w)).
  - intros n. split; [apply J4|apply Hd].
Qed.

(** What the wheel promises: a clock and the tick at which each node fires. *)
Record Timers := mkTimers { clock : Z; timers : gmap nat Z }.

Inductive WheelCmd :=
  | CmdInsert (n : nat) (ttl : Z)
  | CmdRemove (n : nat)
  | CmdTick.

(** A timer of zero ticks is the one exception: it waits a full turn. *)
Definition effective_ttl (ttl : Z) : Z := if ttl =? 0 then 256 else ttl.

Definition timers_step (c : WheelCmd) (a : Timers) : Timers * gset nat :=
  match c with
  | CmdInsert n ttl => (mkTimers (clock a) (<[n := clock a + effective_ttl ttl]> (timers a)), ∅)
  | CmdRemove n => (mkTimers (clock a) (delete n (timers a)), ∅)
  | CmdTick =>
      (mkTimers (clock a + 1) (filter (λ e, e.2 ≠ clock a + 1) (timers a)),
       dom (filter (λ e, e.2 = clock a + 1) (timers a)))
  end.

Definition wheel_step (c : WheelCmd) (w : Wheel) : option (Wheel * list nat) :=
  match c with
  | CmdInsert n ttl => w ← insert n ttl w; Some (w, [])
  | CmdRemove n => w ← remove n w; Some (w, [])
  | CmdTick => record_tick (w, [])
  end.

Fixpoint timers_run (cs : list WheelCmd) (a : Timers) : Timers * list (gset nat) :=
  match cs with
  | [] => (a, [])
  | c :: cs => let '(a, f) := timers_step c a in let '(a, fs) := timers_run cs a in (a, f :: fs)
  end.

Fixpoint wheel_run (cs : list WheelCmd) (w : Wheel) : option (Wheel * list (list nat)) :=
  match cs with
  | [] => Some (w, [])
  | c :: cs => '(w, f) ← wheel_step c w; '(w, fs) ← wheel_run cs w; Some (w, f :: fs)
  end.

(** The ticks of a command fit the counter. *)
Definition cmd_ok (c : WheelCmd) (a : Timers) : Prop :=
  match c with
  | CmdInsert _ ttl => 0 <= ttl ∧ clock a + ttl < 2 ^ 64
  | CmdRemove _ => True
  | CmdTick => clock a + 1 < 2 ^ 64
  end.

Fixpoint cmds_ok (cs : list WheelCmd) (a : Timers) : Prop :=
  match cs with [] => True | c :: cs => cmd_ok c a ∧ cmds_ok cs (timers_step c a).1 end.

Definition implements (w : Wheel) (a : Timers) : Prop :=
  wheel_wf w ∧ tick_count w = clock a ∧ ∀ n, due w n = timers a !! n.

(** A call of the callback per node of the set, in some order. *)
Definition fires (f : list nat) (s : gset nat) : Prop := NoDup f ∧ list_to_set f = s.

Lemma wheel_step_refines c w a :
  cmd_ok c a → implements w a →
  ∃ w' f, wheel_step c w = Some (w', f) ∧ implements w' (timers_step c a).1 ∧ fires f (timers_step c a).2.
Proof.
  intros Hok (Hwf & Hc & Hd). destruct c as [n ttl|n|]; simpl in *.
  - destruct (insert_spec (tick_count w) n ttl w Hwf) as (w' & -> & Hwf' & Ht & Hm); [lia..|].
    eexists _, _. split; [done|]. split; [|split; [apply NoDup_nil_2|done]].
    unfold implements, wheel_wf. rewrite Ht. split_and!; [done|done|]. intros m. simpl.
    rewrite Hm, lookup_insert, Hd, Hc. by repeat case_decide.
  - destruct (remove_spec (tick_count w) n w Hwf) as (w' & -> & Hwf' & _ & Ht & _ & _ & _ & Hm).
    eexists _, _. split; [done|]. split; [|split; [apply NoDup_nil_2|done]].
    unfold implements, wheel_wf. rewrite Ht. split_and!; [done|done|]. intros m. simpl.
    rewrite Hm, lookup_delete, Hd. by repeat case_decide.
  - destruct (tick_spec w Hwf) as (w' & f & E & Hwf' & Ht & Hnd & Hf & Hm); [lia|]. exists w', f.
    split; [done|]. split; [split_and!; [done|simpl; lia|]|split; [done|]].
    + intros m. simpl. rewrite Hm, Hd, map_lookup_filter. specialize (Hf m). rewrite Hd, Hc in Hf.
      destruct (timers a !! m) as [t|]; simpl; [|by case_decide].
      destruct (decide (m ∈ f)) as [Hin|Hnin].
      * apply Hf in Hin. injection Hin as ->. by rewrite option_guard_False by (simpl; tauto).
      * rewrite option_guard_True; [done|]. simpl. intros ->. tauto.
    + apply set_eq. intros m. rewrite elem_of_list_to_set, Hf, Hd, Hc, elem_of_dom.
      rewrite map_lookup_filter. destruct (timers a !! m) as [t|]; simpl.
      * split; [intros [= ->]; rewrite option_guard_True; [eauto|done]|].
        intros [x Hx]. case_guard as Hg; [|done]. simpl in Hg. congruence.
      * split; [done|intros []; done].
Qed.

Lemma empty_slot i : slots emptyWheel !!! i = [].
Proof.
  rewrite list_lookup_total_alt. destruct (slots emptyWheel !! i) as [l|] eqn:E; [|done].
  by apply lookup_replicate in E as [-> _].
Qed.

Lemma emptyWheel_wf : wheel_wf emptyWheel.
Proof.
  split.
  - done.
  - unfold K_SLOT_COUNT. simpl. lia.
  - intros n i. rewrite empty_slot. split; [done|]. by intros ?%not_elem_of_nil.
  - intros i. rewrite empty_slot. apply NoDup_nil_2.
  - apply emptyHeap_wf.
  - done.
  - intros t n Hin. by apply not_elem_of_nil in Hin.
  - by vm_compute.
Qed.

Lemma emptyWheel_implements : implements emptyWheel (mkTimers 0 ∅).
Proof. split; [apply emptyWheel_wf|]. split; [done|]. done. Qed.

(** C17: the wheel implements a map of timers.  Any sequence of inserts, removals
    and ticks runs without touching a slot or heap entry that is not there, and
    each tick calls back, once each, exactly the nodes whose timer is due then:
    [ttl] ticks after the insert, for the slots and for the heap alike (256
    ticks when [ttl] is 0), unless they were removed or scheduled anew.  The
    counter has 64 bits: at each command the ticks so far and the [ttl] of an
    insert, or the one tick, must fit it together. *)
Theorem wheel_refines_timers (cs : list WheelCmd) :
  cmds_ok cs (mkTimers 0 ∅) →
  ∃ w out, wheel_run cs emptyWheel = Some (w, out) ∧
    implements w (timers_run cs (mkTimers 0 ∅)).1 ∧ Forall2 fires out (timers_run cs (mkTimers 0 ∅)).2.
Proof.
  generalize emptyWheel_implements. generalize emptyWheel (mkTimers 0 ∅). intros w a Hi Hok.
  revert w a Hi Hok. induction cs as [|c cs IH]; intros w a Hi Hok; simpl; [eauto|]. destruct Hok as [Hc Hok].
  destruct (wheel_step_refines c w a Hc Hi) as (w1 & f & -> & Hi1 & Hf). simpl.
  destruct (timers_step c a) as [a1 g]. simpl in *.
  destruct (IH w1 a1 Hi1 Hok) as (w2 & out & -> & Hi2 & Ho). simpl. destruct (timers_run cs a1) as [a2 gs]. simpl in *.
  eexists _, _. split; [done|]. split; [done|]. by constructor.
Qed.

Lemma wheel_refines_timers_witness :
  ∃ w out, wheel_run [CmdInsert 1 1; CmdInsert 2 300; CmdInsert 3 2; CmdRemove 3; CmdTick] emptyWheel = Some (w, out) ∧
    out !! 4%nat = Some [1%nat] ∧
    implements w (timers_run [CmdInsert 1 1; CmdInsert 2 300; CmdInsert 3 2; CmdRemove 3; CmdTick] (mkTimers 0 ∅)).1.
Proof.
  destruct (wheel_refines_timers [CmdInsert 1 1; CmdInsert 2 300; CmdInsert 3 2; CmdRemove 3; CmdTick])
    as (w & out & E & Hi & _).
  { vm_compute. intuition congruence. }
  exists w, out. split; [exact E|]. split; [|exact Hi].
  assert (∃ w, wheel_run [CmdInsert 1 1; CmdInsert 2 300; CmdInsert 3 2; CmdRemove 3; CmdTick] emptyWheel
    = Some (w, [[]; []; []; []; [1%nat]])) as [w' E'] by (vm_compute; eauto).
  rewrite E in E'. injection E' as _ ->. reflexivity.
Defined.

(** ** Overdue entries, by their due ticks *)

Lemma due_future lo w n t : wheel_inv lo w → due w n = Some t → t <= tick_count w → (t, n) ∈ heap (hp w).
Proof.
  intros Hwf Hd Ht. destruct (wslot w !! n) as [i|] eqn:E; [|by apply (due_heap lo w n t Hwf E)].
  unfold due in Hd. rewrite E in Hd. injection Hd as <-.
  pose proof (Z.mod_pos_bound (Z.of_nat i - Z.of_nat (cursor w) - 1) 256). lia.
Qed.

Lemma heap_due lo w n t : wheel_inv lo w → (t, n) ∈ heap (hp w) → due w n = Some t.
Proof.
  intros Hwf Hin. destruct (wslot w !! n) as [i|] eqn:E; [|by apply (due_heap lo w n t Hwf E)].
  pose proof (ww_disjoint _ _ Hwf n i E) as Hx. apply list_elem_of_lookup in Hin as [j Hj].
  assert (hidx (hp w) !! n = Some j) by (apply (hw_indexed _ (ww_heap _ _ Hwf)); eauto). congruence.
Qed.

Lemma heap_nodup h : heap_wf h → NoDup (heap h).
Proof.
  intros Hh. apply NoDup_alt. intros i j [t n] Hi Hj.
  assert (hidx h !! n = Some i) by (apply (hw_indexed _ Hh); eauto).
  assert (hidx h !! n = Some j) by (apply (hw_indexed _ Hh); eauto). congruence.
Qed.

Lemma overdue_le lo lo' w w' :
  wheel_inv lo w → wheel_inv lo' w' → tick_count w' = tick_count w →
  (∀ m t, due w' m = Some t → t <= tick_count w → due w m = Some t) → (overdue w' <= overdue w)%nat.
Proof.
  intros Hwf Hwf' Ht Hd. unfold overdue. rewrite Ht. apply submseteq_length, NoDup_submseteq.
  - apply NoDup_filter, heap_nodup, (ww_heap _ _ Hwf').
  - intros [t n]. rewrite !list_elem_of_filter. simpl. intros [Hle Hin]. split; [done|].
    apply (due_future lo); [done| |done]. apply Hd; [|done]. by apply (heap_due lo').
Qed.

Lemma overdue_none_due lo w n t : wheel_inv lo w → overdue w = 0%nat → due w n = Some t → tick_count w < t.
Proof.
  intros Hwf Ho Hd. destruct (decide (t <= tick_count w)) as [Hle|]; [|lia].
  pose proof (ww_future _ _ (overdue_none lo w Hwf Ho) t n (due_future lo w n t Hwf Hd Hle)). lia.
Qed.
