(* ===== verification/WheelLinks.v ===== *)
(** * The intrusive links of the TTL wheel (include/cinder/store/ttl_wheel.hpp)

    [TtlWheel] keeps a slot as the list of its nodes.  Here the slots are what
    the code has: 256 sentinels and the nodes between them, each with a pointer
    to its neighbours and the number of its slot.  The operations that write
    pointers are shown to implement the ones on lists. *)

From S2P Require Import Prelude WheelHeap TtlWheel.
Local Open Scope nat_scope.

(** The address of a sentinel of [wheel_], or of a node of the store. *)
Inductive addr := Sent (i : nat) | Nd (n : nat).

#[global] Instance addr_eq_dec : EqDecision addr.
Proof. solve_decision. Defined.

#[global] Program Instance addr_countable : Countable addr :=
  inj_countable (λ a, match a with Sent i => inl i | Nd n => inr n end)
    (λ s, Some match s with inl i => Sent i | inr n => Nd n end) _.
Next Obligation. by intros []. Qed.

#[global] Instance Nd_inj : Inj eq eq Nd.
Proof. by intros ?? [= ->]. Qed.

(** The fields of [WheelNode].  A pointer with no entry is null; [lslot] has
    the nodes whose [wheel_slot] is not zero. *)
Record Links := mkLinks {
  wheel_next : gmap addr addr;
  wheel_prev : gmap addr addr;
  lslot : gmap nat nat }.

(** The constructor: every sentinel is a ring of its own. *)
Definition emptyLinks : Links :=
  let self := list_to_map ((λ i, (Sent i, Sent i)) <$> seq 0 K_SLOT_COUNT) in
  mkLinks self self ∅.

(** [None] is a null pointer followed. *)
Definition unlinkL (n : nat) (m : Links) : option Links :=
  match lslot m !! n with
  | None => Some m
  | Some _ =>
      p ← wheel_prev m !! Nd n;
      q ← wheel_next m !! Nd n;
      Some (mkLinks (delete (Nd n) (<[p := q]> (wheel_next m)))
                    (delete (Nd n) (<[q := p]> (wheel_prev m))) (delete n (lslot m)))
  end.

Definition linkBeforeL (n slot : nat) (m : Links) : option Links :=
  p ← wheel_prev m !! Sent slot;
  Some (mkLinks (<[p := Nd n]> (<[Nd n := Sent slot]> (wheel_next m)))
                (<[Sent slot := Nd n]> (<[Nd n := p]> (wheel_prev m))) (<[n := slot]> (lslot m))).

(** The loop of [expireSlot] that empties the ring of a sentinel. *)
Fixpoint drainL (fuel slot : nat) (m : Links) : option (list nat * Links) :=
  match fuel with
  | O => None
  | S fuel =>
      a ← wheel_next m !! Sent slot;
      match a with
      | Sent _ => Some ([], m)
      | Nd n => m ← unlinkL n m; '(batch, m) ← drainL fuel slot m; Some (n :: batch, m)
      end
  end.

(** No ring holds more nodes than there are nodes in slots. *)
Definition drainSlot (slot : nat) (m : Links) : option (list nat * Links) := drainL (S (size (lslot m))) slot m.

(** ** Rings *)

Definition ring (i : nat) (l : list nat) : list (addr * addr) := adj (Sent i :: (Nd <$> l) ++ [Sent i]).

(** The neighbours of all rings. *)
Definition rings (sl : list (list nat)) : list (addr * addr) := seq 0 K_SLOT_COUNT ≫= λ i, ring i (sl !!! i).

(** The pointers are those of the lists. *)
Record linked (m : Links) (w : Wheel) : Prop := mkLinked {
  lk_pairs : ∀ a b, (a, b) ∈ rings (slots w) → wheel_next m !! a = Some b ∧ wheel_prev m !! b = Some a;
  lk_slot : lslot m = wslot w }.

Lemma ring_fst i l : (ring i l).*1 = Sent i :: (Nd <$> l).
Proof. apply (adj_fst (Sent i :: (Nd <$> l))). Qed.

Lemma ring_snd i l : (ring i l).*2 = (Nd <$> l) ++ [Sent i].
Proof. apply adj_snd. Qed.

(** Taking a node out of a ring joins its neighbours. *)
Lemma ring_split i l1 n l2 :
  ∃ p q P, ring i (l1 ++ n :: l2) ≡ₚ (p, Nd n) :: (Nd n, q) :: P ∧ ring i (l1 ++ l2) ≡ₚ (p, q) :: P.
Proof. unfold ring. rewrite !fmap_app, fmap_cons. apply adj_split. Qed.

Lemma ring_push i n l : ∃ p P, ring i l ≡ₚ (p, Sent i) :: P ∧ ring i (l ++ [n]) ≡ₚ (p, Nd n) :: (Nd n, Sent i) :: P.
Proof. unfold ring. rewrite fmap_app. apply adj_push. Qed.

Lemma rings_split sl i : i < K_SLOT_COUNT → length sl = K_SLOT_COUNT →
  ∃ R, rings sl ≡ₚ ring i (sl !!! i) ++ R ∧ ∀ g, rings (alter g i sl) ≡ₚ ring i (g (sl !!! i)) ++ R.
Proof.
  intros Hi Hlen. assert (i ∈ seq 0 K_SLOT_COUNT) as [R HR]%elem_of_Permutation by (apply elem_of_seq; lia).
  pose proof (NoDup_seq 0 K_SLOT_COUNT) as Hnd. rewrite HR in Hnd. apply NoDup_cons in Hnd as [Hni _].
  exists (R ≫= λ j, ring j (sl !!! j)). unfold rings. rewrite HR. split; [done|]. intros g. rewrite HR. simpl.
  rewrite alter_lookup_total, decide_True by (done || (right; lia)). apply Permutation_app_head, reflexive_eq.
  apply Forall_bind_ext, Forall_forall. intros j Hj.
  rewrite alter_lookup_total, decide_False; [done|by intros ->|right; lia].
Qed.

Lemma fmap_bind_list {A B C} (f : B → C) (g : A → list B) (l : list A) : f <$> (l ≫= g) = l ≫= λ x, f <$> g x.
Proof. induction l as [|x l IH]; csimpl; [done|]. by rewrite fmap_app, IH. Qed.

Lemma rings_nodup lo w : wheel_inv lo w → NoDup (rings (slots w)).*1 ∧ NoDup (rings (slots w)).*2.
Proof.
  intros Hwf. unfold rings. rewrite !fmap_bind_list. split; apply NoDup_bind; try apply NoDup_seq; simpl.
  - intros i j [k|n] _ _; simpl; rewrite !ring_fst, !elem_of_cons, !list_elem_of_fmap.
    + naive_solver.
    + intros [|(x & [= <-] & Hx)] [|(y & [= <-] & Hy)]; try done.
      apply (ww_slot _ _ Hwf) in Hx, Hy. congruence.
  - intros i _. simpl. rewrite ring_fst. apply NoDup_cons. split.
    + rewrite list_elem_of_fmap. naive_solver.
    + apply (NoDup_fmap_2 Nd), (ww_nodup _ _ Hwf).
  - intros i j [k|n] _ _; simpl; rewrite !ring_snd, !elem_of_app, !list_elem_of_singleton, !list_elem_of_fmap.
    + naive_solver.
    + intros [(x & [= <-] & Hx)|] [(y & [= <-] & Hy)|]; try done.
      apply (ww_slot _ _ Hwf) in Hx, Hy. congruence.
  - intros i _. simpl. rewrite ring_snd. apply NoDup_app. split_and!.
    + apply (NoDup_fmap_2 Nd), (ww_nodup _ _ Hwf).
    + intros a. rewrite list_elem_of_fmap, list_elem_of_singleton. naive_solver.
    + apply NoDup_singleton.
Qed.

(** ** Pointer updates *)

Definition points (m : Links) (P : list (addr * addr)) : Prop :=
  ∀ a b, (a, b) ∈ P → wheel_next m !! a = Some b ∧ wheel_prev m !! b = Some a.

Lemma points_perm m P Q : P ≡ₚ Q → points m P → points m Q.
Proof. intros E HP a b. rewrite <- E. apply HP. Qed.

Lemma points_unlink m p n q P i :
  NoDup ((p, Nd n) :: (Nd n, q) :: P).*1 → NoDup ((p, Nd n) :: (Nd n, q) :: P).*2 →
  points m ((p, Nd n) :: (Nd n, q) :: P) → lslot m !! n = Some i →
  ∃ m', unlinkL n m = Some m' ∧ points m' ((p, q) :: P) ∧ lslot m' = delete n (lslot m).
Proof.
  intros H1 H2 HP Hi. unfold unlinkL. rewrite Hi.
  destruct (HP p (Nd n)) as [_ Ep]; [by left|]. destruct (HP (Nd n) q) as [Eq _]; [by right; left|].
  rewrite Ep, Eq. cbn [mbind option_bind]. eexists. split; [done|]. split; [|done].
  pose proof (nodup_pairs _ _ _ H1 H2) as HA. simpl in H1, H2. apply NoDup_cons in H1 as [H1 H1'].
  apply NoDup_cons in H2 as [H2 H2']. pose proof (nodup_pairs (Nd n) q P H1' H2') as HB.
  destruct (HA (Nd n) q) as [Hnp Hnq]; [by left|].
  intros a b [[= -> ->]|Hin]%elem_of_cons; simpl.
  - by rewrite !lookup_delete_ne, !lookup_insert_eq by done.
  - destruct (HA a b) as [??]; [by right|]. destruct (HB a b) as [??]; [done|].
    rewrite !lookup_delete_ne, !lookup_insert_ne by done. apply HP. by do 2 right.
Qed.

Lemma points_link m p n i P :
  NoDup ((p, Sent i) :: P).*1 → NoDup ((p, Sent i) :: P).*2 →
  (∀ a b, (a, b) ∈ (p, Sent i) :: P → a ≠ Nd n ∧ b ≠ Nd n) → points m ((p, Sent i) :: P) →
  ∃ m', linkBeforeL n i m = Some m' ∧ points m' ((p, Nd n) :: (Nd n, Sent i) :: P) ∧ lslot m' = <[n := i]> (lslot m).
Proof.
  intros H1 H2 Hn HP. unfold linkBeforeL. destruct (HP p (Sent i)) as [_ Ep]; [by left|].
  rewrite Ep. cbn [mbind option_bind]. eexists. split; [done|]. split; [|done].
  pose proof (nodup_pairs _ _ _ H1 H2) as HA. destruct (Hn p (Sent i)) as [Hp _]; [by left|].
  intros a b [[= -> ->]|[[= -> ->]|Hin]%elem_of_cons]%elem_of_cons; simpl.
  - by rewrite lookup_insert_eq, (lookup_insert_ne _ (Sent i)), lookup_insert_eq by done.
  - by rewrite (lookup_insert_ne _ p), !lookup_insert_eq by done.
  - destruct (HA a b Hin) as [??]. destruct (Hn a b) as [??]; [by right|].
    rewrite !lookup_insert_ne by done. apply HP. by right.
Qed.

(** ** The operations *)

Lemma unlink_linked lo m w n :
  wheel_inv lo w → linked m w → ∃ m', unlinkL n m = Some m' ∧ linked m' (unlink n w).
Proof.
  intros Hwf [HP Hs]. unfold unlink. destruct (wslot w !! n) as [i|] eqn:Ei.
  2:{ exists m. unfold unlinkL. by rewrite Hs, Ei. }
  pose proof (slot_bound _ _ _ _ Hwf Ei) as Hi. pose proof (proj1 (ww_slot _ _ Hwf n i) Ei) as Hin.
  apply list_elem_of_split in Hin as (l1 & l2 & El). pose proof (ww_nodup _ _ Hwf i) as Hnd. rewrite El in Hnd.
  destruct (rings_split (slots w) i Hi (ww_length _ _ Hwf)) as (R & E & Eg).
  destruct (ring_split i l1 n l2) as (p & q & P & E1 & E2). rewrite El, E1 in E.
  destruct (rings_nodup _ _ Hwf) as [N1 N2]. rewrite E in N1, N2.
  destruct (points_unlink m p n q (P ++ R) i) as (m' & Em & HP' & Hs'); try done.
  { by apply (points_perm _ _ _ E). }
  { by rewrite Hs. }
  exists m'. split; [done|]. split; simpl; [|congruence].
  apply (points_perm m' ((p, q) :: P ++ R)); [|done]. symmetry. etransitivity; [apply Eg|]. rewrite El.
  assert (filter (λ k, k ≠ n) (l1 ++ n :: l2) = l1 ++ l2) as ->; [|by rewrite E2].
  apply NoDup_app in Hnd as (_ & Hd & [Hn2 _]%NoDup_cons).
  rewrite filter_app, filter_cons_False, !filter_all_true; try done; try tauto.
  - intros k Hk ->. done.
  - intros k Hk ->. apply (Hd n Hk). by left.
Qed.

Lemma linkBefore_linked lo m w n i :
  wheel_inv lo w → linked m w → wslot w !! n = None → i < K_SLOT_COUNT →
  ∃ m', linkBeforeL n i m = Some m' ∧ linked m' (linkBefore n i w).
Proof.
  intros Hwf [HP Hs] Hn Hi. destruct (rings_split (slots w) i Hi (ww_length _ _ Hwf)) as (R & E & Eg).
  destruct (ring_push i n (slots w !!! i)) as (p & P & E1 & E2). rewrite E1 in E.
  destruct (rings_nodup _ _ Hwf) as [N1 N2]. rewrite E in N1, N2.
  destruct (points_link m p n i (P ++ R)) as (m' & Em & HP' & Hs'); try done.
  { intros a b Hin. change ((a, b) ∈ ((p, Sent i) :: P) ++ R) in Hin. rewrite <- E in Hin.
    apply list_elem_of_bind in Hin as (j & Hin & _).
    assert (Nd n ∉ Nd <$> slots w !!! j) as Hj.
    { intros (x & [= <-] & Hx)%list_elem_of_fmap. apply (ww_slot _ _ Hwf) in Hx. congruence. }
    split; intros ->; apply Hj.
    - assert (Nd n ∈ (ring j (slots w !!! j)).*1) as H by (apply list_elem_of_fmap; by exists (Nd n, b)).
      rewrite ring_fst in H. by apply elem_of_cons in H as [|].
    - assert (Nd n ∈ (ring j (slots w !!! j)).*2) as H by (apply list_elem_of_fmap; by exists (a, Nd n)).
      rewrite ring_snd in H. apply elem_of_app in H as [|H%list_elem_of_singleton]; done. }
  { by apply (points_perm _ _ _ E). }
  exists m'. split; [done|]. split; simpl; [|congruence].
  apply (points_perm m' ((p, Nd n) :: (Nd n, Sent i) :: P ++ R)); [|done].
  symmetry. etransitivity; [apply Eg|]. by rewrite E2.
Qed.

Lemma slot_ring m w i a b :
  linked m w → i < K_SLOT_COUNT → (a, b) ∈ ring i (slots w !!! i) → wheel_next m !! a = Some b.
Proof.
  intros [HP _] Hi Hin. apply HP. apply list_elem_of_bind. exists i. split; [done|]. apply elem_of_seq. lia.
Qed.

Lemma drainL_linked lo l fuel m w i :
  wheel_inv lo w → linked m w → i < K_SLOT_COUNT → slots w !!! i = l → length l < fuel →
  ∃ m', drainL fuel i m = Some (l, m') ∧ linked m' (foldl (λ w n, unlink n w) w l).
Proof.
  revert fuel m w. induction l as [|n l IH]; intros [|fuel] m w Hwf Hl Hi El Hf; simpl in Hf; try lia; simpl.
  - rewrite (slot_ring m w i (Sent i) (Sent i)); [|done..|rewrite El; by left]. simpl. eauto.
  - rewrite (slot_ring m w i (Sent i) (Nd n)); [|done..|rewrite El; by left]. cbn [mbind option_bind].
    destruct (unlink_linked _ m w n Hwf Hl) as (m1 & -> & Hl1). cbn [mbind option_bind].
    assert (slots (unlink n w) !!! i = l) as El1.
    { assert (wslot w !! n = Some i) as Ei by (apply (ww_slot _ _ Hwf); rewrite El; by left).
      pose proof (ww_nodup _ _ Hwf i) as Hnd. rewrite El in Hnd. apply NoDup_cons in Hnd as [Hn _].
      unfold unlink. rewrite Ei. simpl. rewrite alter_lookup_total, decide_True, El by (by try left).
      rewrite filter_cons_False, filter_all_true; [done| |tauto]. by intros k Hk ->. }
    destruct (IH fuel m1 (unlink n w)) as (m' & -> & Hl'); [by apply unlink_wf|done..|lia|].
    simpl. eauto.
Qed.

Lemma slot_size lo w i : wheel_inv lo w → length (slots w !!! i) <= size (wslot w).
Proof.
  intros Hwf. rewrite <- size_dom, <- (size_list_to_set (C := gset nat)) by apply (ww_nodup _ _ Hwf).
  apply subseteq_size. intros n. rewrite elem_of_list_to_set. intros Hn%(ww_slot _ _ Hwf). by apply elem_of_dom.
Qed.

Lemma emptyLinks_points : points emptyLinks (rings (slots emptyWheel)).
Proof.
  assert (Forall (λ e, wheel_next emptyLinks !! e.1 = Some e.2 ∧ wheel_prev emptyLinks !! e.2 = Some e.1)
    (rings (slots emptyWheel))) as H by (apply (bool_decide_unpack _); vm_compute; exact I).
  intros a b Hin. rewrite Forall_forall in H. exact (H (a, b) Hin).
Qed.

(** C18: the intrusive links implement the slots.  From the links of the
    constructor on, unlinking a node, hanging one before a sentinel and draining
    the slot of the cursor never follow a null pointer, and leave the pointers
    of exactly the lists that the operations on lists leave; the drain hands out
    the nodes of the slot in link order and ends with its sentinel alone. *)
Theorem links_implement_slots :
  linked emptyLinks emptyWheel ∧
  ∀ m w, wheel_wf w → linked m w →
    (∀ n, ∃ m', unlinkL n m = Some m' ∧ linked m' (unlink n w)) ∧
    (∀ n i, wslot w !! n = None → i < K_SLOT_COUNT → ∃ m', linkBeforeL n i m = Some m' ∧ linked m' (linkBefore n i w)) ∧
    (∃ m', drainSlot (cursor (advance w)) m = Some ((drain (advance w)).1, m') ∧ linked m' (drain (advance w)).2).
Proof.
  split.
  - split; [|done]. intros a b. revert a b. apply emptyLinks_points.
  - intros m w Hwf Hl. split; [intros n; by eapply unlink_linked|].
    split; [intros n i; by eapply linkBefore_linked|].
    pose proof (advance_inv w Hwf) as Hwf1. apply (drainL_linked (tick_count w)); try done.
    + destruct Hl as [HP Hs]. by split.
    + apply (ww_cursor _ _ Hwf1).
    + destruct Hl as [_ ->]. apply (slot_size _ (advance w)) with (i := cursor (advance w)) in Hwf1. simpl in *. lia.
Qed.

Lemma links_implement_slots_witness :
  ∃ m1, linkBeforeL 7 1 emptyLinks = Some m1 ∧ linked m1 (linkBefore 7 1 emptyWheel).
Proof.
  apply (proj2 links_implement_slots emptyLinks emptyWheel emptyWheel_wf (proj1 links_implement_slots)).
  - reflexivity.
  - vm_compute. lia.
Defined.
