(* ===== verification/Buffers.v ===== *)
(** * On-disk buffers (include/cinder/store/detail/io_utils.hpp)

    The little-endian buffer writer and reader that the write-ahead log, the
    snapshots, the hint journal and the anti-entropy codec share, and a theory
    of the parsers built from the reader: [reads p l a] says that [p] consumes
    exactly [l] and yields [a], and that any strict prefix of [l] is recognised
    as torn. *)

From S2P Require Import Prelude Types Bytes.
Local Open Scope nat_scope.

(** The writer overwrites a pre-sized buffer, like the one of the wire. *)
Module BufferWriter.

Abbreviation t := ByteWriter.t.

Definition make (buf : bytes) : t := ByteWriter.make buf.

(** [None] is the failed assertion of the constructor. *)
Definition makeAt (buf : bytes) (offset : nat) : option t :=
  if offset <=? length buf then Some (ByteWriter.mk buf offset) else None.

Definition writeBytes (bs : bytes) (w : t) : option t :=
  if ByteWriter.off w + length bs <=? length (ByteWriter.out w) then
    Some (ByteWriter.mk
      (take (ByteWriter.off w) (ByteWriter.out w) ++ bs ++ drop (ByteWriter.off w + length bs) (ByteWriter.out w))
      (ByteWriter.off w + length bs))
  else None.

(** [write<T>] with [n = sizeof(T)], in the host's byte order. *)
Definition write (n : nat) (v : Z) (w : t) : option t := writeBytes (le_encode n v) w.

Definition writeString (s : bytes) (w : t) : option t := writeBytes s w.

Definition offset (w : t) : nat := ByteWriter.off w.

End BufferWriter.

Module BufferReader.

Record t := mk { data : bytes; pos : nat }.

Definition make (d : bytes) : t := mk d 0.

(** A read past the end fails and leaves the position alone. *)
Definition read (n : nat) (r : t) : option (Z * t) :=
  if length (data r) <? pos r + n then None
  else Some (le_decode (take n (drop (pos r) (data r))), mk (data r) (pos r + n)).

Definition readString (len : Z) (r : t) : option (bytes * t) :=
  if (Z.of_nat (length (data r) - pos r) <? len)%Z then None
  else Some (take (Z.to_nat len) (drop (pos r) (data r)), mk (data r) (pos r + Z.to_nat len)).

Definition tryView (len : Z) (r : t) : option (bytes * t) :=
  if (Z.of_nat (length (data r) - pos r) <? len)%Z then None
  else Some (take (Z.to_nat len) (drop (pos r) (data r)), mk (data r) (pos r + Z.to_nat len)).

Definition seek (p : nat) (r : t) : t := mk (data r) (Nat.min p (length (data r))).

Definition remaining (r : t) : nat := length (data r) - pos r.

End BufferReader.

#[global] Arguments BufferReader.read : simpl never.
#[global] Arguments BufferReader.readString : simpl never.
#[global] Arguments BufferReader.tryView : simpl never.
#[global] Arguments BufferWriter.write : simpl never.
#[global] Arguments BufferWriter.writeString : simpl never.

(** ** Parsers *)

(** A value and the reader after it; the end of the input in the middle of it;
    or bytes that are there but mean nothing. *)
Inductive Parse (A : Type) :=
  | Got (a : A) (r : BufferReader.t)
  | Torn (r : BufferReader.t)
  | Bad (r : BufferReader.t).
Arguments Got {A} a r.
Arguments Torn {A} r.
Arguments Bad {A} r.

Definition pbind {A B} (p : BufferReader.t → Parse A) (f : A → BufferReader.t → Parse B) (r : BufferReader.t) : Parse B :=
  match p r with
  | Got a r => f a r
  | Torn r => Torn r
  | Bad r => Bad r
  end.

Definition pret {A} (a : A) (r : BufferReader.t) : Parse A := Got a r.

Definition pbad {A} (r : BufferReader.t) : Parse A := Bad r.

(** [if (!in.read(x)) return std::nullopt;] *)
Definition pread (n : nat) (r : BufferReader.t) : Parse Z :=
  match BufferReader.read n r with Some (z, r) => Got z r | None => Torn r end.

Definition preadString (len : Z) (r : BufferReader.t) : Parse bytes :=
  match BufferReader.readString len r with Some (s, r) => Got s r | None => Torn r end.

Declare Scope parse_scope.
Delimit Scope parse_scope with parse.
Notation "'let?' x := c 'in' k" := (pbind c (λ x, k))
  (at level 10, x pattern, c at level 100, k at level 200) : parse_scope.

(** The reader stands before [rest]. *)
Definition before (r : BufferReader.t) (rest : bytes) : Prop :=
  BufferReader.pos r <= length (BufferReader.data r) ∧ drop (BufferReader.pos r) (BufferReader.data r) = rest.

Definition skip (k : nat) (r : BufferReader.t) : BufferReader.t :=
  BufferReader.mk (BufferReader.data r) (BufferReader.pos r + k).

Record reads {A} (p : BufferReader.t → Parse A) (l : bytes) (a : A) : Prop := mkReads {
  reads_full : ∀ r rest, before r (l ++ rest) → p r = Got a (skip (length l) r);
  reads_torn : ∀ r l', before r l' → l' `prefix_of` l → l' ≠ l → ∃ r', p r = Torn r' }.

Lemma before_make d : before (BufferReader.make d) d.
Proof. split; simpl; [lia|done]. Qed.

Lemma before_length r rest : before r rest → length (BufferReader.data r) = BufferReader.pos r + length rest.
Proof. intros [H <-]. rewrite length_drop. lia. Qed.

Lemma before_skip r l rest : before r (l ++ rest) → before (skip (length l) r) rest.
Proof.
  intros H. pose proof (before_length _ _ H) as Hl. rewrite length_app in Hl. destruct H as [H E].
  split; simpl; [lia|]. by rewrite <- drop_drop, E, drop_app_length.
Qed.

Lemma skip_skip a b r : skip a (skip b r) = skip (b + a) r.
Proof. unfold skip. simpl. f_equal. lia. Qed.

Lemma skip_0 r : skip 0 r = r.
Proof. destruct r as [d p]. unfold skip. simpl. f_equal. lia. Qed.

Lemma reads_ret {A} (a : A) : reads (pret a) [] a.
Proof.
  split; [intros r rest _; simpl; by rewrite skip_0|].
  intros r l' _ Hp Hne. apply prefix_nil_inv in Hp. done.
Qed.

Lemma reads_bind {A B} (p : BufferReader.t → Parse A) (f : A → BufferReader.t → Parse B) l1 l2 a b :
  reads p l1 a → reads (f a) l2 b → reads (pbind p f) (l1 ++ l2) b.
Proof.
  intros [F1 T1] [F2 T2]. split.
  - intros r rest H. rewrite <- app_assoc in H. unfold pbind. rewrite (F1 r (l2 ++ rest) H).
    rewrite (F2 _ rest) by (by apply before_skip). by rewrite skip_skip, length_app.
  - intros r l' H Hp Hne. unfold pbind.
    destruct (prefix_weak_total l1 l' (l1 ++ l2)) as [[l2' ->]|Hp1]; [by apply prefix_app_r|done| |].
    + apply prefix_app_inv in Hp. rewrite (F1 r l2' H). eapply T2; [by apply before_skip|done|]. congruence.
    + destruct (decide (l' = l1)) as [->|Hne1].
      * pose proof (F1 r []) as F. rewrite app_nil_r in F. rewrite F by done.
        apply (T2 _ []); [|apply prefix_nil|]; [|intros <-; by rewrite app_nil_r in Hne].
        apply before_skip. by rewrite app_nil_r.
      * destruct (T1 r l' H Hp1 Hne1) as [r' ->]. eauto.
Qed.

(** A step that changes the result only. *)
Lemma reads_eq {A} (p q : BufferReader.t → Parse A) l l' a : reads p l a → (∀ r, q r = p r) → l' = l → reads q l' a.
Proof. intros [F T] E ->. split; intros *; rewrite E; eauto. Qed.

Lemma reads_read n z : in_u (8 * Z.of_nat n) z → reads (pread n) (le_encode n z) z.
Proof.
  intros Hz. assert (z mod 256 ^ Z.of_nat n = z)%Z as Hm.
  { unfold in_u in Hz. rewrite Z.pow_mul_r in Hz by lia. change (2 ^ 8)%Z with 256%Z in Hz. by apply Z.mod_small. }
  split; unfold pread, BufferReader.read.
  - intros r rest H. pose proof (before_length _ _ H) as Hl. rewrite length_app, le_encode_length in Hl.
    destruct (Nat.ltb_spec (length (BufferReader.data r)) (BufferReader.pos r + n)); [lia|].
    destruct H as [_ ->]. rewrite take_app_length' by (by rewrite le_encode_length).
    by rewrite le_decode_encode, Hm, le_encode_length.
  - intros r l' H Hp Hne. pose proof (before_length _ _ H) as Hl.
    destruct (Nat.ltb_spec (length (BufferReader.data r)) (BufferReader.pos r + n)) as [|Hge]; [eauto|].
    exfalso. apply Hne. apply prefix_length_eq; [done|]. rewrite le_encode_length. lia.
Qed.

Lemma reads_readString s : reads (preadString (zlen s)) s s.
Proof.
  split; unfold preadString, BufferReader.readString, zlen.
  - intros r rest H. pose proof (before_length _ _ H) as Hl. rewrite length_app in Hl.
    destruct (Z.ltb_spec (Z.of_nat (length (BufferReader.data r) - BufferReader.pos r)) (Z.of_nat (length s))); [lia|].
    destruct H as [_ ->]. by rewrite Nat2Z.id, take_app_length.
  - intros r l' H Hp Hne. pose proof (before_length _ _ H) as Hl.
    destruct (Z.ltb_spec (Z.of_nat (length (BufferReader.data r) - BufferReader.pos r)) (Z.of_nat (length s))); [eauto|].
    exfalso. apply Hne. apply prefix_length_eq; [done|]. lia.
Qed.

(** ** What a writer has laid down *)

Lemma wrote_LE w pre n k z :
  wrote w pre n → k <= n → ∃ w', BufferWriter.write k z w = Some w' ∧ wrote w' (pre ++ le_encode k z) (n - k).
Proof.
  intros H Hk. destruct (wrote_writeBytes w pre n (le_encode k z)) as (w' & E & Hw); [done|by rewrite le_encode_length|].
  rewrite le_encode_length in Hw. exists w'. split; [exact E|done].
Qed.

Lemma wrote_bytes w pre n s :
  wrote w pre n → length s <= n → ∃ w', BufferWriter.writeString s w = Some w' ∧ wrote w' (pre ++ s) (n - length s).
Proof. apply wrote_writeBytes. Qed.

(** Run a sequence of writes: each one needs its bytes of room. *)
Ltac wrote_step :=
  match goal with
  | H : wrote ?w _ _ |- context [BufferWriter.write ?k ?z ?w] =>
      let w' := fresh "w" in let E := fresh "E" in
      destruct (wrote_LE w _ _ k z H) as (w' & E & ?); [lia|]; rewrite E; clear H E; cbn [mbind option_bind]
  | H : wrote ?w _ _ |- context [BufferWriter.writeString ?s ?w] =>
      let w' := fresh "w" in let E := fresh "E" in
      destruct (wrote_bytes w _ _ s H) as (w' & E & ?); [lia|]; rewrite E; clear H E; cbn [mbind option_bind]
  end.

(** ** Single reads *)

Lemma read_before n z r rest :
  in_u (8 * Z.of_nat n) z → before r (le_encode n z ++ rest) → BufferReader.read n r = Some (z, skip n r).
Proof.
  intros Hz Hb. pose proof (reads_full _ _ _ (reads_read n z Hz) _ _ Hb) as E. unfold pread in E.
  destruct (BufferReader.read n r) as [[z' r']|]; [|done]. injection E as -> ->. by rewrite le_encode_length.
Qed.

Lemma readString_before s r rest :
  before r (s ++ rest) → BufferReader.readString (zlen s) r = Some (s, skip (length s) r).
Proof.
  intros Hb. pose proof (reads_full _ _ _ (reads_readString s) _ _ Hb) as E. unfold preadString in E.
  destruct (BufferReader.readString (zlen s) r) as [[z' r']|]; [|done]. by injection E as -> ->.
Qed.

Lemma before_skip_le n z r rest : before r (le_encode n z ++ rest) → before (skip n r) rest.
Proof. intros Hb. apply before_skip in Hb. by rewrite le_encode_length in Hb. Qed.

(** A reader of a longer input. *)
Definition extend (x : bytes) (r : BufferReader.t) : BufferReader.t :=
  BufferReader.mk (BufferReader.data r ++ x) (BufferReader.pos r).

Lemma read_extend x n r z r' :
  BufferReader.read n r = Some (z, r') → BufferReader.read n (extend x r) = Some (z, extend x r').
Proof.
  unfold BufferReader.read. simpl. rewrite length_app.
  destruct (Nat.ltb_spec (length (BufferReader.data r)) (BufferReader.pos r + n)) as [|Hge]; [done|].
  intros [= <- <-]. destruct (Nat.ltb_spec (length (BufferReader.data r) + length x) (BufferReader.pos r + n)); [lia|].
  rewrite drop_app_le, take_app_le; [done| |lia]. rewrite length_drop. lia.
Qed.

Lemma readString_extend x len r s r' :
  BufferReader.pos r <= length (BufferReader.data r) →
  BufferReader.readString len r = Some (s, r') → BufferReader.readString len (extend x r) = Some (s, extend x r').
Proof.
  intros Hp. unfold BufferReader.readString. simpl. rewrite length_app.
  destruct (Z.ltb_spec (Z.of_nat (length (BufferReader.data r) - BufferReader.pos r)) len) as [|Hge]; [done|].
  intros [= <- <-].
  destruct (Z.ltb_spec (Z.of_nat (length (BufferReader.data r) + length x - BufferReader.pos r)) len); [lia|].
  rewrite drop_app_le, take_app_le; [done| |lia]. rewrite length_drop. lia.
Qed.

Lemma read_pos n r z r' :
  BufferReader.read n r = Some (z, r') → BufferReader.data r' = BufferReader.data r ∧ BufferReader.pos r' <= length (BufferReader.data r').
Proof.
  unfold BufferReader.read. destruct (Nat.ltb_spec (length (BufferReader.data r)) (BufferReader.pos r + n)); [done|].
  intros [= _ <-]. simpl. split; [done|lia].
Qed.

Lemma readString_pos len r s r' :
  BufferReader.pos r <= length (BufferReader.data r) →
  BufferReader.readString len r = Some (s, r') →
  BufferReader.data r' = BufferReader.data r ∧ BufferReader.pos r' <= length (BufferReader.data r').
Proof.
  intros Hp. unfold BufferReader.readString.
  destruct (Z.ltb_spec (Z.of_nat (length (BufferReader.data r) - BufferReader.pos r)) len); [done|].
  intros [= _ <-]. simpl. split; [done|lia].
Qed.

(** ** Whole fields

    [lays f l]: the writer [f] lays down [l] where there is room for it;
    [takes p l a]: the reader [p] takes [l] from the front and yields [a]. *)
Definition lays (f : BufferWriter.t → option BufferWriter.t) (l : bytes) : Prop :=
  ∀ w pre n, wrote w pre n → length l <= n → ∃ w', f w = Some w' ∧ wrote w' (pre ++ l) (n - length l).

Definition takes {A} (p : BufferReader.t → option (A * BufferReader.t)) (l : bytes) (a : A) : Prop :=
  ∀ r rest, before r (l ++ rest) → p r = Some (a, skip (length l) r).

Lemma lays_write k z : lays (BufferWriter.write k z) (le_encode k z).
Proof. intros w pre n Hw Hn. rewrite le_encode_length in *. by apply wrote_LE. Qed.

Lemma lays_string s : lays (BufferWriter.writeString s) s.
Proof. intros w pre n Hw Hn. by apply wrote_bytes. Qed.

Lemma lays_ret : lays Some [].
Proof. intros w pre n Hw _. exists w. rewrite app_nil_r. simpl. by rewrite Nat.sub_0_r. Qed.

Lemma lays_bind f g l1 l2 : lays f l1 → lays g l2 → lays (λ w, w ← f w; g w) (l1 ++ l2).
Proof.
  intros Hf Hg w pre n Hw Hn. rewrite length_app in *. destruct (Hf w pre n Hw) as (w1 & -> & Hw1); [lia|].
  destruct (Hg w1 _ _ Hw1) as (w2 & E & Hw2); [lia|]. exists w2. split; [done|].
  rewrite app_assoc. by replace (n - (length l1 + length l2)) with (n - length l1 - length l2) by lia.
Qed.

(** A buffer of exactly the size of what is written holds that. *)
Lemma lays_exact f l o :
  lays f l → length o = length l → ∃ w, f (BufferWriter.make o) = Some w ∧ ByteWriter.out w = l.
Proof.
  intros Hf Hl. destruct (Hf _ _ _ (wrote_make o)) as (w & E & Hw); [lia|]. exists w. split; [done|].
  rewrite Hl, Nat.sub_diag in Hw. by destruct (wrote_done _ _ Hw) as [-> _].
Qed.

Lemma takes_read k z : in_u (8 * Z.of_nat k) z → takes (BufferReader.read k) (le_encode k z) z.
Proof. intros Hz r rest Hb. rewrite le_encode_length. by eapply read_before. Qed.

Lemma takes_string s : takes (BufferReader.readString (zlen s)) s s.
Proof. intros r rest Hb. by eapply readString_before. Qed.

Lemma takes_ret {A} (a : A) : takes (λ r, Some (a, r)) [] a.
Proof. intros r rest _. simpl. by rewrite skip_0. Qed.

Lemma takes_bind {A B} (p : BufferReader.t → option (A * BufferReader.t)) (q : A → BufferReader.t → option (B * BufferReader.t)) l1 l2 a b :
  takes p l1 a → takes (q a) l2 b → takes (λ r, '(x, r) ← p r; q x r) (l1 ++ l2) b.
Proof.
  intros Hp Hq r rest Hb. rewrite <- app_assoc in Hb. rewrite (Hp r _ Hb). cbn [mbind option_bind].
  apply before_skip in Hb. rewrite (Hq _ _ Hb), skip_skip, length_app. done.
Qed.

Lemma takes_make {A} (p : BufferReader.t → option (A * BufferReader.t)) l a :
  takes p l a → p (BufferReader.make l) = Some (a, BufferReader.mk l (length l)).
Proof. intros Hp. rewrite (Hp _ []) by (rewrite app_nil_r; apply before_make). done. Qed.

(** What is left after the front is taken. *)
Lemma remaining_before r rest : before r rest → BufferReader.remaining r = length rest.
Proof. intros H. unfold BufferReader.remaining. rewrite (before_length _ _ H). lia. Qed.
