(* ===== verification/Wal.v ===== *)
(** * The write-ahead log (include/cinder/store/wal.hpp, src/store/wal.cpp)

    Record framing, the writer over the bytes of its file, and the reader over
    a whole-file image.  XXH3 is a parameter: a function of the bytes hashed,
    with 64-bit values (hashing in pieces is hashing the concatenation).  What
    [::open] and [::write] answer is an argument of the operations. *)

From S2P Require Import Prelude Types Bytes Buffers.
Local Open Scope Z_scope.

Definition K_WAL_MAGIC : Z := 0x57414C30.
Definition K_WAL_FORMAT_VERSION : Z := 2.

Inductive WalFormat := Legacy | V1 | V2.

#[global] Instance WalFormat_eq_dec : EqDecision WalFormat.
Proof. solve_decision. Defined.

Definition parseWalFormat (v : Z) : option WalFormat :=
  if v =? 1 then Some V1 else if v =? 2 then Some V2 else None.

Definition walHasTombstone (f : WalFormat) : bool := match f with V2 => true | _ => false end.

Inductive Op := OpSet | OpDel.

#[global] Instance Op_eq_dec : EqDecision Op.
Proof. solve_decision. Defined.

(** [std::to_underlying] *)
Definition Op_code (o : Op) : Z := match o with OpSet => 1 | OpDel => 2 end.

Record WalEntry := mkWalEntry {
  we_op : Op;
  we_key : bytes;
  we_value : bytes;
  we_version : Z;
  we_writer_node_hash : Z;
  we_expires_at_ms : Z;
  we_has_ttl : bool;
  we_is_tombstone : bool }.

#[global] Instance WalEntry_eq_dec : EqDecision WalEntry.
Proof. solve_decision. Defined.

(** A record as parsed, before its checksum is compared. *)
Record ParsedEntry := mkParsed {
  p_op : Op;
  p_key_len : Z;
  p_key : bytes;
  p_val_len : Z;
  p_value : bytes;
  p_version : Z;
  p_writer_node_hash : Z;
  p_expires_ms : Z;
  p_has_ttl : Z;
  p_tombstone : Z }.

Definition readOp (r : BufferReader.t) : Parse Op :=
  (let? op_byte := pread 1 in
   if op_byte =? 1 then pret OpSet else if op_byte =? 2 then pret OpDel else pbad)%parse r.

Definition readTombstone (format : WalFormat) (r : BufferReader.t) : Parse Z :=
  (if walHasTombstone format then
     let? b := pread 1 in
     if b >? 1 then pbad else pret b
   else pret 0)%parse r.

Definition readEntryFields (format : WalFormat) (r : BufferReader.t) : Parse ParsedEntry :=
  (let? op := readOp in
   let? key_len := pread 4 in
   let? key := preadString key_len in
   let? val_len := pread 4 in
   let? value := preadString val_len in
   let? version := pread 8 in
   let? writer_hash := pread 8 in
   let? expires_ms := pread 8 in
   let? has_ttl := pread 1 in
   let? tombstone := readTombstone format in
   pret (mkParsed op key_len key val_len value version writer_hash expires_ms has_ttl tombstone))%parse r.

Definition toWalEntry (e : ParsedEntry) : WalEntry :=
  mkWalEntry (p_op e) (p_key e) (p_value e) (p_version e) (p_writer_node_hash e) (p_expires_ms e)
    (negb (p_has_ttl e =? 0)) (negb (p_tombstone e =? 0)).

(** Encoded length with the trailing checksum. *)
Definition encodedRecordSize (e : WalEntry) : nat :=
  (length (we_key e) + length (we_value e) + (1 + 4 + 4 + 8 + 8 + 8 + 1 + 1 + 8))%nat.

#[global] Arguments encodedRecordSize : simpl never.

Fixpoint totalSize (es : list WalEntry) : nat :=
  match es with
  | [] => 0
  | e :: es => encodedRecordSize e + totalSize es
  end.

Definition flag (b : bool) : Z := if b then 1 else 0.

(** What a call of [::write] answers: a number of bytes, an interruption, or an
    error.  A list that ends early stands for errors from there on. *)
Inductive WriteOutcome := Wrote (n : nat) | Eintr | WriteError.

Fixpoint writeAll (os : list WriteOutcome) (bs file : bytes) : bool * bytes :=
  match bs with
  | [] => (true, file)
  | _ =>
      match os with
      | [] | WriteError :: _ | Wrote O :: _ => (false, file)
      | Eintr :: os => writeAll os bs file
      | Wrote n :: os => writeAll os (drop n bs) (file ++ take n bs)
      end
  end.

(** The writer: whether the descriptor is open, the bytes of the file behind it
    and the reused buffer. *)
Record WalWriter := mkWalWriter { w_open : bool; w_file : bytes; w_scratch : bytes }.

Inductive WalOpenMode := Truncate | Append.

(** The answers of the system while the file is opened. *)
Record OpenIo := mkOpenIo { open_ok : bool; reopen_ok : bool; header_io : list WriteOutcome }.

(** [readExactly] of the eight bytes of the header. *)
Definition probeHeader (file : bytes) : option (Z * Z) :=
  if (8 <=? length file)%nat then Some (le_decode (take 4 file), le_decode (take 4 (drop 4 file))) else None.

Definition writeHeader (io : list WriteOutcome) (w : WalWriter) : option WalWriter :=
  let s := resize 8 (w_scratch w) in
  h ← BufferWriter.write 4 K_WAL_MAGIC (BufferWriter.make s);
  h ← BufferWriter.write 4 K_WAL_FORMAT_VERSION h;
  let '(ok, file) := writeAll io (ByteWriter.out h) (w_file w) in
  Some (mkWalWriter ok file (ByteWriter.out h)).

(** The constructor on the file's present contents; [None] inside the result is
    a failed assertion. *)
Definition openWal (io : OpenIo) (existing : option bytes) (mode : WalOpenMode) : option WalWriter :=
  let before := default [] existing in
  if negb (open_ok io) then Some (mkWalWriter false before [])
  else match mode with
  | Truncate => writeHeader (header_io io) (mkWalWriter true [] [])
  | Append =>
      match probeHeader before with
      | None => writeHeader (header_io io) (mkWalWriter true before [])
      | Some (magic, version) =>
          if (magic =? K_WAL_MAGIC) && bool_decide (is_Some (parseWalFormat version)) then
            Some (mkWalWriter true before [])
          else if negb (reopen_ok io) then Some (mkWalWriter false before [])
          else writeHeader (header_io io) (mkWalWriter true [] [])
      end
  end.

Definition u32_max : Z := 2 ^ 32 - 1.

Definition too_large (e : WalEntry) : bool := (zlen (we_key e) >? u32_max) || (zlen (we_value e) >? u32_max).

Definition err_not_open : Error := mkError InternalError (lit "WAL file not open").
Definition err_too_large : Error := mkError InvalidArgument (lit "WAL entry too large").
Definition err_write : Error := mkError InternalError (lit "WAL write failed").

Definition writeScratch (io : list WriteOutcome) (w : WalWriter) : Result () * WalWriter :=
  let '(ok, file) := writeAll io (w_scratch w) (w_file w) in
  (if ok then Ok () else Err err_write, mkWalWriter (w_open w) file (w_scratch w)).

(** The reader: the image, the position, the end of the last whole record. *)
Record WalReader := mkWalReader {
  wr_data : bytes;
  wr_pos : nat;
  wr_commit : nat;
  wr_format : WalFormat;
  wr_corrupted : bool }.

Definition openReader (file : option bytes) : WalReader :=
  match file with
  | None | Some [] => mkWalReader [] 0 0 Legacy false
  | Some data =>
      let legacy := mkWalReader data 0 0 Legacy false in
      match BufferReader.read 4 (BufferReader.make data) with
      | None => legacy
      | Some (magic, h) =>
          if magic =? K_WAL_MAGIC then
            match BufferReader.read 4 h with
            | None => legacy
            | Some (version, h) =>
                match parseWalFormat version with
                | Some format => mkWalReader data (BufferReader.pos h) 0 format false
                | None => legacy
                end
            end
          else legacy
      end
  end.

Definition hasMore (rd : WalReader) : bool := (wr_pos rd <? length (wr_data rd))%nat.

Definition validSize (rd : WalReader) : nat := wr_commit rd.

(** The reader after an attempt that produced no record. *)
Definition stopped (bad : bool) (r : BufferReader.t) (rd : WalReader) : WalReader :=
  mkWalReader (wr_data rd) (BufferReader.pos r) (wr_commit rd) (wr_format rd) (bad || wr_corrupted rd).

Definition committed (r : BufferReader.t) (rd : WalReader) : WalReader :=
  mkWalReader (wr_data rd) (BufferReader.pos r) (BufferReader.pos r) (wr_format rd) (wr_corrupted rd).

Section wal.
Context (xxh3 : bytes → Z).

(** The checksum of a parsed record, over its on-disk image. *)
Definition computeEntryChecksum (e : ParsedEntry) (format : WalFormat) : Z :=
  xxh3 (le_encode 1 (Op_code (p_op e)) ++ le_encode 4 (p_key_len e) ++ p_key e ++ le_encode 4 (p_val_len e) ++
        p_value e ++ le_encode 8 (p_version e) ++ le_encode 8 (p_writer_node_hash e) ++ le_encode 8 (p_expires_ms e) ++
        le_encode 1 (p_has_ttl e) ++ (if walHasTombstone format then le_encode 1 (p_tombstone e) else [])).

Definition encodeWalRecord (e : WalEntry) (w : BufferWriter.t) : option BufferWriter.t :=
  let record_start := BufferWriter.offset w in
  w ← BufferWriter.write 1 (Op_code (we_op e)) w;
  w ← BufferWriter.write 4 (u32 (zlen (we_key e))) w;
  w ← BufferWriter.writeString (we_key e) w;
  w ← BufferWriter.write 4 (u32 (zlen (we_value e))) w;
  w ← BufferWriter.writeString (we_value e) w;
  w ← BufferWriter.write 8 (we_version e) w;
  w ← BufferWriter.write 8 (we_writer_node_hash e) w;
  w ← BufferWriter.write 8 (we_expires_at_ms e) w;
  w ← BufferWriter.write 1 (flag (we_has_ttl e)) w;
  w ← BufferWriter.write 1 (flag (we_is_tombstone e)) w;
  let digest := xxh3 (take (BufferWriter.offset w - record_start) (drop record_start (ByteWriter.out w))) in
  BufferWriter.write 8 digest w.

Fixpoint encodeAll (es : list WalEntry) (w : BufferWriter.t) : option BufferWriter.t :=
  match es with
  | [] => Some w
  | e :: es => w ← encodeWalRecord e w; encodeAll es w
  end.

(** [None] is a failed assertion of the buffer writer. *)
Definition append (io : list WriteOutcome) (e : WalEntry) (w : WalWriter) : option (Result () * WalWriter) :=
  if negb (w_open w) then Some (Err err_not_open, w)
  else if too_large e then Some (Err err_too_large, w)
  else
    b ← encodeWalRecord e (BufferWriter.make (resize (encodedRecordSize e) (w_scratch w)));
    Some (writeScratch io (mkWalWriter (w_open w) (w_file w) (ByteWriter.out b))).

Definition appendBatch (io : list WriteOutcome) (es : list WalEntry) (w : WalWriter) : option (Result nat * WalWriter) :=
  if negb (w_open w) then Some (Err err_not_open, w)
  else match es with
  | [] => Some (Ok 0%nat, w)
  | _ =>
      if existsb too_large es then Some (Err err_too_large, w)
      else
        let total := totalSize es in
        b ← encodeAll es (BufferWriter.make (resize total (w_scratch w)));
        let '(r, w) := writeScratch io (mkWalWriter (w_open w) (w_file w) (ByteWriter.out b)) in
        Some (match r with Ok _ => Ok total | Err e => Err e end, w)
  end.

Definition next (rd : WalReader) : option WalEntry * WalReader :=
  let r := BufferReader.seek (wr_pos rd) (BufferReader.make (wr_data rd)) in
  match readEntryFields (wr_format rd) r with
  | Bad r => (None, stopped true r rd)
  | Torn r => (None, stopped false r rd)
  | Got fields r =>
      if bool_decide (wr_format rd = Legacy) then (Some (toWalEntry fields), committed r rd)
      else match BufferReader.read 8 r with
      | None => (None, stopped false r rd)
      | Some (stored, r) =>
          if computeEntryChecksum fields (wr_format rd) =? stored then (Some (toWalEntry fields), committed r rd)
          else (None, stopped true r rd)
      end
  end.

(** The loop of replay: records until the end, a torn tail or corruption. *)
Fixpoint records_loop (fuel : nat) (rd : WalReader) : list WalEntry * WalReader :=
  match fuel with
  | O => ([], rd)
  | S fuel =>
      if hasMore rd then
        match next rd with
        | (None, rd) => ([], rd)
        | (Some e, rd) => let '(es, rd) := records_loop fuel rd in (e :: es, rd)
        end
      else ([], rd)
  end.

(** Every turn of the loop that goes on consumes bytes of the image. *)
Definition records (rd : WalReader) : list WalEntry * WalReader := records_loop (S (length (wr_data rd))) rd.

End wal.

(** ** The layout of a log *)

Section layout.
Context (xxh3 : bytes → Z).
Hypothesis xxh3_range : ∀ b, in_u 64 (xxh3 b).

(** A record without its checksum, with it, and the log of a list of entries. *)
Definition body (e : WalEntry) : bytes :=
  le_encode 1 (Op_code (we_op e)) ++ le_encode 4 (zlen (we_key e)) ++ we_key e ++ le_encode 4 (zlen (we_value e)) ++
  we_value e ++ le_encode 8 (we_version e) ++ le_encode 8 (we_writer_node_hash e) ++ le_encode 8 (we_expires_at_ms e) ++
  le_encode 1 (flag (we_has_ttl e)) ++ le_encode 1 (flag (we_is_tombstone e)).

Definition record (e : WalEntry) : bytes := body e ++ le_encode 8 (xxh3 (body e)).

Definition header : bytes := le_encode 4 K_WAL_MAGIC ++ le_encode 4 K_WAL_FORMAT_VERSION.

Definition log (es : list WalEntry) : bytes := header ++ concat (record <$> es).

#[local] Arguments body : simpl never.
#[local] Arguments record : simpl never.

(** The fields fit their widths. *)
Record entry_ok (e : WalEntry) : Prop := mkEntryOk {
  ok_key : zlen (we_key e) <= u32_max;
  ok_value : zlen (we_value e) <= u32_max;
  ok_version : in_u 64 (we_version e);
  ok_writer : in_u 64 (we_writer_node_hash e);
  ok_expires : in_u 64 (we_expires_at_ms e) }.

Lemma zlen_u32 (s : bytes) : zlen s <= u32_max → in_u 32 (zlen s).
Proof. unfold in_u, u32_max, zlen. lia. Qed.

Lemma body_length e : length (body e) = (encodedRecordSize e - 8)%nat.
Proof. unfold body, encodedRecordSize. rewrite !length_app, !le_encode_length. lia. Qed.

Lemma record_length e : length (record e) = encodedRecordSize e.
Proof.
  unfold record. rewrite length_app, body_length, le_encode_length. unfold encodedRecordSize. lia.
Qed.

Lemma records_length es : length (concat (record <$> es)) = totalSize es.
Proof. induction es as [|e es IH]; [done|]. rewrite fmap_cons. cbn [concat totalSize]. by rewrite length_app, record_length, IH. Qed.

(** ** Writing *)

Lemma encodeWalRecord_spec w pre n e :
  entry_ok e → wrote w pre n → (encodedRecordSize e <= n)%nat →
  ∃ w', encodeWalRecord xxh3 e w = Some w' ∧ wrote w' (pre ++ record e) (n - encodedRecordSize e).
Proof.
  intros Hok Hw Hn. unfold encodeWalRecord, BufferWriter.offset.
  pose proof (ok_key e Hok) as Hk%zlen_u32. pose proof (ok_value e Hok) as Hv%zlen_u32.
  rewrite (wrap_small _ _ Hk), (wrap_small _ _ Hv).
  assert (ByteWriter.off w = length pre) as Hs by (by destruct Hw as (? & _ & ? & _)). rewrite Hs. clear Hs.
  unfold encodedRecordSize in *. do 10 wrote_step.
  match goal with H : wrote ?w ?p ?k |- _ => assert (wrote w (pre ++ body e) k) as Hb; [|clear H] end.
  { unfold body. by rewrite <- !app_assoc in *. }
  match goal with |- context [xxh3 ?b] => assert (b = body e) as -> end.
  { destruct Hb as (rest & -> & -> & _). rewrite <- app_assoc, drop_app_length, length_app.
    by rewrite Nat.add_sub', take_app_length. }
  clear xxh3_range.
  wrote_step. eexists. split; [done|]. unfold record. rewrite app_assoc.
  match goal with H : wrote ?w ?p ?k |- wrote ?w ?p' ?k' => replace k' with k; [exact H|] end. lia.
Qed.

Lemma encodeAll_spec es w pre n :
  Forall entry_ok es → wrote w pre n → (totalSize es <= n)%nat →
  ∃ w', encodeAll xxh3 es w = Some w' ∧
    wrote w' (pre ++ concat (record <$> es)) (n - totalSize es).
Proof.
  intros Hes. revert w pre n. induction Hes as [|e es He _ IH]; intros w pre n Hw Hn; csimpl in *.
  { exists w. rewrite app_nil_r, Nat.sub_0_r. done. }
  destruct (encodeWalRecord_spec w pre n e He Hw) as (w1 & -> & H1); [lia|]. cbn [mbind option_bind].
  destruct (IH w1 _ _ H1) as (w2 & -> & H2); [lia|]. exists w2. split; [done|].
  rewrite <- app_assoc in H2. by rewrite Nat.sub_add_distr.
Qed.

Lemma writeAll_spec os bs file :
  ∃ k, writeAll os bs file = (bool_decide (k = length bs), file ++ take k bs) ∧ (k <= length bs)%nat.
Proof.
  revert bs file. induction os as [|o os IH]; intros [|b bs] file.
  - exists 0%nat. simpl. by rewrite app_nil_r.
  - exists 0%nat. simpl. rewrite app_nil_r. split; [done|lia].
  - exists 0%nat. simpl. by rewrite app_nil_r.
  - destruct o as [[|n]| |]; try (exists 0%nat; simpl; rewrite app_nil_r; split; [done|lia]).
    + destruct (IH (drop (S n) (b :: bs)) (file ++ take (S n) (b :: bs))) as (k & E & Hk).
      exists (Nat.min (S n) (length (b :: bs)) + k)%nat. cbn [writeAll]. rewrite E.
      assert (take (S n) (b :: bs) ++ take k (drop (S n) (b :: bs))
        = take (Nat.min (S n) (length (b :: bs)) + k) (b :: bs)) as Et.
      { rewrite length_drop in Hk. destruct (decide (S n <= length (b :: bs))%nat).
        - rewrite Nat.min_l by done. by rewrite take_take_drop.
        - rewrite Nat.min_r by lia. rewrite drop_ge, take_nil, app_nil_r by lia. rewrite !take_ge by lia. done. }
      rewrite <- app_assoc, Et. rewrite length_drop in *. split; [f_equal; apply bool_decide_ext; lia|lia].
    + apply IH.
Qed.

Lemma writeAll_true os bs file file' : writeAll os bs file = (true, file') → file' = file ++ bs.
Proof.
  destruct (writeAll_spec os bs file) as (k & -> & Hk). intros [= Hd <-]. apply bool_decide_eq_true in Hd as ->.
  by rewrite take_ge.
Qed.

Lemma open_fresh io existing w :
  openWal io existing Truncate = Some w → w_open w = true → w_file w = log [].
Proof.
  unfold openWal. destruct (open_ok io); simpl; [|by intros [= <-]]. unfold writeHeader.
  pose proof (wrote_make (resize 8 [])) as Hw. rewrite resize_length in Hw.
  unfold BufferWriter.make. simpl w_scratch. do 2 wrote_step.
  match goal with H : wrote _ _ _ |- _ => apply (wrote_done _ _) in H as [-> _] end.
  destruct (writeAll _ _ _) as [ok file] eqn:E. intros [= <-]. simpl. intros ->.
  apply writeAll_true in E as ->. done.
Qed.

Lemma append_spec io e w :
  entry_ok e → w_open w = true →
  ∃ r w', append xxh3 io e w = Some (r, w') ∧ w_open w' = true ∧ (r = Ok () → w_file w' = w_file w ++ record e).
Proof.
  intros He Ho. unfold append, BufferWriter.make. rewrite Ho. cbn [negb].
  assert (too_large e = false) as ->.
  { destruct He. unfold too_large. apply orb_false_iff. lia. }
  destruct (encodeWalRecord_spec (ByteWriter.make (resize (encodedRecordSize e) (w_scratch w))) [] (encodedRecordSize e) e He)
    as (b & -> & Hb); [|done|].
  { pose proof (wrote_make (resize (encodedRecordSize e) (w_scratch w))) as Hw. by rewrite resize_length in Hw. }
  cbn [mbind option_bind]. rewrite Nat.sub_diag in Hb. apply wrote_done in Hb as [-> _].
  unfold writeScratch. cbn [w_scratch w_file w_open app].
  destruct (writeAll _ _ _) as [[] file] eqn:E; eexists _, _; split_and!; try done.
  intros _. by apply writeAll_true in E.
Qed.

Lemma appendBatch_eq io es w :
  Forall entry_ok es → w_open w = true → es ≠ [] →
  appendBatch xxh3 io es w =
    let '(ok, file) := writeAll io (concat (record <$> es)) (w_file w) in
    Some (if ok then Ok (totalSize es) else Err err_write, mkWalWriter true file (concat (record <$> es))).
Proof.
  intros Hes Ho Hne. unfold appendBatch, BufferWriter.make. rewrite Ho. cbn [negb].
  assert (existsb too_large es = false) as Hl.
  { rewrite <- not_true_iff_false, existsb_exists. intros (x & Hx%list_elem_of_In & Hl).
    rewrite Forall_forall in Hes. destruct (Hes x Hx). unfold too_large in Hl. apply orb_true_iff in Hl. lia. }
  destruct (encodeAll_spec es (ByteWriter.make (resize (totalSize es) (w_scratch w))) [] (totalSize es) Hes)
    as (b & Eb & Hb); [|done|].
  { pose proof (wrote_make (resize (totalSize es) (w_scratch w))) as Hw. by rewrite resize_length in Hw. }
  rewrite Nat.sub_diag in Hb. apply wrote_done in Hb as [Hb _].
  destruct es as [|e es]; [done|]. rewrite Hl, Eb. cbn [mbind option_bind]. rewrite Hb. unfold writeScratch.
  cbn [w_scratch w_file w_open app]. by destruct (writeAll _ _ _) as [[] file].
Qed.

Lemma appendBatch_spec io es w :
  Forall entry_ok es → w_open w = true →
  ∃ r w', appendBatch xxh3 io es w = Some (r, w') ∧ w_open w' = true ∧
    (∀ n, r = Ok n → w_file w' = w_file w ++ concat (record <$> es) ∧ n = length (concat (record <$> es))).
Proof.
  intros Hes Ho. destruct (decide (es = [])) as [->|Hne].
  { unfold appendBatch. rewrite Ho. eexists _, _. split_and!; try done. intros n [= <-]. simpl. by rewrite app_nil_r. }
  rewrite appendBatch_eq by done. destruct (writeAll _ _ _) as [[] file] eqn:E; eexists _, _; split_and!; try done.
  intros n [= <-]. apply writeAll_true in E. split; [done|]. symmetry. apply records_length.
Qed.

(** ** Reading *)

Definition parsed (e : WalEntry) : ParsedEntry :=
  mkParsed (we_op e) (zlen (we_key e)) (we_key e) (zlen (we_value e)) (we_value e) (we_version e) (we_writer_node_hash e)
    (we_expires_at_ms e) (flag (we_has_ttl e)) (flag (we_is_tombstone e)).

Lemma toWalEntry_parsed e : toWalEntry (parsed e) = e.
Proof. destruct e as [? ? ? ? ? ? [] []]; done. Qed.

Lemma reads_byte z : 0 <= z < 256 → reads (pread 1) (le_encode 1 z) z.
Proof. intros Hz. apply reads_read. exact Hz. Qed.

Lemma reads_op o : reads readOp (le_encode 1 (Op_code o)) o.
Proof.
  eapply reads_eq; [eapply (reads_bind _ _ _ [])| |by rewrite app_nil_r]; [|..|done].
  - apply (reads_byte (Op_code o)). destruct o; simpl; lia.
  - destruct o; apply reads_ret.
Qed.

Lemma reads_tombstone b : reads (readTombstone V2) (le_encode 1 (flag b)) (flag b).
Proof.
  eapply reads_eq; [eapply (reads_bind _ _ _ [])| |by rewrite app_nil_r]; [|..|done].
  - apply (reads_byte (flag b)). destruct b; simpl; lia.
  - destruct b; apply reads_ret.
Qed.

(** A record up to its tombstone byte. *)
Definition body1 (e : WalEntry) : bytes :=
  le_encode 1 (Op_code (we_op e)) ++ le_encode 4 (zlen (we_key e)) ++ we_key e ++ le_encode 4 (zlen (we_value e)) ++
  we_value e ++ le_encode 8 (we_version e) ++ le_encode 8 (we_writer_node_hash e) ++ le_encode 8 (we_expires_at_ms e) ++
  le_encode 1 (flag (we_has_ttl e)).

Definition parsed1 (e : WalEntry) (t : Z) : ParsedEntry :=
  mkParsed (we_op e) (zlen (we_key e)) (we_key e) (zlen (we_value e)) (we_value e) (we_version e) (we_writer_node_hash e)
    (we_expires_at_ms e) (flag (we_has_ttl e)) t.

Lemma reads_fields_gen f lt t e :
  entry_ok e → reads (readTombstone f) lt t → reads (readEntryFields f) (body1 e ++ lt) (parsed1 e t).
Proof.
  intros Hok Ht. pose proof (ok_key e Hok) as Hk%zlen_u32. pose proof (ok_value e Hok) as Hv%zlen_u32. destruct Hok.
  eapply reads_eq; [|done|unfold body1; rewrite <- !app_assoc; reflexivity].
  apply reads_bind with (we_op e); [apply reads_op|].
  apply reads_bind with (zlen (we_key e)); [by apply reads_read|].
  apply reads_bind with (we_key e); [apply reads_readString|].
  apply reads_bind with (zlen (we_value e)); [by apply reads_read|].
  apply reads_bind with (we_value e); [apply reads_readString|].
  apply reads_bind with (we_version e); [by apply reads_read|].
  apply reads_bind with (we_writer_node_hash e); [by apply reads_read|].
  apply reads_bind with (we_expires_at_ms e); [by apply reads_read|].
  apply reads_bind with (flag (we_has_ttl e)); [apply reads_byte; destruct (we_has_ttl e); simpl; lia|].
  eapply reads_eq; [|done|exact (eq_sym (app_nil_r lt))]. eapply reads_bind; [exact Ht|apply reads_ret].
Qed.

Lemma body_body1 e : body e = body1 e ++ le_encode 1 (flag (we_is_tombstone e)).
Proof. unfold body, body1. by rewrite <- !app_assoc. Qed.

Lemma reads_fields e : entry_ok e → reads (readEntryFields V2) (body e) (parsed e).
Proof. intros Hok. rewrite body_body1. apply (reads_fields_gen V2 _ _ e Hok), reads_tombstone. Qed.

Lemma reads_fields_v1 e : entry_ok e → reads (readEntryFields V1) (body1 e) (parsed1 e 0).
Proof. intros Hok. rewrite <- (app_nil_r (body1 e)). apply (reads_fields_gen V1 _ _ e Hok). apply (reads_ret 0). Qed.

(** The fields and the checksum behind them. *)
Lemma reads_record e :
  entry_ok e →
  reads (let? f := readEntryFields V2 in let? d := pread 8 in pret (f, d))%parse (record e) (parsed e, xxh3 (body e)).
Proof.
  intros Hok. unfold record. apply reads_bind with (parsed e); [by apply reads_fields|].
  rewrite <- (app_nil_r (le_encode 8 _)). apply reads_bind with (xxh3 (body e)); [|apply reads_ret].
  apply reads_read, xxh3_range.
Qed.

(** The part of the image a reader has not decoded. *)
Definition unread (rd : WalReader) (rest : bytes) : Prop :=
  wr_format rd = V2 ∧ before (BufferReader.mk (wr_data rd) (wr_pos rd)) rest.

Lemma unread_seek rd rest :
  unread rd rest → BufferReader.seek (wr_pos rd) (BufferReader.make (wr_data rd)) = BufferReader.mk (wr_data rd) (wr_pos rd).
Proof. intros [_ [H _]]. unfold BufferReader.seek. simpl in *. by rewrite Nat.min_l. Qed.

Lemma next_full rd e rest :
  entry_ok e → unread rd (record e ++ rest) →
  ∃ rd', next xxh3 rd = (Some e, rd') ∧ unread rd' rest ∧ wr_data rd' = wr_data rd ∧ wr_corrupted rd' = wr_corrupted rd ∧
    wr_pos rd' = (wr_pos rd + length (record e))%nat ∧ wr_commit rd' = wr_pos rd'.
Proof.
  intros Hok Hu. pose proof Hu as [Hf Hb]. pose proof (reads_full _ _ _ (reads_record e Hok) _ _ Hb) as E.
  unfold next. rewrite (unread_seek _ _ Hu), Hf. unfold pbind in E.
  destruct (readEntryFields V2 _) as [f r|r|r]; [|done..]. unfold pread in E.
  destruct (BufferReader.read 8 r) as [[d r']|]; [|done]. unfold pret in E. injection E as -> -> ->.
  rewrite bool_decide_eq_false_2 by done. change (computeEntryChecksum xxh3 (parsed e) V2) with (xxh3 (body e)).
  rewrite Z.eqb_refl, toWalEntry_parsed. eexists. split; [done|]. unfold committed, skip.
  cbn [BufferReader.pos BufferReader.data]. split_and!; try done.
  split; [done|]. exact (before_skip _ _ _ Hb).
Qed.

Lemma next_torn rd e tail :
  entry_ok e → unread rd tail → tail `prefix_of` record e → tail ≠ record e →
  ∃ rd', next xxh3 rd = (None, rd') ∧ wr_corrupted rd' = wr_corrupted rd ∧ wr_commit rd' = wr_commit rd.
Proof.
  intros Hok Hu Hp Hne. pose proof Hu as [Hf Hb].
  destruct (reads_torn _ _ _ (reads_record e Hok) _ _ Hb Hp Hne) as [r' E].
  unfold next. rewrite (unread_seek _ _ Hu), Hf. unfold pbind in E.
  destruct (readEntryFields V2 _) as [f r|r|r]; [|by eexists|done]. unfold pread in E.
  rewrite bool_decide_eq_false_2 by done.
  destruct (BufferReader.read 8 r) as [[d r2]|]; [done|]. by eexists.
Qed.

(** What is left at the end of a log after a crash: nothing, or a part of the
    record that was being written. *)
Definition torn_tail (tail : bytes) : Prop :=
  tail = [] ∨ ∃ e, entry_ok e ∧ tail `prefix_of` record e ∧ tail ≠ record e.

Lemma records_loop_spec es tail rd fuel :
  Forall entry_ok es → torn_tail tail → unread rd (concat (record <$> es) ++ tail) → (length es < fuel)%nat →
  ∃ rd', records_loop xxh3 fuel rd = (es, rd') ∧ wr_corrupted rd' = wr_corrupted rd ∧
    wr_commit rd' = if decide (es = []) then wr_commit rd else (wr_pos rd + totalSize es)%nat.
Proof.
  intros Hes Ht. revert rd fuel. induction Hes as [|e es He _ IH]; intros rd [|fuel] Hu Hlt; cbn [length] in Hlt; try lia;
    cbn [records_loop]; unfold hasMore; pose proof Hu as [_ Hb]; pose proof (before_length _ _ Hb) as Hl;
    cbn [BufferReader.data BufferReader.pos] in Hl.
  - destruct Ht as [->|(e & He & Hp & Hne)].
    + simpl in Hl. destruct (Nat.ltb_spec (wr_pos rd) (length (wr_data rd))); [lia|]. eauto.
    + destruct (Nat.ltb_spec (wr_pos rd) (length (wr_data rd))); [|eauto].
      destruct (next_torn rd e tail He Hu Hp Hne) as (rd' & -> & ? & ?). eauto.
  - rewrite fmap_cons in Hu. cbn [concat] in Hu. rewrite <- app_assoc in Hu.
    rewrite length_app, fmap_cons in Hl. cbn [concat] in Hl. rewrite length_app, record_length in Hl.
    destruct (Nat.ltb_spec (wr_pos rd) (length (wr_data rd))) as [_|Hge]; [|unfold encodedRecordSize in Hl; lia].
    destruct (next_full rd e _ He Hu) as (rd1 & -> & Hu1 & Hd1 & Hc1 & Hp1 & Hm1).
    destruct (IH rd1 fuel Hu1) as (rd2 & -> & Hc2 & Hm2); [lia|]. exists rd2. split; [done|]. split; [congruence|].
    rewrite decide_False by done. rewrite Hm2, Hm1, Hp1, record_length. cbn [totalSize].
    case_decide; [subst; simpl; lia|lia].
Qed.

Lemma openReader_header l : openReader (Some (header ++ l)) = mkWalReader (header ++ l) 8 0 V2 false.
Proof. reflexivity. Qed.

Lemma totalSize_length es : (length es <= totalSize es)%nat.
Proof. induction es as [|e es IH]; simpl; [lia|]. unfold encodedRecordSize. lia. Qed.

Lemma records_spec es tail :
  Forall entry_ok es → torn_tail tail →
  ∃ rd, records xxh3 (openReader (Some (log es ++ tail))) = (es, rd) ∧ wr_corrupted rd = false ∧
    validSize rd = if decide (es = []) then 0%nat else length (log es).
Proof.
  intros Hes Ht. unfold log. rewrite <- app_assoc, openReader_header. unfold records.
  pose proof (totalSize_length es) as Hl.
  edestruct (records_loop_spec es tail) as (rd & E & Hc & Hm); [done|done| | |exists rd; split; [exact E|]].
  - split; [done|]. split; [simpl; lia|]. done.
  - cbn [wr_data]. rewrite !length_app, records_length. lia.
  - split; [done|]. unfold validSize. rewrite Hm, length_app, records_length. done.
Qed.

(** ** Crashes and histories *)

Lemma cut_records es j :
  Forall entry_ok es →
  ∃ kept tail, take j (concat (record <$> es)) = concat (record <$> kept) ++ tail ∧ torn_tail tail ∧
    kept `prefix_of` es ∧ ∀ p, p `prefix_of` es → (totalSize p <= j)%nat → p `prefix_of` kept.
Proof.
  intros Hes. destruct (cut_concat record es j) as (kept & tail & E & Ht & Hp & Hm). exists kept, tail. split_and!; try done.
  - destruct Ht as [->|(e & He & ?)]; [by left|right]. exists e. split; [|done]. by apply (proj1 (Forall_forall _ _) Hes).
  - intros p Hpe Hs. apply Hm; [done|]. by rewrite records_length.
Qed.

Lemma log_app es more : log (es ++ more) = log es ++ concat (record <$> more).
Proof. unfold log. by rewrite fmap_app, concat_app, app_assoc. Qed.

Lemma log_length es : length (log es) = (8 + totalSize es)%nat.
Proof. unfold log. rewrite length_app, records_length. done. Qed.

(** Appending resumes a valid log and starts one in an empty file. *)
Lemma open_append io es w :
  openWal io (Some (log es)) Append = Some w → w_open w = true → w_file w = log es.
Proof.
  unfold openWal. destruct (open_ok io); simpl; [|by intros [= <-]]. by intros [= <-].
Qed.

Lemma open_append_empty io w :
  openWal io (Some []) Append = Some w → w_open w = true → w_file w = log [].
Proof. intros E. apply (open_fresh io None). rewrite <- E. unfold openWal. by destruct (open_ok io). Qed.

(** A call of the writer, with what the system answers to its writes. *)
Inductive WalCall := CallAppend (io : list WriteOutcome) (e : WalEntry) | CallBatch (io : list WriteOutcome) (es : list WalEntry).

Definition call_entries (c : WalCall) : list WalEntry := match c with CallAppend _ e => [e] | CallBatch _ es => es end.

(** Run the calls; the flag says whether all of them succeeded. *)
Fixpoint run_calls (cs : list WalCall) (w : WalWriter) : option (bool * WalWriter) :=
  match cs with
  | [] => Some (true, w)
  | CallAppend io e :: cs =>
      '(r, w) ← append xxh3 io e w;
      '(ok, w) ← run_calls cs w;
      Some (match r with Ok _ => ok | Err _ => false end, w)
  | CallBatch io es :: cs =>
      '(r, w) ← appendBatch xxh3 io es w;
      '(ok, w) ← run_calls cs w;
      Some (match r with Ok _ => ok | Err _ => false end, w)
  end.

Lemma run_calls_spec cs w :
  Forall entry_ok (cs ≫= call_entries) → w_open w = true →
  ∃ ok w', run_calls cs w = Some (ok, w') ∧ (ok = true → w_file w' = w_file w ++ concat (record <$> (cs ≫= call_entries))).
Proof.
  revert w. induction cs as [|c cs IH]; intros w Hes Ho.
  { exists true, w. simpl. by rewrite app_nil_r. }
  rewrite bind_cons in *. apply Forall_app in Hes as [He Hes]. rewrite fmap_app, concat_app.
  destruct c as [io e|io es]; cbn [call_entries run_calls] in *.
  - apply Forall_cons in He as [He _]. destruct (append_spec io e w He Ho) as (r & w1 & -> & Ho1 & Hf1). cbn [mbind option_bind].
    destruct (IH w1 Hes Ho1) as (ok & w2 & -> & Hf2). cbn [mbind option_bind]. eexists _, _. split; [done|].
    destruct r as [[]|]; [|done]. intros ->. rewrite Hf2, Hf1, <- app_assoc by done. cbn [fmap list_fmap concat].
    by rewrite app_nil_r.
  - destruct (appendBatch_spec io es w He Ho) as (r & w1 & -> & Ho1 & Hf1). cbn [mbind option_bind].
    destruct (IH w1 Hes Ho1) as (ok & w2 & -> & Hf2). cbn [mbind option_bind]. eexists _, _. split; [done|].
    destruct r as [n|]; [|done]. intros ->. destruct (Hf1 n eq_refl) as [E _]. by rewrite Hf2, E, <- app_assoc.
Qed.
End layout.

(** what the log's writer writes, its reader reads.  From a fresh log, any
    sequence of single and batched appends runs within its buffers; when all of
    them succeed, replaying the file yields exactly the entries appended, in
    order, reports no corruption and accounts for every byte. *)
Theorem wal_roundtrip (xxh3 : bytes → Z) (io : OpenIo) (existing : option bytes) (w : WalWriter) (cs : list WalCall) :
  (∀ b, in_u 64 (xxh3 b)) → openWal io existing Truncate = Some w → w_open w = true →
  Forall entry_ok (cs ≫= call_entries) →
  ∃ ok w', run_calls xxh3 cs w = Some (ok, w') ∧
    (ok = true →
     ∃ rd, records xxh3 (openReader (Some (w_file w'))) = (cs ≫= call_entries, rd) ∧ wr_corrupted rd = false ∧
       (cs ≫= call_entries ≠ [] → validSize rd = length (w_file w'))).
Proof.
  intros Hx Hw Ho Hes. destruct (run_calls_spec xxh3 cs w Hes Ho) as (ok & w' & E & Hf). exists ok, w'. split; [done|].
  intros Hok. rewrite (Hf Hok), (open_fresh xxh3 _ _ _ Hw Ho), <- (log_app xxh3 []). simpl app.
  destruct (records_spec xxh3 Hx (cs ≫= call_entries) []) as (rd & Er & Hc & Hv); [done|by left|].
  rewrite app_nil_r in Er. exists rd. split_and!; try done. intros Hne. by rewrite Hv, decide_False.
Qed.

(** a crash while appending loses nothing that was written before it.  When
    the log is cut anywhere behind its header, replay yields the entries whose
    records are whole, all of them and no more, and does not take the cut for
    corruption; and once the file is truncated to the valid size and opened for
    appending, further batches replay behind them. *)
Theorem wal_crash_recovery (xxh3 : bytes → Z) (es more : list WalEntry) (k : nat) :
  (∀ b, in_u 64 (xxh3 b)) → Forall entry_ok es → Forall entry_ok more → (8 <= k <= length (log xxh3 es))%nat →
  ∃ kept rd, records xxh3 (openReader (Some (take k (log xxh3 es)))) = (kept, rd) ∧ wr_corrupted rd = false ∧
    kept `prefix_of` es ∧ (∀ p, p `prefix_of` es → (length (log xxh3 p) <= k)%nat → p `prefix_of` kept) ∧
    ∀ io iob w w' n,
      openWal io (Some (take (validSize rd) (take k (log xxh3 es)))) Append = Some w → w_open w = true →
      appendBatch xxh3 iob more w = Some (Ok n, w') →
      ∃ rd', records xxh3 (openReader (Some (w_file w'))) = (kept ++ more, rd') ∧ wr_corrupted rd' = false.
Proof.
  intros Hx Hes Hmore [Hk8 Hk]. destruct (cut_records xxh3 es (k - 8) Hes) as (kept & tail & E & Ht & Hp & Hm).
  assert (take k (log xxh3 es) = log xxh3 kept ++ tail) as Ecut.
  { unfold log. rewrite take_app_ge by (simpl; lia). change (length header) with 8%nat. by rewrite E, <- app_assoc. }
  assert (Forall entry_ok kept) as Hkept by (destruct Hp as [r ->]; by apply Forall_app in Hes as [? _]).
  rewrite Ecut. destruct (records_spec xxh3 Hx kept tail Hkept Ht) as (rd & Er & Hc & Hv).
  exists kept, rd. split_and!; try done.
  { intros p Hpe Hl. apply Hm; [done|]. rewrite log_length in Hl. lia. }
  intros io iob w w' n Hw Ho Ha. rewrite Hv in Hw.
  assert (w_file w = log xxh3 kept) as Hfile.
  { destruct (decide (kept = [])) as [->|Hne]; [by apply (open_append_empty xxh3 io)|].
    rewrite take_app_length in Hw. by apply (open_append xxh3 io). }
  destruct (appendBatch_spec xxh3 iob more w Hmore Ho) as (r & w1 & Ha' & _ & Hf). rewrite Ha' in Ha.
  injection Ha as -> ->. destruct (Hf n eq_refl) as [-> _]. rewrite Hfile, <- log_app.
  destruct (records_spec xxh3 Hx (kept ++ more) []) as (rd' & Er' & Hc' & _); [by apply Forall_app|by left|].
  rewrite app_nil_r in Er'. eauto.
Qed.

(** ** Where the framing gives way *)

(** A header cut short by a crash is not an empty log to the reader: it takes
    the first byte of the magic number for an operation. *)
Theorem torn_header_is_corruption (xxh3 : bytes → Z) (k : nat) :
  (1 <= k <= 7)%nat →
  ∃ rd, records xxh3 (openReader (Some (take k header))) = ([], rd) ∧ wr_corrupted rd = true.
Proof.
  intros Hk. assert (k ∈ seq 1 7) as Hin by (apply elem_of_seq; lia).
  repeat (apply elem_of_cons in Hin as [->|Hin]; [eexists; split; reflexivity|]).
  by apply not_elem_of_nil in Hin.
Qed.

(** A short entry, and what a record of it looks like behind one stray byte:
    the head of a record with a key of 257 bytes. *)
Definition short_entry : WalEntry := mkWalEntry OpSet (lit "k") (lit "v") 1 0 0 false false.

Lemma short_entry_ok : entry_ok short_entry.
Proof. by split. Qed.

Lemma stray_byte_torn (xxh3 : bytes → Z) : torn_tail xxh3 (take 1 (record xxh3 short_entry) ++ record xxh3 short_entry).
Proof.
  right. set (e := mkWalEntry OpSet (drop 4 (record xxh3 short_entry) ++ replicate 216 x00) [] 0 0 0 false false).
  exists e. split_and!.
  - by split.
  - exists (drop 46 (record xxh3 e)). reflexivity.
  - discriminate.
Qed.

(** a batch that is written in part, refused, and then appended again as a
    whole is lost.  The bytes of the refused attempt stay in the file, so the
    records behind them are framed wrongly: replay stops before them without
    noticing corruption, and recovery truncates them away although the second
    append had succeeded. *)
Theorem failed_append_loses_batch (xxh3 : bytes → Z) (es : list WalEntry) (w : WalWriter) :
  (∀ b, in_u 64 (xxh3 b)) → Forall entry_ok es → es ≠ [] → w_open w = true → w_file w = log xxh3 es →
  ∃ w1 w2 n rd,
    appendBatch xxh3 [Wrote 1; WriteError] [short_entry] w = Some (Err err_write, w1) ∧
    appendBatch xxh3 [Wrote 45] [short_entry] w1 = Some (Ok n, w2) ∧
    records xxh3 (openReader (Some (w_file w2))) = (es, rd) ∧ wr_corrupted rd = false ∧
    take (validSize rd) (w_file w2) = log xxh3 es.
Proof.
  intros Hx Hes Hne Ho Hf. pose proof short_entry_ok as Hs. set (r := record xxh3 short_entry).
  assert (Forall entry_ok [short_entry]) as Hs1 by (by constructor).
  set (w1 := mkWalWriter true (w_file w ++ take 1 r) r).
  set (w2 := mkWalWriter true (w_file w1 ++ r) r).
  destruct (records_spec xxh3 Hx es _ Hes (stray_byte_torn xxh3)) as (rd & Er & Hc & Hv).
  exists w1, w2, 45%nat, rd. split_and!.
  - rewrite appendBatch_eq by done. reflexivity.
  - rewrite appendBatch_eq by done. reflexivity.
  - cbn [w2 w1 w_file]. by rewrite Hf, <- app_assoc.
  - done.
  - rewrite Hv, decide_False by done. cbn [w2 w1 w_file]. by rewrite Hf, <- app_assoc, take_app_length.
Qed.

(** The header of a log of the first format, and the eight bytes its reader
    takes for the checksum of a record of the second. *)
Definition header_v1 : bytes := le_encode 4 K_WAL_MAGIC ++ le_encode 4 1.

Definition misread_checksum (xxh3 : bytes → Z) (e : WalEntry) : Z :=
  le_decode (le_encode 1 (flag (we_is_tombstone e)) ++ take 7 (le_encode 8 (xxh3 (body e)))).

Lemma v1_next (xxh3 : bytes → Z) e :
  entry_ok e → xxh3 (body1 e) ≠ misread_checksum xxh3 e →
  ∃ rd, next xxh3 (mkWalReader (header_v1 ++ record xxh3 e) 8 0 V1 false) = (None, rd) ∧ wr_corrupted rd = true.
Proof.
  intros Hok Hne. unfold next. set (data := header_v1 ++ record xxh3 e). cbn [wr_data wr_pos wr_format].
  set (tail := le_encode 1 (flag (we_is_tombstone e)) ++ le_encode 8 (xxh3 (body e))).
  assert (data = header_v1 ++ body1 e ++ tail) as Hd.
  { unfold data, record, tail. by rewrite body_body1, <- !app_assoc. }
  assert (8 <= length data)%nat as Hl by (rewrite Hd, length_app; simpl; lia).
  unfold BufferReader.seek. cbn [BufferReader.make BufferReader.data]. rewrite Nat.min_l by done.
  assert (before (BufferReader.mk data 8) (body1 e ++ tail)) as Hb by (split; [done|by rewrite Hd]).
  rewrite (reads_full _ _ _ (reads_fields_v1 e Hok) _ _ Hb). rewrite bool_decide_eq_false_2 by done.
  pose proof (before_skip _ _ _ Hb) as Hs. set (r := skip _ _) in *.
  unfold BufferReader.read. pose proof (before_length _ _ Hs) as Hlen. unfold tail in Hlen at 1.
  rewrite length_app, !le_encode_length in Hlen.
  destruct (Nat.ltb_spec (length (BufferReader.data r)) (BufferReader.pos r + 8)); [lia|].
  destruct Hs as [_ ->].
  assert (take 8 tail = le_encode 1 (flag (we_is_tombstone e)) ++ take 7 (le_encode 8 (xxh3 (body e)))) as -> by done.
  assert (computeEntryChecksum xxh3 (parsed1 e 0) V1 = xxh3 (body1 e)) as ->.
  { unfold computeEntryChecksum, body1. simpl walHasTombstone. cbn iota. by rewrite app_nil_r. }
  fold (misread_checksum xxh3 e). destruct (Z.eqb_spec (xxh3 (body1 e)) (misread_checksum xxh3 e)); [done|].
  by eexists.
Qed.

(** appending to a log of the first format ruins it.  A log whose header
    names format 1 is resumed as it is, but records are always written in format
    2; unless two checksums happen to agree, the next replay finds a checksum
    mismatch at the first new record and recovery fails. *)
Theorem v1_append_corrupts (xxh3 : bytes → Z) (io : OpenIo) (iob : list WriteOutcome) (e : WalEntry) (w w' : WalWriter) :
  (∀ b, in_u 64 (xxh3 b)) → entry_ok e → xxh3 (body1 e) ≠ misread_checksum xxh3 e →
  openWal io (Some header_v1) Append = Some w → w_open w = true →
  append xxh3 iob e w = Some (Ok (), w') →
  ∃ rd, records xxh3 (openReader (Some (w_file w'))) = ([], rd) ∧ wr_corrupted rd = true.
Proof.
  intros Hx Hok Hne Hw Ho Ha. assert (w_file w = header_v1) as Hf.
  { revert Hw. unfold openWal. destruct (open_ok io); simpl; by intros [= <-]. }
  destruct (append_spec xxh3 iob e w Hok Ho) as (r & w1 & E & _ & Hf1). rewrite E in Ha. injection Ha as -> ->.
  rewrite (Hf1 eq_refl), Hf. destruct (v1_next xxh3 e Hok Hne) as (rd & En & Hc). exists rd. split; [|done].
  change (openReader (Some (header_v1 ++ record xxh3 e))) with (mkWalReader (header_v1 ++ record xxh3 e) 8 0 V1 false).
  unfold records. cbn [records_loop]. change (hasMore _) with true. cbv iota. by rewrite En.
Qed.

(** ** Instances *)

(** A hash that is easy to compute. *)
Definition toy_xxh3 (b : bytes) : Z := u64 (foldl (λ h c, h * 31 + Z_of_byte c) 7 b).

Lemma toy_xxh3_range b : in_u 64 (toy_xxh3 b).
Proof. apply wrap_range. lia. Qed.

Definition all_ok : OpenIo := mkOpenIo true true [Wrote 8].

Definition del_entry : WalEntry := mkWalEntry OpDel (lit "k2") [] 9 77 0 false false.

Lemma del_entry_ok : entry_ok del_entry.
Proof. by split. Qed.

Ltac entries_ok := repeat (apply Forall_cons_2; [first [exact short_entry_ok|exact del_entry_ok]|]); apply Forall_nil_2.

Lemma wal_roundtrip_witness :
  ∃ w', run_calls toy_xxh3 [CallAppend [Wrote 45] short_entry; CallBatch [Eintr; Wrote 50; Wrote 50] [del_entry; short_entry]]
          (mkWalWriter true header header) = Some (true, w') ∧
    ∃ rd, records toy_xxh3 (openReader (Some (w_file w'))) = ([short_entry; del_entry; short_entry], rd).
Proof.
  destruct (wal_roundtrip toy_xxh3 all_ok None (mkWalWriter true header header)
    [CallAppend [Wrote 45] short_entry; CallBatch [Eintr; Wrote 50; Wrote 50] [del_entry; short_entry]])
    as (ok & w' & E & H).
  - exact toy_xxh3_range.
  - reflexivity.
  - reflexivity.
  - entries_ok.
  - assert (ok = true) as Hok.
    { assert (fst <$> run_calls toy_xxh3 [CallAppend [Wrote 45] short_entry;
        CallBatch [Eintr; Wrote 50; Wrote 50] [del_entry; short_entry]] (mkWalWriter true header header) = Some true) as E'
        by (vm_compute; reflexivity).
      rewrite E in E'. injection E' as ->. reflexivity. }
    subst ok. exists w'. split; [exact E|]. destruct (H eq_refl) as (rd & Er & _). exists rd. exact Er.
Defined.

Lemma wal_crash_recovery_witness :
  ∃ kept rd, records toy_xxh3 (openReader (Some (take 60 (log toy_xxh3 [short_entry; del_entry])))) = (kept, rd) ∧
    [short_entry] `prefix_of` kept.
Proof.
  destruct (wal_crash_recovery toy_xxh3 [short_entry; del_entry] [short_entry] 60) as (kept & rd & E & _ & _ & Hm & _).
  - exact toy_xxh3_range.
  - entries_ok.
  - entries_ok.
  - vm_compute. lia.
  - exists kept, rd. split; [exact E|]. apply Hm; [by exists [del_entry]|]. vm_compute. lia.
Defined.

Lemma failed_append_loses_batch_witness :
  ∃ w1 w2 n rd,
    appendBatch toy_xxh3 [Wrote 1; WriteError] [short_entry] (mkWalWriter true (log toy_xxh3 [del_entry]) []) = Some (Err err_write, w1) ∧
    appendBatch toy_xxh3 [Wrote 45] [short_entry] w1 = Some (Ok n, w2) ∧
    records toy_xxh3 (openReader (Some (w_file w2))) = ([del_entry], rd).
Proof.
  destruct (failed_append_loses_batch toy_xxh3 [del_entry] (mkWalWriter true (log toy_xxh3 [del_entry]) []))
    as (w1 & w2 & n & rd & E1 & E2 & E3 & _).
  - exact toy_xxh3_range.
  - entries_ok.
  - discriminate.
  - reflexivity.
  - reflexivity.
  - exists w1, w2, n, rd. split; [exact E1|]. split; [exact E2|]. exact E3.
Defined.

Lemma v1_append_corrupts_witness :
  ∃ rd, records toy_xxh3 (openReader (Some (header_v1 ++ record toy_xxh3 short_entry))) = ([], rd) ∧ wr_corrupted rd = true.
Proof.
  apply (v1_append_corrupts toy_xxh3 all_ok [Wrote 45] short_entry (mkWalWriter true header_v1 [])
    (mkWalWriter true (header_v1 ++ record toy_xxh3 short_entry) (record toy_xxh3 short_entry))).
  - exact toy_xxh3_range.
  - exact short_entry_ok.
  - vm_compute. discriminate.
  - reflexivity.
  - reflexivity.
  - vm_compute. reflexivity.
Defined.
