(* ===== verification/Snapshot.v ===== *)
(** * Snapshot files (include/cinder/store/snapshot.hpp, src/store/snapshot.cpp)

    The writer, with its chunked output, and the streaming reader, which hands
    out entries before it knows that the rest of the file is good. *)

From S2P Require Import Prelude Types Bytes Buffers Wal.
Local Open Scope Z_scope.

Definition K_SNAPSHOT_MAGIC : Z := 0x43534E50.
Definition K_SNAPSHOT_FORMAT_VERSION : Z := 2.

Inductive SnapshotFormat := SnapV1 | SnapV2.

Definition parseSnapshotFormat (v : Z) : option SnapshotFormat :=
  if v =? 1 then Some SnapV1 else if v =? 2 then Some SnapV2 else None.

Definition snapshotHasTombstone (f : SnapshotFormat) : bool := match f with SnapV1 => false | SnapV2 => true end.

Record SnapshotEntry := mkSnap {
  se_key : bytes;
  se_value : bytes;
  se_version : Z;
  se_writer_node_hash : Z;
  se_expires_at_ms : Z;
  se_has_ttl : bool;
  se_tombstone : bool;
  se_freq : Z }.

#[global] Instance SnapshotEntry_eq_dec : EqDecision SnapshotEntry.
Proof. solve_decision. Defined.

Definition encodeSnapshotEntry (e : SnapshotEntry) (key_len val_len : Z) (w : BufferWriter.t) : option BufferWriter.t :=
  w ← BufferWriter.write 4 key_len w;
  w ← BufferWriter.writeString (se_key e) w;
  w ← BufferWriter.write 4 val_len w;
  w ← BufferWriter.writeString (se_value e) w;
  w ← BufferWriter.write 8 (se_version e) w;
  w ← BufferWriter.write 8 (se_writer_node_hash e) w;
  w ← BufferWriter.write 8 (se_expires_at_ms e) w;
  w ← BufferWriter.write 1 (flag (se_has_ttl e)) w;
  w ← BufferWriter.write 8 (se_freq e) w;
  BufferWriter.write 1 (flag (se_tombstone e)) w.

Definition K_CHUNK_BYTES : Z := 256 * 1024.

(** The size the writer computes for an entry. *)
Definition snapSize (e : SnapshotEntry) : nat := (length (se_key e) + length (se_value e) + (4 + 4 + 8 * 4 + 1 + 1))%nat.

(** The output of the stream so far, and the used part of the chunk buffer. *)
Record SnapOut := mkSnapOut { so_out : bytes; so_chunk : bytes }.

Definition flush_chunk (o : SnapOut) : SnapOut := mkSnapOut (so_out o ++ so_chunk o) [].

Definition err_snap_large : Error := mkError InvalidArgument (lit "snapshot entry too large").

(** One turn of the loop over the entries; [None] is a failed assertion.  The
    chunk buffer has room for [K_CHUNK_BYTES]; only the part an entry is written
    to is spelled out. *)
Definition writeEntry (e : SnapshotEntry) (o : SnapOut) : option (Result SnapOut) :=
  if (zlen (se_key e) >? u32_max) || (zlen (se_value e) >? u32_max) then Some (Err err_snap_large)
  else
    let key_len := u32 (zlen (se_key e)) in
    let val_len := u32 (zlen (se_value e)) in
    let size := snapSize e in
    if Z.of_nat size >? K_CHUNK_BYTES then
      let o := flush_chunk o in
      b ← encodeSnapshotEntry e key_len val_len (BufferWriter.make (resize size []));
      Some (Ok (mkSnapOut (so_out o ++ ByteWriter.out b) (so_chunk o)))
    else
      let o := if zlen (so_chunk o) + Z.of_nat size >? K_CHUNK_BYTES then flush_chunk o else o in
      b ← BufferWriter.makeAt (resize (length (so_chunk o) + size) (so_chunk o)) (length (so_chunk o));
      b ← encodeSnapshotEntry e key_len val_len b;
      Some (Ok (mkSnapOut (so_out o) (ByteWriter.out b))).

Fixpoint writeEntries (es : list SnapshotEntry) (o : SnapOut) : option (Result SnapOut) :=
  match es with
  | [] => Some (Ok o)
  | e :: es =>
      r ← writeEntry e o;
      match r with
      | Ok o => writeEntries es o
      | Err x => Some (Err x)
      end
  end.

(** How the file operations of a write turn out. *)
Record SnapIo := mkSnapIo { si_open : bool; si_good : bool; si_closed : bool; si_published : Result () }.

Definition snapHeader (next_version : Z) (count : Z) : option BufferWriter.t :=
  h ← BufferWriter.write 4 K_SNAPSHOT_MAGIC (BufferWriter.make (resize (4 * 3 + 8) []));
  h ← BufferWriter.write 4 K_SNAPSHOT_FORMAT_VERSION h;
  h ← BufferWriter.write 8 next_version h;
  BufferWriter.write 4 count h.

(** The bytes of the published file, or the error. *)
Definition writeSnapshot (io : SnapIo) (next_version : Z) (es : list SnapshotEntry) : option (Result bytes) :=
  if negb (si_open io) then Some (Err (mkError InternalError (lit "cannot open snapshot file for writing")))
  else
    h ← snapHeader next_version (u32 (Z.of_nat (length es)));
    r ← writeEntries es (mkSnapOut (ByteWriter.out h) []);
    match r with
    | Err x => Some (Err x)
    | Ok o =>
        let o := flush_chunk o in
        if negb (si_good io) then Some (Err (mkError InternalError (lit "snapshot write failed")))
        else if negb (si_closed io) then Some (Err (mkError InternalError (lit "snapshot close failed")))
        else match si_published io with
        | Err x => Some (Err x)
        | Ok _ => Some (Ok (so_out o))
        end
    end.

(** ** Reading *)

(** The stream and the counter of bytes left. *)
Record Stream := mkStream { s_in : BufferReader.t; s_left : Z }.

Definition corrupt (msg : String.string) : Error := mkError CorruptData (lit msg).

(** [readLE<uint32_t>] followed by [take(4)] *)
Definition readLen (msg : String.string) (s : Stream) : Result (Z * Stream) :=
  match BufferReader.read 4 (s_in s) with
  | Some (z, r) => if 4 >? s_left s then Err (corrupt msg) else Ok (z, mkStream r (s_left s - 4))
  | None => Err (corrupt msg)
  end.

(** The lambda [read_sized] *)
Definition read_sized (msg : String.string) (len : Z) (s : Stream) : Result (bytes * Stream) :=
  if len >? s_left s then Err (corrupt msg)
  else match BufferReader.readString len (s_in s) with
  | Some (b, r) => Ok (b, mkStream r (s_left s - len))
  | None => Err (corrupt msg)
  end.

Definition K_TAIL_BYTES : Z := 3 * 8 + 1 + 8 + 1.

(** The fixed fields behind the value. *)
Definition readTail (has_tombstone : bool) (tail : bytes) : Result (Z * Z * Z * Z * Z * bool) :=
  let short := corrupt "truncated snapshot entry" in
  match BufferReader.read 8 (BufferReader.make tail) with
  | None => Err short
  | Some (version, r) =>
      match BufferReader.read 8 r with
      | None => Err short
      | Some (writer_hash, r) =>
          match BufferReader.read 8 r with
          | None => Err short
          | Some (expires_ms, r) =>
              match BufferReader.read 1 r with
              | None => Err short
              | Some (has_ttl, r) =>
                  match BufferReader.read 8 r with
                  | None => Err short
                  | Some (freq, r) =>
                      if has_tombstone then
                        match BufferReader.read 1 r with
                        | None => Err (corrupt "truncated snapshot tombstone")
                        | Some (b, _) =>
                            if b >? 1 then Err (corrupt "truncated snapshot tombstone")
                            else Ok (version, writer_hash, expires_ms, has_ttl, freq, negb (b =? 0))
                        end
                      else Ok (version, writer_hash, expires_ms, has_ttl, freq, false)
                  end
              end
          end
      end
  end.

Definition readEntry (has_tombstone : bool) (s : Stream) : Result (SnapshotEntry * Stream) :=
  (let* (key_len, s) := readLen "truncated snapshot key" s in
   let* (key, s) := read_sized "truncated snapshot key data" key_len s in
   let* (val_len, s) := readLen "truncated snapshot value" s in
   let* (value, s) := read_sized "truncated snapshot value data" val_len s in
   let* (tail, s) := read_sized "truncated snapshot entry" (if has_tombstone then K_TAIL_BYTES else K_TAIL_BYTES - 1) s in
   let* (version, writer_hash, expires_ms, has_ttl, freq, tombstone) := readTail has_tombstone tail in
   Ok (mkSnap key value version writer_hash expires_ms (negb (has_ttl =? 0)) tombstone freq, s))%result.

(** The loop: the entries handed to the callback, and how it ended. *)
Fixpoint readEntries (has_tombstone : bool) (count : nat) (s : Stream) : list SnapshotEntry * Result Stream :=
  match count with
  | O => ([], Ok s)
  | S count =>
      match readEntry has_tombstone s with
      | Err x => ([], Err x)
      | Ok (e, s) => let '(es, r) := readEntries has_tombstone count s in (e :: es, r)
      end
  end.

(** [readLE] of a field of the header *)
Definition readField (n : nat) (msg : String.string) (r : BufferReader.t) : Result (Z * BufferReader.t) :=
  match BufferReader.read n r with Some x => Ok x | None => Err (corrupt msg) end.

(** The header: whether entries have a tombstone byte, the next version, the
    number of entries. *)
Definition readSnapHeader (data : bytes) : Result (bool * Z * Z * BufferReader.t) :=
  (let* (magic, r) := readField 4 "invalid snapshot magic" (BufferReader.make data) in
   if negb (magic =? K_SNAPSHOT_MAGIC) then Err (corrupt "invalid snapshot magic")
   else
     let* (format_ver, r) := readField 4 "unsupported snapshot format version" r in
     match parseSnapshotFormat format_ver with
     | None => Err (corrupt "unsupported snapshot format version")
     | Some format =>
         let* (next_ver, r) := readField 8 "truncated snapshot header" r in
         let* (entry_count, r) := readField 4 "truncated snapshot entry count" r in
         Ok (snapshotHasTombstone format, next_ver, entry_count, r)
     end)%result.

(** The version of the header, once it is valid; the entries handed out; the
    outcome. *)
Definition readStream (file : option bytes) : option Z * list SnapshotEntry * Result () :=
  match file with
  | None => (None, [], Err (mkError InternalError (lit "snapshot file not open")))
  | Some data =>
      match readSnapHeader data with
      | Err e => (None, [], Err e)
      | Ok (has_tombstone, next_ver, entry_count, r) =>
          let remaining := Z.of_nat (BufferReader.remaining r) in
          if entry_count >? remaining / (if has_tombstone then 42 else 41) then
            (None, [], Err (mkError InvalidArgument (lit "entry_count exceeds file size")))
          else
            let '(es, res) := readEntries has_tombstone (Z.to_nat entry_count) (mkStream r remaining) in
            (Some next_ver, es, match res with Ok _ => Ok () | Err e => Err e end)
      end
  end.

Record SnapshotData := mkSnapData { sd_next_version : Z; sd_entries : list SnapshotEntry }.

Definition readAll (file : option bytes) : Result SnapshotData :=
  match readStream file with
  | (_, _, Err e) => Err e
  | (nv, es, Ok _) => Ok (mkSnapData (default 0 nv) es)
  end.

#[global] Arguments snapSize : simpl never.
#[global] Arguments readLen : simpl never.
#[global] Arguments read_sized : simpl never.

(** ** The layout *)

Record snap_ok (e : SnapshotEntry) : Prop := mkSnapOk {
  sk_key : zlen (se_key e) <= u32_max;
  sk_value : zlen (se_value e) <= u32_max;
  sk_version : in_u 64 (se_version e);
  sk_writer : in_u 64 (se_writer_node_hash e);
  sk_expires : in_u 64 (se_expires_at_ms e);
  sk_freq : in_u 64 (se_freq e) }.

Definition snapTail (e : SnapshotEntry) : bytes :=
  le_encode 8 (se_version e) ++ le_encode 8 (se_writer_node_hash e) ++ le_encode 8 (se_expires_at_ms e) ++
  le_encode 1 (flag (se_has_ttl e)) ++ le_encode 8 (se_freq e) ++ le_encode 1 (flag (se_tombstone e)).

Definition snapBody (e : SnapshotEntry) : bytes :=
  le_encode 4 (zlen (se_key e)) ++ se_key e ++ le_encode 4 (zlen (se_value e)) ++ se_value e ++ snapTail e.

Definition snapFile (next_version : Z) (es : list SnapshotEntry) : bytes :=
  (le_encode 4 K_SNAPSHOT_MAGIC ++ le_encode 4 K_SNAPSHOT_FORMAT_VERSION ++ le_encode 8 next_version ++
   le_encode 4 (Z.of_nat (length es))) ++ concat (snapBody <$> es).

Lemma snapBody_length e : length (snapBody e) = snapSize e.
Proof. unfold snapBody, snapTail, snapSize. rewrite !length_app, !le_encode_length. lia. Qed.

Lemma encodeSnapshotEntry_spec w pre n e :
  snap_ok e → wrote w pre n → (snapSize e <= n)%nat →
  ∃ w', encodeSnapshotEntry e (u32 (zlen (se_key e))) (u32 (zlen (se_value e))) w = Some w' ∧
    wrote w' (pre ++ snapBody e) (n - snapSize e).
Proof.
  intros Hok Hw Hn. pose proof (sk_key e Hok) as Hk%zlen_u32. pose proof (sk_value e Hok) as Hv%zlen_u32.
  rewrite (wrap_small _ _ Hk), (wrap_small _ _ Hv). unfold encodeSnapshotEntry, snapSize in *. do 10 wrote_step.
  eexists. split; [done|]. unfold snapBody, snapTail. rewrite <- !app_assoc in *.
  match goal with H : wrote ?w ?p ?k |- wrote ?w ?p' ?k' => replace k' with k; [exact H|] end. lia.
Qed.

(** Nothing is lost or reordered between the chunk and the file. *)
Lemma writeEntry_spec e o :
  snap_ok e →
  ∃ o', writeEntry e o = Some (Ok o') ∧ so_out o' ++ so_chunk o' = (so_out o ++ so_chunk o) ++ snapBody e.
Proof.
  intros Hok. unfold writeEntry.
  assert ((zlen (se_key e) >? u32_max) || (zlen (se_value e) >? u32_max) = false) as ->.
  { destruct Hok. apply orb_false_iff. lia. }
  destruct (Z.of_nat (snapSize e) >? K_CHUNK_BYTES).
  - destruct (encodeSnapshotEntry_spec (ByteWriter.make (resize (snapSize e) [])) [] (snapSize e) e Hok) as (b & E & Hb); [|done|].
    { pose proof (wrote_make (resize (snapSize e) [])) as Hw. by rewrite resize_length in Hw. }
    unfold BufferWriter.make. rewrite E. cbn [mbind option_bind]. rewrite Nat.sub_diag in Hb.
    apply wrote_done in Hb as [-> _]. eexists. split; [done|]. cbn [flush_chunk so_out so_chunk app]. by rewrite app_nil_r.
  - set (o1 := if _ >? _ then _ else _).
    assert (so_out o1 ++ so_chunk o1 = so_out o ++ so_chunk o) as <-.
    { unfold o1. destruct (_ >? _); [|done]. unfold flush_chunk. simpl. by rewrite app_nil_r. }
    clearbody o1. unfold BufferWriter.makeAt. rewrite resize_length.
    destruct (Nat.leb_spec (length (so_chunk o1)) (length (so_chunk o1) + snapSize e)); [|lia]. cbn [mbind option_bind].
    destruct (encodeSnapshotEntry_spec
      (ByteWriter.mk (resize (length (so_chunk o1) + snapSize e) (so_chunk o1)) (length (so_chunk o1)))
      (so_chunk o1) (snapSize e) e Hok) as (b & -> & Hb); [|done|].
    { exists (replicate (snapSize e) x00). unfold resize. cbn [ByteWriter.out ByteWriter.off].
      rewrite take_ge, Nat.add_sub', length_replicate by lia. done. }
    cbn [mbind option_bind]. rewrite Nat.sub_diag in Hb. apply wrote_done in Hb as [-> _]. eexists. split; [done|].
    cbn [so_out so_chunk]. by rewrite app_assoc.
Qed.

Lemma writeEntries_spec es o :
  Forall snap_ok es →
  ∃ o', writeEntries es o = Some (Ok o') ∧ so_out o' ++ so_chunk o' = (so_out o ++ so_chunk o) ++ concat (snapBody <$> es).
Proof.
  intros Hes. revert o. induction Hes as [|e es He _ IH]; intros o; [exists o; simpl; by rewrite app_nil_r|].
  cbn [writeEntries]. destruct (writeEntry_spec e o He) as (o1 & -> & E1). cbn [mbind option_bind].
  destruct (IH o1) as (o2 & -> & E2). exists o2. split; [done|]. rewrite E2, E1, fmap_cons. cbn [concat].
  by rewrite <- app_assoc.
Qed.

Lemma writeSnapshot_spec io nv es :
  Forall snap_ok es → in_u 32 (Z.of_nat (length es)) →
  ∃ r, writeSnapshot io nv es = Some r ∧ ∀ file, r = Ok file → file = snapFile nv es.
Proof.
  intros Hes Hn. unfold writeSnapshot. destruct (si_open io); cbn [negb]; [|by eexists]. unfold snapHeader, BufferWriter.make.
  rewrite (wrap_small _ _ Hn). pose proof (wrote_make (resize (4 * 3 + 8) [])) as Hw. rewrite resize_length in Hw.
  do 4 wrote_step. match goal with H : wrote _ _ _ |- _ => apply (wrote_done _ _) in H as [-> _] end.
  match goal with |- context [mkSnapOut ?h []] => destruct (writeEntries_spec es (mkSnapOut h []) Hes) as (o & -> & E) end.
  cbn [mbind option_bind]. destruct (si_good io); cbn [negb]; [|by eexists]. destruct (si_closed io); cbn [negb]; [|by eexists].
  destruct (si_published io); eexists; (split; [done|]); [|done]. intros file [= <-]. cbn [flush_chunk so_out]. rewrite E.
  cbn [so_out so_chunk]. unfold snapFile. by rewrite app_nil_r, <- !app_assoc.
Qed.

(** ** Reading back *)

(** The stream stands before [rest], and its counter agrees. *)
Definition sbefore (s : Stream) (rest : bytes) : Prop := before (s_in s) rest ∧ s_left s = zlen rest.

Lemma readLen_full msg z s rest :
  in_u 32 z → sbefore s (le_encode 4 z ++ rest) → ∃ s', readLen msg s = Ok (z, s') ∧ sbefore s' rest.
Proof.
  intros Hz [Hb Hl]. unfold zlen in Hl. rewrite length_app, le_encode_length in Hl.
  unfold readLen. rewrite (read_before 4 z _ rest Hz Hb). destruct (Z.gtb_spec 4 (s_left s)); [lia|].
  eexists. split; [done|]. split; [by apply (before_skip_le 4 z)|]. cbn [s_left]. unfold zlen. lia.
Qed.

Lemma read_sized_full msg x s rest :
  sbefore s (x ++ rest) → ∃ s', read_sized msg (zlen x) s = Ok (x, s') ∧ sbefore s' rest.
Proof.
  intros [Hb Hl]. unfold read_sized. rewrite Hl, zlen_app, (readString_before x _ rest Hb).
  destruct (Z.gtb_spec (zlen x) (zlen x + zlen rest)); [unfold zlen in *; lia|].
  eexists. split; [done|]. split; [by apply before_skip|]. cbn [s_left]. lia.
Qed.

Lemma readTail_full e :
  snap_ok e →
  readTail true (snapTail e) = Ok (se_version e, se_writer_node_hash e, se_expires_at_ms e, flag (se_has_ttl e), se_freq e, se_tombstone e).
Proof.
  intros []. pose proof (before_make (snapTail e)) as Hb. unfold readTail. unfold snapTail in Hb at 2.
  rewrite (read_before 8 _ _ _ sk_version0 Hb). apply before_skip_le in Hb.
  rewrite (read_before 8 _ _ _ sk_writer0 Hb). apply before_skip_le in Hb.
  rewrite (read_before 8 _ _ _ sk_expires0 Hb). apply before_skip_le in Hb.
  assert (∀ b, in_u (8 * Z.of_nat 1) (flag b)) as Hf by (intros []; split; simpl; lia).
  rewrite (read_before 1 _ _ _ (Hf _) Hb). apply before_skip_le in Hb.
  rewrite (read_before 8 _ _ _ sk_freq0 Hb). apply before_skip_le in Hb.
  rewrite <- (app_nil_r (le_encode 1 _)) in Hb. rewrite (read_before 1 _ _ _ (Hf _) Hb).
  by destruct (se_tombstone e).
Qed.

Lemma readEntry_full e s rest :
  snap_ok e → sbefore s (snapBody e ++ rest) → ∃ s', readEntry true s = Ok (e, s') ∧ sbefore s' rest.
Proof.
  intros Hok Hs. pose proof (sk_key e Hok) as Hk%zlen_u32. pose proof (sk_value e Hok) as Hv%zlen_u32.
  unfold snapBody in Hs. rewrite <- !app_assoc in Hs. unfold readEntry.
  destruct (readLen_full "truncated snapshot key" _ _ _ Hk Hs) as (s1 & -> & H1). cbn [bindR].
  destruct (read_sized_full "truncated snapshot key data" _ _ _ H1) as (s2 & -> & H2). cbn [bindR].
  destruct (readLen_full "truncated snapshot value" _ _ _ Hv H2) as (s3 & -> & H3). cbn [bindR].
  destruct (read_sized_full "truncated snapshot value data" _ _ _ H3) as (s4 & -> & H4). cbn [bindR].
  destruct (read_sized_full "truncated snapshot entry" _ _ _ H4) as (s5 & E & H5).
  assert (zlen (snapTail e) = K_TAIL_BYTES) as Ht.
  { unfold snapTail, zlen. rewrite !length_app, !le_encode_length. done. }
  rewrite Ht in E. rewrite E. cbn [bindR]. rewrite readTail_full by done. cbn [bindR]. eexists. split; [|exact H5].
  destruct e as [? ? ? ? ? [] ? ?]; done.
Qed.

Lemma readEntries_full es s :
  Forall snap_ok es → sbefore s (concat (snapBody <$> es)) →
  ∃ s', readEntries true (length es) s = (es, Ok s') ∧ sbefore s' [].
Proof.
  intros Hes. revert s. induction Hes as [|e es He _ IH]; intros s Hs; [by exists s|].
  rewrite fmap_cons in Hs. cbn [concat] in Hs. cbn [length readEntries].
  destruct (readEntry_full e s _ He Hs) as (s1 & -> & H1). destruct (IH s1 H1) as (s2 & -> & H2). by exists s2.
Qed.

(** ** Cut files *)

Definition sextend (x : bytes) (s : Stream) : Stream := mkStream (extend x (s_in s)) (s_left s + zlen x).

(** The position is inside the input and the counter is not negative. *)
Definition stream_ok (s : Stream) : Prop :=
  (BufferReader.pos (s_in s) <= length (BufferReader.data (s_in s)))%nat ∧ 0 <= s_left s.

Lemma readLen_extend x msg s z s' :
  readLen msg s = Ok (z, s') → stream_ok s' ∧ readLen msg (sextend x s) = Ok (z, sextend x s').
Proof.
  unfold readLen. simpl s_in. destruct (BufferReader.read 4 (s_in s)) as [[z' r]|] eqn:E; [|done].
  pose proof (read_pos _ _ _ _ E) as [_ Hp]. rewrite (read_extend x _ _ _ _ E). cbn [s_left sextend].
  destruct (Z.gtb_spec 4 (s_left s)); [done|]. intros [= <- <-]. unfold zlen.
  destruct (Z.gtb_spec 4 (s_left s + Z.of_nat (length x))); [lia|]. split; [split; simpl; [done|lia]|].
  unfold sextend. cbn [s_in s_left]. unfold zlen. do 3 f_equal. lia.
Qed.

Lemma read_sized_extend x msg len s b s' :
  stream_ok s → read_sized msg len s = Ok (b, s') → stream_ok s' ∧ read_sized msg len (sextend x s) = Ok (b, sextend x s').
Proof.
  intros [Hp Hl]. unfold read_sized. simpl s_in. cbn [s_left sextend].
  destruct (Z.gtb_spec len (s_left s)); [done|]. unfold zlen.
  destruct (Z.gtb_spec len (s_left s + Z.of_nat (length x))); [lia|].
  destruct (BufferReader.readString len (s_in s)) as [[b' r]|] eqn:E; [|done].
  pose proof (readString_pos _ _ _ _ Hp E) as [_ Hp']. rewrite (readString_extend x _ _ _ _ Hp E). intros [= <- <-].
  split; [split; simpl; [done|lia]|]. unfold sextend. cbn [s_in s_left]. unfold zlen. do 3 f_equal. lia.
Qed.

Lemma bindR_Ok {A B} (r : Result A) (f : A → Result B) b : bindR r f = Ok b → ∃ a, r = Ok a ∧ f a = Ok b.
Proof. destruct r; [eauto|done]. Qed.

Lemma readEntry_extend x t s e s' :
  stream_ok s → readEntry t s = Ok (e, s') → stream_ok s' ∧ readEntry t (sextend x s) = Ok (e, sextend x s').
Proof.
  intros Hs H. unfold readEntry in *.
  apply bindR_Ok in H as ([kl s1] & E1 & H). destruct (readLen_extend x _ _ _ _ E1) as [Hs1 ->]. cbn [bindR].
  apply bindR_Ok in H as ([k s2] & E2 & H). destruct (read_sized_extend x _ _ _ _ _ Hs1 E2) as [Hs2 ->]. cbn [bindR].
  apply bindR_Ok in H as ([vl s3] & E3 & H). destruct (readLen_extend x _ _ _ _ E3) as [Hs3 ->]. cbn [bindR].
  apply bindR_Ok in H as ([v s4] & E4 & H). destruct (read_sized_extend x _ _ _ _ _ Hs3 E4) as [Hs4 ->]. cbn [bindR].
  apply bindR_Ok in H as ([tl s5] & E5 & H). destruct (read_sized_extend x _ _ _ _ _ Hs4 E5) as [Hs5 ->]. cbn [bindR].
  apply bindR_Ok in H as ([[[[[ver wr] ex] tt] fq] tb] & E6 & H). rewrite E6. cbn [bindR].
  injection H as <- <-. done.
Qed.

Lemma readEntries_extend x t n s es s' :
  stream_ok s → readEntries t n s = (es, Ok s') → stream_ok s' ∧ readEntries t n (sextend x s) = (es, Ok (sextend x s')).
Proof.
  revert s es. induction n as [|n IH]; intros s es Hs; cbn [readEntries]; [by intros [= <- <-]|].
  destruct (readEntry t s) as [[e s1]|] eqn:E; [|done]. destruct (readEntry_extend x _ _ _ _ Hs E) as [Hs1 ->].
  destruct (readEntries t n s1) as [es1 r] eqn:E1. intros [= <- ->]. destruct (IH s1 es1 Hs1 E1) as [Hs2 ->]. done.
Qed.

Lemma readField_extend x n msg r z r' :
  readField n msg r = Ok (z, r') →
  (BufferReader.pos r' <= length (BufferReader.data r'))%nat ∧ readField n msg (extend x r) = Ok (z, extend x r').
Proof.
  unfold readField. destruct (BufferReader.read n r) as [[z' r1]|] eqn:E; [|done]. intros [= <- <-].
  rewrite (read_extend x _ _ _ _ E). by destruct (read_pos _ _ _ _ E).
Qed.

Lemma readSnapHeader_extend x d t nv c r :
  readSnapHeader d = Ok (t, nv, c, r) →
  (BufferReader.pos r <= length (BufferReader.data r))%nat ∧ readSnapHeader (d ++ x) = Ok (t, nv, c, extend x r).
Proof.
  unfold readSnapHeader. change (BufferReader.make (d ++ x)) with (extend x (BufferReader.make d)). intros H.
  apply bindR_Ok in H as ([m r1] & E1 & H). destruct (readField_extend x _ _ _ _ _ E1) as [_ ->]. cbn [bindR].
  destruct (negb (m =? K_SNAPSHOT_MAGIC)); [done|].
  apply bindR_Ok in H as ([f r2] & E2 & H). destruct (readField_extend x _ _ _ _ _ E2) as [_ ->]. cbn [bindR].
  destruct (parseSnapshotFormat f); [|done].
  apply bindR_Ok in H as ([v r3] & E3 & H). destruct (readField_extend x _ _ _ _ _ E3) as [_ ->]. cbn [bindR].
  apply bindR_Ok in H as ([k r4] & E4 & H). destruct (readField_extend x _ _ _ _ _ E4) as [Hp ->]. cbn [bindR].
  by injection H as <- <- <- <-.
Qed.

Lemma readSnapHeader_full nv n rest :
  in_u 64 nv → in_u 32 n →
  let hd := le_encode 4 K_SNAPSHOT_MAGIC ++ le_encode 4 K_SNAPSHOT_FORMAT_VERSION ++ le_encode 8 nv ++ le_encode 4 n in
  ∃ r, readSnapHeader (hd ++ rest) = Ok (true, nv, n, r) ∧ before r rest.
Proof.
  intros Hv Hn hd. pose proof (before_make (hd ++ rest)) as Hb. unfold hd in Hb at 2. rewrite <- !app_assoc in Hb.
  unfold readSnapHeader, readField. rewrite (read_before 4 K_SNAPSHOT_MAGIC _ _ ltac:(done) Hb). apply before_skip_le in Hb. cbn [bindR].
  rewrite Z.eqb_refl. cbn [negb]. rewrite (read_before 4 K_SNAPSHOT_FORMAT_VERSION _ _ ltac:(done) Hb). apply before_skip_le in Hb. cbn [bindR].
  change (parseSnapshotFormat K_SNAPSHOT_FORMAT_VERSION) with (Some SnapV2). cbv iota.
  rewrite (read_before 8 _ _ _ Hv Hb). apply before_skip_le in Hb. cbn [bindR].
  rewrite (read_before 4 _ _ _ Hn Hb). apply before_skip_le in Hb. cbn [bindR]. eauto.
Qed.

Lemma snapBodies_length es : (42 * length es <= length (concat (snapBody <$> es)))%nat.
Proof.
  induction es as [|e es IH]; [simpl; lia|]. rewrite fmap_cons. cbn [concat length].
  rewrite length_app, snapBody_length. unfold snapSize. lia.
Qed.

(** A whole file: where the entries start, and what they read as. *)
Lemma snapFile_read nv es :
  in_u 64 nv → in_u 32 (Z.of_nat (length es)) → Forall snap_ok es →
  ∃ r s', readSnapHeader (snapFile nv es) = Ok (true, nv, Z.of_nat (length es), r) ∧
    (Z.of_nat (length es) <= Z.of_nat (BufferReader.remaining r) / 42) ∧
    readEntries true (length es) (mkStream r (Z.of_nat (BufferReader.remaining r))) = (es, Ok s') ∧ s_left s' = 0.
Proof.
  intros Hv Hn Hes. destruct (readSnapHeader_full nv _ (concat (snapBody <$> es)) Hv Hn) as (r & Eh & Hb).
  destruct (readEntries_full es (mkStream r (Z.of_nat (BufferReader.remaining r))) Hes) as (s' & Er & Hs').
  { split; [done|]. simpl. by rewrite (remaining_before _ _ Hb). }
  exists r, s'. split_and!; [exact Eh| |done|by destruct Hs' as [_ ->]].
  rewrite (remaining_before _ _ Hb). apply Z.div_le_lower_bound; [lia|]. pose proof (snapBodies_length es). lia.
Qed.

(** a snapshot reads back as it was written, and a damaged one is refused.
    Whatever its entries and however they fall into chunks, the file of a
    successful write reads back as the same next version and entries; cut
    anywhere short of its end, it is rejected, never taken for a smaller
    snapshot. *)
Theorem snapshot_roundtrip (io : SnapIo) (nv : Z) (es : list SnapshotEntry) :
  in_u 64 nv → in_u 32 (Z.of_nat (length es)) → Forall snap_ok es →
  ∃ r, writeSnapshot io nv es = Some r ∧
    ∀ file, r = Ok file →
      readAll (Some file) = Ok (mkSnapData nv es) ∧
      ∀ k, (k < length file)%nat → ∃ e, readAll (Some (take k file)) = Err e.
Proof.
  intros Hv Hn Hes. destruct (writeSnapshot_spec io nv es Hes Hn) as (res & Ew & Hf). exists res. split; [done|].
  intros file Hok. rewrite (Hf file Hok). clear res file Ew Hf Hok.
  destruct (snapFile_read nv es Hv Hn Hes) as (r & s' & Eh & Hc & Er & Hl). split.
  { unfold readAll, readStream. rewrite Eh. cbv zeta.
    destruct (Z.gtb_spec (Z.of_nat (length es)) (Z.of_nat (BufferReader.remaining r) / 42)); [lia|].
    by rewrite Nat2Z.id, Er. }
  intros k Hk. set (file := snapFile nv es) in *. unfold readAll, readStream.
  destruct (readSnapHeader (take k file)) as [[[[t v] c] r1]|e] eqn:E; [|eauto].
  destruct (readSnapHeader_extend (drop k file) _ _ _ _ _ E) as [Hp E']. rewrite take_drop, Eh in E'.
  injection E' as <- <- <- ->. cbv zeta. destruct (_ >? _); [eauto|].
  rewrite Nat2Z.id.
  destruct (readEntries true (length es) (mkStream r1 _)) as [es' [s1|e]] eqn:E1; [|eauto]. exfalso.
  assert (stream_ok (mkStream r1 (Z.of_nat (BufferReader.remaining r1)))) as Hs1 by (split; simpl; [done|lia]).
   destruct (readEntries_extend (drop k file) _ _ _ _ _ Hs1 E1) as [[_ Hs2] E2].
  assert (sextend (drop k file) (mkStream r1 (Z.of_nat (BufferReader.remaining r1)))
    = mkStream (extend (drop k file) r1) (Z.of_nat (BufferReader.remaining (extend (drop k file) r1)))) as Heq.
  { unfold sextend, BufferReader.remaining. simpl. f_equal. rewrite length_app. unfold zlen. lia. }
  rewrite Heq, Er in E2. injection E2 as _ ->. cbn [s_left sextend] in Hl. unfold zlen in Hl.
  rewrite length_drop in Hl. lia.
Qed.

Lemma snapshot_roundtrip_witness :
  ∃ file, writeSnapshot (mkSnapIo true true true (Ok ())) 8
            [mkSnap (lit "a") (lit "1") 7 9 0 false false 3; mkSnap (lit "b") [] 6 9 5000 true true 0] = Some (Ok file) ∧
    readAll (Some file) =
      Ok (mkSnapData 8 [mkSnap (lit "a") (lit "1") 7 9 0 false false 3; mkSnap (lit "b") [] 6 9 5000 true true 0]).
Proof.
  destruct (snapshot_roundtrip (mkSnapIo true true true (Ok ())) 8
    [mkSnap (lit "a") (lit "1") 7 9 0 false false 3; mkSnap (lit "b") [] 6 9 5000 true true 0]) as (r & E & H).
  - split; vm_compute; congruence.
  - split; vm_compute; congruence.
  - repeat apply Forall_cons_2; try apply Forall_nil_2; split; try split; vm_compute; congruence.
  - destruct r as [file|e].
    + exists file. split; [exact E|]. apply H. reflexivity.
    + vm_compute in E. discriminate.
Defined.
