(* ===== verification/Clock.v ===== *)
(** * Clocks (include/cinder/cluster/clock.hpp)

    The two clocks an operation reads, in nanoseconds since their epochs, and
    the conversions between a steady expiry and an absolute one.  A null clock
    is the real one: both are a [Clock] here. *)

From S2P Require Import Prelude.
Local Open Scope Z_scope.

Record Clock := mkClock { now : Z; nowSystem : Z }.

Definition toSystemExpiry (c : Clock) (t : Z) : Z := nowSystem c + (t - now c).

Definition toSteadyExpiry (c : Clock) (t : Z) : Z := now c + (t - nowSystem c).

(** [duration_cast<milliseconds>] truncates toward zero. *)
Definition toSystemMs (c : Clock) (t : Z) : Z := u64 (Z.quot (toSystemExpiry c t) 1000000).

Definition toSystemMsOrDefault (c : Clock) (t : Z) : Z := toSystemMs c t.

Definition nowSystemMs (c : Clock) : Z := u64 (Z.quot (nowSystem c) 1000000).

(** The conversions are inverse to each other. *)
Lemma expiry_roundtrip c t : toSteadyExpiry c (toSystemExpiry c t) = t ∧ toSystemExpiry c (toSteadyExpiry c t) = t.
Proof. unfold toSteadyExpiry, toSystemExpiry. lia. Qed.
