(* ===== verification/Store.v ===== *)
(** * The eviction store (include/cinder/store/detail/eviction_store_base.hpp)

    A shard is a list of nodes, an index into it, a TTL wheel over the same
    nodes and a byte count; an eviction policy adds data to nodes and shards and
    provides the hooks of the class [Policy].  Nodes are addressed by numbers:
    the list, the index and the wheel hold addresses, and following one whose
    node is gone is [None].  The operations below are written once for every
    policy, as in the source; [LruStore] and [LfuStore] are the instances. *)

From S2P Require Import Prelude Types Bytes Clock Wal WheelHeap TtlWheel.
Export Entry Lww.
Local Open Scope Z_scope.

(** A call of the mutation sink. *)
Record Mutation := mkMutation { m_key : bytes; m_vt : Z; m_writer : Z; m_removed : bool }.

#[global] Instance Mutation_eq_dec : EqDecision Mutation.
Proof. solve_decision. Defined.

(** What the shards share.  The sink and the log are the calls they received,
    when one is registered. *)
Record Glob := mkGlob {
  capacity_bytes : Z;
  next_version : Z;
  tombstone_gc : Z;      (* milliseconds *)
  total_bytes : Z;
  total_entries : Z;
  sink : option (list Mutation);
  persistence : option (list WalEntry) }.

Record Node (PN : Type) := mkNode { n_key : bytes; n_entry : VersionedEntry; n_policy : PN }.
Arguments mkNode {PN}.
Arguments n_key {PN}.
Arguments n_entry {PN}.
Arguments n_policy {PN}.

Record Shard (PN PS : Type) := mkShard {
  slist : list nat;              (* from the front *)
  nodes : gmap nat (Node PN);
  index : gmap bytes nat;
  wheel : Wheel;
  current_bytes : Z;
  last_evict : Z;
  policy : PS }.
Arguments mkShard {PN PS}.
Arguments slist {PN PS}.
Arguments nodes {PN PS}.
Arguments index {PN PS}.
Arguments wheel {PN PS}.
Arguments current_bytes {PN PS}.
Arguments last_evict {PN PS}.
Arguments policy {PN PS}.

(** The hooks of a policy.  [evictPick] is the part of [evictOne] that chooses
    the victim and takes it out of the policy's own data. *)
Class Policy (PN PS : Type) := {
  node_bytes : Z;                (* sizeof(Node) *)
  policy_init : PS;
  applyExisting : nat → VersionedEntry → Shard PN PS → option (Shard PN PS);
  insertNew : bytes → VersionedEntry → Shard PN PS → option (nat * Shard PN PS);
  onAccess : nat → Shard PN PS → option (Shard PN PS);
  onEvictExpired : nat → Shard PN PS → option (Shard PN PS);
  evictPick : Shard PN PS → option (option (nat * Shard PN PS)) }.

Definition K_MAX_SHARDS : Z := 16.
Definition K_MIN_SHARD_BYTES : Z := 65536.

Definition shardCountFor (capacity : Z) : Z := Z.min (Z.max (capacity / K_MIN_SHARD_BYTES) 1) K_MAX_SHARDS.

(** Seconds up to an expiry, rounded up, at least one.  The difference of two
    time points is a 64-bit count of nanoseconds. *)
Definition expiryTicksAt (expires at_ : Z) : Z :=
  let remaining := to_signed 64 (expires - at_) in
  if remaining <=? 0 then 1
  else
    let ticks := - (- remaining / 1000000000) in
    if ticks <? 1 then 1 else ticks.

(** ** The shared state *)

Definition note (removed : bool) (key : bytes) (vt writer : Z) (g : Glob) : Glob :=
  match sink g with
  | None => g
  | Some l =>
      mkGlob (capacity_bytes g) (next_version g) (tombstone_gc g) (total_bytes g) (total_entries g)
        (Some (l ++ [mkMutation key vt writer removed])) (persistence g)
  end.

Definition noteAdded : bytes → Z → Z → Glob → Glob := note false.
Definition noteRemoved : bytes → Z → Z → Glob → Glob := note true.

Definition addTotals (bytes_ entries : Z) (g : Glob) : Glob :=
  mkGlob (capacity_bytes g) (next_version g) (tombstone_gc g) (total_bytes g + bytes_) (total_entries g + entries)
    (sink g) (persistence g).

(** The compare-and-swap loop that raises the Lamport clock. *)
Definition observeVersion (v : Z) (g : Glob) : Glob :=
  if v >? next_version g then
    mkGlob (capacity_bytes g) v (tombstone_gc g) (total_bytes g) (total_entries g) (sink g) (persistence g)
  else g.

Definition mintVersion (g : Glob) : Z * Glob :=
  (next_version g,
   mkGlob (capacity_bytes g) (u64 (next_version g + 1)) (tombstone_gc g) (total_bytes g) (total_entries g) (sink g) (persistence g)).

Definition onWrite (e : WalEntry) (g : Glob) : Glob :=
  match persistence g with
  | None => g
  | Some l =>
      mkGlob (capacity_bytes g) (next_version g) (tombstone_gc g) (total_bytes g) (total_entries g) (sink g) (Some (l ++ [e]))
  end.

Definition setMutationSink (g : Glob) : Glob :=
  mkGlob (capacity_bytes g) (next_version g) (tombstone_gc g) (total_bytes g) (total_entries g) (Some []) (persistence g).

Definition setPersistence (g : Glob) : Glob :=
  mkGlob (capacity_bytes g) (next_version g) (tombstone_gc g) (total_bytes g) (total_entries g) (sink g) (Some []).

Definition setTombstoneGcInterval (ms : Z) (g : Glob) : Glob :=
  mkGlob (capacity_bytes g) (next_version g) ms (total_bytes g) (total_entries g) (sink g) (persistence g).

Section shard.
Context {PN PS : Type}.
Implicit Types (sh : Shard PN PS) (g : Glob).

Definition with_wheel (w : Wheel) sh : Shard PN PS :=
  mkShard (slist sh) (nodes sh) (index sh) w (current_bytes sh) (last_evict sh) (policy sh).

Definition with_bytes (b : Z) sh : Shard PN PS :=
  mkShard (slist sh) (nodes sh) (index sh) (wheel sh) b (last_evict sh) (policy sh).

Definition with_last (t : Z) sh : Shard PN PS :=
  mkShard (slist sh) (nodes sh) (index sh) (wheel sh) (current_bytes sh) t (policy sh).

Definition with_policy (p : PS) sh : Shard PN PS :=
  mkShard (slist sh) (nodes sh) (index sh) (wheel sh) (current_bytes sh) (last_evict sh) p.

Definition with_nodes (ns : gmap nat (Node PN)) sh : Shard PN PS :=
  mkShard (slist sh) ns (index sh) (wheel sh) (current_bytes sh) (last_evict sh) (policy sh).

Definition with_list (l : list nat) sh : Shard PN PS :=
  mkShard l (nodes sh) (index sh) (wheel sh) (current_bytes sh) (last_evict sh) (policy sh).

Definition with_entry (e : VersionedEntry) (nd : Node PN) : Node PN := mkNode (n_key nd) e (n_policy nd).

Definition with_npolicy (p : PN) (nd : Node PN) : Node PN := mkNode (n_key nd) (n_entry nd) p.

Definition set_entry (n : nat) (e : VersionedEntry) sh : Shard PN PS := with_nodes (alter (with_entry e) n (nodes sh)) sh.

(** An address no node has; one that was freed may come back. *)
Definition fresh_addr sh : nat := S (map_fold (λ k _ a, Nat.max k a) O (nodes sh)).

(** [push_front] of a new node, entered in the index. *)
Definition add_node (n : nat) (nd : Node PN) sh : Shard PN PS :=
  mkShard (n :: slist sh) (<[n := nd]> (nodes sh)) (<[n_key nd := n]> (index sh)) (wheel sh) (current_bytes sh)
    (last_evict sh) (policy sh).

(** Take a node out of the wheel, the index and the list. *)
Definition dropNode (n : nat) sh : option (Shard PN PS) :=
  nd ← nodes sh !! n;
  w ← remove n (wheel sh);
  Some (mkShard (filter (λ m, m ≠ n) (slist sh)) (delete n (nodes sh)) (delete (n_key nd) (index sh)) w (current_bytes sh)
    (last_evict sh) (policy sh)).

Context `{Policy PN PS}.

Definition emptyShard (t : Z) : Shard PN PS := mkShard [] ∅ ∅ emptyWheel 0 t policy_init.

Definition nodeSize (nd : Node PN) : Z := zlen (n_key nd) + zlen (value (n_entry nd)) + node_bytes.

(** [None] inside: nothing but tombstones is left. *)
Definition evictOne (s : Glob * Shard PN PS) : option (option (Z * (Glob * Shard PN PS))) :=
  let '(g, sh) := s in
  r ← evictPick sh;
  match r with
  | None => Some None
  | Some (n, sh) =>
      nd ← nodes sh !! n;
      let g := noteRemoved (n_key nd) (version_and_ttl (n_entry nd)) (writer_node_hash (n_entry nd)) g in
      sh ← dropNode n sh;
      Some (Some (nodeSize nd, (g, sh)))
  end.

(** Every turn that goes on drops a node of the list. *)
Fixpoint evict_loop (fuel : nat) (cap : Z) (s : Glob * Shard PN PS) : option (Glob * Shard PN PS) :=
  match fuel with
  | O => Some s
  | S fuel =>
      if (current_bytes s.2 >? cap) && negb (bool_decide (slist s.2 = [])) then
        r ← evictOne s;
        match r with
        | None => Some s
        | Some (freed, (g, sh)) => evict_loop fuel cap (addTotals (- freed) (-1) g, with_bytes (current_bytes sh - freed) sh)
        end
      else Some s
  end.

Definition evictIfNeeded (cap : Z) (s : Glob * Shard PN PS) : option (Glob * Shard PN PS) :=
  evict_loop (S (length (slist s.2))) cap s.

Definition eraseNode (key : bytes) (s : Glob * Shard PN PS) : option (Glob * Shard PN PS) :=
  let '(g, sh) := s in
  n ← index sh !! key;
  nd ← nodes sh !! n;
  let g := noteRemoved key (version_and_ttl (n_entry nd)) (writer_node_hash (n_entry nd)) g in
  let freed := nodeSize nd in
  sh ← onEvictExpired n sh;
  sh ← dropNode n sh;
  Some (addTotals (- freed) (-1) g, with_bytes (current_bytes sh - freed) sh).

Definition updateWheelAt (n : nat) (at_ : Z) sh : option (Shard PN PS) :=
  nd ← nodes sh !! n;
  w ← (if hasTtl (n_entry nd) then insert n (expiryTicksAt (expires_at (n_entry nd)) at_) (wheel sh)
       else remove n (wheel sh));
  Some (with_wheel w sh).

(** The record of a resident entry. *)
Definition walRecord (c : Clock) (key : bytes) (e : VersionedEntry) : WalEntry :=
  mkWalEntry OpSet key (value e) (version e) (writer_node_hash e)
    (if hasTtl e then toSystemMsOrDefault c (expires_at e) else 0) (hasTtl e) (isTombstone e).

Definition writeWal (c : Clock) (key : bytes) (s : Glob * Shard PN PS) : option (Glob * Shard PN PS) :=
  let '(g, sh) := s in
  match persistence g, index sh !! key with
  | Some _, Some n => nd ← nodes sh !! n; Some (onWrite (walRecord c key (n_entry nd)) g, sh)
  | _, _ => Some (g, sh)
  end.

Definition err_capacity : Error := mkError CapacityExceeded (lit "value exceeds capacity").

(** The key is resident at [n], with node [nd]. *)
Definition putExisting (c : Clock) (cap : Z) (key : bytes) (entry : VersionedEntry) (at_ : Z) (n : nat) (nd : Node PN)
    (s : Glob * Shard PN PS) : option (Result () * (Glob * Shard PN PS)) :=
  let '(g, sh) := s in
  let old := n_entry nd in
  if decide (compareLww (stampOf entry) (stampOf old) = Less) then Some (Ok (), s)
  else
    let g := observeVersion (u64 (version entry + 1)) g in
    let old_size := nodeSize nd in
    sh ← applyExisting n entry (with_bytes (current_bytes sh - old_size) sh);
    nd' ← nodes sh !! n;
    let new_size := nodeSize nd' in
    let g := addTotals new_size 0 (addTotals (- old_size) 0 g) in
    '(g, sh) ← evictIfNeeded cap (g, with_bytes (current_bytes sh + new_size) sh);
    match index sh !! key with
    | None => Some (Ok (), (noteRemoved key (version_and_ttl old) (writer_node_hash old) g, sh))
    | Some n =>
        nd ← nodes sh !! n;
        let g := noteRemoved key (version_and_ttl old) (writer_node_hash old) g in
        let g := noteAdded key (version_and_ttl (n_entry nd)) (writer_node_hash (n_entry nd)) g in
        sh ← updateWheelAt n at_ sh;
        s ← writeWal c key (g, sh);
        Some (Ok (), s)
    end.

(** The key is not resident. *)
Definition putNew (c : Clock) (cap : Z) (key : bytes) (entry : VersionedEntry) (at_ : Z)
    (s : Glob * Shard PN PS) : option (Result () * (Glob * Shard PN PS)) :=
  let '(g, sh) := s in
  let entry_size := zlen key + zlen (value entry) + node_bytes in
  if entry_size >? cap then Some (Err err_capacity, s)
  else
    let g := observeVersion (u64 (version entry + 1)) g in
    '(n, sh) ← insertNew key entry sh;
    '(g, sh) ← evictIfNeeded cap (addTotals entry_size 1 g, with_bytes (current_bytes sh + entry_size) sh);
    match index sh !! key with
    | None => Some (Ok (), (g, sh))
    | Some _ =>
        nd ← nodes sh !! n;
        let g := noteAdded key (version_and_ttl (n_entry nd)) (writer_node_hash (n_entry nd)) g in
        sh ← updateWheelAt n at_ sh;
        s ← writeWal c key (g, sh);
        Some (Ok (), s)
    end.

Definition putShard (c : Clock) (cap : Z) (key : bytes) (entry : VersionedEntry) (at_ : Z)
    (s : Glob * Shard PN PS) : option (Result () * (Glob * Shard PN PS)) :=
  match index s.2 !! key with
  | Some n => nd ← nodes s.2 !! n; putExisting c cap key entry at_ n nd s
  | None => putNew c cap key entry at_ s
  end.

Definition expired (t : Z) (e : VersionedEntry) : bool := hasTtl e && (expires_at e <=? t).

Definition getShard (c : Clock) (key : bytes) (s : Glob * Shard PN PS) : option (option bytes * (Glob * Shard PN PS)) :=
  match index s.2 !! key with
  | None => Some (None, s)
  | Some n =>
      nd ← nodes s.2 !! n;
      if expired (now c) (n_entry nd) then s ← eraseNode key s; Some (None, s)
      else if isTombstone (n_entry nd) then Some (None, s)
      else
        sh ← onAccess n s.2;
        nd ← nodes sh !! n;
        Some (Some (value (n_entry nd)), (s.1, sh))
  end.

Definition getVersionedShard (c : Clock) (key : bytes) (s : Glob * Shard PN PS)
    : option (option VersionedEntry * (Glob * Shard PN PS)) :=
  match index s.2 !! key with
  | None => Some (None, s)
  | Some n =>
      nd ← nodes s.2 !! n;
      if expired (now c) (n_entry nd) then s ← eraseNode key s; Some (None, s)
      else Some (Some (n_entry nd), s)
  end.

Definition removeShard (key : bytes) (s : Glob * Shard PN PS) : option (bool * (Glob * Shard PN PS)) :=
  match index s.2 !! key with
  | None => Some (false, s)
  | Some n =>
      nd ← nodes s.2 !! n;
      let e := n_entry nd in
      let g := onWrite (mkWalEntry OpDel key [] (version e) (writer_node_hash e) 0 false false) s.1 in
      s ← eraseNode key (g, s.2);
      Some (true, s)
  end.

(** The state the callback of a tick works on. *)
Definition EvictState : Type := (Glob * Shard PN PS) * nat.

(** The callback: reap an expired entry, schedule any other one again. *)
Definition onTimer (current : Z) (n : nat) (st : EvictState) : option EvictState :=
  let '((g, sh), evicted) := st in
  nd ← nodes sh !! n;
  let e := n_entry nd in
  if negb (hasTtl e) || (expires_at e >? current) then
    w ← insert n (expiryTicksAt (expires_at e) current) (wheel sh);
    Some ((g, with_wheel w sh), evicted)
  else
    match index sh !! n_key nd with
    | None => Some st
    | Some _ => s ← eraseNode (n_key nd) (g, sh); Some (s, S evicted)
    end.

Definition tickShard (current : Z) (st : EvictState) : option EvictState :=
  tick (λ st, wheel st.1.2) (λ w st, ((st.1.1, with_wheel w st.1.2), st.2)) (onTimer current) st.

Fixpoint tickMany (ticks : nat) (current : Z) (st : EvictState) : option EvictState :=
  match ticks with
  | O => Some st
  | S ticks => st ← tickShard current st; tickMany ticks current st
  end.

(** How many ticks a sweep makes: the whole seconds since the last one. *)
Definition sweepTicks (current last : Z) : nat :=
  let elapsed_ticks := to_signed 64 (current - last) / 1000000000 in
  if elapsed_ticks <? 1 then 1%nat else Z.to_nat elapsed_ticks.

Definition evictShard (current : Z) (st : EvictState) : option EvictState :=
  let '((g, sh), evicted) := st in
  tickMany (sweepTicks current (last_evict sh)) current ((g, with_last current sh), evicted).

(** The entries of a shard that have not expired, from the front of its list. *)
Definition liveShard (snap_time : Z) sh : list (bytes * VersionedEntry) :=
  omap (λ n, nd ← nodes sh !! n;
    if expired snap_time (n_entry nd) then None else Some (n_key nd, n_entry nd)) (slist sh).

End shard.

(** ** The store: its shards and what they share *)

Record Store (PN PS : Type) := mkStore { glob : Glob; shards : list (Shard PN PS) }.
Arguments mkStore {PN PS}.
Arguments glob {PN PS}.
Arguments shards {PN PS}.

Section store.
Context {PN PS : Type} `{Policy PN PS}.

(** [std::hash] of a key *)
Context (hash : bytes → Z).
Implicit Types (s : Store PN PS).

(** The constructors: no entries, the Lamport clock at the steady clock. *)
Definition newStore (c : Clock) (capacity : Z) : Store PN PS :=
  mkStore (mkGlob capacity (u64 (now c)) 300000 0 0 None None)
    (replicate (Z.to_nat (shardCountFor capacity)) (emptyShard (now c))).

Definition shardFor (key : bytes) s : nat := Z.to_nat (hash key mod Z.of_nat (length (shards s))).

Definition shardCapacity s : Z := capacity_bytes (glob s) / Z.of_nat (length (shards s)).

(** An operation on the shard of a key, under its lock. *)
Definition on_shard {A} (key : bytes) (f : Glob * Shard PN PS → option (A * (Glob * Shard PN PS))) s
    : option (A * Store PN PS) :=
  sh ← shards s !! shardFor key s;
  '(a, (g, sh)) ← f (glob s, sh);
  Some (a, mkStore g (<[shardFor key s := sh]> (shards s))).

Definition putVersionedAt (c : Clock) (key : bytes) (entry : VersionedEntry) (at_ : Z) s : option (Result () * Store PN PS) :=
  on_shard key (putShard c (shardCapacity s) key entry at_) s.

Definition putVersioned (c : Clock) (key : bytes) (entry : VersionedEntry) s : option (Result () * Store PN PS) :=
  putVersionedAt c key entry (if hasTtl entry then now c else 0) s.

Definition put (c : Clock) (key v : bytes) (ttl : option Z) s : option (Result () * Store PN PS) :=
  let '(ver, g) := mintVersion (glob s) in
  let s := mkStore g (shards s) in
  let entry := setVersion ver (with_value v emptyEntry) in
  match ttl with
  | Some ms => putVersionedAt c key (setHasTtl true (with_expires (now c + ms * 1000000) entry)) (now c) s
  | None => putVersioned c key entry s
  end.

Definition removeVersioned (c : Clock) (key : bytes) (ver writer : Z) s : option (Result () * Store PN PS) :=
  let tomb := with_writer writer (setTombstone true (setVersion ver emptyEntry)) in
  let tomb := setHasTtl true (with_expires (now c + tombstone_gc (glob s) * 1000000) tomb) in
  putVersionedAt c key tomb (now c) s.

Definition get (c : Clock) (key : bytes) s : option (option bytes * Store PN PS) := on_shard key (getShard c key) s.

Definition getVersioned (c : Clock) (key : bytes) s : option (option VersionedEntry * Store PN PS) :=
  on_shard key (getVersionedShard c key) s.

Definition removeKey (key : bytes) s : option (bool * Store PN PS) := on_shard key (removeShard key) s.

Definition size_ s : nat := sum_list (size ∘ index <$> shards s).

(** One shard after another, threading the shared state and a counter. *)
Fixpoint sweep (f : EvictState → option EvictState) (g : Glob) (evicted : nat) (shs : list (Shard PN PS))
    : option (Glob * nat * list (Shard PN PS)) :=
  match shs with
  | [] => Some (g, evicted, [])
  | sh :: shs =>
      '((g, sh), evicted) ← f ((g, sh), evicted);
      '(g, evicted, shs) ← sweep f g evicted shs;
      Some (g, evicted, sh :: shs)
  end.

Definition evictExpired (c : Clock) s : option (nat * Store PN PS) :=
  '(g, evicted, shs) ← sweep (evictShard (now c)) (glob s) 0 (shards s);
  Some (evicted, mkStore g shs).

Definition liveEntries (c : Clock) s : list (bytes * VersionedEntry) := shards s ≫= liveShard (now c).

(** The visitor runs over the snapshot, outside the locks. *)
Definition forEach {A} (c : Clock) (fn : A → bytes → VersionedEntry → A) (a : A) s : A :=
  foldl (λ a '(k, e), fn a k e) a (liveEntries c s).

Definition setCapacity (new_capacity : Z) s : option (Store PN PS) :=
  let g := glob s in
  let g := mkGlob new_capacity (next_version g) (tombstone_gc g) (total_bytes g) (total_entries g) (sink g) (persistence g) in
  let cap := new_capacity / Z.of_nat (length (shards s)) in
  '(g, _, shs) ← sweep (λ st, s ← evictIfNeeded cap st.1; Some (s, st.2)) g 0 (shards s);
  Some (mkStore g shs).

End store.
