(* ===== verification/StoreFacts.v ===== *)
(** * What the eviction store guarantees, for every policy

    [PolicyLaws] is what the base class relies on; the invariant of a shard and
    the theorems on the store's operations are proved against it. *)

From S2P Require Import Prelude Types Bytes Clock Wal WheelHeap TtlWheel Store.
Import EntryFacts LwwFacts.
Local Open Scope Z_scope.

Section shard_view.
Context {PN PS : Type}.
Implicit Types (sh : Shard PN PS).

(** What the base class sees of a node: its key and entry. *)
Definition core (nd : Node PN) : bytes * VersionedEntry := (n_key nd, n_entry nd).

Definition cores sh : gmap nat (bytes * VersionedEntry) := core <$> nodes sh.

Definition policies sh : gmap nat PN := n_policy <$> nodes sh.

(** The entry a key has. *)
Definition entry_at sh (k : bytes) : option VersionedEntry := n ← index sh !! k; snd <$> cores sh !! n.

(** The shards differ only in the order of the list and in the policy's data. *)
Record same_core sh sh' : Prop := mkSameCore {
  sc_list : slist sh' ≡ₚ slist sh;
  sc_cores : cores sh' = cores sh;
  sc_index : index sh' = index sh;
  sc_wheel : wheel sh' = wheel sh;
  sc_bytes : current_bytes sh' = current_bytes sh;
  sc_last : last_evict sh' = last_evict sh }.

(** The list holds exactly the nodes, once each. *)
Definition listed sh : Prop := NoDup (slist sh) ∧ ∀ n, n ∈ slist sh ↔ is_Some (cores sh !! n).

End shard_view.

(** What a policy promises.  [p_inv] relates the data of the nodes the policy
    keeps account of to its data of the shard; each hook keeps the rest of the
    shard as it was. *)
Class PolicyLaws (PN PS : Type) `{Policy PN PS} := {
  p_inv : gmap nat PN → PS → Prop;
  node_bytes_pos : 0 < node_bytes;
  init_law : p_inv ∅ policy_init;
  apply_law (sh : Shard PN PS) n e : listed sh → p_inv (policies sh) (policy sh) → is_Some (nodes sh !! n) →
    ∃ sh', applyExisting n e sh = Some sh' ∧ same_core (set_entry n e sh) sh' ∧ p_inv (policies sh') (policy sh');
  insert_law (sh : Shard PN PS) k e : listed sh → p_inv (policies sh) (policy sh) →
    ∃ n pn sh', insertNew k e sh = Some (n, sh') ∧ nodes sh !! n = None ∧
      same_core (add_node n (mkNode k e pn) sh) sh' ∧ p_inv (policies sh') (policy sh');
  access_law (sh : Shard PN PS) n : listed sh → p_inv (policies sh) (policy sh) → is_Some (nodes sh !! n) →
    ∃ sh', onAccess n sh = Some sh' ∧ same_core sh sh' ∧ p_inv (policies sh') (policy sh');
  expire_law (sh : Shard PN PS) n : listed sh → p_inv (policies sh) (policy sh) → is_Some (nodes sh !! n) →
    ∃ sh', onEvictExpired n sh = Some sh' ∧ same_core sh sh' ∧ p_inv (delete n (policies sh')) (policy sh');
  pick_law (sh : Shard PN PS) : listed sh → p_inv (policies sh) (policy sh) →
    (evictPick sh = Some None ∧ ∀ n k e, cores sh !! n = Some (k, e) → isTombstone e = true) ∨
    ∃ n sh' k e, evictPick sh = Some (Some (n, sh')) ∧ cores sh !! n = Some (k, e) ∧ isTombstone e = false ∧
      same_core sh sh' ∧ p_inv (delete n (policies sh')) (policy sh') }.

Section facts.
Context {PN PS : Type} `{PolicyLaws PN PS}.
Implicit Types (sh : Shard PN PS) (g : Glob).

Definition p_ok sh : Prop := p_inv (policies sh) (policy sh).

Definition coreSize (c : bytes * VersionedEntry) : Z := zlen c.1 + zlen (value c.2) + node_bytes.

Definition bytes_of (cs : gmap nat (bytes * VersionedEntry)) : Z := map_fold (λ _ c a, coreSize c + a) 0 cs.

(** The counter of a wheel has room for the longest timer: 64-bit nanoseconds
    are fewer than [2 ^ 34] seconds. *)
Definition max_ticks : Z := 2 ^ 64 - 2 ^ 34.

(** The invariant of a shard, but for the wheel's account of the nodes in [X]
    and a byte count that is off by [d]; [lo] is the last tick completed. *)
Record base_inv (lo : Z) (X : gset nat) (d : Z) sh : Prop := mkBaseInv {
  bi_listed : listed sh;
  bi_index : ∀ k n, index sh !! k = Some n ↔ ∃ e, cores sh !! n = Some (k, e);
  bi_wheel : wheel_inv lo (wheel sh);
  bi_lo : lo <= tick_count (wheel sh);
  bi_ticks : tick_count (wheel sh) <= max_ticks;
  bi_due : ∀ n, is_Some (due (wheel sh) n) → is_Some (cores sh !! n);
  bi_sched : ∀ n k e, cores sh !! n = Some (k, e) → n ∉ X → (is_Some (due (wheel sh) n) ↔ hasTtl e = true);
  bi_bytes : current_bytes sh = bytes_of (cores sh) + d }.

(** The invariant between operations. *)
Definition shard_inv sh : Prop := base_inv (tick_count (wheel sh)) ∅ 0 sh ∧ p_ok sh.

(** ** Lookups *)

Lemma cores_lookup sh n : cores sh !! n = core <$> nodes sh !! n.
Proof. apply lookup_fmap. Qed.

Lemma cores_Some sh n k e :
  cores sh !! n = Some (k, e) ↔ ∃ nd, nodes sh !! n = Some nd ∧ n_key nd = k ∧ n_entry nd = e.
Proof.
  rewrite cores_lookup. unfold core. destruct (nodes sh !! n) as [nd|]; simpl; [|naive_solver].
  split; [intros [= <- <-]; eauto|]. by intros (? & [= <-] & <- & <-).
Qed.

Lemma cores_node sh n nd : nodes sh !! n = Some nd → cores sh !! n = Some (n_key nd, n_entry nd).
Proof. intros E. by rewrite cores_lookup, E. Qed.

Lemma nodes_cores sh n : is_Some (nodes sh !! n) ↔ is_Some (cores sh !! n).
Proof. by rewrite cores_lookup, fmap_is_Some. Qed.

Lemma entry_at_Some lo X d sh k e :
  base_inv lo X d sh → entry_at sh k = Some e ↔ ∃ n, index sh !! k = Some n ∧ cores sh !! n = Some (k, e).
Proof.
  intros Hi. unfold entry_at. destruct (index sh !! k) as [n|] eqn:E; simpl; [|naive_solver].
  apply (bi_index _ _ _ _ Hi) in E as [e' E]. rewrite E. simpl. split.
  - intros [= <-]. eauto.
  - intros (? & [= <-] & E'). congruence.
Qed.

Lemma key_address lo X d sh n n' k e e' :
  base_inv lo X d sh → cores sh !! n = Some (k, e) → cores sh !! n' = Some (k, e') → n = n'.
Proof.
  intros Hi H1 H2. assert (index sh !! k = Some n) as E1 by (apply (bi_index _ _ _ _ Hi); eauto).
  assert (index sh !! k = Some n') as E2 by (apply (bi_index _ _ _ _ Hi); eauto). congruence.
Qed.

(** ** Moves between shards *)

Lemma base_same lo X d sh sh' : same_core sh sh' → base_inv lo X d sh → base_inv lo X d sh'.
Proof.
  intros [Hl Hc Hx Hw Hb _] [[Hnd Hin] ? ? ? ? ? ? ?]. split; rewrite ?Hc, ?Hx, ?Hw, ?Hb; try done.
  split; [by rewrite Hl|]. intros n. by rewrite Hl, Hc.
Qed.

Lemma base_bytes lo X d sh b :
  base_inv lo X d sh → base_inv lo X (d + (b - current_bytes sh)) (with_bytes b sh).
Proof. intros []. split; try done. simpl. rewrite bi_bytes0. unfold cores. simpl. fold (cores sh). lia. Qed.

Lemma bytes_of_delete cs n c : cs !! n = Some c → bytes_of (delete n cs) = bytes_of cs - coreSize c.
Proof.
  intros E. unfold bytes_of. rewrite (map_fold_delete_L (λ _ c a, coreSize c + a) 0 n c cs); [lia| |done].
  intros. lia.
Qed.

Lemma bytes_of_insert cs n c :
  bytes_of (<[n := c]> cs) = bytes_of cs + coreSize c - from_option coreSize 0 (cs !! n).
Proof.
  rewrite <- insert_delete_eq. unfold bytes_of at 1.
  rewrite map_fold_insert_L; [|intros; lia|apply lookup_delete_eq]. fold (bytes_of (delete n cs)).
  destruct (cs !! n) as [c'|] eqn:E; simpl; [rewrite (bytes_of_delete _ _ _ E); lia|].
  rewrite delete_id by done. lia.
Qed.

Lemma filter_ne_elem (l : list nat) n m : m ∈ filter (λ m, m ≠ n) l ↔ m ∈ l ∧ m ≠ n.
Proof. rewrite list_elem_of_filter. tauto. Qed.

Lemma drop_base lo X d sh n k e :
  base_inv lo X d sh → cores sh !! n = Some (k, e) →
  ∃ sh', dropNode n sh = Some sh' ∧ base_inv lo X (d + coreSize (k, e)) sh' ∧
    cores sh' = delete n (cores sh) ∧ index sh' = delete k (index sh) ∧ slist sh' = filter (λ m, m ≠ n) (slist sh) ∧
    policies sh' = delete n (policies sh) ∧ policy sh' = policy sh ∧ tick_count (wheel sh') = tick_count (wheel sh) ∧
    (∀ m, due (wheel sh') m = if decide (m = n) then None else due (wheel sh) m) ∧
    current_bytes sh' = current_bytes sh ∧ last_evict sh' = last_evict sh.
Proof.
  intros Hi Hn. pose proof Hn as (nd & End & <- & <-)%cores_Some. unfold dropNode. rewrite End. cbn [mbind option_bind].
  destruct (remove_spec lo n (wheel sh) (bi_wheel _ _ _ _ Hi)) as (w & -> & Hw & _ & Ht & _ & _ & _ & Hd).
  cbn [mbind option_bind]. eexists. split; [done|]. unfold cores, policies. cbn [nodes index slist wheel policy current_bytes last_evict].
  rewrite !fmap_delete. fold (cores sh) (policies sh). split; [|done].
  destruct Hi as [[Hnd Hin] Hx Hwh Hlo Hmax Hdue Hs Hb]. split; unfold listed, cores; cbn [nodes index slist wheel current_bytes];
    rewrite ?fmap_delete; fold (cores sh).
  - split; [by apply NoDup_filter|]. intros m. rewrite filter_ne_elem, Hin, lookup_delete.
    case_decide; subst; [split; [by intros []|by intros []]|]. split; [tauto|]. intros ?. split; [done|congruence].
  - intros k m. rewrite !lookup_delete. destruct (decide (n_key nd = k)) as [<-|Hk].
    + split; [done|]. intros [e He]. case_decide as Hm; [done|]. exfalso. apply Hm. symmetry.
      apply (key_address lo X d sh m n (n_key nd) e (n_entry nd)); [by split|done|done].
    + rewrite Hx. case_decide as Hm; [|done]. subst. rewrite Hn. split; [intros [? [= ??]]; congruence|by intros []].
  - done.
  - lia.
  - lia.
  - intros m. rewrite Hd, lookup_delete. case_decide as Hm; [by intros []|]. rewrite decide_False by congruence. apply Hdue.
  - intros m k e. rewrite Hd, lookup_delete. case_decide as Hm; [done|]. rewrite decide_False by congruence. apply Hs.
  - rewrite (bytes_of_delete _ _ _ Hn), Hb. lia.
Qed.

Lemma add_base lo X d sh n nd :
  base_inv lo X d sh → nodes sh !! n = None → index sh !! n_key nd = None →
  base_inv lo ({[n]} ∪ X) (d - coreSize (core nd)) (add_node n nd sh).
Proof.
  intros Hi Hn Hk. assert (cores sh !! n = None) as Hc by (by rewrite cores_lookup, Hn).
  destruct Hi as [[Hnd Hin] Hx Hwh Hlo Hmax Hdue Hs Hb]. split; unfold listed, cores; cbn [add_node nodes index slist wheel current_bytes];
    rewrite ?fmap_insert; fold (cores sh); try done.
  - split; [apply NoDup_cons; split; [rewrite Hin, Hc; by intros []|done]|].
    intros m. rewrite elem_of_cons, Hin, lookup_insert. case_decide; [subst; naive_solver|naive_solver].
  - intros k m. rewrite !lookup_insert. destruct (decide (n_key nd = k)) as [<-|Hne]; case_decide as Hm; subst.
    + unfold core. split; [by eauto|done].
    + split; [congruence|]. intros [e He]. assert (index sh !! n_key nd = Some m) by (apply Hx; eauto). congruence.
    + rewrite Hx, Hc. unfold core. split; [by intros []|]. intros [e [= ??]]. congruence.
    + apply Hx.
  - intros m Hm. rewrite lookup_insert. case_decide; [done|]. by apply Hdue.
  - intros m k e. rewrite lookup_insert. case_decide; [set_solver|]. intros He Hm. apply (Hs m k); [done|set_solver].
  - rewrite bytes_of_insert, Hc. simpl. lia.
Qed.

Lemma set_base lo X d sh n k e e' :
  base_inv lo X d sh → cores sh !! n = Some (k, e) →
  base_inv lo ({[n]} ∪ X) (d + coreSize (k, e) - coreSize (k, e')) (set_entry n e' sh) ∧
  cores (set_entry n e' sh) = <[n := (k, e')]> (cores sh).
Proof.
  intros Hi Hn. pose proof Hn as (nd & End & <- & <-)%cores_Some.
  assert (cores (set_entry n e' sh) = <[n := (n_key nd, e')]> (cores sh)) as Hc.
  { apply map_eq. intros m. unfold cores, set_entry. simpl. rewrite lookup_fmap, lookup_insert.
    case_decide; [subst; by rewrite lookup_alter_eq, End|]. by rewrite lookup_alter_ne, lookup_fmap. }
  split; [|done]. destruct Hi as [[Hnd Hin] Hx Hwh Hlo Hmax Hdue Hs Hb].
  split; unfold listed; rewrite ?Hc; cbn [set_entry with_nodes index slist wheel current_bytes]; try done.
  - split; [done|]. intros m. rewrite Hin, lookup_insert. case_decide; [subst; rewrite Hn; naive_solver|done].
  - intros k m. rewrite Hx, lookup_insert. case_decide; [subst; rewrite Hn; naive_solver|done].
  - intros m Hm. rewrite lookup_insert. case_decide; [done|]. by apply Hdue.
  - intros m k e. rewrite lookup_insert. case_decide; [set_solver|]. intros He Hm. apply (Hs m k); [done|set_solver].
  - rewrite bytes_of_insert, Hn. simpl. lia.
Qed.
Lemma expiryTicksAt_pos t at_ : 1 <= expiryTicksAt t at_.
Proof.
  unfold expiryTicksAt. destruct (_ <=? 0); [lia|].
  by destruct (Z.ltb_spec (- (- to_signed 64 (t - at_) / 1000000000)) 1); lia.
Qed.

Lemma expiryTicksAt_lt t at_ : expiryTicksAt t at_ < 2 ^ 34.
Proof.
  unfold expiryTicksAt. destruct (_ <=? 0); [lia|]. destruct (_ <? 1); [lia|].
  pose proof (to_signed_range 64 (t - at_)) as Hr. Z.to_euclidean_division_equations. lia.
Qed.

Lemma expiry_room lo w t at_ : wheel_inv lo w → tick_count w <= max_ticks → tick_count w + expiryTicksAt t at_ < 2 ^ 64.
Proof. intros Hw Ht. pose proof (expiryTicksAt_lt t at_). unfold max_ticks in Ht. lia. Qed.

(** The same shard with another wheel. *)
Record rewheeled sh sh' : Prop := mkRewheeled {
  rw_nodes : nodes sh' = nodes sh;
  rw_index : index sh' = index sh;
  rw_list : slist sh' = slist sh;
  rw_policy : policy sh' = policy sh;
  rw_bytes : current_bytes sh' = current_bytes sh;
  rw_last : last_evict sh' = last_evict sh;
  rw_tick : tick_count (wheel sh') = tick_count (wheel sh) }.

Lemma rewheel_base lo X Y d sh w n k e :
  base_inv lo ({[n]} ∪ X) d sh → cores sh !! n = Some (k, e) → wheel_inv lo w → tick_count w = tick_count (wheel sh) →
  (∀ m, m ≠ n → due w m = due (wheel sh) m) → (is_Some (due w n) ↔ hasTtl e = true) → X ⊆ Y →
  base_inv lo Y d (with_wheel w sh).
Proof.
  intros [] Hn Hw Ht Hm Hd Hxy. split; cbn [with_wheel wheel]; try done.
  - lia.
  - lia.
  - intros m Hs. destruct (decide (m = n)) as [->|Hne]; [change (is_Some (cores sh !! n)); by rewrite Hn|].
    apply bi_due0. by rewrite <- Hm.
  - intros m k' e' Hc Hx. change (cores sh !! m = Some (k', e')) in Hc. destruct (decide (m = n)) as [->|Hne].
    + rewrite Hn in Hc. by injection Hc as <- <-.
    + rewrite Hm by done. apply (bi_sched0 m k'); [done|set_solver].
Qed.

Lemma update_base lo X d sh n k e at_ :
  base_inv lo ({[n]} ∪ X) d sh → cores sh !! n = Some (k, e) →
  ∃ sh', updateWheelAt n at_ sh = Some sh' ∧ base_inv lo X d sh' ∧ rewheeled sh sh' ∧
    (∀ m, m ≠ n → due (wheel sh') m = due (wheel sh) m) ∧
    due (wheel sh') n = if hasTtl e then Some (tick_count (wheel sh) + expiryTicksAt (expires_at e) at_) else None.
Proof.
  intros Hi Hn. pose proof Hn as (nd & End & <- & <-)%cores_Some. unfold updateWheelAt. rewrite End. cbn [mbind option_bind].
  pose proof (expiryTicksAt_pos (expires_at (n_entry nd)) at_) as Hpos. destruct (hasTtl (n_entry nd)) eqn:Et.
  - destruct (insert_spec lo n (expiryTicksAt (expires_at (n_entry nd)) at_) (wheel sh)) as (w & -> & Hw & Ht & Hd);
      [apply Hi|apply Hi|lia|apply (expiry_room lo); apply Hi|]. cbn [mbind option_bind]. eexists. split; [done|].
    assert (∀ m, m ≠ n → due w m = due (wheel sh) m) as Hm by (intros m ?; by rewrite Hd, decide_False).
    assert (due w n = Some (tick_count (wheel sh) + expiryTicksAt (expires_at (n_entry nd)) at_)) as Hdn.
    { rewrite Hd, decide_True by done. destruct (Z.eqb_spec (expiryTicksAt (expires_at (n_entry nd)) at_) 0); [lia|done]. }
    split; [|by split_and!]. apply (rewheel_base lo X X d sh w n (n_key nd) (n_entry nd)); try done. all: rewrite Hdn, Et; naive_solver.
  - destruct (remove_spec lo n (wheel sh)) as (w & -> & Hw & _ & Ht & _ & _ & _ & Hd); [apply Hi|].
    cbn [mbind option_bind]. eexists. split; [done|].
    assert (∀ m, m ≠ n → due w m = due (wheel sh) m) as Hm by (intros m ?; by rewrite Hd, decide_False).
    assert (due w n = None) as Hdn by (by rewrite Hd, decide_True).
    split; [|by split_and!]. apply (rewheel_base lo X X d sh w n (n_key nd) (n_entry nd)); try done. all: rewrite Hdn, Et; split; [by intros []|done].
Qed.

(** ** The shared state *)

(** Everything but the totals and the sink is the same. *)
Record same_glob g g' : Prop := mkSameGlob {
  sg_capacity : capacity_bytes g' = capacity_bytes g;
  sg_version : next_version g' = next_version g;
  sg_gc : tombstone_gc g' = tombstone_gc g;
  sg_log : persistence g' = persistence g }.

(** The sink, when there is one, received these calls. *)
Definition noted (evs : list Mutation) g g' : Prop := sink g' = (λ l, l ++ evs) <$> sink g.

Lemma same_glob_trans g1 g2 g3 : same_glob g1 g2 → same_glob g2 g3 → same_glob g1 g3.
Proof. intros [] []. split; congruence. Qed.

Lemma noted_nil g g' : sink g' = sink g → noted [] g g'.
Proof. intros E. unfold noted. rewrite E. destruct (sink g); simpl; [by rewrite app_nil_r|done]. Qed.

Lemma noted_trans g1 g2 g3 a b : noted a g1 g2 → noted b g2 g3 → noted (a ++ b) g1 g3.
Proof. unfold noted. intros -> ->. destruct (sink g1); simpl; [by rewrite <- app_assoc|done]. Qed.

Lemma note_same r k vt w g : same_glob g (note r k vt w g) ∧ noted [mkMutation k vt w r] g (note r k vt w g).
Proof. unfold note, noted. destruct (sink g) eqn:E; simpl; (split; [by split|]); by rewrite ?E. Qed.

Lemma addTotals_same b n g : same_glob g (addTotals b n g) ∧ noted [] g (addTotals b n g).
Proof. split; [by split|by apply noted_nil]. Qed.

(** ** Capacity eviction *)

(** A victim: its address, key and entry. *)
Definition Victim : Type := nat * (bytes * VersionedEntry).

Definition removal (v : Victim) : Mutation :=
  mkMutation v.2.1 (version_and_ttl v.2.2) (writer_node_hash v.2.2) true.

Definition without (vs : list Victim) (cs : gmap nat (bytes * VersionedEntry)) : gmap nat (bytes * VersionedEntry) :=
  foldl (λ cs v, delete v.1 cs) cs vs.

Lemma evictOne_spec lo X d g sh :
  base_inv lo X d sh → p_ok sh →
  (evictOne (g, sh) = Some None ∧ ∀ n k e, cores sh !! n = Some (k, e) → isTombstone e = true) ∨
  ∃ n k e g' sh', evictOne (g, sh) = Some (Some (coreSize (k, e), (g', sh'))) ∧ cores sh !! n = Some (k, e) ∧
    isTombstone e = false ∧ base_inv lo X (d + coreSize (k, e)) sh' ∧ p_ok sh' ∧ cores sh' = delete n (cores sh) ∧
    length (slist sh) = S (length (slist sh')) ∧ current_bytes sh' = current_bytes sh ∧ last_evict sh' = last_evict sh ∧
    tick_count (wheel sh') = tick_count (wheel sh) ∧ same_glob g g' ∧ noted [removal (n, (k, e))] g g'.
Proof.
  intros Hi Hp. unfold evictOne. destruct (pick_law sh (bi_listed _ _ _ _ Hi) Hp) as [[-> Ht]|(n & sh1 & k & e & -> & Hn & He & Hsc & Hp1)].
  { left. done. }
  right. pose proof (base_same _ _ _ _ _ Hsc Hi) as Hi1. pose proof Hn as Hn1. rewrite <- (sc_cores _ _ Hsc) in Hn1.
  destruct (drop_base lo X d sh1 n k e Hi1 Hn1) as (sh2 & Ed & Hi2 & Hc2 & Hx2 & Hl2 & Hq2 & Hq2' & Ht2 & _ & Hb2 & Hlast2).
  pose proof Hn1 as (nd & End & <- & <-)%cores_Some. cbn [mbind option_bind]. rewrite End. cbn [mbind option_bind].
  rewrite Ed. cbn [mbind option_bind]. eexists n, _, _, _, sh2. split; [done|].
  destruct (note_same true (n_key nd) (version_and_ttl (n_entry nd)) (writer_node_hash (n_entry nd)) g) as [Hg Hnote].
  destruct Hsc. split_and!; try done; try congruence.
  - unfold p_ok. by rewrite Hq2, Hq2'.
  - rewrite <- sc_list0, Hl2. destruct (bi_listed _ _ _ _ Hi1) as [Hnd Hin].
    assert (n ∈ slist sh1) as (l1 & l2 & El)%list_elem_of_split by (apply Hin; by rewrite Hn1). rewrite El in *.
    apply NoDup_app in Hnd as (_ & Hdis & [Hn2 _]%NoDup_cons).
    rewrite filter_app, filter_cons_False, !filter_all_true by (tauto || (intros m Hm ->; set_solver)).
    rewrite !length_app. simpl. lia.
Qed.

(** What eviction did to a shard. *)
Record evicts (vs : list Victim) g sh g' sh' : Prop := mkEvicts {
  ev_victims : ∀ n c, (n, c) ∈ vs → cores sh !! n = Some c ∧ isTombstone c.2 = false;
  ev_nodup : NoDup vs.*1;
  ev_cores : cores sh' = without vs (cores sh);
  ev_glob : same_glob g g';
  ev_noted : noted (removal <$> vs) g g';
  ev_last : last_evict sh' = last_evict sh;
  ev_tick : tick_count (wheel sh') = tick_count (wheel sh) }.

Lemma without_lookup vs (cs : gmap nat (bytes * VersionedEntry)) n :
  without vs cs !! n = if decide (n ∈ vs.*1) then None else cs !! n.
Proof.
  unfold without. revert cs. induction vs as [|[m c] vs IH]; intros cs; simpl; [done|].
  rewrite IH, lookup_delete. repeat case_decide; try done; set_solver.
Qed.

Lemma coreSize_pos c : 0 < coreSize c.
Proof. unfold coreSize, zlen. pose proof node_bytes_pos. lia. Qed.

(** Every victim goes while the shard, without the victims before it, is over
    its capacity. *)
Definition needed (cap : Z) (vs : list Victim) (cs : gmap nat (bytes * VersionedEntry)) : Prop :=
  ∀ vs1 v vs2, vs = vs1 ++ v :: vs2 → cap < bytes_of (without vs1 cs).

Lemma needed_nil cap cs : needed cap [] cs.
Proof. by intros [] ? ?. Qed.

Lemma needed_fits cap vs cs : needed cap vs cs → bytes_of cs <= cap → vs = [].
Proof. intros Hn Hb. destruct vs as [|v vs]; [done|]. pose proof (Hn [] v vs eq_refl). simpl in *. lia. Qed.

Lemma evict_loop_spec fuel cap lo X g sh :
  base_inv lo X 0 sh → p_ok sh → (length (slist sh) < fuel)%nat →
  ∃ vs g' sh', evict_loop fuel cap (g, sh) = Some (g', sh') ∧ base_inv lo X 0 sh' ∧ p_ok sh' ∧ evicts vs g sh g' sh' ∧
    needed cap vs (cores sh) ∧ (current_bytes sh' <= cap ∨ ∀ n k e, cores sh' !! n = Some (k, e) → isTombstone e = true).
Proof.
  revert g sh. induction fuel as [|fuel IH]; intros g sh Hi Hp Hf; [lia|].
  assert (evicts [] g sh g sh) as Hnil.
  { split; try done; [by intros n c Hin%not_elem_of_nil|apply NoDup_nil_2|by apply noted_nil]. }
  cbn [evict_loop fst snd]. destruct (Z.gtb_spec (current_bytes sh) cap) as [Hgt|Hle]; cbn [andb].
  2:{ exists [], g, sh. split_and!; try done; [apply needed_nil|by left]. }
  case_bool_decide as Hl; cbn [negb].
  { exists [], g, sh. split_and!; try done; [apply needed_nil|]. right. intros n k e He.
    destruct (bi_listed _ _ _ _ Hi) as [_ Hin]. assert (n ∈ slist sh) as Hin' by (apply Hin; by rewrite He).
    rewrite Hl in Hin'. by apply not_elem_of_nil in Hin'. }
  destruct (evictOne_spec lo X 0 g sh Hi Hp)
    as [[-> Ht]|(n & k & e & g1 & sh1 & -> & Hn & He & Hi1 & Hp1 & Hc1 & Hl1 & Hb1 & Hlast1 & Ht1 & Hg1 & Hnt1)].
  { exists [], g, sh. split_and!; try done; [apply needed_nil|by right]. }
  cbn [mbind option_bind]. set (sh2 := with_bytes _ sh1).
  assert (base_inv lo X 0 sh2) as Hi2.
  { pose proof (base_bytes _ _ _ _ (current_bytes sh1 - coreSize (k, e)) Hi1) as Hb.
    replace 0 with (0 + coreSize (k, e) + (current_bytes sh1 - coreSize (k, e) - current_bytes sh1)) by lia. exact Hb. }
  destruct (addTotals_same (- coreSize (k, e)) (-1) g1) as [Hg2 Hnt2].
  destruct (IH (addTotals (- coreSize (k, e)) (-1) g1) sh2 Hi2 Hp1) as (vs & g3 & sh3 & -> & Hi3 & Hp3 & Hev & Hneed & Hend).
  { cbn [sh2 with_bytes slist]. lia. }
  exists ((n, (k, e)) :: vs), g3, sh3. split_and!; try done.
  2:{ change (cores sh2) with (cores sh1) in Hneed. rewrite Hc1 in Hneed. intros [|v1 vs1] v vs2 [= <- Evs].
      - simpl. rewrite (bi_bytes _ _ _ _ Hi) in Hgt. lia.
      - by apply (Hneed vs1 v vs2). }
  destruct Hev.
  change (cores sh2) with (cores sh1) in *. rewrite Hc1 in *. split.
  - intros m c [[= -> ->]|Hin]%elem_of_cons; [done|]. destruct (ev_victims0 m c Hin) as [Hm ?]. split; [|done].
    rewrite lookup_delete in Hm. by case_decide.
  - simpl. apply NoDup_cons. split; [|done]. intros ([m c] & E & Hin)%list_elem_of_fmap. simpl in E. subst m.
    destruct (ev_victims0 n c Hin) as [Hm _]. by rewrite lookup_delete_eq in Hm.
  - rewrite ev_cores0. done.
  - by eapply same_glob_trans, same_glob_trans.
  - rewrite fmap_cons. apply (noted_trans g g1 g3 [removal (n, (k, e))] (removal <$> vs)); [done|].
    by apply (noted_trans g1 (addTotals (- coreSize (k, e)) (-1) g1) g3 []).
  - rewrite ev_last0. done.
  - rewrite ev_tick0. done.
Qed.

Lemma evictIfNeeded_spec cap lo X g sh :
  base_inv lo X 0 sh → p_ok sh →
  ∃ vs g' sh', evictIfNeeded cap (g, sh) = Some (g', sh') ∧ base_inv lo X 0 sh' ∧ p_ok sh' ∧ evicts vs g sh g' sh' ∧
    needed cap vs (cores sh) ∧ (current_bytes sh' <= cap ∨ ∀ n k e, cores sh' !! n = Some (k, e) → isTombstone e = true).
Proof. intros Hi Hp. apply evict_loop_spec; simpl; [done|done|lia]. Qed.

(** ** Erasing *)

Lemma nodeSize_core (nd : Node PN) : nodeSize nd = coreSize (core nd).
Proof. done. Qed.

Lemma eraseNode_spec lo X g sh n k e :
  base_inv lo X 0 sh → p_ok sh → cores sh !! n = Some (k, e) →
  ∃ g' sh', eraseNode k (g, sh) = Some (g', sh') ∧ base_inv lo X 0 sh' ∧ p_ok sh' ∧ cores sh' = delete n (cores sh) ∧
    same_glob g g' ∧ noted [removal (n, (k, e))] g g' ∧ tick_count (wheel sh') = tick_count (wheel sh) ∧
    (∀ m, due (wheel sh') m = if decide (m = n) then None else due (wheel sh) m) ∧
    last_evict sh' = last_evict sh ∧ current_bytes sh' <= current_bytes sh.
Proof.
  intros Hi Hp Hn. pose proof Hn as (nd & End & <- & <-)%cores_Some.
  assert (index sh !! n_key nd = Some n) as Hx by (apply (bi_index _ _ _ _ Hi); eauto).
  unfold eraseNode. rewrite Hx. cbn [mbind option_bind]. rewrite End. cbn [mbind option_bind].
  destruct (expire_law sh n (bi_listed _ _ _ _ Hi) Hp) as (sh1 & -> & Hsc & Hp1); [by rewrite End|]. cbn [mbind option_bind].
  pose proof (base_same _ _ _ _ _ Hsc Hi) as Hi1. pose proof Hn as Hn1. rewrite <- (sc_cores _ _ Hsc) in Hn1.
  destruct (drop_base lo X 0 sh1 n _ _ Hi1 Hn1) as (sh2 & -> & Hi2 & Hc2 & Hx2 & Hl2 & Hq2 & Hq2' & Ht2 & Hd2 & Hb2 & Hlast2).
  cbn [mbind option_bind]. eexists _, _. split; [done|]. rewrite nodeSize_core. fold (core nd) in *.
  pose proof (base_bytes _ _ _ _ (current_bytes sh2 - coreSize (core nd)) Hi2) as Hi3.
  replace (0 + coreSize (core nd) + (current_bytes sh2 - coreSize (core nd) - current_bytes sh2)) with 0 in Hi3 by lia.
  destruct (note_same true (n_key nd) (version_and_ttl (n_entry nd)) (writer_node_hash (n_entry nd)) g) as [Hg Hnt].
  destruct (addTotals_same (- coreSize (core nd)) (-1)
    (noteRemoved (n_key nd) (version_and_ttl (n_entry nd)) (writer_node_hash (n_entry nd)) g)) as [Hg2 Hnt2].
  pose proof (coreSize_pos (core nd)). destruct Hsc. split_and!; try done.
  - unfold p_ok. change (p_inv (policies sh2) (policy sh2)). by rewrite Hq2, Hq2'.
  - change (cores sh2 = delete n (cores sh)). congruence.
  - by eapply same_glob_trans.
  - cbn [with_bytes wheel]. congruence.
  - intros m. cbn [with_bytes wheel]. rewrite Hd2. by rewrite sc_wheel0.
  - cbn [with_bytes last_evict]. congruence.
  - cbn [with_bytes current_bytes]. lia.
Qed.

(** ** Writing *)

Lemma base_shrink lo X d sh n : cores sh !! n = None → base_inv lo ({[n]} ∪ X) d sh → base_inv lo X d sh.
Proof.
  intros Hn []. split; try done. intros m k e Hm Hx. apply (bi_sched0 m k); [done|].
  assert (m ≠ n) by congruence. set_solver.
Qed.

Lemma base_lo lo lo' X d sh : base_inv lo X d sh → lo = lo' → base_inv lo' X d sh.
Proof. by intros ? <-. Qed.

Lemma observeVersion_spec v g :
  capacity_bytes (observeVersion v g) = capacity_bytes g ∧ tombstone_gc (observeVersion v g) = tombstone_gc g ∧
  persistence (observeVersion v g) = persistence g ∧ sink (observeVersion v g) = sink g ∧
  next_version (observeVersion v g) = Z.max (next_version g) v.
Proof. unfold observeVersion. destruct (Z.gtb_spec v (next_version g)); simpl; split_and!; try done; lia. Qed.

Lemma version_succ e : Entry.wf e → u64 (version e + 1) = version e + 1.
Proof.
  intros Hwf. apply wrap_small. pose proof (version_range e Hwf). unfold in_u in *. lia.
Qed.

Definition addition (k : bytes) (e : VersionedEntry) : Mutation :=
  mkMutation k (version_and_ttl e) (writer_node_hash e) false.

(** A write that was not rejected: the key's node [n] holds the new entry, then
    victims are evicted, possibly [n] itself. *)
Record accepted (c : Clock) (cap : Z) (k : bytes) (e : VersionedEntry) (old : option VersionedEntry)
    (vs : list Victim) (n : nat) g sh g' sh' : Prop := mkAccepted {
  ac_addr : cores sh !! n = (λ o, (k, o)) <$> old;
  ac_victims : ∀ m x, (m, x) ∈ vs → <[n := (k, e)]> (cores sh) !! m = Some x ∧ isTombstone x.2 = false;
  ac_nodup : NoDup vs.*1;
  ac_cores : cores sh' = without vs (<[n := (k, e)]> (cores sh));
  ac_version : next_version g' = Z.max (next_version g) (version e + 1);
  ac_capacity : capacity_bytes g' = capacity_bytes g;
  ac_gc : tombstone_gc g' = tombstone_gc g;
  ac_log : persistence g' =
    if decide (n ∈ vs.*1) then persistence g else (λ l, l ++ [walRecord c k e]) <$> persistence g;
  ac_noted : noted ((removal <$> vs) ++ from_option (λ o, [removal (n, (k, o))]) [] old ++
    (if decide (n ∈ vs.*1) then [] else [addition k e])) g g';
  ac_last : last_evict sh' = last_evict sh;
  ac_tick : tick_count (wheel sh') = tick_count (wheel sh);
  ac_bound : current_bytes sh' <= cap ∨ ∀ m k e, cores sh' !! m = Some (k, e) → isTombstone e = true;
  ac_needed : needed cap vs (<[n := (k, e)]> (cores sh)) }.

(** The common end of both branches: the wheel and the log. *)
Lemma finish_put c k n e at_ g sh lo :
  base_inv lo {[n]} 0 sh → p_ok sh → cores sh !! n = Some (k, e) →
  ∃ sh' g', (sh ← updateWheelAt n at_ sh; s ← writeWal c k (g, sh); Some (Ok (), s)) = Some (Ok (), (g', sh')) ∧
    base_inv lo ∅ 0 sh' ∧ p_ok sh' ∧ cores sh' = cores sh ∧ last_evict sh' = last_evict sh ∧
    tick_count (wheel sh') = tick_count (wheel sh) ∧ current_bytes sh' = current_bytes sh ∧
    capacity_bytes g' = capacity_bytes g ∧ next_version g' = next_version g ∧ tombstone_gc g' = tombstone_gc g ∧
    sink g' = sink g ∧ persistence g' = (λ l, l ++ [walRecord c k e]) <$> persistence g.
Proof.
  intros Hi Hp Hn. destruct (update_base lo ∅ 0 sh n k e at_) as (sh1 & -> & Hi1 & [] & _); [by rewrite union_empty_r_L|done|].
  cbn [mbind option_bind]. assert (cores sh1 = cores sh) as Hc by (unfold cores; congruence).
  pose proof Hn as Hn1. rewrite <- Hc in Hn1.
  assert (index sh1 !! k = Some n) as Hx by (apply (bi_index _ _ _ _ Hi1); eauto).
  unfold writeWal. rewrite Hx. apply cores_Some in Hn1 as (nd & End & _ & <-).
  exists sh1, (onWrite (walRecord c k (n_entry nd)) g).
  assert (p_ok sh1) as Hp1 by (unfold p_ok, policies in *; congruence).
  unfold onWrite. destruct (persistence g) as [l|] eqn:El.
  - rewrite End. cbn [mbind option_bind]. split_and!; done.
  - cbn [mbind option_bind]. split_and!; done.
Qed.

(** After eviction the key is at its node or gone. *)
Lemma self_evicted lo X sh sh' n k e vs g g' :
  base_inv lo X 0 sh → base_inv lo X 0 sh' → cores sh !! n = Some (k, e) → evicts vs g sh g' sh' →
  (index sh' !! k = None ∧ n ∈ vs.*1 ∧ cores sh' !! n = None) ∨
  (index sh' !! k = Some n ∧ n ∉ vs.*1 ∧ cores sh' !! n = Some (k, e)).
Proof.
  intros Hi Hi' Hn []. destruct (decide (n ∈ vs.*1)) as [Hin|Hnin].
  - left. assert (cores sh' !! n = None) as Hn' by (by rewrite ev_cores0, without_lookup, decide_True).
    split_and!; try done. destruct (index sh' !! k) as [m|] eqn:E; [|done].
    apply (bi_index _ _ _ _ Hi') in E as [e' E]. pose proof E as E'. rewrite ev_cores0, without_lookup in E'.
    case_decide; [done|]. rewrite (key_address _ _ _ _ _ _ _ _ _ Hi Hn E') in Hn'. congruence.
  - right. assert (cores sh' !! n = Some (k, e)) as Hn' by (by rewrite ev_cores0, without_lookup, decide_False).
    split_and!; try done. apply (bi_index _ _ _ _ Hi'). eauto.
Qed.
Lemma putNew_spec c cap k e at_ g sh lo :
  base_inv lo ∅ 0 sh → p_ok sh → Entry.wf e → index sh !! k = None → coreSize (k, e) <= cap →
  ∃ vs n g' sh', putNew c cap k e at_ (g, sh) = Some (Ok (), (g', sh')) ∧ base_inv lo ∅ 0 sh' ∧ p_ok sh' ∧
    accepted c cap k e None vs n g sh g' sh'.
Proof.
  intros Hi Hp Hwf Hx Hcap. unfold putNew. rewrite version_succ by done. change (zlen k + zlen (value e) + node_bytes) with (coreSize (k, e)).
  destruct (Z.gtb_spec (coreSize (k, e)) cap); [lia|].
  destruct (insert_law sh k e (bi_listed _ _ _ _ Hi) Hp) as (n & pn & sh1 & -> & Hn & Hsc & Hp1). cbn [mbind option_bind].
  pose proof (add_base lo ∅ 0 sh n (mkNode k e pn) Hi Hn Hx) as Hi1. rewrite union_empty_r_L in Hi1.
  apply (base_same _ _ _ _ _ Hsc) in Hi1. pose proof (base_bytes _ _ _ _ (current_bytes sh1 + coreSize (k, e)) Hi1) as Hi2.
  change (core (mkNode k e pn)) with (k, e) in Hi2.
  replace (0 - coreSize (k, e) + (current_bytes sh1 + coreSize (k, e) - current_bytes sh1)) with 0 in Hi2 by lia.
  set (sh2 := with_bytes _ sh1) in *.
  assert (cores sh2 = <[n := (k, e)]> (cores sh)) as Hc2.
  { change (cores sh2) with (cores sh1). rewrite (sc_cores _ _ Hsc). unfold cores. simpl. by rewrite fmap_insert. }
  assert (cores sh2 !! n = Some (k, e)) as Hn2 by (by rewrite Hc2, lookup_insert_eq).
  destruct (observeVersion_spec (version e + 1) g) as (Hov1 & Hov2 & Hov3 & Hov4 & Hov5).
  set (g1 := addTotals (coreSize (k, e)) 1 (observeVersion (version e + 1) g)).
  change (capacity_bytes g1 = capacity_bytes g) in Hov1. change (tombstone_gc g1 = tombstone_gc g) in Hov2.
  change (persistence g1 = persistence g) in Hov3. change (sink g1 = sink g) in Hov4.
  change (next_version g1 = Z.max (next_version g) (version e + 1)) in Hov5. clearbody g1.
  destruct (evictIfNeeded_spec cap lo {[n]} g1 sh2 Hi2 Hp1) as (vs & g3 & sh3 & -> & Hi3 & Hp3 & Hev & Hneed & Hbound).
  rewrite Hc2 in Hneed. cbn [mbind option_bind].
  destruct (self_evicted _ _ _ _ _ _ _ _ _ _ Hi2 Hi3 Hn2 Hev) as [(Ex & Hin & Hn3)|(Ex & Hnin & Hn3)]; rewrite Ex; destruct Hev, ev_glob0.
  - exists vs, n, g3, sh3. split; [done|]. split; [apply (base_shrink _ _ _ _ n); [done|by rewrite union_empty_r_L]|]. split; [done|].
    split; rewrite ?Hc2, ?decide_True, ?cores_lookup, ?Hn in * by done; try done; try congruence.
    + rewrite app_nil_r. unfold noted in *. congruence.
    + rewrite ev_last0. apply (sc_last _ _ Hsc).
    + rewrite ev_tick0. change (tick_count (wheel sh1) = tick_count (wheel sh)). by rewrite (sc_wheel _ _ Hsc).
  - apply cores_Some in Hn3 as Hn3'. destruct Hn3' as (nd & End & _ & Eent). rewrite End. cbn [mbind option_bind]. rewrite Eent.
    destruct (note_same false k (version_and_ttl e) (writer_node_hash e) g3) as [[] Hnt].
    destruct (finish_put c k n e at_ (noteAdded k (version_and_ttl e) (writer_node_hash e) g3) sh3 lo Hi3 Hp3 Hn3)
      as (sh4 & g4 & -> & Hi4 & Hp4 & Hc4 & Hl4 & Ht4 & Hb4 & Hg1 & Hg2 & Hg3 & Hg4 & Hg5).
    exists vs, n, g4, sh4. split; [done|]. split; [done|]. split; [done|]. unfold noteAdded in *.
    split; rewrite ?Hc4, ?Hb4, ?Hc2, ?decide_False, ?cores_lookup, ?Hn in * by done; try done; try congruence.
    + eapply noted_trans; [|unfold noted; rewrite Hg4; exact Hnt]. unfold noted in *. congruence.
    + rewrite Hl4, ev_last0. apply (sc_last _ _ Hsc).
    + rewrite Ht4, ev_tick0. change (tick_count (wheel sh1) = tick_count (wheel sh)). by rewrite (sc_wheel _ _ Hsc).
Qed.

Lemma putExisting_spec c cap k e at_ g sh lo n nd old :
  base_inv lo ∅ 0 sh → p_ok sh → Entry.wf e → nodes sh !! n = Some nd → n_key nd = k → n_entry nd = old →
  compareLww (stampOf e) (stampOf old) ≠ Less →
  ∃ vs g' sh', putExisting c cap k e at_ n nd (g, sh) = Some (Ok (), (g', sh')) ∧ base_inv lo ∅ 0 sh' ∧ p_ok sh' ∧
    accepted c cap k e (Some old) vs n g sh g' sh'.
Proof.
  intros Hi Hp Hwf End Hk Hold Hlww. unfold putExisting. rewrite version_succ, Hold, decide_False by done.
  assert (cores sh !! n = Some (k, old)) as Hn by (by rewrite (cores_node _ _ _ End), Hk, Hold).
  assert (nodeSize nd = coreSize (k, old)) as -> by (by rewrite nodeSize_core; unfold core; rewrite Hk, Hold).
  set (sh0 := with_bytes (current_bytes sh - coreSize (k, old)) sh).
  pose proof (base_bytes _ _ _ _ (current_bytes sh - coreSize (k, old)) Hi) as Hi0. fold sh0 in Hi0.
  destruct (set_base _ _ _ _ n k old e Hi0 Hn) as [Hi1 Hc1]. rewrite union_empty_r_L in Hi1.
  destruct (apply_law sh0 n e (bi_listed _ _ _ _ Hi0) Hp) as (sh1 & -> & Hsc & Hp1); [by exists nd|].
  cbn [mbind option_bind]. apply (base_same _ _ _ _ _ Hsc) in Hi1.
  assert (cores sh1 = <[n := (k, e)]> (cores sh)) as Hc1' by (by rewrite (sc_cores _ _ Hsc), Hc1).
  assert (cores sh1 !! n = Some (k, e)) as Hn1 by (by rewrite Hc1', lookup_insert_eq).
  pose proof Hn1 as (nd1 & End1 & Hk1 & He1)%cores_Some. rewrite End1. cbn [mbind option_bind].
  assert (nodeSize nd1 = coreSize (k, e)) as -> by (by rewrite nodeSize_core; unfold core; rewrite Hk1, He1).
  pose proof (base_bytes _ _ _ _ (current_bytes sh1 + coreSize (k, e)) Hi1) as Hi2. set (sh2 := with_bytes _ sh1) in *.
  replace (0 + (current_bytes sh - coreSize (k, old) - current_bytes sh) + coreSize (k, old) - coreSize (k, e) +
    (current_bytes sh1 + coreSize (k, e) - current_bytes sh1)) with 0 in Hi2 by lia.
  destruct (observeVersion_spec (version e + 1) g) as (Hov1 & Hov2 & Hov3 & Hov4 & Hov5).
  set (g1 := addTotals (coreSize (k, e)) 0 (addTotals (- coreSize (k, old)) 0 (observeVersion (version e + 1) g))).
  change (capacity_bytes g1 = capacity_bytes g) in Hov1. change (tombstone_gc g1 = tombstone_gc g) in Hov2.
  change (persistence g1 = persistence g) in Hov3. change (sink g1 = sink g) in Hov4.
  change (next_version g1 = Z.max (next_version g) (version e + 1)) in Hov5. clearbody g1.
  destruct (evictIfNeeded_spec cap lo {[n]} g1 sh2 Hi2 Hp1) as (vs & g3 & sh3 & -> & Hi3 & Hp3 & Hev & Hneed & Hbound).
  change (cores sh2) with (cores sh1) in Hneed. rewrite Hc1' in Hneed.
  cbn [mbind option_bind]. destruct (note_same true k (version_and_ttl old) (writer_node_hash old) g3) as [[] Hnt].
  unfold noteRemoved, noteAdded in *. set (g4 := note true k (version_and_ttl old) (writer_node_hash old) g3) in *. clearbody g4.
  destruct (self_evicted _ _ _ _ _ _ _ _ _ _ Hi2 Hi3 Hn1 Hev) as [(Ex & Hin & Hn3)|(Ex & Hnin & Hn3)]; rewrite Ex; destruct Hev, ev_glob0;
    change (cores sh2) with (cores sh1) in *; rewrite Hc1' in *.
  - exists vs, g4, sh3. split; [done|]. split; [apply (base_shrink _ _ _ _ n); [done|by rewrite union_empty_r_L]|]. split; [done|].
    split; rewrite ?decide_True in * by done; try done; try congruence.
    + rewrite app_nil_r. eapply noted_trans; [|exact Hnt]. unfold noted in *. congruence.
    + rewrite ev_last0. apply (sc_last _ _ Hsc).
    + rewrite ev_tick0. change (tick_count (wheel sh1) = tick_count (wheel sh)). by rewrite (sc_wheel _ _ Hsc).
  - apply cores_Some in Hn3 as Hn3'. destruct Hn3' as (nd3 & End3 & _ & Eent). rewrite End3. cbn [mbind option_bind]. rewrite Eent.
    destruct (note_same false k (version_and_ttl e) (writer_node_hash e) g4) as [[] Hnt'].
    destruct (finish_put c k n e at_ (note false k (version_and_ttl e) (writer_node_hash e) g4) sh3 lo Hi3 Hp3 Hn3)
      as (sh5 & g5 & -> & Hi5 & Hp5 & Hc5 & Hl5 & Ht5 & Hb5 & Hg1 & Hg2 & Hg3 & Hg4 & Hg5).
    exists vs, g5, sh5. split; [done|]. split; [done|]. split; [done|].
    split; rewrite ?Hc5, ?Hb5, ?decide_False in * by done; try done; try congruence.
    + rewrite app_assoc. eapply noted_trans; [eapply noted_trans; [|exact Hnt]|unfold noted; rewrite Hg4; exact Hnt'].
      unfold noted in *. congruence.
    + rewrite Hl5, ev_last0. apply (sc_last _ _ Hsc).
    + rewrite Ht5, ev_tick0. change (tick_count (wheel sh1) = tick_count (wheel sh)). by rewrite (sc_wheel _ _ Hsc).
Qed.
Lemma entry_at_index sh k n e :
  (∃ lo X d, base_inv lo X d sh) → index sh !! k = Some n → cores sh !! n = Some (k, e) → entry_at sh k = Some e.
Proof. intros _ E Hn. unfold entry_at. rewrite E. simpl. by rewrite Hn. Qed.

Lemma entry_at_None lo X d sh k : base_inv lo X d sh → entry_at sh k = None → index sh !! k = None.
Proof.
  intros Hi. unfold entry_at. destruct (index sh !! k) as [n|] eqn:E; [|done]. simpl.
  apply (bi_index _ _ _ _ Hi) in E as [e ->]. done.
Qed.

(** A write, on every branch. *)
Lemma putShard_spec c cap k e at_ g sh :
  shard_inv sh → Entry.wf e →
  ∃ r g' sh', putShard c cap k e at_ (g, sh) = Some (r, (g', sh')) ∧ shard_inv sh' ∧
    match entry_at sh k with
    | Some old =>
        r = Ok () ∧
        (compareLww (stampOf e) (stampOf old) = Less ∧ g' = g ∧ sh' = sh ∨
         compareLww (stampOf e) (stampOf old) ≠ Less ∧ ∃ vs n, accepted c cap k e (Some old) vs n g sh g' sh')
    | None =>
        cap < coreSize (k, e) ∧ r = Err err_capacity ∧ g' = g ∧ sh' = sh ∨
        coreSize (k, e) <= cap ∧ r = Ok () ∧ ∃ vs n, accepted c cap k e None vs n g sh g' sh'
    end.
Proof.
  intros [Hi Hp] Hwf. unfold putShard. simpl snd. destruct (index sh !! k) as [n|] eqn:Ex.
  - pose proof (proj1 (bi_index _ _ _ _ Hi k n) Ex) as [old Hn].
    assert (entry_at sh k = Some old) as -> by (eapply entry_at_index; eauto).
    pose proof Hn as (nd & End & Hk & Ho)%cores_Some. rewrite End. cbn [mbind option_bind].
    destruct (decide (compareLww (stampOf e) (stampOf old) = Less)) as [Hl|Hl].
    + exists (Ok ()), g, sh. unfold putExisting. rewrite Ho, decide_True by done. split_and!; try done. by left.
    + destruct (putExisting_spec c cap k e at_ g sh _ n nd old Hi Hp Hwf End Hk Ho Hl) as (vs & g' & sh' & -> & Hi' & Hp' & Ha).
      exists (Ok ()), g', sh'. split; [done|]. split; [|eauto 6]. split; [|done]. by rewrite (ac_tick _ _ _ _ _ _ _ _ _ _ _ Ha).
  - assert (entry_at sh k = None) as -> by (unfold entry_at; by rewrite Ex).
    destruct (Z.gtb_spec (coreSize (k, e)) cap) as [Hgt|Hle].
    + exists (Err err_capacity), g, sh. unfold putNew. change (zlen k + zlen (value e) + node_bytes) with (coreSize (k, e)).
      destruct (Z.gtb_spec (coreSize (k, e)) cap); [|lia]. split_and!; try done. by left.
    + destruct (putNew_spec c cap k e at_ g sh _ Hi Hp Hwf Ex Hle) as (vs & n & g' & sh' & -> & Hi' & Hp' & Ha).
      exists (Ok ()), g', sh'. split; [done|]. split; [|right; eauto 6]. split; [|done]. by rewrite (ac_tick _ _ _ _ _ _ _ _ _ _ _ Ha).
Qed.

(** ** Sweeping expired entries *)

Record swept (current : Z) (vs : list Victim) g sh g' sh' : Prop := mkSwept {
  sw_victims : ∀ n x, (n, x) ∈ vs → cores sh !! n = Some x ∧ expired current x.2 = true;
  sw_nodup : NoDup vs.*1;
  sw_cores : cores sh' = without vs (cores sh);
  sw_glob : same_glob g g';
  sw_noted : noted (removal <$> vs) g g';
  sw_last : last_evict sh' = last_evict sh;
  sw_bytes : current_bytes sh' <= current_bytes sh }.

Lemma swept_nil current g sh sh' :
  cores sh' = cores sh → last_evict sh' = last_evict sh → current_bytes sh' = current_bytes sh → swept current [] g sh g sh'.
Proof.
  intros Hc Hl Hb. split; try done.
  - by intros n x Hin%not_elem_of_nil.
  - apply NoDup_nil_2.
  - by apply noted_nil.
  - lia.
Qed.

Lemma swept_trans current vs1 vs2 g1 sh1 g2 sh2 g3 sh3 :
  swept current vs1 g1 sh1 g2 sh2 → swept current vs2 g2 sh2 g3 sh3 → swept current (vs1 ++ vs2) g1 sh1 g3 sh3.
Proof.
  intros [V1 N1 C1 G1 F1 L1 B1] [V2 N2 C2 G2 F2 L2 B2].
  assert (∀ n x, (n, x) ∈ vs2 → cores sh1 !! n = Some x ∧ n ∉ vs1.*1) as Hd.
  { intros n x Hin. destruct (V2 n x Hin) as [Hc _]. rewrite C1, without_lookup in Hc. by case_decide. }
  split.
  - intros n x [Hin|Hin]%elem_of_app; [by apply V1|]. split; [by apply Hd|]. by apply (V2 n x).
  - rewrite fmap_app. apply NoDup_app. split_and!; [done| |done].
    intros n Hn ([m x] & -> & Hin)%list_elem_of_fmap. by apply (Hd m x Hin).
  - rewrite C2, C1. apply map_eq. intros n. rewrite !without_lookup, fmap_app.
    repeat case_decide; try done; set_solver.
  - by eapply same_glob_trans.
  - rewrite fmap_app. by eapply noted_trans.
  - congruence.
  - lia.
Qed.

Section sweep_tick.
Context (current : Z) (g0 : Glob) (sh0 : Shard PN PS) (ev0 : nat).
Local Notation t0 := (tick_count (wheel sh0)).

(** In the middle of a tick: [pending] nodes have been taken out of the wheel
    and wait for their callback. *)
Record tick_inv (pending : list nat) (st : EvictState (PN := PN) (PS := PS)) : Prop := mkTickInv {
  ti_base : base_inv t0 (list_to_set pending) 0 st.1.2;
  ti_policy : p_ok st.1.2;
  ti_nodup : NoDup pending;
  ti_pending : ∀ n, n ∈ pending → due (wheel st.1.2) n = None ∧ ∃ k e, cores st.1.2 !! n = Some (k, e) ∧ hasTtl e = true;
  ti_tick : tick_count (wheel st.1.2) = t0 + 1;
  ti_swept : ∃ vs, swept current vs g0 sh0 st.1.1 st.1.2 ∧ st.2 = (ev0 + length vs)%nat ∧
    (∀ n t, due (wheel sh0) n = Some t → t0 + 1 < t → due (wheel st.1.2) n = Some t) ∧
    ∀ n k e, cores sh0 !! n = Some (k, e) → due (wheel sh0) n = Some (t0 + 1) → expired current e = true →
      n ∈ pending ∨ n ∈ vs.*1 ∨ due (wheel st.1.2) n = Some (t0 + 1) }.

Lemma timer_reschedule n rest g sh ev k e :
  tick_inv (n :: rest) ((g, sh), ev) → cores sh !! n = Some (k, e) → hasTtl e = true → expired current e = false →
  ∃ w, insert n (expiryTicksAt (expires_at e) current) (wheel sh) = Some w ∧
    tick_inv rest ((g, with_wheel w sh), ev) ∧ (overdue w <= overdue (wheel sh))%nat.
Proof.
  intros [Hi Hp Hnd Hpend Ht (vs & Hsw & Hev & Hlater & Hdue)] Hn Httl Hexp. cbn [fst snd] in *.
  pose proof (expiryTicksAt_pos (expires_at e) current) as Hpos.
  destruct (insert_spec t0 n (expiryTicksAt (expires_at e) current) (wheel sh)) as (w & Ew & Hw & Htw & Hd);
    [apply Hi|apply Hi|lia|apply (expiry_room t0); apply Hi|]. exists w. split; [done|].
  assert (∀ m, m ≠ n → due w m = due (wheel sh) m) as Hm by (intros m ?; by rewrite Hd, decide_False).
  assert (due w n = Some (tick_count (wheel sh) + expiryTicksAt (expires_at e) current)) as Hdn.
  { rewrite Hd, decide_True by done. destruct (Z.eqb_spec (expiryTicksAt (expires_at e) current) 0); [lia|done]. }
  apply NoDup_cons in Hnd as [Hnr Hnd]. split; [split; cbn [fst snd with_wheel wheel]; try done|].
  - eapply (rewheel_base _ (list_to_set rest) _ _ _ _ n k e); try done; rewrite Hdn, Httl; naive_solver.
  - intros m Hmr. rewrite Hm by congruence. apply Hpend. by right.
  - by rewrite Htw.
  - exists vs. split_and!; try done.
    + destruct Hsw. by split.
    + intros m t Hdm Hgt. destruct (decide (m = n)) as [->|]; [|by rewrite Hm; [apply Hlater|]].
      pose proof (Hlater n t Hdm Hgt) as Hc. destruct (Hpend n) as [Hno _]; [by left|]. congruence.
    + intros m k' e' Hm0 Hdm Hx. destruct (Hdue m k' e' Hm0 Hdm Hx) as [Hin|[Hin|Hin]]; [|by right; left|].
      * apply elem_of_cons in Hin as [->|Hin]; [|by left]. exfalso.
        destruct Hsw. rewrite sw_cores0, without_lookup in Hn. case_decide; [done|]. congruence.
      * right. right. rewrite Hm; [done|]. intros ->. destruct (Hpend n) as [Hno _]; [by left|]. congruence.
  - apply (overdue_le t0 t0); [apply Hi|done|done|]. intros m t Hdm Hle.
    destruct (decide (m = n)) as [->|]; [rewrite Hdn in Hdm; injection Hdm as <-; lia|by rewrite <- Hm].
Qed.

Lemma timer_erase n rest g sh ev k e :
  tick_inv (n :: rest) ((g, sh), ev) → cores sh !! n = Some (k, e) → expired current e = true →
  ∃ g' sh', eraseNode k (g, sh) = Some (g', sh') ∧
    tick_inv rest ((g', sh'), S ev) ∧ (overdue (wheel sh') <= overdue (wheel sh))%nat.
Proof.
  intros [Hi Hp Hnd Hpend Ht (vs & Hsw & Hev & Hlater & Hdue)] Hn Hexp. cbn [fst snd] in *.
  destruct (eraseNode_spec _ _ g sh n k e Hi Hp Hn) as (g' & sh' & E & Hi' & Hp' & Hc' & Hg' & Hnt' & Ht' & Hd' & Hl' & Hb').
  exists g', sh'. split; [done|]. apply NoDup_cons in Hnd as [Hnr Hnd].
  assert (due (wheel sh) n = None) as Hno by (apply Hpend; by left).
  split; [split; cbn [fst snd]; try done|].
  - apply (base_shrink _ _ _ _ n); [by rewrite Hc', lookup_delete_eq|done].
  - intros m Hmr. assert (m ≠ n) by congruence. rewrite Hd', decide_False by done. rewrite Hc'.
    destruct (Hpend m) as (Hm & k' & e' & Hme & Httl); [by right|]. split; [done|]. exists k', e'. by rewrite lookup_delete_ne.
  - congruence.
  - exists (vs ++ [(n, (k, e))]). split_and!.
    + eapply swept_trans; [done|]. split; try done.
      * intros m x Hin%list_elem_of_singleton. injection Hin as -> ->. done.
      * apply NoDup_singleton.
    + rewrite length_app, Hev. simpl. lia.
    + intros m t Hdm Hgt. rewrite Hd'. case_decide as Hm; [subst|by apply Hlater].
      pose proof (Hlater n t Hdm Hgt). congruence.
    + intros m k' e' Hm0 Hdm Hx. rewrite fmap_app, elem_of_app. destruct (decide (m = n)) as [->|Hne]; [right; left; right; by left|].
      rewrite Hd', decide_False by done. destruct (Hdue m k' e' Hm0 Hdm Hx) as [Hin|[Hin|Hin]]; [|by eauto..].
      apply elem_of_cons in Hin as [|]; [done|by left].
  - apply (overdue_le t0 t0); [apply Hi|apply Hi'|congruence|]. intros m t Hdm _. rewrite Hd' in Hdm. by case_decide.
Qed.

Lemma timer_step n rest st :
  tick_inv (n :: rest) st →
  ∃ st', onTimer current n st = Some st' ∧ tick_inv rest st' ∧ (overdue (wheel st'.1.2) <= overdue (wheel st.1.2))%nat.
Proof.
  destruct st as [[g sh] ev]. intros Hinv. destruct (ti_pending _ _ Hinv n) as (_ & k & e & Hn & Httl); [by left|]. cbn [fst snd] in Hn.
  pose proof Hn as (nd & End & Hk & He)%cores_Some. unfold onTimer. rewrite End. cbn [mbind option_bind]. rewrite He, Httl, Hk. cbn [negb orb].
  destruct (Z.gtb_spec (expires_at e) current) as [Hgt|Hle].
  - destruct (timer_reschedule n rest g sh ev k e Hinv Hn Httl) as (w & -> & Hinv' & Ho).
    { unfold expired. rewrite Httl. apply Z.leb_gt. done. }
    cbn [mbind option_bind]. eexists. split; [done|]. done.
  - assert (index sh !! k = Some n) as -> by (apply (bi_index _ _ _ _ (ti_base _ _ Hinv)); eauto).
    destruct (timer_erase n rest g sh ev k e Hinv Hn) as (g' & sh' & -> & Hinv' & Ho).
    { unfold expired. rewrite Httl. by apply Z.leb_le. }
    cbn [mbind option_bind]. eexists. split; [done|]. done.
Qed.

Lemma timer_pop n w st :
  tick_inv [] st → popDue (wheel st.1.2) = Some (Some (n, w)) → tick_inv [n] ((st.1.1, with_wheel w st.1.2), st.2).
Proof.
  destruct st as [[g sh] ev]. intros [Hi Hp Hnd Hpend Ht (vs & Hsw & Hev & Hlater & Hdue)]. cbn [fst snd] in *. intros Hpop.
  destruct (popDue_spec _ _ (bi_wheel _ _ _ _ Hi)) as [[E _]|(t & n' & w' & E & Hle & Hin & Hlo & Hs & Hwf & Htw & _ & Hd)]; [congruence|].
  rewrite E in Hpop. injection Hpop as -> ->. pose proof (heap_due _ _ _ _ (bi_wheel _ _ _ _ Hi) Hin) as Hdn.
  destruct (bi_due _ _ _ _ Hi n) as [[k e] Hn]; [by rewrite Hdn|].
  assert (hasTtl e = true) as Httl by (apply (bi_sched _ _ _ _ Hi n k e Hn); [set_solver|by rewrite Hdn]).
  assert (t = t0 + 1) as -> by lia.
  split; cbn [fst snd with_wheel wheel]; try done.
  - destruct Hi. split; cbn [with_wheel wheel]; try done.
    + lia.
    + lia.
    + intros m. rewrite Hd. case_decide; [by intros []|apply bi_due0].
    + intros m k' e' Hm Hx. rewrite Hd, decide_False by set_solver. apply (bi_sched0 m k'); [done|set_solver].
  - apply NoDup_singleton.
  - intros m ->%list_elem_of_singleton. rewrite Hd, decide_True by done. split; [done|]. eauto.
  - by rewrite Htw.
  - exists vs. split_and!; try done.
    + destruct Hsw. by split.
    + intros m t Hm Hgt. rewrite Hd. case_decide; [|by apply Hlater]. subst. pose proof (Hlater n t Hm Hgt). rewrite Hdn in *.
      assert (t = t0 + 1) by congruence. lia.
    + intros m k' e' Hm Hdm Hx. rewrite Hd. destruct (decide (m = n)) as [->|]; [left; by left|].
      destruct (Hdue m k' e' Hm Hdm Hx) as [Hin'|[Hin'|Hin']]; [by apply not_elem_of_nil in Hin'|by eauto..].
Qed.

Lemma timer_start :
  shard_inv sh0 → t0 + 1 <= max_ticks →
  let '(batch, w) := drain (advance (wheel sh0)) in tick_inv batch ((g0, with_wheel w sh0), ev0).
Proof.
  intros [Hi Hp] Hmax. assert (t0 + 1 < 2 ^ 64) as Hlt by (unfold max_ticks in Hmax; lia).
  pose proof (drain_spec (wheel sh0) (bi_wheel _ _ _ _ Hi) Hlt) as Hdr.
  destruct (drain (advance (wheel sh0))) as [batch w]. destruct Hdr as (H1 & H2 & H3 & H4 & H5 & H6).
  split; cbn [fst snd with_wheel wheel]; try done.
  - destruct Hi. split; cbn [with_wheel wheel]; try done.
    + lia.
    + lia.
    + intros m. rewrite H6. case_decide; [by intros []|apply bi_due0].
    + intros m k e Hm Hx. rewrite H6, decide_False by set_solver. by apply (bi_sched0 m k).
  - intros n Hn. rewrite H6, decide_True by done. split; [done|].
    destruct (bi_due _ _ _ _ Hi n) as [[k e] Hc]; [by rewrite H4|]. exists k, e. split; [done|].
    apply (bi_sched _ _ _ _ Hi n k e Hc); [set_solver|by rewrite H4].
  - exists []. split_and!; [by apply swept_nil|simpl; lia| |].
    + intros n t Hn Hgt. rewrite H6. case_decide as Hin; [|done]. rewrite (H4 n Hin) in Hn. injection Hn as <-. lia.
    + intros n k e Hn Hd Hx. rewrite H6. case_decide; [by left|]. by right; right.
Qed.

Lemma tickShard_spec :
  shard_inv sh0 → t0 + 1 <= max_ticks →
  ∃ vs g sh, tickShard current ((g0, sh0), ev0) = Some ((g, sh), (ev0 + length vs)%nat) ∧ shard_inv sh ∧
    swept current vs g0 sh0 g sh ∧ tick_count (wheel sh) = t0 + 1 ∧
    (∀ n t, due (wheel sh0) n = Some t → t0 + 1 < t → due (wheel sh) n = Some t) ∧
    ∀ n k e, cores sh0 !! n = Some (k, e) → due (wheel sh0) n = Some (t0 + 1) → expired current e = true → n ∈ vs.*1.
Proof.
  intros Hinv Hmax. unfold tickShard, tick, expireSlot. cbn [fst snd].
  change (wheel (with_wheel (advance (wheel sh0)) sh0)) with (advance (wheel sh0)). pose proof (timer_start Hinv Hmax) as Hst.
  destruct (drain (advance (wheel sh0))) as [batch w].
  destruct (fire_batch_rule (onTimer current) tick_inv (λ n rest st Hi,
    match timer_step n rest st Hi with ex_intro _ st' (conj E (conj Hi' _)) => ex_intro _ st' (conj E Hi') end) batch _ Hst)
    as (st1 & E1 & H1). cbn [fst snd].
  change (with_wheel w (with_wheel (advance (wheel sh0)) sh0)) with (with_wheel w sh0). unfold EvictState in *. rewrite E1. cbn [mbind option_bind].
  destruct (expireHeap_rule (λ st : EvictState, wheel st.1.2) (λ w st, ((st.1.1, with_wheel w st.1.2), st.2)) (onTimer current)
    tick_inv) with st1 as (st2 & E2 & H2 & Ho).
  - intros n rest st Hi. destruct (timer_step n rest st Hi) as (st' & ? & ? & _). eauto.
  - intros st Hi. exists t0. apply (ti_base _ _ Hi).
  - done.
  - intros n w' st. apply timer_pop.
  - intros n rest st st' Hi E. destruct (timer_step n rest st Hi) as (st'' & E' & _ & Ho). congruence.
  - done.
  - destruct st2 as [[g sh] ev]. destruct H2 as [Hi Hp _ _ Ht (vs & Hsw & Hev & Hlater & Hdue)]. cbn [fst snd] in *.
    exists vs, g, sh. unfold EvictState in *. rewrite E2, Hev. split; [done|]. split_and!; try done.
    + split; [|done]. destruct Hi. split; try done. apply (overdue_none t0); [done|exact Ho].
    + intros n k e Hn Hd Hx. destruct (Hdue n k e Hn Hd Hx) as [Hin|[|Hd']]; [by apply not_elem_of_nil in Hin|done|].
      pose proof (overdue_none_due t0 _ _ _ (bi_wheel _ _ _ _ Hi) Ho Hd'). lia.
Qed.
End sweep_tick.
Lemma due_after w n t : wheel_wf w → due w n = Some t → tick_count w < t.
Proof.
  intros Hwf Hd. destruct (decide (t <= tick_count w)) as [Hle|]; [|lia].
  pose proof (ww_future _ _ Hwf t n (due_future _ _ _ _ Hwf Hd Hle)). lia.
Qed.

Lemma tickMany_spec ticks current g sh ev :
  shard_inv sh → tick_count (wheel sh) + Z.of_nat ticks <= max_ticks →
  ∃ vs g' sh', tickMany ticks current ((g, sh), ev) = Some ((g', sh'), (ev + length vs)%nat) ∧ shard_inv sh' ∧
    swept current vs g sh g' sh' ∧ tick_count (wheel sh') = tick_count (wheel sh) + Z.of_nat ticks ∧
    ∀ n k e t, cores sh !! n = Some (k, e) → due (wheel sh) n = Some t → t <= tick_count (wheel sh) + Z.of_nat ticks →
      expired current e = true → n ∈ vs.*1.
Proof.
  revert g sh ev. induction ticks as [|ticks IH]; intros g sh ev Hinv Hmax; cbn [tickMany].
  { exists [], g, sh. rewrite Nat.add_0_r. split_and!; try done; [by apply swept_nil|simpl; lia|].
    intros n k e t _ Hd Ht. pose proof (due_after _ _ _ (bi_wheel _ _ _ _ (proj1 Hinv)) Hd). lia. }
  destruct (tickShard_spec current g sh ev Hinv) as (vs1 & g1 & sh1 & -> & Hinv1 & Hsw1 & Ht1 & Hlater & Hnow); [lia|]. cbn [mbind option_bind].
  destruct (IH g1 sh1 (ev + length vs1)%nat Hinv1) as (vs2 & g2 & sh2 & -> & Hinv2 & Hsw2 & Ht2 & Hlast); [lia|].
  exists (vs1 ++ vs2), g2, sh2. rewrite length_app, Nat.add_assoc. split_and!; try done; [by eapply swept_trans|lia|].
  intros n k e t Hn Hd Ht Hx. rewrite fmap_app, elem_of_app. destruct (decide (n ∈ vs1.*1)) as [|Hnin]; [by left|]. right.
  pose proof (due_after _ _ _ (bi_wheel _ _ _ _ (proj1 Hinv)) Hd).
  destruct (decide (t = tick_count (wheel sh) + 1)) as [->|Hne]; [by destruct Hnin; eapply Hnow|].
  apply (Hlast n k e t); [|apply Hlater; [done|lia]|lia|done].
  by rewrite (sw_cores _ _ _ _ _ _ Hsw1), without_lookup, decide_False.
Qed.

Lemma evictShard_spec current g sh ev :
  shard_inv sh → tick_count (wheel sh) + Z.of_nat (sweepTicks current (last_evict sh)) <= max_ticks →
  ∃ vs g' sh', evictShard current ((g, sh), ev) = Some ((g', sh'), (ev + length vs)%nat) ∧ shard_inv sh' ∧
    last_evict sh' = current ∧ swept current vs g (with_last current sh) g' sh' ∧
    tick_count (wheel sh') = tick_count (wheel sh) + Z.of_nat (sweepTicks current (last_evict sh)) ∧
    ∀ n k e t, cores sh !! n = Some (k, e) → due (wheel sh) n = Some t →
      t <= tick_count (wheel sh) + Z.of_nat (sweepTicks current (last_evict sh)) → expired current e = true → n ∈ vs.*1.
Proof.
  intros [[] Hp] Hmax. assert (shard_inv (with_last current sh)) as Hinv by (by split).
  destruct (tickMany_spec (sweepTicks current (last_evict sh)) current g (with_last current sh) ev Hinv Hmax) as (vs & g' & sh' & E & Hinv' & Hsw & Ht & Hx).
  exists vs, g', sh'. split_and!; try done. by rewrite (sw_last _ _ _ _ _ _ Hsw).
Qed.

(** ** Reading and removing *)

(** The shard after a read of a key, or a lazy expiry of it. *)
Record read_effect (k : bytes) (gone : option VersionedEntry) g sh g' sh' : Prop := mkReadEffect {
  re_entries : ∀ k', entry_at sh' k' = if decide (k' = k ∧ is_Some gone) then None else entry_at sh k';
  re_gone : ∀ e, gone = Some e → entry_at sh k = Some e;
  re_glob : same_glob g g';
  re_noted : noted (from_option (λ e, [removal (0%nat, (k, e))]) [] gone) g g';
  re_last : last_evict sh' = last_evict sh;
  re_tick : tick_count (wheel sh') = tick_count (wheel sh);
  re_bytes : current_bytes sh' <= current_bytes sh }.

Lemma delete_entry_at lo X d lo' X' d' sh sh' n k e :
  base_inv lo X d sh → base_inv lo' X' d' sh' → cores sh !! n = Some (k, e) → cores sh' = delete n (cores sh) →
  ∀ k', entry_at sh' k' = if decide (k' = k) then None else entry_at sh k'.
Proof.
  intros Hi Hi' Hn Hc k'. apply option_eq. intros x. rewrite (entry_at_Some _ _ _ _ _ _ Hi').
  assert ((∃ m, index sh' !! k' = Some m ∧ cores sh' !! m = Some (k', x)) ↔ ∃ m, cores sh' !! m = Some (k', x)) as ->.
  { split; [intros (m & _ & ?); eauto|]. intros (m & Hm). exists m. split; [|done]. apply (bi_index _ _ _ _ Hi'). eauto. }
  rewrite Hc. case_decide as Hk; [subst|].
  - split; [|done]. intros (m & Hm). rewrite lookup_delete in Hm. case_decide as Hmn; [done|].
    exfalso. apply Hmn. symmetry. by eapply (key_address _ _ _ sh m n).
  - rewrite (entry_at_Some _ _ _ _ _ _ Hi). split.
    + intros (m & Hm). rewrite lookup_delete in Hm. case_decide; [done|]. exists m. split; [|done]. apply (bi_index _ _ _ _ Hi). eauto.
    + intros (m & _ & Hm). exists m. rewrite lookup_delete_ne; [done|]. intros ->. congruence.
Qed.

Lemma erase_effect g sh n k e :
  shard_inv sh → cores sh !! n = Some (k, e) →
  ∃ g' sh', eraseNode k (g, sh) = Some (g', sh') ∧ shard_inv sh' ∧ read_effect k (Some e) g sh g' sh'.
Proof.
  intros [Hi Hp] Hn. destruct (eraseNode_spec _ _ g sh n k e Hi Hp Hn) as (g' & sh' & E & Hi' & Hp' & Hc' & Hg' & Hnt' & Ht' & Hd' & Hl' & Hb').
  exists g', sh'. split; [done|]. split; [split; [by rewrite Ht'|done]|]. split; try done.
  - intros k'. rewrite (delete_entry_at _ _ _ _ _ _ _ _ _ _ _ Hi Hi' Hn Hc'). repeat case_decide; try done; naive_solver.
  - intros ? [= <-]. apply (entry_at_Some _ _ _ _ _ _ Hi). exists n. split; [|done]. apply (bi_index _ _ _ _ Hi). eauto.
Qed.

Lemma read_nothing k g sh : read_effect k None g sh g sh.
Proof. split; try done; [|by apply noted_nil]. intros k'. by rewrite decide_False by (intros [_ []]; done). Qed.

Lemma entry_at_node sh k n e :
  shard_inv sh → index sh !! k = Some n → entry_at sh k = Some e → ∃ nd, nodes sh !! n = Some nd ∧ n_key nd = k ∧ n_entry nd = e.
Proof.
  intros [Hi _] Hx He. apply (entry_at_Some _ _ _ _ _ _ Hi) in He as (m & Hm & Hc). apply cores_Some. congruence.
Qed.

Lemma getShard_spec c k g sh :
  shard_inv sh →
  ∃ r g' sh', getShard c k (g, sh) = Some (r, (g', sh')) ∧ shard_inv sh' ∧
    match entry_at sh k with
    | None => r = None ∧ read_effect k None g sh g' sh'
    | Some e =>
        if expired (now c) e then r = None ∧ read_effect k (Some e) g sh g' sh'
        else r = (if isTombstone e then None else Some (value e)) ∧ read_effect k None g sh g' sh'
    end.
Proof.
  intros Hinv. pose proof Hinv as [Hi Hp]. unfold getShard. cbn [snd fst]. destruct (index sh !! k) as [n|] eqn:Ex.
  2:{ exists None, g, sh. assert (entry_at sh k = None) as -> by (unfold entry_at; by rewrite Ex).
      split_and!; try done. apply read_nothing. }
  pose proof (proj1 (bi_index _ _ _ _ Hi k n) Ex) as [e Hn].
  assert (entry_at sh k = Some e) as Hat by (eapply entry_at_index; eauto). rewrite Hat.
  destruct (entry_at_node sh k n e Hinv Ex Hat) as (nd & End & Hk & He). rewrite End. cbn [mbind option_bind]. rewrite He.
  destruct (expired (now c) e).
  { destruct (erase_effect g sh n k e Hinv Hn) as (g' & sh' & -> & Hinv' & Hre). cbn [mbind option_bind]. by exists None, g', sh'. }
  destruct (isTombstone e); [exists None, g, sh; split_and!; try done; apply read_nothing|].
  destruct (access_law sh n (bi_listed _ _ _ _ Hi) Hp) as (sh' & -> & Hsc & Hp'); [by exists nd|]. cbn [mbind option_bind].
  pose proof Hn as Hn'. rewrite <- (sc_cores _ _ Hsc) in Hn'. apply cores_Some in Hn' as (nd' & -> & _ & <-). cbn [mbind option_bind].
  eexists _, g, sh'. split; [done|]. split; [split; [|done]; rewrite (sc_wheel _ _ Hsc); by apply (base_same _ _ _ sh)|].
  split; [done|]. destruct Hsc. split; try done; [|by apply noted_nil|congruence|lia].
  intros k'. rewrite decide_False by (intros [_ []]; done). unfold entry_at. by rewrite sc_index0, sc_cores0.
Qed.

Lemma getVersionedShard_spec c k g sh :
  shard_inv sh →
  ∃ r g' sh', getVersionedShard c k (g, sh) = Some (r, (g', sh')) ∧ shard_inv sh' ∧
    match entry_at sh k with
    | None => r = None ∧ read_effect k None g sh g' sh'
    | Some e =>
        if expired (now c) e then r = None ∧ read_effect k (Some e) g sh g' sh'
        else r = Some e ∧ read_effect k None g sh g' sh'
    end.
Proof.
  intros Hinv. pose proof Hinv as [Hi Hp]. unfold getVersionedShard. cbn [snd fst]. destruct (index sh !! k) as [n|] eqn:Ex.
  2:{ exists None, g, sh. assert (entry_at sh k = None) as -> by (unfold entry_at; by rewrite Ex).
      split_and!; try done. apply read_nothing. }
  pose proof (proj1 (bi_index _ _ _ _ Hi k n) Ex) as [e Hn].
  assert (entry_at sh k = Some e) as Hat by (eapply entry_at_index; eauto). rewrite Hat.
  destruct (entry_at_node sh k n e Hinv Ex Hat) as (nd & End & Hk & He). rewrite End. cbn [mbind option_bind]. rewrite He.
  destruct (expired (now c) e).
  - destruct (erase_effect g sh n k e Hinv Hn) as (g' & sh' & -> & Hinv' & Hre). cbn [mbind option_bind]. by exists None, g', sh'.
  - exists (Some e), g, sh. split_and!; try done. apply read_nothing.
Qed.

Lemma removeShard_spec k g sh :
  shard_inv sh →
  ∃ r g' sh', removeShard k (g, sh) = Some (r, (g', sh')) ∧ shard_inv sh' ∧
    match entry_at sh k with
    | None => r = false ∧ g' = g ∧ sh' = sh
    | Some e =>
        r = true ∧
        read_effect k (Some e) (onWrite (mkWalEntry OpDel k [] (version e) (writer_node_hash e) 0 false false) g) sh g' sh'
    end.
Proof.
  intros Hinv. pose proof Hinv as [Hi Hp]. unfold removeShard. cbn [snd fst]. destruct (index sh !! k) as [n|] eqn:Ex.
  2:{ exists false, g, sh. assert (entry_at sh k = None) as -> by (unfold entry_at; by rewrite Ex). done. }
  pose proof (proj1 (bi_index _ _ _ _ Hi k n) Ex) as [e Hn].
  assert (entry_at sh k = Some e) as Hat by (eapply entry_at_index; eauto). rewrite Hat.
  destruct (entry_at_node sh k n e Hinv Ex Hat) as (nd & End & Hk & He). rewrite End. cbn [mbind option_bind]. rewrite He.
  destruct (erase_effect (onWrite (mkWalEntry OpDel k [] (version e) (writer_node_hash e) 0 false false) g) sh n k e Hinv Hn)
    as (g' & sh' & -> & Hinv' & Hre).
  cbn [mbind option_bind]. by exists true, g', sh'.
Qed.

Lemma bytes_of_nonneg cs : 0 <= bytes_of cs.
Proof.
  unfold bytes_of. apply (map_fold_weak_ind (λ b _, 0 <= b)); [lia|]. intros n c m b _ Hb. pose proof (coreSize_pos c). lia.
Qed.

(** ** A new shard, and one filled by writes *)

Lemma emptyShard_inv t : shard_inv (emptyShard t).
Proof.
  split; [|exact init_law]. split; try done.
  - split; [apply NoDup_nil_2|]. intros n. split; [by intros ?%not_elem_of_nil|by intros []].
  - split; [done|]. by intros [].
  - apply emptyWheel_wf.
  - by intros n [].
Qed.

Definition put_all (c : Clock) (cap : Z) (l : list (bytes * VersionedEntry)) (s : Glob * Shard PN PS) : Glob * Shard PN PS :=
  foldl (λ s x, from_option snd s (putShard c cap x.1 x.2 (now c) s)) s l.

Lemma put_all_inv c cap l s : shard_inv s.2 → Forall (λ x, Entry.wf x.2) l → shard_inv (put_all c cap l s).2.
Proof.
  intros Hs Hl. revert s Hs. induction Hl as [|x l Hx Hl IH]; intros [g sh] Hs; [done|].
  apply IH. destruct (putShard_spec c cap x.1 x.2 (now c) g sh Hs Hx) as (r & g' & sh' & -> & Hs' & _). done.
Qed.
End facts.

(** A value to fill shards with in examples. *)
Definition demo_entry (v : string) (ver : Z) : VersionedEntry := setVersion ver (with_value (lit v) emptyEntry).

Definition demo_glob : Glob := mkGlob 65536 10 300000 0 0 (Some []) (Some []).

Definition demo_clock : Clock := mkClock 1000000000 1700000000000000000.

Lemma demo_entry_wf v ver : Entry.wf (demo_entry v ver).
Proof. apply EntryFacts.setVersion_wf. done. Qed.
