(* ===== verification/LruStore.v ===== *)
(** * The LRU policy (include/cinder/store/lru_store.hpp, src/store/lru_store.cpp)

    The front of a shard's list is the entry used last.  The policy keeps no
    data of its own. *)

From S2P Require Import Prelude Types Bytes Clock Wal WheelHeap TtlWheel Store StoreFacts.
Local Open Scope Z_scope.

(** [list.splice(list.begin(), list, it)] *)
Definition touch (n : nat) (sh : Shard () ()) : Shard () () := with_list (n :: filter (λ m, m ≠ n) (slist sh)) sh.

Definition lru_applyExisting (n : nat) (e : VersionedEntry) (sh : Shard () ()) : option (Shard () ()) :=
  _ ← nodes sh !! n;
  Some (touch n (set_entry n e sh)).

Definition lru_insertNew (key : bytes) (e : VersionedEntry) (sh : Shard () ()) : option (nat * Shard () ()) :=
  let n := fresh_addr sh in
  Some (n, add_node n (mkNode key e ()) sh).

Definition lru_onAccess (n : nat) (sh : Shard () ()) : option (Shard () ()) :=
  _ ← nodes sh !! n;
  Some (touch n sh).

Definition lru_onEvictExpired (n : nat) (sh : Shard () ()) : option (Shard () ()) := Some sh.

(** The first entry of the list that is not a tombstone. *)
Fixpoint scanLive (sh : Shard () ()) (l : list nat) : option (option nat) :=
  match l with
  | [] => Some None
  | n :: l => nd ← nodes sh !! n; if isTombstone (n_entry nd) then scanLive sh l else Some (Some n)
  end.

(** From the back of the list. *)
Definition lru_evictPick (sh : Shard () ()) : option (option (nat * Shard () ())) :=
  if bool_decide (slist sh = []) then Some None
  else match scanLive sh (rev (slist sh)) with
  | Some (Some n) => Some (Some (n, sh))
  | Some None => Some None
  | None => None
  end.

#[global] Instance lru_policy : Policy () () := {|
  node_bytes := 120;
  policy_init := ();
  applyExisting := lru_applyExisting;
  insertNew := lru_insertNew;
  onAccess := lru_onAccess;
  onEvictExpired := lru_onEvictExpired;
  evictPick := lru_evictPick |}.

(** ** The laws *)

Lemma fresh_addr_fresh {PN PS} (sh : Shard PN PS) : nodes sh !! fresh_addr sh = None.
Proof.
  assert (∀ n nd, nodes sh !! n = Some nd → (n <= map_fold (λ k _ a, Nat.max k a) O (nodes sh))%nat) as Hle.
  { apply (map_fold_weak_ind (λ a (m : gmap nat (Node PN)), ∀ n nd, m !! n = Some nd → (n <= a)%nat)).
    - intros n nd. by rewrite lookup_empty.
    - intros k x m r Hk IH n nd. rewrite lookup_insert. case_decide; [lia|]. intros Hn. specialize (IH n nd Hn). lia. }
  destruct (nodes sh !! fresh_addr sh) as [nd|] eqn:E; [|done]. pose proof (Hle _ _ E). unfold fresh_addr in *. lia.
Qed.

Lemma touch_perm n sh : NoDup (slist sh) → n ∈ slist sh → slist (touch n sh) ≡ₚ slist sh.
Proof.
  intros Hnd (l1 & l2 & E)%list_elem_of_split. unfold touch. cbn [with_list slist]. rewrite E in *.
  apply NoDup_app in Hnd as (_ & Hd & [Hn2 _]%NoDup_cons).
  rewrite filter_app, filter_cons_False, !filter_all_true by (tauto || (intros m Hm ->; set_solver)).
  by rewrite Permutation_middle.
Qed.

Lemma set_entry_listed {PN PS} n e (sh : Shard PN PS) : listed sh → listed (set_entry n e sh).
Proof.
  intros [Hnd Hin]. split; [done|]. intros m. cbn [set_entry with_nodes slist]. rewrite Hin. unfold cores.
  cbn [set_entry with_nodes nodes]. rewrite !lookup_fmap. destruct (decide (m = n)) as [->|Hne].
  - rewrite lookup_alter_eq. destruct (nodes sh !! n); simpl; [|done]. split; eauto.
  - by rewrite lookup_alter_ne.
Qed.

Lemma touch_same n sh : listed sh → is_Some (cores sh !! n) → same_core sh (touch n sh).
Proof.
  intros [Hnd Hin] Hn. split; try done. apply touch_perm; [done|]. by apply Hin.
Qed.

Lemma scanLive_spec sh l :
  (∀ n, n ∈ l → is_Some (nodes sh !! n)) →
  (scanLive sh l = Some None ∧ ∀ n k e, n ∈ l → cores sh !! n = Some (k, e) → isTombstone e = true) ∨
  ∃ l1 n l2 k e, scanLive sh l = Some (Some n) ∧ l = l1 ++ n :: l2 ∧ cores sh !! n = Some (k, e) ∧ isTombstone e = false ∧
    ∀ m k e, m ∈ l1 → cores sh !! m = Some (k, e) → isTombstone e = true.
Proof.
  induction l as [|n l IH]; intros Hl; simpl.
  { left. split; [done|]. by intros n k e Hin%not_elem_of_nil. }
  destruct (Hl n) as [nd End]; [by left|]. rewrite End. simpl. pose proof (cores_node _ _ _ End) as Hn.
  destruct (isTombstone (n_entry nd)) eqn:Et.
  - destruct IH as [[-> IH]|(l1 & m & l2 & k & e & -> & -> & Hm & Hlive & Hbefore)]; [intros m ?; apply Hl; by right| |].
    + left. split; [done|]. intros m k e [->|Hin]%elem_of_cons Hm; [congruence|by eapply IH].
    + right. exists (n :: l1), m, l2, k, e. split_and!; try done.
      intros x k' e' [->|Hin]%elem_of_cons Hx; [congruence|by eapply Hbefore].
  - right. exists [], n, l, (n_key nd), (n_entry nd). split_and!; try done. by intros m k e Hin%not_elem_of_nil.
Qed.

(** The victim: the last entry of the list that is not a tombstone. *)
Lemma lru_pick_spec sh :
  listed sh →
  (lru_evictPick sh = Some None ∧ ∀ n k e, cores sh !! n = Some (k, e) → isTombstone e = true) ∨
  ∃ l1 n l2 k e, lru_evictPick sh = Some (Some (n, sh)) ∧ slist sh = l1 ++ n :: l2 ∧ cores sh !! n = Some (k, e) ∧
    isTombstone e = false ∧ ∀ m k e, m ∈ l2 → cores sh !! m = Some (k, e) → isTombstone e = true.
Proof.
  intros [Hnd Hin]. unfold lru_evictPick. case_bool_decide as Hl.
  { left. split; [done|]. intros n k e Hn. assert (n ∈ slist sh) as Hin' by (apply Hin; by rewrite Hn).
    rewrite Hl in Hin'. by apply not_elem_of_nil in Hin'. }
  destruct (scanLive_spec sh (rev (slist sh))) as [[-> Ht]|(l1 & n & l2 & k & e & -> & El & Hn & He & Hb)].
  - intros n Hn. apply nodes_cores, Hin. by apply list_elem_of_In, in_rev, list_elem_of_In.
  - left. split; [done|]. intros n k e Hn. apply (Ht n k e); [|done].
    apply list_elem_of_In. rewrite <- in_rev. apply list_elem_of_In, Hin. by rewrite Hn.
  - right. exists (rev l2), n, (rev l1), k, e. simpl. split_and!; try done.
    + apply (f_equal (@rev nat)) in El. rewrite rev_involutive, rev_app_distr in El. simpl in El. by rewrite <- app_assoc in El.
    + intros m k' e' Hm. apply Hb. by apply list_elem_of_In, in_rev, list_elem_of_In.
Qed.

#[global, program] Instance lru_laws : PolicyLaws () () := {| p_inv := λ _ _, True |}.
Next Obligation. simpl. lia. Qed.
Next Obligation. done. Qed.
Next Obligation.
  intros sh n e Hl _ [nd Hn]. simpl. unfold lru_applyExisting. rewrite Hn. simpl. eexists. split; [done|]. split; [|done].
  apply touch_same; [by apply set_entry_listed|]. unfold cores, set_entry. simpl. rewrite lookup_fmap, lookup_alter_eq, Hn. by eexists.
Qed.
Next Obligation.
  intros sh k e Hl _. exists (fresh_addr sh), (), (add_node (fresh_addr sh) (mkNode k e ()) sh). split_and!; try done.
  apply fresh_addr_fresh.
Qed.
Next Obligation.
  intros sh n Hl _ Hn. simpl. unfold lru_onAccess. pose proof Hn as [nd ->]. simpl. eexists. split; [done|]. split; [|done].
  apply touch_same; [done|]. by apply nodes_cores.
Qed.
Next Obligation. intros sh n Hl _ _. by exists sh. Qed.
Next Obligation.
  intros sh Hl _. simpl. destruct (lru_pick_spec sh Hl) as [|(l1 & n & l2 & k & e & E & _ & Hn & He & _)]; [by left|].
  right. exists n, sh, k, e. done.
Qed.

(** ** What is evicted *)

(** [m] was used after [n]. *)
Definition fresher (l : list nat) (m n : nat) : Prop := [m; n] `sublist_of` l.

Lemma fresher_split l1 n l2 m : m ∈ l1 → fresher (l1 ++ n :: l2) m n.
Proof.
  intros (a & b & ->)%list_elem_of_split. unfold fresher. rewrite <- app_assoc. apply sublist_inserts_l. simpl.
  apply sublist_skip, sublist_inserts_l, sublist_skip, sublist_nil_l.
Qed.

Lemma lru_evictOne_spec lo X d g sh :
  base_inv lo X d sh →
  evictOne (g, sh) = Some None ∨
  ∃ l1 n l2 k e g' sh', evictOne (g, sh) = Some (Some (coreSize (k, e), (g', sh'))) ∧
    slist sh = l1 ++ n :: l2 ∧ slist sh' = l1 ++ l2 ∧ cores sh' = delete n (cores sh) ∧
    base_inv lo X (d + coreSize (k, e)) sh' ∧ ∀ m k e, m ∈ l2 → cores sh !! m = Some (k, e) → isTombstone e = true.
Proof.
  intros Hi. unfold evictOne. simpl evictPick.
  destruct (lru_pick_spec sh (bi_listed _ _ _ _ Hi)) as [[-> _]|(l1 & n & l2 & k & e & -> & El & Hn & He & Ht)]; [by left|]. right.
  destruct (drop_base lo X d sh n k e Hi Hn) as (sh' & Ed & Hi' & Hc & _ & Hl & _).
  pose proof Hn as (nd & End & <- & <-)%cores_Some. cbn [mbind option_bind]. rewrite End. cbn [mbind option_bind].
  rewrite Ed. cbn [mbind option_bind]. eexists l1, n, l2, _, _, _, sh'. split; [done|]. split_and!; try done.
  rewrite Hl, El. destruct (bi_listed _ _ _ _ Hi) as [Hnd _]. rewrite El in Hnd.
  apply NoDup_app in Hnd as (_ & Hd & [Hn2 _]%NoDup_cons).
  by rewrite filter_app, filter_cons_False, !filter_all_true by (tauto || (intros m Hm ->; set_solver)).
Qed.

Lemma lru_loop_order fuel cap lo g sh g' sh' :
  base_inv lo ∅ 0 sh → evict_loop fuel cap (g, sh) = Some (g', sh') →
  slist sh' `sublist_of` slist sh ∧ cores sh' ⊆ cores sh ∧
  ∀ m k e n, cores sh' !! m = Some (k, e) → isTombstone e = false → n ∈ slist sh → n ∉ slist sh' → fresher (slist sh) m n.
Proof.
  revert g sh. induction fuel as [|fuel IH]; intros g sh Hi.
  { intros [= <- <-]. split_and!; try done. }
  cbn [evict_loop fst snd]. destruct (_ && _); [|intros [= <- <-]; by split_and!].
  destruct (lru_evictOne_spec lo ∅ 0 g sh Hi) as [->|(l1 & n0 & l2 & k0 & e0 & g1 & sh1 & -> & El & El1 & Hc1 & Hi1 & Ht)]; cbn [mbind option_bind].
  { intros [= <- <-]. by split_and!. }
  pose proof (base_bytes _ _ _ _ (current_bytes sh1 - coreSize (k0, e0)) Hi1) as Hi2.
  replace (0 + coreSize (k0, e0) + (current_bytes sh1 - coreSize (k0, e0) - current_bytes sh1)) with 0 in Hi2 by lia.
  intros E. destruct (IH _ _ Hi2 E) as (Hs & Hsub & Hord).
  assert (l1 ++ l2 `sublist_of` slist sh) as Hsl by (rewrite El; apply sublist_app; [done|by apply sublist_cons]).
  cbn [with_bytes slist] in *. rewrite El1 in *.
  split; [by etransitivity|]. change (cores sh' ⊆ cores sh1) in Hsub.
  assert (cores sh' ⊆ cores sh) as Hsub' by (etransitivity; [exact Hsub|rewrite Hc1; apply delete_subseteq]).
  split; [done|]. intros m k e n Hm Hlive Hn Hn'. destruct (decide (n = n0)) as [->|Hne].
  - rewrite El. apply fresher_split. pose proof (lookup_weaken _ _ _ _ Hm Hsub) as Hm1.
    pose proof (lookup_weaken _ _ _ _ Hm Hsub') as Hm0.
    destruct (bi_listed _ _ _ _ Hi1) as [_ Hin]. assert (m ∈ slist sh1) as Hin1 by (apply Hin; by rewrite Hm1).
    rewrite El1 in Hin1. apply elem_of_app in Hin1 as [|Hin2]; [done|].
    pose proof (Ht m k e Hin2 Hm0). congruence.
  - unfold fresher. etransitivity; [|exact Hsl]. apply (Hord m k e n); [done|done| |done].
    rewrite El in Hn. set_solver.
Qed.

(** C29: the LRU policy evicts the entries used longest ago, and no more of them
    than it has to.  Eviction runs on every shard; each entry it removes goes
    while the shard, without the ones removed before it, is over its capacity,
    and it stops when the rest fits or only tombstones are left.  Every live
    entry that stays was used after every entry that went, tombstones never go,
    and the order of the rest is kept. *)
Theorem lru_evicts_oldest (cap : Z) (g : Glob) (sh : Shard () ()) :
  shard_inv sh →
  ∃ vs g' sh', evictIfNeeded cap (g, sh) = Some (g', sh') ∧ shard_inv sh' ∧ evicts vs g sh g' sh' ∧
    needed cap vs (cores sh) ∧ (current_bytes sh' <= cap ∨ ∀ n k e, cores sh' !! n = Some (k, e) → isTombstone e = true) ∧
    slist sh' `sublist_of` slist sh ∧
    ∀ m k e n, cores sh' !! m = Some (k, e) → isTombstone e = false → n ∈ vs.*1 → fresher (slist sh) m n.
Proof.
  intros [Hi Hp]. destruct (evictIfNeeded_spec cap _ _ g sh Hi Hp) as (vs & g' & sh' & E & Hi' & Hp' & Hev & Hneed & Hb).
  destruct (lru_loop_order _ _ _ _ _ _ _ Hi E) as (Hs & Hsub & Hord). exists vs, g', sh'. split_and!; try done.
  - split; [|done]. by rewrite (ev_tick _ _ _ _ _ Hev).
  - intros m k e n Hm Hlive Hn. apply (Hord m k e n Hm Hlive).
    + apply (bi_listed _ _ _ _ Hi). apply list_elem_of_fmap in Hn as ([n' x] & -> & Hin).
      destruct (ev_victims _ _ _ _ _ Hev _ _ Hin) as [Hx _]. by exists x.
    + rewrite (proj2 (bi_listed _ _ _ _ Hi')), (ev_cores _ _ _ _ _ Hev), without_lookup, decide_True by done. by intros [].
Qed.

Definition demo_shard : Shard () () :=
  (put_all demo_clock 65536 [(lit "a", demo_entry "1" 3); (lit "b", demo_entry "2" 4); (lit "c", demo_entry "3" 5);
    (lit "a", demo_entry "4" 6)] (demo_glob, emptyShard 0)).2.

Lemma demo_shard_inv : shard_inv demo_shard.
Proof. apply put_all_inv; [apply emptyShard_inv|]. repeat constructor; apply demo_entry_wf. Qed.

Lemma lru_evicts_oldest_witness :
  option_map (λ s : Glob * Shard () (), fst <$> map_to_list (index s.2)) (evictIfNeeded 150 (demo_glob, demo_shard)) = Some [lit "a"] ∧
  ∃ vs g' sh', evictIfNeeded 150 (demo_glob, demo_shard) = Some (g', sh') ∧ shard_inv sh' ∧
    evicts vs demo_glob demo_shard g' sh' ∧ needed 150 vs (cores demo_shard) ∧ slist sh' `sublist_of` slist demo_shard.
Proof.
  split; [vm_compute; reflexivity|].
  destruct (lru_evicts_oldest 150 demo_glob demo_shard demo_shard_inv) as (vs & g' & sh' & E & Hs & Hev & Hneed & _ & Hl & _).
  exists vs, g', sh'. split_and!; assumption.
Defined.
