(* ===== verification/LfuStore.v ===== *)
(** * The LFU policy (include/cinder/store/lfu_store.hpp, src/store/lfu_store.cpp)

    A node knows its frequency and its position in the bucket of that frequency;
    a shard keeps the buckets, ordered by frequency. *)

From S2P Require Import Prelude Types Bytes Clock Wal WheelHeap TtlWheel Store StoreFacts LruStore.
Local Open Scope Z_scope.

(** [freq] and [freq_index] of a node *)
Record Freq := mkFreq { freq : Z; freq_index : nat }.

(** [btree::map<size_t, std::vector<ListIt>>] *)
Abbreviation FreqMap := (gmap Z (list nat)).

(** A shard of the store with this policy's data. *)
Definition LfuShard : Type := Shard Freq FreqMap.

(** The frequencies in the order of the map. *)
Definition bucket_keys (bs : FreqMap) : list Z := merge_sort Z.le (map_to_list bs).*1.

Definition bucket (f : Z) (sh : LfuShard) : list nat := default [] (policy sh !! f).

Definition set_freq (n : nat) (f : Freq) (sh : LfuShard) : LfuShard := with_nodes (alter (with_npolicy f) n (nodes sh)) sh.

(** Fill the hole at [idx] with the last element, drop the last place and erase
    the bucket when that leaves it empty. *)
Definition swapRemove (f : Z) (idx : nat) (vec : list nat) (sh : LfuShard) : option LfuShard :=
  last ← vec !! (length vec - 1)%nat;
  _ ← vec !! idx;
  sh ← (if bool_decide (idx = (length vec - 1)%nat) then Some sh
        else nd ← nodes sh !! last; Some (set_freq last (mkFreq (freq (n_policy nd)) idx) sh));
  let vec := take (length vec - 1) (<[idx := last]> vec) in
  Some (with_policy (if bool_decide (vec = []) then delete f (policy sh) else <[f := vec]> (policy sh)) sh).

Definition removeFromFreqBucket (n : nat) (f : Z) (sh : LfuShard) : option LfuShard :=
  match policy sh !! f with
  | None => Some sh
  | Some vec => nd ← nodes sh !! n; swapRemove f (freq_index (n_policy nd)) vec sh
  end.

(** [push_back] on the bucket of a frequency. *)
Definition pushBucket (n : nat) (f : Z) (sh : LfuShard) : LfuShard :=
  let sh := set_freq n (mkFreq f (length (bucket f sh))) sh in
  with_policy (<[f := bucket f sh ++ [n]]> (policy sh)) sh.

Definition incrementFreq (n : nat) (sh : LfuShard) : option LfuShard :=
  nd ← nodes sh !! n;
  let old_freq := freq (n_policy nd) in
  let new_freq := old_freq + 1 in
  let sh := set_freq n (mkFreq new_freq (freq_index (n_policy nd))) sh in
  sh ← removeFromFreqBucket n old_freq sh;
  Some (pushBucket n new_freq sh).

Definition lfu_applyExisting (n : nat) (e : VersionedEntry) (sh : LfuShard) : option LfuShard :=
  _ ← nodes sh !! n;
  incrementFreq n (set_entry n e sh).

Definition lfu_insertNew (key : bytes) (e : VersionedEntry) (sh : LfuShard) : option (nat * LfuShard) :=
  let n := fresh_addr sh in
  let sh := add_node n (mkNode key e (mkFreq 1 0)) sh in
  Some (n, pushBucket n 1 sh).

Definition lfu_onEvictExpired (n : nat) (sh : LfuShard) : option LfuShard :=
  nd ← nodes sh !! n;
  removeFromFreqBucket n (freq (n_policy nd)) sh.

(** The first entry of a bucket that is not a tombstone, with its position. *)
Fixpoint scanBucket (sh : LfuShard) (i : nat) (vec : list nat) : option (option (nat * nat)) :=
  match vec with
  | [] => Some None
  | n :: vec =>
      nd ← nodes sh !! n;
      if isTombstone (n_entry nd) then scanBucket sh (S i) vec else Some (Some (i, n))
  end.

(** The buckets in ascending order, up to one with a victim. *)
Fixpoint scanBuckets (sh : LfuShard) (fs : list Z) : option (option (nat * LfuShard)) :=
  match fs with
  | [] => Some None
  | f :: fs =>
      vec ← policy sh !! f;
      r ← scanBucket sh 0 vec;
      match r with
      | None => scanBuckets sh fs
      | Some (i, n) => sh ← swapRemove f i vec sh; Some (Some (n, sh))
      end
  end.

Definition lfu_evictPick (sh : LfuShard) : option (option (nat * LfuShard)) := scanBuckets sh (bucket_keys (policy sh)).

#[global] Instance lfu_policy : Policy Freq FreqMap := {|
  node_bytes := 136;
  policy_init := ∅;
  applyExisting := lfu_applyExisting;
  insertNew := lfu_insertNew;
  onAccess := incrementFreq;
  onEvictExpired := lfu_onEvictExpired;
  evictPick := lfu_evictPick |}.

(** ** Frequencies across restarts *)

Definition restoreFreqShard (key : bytes) (f : Z) (s : Glob * LfuShard) : option (() * (Glob * LfuShard)) :=
  match index s.2 !! key with
  | None => Some ((), s)
  | Some n =>
      nd ← nodes s.2 !! n;
      if freq (n_policy nd) >=? f then Some ((), s)
      else
        sh ← removeFromFreqBucket n (freq (n_policy nd)) s.2;
        Some ((), (s.1, pushBucket n f sh))
  end.

Section restore.
Context (hash : bytes → Z).

Definition restoreFreq (key : bytes) (f : Z) (s : Store Freq FreqMap) : option (() * Store Freq FreqMap) :=
  if f <=? 1 then Some ((), s) else on_shard hash key (restoreFreqShard key f) s.

Definition entryFreq (key : bytes) (s : Store Freq FreqMap) : Z :=
  match shards s !! shardFor hash key s with
  | Some sh => from_option (λ nd, freq (n_policy nd)) 0 (n ← index sh !! key; nodes sh !! n)
  | None => 0
  end.
End restore.

(** ** The buckets *)

(** A node is in the bucket and at the place it knows of, and no bucket is
    empty. *)
Record buckets_ok (pn : gmap nat Freq) (bs : FreqMap) : Prop := mkBucketsOk {
  bk_place : ∀ n f i, pn !! n = Some (mkFreq f i) ↔ ∃ vec, bs !! f = Some vec ∧ vec !! i = Some n;
  bk_nonempty : ∀ f vec, bs !! f = Some vec → vec ≠ [] }.

(** The shards differ in the policy's data only. *)
Record relabelled (sh sh' : LfuShard) : Prop := mkRelabelled {
  rl_core : same_core sh sh';
  rl_list : slist sh' = slist sh }.

Lemma relabelled_trans sh1 sh2 sh3 : relabelled sh1 sh2 → relabelled sh2 sh3 → relabelled sh1 sh3.
Proof. intros [[] ?] [[] ?]. split; [|congruence]. split; congruence || (by etransitivity). Qed.

Lemma set_freq_spec n f sh :
  relabelled sh (set_freq n f sh) ∧ policies (set_freq n f sh) = alter (λ _, f) n (policies sh) ∧ policy (set_freq n f sh) = policy sh.
Proof.
  split; [split; [split; try done|done]|split; [|done]].
  - unfold cores, set_freq. cbn [with_nodes nodes]. apply map_eq. intros m. rewrite !lookup_fmap.
    destruct (decide (m = n)) as [->|]; [rewrite lookup_alter_eq; by destruct (nodes sh !! n)|by rewrite lookup_alter_ne].
  - unfold policies, set_freq. cbn [with_nodes nodes]. apply map_eq. intros m. rewrite lookup_fmap.
    destruct (decide (m = n)) as [->|].
    + rewrite !lookup_alter_eq, lookup_fmap. by destruct (nodes sh !! n).
    + by rewrite !lookup_alter_ne, lookup_fmap.
Qed.

Lemma with_policy_spec b sh : relabelled sh (with_policy b sh) ∧ policies (with_policy b sh) = policies sh ∧ policy (with_policy b sh) = b.
Proof. done. Qed.

Lemma policies_lookup (sh : LfuShard) n : policies sh !! n = n_policy <$> nodes sh !! n.
Proof. apply lookup_fmap. Qed.

Lemma bucket_swap_lookup (vec : list nat) i l j m :
  (i < length vec)%nat →
  take (length vec - 1) (<[i := l]> vec) !! j = Some m ↔
  (j < length vec - 1)%nat ∧ (if decide (j = i) then m = l else vec !! j = Some m).
Proof.
  intros Hi. destruct (decide (j < length vec - 1)%nat) as [Hj|Hj].
  - rewrite lookup_take_lt by done. destruct (decide (j = i)) as [->|].
    + rewrite list_lookup_insert_eq by done. naive_solver.
    + rewrite list_lookup_insert_ne by done. naive_solver.
  - rewrite lookup_take_ge by lia. naive_solver.
Qed.

(** The swap keeps the accounts of all other nodes. *)
Lemma bucket_swap pn bs n f i vec l :
  buckets_ok pn bs → pn !! n = Some (mkFreq f i) → bs !! f = Some vec → vec !! (length vec - 1)%nat = Some l →
  let vec' := take (length vec - 1) (<[i := l]> vec) in
  buckets_ok (delete n (<[l := mkFreq f i]> pn)) (if decide (vec' = []) then delete f bs else <[f := vec']> bs).
Proof.
  intros [Hp Hne] Hn Hf Hl vec'.
  assert (∀ m j, pn !! m = Some (mkFreq f j) ↔ vec !! j = Some m) as Hpf.
  { intros m j. rewrite Hp. split; [intros (v & Hv & ?); congruence|eauto]. }
  pose proof (proj1 (Hpf n i) Hn) as Hvn. pose proof (lookup_lt_Some _ _ _ Hvn) as Hlt. pose proof (proj2 (Hpf l _) Hl) as Hpl.
  pose proof (λ j m, bucket_swap_lookup vec i l j m Hlt) as Hsw. fold vec' in Hsw.
  set (bs' := if decide (vec' = []) then delete f bs else <[f := vec']> bs).
  assert (∀ f' j m, (∃ v, bs' !! f' = Some v ∧ v !! j = Some m) ↔
    if decide (f' = f) then vec' !! j = Some m else ∃ v, bs !! f' = Some v ∧ v !! j = Some m) as Hbs.
  { intros f' j m. unfold bs'. destruct (decide (f' = f)) as [->|Hff]; case_decide as Hv.
    - rewrite lookup_delete_eq, Hv. split; [by intros (? & ? & _)|by rewrite lookup_nil].
    - rewrite lookup_insert_eq. naive_solver.
    - by rewrite lookup_delete_ne.
    - by rewrite lookup_insert_ne. }
  split.
  - intros m f' j. rewrite Hbs, lookup_delete. destruct (decide (f' = f)) as [->|Hff].
    + rewrite Hsw. destruct (decide (n = m)) as [<-|Hmn].
      * split; [done|]. intros [Hj Hm]. case_decide as Hji.
        -- rewrite Hm, Hpl in Hn. injection Hn as ?. lia.
        -- apply Hpf in Hm. congruence.
      * rewrite lookup_insert. destruct (decide (l = m)) as [<-|Hlm].
        -- split; [intros [= <-]|].
           ++ rewrite decide_True by done. split; [|done]. destruct (decide (i = length vec - 1)%nat); [congruence|lia].
           ++ intros [Hj Hm]. case_decide as Hji; [by subst|]. apply Hpf in Hm. rewrite Hpl in Hm. injection Hm as ?. lia.
        -- rewrite Hpf. split; [|intros [Hj Hm]; case_decide; congruence]. intros Hm.
           pose proof (lookup_lt_Some _ _ _ Hm). assert (j ≠ length vec - 1)%nat by congruence.
           split; [lia|]. rewrite decide_False by congruence. done.
    + rewrite <- Hp. destruct (decide (n = m)) as [<-|Hmn]; [split; [done|congruence]|].
      rewrite lookup_insert. case_decide; [subst; split; congruence|done].
  - intros f' v Hv. unfold bs' in Hv. case_decide as Hvn'.
    + rewrite lookup_delete in Hv. case_decide; [done|]. by eapply Hne.
    + rewrite lookup_insert in Hv. case_decide; [congruence|]. by eapply Hne.
Qed.

(** The same on a shard.  [pn] is what the buckets know of; the data of [n]
    itself may have moved on. *)
Lemma swapRemove_spec pn n f i vec sh :
  buckets_ok pn (policy sh) → pn !! n = Some (mkFreq f i) → policy sh !! f = Some vec →
  delete n (policies sh) = delete n pn →
  ∃ sh', swapRemove f i vec sh = Some sh' ∧ relabelled sh sh' ∧
    buckets_ok (delete n (policies sh')) (policy sh') ∧ policies sh' !! n = policies sh !! n ∧
    ∀ m, freq <$> policies sh' !! m = freq <$> policies sh !! m.
Proof.
  intros Hok Hn Hf Hpn. pose proof (proj1 (bk_place _ _ Hok n f i) Hn) as (v & Hv & Hvn). rewrite Hf in Hv. injection Hv as <-.
  pose proof (lookup_lt_Some _ _ _ Hvn) as Hlt.
  destruct (lookup_lt_is_Some_2 vec (length vec - 1)) as [l Hl]; [lia|].
  pose proof (bucket_swap pn (policy sh) n f i vec l Hok Hn Hf Hl) as Hok'. cbn zeta in Hok'.
  assert (pn !! l = Some (mkFreq f (length vec - 1))) as Hpl by (apply (bk_place _ _ Hok); eauto).
  unfold swapRemove. rewrite Hl, Hvn. cbn [mbind option_bind].
  rewrite (bool_decide_ext (i = length vec - 1)%nat (n = l)).
  2:{ split; [intros ->; congruence|]. intros ->. congruence. }
  set (vec' := take (length vec - 1) (<[i := l]> vec)) in *.
  assert (∀ b : FreqMap, (if bool_decide (vec' = []) then delete f b else <[f := vec']> b)
    = if decide (vec' = []) then delete f b else <[f := vec']> b) as Hif by (intros b; case_bool_decide; by case_decide).
  destruct (bool_decide_reflect (n = l)) as [Hnl|Hnl].
  - cbn [mbind option_bind]. eexists. split; [done|]. split; [apply with_policy_spec|]. split; [|done]. cbn [with_policy policy].
    rewrite Hif. change (policies (with_policy _ sh)) with (policies sh). rewrite Hpn. subst l.
    by rewrite delete_insert_eq in Hok'.
  - assert (policies sh !! l = Some (mkFreq f (length vec - 1))) as Hsl.
    { rewrite <- (lookup_delete_ne _ n l), Hpn, lookup_delete_ne by done. done. }
    rewrite policies_lookup in Hsl. destruct (nodes sh !! l) as [nd|] eqn:El; [|done]. simpl in Hsl. injection Hsl as Hnd.
    cbn [mbind option_bind]. rewrite Hnd. cbn [freq].
    destruct (set_freq_spec l (mkFreq f i) sh) as (Hrl & Hps & Hpo). eexists. split; [done|].
    split; [eapply relabelled_trans; [exact Hrl|apply with_policy_spec]|].
    cbn [with_policy policy]. change (policies (with_policy _ ?s)) with (policies s). rewrite Hif, Hps, Hpo. split_and!.
    + replace (delete n (alter (λ _, mkFreq f i) l (policies sh))) with (delete n (<[l := mkFreq f i]> pn)); [done|].
      apply map_eq. intros m. destruct (decide (n = m)) as [->|Hnm]; [by rewrite !lookup_delete_eq|].
      rewrite !lookup_delete_ne, lookup_insert by done.
      assert (policies sh !! m = pn !! m) as Hm by (by rewrite <- (lookup_delete_ne _ n m), Hpn, lookup_delete_ne).
      destruct (decide (l = m)) as [->|]; [by rewrite lookup_alter_eq, Hm, Hpl|by rewrite lookup_alter_ne].
    + by rewrite lookup_alter_ne.
    + intros m. destruct (decide (m = l)) as [->|]; [|by rewrite lookup_alter_ne].
      rewrite lookup_alter_eq, policies_lookup, El. simpl. by rewrite Hnd.
Qed.

(** A node that no bucket has enters one at its end. *)
Lemma pushBucket_spec n f sh :
  buckets_ok (delete n (policies sh)) (policy sh) → is_Some (policies sh !! n) →
  relabelled sh (pushBucket n f sh) ∧ buckets_ok (policies (pushBucket n f sh)) (policy (pushBucket n f sh)) ∧
  policies (pushBucket n f sh) !! n = Some (mkFreq f (length (bucket f sh))).
Proof.
  intros [Hp Hne] [p Hn]. unfold pushBucket. cbv zeta.
  destruct (set_freq_spec n (mkFreq f (length (bucket f sh))) sh) as (Hrl & Hps & Hpo).
  change (bucket f (set_freq n (mkFreq f (length (bucket f sh))) sh)) with (bucket f sh).
  split; [eapply relabelled_trans; [exact Hrl|apply with_policy_spec]|].
  change (policies (with_policy _ ?s)) with (policies s). cbn [with_policy policy].
  rewrite Hps, Hpo. split; [|by rewrite lookup_alter_eq, Hn]. split.
  - intros m f' j. destruct (decide (m = n)) as [->|Hmn].
    + rewrite lookup_alter_eq, Hn. simpl. specialize (Hp n f' j). rewrite lookup_delete_eq in Hp. rewrite lookup_insert.
      split.
      * intros [= <- <-]. rewrite decide_True by done. eexists. split; [done|]. by rewrite lookup_app_r, Nat.sub_diag.
      * intros (v & Hv & Hj). case_decide as Hff; [|enough (None = Some (mkFreq f' j)) by done; apply Hp; eauto]. subst. injection Hv as <-.
        apply lookup_app_Some in Hj as [Hj|[Hj Hj']].
        -- unfold bucket in Hj. destruct (policy sh !! f') as [v|] eqn:E; [|done]. enough (None = Some (mkFreq f' j)) by done. apply Hp. eauto.
        -- f_equal. f_equal. destruct (j - length (bucket f' sh))%nat eqn:E; [lia|done].
    + rewrite lookup_alter_ne by done. specialize (Hp m f' j). rewrite lookup_delete_ne in Hp by done. rewrite Hp, lookup_insert.
      case_decide as Hff; [subst|done]. unfold bucket. split.
      * intros (v & -> & Hj). eexists. split; [done|]. simpl. by apply lookup_app_l_Some.
      * intros (v & [= <-] & Hj). apply lookup_app_Some in Hj as [Hj|[_ Hj]].
        -- destruct (policy sh !! f') as [v|]; [eauto|done].
        -- exfalso. apply list_elem_of_lookup_2 in Hj. set_solver.
  - intros f' v. rewrite lookup_insert. case_decide; [|apply Hne]. intros [= <-]. by destruct (bucket f sh).
Qed.

(** ** The hooks *)

Lemma policies_set_entry n e (sh : LfuShard) : policies (set_entry n e sh) = policies sh.
Proof.
  unfold policies, set_entry. cbn [with_nodes nodes]. apply map_eq. intros m. rewrite !lookup_fmap.
  destruct (decide (m = n)) as [->|]; [rewrite lookup_alter_eq; by destruct (nodes sh !! n)|by rewrite lookup_alter_ne].
Qed.

Lemma removeFromFreqBucket_spec pn n f i sh :
  buckets_ok pn (policy sh) → pn !! n = Some (mkFreq f i) → delete n (policies sh) = delete n pn →
  freq_index <$> policies sh !! n = Some i →
  ∃ sh', removeFromFreqBucket n f sh = Some sh' ∧ relabelled sh sh' ∧
    buckets_ok (delete n (policies sh')) (policy sh') ∧ policies sh' !! n = policies sh !! n ∧
    ∀ m, freq <$> policies sh' !! m = freq <$> policies sh !! m.
Proof.
  intros Hok Hn Hpn Hi. unfold removeFromFreqBucket. pose proof (proj1 (bk_place _ _ Hok n f i) Hn) as (vec & Hf & _).
  rewrite Hf. rewrite policies_lookup in Hi. destruct (nodes sh !! n) as [nd|] eqn:En; [|done]. simpl in Hi. injection Hi as Hi.
  cbn [mbind option_bind]. rewrite Hi. destruct (swapRemove_spec pn n f i vec sh Hok Hn Hf Hpn) as (sh' & E & ? & ? & ? & ?).
  exists sh'. split_and!; try done.
Qed.

(** The frequencies of all nodes but [n] are kept. *)
Definition keeps_freqs (n : nat) (sh sh' : LfuShard) : Prop :=
  ∀ m, m ≠ n → freq <$> policies sh' !! m = freq <$> policies sh !! m.

Lemma incrementFreq_spec n f i sh :
  buckets_ok (policies sh) (policy sh) → policies sh !! n = Some (mkFreq f i) →
  ∃ sh', incrementFreq n sh = Some sh' ∧ relabelled sh sh' ∧ buckets_ok (policies sh') (policy sh') ∧
    freq <$> policies sh' !! n = Some (f + 1) ∧ keeps_freqs n sh sh'.
Proof.
  intros Hok Hn. unfold incrementFreq. pose proof Hn as Hn'. rewrite policies_lookup in Hn'.
  destruct (nodes sh !! n) as [nd|] eqn:En; [|done]. simpl in Hn'. injection Hn' as Hnd. cbn [mbind option_bind]. rewrite Hnd. cbn [freq freq_index].
  destruct (set_freq_spec n (mkFreq (f + 1) i) sh) as (Hrl & Hps & Hpo). set (sh1 := set_freq n (mkFreq (f + 1) i) sh) in *.
  destruct (removeFromFreqBucket_spec (policies sh) n f i sh1) as (sh2 & -> & Hrl2 & Hok2 & Hn2 & Hfr2).
  - by rewrite Hpo.
  - done.
  - rewrite Hps. apply map_eq. intros m. destruct (decide (n = m)) as [->|]; [by rewrite !lookup_delete_eq|].
    by rewrite !lookup_delete_ne, lookup_alter_ne.
  - by rewrite Hps, lookup_alter_eq, Hn.
  - cbn [mbind option_bind]. destruct (pushBucket_spec n (f + 1) sh2 Hok2) as (Hrl3 & Hok3 & Hn3).
    { by rewrite Hn2, Hps, lookup_alter_eq, Hn. }
    eexists. split; [done|]. split; [by eapply relabelled_trans, relabelled_trans|]. split; [done|]. split; [by rewrite Hn3|].
    intros m Hm. unfold pushBucket. cbv zeta. change (policies (with_policy _ ?s)) with (policies s).
    rewrite (proj1 (proj2 (set_freq_spec _ _ _))), lookup_alter_ne, Hfr2, Hps, lookup_alter_ne by done. done.
Qed.

Lemma scanBucket_spec sh i vec :
  (∀ n, n ∈ vec → is_Some (nodes sh !! n)) →
  (scanBucket sh i vec = Some None ∧ ∀ n k e, n ∈ vec → cores sh !! n = Some (k, e) → isTombstone e = true) ∨
  ∃ j n k e, scanBucket sh i vec = Some (Some (i + j, n))%nat ∧ vec !! j = Some n ∧ cores sh !! n = Some (k, e) ∧ isTombstone e = false.
Proof.
  revert i. induction vec as [|n vec IH]; intros i Hv; simpl.
  { left. split; [done|]. by intros n k e Hin%not_elem_of_nil. }
  destruct (Hv n) as [nd End]; [by left|]. rewrite End. simpl. pose proof (cores_node _ _ _ End) as Hn.
  destruct (isTombstone (n_entry nd)) eqn:Et.
  - destruct (IH (S i)) as [[-> IHt]|(j & m & k & e & -> & Hj & Hm & He)]; [intros m ?; apply Hv; by right| |].
    + left. split; [done|]. intros m k e [->|Hin]%elem_of_cons Hm; [congruence|by eapply IHt].
    + right. exists (S j), m, k, e. split; [do 3 f_equal; lia|]. done.
  - right. exists 0%nat, n, (n_key nd), (n_entry nd). split; [do 3 f_equal; lia|]. done.
Qed.

Lemma bucket_keys_elem bs f : f ∈ bucket_keys bs ↔ is_Some (bs !! f).
Proof.
  unfold bucket_keys. rewrite merge_sort_Permutation, list_elem_of_fmap. split.
  - intros ([f' v] & -> & Hin). apply elem_of_map_to_list in Hin. by exists v.
  - intros [v Hv]. exists (f, v). split; [done|]. by apply elem_of_map_to_list.
Qed.

Lemma bucket_keys_sorted bs : StronglySorted Z.le (bucket_keys bs).
Proof. apply StronglySorted_merge_sort; apply _. Qed.

(** The victim: an entry of the lowest frequency that has one. *)
Lemma scanBuckets_spec sh fs :
  buckets_ok (policies sh) (policy sh) → (∀ f, f ∈ fs → is_Some (policy sh !! f)) → StronglySorted Z.le fs →
  (scanBuckets sh fs = Some None ∧
   ∀ n k e f, f ∈ fs → freq <$> policies sh !! n = Some f → cores sh !! n = Some (k, e) → isTombstone e = true) ∨
  ∃ n sh' k e f, scanBuckets sh fs = Some (Some (n, sh')) ∧ cores sh !! n = Some (k, e) ∧ isTombstone e = false ∧
    relabelled sh sh' ∧ buckets_ok (delete n (policies sh')) (policy sh') ∧
    (∀ m, freq <$> policies sh' !! m = freq <$> policies sh !! m) ∧ freq <$> policies sh !! n = Some f ∧
    ∀ m k e f', f' ∈ fs → freq <$> policies sh !! m = Some f' → cores sh !! m = Some (k, e) → isTombstone e = false → f <= f'.
Proof.
  intros Hok Hfs Hsort. induction Hsort as [|f fs _ IH Hle]; simpl.
  { left. split; [done|]. by intros n k e f Hin%not_elem_of_nil. }
  destruct (Hfs f) as [vec Hf]; [by left|]. rewrite Hf. cbn [mbind option_bind].
  assert (∀ n, n ∈ vec ↔ freq <$> policies sh !! n = Some f) as Hvec.
  { intros n. rewrite list_elem_of_lookup. split.
    - intros [i Hi]. by rewrite (proj2 (bk_place _ _ Hok n f i)) by eauto.
    - destruct (policies sh !! n) as [[f' i]|] eqn:En; simpl; [|done]. intros [= ->].
      apply (bk_place _ _ Hok) in En as (v & Hv & Hi). exists i. congruence. }
  destruct (scanBucket_spec sh 0 vec) as [[-> Ht]|(j & n & k & e & -> & Hj & Hn & He)].
  - intros n Hn%Hvec. rewrite policies_lookup in Hn. by destruct (nodes sh !! n).
  - cbn [mbind option_bind]. destruct IH as [[-> IHt]|(n & sh' & k & e & fn & -> & Hn & He & Hrl & Hok' & Hfr & Hfn & Hmin)].
    { intros f' ?. apply Hfs. by right. }
    + left. split; [done|]. intros n k e f' [->|Hin]%elem_of_cons Hn Hc; [|by eapply IHt]. eapply Ht; [by apply Hvec|done].
    + right. exists n, sh', k, e, fn. split_and!; try done. intros m k' e' f' [->|Hin]%elem_of_cons Hm Hc Hl; [|by eapply Hmin].
      exfalso. rewrite (Ht m k' e') in Hl; [done|by apply Hvec|done].
  - cbn [mbind option_bind]. simpl.
    assert (policies sh !! n = Some (mkFreq f j)) as Hp by (apply (bk_place _ _ Hok); eauto).
    destruct (swapRemove_spec (policies sh) n f j vec sh Hok Hp Hf eq_refl) as (sh' & -> & Hrl & Hok' & _ & Hfr).
    cbn [mbind option_bind]. right. exists n, sh', k, e, f. rewrite Hp. split_and!; try done.
    intros m k' e' f' [->|Hin]%elem_of_cons _ _ _; [lia|]. rewrite Forall_forall in Hle. by apply Hle.
Qed.

Lemma lfu_pick_spec sh :
  buckets_ok (policies sh) (policy sh) →
  (lfu_evictPick sh = Some None ∧ ∀ n k e, cores sh !! n = Some (k, e) → isTombstone e = true) ∨
  ∃ n sh' k e f, lfu_evictPick sh = Some (Some (n, sh')) ∧ cores sh !! n = Some (k, e) ∧ isTombstone e = false ∧
    relabelled sh sh' ∧ buckets_ok (delete n (policies sh')) (policy sh') ∧
    (∀ m, freq <$> policies sh' !! m = freq <$> policies sh !! m) ∧ freq <$> policies sh !! n = Some f ∧
    ∀ m k e f', freq <$> policies sh !! m = Some f' → cores sh !! m = Some (k, e) → isTombstone e = false → f <= f'.
Proof.
  intros Hok. unfold lfu_evictPick.
  assert (∀ m f, freq <$> policies sh !! m = Some f → f ∈ bucket_keys (policy sh)) as Hkey.
  { intros m f Hm. apply bucket_keys_elem. destruct (policies sh !! m) as [[f' i]|] eqn:E; [|done]. simpl in Hm.
    injection Hm as ->. apply (bk_place _ _ Hok) in E as (v & Hv & _). by exists v. }
  destruct (scanBuckets_spec sh (bucket_keys (policy sh)) Hok) as [[-> Ht]|(n & sh' & k & e & f & -> & Hn & He & Hrl & Hok' & Hfr & Hf & Hmin)];
    [intros f; apply bucket_keys_elem|apply bucket_keys_sorted| |].
  - left. split; [done|]. intros n k e Hn. pose proof Hn as (nd & End & _ & _)%cores_Some.
    assert (freq <$> policies sh !! n = Some (freq (n_policy nd))) as Hf by (by rewrite policies_lookup, End).
    eapply Ht; [by eapply Hkey|done|done].
  - right. exists n, sh', k, e, f. split_and!; try done. intros m k' e' f' Hm. by apply (Hmin m k' e' f' (Hkey m f' Hm)).
Qed.

#[global, program] Instance lfu_laws : PolicyLaws Freq FreqMap := {| p_inv := buckets_ok |}.
Next Obligation. simpl. lia. Qed.
Next Obligation. split; [|done]. intros n f i. rewrite lookup_empty. split; [done|]. by intros (? & ? & _). Qed.
Next Obligation.
  intros sh n e Hl Hp [nd Hn]. simpl. unfold lfu_applyExisting. rewrite Hn. cbn [mbind option_bind].
  destruct (n_policy nd) as [f i] eqn:Ep.
  destruct (incrementFreq_spec n f i (set_entry n e sh)) as (sh' & E & [Hsc _] & Hok & _).
  - by rewrite policies_set_entry.
  - by rewrite policies_set_entry, policies_lookup, Hn, <- Ep.
  - by exists sh'.
Qed.
Next Obligation.
  intros sh k e Hl Hp. simpl. unfold lfu_insertNew. set (n := fresh_addr sh). set (sh1 := add_node n _ sh).
  assert (policies sh1 = <[n := mkFreq 1 0]> (policies sh)) as Hp1.
  { unfold policies, sh1. cbn [add_node nodes]. by rewrite fmap_insert. }
  assert (policies sh !! n = None) as Hn by (rewrite policies_lookup; unfold n; by rewrite fresh_addr_fresh).
  destruct (pushBucket_spec n 1 sh1) as ([Hsc _] & Hok & _).
  - rewrite Hp1, delete_insert_id by done. done.
  - by rewrite Hp1, lookup_insert_eq.
  - exists n, (mkFreq 1 0), (pushBucket n 1 sh1). split_and!; try done. apply fresh_addr_fresh.
Qed.
Next Obligation.
  intros sh n Hl Hp [nd Hn]. simpl. destruct (n_policy nd) as [f i] eqn:Ep.
  destruct (incrementFreq_spec n f i sh) as (sh' & E & [Hsc _] & Hok & _); [done|by rewrite policies_lookup, Hn, <- Ep|].
  by exists sh'.
Qed.
Next Obligation.
  intros sh n Hl Hp [nd Hn]. simpl. unfold lfu_onEvictExpired. rewrite Hn. cbn [mbind option_bind].
  destruct (n_policy nd) as [f i] eqn:Ep. assert (policies sh !! n = Some (mkFreq f i)) as Hpn by (by rewrite policies_lookup, Hn, <- Ep).
  destruct (removeFromFreqBucket_spec (policies sh) n f i sh) as (sh' & E & [Hsc _] & Hok & _); [done..|by rewrite Hpn|].
  by exists sh'.
Qed.
Next Obligation.
  intros sh Hl Hp. simpl. destruct (lfu_pick_spec sh Hp) as [|(n & sh' & k & e & f & E & Hn & He & [Hsc _] & Hok & _)]; [by left|].
  right. by exists n, sh', k, e.
Qed.

(** ** What is evicted *)

Definition freq_at (sh : LfuShard) (n : nat) : option Z := freq <$> policies sh !! n.

Lemma lfu_evictOne_spec lo X d g sh :
  base_inv lo X d sh → p_ok sh →
  evictOne (g, sh) = Some None ∨
  ∃ n k e f g' sh', evictOne (g, sh) = Some (Some (coreSize (k, e), (g', sh'))) ∧ cores sh' = delete n (cores sh) ∧
    base_inv lo X (d + coreSize (k, e)) sh' ∧ p_ok sh' ∧ (∀ m, m ≠ n → freq_at sh' m = freq_at sh m) ∧ freq_at sh n = Some f ∧
    ∀ m k e f', freq_at sh m = Some f' → cores sh !! m = Some (k, e) → isTombstone e = false → f <= f'.
Proof.
  intros Hi Hp. unfold evictOne. simpl evictPick.
  destruct (lfu_pick_spec sh Hp) as [[-> _]|(n & sh1 & k & e & f & -> & Hn & He & [Hsc _] & Hok & Hfr & Hf & Hmin)]; [by left|]. right.
  pose proof (base_same _ _ _ _ _ Hsc Hi) as Hi1. pose proof Hn as Hn1. rewrite <- (sc_cores _ _ Hsc) in Hn1.
  destruct (drop_base lo X d sh1 n k e Hi1 Hn1) as (sh2 & Ed & Hi2 & Hc2 & _ & _ & Hq & Hq' & _).
  pose proof Hn1 as (nd & End & <- & <-)%cores_Some. cbn [mbind option_bind]. rewrite End. cbn [mbind option_bind].
  rewrite Ed. cbn [mbind option_bind]. eexists n, _, _, f, _, sh2. split; [done|]. split_and!; try done.
  - by rewrite Hc2, (sc_cores _ _ Hsc).
  - unfold p_ok. by rewrite Hq, Hq'.
  - intros m Hm. unfold freq_at. rewrite Hq, lookup_delete_ne by done. apply Hfr.
Qed.

Lemma lfu_loop_order fuel cap lo g sh g' sh' :
  base_inv lo ∅ 0 sh → p_ok sh → evict_loop fuel cap (g, sh) = Some (g', sh') →
  cores sh' ⊆ cores sh ∧ (∀ m, is_Some (cores sh' !! m) → freq_at sh' m = freq_at sh m) ∧
  ∀ m k e n fm, cores sh' !! m = Some (k, e) → isTombstone e = false → is_Some (cores sh !! n) → cores sh' !! n = None →
    freq_at sh m = Some fm → ∃ fn, freq_at sh n = Some fn ∧ fn <= fm.
Proof.
  assert (∀ sh0 : LfuShard, cores sh0 ⊆ cores sh0 ∧ (∀ m, is_Some (cores sh0 !! m) → freq_at sh0 m = freq_at sh0 m) ∧
    ∀ m k e n fm, cores sh0 !! m = Some (k, e) → isTombstone e = false → is_Some (cores sh0 !! n) → cores sh0 !! n = None →
      freq_at sh0 m = Some fm → ∃ fn, freq_at sh0 n = Some fn ∧ fn <= fm) as Hstay.
  { intros sh0. split_and!; try done. intros m k e n fm _ _ [x Hx] Hn. congruence. }
  revert g sh. induction fuel as [|fuel IH]; intros g sh Hi Hp; [intros [= <- <-]; apply Hstay|].
  cbn [evict_loop fst snd]. destruct (_ && _); [|intros [= <- <-]; apply Hstay].
  destruct (lfu_evictOne_spec lo ∅ 0 g sh Hi Hp) as [->|(n0 & k0 & e0 & f0 & g1 & sh1 & -> & Hc1 & Hi1 & Hp1 & Hfr & Hf0 & Hmin)];
    cbn [mbind option_bind]; [intros [= <- <-]; apply Hstay|].
  pose proof (base_bytes _ _ _ _ (current_bytes sh1 - coreSize (k0, e0)) Hi1) as Hi2.
  replace (0 + coreSize (k0, e0) + (current_bytes sh1 - coreSize (k0, e0) - current_bytes sh1)) with 0 in Hi2 by lia.
  intros E. destruct (IH _ _ Hi2 Hp1 E) as (Hsub & Hkeep & Hord).
  change (cores sh' ⊆ cores sh1) in Hsub. change (∀ m, is_Some (cores sh' !! m) → freq_at sh' m = freq_at sh1 m) in Hkeep.
  assert (cores sh' ⊆ cores sh) as Hsub' by (etransitivity; [exact Hsub|rewrite Hc1; apply delete_subseteq]).
  assert (∀ m, is_Some (cores sh' !! m) → m ≠ n0) as Hne.
  { intros m [x Hm] ->. pose proof (lookup_weaken _ _ _ _ Hm Hsub) as Hm1. by rewrite Hc1, lookup_delete_eq in Hm1. }
  split; [done|]. split; [intros m Hm; rewrite Hkeep by done; by apply Hfr, Hne|].
  intros m k e n fm Hm Hlive Hn Hn' Hfm. destruct (decide (n = n0)) as [->|Hnn].
  - exists f0. split; [done|]. apply (Hmin m k e); [done|by eapply lookup_weaken|done].
  - destruct (Hord m k e n fm) as (fn & Hfn & Hle); [done|done| |done| |].
    + change (is_Some (cores sh1 !! n)). by rewrite Hc1, lookup_delete_ne.
    + change (freq_at sh1 m = Some fm). rewrite Hfr; [done|]. apply Hne. by eexists.
    + exists fn. split; [|done]. change (freq_at sh1 n = Some fn) in Hfn. by rewrite Hfr in Hfn.
Qed.

(** the LFU policy evicts the entries used least often, and no more of them
    than it has to.  Each entry eviction removes goes while the shard, without
    the ones removed before it, is over its capacity, and it stops when the rest
    fits or only tombstones are left; no live entry that stays has a lower use count than one
    that went, tombstones never go, and the counts of the rest are kept. *)
Theorem lfu_evicts_rarest (cap : Z) (g : Glob) (sh : LfuShard) :
  shard_inv sh →
  ∃ vs g' sh', evictIfNeeded cap (g, sh) = Some (g', sh') ∧ shard_inv sh' ∧ evicts vs g sh g' sh' ∧
    needed cap vs (cores sh) ∧ (current_bytes sh' <= cap ∨ ∀ n k e, cores sh' !! n = Some (k, e) → isTombstone e = true) ∧
    (∀ m, is_Some (cores sh' !! m) → freq_at sh' m = freq_at sh m) ∧
    ∀ m k e n fm, cores sh' !! m = Some (k, e) → isTombstone e = false → n ∈ vs.*1 → freq_at sh m = Some fm →
      ∃ fn, freq_at sh n = Some fn ∧ fn <= fm.
Proof.
  intros [Hi Hp]. destruct (evictIfNeeded_spec cap _ _ g sh Hi Hp) as (vs & g' & sh' & E & Hi' & Hp' & Hev & Hneed & Hb).
  destruct (lfu_loop_order _ _ _ _ _ _ _ Hi Hp E) as (Hsub & Hkeep & Hord). exists vs, g', sh'. split_and!; try done.
  - split; [|done]. by rewrite (ev_tick _ _ _ _ _ Hev).
  - intros m k e n fm Hm Hlive Hn Hfm. apply (Hord m k e n fm Hm Hlive); [| |done].
    + apply list_elem_of_fmap in Hn as ([n' x] & -> & Hin). destruct (ev_victims _ _ _ _ _ Hev _ _ Hin) as [Hx _]. by exists x.
    + by rewrite (ev_cores _ _ _ _ _ Hev), without_lookup, decide_True.
Qed.

(** Restoring a frequency never lowers one, and keeps the buckets in order. *)
Lemma restoreFreqShard_spec k f g (sh : LfuShard) :
  shard_inv sh →
  ∃ sh', restoreFreqShard k f (g, sh) = Some ((), (g, sh')) ∧ shard_inv sh' ∧ cores sh' = cores sh ∧
    ∀ n f0, index sh !! k = Some n → freq_at sh n = Some f0 → freq_at sh' n = Some (Z.max f0 f).
Proof.
  intros Hinv. pose proof Hinv as [Hi Hp]. unfold restoreFreqShard. cbn [snd fst]. destruct (index sh !! k) as [n|] eqn:Ex; [|by exists sh].
  pose proof (proj1 (bi_index _ _ _ _ Hi k n) Ex) as [e Hn]. pose proof Hn as (nd & End & _ & _)%cores_Some. rewrite End. cbn [mbind option_bind].
  destruct (n_policy nd) as [f0 i] eqn:Ep. cbn [freq].
  assert (policies sh !! n = Some (mkFreq f0 i)) as Hpn by (by rewrite policies_lookup, End, <- Ep).
  destruct (Z.geb_spec f0 f) as [Hge|Hlt].
  { exists sh. split_and!; try done. intros n' f0' [= <-]. unfold freq_at. rewrite Hpn. intros [= <-]. by rewrite Z.max_l. }
  destruct (removeFromFreqBucket_spec (policies sh) n f0 i sh) as (sh1 & -> & Hrl & Hok & Hn1 & _); [done..|by rewrite Hpn|].
  cbn [mbind option_bind]. destruct (pushBucket_spec n f sh1 Hok) as (Hrl2 & Hok2 & Hn2); [by rewrite Hn1, Hpn|].
  pose proof (relabelled_trans _ _ _ Hrl Hrl2) as [Hsc _]. eexists. split; [done|]. split_and!.
  - split; [|done]. rewrite (sc_wheel _ _ Hsc). by apply (base_same _ _ _ sh).
  - apply (sc_cores _ _ Hsc).
  - intros n' f0' [= <-]. unfold freq_at. rewrite Hpn, Hn2. simpl. intros [= <-]. f_equal. lia.
Qed.

Definition demo_lfu_shard : LfuShard :=
  (put_all demo_clock 65536 [(lit "a", demo_entry "1" 3); (lit "b", demo_entry "2" 4); (lit "c", demo_entry "3" 5);
    (lit "b", demo_entry "4" 6)] (demo_glob, emptyShard 0)).2.

Lemma demo_lfu_shard_inv : shard_inv demo_lfu_shard.
Proof. apply put_all_inv; [apply emptyShard_inv|]. repeat constructor; apply demo_entry_wf. Qed.

Lemma lfu_evicts_rarest_witness :
  option_map (λ s : Glob * LfuShard, fst <$> map_to_list (index s.2)) (evictIfNeeded 150 (demo_glob, demo_lfu_shard)) = Some [lit "b"] ∧
  ∃ vs g' sh', evictIfNeeded 150 (demo_glob, demo_lfu_shard) = Some (g', sh') ∧ shard_inv sh' ∧
    evicts vs demo_glob demo_lfu_shard g' sh' ∧ needed 150 vs (cores demo_lfu_shard) ∧ (∀ m, is_Some (cores sh' !! m) → freq_at sh' m = freq_at demo_lfu_shard m).
Proof.
  split; [vm_compute; reflexivity|].
  destruct (lfu_evicts_rarest 150 demo_glob demo_lfu_shard demo_lfu_shard_inv) as (vs & g' & sh' & E & Hs & Hev & Hneed & _ & Hl & _).
  exists vs, g', sh'. split_and!; assumption.
Defined.
