(* ===== verification/StoreSpec.v ===== *)
(** * The store's contract

    The theorems a user of the store relies on, for any eviction policy that
    obeys [PolicyLaws]: its invariant, last-writer-wins writes, reads, expiry,
    the mutation feed and the log.  [lookup_store] is the map from keys to
    entries that the shards implement together. *)

From S2P Require Import Prelude Types Bytes Clock Wal WheelHeap TtlWheel Store StoreFacts LruStore LfuStore.
Import EntryFacts LwwFacts.
Local Open Scope Z_scope.

Section spec.
Context {PN PS : Type} `{PolicyLaws PN PS}.
Context (hash : bytes → Z).
Implicit Types (sh : Shard PN PS) (g : Glob) (s : Store PN PS).

Definition lookup_store s (k : bytes) : option VersionedEntry := sh ← shards s !! shardFor hash k s; entry_at sh k.

(** Within the capacity, or nothing is left to evict. *)
Definition bounded (cap : Z) sh : Prop :=
  current_bytes sh <= cap ∨ ∀ k e, entry_at sh k = Some e → isTombstone e = true.

Record store_inv s : Prop := mkStoreInv {
  si_some : shards s ≠ [];
  si_shard : ∀ i sh, shards s !! i = Some sh → shard_inv sh;
  si_route : ∀ i sh k e, shards s !! i = Some sh → entry_at sh k = Some e → shardFor hash k s = i;
  si_entry : ∀ i sh k e, shards s !! i = Some sh → entry_at sh k = Some e → Entry.wf e ∧ version e < next_version (glob s);
  si_bound : ∀ i sh, shards s !! i = Some sh → bounded (shardCapacity s) sh }.

(** ** Entries of a shard *)

Lemma entry_at_cores lo X d sh k e :
  base_inv lo X d sh → entry_at sh k = Some e ↔ ∃ n, cores sh !! n = Some (k, e).
Proof.
  intros Hi. rewrite (entry_at_Some _ _ _ _ _ _ Hi). split; [intros (n & _ & ?); eauto|].
  intros (n & Hn). exists n. split; [|done]. apply (bi_index _ _ _ _ Hi). eauto.
Qed.

(** A key is as before, or it was live and is gone. *)
Definition kept_or_evicted (before after : option VersionedEntry) : Prop :=
  after = before ∨ after = None ∧ ∃ e, before = Some e ∧ isTombstone e = false.

Lemma without_entries sh sh' lo X d lo' X' d' (vs : list Victim) k :
  base_inv lo X d sh → base_inv lo' X' d' sh' → cores sh' = without vs (cores sh) →
  (∀ n x, (n, x) ∈ vs → cores sh !! n = Some x) →
  entry_at sh' k = entry_at sh k ∨ entry_at sh' k = None ∧ ∃ n e, (n, (k, e)) ∈ vs ∧ entry_at sh k = Some e.
Proof.
  intros Hi Hi' Hc Hv. destruct (entry_at sh k) as [e|] eqn:E.
  - pose proof E as (n & Hn)%(entry_at_cores _ _ _ _ _ _ Hi). destruct (decide (n ∈ vs.*1)) as [Hin|Hnin].
    + right. apply list_elem_of_fmap in Hin as ([m x] & -> & Hin). pose proof (Hv m x Hin) as Hm. cbn [fst] in Hn.
      rewrite Hn in Hm. injection Hm as <-. split; [|eauto]. destruct (entry_at sh' k) as [e'|] eqn:E'; [|done].
      apply (entry_at_cores _ _ _ _ _ _ Hi') in E' as (n' & Hn'). rewrite Hc, without_lookup in Hn'.
      case_decide as Hd; [done|]. exfalso. apply Hd. rewrite (key_address _ _ _ _ _ _ _ _ _ Hi Hn' Hn).
      apply list_elem_of_fmap. by exists (m, (k, e)).
    + left. apply (entry_at_cores _ _ _ _ _ _ Hi'). exists n. by rewrite Hc, without_lookup, decide_False.
  - left. destruct (entry_at sh' k) as [e'|] eqn:E'; [|done].
    apply (entry_at_cores _ _ _ _ _ _ Hi') in E' as (n' & Hn'). rewrite Hc, without_lookup in Hn'. case_decide; [done|].
    assert (entry_at sh k = Some e') by (apply (entry_at_cores _ _ _ _ _ _ Hi); eauto). congruence.
Qed.

Lemma bounded_cores lo X d cap sh :
  base_inv lo X d sh →
  (current_bytes sh <= cap ∨ ∀ n k e, cores sh !! n = Some (k, e) → isTombstone e = true) → bounded cap sh.
Proof.
  intros Hi [|Ht]; [by left|]. right. intros k e (n & Hn)%(entry_at_cores _ _ _ _ _ _ Hi). by eapply Ht.
Qed.

Lemma evicts_entries vs g sh g' sh' k :
  shard_inv sh → shard_inv sh' → evicts vs g sh g' sh' → kept_or_evicted (entry_at sh k) (entry_at sh' k).
Proof.
  intros [Hi _] [Hi' _] Hev.
  destruct (without_entries sh sh' _ _ _ _ _ _ vs k Hi Hi' (ev_cores _ _ _ _ _ Hev)) as [|(He & n & e & Hin & Hk)].
  - intros n x Hin. by apply (ev_victims _ _ _ _ _ Hev).
  - by left.
  - right. split; [done|]. exists e. split; [done|]. apply (ev_victims _ _ _ _ _ Hev _ _ Hin).
Qed.

(** What a write makes of the entries of a shard, before eviction. *)
Definition written_at (old : bytes → option VersionedEntry) (k : bytes) (e : VersionedEntry) (k' : bytes) : option VersionedEntry :=
  if decide (k' = k) then Some e else old k'.

(** The shard with the new entry, before eviction: a map by keys. *)
Lemma accepted_keys c cap k e old vs n g sh g' sh' k' x :
  shard_inv sh → accepted c cap k e old vs n g sh g' sh' → entry_at sh k = old →
  written_at (entry_at sh) k e k' = Some x ↔ ∃ m, <[n := (k, e)]> (cores sh) !! m = Some (k', x).
Proof.
  intros [Hi _] Ha Hold. pose proof (ac_addr _ _ _ _ _ _ _ _ _ _ _ Ha) as Haddr. unfold written_at. case_decide as Hk; [subst k'|].
  - split; [intros [= ->]; exists n; by rewrite lookup_insert_eq|]. intros (m & Hm). rewrite lookup_insert in Hm.
    case_decide as Hmn; [by injection Hm as <-|]. exfalso. pose proof (proj2 (entry_at_cores _ _ _ _ _ _ Hi) (ex_intro _ m Hm)) as Hx.
    rewrite Hold in Hx. rewrite Hx in Haddr. simpl in Haddr. by rewrite (key_address _ _ _ _ _ _ _ _ _ Hi Hm Haddr) in Hmn.
  - rewrite (entry_at_cores _ _ _ _ _ _ Hi). split; intros (m & Hm); exists m.
    + rewrite lookup_insert_ne; [done|]. intros ->. rewrite Haddr in Hm. destruct old; simpl in Hm; congruence.
    + rewrite lookup_insert in Hm. case_decide; [congruence|done].
Qed.

Lemma accepted_address c cap k e old vs n g sh g' sh' m m' k' x x' :
  shard_inv sh → accepted c cap k e old vs n g sh g' sh' → entry_at sh k = old →
  <[n := (k, e)]> (cores sh) !! m = Some (k', x) → <[n := (k, e)]> (cores sh) !! m' = Some (k', x') → m = m'.
Proof.
  intros Hinv Ha Hold Hm Hm'. pose proof Hinv as [Hi _]. pose proof (ac_addr _ _ _ _ _ _ _ _ _ _ _ Ha) as Haddr.
  assert (∀ m k' x, k' = k → <[n := (k, e)]> (cores sh) !! m = Some (k', x) → m = n) as Hhome.
  { intros m0 ? x0 -> Hm0. rewrite lookup_insert in Hm0. case_decide as Hd; [done|]. destruct Hd. symmetry.
    pose proof (proj2 (entry_at_cores _ _ _ _ _ _ Hi) (ex_intro _ m0 Hm0)) as Hx. rewrite Hold in Hx. rewrite Hx in Haddr.
    exact (key_address _ _ _ _ _ _ _ _ _ Hi Hm0 Haddr). }
  destruct (decide (k' = k)) as [Hk|Hk]; [rewrite (Hhome m k' x Hk Hm); symmetry; by apply (Hhome m' k' x')|].
  rewrite lookup_insert in Hm, Hm'. repeat case_decide; try congruence. by apply (key_address _ _ _ _ _ _ _ _ _ Hi Hm Hm').
Qed.

(** The entries after the eviction. *)
Lemma accepted_entries c cap k e old vs n g sh g' sh' :
  shard_inv sh → shard_inv sh' → accepted c cap k e old vs n g sh g' sh' → entry_at sh k = old →
  (∀ k', entry_at sh' k' = if decide (k' ∈ vs.*2.*1) then None else written_at (entry_at sh) k e k') ∧
  (n ∈ vs.*1 ↔ k ∈ vs.*2.*1) ∧ NoDup vs.*2.*1 ∧
  ∀ k' x, (k', x) ∈ vs.*2 → written_at (entry_at sh) k e k' = Some x ∧ isTombstone x = false.
Proof.
  intros Hinv Hinv' Ha Hold. pose proof (ac_victims _ _ _ _ _ _ _ _ _ _ _ Ha) as Hv. pose proof (proj1 Hinv') as Hi'.
  pose proof (λ m m' k' x x', accepted_address _ _ _ _ _ _ _ _ _ _ _ m m' k' x x' Hinv Ha Hold) as Haddr.
  pose proof (λ k' x, accepted_keys _ _ _ _ _ _ _ _ _ _ _ k' x Hinv Ha Hold) as Hkeys.
  assert (∀ k', k' ∈ vs.*2.*1 ↔ ∃ m x, (m, (k', x)) ∈ vs) as Hin.
  { intros k'. split.
    - intros ([k1 x] & -> & ([m y] & -> & Hin)%list_elem_of_fmap)%list_elem_of_fmap. simpl. destruct y. eauto.
    - intros (m & x & Hin). apply list_elem_of_fmap. exists (k', x). split; [done|]. apply list_elem_of_fmap. by exists (m, (k', x)). }
  assert (∀ m k' x, <[n := (k, e)]> (cores sh) !! m = Some (k', x) → m ∈ vs.*1 ↔ k' ∈ vs.*2.*1) as Hvs.
  { intros m k' x Hm. rewrite Hin. split.
    - intros ([m1 y] & -> & Hin')%list_elem_of_fmap. destruct (Hv _ _ Hin') as [Hy _]. simpl in Hm. rewrite Hm in Hy. injection Hy as <-. eauto.
    - intros (m1 & x1 & Hin'). destruct (Hv _ _ Hin') as [Hy _]. rewrite (Haddr _ _ _ _ _ Hm Hy). apply list_elem_of_fmap. by exists (m1, (k', x1)). }
  split_and!.
  - intros k'. apply option_eq. intros x. rewrite (entry_at_cores _ _ _ _ _ _ Hi'), (ac_cores _ _ _ _ _ _ _ _ _ _ _ Ha). split.
    + intros (m & Hm). rewrite without_lookup in Hm. case_decide as Hd; [done|]. rewrite (Hvs m k' x Hm) in Hd. rewrite decide_False by done.
      apply Hkeys. eauto.
    + case_decide as Hd; [done|]. intros (m & Hm)%Hkeys. exists m. rewrite <- (Hvs m k' x Hm) in Hd. by rewrite without_lookup, decide_False.
  - apply (Hvs n k e). by rewrite lookup_insert_eq.
  - rewrite <- list_fmap_compose. apply NoDup_fmap_2_strong.
    + intros [m1 [k1 x1]] [m2 [k2 x2]] H1 H2 [= <-]. destruct (Hv _ _ H1) as [E1 _], (Hv _ _ H2) as [E2 _].
      pose proof (Haddr _ _ _ _ _ E1 E2) as <-. congruence.
    + eapply NoDup_fmap_1, Ha.
  - intros k' x ([m y] & E & Hin')%list_elem_of_fmap. simpl in E. subst y. destruct (Hv _ _ Hin') as [Hy Ht]. split; [|done]. apply Hkeys. eauto.
Qed.

Definition sizes (xs : list (bytes * VersionedEntry)) : Z := foldr (λ x a, coreSize x + a) 0 xs.

Lemma bytes_without (vs : list Victim) cs :
  NoDup vs.*1 → (∀ m x, (m, x) ∈ vs → cs !! m = Some x) → bytes_of (without vs cs) = bytes_of cs - sizes vs.*2.
Proof.
  revert cs. induction vs as [|[m x] vs IH]; intros cs Hnd Hv; [simpl; unfold sizes; simpl; lia|].
  rewrite fmap_cons in Hnd. apply NoDup_cons in Hnd as [Hm Hnd]. change (without ((m, x) :: vs) cs) with (without vs (delete m cs)).
  rewrite (IH (delete m cs)); [|done|].
  - rewrite (bytes_of_delete cs m x) by (apply Hv; by left). cbn [fmap list_fmap sizes foldr snd]. fold (sizes vs.*2). lia.
  - intros m' x' Hin. rewrite lookup_delete_ne; [apply Hv; by right|]. intros ->. apply Hm. apply list_elem_of_fmap. by exists (m', x').
Qed.

(** ** From shards to the store *)

Lemma shardFor_lt k s : shards s ≠ [] → (shardFor hash k s < length (shards s))%nat.
Proof.
  intros Hne. unfold shardFor. destruct (shards s) as [|sh shs]; [done|].
  pose proof (Z.mod_pos_bound (hash k) (Z.of_nat (length (sh :: shs)))). simpl in *. lia.
Qed.

Lemma home_shard k s : store_inv s → ∃ sh, shards s !! shardFor hash k s = Some sh ∧ shard_inv sh ∧ lookup_store s k = entry_at sh k.
Proof.
  intros Hs. destruct (lookup_lt_is_Some_2 (shards s) (shardFor hash k s)) as [sh E]; [by apply shardFor_lt, Hs|].
  exists sh. split; [done|]. split; [by eapply si_shard|]. unfold lookup_store. by rewrite E.
Qed.

Lemma shardFor_insert k i sh g s : shardFor hash k (mkStore g (<[i := sh]> (shards s))) = shardFor hash k s.
Proof. unfold shardFor. simpl. by rewrite length_insert. Qed.

(** A shard was replaced by one whose entries were there, or are the key's. *)
Lemma update_store s k sh g' sh' :
  store_inv s → shards s !! shardFor hash k s = Some sh → shard_inv sh' → capacity_bytes g' = capacity_bytes (glob s) →
  next_version (glob s) <= next_version g' →
  (∀ k' e, entry_at sh' k' = Some e → entry_at sh k' = Some e ∨ k' = k ∧ Entry.wf e ∧ version e < next_version g') →
  bounded (shardCapacity s) sh' →
  let s' := mkStore g' (<[shardFor hash k s := sh']> (shards s)) in
  store_inv s' ∧ ∀ k', lookup_store s' k' = if decide (shardFor hash k' s = shardFor hash k s) then entry_at sh' k' else lookup_store s k'.
Proof.
  intros Hs Hsh Hinv Hcap Hver Hent Hb s'.
  pose proof (lookup_lt_Some _ _ _ Hsh) as Hlt.
  assert (∀ i sh1, shards s' !! i = Some sh1 → (i = shardFor hash k s ∧ sh1 = sh') ∨ (i ≠ shardFor hash k s ∧ shards s !! i = Some sh1)) as Hcase.
  { intros i sh1 Hi. simpl in Hi. destruct (decide (i = shardFor hash k s)) as [->|Hne].
    - rewrite list_lookup_insert_eq in Hi by done. injection Hi as <-. by left.
    - rewrite list_lookup_insert_ne in Hi by done. by right. }
  split; [split|].
  - intros E. apply (f_equal length) in E. simpl in E. rewrite length_insert in E. lia.
  - intros i sh1 [[-> ->]|[_ Hi]]%Hcase; [done|]. by apply (si_shard s Hs i).
  - intros i sh1 k' e Hi He. unfold s'. rewrite shardFor_insert. destruct (Hcase i sh1 Hi) as [[-> ->]|[_ Hi']].
    + destruct (Hent k' e He) as [He'|[-> _]]; [|done]. by apply (si_route s Hs _ sh k' e).
    + by apply (si_route s Hs i sh1 k' e).
  - intros i sh1 k' e Hi He. simpl. destruct (Hcase i sh1 Hi) as [[-> ->]|[_ Hi']].
    + destruct (Hent k' e He) as [He'|[-> ?]]; [|done]. destruct (si_entry s Hs _ sh k' e Hsh He'). split; [done|lia].
    + destruct (si_entry s Hs i sh1 k' e Hi' He). split; [done|lia].
  - intros i sh1 Hi. assert (shardCapacity s' = shardCapacity s) as ->.
    { unfold shardCapacity. simpl. by rewrite Hcap, length_insert. }
    destruct (Hcase i sh1 Hi) as [[-> ->]|[_ Hi']]; [done|]. by apply (si_bound s Hs i).
  - intros k'. unfold lookup_store. assert (shardFor hash k' s' = shardFor hash k' s) as -> by apply shardFor_insert. simpl.
    case_decide as Hd; [rewrite Hd, list_lookup_insert_eq by done; done|]. by rewrite list_lookup_insert_ne.
Qed.

Lemma same_store s k sh : shards s !! shardFor hash k s = Some sh → mkStore (glob s) (<[shardFor hash k s := sh]> (shards s)) = s.
Proof. intros E. rewrite list_insert_id by done. by destruct s. Qed.

Lemma put_bound_entry cap k e sh :
  shard_inv sh → bounded cap sh → entry_at sh k = Some e → isTombstone e = false → coreSize (k, e) <= cap.
Proof.
  intros [Hi _] [Hb|Ht] He Hlive; [|by rewrite (Ht k e He) in Hlive].
  apply (entry_at_cores _ _ _ _ _ _ Hi) in He as (n & Hn). rewrite (bi_bytes _ _ _ _ Hi), Z.add_0_r in Hb.
  pose proof (bytes_of_delete _ _ _ Hn) as Hd. pose proof (bytes_of_nonneg (delete n (cores sh))). lia.
Qed.

(** ** Writes *)

(** The bytes of the shard a key belongs to, now and once [e] is written. *)
Definition home_bytes s (k : bytes) : Z := from_option current_bytes 0 (shards s !! shardFor hash k s).

Definition load_after s (k : bytes) (e : VersionedEntry) : Z :=
  home_bytes s k - from_option (λ old, coreSize (k, old)) 0 (lookup_store s k) + coreSize (k, e).

(** A write of [e] at [k] was accepted, and the entries [gone] were evicted, in
    this order: live entries of the key's shard, each while the shard was over
    its capacity, until it no longer was or only tombstones were left. *)
Record made_room (c : Clock) (k : bytes) (e : VersionedEntry) (gone : list (bytes * VersionedEntry)) s s' : Prop := mkMadeRoom {
  mr_fresh : ∀ old, lookup_store s k = Some old → compareLww (stampOf e) (stampOf old) ≠ Less;
  mr_fits : lookup_store s k = None → coreSize (k, e) <= shardCapacity s;
  mr_lookup : ∀ k', lookup_store s' k' = if decide (k' ∈ gone.*1) then None else written_at (lookup_store s) k e k';
  mr_gone : ∀ k' x, (k', x) ∈ gone →
    shardFor hash k' s = shardFor hash k s ∧ written_at (lookup_store s) k e k' = Some x ∧ isTombstone x = false;
  mr_nodup : NoDup gone.*1;
  mr_needed : ∀ before x rest, gone = before ++ x :: rest → shardCapacity s < load_after s k e - sizes before;
  mr_load : home_bytes s' k = load_after s k e - sizes gone;
  mr_enough : home_bytes s' k <= shardCapacity s ∨
    ∀ k' x, shardFor hash k' s = shardFor hash k s → lookup_store s' k' = Some x → isTombstone x = true;
  mr_log : persistence (glob s') =
    if decide (k ∈ gone.*1) then persistence (glob s) else (λ l, l ++ [walRecord c k e]) <$> persistence (glob s);
  mr_version : next_version (glob s') = Z.max (next_version (glob s)) (version e + 1);
  mr_capacity : shardCapacity s' = shardCapacity s }.

(** How a write of [e] at [k] ends. *)
Inductive put_outcome (c : Clock) (k : bytes) (e : VersionedEntry) s : Result () → Store PN PS → Prop :=
  | put_stale old :
      lookup_store s k = Some old → compareLww (stampOf e) (stampOf old) = Less → put_outcome c k e s (Ok ()) s
  | put_too_large :
      lookup_store s k = None → shardCapacity s < coreSize (k, e) → put_outcome c k e s (Err err_capacity) s
  | put_accepted gone s' : made_room c k e gone s s' → put_outcome c k e s (Ok ()) s'.

Lemma accepted_load c k e old vs n s sh g' sh' :
  shards s !! shardFor hash k s = Some sh → shard_inv sh → entry_at sh k = old →
  accepted c (shardCapacity s) k e old vs n (glob s) sh g' sh' →
  ∀ vs1 vs2, vs = vs1 ++ vs2 → bytes_of (without vs1 (<[n := (k, e)]> (cores sh))) = load_after s k e - sizes vs1.*2.
Proof.
  intros Hsh [Hi _] Hold Ha vs1 vs2 ->. rewrite bytes_without.
  - unfold load_after, home_bytes, lookup_store. rewrite Hsh. cbn [mbind option_bind from_option]. rewrite (bi_bytes _ _ _ _ Hi), bytes_of_insert.
    rewrite (ac_addr _ _ _ _ _ _ _ _ _ _ _ Ha), Hold. destruct old; cbn [fmap option_fmap option_map from_option]; lia.
  - pose proof (ac_nodup _ _ _ _ _ _ _ _ _ _ _ Ha) as Hnd. rewrite fmap_app in Hnd. by apply NoDup_app in Hnd as [? _].
  - intros m x Hin. apply (ac_victims _ _ _ _ _ _ _ _ _ _ _ Ha). apply elem_of_app. by left.
Qed.

Lemma accepted_store c k e old vs n s sh g' sh' :
  store_inv s → Entry.wf e → shards s !! shardFor hash k s = Some sh → shard_inv sh' → entry_at sh k = old →
  (∀ o, old = Some o → compareLww (stampOf e) (stampOf o) ≠ Less) → (old = None → coreSize (k, e) <= shardCapacity s) →
  accepted c (shardCapacity s) k e old vs n (glob s) sh g' sh' →
  let s' := mkStore g' (<[shardFor hash k s := sh']> (shards s)) in
  store_inv s' ∧ made_room c k e vs.*2 s s'.
Proof.
  intros Hs Hwf Hsh Hinv' Hold Hlww Hfits Ha s'. pose proof (si_shard s Hs _ _ Hsh) as Hinv.
  destruct (accepted_entries _ _ _ _ _ _ _ _ _ _ _ Hinv Hinv' Ha Hold) as (Hent & Hn & Hnd & Hgone).
  pose proof (ac_version _ _ _ _ _ _ _ _ _ _ _ Ha) as Hv. pose proof (ac_capacity _ _ _ _ _ _ _ _ _ _ _ Ha) as Hcap.
  assert (∀ k', lookup_store s k' = Some e ∨ True → shardFor hash k' s = shardFor hash k s → lookup_store s k' = entry_at sh k') as Hl.
  { intros k' _ E. unfold lookup_store. by rewrite E, Hsh. }
  assert (∀ k', shardFor hash k' s = shardFor hash k s → written_at (lookup_store s) k e k' = written_at (entry_at sh) k e k') as Hw.
  { intros k' E. unfold written_at. case_decide; [done|]. apply Hl; [by right|done]. }
  assert (∀ k' x, (k', x) ∈ vs.*2 → shardFor hash k' s = shardFor hash k s) as Hhome.
  { intros k' x Hin. destruct (Hgone k' x Hin) as [Hx _]. unfold written_at in Hx. case_decide as Hk; [by rewrite Hk|]. by apply (si_route s Hs _ sh k' x). }
  destruct (update_store s k sh g' sh' Hs Hsh Hinv') as [Hs' Hl']; [done|lia| |by apply (bounded_cores _ _ _ _ _ (proj1 Hinv')), Ha|].
  { intros k' x Hx. rewrite Hent in Hx. case_decide; [done|]. unfold written_at in Hx. case_decide; [right|by left]. injection Hx as <-. split_and!; [done|done|lia]. }
  fold s' in Hl'. split; [exact Hs'|]. pose proof (accepted_load c k e old vs n s sh g' sh' Hsh Hinv Hold Ha) as Hload.
  assert (shardFor hash k s' = shardFor hash k s) as Hfor by apply shardFor_insert.
  assert (home_bytes s' k = current_bytes sh') as Hhb.
  { unfold home_bytes. rewrite Hfor. unfold s'. cbn [shards]. by rewrite list_lookup_insert_eq by (by eapply lookup_lt_Some). }
  split.
  - intros o Eo. apply Hlww. rewrite <- Eo, <- Hold. symmetry. apply Hl; [by right|done].
  - intros Eo. apply Hfits. rewrite <- Eo, <- Hold. symmetry. apply Hl; [by right|done].
  - intros k'. rewrite Hl'. case_decide as Hd.
    + rewrite Hent. case_decide; [done|]. symmetry. by apply Hw.
    + rewrite decide_False.
      * unfold written_at. rewrite decide_False; [done|]. by intros ->.
      * intros ([k1 x] & -> & Hin)%list_elem_of_fmap. by apply Hd, (Hhome k1 x).
  - intros k' x Hin. split; [by eapply Hhome|]. rewrite Hw by (by eapply Hhome). by apply Hgone.
  - exact Hnd.
  - intros before x rest E. apply fmap_app_inv in E as (vs1 & vs2 & -> & E2 & ->). symmetry in E2. apply fmap_cons_inv in E2 as (v & vs3 & -> & _ & ->).
    rewrite <- (Hload vs1 (v :: vs3) eq_refl). by apply (ac_needed _ _ _ _ _ _ _ _ _ _ _ Ha vs1 v vs3).
  - rewrite Hhb, (bi_bytes _ _ _ _ (proj1 Hinv')), (ac_cores _ _ _ _ _ _ _ _ _ _ _ Ha), Z.add_0_r. apply (Hload vs []). by rewrite app_nil_r.
  - rewrite Hhb. destruct (ac_bound _ _ _ _ _ _ _ _ _ _ _ Ha) as [|Ht]; [by left|]. right. intros k' x E Hx.
    rewrite Hl', decide_True in Hx by done. apply (entry_at_cores _ _ _ _ _ _ (proj1 Hinv')) in Hx as (m & Hm). by eapply Ht.
  - rewrite (decide_ext (k ∈ vs.*2.*1) (n ∈ vs.*1)) by (by rewrite Hn). apply Ha.
  - exact Hv.
  - unfold s', shardCapacity. cbn [shards glob]. by rewrite Hcap, length_insert.
Qed.

Lemma putVersionedAt_spec c k e at_ s :
  store_inv s → Entry.wf e →
  ∃ r s', putVersionedAt hash c k e at_ s = Some (r, s') ∧ store_inv s' ∧ put_outcome c k e s r s'.
Proof.
  intros Hs Hwf. destruct (home_shard k s Hs) as (sh & Hsh & Hinv & Hl). unfold putVersionedAt, on_shard. rewrite Hsh. cbn [mbind option_bind].
  destruct (putShard_spec c (shardCapacity s) k e at_ (glob s) sh Hinv Hwf) as (r & g' & sh' & -> & Hinv' & Hcase).
  cbn [mbind option_bind]. exists r, (mkStore g' (<[shardFor hash k s := sh']> (shards s))). split; [done|].
  destruct (entry_at sh k) as [old|] eqn:Ek.
  - destruct Hcase as [-> [(Hless & -> & ->)|(Hn & vs & n & Ha)]].
    + rewrite same_store by done. split; [done|]. by apply (put_stale _ _ _ _ old).
    + destruct (accepted_store c k e (Some old) vs n s sh g' sh') as [Hs' Hm]; try done; [by intros o [= <-]|]. split; [done|]. by eapply put_accepted.
  - destruct Hcase as [(Hlt & -> & -> & ->)|(Hle & -> & vs & n & Ha)].
    + rewrite same_store by done. split; [done|]. by apply put_too_large.
    + destruct (accepted_store c k e None vs n s sh g' sh') as [Hs' Hm]; try done. split; [done|]. by eapply put_accepted.
Qed.

(** Every version that was accepted is below the clock, so a version taken
    from it is accepted. *)
Lemma fresh_stamp e old : version old < version e → compareLww (stampOf e) (stampOf old) ≠ Less.
Proof. intros Hv. rewrite compareLww_Less. unfold lww_lt. simpl. lia. Qed.

(** ** Reads and removals *)

Lemma read_store k gone s sh g1 g' sh' :
  store_inv s → shards s !! shardFor hash k s = Some sh → shard_inv sh' → read_effect k gone g1 sh g' sh' →
  capacity_bytes g1 = capacity_bytes (glob s) → next_version g1 = next_version (glob s) →
  let s' := mkStore g' (<[shardFor hash k s := sh']> (shards s)) in
  store_inv s' ∧ ∀ k', lookup_store s' k' = if decide (k' = k ∧ is_Some gone) then None else lookup_store s k'.
Proof.
  intros Hs Hsh Hinv' Hre Hcap Hver s'. pose proof (re_entries _ _ _ _ _ _ Hre) as He. destruct (re_glob _ _ _ _ _ _ Hre) as [Hg1 Hg2 _ _].
  destruct (update_store s k sh g' sh' Hs Hsh Hinv') as [Hs' Hl'].
  - congruence.
  - rewrite Hg2, Hver. lia.
  - intros k' e Hk. left. rewrite He in Hk. by case_decide.
  - destruct (si_bound s Hs _ _ Hsh) as [Hb|Ht]; [left; pose proof (re_bytes _ _ _ _ _ _ Hre); lia|].
    right. intros k' e Hk. rewrite He in Hk. case_decide; [done|]. by apply (Ht k').
  - split; [exact Hs'|]. intros k'. unfold s'. rewrite Hl'. destruct (decide (shardFor hash k' s = shardFor hash k s)) as [Hd|].
    + rewrite He. case_decide; [done|]. unfold lookup_store. by rewrite Hd, Hsh.
    + rewrite decide_False; [done|]. by intros [-> _].
Qed.

(** ** Sweeps over all shards *)

Lemma sweep_spec (Q : nat → Glob → Shard PN PS → Glob → Shard PN PS → nat → Prop) (R : Glob → Glob → Prop) f :
  (∀ g, R g g) → (∀ g1 g2 g3, R g1 g2 → R g2 g3 → R g1 g3) →
  ∀ shs g ev,
  (∀ i sh g0 ev0, shs !! i = Some sh → R g g0 →
    ∃ g' sh' d, f ((g0, sh), ev0) = Some ((g', sh'), (ev0 + d)%nat) ∧ R g0 g' ∧ Q i g0 sh g' sh' d) →
  ∃ g' shs' ev', sweep f g ev shs = Some (g', ev', shs') ∧ R g g' ∧ length shs' = length shs ∧
    ∀ i sh', shs' !! i = Some sh' → ∃ sh g0 g1 d, shs !! i = Some sh ∧ R g g0 ∧ R g1 g' ∧ Q i g0 sh g1 sh' d.
Proof.
  intros Hrefl Htrans shs. revert Q. induction shs as [|sh shs IH]; intros Q g ev Hf; cbn [sweep].
  { exists g, [], ev. split_and!; try done. }
  destruct (Hf 0%nat sh g ev) as (g1 & sh1 & d & -> & HR & HQ); [done..|]. cbn [mbind option_bind].
  destruct (IH (λ i, Q (S i)) g1 (ev + d)%nat) as (g2 & shs2 & ev2 & -> & HR2 & Hlen & Hall).
  { intros i sh0 g0 ev0 Hi HR0. apply (Hf (S i)); [done|]. by eapply Htrans. }
  cbn [mbind option_bind]. exists g2, (sh1 :: shs2), ev2. split; [done|]. split; [by eapply Htrans|]. split; [simpl; lia|].
  intros [|i] sh' Hi; simpl in Hi.
  - injection Hi as <-. by exists sh, g, g1, d.
  - destruct (Hall i sh' Hi) as (sh0 & g0 & g3 & d' & H1 & H2 & H3 & H4). exists sh0, g0, g3, d'. split_and!; try done. by eapply Htrans.
Qed.

(** The shards were replaced by ones with fewer entries. *)
Lemma shrink_store s g' shs' :
  store_inv s → next_version g' = next_version (glob s) → length shs' = length (shards s) →
  (∀ i sh', shs' !! i = Some sh' → ∃ sh, shards s !! i = Some sh ∧ shard_inv sh' ∧
    bounded (shardCapacity (mkStore g' shs')) sh' ∧ ∀ k e, entry_at sh' k = Some e → entry_at sh k = Some e) →
  store_inv (mkStore g' shs') ∧
  ∀ k, ∃ sh sh', shards s !! shardFor hash k s = Some sh ∧ shs' !! shardFor hash k s = Some sh' ∧
    lookup_store s k = entry_at sh k ∧ lookup_store (mkStore g' shs') k = entry_at sh' k.
Proof.
  intros Hs Hv Hlen Hall.
  assert (∀ k, shardFor hash k (mkStore g' shs') = shardFor hash k s) as Hfor by (intros k; unfold shardFor; simpl; by rewrite Hlen).
  split; [split; simpl|].
  - intros ->. apply (si_some s Hs). by apply length_zero_iff_nil.
  - intros i sh' Hi. by destruct (Hall i sh' Hi) as (sh & _ & ? & _).
  - intros i sh' k e Hi He. destruct (Hall i sh' Hi) as (sh & Hsh & _ & _ & Hsub). rewrite Hfor. by eapply si_route, Hsub.
  - intros i sh' k e Hi He. destruct (Hall i sh' Hi) as (sh & Hsh & _ & _ & Hsub). rewrite Hv. by eapply si_entry, Hsub.
  - intros i sh' Hi. by destruct (Hall i sh' Hi) as (sh & _ & _ & ? & _).
  - intros k. destruct (home_shard k s Hs) as (sh & Hsh & _ & Hl).
    destruct (lookup_lt_is_Some_2 shs' (shardFor hash k s)) as [sh' Hsh']; [rewrite Hlen; by apply shardFor_lt, Hs|].
    exists sh, sh'. split_and!; try done. unfold lookup_store. by rewrite Hfor; simpl; rewrite Hsh'.
Qed.

Lemma swept_entries current vs g sh g' sh' k :
  shard_inv sh → shard_inv sh' → swept current vs g sh g' sh' →
  entry_at sh' k = entry_at sh k ∨ entry_at sh' k = None ∧ ∃ e, entry_at sh k = Some e ∧ expired current e = true.
Proof.
  intros [Hi _] [Hi' _] Hsw.
  destruct (without_entries sh sh' _ _ _ _ _ _ vs k Hi Hi' (sw_cores _ _ _ _ _ _ Hsw)) as [|(He & n & e & Hin & Hk)].
  - intros n x Hin. by apply (sw_victims _ _ _ _ _ _ Hsw).
  - by left.
  - right. split; [done|]. exists e. split; [done|]. apply (sw_victims _ _ _ _ _ _ Hsw _ _ Hin).
Qed.

(** What a sweep owes: a tick per whole second since the last one, one at least. *)
Definition seconds_since (last current : Z) : Z := Z.max 1 ((current - last) / 1000000000).

Definition overdue_at (current : Z) sh (k : bytes) (e : VersionedEntry) : Prop :=
  expired current e = true ∧ ∃ n t, cores sh !! n = Some (k, e) ∧ due (wheel sh) n = Some t ∧
    t <= tick_count (wheel sh) + seconds_since (last_evict sh) current.

(** The time since the last sweep fits its 64 bits, and the ticks fit the
    counters of the wheels. *)
Definition may_sweep (c : Clock) s : bool :=
  forallb (λ sh, (- 2 ^ 63 <=? now c - last_evict sh) && (now c - last_evict sh <? 2 ^ 63) &&
    (tick_count (wheel sh) + seconds_since (last_evict sh) (now c) <=? max_ticks)) (shards s).

Lemma sweepTicks_seconds current last :
  - 2 ^ 63 <= current - last < 2 ^ 63 → Z.of_nat (sweepTicks current last) = seconds_since last current.
Proof.
  intros Hr. unfold sweepTicks, seconds_since. rewrite to_signed_small by lia.
  destruct (Z.ltb_spec ((current - last) / 1000000000) 1); lia.
Qed.

Lemma may_sweep_spec c s sh :
  may_sweep c s = true → sh ∈ shards s →
  Z.of_nat (sweepTicks (now c) (last_evict sh)) = seconds_since (last_evict sh) (now c) ∧
  tick_count (wheel sh) + seconds_since (last_evict sh) (now c) <= max_ticks.
Proof.
  intros Hm Hin. unfold may_sweep in Hm. rewrite forallb_forall in Hm. specialize (Hm sh). rewrite <- list_elem_of_In in Hm.
  specialize (Hm Hin). rewrite !andb_true_iff, !Z.leb_le, Z.ltb_lt in Hm. destruct Hm as [Hr Ht]. split; [by apply sweepTicks_seconds|done].
Qed.

Lemma evictExpired_spec c s :
  store_inv s → may_sweep c s = true →
  ∃ n s', evictExpired c s = Some (n, s') ∧ store_inv s' ∧ same_glob (glob s) (glob s') ∧
    (∀ k, lookup_store s' k = lookup_store s k ∨
      lookup_store s' k = None ∧ ∃ e, lookup_store s k = Some e ∧ expired (now c) e = true) ∧
    (∀ i sh k e, shards s !! i = Some sh → overdue_at (now c) sh k e → lookup_store s' k = None) ∧ length (shards s') = length (shards s) ∧
    ∀ i sh', shards s' !! i = Some sh' → ∃ sh, shards s !! i = Some sh ∧ current_bytes sh' <= current_bytes sh ∧
      tick_count (wheel sh') = tick_count (wheel sh) + seconds_since (last_evict sh) (now c) ∧ last_evict sh' = now c.
Proof.
  intros Hs Hmay. unfold evictExpired.
  destruct (sweep_spec (λ i g0 sh g1 sh' d, shard_inv sh' ∧ (current_bytes sh' <= current_bytes sh ∧
        tick_count (wheel sh') = tick_count (wheel sh) + seconds_since (last_evict sh) (now c) ∧ last_evict sh' = now c) ∧
      (∀ k, entry_at sh' k = entry_at sh k ∨ entry_at sh' k = None ∧ ∃ e, entry_at sh k = Some e ∧ expired (now c) e = true) ∧
      ∀ k e, overdue_at (now c) sh k e → entry_at sh' k = None) same_glob (evictShard (now c)) (λ g, mkSameGlob g g eq_refl eq_refl eq_refl eq_refl)
      same_glob_trans (shards s) (glob s) 0%nat) as (g' & shs' & ev' & -> & Hg & Hlen & Hall).
  { intros i sh g0 ev0 Hi _. pose proof (si_shard s Hs i sh Hi) as Hinv.
    destruct (may_sweep_spec c s sh Hmay (list_elem_of_lookup_2 _ _ _ Hi)) as [Hsec Hmax].
    destruct (evictShard_spec (now c) g0 sh ev0 Hinv) as (vs & g1 & sh1 & E & Hinv1 & Hlast & Hsw & Htick & Hdue); [lia|].
    rewrite Hsec in Htick, Hdue.
    assert (shard_inv (with_last (now c) sh)) as Hinv0 by (destruct Hinv as [[] ?]; by split).
    exists g1, sh1, (length vs). split; [done|]. split; [apply Hsw|]. split; [done|]. split; [split; [apply (sw_bytes _ _ _ _ _ _ Hsw)|done]|].
    split; [intros k; exact (swept_entries (now c) vs g0 (with_last (now c) sh) g1 sh1 k Hinv0 Hinv1 Hsw)|].
    intros k e (Hx & n & t & Hn & Hd & Ht). destruct (entry_at sh1 k) as [e1|] eqn:E1; [|done].
    apply (entry_at_cores _ _ _ _ _ _ (proj1 Hinv1)) in E1 as (m & Hm). rewrite (sw_cores _ _ _ _ _ _ Hsw), without_lookup in Hm.
    destruct (decide (m ∈ vs.*1)) as [|Hno]; [done|]. change (cores (with_last (now c) sh)) with (cores sh) in Hm.
    destruct Hno. rewrite (key_address _ _ _ _ _ _ _ _ _ (proj1 Hinv) Hm Hn). by eapply Hdue. }
  cbn [mbind option_bind]. exists ev', (mkStore g' shs'). split; [done|].
  destruct (shrink_store s g' shs' Hs) as [Hs' Hl]; [apply Hg|done| |].
  - intros i sh' Hi. destruct (Hall i sh' Hi) as (sh & _ & _ & _ & Hsh & _ & _ & Hinv & [Hb _] & Hent & _).
    assert (∀ k e, entry_at sh' k = Some e → entry_at sh k = Some e) as Hsub.
    { intros k e Hk. destruct (Hent k) as [E|[E _]]; congruence. }
    exists sh. split_and!; try done. unfold shardCapacity. simpl. rewrite (sg_capacity _ _ Hg), Hlen.
    destruct (si_bound s Hs i sh Hsh) as [Hle|Ht]; [left; unfold shardCapacity in Hle; lia|]. right. eauto.
  - split; [done|]. split; [done|]. split; [|split; [|split; [done|]]].
    + intros k. destruct (Hl k) as (sh & sh' & Hsh & Hsh' & -> & ->).
      destruct (Hall _ sh' Hsh') as (sh0 & _ & _ & _ & Hsh0 & _ & _ & _ & _ & Hent & _). rewrite Hsh in Hsh0. injection Hsh0 as <-. apply Hent.
    + intros i sh k e Hi Hod. assert (shardFor hash k s = i) as <-.
      { destruct Hod as (_ & n & t & Hn & _). apply (si_route s Hs i sh k e Hi).
        apply (entry_at_cores _ _ _ _ _ _ (proj1 (si_shard s Hs i sh Hi))). eauto. }
      destruct (Hl k) as (sh1 & sh' & Hsh & Hsh' & _ & ->). rewrite Hi in Hsh. injection Hsh as <-.
      destruct (Hall _ sh' Hsh') as (sh0 & _ & _ & _ & Hsh0 & _ & _ & _ & _ & _ & Hgone). rewrite Hi in Hsh0. injection Hsh0 as <-. by eapply Hgone.
    + intros i sh' Hi. destruct (Hall i sh' Hi) as (sh & _ & _ & _ & Hsh & _ & _ & _ & Hb & _). by exists sh.
Qed.

Lemma setCapacity_spec cap s :
  store_inv s →
  ∃ s', setCapacity cap s = Some s' ∧ store_inv s' ∧ capacity_bytes (glob s') = cap ∧ length (shards s') = length (shards s) ∧
    next_version (glob s') = next_version (glob s) ∧ (∀ k, kept_or_evicted (lookup_store s k) (lookup_store s' k)) ∧
    ∀ i sh', shards s' !! i = Some sh' → ∃ sh, shards s !! i = Some sh ∧
      tick_count (wheel sh') = tick_count (wheel sh) ∧ last_evict sh' = last_evict sh.
Proof.
  intros Hs. unfold setCapacity. set (cap' := cap / _). set (g0 := mkGlob cap _ _ _ _ _ _).
  destruct (sweep_spec (λ i g0 sh g1 sh' d, shard_inv sh' ∧ bounded cap' sh' ∧ (∀ k, kept_or_evicted (entry_at sh k) (entry_at sh' k)) ∧
      tick_count (wheel sh') = tick_count (wheel sh) ∧ last_evict sh' = last_evict sh)
    same_glob (λ st : EvictState, s ← evictIfNeeded cap' st.1; Some (s, st.2)) (λ g, mkSameGlob g g eq_refl eq_refl eq_refl eq_refl)
    same_glob_trans (shards s) g0 0%nat) as (g' & shs' & ev' & -> & Hg & Hlen & Hall).
  { intros i sh g1 ev0 Hi _. pose proof (si_shard s Hs i sh Hi) as Hinv. destruct Hinv as [Hi0 Hp0]. cbn [fst snd].
    destruct (evictIfNeeded_spec cap' _ _ g1 sh Hi0 Hp0) as (vs & g2 & sh2 & -> & Hi2 & Hp2 & Hev & _ & Hb). cbn [mbind option_bind].
    assert (shard_inv sh2) as Hinv2 by (split; [by rewrite (ev_tick _ _ _ _ _ Hev)|done]).
    exists g2, sh2, 0%nat. rewrite Nat.add_0_r. split; [done|]. split; [apply Hev|]. split; [done|].
    split; [by eapply bounded_cores|]. split; [intros k; by eapply (evicts_entries vs g1 sh g2 sh2)|]. split; apply Hev. }
  cbn [mbind option_bind]. exists (mkStore g' shs'). split; [done|].
  destruct (shrink_store s g' shs' Hs) as [Hs' Hl]; [apply (sg_version _ _ Hg)|done| |].
  - intros i sh' Hi. destruct (Hall i sh' Hi) as (sh & _ & _ & _ & Hsh & _ & _ & Hinv & Hb & Hent & _).
    exists sh. split_and!; try done.
    + unfold shardCapacity. simpl. by rewrite (sg_capacity _ _ Hg), Hlen.
    + intros k e Hk. destruct (Hent k) as [E|[E _]]; congruence.
  - split; [done|]. split; [apply (sg_capacity _ _ Hg)|]. split; [done|]. split; [apply (sg_version _ _ Hg)|]. split.
    + intros k. destruct (Hl k) as (sh & sh' & Hsh & Hsh' & -> & ->).
      destruct (Hall _ sh' Hsh') as (sh0 & _ & _ & _ & Hsh0 & _ & _ & _ & _ & Hent & _). rewrite Hsh in Hsh0. injection Hsh0 as <-. apply Hent.
    + intros i sh' Hi. destruct (Hall i sh' Hi) as (sh & _ & _ & _ & Hsh & _ & _ & _ & _ & _ & Ht). by exists sh.
Qed.

(** *** The wheels and their last sweeps *)

(** No wheel ticked and no sweep was noted. *)
Definition same_times s s' : Prop :=
  ∀ i sh', shards s' !! i = Some sh' → ∃ sh, shards s !! i = Some sh ∧
    tick_count (wheel sh') = tick_count (wheel sh) ∧ last_evict sh' = last_evict sh.

Lemma insert_times s k sh g' sh' :
  shards s !! shardFor hash k s = Some sh → tick_count (wheel sh') = tick_count (wheel sh) → last_evict sh' = last_evict sh →
  same_times s (mkStore g' (<[shardFor hash k s := sh']> (shards s))).
Proof.
  intros Hsh Ht Hl i sh1 Hi. cbn [shards] in Hi. destruct (decide (i = shardFor hash k s)) as [->|Hne].
  - rewrite list_lookup_insert_eq in Hi by (by eapply lookup_lt_Some). injection Hi as <-. eauto.
  - rewrite list_lookup_insert_ne in Hi by done. eauto.
Qed.

Lemma putVersionedAt_times c k e at_ s r s' :
  store_inv s → Entry.wf e → putVersionedAt hash c k e at_ s = Some (r, s') → same_times s s'.
Proof.
  intros Hs Hwf. destruct (home_shard k s Hs) as (sh & Hsh & Hinv & _). unfold putVersionedAt, on_shard. rewrite Hsh. cbn [mbind option_bind].
  destruct (putShard_spec c (shardCapacity s) k e at_ (glob s) sh Hinv Hwf) as (r' & g' & sh' & -> & _ & Hcase). cbn [mbind option_bind].
  intros [= <- <-]. apply (insert_times s k sh); [done|..].
  all: destruct (entry_at sh k) as [old|];
    [destruct Hcase as [_ [(_ & -> & ->)|(_ & vs & n & [])]]|destruct Hcase as [(_ & _ & -> & ->)|(_ & _ & vs & n & [])]]; done.
Qed.

Lemma read_times s k sh gone g1 g' sh' :
  shards s !! shardFor hash k s = Some sh → read_effect k gone g1 sh g' sh' → same_times s (mkStore g' (<[shardFor hash k s := sh']> (shards s))).
Proof. intros Hsh []. by apply (insert_times s k sh). Qed.

Lemma get_times c k s r s' : store_inv s → get hash c k s = Some (r, s') → same_times s s'.
Proof.
  intros Hs. destruct (home_shard k s Hs) as (sh & Hsh & Hinv & _). unfold get, on_shard. rewrite Hsh. cbn [mbind option_bind].
  destruct (getShard_spec c k (glob s) sh Hinv) as (r' & g' & sh' & -> & _ & Hcase). cbn [mbind option_bind]. intros [= <- <-].
  destruct (entry_at sh k) as [e|]; [destruct (expired (now c) e)|]; destruct Hcase; by eapply read_times.
Qed.

Lemma getVersioned_times c k s r s' : store_inv s → getVersioned hash c k s = Some (r, s') → same_times s s'.
Proof.
  intros Hs. destruct (home_shard k s Hs) as (sh & Hsh & Hinv & _). unfold getVersioned, on_shard. rewrite Hsh. cbn [mbind option_bind].
  destruct (getVersionedShard_spec c k (glob s) sh Hinv) as (r' & g' & sh' & -> & _ & Hcase). cbn [mbind option_bind]. intros [= <- <-].
  destruct (entry_at sh k) as [e|]; [destruct (expired (now c) e)|]; destruct Hcase; by eapply read_times.
Qed.

Lemma removeKey_times k s r s' : store_inv s → removeKey hash k s = Some (r, s') → same_times s s'.
Proof.
  intros Hs. destruct (home_shard k s Hs) as (sh & Hsh & Hinv & _). unfold removeKey, on_shard. rewrite Hsh. cbn [mbind option_bind].
  destruct (removeShard_spec k (glob s) sh Hinv) as (r' & g' & sh' & -> & _ & Hcase). cbn [mbind option_bind]. intros [= <- <-].
  destruct (entry_at sh k) as [e|]; [destruct Hcase; by eapply read_times|destruct Hcase as (_ & -> & ->); by apply (insert_times s k sh)].
Qed.

(** ** Sequences of operations *)

Inductive StoreOp :=
  | OPut (c : Clock) (k v : bytes) (ttl : option Z)
  | OPutVersioned (c : Clock) (k : bytes) (e : VersionedEntry)
  | ORemoveVersioned (c : Clock) (k : bytes) (ver writer : Z)
  | OGet (c : Clock) (k : bytes)
  | OGetVersioned (c : Clock) (k : bytes)
  | ORemove (k : bytes)
  | OEvictExpired (c : Clock)
  | OSetCapacity (cap : Z)
  | OSetTombstoneGc (ms : Z).

Definition quiet {A} (r : option (A * Store PN PS)) : option (Result () * Store PN PS) := '(_, s) ← r; Some (Ok (), s).

Definition run_op (op : StoreOp) s : option (Result () * Store PN PS) :=
  match op with
  | OPut c k v ttl => put hash c k v ttl s
  | OPutVersioned c k e => putVersioned hash c k e s
  | ORemoveVersioned c k ver writer => removeVersioned hash c k ver writer s
  | OGet c k => quiet (get hash c k s)
  | OGetVersioned c k => quiet (getVersioned hash c k s)
  | ORemove k => quiet (removeKey hash k s)
  | OEvictExpired c => quiet (evictExpired c s)
  | OSetCapacity cap => s ← setCapacity cap s; Some (Ok (), s)
  | OSetTombstoneGc ms => Some (Ok (), mkStore (setTombstoneGcInterval ms (glob s)) (shards s))
  end.

Fixpoint run_ops (ops : list StoreOp) s : option (Store PN PS) :=
  match ops with [] => Some s | op :: ops => '(_, s) ← run_op op s; run_ops ops s end.

(** Entries that arrive from outside are 64-bit patterns, and so is the time of
    a sweep. *)
Definition op_ok (op : StoreOp) : Prop :=
  match op with OPutVersioned _ _ e => Entry.wf e | OEvictExpired c => 0 <= now c < 2 ^ 63 | _ => True end.

(** In this state. *)
Definition op_may (op : StoreOp) s : bool := match op with OEvictExpired c => may_sweep c s | _ => true end.

(** The ticks of the sweeps of a sequence, after a sweep at [last]. *)
Fixpoint sweep_seconds (last : Z) (ops : list StoreOp) : Z :=
  match ops with
  | [] => 0
  | OEvictExpired c :: ops => seconds_since last (now c) + sweep_seconds (now c) ops
  | _ :: ops => sweep_seconds last ops
  end.

Definition local_entry (c : Clock) (v : bytes) (ttl : option Z) (ver : Z) : VersionedEntry :=
  let entry := setVersion ver (with_value v emptyEntry) in
  match ttl with Some ms => setHasTtl true (with_expires (now c + ms * 1000000) entry) | None => entry end.

Definition tomb_entry (c : Clock) (gc ver writer : Z) : VersionedEntry :=
  setHasTtl true (with_expires (now c + gc * 1000000) (with_writer writer (setTombstone true (setVersion ver emptyEntry)))).

Lemma local_entry_wf c v ttl ver : Entry.wf (local_entry c v ttl ver).
Proof.
  assert (Entry.wf (setVersion ver (with_value v emptyEntry))) by (by apply setVersion_wf).
  destruct ttl; [by apply setHasTtl_wf|done].
Qed.

Lemma tomb_entry_wf c gc ver writer : Entry.wf (tomb_entry c gc ver writer).
Proof. apply setHasTtl_wf. change (Entry.wf (setTombstone true (setVersion ver emptyEntry))). eauto with entry. Qed.

Lemma tomb_entry_tombstone c gc ver writer : isTombstone (tomb_entry c gc ver writer) = true.
Proof.
  assert (Entry.wf (setTombstone true (setVersion ver emptyEntry))) as Hwf by eauto with entry.
  unfold tomb_entry. rewrite setHasTtl_isTombstone by exact Hwf.
  change (isTombstone (setTombstone true (setVersion ver emptyEntry)) = true). apply setTombstone_isTombstone. eauto with entry.
Qed.

Lemma local_entry_version c v ttl ver : version (local_entry c v ttl ver) = wrap 62 ver.
Proof.
  assert (Entry.wf (setVersion ver (with_value v emptyEntry))) by (by apply setVersion_wf).
  assert (version (setVersion ver (with_value v emptyEntry)) = wrap 62 ver) by (by apply setVersion_version).
  destruct ttl as [ms|]; [|done]. unfold local_entry. by rewrite setHasTtl_version.
Qed.

Lemma put_unfold c k v ttl s :
  put hash c k v ttl s =
  putVersionedAt hash c k (local_entry c v ttl (next_version (glob s))) (from_option (λ _, now c) 0 ttl)
    (mkStore (mintVersion (glob s)).2 (shards s)).
Proof.
  destruct ttl as [ms|]; [done|]. unfold put, putVersioned. cbn [mintVersion from_option local_entry].
  assert (hasTtl (setVersion (next_version (glob s)) (with_value v emptyEntry)) = false) as ->; [|done].
  by rewrite setVersion_hasTtl.
Qed.

(** The Lamport clock advanced. *)
Lemma mint_store s :
  store_inv s → 0 <= next_version (glob s) < 2 ^ 64 - 1 →
  let s1 := mkStore (mintVersion (glob s)).2 (shards s) in
  store_inv s1 ∧ next_version (glob s1) = next_version (glob s) + 1 ∧ ∀ k, lookup_store s1 k = lookup_store s k.
Proof.
  intros [] Hv s1. assert (next_version (glob s1) = next_version (glob s) + 1) as E.
  { simpl. apply wrap_small. unfold in_u. lia. }
  split; [|done]. split; try done. intros i sh k e Hi He. rewrite E. destruct (si_entry0 i sh k e Hi He). split; [done|lia].
Qed.

Lemma outcome_version c k e s r s' :
  put_outcome c k e s r s' → next_version (glob s') = next_version (glob s) ∨ next_version (glob s') = Z.max (next_version (glob s)) (version e + 1).
Proof. intros [| |gone s1 []]; auto. Qed.

Lemma get_spec c k s :
  store_inv s →
  ∃ s', get hash c k s =
      Some (e ← lookup_store s k; if expired (now c) e || isTombstone e then None else Some (value e), s') ∧
    store_inv s' ∧ same_glob (glob s) (glob s') ∧
    ∀ k', lookup_store s' k' =
      if decide (k' = k) then e ← lookup_store s k; if expired (now c) e then None else Some e else lookup_store s k'.
Proof.
  intros Hs. destruct (home_shard k s Hs) as (sh & Hsh & Hinv & Hl). unfold get, on_shard. rewrite Hsh. cbn [mbind option_bind].
  destruct (getShard_spec c k (glob s) sh Hinv) as (r & g' & sh' & -> & Hinv' & Hcase). cbn [mbind option_bind].
  assert (∃ gone, read_effect k gone (glob s) sh g' sh' ∧ gone = (e ← entry_at sh k; if expired (now c) e then Some e else None) ∧
    r = (e ← entry_at sh k; if expired (now c) e || isTombstone e then None else Some (value e))) as (gone & Hre & Hg & ->).
  { destruct (entry_at sh k) as [e|]; [|destruct Hcase as [-> ?]; by exists None]. simpl.
    destruct (expired (now c) e); destruct Hcase as [-> ?]; [by exists (Some e)|by exists None; destruct (isTombstone e)]. }
  destruct (read_store k gone s sh (glob s) g' sh' Hs Hsh Hinv' Hre eq_refl eq_refl) as [Hs' Hl'].
  eexists. split; [by rewrite Hl|]. split; [exact Hs'|]. split; [apply Hre|]. intros k'. rewrite Hl', Hl, Hg.
  destruct (decide (k' = k)) as [->|]; [|by rewrite decide_False by tauto]. rewrite Hl.
  destruct (entry_at sh k) as [e|]; simpl; [|by rewrite decide_False by (intros [_ []]; done)].
  destruct (expired (now c) e); [by rewrite decide_True by eauto|by rewrite decide_False by (intros [_ []]; done)].
Qed.

Lemma getVersioned_spec c k s :
  store_inv s →
  ∃ s', getVersioned hash c k s = Some (e ← lookup_store s k; if expired (now c) e then None else Some e, s') ∧
    store_inv s' ∧ same_glob (glob s) (glob s') ∧
    ∀ k', lookup_store s' k' =
      if decide (k' = k) then e ← lookup_store s k; if expired (now c) e then None else Some e else lookup_store s k'.
Proof.
  intros Hs. destruct (home_shard k s Hs) as (sh & Hsh & Hinv & Hl). unfold getVersioned, on_shard. rewrite Hsh. cbn [mbind option_bind].
  destruct (getVersionedShard_spec c k (glob s) sh Hinv) as (r & g' & sh' & -> & Hinv' & Hcase). cbn [mbind option_bind].
  assert (∃ gone, read_effect k gone (glob s) sh g' sh' ∧ gone = (e ← entry_at sh k; if expired (now c) e then Some e else None) ∧
    r = (e ← entry_at sh k; if expired (now c) e then None else Some e)) as (gone & Hre & Hg & ->).
  { destruct (entry_at sh k) as [e|]; [|destruct Hcase as [-> ?]; by exists None]. simpl.
    destruct (expired (now c) e); destruct Hcase as [-> ?]; [by exists (Some e)|by exists None]. }
  destruct (read_store k gone s sh (glob s) g' sh' Hs Hsh Hinv' Hre eq_refl eq_refl) as [Hs' Hl'].
  eexists. split; [by rewrite Hl|]. split; [exact Hs'|]. split; [apply Hre|]. intros k'. rewrite Hl', Hl, Hg.
  destruct (decide (k' = k)) as [->|]; [|by rewrite decide_False by tauto]. rewrite Hl.
  destruct (entry_at sh k) as [e|]; simpl; [|by rewrite decide_False by (intros [_ []]; done)].
  destruct (expired (now c) e); [by rewrite decide_True by eauto|by rewrite decide_False by (intros [_ []]; done)].
Qed.

Lemma removeKey_spec k s :
  store_inv s →
  ∃ s', removeKey hash k s = Some (bool_decide (is_Some (lookup_store s k)), s') ∧ store_inv s' ∧
    next_version (glob s') = next_version (glob s) ∧
    (∀ k', lookup_store s' k' = if decide (k' = k) then None else lookup_store s k') ∧
    persistence (glob s') =
      (λ l, l ++ from_option (λ e, [mkWalEntry OpDel k [] (version e) (writer_node_hash e) 0 false false]) [] (lookup_store s k)) <$>
        persistence (glob s).
Proof.
  intros Hs. destruct (home_shard k s Hs) as (sh & Hsh & Hinv & Hl). unfold removeKey, on_shard. rewrite Hsh. cbn [mbind option_bind].
  destruct (removeShard_spec k (glob s) sh Hinv) as (r & g' & sh' & -> & Hinv' & Hcase). cbn [mbind option_bind]. rewrite Hl.
  destruct (entry_at sh k) as [e|] eqn:Ek.
  - destruct Hcase as [-> Hre]. set (g1 := onWrite _ (glob s)) in Hre.
    assert (capacity_bytes g1 = capacity_bytes (glob s) ∧ next_version g1 = next_version (glob s)) as [Hc1 Hv1].
    { unfold g1, onWrite. by destruct (persistence (glob s)). }
    destruct (read_store k (Some e) s sh g1 g' sh' Hs Hsh Hinv' Hre Hc1 Hv1) as [Hs' Hl']. destruct (re_glob _ _ _ _ _ _ Hre) as [_ Hg2 _ Hg4].
    eexists. split; [by rewrite bool_decide_true by eauto|]. split; [exact Hs'|]. split; [simpl; congruence|]. split.
    + intros k'. rewrite Hl'. destruct (decide (k' = k)); [by rewrite decide_True by eauto|by rewrite decide_False by tauto].
    + simpl. rewrite Hg4. unfold g1, onWrite. destruct (persistence (glob s)) eqn:E; [done|by rewrite E].
  - destruct Hcase as (-> & -> & ->). exists s. rewrite same_store by done. split; [by rewrite bool_decide_false by (intros []; done)|].
    split; [done|]. split; [done|]. split; [intros k'; destruct (decide (k' = k)) as [->|]; congruence|].
    simpl. destruct (persistence (glob s)); simpl; [by rewrite app_nil_r|done].
Qed.

(** One step: it runs, keeps the invariant, and the clock does not run away. *)
Lemma run_op_spec op s :
  store_inv s → op_ok op → op_may op s = true → 0 <= next_version (glob s) < 2 ^ 64 - 1 →
  ∃ r s', run_op op s = Some (r, s') ∧ store_inv s' ∧ next_version (glob s) <= next_version (glob s') ∧
    next_version (glob s') <= Z.max (next_version (glob s) + 1) (2 ^ 62).
Proof.
  intros Hs Hok Hmay Hv. assert (∀ e, Entry.wf e → version e + 1 <= 2 ^ 62) as Hmax.
  { intros e Hwf. pose proof (version_range e Hwf). unfold in_u in *. lia. }
  assert (∀ c k e at_ s1, store_inv s1 → Entry.wf e → 
    ∃ r s', putVersionedAt hash c k e at_ s1 = Some (r, s') ∧ store_inv s' ∧ next_version (glob s1) <= next_version (glob s') ∧
      next_version (glob s') <= Z.max (next_version (glob s1)) (2 ^ 62)) as Hput.
  { intros c k e at_ s1 Hs1 Hwf. destruct (putVersionedAt_spec c k e at_ s1 Hs1 Hwf) as (r & s' & E & Hs' & Ho).
    exists r, s'. split_and!; try done; pose proof (Hmax e Hwf); destruct (outcome_version _ _ _ _ _ _ Ho); lia. }
  destruct op as [c k v ttl|c k e|c k ver writer|c k|c k|k|c|cap|ms]; cbn [run_op].
  - destruct (mint_store s Hs Hv) as (Hs1 & Hn1 & _). rewrite put_unfold.
    destruct (Hput c k (local_entry c v ttl (next_version (glob s))) (from_option (λ _, now c) 0 ttl) _ Hs1 (local_entry_wf _ _ _ _))
      as (r & s' & -> & Hs' & H1 & H2).
    exists r, s'. split_and!; try done; lia.
  - destruct (Hput c k e (if hasTtl e then now c else 0) s Hs Hok) as (r & s' & E & Hs' & H1 & H2).
    exists r, s'. split_and!; try done; lia.
  - destruct (Hput c k (tomb_entry c (tombstone_gc (glob s)) ver writer) (now c) s Hs (tomb_entry_wf _ _ _ _)) as (r & s' & E & Hs' & H1 & H2).
    exists r, s'. split_and!; try done; lia.
  - destruct (get_spec c k s Hs) as (s' & -> & Hs' & [_ Hg _ _] & _). exists (Ok ()), s'. split_and!; try done; lia.
  - destruct (getVersioned_spec c k s Hs) as (s' & -> & Hs' & [_ Hg _ _] & _). exists (Ok ()), s'. split_and!; try done; lia.
  - destruct (removeKey_spec k s Hs) as (s' & -> & Hs' & Hg & _). exists (Ok ()), s'. split_and!; try done; lia.
  - destruct (evictExpired_spec c s Hs Hmay) as (n & s' & -> & Hs' & [_ Hg _ _] & _). exists (Ok ()), s'. split_and!; try done; lia.
  - destruct (setCapacity_spec cap s Hs) as (s' & -> & Hs' & _ & _ & Hg & _). exists (Ok ()), s'. split_and!; try done; lia.
  - eexists _, _. split; [done|]. destruct Hs. split_and!; [by split|simpl; lia..].
Qed.

Lemma newStore_inv c cap : store_inv (newStore c cap).
Proof.
  assert (∀ i sh, shards (newStore c cap) !! i = Some sh → sh = emptyShard (now c)) as Hall.
  { intros i sh [-> _]%lookup_replicate_1. done. }
  split.
  - simpl. unfold shardCountFor, K_MAX_SHARDS. destruct (Z.to_nat _) eqn:E; [lia|done].
  - intros i sh ->%Hall. apply emptyShard_inv.
  - intros i sh k e ->%Hall. done.
  - intros i sh k e ->%Hall. done.
  - intros i sh ->%Hall. right. done.
Qed.

Lemma run_op_times op s r s' :
  store_inv s → op_ok op → 0 <= next_version (glob s) < 2 ^ 64 - 1 → run_op op s = Some (r, s') →
  match op with OEvictExpired _ => True | _ => same_times s s' end.
Proof.
  intros Hs Hok Hv. destruct op as [c k v ttl|c k e|c k ver writer|c k|c k|k|c|cap|ms]; cbn [run_op]; try done.
  - rewrite put_unfold. intros E. pose proof (mint_store s Hs Hv) as (Hs1 & _).
    exact (putVersionedAt_times _ _ _ _ _ _ _ Hs1 (local_entry_wf _ _ _ _) E).
  - intros E. exact (putVersionedAt_times _ _ _ _ _ _ _ Hs Hok E).
  - intros E. exact (putVersionedAt_times _ _ _ _ _ _ _ Hs (tomb_entry_wf _ _ _ _) E).
  - destruct (get hash c k s) as [[x s1]|] eqn:E; [|done]. intros [= _ <-]. by eapply get_times.
  - destruct (getVersioned hash c k s) as [[x s1]|] eqn:E; [|done]. intros [= _ <-]. by eapply getVersioned_times.
  - destruct (removeKey hash k s) as [[x s1]|] eqn:E; [|done]. intros [= _ <-]. by eapply removeKey_times.
  - destruct (setCapacity_spec cap s Hs) as (s1 & -> & _ & _ & _ & _ & _ & Ht). intros [= _ <-]. exact Ht.
  - intros [= _ <-] i sh Hi. eauto.
Qed.

(** The wheels were last swept at [last] and have room for [n] more ticks. *)
Definition wheels_at (last n : Z) s : Prop :=
  0 <= last < 2 ^ 63 ∧ ∀ i sh, shards s !! i = Some sh → last_evict sh = last ∧ tick_count (wheel sh) + n <= max_ticks.

Lemma wheels_may op ops last s :
  op_ok op → wheels_at last (sweep_seconds last (op :: ops)) s → 0 <= sweep_seconds (match op with OEvictExpired c => now c | _ => last end) ops →
  op_may op s = true.
Proof.
  intros Hok [Hr Hall] Hn. destruct op as [| | | | | |c| |]; try done. cbn [op_may op_ok sweep_seconds] in *. unfold may_sweep.
  apply forallb_forall. intros sh [i Hi]%list_elem_of_In%list_elem_of_lookup. destruct (Hall i sh Hi) as [-> Ht].
  rewrite !andb_true_iff, !Z.leb_le, Z.ltb_lt. lia.
Qed.

Lemma sweep_seconds_nonneg last ops : 0 <= sweep_seconds last ops.
Proof.
  revert last. induction ops as [|op ops IH]; intros last; [done|].
  destruct op as [| | | | | |c| |]; cbn [sweep_seconds]; try apply IH. pose proof (IH (now c)). unfold seconds_since. lia.
Qed.

(** The times of the sweeps, none before the one in front of it. *)
Fixpoint steady (last : Z) (ops : list StoreOp) : Prop :=
  match ops with
  | [] => True
  | OEvictExpired c :: ops => last <= now c < 2 ^ 63 ∧ steady (now c) ops
  | _ :: ops => steady last ops
  end.

(** The tick counters do not run out on a steady clock. *)
Lemma steady_ticks last ops :
  0 <= last < 2 ^ 63 → steady last ops → Z.of_nat (length ops) < 2 ^ 62 → sweep_seconds last ops <= max_ticks.
Proof.
  intros Hl Hst Hn. assert (sweep_seconds last ops <= (2 ^ 63 - last) / 1000000000 + Z.of_nat (length ops)) as Hb.
  { clear Hn. revert last Hl Hst. induction ops as [|op ops IH]; intros last Hl Hst.
    { cbn [sweep_seconds length]. Z.to_euclidean_division_equations; lia. }
    destruct op as [| | | | | |c| |]; cbn [sweep_seconds steady length] in *; try (specialize (IH _ Hl Hst); lia).
    destruct Hst as [Hc Hst]. specialize (IH (now c) ltac:(lia) Hst). unfold seconds_since. Z.to_euclidean_division_equations; lia. }
  unfold max_ticks. Z.to_euclidean_division_equations; lia.
Qed.

Lemma wheels_step op ops last s r s' :
  store_inv s → op_ok op → 0 <= next_version (glob s) < 2 ^ 64 - 1 → wheels_at last (sweep_seconds last (op :: ops)) s → op_may op s = true →
  run_op op s = Some (r, s') →
  let last' := match op with OEvictExpired c => now c | _ => last end in wheels_at last' (sweep_seconds last' ops) s'.
Proof.
  intros Hs Hok Hv [Hr Hall] Hmay E last'. pose proof (run_op_times op s r s' Hs Hok Hv E) as Ht.
  assert ((∃ c, op = OEvictExpired c) ∨
    last' = last ∧ same_times s s' ∧ sweep_seconds last (op :: ops) = sweep_seconds last ops) as [[c ->]|(-> & Hst & Eq)].
  { destruct op; eauto. }
  - cbn [op_may op_ok sweep_seconds] in *. destruct (evictExpired_spec c s Hs Hmay) as (n & s1 & E1 & _ & _ & _ & _ & _ & Hsh).
    cbn [run_op] in E. rewrite E1 in E. injection E as _ <-. split; [done|]. intros i sh Hi.
    destruct (Hsh i sh Hi) as (sh0 & Hi0 & _ & -> & ->). destruct (Hall i sh0 Hi0) as [-> Hn]. split; [done|]. unfold last'. lia.
  - rewrite Eq in Hall. split; [done|]. intros i sh Hi. destruct (Hst i sh Hi) as (sh0 & Hi0 & -> & ->). by apply (Hall i).
Qed.

Lemma run_ops_spec ops s last :
  store_inv s → Forall op_ok ops → 0 <= next_version (glob s) → wheels_at last (sweep_seconds last ops) s →
  Z.max (next_version (glob s)) (2 ^ 62) + Z.of_nat (length ops) < 2 ^ 64 - 1 → ∃ s', run_ops ops s = Some s' ∧ store_inv s'.
Proof.
  intros Hs Hok. revert s last Hs. induction Hok as [|op ops Hop Hok IH]; intros s last Hs Hv Hw Hb; cbn [run_ops]; [eauto|]. cbn [length] in Hb.
  pose proof (wheels_may op ops last s Hop Hw (sweep_seconds_nonneg _ _)) as Hmay.
  destruct (run_op_spec op s Hs Hop Hmay) as (r & s1 & E & Hs1 & Hv1 & Hv1'); [lia|].
  assert (0 <= next_version (glob s) < 2 ^ 64 - 1) as Hv' by lia.
  pose proof (wheels_step op ops last s r s1 Hs Hop Hv' Hw Hmay E) as Hw1. rewrite E. cbn [mbind option_bind].
  eapply IH; [done|lia|exact Hw1|lia].
Qed.

Lemma new_wheels c cap n : 0 <= now c < 2 ^ 63 → n <= max_ticks → wheels_at (now c) n (newStore c cap).
Proof. intros Hr Hn. split; [done|]. intros i sh [-> _]%lookup_replicate_1. split; [done|exact Hn]. Qed.

(** A new store with a sink and a log attached. *)
Definition attached (c : Clock) (cap : Z) : Store PN PS :=
  let s := newStore c cap in mkStore (setMutationSink (setPersistence (glob s))) (shards s).

Lemma attached_inv c cap : store_inv (attached c cap).
Proof. destruct (newStore_inv c cap). by split. Qed.

(** The store a sequence of operations makes of it. *)
Definition after (c : Clock) (cap : Z) (ops : list StoreOp) : Store PN PS :=
  default (attached c cap) (run_ops ops (attached c cap)).

Lemma after_inv c cap ops :
  0 <= now c < 2 ^ 63 → Forall op_ok ops → Z.of_nat (length ops) < 2 ^ 62 → sweep_seconds (now c) ops <= max_ticks → store_inv (after c cap ops).
Proof.
  intros Hnow Hok Hlen Hsw. destruct (run_ops_spec ops (attached c cap) (now c)) as (s & E & Hs);
    [apply attached_inv|done|simpl; rewrite wrap_small; [lia|unfold in_u; lia]|exact (new_wheels c cap _ Hnow Hsw)|
     simpl; rewrite wrap_small; [lia|unfold in_u; lia]|]. unfold after. by rewrite E.
Qed.

(** *** The feed to the anti-entropy digest *)

Definition Ident : Type := bytes * Z * Z.

Definition ident (x : bytes * VersionedEntry) : Ident := (x.1, version_and_ttl x.2, writer_node_hash x.2).

Definition one (x : bytes * VersionedEntry) (i : Ident) : Z := if decide (ident x = i) then 1 else 0.

(** How often an identity was added, less how often it was removed. *)
Definition balance (evs : list Mutation) (i : Ident) : Z :=
  foldr (λ m a, (if decide ((m_key m, m_vt m, m_writer m) = i) then if m_removed m then -1 else 1 else 0) + a) 0 evs.

Definition resident (cs : gmap nat (bytes * VersionedEntry)) (i : Ident) : Z := map_fold (λ _ x a, one x i + a) 0 cs.

Definition residents (shs : list (Shard PN PS)) (i : Ident) : Z := foldr (λ sh a, resident (cores sh) i + a) 0 shs.

(** A consumer of the feed counts exactly the resident identities. *)
Definition in_sync s : Prop := ∃ l, sink (glob s) = Some l ∧ ∀ i, balance l i = residents (shards s) i.

Definition feeds g (shs : list (Shard PN PS)) g' (shs' : list (Shard PN PS)) (extra : Ident → Z) : Prop :=
  ∃ evs, noted evs g g' ∧ ∀ i, balance evs i = residents shs' i - residents shs i - extra i.

Lemma balance_app a b i : balance (a ++ b) i = balance a i + balance b i.
Proof. induction a as [|m a IH]; simpl; [done|]. rewrite IH. lia. Qed.

Lemma resident_delete cs n x i : cs !! n = Some x → resident (delete n cs) i = resident cs i - one x i.
Proof.
  intros E. unfold resident. rewrite (map_fold_delete_L (λ _ x a, one x i + a) 0 n x cs); [lia| |done]. intros. lia.
Qed.

Lemma resident_insert cs n x i : resident (<[n := x]> cs) i = resident cs i + one x i - from_option (λ y, one y i) 0 (cs !! n).
Proof.
  rewrite <- insert_delete_eq. unfold resident at 1. rewrite map_fold_insert_L; [|intros; lia|apply lookup_delete_eq].
  fold (resident (delete n cs) i). destruct (cs !! n) as [y|] eqn:E; simpl; [rewrite (resident_delete _ _ _ _ E); lia|].
  rewrite delete_id by done. lia.
Qed.

Lemma balance_removals (vs : list Victim) cs i :
  NoDup vs.*1 → (∀ n x, (n, x) ∈ vs → cs !! n = Some x) → balance (removal <$> vs) i = resident (without vs cs) i - resident cs i.
Proof.
  revert cs. induction vs as [|[n x] vs IH]; intros cs Hnd Hv; [simpl; lia|].
  apply NoDup_cons in Hnd as [Hn Hnd]. change (without ((n, x) :: vs) cs) with (without vs (delete n cs)).
  cbn [fmap list_fmap balance foldr]. fold (balance (removal <$> vs) i). rewrite (IH (delete n cs)); [|done|].
  - rewrite (resident_delete cs n x) by (apply Hv; by left). unfold one, ident, removal. cbn [m_key m_vt m_writer m_removed fst snd].
    destruct (decide _); lia.
  - intros m y Hin. rewrite lookup_delete_ne; [apply Hv; by right|]. intros <-. apply Hn. apply list_elem_of_fmap. by exists (n, y).
Qed.

Lemma residents_insert (shs : list (Shard PN PS)) j sh sh' i :
  shs !! j = Some sh → residents (<[j := sh']> shs) i = residents shs i + resident (cores sh') i - resident (cores sh) i.
Proof.
  revert j. induction shs as [|sh0 shs IH]; intros [|j] E; simplify_eq/=; [lia|]. rewrite (IH j E). lia.
Qed.

Lemma resident_zero cs i : (∀ n x, cs !! n = Some x → ident x ≠ i) → resident cs i = 0.
Proof.
  intros Hno. unfold resident. induction cs as [|n x cs Hn IH] using map_ind; [done|].
  rewrite map_fold_insert_L; [|intros; lia|done]. rewrite IH.
  - unfold one. rewrite decide_False; [done|]. apply (Hno n). by rewrite lookup_insert_eq.
  - intros m y Hm. apply (Hno m). rewrite lookup_insert_ne; [done|]. congruence.
Qed.

Lemma resident_entry sh k vt w :
  shard_inv sh → resident (cores sh) (k, vt, w) = from_option (λ e, one (k, e) (k, vt, w)) 0 (entry_at sh k).
Proof.
  intros [Hi _]. destruct (entry_at sh k) as [e|] eqn:E.
  - apply (entry_at_cores _ _ _ _ _ _ Hi) in E as (n & Hn). pose proof (resident_delete _ _ _ (k, vt, w) Hn) as Hd.
    rewrite resident_zero in Hd; [simpl; lia|]. intros m [k' x] Hm [= -> _ _]. rewrite lookup_delete in Hm.
    destruct (decide (n = m)) as [|Hne]; [done|]. by destruct Hne; eapply key_address.
  - simpl. apply resident_zero. intros n [k' x] Hn [= -> _ _].
    assert (entry_at sh k = Some x) by (apply (entry_at_cores _ _ _ _ _ _ Hi); eauto). congruence.
Qed.

Lemma feeds_nil g shs g' : sink g' = sink g → feeds g shs g' shs (λ _, 0).
Proof. intros E. exists []. split; [by apply noted_nil|]. intros i. simpl. lia. Qed.

(** One shard changed. *)
Lemma feeds_shard g g' evs shs j sh sh' extra :
  shs !! j = Some sh → noted evs g g' → (∀ i, balance evs i = resident (cores sh') i - resident (cores sh) i - extra i) →
  feeds g shs g' (<[j := sh']> shs) extra.
Proof. intros E Hn Hb. exists evs. split; [done|]. intros i. rewrite (residents_insert _ _ _ _ _ E), Hb. lia. Qed.

(** The write was admitted, and evicted at once. *)
Definition lost (k : bytes) (e : VersionedEntry) (r : Result ()) s' (i : Ident) : Z :=
  match r, lookup_store s' k with Ok _, None => one (k, e) i | _, _ => 0 end.

Lemma accepted_feed c cap k e old vs n g sh g' sh' i :
  accepted c cap k e old vs n g sh g' sh' →
  balance ((removal <$> vs) ++ from_option (λ o, [removal (n, (k, o))]) [] old ++ (if decide (n ∈ vs.*1) then [] else [addition k e])) i =
  resident (cores sh') i - resident (cores sh) i - (if decide (n ∈ vs.*1) then one (k, e) i else 0).
Proof.
  intros Ha. rewrite !balance_app, (balance_removals vs (<[n := (k, e)]> (cores sh))); [|apply Ha|].
  2:{ intros m x Hin. by apply (ac_victims _ _ _ _ _ _ _ _ _ _ _ Ha). }
  rewrite <- (ac_cores _ _ _ _ _ _ _ _ _ _ _ Ha), resident_insert, (ac_addr _ _ _ _ _ _ _ _ _ _ _ Ha).
  assert (∀ o, balance [removal (n, (k, o))] i = - one (k, o) i) as Hr.
  { intros o. unfold one, ident, removal. simpl. destruct (decide _); lia. }
  assert (balance [addition k e] i = one (k, e) i) as Hadd by (unfold one, ident, addition; simpl; destruct (decide _); lia).
  destruct old as [o|]; cbn [from_option fmap option_fmap option_map]; rewrite ?Hr; destruct (decide (n ∈ vs.*1)); rewrite ?Hadd; simpl balance; lia.
Qed.

Lemma putVersionedAt_feed c k e at_ s r s' :
  store_inv s → Entry.wf e → putVersionedAt hash c k e at_ s = Some (r, s') →
  feeds (glob s) (shards s) (glob s') (shards s') (lost k e r s').
Proof.
  intros Hs Hwf. destruct (home_shard k s Hs) as (sh & Hsh & Hinv & Hl). unfold putVersionedAt, on_shard. rewrite Hsh. cbn [mbind option_bind].
  destruct (putShard_spec c (shardCapacity s) k e at_ (glob s) sh Hinv Hwf) as (r1 & g' & sh' & -> & Hinv' & Hcase).
  cbn [mbind option_bind]. intros [= <- <-].
  assert (∀ old vs n, entry_at sh k = old → accepted c (shardCapacity s) k e old vs n (glob s) sh g' sh' →
    feeds (glob s) (shards s) g' (<[shardFor hash k s := sh']> (shards s))
      (lost k e (Ok ()) (mkStore g' (<[shardFor hash k s := sh']> (shards s))))) as Hacc.
  { intros old vs n Hold Ha. eapply feeds_shard; [exact Hsh|apply Ha|]. intros i. rewrite (accepted_feed _ _ _ _ _ _ _ _ _ _ _ i Ha). f_equal.
    destruct (accepted_entries _ _ _ _ _ _ _ _ _ _ _ Hinv Hinv' Ha Hold) as (Hk & Hnk & _ & _).
    unfold lost, lookup_store. rewrite shardFor_insert. simpl. rewrite list_lookup_insert_eq by (by eapply lookup_lt_Some).
    simpl. rewrite Hk. unfold written_at. rewrite (decide_True _ _ (eq_refl k)), (decide_ext (k ∈ vs.*2.*1) (n ∈ vs.*1)) by (by rewrite Hnk).
    by destruct (decide (n ∈ vs.*1)). }
  assert (mkStore (glob s) (<[shardFor hash k s := sh]> (shards s)) = s) as Hsame by (by apply same_store).
  destruct (entry_at sh k) as [old|] eqn:Ek.
  - destruct Hcase as [-> [(Hless & -> & ->)|(Hn & vs & n & Ha)]]; [|exact (Hacc _ _ _ eq_refl Ha)].
    rewrite Hsame. unfold lost. rewrite Hl. by apply feeds_nil.
  - destruct Hcase as [(Hlt & -> & -> & ->)|(Hle & -> & vs & n & Ha)]; [|exact (Hacc _ _ _ eq_refl Ha)].
    rewrite Hsame. by apply feeds_nil.
Qed.

Lemma read_feed k gone s sh g1 g' sh' :
  shard_inv sh → shards s !! shardFor hash k s = Some sh → shard_inv sh' → read_effect k gone g1 sh g' sh' → sink g1 = sink (glob s) →
  feeds (glob s) (shards s) g' (<[shardFor hash k s := sh']> (shards s)) (λ _, 0).
Proof.
  intros Hinv Hsh Hinv' Hre Hsink. eapply feeds_shard; [exact Hsh| |].
  { pose proof (re_noted _ _ _ _ _ _ Hre) as Hn. unfold noted in Hn. rewrite Hsink in Hn. exact Hn. }
  intros [[k' vt] w]. rewrite !resident_entry, (re_entries _ _ _ _ _ _ Hre k') by done.
  destruct gone as [e|]; cbn [from_option].
  - pose proof (re_gone _ _ _ _ _ _ Hre e eq_refl) as Hk. destruct (decide (k' = k)) as [->|Hne].
    + rewrite decide_True by eauto. rewrite Hk. unfold one, ident, removal. simpl. destruct (decide _); lia.
    + rewrite decide_False by tauto. simpl. rewrite decide_False by congruence. lia.
  - rewrite decide_False by (intros [_ []]; done). simpl. lia.
Qed.

Lemma sweep_feed (P : Shard PN PS → Prop) f :
  (∀ sh g ev, shard_inv sh → P sh → ∃ g' sh' ev' evs, f ((g, sh), ev) = Some ((g', sh'), ev') ∧ noted evs g g' ∧
    ∀ i, balance evs i = resident (cores sh') i - resident (cores sh) i) →
  ∀ shs g ev g' ev' shs', Forall shard_inv shs → Forall P shs → sweep f g ev shs = Some (g', ev', shs') → feeds g shs g' shs' (λ _, 0).
Proof.
  intros Hf shs. induction shs as [|sh shs IH]; intros g ev g' ev' shs' Hall HP; cbn [sweep].
  { intros [= <- <- <-]. by apply feeds_nil. }
  apply Forall_cons in Hall as [Hsh Hall]. apply Forall_cons in HP as [Hp HP]. destruct (Hf sh g ev Hsh Hp) as (g1 & sh1 & ev1 & evs & -> & Hn & Hb). cbn [mbind option_bind].
  destruct (sweep f g1 ev1 shs) as [[[g2 ev2] shs2]|] eqn:E; cbn [mbind option_bind]; [|done]. intros [= <- <- <-].
  destruct (IH _ _ _ _ _ Hall HP E) as (evs2 & Hn2 & Hb2). exists (evs ++ evs2). split; [by eapply noted_trans|].
  intros i. rewrite balance_app, Hb, Hb2. simpl. lia.
Qed.

Lemma all_shards s : store_inv s → Forall shard_inv (shards s).
Proof. intros Hs. apply Forall_lookup. intros i sh Hi. by apply (si_shard s Hs i). Qed.

Lemma evictExpired_feed c s n s' :
  store_inv s → may_sweep c s = true → evictExpired c s = Some (n, s') → feeds (glob s) (shards s) (glob s') (shards s') (λ _, 0).
Proof.
  intros Hs Hmay. unfold evictExpired. destruct (sweep _ _ _ _) as [[[g ev] shs]|] eqn:E; cbn [mbind option_bind]; [|done]. intros [= <- <-].
  eapply (sweep_feed (λ sh, sh ∈ shards s)); [|by apply all_shards|by apply Forall_forall|exact E]. intros sh g0 ev0 Hinv Hsh.
  destruct (may_sweep_spec c s sh Hmay Hsh) as [Hsec Hmax].
  destruct (evictShard_spec (now c) g0 sh ev0 Hinv) as (vs & g1 & sh1 & -> & Hinv1 & _ & Hsw & _); [lia|].
  eexists _, _, _, _. split; [done|]. split; [apply Hsw|]. intros i. rewrite (sw_cores _ _ _ _ _ _ Hsw).
  change (cores (with_last (now c) sh)) with (cores sh). apply balance_removals; [apply Hsw|]. intros m x Hin.
  by apply (sw_victims _ _ _ _ _ _ Hsw).
Qed.

Lemma setCapacity_feed cap s s' :
  store_inv s → setCapacity cap s = Some s' → feeds (glob s) (shards s) (glob s') (shards s') (λ _, 0).
Proof.
  intros Hs. unfold setCapacity. set (g0 := mkGlob cap _ _ _ _ _ _). destruct (sweep _ _ _ _) as [[[g ev] shs]|] eqn:E; cbn [mbind option_bind]; [|done].
  intros [= <-]. change (feeds g0 (shards s) g shs (λ _, 0)). eapply (sweep_feed (λ _, True)); [|by apply all_shards|by apply Forall_forall|exact E]. intros sh g1 ev0 [Hi Hp] _. cbn [fst snd].
  destruct (evictIfNeeded_spec (cap / Z.of_nat (length (shards s))) _ _ g1 sh Hi Hp) as (vs & g2 & sh2 & -> & _ & _ & Hev & _ & _). cbn [mbind option_bind].
  eexists _, _, _, _. split; [done|]. split; [apply Hev|]. intros i. rewrite (ev_cores _ _ _ _ _ Hev).
  apply balance_removals; [apply Hev|]. intros m x Hin. by apply (ev_victims _ _ _ _ _ Hev).
Qed.

(** The entry an operation writes, if it writes one. *)
Definition op_writes (op : StoreOp) s : option (bytes * VersionedEntry) :=
  match op with
  | OPut c k v ttl => Some (k, local_entry c v ttl (next_version (glob s)))
  | OPutVersioned _ k e => Some (k, e)
  | ORemoveVersioned c k ver writer => Some (k, tomb_entry c (tombstone_gc (glob s)) ver writer)
  | _ => None
  end.

Definition op_lost (op : StoreOp) s (r : Result ()) s' (i : Ident) : Z :=
  from_option (λ x, lost x.1 x.2 r s' i) 0 (op_writes op s).

Lemma run_op_feed op s r s' :
  store_inv s → op_ok op → op_may op s = true → 0 <= next_version (glob s) < 2 ^ 64 - 1 → run_op op s = Some (r, s') →
  feeds (glob s) (shards s) (glob s') (shards s') (op_lost op s r s').
Proof.
  intros Hs Hok Hmay Hv. destruct op as [c k v ttl|c k e|c k ver writer|c k|c k|k|c|cap|ms]; cbn [run_op]; unfold op_lost; cbn [op_writes from_option fst snd].
  - destruct (mint_store s Hs Hv) as (Hs1 & _ & _). rewrite put_unfold. intros E. exact (putVersionedAt_feed _ _ _ _ _ _ _ Hs1 (local_entry_wf _ _ _ _) E).
  - intros E. exact (putVersionedAt_feed _ _ _ _ _ _ _ Hs Hok E).
  - intros E. exact (putVersionedAt_feed _ _ _ _ _ _ _ Hs (tomb_entry_wf _ _ _ _) E).
  - destruct (home_shard k s Hs) as (sh & Hsh & Hinv & Hl). unfold quiet, get, on_shard. rewrite Hsh. cbn [mbind option_bind].
    destruct (getShard_spec c k (glob s) sh Hinv) as (r1 & g' & sh' & -> & Hinv' & Hcase). cbn [mbind option_bind]. intros [= <- <-].
    assert (∃ gone, read_effect k gone (glob s) sh g' sh') as [gone Hre].
    { destruct (entry_at sh k) as [e|]; [destruct (expired (now c) e)|]; destruct Hcase; eauto. }
    exact (read_feed k gone s sh (glob s) g' sh' Hinv Hsh Hinv' Hre eq_refl).
  - destruct (home_shard k s Hs) as (sh & Hsh & Hinv & Hl). unfold quiet, getVersioned, on_shard. rewrite Hsh. cbn [mbind option_bind].
    destruct (getVersionedShard_spec c k (glob s) sh Hinv) as (r1 & g' & sh' & -> & Hinv' & Hcase). cbn [mbind option_bind]. intros [= <- <-].
    assert (∃ gone, read_effect k gone (glob s) sh g' sh') as [gone Hre].
    { destruct (entry_at sh k) as [e|]; [destruct (expired (now c) e)|]; destruct Hcase; eauto. }
    exact (read_feed k gone s sh (glob s) g' sh' Hinv Hsh Hinv' Hre eq_refl).
  - destruct (home_shard k s Hs) as (sh & Hsh & Hinv & Hl). unfold quiet, removeKey, on_shard. rewrite Hsh. cbn [mbind option_bind].
    destruct (removeShard_spec k (glob s) sh Hinv) as (r1 & g' & sh' & -> & Hinv' & Hcase). cbn [mbind option_bind]. intros [= <- <-].
    destruct (entry_at sh k) as [e|].
    + destruct Hcase as [_ Hre]. refine (read_feed k _ s sh _ g' sh' Hinv Hsh Hinv' Hre _). unfold onWrite. by destruct (persistence (glob s)).
    + destruct Hcase as (_ & -> & ->). rewrite same_store by done. by apply feeds_nil.
  - destruct (evictExpired c s) as [[n s1]|] eqn:E; [|done]. intros [= <- <-]. by eapply evictExpired_feed.
  - destruct (setCapacity cap s) as [s1|] eqn:E; [|done]. intros [= <- <-]. by eapply setCapacity_feed.
  - intros [= <- <-]. by apply feeds_nil.
Qed.

(** Runs in which no write is evicted by itself, and no wheel runs out of ticks. *)
Inductive clean_runs : list StoreOp → Store PN PS → Store PN PS → Prop :=
  | clean_nil s : clean_runs [] s s
  | clean_cons op ops s r s1 s2 :
      op_ok op → op_may op s = true → run_op op s = Some (r, s1) → (∀ k e, op_writes op s = Some (k, e) → r = Ok () → is_Some (lookup_store s1 k)) →
      clean_runs ops s1 s2 → clean_runs (op :: ops) s s2.

Lemma residents_single (shs : list (Shard PN PS)) j sh i :
  shs !! j = Some sh → (∀ m sh', m ≠ j → shs !! m = Some sh' → resident (cores sh') i = 0) → residents shs i = resident (cores sh) i.
Proof.
  revert j. induction shs as [|sh0 shs IH]; intros [|j] E Hz; simplify_eq/=.
  - assert (residents shs i = 0) as ->; [|lia]. assert (∀ m sh', shs !! m = Some sh' → resident (cores sh') i = 0) as Hz'.
    { intros m sh' Hm. by apply (Hz (S m)). }
    clear IH Hz. induction shs as [|sh1 shs IH]; [done|]. simpl. rewrite (Hz' 0%nat sh1) by done. rewrite IH; [done|].
    intros m. apply (Hz' (S m)).
  - rewrite (Hz 0%nat sh0) by done. rewrite (IH j E); [lia|]. intros m sh' Hm. apply (Hz (S m)). lia.
Qed.

(** The shards hold an identity once, or not at all, as the key's entry says. *)
Lemma residents_lookup s k vt w :
  store_inv s → residents (shards s) (k, vt, w) = from_option (λ e, one (k, e) (k, vt, w)) 0 (lookup_store s k).
Proof.
  intros Hs. destruct (home_shard k s Hs) as (sh & Hsh & Hinv & ->). rewrite (residents_single _ _ sh _ Hsh).
  - by apply resident_entry.
  - intros m sh' Hm Hsh'. rewrite resident_entry by (by apply (si_shard s Hs m)).
    destruct (entry_at sh' k) as [e|] eqn:E; [|done]. by destruct Hm; rewrite (si_route s Hs m sh' k e).
Qed.

Lemma local_entry_facts c v ttl ver :
  isTombstone (local_entry c v ttl ver) = false ∧ value (local_entry c v ttl ver) = v ∧
  ∀ t, expired t (local_entry c v ttl ver) = from_option (λ ms, now c + ms * 1000000 <=? t) false ttl.
Proof.
  assert (Entry.wf (setVersion ver (with_value v emptyEntry))) as Hwf by (by apply setVersion_wf).
  assert (isTombstone (setVersion ver (with_value v emptyEntry)) = false) as Ht by (by rewrite setVersion_isTombstone).
  assert (hasTtl (setVersion ver (with_value v emptyEntry)) = false) as Httl by (by rewrite setVersion_hasTtl).
  unfold expired. destruct ttl as [ms|]; cbn [local_entry from_option].
  - rewrite setHasTtl_isTombstone, setHasTtl_hasTtl by exact Hwf. done.
  - rewrite Ht, Httl. done.
Qed.

Lemma clean_sync (ops : list StoreOp) s s' :
  store_inv s → in_sync s → 0 <= next_version (glob s) → Z.max (next_version (glob s)) (2 ^ 62) + Z.of_nat (length ops) < 2 ^ 64 - 1 →
  clean_runs ops s s' → in_sync s'.
Proof.
  intros Hs Hin Hv Hb Hrun. induction Hrun as [|op ops s r s1 s2 Hok Hmay E Hkept _ IH]; [done|]. cbn [length] in Hb.
  destruct (run_op_spec op s Hs Hok Hmay) as (r' & s1' & E' & Hs1 & Hv1 & Hv1'); [lia|]. rewrite E in E'. injection E' as <- <-.
  apply IH; [done| |lia..]. destruct (run_op_feed op s r s1 Hs Hok Hmay) as (evs & Hn & Hbal); [lia|done|].
  destruct Hin as (l & El & Hl). exists (l ++ evs). unfold noted in Hn. rewrite El in Hn. split; [done|]. intros i.
  rewrite balance_app, Hl, Hbal. assert (op_lost op s r s1 i = 0) as ->; [|lia].
  unfold op_lost. destruct (op_writes op s) as [[k e]|] eqn:Ew; [|done]. simpl. unfold lost. destruct r as [[]|]; [|done].
  by destruct (Hkept k e eq_refl eq_refl) as [? ->].
Qed.

(** Run the operations, checking that the runs are clean. *)
Fixpoint check_clean (ops : list StoreOp) s : option (Store PN PS) :=
  match ops with
  | [] => Some s
  | op :: ops =>
      '(r, s1) ← run_op op s;
      if op_may op s && match op_writes op s, r with Some (k, _), Ok _ => bool_decide (is_Some (lookup_store s1 k)) | _, _ => true end
      then check_clean ops s1 else None
  end.

Lemma check_clean_spec ops s s' : Forall op_ok ops → check_clean ops s = Some s' → clean_runs ops s s' ∧ run_ops ops s = Some s'.
Proof.
  intros Hok. revert s. induction Hok as [|op ops Hop Hok IH]; intros s; cbn [check_clean run_ops]; [intros [= <-]; split; [constructor|done]|].
  destruct (run_op op s) as [[r s1]|] eqn:E; cbn [mbind option_bind]; [|done].
  destruct (op_may op s) eqn:Em; [|done]. cbn [andb].
  destruct (match op_writes op s, r with Some (k, _), Ok _ => bool_decide (is_Some (lookup_store s1 k)) | _, _ => true end) eqn:Ek; [|done].
  intros H1. destruct (IH s1 H1) as [Hc Hr]. split; [|done]. apply (clean_cons op ops s r s1 s'); try done.
  intros k e Ew ->. rewrite Ew in Ek. by apply bool_decide_eq_true in Ek.
Qed.

(** ** The contract *)

(** C3: the store never follows a dangling node, index or wheel entry, and keeps
    its invariant: from a new store, any sequence of writes, deletes, reads,
    sweeps and changes of capacity or grace period runs.  Afterwards every
    shard's list, index, wheel, byte count and policy data agree, keys are in
    the shard they hash to, every version is below the Lamport clock, and every
    shard is within its capacity or holds only tombstones.  The seconds between
    the sweeps, one at least for each, must fit the 64-bit tick counters, as
    they do on a steady clock ([steady_ticks]). *)
Theorem store_invariant (c : Clock) (cap : Z) (ops : list StoreOp) :
  0 <= now c < 2 ^ 63 → Forall op_ok ops → Z.of_nat (length ops) < 2 ^ 62 → sweep_seconds (now c) ops <= max_ticks →
  ∃ s, run_ops ops (newStore c cap) = Some s ∧ store_inv s.
Proof.
  intros Hnow Hok Hlen Hsw. apply (run_ops_spec _ _ (now c)); [apply newStore_inv|done| |by apply new_wheels|];
    simpl; (rewrite wrap_small; [lia|unfold in_u; lia]).
Qed.

(** C4: writes are last-writer-wins.  A versioned write returns in every state.
    It changes nothing when the resident entry is newer, and fails, changing
    nothing, when the key is new and the value cannot fit its shard.  Otherwise
    it is accepted: the key has the new entry, every other key what it had,
    except for the entries that were evicted.  These are live entries of the
    key's shard, each evicted while the shard, with the new entry and without
    those evicted before, was over its capacity; none is when the shard has
    room, and in the end it fits or holds only tombstones.  The write is logged
    unless it was evicted itself, and the Lamport clock passes its version. *)
Theorem putVersioned_lww (c : Clock) (k : bytes) (e : VersionedEntry) s :
  store_inv s → Entry.wf e →
  ∃ r s', putVersioned hash c k e s = Some (r, s') ∧ store_inv s' ∧ put_outcome c k e s r s'.
Proof. apply putVersionedAt_spec. Qed.

(** A write that the shard has room for is stored and evicts nothing. *)
Lemma outcome_roomy c k e s r s' :
  put_outcome c k e s r s' → load_after s k e <= shardCapacity s → (∀ old, lookup_store s k = Some old → compareLww (stampOf e) (stampOf old) ≠ Less) →
  (lookup_store s k = None → coreSize (k, e) <= shardCapacity s) →
  r = Ok () ∧ ∀ k', lookup_store s' k' = written_at (lookup_store s) k e k'.
Proof.
  intros [old Hold Hless|Hnone Hbig|gone s1 []] Hroom Hfresh Hfit; [by destruct (Hfresh old)|specialize (Hfit Hnone); lia|]. split; [done|].
  destruct gone as [|x gone]; [|pose proof (mr_needed0 [] x gone eq_refl); simpl in *; lia]. intros k'. by rewrite mr_lookup0.
Qed.

(** A local entry is newer than the resident one. *)
Lemma local_fresh c v ttl k s old :
  store_inv s → 0 <= next_version (glob s) < 2 ^ 62 → lookup_store s k = Some old →
  compareLww (stampOf (local_entry c v ttl (next_version (glob s)))) (stampOf old) ≠ Less.
Proof.
  intros Hs Hv Hold. apply fresh_stamp. rewrite local_entry_version.
  destruct (home_shard k s Hs) as (sh & Hsh & _ & Hl). rewrite Hl in Hold. destruct (si_entry s Hs _ _ _ _ Hsh Hold).
  rewrite wrap_small; [done|]. unfold in_u. lia.
Qed.


(** reads show the resident entry and hide what is dead.  [get] returns the
    value exactly when the key has an entry that has not expired and is no
    tombstone, [getVersioned] the entry whenever it has not expired; an expired
    entry is dropped, and no other key and no live entry changes. *)
Theorem reads_hide_expired (c : Clock) (k : bytes) s :
  store_inv s →
  let live := e ← lookup_store s k; if expired (now c) e then None else Some e in
  ∃ s1 s2, get hash c k s = Some (e ← live; if isTombstone e then None else Some (value e), s1) ∧
    getVersioned hash c k s = Some (live, s2) ∧ store_inv s1 ∧ store_inv s2 ∧
    ∀ k', lookup_store s1 k' = (if decide (k' = k) then live else lookup_store s k') ∧
      lookup_store s2 k' = if decide (k' = k) then live else lookup_store s k'.
Proof.
  intros Hs live. destruct (get_spec c k s Hs) as (s1 & -> & Hs1 & _ & Hl1). destruct (getVersioned_spec c k s Hs) as (s2 & -> & Hs2 & _ & Hl2).
  exists s1, s2. split_and!; try done. f_equal. f_equal. unfold live. destruct (lookup_store s k) as [e|]; simpl; [|done]. by destruct (expired (now c) e).
Qed.

(** C28: a sweep reaps what has expired and nothing else.  It runs in every state
    and leaves each key as it was, unless its entry had expired.  An expired
    entry is gone if its timer is due within as many ticks as whole seconds have
    passed since the shard's last sweep, one at least.  The time since then and
    the ticks must fit their 64 bits. *)
Theorem sweep_reaps_expired (c : Clock) s :
  store_inv s → may_sweep c s = true →
  ∃ n s', evictExpired c s = Some (n, s') ∧ store_inv s' ∧
    (∀ k, lookup_store s' k = lookup_store s k ∨
      lookup_store s' k = None ∧ ∃ e, lookup_store s k = Some e ∧ expired (now c) e = true) ∧
    ∀ i sh k e, shards s !! i = Some sh → overdue_at (now c) sh k e → lookup_store s' k = None.
Proof. intros Hs Hm. destruct (evictExpired_spec c s Hs Hm) as (n & s' & ? & ? & _ & ? & ? & _). eauto 8. Qed.

(** the mutation feed keeps a digest of the store exact.  As long as no write
    is evicted by itself, a consumer that counts additions less removals has
    one of every resident identity (key, version bits, writer) and none of any
    other, after any sequence of operations. *)
Theorem feed_in_sync (ops : list StoreOp) s s' :
  store_inv s → in_sync s → 0 <= next_version (glob s) → Z.max (next_version (glob s)) (2 ^ 62) + Z.of_nat (length ops) < 2 ^ 64 - 1 →
  clean_runs ops s s' → in_sync s'.
Proof. apply clean_sync. Qed.

(** a write that is evicted by itself corrupts the feed.  It reports success,
    and the consumer is told that its identity was removed without having been
    told that it was added: the count of an identity that is not resident is
    minus one from then on. *)
Theorem self_evicted_write_breaks_feed (c : Clock) (k : bytes) (e : VersionedEntry) s s' :
  store_inv s → in_sync s → Entry.wf e → putVersioned hash c k e s = Some (Ok (), s') → lookup_store s' k = None →
  ∃ l, sink (glob s') = Some l ∧ residents (shards s') (ident (k, e)) = 0 ∧ balance l (ident (k, e)) = -1 ∧
    ∀ i, i ≠ ident (k, e) → balance l i = residents (shards s') i.
Proof.
  intros Hs (l & El & Hl) Hwf E Hk. destruct (putVersionedAt_spec c k e (if hasTtl e then now c else 0) s Hs Hwf) as (r' & s1 & E' & Hs' & _).
  unfold putVersioned in E. rewrite E in E'. injection E' as <- <-. destruct (putVersionedAt_feed _ _ _ _ _ _ _ Hs Hwf E) as (evs & Hn & Hb).
  unfold noted in Hn. rewrite El in Hn. exists (l ++ evs). split; [done|].
  assert (residents (shards s') (ident (k, e)) = 0) as Hz by (unfold ident; cbn [fst snd]; rewrite residents_lookup by done; by rewrite Hk). split; [done|].
  assert (∀ i, balance (l ++ evs) i = residents (shards s') i - one (k, e) i) as Hbal.
  { intros i. rewrite balance_app, Hl, Hb. unfold lost. rewrite Hk. lia. }
  split; [rewrite Hbal, Hz; unfold one; by rewrite decide_True|]. intros i Hi. rewrite Hbal. unfold one. rewrite decide_False by done. lia.
Qed.

(** an update that cannot fit deletes the key and reports success.  The size
    check guards only new keys: an accepted write of an oversized value to a
    resident key evicts live entries until the key itself is gone. *)
Theorem oversized_update_deletes (c : Clock) (k : bytes) (e old : VersionedEntry) s :
  store_inv s → Entry.wf e → isTombstone e = false → shardCapacity s < coreSize (k, e) →
  lookup_store s k = Some old → compareLww (stampOf e) (stampOf old) ≠ Less →
  ∃ s', putVersioned hash c k e s = Some (Ok (), s') ∧ lookup_store s' k = None ∧ persistence (glob s') = persistence (glob s).
Proof.
  intros Hs Hwf Hlive Hbig Hold Hlww. destruct (putVersionedAt_spec c k e (if hasTtl e then now c else 0) s Hs Hwf) as (r & s' & E & Hs' & Ho).
  exists s'. destruct Ho as [old' Hold' Hless|Hnone _|gone s' []]; [congruence..|].
  assert (lookup_store s' k = None) as Hk.
  { destruct (lookup_store s' k) as [x|] eqn:Hx; [|done]. exfalso. pose proof Hx as Hx'. rewrite mr_lookup0 in Hx'. case_decide; [done|].
    unfold written_at in Hx'. rewrite decide_True in Hx' by done. injection Hx' as <-. destruct (home_shard k s' Hs') as (sh' & Hsh' & Hinv' & Hl').
    rewrite Hl' in Hx. pose proof (put_bound_entry (shardCapacity s') k e sh' Hinv' (si_bound s' Hs' _ _ Hsh') Hx Hlive). lia. }
  split; [done|]. split; [done|]. rewrite mr_log0. rewrite mr_lookup0 in Hk. case_decide; [done|]. unfold written_at in Hk. by rewrite decide_True in Hk.
Qed.

(** versions run out.  Once a remote write with the largest 62-bit version
    was accepted, the Lamport clock is beyond the field: a local put is given
    version zero, reports success, and leaves the key as it was. *)
Theorem version_exhaustion (c c' : Clock) (k v : bytes) (ttl : option Z) (e : VersionedEntry) s s1 r :
  store_inv s → 0 <= next_version (glob s) <= 2 ^ 62 → Entry.wf e → version e = 2 ^ 62 - 1 →
  putVersioned hash c k e s = Some (r, s1) → lookup_store s1 k = Some e →
  ∃ s2, put hash c' k v ttl s1 = Some (Ok (), s2) ∧ ∀ k', lookup_store s2 k' = lookup_store s1 k'.
Proof.
  intros Hs Hv Hwf Hver E Hk. destruct (putVersionedAt_spec c k e (if hasTtl e then now c else 0) s Hs Hwf) as (r' & s1' & E' & Hs1 & Ho).
  unfold putVersioned in E. rewrite E in E'. injection E' as <- <-.
  assert (next_version (glob s1) = 2 ^ 62) as Hn.
  { destruct (home_shard k s1 Hs1) as (sh & Hsh & _ & Hl). rewrite Hl in Hk. destruct (si_entry s1 Hs1 _ _ _ _ Hsh Hk).
    destruct (outcome_version _ _ _ _ _ _ Ho); lia. }
  destruct (mint_store s1 Hs1) as (Hs2 & _ & Hl2); [lia|]. rewrite put_unfold, Hn. set (s0 := mkStore _ _) in *.
  destruct (putVersionedAt_spec c' k (local_entry c' v ttl (2 ^ 62)) (from_option (λ _, now c') 0 ttl) s0 Hs2 (local_entry_wf _ _ _ _)) as (r2 & s2 & -> & _ & Ho2).
  assert (compareLww (stampOf (local_entry c' v ttl (2 ^ 62))) (stampOf e) = Less) as Hless.
  { apply compareLww_Less. unfold lww_lt. left. unfold stampOf. cbn [s_version]. rewrite local_entry_version, Hver. by vm_compute. }
  pose proof (eq_trans (Hl2 k) Hk) as Hk0. destruct Ho2 as [old' _ _|Hnone _|gone s2 []].
  - exists s0. done.
  - congruence.
  - by destruct (mr_fresh0 e Hk0).
Qed.
End spec.

(** ** The contract at work, with the LRU policy *)

Definition demo_hash (k : bytes) : Z := zlen k.

Definition dead (v : string) (ver : Z) : VersionedEntry := setTombstone true (demo_entry v ver).

Lemma dead_wf v ver : Entry.wf (dead v ver).
Proof. apply setTombstone_wf, demo_entry_wf. Qed.

Definition demo_ops : list StoreOp :=
  [OPutVersioned demo_clock (lit "a") (demo_entry "1" 3); OPut demo_clock (lit "b") (lit "2") (Some 500);
   ORemoveVersioned demo_clock (lit "c") 7 1; OGet demo_clock (lit "a")].

Lemma demo_ops_ok : Forall op_ok demo_ops.
Proof. repeat constructor; apply demo_entry_wf. Qed.

Definition demo_store : Store () () := after demo_hash demo_clock 500 demo_ops.

Lemma demo_store_inv : store_inv demo_hash demo_store.
Proof. apply after_inv; [by vm_compute|apply demo_ops_ok|by vm_compute|by vm_compute]. Qed.

Lemma store_invariant_witness :
  ∃ s : Store () (), run_ops demo_hash demo_ops (newStore demo_clock 500) = Some s ∧ store_inv demo_hash s.
Proof. apply store_invariant; [by vm_compute|apply demo_ops_ok|by vm_compute|by vm_compute]. Defined.

Lemma putVersioned_lww_witness :
  option_map (λ x, lookup_store demo_hash x.2 (lit "b")) (putVersioned demo_hash demo_clock (lit "b") (demo_entry "3" 2000000000) demo_store) =
    Some (Some (demo_entry "3" 2000000000)) ∧
  ∃ r s', putVersioned demo_hash demo_clock (lit "b") (demo_entry "3" 2000000000) demo_store = Some (r, s') ∧ store_inv demo_hash s' ∧
    put_outcome demo_hash demo_clock (lit "b") (demo_entry "3" 2000000000) demo_store r s'.
Proof. split; [vm_compute; reflexivity|]. apply putVersioned_lww; [apply demo_store_inv|apply demo_entry_wf]. Defined.


Lemma reads_hide_expired_witness :
  ∃ s1 s2, get demo_hash demo_clock (lit "a") demo_store = Some (Some (lit "1"), s1) ∧
    getVersioned demo_hash demo_clock (lit "a") demo_store = Some (Some (demo_entry "1" 3), s2).
Proof.
  destruct (reads_hide_expired demo_hash demo_clock (lit "a") demo_store demo_store_inv) as (s1 & s2 & E1 & E2 & _).
  exists s1, s2. split; [rewrite E1|rewrite E2]; vm_compute; reflexivity.
Defined.

Definition later_clock : Clock := mkClock 5000000000 1700000004000000000.

Definition demo_sh : Shard () () := hd (emptyShard 0) (shards demo_store).

Lemma demo_sh_home : shards demo_store !! 0%nat = Some demo_sh.
Proof. unfold demo_sh. pose proof (si_some _ _ demo_store_inv). by destruct (shards demo_store). Qed.

Lemma demo_sh_overdue : overdue_at (now later_clock) demo_sh (lit "b") (local_entry demo_clock (lit "2") (Some 500) 1000000000).
Proof. split; [vm_compute; reflexivity|]. exists 2%nat, 1. split_and!; vm_compute; (reflexivity || discriminate). Qed.

Lemma sweep_reaps_expired_witness :
  is_Some (lookup_store demo_hash demo_store (lit "b")) ∧
  ∃ n s', evictExpired later_clock demo_store = Some (n, s') ∧ lookup_store demo_hash s' (lit "b") = None.
Proof.
  split; [vm_compute; eexists; reflexivity|].
  destruct (sweep_reaps_expired demo_hash later_clock demo_store demo_store_inv) as (n & s' & E & _ & _ & Hgone); [by vm_compute|].
  exists n, s'. split; [exact E|]. exact (Hgone 0%nat demo_sh _ _ demo_sh_home demo_sh_overdue).
Defined.

Definition crowded_ops : list StoreOp :=
  [OPutVersioned demo_clock (lit "a") (dead "" 3); OPutVersioned demo_clock (lit "b") (dead "" 4)].

Lemma crowded_ops_ok : Forall op_ok crowded_ops.
Proof. repeat constructor; apply dead_wf. Qed.

(** Two tombstones leave no room for a third entry. *)
Definition crowded : Store () () := after demo_hash demo_clock 300 crowded_ops.

Lemma crowded_inv : store_inv demo_hash crowded.
Proof. apply after_inv; [by vm_compute|apply crowded_ops_ok|by vm_compute|by vm_compute]. Qed.

Lemma attached_sync c cap : in_sync (attached (PN := ()) (PS := ()) c cap).
Proof.
  exists []. split; [reflexivity|]. intros i. cbn [attached shards newStore].
  induction (Z.to_nat (shardCountFor cap)) as [|n IH]; [reflexivity|]. exact IH.
Qed.

Lemma after_sync (ops : list StoreOp) c cap :
  0 <= now c < 2 ^ 63 → Forall op_ok ops → Z.of_nat (length ops) < 2 ^ 62 →
  bool_decide (is_Some (check_clean (PN := ()) (PS := ()) demo_hash ops (attached c cap))) = true →
  let s : Store () () := after demo_hash c cap ops in in_sync s ∧ clean_runs demo_hash ops (attached c cap) s.
Proof.
  intros Hnow Hok Hlen [s E]%bool_decide_eq_true. destruct (check_clean_spec _ _ _ _ Hok E) as [Hc Hr].
  unfold after. rewrite Hr. split; [|exact Hc]. eapply clean_sync; [apply attached_inv|apply attached_sync|..|exact Hc].
  all: simpl; rewrite wrap_small; [lia|unfold in_u; lia].
Qed.

Lemma feed_in_sync_witness : in_sync demo_store.
Proof.
  apply (feed_in_sync demo_hash demo_ops (attached demo_clock 500)); [apply attached_inv|apply attached_sync|by vm_compute|by vm_compute|].
  apply after_sync; [by vm_compute|apply demo_ops_ok|by vm_compute|vm_compute; reflexivity].
Defined.

Lemma crowded_sync : in_sync crowded.
Proof. apply after_sync; [by vm_compute|apply crowded_ops_ok|by vm_compute|vm_compute; reflexivity]. Qed.

Lemma self_evicted_write_breaks_feed_witness :
  ∃ s' l, putVersioned demo_hash demo_clock (lit "c") (demo_entry "1" 5) crowded = Some (Ok (), s') ∧ sink (glob s') = Some l ∧
    balance l (ident (lit "c", demo_entry "1" 5)) = -1.
Proof.
  assert (match putVersioned demo_hash demo_clock (lit "c") (demo_entry "1" 5) crowded with
    | Some (Ok _, s') => bool_decide (lookup_store demo_hash s' (lit "c") = None) | _ => false end = true) as Hrun by (vm_compute; reflexivity).
  destruct (putVersioned demo_hash demo_clock (lit "c") (demo_entry "1" 5) crowded) as [[[[]|] s']|] eqn:E; [|discriminate Hrun..].
  apply bool_decide_eq_true in Hrun.
  destruct (self_evicted_write_breaks_feed demo_hash demo_clock (lit "c") (demo_entry "1" 5) crowded s' crowded_inv crowded_sync
    (demo_entry_wf _ _) E Hrun) as (l & Hl & _ & Hb & _).
  exists s', l. split_and!; [reflexivity|exact Hl|exact Hb].
Defined.

Definition big_entry : VersionedEntry := setVersion 99 (with_value (replicate 400 x61) emptyEntry).

Lemma big_entry_facts :
  Entry.wf big_entry ∧ isTombstone big_entry = false ∧ shardCapacity demo_store < coreSize (PN := ()) (PS := ()) (lit "a", big_entry) ∧
  lookup_store demo_hash demo_store (lit "a") = Some (demo_entry "1" 3) ∧
  compareLww (stampOf big_entry) (stampOf (demo_entry "1" 3)) ≠ Less.
Proof.
  split; [by apply setVersion_wf|]. split; [vm_compute; reflexivity|]. split; [vm_compute; reflexivity|].
  split; [vm_compute; reflexivity|]. vm_compute. discriminate.
Qed.

Lemma oversized_update_deletes_witness :
  ∃ s', putVersioned demo_hash demo_clock (lit "a") big_entry demo_store = Some (Ok (), s') ∧ lookup_store demo_hash s' (lit "a") = None.
Proof.
  destruct big_entry_facts as (H1 & H2 & H3 & H4 & H5).
  destruct (oversized_update_deletes demo_hash demo_clock (lit "a") big_entry (demo_entry "1" 3) demo_store demo_store_inv H1 H2 H3 H4 H5)
    as (s' & E & Hk & _).
  exists s'. split; [exact E|exact Hk].
Defined.

Lemma version_exhaustion_witness :
  ∃ r s1 s2, putVersioned demo_hash demo_clock (lit "a") (demo_entry "1" (2 ^ 62 - 1)) demo_store = Some (r, s1) ∧
    put demo_hash demo_clock (lit "a") (lit "2") None s1 = Some (Ok (), s2) ∧
    lookup_store demo_hash s2 (lit "a") = Some (demo_entry "1" (2 ^ 62 - 1)).
Proof.
  assert (match putVersioned demo_hash demo_clock (lit "a") (demo_entry "1" (2 ^ 62 - 1)) demo_store with
    | Some (_, s') => bool_decide (lookup_store demo_hash s' (lit "a") = Some (demo_entry "1" (2 ^ 62 - 1))) | _ => false end = true) as Hrun
    by (vm_compute; reflexivity).
  destruct (putVersioned demo_hash demo_clock (lit "a") (demo_entry "1" (2 ^ 62 - 1)) demo_store) as [[r s1]|] eqn:E; [|discriminate Hrun].
  apply bool_decide_eq_true in Hrun.
  destruct (version_exhaustion demo_hash demo_clock demo_clock (lit "a") (lit "2") None (demo_entry "1" (2 ^ 62 - 1)) demo_store s1 r
    demo_store_inv) as (s2 & E2 & Hk); [split; vm_compute; discriminate|apply demo_entry_wf|vm_compute; reflexivity|exact E|exact Hrun|].
  exists r, s1, s2. split; [reflexivity|]. split; [exact E2|]. rewrite Hk. exact Hrun.
Defined.
