(* ===== verification/Persistence.v ===== *)
(** * The persistence manager (include/cinder/store/persistence.hpp, src/store/persistence.cpp)

    The data directory is a map from file names to contents, changed by writes,
    renames and removals of single files.  The code is written over any
    [FileSystem]: a [Dir] is the directory itself, [Traced] also notes every
    directory that a crash can leave on the way.  The open log writer owns the bytes of its file;
    [wal_linked] says whether that file still has the name [wal.log].  Whether
    an operation of the file system succeeds is an argument, and so is the time
    stamp in the name of a snapshot.  A call reads one [Clock].  The store's
    calls of [onWrite] are collected by the store; [deliver] hands them over. *)

From S2P Require Import Prelude Types Bytes Text Buffers Clock Wal Snapshot WheelHeap TtlWheel Store StoreFacts LruStore LfuStore.
Local Open Scope Z_scope.

Abbreviation Dir := (gmap bytes bytes).

Definition K_WAL_FILENAME : bytes := lit "wal.log".
Definition K_WAL_SEGMENT_PREFIX : bytes := lit "wal_".
Definition K_WAL_SEGMENT_SUFFIX : bytes := lit ".log".
Definition K_WAL_HEADER_SIZE : nat := 8.
Definition K_SNAPSHOT_PREFIX : bytes := lit "snapshot_".
Definition K_SNAPSHOT_SUFFIX : bytes := lit ".dat".
Definition K_CURRENT_FILENAME : bytes := lit "CURRENT".
Definition K_SNAPSHOTS_TO_KEEP : nat := 2.

(** ** The file system *)

(** Writing the content of a file, of which the first bytes are in place
    already; a rename replaces the target. *)
Inductive FsOp :=
  | FsWrite (name : bytes) (kept : nat) (content : bytes)
  | FsRemove (name : bytes)
  | FsRename (from to : bytes).

Definition fs_apply (op : FsOp) (d : Dir) : Dir :=
  match op with
  | FsWrite name _ content => <[name := content]> d
  | FsRemove name => delete name d
  | FsRename from to => match d !! from with Some b => <[to := b]> (delete from d) | None => d end
  end.

(** The directories that a crash leaves once the operation has begun: a write
    may stop behind any byte, the others happen at once. *)
Definition fs_states (op : FsOp) (d : Dir) : list Dir :=
  match op with
  | FsWrite name kept content => (λ i, <[name := take i content]> d) <$> seq kept (S (length content - kept))
  | _ => [fs_apply op d]
  end.

Class FileSystem (D : Type) := {
  view : D → Dir;
  exec : FsOp → D → D;
  view_exec op d : view (exec op d) = fs_apply op (view d) }.

#[global] Program Instance dir_fs : FileSystem Dir := {| view := λ d, d; exec := fs_apply |}.
Next Obligation. done. Qed.

(** A directory and all that a crash could have left so far. *)
Definition Traced : Type := Dir * list Dir.

#[global] Program Instance traced_fs : FileSystem Traced | 10 := {|
  view := fst;
  exec := λ op t, (fs_apply op t.1, t.2 ++ fs_states op t.1) |}.
Next Obligation. done. Qed.

Definition tmp_of (name : bytes) : bytes := name ++ lit ".tmp".

(** The answers to a publication: the fsync of the staged file, the rename with
    its message when it fails, the fsync of the directory. *)
Record PubIo := mkPubIo { pub_sync : bool; pub_rename : option bytes; pub_dir : bool }.

Definition pub_ok : PubIo := mkPubIo true None true.

Section files.
Context {D : Type} `{FileSystem D}.
Implicit Types (d : D).

(** A staged file that does not exist cannot be opened for the fsync. *)
Definition publishTempFile (io : PubIo) (tmp final : bytes) (what : String.string) d : Result () * D :=
  match (if pub_sync io then view d !! tmp else None) with
  | None => (Err (mkError InternalError (lit what ++ lit " tmp fsync failed")), exec (FsRemove tmp) d)
  | Some _ =>
      match pub_rename io with
      | Some msg => (Err (mkError InternalError (lit what ++ lit " rename failed: " ++ msg)), exec (FsRemove tmp) d)
      | None =>
          let d := exec (FsRename tmp final) d in
          if negb (pub_dir io) then (Err (mkError InternalError (lit what ++ lit " dir fsync failed")), d) else (Ok (), d)
      end
  end.
End files.

(** [cur_left] is what a failed write leaves in the staged file. *)
Record CurIo := mkCurIo { cur_open : bool; cur_write : bool; cur_close : bool; cur_left : bytes; cur_pub : PubIo }.

Definition cur_ok : CurIo := mkCurIo true true true [] pub_ok.

Definition c_newline : byte := x0a.
Definition c_return : byte := x0d.

Definition publishCurrent {D} `{FileSystem D} (io : CurIo) (name : bytes) (d : D) : Result () * D :=
  let tmp := tmp_of K_CURRENT_FILENAME in
  if negb (cur_open io) then (Err (mkError InternalError (lit "CURRENT open failed")), d)
  else if negb (cur_write io) then (Err (mkError InternalError (lit "CURRENT write failed")), exec (FsWrite tmp 0 (cur_left io)) d)
  else if negb (cur_close io) then (Err (mkError InternalError (lit "CURRENT close failed")), exec (FsWrite tmp 0 (cur_left io)) d)
  else publishTempFile (cur_pub io) tmp K_CURRENT_FILENAME "CURRENT" (exec (FsWrite tmp 0 (name ++ [c_newline])) d).

(** [std::getline]: up to the first newline. *)
Fixpoint getline (s : bytes) : bytes :=
  match s with
  | [] => []
  | b :: s => if decide (b = c_newline) then [] else b :: getline s
  end.

(** The [pop_back] loop. *)
Fixpoint strip_front (s : bytes) : bytes :=
  match s with
  | [] => []
  | b :: s' => if decide (b = c_newline ∨ b = c_return) then strip_front s' else s
  end.

Definition readCurrent (d : Dir) : bytes :=
  match d !! K_CURRENT_FILENAME with
  | None => []
  | Some content => rev (strip_front (rev (getline content)))
  end.

(** [{:020}] *)
Definition pad20 (s : bytes) : bytes := replicate (20 - length s) "0"%byte ++ s.

Definition walSegmentName (seq : Z) : bytes := K_WAL_SEGMENT_PREFIX ++ pad20 (to_string seq) ++ K_WAL_SEGMENT_SUFFIX.

Definition starts_with (p s : bytes) : bool := bool_decide (take (length p) s = p).
Definition ends_with (p s : bytes) : bool := bool_decide (drop (length s - length p) s = p).

Definition parseWalSegmentSeq (name : bytes) : option Z :=
  let prefix := K_WAL_SEGMENT_PREFIX in
  let suffix := K_WAL_SEGMENT_SUFFIX in
  if (length name <=? length prefix + length suffix)%nat || negb (starts_with prefix name) || negb (ends_with suffix name) then None
  else parseUint 64 (take (length name - length prefix - length suffix) (drop (length prefix) name)).

Definition sortedDirEntries (d : Dir) : list bytes := merge_sort bytes_le (map_to_list d).*1.

Definition isSnapshotFile (name : bytes) : bool :=
  (length K_SNAPSHOT_PREFIX + length K_SNAPSHOT_SUFFIX <? length name)%nat &&
  starts_with K_SNAPSHOT_PREFIX name && ends_with K_SNAPSHOT_SUFFIX name.

Definition listSnapshotFiles (d : Dir) : list bytes := filter (λ n, isSnapshotFile n = true) (sortedDirEntries d).

Definition findLatestSnapshot (d : Dir) : option bytes :=
  let current := readCurrent d in
  if negb (bool_decide (current = [])) && isSnapshotFile current && bool_decide (is_Some (d !! current)) then Some current
  else last (listSnapshotFiles d).

(** [removes n] says whether the removal of the file [n] succeeds. *)
Fixpoint prune_loop {D} `{FileSystem D} (removes : bytes → bool) (protected : bytes) (size removed : nat) (snaps : list bytes) (d : D) : D :=
  match snaps with
  | [] => d
  | snap :: snaps =>
      if (size - removed <=? K_SNAPSHOTS_TO_KEEP)%nat then d
      else if bool_decide (snap = protected) then prune_loop removes protected size removed snaps d
      else if removes snap then prune_loop removes protected size (S removed) snaps (exec (FsRemove snap) d)
      else prune_loop removes protected size removed snaps d
  end.

Definition pruneOldSnapshots {D} `{FileSystem D} (removes : bytes → bool) (d : D) : D :=
  let snaps := listSnapshotFiles (view d) in
  if (length snaps <=? K_SNAPSHOTS_TO_KEEP)%nat then d
  else prune_loop removes (readCurrent (view d)) (length snaps) 0 snaps d.

Definition seq_le (a b : Z * bytes) : Prop := a.1 <= b.1.

#[global] Instance seq_le_dec : RelDecision seq_le.
Proof. intros a b. unfold seq_le. apply _. Defined.

(** Sealed segments in the order of their numbers, then the active file. *)
Definition findWalFiles (d : Dir) : list bytes :=
  let names := sortedDirEntries d in
  let sealed := omap (λ n, if decide (n = K_WAL_FILENAME) then None else (λ seq, (seq, n)) <$> parseWalSegmentSeq n) names in
  (merge_sort seq_le sealed).*2 ++ (if decide (K_WAL_FILENAME ∈ names) then [K_WAL_FILENAME] else []).

(** ** Entries and records *)

(** [static_cast<int64_t>] *)
Definition to_i64 (z : Z) : Z := if u64 z <? 2 ^ 63 then u64 z else u64 z - 2 ^ 64.

(** [None]: expired. *)
Definition rebaseExpiry (c : Clock) (ve : VersionedEntry) (has_ttl : bool) (expires_at_ms : Z) : option VersionedEntry :=
  if negb has_ttl || (expires_at_ms =? 0) then Some ve
  else
    let now_ms := nowSystemMs c in
    if expires_at_ms <=? now_ms then None
    else
      let remaining_ms := to_i64 (expires_at_ms - now_ms) in
      let remaining_ms := if remaining_ms <? 1 then 1 else remaining_ms in
      Some (with_expires (now c + remaining_ms * 1000000) ve).

Definition versionedFromSnapshot (c : Clock) (e : SnapshotEntry) : option VersionedEntry :=
  let ve := with_writer (se_writer_node_hash e) (setVersion (se_version e) (with_value (se_value e) emptyEntry)) in
  let ve := setTombstone (se_tombstone e) (setHasTtl (se_has_ttl e) ve) in
  rebaseExpiry c ve (se_has_ttl e) (se_expires_at_ms e).

Definition versionedFromWal (c : Clock) (e : WalEntry) : option VersionedEntry :=
  let ve := with_writer (we_writer_node_hash e) (setVersion (we_version e) (with_value (we_value e) emptyEntry)) in
  let ve := setTombstone (we_is_tombstone e) (setHasTtl (we_has_ttl e) ve) in
  rebaseExpiry c ve (we_has_ttl e) (we_expires_at_ms e).

(** ** The policy's frequencies, as the manager sees them *)

Class FreqStore (PN PS : Type) := {
  entry_freq : (bytes → Z) → bytes → Store PN PS → Z;
  restore_freq : (bytes → Z) → bytes → Z → Store PN PS → option (() * Store PN PS) }.

(** The defaults of [CacheStore]. *)
#[global] Instance lru_freq : FreqStore () () := {|
  entry_freq := λ _ _ _, 0;
  restore_freq := λ _ _ _ s, Some ((), s) |}.

#[global] Instance lfu_freq : FreqStore Freq FreqMap := {|
  entry_freq := entryFreq;
  restore_freq := restoreFreq |}.

(** ** The manager *)

Record Options := mkOptions {
  enabled : bool;
  max_wal_entries : Z;
  max_wal_bytes : Z;
  max_wal_segment_bytes : Z;
  max_sealed_segments : Z;
  wal_fsync : bool }.

Record PM := mkPM {
  pending_wal : list WalEntry;
  wal : option WalWriter;
  wal_linked : bool;
  wal_entry_count : Z;
  wal_bytes : Z;
  wal_sealed_entries : Z;
  wal_sealed_bytes : Z;
  wal_sealed_count : Z;
  wal_next_seq : Z;
  loading : bool }.

Definition newPM : PM := mkPM [] None true 0 0 0 0 0 1 false.

Definition walNeedsCompact (o : Options) (pm : PM) : bool :=
  let total_entries := u64 (wal_entry_count pm + wal_sealed_entries pm) in
  let total_bytes := u64 (wal_bytes pm + wal_sealed_bytes pm) in
  (max_wal_entries o >? 0) && (total_entries >=? max_wal_entries o) ||
  (max_wal_bytes o >? 0) && (total_bytes >=? max_wal_bytes o) ||
  (max_sealed_segments o >? 0) && (wal_sealed_count pm >=? max_sealed_segments o).

Definition with_pending (q : list WalEntry) (pm : PM) : PM :=
  mkPM q (wal pm) (wal_linked pm) (wal_entry_count pm) (wal_bytes pm) (wal_sealed_entries pm) (wal_sealed_bytes pm)
    (wal_sealed_count pm) (wal_next_seq pm) (loading pm).

Definition with_wal (w : option WalWriter) (linked : bool) (pm : PM) : PM :=
  mkPM (pending_wal pm) w linked (wal_entry_count pm) (wal_bytes pm) (wal_sealed_entries pm) (wal_sealed_bytes pm)
    (wal_sealed_count pm) (wal_next_seq pm) (loading pm).

Definition with_counts (entries nbytes : Z) (pm : PM) : PM :=
  mkPM (pending_wal pm) (wal pm) (wal_linked pm) entries nbytes (wal_sealed_entries pm) (wal_sealed_bytes pm)
    (wal_sealed_count pm) (wal_next_seq pm) (loading pm).

Definition with_sealed (entries nbytes count next_seq : Z) (pm : PM) : PM :=
  mkPM (pending_wal pm) (wal pm) (wal_linked pm) (wal_entry_count pm) (wal_bytes pm) entries nbytes count next_seq (loading pm).

Definition with_loading (b : bool) (pm : PM) : PM :=
  mkPM (pending_wal pm) (wal pm) (wal_linked pm) (wal_entry_count pm) (wal_bytes pm) (wal_sealed_entries pm) (wal_sealed_bytes pm)
    (wal_sealed_count pm) (wal_next_seq pm) b.

(** [PersistenceManager::onWrite] *)
Definition enqueue (e : WalEntry) (pm : PM) : PM := if loading pm then pm else with_pending (pending_wal pm ++ [e]) pm.

Definition file_size (name : bytes) (d : Dir) : Z := from_option zlen 0 (d !! name).

(** The constructor of a writer on a file of the directory. *)
Definition openAt {D} `{FileSystem D} (io : OpenIo) (name : bytes) (mode : WalOpenMode) (d : D) : option (WalWriter * D) :=
  w ← openWal io (view d !! name) mode;
  let before := default [] (view d !! name) in
  let kept := match mode with Append => if starts_with before (w_file w) then length before else 0%nat | Truncate => 0%nat end in
  Some (w, if open_ok io then exec (FsWrite name kept (w_file w)) d else d).

Inductive DrainResult := Empty | Complete | Partial.

(** The answers to the rotation of the log; [size_ok] is [file_size]. *)
Record RotIo := mkRotIo { rot_open : OpenIo; rot_pub : PubIo; rot_size : bool }.

Section rotation.
Context {D : Type} `{FileSystem D}.
Implicit Types (d : D).

Definition replaceWalLocked (io : RotIo) (pm : PM) d : option (Result () * PM * D) :=
  let tmp := tmp_of K_WAL_FILENAME in
  '(fresh, d) ← openAt (rot_open io) tmp Truncate d;
  let renamed := pub_sync (rot_pub io) && bool_decide (is_Some (view d !! tmp)) && bool_decide (pub_rename (rot_pub io) = None) in
  let '(published, d) := publishTempFile (rot_pub io) tmp K_WAL_FILENAME "WAL rotate" d in
  match published with
  | Err x => Some (Err x, with_wal (wal pm) (wal_linked pm && negb renamed) pm, d)
  | Ok _ => Some (Ok (), with_counts 0 (if rot_size io then file_size K_WAL_FILENAME (view d) else 0) (with_wal (Some fresh) true pm), d)
  end.
End rotation.

(** The answers to a seal; [seal_reopen] is for the rollbacks. *)
Record SealIo := mkSealIo {
  seal_size : bool;
  seal_rename : option bytes;
  seal_dir : bool;
  seal_rotate : RotIo;
  seal_back : bool;
  seal_reopen : OpenIo }.

Section seal.
Context {D : Type} `{FileSystem D}.
Implicit Types (d : D).

Definition reopen (io : OpenIo) (pm : PM) d : option (PM * D) :=
  '(w, d) ← openAt io K_WAL_FILENAME Append d;
  Some (with_wal (Some w) true pm, d).

Definition sealActiveWalLocked (io : SealIo) (pm : PM) d : option (Result () * PM * D) :=
  let sealed_bytes := file_size K_WAL_FILENAME (view d) in
  let sealed_entries := wal_entry_count pm in
  let pm := with_wal None true pm in
  let seg := walSegmentName (wal_next_seq pm) in
  match seal_rename io with
  | Some msg =>
      '(pm, d) ← reopen (seal_reopen io) pm d;
      Some (Err (mkError InternalError (lit "WAL seal failed: " ++ msg)), pm, d)
  | None =>
      let d := exec (FsRename K_WAL_FILENAME seg) d in
      if negb (seal_dir io) then
        '(pm, d) ← reopen (seal_reopen io) pm d;
        Some (Err (mkError InternalError (lit "WAL seal dir fsync failed")), pm, d)
      else
        '(fresh, pm, d) ← replaceWalLocked (seal_rotate io) pm d;
        match fresh with
        | Err x =>
            let d := if seal_back io then exec (FsRename seg K_WAL_FILENAME) d else d in
            '(pm, d) ← reopen (seal_reopen io) pm d;
            Some (Err x, pm, d)
        | Ok _ =>
            Some (Ok (), with_sealed (u64 (wal_sealed_entries pm + sealed_entries))
                    (if seal_size io then u64 (wal_sealed_bytes pm + sealed_bytes) else wal_sealed_bytes pm)
                    (u64 (wal_sealed_count pm + 1)) (u64 (wal_next_seq pm + 1)) pm, d)
        end
  end.

Definition delete_files (removes : bytes → bool) (names : list bytes) d : D :=
  foldl (λ d n, if removes n then exec (FsRemove n) d else d) d names.

Definition deleteSealedSegmentsLocked (removes : bytes → bool) (pm : PM) d : PM * D :=
  (with_sealed 0 0 0 (wal_next_seq pm) pm,
   delete_files removes (filter (λ n, n ≠ K_WAL_FILENAME) (findWalFiles (view d))) d).
End seal.

Section manager.
Context {PN PS : Type} `{Policy PN PS} `{FreqStore PN PS} {D : Type} `{FileSystem D}.
Context (hash : bytes → Z) (xxh3 : bytes → Z) (o : Options).
Implicit Types (s : Store PN PS) (d : D).

(** Hand the store's calls to the manager. *)
Definition deliver s (pm : PM) : Store PN PS * PM :=
  match persistence (glob s) with
  | None => (s, pm)
  | Some l => (mkStore (setPersistence (glob s)) (shards s), foldl (λ pm e, enqueue e pm) pm l)
  end.

Definition drainQueueLocked (io : list WriteOutcome) (w : WalWriter) (pm : PM) d : option (DrainResult * PM * D) :=
  match pending_wal pm with
  | [] => Some (Empty, pm, d)
  | batch =>
      let before := length (w_file w) in
      '(appended, w) ← appendBatch xxh3 io batch w;
      let d := if wal_linked pm then exec (FsWrite K_WAL_FILENAME before (w_file w)) d else d in
      match appended with
      | Err _ => Some (Partial, with_wal (Some w) (wal_linked pm) pm, d)
      | Ok n =>
          Some (Complete, with_counts (u64 (wal_entry_count pm + Z.of_nat (length batch))) (u64 (wal_bytes pm + Z.of_nat n))
            (with_wal (Some w) (wal_linked pm) (with_pending [] pm)), d)
      end
  end.

(** [if (wal_) drainQueueLocked();] *)
Definition drain_if_open (io : list WriteOutcome) (pm : PM) d : option (DrainResult * PM * D) :=
  match wal pm with None => Some (Empty, pm, d) | Some w => drainQueueLocked io w pm d end.

(** The answers to a flush; [fl_sync] is [sync()]. *)
Record FlushIo := mkFlushIo { fl_write : list WriteOutcome; fl_sync : bool; fl_size : bool; fl_seal : SealIo }.

Definition flush (io : FlushIo) (pm : PM) d : option (PM * D) :=
  match wal pm with
  | None => Some (pm, d)
  | Some w =>
      '(r, pm, d) ← drainQueueLocked (fl_write io) w pm d;
      match r with
      | Empty => Some (pm, d)
      | _ =>
          if wal_fsync o && negb (fl_sync io) then Some (pm, d)
          else
            let active_size := file_size K_WAL_FILENAME (view d) in
            if (max_wal_segment_bytes o >? 0) && fl_size io && (active_size >=? max_wal_segment_bytes o) &&
               (active_size >? Z.of_nat K_WAL_HEADER_SIZE) then
              '(_, pm, d) ← sealActiveWalLocked (fl_seal io) pm d;
              Some (pm, d)
            else Some (pm, d)
      end
  end.

Definition toSnapshotEntry (c : Clock) s (key : bytes) (e : VersionedEntry) : SnapshotEntry :=
  mkSnap key (value e) (version e) (writer_node_hash e) (if hasTtl e then toSystemMsOrDefault c (expires_at e) else 0)
    (hasTtl e) (isTombstone e) (entry_freq hash key s).

Definition snapshotVersion (live : list (bytes * VersionedEntry)) : Z :=
  foldl (λ nv x, if version x.2 >=? nv then u64 (version x.2 + 1) else nv) 0 live.

(** The answers to the writing of a snapshot; [sf_left] is what a failure
    leaves in the staged file. *)
Record SnapFileIo := mkSnapFileIo { sf_open : bool; sf_good : bool; sf_closed : bool; sf_left : bytes; sf_pub : PubIo; sf_cur : CurIo }.

Definition writeSnapshotFile (io : SnapFileIo) (name : bytes) (next_version : Z) (es : list SnapshotEntry) d
    : option (Result () * D) :=
  r ← writeSnapshot (mkSnapIo (sf_open io) (sf_good io) (sf_closed io) (Ok ())) next_version es;
  match r with
  | Err x => Some (Err x, if sf_open io then exec (FsWrite (tmp_of name) 0 (sf_left io)) d else d)
  | Ok file => Some (publishTempFile (sf_pub io) (tmp_of name) name "snapshot" (exec (FsWrite (tmp_of name) 0 file) d))
  end.

Definition snapshotName (stamp : Z) : bytes := K_SNAPSHOT_PREFIX ++ to_string stamp ++ K_SNAPSHOT_SUFFIX.

Definition createSnapshot (io : SnapFileIo) (c : Clock) (stamp : Z) s d : option (Result () * D) :=
  let filename := snapshotName stamp in
  let live := liveEntries c s in
  let all_entries := (λ x, toSnapshotEntry c s x.1 x.2) <$> live in
  '(r, d) ← writeSnapshotFile io filename (snapshotVersion live) all_entries d;
  match r with
  | Err x => Some (Err x, d)
  | Ok _ => Some (Ok (), (publishCurrent (sf_cur io) filename d).2)
  end.

(** The answers to a compaction. *)
Record CompactIo := mkCompactIo {
  co_drain : list WriteOutcome;
  co_snap : SnapFileIo;
  co_prune : bytes → bool;
  co_delete : bytes → bool;
  co_rotate : RotIo;
  co_drain2 : list WriteOutcome }.

Definition compact (io : CompactIo) (c : Clock) (stamp : Z) s (pm : PM) d : option (Result () * PM * D) :=
  if negb (enabled o) then Some (Ok (), pm, d)
  else
    '(_, pm, d) ← drain_if_open (co_drain io) pm d;
    '(r, d) ← createSnapshot (co_snap io) c stamp s d;
    match r with
    | Err x => Some (Err x, pm, d)
    | Ok _ =>
        let d := pruneOldSnapshots (co_prune io) d in
        let '(pm, d) := deleteSealedSegmentsLocked (co_delete io) pm d in
        '(rotated, pm, d) ← replaceWalLocked (co_rotate io) pm d;
        match rotated with
        | Err x => Some (Err x, pm, d)
        | Ok _ =>
            '(_, pm, d) ← drain_if_open (co_drain2 io) pm d;
            Some (Ok (), pm, d)
        end
    end.

Definition shutdown (io : list WriteOutcome) (snap : SnapFileIo) (c : Clock) (stamp : Z) s (pm : PM) d : option (PM * D) :=
  if negb (enabled o) then Some (pm, d)
  else
    '(_, pm, d) ← drain_if_open io pm d;
    '(_, d) ← createSnapshot snap c stamp s d;
    Some (pm, d).

End manager.

(** ** Recovery *)

Section recovery.
Context {PN PS : Type} `{Policy PN PS} `{FreqStore PN PS}.
Context (hash : bytes → Z) (xxh3 : bytes → Z) (o : Options).
Implicit Types (s : Store PN PS).

(** While the manager is loading, the store's calls are dropped. *)
Definition muted s : Store PN PS := 
  let g := glob s in
  mkStore (mkGlob (capacity_bytes g) (next_version g) (tombstone_gc g) (total_bytes g) (total_entries g) (sink g) None) (shards s).

Definition unmuted (l : option (list WalEntry)) s : Store PN PS :=
  let g := glob s in
  mkStore (mkGlob (capacity_bytes g) (next_version g) (tombstone_gc g) (total_bytes g) (total_entries g) (sink g) l) (shards s).

Definition loadSnapshotEntry (c : Clock) (e : SnapshotEntry) s : option (Store PN PS) :=
  match versionedFromSnapshot c e with
  | None => Some s
  | Some ve =>
      '(_, s) ← putVersioned hash c (se_key e) ve s;
      if se_freq e >? 1 then '(_, s) ← restore_freq hash (se_key e) (se_freq e) s; Some s else Some s
  end.

Fixpoint loadSnapshotEntries (c : Clock) (es : list SnapshotEntry) s : option (Store PN PS) :=
  match es with [] => Some s | e :: es => s ← loadSnapshotEntry c e s; loadSnapshotEntries c es s end.

Definition replayRecord (c : Clock) (e : WalEntry) s : option (Store PN PS) :=
  match versionedFromWal c e with
  | None => Some s
  | Some ve =>
      match we_op e with
      | OpSet => '(_, s) ← putVersioned hash c (we_key e) ve s; Some s
      | OpDel => '(_, s) ← removeKey hash (we_key e) s; Some s
      end
  end.

Fixpoint replayRecords (c : Clock) (es : list WalEntry) s : option (Store PN PS) :=
  match es with [] => Some s | e :: es => s ← replayRecord c e s; replayRecords c es s end.

Definition err_wal_corrupt : Error := mkError CorruptData (lit "WAL checksum mismatch").

(** The records decoded and the bytes they take. *)
Definition replayWal (c : Clock) (file : option bytes) s : option (Result (nat * nat) * Store PN PS) :=
  let '(es, rd) := records xxh3 (openReader file) in
  s ← replayRecords c es s;
  Some (if wr_corrupted rd then Err err_wal_corrupt else Ok (length es, validSize rd), s).

(** Per file: whether its size can be read, whether it can be cut and synced. *)
Record RecoverIo := mkRecoverIo { ri_size : bytes → bool; ri_truncate : bytes → bool; ri_sync : bytes → bool; ri_open : OpenIo }.

(** The counters of the loop over the log files. *)
Record LogCounts := mkLogCounts {
  lc_active_records : Z; lc_active_bytes : Z; lc_sealed_records : Z; lc_sealed_bytes : Z; lc_sealed_count : Z; lc_max_seq : option Z }.

Definition countLog (name : bytes) (nrecords nbytes : Z) (lc : LogCounts) : LogCounts :=
  if decide (name = K_WAL_FILENAME) then
    mkLogCounts nrecords nbytes (lc_sealed_records lc) (lc_sealed_bytes lc) (lc_sealed_count lc) (lc_max_seq lc)
  else
    mkLogCounts (lc_active_records lc) (lc_active_bytes lc) (lc_sealed_records lc + nrecords) (lc_sealed_bytes lc + nbytes)
      (lc_sealed_count lc + 1)
      (match parseWalSegmentSeq name with Some seq => Some (Z.max (default 0 (lc_max_seq lc)) seq) | None => lc_max_seq lc end).

Definition err_truncate : Error := mkError InternalError (lit "WAL torn-tail truncate failed").

(** One log file: replay it and cut a torn tail. *)
Definition recoverLog (io : RecoverIo) (c : Clock) (name : bytes) (lc : LogCounts) s (d : Dir)
    : option (Result LogCounts * Store PN PS * Dir) :=
  '(r, s) ← replayWal c (d !! name) s;
  match r with
  | Err x => Some (Err x, s, d)
  | Ok (nrecords, valid_bytes) =>
      let file_bytes := if ri_size io name then file_size name d else 0 in
      if ri_size io name && (Z.of_nat valid_bytes <? file_bytes) then
        let d := if ri_truncate io name then alter (take valid_bytes) name d else d in
        if negb (ri_truncate io name) || negb (ri_sync io name) then Some (Err err_truncate, s, d)
        else Some (Ok (countLog name (Z.of_nat nrecords) (Z.of_nat valid_bytes) lc), s, d)
      else Some (Ok (countLog name (Z.of_nat nrecords) file_bytes lc), s, d)
  end.

Fixpoint recoverLogs (io : RecoverIo) (c : Clock) (names : list bytes) (lc : LogCounts) s (d : Dir)
    : option (Result LogCounts * Store PN PS * Dir) :=
  match names with
  | [] => Some (Ok lc, s, d)
  | name :: names =>
      '(r, s, d) ← recoverLog io c name lc s d;
      match r with Err x => Some (Err x, s, d) | Ok lc => recoverLogs io c names lc s d end
  end.

(** Load the snapshot [path]; an error comes after the entries before it. *)
Definition recoverSnapshot (c : Clock) (path : option bytes) s (d : Dir) : option (Result () * Store PN PS) :=
  match path with
  | None => Some (Ok (), s)
  | Some path =>
      let '(_, es, r) := readStream (d !! path) in
      s ← loadSnapshotEntries c es s;
      Some (r, s)
  end.

Definition recover (io : RecoverIo) (c : Clock) s (pm : PM) (d : Dir) : option (Result () * Store PN PS * PM * Dir) :=
  if negb (enabled o) then Some (Ok (), s, pm, d)
  else
    let calls := persistence (glob s) in
    '(r, s) ← recoverSnapshot c (findLatestSnapshot d) (muted s) d;
    match r with
    | Err x => Some (Err x, unmuted calls s, with_loading false pm, d)
    | Ok _ =>
        '(r, s, d) ← recoverLogs io c (findWalFiles d) (mkLogCounts 0 0 0 0 0 None) s d;
        match r with
        | Err x => Some (Err x, unmuted calls s, with_loading false pm, d)
        | Ok lc =>
            '(w, d) ← openAt (ri_open io) K_WAL_FILENAME Append d;
            let next_seq := match lc_max_seq lc with Some seq => u64 (seq + 1) | None => 1 end in
            Some (Ok (), unmuted calls s,
                  mkPM (pending_wal pm) (Some w) true (lc_active_records lc) (lc_active_bytes lc) (lc_sealed_records lc)
                    (lc_sealed_bytes lc) (lc_sealed_count lc) next_seq false, d)
        end
    end.
End recovery.
