(* ===== verification/CrashTrace.v ===== *)
(** * Traces of the directory

    The operations of the manager are written against [FileSystem].  On two
    file systems that start alike they do the same: what the traced file system
    notes are the directories that the run on the plain directory goes
    through, and the last of them is the directory that run ends with. *)

From S2P Require Import Prelude Types Bytes Text Buffers Clock Wal Snapshot WheelHeap TtlWheel Store Persistence.
Local Open Scope Z_scope.

Section sim.
Context {D1 D2 : Type} `{FileSystem D1} `{FileSystem D2} (R : D1 → D2 → Prop).
Hypothesis R_view : ∀ d1 d2, R d1 d2 → view d1 = view d2.
Hypothesis R_exec : ∀ op d1 d2, R d1 d2 → R (exec op d1) (exec op d2).

(** The same answer, and directories that are alike. *)
Definition same_run {A} : option (A * D1) → option (A * D2) → Prop := option_Forall2 (λ x y, x.1 = y.1 ∧ R x.2 y.2).

Lemma same_some {A} (a : A) d1 d2 : R d1 d2 → same_run (Some (a, d1)) (Some (a, d2)).
Proof. intros Hr. by constructor. Qed.

Lemma same_bind {A B} m1 m2 (f1 : A * D1 → option (B * D1)) (f2 : A * D2 → option (B * D2)) :
  same_run m1 m2 → (∀ a d1 d2, R d1 d2 → same_run (f1 (a, d1)) (f2 (a, d2))) → same_run (m1 ≫= f1) (m2 ≫= f2).
Proof. intros Hm Hf. destruct Hm as [[a d1] [b d2] [E Hr]|]; [|constructor]. simpl in *. subst b. by apply Hf. Qed.

Ltac same := repeat first [apply same_some | apply R_exec | done | case_match].

Lemma publishTempFile_same io tmp final what d1 d2 :
  R d1 d2 → same_run (Some (publishTempFile io tmp final what d1)) (Some (publishTempFile io tmp final what d2)).
Proof. intros Hr. unfold publishTempFile. rewrite (R_view _ _ Hr). destruct (if pub_sync io then _ else None); same. Qed.

Lemma publishCurrent_same io name d1 d2 : R d1 d2 → same_run (Some (publishCurrent io name d1)) (Some (publishCurrent io name d2)).
Proof.
  intros Hr. unfold publishCurrent. destruct (negb (cur_open io)); [same|]. destruct (negb (cur_write io)); [same|].
  destruct (negb (cur_close io)); [same|]. apply publishTempFile_same. same.
Qed.

Lemma prune_loop_same removes protected size snaps removed d1 d2 :
  R d1 d2 → R (prune_loop removes protected size removed snaps d1) (prune_loop removes protected size removed snaps d2).
Proof.
  revert removed d1 d2. induction snaps as [|n snaps IH]; intros removed d1 d2 Hr; simpl; [done|]. destruct (_ <=? _)%nat; [done|].
  case_bool_decide; [by apply IH|]. destruct (removes n); apply IH; same.
Qed.

Lemma pruneOldSnapshots_same removes d1 d2 : R d1 d2 → R (pruneOldSnapshots removes d1) (pruneOldSnapshots removes d2).
Proof. intros Hr. unfold pruneOldSnapshots. rewrite (R_view _ _ Hr). destruct (_ <=? _)%nat; [done|]. by apply prune_loop_same. Qed.

Lemma openAt_same io name mode d1 d2 : R d1 d2 → same_run (openAt io name mode d1) (openAt io name mode d2).
Proof.
  intros Hr. unfold openAt. rewrite (R_view _ _ Hr). destruct (openWal io (view d2 !! name) mode) as [w|]; cbn [mbind option_bind]; [|constructor].
  destruct (open_ok io); same.
Qed.

Lemma replaceWalLocked_same io pm d1 d2 : R d1 d2 → same_run (replaceWalLocked io pm d1) (replaceWalLocked io pm d2).
Proof.
  intros Hr. unfold replaceWalLocked. apply same_bind; [by apply openAt_same|]. intros w e1 e2 He. rewrite (R_view _ _ He).
  pose proof (publishTempFile_same (rot_pub io) (tmp_of K_WAL_FILENAME) K_WAL_FILENAME "WAL rotate" e1 e2 He) as Hp.
  destruct (publishTempFile _ _ _ _ e1) as [r1 f1], (publishTempFile _ _ _ _ e2) as [r2 f2]. inversion_clear Hp as [? ? [E Hf]|]. simpl in E, Hf. subst r2.
  rewrite (R_view _ _ Hf). destruct r1; same.
Qed.

Lemma reopen_same io pm d1 d2 : R d1 d2 → same_run (reopen io pm d1) (reopen io pm d2).
Proof. intros Hr. unfold reopen. apply same_bind; [by apply openAt_same|]. intros w e1 e2 He. same. Qed.

Lemma sealActiveWalLocked_same io pm d1 d2 : R d1 d2 → same_run (sealActiveWalLocked io pm d1) (sealActiveWalLocked io pm d2).
Proof.
  intros Hr. unfold sealActiveWalLocked. rewrite (R_view _ _ Hr). destruct (seal_rename io) as [msg|].
  { apply same_bind; [by apply reopen_same|]. intros w e1 e2 He. same. }
  apply (R_exec (FsRename K_WAL_FILENAME (walSegmentName (wal_next_seq (with_wal None true pm))))) in Hr. destruct (negb (seal_dir io)).
  { apply same_bind; [by apply reopen_same|]. intros w e1 e2 He. same. }
  apply same_bind; [by apply replaceWalLocked_same|]. intros [r pm'] e1 e2 He. destruct r as [u|x]; [same|].
  apply same_bind; [apply reopen_same; destruct (seal_back io); same|]. intros w f1 f2 Hf. same.
Qed.

Lemma deleteSealedSegmentsLocked_same removes pm d1 d2 :
  R d1 d2 → same_run (Some (deleteSealedSegmentsLocked removes pm d1)) (Some (deleteSealedSegmentsLocked removes pm d2)).
Proof.
  intros Hr. unfold deleteSealedSegmentsLocked. rewrite (R_view _ _ Hr). apply same_some. unfold delete_files. generalize (filter (λ n, n ≠ K_WAL_FILENAME) (findWalFiles (view d2))).
  intros l. revert d1 d2 Hr. induction l as [|n l IH]; intros d1 d2 Hr; simpl; [done|]. apply IH. destruct (removes n); same.
Qed.

Context {PN PS : Type} `{FreqStore PN PS} (hash xxh3 : bytes → Z) (o : Options).

Lemma drainQueueLocked_same io w pm d1 d2 : R d1 d2 → same_run (drainQueueLocked xxh3 io w pm d1) (drainQueueLocked xxh3 io w pm d2).
Proof.
  intros Hr. unfold drainQueueLocked. destruct (pending_wal pm) as [|e batch]; [same|].
  destruct (appendBatch xxh3 io (e :: batch) w) as [[r w']|]; cbn [mbind option_bind]; [|constructor]. destruct r, (wal_linked pm); same.
Qed.

Lemma drain_if_open_same io pm d1 d2 : R d1 d2 → same_run (drain_if_open xxh3 io pm d1) (drain_if_open xxh3 io pm d2).
Proof. intros Hr. unfold drain_if_open. destruct (wal pm); [by apply drainQueueLocked_same|same]. Qed.

Lemma flush_same io pm d1 d2 : R d1 d2 → same_run (flush xxh3 o io pm d1) (flush xxh3 o io pm d2).
Proof.
  intros Hr. unfold flush. destruct (wal pm) as [w|]; [|same]. apply same_bind; [by apply drainQueueLocked_same|]. intros [r pm'] e1 e2 He.
  rewrite (R_view _ _ He).
  assert (same_run ('(_, pm, d) ← sealActiveWalLocked (fl_seal io) pm' e1; Some (pm, d)) ('(_, pm, d) ← sealActiveWalLocked (fl_seal io) pm' e2; Some (pm, d))) as Hseal.
  { apply same_bind; [by apply sealActiveWalLocked_same|]. intros [? ?] f1 f2 Hf. same. }
  destruct r; [same|..]; (destruct (wal_fsync o && _); [same|]); by destruct (_ && _ && _ && _); [|same].
Qed.

Lemma createSnapshot_same io c stamp (s : Store PN PS) d1 d2 : R d1 d2 → same_run (createSnapshot hash io c stamp s d1) (createSnapshot hash io c stamp s d2).
Proof.
  intros Hr. unfold createSnapshot. apply same_bind.
  - unfold writeSnapshotFile. destruct (writeSnapshot _ _ _) as [[file|x]|]; cbn [mbind option_bind]; [..|constructor].
    + apply publishTempFile_same. same.
    + destruct (sf_open io); same.
  - intros r e1 e2 He. destruct r; [|same].
    pose proof (publishCurrent_same (sf_cur io) (snapshotName stamp) e1 e2 He) as Hp. inversion_clear Hp as [? ? [_ Hf]|]. same.
Qed.

Lemma compact_same io c stamp (s : Store PN PS) pm d1 d2 : R d1 d2 → same_run (compact hash xxh3 o io c stamp s pm d1) (compact hash xxh3 o io c stamp s pm d2).
Proof.
  intros Hr. unfold compact. destruct (negb (enabled o)); [same|]. apply same_bind; [by apply drain_if_open_same|]. intros [r pm1] e1 e2 He.
  apply same_bind; [by apply createSnapshot_same|]. intros r' f1 f2 Hf. destruct r'; [|same].
  pose proof (deleteSealedSegmentsLocked_same (co_delete io) pm1 _ _ (pruneOldSnapshots_same (co_prune io) _ _ Hf)) as Hd.
  destruct (deleteSealedSegmentsLocked _ _ _) as [pm2 g1], (deleteSealedSegmentsLocked _ _ _) as [pm3 g2].
  inversion_clear Hd as [? ? [E Hg]|]. simpl in E, Hg. subst pm3.
  apply same_bind; [by apply replaceWalLocked_same|]. intros [r2 pm4] h1 h2 Hh. destruct r2; [|same].
  apply same_bind; [by apply drain_if_open_same|]. intros [? ?] k1 k2 Hk. same.
Qed.
End sim.

(** The directory, and the end of the trace. *)
Definition traces (d : Dir) (t : Traced) : Prop := d = t.1 ∧ last t.2 = Some d.

Lemma traces_exec op d t : traces d t → traces (exec op d) (exec op t).
Proof.
  destruct t as [d' l]. intros [-> Hl]. split; [done|]. cbn [exec traced_fs dir_fs fst snd]. rewrite last_app. destruct op as [name kept b| |]; [|done..].
  cbn [fs_states fs_apply]. rewrite seq_S, fmap_app, last_app. cbn. by rewrite take_ge by lia.
Qed.
