(* ===== verification/Directory.v ===== *)
(** * The data directory

    The names the persistence manager uses do not collide, and what
    [findWalFiles] and [findLatestSnapshot] return is determined by which
    segments and which [CURRENT] file there are. *)

From S2P Require Import Prelude Types Bytes Text Wal Snapshot Persistence.
Local Open Scope Z_scope.

Lemma Forall2_impl_in {A B} (P Q : A → B → Prop) l k :
  Forall2 P l k → (∀ x y, x ∈ l → P x y → Q x y) → Forall2 Q l k.
Proof.
  induction 1 as [|x y l k Hxy Hlk IH]; intros Hq; constructor.
  - apply Hq; [by left|done].
  - apply IH. intros x' y' Hin. apply Hq. by right.
Qed.

(** ** Names *)

Lemma zeros_value n acc s : digits_value acc (replicate n "0"%byte ++ s) = digits_value (acc * 10 ^ Z.of_nat n) s.
Proof.
  revert acc. induction n as [|n IH]; intros acc; cbn [replicate app]; [by rewrite Z.mul_1_r|].
  cbn [digits_value]. rewrite IH. f_equal. change (digit_val "0"%byte) with 0. rewrite Nat2Z.inj_succ, Z.pow_succ_r by lia. lia.
Qed.

Lemma pad20_facts z : in_u 64 z → pad20 (to_string z) ≠ [] ∧ parseUint 64 (pad20 (to_string z)) = Some z.
Proof.
  intros Hz. assert (pad20 (to_string z) ≠ []) as Hne.
  { unfold pad20. pose proof (to_string_nonempty z). destruct (replicate _ _); [done|done]. }
  split; [done|]. apply parseUint_spec. unfold in_u in Hz. split_and!; [done| | |lia].
  - unfold pad20. rewrite forallb_app, to_string_digits by lia. rewrite andb_true_r. by induction (20 - length (to_string z))%nat.
  - unfold pad20. rewrite zeros_value, Z.mul_0_l. by apply to_string_value.
Qed.

Lemma starts_with_app p s : starts_with p (p ++ s) = true.
Proof. unfold starts_with. by rewrite take_app_length, bool_decide_true. Qed.

Lemma ends_with_app p s : ends_with p (s ++ p) = true.
Proof. unfold ends_with. by rewrite length_app, Nat.add_sub, drop_app_length, bool_decide_true. Qed.

Lemma ends_with_other p q s : length p = length q → p ≠ q → ends_with p (s ++ q) = false.
Proof. intros Hl Hne. unfold ends_with. rewrite length_app, Hl, Nat.add_sub, drop_app_length. by apply bool_decide_false. Qed.

Lemma segment_parse q : in_u 64 q → parseWalSegmentSeq (walSegmentName q) = Some q.
Proof.
  intros Hq. destruct (pad20_facts q Hq) as [Hne Hp]. unfold parseWalSegmentSeq, walSegmentName.
  rewrite starts_with_app. rewrite app_assoc, ends_with_app, <- app_assoc. cbn [negb orb]. rewrite !length_app, orb_false_r, orb_false_r.
  destruct (Nat.leb_spec (length K_WAL_SEGMENT_PREFIX + (length (pad20 (to_string q)) + length K_WAL_SEGMENT_SUFFIX))
    (length K_WAL_SEGMENT_PREFIX + length K_WAL_SEGMENT_SUFFIX)).
  { destruct (pad20 (to_string q)); [done|simpl in *; lia]. }
  rewrite drop_app_length. replace (_ - _ - _)%nat with (length (pad20 (to_string q))) by lia. by rewrite take_app_length.
Qed.

Lemma segment_inj q q' : in_u 64 q → in_u 64 q' → walSegmentName q = walSegmentName q' → q = q'.
Proof. intros H1 H2 E. apply segment_parse in H1, H2. congruence. Qed.

Lemma segment_not_snapshot q : isSnapshotFile (walSegmentName q) = false.
Proof. unfold isSnapshotFile. assert (starts_with K_SNAPSHOT_PREFIX (walSegmentName q) = false) as ->; [|by rewrite andb_false_r]. by apply bool_decide_false. Qed.

Lemma segment_not_wal q : walSegmentName q ≠ K_WAL_FILENAME ∧ walSegmentName q ≠ K_CURRENT_FILENAME.
Proof. done. Qed.

Lemma snapshot_name_facts z :
  isSnapshotFile (snapshotName z) = true ∧ parseWalSegmentSeq (snapshotName z) = None ∧ snapshotName z ≠ K_WAL_FILENAME ∧
  snapshotName z ≠ K_CURRENT_FILENAME ∧ snapshotName z ≠ [].
Proof.
  split; [|split; [|done]].
  - unfold isSnapshotFile, snapshotName. rewrite starts_with_app. rewrite app_assoc, ends_with_app, <- app_assoc, !length_app, !andb_true_r.
    apply Nat.ltb_lt. pose proof (to_string_nonempty z). destruct (to_string z); [done|simpl; lia].
  - unfold parseWalSegmentSeq. assert (starts_with K_WAL_SEGMENT_PREFIX (snapshotName z) = false) as ->; [by apply bool_decide_false|].
    by rewrite orb_true_r.
Qed.

Lemma tmp_facts n :
  isSnapshotFile (tmp_of n) = false ∧ parseWalSegmentSeq (tmp_of n) = None ∧ tmp_of n ≠ K_WAL_FILENAME ∧ tmp_of n ≠ K_CURRENT_FILENAME.
Proof.
  unfold tmp_of. split; [|split; [|split]].
  - unfold isSnapshotFile. by rewrite ends_with_other, andb_false_r.
  - unfold parseWalSegmentSeq. by rewrite ends_with_other, orb_true_r.
  - intros E. apply (f_equal last) in E. rewrite last_app in E. done.
  - intros E. apply (f_equal last) in E. rewrite last_app in E. done.
Qed.

Lemma wal_name_facts : isSnapshotFile K_WAL_FILENAME = false ∧ parseWalSegmentSeq K_WAL_FILENAME = None.
Proof. done. Qed.

Lemma current_name_facts : isSnapshotFile K_CURRENT_FILENAME = false ∧ parseWalSegmentSeq K_CURRENT_FILENAME = None.
Proof. done. Qed.

(** ** The log files *)

(** The segments are [qs], in order. *)
Record segments (d : Dir) (qs : list Z) : Prop := mkSegments {
  sg_sorted : StronglySorted Z.lt qs;
  sg_range : Forall (in_u 64) qs;
  sg_here : ∀ q, q ∈ qs → is_Some (d !! walSegmentName q);
  sg_only : ∀ n q, is_Some (d !! n) → parseWalSegmentSeq n = Some q → q ∈ qs ∧ n = walSegmentName q }.

Lemma dir_names d n : n ∈ sortedDirEntries d ↔ is_Some (d !! n).
Proof.
  unfold sortedDirEntries. rewrite merge_sort_Permutation, list_elem_of_fmap. split.
  - intros ([n' b] & -> & Hin%elem_of_map_to_list). eauto.
  - intros [b Hb]. exists (n, b). split; [done|]. by apply elem_of_map_to_list.
Qed.

Lemma dir_names_nodup d : NoDup (sortedDirEntries d).
Proof. unfold sortedDirEntries. rewrite merge_sort_Permutation. apply NoDup_fst_map_to_list. Qed.

Lemma NoDup_omap_inj {A B} (f : A → option B) l :
  (∀ x y b, f x = Some b → f y = Some b → x = y) → NoDup l → NoDup (omap f l).
Proof.
  intros Hinj. induction 1 as [|x l Hx Hl IH]; [apply NoDup_nil_2|]. simpl. destruct (f x) as [b|] eqn:E; [|done].
  apply NoDup_cons. split; [|done]. intros (y & Hy & Ey)%list_elem_of_omap. by rewrite (Hinj x y b E Ey) in Hx.
Qed.

Lemma lt_seqs qs : StronglySorted Z.lt qs → NoDup qs.
Proof.
  induction 1 as [|q qs Hs IH Hf]; [apply NoDup_nil_2|]. apply NoDup_cons. split; [|done]. intros Hin.
  eapply Forall_forall in Hf; [|exact Hin]. lia.
Qed.

Lemma findWalFiles_segments d qs :
  segments d qs → findWalFiles d = (walSegmentName <$> qs) ++ (if decide (is_Some (d !! K_WAL_FILENAME)) then [K_WAL_FILENAME] else []).
Proof.
  intros [Hs Hr Hh Ho]. unfold findWalFiles. set (f := λ n, if decide (n = K_WAL_FILENAME) then None else (λ seq, (seq, n)) <$> parseWalSegmentSeq n).
  assert (∀ n x, f n = Some x ↔ ∃ q, parseWalSegmentSeq n = Some q ∧ x = (q, n)) as Hf.
  { intros n x. unfold f. case_decide as Hn; [subst; split; [done|by intros (q & Hq & _)]|].
    destruct (parseWalSegmentSeq n) as [q|]; simpl; naive_solver. }
  assert (merge_sort seq_le (omap f (sortedDirEntries d)) = (λ q, (q, walSegmentName q)) <$> qs) as ->.
  { apply (StronglySorted_unique_strong seq_le).
    - intros x1 x2 H1 H2 Hle Hge. rewrite merge_sort_Permutation in H1. apply list_elem_of_omap in H1 as (n & Hn%dir_names & (q & Hq & ->)%Hf).
      apply list_elem_of_fmap in H2 as (q2 & -> & Hq2). destruct (Ho n q Hn Hq) as [Hin ->]. unfold seq_le in *. simpl in *.
      by assert (q = q2) as -> by lia.
    - apply StronglySorted_merge_sort; unfold seq_le; [intros ???; lia|intros ??; lia].
    - clear -Hs. induction Hs as [|q qs Hs IH Hf]; [constructor|]. cbn. constructor; [done|]. apply Forall_fmap. eapply Forall_impl; [exact Hf|].
      intros q' Hq'. unfold seq_le. simpl. lia.
    - rewrite merge_sort_Permutation. apply NoDup_Permutation.
      + apply NoDup_omap_inj; [|apply dir_names_nodup]. intros n1 n2 x (q & _ & ->)%Hf (q' & _ & [= _ ->])%Hf. done.
      + apply NoDup_fmap; [by intros ?? [= ->]|by apply lt_seqs].
      + intros x. rewrite list_elem_of_omap, list_elem_of_fmap. split.
        * intros (n & Hn%dir_names & (q & Hq & ->)%Hf). destruct (Ho n q Hn Hq) as [Hin ->]. eauto.
        * intros (q & -> & Hq). exists (walSegmentName q). split; [by apply dir_names, Hh|]. apply Hf. exists q. split; [|done].
          apply segment_parse. by eapply Forall_forall in Hr. }
  f_equal.
  - rewrite <- list_fmap_compose. done.
  - by rewrite (decide_ext _ _ _ _ (dir_names d K_WAL_FILENAME)).
Qed.

(** ** The snapshot *)

(** [CURRENT] names the snapshot [Some n], or there is none at all. *)
Definition current_is (d : Dir) (cur : option bytes) : Prop :=
  match cur with
  | Some n => readCurrent d = n ∧ isSnapshotFile n = true ∧ is_Some (d !! n)
  | None => readCurrent d = [] ∧ ∀ n, is_Some (d !! n) → isSnapshotFile n = false
  end.

Lemma snapshots_elem d n : n ∈ listSnapshotFiles d ↔ isSnapshotFile n = true ∧ is_Some (d !! n).
Proof. unfold listSnapshotFiles. by rewrite list_elem_of_filter, dir_names. Qed.

Lemma findLatestSnapshot_current d cur : current_is d cur → findLatestSnapshot d = cur.
Proof.
  unfold findLatestSnapshot. destruct cur as [n|]; simpl.
  - intros (-> & Hs & Hd). rewrite Hs, (bool_decide_true _ Hd), bool_decide_false; [done|]. intros ->. done.
  - intros (-> & Hno). simpl. assert (listSnapshotFiles d = []) as ->; [|done]. unfold listSnapshotFiles.
    apply filter_all_false. intros n Hn%dir_names. by rewrite (Hno n Hn).
Qed.

(** Without [CURRENT], the only snapshot there is. *)
Lemma findLatestSnapshot_only d n :
  readCurrent d = [] → isSnapshotFile n = true → is_Some (d !! n) → (∀ n', is_Some (d !! n') → isSnapshotFile n' = true → n' = n) →
  findLatestSnapshot d = Some n.
Proof.
  intros Hc Hs Hd Honly. unfold findLatestSnapshot. rewrite Hc. simpl.
  assert (NoDup (listSnapshotFiles d)) as Hnd by apply NoDup_filter, dir_names_nodup.
  assert (∀ n', n' ∈ listSnapshotFiles d → n' = n) as Hall by (intros n' [? ?]%snapshots_elem; by apply Honly).
  assert (n ∈ listSnapshotFiles d) as Hn by (by apply snapshots_elem).
  destruct (listSnapshotFiles d) as [|a [|b l]]; [by apply not_elem_of_nil in Hn|simpl; f_equal; apply Hall; by left|].
  apply NoDup_cons in Hnd as [Hab _]. rewrite (Hall a), (Hall b) in Hab by set_solver. set_solver.
Qed.

Lemma getline_app s rest : c_newline ∉ s → getline (s ++ c_newline :: rest) = s.
Proof.
  induction s as [|b s IH]; intros Hn; [done|]. apply not_elem_of_cons in Hn as [Hb Hn]. simpl. rewrite decide_False by done. by rewrite IH.
Qed.

Lemma strip_none s : c_newline ∉ s → c_return ∉ s → rev (strip_front (rev s)) = s.
Proof.
  intros Hn Hr. assert (strip_front (rev s) = rev s) as ->; [|by rewrite rev_involutive].
  destruct (rev s) as [|b l] eqn:E; [done|]. simpl. rewrite decide_False; [done|].
  assert (b ∈ s) as Hb. { apply list_elem_of_In, in_rev. rewrite E. by left. }
  intros [->| ->]; done.
Qed.

Lemma digits_plain s : forallb is_digit s = true → c_newline ∉ s ∧ c_return ∉ s.
Proof. intros Hd. rewrite forallb_forall in Hd. split; intros Hin%list_elem_of_In%Hd; done. Qed.

Lemma snapshot_name_plain z : in_u 64 z → c_newline ∉ snapshotName z ∧ c_return ∉ snapshotName z.
Proof.
  intros Hz. unfold in_u in Hz. destruct (digits_plain (to_string z)) as [H1 H2]; [apply to_string_digits; lia|].
  unfold snapshotName. split; rewrite !not_elem_of_app; (split; [|split]); try assumption; by apply (bool_decide_unpack _).
Qed.

Lemma readCurrent_name d z : in_u 64 z → d !! K_CURRENT_FILENAME = Some (snapshotName z ++ [c_newline]) → readCurrent d = snapshotName z.
Proof.
  intros Hz E. destruct (snapshot_name_plain z Hz) as [H1 H2]. unfold readCurrent. rewrite E, getline_app by done. by apply strip_none.
Qed.

(** A snapshot's name is none of the other names. *)
Lemma snapshot_apart n :
  isSnapshotFile n = true → parseWalSegmentSeq n = None ∧ n ≠ K_WAL_FILENAME ∧ n ≠ K_CURRENT_FILENAME ∧ ∀ m, n ≠ tmp_of m.
Proof.
  intros Hs. split; [|split; [by intros ->|split; [by intros ->|]]].
  - unfold isSnapshotFile in Hs. apply andb_true_iff in Hs as [[_ Hs]%andb_true_iff _]. apply bool_decide_eq_true in Hs.
    unfold parseWalSegmentSeq. assert (starts_with K_WAL_SEGMENT_PREFIX n = false) as ->; [|by rewrite orb_true_r].
    apply bool_decide_false. destruct n as [|b n]; [done|]. intros Hw. apply (f_equal head) in Hs, Hw. simpl in Hs, Hw. congruence.
  - intros m ->. destruct (tmp_facts m) as [Hf _]. congruence.
Qed.

Lemma segment_names_nodup qs : StronglySorted Z.lt qs → Forall (in_u 64) qs → NoDup ((walSegmentName <$> qs) ++ [K_WAL_FILENAME]).
Proof.
  intros Hs Hr. apply NoDup_app. split; [|split; [|apply NoDup_singleton]].
  - apply NoDup_fmap_2_strong; [|by apply lt_seqs]. rewrite Forall_forall in Hr. intros x y Hx Hy. apply segment_inj; by apply Hr.
  - intros n (q & -> & _)%list_elem_of_fmap Hin%list_elem_of_singleton. by apply (segment_not_wal q).
Qed.
