(* ===== verification/Recovery.v ===== *)
(** * Recovery restores the store

    What a directory says about the store ([disk]), what recovery makes of it,
    and the theorem that flushing, sealing and compacting never lose or invent
    an entry.  The map of a store is compared with its records: [record_map]
    replays records by the last-writer-wins rule. *)

From S2P Require Import Prelude Types Bytes Text Buffers Clock Wal Snapshot WheelHeap TtlWheel Store StoreFacts LruStore LfuStore.
From S2P Require Import StoreSpec Persistence.
Import EntryFacts LwwFacts.
Local Open Scope Z_scope.

(** ** Entries through their records *)

(** An entry with the fields of a record, before its expiry is set. *)
Definition entry_of (v : bytes) (ver writer : Z) (ttl tomb : bool) : VersionedEntry :=
  setTombstone tomb (setHasTtl ttl (with_writer writer (setVersion ver (with_value v emptyEntry)))).

Lemma base_wf v ver writer : Entry.wf (with_writer writer (setVersion ver (with_value v emptyEntry))).
Proof. change (Entry.wf (setVersion ver (with_value v emptyEntry))). by apply setVersion_wf. Qed.

Lemma entry_of_fields v ver writer ttl tomb :
  Entry.wf (entry_of v ver writer ttl tomb) ∧ value (entry_of v ver writer ttl tomb) = v ∧
  version (entry_of v ver writer ttl tomb) = wrap 62 ver ∧ writer_node_hash (entry_of v ver writer ttl tomb) = writer ∧
  hasTtl (entry_of v ver writer ttl tomb) = ttl ∧ isTombstone (entry_of v ver writer ttl tomb) = tomb.
Proof.
  pose proof (base_wf v ver writer) as Hb. pose proof (setHasTtl_wf ttl _ Hb) as Ht. unfold entry_of.
  split_and!; [by apply setTombstone_wf|done| |done| |by apply setTombstone_isTombstone].
  - rewrite setTombstone_version, setHasTtl_version by done. by apply (setVersion_version ver (with_value v emptyEntry)).
  - by rewrite setTombstone_hasTtl, setHasTtl_hasTtl.
Qed.

(** The record that a snapshot entry stands for. *)
Definition snap_record (e : SnapshotEntry) : WalEntry :=
  mkWalEntry OpSet (se_key e) (se_value e) (se_version e) (se_writer_node_hash e) (se_expires_at_ms e) (se_has_ttl e) (se_tombstone e).

Lemma snap_as_record c e : versionedFromSnapshot c e = versionedFromWal c (snap_record e).
Proof. done. Qed.

(** A record that has not expired at [c]. *)
Definition fresh_at (c : Clock) (r : WalEntry) : Prop :=
  we_has_ttl r = false ∨ we_expires_at_ms r = 0 ∨ nowSystemMs c < we_expires_at_ms r.

(** Versions of records come from entries. *)
Definition record_ok (r : WalEntry) : Prop := entry_ok r ∧ in_u 62 (we_version r).

Definition record_stamp (r : WalEntry) : LwwStamp := mkStamp (we_version r) (we_writer_node_hash r) (we_is_tombstone r).

Lemma versionedFromWal_fresh c r :
  fresh_at c r → in_u 62 (we_version r) →
  ∃ ve, versionedFromWal c r = Some ve ∧ Entry.wf ve ∧ stampOf ve = record_stamp r ∧ value ve = we_value r ∧ hasTtl ve = we_has_ttl r.
Proof.
  intros Hf Hv. destruct (entry_of_fields (we_value r) (we_version r) (we_writer_node_hash r) (we_has_ttl r) (we_is_tombstone r))
    as (Hwf & Hval & Hver & Hw & Ht & Hm). rewrite wrap_small in Hver by done.
  assert (∃ ve, versionedFromWal c r = Some ve ∧ (ve = entry_of (we_value r) (we_version r) (we_writer_node_hash r) (we_has_ttl r) (we_is_tombstone r) ∨
    ∃ t, ve = with_expires t (entry_of (we_value r) (we_version r) (we_writer_node_hash r) (we_has_ttl r) (we_is_tombstone r)))) as (ve & E & Hve).
  { unfold versionedFromWal, rebaseExpiry. fold (entry_of (we_value r) (we_version r) (we_writer_node_hash r) (we_has_ttl r) (we_is_tombstone r)).
    destruct (we_has_ttl r) eqn:Et; cbn [negb orb]; [|eauto]. destruct (Z.eqb_spec (we_expires_at_ms r) 0); [eauto|].
    destruct (Z.leb_spec (we_expires_at_ms r) (nowSystemMs c)); [|eauto 6]. destruct Hf as [|[|]]; [congruence|done|lia]. }
  exists ve. split; [done|]. destruct Hve as [->|[t ->]].
  - split_and!; try done. unfold stampOf, record_stamp. congruence.
  - split_and!; try done. unfold stampOf, record_stamp.
    change (version (with_expires t ?e)) with (version e). change (isTombstone (with_expires t ?e)) with (isTombstone e).
    change (writer_node_hash (with_expires t ?e)) with (writer_node_hash e). congruence.
Qed.

(** ** Maps of records *)

Definition RecordMap : Type := bytes → option WalEntry.

Definition newest (o : option WalEntry) (r : WalEntry) : option WalEntry :=
  match o with
  | Some r0 => if lwwCovers (record_stamp r) (record_stamp r0) then Some r else o
  | None => Some r
  end.

Definition record_step (o : option WalEntry) (r : WalEntry) : option WalEntry :=
  match we_op r with OpSet => newest o r | OpDel => None end.

Definition record_map (rs : list WalEntry) (m : RecordMap) : RecordMap :=
  λ k, foldl record_step (m k) (filter (λ r, we_key r = k) rs).

Definition no_records : RecordMap := λ _, None.

Lemma record_map_app a b m k : record_map (a ++ b) m k = record_map b (record_map a m) k.
Proof. unfold record_map. by rewrite filter_app, foldl_app. Qed.

Lemma record_map_cons r rs m k :
  record_map (r :: rs) m k = record_map rs (λ k, if decide (we_key r = k) then record_step (m k) r else m k) k.
Proof. unfold record_map. rewrite filter_cons. by destruct (decide (we_key r = k)). Qed.

Lemma covers_trans a b c : lwwCovers a b = true → lwwCovers b c = true → lwwCovers a c = true.
Proof. rewrite !lwwCovers_le. intros. by eapply lww_le_trans. Qed.

Lemma covers_refl a : lwwCovers a a = true.
Proof. apply lwwCovers_le. by left. Qed.

Lemma covers_total a b : lwwCovers a b = false → lwwCovers b a = true.
Proof. rewrite lwwCovers_false, lwwCovers_le. by right. Qed.

(** The newest of a list of puts, the last one among equals. *)
Lemma newest_puts rs :
  Forall (λ r, we_op r = OpSet) rs →
  rs = [] ∨ ∃ m, ∀ o, foldl record_step o rs =
    match o with Some r0 => if lwwCovers (record_stamp m) (record_stamp r0) then Some m else o | None => Some m end.
Proof.
  induction rs as [|r rs IH] using rev_ind; [by left|]. intros [Hrs Hr]%Forall_app. apply Forall_cons in Hr as [Hr _]. right.
  assert (∀ o, record_step o r = newest o r) as Hstep by (intros o; unfold record_step; by rewrite Hr).
  destruct (IH Hrs) as [->|[m Hm]].
  { exists r. intros o. simpl. by rewrite Hstep. }
  exists (if lwwCovers (record_stamp r) (record_stamp m) then r else m). intros o. rewrite foldl_app. simpl. rewrite Hstep, Hm.
  destruct o as [r0|]; [|simpl; by destruct (lwwCovers (record_stamp r) (record_stamp m))].
  destruct (lwwCovers (record_stamp m) (record_stamp r0)) eqn:E0; simpl.
  - destruct (lwwCovers (record_stamp r) (record_stamp m)) eqn:E1; [|by rewrite E0]. by rewrite (covers_trans _ _ _ E1 E0).
  - destruct (lwwCovers (record_stamp r) (record_stamp r0)) eqn:E2.
    + by rewrite (covers_trans _ _ _ E2 (covers_total _ _ E0)), E2.
    + destruct (lwwCovers (record_stamp r) (record_stamp m)); by rewrite ?E2, ?E0.
Qed.

(** Replaying a list twice is replaying it once. *)
Lemma replay_twice rs o : foldl record_step (foldl record_step o rs) rs = foldl record_step o rs.
Proof.
  destruct (decide (Forall (λ r, we_op r = OpSet) rs)) as [Hset|Hdel].
  - destruct (newest_puts rs Hset) as [->|[m Hm]]; [done|]. rewrite !Hm. destruct o as [r0|]; [|by rewrite covers_refl].
    destruct (lwwCovers (record_stamp m) (record_stamp r0)) eqn:E; [by rewrite covers_refl|by rewrite E].
  - apply not_Forall_Exists in Hdel; [|apply _]. apply Exists_exists in Hdel as (r & (a & b & ->)%list_elem_of_split & Hr).
    assert (∀ o, record_step o r = None) as Hn by (intros o'; unfold record_step; simpl in Hr; by destruct (we_op r)).
    rewrite !foldl_app. simpl. by rewrite !Hn.
Qed.

(** A suffix of the records over the outcome of all of them changes nothing. *)
Lemma record_map_absorb a b m k : record_map b (record_map (a ++ b) m) k = record_map (a ++ b) m k.
Proof. unfold record_map. rewrite filter_app, foldl_app. apply replay_twice. Qed.

Lemma record_map_ext rs m m' k : m k = m' k → record_map rs m k = record_map rs m' k.
Proof. unfold record_map. by intros ->. Qed.

(** The records of a map are among those replayed. *)
Lemma record_map_elem rs m k r : record_map rs m k = Some r → m k = Some r ∨ r ∈ rs ∧ we_key r = k ∧ we_op r = OpSet.
Proof.
  unfold record_map. revert r. induction rs as [|r0 rs IH] using rev_ind; intros r; [by left|]. rewrite filter_app, foldl_app, filter_cons.
  assert (∀ r, foldl record_step (m k) (filter (λ r, we_key r = k) rs) = Some r → m k = Some r ∨ r ∈ rs ++ [r0] ∧ we_key r = k ∧ we_op r = OpSet) as Hold.
  { intros r1 H1. destruct (IH r1 H1) as [|[? ?]]; [by left|]. right. split; [set_solver|done]. }
  case_decide as Hk; simpl; [|apply Hold]. unfold record_step at 1. destruct (we_op r0) eqn:Eo; [|done].
  assert (Some r0 = Some r → m k = Some r ∨ r ∈ rs ++ [r0] ∧ we_key r = k ∧ we_op r = OpSet) as Hnew.
  { intros [= <-]. right. split; [set_solver|done]. }
  unfold newest. destruct (foldl record_step (m k) (filter (λ r, we_key r = k) rs)) as [r1|] eqn:E; [|done].
  destruct (lwwCovers _ _); [done|]. by apply Hold.
Qed.

(** ** Operations with room to spare *)

Section roomy.
Context {PN PS : Type} `{PolicyLaws PN PS}.
Context (hash : bytes → Z).
Implicit Types (sh : Shard PN PS) (s : Store PN PS).

(** Every shard can take [n] more bytes. *)
Definition room (n : Z) s : Prop := ∀ i sh, shards s !! i = Some sh → current_bytes sh + n <= shardCapacity s.

Lemma room_le n m s : room n s → m <= n → room m s.
Proof. intros Hr Hm i sh Hi. pose proof (Hr i sh Hi). lia. Qed.

Lemma room_update n m s g' i sh sh' :
  room n s → m <= n → shards s !! i = Some sh → capacity_bytes g' = capacity_bytes (glob s) → current_bytes sh' <= current_bytes sh + (n - m) →
  room m (mkStore g' (<[i := sh']> (shards s))).
Proof.
  intros Hr Hm Hi Hc Hb j sh1 Hj. unfold shardCapacity. simpl in *. rewrite length_insert, Hc. fold (shardCapacity s).
  destruct (decide (j = i)) as [->|Hne].
  - rewrite list_lookup_insert_eq in Hj by (by eapply lookup_lt_Some). injection Hj as <-. pose proof (Hr i sh Hi). lia.
  - rewrite list_lookup_insert_ne in Hj by done. pose proof (Hr j sh1 Hj). lia.
Qed.

(** A write that evicts nothing. *)
Lemma accepted_exact c cap k e old n g sh g' sh' k' :
  shard_inv sh → shard_inv sh' → accepted c cap k e old [] n g sh g' sh' → entry_at sh k = old →
  entry_at sh' k' = if decide (k' = k) then Some e else entry_at sh k'.
Proof.
  intros Hinv Hinv' Ha Hold. pose proof Hinv as [Hi _]. pose proof Hinv' as [Hi' _]. pose proof (ac_cores _ _ _ _ _ _ _ _ _ _ _ Ha) as Hc.
  simpl in Hc. apply option_eq. intros x. rewrite (entry_at_cores _ _ _ _ _ _ Hi'), Hc. destruct (decide (k' = k)) as [->|Hne].
  - split.
    + intros (m & Hm). rewrite lookup_insert in Hm. destruct (decide (n = m)) as [->|]; [congruence|]. exfalso.
      pose proof (proj2 (entry_at_cores _ _ _ _ _ _ Hi) (ex_intro _ m Hm)) as Hx. rewrite Hold in Hx. subst old.
      pose proof (ac_addr _ _ _ _ _ _ _ _ _ _ _ Ha) as Haddr. rewrite Hx in Haddr. simpl in Haddr.
      by pose proof (key_address _ _ _ _ _ _ _ _ _ Hi Hm Haddr).
    + intros [= <-]. exists n. by rewrite lookup_insert_eq.
  - rewrite (entry_at_cores _ _ _ _ _ _ Hi). split; intros (m & Hm); exists m.
    + rewrite lookup_insert in Hm. case_decide; [congruence|done].
    + rewrite lookup_insert_ne; [done|]. intros <-. rewrite (ac_addr _ _ _ _ _ _ _ _ _ _ _ Ha) in Hm. destruct old; simpl in Hm; congruence.
Qed.

Lemma covers_iff a b : lwwCovers a b = false ↔ compareLww a b = Less.
Proof. rewrite lwwCovers_false, compareLww_Less. done. Qed.

Definition accepts (o : option VersionedEntry) (e : VersionedEntry) : bool :=
  match o with Some old => lwwCovers (stampOf e) (stampOf old) | None => true end.

Lemma applyLww_accepts o e : Some (applyLww o e) = if accepts o e then Some e else o.
Proof. destruct o as [old|]; simpl; [|done]. by destruct (lwwCovers (stampOf e) (stampOf old)). Qed.

Lemma putVersionedAt_roomy c k e at_ n s :
  store_inv hash s → Entry.wf e → 0 <= n → room (coreSize (k, e) + n) s →
  ∃ s', putVersionedAt hash c k e at_ s = Some (Ok (), s') ∧ store_inv hash s' ∧ room n s' ∧
    (∀ k', lookup_store hash s' k' = if decide (k' = k) then Some (applyLww (lookup_store hash s k) e) else lookup_store hash s k') ∧
    persistence (glob s') =
      (if accepts (lookup_store hash s k) e then (λ l, l ++ [walRecord c k e]) <$> persistence (glob s) else persistence (glob s)) ∧
    next_version (glob s) <= next_version (glob s') <= Z.max (next_version (glob s)) (version e + 1) ∧
    tombstone_gc (glob s') = tombstone_gc (glob s).
Proof.
  intros Hs Hwf Hn Hroom. destruct (home_shard hash k s Hs) as (sh & Hsh & Hinv & Hl). unfold putVersionedAt, on_shard.
  rewrite Hsh. cbn [mbind option_bind]. pose proof (coreSize_pos (k, e)) as Hpos.
  destruct (putShard_spec c (shardCapacity s) k e at_ (glob s) sh Hinv Hwf) as (r & g' & sh' & -> & Hinv' & Hcase). cbn [mbind option_bind].
  set (s' := mkStore g' (<[shardFor hash k s := sh']> (shards s))).
  assert (∀ old vs m, entry_at sh k = old → (∀ o, old = Some o → compareLww (stampOf e) (stampOf o) ≠ Less) →
    accepted c (shardCapacity s) k e old vs m (glob s) sh g' sh' →
    store_inv hash s' ∧ room n s' ∧ (∀ k', lookup_store hash s' k' = if decide (k' = k) then Some e else lookup_store hash s k') ∧
    persistence g' = (λ l, l ++ [walRecord c k e]) <$> persistence (glob s) ∧
    next_version g' = Z.max (next_version (glob s)) (version e + 1) ∧ tombstone_gc g' = tombstone_gc (glob s)) as Hacc.
  { intros old vs m Hold Hlww Ha. pose proof (bytes_of_nonneg (cores sh)). pose proof (bi_bytes _ _ _ _ (proj1 Hinv)).
    destruct (accepted_store hash c k e old vs m s sh g' sh' Hs Hwf Hsh Hinv' Hold Hlww) as [Hs' _]; [intros _; pose proof (Hroom _ _ Hsh); lia|done|].
    assert (bytes_of (<[m := (k, e)]> (cores sh)) <= current_bytes sh + coreSize (k, e)) as Hb.
    { rewrite bytes_of_insert, (bi_bytes _ _ _ _ (proj1 Hinv)). destruct (cores sh !! m) as [x|]; simpl; [pose proof (coreSize_pos x)|]; lia. }
    assert (vs = []) as -> by (apply (needed_fits _ _ _ (ac_needed _ _ _ _ _ _ _ _ _ _ _ Ha)); pose proof (Hroom _ _ Hsh); lia).
    split; [done|]. split; [|split].
    - eapply room_update; [exact Hroom|lia|exact Hsh|apply Ha|].
      rewrite (bi_bytes _ _ _ _ (proj1 Hinv')), (ac_cores _ _ _ _ _ _ _ _ _ _ _ Ha). simpl. lia.
    - intros k'. unfold lookup_store at 1. unfold s'. rewrite shardFor_insert. simpl.
      destruct (decide (shardFor hash k' s = shardFor hash k s)) as [Hd|Hd].
      + rewrite Hd, list_lookup_insert_eq by (by eapply lookup_lt_Some). simpl. rewrite (accepted_exact _ _ _ _ _ _ _ _ _ _ k' Hinv Hinv' Ha Hold).
        destruct (decide (k' = k)); [done|]. unfold lookup_store. by rewrite Hd, Hsh.
      + rewrite list_lookup_insert_ne by done. rewrite decide_False by congruence. done.
    - split_and!; [by rewrite (ac_log _ _ _ _ _ _ _ _ _ _ _ Ha), decide_False by apply not_elem_of_nil|apply Ha|apply Ha]. }
  assert (mkStore (glob s) (<[shardFor hash k s := sh]> (shards s)) = s) as Hsame by (by apply same_store).
  rewrite <- Hl in Hcase, Hacc. destruct (lookup_store hash s k) as [old|] eqn:Ek.
  - destruct Hcase as [-> [(Hless & -> & ->)|(Hge & vs & m & Ha)]].
    + unfold s'. rewrite Hsame. exists s. simpl. apply covers_iff in Hless. rewrite Hless. split_and!; try done; [by apply (room_le (coreSize (k, e) + n)); [|lia]| |lia..].
      intros k'. by destruct (decide (k' = k)) as [->|].
    + destruct (Hacc (Some old) vs m eq_refl) as (Hs' & Hr' & Hl' & Hp' & Hv' & Hgc'); [by intros o [= <-]|done|].
      exists s'. simpl. destruct (lwwCovers (stampOf e) (stampOf old)) eqn:Ec; [|by apply covers_iff in Ec].
      split_and!; try done; simpl; lia.
  - destruct Hcase as [(Hlt & _)|(Hle & -> & vs & m & Ha)]; [pose proof (Hroom _ _ Hsh) as Hx; pose proof (bytes_of_nonneg (cores sh)) as Hz; pose proof (bi_bytes _ _ _ _ (proj1 Hinv)); lia|].
    destruct (Hacc None vs m eq_refl) as (Hs' & Hr' & Hl' & Hp' & Hv' & Hgc'); [done|done|]. exists s'. split_and!; try done; simpl; lia.
Qed.

Lemma read_room k gone n s sh g1 g' sh' :
  shards s !! shardFor hash k s = Some sh → read_effect k gone g1 sh g' sh' → capacity_bytes g1 = capacity_bytes (glob s) →
  room n s → room n (mkStore g' (<[shardFor hash k s := sh']> (shards s))).
Proof.
  intros Hsh Hre Hcap Hr. destruct (re_glob _ _ _ _ _ _ Hre) as [Hg _ _ _]. eapply room_update; [done|lia|done|congruence|].
  pose proof (re_bytes _ _ _ _ _ _ Hre). lia.
Qed.

Lemma removeKey_room k n s b s' :
  store_inv hash s → removeKey hash k s = Some (b, s') → room n s → room n s' ∧ tombstone_gc (glob s') = tombstone_gc (glob s).
Proof.
  intros Hs. destruct (home_shard hash k s Hs) as (sh & Hsh & Hinv & Hl). unfold removeKey, on_shard. rewrite Hsh. cbn [mbind option_bind].
  destruct (removeShard_spec k (glob s) sh Hinv) as (r & g' & sh' & -> & Hinv' & Hcase). cbn [mbind option_bind]. intros [= <- <-] Hr.
  destruct (entry_at sh k) as [e|].
  - destruct Hcase as [_ Hre]. split.
    + eapply read_room; [done|exact Hre| |done]. unfold onWrite. by destruct (persistence (glob s)).
    + simpl. rewrite (sg_gc _ _ (re_glob _ _ _ _ _ _ Hre)). unfold onWrite. by destruct (persistence (glob s)).
  - destruct Hcase as (_ & -> & ->). by rewrite same_store.
Qed.

Lemma get_room c k n s v s' : store_inv hash s → get hash c k s = Some (v, s') → room n s → room n s'.
Proof.
  intros Hs. destruct (home_shard hash k s Hs) as (sh & Hsh & Hinv & Hl). unfold get, on_shard. rewrite Hsh. cbn [mbind option_bind].
  destruct (getShard_spec c k (glob s) sh Hinv) as (r & g' & sh' & -> & Hinv' & Hcase). cbn [mbind option_bind]. intros [= <- <-] Hr.
  destruct (entry_at sh k) as [e|]; [destruct (expired (now c) e)|]; destruct Hcase as [_ Hre]; by eapply read_room.
Qed.

Lemma getVersioned_room c k n s v s' : store_inv hash s → getVersioned hash c k s = Some (v, s') → room n s → room n s'.
Proof.
  intros Hs. destruct (home_shard hash k s Hs) as (sh & Hsh & Hinv & Hl). unfold getVersioned, on_shard. rewrite Hsh. cbn [mbind option_bind].
  destruct (getVersionedShard_spec c k (glob s) sh Hinv) as (r & g' & sh' & -> & Hinv' & Hcase). cbn [mbind option_bind]. intros [= <- <-] Hr.
  destruct (entry_at sh k) as [e|]; [destruct (expired (now c) e)|]; destruct Hcase as [_ Hre]; by eapply read_room.
Qed.

(** What loading does to the shared part of a store. *)
Record grew (g g' : Glob) : Prop := mkGrew {
  gr_gc : tombstone_gc g' = tombstone_gc g;
  gr_next : next_version g <= next_version g' <= Z.max (next_version g) (2 ^ 62);
  gr_quiet : persistence g = None → persistence g' = None }.

Lemma grew_refl g : grew g g.
Proof. split; [done|lia|done]. Qed.

Lemma grew_trans g1 g2 g3 : grew g1 g2 → grew g2 g3 → grew g1 g3.
Proof. intros [] []. split; [congruence|lia|auto]. Qed.
End roomy.

(** What the manager relies on when it restores frequencies. *)
Class FreqLaws (PN PS : Type) `{PolicyLaws PN PS} `{!FreqStore PN PS} :=
  restore_law hash k f (s : Store PN PS) : store_inv hash s →
    ∃ s', restore_freq hash k f s = Some ((), s') ∧ store_inv hash s' ∧ (∀ k', lookup_store hash s' k' = lookup_store hash s k') ∧
      (∀ n, room n s → room n s') ∧ glob s' = glob s.

#[global] Instance lru_freq_laws : FreqLaws () ().
Proof. intros hash k f s Hs. by exists s. Qed.

#[global] Instance lfu_freq_laws : FreqLaws Freq FreqMap.
Proof.
  intros hash k f s Hs. simpl. unfold restoreFreq. destruct (f <=? 1); [by exists s|].
  destruct (home_shard hash k s Hs) as (sh & Hsh & Hinv & Hl). unfold on_shard. rewrite Hsh. cbn [mbind option_bind].
  destruct (restoreFreqShard_spec k f (glob s) sh Hinv) as (sh' & E & Hinv' & Hc & _).
  unfold LfuShard in *. rewrite E. cbn [mbind option_bind].
  assert (∀ k', entry_at sh' k' = entry_at sh k') as He.
  { intros k'. apply option_eq. intros x. rewrite (entry_at_cores _ _ _ _ _ _ (proj1 Hinv')), (entry_at_cores _ _ _ _ _ _ (proj1 Hinv)), Hc. done. }
  assert (current_bytes sh' = current_bytes sh) as Hb by (rewrite (bi_bytes _ _ _ _ (proj1 Hinv')), (bi_bytes _ _ _ _ (proj1 Hinv)), Hc; done).
  destruct (update_store hash s k sh (glob s) sh' Hs Hsh Hinv') as [Hs' Hl']; [done|lia|intros k' e; rewrite He; by left| |].
  { destruct (si_bound hash s Hs _ _ Hsh) as [|Ht]; [left; lia|]. right. intros k' e. rewrite He. apply Ht. }
  eexists. split; [done|]. split; [exact Hs'|]. split; [|split; [|done]].
  - intros k'. rewrite Hl'. destruct (decide _) as [Hd|]; [|done]. rewrite He. unfold lookup_store. by rewrite Hd, Hsh.
  - intros n Hr. eapply room_update; [done|lia|done|done|lia].
Qed.

(** ** Replay *)

Section replay.
Context {PN PS : Type} `{FreqLaws PN PS}.
Context (hash : bytes → Z).
Implicit Types (s : Store PN PS).

(** The store is what the records say, read at [c]. *)
Definition shows (c : Clock) (m : RecordMap) s : Prop := ∀ k, lookup_store hash s k = r ← m k; versionedFromWal c r.

Definition readable (c : Clock) (r : WalEntry) : Prop := in_u 62 (we_version r) ∧ fresh_at c r.

Definition map_readable (c : Clock) (m : RecordMap) : Prop := ∀ k r, m k = Some r → readable c r.

Definition recSize (r : WalEntry) : Z := zlen (we_key r) + zlen (we_value r) + node_bytes.

Definition recsSize (rs : list WalEntry) : Z := foldr (λ r a, recSize r + a) 0 rs.

Lemma recSize_pos r : 0 < recSize r.
Proof. unfold recSize. pose proof node_bytes_pos. unfold zlen. lia. Qed.

Lemma recsSize_nonneg rs : 0 <= recsSize rs.
Proof. induction rs as [|r rs IH]; simpl; [lia|]. pose proof (recSize_pos r). lia. Qed.

Lemma recsSize_app a b : recsSize (a ++ b) = recsSize a + recsSize b.
Proof. induction a as [|r a IH]; simpl; [done|]. rewrite IH. lia. Qed.

Lemma record_map_readable c rs m : Forall (readable c) rs → map_readable c m → map_readable c (record_map rs m).
Proof.
  intros Hrs Hm k r Hr. destruct (record_map_elem _ _ _ _ Hr) as [E|[Hin _]]; [by eapply Hm|]. by eapply Forall_forall in Hin.
Qed.

Lemma accepts_newest c m s k r ve :
  shows c m s → map_readable c m → versionedFromWal c r = Some ve → stampOf ve = record_stamp r →
  Some (applyLww (lookup_store hash s k) ve) = r' ← newest (m k) r; versionedFromWal c r'.
Proof.
  intros Hs Hm Er Hst. rewrite applyLww_accepts, (Hs k). unfold newest. destruct (m k) as [r0|] eqn:E; simpl; [|by rewrite Er].
  destruct (Hm k r0 E) as [Hv0 Hf0]. destruct (versionedFromWal_fresh c r0 Hf0 Hv0) as (ve0 & E0 & _ & Hst0 & _). rewrite E0. simpl.
  rewrite Hst, Hst0. destruct (lwwCovers (record_stamp r) (record_stamp r0)); simpl; [by rewrite Er|by rewrite E0].
Qed.

Lemma record_map_one r m k : record_map [r] m k = if decide (k = we_key r) then record_step (m k) r else m k.
Proof. unfold record_map. rewrite filter_cons, filter_nil. destruct (decide (we_key r = k)) as [<-|]; [by rewrite decide_True|by rewrite decide_False]. Qed.

Lemma putVersioned_shows c m n s r ve :
  store_inv hash s → shows c m s → map_readable c m → versionedFromWal c r = Some ve → Entry.wf ve → stampOf ve = record_stamp r →
  value ve = we_value r → we_op r = OpSet → 0 <= n → room (recSize r + n) s →
  ∃ s', putVersioned hash c (we_key r) ve s = Some (Ok (), s') ∧ store_inv hash s' ∧ room n s' ∧ shows c (record_map [r] m) s' ∧
    grew (glob s) (glob s').
Proof.
  intros Hs Hsh Hm Er Hwf Hst Hval Hop Hn Hroom.
  destruct (putVersionedAt_roomy hash c (we_key r) ve (if hasTtl ve then now c else 0) n s Hs Hwf Hn) as (s' & E & Hs' & Hr' & Hl' & Hp' & Hv' & Hgc').
  { unfold coreSize. simpl. rewrite Hval. exact Hroom. }
  exists s'. split_and!; try done.
  - intros k. rewrite Hl', record_map_one. destruct (decide (k = we_key r)) as [->|]; [|apply Hsh].
    unfold record_step. rewrite Hop. by eapply accepts_newest.
  - pose proof (version_range ve Hwf) as Hver. unfold in_u in Hver. split; [done|lia|].
    intros Hnone. rewrite Hp', Hnone. by destruct (accepts _ _).
Qed.

Lemma replayRecord_shows c m n s r :
  store_inv hash s → shows c m s → map_readable c m → readable c r → 0 <= n → room (recSize r + n) s →
  ∃ s', replayRecord hash c r s = Some s' ∧ store_inv hash s' ∧ room n s' ∧ shows c (record_map [r] m) s' ∧ grew (glob s) (glob s').
Proof.
  intros Hs Hsh Hm [Hv Hf] Hn Hroom. unfold replayRecord. destruct (versionedFromWal_fresh c r Hf Hv) as (ve & Er & Hwf & Hst & Hval & _).
  rewrite Er. destruct (we_op r) eqn:Eo.
  - destruct (putVersioned_shows c m n s r ve) as (s' & -> & Hs' & Hr' & Hsh' & Hp'); try done. by exists s'.
  - destruct (removeKey_spec hash (we_key r) s Hs) as (s' & E & Hs' & Hnv & Hl' & Hp').
    destruct (removeKey_room hash (we_key r) n s _ s' Hs E) as [Hr' Hgc].
    { apply (room_le (recSize r + n)); [done|]. pose proof (recSize_pos r). lia. }
    rewrite E. cbn [mbind option_bind]. exists s'. split_and!; try done.
    + intros k. rewrite Hl', record_map_one. destruct (decide (k = we_key r)); [|apply Hsh]. unfold record_step. by rewrite Eo.
    + split; [done|lia|]. intros Hnone. by rewrite Hp', Hnone.
Qed.

Lemma replayRecords_shows c m n s rs :
  store_inv hash s → shows c m s → map_readable c m → Forall (readable c) rs → 0 <= n → room (recsSize rs + n) s →
  ∃ s', replayRecords hash c rs s = Some s' ∧ store_inv hash s' ∧ room n s' ∧ shows c (record_map rs m) s' ∧ grew (glob s) (glob s').
Proof.
  revert m s. induction rs as [|r rs IH]; intros m s Hs Hsh Hm Hrs Hn Hroom; cbn [replayRecords]; [exists s; by eauto using grew_refl|].
  apply Forall_cons in Hrs as [Hr Hrs]. pose proof (recsSize_nonneg rs).
  destruct (replayRecord_shows c m (recsSize rs + n) s r) as (s1 & -> & Hs1 & Hr1 & Hsh1 & Hp1); try done; [lia| |].
  { simpl in Hroom. by rewrite Z.add_assoc. }
  cbn [mbind option_bind]. destruct (IH (record_map [r] m) s1) as (s2 & E2 & Hs2 & Hr2 & Hsh2 & Hp2); try done.
  { apply record_map_readable; [by constructor|done]. }
  exists s2. split_and!; try done; [|by eapply grew_trans]. intros k. rewrite (Hsh2 k). by rewrite <- (record_map_app [r] rs m k).
Qed.

Lemma loadSnapshotEntries_shows c m n s es :
  store_inv hash s → shows c m s → map_readable c m → Forall (readable c) (snap_record <$> es) → 0 <= n →
  room (recsSize (snap_record <$> es) + n) s →
  ∃ s', loadSnapshotEntries hash c es s = Some s' ∧ store_inv hash s' ∧ room n s' ∧ shows c (record_map (snap_record <$> es) m) s' ∧
    grew (glob s) (glob s').
Proof.
  revert m s. induction es as [|e es IH]; intros m s Hs Hsh Hm Hrs Hn Hroom; cbn [loadSnapshotEntries]; [exists s; by eauto using grew_refl|].
  rewrite fmap_cons in *. apply Forall_cons in Hrs as [Hr Hrs]. pose proof (recsSize_nonneg (snap_record <$> es)).
  unfold loadSnapshotEntry. rewrite snap_as_record. pose proof Hr as [Hv Hf].
  destruct (versionedFromWal_fresh c (snap_record e) Hf Hv) as (ve & Er & Hwf & Hst & Hval & _). rewrite Er.
  destruct (putVersioned_shows c m (recsSize (snap_record <$> es) + n) s (snap_record e) ve) as (s1 & E1 & Hs1 & Hr1 & Hsh1 & Hp1); try done; [lia| |].
  { simpl in Hroom. by rewrite Z.add_assoc. }
  change (we_key (snap_record e)) with (se_key e) in E1. rewrite E1. cbn [mbind option_bind].
  assert (∃ s2, (if se_freq e >? 1 then '(_, s) ← restore_freq hash (se_key e) (se_freq e) s1; Some s else Some s1) = Some s2 ∧
    store_inv hash s2 ∧ room (recsSize (snap_record <$> es) + n) s2 ∧ shows c (record_map [snap_record e] m) s2 ∧ grew (glob s1) (glob s2))
    as (s2 & -> & Hs2 & Hr2 & Hsh2 & Hp2).
  { destruct (se_freq e >? 1); [|exists s1; by eauto using grew_refl].
    destruct (restore_law hash (se_key e) (se_freq e) s1 Hs1) as (s2 & -> & Hs2 & Hl2 & Hr2 & Hg2). exists s2. split_and!; try done.
    - by apply Hr2.
    - intros k. rewrite Hl2. apply Hsh1.
    - rewrite Hg2. apply grew_refl. }
  cbn [mbind option_bind]. destruct (IH (record_map [snap_record e] m) s2) as (s3 & E3 & Hs3 & Hr3 & Hsh3 & Hp3); try done.
  { apply record_map_readable; [by constructor|done]. }
  exists s3. split_and!; try done; [|by eauto using grew_trans]. intros k. rewrite (Hsh3 k). by rewrite <- (record_map_app [snap_record e] (snap_record <$> es) m k).
Qed.
End replay.
