(* ===== verification/Disk.v ===== *)
(** * The disk

    What the directory holds, in three parts that the operations of the
    manager change one at a time: the snapshot that [CURRENT] names, the sealed
    segments and the active log.  Recovery reads the three and leaves the log
    ready for appending; flushing, sealing and compacting keep them. *)

From S2P Require Import Prelude Types Bytes Text Buffers Clock Wal Snapshot WheelHeap TtlWheel Store StoreFacts LruStore LfuStore.
From S2P Require Import StoreSpec Persistence Directory Recovery.
Local Open Scope Z_scope.

Section disk.
Context (xxh3 : bytes → Z).
Implicit Types (d : Dir) (rs active : list WalEntry) (sealed : list (list WalEntry)) (snap : list SnapshotEntry).

(** A file that holds the records [rs], perhaps with a torn record behind. *)
Definition holds (f : bytes) rs : Prop := (∃ tail, torn_tail xxh3 tail ∧ f = log xxh3 rs ++ tail) ∨ f = [] ∧ rs = [].

Definition snap_part d snap : Prop :=
  in_u 32 (Z.of_nat (length snap)) ∧ Forall snap_ok snap ∧
  ∃ cur, current_is d cur ∧
    match cur with None => snap = [] | Some n => ∃ nv, in_u 64 nv ∧ d !! n = Some (snapFile nv snap) end.

Definition seg_part d (qs : list Z) sealed : Prop :=
  segments d qs ∧ Forall2 (λ q rs, ∃ f, d !! walSegmentName q = Some f ∧ holds f rs) qs sealed ∧ Forall (Forall entry_ok) sealed.

Definition act_part d active : Prop :=
  Forall entry_ok active ∧ match d !! K_WAL_FILENAME with None => active = [] | Some f => holds f active end.

(** ** What each part depends on *)

Lemma snap_frame d d' snap :
  (∀ n, isSnapshotFile n = true ∨ n = K_CURRENT_FILENAME → d' !! n = d !! n) → snap_part d snap → snap_part d' snap.
Proof.
  intros Hd (Hl & Hok & cur & Hc & Hf). split; [done|]. split; [done|]. exists cur.
  assert (readCurrent d' = readCurrent d) as Er by (unfold readCurrent; rewrite Hd; auto).
  destruct cur as [n|]; simpl in *.
  - destruct Hc as (Hr & Hs & Hn). rewrite Hd by auto. by rewrite Er.
  - destruct Hc as [Hr Hno]. rewrite Er. split; [|done]. split; [done|]. intros n Hn. destruct (isSnapshotFile n) eqn:E; [|done].
    rewrite Hd in Hn by auto. by rewrite <- E, (Hno n Hn).
Qed.

Lemma seg_frame d d' qs sealed :
  (∀ n q, parseWalSegmentSeq n = Some q → d' !! n = d !! n) → seg_part d qs sealed → seg_part d' qs sealed.
Proof.
  intros Hd ([Hs Hr Hh Ho] & Hf & Hok). rewrite Forall_forall in Hr.
  assert (∀ q, q ∈ qs → d' !! walSegmentName q = d !! walSegmentName q) as Hq.
  { intros q Hin. eapply Hd. apply segment_parse. by apply Hr. }
  split; [|split; [|done]].
  - split; [done|by apply Forall_forall| |].
    + intros q Hin. rewrite Hq by done. by apply Hh.
    + intros n q Hn Hp. rewrite (Hd n q Hp) in Hn. by apply Ho.
  - eapply Forall2_impl_in; [exact Hf|]. intros q rs Hin (f & Ef & Hh'). exists f. by rewrite Hq.
Qed.

Lemma act_frame d d' active : d' !! K_WAL_FILENAME = d !! K_WAL_FILENAME → act_part d active → act_part d' active.
Proof. unfold act_part. by intros ->. Qed.

(** ** Reading the parts back *)

(** What recovery reads of the snapshot. *)
Definition snap_reads d snap : Prop :=
  match findLatestSnapshot d with None => snap = [] | Some n => ∃ nv, readStream (d !! n) = (Some nv, snap, Ok ()) end.

Lemma snapFile_stream nv snap :
  in_u 64 nv → in_u 32 (Z.of_nat (length snap)) → Forall snap_ok snap → readStream (Some (snapFile nv snap)) = (Some nv, snap, Ok ()).
Proof.
  intros Hnv Hl Hok. unfold readStream. destruct (snapFile_read nv snap Hnv Hl Hok) as (r & s' & -> & Hle & Er & _).
  cbn. destruct (Z.gtb_spec (Z.of_nat (length snap)) (Z.of_nat (BufferReader.remaining r) / 42)); [lia|]. by rewrite Nat2Z.id, Er.
Qed.

Lemma snap_part_read d snap : snap_part d snap → snap_reads d snap.
Proof.
  intros (Hl & Hok & cur & Hc & Hf). unfold snap_reads. rewrite (findLatestSnapshot_current _ _ Hc). destruct cur as [n|]; [|done].
  destruct Hf as (nv & Hnv & ->). exists nv. by apply snapFile_stream.
Qed.

Hypothesis xxh3_range : ∀ b, in_u 64 (xxh3 b).

(** A log without its torn tail; one without records is emptied. *)
Definition cut_log rs : bytes := if decide (rs = []) then [] else log xxh3 rs.

Lemma cut_holds rs : holds (cut_log rs) rs.
Proof. unfold cut_log. case_decide; [by right|]. left. exists []. split; [by left|]. by rewrite app_nil_r. Qed.

Lemma holds_read f rs :
  holds f rs → Forall entry_ok rs →
  ∃ rd, records xxh3 (openReader (Some f)) = (rs, rd) ∧ wr_corrupted rd = false ∧ (validSize rd <= length f)%nat ∧ take (validSize rd) f = cut_log rs.
Proof.
  intros [(tail & Ht & ->)|[-> ->]] Hok; [|by eexists].
  destruct (records_spec xxh3 xxh3_range rs tail Hok Ht) as (rd & E & Hc & Hv). exists rd. split; [done|]. split; [done|].
  unfold cut_log. rewrite Hv. case_decide; [simpl; split; [lia|done]|]. rewrite length_app. split; [lia|]. apply take_app_length.
Qed.

(** Every request of recovery is granted. *)
Definition rec_good : RecoverIo := mkRecoverIo (λ _, true) (λ _, true) (λ _, true) all_ok.

Definition max_seq (name : bytes) (o : option Z) : option Z :=
  if decide (name = K_WAL_FILENAME) then o else match parseWalSegmentSeq name with Some q => Some (Z.max (default 0 o) q) | None => o end.

Lemma countLog_max name a b lc : lc_max_seq (countLog name a b lc) = max_seq name (lc_max_seq lc).
Proof. unfold countLog, max_seq. by destruct (decide _). Qed.

Section recovery.
Context {PN PS : Type} `{FreqLaws PN PS}.
Context (hash : bytes → Z).
Implicit Types (s : Store PN PS).

(** A store being loaded, with the room for [n] more bytes. *)
Record loading_state (c : Clock) (m : RecordMap) (n : Z) s : Prop := mkLoading {
  ls_inv : store_inv hash s;
  ls_room : room n s;
  ls_shows : shows hash c m s }.

Lemma recoverSnapshot_spec c m n s d snap :
  snap_reads d snap → map_readable c m → Forall (readable c) (snap_record <$> snap) → 0 <= n →
  loading_state c m (recsSize (snap_record <$> snap) + n) s →
  ∃ s', recoverSnapshot hash c (findLatestSnapshot d) s d = Some (Ok (), s') ∧ loading_state c (record_map (snap_record <$> snap) m) n s' ∧
    grew (glob s) (glob s').
Proof.
  intros Hd Hm Hr Hn [Hi Hroom Hsh]. unfold snap_reads in Hd. unfold recoverSnapshot. destruct (findLatestSnapshot d) as [name|].
  - destruct Hd as (nv & ->). destruct (loadSnapshotEntries_shows hash c m n s snap) as (s' & -> & ? & ? & ? & ?); try done. by exists s'.
  - subst snap. exists s. split_and!; [done|done|apply grew_refl].
Qed.

Lemma recoverLog_spec c m n s d name lc f rs :
  d !! name = Some f → holds f rs → Forall entry_ok rs → map_readable c m → Forall (readable c) rs → 0 <= n →
  loading_state c m (recsSize rs + n) s →
  ∃ lc' s', recoverLog hash xxh3 rec_good c name lc s d = Some (Ok lc', s', <[name := cut_log rs]> d) ∧
    lc_max_seq lc' = max_seq name (lc_max_seq lc) ∧ loading_state c (record_map rs m) n s' ∧ grew (glob s) (glob s').
Proof.
  intros Ed Hf Hok Hm Hr Hn [Hi Hroom Hsh]. unfold recoverLog, replayWal. rewrite Ed.
  destruct (holds_read f rs Hf Hok) as (rd & -> & -> & Hv & Hcut).
  destruct (replayRecords_shows hash c m n s rs) as (s' & -> & ? & ? & ? & ?); try done. cbn [mbind option_bind rec_good ri_size ri_truncate ri_sync andb negb orb].
  unfold file_size. rewrite Ed. cbn [from_option]. unfold zlen. destruct (Z.ltb_spec (Z.of_nat (validSize rd)) (Z.of_nat (length f))).
  - eexists _, s'. split_and!; [|apply countLog_max|done|done]. repeat f_equal. apply map_eq. intros i.
    rewrite lookup_alter, lookup_insert. destruct (decide (name = i)) as [<-|]; [|done]. rewrite Ed. simpl. by rewrite Hcut.
  - eexists _, s'. split_and!; [|apply countLog_max|done|done]. repeat f_equal. symmetry. apply insert_id.
    rewrite Ed, <- Hcut, take_ge by lia. done.
Qed.

Lemma recoverLogs_spec c m n s d lc names logs :
  NoDup names → Forall2 (λ name rs, ∃ f, d !! name = Some f ∧ holds f rs) names logs → Forall (Forall entry_ok) logs →
  map_readable c m → Forall (readable c) (concat logs) → 0 <= n → loading_state c m (recsSize (concat logs) + n) s →
  ∃ lc' s' d', recoverLogs hash xxh3 rec_good c names lc s d = Some (Ok lc', s', d') ∧
    lc_max_seq lc' = foldl (λ o name, max_seq name o) (lc_max_seq lc) names ∧ loading_state c (record_map (concat logs) m) n s' ∧ grew (glob s) (glob s') ∧
    (∀ name, name ∉ names → d' !! name = d !! name) ∧ Forall2 (λ name rs, d' !! name = Some (cut_log rs)) names logs.
Proof.
  intros Hnd Hf. revert logs m s d lc Hnd Hf. induction names as [|name names IH]; intros logs m s d lc Hnd Hf Hok Hm Hr Hn Hs;
    inversion Hf as [|? rs ? logs' Hfile Hrest]; subst; cbn [recoverLogs concat].
  { eexists _, s, d. split_and!; try done. apply grew_refl. }
  apply NoDup_cons in Hnd as [Hnin Hnd]. apply Forall_cons in Hok as [Hok Hoks]. apply Forall_app in Hr as [Hr Hrs].
  destruct Hfile as (f & Ed & Hfh). cbn [concat] in Hs. rewrite recsSize_app in Hs. pose proof (recsSize_nonneg (concat logs')).
  destruct (recoverLog_spec c m (recsSize (concat logs') + n) s d name lc f rs) as (lc1 & s1 & -> & Hl1 & Hs1 & Hg1); try done; [lia| |].
  { by rewrite Z.add_assoc. }
  cbn [mbind option_bind]. destruct (IH logs' (record_map rs m) s1 (<[name := cut_log rs]> d) lc1) as (lc2 & s2 & d2 & -> & Hl2 & Hs2 & Hg2 & Ho & Hd2); try done.
  - eapply Forall2_impl_in; [exact Hrest|]. intros name' rs' Hin (f' & Ef' & Hh'). exists f'. by rewrite lookup_insert_ne by (intros <-; done).
  - by apply record_map_readable.
  - eexists _, _, _. split; [done|]. split; [by rewrite Hl2, Hl1|]. split; [|split; [by eapply grew_trans|split]].
    + destruct Hs2. split; try done. intros k. rewrite ls_shows0. by rewrite record_map_app.
    + intros name' Hn'. apply not_elem_of_cons in Hn' as [Hne Hn']. rewrite Ho by done. by apply lookup_insert_ne.
    + constructor; [|done]. rewrite Ho by done. by rewrite lookup_insert_eq.
Qed.

Lemma reglob_inv s g' :
  store_inv hash s → capacity_bytes g' = capacity_bytes (glob s) → next_version g' = next_version (glob s) →
  store_inv hash (mkStore g' (shards s)) ∧ (∀ k, lookup_store hash (mkStore g' (shards s)) k = lookup_store hash s k) ∧
  ∀ n, room n s → room n (mkStore g' (shards s)).
Proof.
  intros [H1' H2' H3' H4' H5'] Hc Hv. split; [|split; [done|]].
  - split; try done.
    + intros i sh k e Hi He. simpl. rewrite Hv. by eapply H4'.
    + intros i sh Hi. unfold shardCapacity. simpl. rewrite Hc. by eapply H5'.
  - intros n Hr i sh Hi. unfold shardCapacity. simpl. rewrite Hc. by eapply Hr.
Qed.

(** The manager is ready to append to the log of [active]. *)
Record pm_ready (pm : PM) d (qs : list Z) active : Prop := mkReady {
  pr_wal : ∃ w, wal pm = Some w ∧ w_open w = true ∧ w_file w = log xxh3 active;
  pr_linked : wal_linked pm = true;
  pr_loading : loading pm = false;
  pr_file : d !! K_WAL_FILENAME = Some (log xxh3 active);
  pr_seq : Forall (λ q, q < wal_next_seq pm) qs }.

Lemma max_seq_bound qs : ∀ o m,
  Forall (in_u 64) qs → Forall (λ q, q <= m) qs → default 0 o <= m →
  let r := foldl (λ o n, max_seq n o) o (walSegmentName <$> qs) in
  (qs = [] ∧ r = o ∨ ∃ x, r = Some x ∧ x <= m ∧ Forall (λ q, q <= x) qs ∧ default 0 o <= x).
Proof.
  induction qs as [|q qs IH]; intros o m Hr Hm Ho r; [by left|]. right.
  apply Forall_cons in Hr as [Hq Hr]. apply Forall_cons in Hm as [Hqm Hm]. unfold r. cbn [fmap list_fmap foldl].
  assert (max_seq (walSegmentName q) o = Some (Z.max (default 0 o) q)) as ->.
  { unfold max_seq. rewrite decide_False by apply (segment_not_wal q). by rewrite segment_parse. }
  destruct (IH (Some (Z.max (default 0 o) q)) m Hr Hm) as [[-> Hx]|(x & Hx & Hxm & Hqs & Hle)]; [simpl; lia| |].
  - eexists. split; [exact Hx|]. split; [lia|]. split; [|lia]. constructor; [lia|constructor].
  - exists x. simpl in Hle. split_and!; try done; [constructor; [lia|done]|lia].
Qed.

(** The records that recovery replays, in order. *)
Definition all_records snap sealed active : list WalEntry := (snap_record <$> snap) ++ concat sealed ++ active.

Definition act_logs d active : list bytes * list (list WalEntry) :=
  if decide (is_Some (d !! K_WAL_FILENAME)) then ([K_WAL_FILENAME], [active]) else ([], []).

Lemma log_files d qs sealed active :
  seg_part d qs sealed → act_part d active →
  findWalFiles d = (walSegmentName <$> qs) ++ (act_logs d active).1 ∧
  NoDup ((walSegmentName <$> qs) ++ (act_logs d active).1) ∧ concat (act_logs d active).2 = active ∧
  Forall2 (λ name rs, ∃ f, d !! name = Some f ∧ holds f rs) ((walSegmentName <$> qs) ++ (act_logs d active).1) (sealed ++ (act_logs d active).2) ∧
  Forall (Forall entry_ok) (sealed ++ (act_logs d active).2).
Proof.
  intros (Hseg & Hf & Hok) (Hoka & Ha). unfold act_logs.
  assert (Forall2 (λ name rs, ∃ f, d !! name = Some f ∧ holds f rs) (walSegmentName <$> qs) sealed) as Hf' by (by rewrite Forall2_fmap_l).
  pose proof (segment_names_nodup qs (sg_sorted _ _ Hseg) (sg_range _ _ Hseg)) as Hnd. rewrite (findWalFiles_segments d qs Hseg).
  destruct (d !! K_WAL_FILENAME) as [f|] eqn:E.
  - rewrite !decide_True by eauto. simpl. split_and!; [done|done|apply app_nil_r| |].
    + apply Forall2_app; [done|]. constructor; [eauto|constructor].
    + apply Forall_app. auto.
  - rewrite !decide_False by (intros []; done). subst active. simpl. rewrite !app_nil_r. split_and!; try done. by apply NoDup_app in Hnd as [? _].
Qed.

(** Recovery on a directory leaves the parts as they are, with the tails cut. *)
Lemma recovered_parts d d' qs sealed active :
  seg_part d qs sealed → act_part d active →
  (∀ name, name ∉ (walSegmentName <$> qs) ++ (act_logs d active).1 → d' !! name = d !! name) →
  Forall2 (λ name rs, d' !! name = Some (cut_log rs)) ((walSegmentName <$> qs) ++ (act_logs d active).1) (sealed ++ (act_logs d active).2) →
  (∀ n, isSnapshotFile n = true ∨ n = K_CURRENT_FILENAME → d' !! n = d !! n) ∧ seg_part d' qs sealed ∧ (d' !! K_WAL_FILENAME = None ∧ active = [] ∨ d' !! K_WAL_FILENAME = Some (cut_log active)).
Proof.
  intros Hseg Hact Ho Hc. pose proof Hseg as ([Hs Hr Hh Honly] & Hf & Hok).
  assert (∀ n, n ∈ (walSegmentName <$> qs) ++ (act_logs d active).1 → (∃ q, q ∈ qs ∧ n = walSegmentName q) ∨ n = K_WAL_FILENAME) as Hin.
  { intros n [(q & -> & Hq)%list_elem_of_fmap|Hn]%elem_of_app; [eauto|]. right. unfold act_logs in Hn. case_decide; set_solver. }
  split; [|split].
  - intros n Hn. apply Ho. intros [(q & Hq & ->)| ->]%Hin.
    + destruct Hn as [Hn|Hn]; [rewrite segment_not_snapshot in Hn; done|by apply (segment_not_wal q)].
    + by destruct Hn.
  - apply Forall2_app_inv in Hc as [Hc _]; [|by rewrite length_fmap; apply Forall2_length in Hf]. rewrite Forall2_fmap_l in Hc.
    split; [|split; [|done]]; [split; try done|].
    + intros q [i Hq]%list_elem_of_lookup. destruct (Forall2_lookup_l _ _ _ _ _ Hc Hq) as (rs & _ & ->). eauto.
    + intros n q Hn Hp. destruct (decide (n ∈ (walSegmentName <$> qs) ++ (act_logs d active).1)) as [[(q' & Hq' & ->)| ->]%Hin|Hnin].
      * rewrite segment_parse in Hp by (by eapply Forall_forall in Hr). by injection Hp as ->.
      * done.
      * rewrite Ho in Hn by done. by apply Honly.
    + eapply Forall2_impl; [exact Hc|]. intros q rs E. eexists. split; [exact E|]. apply cut_holds.
  - destruct Hact as [_ Ha]. destruct (d !! K_WAL_FILENAME) as [f|] eqn:E.
    + right. unfold act_logs in Hc. rewrite decide_True in Hc by eauto. simpl in Hc.
      apply Forall2_app_inv in Hc as [_ Hc]; [|by rewrite length_fmap; apply Forall2_length in Hf]. by apply Forall2_cons in Hc as [-> _].
    + left. split; [|done]. rewrite Ho; [done|]. unfold act_logs. rewrite decide_False by (intros []; congruence). rewrite app_nil_r.
      intros (q & Hq & _)%list_elem_of_fmap. by apply (segment_not_wal q).
Qed.

Lemma open_cut e active :
  e = None ∧ active = [] ∨ e = Some (cut_log active) → ∃ w, openWal all_ok e Append = Some w ∧ w_open w = true ∧ w_file w = log xxh3 active.
Proof.
  intros He. assert (e = Some (log xxh3 active) ∨ active = [] ∧ (e = None ∨ e = Some [])) as [->|[-> He']].
  { unfold cut_log in He. destruct (decide (active = [])); naive_solver. }
  - eexists. split; [reflexivity|]. done.
  - destruct He' as [->| ->]; (eexists; split; [reflexivity|]; done).
Qed.

Lemma next_seq_bound qs active d N :
  Forall (in_u 64) qs → Forall (λ q, q < N) qs → 1 <= N < 2 ^ 64 →
  let o := foldl (λ o n, max_seq n o) None ((walSegmentName <$> qs) ++ (act_logs d active).1) in
  let next := match o with Some seq => u64 (seq + 1) | None => 1 end in Forall (λ q, q < next) qs ∧ 1 <= next <= N.
Proof.
  intros Hr Hq HN o. assert (o = foldl (λ o n, max_seq n o) None (walSegmentName <$> qs)) as ->.
  { unfold o. rewrite foldl_app. unfold act_logs. by case_decide. }
  destruct (max_seq_bound qs None (N - 1) Hr) as [[-> ->]|(x & -> & Hxm & Hqs & Hx)].
  - eapply Forall_impl; [exact Hq|]. simpl. lia.
  - simpl. lia.
  - split; [constructor|lia].
  - simpl in Hx. simpl. rewrite wrap_small by (unfold in_u; lia). split; [|lia]. eapply Forall_impl; [exact Hqs|]. simpl. lia.
Qed.

Lemma recover_spec o c s pm d snap qs sealed active n N :
  enabled o = true → snap_reads d snap → seg_part d qs sealed → act_part d active →
  Forall (readable c) (all_records snap sealed active) → 0 <= n → Forall (λ q, q < N) qs → 1 <= N < 2 ^ 64 →
  store_inv hash s → (∀ k, lookup_store hash s k = None) → room (recsSize (all_records snap sealed active) + n) s →
  ∃ s' pm' d', recover hash xxh3 o rec_good c s pm d = Some (Ok (), s', pm', d') ∧
    loading_state c (record_map (all_records snap sealed active) no_records) n s' ∧
    persistence (glob s') = persistence (glob s) ∧ grew (glob (muted s)) (glob (muted s')) ∧
    pending_wal pm' = pending_wal pm ∧ pm_ready pm' d' qs active ∧ 1 <= wal_next_seq pm' <= N ∧
    (∀ n, isSnapshotFile n = true ∨ n = K_CURRENT_FILENAME → d' !! n = d !! n) ∧ seg_part d' qs sealed ∧ act_part d' active.
Proof.
  intros Ho Hsnap Hseg Hact Hr Hn Hq HN Hs Hempty Hroom. unfold recover. rewrite Ho. cbn [negb]. unfold all_records in *.
  apply Forall_app in Hr as [Hrs Hrl]. rewrite recsSize_app in Hroom. destruct (log_files d qs sealed active Hseg Hact) as (-> & Hnd & Hcat & Hfiles & Hok).
  assert (concat (sealed ++ (act_logs d active).2) = concat sealed ++ active) as Hlogs by (by rewrite concat_app, Hcat).
  pose proof (recsSize_nonneg (concat sealed ++ active)) as Hpos.
  destruct (reglob_inv s (glob (muted s)) Hs eq_refl eq_refl) as (Hsm & Hlm & Hrm).
  assert (map_readable c no_records) as Hnone by done.
  destruct (recoverSnapshot_spec c no_records (recsSize (concat sealed ++ active) + n) (muted s) d snap) as (s1 & -> & Hs1 & Hg1); try done; [lia| |].
  { split; [done| |by intros k; rewrite Hlm; apply Hempty]. apply Hrm. by rewrite Z.add_assoc. }
  cbn [mbind option_bind]. rewrite <- Hlogs in *.
  destruct (recoverLogs_spec c (record_map (snap_record <$> snap) no_records) n s1 d (mkLogCounts 0 0 0 0 0 None) _ _ Hnd Hfiles Hok)
    as (lc & s2 & d2 & -> & Hmax & Hs2 & Hg2 & Hother & Hcut); try done.
  { by apply record_map_readable. }
  cbn [mbind option_bind]. destruct (recovered_parts d d2 qs sealed active Hseg Hact Hother Hcut) as (Hsnap2 & Hseg2 & Hact2).
  unfold openAt. cbn [rec_good ri_open view dir_fs]. destruct (open_cut _ _ Hact2) as (w & -> & Hwo & Hwf). cbn [mbind option_bind all_ok open_ok exec dir_fs fs_apply].
  pose proof (next_seq_bound qs active d N (sg_range _ _ (proj1 Hseg)) Hq HN) as Hnext. cbv zeta in Hnext.
  cbn [lc_max_seq] in Hmax. rewrite <- Hmax in Hnext. destruct Hnext as [Hnext1 Hnext2].
  eexists _, _, _. split; [reflexivity|]. destruct Hs2 as [Hsi2 Hroom2 Hsh2].
  destruct (reglob_inv s2 (glob (unmuted (persistence (glob s)) s2)) Hsi2 eq_refl eq_refl) as (Hsu & Hlu & Hru).
  split; [split; [done|by apply Hru|]|].
  { intros k. unfold unmuted. rewrite Hlu, record_map_app. apply Hsh2. }
  split; [done|]. split; [destruct (grew_trans _ _ _ Hg1 Hg2) as [Ha1 Ha2 _]; by split|]. split; [done|]. split.
  { split; try done; [by exists w|]. by rewrite <- Hwf, lookup_insert_eq. }
  split; [done|]. split; [|split].
  - intros name Hname. rewrite <- Hsnap2 by done. apply lookup_insert_ne. intros <-. by destruct Hname.
  - apply (seg_frame d2); [|done]. intros name q Hname. apply lookup_insert_ne. intros <-. done.
  - split; [apply Hact|]. rewrite lookup_insert_eq, Hwf. left. exists []. split; [by left|]. by rewrite app_nil_r.
Qed.
End recovery.

(** ** Appending and sealing *)

Section reach.
Context {D : Type} `{FileSystem D}.
Implicit Types (fs : D) (P : Dir → Prop).

(** From one state of the file system to another, where a crash on the way
    leaves a directory that satisfies [P]. *)
Inductive reach P : D → D → Prop :=
  | reach_refl fs : reach P fs fs
  | reach_step op fs fs' : Forall P (fs_states op (view fs)) → reach P (exec op fs) fs' → reach P fs fs'.

Lemma reach_trans P fs1 fs2 fs3 : reach P fs1 fs2 → reach P fs2 fs3 → reach P fs1 fs3.
Proof. induction 1 as [|op fs fs' Hp _ IH]; [done|]. intros Hr. eapply reach_step; [exact Hp|by apply IH]. Qed.

Lemma reach_write P fs name kept b :
  (∀ i, (kept <= i)%nat → P (<[name := take i b]> (view fs))) → reach P fs (exec (FsWrite name kept b) fs).
Proof.
  intros Hp. apply (reach_step P (FsWrite name kept b)); [|apply reach_refl]. apply Forall_forall. intros x (i & -> & [? _]%elem_of_seq)%list_elem_of_fmap. by apply Hp.
Qed.

Lemma reach_rename P fs from to : P (fs_apply (FsRename from to) (view fs)) → reach P fs (exec (FsRename from to) fs).
Proof. intros Hp. apply (reach_step P (FsRename from to)); [by repeat constructor|apply reach_refl]. Qed.

Lemma reach_remove P fs name : P (delete name (view fs)) → reach P fs (exec (FsRemove name) fs).
Proof. intros Hp. apply (reach_step P (FsRemove name)); [by repeat constructor|apply reach_refl]. Qed.

Lemma rename_view fs from to b :
  view fs !! from = Some b → view (exec (FsRename from to) fs) = <[to := b]> (delete from (view fs)).
Proof. intros E. rewrite view_exec. simpl. by rewrite E. Qed.
End reach.

(** The trace notes nothing else. *)
Lemma reach_traced (P : Dir → Prop) (t t' : Traced) : reach P t t' → Forall P t.2 → Forall P t'.2.
Proof. induction 1 as [|op t t' Hp _ IH]; [done|]. intros Ht. apply IH. simpl. by apply Forall_app. Qed.

Section appending.
Context {D : Type} `{FileSystem D}.
Implicit Types (fs : D).

(** The system takes every byte of the records. *)
Definition writes (io : list WriteOutcome) rs : Prop := (writeAll io (concat (record xxh3 <$> rs)) []).1 = true.

Lemma writeAll_file os bs f f' : (writeAll os bs f).1 = (writeAll os bs f').1.
Proof.
  revert bs f f'. induction os as [|[[|n]| |] os IH]; intros [|b bs] f f'; try done; [apply (IH (drop (S n) (b :: bs)))|apply (IH (b :: bs))].
Qed.

Lemma log_act_part d active : Forall entry_ok active → d !! K_WAL_FILENAME = Some (log xxh3 active) → act_part d active.
Proof. intros Hok E. split; [done|]. rewrite E. left. exists []. split; [by left|]. by rewrite app_nil_r. Qed.

(** A write that stopped somewhere leaves some of the records, and perhaps a
    part of the next one. *)
Lemma torn_append (d : Dir) active rs i :
  Forall entry_ok active → Forall entry_ok rs →
  ∃ kept, kept `prefix_of` rs ∧ act_part (<[K_WAL_FILENAME := log xxh3 active ++ take i (concat (record xxh3 <$> rs))]> d) (active ++ kept).
Proof.
  intros Hok Hokp. destruct (cut_records xxh3 rs i Hokp) as (kept & tail & Hcut & Htail & Hpre & _). exists kept. split; [done|].
  rewrite Hcut, app_assoc, <- log_app. split.
  - apply Forall_app. split; [done|]. destruct Hpre as [rest Ep]. rewrite Ep in Hokp. by apply Forall_app in Hokp as [? _].
  - rewrite lookup_insert_eq. left. by exists tail.
Qed.

Lemma drainQueue_spec io w pm fs qs active :
  pm_ready pm (view fs) qs active → wal pm = Some w → Forall entry_ok active → Forall entry_ok (pending_wal pm) →
  ∃ r pm' fs' kept, drainQueueLocked xxh3 io w pm fs = Some (r, pm', fs') ∧ kept `prefix_of` pending_wal pm ∧ act_part (view fs') (active ++ kept) ∧
    (∀ n, n ≠ K_WAL_FILENAME → view fs' !! n = view fs !! n) ∧ wal_next_seq pm' = wal_next_seq pm ∧
    (writes io (pending_wal pm) → pending_wal pm' = [] ∧ kept = pending_wal pm ∧ pm_ready pm' (view fs') qs (active ++ pending_wal pm)) ∧
    ∀ P : Dir → Prop, (∀ x kept, kept `prefix_of` pending_wal pm → act_part x (active ++ kept) →
      (∀ n, n ≠ K_WAL_FILENAME → x !! n = view fs !! n) → P x) → reach P fs fs'.
Proof.
  intros [(w0 & Hw0 & Hwo & Hwf) Hlk Hld Hfile Hseq] Hw Hok Hokp. rewrite Hw in Hw0. injection Hw0 as <-. unfold drainQueueLocked.
  destruct (decide (pending_wal pm = [])) as [Hnil|Hne].
  { rewrite Hnil. exists Empty, pm, fs, []. rewrite app_nil_r. split_and!; try done; [by apply log_act_part| |intros P _; apply reach_refl].
    intros _. split_and!; try done. split; try done. by exists w. }
  destruct (pending_wal pm) as [|e0 es0] eqn:Ep; [done|]. rewrite <- Ep in Hokp, Hne |- *. clear Ep.
  rewrite appendBatch_eq by done.
  destruct (writeAll_spec io (concat (record xxh3 <$> pending_wal pm)) (w_file w)) as (k & E & Hk). rewrite E.
  destruct (cut_records xxh3 (pending_wal pm) k Hokp) as (kept & tail & Hcut & Htail & Hpre & Hmax).
  cbn [mbind option_bind]. rewrite Hlk. cbn [w_file]. rewrite Hwf in E |- *.
  set (fs' := exec (FsWrite K_WAL_FILENAME _ _) fs).
  assert (view fs' = <[K_WAL_FILENAME := log xxh3 active ++ take k (concat (record xxh3 <$> pending_wal pm))]> (view fs)) as Hview by (unfold fs'; by rewrite view_exec).
  assert (∀ P : Dir → Prop, (∀ x kept, kept `prefix_of` pending_wal pm → act_part x (active ++ kept) →
      (∀ n, n ≠ K_WAL_FILENAME → x !! n = view fs !! n) → P x) → reach P fs fs') as Hreach.
  { intros P HP. apply reach_write. intros i Hi. rewrite take_app, (take_ge (log xxh3 active)) by done.
    rewrite take_take. destruct (torn_append (view fs) active (pending_wal pm) (Nat.min (i - length (log xxh3 active)) k) Hok Hokp) as (kept' & Hpre' & Hact').
    apply (HP _ kept'); [done|done|]. intros n Hn. by rewrite lookup_insert_ne. }
  rewrite Hcut, app_assoc, <- log_app in Hview.
  assert (Forall entry_ok (active ++ kept)) as Hokk.
  { apply Forall_app. split; [done|]. destruct Hpre as [rest Ep]. rewrite Ep in Hokp. by apply Forall_app in Hokp as [? _]. }
  assert (act_part (view fs') (active ++ kept)) as Hact.
  { split; [done|]. rewrite Hview, lookup_insert_eq. left. by exists tail. }
  assert (∀ n, n ≠ K_WAL_FILENAME → view fs' !! n = view fs !! n) as Hother by (intros n Hn; rewrite Hview; by apply lookup_insert_ne).
  assert (writes io (pending_wal pm) → k = length (concat (record xxh3 <$> pending_wal pm))) as Hall.
  { intros Hwr. unfold writes in Hwr. rewrite (writeAll_file _ _ _ (log xxh3 active)), E in Hwr. by apply bool_decide_eq_true in Hwr. }
  assert (writes io (pending_wal pm) → log xxh3 (active ++ kept) ++ tail = log xxh3 (active ++ pending_wal pm) ∧ kept = pending_wal pm) as Hwhole.
  { intros Hwr. rewrite log_app, <- app_assoc, <- Hcut, take_ge, <- log_app by (rewrite (Hall Hwr); done). split; [done|].
    apply (anti_symm prefix); [done|]. apply Hmax; [done|]. rewrite (Hall Hwr), records_length. lia. }
  rewrite Hcut, app_assoc, <- log_app.
  destruct (bool_decide (k = length (concat (record xxh3 <$> pending_wal pm)))) eqn:Ek.
  - eexists _, _, fs', kept. split; [reflexivity|]. split_and!; try done. intros Hwr. destruct (Hwhole Hwr) as [Hf Hkept].
    split_and!; try done. split; try done; [by eexists|]. by rewrite Hview, lookup_insert_eq, Hf.
  - eexists _, _, fs', kept. split; [reflexivity|]. split_and!; try done. intros Hwr. apply bool_decide_eq_false in Ek. by destruct Ek; apply Hall.
Qed.

(** A rotation with every request granted; [b] is the answer to [file_size]. *)
Definition rot_good (b : bool) : RotIo := mkRotIo all_ok pub_ok b.

Lemma replaceWal_spec b pm fs qs :
  loading pm = false → Forall (λ q, q < wal_next_seq pm) qs →
  ∃ pm' fs', replaceWalLocked (rot_good b) pm fs = Some (Ok (), pm', fs') ∧ pm_ready pm' (view fs') qs [] ∧ pending_wal pm' = pending_wal pm ∧
    wal_next_seq pm' = wal_next_seq pm ∧ (∀ n, n ≠ K_WAL_FILENAME → n ≠ tmp_of K_WAL_FILENAME → view fs' !! n = view fs !! n) ∧
    ∀ P : Dir → Prop, (∀ x, (∀ n, n ≠ tmp_of K_WAL_FILENAME → x !! n = view fs !! n) → P x) → P (view fs') → reach P fs fs'.
Proof.
  intros Hld Hq. unfold replaceWalLocked, openAt. cbn [rot_good rot_open rot_pub rot_size].
  assert (∃ w, openWal all_ok (view fs !! tmp_of K_WAL_FILENAME) Truncate = Some w ∧ w_open w = true ∧ w_file w = log xxh3 []) as (w & -> & Hwo & Hwf)
    by (eexists; split; [reflexivity|done]).
  cbn [mbind option_bind all_ok open_ok]. set (fs1 := exec (FsWrite _ _ _) fs).
  assert (view fs1 = <[tmp_of K_WAL_FILENAME := w_file w]> (view fs)) as Hv1 by (unfold fs1; by rewrite view_exec).
  unfold publishTempFile. cbn [pub_ok pub_sync pub_rename pub_dir negb]. rewrite !Hv1, lookup_insert_eq.
  set (fs2 := exec (FsRename _ _) fs1).
  assert (view fs2 = <[K_WAL_FILENAME := w_file w]> (delete (tmp_of K_WAL_FILENAME) (view fs1))) as Hv2 by (apply rename_view; by rewrite Hv1, lookup_insert_eq).
  eexists _, fs2. split; [reflexivity|]. split; [|split; [done|split; [done|split]]].
  - split; try done; [by exists w|]. by rewrite Hv2, lookup_insert_eq, Hwf.
  - intros n Hn Ht. rewrite Hv2, lookup_insert_ne by done. rewrite lookup_delete_ne, Hv1 by done. by apply lookup_insert_ne.
  - intros P HP HP2. apply (reach_trans P fs fs1 fs2).
    + apply reach_write. intros i _. apply HP. intros n Hn. by rewrite lookup_insert_ne.
    + apply reach_rename. rewrite <- view_exec. exact HP2.
Qed.

Lemma segments_app d d' qs q :
  segments d qs → in_u 64 q → Forall (λ q', q' < q) qs → is_Some (d' !! walSegmentName q) →
  (∀ n q', parseWalSegmentSeq n = Some q' → n ≠ walSegmentName q → d' !! n = d !! n) → segments d' (qs ++ [q]).
Proof.
  intros [Hs Hr Hh Ho] Hq Hlt Hnew Hd. pose proof Hr as Hr'. rewrite Forall_forall in Hr'. rewrite Forall_forall in Hlt.
  assert (∀ q', q' ∈ qs → walSegmentName q' ≠ walSegmentName q) as Hne.
  { intros q' Hin E. apply segment_inj in E; [|by apply Hr'|done]. subst. specialize (Hlt q Hin). lia. }
  split.
  - apply StronglySorted_app. split_and!; [|done|repeat constructor]. intros x y Hx ->%list_elem_of_singleton. by apply Hlt.
  - apply Forall_app. auto.
  - intros q' [Hin|E%list_elem_of_singleton]%elem_of_app; [|by subst]. rewrite (Hd _ q'); [by apply Hh|by apply segment_parse, Hr'|by apply Hne].
  - intros n q' Hn Hp. destruct (decide (n = walSegmentName q)) as [->|Hnq].
    + rewrite segment_parse in Hp by done. injection Hp as ->. split; [set_solver|done].
    + rewrite (Hd n q' Hp Hnq) in Hn. destruct (Ho n q' Hn Hp) as [Hin E]. split; [set_solver|done].
Qed.

(** A seal with every request granted. *)
Definition seal_good (b1 b2 : bool) : SealIo := mkSealIo b1 None true (rot_good b2) true all_ok.

(** The active log got the next number. *)
Lemma sealed_parts (d x : Dir) snap qs sealed active q :
  in_u 64 q → Forall (λ q', q' < q) qs → Forall entry_ok active → snap_part d snap → seg_part d qs sealed →
  x !! walSegmentName q = Some (log xxh3 active) →
  (∀ n, n ≠ K_WAL_FILENAME → n ≠ tmp_of K_WAL_FILENAME → n ≠ walSegmentName q → x !! n = d !! n) →
  snap_part x snap ∧ seg_part x (qs ++ [q]) (sealed ++ [active]).
Proof.
  intros Hq64 Hseq Hok Hsnap Hseg Hsegq Hold. split.
  - apply (snap_frame d); [|done]. intros n Hn. destruct (tmp_facts K_WAL_FILENAME) as (Ht & _ & _ & Htc). apply Hold.
    + destruct Hn as [Hn| ->]; [by intros ->|done].
    + destruct Hn as [Hn| ->]; [by intros ->|done].
    + destruct Hn as [Hn| ->]; [|apply not_eq_sym, segment_not_wal]. intros ->. by rewrite segment_not_snapshot in Hn.
  - assert (∀ n q', parseWalSegmentSeq n = Some q' → n ≠ walSegmentName q → x !! n = d !! n) as Hsame.
    { intros n q' Hp Hn. apply Hold; [by intros ->| |done]. intros ->. by destruct (tmp_facts K_WAL_FILENAME) as (_ & ? & _); congruence. }
    destruct Hseg as (Hs & Hf & Hoks). split; [|split].
    + by apply (segments_app d).
    + apply Forall2_app.
      * eapply Forall2_impl_in; [exact Hf|]. intros q' rs Hin (f & Ef & Hh). exists f. split; [|done].
        pose proof (proj1 (Forall_forall _ _) (sg_range _ _ Hs) q' Hin) as Hq'. rewrite <- Ef. apply (Hsame _ q'); [by apply segment_parse|].
        intros E. apply segment_inj in E; [|done|done]. subst q'. pose proof (proj1 (Forall_forall _ _) Hseq q Hin). simpl in *. lia.
      * constructor; [|constructor]. eexists. split; [done|]. left. exists []. split; [by left|]. by rewrite app_nil_r.
    + apply Forall_app. auto.
Qed.

Lemma seal_spec b1 b2 pm fs snap qs sealed active :
  pm_ready pm (view fs) qs active → Forall entry_ok active → snap_part (view fs) snap → seg_part (view fs) qs sealed → 0 <= wal_next_seq pm < 2 ^ 64 - 1 →
  ∃ pm' fs', sealActiveWalLocked (seal_good b1 b2) pm fs = Some (Ok (), pm', fs') ∧ pending_wal pm' = pending_wal pm ∧
    wal_next_seq pm' = wal_next_seq pm + 1 ∧ snap_part (view fs') snap ∧ seg_part (view fs') (qs ++ [wal_next_seq pm]) (sealed ++ [active]) ∧
    pm_ready pm' (view fs') (qs ++ [wal_next_seq pm]) [] ∧
    ∀ P : Dir → Prop, (∀ x, snap_part x snap → seg_part x (qs ++ [wal_next_seq pm]) (sealed ++ [active]) → act_part x [] → P x) → reach P fs fs'.
Proof.
  intros [(w & Hw & Hwo & Hwf) Hlk Hld Hfile Hseq] Hok Hsnap Hseg Hnext. unfold sealActiveWalLocked.
  cbn [seal_good seal_rename seal_dir seal_rotate negb with_wal wal_next_seq]. set (q := wal_next_seq pm) in *.
  set (fs1 := exec (FsRename K_WAL_FILENAME (walSegmentName q)) fs).
  assert (view fs1 = <[walSegmentName q := log xxh3 active]> (delete K_WAL_FILENAME (view fs))) as Hv1 by (by apply rename_view).
  destruct (replaceWal_spec b2 (with_wal None true pm) fs1 qs) as (pm' & fs' & -> & Hready & Hpend & Hnx & Hd' & Hreach); [done|done|].
  cbn [mbind option_bind]. eexists _, fs'. split; [reflexivity|]. simpl in Hpend, Hnx.
  assert (in_u 64 q) as Hq64 by (unfold in_u; lia). destruct (tmp_facts K_WAL_FILENAME) as (_ & Htp & _).
  assert (walSegmentName q ≠ tmp_of K_WAL_FILENAME) as Hqt.
  { intros E. pose proof (segment_parse q Hq64) as Hpq. rewrite E in Hpq. congruence. }
  assert (∀ x : Dir, (∀ n, n ≠ K_WAL_FILENAME → n ≠ tmp_of K_WAL_FILENAME → x !! n = view fs1 !! n) →
    snap_part x snap ∧ seg_part x (qs ++ [q]) (sealed ++ [active])) as Hparts.
  { intros x Hx. apply (sealed_parts (view fs)); try done.
    - rewrite Hx, Hv1, lookup_insert_eq by (apply segment_not_wal || done). done.
    - intros n H1 H2 H3. rewrite Hx, Hv1, lookup_insert_ne by done. by apply lookup_delete_ne. }
  destruct (Hparts (view fs') Hd') as [Hsnap' Hseg'].
  assert (u64 (wal_next_seq pm' + 1) = q + 1) as Hinc by (rewrite Hnx; apply wrap_small; unfold in_u; fold q; lia).
  split; [done|]. split; [done|]. split; [done|]. split; [done|]. split.
  - destruct Hready as [Hw' Hlk' Hld' Hf' Hs']. split; try done. cbn [with_sealed wal_next_seq]. rewrite Hinc. apply Forall_app. split; [|repeat constructor; lia].
    eapply Forall_impl; [exact Hseq|]. simpl. lia.
  - intros P HP. assert (act_part (view fs1) []) as Hact1.
    { split; [constructor|]. rewrite Hv1, lookup_insert_ne by (apply segment_not_wal). by rewrite lookup_delete_eq. }
    apply (reach_trans P fs fs1 fs').
    + apply reach_rename. rewrite <- view_exec. destruct (Hparts (view fs1)) as [H1' H2']; [done|]. by apply HP.
    + apply Hreach.
      * intros x Hx. destruct (Hparts x) as [H1' H2']; [auto|]. apply HP; [done|done|]. apply (act_frame (view fs1)); [|done]. by apply Hx.
      * apply HP; [done|done|]. apply log_act_part; [constructor|apply Hready].
Qed.

(** The directory and the manager, between the calls. *)
Record on_disk (pm : PM) d snap (qs : list Z) sealed active : Prop := mkOnDisk {
  od_ready : pm_ready pm d qs active;
  od_active : Forall entry_ok active;
  od_snap : snap_part d snap;
  od_seg : seg_part d qs sealed }.

Lemma od_act pm d snap qs sealed active : on_disk pm d snap qs sealed active → act_part d active.
Proof. intros []. apply log_act_part; [done|apply od_ready0]. Qed.

(** A change of the active log only. *)
Lemma append_parts d d' snap qs sealed :
  (∀ n, n ≠ K_WAL_FILENAME → d' !! n = d !! n) → snap_part d snap → seg_part d qs sealed → snap_part d' snap ∧ seg_part d' qs sealed.
Proof.
  intros Hd Hsnap Hseg. split.
  - apply (snap_frame d); [|done]. intros n [Hn| ->]; apply Hd; [by intros ->|done].
  - apply (seg_frame d); [|done]. intros n q Hn. apply Hd. by intros ->.
Qed.

Lemma drain_disk io w pm fs snap qs sealed active :
  on_disk pm (view fs) snap qs sealed active → wal pm = Some w → Forall entry_ok (pending_wal pm) → writes io (pending_wal pm) →
  ∃ r pm' fs', drainQueueLocked xxh3 io w pm fs = Some (r, pm', fs') ∧ pending_wal pm' = [] ∧ wal_next_seq pm' = wal_next_seq pm ∧
    on_disk pm' (view fs') snap qs sealed (active ++ pending_wal pm) ∧ (∀ n, n ≠ K_WAL_FILENAME → view fs' !! n = view fs !! n) ∧
    ∀ P : Dir → Prop, (∀ x kept, kept `prefix_of` pending_wal pm → snap_part x snap → seg_part x qs sealed → act_part x (active ++ kept) →
      (∀ n, n ≠ K_WAL_FILENAME → x !! n = view fs !! n) → P x) → reach P fs fs'.
Proof.
  intros [Hr Ha Hsnap Hseg] Hw Hok Hwr.
  destruct (drainQueue_spec io w pm fs qs active Hr Hw Ha Hok) as (r & pm' & fs' & kept & E & Hpre & Hact & Hd & Hn & Hall & Hreach).
  destruct (Hall Hwr) as (Hp & -> & Hr'). destruct (append_parts (view fs) (view fs') snap qs sealed Hd Hsnap Hseg) as [Hsnap' Hseg'].
  exists r, pm', fs'. split; [done|]. split; [done|]. split; [done|]. split; [split; try done; by apply Forall_app|]. split; [done|].
  intros P HP. apply Hreach. intros x kept Hk Hax Hx. destruct (append_parts (view fs) x snap qs sealed Hx Hsnap Hseg). by apply (HP x kept).
Qed.

(** A flush whose requests are granted; [sync] and [size] may be refused. *)
Definition flush_io (wio : list WriteOutcome) (sync size b1 b2 : bool) : FlushIo := mkFlushIo wio sync size (seal_good b1 b2).

Lemma flush_spec o wio sync size b1 b2 pm fs snap qs sealed active :
  on_disk pm (view fs) snap qs sealed active → Forall entry_ok (pending_wal pm) → writes wio (pending_wal pm) → 0 <= wal_next_seq pm < 2 ^ 64 - 1 →
  ∃ pm' fs' qs' sealed' active', flush xxh3 o (flush_io wio sync size b1 b2) pm fs = Some (pm', fs') ∧ pending_wal pm' = [] ∧
    on_disk pm' (view fs') snap qs' sealed' active' ∧ concat sealed' ++ active' = concat sealed ++ active ++ pending_wal pm ∧
    wal_next_seq pm <= wal_next_seq pm' <= wal_next_seq pm + 1 ∧
    ∀ P : Dir → Prop, (∀ x kept qs' sealed' active', kept `prefix_of` pending_wal pm → snap_part x snap → seg_part x qs' sealed' → act_part x active' →
      concat sealed' ++ active' = concat sealed ++ active ++ kept → Forall (λ q, q <= wal_next_seq pm) qs' → P x) → reach P fs fs'.
Proof.
  intros Hod Hok Hwr Hnext. destruct (pr_wal _ _ _ _ (od_ready _ _ _ _ _ _ Hod)) as (w & Hw & _). unfold flush. rewrite Hw. cbn [flush_io fl_write fl_sync fl_size fl_seal].
  destruct (drain_disk wio w pm fs snap qs sealed active Hod Hw Hok Hwr) as (r & pm1 & fs1 & -> & Hp1 & Hn1 & Hod1 & _ & Hreach1). cbn [mbind option_bind].
  assert (Forall (λ q, q <= wal_next_seq pm) qs) as Hqs.
  { eapply Forall_impl; [apply (pr_seq _ _ _ _ (od_ready _ _ _ _ _ _ Hod))|]. simpl. lia. }
  assert (∀ P : Dir → Prop, (∀ x kept qs' sealed' active', kept `prefix_of` pending_wal pm → snap_part x snap → seg_part x qs' sealed' → act_part x active' →
      concat sealed' ++ active' = concat sealed ++ active ++ kept → Forall (λ q, q <= wal_next_seq pm) qs' → P x) → reach P fs fs1) as Hr1.
  { intros P HP. apply Hreach1. intros x kept Hk Hs Hg Ha _. by apply (HP x kept qs sealed (active ++ kept)). }
  set (goal := λ run : option (PM * D), ∃ pm' fs' qs' sealed' active', run = Some (pm', fs') ∧ pending_wal pm' = [] ∧
    on_disk pm' (view fs') snap qs' sealed' active' ∧ concat sealed' ++ active' = concat sealed ++ active ++ pending_wal pm ∧
    wal_next_seq pm <= wal_next_seq pm' <= wal_next_seq pm + 1 ∧
    ∀ P : Dir → Prop, (∀ x kept qs' sealed' active', kept `prefix_of` pending_wal pm → snap_part x snap → seg_part x qs' sealed' → act_part x active' →
      concat sealed' ++ active' = concat sealed ++ active ++ kept → Forall (λ q, q <= wal_next_seq pm) qs' → P x) → reach P fs fs').
  assert (goal (Some (pm1, fs1))) as Hstay.
  { exists pm1, fs1, qs, sealed, (active ++ pending_wal pm). split_and!; try done; lia. }
  assert (goal ('(_, pm2, d2) ← sealActiveWalLocked (seal_good b1 b2) pm1 fs1; Some (pm2, d2))) as Hseal.
  { destruct Hod1 as [Hrd1 Ha1 Hsnap1 Hseg1].
    destruct (seal_spec b1 b2 pm1 fs1 snap qs sealed _ Hrd1 Ha1 Hsnap1 Hseg1) as (pm2 & fs2 & -> & Hp2 & Hn2 & Hsnap2 & Hseg2 & Hrd2 & Hreach2); [lia|].
    cbn [mbind option_bind]. eexists pm2, fs2, _, _, []. split; [done|]. split; [congruence|]. split; [by split|].
    assert (concat (sealed ++ [active ++ pending_wal pm]) ++ [] = concat sealed ++ active ++ pending_wal pm) as Hcat
      by (rewrite concat_app; simpl; by rewrite !app_nil_r).
    split; [done|]. split; [lia|]. intros P HP. apply (reach_trans P fs fs1 fs2); [by apply Hr1|]. apply Hreach2. intros x Hs Hg Ha.
    apply (HP x (pending_wal pm) _ _ [] (reflexivity _) Hs Hg Ha Hcat). apply Forall_app. split; [done|]. apply Forall_singleton. lia. }
  destruct r; [exact Hstay| |]; (destruct (wal_fsync o && negb sync); [exact Hstay|]); destruct (_ && _); [exact Hseal|exact Hstay|exact Hseal|exact Hstay].
Qed.

(** ** Compacting *)

Lemma prune_loop_reach removes protected size removed snaps fs P :
  (∀ x : Dir, (∀ n, (n ∈ snaps → n = protected) → x !! n = view fs !! n) → P x) → reach P fs (prune_loop removes protected size removed snaps fs) ∧
  ∀ n, (n ∈ snaps → n = protected) → view (prune_loop removes protected size removed snaps fs) !! n = view fs !! n.
Proof.
  revert removed fs. induction snaps as [|x snaps IH]; intros removed fs HP; cbn [prune_loop]; [split; [apply reach_refl|done]|].
  destruct (_ <=? _)%nat; [split; [apply reach_refl|done]|]. destruct (bool_decide (x = protected)) eqn:E.
  { destruct (IH removed fs) as [Hr Hn]; [intros y Hy; apply HP; intros n Hin; apply Hy; intros Hs; apply Hin; by right|].
    split; [done|]. intros n Hin. apply Hn. intros Hs. apply Hin. by right. }
  apply bool_decide_eq_false in E.
  destruct (removes x).
  - assert (∀ n, (n ∈ x :: snaps → n = protected) → view (exec (FsRemove x) fs) !! n = view fs !! n) as Hx.
    { intros n Hn. rewrite view_exec. apply lookup_delete_ne. intros ->. apply E, Hn. by left. }
    destruct (IH (S removed) (exec (FsRemove x) fs)) as [Hr Hn].
    { intros y Hy. apply HP. intros n Hin. rewrite Hy by (intros Hs; apply Hin; by right). by apply Hx. }
    split; [|intros n Hin; rewrite Hn by (intros Hs; apply Hin; by right); by apply Hx]. eapply reach_trans; [|exact Hr]. apply reach_remove.
    apply HP. intros n Hin. rewrite <- (Hx n Hin). by rewrite view_exec.
  - destruct (IH removed fs) as [Hr Hn]; [intros y Hy; apply HP; intros n Hin; apply Hy; intros Hs; apply Hin; by right|].
    split; [done|]. intros n Hin. apply Hn. intros Hs. apply Hin. by right.
Qed.

(** Pruning spares every file but old snapshots. *)
Lemma pruneOldSnapshots_spec removes fs :
  (∀ n, isSnapshotFile n = false ∨ n = readCurrent (view fs) → view (pruneOldSnapshots removes fs) !! n = view fs !! n) ∧
  ∀ P : Dir → Prop, (∀ x, (∀ n, isSnapshotFile n = false ∨ n = readCurrent (view fs) → x !! n = view fs !! n) → P x) →
    reach P fs (pruneOldSnapshots removes fs).
Proof.
  unfold pruneOldSnapshots. destruct (_ <=? _)%nat; [split; [done|intros P _; apply reach_refl]|].
  assert (∀ n, isSnapshotFile n = false ∨ n = readCurrent (view fs) → n ∈ listSnapshotFiles (view fs) → n = readCurrent (view fs)) as Hn.
  { intros n Hn. unfold listSnapshotFiles. rewrite list_elem_of_filter. intros [Hs _]. destruct Hn; congruence. }
  split.
  - intros n Hx. apply (prune_loop_reach _ _ _ _ _ _ (λ _, True)); [done|by apply Hn].
  - intros P HP. apply prune_loop_reach. intros x Hx. apply HP. intros n Hs. by apply Hx, Hn.
Qed.

Lemma delete_files_spec (names : list bytes) (d : Dir) (n : bytes) :
  delete_files (D := Dir) (λ _, true) names d !! n = if decide (n ∈ names) then None else d !! n.
Proof.
  unfold delete_files. revert d. induction names as [|x names IH]; intros d; cbn [foldl]; [by rewrite decide_False by apply not_elem_of_nil|].
  rewrite IH. cbn [exec dir_fs fs_apply]. rewrite lookup_delete. destruct (decide (n ∈ names)); [by rewrite decide_True by (by right)|].
  destruct (decide (x = n)) as [->|]; [by rewrite decide_True by (by left)|]. by rewrite decide_False by set_solver.
Qed.

Lemma delete_files_reach names fs :
  view (delete_files (λ _, true) names fs) = delete_files (D := Dir) (λ _, true) names (view fs) ∧
  ∀ P : Dir → Prop, (∀ i, P (delete_files (D := Dir) (λ _, true) (take i names) (view fs))) → reach P fs (delete_files (λ _, true) names fs).
Proof.
  unfold delete_files. revert fs. induction names as [|x names IH]; intros fs; cbn [foldl]; [split; [done|intros P _; apply reach_refl]|].
  destruct (IH (exec (FsRemove x) fs)) as [Hv Hr]. rewrite Hv. split; [by rewrite view_exec|]. intros P HP.
  eapply reach_trans; [apply reach_remove; exact (HP 1%nat)|]. apply Hr. intros i. rewrite view_exec. exact (HP (S i)).
Qed.

Lemma sealed_names d qs : segments d qs → filter (λ n, n ≠ K_WAL_FILENAME) (findWalFiles d) = walSegmentName <$> qs.
Proof.
  intros Hseg. rewrite (findWalFiles_segments d qs Hseg), filter_app.
  assert (filter (λ n, n ≠ K_WAL_FILENAME) (if decide (is_Some (d !! K_WAL_FILENAME)) then [K_WAL_FILENAME] else []) = []) as ->.
  { by case_decide. }
  rewrite app_nil_r. clear. induction qs as [|q qs IH]; [done|]. rewrite fmap_cons, filter_cons_True by apply segment_not_wal. by rewrite IH.
Qed.

(** The segments are deleted from the oldest on. *)
Lemma delete_prefix i d qs sealed :
  seg_part d qs sealed →
  let d' := delete_files (D := Dir) (λ _, true) (take i (walSegmentName <$> qs)) d in
  seg_part d' (drop i qs) (drop i sealed) ∧ ∀ n, parseWalSegmentSeq n = None → d' !! n = d !! n.
Proof.
  intros ([Hs Hr Hh Ho] & Hf & Hok) d'.
  assert (∀ n, n ∈ take i (walSegmentName <$> qs) ↔ ∃ q, q ∈ take i qs ∧ n = walSegmentName q) as Hin.
  { intros n. rewrite <- fmap_take, list_elem_of_fmap. naive_solver. }
  pose proof Hs as Hs'. rewrite <- (take_drop i qs) in Hs'. apply StronglySorted_app in Hs' as (Hlt & _ & Hsd).
  pose proof (proj1 (Forall_forall _ _) Hr) as Hr'.
  assert (∀ q, q ∈ drop i qs → q ∈ qs) as Hsub by (intros q Hq; rewrite <- (take_drop i qs); set_solver).
  assert (∀ q, q ∈ drop i qs → d' !! walSegmentName q = d !! walSegmentName q) as Hkeep.
  { intros q Hq. unfold d'. rewrite delete_files_spec, decide_False; [done|]. intros (q' & Hq' & E)%Hin.
    apply segment_inj in E; [|by apply Hr', Hsub|apply Hr'; rewrite <- (take_drop i qs); set_solver]. subst. specialize (Hlt q' q' Hq' Hq). lia. }
  split; [split; [split|split]|].
  - done.
  - by apply Forall_drop.
  - intros q Hq. rewrite Hkeep by done. by apply Hh, Hsub.
  - intros n q Hn Hp. unfold d' in Hn. rewrite delete_files_spec in Hn. case_decide as Hd; [by destruct Hn|].
    destruct (Ho n q Hn Hp) as [Hq ->]. split; [|done]. rewrite <- (take_drop i qs) in Hq. apply elem_of_app in Hq as [Hq|]; [|done].
    destruct Hd. apply Hin. eauto.
  - apply (Forall2_drop _ _ _ i) in Hf. eapply Forall2_impl_in; [exact Hf|]. intros q rs Hq (f & Ef & Hf'). exists f. by rewrite Hkeep.
  - by apply Forall_drop.
  - intros n Hp. unfold d'. rewrite delete_files_spec, decide_False; [done|]. intros (q & Hq & ->)%Hin.
    rewrite segment_parse in Hp; [done|]. apply Hr'. rewrite <- (take_drop i qs). set_solver.
Qed.

(** The snapshot that [CURRENT] names is not affected by what happens to others. *)
Lemma snap_keep d d' n nv snap :
  in_u 32 (Z.of_nat (length snap)) → Forall snap_ok snap → in_u 64 nv → isSnapshotFile n = true → readCurrent d = n → d !! n = Some (snapFile nv snap) →
  d' !! K_CURRENT_FILENAME = d !! K_CURRENT_FILENAME → d' !! n = d !! n → snap_part d' snap.
Proof.
  intros Hl Hok Hnv Hs Hr En Ec Hn. split; [done|]. split; [done|]. exists (Some n). simpl. unfold readCurrent in *. rewrite Ec, Hn, En. split; [|by exists nv]. split; [done|]. split; [done|by eexists].
Qed.

Lemma writeSnapshot_good nv es :
  Forall snap_ok es → in_u 32 (Z.of_nat (length es)) → writeSnapshot (mkSnapIo true true true (Ok ())) nv es = Some (Ok (snapFile nv es)).
Proof.
  intros Hes Hn. destruct (writeSnapshot_spec (mkSnapIo true true true (Ok ())) nv es Hes Hn) as (r & E & Hr). rewrite E.
  assert (∃ file, r = Ok file) as [file ->]; [|by rewrite (Hr file)]. revert E. unfold writeSnapshot. cbn [si_open si_good si_closed si_published negb].
  destruct (snapHeader _ _) as [h|]; [|done]. cbn [mbind option_bind].
  destruct (writeEntries_spec es (mkSnapOut (ByteWriter.out h) []) Hes) as (out & -> & _). cbn [mbind option_bind]. intros [= <-]. eauto.
Qed.

(** The end of a compaction: the segments go, the log is replaced. *)
Lemma compact_tail b wio2 pm fs snap qs sealed :
  loading pm = false → pending_wal pm = [] → snap_part (view fs) snap → seg_part (view fs) qs sealed →
  ∃ pm' fs',
    (let '(pm, fs) := deleteSealedSegmentsLocked (λ _, true) pm fs in
     '(rotated, pm, fs) ← replaceWalLocked (rot_good b) pm fs;
     match rotated with
     | Err x => Some (Err x, pm, fs)
     | Ok _ => '(_, pm, fs) ← drain_if_open xxh3 wio2 pm fs; Some (Ok (), pm, fs)
     end) = Some (Ok (), pm', fs') ∧
    pending_wal pm' = [] ∧ wal_next_seq pm' = wal_next_seq pm ∧ on_disk pm' (view fs') snap [] [] [] ∧
    ∀ P : Dir → Prop,
      (∀ x i, snap_part x snap → seg_part x (drop i qs) (drop i sealed) → x !! K_WAL_FILENAME = view fs !! K_WAL_FILENAME → P x) →
      (∀ x, snap_part x snap → seg_part x [] [] → act_part x [] → P x) → reach P fs fs'.
Proof.
  intros Hld Hp Hsnap Hseg. unfold deleteSealedSegmentsLocked at 1. rewrite (sealed_names (view fs) qs (proj1 Hseg)).
  destruct (delete_files_reach (walSegmentName <$> qs) fs) as [Hv4 Hreach4]. set (fs4 := delete_files _ _ fs) in *.
  assert (∀ i, let d := delete_files (D := Dir) (λ _, true) (take i (walSegmentName <$> qs)) (view fs) in
    snap_part d snap ∧ seg_part d (drop i qs) (drop i sealed) ∧ d !! K_WAL_FILENAME = view fs !! K_WAL_FILENAME) as Hi.
  { intros i. destruct (delete_prefix i (view fs) qs sealed Hseg) as [Hs Hd]. split; [|split; [done|by apply Hd]].
    apply (snap_frame (view fs)); [|done]. intros n [[? _]%snapshot_apart| ->]; by apply Hd. }
  destruct (Hi (length qs)) as (Hsnap4 & Hseg4 & _). rewrite take_ge, <- Hv4 in Hsnap4, Hseg4 by (by rewrite length_fmap).
  rewrite drop_ge in Hseg4 by done. rewrite drop_ge in Hseg4 by (by rewrite (Forall2_length _ _ _ (proj1 (proj2 Hseg)))).
  set (pm4 := with_sealed 0 0 0 (wal_next_seq pm) pm).
  destruct (replaceWal_spec b pm4 fs4 []) as (pm5 & fs5 & -> & Hr5 & Hp5 & Hn5 & Hd5 & Hreach5); [done|constructor|]. cbn [mbind option_bind].
  destruct (pr_wal _ _ _ _ Hr5) as (w5 & Hw5 & _). unfold drain_if_open, drainQueueLocked. rewrite Hw5, Hp5.
  change (pending_wal pm4) with (pending_wal pm). rewrite Hp. cbn [mbind option_bind]. exists pm5, fs5. split; [done|].
  split; [by rewrite Hp5|]. split; [by rewrite Hn5|]. destruct (tmp_facts K_WAL_FILENAME) as (Ht1 & Ht2 & _ & Ht3).
  assert (∀ x : Dir, (∀ n, n ≠ K_WAL_FILENAME → n ≠ tmp_of K_WAL_FILENAME → x !! n = view fs4 !! n) → snap_part x snap ∧ seg_part x [] []) as Hparts.
  { intros x Hx. split.
    - apply (snap_frame (view fs4)); [|done]. intros n Hn. apply Hx; destruct Hn as [(_ & ? & _ & ?)%snapshot_apart| ->]; auto.
    - apply (seg_frame (view fs4)); [|done]. intros n q Hq. apply Hx; [by intros ->|intros ->; congruence]. }
  destruct (Hparts (view fs5) Hd5) as [Hsnap5 Hseg5]. split; [by split|]. intros P HP HPend. apply (reach_trans P fs fs4 fs5).
  - apply Hreach4. intros i. destruct (Hi i) as (? & ? & ?). by apply (HP _ i).
  - apply Hreach5.
    + intros x Hx. destruct (Hparts x) as [Hsx Hgx]; [auto|]. apply (HP x (length qs)); [done| |].
      * rewrite drop_ge by done. by rewrite drop_ge by (by rewrite (Forall2_length _ _ _ (proj1 (proj2 Hseg)))).
      * rewrite Hx by (by apply not_eq_sym). destruct (Hi (length qs)) as (_ & _ & Ew). rewrite take_ge, <- Hv4 in Ew by (by rewrite length_fmap). exact Ew.
    + apply HPend; [done|done|]. apply log_act_part; [constructor|apply Hr5].
Qed.
End appending.

Section snapshots.
Context {PN PS : Type} `{Policy PN PS} `{FreqStore PN PS} {D : Type} `{FileSystem D}.
Context (hash : bytes → Z).
Implicit Types (s : Store PN PS) (fs : D).

Lemma snapshotVersion_range live : in_u 64 (snapshotVersion live).
Proof.
  unfold snapshotVersion. assert (∀ z, in_u 64 z → in_u 64 (foldl (λ nv x, if version x.2 >=? nv then u64 (version x.2 + 1) else nv) z live)) as Hf.
  { induction live as [|x live IH]; intros z Hz; [done|]. cbn [foldl]. apply IH. destruct (version x.2 >=? z); [|done]. by apply wrap_range. }
  apply Hf. done.
Qed.

(** A snapshot with every request granted. *)
Definition snap_good : SnapFileIo := mkSnapFileIo true true true [] pub_ok cur_ok.

Definition snapEntries (c : Clock) s : list SnapshotEntry := (λ x, toSnapshotEntry hash c s x.1 x.2) <$> liveEntries c s.

(** The snapshot is there, but [CURRENT] does not name it yet. *)
Lemma writeSnapshotFile_spec c stamp s fs :
  Forall snap_ok (snapEntries c s) → in_u 32 (Z.of_nat (length (snapEntries c s))) →
  ∃ fs', writeSnapshotFile snap_good (snapshotName stamp) (snapshotVersion (liveEntries c s)) (snapEntries c s) fs = Some (Ok (), fs') ∧
    view fs' !! snapshotName stamp = Some (snapFile (snapshotVersion (liveEntries c s)) (snapEntries c s)) ∧
    (∀ n, n ≠ snapshotName stamp → n ≠ tmp_of (snapshotName stamp) → view fs' !! n = view fs !! n) ∧
    ∀ P : Dir → Prop, (∀ x, (∀ n, (∀ m, n ≠ tmp_of m) → x !! n = view fs !! n) → P x) → P (view fs') → reach P fs fs'.
Proof.
  intros Hok Hlen. unfold writeSnapshotFile. cbn [snap_good sf_open sf_good sf_closed sf_pub]. rewrite writeSnapshot_good by done.
  cbn [mbind option_bind]. set (file := snapFile _ _). set (fs1 := exec (FsWrite _ _ _) fs).
  assert (view fs1 = <[tmp_of (snapshotName stamp) := file]> (view fs)) as Hv1 by (unfold fs1; by rewrite view_exec).
  unfold publishTempFile. cbn [pub_ok pub_sync pub_rename pub_dir negb]. rewrite Hv1, lookup_insert_eq. set (fs2 := exec (FsRename _ _) fs1).
  assert (view fs2 = <[snapshotName stamp := file]> (delete (tmp_of (snapshotName stamp)) (view fs1))) as Hv2 by (apply rename_view; by rewrite Hv1, lookup_insert_eq).
  exists fs2. split; [reflexivity|]. split; [by rewrite Hv2, lookup_insert_eq|]. split.
  - intros n Hn Ht. rewrite Hv2, lookup_insert_ne by done. rewrite lookup_delete_ne, Hv1 by done. by apply lookup_insert_ne.
  - intros P HP HP2. apply (reach_trans P fs fs1 fs2).
    + apply reach_write. intros i _. apply HP. intros n Hn. apply lookup_insert_ne. apply not_eq_sym, Hn.
    + apply reach_rename. rewrite <- view_exec. exact HP2.
Qed.

Lemma createSnapshot_spec c stamp s fs :
  Forall snap_ok (snapEntries c s) → in_u 32 (Z.of_nat (length (snapEntries c s))) → in_u 64 stamp →
  ∃ fs' nv, createSnapshot hash snap_good c stamp s fs = Some (Ok (), fs') ∧ in_u 64 nv ∧ readCurrent (view fs') = snapshotName stamp ∧
    view fs' !! snapshotName stamp = Some (snapFile nv (snapEntries c s)) ∧
    (∀ n, isSnapshotFile n = false → n ≠ K_CURRENT_FILENAME → (∀ m, n ≠ tmp_of m) → view fs' !! n = view fs !! n) ∧
    ∀ P : Dir → Prop, (∀ x, (∀ n, (∀ m, n ≠ tmp_of m) → x !! n = view fs !! n) → P x) →
      (∀ x, x !! snapshotName stamp = Some (snapFile (snapshotVersion (liveEntries c s)) (snapEntries c s)) →
        (∀ n, n ≠ snapshotName stamp → (∀ m, n ≠ tmp_of m) → x !! n = view fs !! n) → P x) → P (view fs') → reach P fs fs'.
Proof.
  intros Hok Hlen Hst. destruct (writeSnapshotFile_spec c stamp s fs Hok Hlen) as (fs1 & E1 & Hfile1 & Hd1 & Hreach1).
  unfold createSnapshot. fold (snapEntries c s). rewrite E1. cbn [mbind option_bind snap_good sf_cur].
  destruct (snapshot_name_facts stamp) as (Hsn & _ & _ & Hnc & _). destruct (snapshot_apart _ Hsn) as (_ & _ & _ & Hnt).
  unfold publishCurrent. cbn [cur_ok cur_open cur_write cur_close cur_pub negb]. set (fs2 := exec (FsWrite _ _ _) fs1).
  assert (view fs2 = <[tmp_of K_CURRENT_FILENAME := snapshotName stamp ++ [c_newline]]> (view fs1)) as Hv2 by (unfold fs2; by rewrite view_exec).
  unfold publishTempFile. cbn [pub_ok pub_sync pub_rename pub_dir negb]. rewrite Hv2, lookup_insert_eq. cbn [snd].
  set (fs3 := exec (FsRename _ _) fs2).
  assert (view fs3 = <[K_CURRENT_FILENAME := snapshotName stamp ++ [c_newline]]> (delete (tmp_of K_CURRENT_FILENAME) (view fs2))) as Hv3
    by (apply rename_view; by rewrite Hv2, lookup_insert_eq).
  exists fs3, (snapshotVersion (liveEntries c s)). split; [reflexivity|]. split; [apply snapshotVersion_range|]. split; [|split; [|split]].
  - apply readCurrent_name; [done|]. by rewrite Hv3, lookup_insert_eq.
  - rewrite Hv3, lookup_insert_ne by done. rewrite lookup_delete_ne, Hv2 by (apply not_eq_sym, Hnt). by rewrite lookup_insert_ne by (apply not_eq_sym, Hnt).
  - intros n Hs Hc Ht. rewrite Hv3, lookup_insert_ne by done. rewrite lookup_delete_ne, Hv2 by (apply not_eq_sym, Ht).
    rewrite lookup_insert_ne by (apply not_eq_sym, Ht). apply Hd1; [congruence|apply Ht].
  - intros P HP1 HP2 HP3. eapply reach_trans; [apply Hreach1; [exact HP1|]|].
    { apply HP2; [done|]. intros n Hn Ht. by apply Hd1. }
    apply (reach_trans P fs1 fs2 fs3).
    + apply reach_write. intros i _. apply HP2; [by rewrite lookup_insert_ne by (apply not_eq_sym, Hnt)|].
      intros n Hn Ht. rewrite lookup_insert_ne by (apply not_eq_sym, Ht). by apply Hd1.
    + apply reach_rename. rewrite <- view_exec. exact HP3.
Qed.

(** Recovery then takes the old snapshot or the new one. *)
Lemma unpublished_reads c stamp s d d' snap :
  snap_part d snap → Forall snap_ok (snapEntries c s) → in_u 32 (Z.of_nat (length (snapEntries c s))) →
  d' !! snapshotName stamp = Some (snapFile (snapshotVersion (liveEntries c s)) (snapEntries c s)) →
  (∀ n, n ≠ snapshotName stamp → (∀ m, n ≠ tmp_of m) → d' !! n = d !! n) →
  snap_reads d' snap ∨ snap_reads d' (snapEntries c s).
Proof.
  intros (Hl & Hok & cur & Hc & Hf) Hsok Hlen En Hd. destruct (snapshot_name_facts stamp) as (Hsn & _ & _ & Hnc & _).
  assert (readCurrent d' = readCurrent d) as Er.
  { unfold readCurrent. rewrite Hd; [done|by apply not_eq_sym|]. intros m. apply not_eq_sym, tmp_facts. }
  assert (findLatestSnapshot d' = Some (snapshotName stamp) → snap_reads d' (snapEntries c s)) as Hnew.
  { intros E. unfold snap_reads. rewrite E, En. eexists. apply snapFile_stream; [apply snapshotVersion_range|done|done]. }
  destruct cur as [n|].
  - destruct Hc as (Hr & Hs & Hn). destruct (decide (n = snapshotName stamp)) as [->|Hne].
    + right. apply Hnew. apply (findLatestSnapshot_current _ (Some _)). split; [congruence|]. split; [done|by eexists].
    + left. assert (d' !! n = d !! n) as Hnn by (apply Hd; [done|by apply snapshot_apart]).
      unfold snap_reads. rewrite (findLatestSnapshot_current d' (Some n)) by (split; [congruence|]; by rewrite Hnn). rewrite Hnn.
      destruct Hf as (nv & Hnv & ->). exists nv. by apply snapFile_stream.
  - right. destruct Hc as [Hr Hno]. apply Hnew. apply findLatestSnapshot_only; [congruence|done|by eexists|].
    intros n' Hn' Hs'. destruct (decide (n' = snapshotName stamp)) as [|Hne]; [done|]. rewrite Hd in Hn'; [by rewrite (Hno n' Hn') in Hs'|done|].
    by apply snapshot_apart.
Qed.

(** A compaction with every request granted but the pruning. *)
Definition compact_io (wio wio2 : list WriteOutcome) (prune : bytes → bool) (b : bool) : CompactIo :=
  mkCompactIo wio snap_good prune (λ _, true) (rot_good b) wio2.

Lemma compact_spec o wio wio2 prune b c stamp s pm fs snap qs sealed active :
  enabled o = true → on_disk pm (view fs) snap qs sealed active → Forall entry_ok (pending_wal pm) → writes wio (pending_wal pm) →
  Forall snap_ok (snapEntries c s) → in_u 32 (Z.of_nat (length (snapEntries c s))) → in_u 64 stamp →
  ∃ pm' fs', compact hash xxh3 o (compact_io wio wio2 prune b) c stamp s pm fs = Some (Ok (), pm', fs') ∧ pending_wal pm' = [] ∧
    wal_next_seq pm' = wal_next_seq pm ∧ on_disk pm' (view fs') (snapEntries c s) [] [] [] ∧
    ∀ P : Dir → Prop,
      (∀ x kept, kept `prefix_of` pending_wal pm → snap_part x snap → seg_part x qs sealed → act_part x (active ++ kept) →
        (∀ n, n ≠ K_WAL_FILENAME → x !! n = view fs !! n) → P x) →
      (∀ x, snap_reads x snap ∨ snap_reads x (snapEntries c s) → seg_part x qs sealed → act_part x (active ++ pending_wal pm) → P x) →
      (∀ x i, snap_part x (snapEntries c s) → seg_part x (drop i qs) (drop i sealed) → act_part x (active ++ pending_wal pm) → P x) →
      (∀ x, snap_part x (snapEntries c s) → seg_part x [] [] → act_part x [] → P x) → reach P fs fs'.
Proof.
  intros Ho Hod Hokp Hwr Hsok Hlen Hst. unfold compact. rewrite Ho. cbn [negb compact_io co_drain co_snap co_prune co_delete co_rotate co_drain2].
  destruct (pr_wal _ _ _ _ (od_ready _ _ _ _ _ _ Hod)) as (w & Hw & _).
  assert (drain_if_open xxh3 wio pm fs = drainQueueLocked xxh3 wio w pm fs) as -> by (unfold drain_if_open; by rewrite Hw).
  destruct (drain_disk wio w pm fs snap qs sealed active Hod Hw Hokp Hwr) as (r & pm1 & fs1 & -> & Hp1 & Hn1 & Hod1 & _ & Hreach1). cbn [mbind option_bind].
  pose proof (od_act _ _ _ _ _ _ Hod1) as Hact1. destruct Hod1 as [Hr1 Ha1 Hsnap1 Hseg1].
  destruct (createSnapshot_spec c stamp s fs1 Hsok Hlen Hst) as (fs2 & nv & -> & Hnv & Hcur2 & Hfile2 & Hd2 & Hreach2). cbn [mbind option_bind].
  destruct (snapshot_name_facts stamp) as (Hsn & _ & _ & Hnc & _). destruct (pruneOldSnapshots_spec prune fs2) as [Hd3 Hreach3].
  set (fs3 := pruneOldSnapshots prune fs2) in *.
  assert (∀ x : Dir, (∀ n, isSnapshotFile n = false → n ≠ K_CURRENT_FILENAME → (∀ m, n ≠ tmp_of m) → x !! n = view fs1 !! n) →
    seg_part x qs sealed ∧ act_part x (active ++ pending_wal pm)) as Hlogs.
  { intros x Hx. split.
    - apply (seg_frame (view fs1)); [|done]. intros n q Hp. apply Hx.
      + destruct (isSnapshotFile n) eqn:E; [|done]. apply snapshot_apart in E as [E _]. congruence.
      + by intros ->.
      + intros m ->. destruct (tmp_facts m) as (_ & E & _). congruence.
    - apply (act_frame (view fs1)); [|done]. apply Hx; [done|done|]. intros m E. destruct (tmp_facts m) as (_ & _ & E' & _). congruence. }
  assert (∀ x : Dir, (∀ n, isSnapshotFile n = false ∨ n = readCurrent (view fs2) → x !! n = view fs2 !! n) →
    snap_part x (snapEntries c s) ∧ seg_part x qs sealed ∧ act_part x (active ++ pending_wal pm)) as Hnew.
  { intros x Hx. split; [|apply Hlogs; intros n Hs Hc Ht; rewrite Hx by auto; by apply Hd2].
    apply (snap_keep (view fs2) x (snapshotName stamp) nv); try done; apply Hx; [by left|by right]. }
  destruct (Hnew (view fs3) Hd3) as (Hsnap3 & Hseg3 & Hact3).
  destruct (compact_tail b wio2 pm1 fs3 _ qs sealed (pr_loading _ _ _ _ Hr1) Hp1 Hsnap3 Hseg3) as (pm' & fs' & E & Hp' & Hn' & Hod' & Hreach4).
  exists pm', fs'. split; [exact E|]. split; [done|]. split; [congruence|]. split; [done|]. intros P HP1 HP2 HP3 HP4.
  apply (reach_trans P fs fs1 fs'); [by apply Hreach1|]. apply (reach_trans P fs1 fs2 fs').
  - apply Hreach2.
    + intros x Hx. destruct (Hlogs x) as [Hg Ha]; [auto|]. apply HP2; [|done|done]. left. apply snap_part_read, (snap_frame (view fs1)); [|done].
      intros n Hn. apply Hx. destruct Hn as [Hn| ->]; [by apply snapshot_apart|]. intros m. apply not_eq_sym, tmp_facts.
    + intros x Hfx Hx. destruct (Hlogs x) as [Hg Ha]; [intros n Hs _ Ht; apply Hx; [congruence|done]|]. apply HP2; [|done|done].
      by apply (unpublished_reads c stamp s (view fs1)).
    + destruct (Hnew (view fs2)) as (H1' & H2' & H3'); [done|]. by apply (HP3 _ 0%nat).
  - apply (reach_trans P fs2 fs3 fs').
    + apply Hreach3. intros x Hx. destruct (Hnew x Hx) as (H1' & H2' & H3'). by apply (HP3 _ 0%nat).
    + apply Hreach4; [|done]. intros x i H1' H2' Ex. apply (HP3 x i); [done|done|]. by apply (act_frame (view fs3)).
Qed.
End snapshots.
End disk.
