(* ===== verification/Durability.v ===== *)
(** * Durability

    The store, the persistence manager and the directory as one system: the
    operations of the store, flushes, compactions and crashes, in any order.
    Recovery brings back the store. *)

From S2P Require Import Prelude Types Bytes Text Buffers Clock Wal Snapshot WheelHeap TtlWheel Store StoreFacts LruStore LfuStore.
From S2P Require Import StoreSpec Persistence CrashTrace Directory Recovery Disk.
Import EntryFacts LwwFacts.
Local Open Scope Z_scope.

(** ** The live entries *)

Section live.
Context {PN PS : Type} `{PolicyLaws PN PS}.
Context (hash : bytes → Z).
Implicit Types (sh : Shard PN PS) (s : Store PN PS).

Lemma liveShard_elem t sh k e : shard_inv sh → (k, e) ∈ liveShard t sh ↔ entry_at sh k = Some e ∧ expired t e = false.
Proof.
  intros [Hi _]. unfold liveShard. rewrite list_elem_of_omap, (entry_at_cores _ _ _ _ _ _ Hi). split.
  - intros (n & _ & Hn). destruct (nodes sh !! n) as [nd|] eqn:E; [|done]. simpl in Hn. destruct (expired t (n_entry nd)) eqn:Ex; [done|].
    injection Hn as <- <-. split; [|done]. exists n. by apply cores_node.
  - intros [(n & Hn) Hx]. exists n. split; [apply (bi_listed _ _ _ _ Hi); eauto|]. apply cores_Some in Hn as (nd & -> & <- & <-). simpl. by rewrite Hx.
Qed.

Lemma liveShard_keys t sh : shard_inv sh → NoDup (liveShard t sh).*1.
Proof.
  intros [Hi _]. destruct (bi_listed _ _ _ _ Hi) as [Hnd _]. unfold liveShard. rewrite list_fmap_omap.
  apply NoDup_omap_inj; [|done]. intros n n' k Hn Hn'.
  assert (∀ n, fst <$> (nd ← nodes sh !! n; if expired t (n_entry nd) then None else Some (n_key nd, n_entry nd)) = Some k →
    ∃ e, cores sh !! n = Some (k, e)) as Hc.
  { intros m Hm. destruct (nodes sh !! m) as [nd|] eqn:E; [|done]. simpl in Hm. destruct (expired t (n_entry nd)); [done|]. injection Hm as <-.
    exists (n_entry nd). by apply cores_node. }
  apply Hc in Hn as (e & Hn), Hn' as (e' & Hn'). by eapply key_address.
Qed.

Lemma live_keys t (shs : list (Shard PN PS)) :
  Forall shard_inv shs →
  (∀ i j sh sh' k e e', shs !! i = Some sh → shs !! j = Some sh' → entry_at sh k = Some e → entry_at sh' k = Some e' → i = j) →
  NoDup (shs ≫= liveShard t).*1.
Proof.
  induction shs as [|sh shs IH]; intros Hinv Hroute; [apply NoDup_nil_2|]. apply Forall_cons in Hinv as [Hsh Hinv].
  rewrite bind_cons, fmap_app. apply NoDup_app. split; [by apply liveShard_keys|]. split.
  - intros k ([k1 e] & -> & He)%list_elem_of_fmap ([k2 e'] & E & Hin)%list_elem_of_fmap. simpl in E. subst k2.
    apply liveShard_elem in He as [He _]; [|done].
    apply list_elem_of_bind in Hin as (sh' & Hin & Hsh'). apply list_elem_of_lookup in Hsh' as [j Hj].
    pose proof (proj1 (Forall_forall _ _) Hinv sh' (list_elem_of_lookup_2 _ _ _ Hj)) as Hi'. apply liveShard_elem in Hin as [He' _]; [|done].
    by pose proof (Hroute 0%nat (S j) sh sh' _ _ _ eq_refl Hj He He').
  - apply IH; [done|]. intros i j sh1 sh2 k e e' Hi Hj He He'. by pose proof (Hroute (S i) (S j) sh1 sh2 k e e' Hi Hj He He') as [=].
Qed.

Lemma liveEntries_keys c s : store_inv hash s → NoDup (liveEntries c s).*1.
Proof.
  intros Hs. apply live_keys.
  - apply Forall_lookup. apply (si_shard _ _ Hs).
  - intros i j sh sh' k e e' Hi Hj He He'. rewrite <- (si_route _ _ Hs i sh k e Hi He). by apply (si_route _ _ Hs j sh' k e').
Qed.

Lemma liveEntries_elem c s k e :
  store_inv hash s → (k, e) ∈ liveEntries c s ↔ lookup_store hash s k = Some e ∧ expired (now c) e = false.
Proof.
  intros Hs. unfold liveEntries. rewrite list_elem_of_bind. split.
  - intros (sh & Hin & [i Hi]%list_elem_of_lookup). apply liveShard_elem in Hin as [He Hx]; [|by apply (si_shard _ _ Hs i)]. split; [|done].
    unfold lookup_store. by rewrite (si_route _ _ Hs i sh k e Hi He), Hi.
  - intros [He Hx]. destruct (home_shard hash k s Hs) as (sh & Hsh & Hinv & El). exists sh. split; [|by eapply list_elem_of_lookup_2].
    apply liveShard_elem; [done|]. split; [congruence|done].
Qed.
End live.

(** ** Entries and their records

    [off] is what the system clock is ahead of the steady one, the same
    throughout, and [limit] a time, in milliseconds of the system clock, that
    the clocks do not pass and before which nothing expires. *)

Section records.
Context (off limit : Z).

Definition expiry_ms (e : VersionedEntry) : Z := (expires_at e + off) / 1000000.

Record clock_ok (c : Clock) : Prop := mkClockOk {
  ck_off : nowSystem c = now c + off;
  ck_now : 0 <= now c < 2 ^ 63;
  ck_system : 0 <= nowSystem c;
  ck_limit : nowSystem c / 1000000 <= limit < 2 ^ 63 }.

Definition ttl_ok (e : VersionedEntry) : Prop := hasTtl e = true → limit < expiry_ms e < 2 ^ 63.

Definition rec_of (k : bytes) (e : VersionedEntry) : WalEntry :=
  mkWalEntry OpSet k (value e) (version e) (writer_node_hash e) (if hasTtl e then expiry_ms e else 0) (hasTtl e) (isTombstone e).

(** A record whose fields are in range and which does not expire. *)
Record good (r : WalEntry) : Prop := mkGood {
  gd_ok : entry_ok r;
  gd_version : in_u 62 (we_version r);
  gd_ttl : if we_has_ttl r then limit < we_expires_at_ms r < 2 ^ 63 else we_expires_at_ms r = 0 }.

Lemma limit_nonneg c : clock_ok c → 0 <= limit.
Proof. intros []. pose proof (Z.div_pos (nowSystem c) 1000000). lia. Qed.

Lemma toSystemMs_expiry c e : clock_ok c → limit < expiry_ms e < 2 ^ 63 → toSystemMs c (expires_at e) = expiry_ms e.
Proof.
  intros Hc He. pose proof (limit_nonneg c Hc). destruct Hc as [Hoff _ _ _]. unfold expiry_ms in *. unfold toSystemMs, toSystemExpiry.
  replace (nowSystem c + (expires_at e - now c)) with (expires_at e + off) by lia.
  assert (0 <= expires_at e + off) by (apply Z.nlt_ge; intros ?; pose proof (Z.div_lt_upper_bound (expires_at e + off) 1000000 0); lia).
  rewrite Z.quot_div_nonneg by lia. apply wrap_small. unfold in_u. lia.
Qed.

Lemma walRecord_rec c k e : clock_ok c → ttl_ok e → walRecord c k e = rec_of k e.
Proof.
  intros Hc He. unfold walRecord, rec_of, toSystemMsOrDefault. f_equal. destruct (hasTtl e) eqn:E; [|done]. by apply toSystemMs_expiry, He.
Qed.

Lemma snap_rec {PN PS} `{Policy PN PS} `{FreqStore PN PS} hash c (s : Store PN PS) k e :
  clock_ok c → ttl_ok e → snap_record (toSnapshotEntry hash c s k e) = rec_of k e.
Proof. intros Hc He. by rewrite <- (walRecord_rec c). Qed.

Lemma rec_stamp k e : record_stamp (rec_of k e) = stampOf e.
Proof. done. Qed.

Lemma rec_of_good k e :
  Entry.wf e → ttl_ok e → zlen k <= u32_max → zlen (value e) <= u32_max → in_u 64 (writer_node_hash e) → 0 <= limit → good (rec_of k e).
Proof.
  intros Hwf Ht Hk Hv Hw Hl. pose proof (version_range e Hwf) as Hr. split; [split|done|]; simpl; try done.
  - unfold in_u in *. lia.
  - unfold in_u. destruct (hasTtl e) eqn:E; [specialize (Ht E)|]; lia.
  - destruct (hasTtl e) eqn:E; [by apply Ht|done].
Qed.

Lemma now_ms c : clock_ok c → nowSystemMs c = nowSystem c / 1000000 ∧ 0 <= nowSystem c / 1000000 <= limit.
Proof.
  intros [? ? ? ?]. pose proof (Z.div_pos (nowSystem c) 1000000). unfold nowSystemMs. rewrite Z.quot_div_nonneg by lia. split; [|lia].
  apply wrap_small. unfold in_u. lia.
Qed.

Lemma good_readable c r : clock_ok c → good r → readable c r.
Proof.
  intros Hc [Hok Hv Ht]. split; [done|]. destruct (now_ms c Hc) as [E Hn]. unfold fresh_at. destruct (we_has_ttl r); [|by left]. right. right. lia.
Qed.

(** The entry made of a good record has that record. *)
Lemma good_back c r :
  clock_ok c → good r → we_op r = OpSet → ∃ ve, versionedFromWal c r = Some ve ∧ rec_of (we_key r) ve = r.
Proof.
  intros Hc Hg Hop. destruct (good_readable c r Hc Hg) as [_ Hf]. destruct Hg as [Hok Hv Ht].
  destruct (versionedFromWal_fresh c r Hf Hv) as (ve & E & Hwf & Hst & Hval & Httl). exists ve. split; [done|].
  unfold stampOf, record_stamp in Hst. injection Hst as H1 H2 H3. destruct r as [op k v ver wr ms ttl tomb]. simpl in *. subst op. unfold rec_of.
  rewrite Hval, H1, H2, H3, Httl. f_equal. destruct ttl; [|done]. destruct (now_ms c Hc) as [En Hn]. destruct Hc as [Hoff _ _ _].
  unfold versionedFromWal, rebaseExpiry in E. simpl in E. rewrite En in E. destruct (Z.eqb_spec ms 0); [lia|].
  destruct (Z.leb_spec ms (nowSystem c / 1000000)); [lia|]. injection E as <-. unfold to_i64.
  rewrite wrap_small by (unfold in_u; lia). destruct (Z.ltb_spec (ms - nowSystem c / 1000000) (2 ^ 63)); [|lia].
  destruct (Z.ltb_spec (ms - nowSystem c / 1000000) 1); [lia|]. unfold expiry_ms. simpl.
  replace (now c + (ms - nowSystem c / 1000000) * 1000000 + off) with (nowSystem c + (ms - nowSystem c / 1000000) * 1000000) by lia.
  rewrite Z.div_add by lia. lia.
Qed.

Lemma del_good k e : good (rec_of k e) → good (mkWalEntry OpDel k [] (version e) (writer_node_hash e) 0 false false).
Proof. intros [[H1 H2 H3 H4 H5] Hv _]. split; [split|exact Hv|reflexivity]; simpl; try done. Qed.

(** Nothing in a store of good records has expired. *)
Lemma good_unexpired c k e : clock_ok c → good (rec_of k e) → ttl_ok e ∧ expired (now c) e = false.
Proof.
  intros Hc [_ _ Ht]. simpl in Ht. assert (ttl_ok e) as Hok by (intros E; by rewrite E in Ht). split; [done|]. unfold expired.
  destruct (hasTtl e) eqn:E; [|done]. simpl. apply Z.leb_gt. specialize (Hok E) as [Hlt _]. unfold expiry_ms in Hlt. destruct Hc as [Hoff _ _ Hl].
  assert (nowSystem c / 1000000 < (expires_at e + off) / 1000000) as Hd by lia.
  apply Z.nle_gt. intros Hle. pose proof (Z.div_le_mono (expires_at e + off) (nowSystem c) 1000000). lia.
Qed.
End records.

(** ** The store and the records that stand for it *)

Section mirror.
Context {PN PS : Type} `{FreqLaws PN PS}.
Context (hash : bytes → Z) (off limit : Z).
Implicit Types (s : Store PN PS) (m : RecordMap).

Definition mirrors m s : Prop := ∀ k, rec_of off k <$> lookup_store hash s k = m k.

Definition map_good m : Prop := ∀ k r, m k = Some r → good limit r ∧ we_key r = k ∧ we_op r = OpSet.

Lemma record_map_good rs m : Forall (good limit) rs → map_good m → map_good (record_map rs m).
Proof.
  intros Hrs Hm k r Hr. destruct (record_map_elem _ _ _ _ Hr) as [E|(Hin & Hk & Ho)]; [by apply Hm|]. split; [|done]. by eapply Forall_forall in Hin.
Qed.

Lemma shows_mirrors c m s : clock_ok off limit c → map_good m → shows hash c m s → mirrors m s.
Proof.
  intros Hc Hm Hs k. rewrite (Hs k). destruct (m k) as [r|] eqn:E; [|done]. destruct (Hm k r E) as (Hg & <- & Ho).
  destruct (good_back off limit c r Hc Hg Ho) as (ve & Ev & Hb). simpl. by rewrite Ev; simpl; rewrite Hb.
Qed.

Lemma mirror_entry m s k e : mirrors m s → map_good m → lookup_store hash s k = Some e → good limit (rec_of off k e).
Proof. intros Hs Hm E. destruct (Hm k (rec_of off k e)) as [? _]; [|done]. by rewrite <- (Hs k), E. Qed.

Lemma mirrors_ext m m' s : mirrors m s → (∀ k, m k = m' k) → mirrors m' s.
Proof. intros Hs E k. by rewrite <- E. Qed.

(** The effect of an operation: what it logs, and that the log explains it. *)
Record logged m s (recs : list WalEntry) (n size : Z) (s' : Store PN PS) : Prop := mkLogged {
  lg_inv : store_inv hash s';
  lg_room : room n s';
  lg_mirrors : mirrors (record_map recs m) s';
  lg_log : persistence (glob s') = (λ l, l ++ recs) <$> persistence (glob s);
  lg_good : Forall (good limit) recs;
  lg_size : recsSize recs <= size;
  lg_length : (length recs <= 1)%nat;
  lg_gc : tombstone_gc (glob s') = tombstone_gc (glob s);
  lg_next : next_version (glob s) <= next_version (glob s') <= Z.max (next_version (glob s) + 1) (2 ^ 62) }.

Lemma put_mirror c k e at_ m n s :
  clock_ok off limit c → store_inv hash s → mirrors m s → map_good m → Entry.wf e → ttl_ok off limit e →
  zlen k <= u32_max → zlen (value e) <= u32_max → in_u 64 (writer_node_hash e) → 0 <= n → room (coreSize (k, e) + n) s →
  ∃ s' recs, putVersionedAt hash c k e at_ s = Some (Ok (), s') ∧ logged m s recs n (coreSize (k, e)) s' ∧
    next_version (glob s') <= Z.max (next_version (glob s)) (2 ^ 62).
Proof.
  intros Hc Hs Hm Hmg Hwf Ht Hk Hv Hw Hn Hroom.
  destruct (putVersionedAt_roomy hash c k e at_ n s Hs Hwf Hn Hroom) as (s' & E & Hs' & Hr' & Hl' & Hp' & Hv' & Hgc').
  rewrite (walRecord_rec off limit c k e Hc Ht) in Hp'. pose proof (rec_of_good off limit k e Hwf Ht Hk Hv Hw (limit_nonneg _ _ _ Hc)) as Hg.
  exists s', (if accepts (lookup_store hash s k) e then [rec_of off k e] else []). split; [done|].
  pose proof (version_range e Hwf) as Hver. pose proof (coreSize_pos (k, e)) as Hpos. unfold in_u in Hver. split; [|lia]. split; try done; [| | | | |lia].
  - intros k'. rewrite Hl'. destruct (decide (k' = k)) as [->|Hne].
    + change (rec_of off k <$> Some ?x) with (Some (rec_of off k x)). pose proof (applyLww_accepts (lookup_store hash s k) e) as Ha.
      destruct (accepts (lookup_store hash s k) e) eqn:Eacc.
      * injection Ha as ->. rewrite record_map_one, decide_True by done. unfold record_step. cbn [rec_of we_op]. unfold newest.
        rewrite <- (Hm k). unfold accepts in Eacc. destruct (lookup_store hash s k) as [old|]; [|done]. simpl. rewrite !rec_stamp. by rewrite Eacc.
      * change (record_map [] m k) with (m k). rewrite <- (Hm k). destruct (lookup_store hash s k) as [old|]; [|done]. injection Ha as Ha. cbn [fmap option_fmap option_map]. by rewrite <- Ha at 2.
    + rewrite (Hm k'). destruct (accepts _ e); [|done]. rewrite record_map_one. by rewrite decide_False.
  - rewrite Hp'. destruct (accepts _ e); [done|]. destruct (persistence (glob s)); simpl; [by rewrite app_nil_r|done].
  - destruct (accepts _ e); [by apply Forall_singleton|constructor].
  - destruct (accepts _ e); simpl; [|lia]. unfold recSize, coreSize. simpl. lia.
  - destruct (accepts _ e); simpl; lia.
Qed.

(** What is asked of an operation: clocks and expiries as above, sizes that the
    formats can hold.  [gc] is how long a tombstone lives, in milliseconds.  The
    capacity and the tombstones' life stay as they are. *)
Definition expiry_fits (t : Z) : Prop := limit < (t + off) / 1000000 < 2 ^ 63.

Definition op_fits (gc : Z) (op : StoreOp) : Prop :=
  match op with
  | OPut c k v ttl =>
      clock_ok off limit c ∧ zlen k <= u32_max ∧ zlen v <= u32_max ∧ match ttl with Some ms => expiry_fits (now c + ms * 1000000) | None => True end
  | OPutVersioned c k e =>
      clock_ok off limit c ∧ Entry.wf e ∧ ttl_ok off limit e ∧ zlen k <= u32_max ∧ zlen (value e) <= u32_max ∧ in_u 64 (writer_node_hash e)
  | ORemoveVersioned c k ver writer =>
      clock_ok off limit c ∧ zlen k <= u32_max ∧ in_u 64 writer ∧ expiry_fits (now c + gc * 1000000)
  | OGet c _ | OGetVersioned c _ | OEvictExpired c => clock_ok off limit c
  | ORemove _ => True
  | OSetCapacity _ | OSetTombstoneGc _ => False
  end.

(** The bytes it may add. *)
Definition op_size (op : StoreOp) : Z :=
  match op with
  | OPut _ k v _ => zlen k + zlen v + node_bytes
  | OPutVersioned _ k e => coreSize (k, e)
  | ORemoveVersioned _ k _ _ | ORemove k => zlen k + node_bytes
  | _ => 0
  end.

Lemma op_size_nonneg op : 0 <= op_size op.
Proof. pose proof node_bytes_pos. destruct op; simpl; unfold zlen; try lia. pose proof (coreSize_pos (k, e)). lia. Qed.

Lemma quiet_logged m n size s s' :
  store_inv hash s' → room n s' → mirrors m s → (∀ k, lookup_store hash s' k = lookup_store hash s k) → same_glob (glob s) (glob s') → 0 <= size →
  logged m s [] n size s'.
Proof.
  intros Hs' Hr Hm Hl [_ Hv Hgc Hp] Hsize. split; try done; [| |simpl; lia..].
  - intros k. rewrite Hl. apply Hm.
  - rewrite Hp. destruct (persistence (glob s)); simpl; [by rewrite app_nil_r|done].
Qed.

Lemma read_logged m n c k s s' :
  clock_ok off limit c → store_inv hash s' → room n s' → mirrors m s → map_good m → same_glob (glob s) (glob s') →
  (∀ k', lookup_store hash s' k' =
    if decide (k' = k) then e ← lookup_store hash s k; if expired (now c) e then None else Some e else lookup_store hash s k') →
  logged m s [] n 0 s'.
Proof.
  intros Hc Hs' Hr Hm Hmg Hg Hl. apply quiet_logged; try done. intros k'. rewrite Hl. destruct (decide (k' = k)) as [->|]; [|done].
  destruct (lookup_store hash s k) as [e|] eqn:E; [|done]. simpl. by destruct (good_unexpired off limit c k e Hc (mirror_entry m s k e Hm Hmg E)) as [_ ->].
Qed.

Lemma removeKey_logged m n k s :
  store_inv hash s → mirrors m s → map_good m → 0 <= limit → room n s →
  ∃ b s' recs, removeKey hash k s = Some (b, s') ∧ logged m s recs n (zlen k + node_bytes) s'.
Proof.
  intros Hs Hm Hmg Hlim Hr. destruct (removeKey_spec hash k s Hs) as (s' & E & Hs' & Hv & Hl & Hp). destruct (removeKey_room hash k n s _ s' Hs E Hr) as [Hr' Hgc].
  exists (bool_decide (is_Some (lookup_store hash s k))), s',
    (from_option (λ e, [mkWalEntry OpDel k [] (version e) (writer_node_hash e) 0 false false]) [] (lookup_store hash s k)).
  split; [exact E|]. pose proof node_bytes_pos. destruct (lookup_store hash s k) as [e|] eqn:Ek; simpl in Hp; simpl.
  - split; try done; [|by eapply Forall_singleton, del_good, mirror_entry|cbn [recsSize foldr]; unfold recSize, zlen; cbn [we_key we_value length]; lia|simpl; lia..].
    intros k'. rewrite Hl, record_map_one. simpl. destruct (decide (k' = k)); [done|]. apply Hm.
  - split; try done; [|simpl; unfold zlen; lia..]. intros k'. rewrite Hl. change (record_map [] m k') with (m k'). rewrite <- (Hm k').
    destruct (decide (k' = k)) as [->|]; [by rewrite Ek|done].
Qed.

Lemma local_fits c v ttl ver :
  match ttl with Some ms => expiry_fits (now c + ms * 1000000) | None => True end →
  ttl_ok off limit (local_entry c v ttl ver) ∧ value (local_entry c v ttl ver) = v ∧ in_u 64 (writer_node_hash (local_entry c v ttl ver)).
Proof.
  intros Ht. split; [|by destruct ttl]. intros E. destruct ttl as [ms|]; [exact Ht|]. simpl in E. rewrite setVersion_hasTtl in E by done. done.
Qed.

Lemma run_op_logged gc op m n s :
  op_fits gc op → op_may op s = true → store_inv hash s → mirrors m s → map_good m → 0 <= limit → tombstone_gc (glob s) = gc → 0 <= next_version (glob s) < 2 ^ 64 - 1 →
  0 <= n → room (op_size op + n) s → ∃ r s' recs, run_op hash op s = Some (r, s') ∧ logged m s recs n (op_size op) s'.
Proof.
  intros Hop Hmay Hs Hm Hmg Hlim Hgc Hv Hn Hroom. pose proof (op_size_nonneg op) as Hpos.
  assert (room n s) as Hroom' by (eapply room_le; [exact Hroom|lia]).
  destruct op as [c k v ttl|c k e|c k ver writer|c k|c k|k|c|cap|ms]; cbn [run_op op_size op_fits] in *; try done.
  - destruct Hop as (Hc & Hk & Hlv & Ht). destruct (mint_store hash s Hs Hv) as (Hs1 & Hn1 & Hl1). rewrite put_unfold.
    destruct (local_fits c v ttl (next_version (glob s)) Ht) as (Hto & Hval & Hw). set (e := local_entry c v ttl (next_version (glob s))) in *.
    destruct (put_mirror c k e (from_option (λ _, now c) 0 ttl) m n (mkStore (mintVersion (glob s)).2 (shards s)) Hc) as (s' & recs & E & [] & Hnx); try done.
    + apply local_entry_wf.
    + by rewrite Hval.
    + unfold coreSize. simpl. by rewrite Hval.
    + eexists _, s', recs. split; [done|]. split; try done; [unfold coreSize in lg_size0; simpl in lg_size0; by rewrite Hval in lg_size0|].
      rewrite Hn1 in Hnx, lg_next0. lia.
  - destruct Hop as (Hc & Hwf & Ht & Hk & Hlv & Hw).
    destruct (put_mirror c k e (if hasTtl e then now c else 0) m n s) as (s' & recs & E & Hlg & _); try done. by eexists _, s', recs.
  - destruct Hop as (Hc & Hk & Hw & Ht). rewrite <- Hgc in Ht.
    assert (coreSize (k, tomb_entry c (tombstone_gc (glob s)) ver writer) = zlen k + node_bytes) as Hsz.
    { unfold coreSize. cbn [fst snd]. change (value (tomb_entry _ _ _ _)) with (@nil byte). unfold zlen. simpl. lia. }
    destruct (put_mirror c k (tomb_entry c (tombstone_gc (glob s)) ver writer) (now c) m n s) as (s' & recs & E & Hlg & _); try done; [apply tomb_entry_wf|intros _; exact Ht|by rewrite Hsz|].
    rewrite Hsz in Hlg. by eexists _, s', recs.
  - destruct (get_spec hash c k s Hs) as (s' & E & Hs' & Hg & Hl). pose proof (get_room hash c k n s _ s' Hs E Hroom') as Hr'. rewrite E.
    eexists _, s', []. split; [done|]. by eapply read_logged.
  - destruct (getVersioned_spec hash c k s Hs) as (s' & E & Hs' & Hg & Hl). pose proof (getVersioned_room hash c k n s _ s' Hs E Hroom') as Hr'. rewrite E.
    eexists _, s', []. split; [done|]. by eapply read_logged.
  - destruct (removeKey_logged m n k s) as (b & s' & recs & -> & Hlg); try done. by eexists _, s', recs.
  - destruct (evictExpired_spec hash c s Hs Hmay) as (ev & s' & -> & Hs' & Hg & Hl & _ & Hlen & Hb). eexists _, s', []. split; [done|].
    apply quiet_logged; try done.
    + intros i sh' Hi. destruct (Hb i sh' Hi) as (sh & Hsh & Hle & _). unfold shardCapacity. rewrite Hlen, (sg_capacity _ _ Hg). fold (shardCapacity s).
      pose proof (Hroom' i sh Hsh). lia.
    + intros k. destruct (Hl k) as [|(_ & e & E & Hx)]; [done|].
      destruct (good_unexpired off limit c k e Hop (mirror_entry m s k e Hm Hmg E)) as [_ Hx']. congruence.
Qed.
End mirror.

(** ** The snapshot of a store *)

Section snapshot.
Context {PN PS : Type} `{FreqLaws PN PS}.
Context (hash : bytes → Z) (off limit : Z).
Implicit Types (s : Store PN PS) (m : RecordMap).

Lemma record_map_keys rs k :
  NoDup (we_key <$> rs) → Forall (λ r, we_op r = OpSet) rs → ∀ r, record_map rs no_records k = Some r ↔ r ∈ rs ∧ we_key r = k.
Proof.
  intros Hnd Hset r. split; [intros Hr; destruct (record_map_elem _ _ _ _ Hr) as [|(? & ? & _)]; done|]. intros [Hin <-].
  apply list_elem_of_split in Hin as (a & b & ->). unfold record_map. rewrite filter_app, filter_cons_True by done.
  rewrite fmap_app, fmap_cons in Hnd. apply NoDup_app in Hnd as (_ & Ha & [Hb _]%NoDup_cons). apply Forall_app in Hset as [_ [Hset _]%Forall_cons].
  assert (filter (λ r0, we_key r0 = we_key r) a = []) as ->.
  { apply filter_all_false. intros x Hx E. apply (Ha (we_key x)); [by apply list_elem_of_fmap_2|]. rewrite E. by left. }
  assert (filter (λ r0, we_key r0 = we_key r) b = []) as ->.
  { apply filter_all_false. intros x Hx E. apply Hb. rewrite <- E. by apply list_elem_of_fmap_2. }
  simpl. unfold record_step. by rewrite Hset.
Qed.

Lemma recsSize_submseteq a b : a ⊆+ b → recsSize a <= recsSize b.
Proof.
  intros (k & Hp)%submseteq_Permutation. assert (recsSize b = recsSize (a ++ k)) as ->.
  { clear -Hp. induction Hp; simpl; lia. }
  rewrite recsSize_app. pose proof (recsSize_nonneg k). lia.
Qed.

(** The frequencies fit the format. *)
Definition freqs_ok c s : bool := forallb (λ x, (0 <=? entry_freq hash x.1 s) && (entry_freq hash x.1 s <? 2 ^ 64)) (liveEntries c s).

Lemma snapshot_mirror c m s :
  clock_ok off limit c → store_inv hash s → mirrors hash off m s → map_good limit m → freqs_ok c s = true →
  let recs := snap_record <$> snapEntries hash c s in
  Forall snap_ok (snapEntries hash c s) ∧ Forall (good limit) recs ∧ NoDup recs ∧ (∀ k, record_map recs no_records k = m k) ∧
  ∀ r, r ∈ recs → m (we_key r) = Some r.
Proof.
  intros Hc Hs Hm Hmg Hfr recs.
  assert (∀ k e, (k, e) ∈ liveEntries c s → lookup_store hash s k = Some e ∧ good limit (rec_of off k e) ∧
    snap_record (toSnapshotEntry hash c s k e) = rec_of off k e) as Hlive.
  { intros k e [Hin _]%(liveEntries_elem hash). 2: done. pose proof (mirror_entry hash off limit m s k e Hm Hmg Hin) as Hg. split; [done|]. split; [done|].
    apply (snap_rec off limit); [done|]. by apply (good_unexpired off limit c k e Hc Hg). }
  assert (recs = (λ x, rec_of off x.1 x.2) <$> liveEntries c s) as Erecs.
  { unfold recs, snapEntries. rewrite <- list_fmap_compose. apply list_fmap_ext. intros i [k e] Hi%list_elem_of_lookup_2. by apply Hlive. }
  assert (NoDup (we_key <$> recs)) as Hnd.
  { rewrite Erecs, <- list_fmap_compose. exact (liveEntries_keys hash c s Hs). }
  assert (∀ r, r ∈ recs → m (we_key r) = Some r) as Hin.
  { intros r. rewrite Erecs. intros ([k e] & -> & Hin)%list_elem_of_fmap. simpl. destruct (Hlive k e Hin) as [Hl _]. by rewrite <- (Hm k), Hl. }
  assert (Forall (good limit) recs) as Hgood.
  { apply Forall_forall. intros r Hr. by destruct (Hmg _ r (Hin r Hr)) as [? _]. }
  assert (∀ k r, record_map recs no_records k = Some r ↔ r ∈ recs ∧ we_key r = k) as Hkeys.
  { intros k. apply record_map_keys; [done|]. apply Forall_forall. intros r Hr. by destruct (Hmg _ r (Hin r Hr)) as (_ & _ & ?). }
  split; [|split; [done|split; [by eapply NoDup_fmap_1|split; [|done]]]].
  - unfold snapEntries. apply Forall_forall. intros x ([k e] & -> & Hx)%list_elem_of_fmap. destruct (Hlive k e Hx) as (_ & [[G1 G2 G3 G4 G5] _ _] & E).
    split; [done..| |].
    + rewrite <- E in G5. exact G5.
    + unfold freqs_ok in Hfr. rewrite forallb_forall in Hfr. specialize (Hfr (k, e)). rewrite <- list_elem_of_In in Hfr. specialize (Hfr Hx).
      unfold in_u. simpl in *. lia.
  - intros k. apply option_eq. intros r. rewrite Hkeys. split.
    + intros [Hr <-]. by apply Hin.
    + intros Hr. destruct (Hmg k r Hr) as (Hg & Hk & _). split; [|done]. pose proof (Hm k) as Hmk. rewrite Hr in Hmk.
      destruct (lookup_store hash s k) as [e|] eqn:El; [|done]. simpl in Hmk. injection Hmk as <-. rewrite Erecs.
      apply list_elem_of_fmap. exists (k, e). split; [done|]. apply (liveEntries_elem hash); [done|]. split; [done|].
      by apply (good_unexpired off limit c k e Hc Hg).
Qed.
End snapshot.

(** ** The system *)

Section system.
Context {PN PS : Type} `{FreqLaws PN PS}.
Context (hash xxh3 : bytes → Z) (o : Options) (cap : Z).

Record Sys := mkSys { y_store : Store PN PS; y_pm : PM; y_dir : Dir }.

(** What the manager does with files while it runs. *)
Inductive Task :=
  | TFlush (wio : list WriteOutcome) (sync size b1 b2 : bool)
  | TCompact (wio wio2 : list WriteOutcome) (prune : bytes → bool) (b : bool) (c : Clock) (stamp : Z).

Definition run_task {D} `{FileSystem D} (t : Task) (s : Store PN PS) (pm : PM) (d : D) : option (PM * D) :=
  match t with
  | TFlush wio sync size b1 b2 => flush xxh3 o (flush_io wio sync size b1 b2) pm d
  | TCompact wio wio2 prune b c stamp => '(_, pm, d) ← compact hash xxh3 o (compact_io wio wio2 prune b) c stamp s pm d; Some (pm, d)
  end.

(** The directories that a crash during a task can leave: behind each byte of
    each write and between any two operations on files. *)
Definition crash_dirs (t : Task) (y : Sys) : list Dir :=
  match run_task (D := Traced) t (y_store y) (y_pm y) (y_dir y, [y_dir y]) with Some (_, tr) => tr.2 | None => [y_dir y] end.

(** A crash comes in the middle of a task, with the directory at some place of
    [crash_dirs], and is followed by recovery into a new store. *)
Inductive Step :=
  | SOp (op : StoreOp)
  | STask (t : Task)
  | SCrash (t : Task) (i : nat) (c : Clock).

Definition boot (c : Clock) (d : Dir) : option Sys :=
  '(_, s, pm, d) ← recover hash xxh3 o rec_good c (attached c cap) newPM d;
  Some (mkSys s pm d).

Definition run_step (x : Step) (y : Sys) : option Sys :=
  match x with
  | SOp op =>
      '(_, s) ← run_op hash op (y_store y);
      let '(s, pm) := Persistence.deliver s (y_pm y) in
      Some (mkSys s pm (y_dir y))
  | STask t =>
      '(pm, d) ← run_task t (y_store y) (y_pm y) (y_dir y);
      Some (mkSys (y_store y) pm d)
  | SCrash t i c => boot c (default (y_dir y) (crash_dirs t y !! i))
  end.

Fixpoint run_steps (xs : list Step) (y : Sys) : option Sys :=
  match xs with [] => Some y | x :: xs => y ← run_step x y; run_steps xs y end.

(** The writes of flushes and compactions succeed as long as the system runs,
    and no wheel runs out of ticks. *)
Definition task_granted (t : Task) (y : Sys) : bool :=
  let all_written wio := (writeAll wio (concat (record xxh3 <$> pending_wal (y_pm y))) []).1 in
  match t with
  | TFlush wio _ _ _ _ => all_written wio
  | TCompact wio _ _ _ c _ => all_written wio && freqs_ok hash c (y_store y)
  end.

Definition step_granted (x : Step) (y : Sys) : bool :=
  match x with SOp op => op_may op (y_store y) | STask t | SCrash t _ _ => task_granted t y end.

Fixpoint granted (xs : list Step) (y : Sys) : bool :=
  match xs with [] => true | x :: xs => step_granted x y && match run_step x y with Some y => granted xs y | None => true end end.

Context (off limit : Z).

Definition task_fits (t : Task) : Prop :=
  match t with TFlush _ _ _ _ _ => True | TCompact _ _ _ _ c stamp => clock_ok off limit c ∧ in_u 64 stamp end.

Definition is_flush (t : Task) : Prop := match t with TFlush _ _ _ _ _ => True | _ => False end.

(** Within a run, crashes come during flushes. *)
Definition step_fits (x : Step) : Prop :=
  match x with
  | SOp op => op_fits off limit 300000 op
  | STask t => task_fits t
  | SCrash t _ c => is_flush t ∧ clock_ok off limit c
  end.

Definition step_size (x : Step) : Z := match x with SOp op => op_size op | _ => 0 end.

Definition steps_size (xs : list Step) : Z := foldr (λ x a, step_size x + a) 0 xs.

(** The capacity of a shard. *)
Definition share : Z := cap / shardCountFor cap.

(** What the entry of [k] is in the records. *)
Definition image (y : Sys) (k : bytes) : option WalEntry := rec_of off k <$> lookup_store hash (y_store y) k.

Record sys_inv (n w : Z) (y : Sys) snap qs sealed active : Prop := mkSysInv {
  sy_disk : on_disk xxh3 (y_pm y) (y_dir y) snap qs sealed active;
  sy_good : Forall (good limit) (all_records snap sealed active ++ pending_wal (y_pm y));
  sy_count : Z.of_nat (length (all_records snap sealed active ++ pending_wal (y_pm y))) <= n;
  sy_size : recsSize (all_records snap sealed active ++ pending_wal (y_pm y)) <= w;
  sy_mirror : mirrors hash off (record_map (all_records snap sealed active ++ pending_wal (y_pm y)) no_records) (y_store y);
  sy_store : store_inv hash (y_store y);
  sy_log : persistence (glob (y_store y)) = Some [];
  sy_gc : tombstone_gc (glob (y_store y)) = 300000;
  sy_room : room (share - w) (y_store y);
  sy_next : 0 <= next_version (glob (y_store y)) <= 2 ^ 63 + n;
  sy_seq : 1 <= wal_next_seq (y_pm y) <= 1 + n }.

Hypothesis xxh3_range : ∀ b, in_u 64 (xxh3 b).
Hypothesis o_enabled : enabled o = true.

Lemma attached_facts c :
  (∀ k, lookup_store hash (attached (PN := PN) (PS := PS) c cap) k = None) ∧ room share (attached (PN := PN) (PS := PS) c cap).
Proof.
  split.
  - intros k. unfold lookup_store, attached. cbn [shards newStore]. destruct (replicate _ _ !! _) as [sh|] eqn:E; [|done]. simpl.
    by apply lookup_replicate in E as [-> _].
  - intros i sh Hi. cbn [attached shards newStore] in Hi. apply lookup_replicate in Hi as [-> _]. unfold shardCapacity. cbn [attached shards glob newStore].
    rewrite length_replicate. cbn. unfold share. rewrite Z2Nat.id by (unfold shardCountFor, K_MAX_SHARDS; lia). lia.
Qed.

Lemma all_readable c rs : clock_ok off limit c → Forall (good limit) rs → Forall (readable c) rs.
Proof. intros Hc Hg. eapply Forall_impl; [exact Hg|]. intros r. by apply (good_readable off). Qed.

(** Starting on a directory. *)
Lemma boot_spec c d snap qs sealed active n w :
  clock_ok off limit c → snap_reads d snap → seg_part xxh3 d qs sealed → act_part xxh3 d active → Forall (λ q, q < 1 + n) qs → 0 <= n < 2 ^ 63 →
  Forall (good limit) (all_records snap sealed active) → Z.of_nat (length (all_records snap sealed active)) <= n →
  recsSize (all_records snap sealed active) <= w <= share →
  ∃ y, boot c d = Some y ∧ pending_wal (y_pm y) = [] ∧ mirrors hash off (record_map (all_records snap sealed active) no_records) (y_store y) ∧
    (snap_part d snap → sys_inv n w y snap qs sealed active).
Proof.
  intros Hc Hsnap Hseg Hact Hq Hn Hg Hlen Hsize. unfold boot. destruct (attached_facts c) as [Hempty Hroom].
  destruct (recover_spec xxh3 xxh3_range hash o c (attached c cap) newPM d snap qs sealed active
      (share - recsSize (all_records snap sealed active)) (1 + n)) as (s & pm & d' & -> & [Hs Hr Hsh] & Hp & [Hgc Hnx _] & Hpend & Hready & Hseq & Hsame & Hseg' & Hact');
    try done; [by apply all_readable|lia|lia|apply attached_inv|by apply (room_le share); [done|lia]|].
  assert (mirrors hash off (record_map (all_records snap sealed active) no_records) s) as Hm.
  { apply (shows_mirrors hash off limit c); try done. apply record_map_good; [done|]. by intros k r. }
  cbn [mbind option_bind]. eexists. split; [done|]. split; [done|]. split; [done|]. intros Hpart. simpl in Hpend. destruct (ck_now _ _ _ Hc).
  assert (next_version (glob (muted (attached (PN := PN) (PS := PS) c cap))) = now c) as Hnow by (simpl; apply wrap_small; unfold in_u; lia).
  rewrite Hnow in Hnx. simpl in Hgc, Hnx. split; cbn [y_pm y_dir y_store]; rewrite ?Hpend, ?app_nil_r; try done; try lia.
  - split; try done; [apply Hact|]. by apply (snap_frame d).
  - apply (room_le (share - recsSize (all_records snap sealed active))); [done|lia].
Qed.

Lemma boot_inv c d snap qs sealed active n w :
  clock_ok off limit c → snap_part d snap → seg_part xxh3 d qs sealed → act_part xxh3 d active → Forall (λ q, q < 1 + n) qs → 0 <= n < 2 ^ 63 →
  Forall (good limit) (all_records snap sealed active) → Z.of_nat (length (all_records snap sealed active)) <= n →
  recsSize (all_records snap sealed active) <= w <= share →
  ∃ y, boot c d = Some y ∧ pending_wal (y_pm y) = [] ∧ sys_inv n w y snap qs sealed active.
Proof.
  intros Hc Hsnap Hseg Hact Hq Hn Hg Hlen Hsize.
  destruct (boot_spec c d snap qs sealed active n w) as (y & E & Hp & _ & Hy); try done; [by apply snap_part_read|]. exists y. auto.
Qed.

(** The manager takes what the store logged. *)
Lemma deliver_spec (s : Store PN PS) pm l :
  loading pm = false → persistence (glob s) = Some l →
  Persistence.deliver s pm = (mkStore (setPersistence (glob s)) (shards s), with_pending (pending_wal pm ++ l) pm).
Proof.
  intros Hl Hp. unfold Persistence.deliver. rewrite Hp. f_equal. clear Hp. revert pm Hl. induction l as [|e l IH]; intros pm Hl; cbn [foldl].
  - rewrite app_nil_r. by destruct pm.
  - unfold enqueue at 2. rewrite Hl, IH by done. simpl. by rewrite <- app_assoc.
Qed.

Lemma sys_good n w y snap qs sealed active :
  sys_inv n w y snap qs sealed active → map_good limit (record_map (all_records snap sealed active ++ pending_wal (y_pm y)) no_records).
Proof. intros Hy. apply record_map_good; [apply Hy|]. by intros k r. Qed.

Lemma op_step op n w y snap qs sealed active :
  sys_inv n w y snap qs sealed active → op_fits off limit 300000 op → op_may op (y_store y) = true → 0 <= limit → 0 <= n < 2 ^ 32 - 1 → w + op_size op <= share →
  ∃ y', run_step (SOp op) y = Some y' ∧ sys_inv (n + 1) (w + op_size op) y' snap qs sealed active.
Proof.
  intros Hy Hop Hmay Hlim Hn Hw. pose proof (sys_good _ _ _ _ _ _ _ Hy) as Hmg. destruct Hy as [Hd Hg Hc Hsz Hm Hs Hl Hgc Hr Hnx Hsq].
  set (all := all_records snap sealed active) in *. destruct (run_op_logged hash off limit 300000 op _ (share - (w + op_size op)) (y_store y) Hop Hmay Hs Hm Hmg Hlim Hgc)
    as (r & s' & recs & E & [Hs' Hr' Hm' Hl' Hg' Hsz' Hlen' Hgc' Hnx']); [lia|lia|by apply (room_le (share - w)); [done|lia]|].
  unfold run_step. rewrite E. cbn [mbind option_bind]. rewrite Hl in Hl'. simpl in Hl'.
  rewrite (deliver_spec s' (y_pm y) recs) by (try done; apply (pr_loading _ _ _ _ _ (od_ready _ _ _ _ _ _ _ Hd))).
  eexists. split; [done|]. destruct (reglob_inv hash s' (setPersistence (glob s')) Hs' eq_refl eq_refl) as (Hs2 & Hl2 & Hr2).
  assert (all ++ pending_wal (y_pm y) ++ recs = (all ++ pending_wal (y_pm y)) ++ recs) as Ea by apply app_assoc.
  split; cbn [y_pm y_dir y_store with_pending pending_wal]; fold all; rewrite ?Ea; try done.
  - destruct Hd as [[] ? ? ?]. split; [by split|done..].
  - by apply Forall_app.
  - rewrite length_app. lia.
  - rewrite recsSize_app. lia.
  - apply (mirrors_ext hash off (record_map recs (record_map (all ++ pending_wal (y_pm y)) no_records))); [|intros k; by rewrite record_map_app].
    intros k. rewrite Hl2. apply Hm'.
  - simpl. congruence.
  - simpl. lia.
  - simpl. lia.
Qed.

Lemma sys_pending n w y snap qs sealed active : sys_inv n w y snap qs sealed active → Forall entry_ok (pending_wal (y_pm y)).
Proof. intros []. apply Forall_app in sy_good0 as [_ Hg]. eapply Forall_impl; [exact Hg|]. by intros r []. Qed.

Lemma flush_step wio sync size b1 b2 n w y snap qs sealed active :
  sys_inv n w y snap qs sealed active → task_granted (TFlush wio sync size b1 b2) y = true → 0 <= n < 2 ^ 32 - 1 →
  ∃ y' qs' sealed' active', run_step (STask (TFlush wio sync size b1 b2)) y = Some y' ∧ pending_wal (y_pm y') = [] ∧ y_store y' = y_store y ∧
    sys_inv (n + 1) w y' snap qs' sealed' active'.
Proof.
  intros Hy Hwr Hn. pose proof (sys_pending _ _ _ _ _ _ _ Hy) as Hok. destruct Hy as [Hd Hg Hc Hsz Hm Hs Hl Hgc Hr Hnx Hsq].
  destruct (flush_spec (H := dir_fs) xxh3 xxh3_range o wio sync size b1 b2 (y_pm y) (y_dir y) snap qs sealed active Hd Hok Hwr)
    as (pm' & d' & qs' & sealed' & active' & E & Hp' & Hd' & Hcat & Hsq' & _); [lia|]. cbn [view dir_fs] in Hd'.
  unfold run_step, run_task. rewrite E. cbn [mbind option_bind]. eexists _, qs', sealed', active'. split; [done|]. split; [done|]. split; [done|].
  assert (all_records snap sealed' active' ++ pending_wal pm' = all_records snap sealed active ++ pending_wal (y_pm y)) as Ea.
  { unfold all_records. rewrite Hp', app_nil_r, Hcat. by rewrite <- !app_assoc. }
  split; cbn [y_pm y_dir y_store]; rewrite ?Ea; try done; lia.
Qed.

(** The snapshot that a compaction takes. *)
Lemma compact_snapshot c n w y snap qs sealed active :
  sys_inv n w y snap qs sealed active → clock_ok off limit c → freqs_ok hash c (y_store y) = true → 0 <= n < 2 ^ 32 - 1 →
  let new := snapEntries hash c (y_store y) in let all := all_records snap sealed active ++ pending_wal (y_pm y) in
  Forall snap_ok new ∧ in_u 32 (Z.of_nat (length new)) ∧ Forall (good limit) (snap_record <$> new) ∧
  (∀ k, record_map (snap_record <$> new) no_records k = record_map all no_records k) ∧
  (length new <= length all)%nat ∧ recsSize (snap_record <$> new) <= recsSize all.
Proof.
  intros Hy Hck Hfr Hn new all. pose proof (sys_good _ _ _ _ _ _ _ Hy) as Hmg. destruct Hy as [Hd Hg Hc Hsz Hm Hs Hl Hgc Hr Hnx Hsq].
  destruct (snapshot_mirror hash off limit c _ (y_store y) Hck Hs Hm Hmg Hfr) as (Hsok & Hsg & Hnd & Hmap & Hin).
  assert ((snap_record <$> new) ⊆+ all) as Hsub.
  { apply NoDup_submseteq; [done|]. intros r Hr'. destruct (record_map_elem _ _ _ _ (Hin r Hr')) as [|[? _]]; done. }
  pose proof (submseteq_length _ _ Hsub) as Hlen. pose proof (recsSize_submseteq _ _ Hsub) as Hsize. rewrite length_fmap in Hlen.
  fold all in Hc. split_and!; try done; unfold in_u; lia.
Qed.

Lemma compact_step wio wio2 prune b c stamp n w y snap qs sealed active :
  sys_inv n w y snap qs sealed active → task_granted (TCompact wio wio2 prune b c stamp) y = true → clock_ok off limit c → in_u 64 stamp →
  0 <= n < 2 ^ 32 - 1 →
  ∃ y' snap', run_step (STask (TCompact wio wio2 prune b c stamp)) y = Some y' ∧ pending_wal (y_pm y') = [] ∧ y_store y' = y_store y ∧
    sys_inv (n + 1) w y' snap' [] [] [].
Proof.
  intros Hy [Hwr Hfr]%andb_true_iff Hck Hst Hn. pose proof (sys_pending _ _ _ _ _ _ _ Hy) as Hok.
  destruct (compact_snapshot c n w y snap qs sealed active Hy Hck Hfr Hn) as (Hsok & H32 & Hsg & Hmap & Hlen & Hsize).
  destruct Hy as [Hd Hg Hc Hsz Hm Hs Hl Hgc Hr Hnx Hsq].
  destruct (compact_spec (H1 := dir_fs) xxh3 xxh3_range hash o wio wio2 prune b c stamp (y_store y) (y_pm y) (y_dir y) snap qs sealed active)
    as (pm' & d' & E & Hp' & Hsq' & Hd' & _); try done. cbn [view dir_fs] in Hd'.
  unfold run_step, run_task. rewrite E. cbn [mbind option_bind]. eexists _, _. split; [done|]. split; [done|]. split; [done|].
  assert (all_records (snapEntries hash c (y_store y)) [] [] ++ pending_wal pm' = snap_record <$> snapEntries hash c (y_store y)) as Ea.
  { unfold all_records. rewrite Hp'. simpl. by rewrite !app_nil_r. }
  split; cbn [y_pm y_dir y_store]; [done|..]; rewrite ?Ea, ?length_fmap; try done; try lia. by apply (mirrors_ext hash off _ _ _ Hm).
Qed.

Lemma prefix_records snap sealed active kept pending sealed' active' :
  kept `prefix_of` pending → concat sealed' ++ active' = concat sealed ++ active ++ kept →
  all_records snap sealed' active' `prefix_of` all_records snap sealed active ++ pending.
Proof. intros [rest ->] E. exists rest. unfold all_records. rewrite E. by rewrite <- !app_assoc. Qed.

(** A directory with the records and a prefix of the queue. *)
Definition kept_at (y : Sys) (snap : list SnapshotEntry) (logs : list WalEntry) (d : Dir) : Prop :=
  ∃ kept qs' sealed' active', kept `prefix_of` pending_wal (y_pm y) ∧ snap_part d snap ∧ seg_part xxh3 d qs' sealed' ∧ act_part xxh3 d active' ∧
    concat sealed' ++ active' = logs ++ kept ∧ Forall (λ q, q <= wal_next_seq (y_pm y)) qs'.

Lemma kept_start n w y snap qs sealed active : sys_inv n w y snap qs sealed active → kept_at y snap (concat sealed ++ active) (y_dir y).
Proof.
  intros Hy. pose proof (sy_disk _ _ _ _ _ _ _ Hy) as Hd. exists [], qs, sealed, active. pose proof (od_act _ _ _ _ _ _ _ Hd) as Ha.
  destruct Hd as [Hrd _ Hsn Hsg]. split_and!; try done; [apply prefix_nil|by rewrite app_nil_r|].
  eapply Forall_impl; [apply (pr_seq _ _ _ _ _ Hrd)|]. simpl. lia.
Qed.

(** Wherever a crash during a flush comes. *)
Lemma flush_crash_dirs wio sync size b1 b2 n w y snap qs sealed active :
  sys_inv n w y snap qs sealed active → task_granted (TFlush wio sync size b1 b2) y = true → 0 <= n < 2 ^ 32 - 1 →
  Forall (kept_at y snap (concat sealed ++ active)) (crash_dirs (TFlush wio sync size b1 b2) y).
Proof.
  intros Hy Hwr Hn. pose proof (sys_pending _ _ _ _ _ _ _ Hy) as Hok. pose proof (kept_start _ _ _ _ _ _ _ Hy) as Hstart.
  destruct Hy as [Hd Hg Hc Hsz Hm Hs Hl Hgc Hr Hnx Hsq].
  destruct (flush_spec (H := traced_fs) xxh3 xxh3_range o wio sync size b1 b2 (y_pm y) (y_dir y, [y_dir y]) snap qs sealed active Hd Hok Hwr)
    as (pm' & tr & qs' & sealed' & active' & E & _ & _ & _ & _ & Hreach); [lia|].
  unfold crash_dirs, run_task. rewrite E. apply (reach_traced _ (y_dir y, [y_dir y]) tr); [|by apply Forall_singleton]. apply Hreach.
  intros x kept qs1 sealed1 active1 Hk Hs1 Hg1 Ha1 Hcat Hq. exists kept, qs1, sealed1, active1. rewrite <- app_assoc. by split_and!.
Qed.

Lemma kept_boots c n w y snap qs sealed active d :
  sys_inv n w y snap qs sealed active → kept_at y snap (concat sealed ++ active) d → clock_ok off limit c → 0 <= n < 2 ^ 32 - 1 → w <= share →
  ∃ y' kept qs' sealed' active', boot c d = Some y' ∧ kept `prefix_of` pending_wal (y_pm y) ∧ pending_wal (y_pm y') = [] ∧
    concat sealed' ++ active' = concat sealed ++ active ++ kept ∧ sys_inv (n + 1) w y' snap qs' sealed' active'.
Proof.
  intros Hy (kept & qs' & sealed' & active' & Hpre & Hsn & Hsg & Ha & Hcat & Hq) Hck Hn Hw. destruct Hy as [Hd Hg Hc Hsz Hm Hs Hl Hgc Hr Hnx Hsq].
  rewrite <- app_assoc in Hcat. pose proof (prefix_records snap sealed active kept _ sealed' active' Hpre Hcat) as [rest Hrest].
  rewrite Hrest in Hg, Hc, Hsz. rewrite length_app in Hc. rewrite recsSize_app in Hsz. apply Forall_app in Hg as [Hg _].
  pose proof (recsSize_nonneg rest).
  destruct (boot_inv c d snap qs' sealed' active' (n + 1) w) as (y' & Ey & Hp' & Hy'); try done; try lia.
  { eapply Forall_impl; [exact Hq|]. simpl. lia. }
  by exists y', kept, qs', sealed', active'.
Qed.

Lemma steps_size_nonneg xs : 0 <= steps_size xs.
Proof.
  induction xs as [|x xs IH]; [done|]. cbn [steps_size foldr]. fold (steps_size xs).
  assert (0 <= step_size x) by (destruct x; cbn [step_size]; try lia; apply op_size_nonneg). lia.
Qed.

Lemma steps_inv xs n w y snap qs sealed active :
  sys_inv n w y snap qs sealed active → Forall step_fits xs → granted xs y = true → 0 <= limit → 0 <= n → n + Z.of_nat (length xs) < 2 ^ 32 →
  w + steps_size xs <= share →
  ∃ y' snap' qs' sealed' active', run_steps xs y = Some y' ∧ sys_inv (n + Z.of_nat (length xs)) (w + steps_size xs) y' snap' qs' sealed' active'.
Proof.
  intros Hy Hf. revert n w y snap qs sealed active Hy. induction Hf as [|x xs Hx Hf IH]; intros n w y snap qs sealed active Hy Hg Hlim Hn Hlen Hw.
  { exists y, snap, qs, sealed, active. split; [done|]. simpl. by rewrite !Z.add_0_r. }
  cbn [length granted run_steps steps_size foldr] in *. apply andb_true_iff in Hg as [Hgx Hg]. fold (steps_size xs) in *.
  pose proof (steps_size_nonneg xs) as Hnn.
  assert (∃ y' snap' qs' sealed' active', run_step x y = Some y' ∧ sys_inv (n + 1) (w + step_size x) y' snap' qs' sealed' active')
    as (y' & snap' & qs' & sealed' & active' & E & Hy').
  { destruct x as [op|[wio sync size b1 b2|wio wio2 prune b c stamp]|[wio sync size b1 b2|] i c]; cbn [step_fits task_fits step_size step_granted] in *;
      rewrite ?Z.add_0_r; [| | | |by destruct Hx].
    - destruct (op_step op n w y snap qs sealed active Hy Hx Hgx) as (y' & E & Hy'); [lia..|]. by exists y', snap, qs, sealed, active.
    - destruct (flush_step wio sync size b1 b2 n w y snap qs sealed active Hy Hgx) as (y' & qs' & sealed' & active' & E & _ & _ & Hy'); [lia|].
      by exists y', snap, qs', sealed', active'.
    - destruct Hx as [Hc Hst]. destruct (compact_step wio wio2 prune b c stamp n w y snap qs sealed active Hy Hgx Hc Hst) as (y' & snap' & E & _ & _ & Hy'); [lia|].
      by exists y', snap', [], [], [].
    - destruct Hx as [_ Hc]. assert (0 <= n < 2 ^ 32 - 1) as Hn' by lia. cbn [run_step].
      pose proof (flush_crash_dirs wio sync size b1 b2 n w y snap qs sealed active Hy Hgx Hn') as Hall. set (d := default _ _).
      assert (kept_at y snap (concat sealed ++ active) d) as Hd.
      { unfold d. destruct (crash_dirs _ y !! i) as [d1|] eqn:Ei; [by apply (Forall_lookup_1 _ _ _ _ Hall Ei)|by apply (kept_start _ _ _ _ _ _ _ Hy)]. }
      destruct (kept_boots c n w y snap qs sealed active d Hy Hd Hc Hn') as (y' & kept & qs' & sealed' & active' & E & _ & _ & _ & Hy'); [lia|].
      by exists y', snap, qs', sealed', active'. }
  rewrite E in Hg |- *. cbn [mbind option_bind].
  destruct (IH (n + 1) (w + step_size x) y' snap' qs' sealed' active' Hy' Hg) as (y2 & snap2 & qs2 & sealed2 & active2 & E2 & Hy2); [lia..|].
  exists y2, snap2, qs2, sealed2, active2. split; [done|]. rewrite Nat2Z.inj_succ. unfold Z.succ. by rewrite (Z.add_comm (Z.of_nat _) 1), !Z.add_assoc.
Qed.

(** An empty directory. *)
Lemma empty_parts : snap_part ∅ [] ∧ seg_part xxh3 ∅ [] [] ∧ act_part xxh3 ∅ [].
Proof.
  split; [|split].
  - split; [done|]. split; [constructor|]. exists None. split; [|done]. split; [done|]. intros n [b Hb]. by rewrite lookup_empty in Hb.
  - split; [|by split; constructor]. split; [constructor|constructor|intros q []%not_elem_of_nil|]. intros n q [b Hb]. by rewrite lookup_empty in Hb.
  - split; [constructor|]. by rewrite lookup_empty.
Qed.

Lemma boot_empty c : clock_ok off limit c → 0 <= share → ∃ y, boot c ∅ = Some y ∧ sys_inv 0 0 y [] [] [] [].
Proof.
  intros Hc Hsh. destruct empty_parts as (Hsnap & Hseg & Hact).
  destruct (boot_inv c ∅ [] [] [] [] 0 0) as (y & E & _ & Hy); by eauto.
Qed.

Lemma run_steps_app xs x y0 : run_steps (xs ++ [x]) y0 = y ← run_steps xs y0; run_step x y.
Proof.
  revert y0. induction xs as [|x0 xs IH]; intros y0; cbn [run_steps app mbind option_bind].
  - by destruct (run_step x y0).
  - destruct (run_step x0 y0) as [y1|]; [apply IH|done].
Qed.

Lemma granted_app xs x y0 :
  granted (xs ++ [x]) y0 = true → granted xs y0 = true ∧ ∀ y, run_steps xs y0 = Some y → step_granted x y = true.
Proof.
  revert y0. induction xs as [|x0 xs IH]; intros y0; cbn [granted run_steps app].
  - intros [Hg _]%andb_true_iff. split; [done|]. by intros y [= <-].
  - intros [Hg Hrest]%andb_true_iff. rewrite Hg. simpl. destruct (run_step x0 y0) as [y1|]; [by apply IH|done].
Qed.

Lemma run_reaches c0 xs :
  clock_ok off limit c0 → Forall step_fits xs → steps_size xs <= share → Z.of_nat (length xs) < 2 ^ 32 - 1 →
  ∃ y0, boot c0 ∅ = Some y0 ∧ (granted xs y0 = true → ∃ y snap qs sealed active, run_steps xs y0 = Some y ∧
    sys_inv (Z.of_nat (length xs)) (steps_size xs) y snap qs sealed active).
Proof.
  intros Hc Hf Hsz Hlen. pose proof (limit_nonneg _ _ _ Hc) as Hlim. pose proof (steps_size_nonneg xs) as Hnn.
  destruct (boot_empty c0 Hc) as (y0 & E0 & Hy0); [lia|]. exists y0. split; [done|]. intros Hg.
  destruct (steps_inv xs 0 0 y0 [] [] [] [] Hy0 Hf Hg Hlim) as (y & snap & qs & sealed & active & E & Hy); [lia..|].
  exists y, snap, qs, sealed, active. by rewrite !Z.add_0_l in Hy.
Qed.

(** *** What is on disk *)

(** The trace of a task ends where the task ends. *)
Lemma crash_dirs_last t y y1 : run_step (STask t) y = Some y1 → last (crash_dirs t y) = Some (y_dir y1).
Proof.
  unfold run_step, crash_dirs. intros E.
  assert (same_run traces (run_task t (y_store y) (y_pm y) (y_dir y)) (run_task (D := Traced) t (y_store y) (y_pm y) (y_dir y, [y_dir y]))) as Hsame.
  { assert (∀ d t, traces d t → view d = view t) as Hv by (by intros d1 [d2 l] [-> _]).
    assert (traces (y_dir y) (y_dir y, [y_dir y])) as H0' by done.
    destruct t; cbn [run_task].
    - by apply (flush_same traces Hv traces_exec).
    - apply same_bind; [by apply (compact_same traces Hv traces_exec)|]. intros [? ?] ? ? ?. by apply same_some. }
  destruct Hsame as [[pm d] [pm' tr] [_ [_ Hl]]|]; [|done]. simpl in *. by injection E as <-.
Qed.

(** What recovery finds. *)
Lemma disk_image c n w y snap qs sealed active :
  sys_inv n w y snap qs sealed active → clock_ok off limit c → 0 <= n < 2 ^ 32 → w <= share →
  ∃ yd, boot c (y_dir y) = Some yd ∧ (∀ k, image yd k = record_map (all_records snap sealed active) no_records k) ∧
    ∀ k, image y k = record_map (pending_wal (y_pm y)) (image yd) k.
Proof.
  intros Hy Hck Hn Hw. destruct Hy as [Hd Hg Hc Hsz Hm Hs Hl Hgc Hr Hnx Hsq].
  pose proof (od_act _ _ _ _ _ _ _ Hd) as Ha. destruct Hd as [Hrd _ Hsn Hsg].
  apply Forall_app in Hg as [Hg _]. rewrite length_app in Hc. rewrite recsSize_app in Hsz. pose proof (recsSize_nonneg (pending_wal (y_pm y))).
  destruct (boot_inv c (y_dir y) snap qs sealed active n w) as (yd & E & Hp & Hyd); try done; try lia.
  { eapply Forall_impl; [apply (pr_seq _ _ _ _ _ Hrd)|]. simpl. lia. }
  assert (∀ k, image yd k = record_map (all_records snap sealed active) no_records k) as Hi.
  { intros k. pose proof (sy_mirror _ _ _ _ _ _ _ Hyd k) as Hk. by rewrite Hp, app_nil_r in Hk. }
  exists yd. split; [done|]. split; [done|]. intros k. rewrite (record_map_ext _ _ _ _ (Hi k)), <- record_map_app. apply Hm.
Qed.

Lemma kept_image c n w y snap qs sealed active d :
  sys_inv n w y snap qs sealed active → kept_at y snap (concat sealed ++ active) d → clock_ok off limit c → 0 <= n < 2 ^ 32 - 1 → w <= share →
  ∃ y' kept, boot c d = Some y' ∧ store_inv hash (y_store y') ∧ kept `prefix_of` pending_wal (y_pm y) ∧
    ∀ k, image y' k = record_map kept (record_map (all_records snap sealed active) no_records) k.
Proof.
  intros Hy Hd Hc Hn Hw. destruct (kept_boots c n w y snap qs sealed active d Hy Hd Hc Hn Hw) as (y' & kept & qs' & sealed' & active' & E & Hpre & Hp & Hcat & Hy').
  exists y', kept. split_and!; try done; [apply Hy'|]. intros k. pose proof (sy_mirror _ _ _ _ _ _ _ Hy' k) as Hk.
  rewrite Hp, app_nil_r in Hk. unfold image. rewrite Hk. unfold all_records. rewrite Hcat, <- record_map_app. by rewrite <- !app_assoc.
Qed.

(** *** Crashes in a compaction *)

(** What a directory holds of the records [logs] under a snapshot of them. *)
Definition covered (snap snap' : list SnapshotEntry) (logs : list WalEntry) (sealed' : list (list WalEntry)) (active' : list WalEntry) : Prop :=
  snap' = snap ∧ concat sealed' ++ active' = logs ∨
  (∀ k, record_map (snap_record <$> snap') no_records k = record_map ((snap_record <$> snap) ++ logs) no_records k) ∧
  concat sealed' ++ active' `suffix_of` logs.

Lemma covered_map snap snap' logs sealed' active' k :
  covered snap snap' logs sealed' active' →
  record_map (all_records snap' sealed' active') no_records k = record_map ((snap_record <$> snap) ++ logs) no_records k.
Proof.
  unfold all_records. intros [[-> ->]|[Hmap [rest ->]]]; [done|]. rewrite record_map_app, (record_map_ext _ _ _ _ (Hmap k)), app_assoc.
  apply record_map_absorb.
Qed.

Lemma suffix_size (a b : list WalEntry) : a `suffix_of` b → recsSize a <= recsSize b ∧ (length a <= length b)%nat.
Proof. intros [rest ->]. rewrite recsSize_app, length_app. pose proof (recsSize_nonneg rest). lia. Qed.

Definition point_ok (snap : list SnapshotEntry) (qs : list Z) (logs : list WalEntry) (new : list SnapshotEntry) (d : Dir) : Prop :=
  ∃ snap' qs' sealed' active', snap_reads d snap' ∧ seg_part xxh3 d qs' sealed' ∧ act_part xxh3 d active' ∧ (∀ q, q ∈ qs' → q ∈ qs) ∧
    (snap' = snap ∨ snap' = new) ∧ covered snap snap' logs sealed' active'.

(** The queue was being appended, or all of it is in the log. *)
Definition compact_point (y : Sys) (snap : list SnapshotEntry) (qs : list Z) (logs : list WalEntry) (new : list SnapshotEntry) (d : Dir) : Prop :=
  (kept_at y snap logs d ∧ ∀ n, n ≠ K_WAL_FILENAME → d !! n = y_dir y !! n) ∨ point_ok snap qs (logs ++ pending_wal (y_pm y)) new d.

(** Wherever a crash during a compaction comes. *)
Lemma compact_crash_dirs wio wio2 prune b c stamp n w y snap qs sealed active :
  sys_inv n w y snap qs sealed active → task_granted (TCompact wio wio2 prune b c stamp) y = true → clock_ok off limit c → in_u 64 stamp →
  0 <= n < 2 ^ 32 - 1 →
  Forall (compact_point y snap qs (concat sealed ++ active) (snapEntries hash c (y_store y))) (crash_dirs (TCompact wio wio2 prune b c stamp) y).
Proof.
  intros Hy [Hwr Hfr]%andb_true_iff Hck Hst Hn. pose proof (sys_pending _ _ _ _ _ _ _ Hy) as Hok.
  destruct (compact_snapshot c n w y snap qs sealed active Hy Hck Hfr Hn) as (Hsok & H32 & Hsg & Hmap & Hlen & Hsize).
  destruct Hy as [Hd Hg Hc Hsz Hm Hs Hl Hgc Hr Hnx Hsq]. set (new := snapEntries hash c (y_store y)) in *. set (logs := concat sealed ++ active).
  assert (Forall (λ q, q <= wal_next_seq (y_pm y)) qs) as Hqs.
  { eapply Forall_impl; [apply (pr_seq _ _ _ _ _ (od_ready _ _ _ _ _ _ _ Hd))|]. simpl. lia. }
  assert (∀ x kept, kept `prefix_of` pending_wal (y_pm y) → snap_part x snap → seg_part xxh3 x qs sealed → act_part xxh3 x (active ++ kept) →
    (∀ n, n ≠ K_WAL_FILENAME → x !! n = y_dir y !! n) → compact_point y snap qs logs new x) as Hdrain.
  { intros x kept Hk H1' H2' H3' Hx. left. split; [|done]. exists kept, qs, sealed, (active ++ kept). unfold logs. rewrite <- app_assoc. by split_and!. }
  assert (∀ k, record_map (snap_record <$> new) no_records k = record_map ((snap_record <$> snap) ++ logs ++ pending_wal (y_pm y)) no_records k) as Hmap'.
  { intros k. rewrite Hmap. unfold all_records, logs. by rewrite <- !app_assoc. }
  destruct (compact_spec (H1 := traced_fs) xxh3 xxh3_range hash o wio wio2 prune b c stamp (y_store y) (y_pm y) (y_dir y, [y_dir y]) snap qs sealed active)
    as (pm' & tr & E & _ & _ & _ & Hreach); try done.
  unfold crash_dirs, run_task. rewrite E. cbn [mbind option_bind]. apply (reach_traced _ (y_dir y, [y_dir y]) tr); [|apply Forall_singleton].
  - apply Hreach; [exact Hdrain|..].
    + intros x Hread H2' H3'. right. assert (concat sealed ++ active ++ pending_wal (y_pm y) = logs ++ pending_wal (y_pm y)) as El
        by (unfold logs; by rewrite <- app_assoc).
      destruct Hread as [Hread|Hread]; [exists snap|exists new]; exists qs, sealed, (active ++ pending_wal (y_pm y)); rewrite <- El;
        split_and!; try done; [by left|by left|by right|]. right. rewrite El. split; [done|]. by exists [].
    + intros x i H1' H2' H3'. right. exists new, (drop i qs), (drop i sealed), (active ++ pending_wal (y_pm y)).
      split_and!; [by apply snap_part_read|done|done| |by right|].
      * intros q Hq. rewrite <- (take_drop i qs). set_solver.
      * right. split; [done|]. exists (concat (take i sealed)). unfold logs. rewrite <- app_assoc.
        by rewrite (app_assoc (concat (take i sealed))), <- concat_app, take_drop.
    + intros x H1' H2' H3'. right. exists new, [], [], []. split_and!; [by apply snap_part_read|done|done|intros q []%not_elem_of_nil|by right|].
      right. split; [done|]. exists (logs ++ pending_wal (y_pm y)). simpl. by rewrite app_nil_r.
  - apply (Hdrain _ []); [apply prefix_nil|apply Hd|apply Hd| |done]. rewrite app_nil_r. by apply (od_act _ _ _ _ _ _ _ Hd).
Qed.

(** Recovery at such a point. *)
Lemma point_boots c snap qs logs new d y n w :
  clock_ok off limit c → point_ok snap qs logs new d → Forall (λ q, q < 1 + n) qs → 0 <= n < 2 ^ 32 →
  Forall (good limit) ((snap_record <$> snap) ++ logs) → Forall (good limit) (snap_record <$> new) → 
  Z.of_nat (length ((snap_record <$> snap) ++ logs)) <= n → Z.of_nat (length new) <= n →
  recsSize ((snap_record <$> snap) ++ logs) <= w → recsSize (snap_record <$> new) <= w → 2 * w <= share →
  mirrors hash off (record_map ((snap_record <$> snap) ++ logs) no_records) (y_store y) →
  ∃ y', boot c d = Some y' ∧ ∀ k, image y' k = image y k.
Proof.
  intros Hc (snap' & qs' & sealed' & active' & Hr & Hseg & Hact & Hqs & Hnew & Hcov) Hq Hn Hg Hgn Hlen Hlenn Hsz Hszn Hw Hm.
  apply Forall_app in Hg as [Hgs Hgl]. rewrite recsSize_app in Hsz. rewrite length_app, length_fmap in Hlen.
  pose proof (recsSize_nonneg (snap_record <$> snap)). pose proof (recsSize_nonneg logs).
  assert (Forall (good limit) (snap_record <$> snap') ∧ Z.of_nat (length snap') <= n ∧ recsSize (snap_record <$> snap') <= w) as (Hg1 & Hl1 & Hs1).
  { destruct Hnew as [->| ->]; split_and!; try done; lia. }
  assert (concat sealed' ++ active' `suffix_of` logs) as Hsuf by (by destruct Hcov as [[_ ->]|[_ ?]]).
  destruct (suffix_size _ _ Hsuf) as [Hs2 Hl2].
  assert (Forall (good limit) (concat sealed' ++ active')) as Hg2.
  { destruct Hsuf as [rest E]. rewrite E in Hgl. by apply Forall_app in Hgl as [_ ?]. }
  destruct (boot_spec c d snap' qs' sealed' active' (2 * n) (2 * w)) as (y' & E & _ & Hm' & _); try done; try lia.
  - apply Forall_forall. intros q Hin. pose proof (proj1 (Forall_forall _ _) Hq q (Hqs q Hin)). simpl in *. lia.
  - by apply Forall_app.
  - unfold all_records. rewrite length_app, length_fmap. lia.
  - unfold all_records. rewrite recsSize_app. lia.
  - exists y'. split; [done|]. intros k. unfold image. rewrite (Hm' k), (Hm k). by apply covered_map.
Qed.

End system.

(** ** What survives *)

Section survival.
Context {PN PS : Type} `{FreqLaws PN PS}.
Context (hash xxh3 : bytes → Z) (o : Options) (cap off limit : Z).

(** C6: a crash loses at most writes that were not on disk yet, the newest ones.
    Take any sequence of store operations, flushes, compactions and crashes
    during flushes on a system whose writes all fit, in which nothing expires
    and the disk keeps working.  A flush at its end can be interrupted at any
    byte of any of its writes and between any two of its operations on files,
    sealing included: recovery from the directory as it then is succeeds, with
    a store that satisfies its invariant and consists of what was on disk
    before the flush plus a prefix of the queued writes. *)
Theorem recovery_keeps_prefix (c0 : Clock) (xs : list Step) :
  (∀ b, in_u 64 (xxh3 b)) → enabled o = true → clock_ok off limit c0 → Forall (step_fits off limit) xs → steps_size xs <= share cap →
  Z.of_nat (length xs) < 2 ^ 32 - 1 →
  ∃ y0, boot (PN := PN) (PS := PS) hash xxh3 o cap c0 ∅ = Some y0 ∧
  (granted hash xxh3 o cap xs y0 = true →
   ∃ y, run_steps hash xxh3 o cap xs y0 = Some y ∧ store_inv hash (y_store y) ∧
     ∀ t c, is_flush t → task_granted hash xxh3 t y = true → clock_ok off limit c →
     ∃ yd y1, boot (PN := PN) (PS := PS) hash xxh3 o cap c (y_dir y) = Some yd ∧
       (∀ k, image hash off y k = record_map (pending_wal (y_pm y)) (image hash off yd) k) ∧
       run_step hash xxh3 o cap (STask t) y = Some y1 ∧ last (crash_dirs hash xxh3 o t y) = Some (y_dir y1) ∧
       ∀ d, d ∈ crash_dirs hash xxh3 o t y →
       ∃ y' kept, boot (PN := PN) (PS := PS) hash xxh3 o cap c d = Some y' ∧ store_inv hash (y_store y') ∧
         kept `prefix_of` pending_wal (y_pm y) ∧ ∀ k, image hash off y' k = record_map kept (image hash off yd) k).
Proof.
  intros Hx Ho Hc Hf Hsz Hlen. destruct (run_reaches hash xxh3 o cap off limit Hx Ho c0 xs Hc Hf Hsz Hlen) as (y0 & E0 & Hrun).
  exists y0. split; [done|]. intros Hg. destruct (Hrun Hg) as (y & snap & qs & sealed & active & E & Hy). exists y. split; [done|]. split; [apply Hy|].
  intros t c Ht Hgt Hc'. destruct t as [wio sync size b1 b2|]; [|done].
  destruct (disk_image hash xxh3 o cap off limit Hx Ho c _ _ y snap qs sealed active Hy Hc') as (yd & Ed & Hid & Himg); [lia|lia|].
  destruct (flush_step hash xxh3 o cap off limit Hx wio sync size b1 b2 _ _ y snap qs sealed active Hy Hgt) as (y1 & _ & _ & _ & E1 & _); [lia|].
  exists yd, y1. split; [done|]. split; [done|]. split; [done|]. split; [by apply (crash_dirs_last hash xxh3 o cap)|]. intros d Hd.
  pose proof (flush_crash_dirs hash xxh3 o cap off limit Hx wio sync size b1 b2 _ _ y snap qs sealed active Hy Hgt) as Hall.
  destruct (kept_image hash xxh3 o cap off limit Hx Ho c _ _ y snap qs sealed active d Hy) as (y' & kept & E' & Hs' & Hpre & Hk); try done; try lia.
  { apply (proj1 (Forall_forall _ _) (Hall ltac:(lia)) d Hd). }
  exists y', kept. split_and!; try done. intros k. by rewrite Hk, (record_map_ext _ _ _ _ (Hid k)).
Qed.

(** C5: what has been flushed or compacted survives a crash.  After any sequence
    of steps that ends with a flush or a compaction, on a system whose writes
    all fit, in which nothing expires and the disk keeps working, the recovery
    behind a crash brings every key back with the same value, version, writer,
    expiry and tombstone mark, and no other key. *)
Theorem flushed_writes_survive (c0 : Clock) (xs : list Step) (t : Task) :
  (∀ b, in_u 64 (xxh3 b)) → enabled o = true → clock_ok off limit c0 → Forall (step_fits off limit) (xs ++ [STask t]) → steps_size xs <= share cap →
  Z.of_nat (length xs) < 2 ^ 32 - 2 →
  ∃ y0, boot (PN := PN) (PS := PS) hash xxh3 o cap c0 ∅ = Some y0 ∧
  (granted hash xxh3 o cap (xs ++ [STask t]) y0 = true →
   ∃ y y1, run_steps hash xxh3 o cap xs y0 = Some y ∧ run_step hash xxh3 o cap (STask t) y = Some y1 ∧ y_store y1 = y_store y ∧
     ∀ c, clock_ok off limit c →
     ∃ y', boot (PN := PN) (PS := PS) hash xxh3 o cap c (y_dir y1) = Some y' ∧ ∀ k, image hash off y' k = image hash off y k).
Proof.
  intros Hx Ho Hc [Hf Hfx]%Forall_app Hsz Hlen. apply Forall_cons in Hfx as [Hfx _].
  destruct (run_reaches hash xxh3 o cap off limit Hx Ho c0 xs Hc Hf Hsz) as (y0 & E0 & Hrun); [lia|]. exists y0. split; [done|].
  intros [Hgxs Hgx]%(granted_app hash xxh3 o cap xs). destruct (Hrun Hgxs) as (y & snap & qs & sealed & active & E & Hy). specialize (Hgx y E).
  assert (∃ y1 snap' qs' sealed' active', run_step hash xxh3 o cap (STask t) y = Some y1 ∧ pending_wal (y_pm y1) = [] ∧ y_store y1 = y_store y ∧
    sys_inv hash xxh3 cap off limit (Z.of_nat (length xs) + 1) (steps_size xs) y1 snap' qs' sealed' active')
    as (y1 & snap' & qs' & sealed' & active' & E1 & Hp1 & Hs1 & Hy1).
  { destruct t as [wio sync size b1 b2|wio wio2 prune b c stamp].
    - destruct (flush_step hash xxh3 o cap off limit Hx wio sync size b1 b2 _ _ y snap qs sealed active Hy Hgx)
        as (y1 & qs' & sealed' & active' & ? & ? & ? & ?); [lia|]. by exists y1, snap, qs', sealed', active'.
    - destruct Hfx as [Hck Hst]. destruct (compact_step hash xxh3 o cap off limit Hx Ho wio wio2 prune b c stamp _ _ y snap qs sealed active Hy Hgx Hck Hst)
        as (y1 & snap' & ? & ? & ? & ?); [lia|]. by exists y1, snap', [], [], []. }
  exists y, y1. split; [done|]. split; [done|]. split; [done|]. intros c Hc'.
  destruct (disk_image hash xxh3 o cap off limit Hx Ho c _ _ y1 snap' qs' sealed' active' Hy1 Hc') as (y' & E' & _ & Himg); [lia|lia|].
  exists y'. split; [done|]. intros k. specialize (Himg k). rewrite Hp1 in Himg. transitivity (image hash off y1 k); [symmetry; exact Himg|].
  unfold image. by rewrite Hs1.
Qed.

(** C7: a compaction can be interrupted anywhere.  Take the directories that a
    crash during a compaction can leave: behind each byte of the appended
    records, of the staged snapshot, of the staged [CURRENT] and of the new
    log, and between any two renames and removals.  Recovery from any of them
    succeeds.  It restores exactly the store that was being compacted, queued
    writes included; only while the queue is still being appended, when no file
    but the log differs, it may be without the newest of the queued writes.
    The last of the directories is the one the compaction leaves. *)
Theorem compaction_crash_safe (c0 : Clock) (xs : list Step) (wio wio2 : list WriteOutcome) (prune : bytes → bool) (b : bool) (c : Clock) (stamp : Z) :
  (∀ b, in_u 64 (xxh3 b)) → enabled o = true → clock_ok off limit c0 → Forall (step_fits off limit) xs → 2 * steps_size xs <= share cap →
  Z.of_nat (length xs) < 2 ^ 31 → clock_ok off limit c → in_u 64 stamp →
  ∃ y0, boot (PN := PN) (PS := PS) hash xxh3 o cap c0 ∅ = Some y0 ∧
  (granted hash xxh3 o cap (xs ++ [STask (TCompact wio wio2 prune b c stamp)]) y0 = true →
   ∃ y y1, run_steps hash xxh3 o cap xs y0 = Some y ∧ run_step hash xxh3 o cap (STask (TCompact wio wio2 prune b c stamp)) y = Some y1 ∧
     last (crash_dirs hash xxh3 o (TCompact wio wio2 prune b c stamp) y) = Some (y_dir y1) ∧
     ∀ d c', d ∈ crash_dirs hash xxh3 o (TCompact wio wio2 prune b c stamp) y → clock_ok off limit c' →
     ∃ y', boot (PN := PN) (PS := PS) hash xxh3 o cap c' d = Some y' ∧
       ((∀ k, image hash off y' k = image hash off y k) ∨
        (∀ n, n ≠ K_WAL_FILENAME → d !! n = y_dir y !! n) ∧
        ∃ yd kept, boot (PN := PN) (PS := PS) hash xxh3 o cap c' (y_dir y) = Some yd ∧ kept `prefix_of` pending_wal (y_pm y) ∧
          ∀ k, image hash off y' k = record_map kept (image hash off yd) k)).
Proof.
  intros Hx Ho Hc Hf Hsz Hlen Hck Hst. pose proof (steps_size_nonneg xs) as Hnn.
  destruct (run_reaches hash xxh3 o cap off limit Hx Ho c0 xs Hc Hf) as (y0 & E0 & Hrun); [lia|lia|]. exists y0. split; [done|].
  intros [Hgxs Hgx]%(granted_app hash xxh3 o cap xs). destruct (Hrun Hgxs) as (y & snap & qs & sealed & active & E & Hy). specialize (Hgx y E).
  destruct (compact_step hash xxh3 o cap off limit Hx Ho wio wio2 prune b c stamp _ _ y snap qs sealed active Hy Hgx Hck Hst) as (y1 & _ & E1 & _); [lia|].
  exists y, y1. split; [done|]. split; [done|]. split; [by apply (crash_dirs_last hash xxh3 o cap)|]. intros d c' Hd Hc'.
  pose proof (compact_crash_dirs hash xxh3 o cap off limit Hx Ho wio wio2 prune b c stamp _ _ y snap qs sealed active Hy Hgx Hck Hst) as Hall.
  destruct (proj1 (Forall_forall _ _) (Hall ltac:(lia)) d Hd) as [[Hkept Hsame]|Hpt].
  - destruct (disk_image hash xxh3 o cap off limit Hx Ho c' _ _ y snap qs sealed active Hy Hc') as (yd & Ed & Hid & _); [lia|lia|].
    destruct (kept_image hash xxh3 o cap off limit Hx Ho c' _ _ y snap qs sealed active d Hy Hkept Hc') as (y' & kept & E' & _ & Hpre & Hk); [lia|lia|].
    exists y'. split; [done|]. right. split; [done|]. exists yd, kept. split_and!; try done. intros k. by rewrite Hk, (record_map_ext _ _ _ _ (Hid k)).
  - apply andb_true_iff in Hgx as [_ Hfr].
    destruct (compact_snapshot hash xxh3 cap off limit c _ _ y snap qs sealed active Hy Hck Hfr) as (_ & _ & Hsg & _ & Hln & Hss); [lia|].
    destruct Hy as [Hdk Hg Hcount Hsize Hm _ _ _ _ _ Hsq].
    assert (all_records snap sealed active ++ pending_wal (y_pm y) = (snap_record <$> snap) ++ (concat sealed ++ active) ++ pending_wal (y_pm y)) as Eall
      by (unfold all_records; by rewrite <- !app_assoc).
    rewrite Eall in Hg, Hcount, Hsize, Hm, Hln, Hss.
    destruct (point_boots hash xxh3 o cap off limit Hx Ho c' snap qs _ _ d y (1 + Z.of_nat (length xs)) (steps_size xs) Hc' Hpt) as (y' & E' & Hi); try done; try lia.
    { eapply Forall_impl; [apply (pr_seq _ _ _ _ _ (od_ready _ _ _ _ _ _ _ Hdk))|]. simpl. lia. }
    exists y'. split; [done|]. by left.
Qed.
End survival.

(** ** Witnesses *)

Definition demo_off : Z := nowSystem demo_clock - now demo_clock.

Definition demo_limit : Z := 1700000100000.

(** Every flush seals. *)
Definition demo_options : Options := mkOptions true 100 0 1 10 true.

Abbreviation demo_flush n := (TFlush [Wrote n; Eintr; Wrote 500] true true true true).

Definition demo_steps : list Step :=
  [SOp (OPut demo_clock (lit "a") (lit "1") None); SOp (OPut demo_clock (lit "b") (lit "2") (Some 200000));
   STask (demo_flush 20); SOp (ORemove (lit "a")); SOp (OPut demo_clock (lit "b") (lit "3") None);
   STask (demo_flush 500); STask (TCompact [] [] (λ _, true) true demo_clock 77); SOp (OPut later_clock (lit "c") (lit "4") None);
   SCrash (demo_flush 500) 10 later_clock; SOp (OPut later_clock (lit "d") (lit "5") (Some 200000)); SOp (OGet later_clock (lit "b"))].

Lemma demo_clock_ok : clock_ok demo_off demo_limit demo_clock.
Proof. split; vm_compute; intuition congruence. Qed.

Lemma later_clock_ok : clock_ok demo_off demo_limit later_clock.
Proof. split; vm_compute; intuition congruence. Qed.

Lemma demo_steps_fit : Forall (step_fits demo_off demo_limit) demo_steps.
Proof.
  pose proof demo_clock_ok. pose proof later_clock_ok. unfold demo_steps. repeat apply Forall_cons_2; [..|constructor]; cbn [step_fits op_fits]; try done;
    split_and?; try done; vm_compute; intuition congruence.
Qed.

Lemma demo_granted :
  match boot (PN := ()) (PS := ()) demo_hash toy_xxh3 demo_options 5000 demo_clock ∅ with
  | Some y0 => granted demo_hash toy_xxh3 demo_options 5000 demo_steps y0
  | None => false
  end = true.
Proof. vm_compute. reflexivity. Qed.

(** What the demonstration boots to. *)
Abbreviation demo_boot := (boot (PN := ()) (PS := ()) demo_hash toy_xxh3 demo_options 5000 demo_clock ∅).

(** One write is queued at its end; a flush then can stop in the middle of it. *)
Lemma demo_state :
  match y0 ← demo_boot; run_steps demo_hash toy_xxh3 demo_options 5000 demo_steps y0 with
  | Some y => (length (pending_wal (y_pm y)) =? 1)%nat && task_granted demo_hash toy_xxh3 (demo_flush 20) y &&
      match crash_dirs demo_hash toy_xxh3 demo_options (demo_flush 20) y !! 30%nat with Some _ => true | None => false end
  | None => false
  end = true.
Proof. vm_compute. reflexivity. Qed.

Lemma recovery_keeps_prefix_witness :
  ∃ y0 y d, demo_boot = Some y0 ∧ run_steps demo_hash toy_xxh3 demo_options 5000 demo_steps y0 = Some y ∧ length (pending_wal (y_pm y)) = 1%nat ∧
    crash_dirs demo_hash toy_xxh3 demo_options (demo_flush 20) y !! 30%nat = Some d ∧
    ∃ yd y' kept, boot (PN := ()) (PS := ()) demo_hash toy_xxh3 demo_options 5000 later_clock (y_dir y) = Some yd ∧
      boot (PN := ()) (PS := ()) demo_hash toy_xxh3 demo_options 5000 later_clock d = Some y' ∧
      kept `prefix_of` pending_wal (y_pm y) ∧ ∀ k, image demo_hash demo_off y' k = record_map kept (image demo_hash demo_off yd) k.
Proof.
  destruct (recovery_keeps_prefix (PN := ()) (PS := ()) demo_hash toy_xxh3 demo_options 5000 demo_off demo_limit demo_clock demo_steps)
    as (y0 & E0 & Hrest).
  - exact toy_xxh3_range.
  - reflexivity.
  - exact demo_clock_ok.
  - exact demo_steps_fit.
  - vm_compute. discriminate.
  - vm_compute. reflexivity.
  - destruct Hrest as (y & E & _ & Hcrash).
    { pose proof demo_granted as Hg. rewrite E0 in Hg. exact Hg. }
    pose proof demo_state as Hs. rewrite E0 in Hs. cbn [mbind option_bind] in Hs. rewrite E in Hs.
    apply andb_true_iff in Hs as [[Hlen%Nat.eqb_eq Hgt]%andb_true_iff Hd]. destruct (crash_dirs _ _ _ _ _ !! 30%nat) as [d|] eqn:Ed; [|discriminate]. clear Hd.
    destruct (Hcrash (demo_flush 20) later_clock I Hgt later_clock_ok) as (yd & y1 & Eyd & _ & _ & _ & Hdirs).
    destruct (Hdirs d (list_elem_of_lookup_2 _ _ _ Ed)) as (y' & kept & E' & _ & Hpre & Hm).
    exists y0, y, d. split; [exact E0|]. split; [exact E|]. split; [exact Hlen|]. split; [exact Ed|].
    exists yd, y', kept. split; [exact Eyd|]. split; [exact E'|]. split; [exact Hpre|exact Hm].
Defined.

Lemma demo_flush_granted :
  match demo_boot with
  | Some y0 => granted demo_hash toy_xxh3 demo_options 5000 (demo_steps ++ [STask (demo_flush 500)]) y0
  | None => false
  end = true.
Proof. vm_compute. reflexivity. Qed.

Lemma flushed_writes_survive_witness :
  ∃ y0 y y1, demo_boot = Some y0 ∧ run_steps demo_hash toy_xxh3 demo_options 5000 demo_steps y0 = Some y ∧
    run_step demo_hash toy_xxh3 demo_options 5000 (STask (demo_flush 500)) y = Some y1 ∧
    ∃ y', boot (PN := ()) (PS := ()) demo_hash toy_xxh3 demo_options 5000 later_clock (y_dir y1) = Some y' ∧
      ∀ k, image demo_hash demo_off y' k = image demo_hash demo_off y k.
Proof.
  destruct (flushed_writes_survive (PN := ()) (PS := ()) demo_hash toy_xxh3 demo_options 5000 demo_off demo_limit demo_clock demo_steps
    (demo_flush 500)) as (y0 & E0 & Hrest).
  - exact toy_xxh3_range.
  - reflexivity.
  - exact demo_clock_ok.
  - apply Forall_app. split; [exact demo_steps_fit|]. apply Forall_cons. split; [exact I|constructor].
  - vm_compute. discriminate.
  - vm_compute. reflexivity.
  - destruct Hrest as (y & y1 & E & E1 & _ & Hcrash).
    { pose proof demo_flush_granted as Hg. rewrite E0 in Hg. exact Hg. }
    destruct (Hcrash later_clock later_clock_ok) as (y' & E' & Hm). exists y0, y, y1. split; [exact E0|]. split; [exact E|]. split; [exact E1|].
    exists y'. split; [exact E'|exact Hm].
Defined.

Abbreviation demo_compact := (TCompact [Wrote 500] [] (λ _, true) true later_clock 78).

Lemma demo_compact_granted :
  match demo_boot with
  | Some y0 => granted demo_hash toy_xxh3 demo_options 5000 (demo_steps ++ [STask demo_compact]) y0
  | None => false
  end = true.
Proof. vm_compute. reflexivity. Qed.

Lemma compaction_crash_safe_witness :
  ∃ y0 y, demo_boot = Some y0 ∧ run_steps demo_hash toy_xxh3 demo_options 5000 demo_steps y0 = Some y ∧
    ∀ d, d ∈ crash_dirs demo_hash toy_xxh3 demo_options demo_compact y →
    ∃ y', boot (PN := ()) (PS := ()) demo_hash toy_xxh3 demo_options 5000 later_clock d = Some y' ∧
      ((∀ k, image demo_hash demo_off y' k = image demo_hash demo_off y k) ∨
       (∀ n, n ≠ K_WAL_FILENAME → d !! n = y_dir y !! n) ∧
       ∃ yd kept, boot (PN := ()) (PS := ()) demo_hash toy_xxh3 demo_options 5000 later_clock (y_dir y) = Some yd ∧ kept `prefix_of` pending_wal (y_pm y) ∧
         ∀ k, image demo_hash demo_off y' k = record_map kept (image demo_hash demo_off yd) k).
Proof.
  destruct (compaction_crash_safe (PN := ()) (PS := ()) demo_hash toy_xxh3 demo_options 5000 demo_off demo_limit demo_clock demo_steps
    [Wrote 500] [] (λ _, true) true later_clock 78) as (y0 & E0 & Hrest).
  - exact toy_xxh3_range.
  - reflexivity.
  - exact demo_clock_ok.
  - exact demo_steps_fit.
  - vm_compute. discriminate.
  - vm_compute. reflexivity.
  - exact later_clock_ok.
  - vm_compute. split; [discriminate|reflexivity].
  - destruct Hrest as (y & y1 & E & _ & _ & Hcrash).
    { pose proof demo_compact_granted as Hg. rewrite E0 in Hg. exact Hg. }
    exists y0, y. split; [exact E0|]. split; [exact E|]. intros d Hd. exact (Hcrash d later_clock Hd later_clock_ok).
Defined.
