(* ===== verification/Hazards.v ===== *)
(** * Durability when the disk misbehaves

    What the manager does when a single request fails, in the places where the
    outcome is not what the code intends. *)

From S2P Require Import Prelude Types Bytes Text Buffers Clock Wal Snapshot WheelHeap TtlWheel Store StoreFacts LruStore LfuStore.
From S2P Require Import StoreSpec Persistence Directory Recovery Disk Durability.
Import EntryFacts LwwFacts.
Local Open Scope Z_scope.

(** ** Expired records *)

Section expired.
Context {PN PS : Type} `{FreqLaws PN PS}.
Context (hash : bytes → Z).
Implicit Types (s : Store PN PS).

(** an expired write gives way to the one it replaced.  When the last record of
    a key has expired at recovery, replay skips it, and the store comes back
    with the older value of the key, or with a value that was deleted when the
    record is a tombstone. *)
Theorem expired_record_resurrects (c : Clock) (old new : WalEntry) (n : Z) s :
  store_inv hash s → (∀ k, lookup_store hash s k = None) → 0 <= n → room (recSize old + n) s →
  we_op old = OpSet → readable c old → we_key new = we_key old → we_version old < we_version new →
  we_has_ttl new = true → 0 < we_expires_at_ms new <= nowSystemMs c →
  ∃ s' ve, replayRecords hash c [old; new] s = Some s' ∧ versionedFromWal c old = Some ve ∧ value ve = we_value old ∧
    lookup_store hash s' (we_key new) = Some ve.
Proof.
  intros Hs Hempty Hn Hroom Hop Hr Hk Hver Ht Hx. pose proof Hr as [Hv Hf].
  destruct (versionedFromWal_fresh c old Hf Hv) as (ve & Ev & _ & _ & Hval & _).
  destruct (replayRecord_shows hash c no_records n s old) as (s' & E & _ & _ & Hsh & _); try done.
  exists s', ve. cbn [replayRecords]. rewrite E. cbn [mbind option_bind].
  assert (versionedFromWal c new = None) as En.
  { unfold versionedFromWal, rebaseExpiry. rewrite Ht. cbn [negb orb]. destruct (Z.eqb_spec (we_expires_at_ms new) 0); [lia|].
    by destruct (Z.leb_spec (we_expires_at_ms new) (nowSystemMs c)); [|lia]. }
  unfold replayRecord. rewrite En. cbn [mbind option_bind]. split; [done|]. split; [done|]. split; [done|].
  rewrite (Hsh (we_key new)), Hk, record_map_one, decide_True by done. unfold record_step. by rewrite Hop.
Qed.
End expired.

(** ** Compactions that fail in part *)

Section partial.
Context {PN PS : Type} `{FreqLaws PN PS}.
Context (hash xxh3 : bytes → Z) (o : Options).
Hypothesis xxh3_range : ∀ b, in_u 64 (xxh3 b).
Hypothesis o_enabled : enabled o = true.
Implicit Types (s : Store PN PS).

(** The file [CURRENT] cannot be written; every other request is granted. *)
Definition current_fails (wio wio2 : list WriteOutcome) (prune : bytes → bool) (b : bool) : CompactIo :=
  mkCompactIo wio (mkSnapFileIo true true true [] pub_ok (mkCurIo false true true [] pub_ok)) prune (λ _, true) (rot_good b) wio2.

Lemma unpublished_compaction wio wio2 prune b c stamp s pm d snap n nv qs sealed active :
  on_disk xxh3 pm d snap qs sealed active → Forall entry_ok (pending_wal pm) → writes xxh3 wio (pending_wal pm) →
  Forall snap_ok (snapEntries hash c s) → in_u 32 (Z.of_nat (length (snapEntries hash c s))) →
  in_u 64 nv → readCurrent d = n → isSnapshotFile n = true → d !! n = Some (snapFile nv snap) → n ≠ snapshotName stamp →
  ∃ pm' d', compact hash xxh3 o (current_fails wio wio2 prune b) c stamp s pm d = Some (Ok (), pm', d') ∧ pending_wal pm' = [] ∧
    on_disk xxh3 pm' d' snap [] [] [].
Proof.
  intros Hod Hokp Hwr Hsok Hlen Hnv Hcur Hn Hfile Hne. pose proof (od_snap _ _ _ _ _ _ _ Hod) as (Hl & Hok & _).
  unfold compact. rewrite o_enabled. cbn [negb current_fails co_drain co_snap co_prune co_delete co_rotate co_drain2].
  destruct (pr_wal _ _ _ _ _ (od_ready _ _ _ _ _ _ _ Hod)) as (w & Hw & _).
  assert (drain_if_open xxh3 wio pm d = drainQueueLocked xxh3 wio w pm d) as -> by (unfold drain_if_open; by rewrite Hw).
  destruct (drainQueue_spec (H := dir_fs) xxh3 wio w pm d qs active (od_ready _ _ _ _ _ _ _ Hod) Hw (od_active _ _ _ _ _ _ _ Hod) Hokp)
    as (r & pm1 & d1 & kept & -> & _ & _ & Hd1 & _ & Hall & _). cbn [view dir_fs] in *. destruct (Hall Hwr) as (Hp1 & _ & Hr1). cbn [mbind option_bind].
  destruct (append_parts xxh3 d d1 snap qs sealed Hd1 (od_snap _ _ _ _ _ _ _ Hod) (od_seg _ _ _ _ _ _ _ Hod)) as [_ Hseg1].
  destruct (snapshot_apart n Hn) as (Hpn & Hnw & Hnc & Hnt). destruct (tmp_facts K_WAL_FILENAME) as (_ & Ht2 & _ & Ht3).
  destruct (writeSnapshotFile_spec (D := Dir) hash c stamp s d1 Hsok Hlen) as (d2 & E2 & _ & Hd2 & _). cbn [view dir_fs] in Hd2.
  assert (createSnapshot hash (mkSnapFileIo true true true [] pub_ok (mkCurIo false true true [] pub_ok)) c stamp s d1 = Some (Ok (), d2)) as ->.
  { unfold createSnapshot. fold (snapEntries hash c s). 
    change (writeSnapshotFile (D := Dir) (mkSnapFileIo true true true [] pub_ok (mkCurIo false true true [] pub_ok))) with (writeSnapshotFile (D := Dir) snap_good). by rewrite E2. }
  cbn [mbind option_bind]. destruct (snapshot_name_facts stamp) as (Hsn & _ & _ & Hsc & _).
  assert (∀ n', n' = n ∨ n' = K_CURRENT_FILENAME → d2 !! n' = d !! n') as Hd20.
  { intros n' Hn'. rewrite Hd2.
    - apply Hd1. by destruct Hn' as [->| ->].
    - destruct Hn' as [->| ->]; [done|by apply not_eq_sym].
    - destruct Hn' as [->| ->]; [apply Hnt|]. apply not_eq_sym. by apply tmp_facts. }
  assert (readCurrent d2 = n) as Hcur2 by (unfold readCurrent in *; by rewrite Hd20 by auto).
  destruct (pruneOldSnapshots_spec (H := dir_fs) prune d2) as [Hprune _]. set (d3 := pruneOldSnapshots prune d2) in *. cbn [view dir_fs] in Hprune.
  assert (∀ n', isSnapshotFile n' = false → (∀ m, n' ≠ tmp_of m) → d3 !! n' = d1 !! n') as Hd3.
  { intros n' Hs' Ht'. rewrite Hprune by auto. apply Hd2; [congruence|apply Ht']. }
  apply (seg_frame xxh3 d1 d3) in Hseg1.
  2: { intros n' q Hp. apply Hd3.
       - destruct (isSnapshotFile n') eqn:E; [|done]. apply snapshot_apart in E as [E _]. congruence.
       - intros m ->. destruct (tmp_facts m) as (_ & E & _). congruence. }
  assert (snap_part d3 snap) as Hsnap3.
  { apply (snap_keep d d3 n nv); try done.
    - rewrite Hprune by (by left). by apply Hd20; right.
    - rewrite Hprune by (by right). by apply Hd20; left. }
  destruct (compact_tail (H := dir_fs) xxh3 xxh3_range b wio2 pm1 d3 snap qs sealed (pr_loading _ _ _ _ _ Hr1) Hp1 Hsnap3 Hseg1) as (pm' & d' & E & Hp' & _ & Hod' & _).
  by exists pm', d'.
Qed.

(** The new log is renamed into place, but the directory cannot be synced. *)
Definition rotate_fails : RotIo := mkRotIo all_ok (mkPubIo true None false) true.

Lemma unlinked_rotation pm d qs active :
  pm_ready xxh3 pm d qs active →
  ∃ x pm' d', replaceWalLocked rotate_fails pm d = Some (Err x, pm', d') ∧ wal pm' = wal pm ∧ wal_linked pm' = false ∧
    pending_wal pm' = pending_wal pm ∧ d' !! K_WAL_FILENAME = Some (log xxh3 []).
Proof.
  intros [_ Hlk _ _ _]. unfold replaceWalLocked, openAt. cbn [rotate_fails rot_open rot_pub rot_size view dir_fs].
  assert (∃ w, openWal all_ok (d !! tmp_of K_WAL_FILENAME) Truncate = Some w ∧ w_open w = true ∧ w_file w = log xxh3 []) as (w & -> & Hwo & Hwf)
    by (eexists; split; [reflexivity|done]).
  cbn [mbind option_bind all_ok open_ok view exec dir_fs fs_apply]. unfold publishTempFile. cbn [pub_sync pub_rename pub_dir negb view exec dir_fs fs_apply].
  rewrite lookup_insert_eq.
  eexists _, _, _. split; [reflexivity|]. split; [done|]. split.
  - cbn [with_wal wal_linked]. rewrite bool_decide_true by eauto. rewrite bool_decide_true by done. by rewrite andb_false_r.
  - split; [done|]. by rewrite lookup_insert_eq, Hwf.
Qed.

Lemma unlinked_flush wio sync size b1 b2 pm d w active :
  wal pm = Some w → w_open w = true → wal_linked pm = false → w_file w = log xxh3 active → Forall entry_ok (pending_wal pm) →
  writes xxh3 wio (pending_wal pm) → (max_wal_segment_bytes o >? 0) = false →
  ∃ pm', flush xxh3 o (flush_io wio sync size b1 b2) pm d = Some (pm', d) ∧ pending_wal pm' = [].
Proof.
  intros Hw Ho Hlk Hf Hok Hwr Hseg. unfold flush. rewrite Hw. cbn [flush_io fl_write fl_sync fl_size fl_seal]. unfold drainQueueLocked.
  destruct (pending_wal pm) as [|e es] eqn:Ep; [by exists pm|]. rewrite <- Ep in Hok, Hwr |- *.
  rewrite appendBatch_eq by (try done; by rewrite Ep). rewrite (surjective_pairing (writeAll _ _ _)). unfold writes in Hwr.
  rewrite (writeAll_file _ _ _ (w_file w)) in Hwr. rewrite Hwr. cbn [mbind option_bind]. rewrite Hlk, Hseg. cbn [andb].
  eexists. split; [by destruct (wal_fsync o && negb sync)|done].
Qed.
End partial.

(** ** The failures *)

Section failures.
Context {PN PS : Type} `{FreqLaws PN PS}.
Context (hash xxh3 : bytes → Z) (o : Options).
Implicit Types (s : Store PN PS).

(** C37: a compaction that cannot write [CURRENT] reports success and loses the log.
    When [CURRENT] names an earlier snapshot, recovery from the directory that
    the compaction leaves reads that snapshot and no record: every write since
    is gone, although it had been on disk. *)
Theorem unpublished_compaction_loses_log (wio wio2 : list WriteOutcome) (prune : bytes → bool) (b : bool) (c : Clock) (stamp nv : Z) (n : bytes)
    s (pm : PM) (d : Dir) snap qs sealed active :
  (∀ b, in_u 64 (xxh3 b)) → enabled o = true → on_disk xxh3 pm d snap qs sealed active → Forall entry_ok (pending_wal pm) →
  writes xxh3 wio (pending_wal pm) → Forall snap_ok (snapEntries hash c s) → in_u 32 (Z.of_nat (length (snapEntries hash c s))) →
  in_u 64 nv → readCurrent d = n → isSnapshotFile n = true → d !! n = Some (snapFile nv snap) → n ≠ snapshotName stamp →
  ∃ pm' d', compact hash xxh3 o (current_fails wio wio2 prune b) c stamp s pm d = Some (Ok (), pm', d') ∧ pending_wal pm' = [] ∧
    snap_reads d' snap ∧ findWalFiles d' = [K_WAL_FILENAME] ∧ d' !! K_WAL_FILENAME = Some (log xxh3 []).
Proof.
  intros Hx Ho Hod Hokp Hwr Hsok Hlen Hnv Hcur Hn Hfile Hne.
  destruct (unpublished_compaction hash xxh3 o Hx Ho wio wio2 prune b c stamp s pm d snap n nv qs sealed active) as (pm' & d' & E & Hp' & [Hr _ Hs Hseg]); try done.
  exists pm', d'. split; [done|]. split; [done|]. split; [by apply snap_part_read|]. split; [|apply Hr].
  rewrite (findWalFiles_segments d' [] (proj1 Hseg)). rewrite decide_True; [done|]. rewrite (pr_file _ _ _ _ _ Hr). eauto.
Qed.

(** after a rotation whose directory sync failed, flushes write to nowhere.  The
    fresh log has taken the name [wal.log], the manager keeps the old, now
    nameless file; a later flush takes every queued write, reports nothing and
    leaves the directory as it was, with an empty log. *)
Theorem unlinked_log_drops_writes (es : list WalEntry) (wio : list WriteOutcome) (sync size b1 b2 : bool) (pm : PM) (d : Dir) qs active :
  (∀ b, in_u 64 (xxh3 b)) → pm_ready xxh3 pm d qs active → pending_wal pm = [] → Forall entry_ok es → writes xxh3 wio es →
  (max_wal_segment_bytes o >? 0) = false →
  ∃ x pm1 d1 pm2, replaceWalLocked rotate_fails pm d = Some (Err x, pm1, d1) ∧
    flush xxh3 o (flush_io wio sync size b1 b2) (foldl (λ pm e, enqueue e pm) pm1 es) d1 = Some (pm2, d1) ∧ pending_wal pm2 = [] ∧
    d1 !! K_WAL_FILENAME = Some (log xxh3 []).
Proof.
  intros Hx Hr Hp Hok Hwr Hseg. destruct (unlinked_rotation xxh3 pm d qs active Hr) as (x & pm1 & d1 & E & Hw & Hlk & Hp1 & Hf).
  assert (loading pm1 = false) as Hld.
  { revert E. unfold replaceWalLocked. destruct (openAt _ _ _ _) as [[w5 d5]|]; [|done]. cbn [mbind option_bind].
    destruct (publishTempFile _ _ _ _ _) as [[u|y] d8]; [done|]. intros [= _ <- _]. apply Hr. }
  assert (∀ l pm0, loading pm0 = false → foldl (λ pm e, enqueue e pm) pm0 l = with_pending (pending_wal pm0 ++ l) pm0) as Hq.
  { clear. induction l as [|e l IH]; intros pm0 Hl; cbn [foldl]; [rewrite app_nil_r; by destruct pm0|].
    unfold enqueue at 2. rewrite Hl, IH by done. simpl. by rewrite <- app_assoc. }
  destruct Hr as [(w & Hw0 & Hwo & Hwf) _ _ _ _].
  destruct (unlinked_flush xxh3 o wio sync size b1 b2 (with_pending es pm1) d1 w active) as (pm2 & E2 & Hp2); try done; [simpl; congruence|].
  exists x, pm1, d1, pm2. split; [done|]. rewrite Hq by done. rewrite Hp1, Hp. done.
Qed.
End failures.

(** ** Witnesses *)

Definition old_record : WalEntry := mkWalEntry OpSet (lit "k") (lit "first") 5 0 0 false false.

Definition new_record : WalEntry := mkWalEntry OpSet (lit "k") [] 6 0 1600000000000 true true.

Lemma expired_record_resurrects_witness :
  ∃ s' ve, replayRecords demo_hash demo_clock [old_record; new_record] (attached (PN := ()) (PS := ()) demo_clock 5000) = Some s' ∧
    value ve = lit "first" ∧ lookup_store demo_hash s' (lit "k") = Some ve.
Proof.
  destruct (expired_record_resurrects (PN := ()) (PS := ()) demo_hash demo_clock old_record new_record 0 (attached demo_clock 5000))
    as (s' & ve & E & _ & Hv & Hl).
  - exact (attached_inv demo_hash demo_clock 5000).
  - exact (proj1 (attached_facts demo_hash 5000 demo_clock)).
  - reflexivity.
  - apply (room_le (share 5000)); [exact (proj2 (attached_facts demo_hash 5000 demo_clock))|]. vm_compute. discriminate.
  - reflexivity.
  - split; [split; [discriminate|reflexivity]|]. left. reflexivity.
  - reflexivity.
  - reflexivity.
  - reflexivity.
  - split; [reflexivity|vm_compute; discriminate].
  - exists s', ve. split; [exact E|]. split; [exact Hv|exact Hl].
Defined.

(** A directory with an old snapshot and one record in the log. *)
Definition stale_dir : Dir :=
  <[K_CURRENT_FILENAME := snapshotName 1 ++ [c_newline]]> (<[snapshotName 1 := snapFile 5 []]>
    (<[K_WAL_FILENAME := log toy_xxh3 [short_entry]]> ∅)).

Definition stale_pm : PM := mkPM [] (Some (mkWalWriter true (log toy_xxh3 [short_entry]) [])) true 1 0 0 0 0 1 false.

Lemma stale_names n : is_Some (stale_dir !! n) → n = K_CURRENT_FILENAME ∨ n = snapshotName 1 ∨ n = K_WAL_FILENAME.
Proof.
  intros [b Hb]. unfold stale_dir in Hb. rewrite !lookup_insert_Some, lookup_empty in Hb. naive_solver.
Qed.

Lemma stale_ready : pm_ready toy_xxh3 stale_pm stale_dir [] [short_entry].
Proof. split; [by eexists|done|done|done|constructor]. Qed.

Lemma stale_disk : on_disk toy_xxh3 stale_pm stale_dir [] [] [] [short_entry].
Proof.
  split; [exact stale_ready|apply Forall_singleton; exact short_entry_ok| |].
  - split; [done|]. split; [constructor|]. exists (Some (snapshotName 1)). split; [|by exists 5]. split; [done|]. split; [done|]. by eexists.
  - split; [|by split; constructor]. split; [constructor|constructor|intros q []%not_elem_of_nil|].
    intros n q Hn%stale_names Hp. exfalso. by destruct Hn as [->|[->| ->]].
Qed.

Lemma unpublished_compaction_loses_log_witness :
  ∃ pm' d', compact demo_hash toy_xxh3 demo_options (current_fails [] [] (λ _, true) true) demo_clock 77
      (attached (PN := ()) (PS := ()) demo_clock 5000) stale_pm stale_dir = Some (Ok (), pm', d') ∧
    findWalFiles d' = [K_WAL_FILENAME] ∧ d' !! K_WAL_FILENAME = Some (log toy_xxh3 []).
Proof.
  destruct (unpublished_compaction_loses_log (PN := ()) (PS := ()) demo_hash toy_xxh3 demo_options [] [] (λ _, true) true demo_clock 77 5
    (snapshotName 1) (attached demo_clock 5000) stale_pm stale_dir [] [] [] [short_entry]) as (pm' & d' & E & _ & _ & Hf & Hw).
  - exact toy_xxh3_range.
  - reflexivity.
  - exact stale_disk.
  - constructor.
  - reflexivity.
  - vm_compute. constructor.
  - vm_compute. split; [discriminate|reflexivity].
  - vm_compute. split; [discriminate|reflexivity].
  - vm_compute. reflexivity.
  - vm_compute. reflexivity.
  - vm_compute. reflexivity.
  - vm_compute. discriminate.
  - exists pm', d'. split; [exact E|]. split; [exact Hf|exact Hw].
Defined.

Definition flat_options : Options := mkOptions true 100 0 0 10 true.

Lemma unlinked_log_drops_writes_witness :
  ∃ x pm1 d1 pm2, replaceWalLocked rotate_fails stale_pm stale_dir = Some (Err x, pm1, d1) ∧
    flush toy_xxh3 flat_options (flush_io [Wrote 500] true true true true) (enqueue short_entry pm1) d1 = Some (pm2, d1) ∧ pending_wal pm2 = [].
Proof.
  destruct (unlinked_log_drops_writes toy_xxh3 flat_options [short_entry] [Wrote 500] true true true true stale_pm stale_dir [] [short_entry])
    as (x & pm1 & d1 & pm2 & E & E2 & Hp & _).
  - exact toy_xxh3_range.
  - exact stale_ready.
  - reflexivity.
  - apply Forall_cons. split; [exact short_entry_ok|constructor].
  - vm_compute. reflexivity.
  - reflexivity.
  - exists x, pm1, d1, pm2. split; [exact E|]. split; [exact E2|exact Hp].
Defined.
