(* ===== verification/Iblt.v ===== *)
(** * Invertible Bloom lookup tables (include/cinder/node/iblt.hpp, src/node/anti_entropy/iblt.cpp)

    A sketch of a set of metadata rows in a fixed number of cells.  The
    difference of two sketches is decoded by peeling: a cell that holds one row
    gives it away, and its removal may free other cells.  XXH3 is an argument.
    [None] of [positions], [insert] and [build_rows] is a loop without end or
    a division by zero, which a table of at least three cells does not have. *)

From S2P Require Import Prelude Types Bytes Buffers.
Local Open Scope Z_scope.

Module iblt.

Record Item := mkItem { key_hash : Z; version : Z; writer : Z; tombstone : bool }.

Record Cell := mkCell {
  count : Z;
  key_hash_xor : Z;
  version_xor : Z;
  writer_xor : Z;
  tombstone_xor : Z;
  checksum_xor : Z }.

Record Sketch := mkSketch { cells : list Cell }.

Record Diff := mkDiff { remote_only : list Item; local_only : list Item }.

Definition K_MAGIC : Z := 0x41454934.
Definition K_HASH_COUNT : nat := 3.
Definition K_MAX_CELLS : nat := 4096.
Definition K_DEFAULT_CELLS : nat := 64.
Definition K_CELL_BYTES : nat := 6 * 8.

Definition emptyCell : Cell := mkCell 0 0 0 0 0 0.

Definition bit (b : bool) : Z := if b then 1 else 0.

#[global] Instance Item_eq_dec : EqDecision Item.
Proof. solve_decision. Defined.

Section iblt.
Context (xxh3 : bytes → Z).

Definition itemChecksum (kh ver wr : Z) (tomb : bool) : Z :=
  xxh3 (le_encode 8 kh ++ le_encode 8 ver ++ le_encode 8 wr ++ le_encode 8 (bit tomb)).

(** The finalizer of splitmix64. *)
Definition mix (z : Z) : Z :=
  let z := Z.lxor z (Z.shiftr z 30) in
  let z := u64 (z * 0xBF58476D1CE4E5B9) in
  let z := Z.lxor z (Z.shiftr z 27) in
  let z := u64 (z * 0x94D049BB133111EB) in
  Z.lxor z (Z.shiftr z 31).

(** The next place that is not taken, around the table. *)
Fixpoint probe (fuel : nat) (taken : list nat) (n pos : nat) : option nat :=
  match fuel with
  | O => None
  | S fuel =>
      if decide (pos ∈ taken) then probe fuel taken n (if (S pos =? n)%nat then O else S pos)
      else Some pos
  end.

Fixpoint positions_from (k : nat) (hash : Z) (n : nat) (taken : list nat) : option (list nat) :=
  match k with
  | O => Some taken
  | S k =>
      let i := Z.of_nat (length taken) in
      let candidate := mix (u64 (hash + u64 ((i + 1) * 0x9E3779B97F4A7C15))) in
      p ← probe (S (length taken)) taken n (Z.to_nat (candidate mod Z.of_nat n));
      positions_from k hash n (taken ++ [p])
  end.

Definition positions (hash : Z) (n : nat) : option (list nat) :=
  if (n =? 0)%nat then None else positions_from K_HASH_COUNT hash n [].

Definition apply (sign : Z) (row : Item) (checksum : Z) (cell : Cell) : Cell :=
  mkCell (count cell + sign) (Z.lxor (key_hash_xor cell) (key_hash row)) (Z.lxor (version_xor cell) (version row))
    (Z.lxor (writer_xor cell) (writer row)) (Z.lxor (tombstone_xor cell) (bit (tombstone row)))
    (Z.lxor (checksum_xor cell) checksum).

Definition pure (cell : Cell) : bool :=
  if negb (count cell =? 1) && negb (count cell =? -1) then false
  else if negb (tombstone_xor cell =? 0) && negb (tombstone_xor cell =? 1) then false
  else checksum_xor cell =? itemChecksum (key_hash_xor cell) (version_xor cell) (writer_xor cell) (negb (tombstone_xor cell =? 0)).

Definition rowChecksum (row : Item) : Z := itemChecksum (key_hash row) (version row) (writer row) (tombstone row).

Definition insert (row : Item) (sketch : Sketch) : option Sketch :=
  let checksum := rowChecksum row in
  map ← positions checksum (length (cells sketch));
  Some (mkSketch (foldl (λ cs pos, alter (apply 1 row checksum) pos cs) (cells sketch) map)).

Fixpoint build_rows (rows : list Item) (sketch : Sketch) : option Sketch :=
  match rows with [] => Some sketch | row :: rows => sketch ← insert row sketch; build_rows rows sketch end.

(** The outer option is as above, the inner one the code's. *)
Definition build (rows : list Item) (cell_count : nat) : option (option Sketch) :=
  if (cell_count <? K_HASH_COUNT)%nat || (K_MAX_CELLS <? cell_count)%nat then Some None
  else s ← build_rows rows (mkSketch (replicate cell_count emptyCell)); Some (Some s).

(** ** The difference *)

Definition sub (remote local : Cell) : Cell :=
  mkCell (count remote - count local) (Z.lxor (key_hash_xor remote) (key_hash_xor local))
    (Z.lxor (version_xor remote) (version_xor local)) (Z.lxor (writer_xor remote) (writer_xor local))
    (Z.lxor (tombstone_xor remote) (tombstone_xor local)) (Z.lxor (checksum_xor remote) (checksum_xor local)).

Definition is_zero (c : Cell) : bool :=
  (count c =? 0) && (key_hash_xor c =? 0) && (version_xor c =? 0) && (writer_xor c =? 0) && (tombstone_xor c =? 0) &&
  (checksum_xor c =? 0).

(** The work of the loop: the table, what is queued behind the cursor, which
    cells are queued, how many rows were peeled, and the rows found. *)
Record Peel := mkPeel { pl_cells : list Cell; pl_queue : list nat; pl_queued : list bool; pl_peeled : nat; pl_diff : Diff }.

Definition peel_target (sign : Z) (row : Item) (checksum : Z) (st : Peel) (target : nat) : Peel :=
  let cs := alter (apply sign row checksum) target (pl_cells st) in
  if negb (default true (pl_queued st !! target)) && default false (pure <$> cs !! target) then
    mkPeel cs (pl_queue st ++ [target]) (<[target := true]> (pl_queued st)) (pl_peeled st) (pl_diff st)
  else mkPeel cs (pl_queue st) (pl_queued st) (pl_peeled st) (pl_diff st).

(** [None]: out of fuel; [Some None]: over the budget. *)
Fixpoint peel_loop (fuel : nat) (st : Peel) : option (option Peel) :=
  match fuel with
  | O => None
  | S fuel =>
      match pl_queue st with
      | [] => Some (Some st)
      | pos :: queue =>
          cell ← pl_cells st !! pos;
          let queued := <[pos := false]> (pl_queued st) in
          if negb (pure cell) then peel_loop fuel (mkPeel (pl_cells st) queue queued (pl_peeled st) (pl_diff st))
          else if (K_HASH_COUNT * length (pl_cells st) <? S (pl_peeled st))%nat then Some None
          else
            let row := mkItem (key_hash_xor cell) (version_xor cell) (writer_xor cell) (negb (tombstone_xor cell =? 0)) in
            let is_remote := count cell =? 1 in
            let d := pl_diff st in
            let d := if is_remote then mkDiff (remote_only d ++ [row]) (local_only d) else mkDiff (remote_only d) (local_only d ++ [row]) in
            let checksum := rowChecksum row in
            map ← positions checksum (length (pl_cells st));
            peel_loop fuel (foldl (peel_target (if is_remote then -1 else 1) row checksum)
              (mkPeel (pl_cells st) queue queued (S (pl_peeled st)) d) map)
      end
  end.

Definition pure_cells (cs : list Cell) : list nat :=
  filter (λ i, default false (pure <$> cs !! i) = true) (seq 0 (length cs)).

(** Enough for every queue the budget allows. *)
Definition peel_fuel (n : nat) : nat := S (n + K_HASH_COUNT * (K_HASH_COUNT * n)).

Definition difference (remote local : Sketch) : option (option Diff) :=
  let n := length (cells remote) in
  if negb (n =? length (cells local))%nat || (n <? K_HASH_COUNT)%nat || (K_MAX_CELLS <? n)%nat then Some None
  else
    let delta := zip_with sub (cells remote) (cells local) in
    let st := mkPeel delta (pure_cells delta) (pure <$> delta) 0 (mkDiff [] []) in
    r ← peel_loop (peel_fuel n) st;
    match r with
    | None => Some None
    | Some st => Some (if forallb is_zero (pl_cells st) then Some (pl_diff st) else None)
    end.

End iblt.

(** ** The wire *)

Definition encodeCell (c : Cell) (w : BufferWriter.t) : option BufferWriter.t :=
  w ← BufferWriter.write 8 (u64 (count c)) w;
  w ← BufferWriter.write 8 (key_hash_xor c) w;
  w ← BufferWriter.write 8 (version_xor c) w;
  w ← BufferWriter.write 8 (writer_xor c) w;
  w ← BufferWriter.write 8 (tombstone_xor c) w;
  BufferWriter.write 8 (checksum_xor c) w.

Fixpoint encodeCells (cs : list Cell) (w : BufferWriter.t) : option BufferWriter.t :=
  match cs with [] => Some w | c :: cs => w ← encodeCell c w; encodeCells cs w end.

(** [None] is a write past the buffer. *)
Definition encode (sketch : Sketch) : option bytes :=
  let n := length (cells sketch) in
  if (n <? K_HASH_COUNT)%nat || (K_MAX_CELLS <? n)%nat then Some []
  else
    let w := BufferWriter.make (replicate (2 * 4 + n * K_CELL_BYTES) x00) in
    w ← BufferWriter.write 4 K_MAGIC w;
    w ← BufferWriter.write 4 (wrap 32 (Z.of_nat n)) w;
    w ← encodeCells (cells sketch) w;
    Some (ByteWriter.out w).

(** [std::bit_cast<int64_t>] *)
Definition i64 (z : Z) : Z := if z <? 2 ^ 63 then z else z - 2 ^ 64.

Definition decodeCell (r : BufferReader.t) : option (Cell * BufferReader.t) :=
  '(count_bits, r) ← BufferReader.read 8 r;
  '(kh, r) ← BufferReader.read 8 r;
  '(ver, r) ← BufferReader.read 8 r;
  '(wr, r) ← BufferReader.read 8 r;
  '(tomb, r) ← BufferReader.read 8 r;
  '(sum, r) ← BufferReader.read 8 r;
  if (count_bits <? 2 ^ 63) && (count_bits >? 2 ^ 40) then None
  else if (count_bits >=? 2 ^ 63) && (2 ^ 64 - 1 - count_bits >=? 2 ^ 40) then None
  else Some (mkCell (i64 count_bits) kh ver wr tomb sum, r).

Fixpoint decodeCells (n : nat) (r : BufferReader.t) : option (list Cell * BufferReader.t) :=
  match n with
  | O => Some ([], r)
  | S n =>
      '(c, r) ← decodeCell r;
      '(cs, r) ← decodeCells n r;
      Some (c :: cs, r)
  end.

Definition decode (data : bytes) : option Sketch :=
  '(magic, r) ← BufferReader.read 4 (BufferReader.make data);
  if negb (magic =? K_MAGIC) then None
  else
    '(n, r) ← BufferReader.read 4 r;
    if (n <? Z.of_nat K_HASH_COUNT) || (n >? Z.of_nat K_MAX_CELLS) ||
       negb (Z.of_nat (BufferReader.remaining r) =? n * Z.of_nat K_CELL_BYTES) then None
    else
      '(cs, _) ← decodeCells (Z.to_nat n) r;
      Some (mkSketch cs).

End iblt.

(** ** Where a row goes *)

Lemma probe_spec taken n pos :
  (3 <= n)%nat → (length taken < 3)%nat → (pos < n)%nat →
  ∃ p, iblt.probe (S (length taken)) taken n pos = Some p ∧ (p < n)%nat ∧ p ∉ taken.
Proof.
  intros Hn Ht Hp.
  assert (∀ q, (q < n)%nat → ((if (S q =? n)%nat then O else S q) < n)%nat) as Hs
    by (intros q ?; destruct (Nat.eqb_spec (S q) n); lia).
  assert (∀ q, q = (if (S q =? n)%nat then O else S q) → False) as Hd1
    by (intros q; destruct (Nat.eqb_spec (S q) n); lia).
  destruct taken as [|a [|b [|c l]]]; cbn [length iblt.probe] in Ht |- *; [| | |lia].
  - rewrite decide_False by apply not_elem_of_nil. eexists. split_and!; [done|done|apply not_elem_of_nil].
  - destruct (decide (pos ∈ [a])) as [Hin|Hin]; [|eauto].
    apply list_elem_of_singleton in Hin as ->.
    rewrite decide_False; [|rewrite list_elem_of_singleton; intros E; by apply (Hd1 a)].
    eexists. split_and!; [done|auto|]. rewrite list_elem_of_singleton. intros E. by apply (Hd1 a).
  - destruct (decide (pos ∈ [a; b])) as [Hin|Hin]; [|eauto].
    set (q := if (S pos =? n)%nat then O else S pos). assert (q < n)%nat as Hq by (by apply Hs).
    destruct (decide (q ∈ [a; b])) as [Hin'|Hin']; [|eauto].
    set (r := if (S q =? n)%nat then O else S q). assert (r < n)%nat as Hr by (by apply Hs).
    destruct (decide (r ∈ [a; b])) as [Hr'|Hr']; [exfalso|eauto]. unfold q, r in *. clear Hs Hd1.
    rewrite elem_of_cons, list_elem_of_singleton in Hin, Hin', Hr'.
    repeat match goal with |- context [Nat.eqb ?x ?y] => destruct (Nat.eqb_spec x y) | H : context [Nat.eqb ?x ?y] |- _ => destruct (Nat.eqb_spec x y) end; lia.
Qed.

Lemma positions_from_spec k hash n taken :
  (3 <= n)%nat → (k + length taken <= 3)%nat → NoDup taken → Forall (λ p, p < n)%nat taken →
  ∃ ps, iblt.positions_from k hash n taken = Some ps ∧ NoDup ps ∧ Forall (λ p, p < n)%nat ps ∧ length ps = (k + length taken)%nat.
Proof.
  intros Hn. revert taken. induction k as [|k IH]; intros taken Hk Hnd Hlt; cbn [iblt.positions_from]; [eauto|].
  destruct (probe_spec taken n (Z.to_nat (iblt.mix (u64 (hash + u64 ((Z.of_nat (length taken) + 1) * 0x9E3779B97F4A7C15)))
    mod Z.of_nat n))) as (p & -> & Hp & Hnin); [done|lia| |].
  { pose proof (Z.mod_pos_bound (iblt.mix (u64 (hash + u64 ((Z.of_nat (length taken) + 1) * 0x9E3779B97F4A7C15)))) (Z.of_nat n)). lia. }
  cbn [mbind option_bind]. destruct (IH (taken ++ [p])) as (ps & -> & H1 & H2 & H3).
  - rewrite length_app. simpl. lia.
  - apply NoDup_app. split_and!; [done|intros x Hx Hx'; apply list_elem_of_singleton in Hx' as ->; done|apply NoDup_singleton].
  - apply Forall_app. split; [done|]. by constructor.
  - exists ps. rewrite length_app in H3. simpl in H3. split_and!; [done..|lia].
Qed.

(** Three different cells of the table, whatever the hash. *)
Lemma positions_spec hash n :
  (3 <= n)%nat → ∃ ps, iblt.positions hash n = Some ps ∧ NoDup ps ∧ Forall (λ p, p < n)%nat ps ∧ length ps = 3%nat.
Proof.
  intros Hn. unfold iblt.positions. destruct (Nat.eqb_spec n 0); [lia|].
  apply positions_from_spec; [done|simpl; unfold iblt.K_HASH_COUNT; lia|constructor|constructor].
Qed.

(** ** Cells are a group, a table the sum of its rows *)

Section sums.
Context (xxh3 : bytes → Z).
Implicit Types (c d : iblt.Cell) (cs : list iblt.Cell) (s : Z) (x : iblt.Item) (D : list (Z * iblt.Item)).

Definition places (n : nat) (x : iblt.Item) : list nat := default [] (iblt.positions (iblt.rowChecksum xxh3 x) n).

Definition contrib (n : nat) (y : Z * iblt.Item) (i : nat) (c : iblt.Cell) : iblt.Cell :=
  if decide (i ∈ places n y.2) then iblt.apply y.1 y.2 (iblt.rowChecksum xxh3 y.2) c else c.

(** The cell [i] with the signed rows [D] on top. *)
Definition total (n : nat) (D : list (Z * iblt.Item)) (i : nat) (c : iblt.Cell) : iblt.Cell :=
  foldr (λ y, contrib n y i) c D.

Definition plus (cs : list iblt.Cell) (D : list (Z * iblt.Item)) : list iblt.Cell := imap (total (length cs) D) cs.

Lemma apply_comm s x k s' x' k' c : iblt.apply s x k (iblt.apply s' x' k' c) = iblt.apply s' x' k' (iblt.apply s x k c).
Proof. unfold iblt.apply. simpl. f_equal; [lia|..]; rewrite !Z.lxor_assoc; f_equal; apply Z.lxor_comm. Qed.

Lemma apply_inv s x k c : iblt.apply (- s) x k (iblt.apply s x k c) = c.
Proof.
  destruct c. unfold iblt.apply. simpl. f_equal; [lia|..]; by rewrite Z.lxor_assoc, Z.lxor_nilpotent, Z.lxor_0_r.
Qed.

Lemma sub_apply s x k c d : iblt.sub (iblt.apply s x k c) d = iblt.apply s x k (iblt.sub c d).
Proof. unfold iblt.apply, iblt.sub. simpl. f_equal; [lia|..]; rewrite !Z.lxor_assoc; f_equal; apply Z.lxor_comm. Qed.

Lemma sub_apply_r s x k c d : iblt.sub c (iblt.apply s x k d) = iblt.apply (- s) x k (iblt.sub c d).
Proof. unfold iblt.apply, iblt.sub. simpl. f_equal; [lia|..]; by rewrite !Z.lxor_assoc. Qed.

Lemma contrib_comm n y z i c : contrib n y i (contrib n z i c) = contrib n z i (contrib n y i c).
Proof. unfold contrib. repeat case_decide; try done. apply apply_comm. Qed.

Lemma contrib_inv n s x i c : contrib n (- s, x) i (contrib n (s, x) i c) = c.
Proof. unfold contrib. simpl. case_decide; [apply apply_inv|done]. Qed.

Lemma total_perm n D D' i c : D ≡ₚ D' → total n D i c = total n D' i c.
Proof. induction 1; simpl; [done|by f_equal|apply contrib_comm|congruence]. Qed.

Lemma total_app n D D' i c : total n (D ++ D') i c = total n D i (total n D' i c).
Proof. apply foldr_app. Qed.

Lemma plus_length cs D : length (plus cs D) = length cs.
Proof. apply length_imap. Qed.

Lemma lookup_plus cs D i : plus cs D !! i = total (length cs) D i <$> cs !! i.
Proof. apply list_lookup_imap. Qed.

Lemma plus_perm cs D D' : D ≡ₚ D' → plus cs D = plus cs D'.
Proof. intros HD. apply imap_ext. intros i c _. by apply total_perm. Qed.

Lemma plus_app cs D D' : plus cs (D ++ D') = plus (plus cs D') D.
Proof. apply list_eq. intros i. rewrite !lookup_plus, plus_length. destruct (cs !! i); simpl; [|done]. by rewrite total_app. Qed.

Lemma plus_nil cs : plus cs [] = cs.
Proof. apply list_eq. intros i. rewrite lookup_plus. by destruct (cs !! i). Qed.

Lemma plus_cancel cs s x D : plus cs ((- s, x) :: (s, x) :: D) = plus cs D.
Proof. apply list_eq. intros i. rewrite !lookup_plus. destruct (cs !! i); simpl; [|done]. by rewrite contrib_inv. Qed.

(** Updating the cells a row maps to adds the row. *)
Lemma alters_lookup {A} (f : A → A) (ps : list nat) (l : list A) i :
  NoDup ps → foldl (λ l p, alter f p l) l ps !! i = (if decide (i ∈ ps) then f else id) <$> l !! i.
Proof.
  intros Hnd. revert l. induction ps as [|p ps IH]; intros l; cbn [foldl].
  { rewrite decide_False by apply not_elem_of_nil. by destruct (l !! i). }
  apply NoDup_cons in Hnd as [Hp Hnd]. rewrite IH by done.
  destruct (decide (i = p)) as [->|Hne].
  - rewrite list_lookup_alter_eq, decide_False, decide_True by (done || apply list_elem_of_here). by destruct (l !! p).
  - rewrite list_lookup_alter_ne by done. f_equal.
    destruct (decide (i ∈ ps)); [rewrite decide_True by (by constructor)|rewrite decide_False by (rewrite elem_of_cons; tauto)]; done.
Qed.

Lemma places_spec n x :
  (3 <= n)%nat → iblt.positions (iblt.rowChecksum xxh3 x) n = Some (places n x) ∧ NoDup (places n x) ∧
  Forall (λ p, p < n)%nat (places n x) ∧ length (places n x) = 3%nat.
Proof.
  intros Hn. unfold places. destruct (positions_spec (iblt.rowChecksum xxh3 x) n Hn) as (ps & -> & H1 & H2 & H3). done.
Qed.

Lemma alters_plus cs s x :
  (3 <= length cs)%nat →
  foldl (λ cs p, alter (iblt.apply s x (iblt.rowChecksum xxh3 x)) p cs) cs (places (length cs) x) = plus cs [(s, x)].
Proof.
  intros Hn. apply list_eq. intros i. rewrite alters_lookup by (by apply places_spec). rewrite lookup_plus.
  destruct (cs !! i); simpl; [|done]. unfold contrib. simpl. by case_decide.
Qed.

Lemma insert_plus x cs :
  (3 <= length cs)%nat → iblt.insert xxh3 x (iblt.mkSketch cs) = Some (iblt.mkSketch (plus cs [(1, x)])).
Proof.
  intros Hn. unfold iblt.insert. cbn [iblt.cells]. destruct (places_spec (length cs) x Hn) as [-> _].
  cbn [mbind option_bind]. by rewrite alters_plus.
Qed.

Definition signed (s : Z) (rows : list iblt.Item) : list (Z * iblt.Item) := (λ x, (s, x)) <$> rows.

Lemma build_rows_plus rows cs :
  (3 <= length cs)%nat → iblt.build_rows xxh3 rows (iblt.mkSketch cs) = Some (iblt.mkSketch (plus cs (signed 1 rows))).
Proof.
  revert cs. induction rows as [|x rows IH]; intros cs Hn; cbn [iblt.build_rows]; [by rewrite plus_nil|].
  rewrite insert_plus by done. cbn [mbind option_bind]. rewrite IH by (by rewrite plus_length).
  rewrite <- plus_app. do 2 f_equal. apply plus_perm. cbn. apply Permutation_sym, Permutation_cons_append.
Qed.

Lemma build_plus rows n :
  (3 <= n <= 4096)%nat →
  iblt.build xxh3 rows n = Some (Some (iblt.mkSketch (plus (replicate n iblt.emptyCell) (signed 1 rows)))).
Proof.
  intros Hn. unfold iblt.build, iblt.K_HASH_COUNT, iblt.K_MAX_CELLS.
  destruct (Nat.ltb_spec n 3), (Nat.ltb_spec 4096 n); try lia. simpl.
  by rewrite build_rows_plus by (by rewrite length_replicate).
Qed.

(** ** The peeling loop *)

Definition found (st : iblt.Peel) : list (Z * iblt.Item) :=
  signed 1 (iblt.remote_only (iblt.pl_diff st)) ++ signed (-1) (iblt.local_only (iblt.pl_diff st)).

Definition queue_ok (st : iblt.Peel) : Prop :=
  length (iblt.pl_queued st) = length (iblt.pl_cells st) ∧
  Forall (λ i, i < length (iblt.pl_cells st))%nat (iblt.pl_queue st).

(** The pure cells wait in the queue, those of [out] apart. *)
Definition pure_queued (out : list nat) (st : iblt.Peel) : Prop :=
  (∀ i, iblt.pl_queued st !! i = Some true → i ∈ iblt.pl_queue st) ∧
  (∀ i c, iblt.pl_cells st !! i = Some c → iblt.pure xxh3 c = true → i ∉ out → iblt.pl_queued st !! i = Some true).

Definition budget_left (st : iblt.Peel) : nat :=
  (length (iblt.pl_queue st) + 3 * (3 * length (iblt.pl_cells st) - iblt.pl_peeled st))%nat.

Lemma peel_target_shape s x k st p :
  queue_ok st → (p < length (iblt.pl_cells st))%nat →
  let st' := iblt.peel_target xxh3 s x k st p in
  iblt.pl_cells st' = alter (iblt.apply s x k) p (iblt.pl_cells st) ∧ iblt.pl_peeled st' = iblt.pl_peeled st ∧
  iblt.pl_diff st' = iblt.pl_diff st ∧ queue_ok st' ∧
  (length (iblt.pl_queue st') <= S (length (iblt.pl_queue st)))%nat.
Proof.
  intros [Hq Hf] Hp. unfold iblt.peel_target, queue_ok. destruct (_ && _); simpl; rewrite ?length_insert, length_alter;
    (split_and!; try done; [..|try lia]); rewrite ?length_app; simpl; try lia.
  apply Forall_app. split; [done|]. by constructor.
Qed.

Lemma peel_target_queued s x k st p out :
  queue_ok st → (p < length (iblt.pl_cells st))%nat →
  pure_queued (p :: out) st → pure_queued out (iblt.peel_target xxh3 s x k st p).
Proof.
  intros [Hq _] Hp [Hb Hc]. unfold iblt.peel_target, pure_queued.
  destruct (lookup_lt_is_Some_2 (iblt.pl_queued st) p) as [b Eb]; [lia|]. rewrite Eb.
  destruct (lookup_lt_is_Some_2 (iblt.pl_cells st) p) as [c Ec]; [done|].
  rewrite list_lookup_alter_eq, Ec. cbn [fmap option_fmap option_map default from_option id].
  destruct (negb b && iblt.pure xxh3 (iblt.apply s x k c)) eqn:E; cbn [iblt.pl_queued iblt.pl_queue iblt.pl_cells]; split.
  - intros i Hi. apply elem_of_app. destruct (decide (i = p)) as [->|Hne]; [right; apply list_elem_of_here|].
    rewrite list_lookup_insert_ne in Hi by done. left. auto.
  - intros i c' Hi Hpc Ho. destruct (decide (i = p)) as [->|Hne]; [rewrite list_lookup_insert_eq by lia; done|].
    rewrite list_lookup_insert_ne by done. rewrite list_lookup_alter_ne in Hi by done. apply (Hc i c'); [done..|].
    rewrite elem_of_cons. tauto.
  - auto.
  - intros i c' Hi Hpc Ho. destruct (decide (i = p)) as [->|Hne].
    + rewrite list_lookup_alter_eq, Ec in Hi. injection Hi as <-. rewrite Hpc, andb_true_r in E. by destruct b.
    + rewrite list_lookup_alter_ne in Hi by done. apply (Hc i c'); [done..|]. rewrite elem_of_cons. tauto.
Qed.

Lemma peel_targets_shape s x k ps st :
  queue_ok st → Forall (λ p, p < length (iblt.pl_cells st))%nat ps →
  let st' := foldl (iblt.peel_target xxh3 s x k) st ps in
  iblt.pl_cells st' = foldl (λ cs p, alter (iblt.apply s x k) p cs) (iblt.pl_cells st) ps ∧
  iblt.pl_peeled st' = iblt.pl_peeled st ∧ iblt.pl_diff st' = iblt.pl_diff st ∧ queue_ok st' ∧
  (length (iblt.pl_queue st') <= length ps + length (iblt.pl_queue st))%nat.
Proof.
  revert st. induction ps as [|p ps IH]; intros st Hq Hps; cbn [foldl]; [split_and!; done || lia|].
  apply Forall_cons in Hps as [Hp Hps]. destruct (peel_target_shape s x k st p Hq Hp) as (E1 & E2 & E3 & Hq' & Hl).
  destruct (IH (iblt.peel_target xxh3 s x k st p)) as (F1 & F2 & F3 & F4 & F5); [done|by rewrite E1, length_alter|].
  rewrite F1, F2, F3, E1, E2, E3. split_and!; [done..|]. simpl. lia.
Qed.

Lemma peel_targets_queued s x k ps st out :
  queue_ok st → Forall (λ p, p < length (iblt.pl_cells st))%nat ps →
  pure_queued (ps ++ out) st → pure_queued out (foldl (iblt.peel_target xxh3 s x k) st ps).
Proof.
  revert st. induction ps as [|p ps IH]; intros st Hq Hps Hpq; cbn [foldl]; [done|].
  apply Forall_cons in Hps as [Hp Hps]. destruct (peel_target_shape s x k st p Hq Hp) as (E1 & E2 & E3 & Hq' & Hl).
  apply IH; [done|by rewrite E1, length_alter|]. by apply peel_target_queued.
Qed.

(** What one turn of the loop on a pure cell leaves. *)
Definition row_of (c : iblt.Cell) : iblt.Item :=
  iblt.mkItem (iblt.key_hash_xor c) (iblt.version_xor c) (iblt.writer_xor c) (negb (iblt.tombstone_xor c =? 0)).

Definition note (remote : bool) (x : iblt.Item) (d : iblt.Diff) : iblt.Diff :=
  if remote then iblt.mkDiff (iblt.remote_only d ++ [x]) (iblt.local_only d)
  else iblt.mkDiff (iblt.remote_only d) (iblt.local_only d ++ [x]).

Definition peeled_state (st : iblt.Peel) (pos : nat) (queue : list nat) (c : iblt.Cell) : iblt.Peel :=
  foldl (iblt.peel_target xxh3 (if iblt.count c =? 1 then -1 else 1) (row_of c) (iblt.rowChecksum xxh3 (row_of c)))
    (iblt.mkPeel (iblt.pl_cells st) queue (<[pos := false]> (iblt.pl_queued st)) (S (iblt.pl_peeled st))
      (note (iblt.count c =? 1) (row_of c) (iblt.pl_diff st)))
    (places (length (iblt.pl_cells st)) (row_of c)).

Definition skipped_state (st : iblt.Peel) (pos : nat) (queue : list nat) : iblt.Peel :=
  iblt.mkPeel (iblt.pl_cells st) queue (<[pos := false]> (iblt.pl_queued st)) (iblt.pl_peeled st) (iblt.pl_diff st).

Lemma peel_loop_unfold fuel st pos queue :
  queue_ok st → (3 <= length (iblt.pl_cells st))%nat → iblt.pl_queue st = pos :: queue →
  ∃ c, iblt.pl_cells st !! pos = Some c ∧
  iblt.peel_loop xxh3 (S fuel) st =
    if iblt.pure xxh3 c then
      if (3 * length (iblt.pl_cells st) <? S (iblt.pl_peeled st))%nat then Some None
      else iblt.peel_loop xxh3 fuel (peeled_state st pos queue c)
    else iblt.peel_loop xxh3 fuel (skipped_state st pos queue).
Proof.
  intros [_ Hf] Hn Eq. rewrite Eq in Hf. apply Forall_cons in Hf as [Hp Hf].
  destruct (lookup_lt_is_Some_2 (iblt.pl_cells st) pos) as [c Ec]; [done|]. exists c. split; [done|].
  cbn [iblt.peel_loop]. rewrite Eq, Ec. cbn [mbind option_bind].
  destruct (iblt.pure xxh3 c); cbn [negb]; [|done]. unfold iblt.K_HASH_COUNT.
  destruct (_ <? _)%nat; [done|]. unfold peeled_state, row_of, note.
  destruct (places_spec (length (iblt.pl_cells st))
    (iblt.mkItem (iblt.key_hash_xor c) (iblt.version_xor c) (iblt.writer_xor c) (negb (iblt.tombstone_xor c =? 0))) Hn) as [-> _].
  by destruct (iblt.count c =? 1).
Qed.

Lemma peeled_spec st pos queue c :
  queue_ok st → (3 <= length (iblt.pl_cells st))%nat → iblt.pl_queue st = pos :: queue →
  let st' := peeled_state st pos queue c in
  iblt.pl_cells st' = plus (iblt.pl_cells st) [(if iblt.count c =? 1 then -1 else 1, row_of c)] ∧
  iblt.pl_peeled st' = S (iblt.pl_peeled st) ∧ iblt.pl_diff st' = note (iblt.count c =? 1) (row_of c) (iblt.pl_diff st) ∧
  queue_ok st' ∧ (length (iblt.pl_queue st') <= 3 + length queue)%nat.
Proof.
  intros [Hq Hf] Hn Eq. rewrite Eq in Hf. apply Forall_cons in Hf as [Hp Hf].
  destruct (places_spec (length (iblt.pl_cells st)) (row_of c) Hn) as (_ & _ & Hr & Hl).
  destruct (peel_targets_shape (if iblt.count c =? 1 then -1 else 1) (row_of c) (iblt.rowChecksum xxh3 (row_of c))
    (places (length (iblt.pl_cells st)) (row_of c))
    (iblt.mkPeel (iblt.pl_cells st) queue (<[pos := false]> (iblt.pl_queued st)) (S (iblt.pl_peeled st))
      (note (iblt.count c =? 1) (row_of c) (iblt.pl_diff st)))) as (E1 & E2 & E3 & E4 & E5).
  { split; simpl; [by rewrite length_insert|done]. }
  { done. }
  fold (peeled_state st pos queue c) in E1, E2, E3, E4, E5. simpl in E1, E2, E3, E5.
  cbv zeta. rewrite E1, E2, E3. split_and!; [by apply alters_plus|done|done|done|lia].
Qed.

Lemma skipped_ok st pos queue : queue_ok st → iblt.pl_queue st = pos :: queue → queue_ok (skipped_state st pos queue).
Proof.
  intros [Hq Hf] Eq. rewrite Eq in Hf. apply Forall_cons in Hf as [Hp Hf].
  split; simpl; [by rewrite length_insert|done].
Qed.

(** Induction along the loop, for states whose fuel is enough. *)
Lemma peel_loop_ind (P : iblt.Peel → option iblt.Peel → Prop) (I : iblt.Peel → Prop) :
  (∀ st, I st → queue_ok st → iblt.pl_queue st = [] → P st (Some st)) →
  (∀ st pos c, I st → queue_ok st → iblt.pl_cells st !! pos = Some c → iblt.pure xxh3 c = true →
     (3 * length (iblt.pl_cells st) < S (iblt.pl_peeled st))%nat → P st None) →
  (∀ st pos queue c, I st → queue_ok st → iblt.pl_queue st = pos :: queue → iblt.pl_cells st !! pos = Some c →
     iblt.pure xxh3 c = false → I (skipped_state st pos queue) ∧ ∀ r, P (skipped_state st pos queue) r → P st r) →
  (∀ st pos queue c, I st → queue_ok st → (3 <= length (iblt.pl_cells st))%nat → iblt.pl_queue st = pos :: queue →
     iblt.pl_cells st !! pos = Some c → iblt.pure xxh3 c = true →
     I (peeled_state st pos queue c) ∧ ∀ r, P (peeled_state st pos queue c) r → P st r) →
  ∀ fuel st, I st → queue_ok st → (3 <= length (iblt.pl_cells st))%nat → (budget_left st < fuel)%nat →
  ∃ r, iblt.peel_loop xxh3 fuel st = Some r ∧ P st r.
Proof.
  intros Hdone Hbudget Hskip Hpeel. induction fuel as [|fuel IH]; intros st Hi Hq Hn Hf; [lia|].
  destruct (iblt.pl_queue st) as [|pos queue] eqn:Eq.
  { exists (Some st). split; [by simpl; rewrite Eq|auto]. }
  destruct (peel_loop_unfold fuel st pos queue Hq Hn Eq) as (c & Ec & ->).
  unfold budget_left in Hf, IH. rewrite Eq in Hf. cbn [length] in Hf.
  destruct (iblt.pure xxh3 c) eqn:Ep.
  - destruct (Nat.ltb_spec (3 * length (iblt.pl_cells st)) (S (iblt.pl_peeled st))) as [Hb|Hb].
    { exists None. split; [done|]. by apply (Hbudget st pos c). }
    destruct (peeled_spec st pos queue c Hq Hn Eq) as (E1 & E2 & E3 & E4 & E5).
    destruct (Hpeel st pos queue c) as [Hi' Hp]; [done..|].
    destruct (IH (peeled_state st pos queue c)) as (r & -> & Hr); [done|done|by rewrite E1, plus_length|rewrite E1, E2, plus_length; lia|].
    eauto.
  - destruct (Hskip st pos queue c) as [Hi' Hp]; [done..|].
    destruct (IH (skipped_state st pos queue)) as (r & -> & Hr); [done|by apply skipped_ok|done|simpl; lia|]. eauto.
Qed.

Lemma found_note remote x (d : iblt.Diff) :
  signed 1 (iblt.remote_only (note remote x d)) ++ signed (-1) (iblt.local_only (note remote x d)) ≡ₚ
  (if remote then 1 else -1, x) :: signed 1 (iblt.remote_only d) ++ signed (-1) (iblt.local_only d).
Proof.
  unfold note, signed. destruct remote; simpl; rewrite fmap_app; simpl.
  - rewrite <- app_assoc. simpl. symmetry. apply Permutation_middle.
  - rewrite app_assoc. symmetry. apply Permutation_cons_append.
Qed.

Lemma found_peeled st pos queue c :
  queue_ok st → (3 <= length (iblt.pl_cells st))%nat → iblt.pl_queue st = pos :: queue →
  found (peeled_state st pos queue c) ≡ₚ (if iblt.count c =? 1 then 1 else -1, row_of c) :: found st.
Proof.
  intros Hq Hn Eq. unfold found at 1. destruct (peeled_spec st pos queue c Hq Hn Eq) as (_ & _ & -> & _).
  apply found_note.
Qed.

Lemma opposite (b : bool) : (if b then -1 else 1) = - (if b then 1 else -1).
Proof. by destruct b. Qed.

(** The rows found, put back, give the table the loop began with. *)
Lemma peel_loop_sound fuel st :
  queue_ok st → (3 <= length (iblt.pl_cells st))%nat → (budget_left st < fuel)%nat →
  ∃ r, iblt.peel_loop xxh3 fuel st = Some r ∧
  ∀ st', r = Some st' → length (iblt.pl_cells st') = length (iblt.pl_cells st) ∧
    plus (iblt.pl_cells st') (found st') = plus (iblt.pl_cells st) (found st).
Proof.
  apply (peel_loop_ind (λ st r, ∀ st', r = Some st' → length (iblt.pl_cells st') = length (iblt.pl_cells st) ∧
    plus (iblt.pl_cells st') (found st') = plus (iblt.pl_cells st) (found st)) (λ _, True)); [..|done].
  - intros ? _ _ _ st' [= ->]. done.
  - done.
  - intros. split; [done|]. auto.
  - intros s pos queue c _ Hq Hn Eq _ _. split; [done|]. intros r H st' Hr. destruct (H st' Hr) as [Hl ->].
    rewrite (plus_perm _ _ _ (found_peeled s pos queue c Hq Hn Eq)).
    destruct (peeled_spec s pos queue c Hq Hn Eq) as (E & _). rewrite E, plus_length in Hl. rewrite E.
    split; [done|]. rewrite <- plus_app, opposite.
    rewrite (plus_perm _ _ _ (Permutation_sym (Permutation_cons_append _ _))). apply plus_cancel.
Qed.

Lemma start_ok cs : queue_ok (iblt.mkPeel cs (iblt.pure_cells xxh3 cs) (iblt.pure xxh3 <$> cs) 0 (iblt.mkDiff [] [])).
Proof.
  split; simpl; [apply length_fmap|]. apply Forall_forall. intros i [_ Hi]%list_elem_of_filter.
  apply elem_of_seq in Hi. lia.
Qed.

Lemma start_budget cs :
  (budget_left (iblt.mkPeel cs (iblt.pure_cells xxh3 cs) (iblt.pure xxh3 <$> cs) 0 (iblt.mkDiff [] [])) <
   iblt.peel_fuel (length cs))%nat.
Proof.
  unfold budget_left, iblt.peel_fuel, iblt.K_HASH_COUNT. simpl.
  pose proof (length_filter (λ i, default false (iblt.pure xxh3 <$> cs !! i) = true) (seq 0 (length cs))) as H.
  rewrite length_seq in H. unfold iblt.pure_cells. lia.
Qed.

Lemma start_queued cs :
  pure_queued [] (iblt.mkPeel cs (iblt.pure_cells xxh3 cs) (iblt.pure xxh3 <$> cs) 0 (iblt.mkDiff [] [])).
Proof.
  split; simpl.
  - intros i Hi. rewrite list_lookup_fmap in Hi. apply list_elem_of_filter. rewrite Hi. split; [done|].
    apply elem_of_seq. split; [lia|]. destruct (cs !! i) eqn:E; [|done]. apply lookup_lt_Some in E. lia.
  - intros i c Hi Hp _. by rewrite list_lookup_fmap, Hi; simpl; rewrite Hp.
Qed.

Lemma zero_cell c : iblt.is_zero c = true → c = iblt.emptyCell.
Proof. destruct c. unfold iblt.is_zero. simpl. rewrite !andb_true_iff, !Z.eqb_eq. intros; destruct_and!. by subst. Qed.

Lemma zero_cells cs : forallb iblt.is_zero cs = true → cs = replicate (length cs) iblt.emptyCell.
Proof.
  intros H. rewrite forallb_forall in H. apply list_eq_Forall2, Forall2_same_length_lookup. split; [by rewrite length_replicate|].
  intros i c d Hc Hd. apply lookup_replicate in Hd as [-> _]. apply zero_cell, H, list_elem_of_In. by eapply list_elem_of_lookup_2.
Qed.

(** ** Exactness *)

Definition at_cell (n i : nat) (D : list (Z * iblt.Item)) : list (Z * iblt.Item) := filter (λ y, i ∈ places n y.2) D.

Lemma total_at n D i c : total n D i c = total n (at_cell n i D) i c.
Proof.
  unfold at_cell. induction D as [|y D IH]; [done|]. cbn [total foldr]. rewrite filter_cons. fold (total n D i c). rewrite IH.
  destruct (decide (i ∈ places n y.2)) as [Hi|Hi]; [done|]. unfold contrib. by rewrite decide_False.
Qed.

Lemma lone_cell n D i s x : at_cell n i D = [(s, x)] → total n D i iblt.emptyCell = iblt.apply s x (iblt.rowChecksum xxh3 x) iblt.emptyCell.
Proof.
  intros E. rewrite total_at, E. simpl. unfold contrib. simpl. rewrite decide_True; [done|].
  assert ((s, x) ∈ at_cell n i D) as [H _]%list_elem_of_filter by (rewrite E; apply list_elem_of_here). done.
Qed.

Lemma lone_fields s x :
  let c := iblt.apply s x (iblt.rowChecksum xxh3 x) iblt.emptyCell in row_of c = x ∧ iblt.count c = s.
Proof. destruct x as [kh v w []]; cbn; split; done. Qed.

Lemma lone_pure s x : s = 1 ∨ s = -1 → iblt.pure xxh3 (iblt.apply s x (iblt.rowChecksum xxh3 x) iblt.emptyCell) = true.
Proof. intros [-> | ->]; destruct x as [kh v w []]; unfold iblt.pure, iblt.rowChecksum; simpl; apply Z.eqb_refl. Qed.

(** ** Tables as differences *)

Lemma total_sub n D i c d : iblt.sub (total n D i c) d = total n D i (iblt.sub c d).
Proof.
  induction D as [|y D IH]; [done|]. cbn [total foldr]. fold (total n D i c) (total n D i (iblt.sub c d)). rewrite <- IH.
  unfold contrib. case_decide; [apply sub_apply|done].
Qed.

Lemma total_sub_r n s rows i c d : iblt.sub c (total n (signed s rows) i d) = total n (signed (- s) rows) i (iblt.sub c d).
Proof.
  induction rows as [|x rows IH]; [done|]. cbn [signed fmap list_fmap total foldr]. fold (signed s rows) (signed (- s) rows).
  fold (total n (signed s rows) i d) (total n (signed (- s) rows) i (iblt.sub c d)). rewrite <- IH.
  unfold contrib. cbn. case_decide; [apply sub_apply_r|done].
Qed.

Lemma sub_self c : iblt.sub c c = iblt.emptyCell.
Proof. unfold iblt.sub. rewrite !Z.lxor_nilpotent, Z.sub_diag. done. Qed.

Lemma sub_inj a b d : iblt.sub a d = iblt.sub b d → a = b.
Proof.
  assert (∀ x y z : Z, Z.lxor x z = Z.lxor y z → x = y) as X.
  { intros x y z E. apply (f_equal (λ u, Z.lxor u z)) in E. by rewrite !Z.lxor_assoc, Z.lxor_nilpotent, !Z.lxor_0_r in E. }
  destruct a, b. unfold iblt.sub. simpl. intros [= Hc]. f_equal; [lia|eauto..].
Qed.

(** Rows that are both added and taken away leave no trace. *)
Lemma plus_cancels cs s rows D : plus cs (signed s rows ++ signed (- s) rows ++ D) = plus cs D.
Proof.
  induction rows as [|x rows IH]; [done|]. rewrite <- IH. rewrite <- (plus_cancel cs s x (signed s rows ++ _)).
  apply plus_perm. cbn. rewrite <- Permutation_middle. apply Permutation_swap.
Qed.

Lemma delta_found cs ds D :
  length cs = length ds → plus (replicate (length cs) iblt.emptyCell) D = zip_with iblt.sub cs ds → plus ds D = cs.
Proof.
  intros Hl E. apply list_eq. intros i. apply (f_equal (lookup i)) in E.
  rewrite lookup_plus, lookup_zip_with, length_replicate in E. rewrite lookup_plus.
  destruct (ds !! i) as [d|] eqn:Ed, (cs !! i) as [c|] eqn:Ec; simpl in *; [|exfalso..|done].
  - rewrite lookup_replicate_2 in E by (by eapply lookup_lt_Some). injection E as E. f_equal.
    apply (sub_inj _ _ d). rewrite total_sub, sub_self, <- Hl. done.
  - apply lookup_lt_Some in Ed. apply lookup_ge_None in Ec. lia.
  - apply lookup_lt_Some in Ec. apply lookup_ge_None in Ed. lia.
Qed.

Lemma perm_four {A} (a b c d : list A) : (a ++ b) ++ c ++ d ≡ₚ c ++ a ++ d ++ b.
Proof.
  rewrite (app_assoc c a), (Permutation_app_comm c a), <- !app_assoc. f_equiv.
  by rewrite (Permutation_app_comm b), <- app_assoc.
Qed.

Lemma delta_built n R L C Dr Dl :
  R ≡ₚ C ++ Dr → L ≡ₚ C ++ Dl →
  zip_with iblt.sub (plus (replicate n iblt.emptyCell) (signed 1 R)) (plus (replicate n iblt.emptyCell) (signed 1 L)) =
  plus (replicate n iblt.emptyCell) (signed 1 Dr ++ signed (-1) Dl).
Proof.
  intros HR HL. transitivity (plus (replicate n iblt.emptyCell) (signed (-1) L ++ signed 1 R)).
  - apply list_eq. intros i. rewrite lookup_zip_with, !lookup_plus.
    destruct (replicate n iblt.emptyCell !! i) as [c|] eqn:E; simpl; [|done].
    apply lookup_replicate in E as [-> _]. by rewrite total_sub_r, total_sub, sub_self, <- total_app.
  - rewrite <- (plus_cancels _ 1 C (signed 1 Dr ++ signed (-1) Dl)). apply plus_perm. unfold signed. rewrite HR, HL, !fmap_app. apply perm_four.
Qed.

(** ** The loop on a table that can be peeled *)

(** The cells of [D] tell one row from several, and every part of [D] has a
    cell with a single row: the condition under which peeling empties it. *)
Definition honest (n : nat) (D : list (Z * iblt.Item)) : Prop :=
  ∀ D' i, D' ⊆+ D → (i < n)%nat → iblt.pure xxh3 (total n D' i iblt.emptyCell) = true → length (at_cell n i D') = 1%nat.

Definition peelable (n : nat) (D : list (Z * iblt.Item)) : Prop :=
  ∀ D', D' ⊆+ D → D' ≠ [] → ∃ i, (i < n)%nat ∧ length (at_cell n i D') = 1%nat.

Definition peeling (n : nat) (D0 : list (Z * iblt.Item)) (st : iblt.Peel) : Prop :=
  ∃ D, iblt.pl_cells st = plus (replicate n iblt.emptyCell) D ∧ found st ++ D ≡ₚ D0 ∧
    (iblt.pl_peeled st + length D)%nat = length D0 ∧ pure_queued [] st.

Lemma length_one {A} (l : list A) : length l = 1%nat → ∃ a, l = [a].
Proof. destruct l as [|a [|? ?]]; simpl; try lia. eauto. Qed.

Lemma peeling_part D D0 F : F ++ D ≡ₚ D0 → D ⊆+ D0.
Proof. intros <-. apply submseteq_inserts_l. done. Qed.

Lemma peeling_skip n D0 st pos queue c :
  peeling n D0 st → iblt.pl_queue st = pos :: queue → iblt.pl_cells st !! pos = Some c → iblt.pure xxh3 c = false →
  peeling n D0 (skipped_state st pos queue).
Proof.
  intros (D & Ec & Ef & Ep & Hb & Hc) Eq Hpos Hnp. exists D. split_and!; [done..|]. split; simpl.
  - intros i Hi. destruct (decide (i = pos)) as [->|Hne].
    { destruct (decide (pos < length (iblt.pl_queued st))%nat); [by rewrite list_lookup_insert_eq in Hi|].
      by rewrite list_insert_ge, lookup_ge_None_2 in Hi by lia. }
    rewrite list_lookup_insert_ne in Hi by done. apply Hb in Hi. rewrite Eq in Hi. by apply elem_of_cons in Hi as [?|?].
  - intros i c' Hi Hp _. destruct (decide (i = pos)) as [->|Hne]; [congruence|].
    rewrite list_lookup_insert_ne by done. apply (Hc i c' Hi Hp). apply not_elem_of_nil.
Qed.

(** The one row of a pure cell. *)
Lemma peeling_lone n D0 D i c :
  honest n D0 → D ⊆+ D0 → plus (replicate n iblt.emptyCell) D !! i = Some c → iblt.pure xxh3 c = true →
  ∃ D', D ≡ₚ (if iblt.count c =? 1 then 1 else -1, row_of c) :: D' ∧ i ∈ places n (row_of c).
Proof.
  intros Hh Hs Hi Hp. rewrite lookup_plus, length_replicate in Hi.
  destruct (replicate n iblt.emptyCell !! i) as [e|] eqn:E; [|done]. apply lookup_replicate in E as [-> Hlt].
  injection Hi as <-. destruct (length_one _ (Hh D i Hs Hlt Hp)) as [[s x] Ex].
  assert ((s, x) ∈ at_cell n i D) as [Hx HD]%list_elem_of_filter by (rewrite Ex; apply list_elem_of_here).
  rewrite (lone_cell n D i s x Ex) in Hp |- *. destruct (lone_fields s x) as [Er Es]. rewrite Er, Es.
  assert ((if s =? 1 then 1 else -1) = s) as ->.
  { unfold iblt.pure in Hp. rewrite Es in Hp. destruct (Z.eqb_spec s 1), (Z.eqb_spec s (-1)); simpl in Hp; congruence. }
  apply elem_of_Permutation in HD as [D' HD']. eauto.
Qed.

Lemma peeling_peel n D0 st pos queue c :
  honest n D0 → (3 <= n)%nat → peeling n D0 st → queue_ok st → iblt.pl_queue st = pos :: queue →
  iblt.pl_cells st !! pos = Some c → iblt.pure xxh3 c = true → peeling n D0 (peeled_state st pos queue c).
Proof.
  intros Hh Hn (D & Ec & Ef & Ep & Hb & Hc) Hq Eq Hpos Hp.
  assert (length (iblt.pl_cells st) = n) as Hl by (by rewrite Ec, plus_length, length_replicate).
  rewrite Ec in Hpos. destruct (peeling_lone n D0 D pos c Hh (peeling_part _ _ _ Ef) Hpos Hp) as (D' & HD & Hin).
  destruct (peeled_spec st pos queue c) as (E1 & E2 & E3 & E4 & E5); [done|lia|done|].
  exists D'. split_and!.
  - rewrite E1, Ec, <- plus_app, opposite. rewrite (plus_perm _ _ _ (Permutation_app_head _ HD)). apply plus_cancel.
  - rewrite (found_peeled st pos queue c Hq) by (done || lia). rewrite <- Ef, HD. simpl. apply Permutation_middle.
  - rewrite E2. rewrite HD in Ep. simpl in Ep. lia.
  - unfold peeled_state. rewrite Hl. apply peel_targets_queued.
    + destruct Hq as [Hq Hf]. rewrite Eq in Hf. apply Forall_cons in Hf as [_ Hf]. split; simpl; [by rewrite length_insert|done].
    + simpl. rewrite Hl. by apply places_spec.
    + rewrite app_nil_r. split; simpl.
      * intros i Hi. destruct (decide (i = pos)) as [->|Hne].
        { apply lookup_lt_Some in Hpos as Hlt. rewrite <- Ec in Hlt. destruct Hq as [Hq _].
          rewrite list_lookup_insert_eq in Hi by lia. done. }
        rewrite list_lookup_insert_ne in Hi by done. apply Hb in Hi. rewrite Eq in Hi. by apply elem_of_cons in Hi as [?|?].
      * intros i c' Hi Hpc Ho. rewrite list_lookup_insert_ne by (intros ->; done).
        apply (Hc i c' Hi Hpc). apply not_elem_of_nil.
Qed.

(** Nothing pure is left when the queue is empty, so nothing at all is. *)
Lemma peeling_end n D0 st :
  peelable n D0 → Forall (λ y, y.1 = 1 ∨ y.1 = -1) D0 → peeling n D0 st → iblt.pl_queue st = [] →
  iblt.pl_cells st = replicate n iblt.emptyCell ∧ found st ≡ₚ D0.
Proof.
  intros Hpl Hsg (D & Ec & Ef & _ & Hb & Hc) Eq. assert (D = []) as ->; [|by rewrite plus_nil in Ec; rewrite app_nil_r in Ef].
  destruct (decide (D = [])) as [|Hne]; [done|exfalso].
  destruct (Hpl D (peeling_part _ _ _ Ef) Hne) as (i & Hi & H1). destruct (length_one _ H1) as [[s x] Ex].
  assert ((s, x) ∈ at_cell n i D) as [_ HD]%list_elem_of_filter by (rewrite Ex; apply list_elem_of_here).
  rewrite Forall_forall in Hsg. assert (s = 1 ∨ s = -1) as Hs.
  { apply (Hsg (s, x)). rewrite <- Ef. apply elem_of_app. by right. }
  assert (iblt.pl_queued st !! i = Some true) as Ht.
  { eapply Hc; [rewrite Ec, lookup_plus, lookup_replicate_2 by done; reflexivity| |apply not_elem_of_nil].
    rewrite length_replicate, (lone_cell n D i s x Ex). by apply lone_pure. }
  apply Hb in Ht. rewrite Eq in Ht. by apply not_elem_of_nil in Ht.
Qed.

Lemma peel_loop_exact n D0 fuel st :
  honest n D0 → peelable n D0 → Forall (λ y, y.1 = 1 ∨ y.1 = -1) D0 → (3 <= n)%nat → (length D0 <= 3 * n)%nat →
  peeling n D0 st → queue_ok st → (budget_left st < fuel)%nat →
  ∃ st', iblt.peel_loop xxh3 fuel st = Some (Some st') ∧ iblt.pl_cells st' = replicate n iblt.emptyCell ∧ found st' ≡ₚ D0.
Proof.
  intros Hh Hpl Hsg Hn Hlen Hst Hq Hf.
  assert (∀ s : iblt.Peel, peeling n D0 s → length (iblt.pl_cells s) = n) as Hsz
    by (intros s (D & -> & _); by rewrite plus_length, length_replicate).
  destruct (peel_loop_ind (λ _ r, ∃ st', r = Some st' ∧ iblt.pl_cells st' = replicate n iblt.emptyCell ∧ found st' ≡ₚ D0)
    (peeling n D0)) with (fuel := fuel) (st := st) as (r & -> & st' & -> & H); [..|by rewrite Hsz|done|by eauto].
  - intros s Hs _ Eq. exists s. split; [done|]. by apply peeling_end.
  - intros s pos c Hs _ Hpos Hp Hlt. exfalso. rewrite (Hsz s Hs) in Hlt. destruct Hs as (D & Ec & Ef & Ep & _).
    rewrite Ec in Hpos. destruct (peeling_lone n D0 D pos c Hh (peeling_part _ _ _ Ef) Hpos Hp) as (D' & HD & _).
    rewrite HD in Ep. simpl in Ep. lia.
  - intros s pos queue c Hs Hqs Eq Ec Hp. split; [by eapply peeling_skip|auto].
  - intros s pos queue c Hs Hqs _ Eq Ec Hp. split; [by eapply peeling_peel|auto].
  - done.
  - done.
Qed.

(** Each row of a table that can be peeled has a cell to its own in the end. *)
Lemma peelable_small n D : (3 <= n)%nat → peelable n D → (length D <= n)%nat.
Proof.
  intros Hn Hpl. assert (∀ (U : gset nat) D', D' ⊆+ D → (∀ y p, y ∈ D' → p ∈ places n y.2 → p ∈ U) → (length D' <= size U)%nat) as Gen.
  - intros U D'. revert U. remember (length D') as k eqn:Hk. revert D' Hk.
    induction k as [|k IH]; intros D' Hk U Hs Hp; [lia|].
    destruct (Hpl D' Hs) as (i & Hi & H1); [by destruct D'|]. destruct (length_one _ H1) as [x Ex].
    assert (x ∈ at_cell n i D') as [Hx HD]%list_elem_of_filter by (rewrite Ex; apply list_elem_of_here).
    apply elem_of_Permutation in HD as [D'' HD]. assert (length D' = S (length D'')) as Hl by (by rewrite HD).
    assert (k <= size (U ∖ {[i]}))%nat as Hle.
    { apply (IH D''); [lia|transitivity D'; [rewrite HD; by apply submseteq_cons|done]|].
      intros y p Hy Hpy. apply elem_of_difference. split; [apply (Hp y); [rewrite HD; by constructor|done]|].
      intros ->%elem_of_singleton. unfold at_cell in H1. rewrite HD in H1. rewrite filter_cons_True in H1 by done.
      simpl in H1. assert (y ∈ filter (λ y, i ∈ places n y.2) D'') as Hin by (by apply list_elem_of_filter).
      destruct (filter _ D''); [by apply not_elem_of_nil in Hin|simpl in H1; lia]. }
    rewrite size_difference in Hle; [rewrite size_singleton in Hle|apply singleton_subseteq_l, (Hp x); [rewrite HD; constructor|done]].
    assert (i ∈ U) as HiS by (apply (Hp x); [rewrite HD; constructor|done]).
    assert (0 < size U)%nat; [|lia]. destruct (size U) eqn:E; [|lia]. apply size_empty_inv in E. set_solver.
  - rewrite <- (size_set_seq (C := gset nat) 0 n). apply Gen; [done|]. intros y p _ Hp. apply elem_of_set_seq.
    destruct (places_spec n y.2 Hn) as (_ & _ & Hf & _). rewrite Forall_forall in Hf. specialize (Hf p Hp). lia.
Qed.

Lemma signed_split (a b c d : list iblt.Item) : signed 1 a ++ signed (-1) b ≡ₚ signed 1 c ++ signed (-1) d → a ≡ₚ c ∧ b ≡ₚ d.
Proof.
  assert (∀ s (a b : list iblt.Item), (s = 1 ∨ s = -1) → (filter (λ y, y.1 = s) (signed 1 a ++ signed (-1) b)).*2 = if s =? 1 then a else b) as F.
  { intros s a' b' Hs. rewrite filter_app, fmap_app. unfold signed.
    assert (∀ u l, (filter (λ y : Z * iblt.Item, y.1 = s) ((λ x, (u, x)) <$> l)).*2 = if u =? s then l else []) as G.
    { intros u l. induction l as [|x l IH]; [by destruct (u =? s)|]. cbn [fmap list_fmap]. rewrite filter_cons. cbn [fst].
      destruct (Z.eqb_spec u s); case_decide; try done. simpl. by f_equal. }
    rewrite !G. destruct Hs as [-> | ->]; simpl; [apply app_nil_r|done]. }
  intros E. pose proof (λ s Hs, eq_sym (F s a b Hs)) as Fa. pose proof (λ s Hs, F s c d Hs) as Fc. split.
  - change (a ≡ₚ c) with ((if 1 =? 1 then a else b) ≡ₚ (if 1 =? 1 then c else d)). rewrite Fa, <- Fc by auto. by rewrite E.
  - change (b ≡ₚ d) with ((if -1 =? 1 then a else b) ≡ₚ (if -1 =? 1 then c else d)). rewrite Fa, <- Fc by auto. by rewrite E.
Qed.

Lemma difference_unfold cs ds :
  length cs = length ds → (3 <= length cs <= 4096)%nat →
  iblt.difference xxh3 (iblt.mkSketch cs) (iblt.mkSketch ds) =
  r ← iblt.peel_loop xxh3 (iblt.peel_fuel (length cs)) (let delta := zip_with iblt.sub cs ds in
    iblt.mkPeel delta (iblt.pure_cells xxh3 delta) (iblt.pure xxh3 <$> delta) 0 (iblt.mkDiff [] []));
  match r with
  | None => Some None
  | Some st => Some (if forallb iblt.is_zero (iblt.pl_cells st) then Some (iblt.pl_diff st) else None)
  end.
Proof.
  intros Hl Hn. unfold iblt.difference, iblt.K_HASH_COUNT, iblt.K_MAX_CELLS. cbn [iblt.cells]. rewrite Hl, Nat.eqb_refl.
  destruct (Nat.ltb_spec (length ds) 3), (Nat.ltb_spec 4096 (length ds)); try lia. done.
Qed.

End sums.

(** ** Checking a concrete difference *)

Fixpoint parts {A} (l : list A) : list (list A) :=
  match l with [] => [[]] | x :: l => let p := parts l in p ++ (cons x <$> p) end.

Lemma parts_spec {A} (k l : list A) : k ⊆+ l → ∃ p, p ∈ parts l ∧ k ≡ₚ p.
Proof.
  revert k. induction l as [|x l IH]; intros k Hk.
  { apply submseteq_nil_r in Hk as ->. exists []. split; [apply list_elem_of_here|done]. }
  apply submseteq_cons_r in Hk as [Hk|(k' & Ek & Hk)]; destruct (IH _ Hk) as (p & Hp & E); cbn [parts].
  - exists p. split; [apply elem_of_app; by left|done].
  - exists (x :: p). split; [|by rewrite Ek, E]. apply elem_of_app. right. by apply list_elem_of_fmap_2.
Qed.

Definition honest_b (xxh3 : bytes → Z) (n : nat) (D : list (Z * iblt.Item)) : bool :=
  forallb (λ P, forallb (λ i, negb (iblt.pure xxh3 (total xxh3 n P i iblt.emptyCell)) || (length (at_cell xxh3 n i P) =? 1)%nat) (seq 0 n)) (parts D).

Definition peelable_b (xxh3 : bytes → Z) (n : nat) (D : list (Z * iblt.Item)) : bool :=
  forallb (λ P, (length P =? 0)%nat || existsb (λ i, length (at_cell xxh3 n i P) =? 1)%nat (seq 0 n)) (parts D).

Lemma at_cell_perm xxh3 n i D D' : D ≡ₚ D' → length (at_cell xxh3 n i D) = length (at_cell xxh3 n i D').
Proof. intros HD. unfold at_cell. by rewrite HD. Qed.

Lemma honest_check xxh3 n D : honest_b xxh3 n D = true → honest xxh3 n D.
Proof.
  intros H D' i Hs Hi Hp. destruct (parts_spec _ _ Hs) as (P & HP & E). unfold honest_b in H. rewrite forallb_forall in H.
  specialize (H P ltac:(by apply list_elem_of_In)). rewrite forallb_forall in H. specialize (H i ltac:(apply in_seq; lia)).
  rewrite (total_perm xxh3 n D' P i _ E) in Hp. rewrite Hp in H. rewrite (at_cell_perm xxh3 n i D' P E). by apply Nat.eqb_eq.
Qed.

Lemma peelable_check xxh3 n D : peelable_b xxh3 n D = true → peelable xxh3 n D.
Proof.
  intros H D' Hs Hne. destruct (parts_spec _ _ Hs) as (P & HP & E). unfold peelable_b in H. rewrite forallb_forall in H.
  specialize (H P ltac:(by apply list_elem_of_In)). apply orb_true_iff in H as [H|H].
  - apply Nat.eqb_eq, nil_length_inv in H as ->. by apply Permutation_nil_r in E.
  - apply existsb_exists in H as (i & Hi & H). exists i. apply in_seq in Hi. split; [lia|].
    rewrite (at_cell_perm xxh3 n i D' P E). by apply Nat.eqb_eq.
Qed.

(** ** The wire *)

Definition cell_image (c : iblt.Cell) : bytes :=
  le_encode 8 (u64 (iblt.count c)) ++ le_encode 8 (iblt.key_hash_xor c) ++ le_encode 8 (iblt.version_xor c) ++
  le_encode 8 (iblt.writer_xor c) ++ le_encode 8 (iblt.tombstone_xor c) ++ le_encode 8 (iblt.checksum_xor c).

(** The counts the decoder accepts, and fields of their width. *)
Definition cell_ok (c : iblt.Cell) : Prop :=
  - 2 ^ 40 <= iblt.count c <= 2 ^ 40 ∧ in_u 64 (iblt.key_hash_xor c) ∧ in_u 64 (iblt.version_xor c) ∧
  in_u 64 (iblt.writer_xor c) ∧ in_u 64 (iblt.tombstone_xor c) ∧ in_u 64 (iblt.checksum_xor c).

Lemma cell_image_length c : length (cell_image c) = 48%nat.
Proof. unfold cell_image. by rewrite !length_app, !le_encode_length. Qed.

Lemma encodeCell_lays c : lays (iblt.encodeCell c) (cell_image c).
Proof. unfold iblt.encodeCell, cell_image. repeat first [apply lays_write | apply lays_bind]. Qed.

Lemma encodeCells_lays cs : lays (iblt.encodeCells cs) (concat (cell_image <$> cs)).
Proof.
  induction cs as [|c cs IH]; [apply lays_ret|]. apply lays_bind; [apply encodeCell_lays|done].
Qed.

Lemma i64_u64 z : - 2 ^ 63 <= z < 2 ^ 63 → iblt.i64 (u64 z) = z.
Proof.
  intros Hz. unfold iblt.i64, u64, wrap. destruct (Z.ltb_spec z 0).
  - replace (z mod 2 ^ 64) with (z + 2 ^ 64) by (symmetry; rewrite <- (Z.mod_add z 1) by lia; apply Z.mod_small; lia).
    destruct (Z.ltb_spec (z + 2 ^ 64) (2 ^ 63)); lia.
  - rewrite Z.mod_small by lia. destruct (Z.ltb_spec z (2 ^ 63)); lia.
Qed.

Lemma decodeCell_takes c : cell_ok c → takes iblt.decodeCell (cell_image c) c.
Proof.
  intros (Hc & ? & ? & ? & ? & ?). unfold iblt.decodeCell, cell_image.
  rewrite <- (app_nil_r (le_encode 8 (iblt.checksum_xor c))).
  repeat (eapply takes_bind; [apply takes_read; first [done | apply wrap_range; lia]|]).
  pose proof (i64_u64 (iblt.count c) ltac:(lia)) as E. unfold iblt.i64 in E |- *.
  pose proof (wrap_range 64 (iblt.count c) ltac:(lia)) as Hr. unfold in_u in Hr. fold (u64 (iblt.count c)) in Hr.
  assert ((u64 (iblt.count c) <? 2 ^ 63) && (u64 (iblt.count c) >? 2 ^ 40) = false ∧
    (u64 (iblt.count c) >=? 2 ^ 63) && (2 ^ 64 - 1 - u64 (iblt.count c) >=? 2 ^ 40) = false) as [-> ->].
  { destruct (Z.ltb_spec (u64 (iblt.count c)) (2 ^ 63)); split; apply andb_false_iff;
      rewrite ?Z.gtb_ltb, ?Z.geb_leb, ?Z.ltb_ge, ?Z.leb_gt; lia. }
  rewrite E. destruct c. apply takes_ret.
Qed.

Lemma decodeCells_takes cs : Forall cell_ok cs → takes (iblt.decodeCells (length cs)) (concat (cell_image <$> cs)) cs.
Proof.
  induction 1 as [|c cs Hc _ IH]; [apply takes_ret|]. cbn [length iblt.decodeCells fmap list_fmap concat].
  eapply takes_bind; [by apply decodeCell_takes|]. rewrite <- (app_nil_r (concat _)).
  eapply takes_bind; [done|apply takes_ret].
Qed.

Lemma cells_image_length cs : length (concat (cell_image <$> cs)) = (48 * length cs)%nat.
Proof. induction cs as [|c cs IH]; [done|]. cbn [fmap list_fmap concat length]. rewrite length_app, cell_image_length, IH. lia. Qed.

(** decoding a difference always ends, for any two tables, hostile ones
    included; and what it returns is right: the local table with the
    remote-only rows inserted is the remote table with the local-only rows
    inserted, cell by cell. *)
Theorem difference_sound xxh3 remote local :
  ∃ r, iblt.difference xxh3 remote local = Some r ∧
  ∀ d, r = Some d →
    ∃ merged, iblt.build_rows xxh3 (iblt.remote_only d) local = Some merged ∧
      iblt.build_rows xxh3 (iblt.local_only d) remote = Some merged.
Proof.
  destruct remote as [cs], local as [ds].
  destruct (decide (length cs = length ds ∧ (3 <= length cs <= 4096)%nat)) as [[Hl Hn]|Hno].
  - rewrite difference_unfold by done. cbv zeta. set (delta := zip_with iblt.sub cs ds).
    assert (length delta = length cs) as Hd by (unfold delta; rewrite length_zip_with; lia).
    destruct (peel_loop_sound xxh3 (iblt.peel_fuel (length cs)) _ (start_ok xxh3 delta)) as (r & -> & H);
      [simpl; lia|rewrite <- Hd; apply start_budget|].
    cbn [mbind option_bind]. destruct r as [st|]; [|eexists; split; [done|intros d [=]]].
    eexists. split; [done|]. destruct (forallb iblt.is_zero (iblt.pl_cells st)) eqn:Ez; intros d [= <-].
    destruct (H st eq_refl) as [Hln Hp]. cbn [iblt.pl_cells] in Hln. apply zero_cells in Ez.
    rewrite Ez, Hln, Hd in Hp. unfold found in Hp at 2. cbn [iblt.pl_diff iblt.pl_cells iblt.remote_only iblt.local_only signed fmap list_fmap app] in Hp.
    rewrite plus_nil in Hp. apply delta_found in Hp as Hds; [|done]. unfold found in Hds.
    exists (iblt.mkSketch (plus xxh3 ds (signed 1 (iblt.remote_only (iblt.pl_diff st))))). rewrite !build_rows_plus by lia.
    split; [done|]. do 2 f_equal. rewrite <- Hds at 1. rewrite <- plus_app.
    rewrite <- (plus_cancels xxh3 ds 1 (iblt.local_only (iblt.pl_diff st)) (signed 1 (iblt.remote_only (iblt.pl_diff st)))).
    apply plus_perm. f_equiv. apply Permutation_app_comm.
  - exists None. split; [|done]. unfold iblt.difference, iblt.K_HASH_COUNT, iblt.K_MAX_CELLS. cbn [iblt.cells].
    destruct (Nat.eqb_spec (length cs) (length ds)), (Nat.ltb_spec (length cs) 3), (Nat.ltb_spec 4096 (length cs)); simpl; try done. lia.
Qed.

(** The tables of two row sets that can be peeled, peeled. *)
Lemma difference_tables xxh3 n R L C Dr Dl :
  (3 <= n <= 4096)%nat → R ≡ₚ C ++ Dr → L ≡ₚ C ++ Dl →
  honest xxh3 n (signed 1 Dr ++ signed (-1) Dl) → peelable xxh3 n (signed 1 Dr ++ signed (-1) Dl) →
  ∃ d, iblt.difference xxh3 (iblt.mkSketch (plus xxh3 (replicate n iblt.emptyCell) (signed 1 R)))
      (iblt.mkSketch (plus xxh3 (replicate n iblt.emptyCell) (signed 1 L))) = Some (Some d) ∧
    iblt.remote_only d ≡ₚ Dr ∧ iblt.local_only d ≡ₚ Dl.
Proof.
  intros Hn HR HL Hh Hp. assert (length (replicate n iblt.emptyCell) = n) as Hl by apply length_replicate.
  pose proof (delta_built xxh3 n R L C Dr Dl HR HL) as Hd.
  destruct (peel_loop_exact xxh3 n (signed 1 Dr ++ signed (-1) Dl) (iblt.peel_fuel n) (let delta := plus xxh3 (replicate n iblt.emptyCell)
      (signed 1 Dr ++ signed (-1) Dl) in
    iblt.mkPeel delta (iblt.pure_cells xxh3 delta) (iblt.pure xxh3 <$> delta) 0 (iblt.mkDiff [] []))) as (st & E & Ec & Ef).
  - done.
  - done.
  - apply Forall_app. unfold signed. rewrite !Forall_fmap. split; apply Forall_true; simpl; auto.
  - lia.
  - pose proof (peelable_small xxh3 n _ (proj1 Hn) Hp). lia.
  - eexists. split_and!; [done|simpl; done|simpl; lia|apply start_queued].
  - apply start_ok.
  - cbv zeta. eapply Nat.lt_le_trans; [apply start_budget|]. by rewrite plus_length, Hl.
  - exists (iblt.pl_diff st). split; [|by apply signed_split in Ef].
    rewrite difference_unfold; [|by rewrite !plus_length|rewrite plus_length, Hl; lia].
    rewrite plus_length, Hl, Hd. cbv zeta in E |- *. rewrite E. cbn [mbind option_bind]. rewrite Ec.
    assert (forallb iblt.is_zero (replicate n iblt.emptyCell) = true) as ->; [|done].
    apply forallb_forall. intros c Hc%list_elem_of_In. by apply elem_of_replicate_inv in Hc as ->.
Qed.

(** C14: on the tables of two row sets, decoding gives exactly the rows that
    only one side has, whatever they share, when the tables can be peeled:
    every part of the difference leaves a cell with one row, and a cell with
    several rows does not pass for one. *)
Theorem difference_exact xxh3 n R L C Dr Dl :
  (3 <= n <= 4096)%nat → R ≡ₚ C ++ Dr → L ≡ₚ C ++ Dl →
  honest xxh3 n (signed 1 Dr ++ signed (-1) Dl) → peelable xxh3 n (signed 1 Dr ++ signed (-1) Dl) →
  ∃ remote local d, iblt.build xxh3 R n = Some (Some remote) ∧ iblt.build xxh3 L n = Some (Some local) ∧
    iblt.difference xxh3 remote local = Some (Some d) ∧ iblt.remote_only d ≡ₚ Dr ∧ iblt.local_only d ≡ₚ Dl.
Proof.
  intros Hn HR HL Hh Hp. destruct (difference_tables xxh3 n R L C Dr Dl Hn HR HL Hh Hp) as (d & Hd & Hr & Hl).
  do 2 eexists. exists d. rewrite !build_plus by done. done.
Qed.

(** The buffer [encode] sizes is filled exactly. *)
Lemma encode_decode s :
  (3 <= length (iblt.cells s) <= 4096)%nat → Forall cell_ok (iblt.cells s) →
  ∃ blob, iblt.encode s = Some blob ∧ length blob = (8 + 48 * length (iblt.cells s))%nat ∧ iblt.decode blob = Some s.
Proof.
  destruct s as [cs]. cbn [iblt.cells]. intros Hn Hcs.
  assert (Z.of_nat (length cs) = wrap 32 (Z.of_nat (length cs)) ∧ in_u 32 (Z.of_nat (length cs))) as [Ew Hw].
  { assert (in_u 32 (Z.of_nat (length cs))) by (unfold in_u; lia). split; [by rewrite wrap_small|done]. }
  set (l := le_encode 4 iblt.K_MAGIC ++ le_encode 4 (wrap 32 (Z.of_nat (length cs))) ++ concat (cell_image <$> cs)).
  assert (length l = (8 + 48 * length cs)%nat) as Hl.
  { unfold l. rewrite !length_app, !le_encode_length, cells_image_length. lia. }
  exists l. split_and!; [|done|].
  - unfold iblt.encode, iblt.K_HASH_COUNT, iblt.K_MAX_CELLS, iblt.K_CELL_BYTES. cbn [iblt.cells].
    destruct (Nat.ltb_spec (length cs) 3), (Nat.ltb_spec 4096 (length cs)); try lia. cbn [orb].
    destruct (lays_exact (λ w, w ← BufferWriter.write 4 iblt.K_MAGIC w;
      w ← BufferWriter.write 4 (wrap 32 (Z.of_nat (length cs))) w; iblt.encodeCells cs w) l
      (replicate (2 * 4 + length cs * (6 * 8)) x00)) as (w & E & Eo); [..|by rewrite length_replicate, Hl; lia|].
    { repeat (apply lays_bind; [apply lays_write|]). apply encodeCells_lays. }
    destruct (BufferWriter.write 4 iblt.K_MAGIC _) as [w1|]; [|done]. cbn [mbind option_bind] in E |- *.
    destruct (BufferWriter.write 4 _ w1) as [w2|]; [|done]. cbn [mbind option_bind] in E |- *. rewrite E. simpl. by rewrite Eo.
  - unfold iblt.decode. pose proof (before_make l) as Hb. unfold l at 2 in Hb.
    rewrite (read_before 4 iblt.K_MAGIC _ _ ltac:(done) Hb). cbn [mbind option_bind]. rewrite Z.eqb_refl. cbn [negb].
    apply before_skip_le in Hb. rewrite <- Ew in Hb. rewrite (read_before 4 _ _ _ Hw Hb). cbn [mbind option_bind].
    apply before_skip_le in Hb. rewrite (remaining_before _ _ Hb), cells_image_length.
    unfold iblt.K_HASH_COUNT, iblt.K_MAX_CELLS, iblt.K_CELL_BYTES.
    destruct (Z.ltb_spec (Z.of_nat (length cs)) (Z.of_nat 3)); [lia|].
    rewrite Z.gtb_ltb. destruct (Z.ltb_spec (Z.of_nat 4096) (Z.of_nat (length cs))); [lia|].
    destruct (Z.eqb_spec (Z.of_nat (48 * length cs)) (Z.of_nat (length cs) * Z.of_nat (6 * 8))); [|lia]. cbn [orb negb].
    rewrite Nat2Z.id. rewrite <- (app_nil_r (concat _)) in Hb. by rewrite (decodeCells_takes cs Hcs _ [] Hb).
Qed.

(** a table survives the wire: the buffer [encode] sizes is filled
    exactly, and [decode] gives the table back, for every count the decoder
    accepts. *)
Theorem sketch_roundtrip s :
  (3 <= length (iblt.cells s) <= 4096)%nat → Forall cell_ok (iblt.cells s) →
  ∃ blob, iblt.encode s = Some blob ∧ length blob = (8 + 48 * length (iblt.cells s))%nat ∧ iblt.decode blob = Some s.
Proof. apply encode_decode. Qed.

(** ** Concrete tables *)

Definition demo_rows : list iblt.Item := [iblt.mkItem 11 1 7 false; iblt.mkItem 12 5 7 true].
Definition demo_sum (l : bytes) : Z := u64 (foldl (λ a b, (a * 31 + Z_of_byte b) * 7) 17 l).

Lemma difference_exact_witness :
  ∃ remote local d, iblt.build demo_sum (demo_rows ++ [iblt.mkItem 90 2 1 false]) 16 = Some (Some remote) ∧
    iblt.build demo_sum (demo_rows ++ [iblt.mkItem 91 4 2 true]) 16 = Some (Some local) ∧
    iblt.difference demo_sum remote local = Some (Some d) ∧ iblt.remote_only d ≡ₚ [iblt.mkItem 90 2 1 false] ∧
    iblt.local_only d ≡ₚ [iblt.mkItem 91 4 2 true].
Proof.
  apply (difference_exact demo_sum 16 _ _ demo_rows [iblt.mkItem 90 2 1 false] [iblt.mkItem 91 4 2 true]); [lia|done|done| |].
  - apply honest_check. vm_compute. reflexivity.
  - apply peelable_check. vm_compute. reflexivity.
Defined.

Lemma sketch_roundtrip_witness :
  let s := iblt.mkSketch (replicate 3 (iblt.mkCell (-2) 5 6 7 1 9)) in
  ∃ blob, iblt.encode s = Some blob ∧ length blob = 152%nat ∧ iblt.decode blob = Some s.
Proof.
  apply (sketch_roundtrip (iblt.mkSketch (replicate 3 (iblt.mkCell (-2) 5 6 7 1 9)))); [simpl; lia|].
  repeat constructor; simpl; lia.
Defined.
