(* ===== verification/AeCodec.v ===== *)
(** * The anti-entropy wire codec (include/cinder/node/anti_entropy_codec.hpp, src/node/anti_entropy/codec.cpp)

    The payloads of a repair round, with the types they carry
    (include/cinder/node/anti_entropy.hpp): digests, bucket refinements,
    metadata rows and sync messages.  [None] of an encoder is a write past the
    buffer it sized; [None] of a decoder is the code's rejection.  Times are
    unbounded integers, as in [Clock]. *)

From S2P Require Import Prelude Types Bytes Buffers Clock Iblt.
Export Entry.
Local Open Scope Z_scope.

(** ** The types of AntiEntropyManager *)

Module ae.

Definition K_DIGEST_MAGIC : Z := 0x41454D32.
Definition K_GROUP_DIGEST_MAGIC : Z := 0x41454D33.
Definition K_DIGEST_RESPONSE_MAGIC : Z := 0x41455236.
Definition K_BUCKET_REFINEMENT_MAGIC : Z := 0x41454235.
Definition K_SYNC_MAGIC : Z := 0x41454D53.
Definition K_BUCKETS_PER_GROUP : nat := 16.
Definition K_IBLT_DEFAULT_CELLS : nat := iblt.K_DEFAULT_CELLS.
Definition K_IBLT_MIN_ROWS : nat := 32.
Definition K_MAX_METADATA_BYTES : Z := Z.shiftl 4 20.

Record MetaRow := mkRow { r_bucket : Z; r_tombstone : bool; r_key_hash : Z; r_version : Z; r_writer : Z }.

#[global] Instance MetaRow_eq_dec : EqDecision MetaRow.
Proof. solve_decision. Defined.

Record SyncMessage := mkSync { entries : list (bytes * VersionedEntry); needs : list Z }.

Record MetaDiff := mkMetaDiff { need : list Z; have : list (Z * bytes) }.

Record DigestResponse := mkDigestResponse {
  group_hashes : list Z;
  bucket_hashes : list (Z * Z);
  covered_buckets : list Z;
  rows : list MetaRow;
  iblt_sketches : list (Z * bytes) }.

Record BucketRefinement := mkRefinement { br_hashes : list (Z * Z); force_metadata : bool }.

End ae.

(** ** The codec *)

Module ae_codec.
Import ae.

Definition K_META_ROW_BYTES : nat := 4 + 3 * 8 + 1.

(** [for (const auto& x : l) ...] on the writer *)
Fixpoint writeAll {A} (f : A → BufferWriter.t → option BufferWriter.t) (l : list A) (w : BufferWriter.t) : option BufferWriter.t :=
  match l with [] => Some w | x :: l => w ← f x w; writeAll f l w end.

(** [for (uint32_t i = 0; i < n; ++i) ...] on the reader *)
Fixpoint readAll {A} (p : BufferReader.t → option (A * BufferReader.t)) (n : nat) (r : BufferReader.t) : option (list A * BufferReader.t) :=
  match n with
  | O => Some ([], r)
  | S n => '(x, r) ← p r; '(l, r) ← readAll p n r; Some (x :: l, r)
  end.

(** The buffer an encoder fills. *)
Definition filled (size : nat) (f : BufferWriter.t → option BufferWriter.t) : option bytes :=
  w ← f (BufferWriter.make (replicate size x00)); Some (ByteWriter.out w).

Definition count32 {A} (l : list A) : Z := wrap 32 (Z.of_nat (length l)).

Definition encodeDigest (digest : list Z) : option bytes :=
  filled (4 * 2 + length digest * 8) (λ w,
    w ← BufferWriter.write 4 K_DIGEST_MAGIC w;
    w ← BufferWriter.write 4 (count32 digest) w;
    writeAll (BufferWriter.write 8) digest w).

Definition decodeDigest (data : bytes) (expected_buckets : Z) : option (list Z) :=
  '(magic, r) ← BufferReader.read 4 (BufferReader.make data);
  if negb (magic =? K_DIGEST_MAGIC) then None
  else
    '(n, r) ← BufferReader.read 4 r;
    if negb (n =? expected_buckets) then None
    else if negb (Z.of_nat (BufferReader.remaining r) =? n * 8) then None
    else '(l, _) ← readAll (BufferReader.read 8) (Z.to_nat n) r; Some l.

(** The material of one group, [bucket] on. *)
Fixpoint material (bucket : nat) (hashes : list Z) : bytes :=
  match hashes with
  | [] => []
  | h :: hashes => le_encode 4 (wrap 32 (Z.of_nat bucket)) ++ le_encode 8 h ++ material (S bucket) hashes
  end.

Definition group_count (n : nat) : nat := (n + K_BUCKETS_PER_GROUP - 1) / K_BUCKETS_PER_GROUP.

Definition groupDigests (xxh3 : bytes → Z) (hashes : list Z) : list Z :=
  (λ group, xxh3 (material (group * K_BUCKETS_PER_GROUP)
    (take K_BUCKETS_PER_GROUP (drop (group * K_BUCKETS_PER_GROUP) hashes)))) <$> seq 0 (group_count (length hashes)).

Definition encodeGroupDigest (groups : list Z) : option bytes :=
  filled (2 * 4 + length groups * 8) (λ w,
    w ← BufferWriter.write 4 K_GROUP_DIGEST_MAGIC w;
    w ← BufferWriter.write 4 (count32 groups) w;
    writeAll (BufferWriter.write 8) groups w).

Definition decodeGroupDigest (data : bytes) (expected_groups : Z) : option (list Z) :=
  '(magic, r) ← BufferReader.read 4 (BufferReader.make data);
  if negb (magic =? K_GROUP_DIGEST_MAGIC) then None
  else
    '(n, r) ← BufferReader.read 4 r;
    if negb (n =? expected_groups) || negb (Z.of_nat (BufferReader.remaining r) =? n * 8) then None
    else '(l, _) ← readAll (BufferReader.read 8) (Z.to_nat n) r; Some l.

Definition writeBucketHash (x : Z * Z) (w : BufferWriter.t) : option BufferWriter.t :=
  w ← BufferWriter.write 4 x.1 w; BufferWriter.write 8 x.2 w.

Definition encodeBucketRefinement (request : BucketRefinement) : option bytes :=
  filled (3 * 4 + length (br_hashes request) * (4 + 8)) (λ w,
    w ← BufferWriter.write 4 K_BUCKET_REFINEMENT_MAGIC w;
    w ← BufferWriter.write 4 (if force_metadata request then 1 else 0) w;
    w ← BufferWriter.write 4 (count32 (br_hashes request)) w;
    writeAll writeBucketHash (br_hashes request) w).

Definition readRefined (limit : Z) (r : BufferReader.t) : option ((Z * Z) * BufferReader.t) :=
  '(bucket, r) ← BufferReader.read 4 r;
  if bucket >=? limit then None
  else '(hash, r) ← BufferReader.read 8 r; Some ((bucket, hash), r).

Definition decodeBucketRefinement (data : bytes) (expected_groups : Z) : option BucketRefinement :=
  '(magic, r) ← BufferReader.read 4 (BufferReader.make data);
  if negb (magic =? K_BUCKET_REFINEMENT_MAGIC) then None
  else
    '(flags, r) ← BufferReader.read 4 r;
    if negb (Z.land flags (wrap 32 (Z.lnot 1)) =? 0) then None
    else
      '(n, r) ← BufferReader.read 4 r;
      if negb (Z.of_nat (BufferReader.remaining r) =? n * (4 + 8)) then None
      else
        '(l, _) ← readAll (readRefined expected_groups) (Z.to_nat n) r;
        Some (mkRefinement l (negb (Z.land flags 1 =? 0))).

Definition writeRow (x : MetaRow) (w : BufferWriter.t) : option BufferWriter.t :=
  w ← BufferWriter.write 4 (r_bucket x) w;
  w ← BufferWriter.write 8 (r_key_hash x) w;
  w ← BufferWriter.write 8 (r_version x) w;
  w ← BufferWriter.write 8 (r_writer x) w;
  BufferWriter.write 1 (if r_tombstone x then 1 else 0) w.

Definition encodeMetaRows (l : list MetaRow) : option bytes :=
  filled (4 + length l * K_META_ROW_BYTES) (λ w,
    w ← BufferWriter.write 4 (count32 l) w;
    writeAll writeRow l w).

Definition readRow (r : BufferReader.t) : option (MetaRow * BufferReader.t) :=
  '(bucket, r) ← BufferReader.read 4 r;
  '(kh, r) ← BufferReader.read 8 r;
  '(ver, r) ← BufferReader.read 8 r;
  '(wr, r) ← BufferReader.read 8 r;
  '(tomb, r) ← BufferReader.read 1 r;
  if tomb >? 1 then None else Some (mkRow bucket (negb (tomb =? 0)) kh ver wr, r).

Definition decodeMetaRows (data : bytes) : option (list MetaRow) :=
  '(n, r) ← BufferReader.read 4 (BufferReader.make data);
  if negb (Z.of_nat (BufferReader.remaining r) =? n * Z.of_nat K_META_ROW_BYTES) then None
  else '(l, _) ← readAll readRow (Z.to_nat n) r; Some l.

Definition writeSketch (x : Z * bytes) (w : BufferWriter.t) : option BufferWriter.t :=
  w ← BufferWriter.write 4 x.1 w;
  w ← BufferWriter.write 4 (wrap 32 (zlen x.2)) w;
  BufferWriter.writeString x.2 w.

Definition sketches_size (l : list (Z * bytes)) : nat := foldr (λ x a, (2 * 4 + length x.2 + a)%nat) O l.

Definition encodeDigestResponse (response : DigestResponse) : option bytes :=
  rs ← encodeMetaRows (rows response);
  filled (4 * 4 + length (group_hashes response) * 8 + length (bucket_hashes response) * (4 + 8) +
          length (covered_buckets response) * 4 + 4 + length rs + 4 + sketches_size (iblt_sketches response)) (λ w,
    w ← BufferWriter.write 4 K_DIGEST_RESPONSE_MAGIC w;
    w ← BufferWriter.write 4 (count32 (group_hashes response)) w;
    w ← writeAll (BufferWriter.write 8) (group_hashes response) w;
    w ← BufferWriter.write 4 (count32 (bucket_hashes response)) w;
    w ← writeAll writeBucketHash (bucket_hashes response) w;
    w ← BufferWriter.write 4 (count32 (covered_buckets response)) w;
    w ← writeAll (BufferWriter.write 4) (covered_buckets response) w;
    w ← BufferWriter.write 4 (wrap 32 (zlen rs)) w;
    w ← BufferWriter.writeString rs w;
    w ← BufferWriter.write 4 (count32 (iblt_sketches response)) w;
    writeAll writeSketch (iblt_sketches response) w).

Definition readBucketHash (r : BufferReader.t) : option ((Z * Z) * BufferReader.t) :=
  '(bucket, r) ← BufferReader.read 4 r; '(hash, r) ← BufferReader.read 8 r; Some ((bucket, hash), r).

Definition readSketch (r : BufferReader.t) : option ((Z * bytes) * BufferReader.t) :=
  '(bucket, r) ← BufferReader.read 4 r;
  '(size, r) ← BufferReader.read 4 r;
  '(blob, r) ← BufferReader.readString size r;
  match iblt.decode blob with None => None | Some _ => Some ((bucket, blob), r) end.

(** [std::ranges::binary_search] in a sorted copy. *)
Definition covers (l : list Z) (b : Z) : bool := bool_decide (b ∈ l).

(** The size of [sketch_bucket_seen]: one flag per bucket up to the largest
    that is covered. *)
Definition seen_size (covered : list Z) : Z := match covered with [] => 0 | _ => foldr Z.max 0 covered + 1 end.

(** The loop over the sketches' buckets; [seen] is the set of flags. *)
Fixpoint sketchBuckets (covered : list Z) (seen : list Z) (buckets : list Z) : option (list Z) :=
  match buckets with
  | [] => Some seen
  | b :: bs =>
      if negb (covers covered b) then None
      else if (b >=? seen_size covered) || covers seen b then None
      else sketchBuckets covered (seen ++ [b]) bs
  end.

Definition validResponse (response : DigestResponse) : bool :=
  let covered := covered_buckets response in
  forallb (λ row, covers covered (r_bucket row)) (rows response) &&
  match sketchBuckets covered [] (iblt_sketches response).*1 with
  | None => false
  | Some seen => bool_decide (NoDup seen) &&
      forallb (λ row, negb ((r_bucket row <? seen_size covered) && covers seen (r_bucket row))) (rows response)
  end.

Definition readDigestResponse (expected_groups : Z) (r : BufferReader.t) : option (DigestResponse * BufferReader.t) :=
  '(magic, r) ← BufferReader.read 4 r;
  if negb (magic =? K_DIGEST_RESPONSE_MAGIC) then None else
  '(n_groups, r) ← BufferReader.read 4 r;
  if negb (n_groups =? expected_groups) then None else
  '(groups, r) ← readAll (BufferReader.read 8) (Z.to_nat n_groups) r;
  '(n_hashes, r) ← BufferReader.read 4 r;
  if Z.of_nat (BufferReader.remaining r) <? n_hashes * (4 + 8) then None else
  '(hashes, r) ← readAll readBucketHash (Z.to_nat n_hashes) r;
  '(n_covered, r) ← BufferReader.read 4 r;
  if Z.of_nat (BufferReader.remaining r) <? n_covered * 4 + 4 then None else
  '(covered, r) ← readAll (BufferReader.read 4) (Z.to_nat n_covered) r;
  '(rows_size, r) ← BufferReader.read 4 r;
  if Z.of_nat (BufferReader.remaining r) <? rows_size + 4 then None else
  '(rows_view, r) ← BufferReader.tryView rows_size r;
  l ← decodeMetaRows rows_view;
  '(n_sketches, r) ← BufferReader.read 4 r;
  if n_sketches >? Z.of_nat (BufferReader.remaining r) / (2 * 4) then None else
  '(sketches, r) ← readAll readSketch (Z.to_nat n_sketches) r;
  Some (mkDigestResponse groups hashes covered l sketches, r).

Definition decodeDigestResponse (data : bytes) (expected_groups : Z) : option DigestResponse :=
  '(response, r) ← readDigestResponse expected_groups (BufferReader.make data);
  if negb (BufferReader.remaining r =? 0)%nat then None
  else if validResponse response then Some response else None.

Definition syncEntryWireSize (key : bytes) (e : VersionedEntry) : nat :=
  (4 + length key + 8 + 8 + 1 + 4 + length (value e) + if hasTtl e then 8 else 0)%nat.

Definition writeEntry (c : Clock) (item : bytes * VersionedEntry) (w : BufferWriter.t) : option BufferWriter.t :=
  let '(key, e) := item in
  w ← BufferWriter.write 4 (wrap 32 (zlen key)) w;
  w ← BufferWriter.writeString key w;
  w ← BufferWriter.write 8 (version e) w;
  w ← BufferWriter.write 8 (writer_node_hash e) w;
  w ← BufferWriter.write 1 (Z.lor (if hasTtl e then 1 else 0) (if isTombstone e then 2 else 0)) w;
  w ← (if hasTtl e then BufferWriter.write 8 (toSystemMs c (expires_at e)) w else Some w);
  w ← BufferWriter.write 4 (wrap 32 (zlen (value e))) w;
  BufferWriter.writeString (value e) w.

Definition encodeSync (c : Clock) (msg : SyncMessage) : option bytes :=
  filled (2 * 4 + foldr (λ x a, (syncEntryWireSize x.1 x.2 + a)%nat) O (entries msg) + 4 + length (needs msg) * 8) (λ w,
    w ← BufferWriter.write 4 K_SYNC_MAGIC w;
    w ← BufferWriter.write 4 (count32 (entries msg)) w;
    w ← writeAll (writeEntry c) (entries msg) w;
    w ← BufferWriter.write 4 (count32 (needs msg)) w;
    writeAll (BufferWriter.write 8) (needs msg) w).

(** [milliseconds(expires_ms)] as a point of the system clock. *)
Definition expiryPoint (expires_ms : Z) : Z := iblt.i64 expires_ms * 1000000.

Definition entryOf (c : Clock) (ver wr flags expires_ms : Z) (val : bytes) : VersionedEntry :=
  let e := setVersion ver emptyEntry in
  let e := with_writer wr e in
  let e := with_value val e in
  let e := setTombstone (negb (Z.land flags 2 =? 0)) e in
  if negb (Z.land flags 1 =? 0) then with_expires (toSteadyExpiry c (expiryPoint expires_ms)) (setHasTtl true e) else e.

(** The reason of a failure, or the key, the entry and the reader after it. *)
Definition parseSingleEntry (c : Clock) (r : BufferReader.t) : bytes + (bytes * VersionedEntry) * BufferReader.t :=
  match
    '(key_len, r) ← BufferReader.read 4 r;
    '(key, r) ← BufferReader.readString key_len r;
    '(ver, r) ← BufferReader.read 8 r;
    '(wr, r) ← BufferReader.read 8 r;
    if (BufferReader.remaining r <? 1)%nat then None else
    '(flags, r) ← BufferReader.read 1 r;
    Some (key, ver, wr, flags, r)
  with
  | None => inl (lit "truncated entry")
  | Some (key, ver, wr, flags, r) =>
      if negb (Z.land flags 3 =? flags) then inl (lit "bad entry flags")
      else
        match (if negb (Z.land flags 1 =? 0) then BufferReader.read 8 r else Some (0, r)) with
        | None => inl (lit "truncated expiry")
        | Some (expires_ms, r) =>
            match '(val_len, r) ← BufferReader.read 4 r; BufferReader.readString val_len r with
            | None => inl (lit "truncated value")
            | Some (val, r) => inr ((key, entryOf c ver wr flags expires_ms val), r)
            end
        end
  end.

Definition parsed {A B} (x : A + B) : option B := match x with inl _ => None | inr b => Some b end.

Definition decodeSync (c : Clock) (data : bytes) : option SyncMessage :=
  '(magic, r) ← BufferReader.read 4 (BufferReader.make data);
  if negb (magic =? K_SYNC_MAGIC) then None
  else
    '(n_entries, r) ← BufferReader.read 4 r;
    '(es, r) ← readAll (λ r, parsed (parseSingleEntry c r)) (Z.to_nat n_entries) r;
    '(n_needs, r) ← BufferReader.read 4 r;
    if negb (Z.of_nat (BufferReader.remaining r) =? n_needs * 8) then None
    else '(ns, _) ← readAll (BufferReader.read 8) (Z.to_nat n_needs) r; Some (mkSync es ns).

End ae_codec.

(** ** Sequences on the wire *)

Import ae ae_codec.

Lemma lays_all {A} (f : A → BufferWriter.t → option BufferWriter.t) (img : A → bytes) l :
  (∀ x, lays (f x) (img x)) → lays (writeAll f l) (concat (img <$> l)).
Proof. intros Hf. induction l as [|x l IH]; [apply lays_ret|]. by apply lays_bind. Qed.

Lemma takes_all {A} (p : BufferReader.t → option (A * BufferReader.t)) (img : A → bytes) l :
  Forall (λ x, takes p (img x) x) l → takes (readAll p (length l)) (concat (img <$> l)) l.
Proof.
  induction 1 as [|x l Hx _ IH]; [apply takes_ret|]. cbn [length readAll fmap list_fmap concat].
  eapply takes_bind; [done|]. rewrite <- (app_nil_r (concat _)). eapply takes_bind; [done|apply takes_ret].
Qed.

Lemma filled_lays f l size : lays f l → size = length l → filled size f = Some l.
Proof.
  intros Hf ->. destruct (lays_exact f l (replicate (length l) x00) Hf) as (w & E & Eo); [apply length_replicate|].
  unfold filled. rewrite E. simpl. by rewrite Eo.
Qed.

Lemma images_length {A} (img : A → bytes) k (l : list A) :
  (∀ x, length (img x) = k) → length (concat (img <$> l)) = (length l * k)%nat.
Proof. intros Hk. induction l as [|x l IH]; [done|]. cbn [fmap list_fmap concat length]. rewrite length_app, Hk, IH. lia. Qed.

Lemma count32_small {A} (l : list A) : Z.of_nat (length l) < 2 ^ 32 → count32 l = Z.of_nat (length l) ∧ in_u 32 (count32 l).
Proof.
  intros H. assert (in_u 32 (Z.of_nat (length l))) as Hu by (unfold in_u; lia). unfold count32. by rewrite wrap_small.
Qed.

(** Take one integer off the front of what the reader stands before. *)
Ltac take_int Hb :=
  match type of Hb with
  | before ?r (le_encode ?n ?z ++ ?rest) =>
      rewrite (read_before n z r rest ltac:(first [assumption | done | unfold in_u; lia]) Hb); apply before_skip_le in Hb;
      cbn [mbind option_bind]
  end.

(** Take a whole list. *)
Lemma take_list {A} (p : BufferReader.t → option (A * BufferReader.t)) (img : A → bytes) l r rest :
  Forall (λ x, takes p (img x) x) l → before r (concat (img <$> l) ++ rest) →
  ∃ r', readAll p (Z.to_nat (Z.of_nat (length l))) r = Some (l, r') ∧ before r' rest.
Proof.
  intros Hl Hb. rewrite Nat2Z.id. rewrite (takes_all p img l Hl r rest Hb). eexists. split; [done|]. by apply before_skip.
Qed.

Lemma take_list_end {A} (p : BufferReader.t → option (A * BufferReader.t)) (img : A → bytes) l r :
  Forall (λ x, takes p (img x) x) l → before r (concat (img <$> l)) →
  ∃ r', readAll p (Z.to_nat (Z.of_nat (length l))) r = Some (l, r').
Proof. intros Hl Hb. rewrite <- (app_nil_r (concat _)) in Hb. destruct (take_list p img l r [] Hl Hb) as (r' & -> & _). eauto. Qed.

Definition u64s (l : list Z) : Prop := Forall (in_u 64) l ∧ Z.of_nat (length l) < 2 ^ 32.

Lemma u64_images l : length (concat (le_encode 8 <$> l)) = (length l * 8)%nat.
Proof. apply images_length. intros. apply le_encode_length. Qed.

Lemma u64s_take l : Forall (in_u 64) l → Forall (λ x, takes (BufferReader.read 8) (le_encode 8 x) x) l.
Proof. intros H. eapply Forall_impl; [exact H|]. intros x Hx. by apply takes_read. Qed.

(** Digests, flat and by group. *)
Lemma digest_roundtrip digest :
  u64s digest →
  ∃ blob, encodeDigest digest = Some blob ∧ decodeDigest blob (Z.of_nat (length digest)) = Some digest.
Proof.
  intros [Hd Hl]. destruct (count32_small digest Hl) as [Ec Hc].
  set (l := le_encode 4 K_DIGEST_MAGIC ++ le_encode 4 (count32 digest) ++ concat (le_encode 8 <$> digest)). exists l. split.
  - apply filled_lays; [|unfold l; rewrite !length_app, !le_encode_length, u64_images; lia].
    repeat (apply lays_bind; [apply lays_write|]). apply lays_all. intros. apply lays_write.
  - unfold decodeDigest. pose proof (before_make l) as Hb. unfold l at 2 in Hb.
    take_int Hb. rewrite Z.eqb_refl. cbn [negb]. take_int Hb. rewrite Ec, Z.eqb_refl. cbn [negb].
    rewrite (remaining_before _ _ Hb), u64_images. destruct (Z.eqb_spec (Z.of_nat (length digest * 8)) (Z.of_nat (length digest) * 8)); [|lia].
    cbn [negb]. by destruct (take_list_end _ _ _ _ (u64s_take _ Hd) Hb) as (r' & ->).
Qed.

Lemma groupDigest_roundtrip groups :
  u64s groups →
  ∃ blob, encodeGroupDigest groups = Some blob ∧ decodeGroupDigest blob (Z.of_nat (length groups)) = Some groups.
Proof.
  intros [Hd Hl]. destruct (count32_small groups Hl) as [Ec Hc].
  set (l := le_encode 4 K_GROUP_DIGEST_MAGIC ++ le_encode 4 (count32 groups) ++ concat (le_encode 8 <$> groups)). exists l. split.
  - apply filled_lays; [|unfold l; rewrite !length_app, !le_encode_length, u64_images; lia].
    repeat (apply lays_bind; [apply lays_write|]). apply lays_all. intros. apply lays_write.
  - unfold decodeGroupDigest.
    pose proof (before_make l) as Hb. unfold l at 2 in Hb.
    take_int Hb. rewrite Z.eqb_refl. cbn [negb]. take_int Hb. rewrite Ec, Z.eqb_refl. cbn [negb orb].
    rewrite (remaining_before _ _ Hb), u64_images. destruct (Z.eqb_spec (Z.of_nat (length groups * 8)) (Z.of_nat (length groups) * 8)); [|lia].
    cbn [negb]. by destruct (take_list_end _ _ _ _ (u64s_take _ Hd) Hb) as (r' & ->).
Qed.

(** ** Refinements *)

Definition hash_image (x : Z * Z) : bytes := le_encode 4 x.1 ++ le_encode 8 x.2.

Lemma hash_image_length x : length (hash_image x) = 12%nat.
Proof. unfold hash_image. by rewrite length_app, !le_encode_length. Qed.

Lemma writeBucketHash_lays x : lays (writeBucketHash x) (hash_image x).
Proof. apply lays_bind; apply lays_write. Qed.

Definition hash_ok (limit : Z) (x : Z * Z) : Prop := 0 <= x.1 < limit ∧ in_u 64 x.2.

Lemma readRefined_takes limit x : limit <= 2 ^ 32 → hash_ok limit x → takes (readRefined limit) (hash_image x) x.
Proof.
  intros Hlim [H1 H2]. unfold readRefined, hash_image. eapply takes_bind; [apply takes_read; unfold in_u; lia|].
  rewrite Z.geb_leb. destruct (Z.leb_spec limit x.1); [lia|]. rewrite <- (app_nil_r (le_encode 8 _)).
  eapply takes_bind; [by apply takes_read|]. destruct x. apply takes_ret.
Qed.

Lemma readBucketHash_takes x : hash_ok (2 ^ 32) x → takes readBucketHash (hash_image x) x.
Proof.
  intros [H1 H2]. unfold readBucketHash, hash_image. eapply takes_bind; [apply takes_read; unfold in_u; lia|].
  rewrite <- (app_nil_r (le_encode 8 _)). eapply takes_bind; [by apply takes_read|]. destruct x. apply takes_ret.
Qed.

Lemma refinement_roundtrip request limit :
  limit <= 2 ^ 32 → Forall (hash_ok limit) (br_hashes request) → Z.of_nat (length (br_hashes request)) < 2 ^ 32 →
  ∃ blob, encodeBucketRefinement request = Some blob ∧ decodeBucketRefinement blob limit = Some request.
Proof.
  destruct request as [hs force]. cbn [br_hashes]. intros Hlim Hh Hl. destruct (count32_small hs Hl) as [Ec Hc].
  set (l := le_encode 4 K_BUCKET_REFINEMENT_MAGIC ++ le_encode 4 (if force then 1 else 0) ++ le_encode 4 (count32 hs) ++
    concat (hash_image <$> hs)). exists l. split.
  - apply filled_lays; [|unfold l; rewrite !length_app, !le_encode_length, (images_length _ 12) by apply hash_image_length; simpl; lia].
    repeat (apply lays_bind; [apply lays_write|]). apply lays_all, writeBucketHash_lays.
  - unfold decodeBucketRefinement. pose proof (before_make l) as Hb. unfold l at 2 in Hb.
    take_int Hb. rewrite Z.eqb_refl. cbn [negb].
    assert (in_u 32 (if force then 1 else 0)) by (by destruct force). take_int Hb.
    assert (negb (Z.land (if force then 1 else 0) (wrap 32 (Z.lnot 1)) =? 0) = false) as -> by (by destruct force).
    take_int Hb. rewrite Ec, (remaining_before _ _ Hb), (images_length _ 12) by apply hash_image_length.
    destruct (Z.eqb_spec (Z.of_nat (length hs * 12)) (Z.of_nat (length hs) * (4 + 8))); [|lia]. cbn [negb].
    destruct (take_list_end (readRefined limit) hash_image hs _ ltac:(eapply Forall_impl; [exact Hh|]; intros; by apply readRefined_takes) Hb) as (r' & ->).
    simpl. by destruct force.
Qed.

(** ** Metadata rows *)

Definition row_image (x : MetaRow) : bytes :=
  le_encode 4 (r_bucket x) ++ le_encode 8 (r_key_hash x) ++ le_encode 8 (r_version x) ++ le_encode 8 (r_writer x) ++
  le_encode 1 (if r_tombstone x then 1 else 0).

Definition row_ok (x : MetaRow) : Prop :=
  in_u 32 (r_bucket x) ∧ in_u 64 (r_key_hash x) ∧ in_u 64 (r_version x) ∧ in_u 64 (r_writer x).

Lemma row_image_length x : length (row_image x) = 29%nat.
Proof. unfold row_image. by rewrite !length_app, !le_encode_length. Qed.

Lemma writeRow_lays x : lays (writeRow x) (row_image x).
Proof. unfold writeRow, row_image. repeat first [apply lays_write | apply lays_bind]. Qed.

Lemma readRow_takes x : row_ok x → takes readRow (row_image x) x.
Proof.
  intros (? & ? & ? & ?). unfold readRow, row_image. rewrite <- (app_nil_r (le_encode 1 _)).
  repeat (eapply takes_bind; [apply takes_read; first [done | by destruct (r_tombstone x)]|]).
  destruct x as [b [] k v w]; apply takes_ret.
Qed.

Definition rows_image (l : list MetaRow) : bytes := le_encode 4 (count32 l) ++ concat (row_image <$> l).

Lemma rows_image_length l : length (rows_image l) = (4 + length l * 29)%nat.
Proof. unfold rows_image. rewrite length_app, le_encode_length, (images_length _ 29) by apply row_image_length. lia. Qed.

Lemma encodeMetaRows_image l : encodeMetaRows l = Some (rows_image l).
Proof.
  apply filled_lays; [|by rewrite rows_image_length]. apply lays_bind; [apply lays_write|]. apply lays_all, writeRow_lays.
Qed.

Lemma decodeMetaRows_image l : Forall row_ok l → Z.of_nat (length l) < 2 ^ 32 → decodeMetaRows (rows_image l) = Some l.
Proof.
  intros Hr Hl. destruct (count32_small l Hl) as [Ec Hc]. unfold decodeMetaRows.
  pose proof (before_make (rows_image l)) as Hb. unfold rows_image at 2 in Hb. take_int Hb.
  rewrite Ec, (remaining_before _ _ Hb), (images_length _ 29) by apply row_image_length.
  unfold K_META_ROW_BYTES. destruct (Z.eqb_spec (Z.of_nat (length l * 29)) (Z.of_nat (length l) * Z.of_nat (4 + 3 * 8 + 1))); [|lia].
  cbn [negb]. by destruct (take_list_end readRow row_image l _ ltac:(eapply Forall_impl; [exact Hr|]; intros; by apply readRow_takes) Hb) as (r' & ->).
Qed.

(** ** Digest responses *)

Definition sketch_image (x : Z * bytes) : bytes := le_encode 4 x.1 ++ le_encode 4 (wrap 32 (zlen x.2)) ++ x.2.

Definition sketch_ok (x : Z * bytes) : Prop := in_u 32 x.1 ∧ in_u 32 (zlen x.2) ∧ is_Some (iblt.decode x.2).

Lemma writeSketch_lays x : lays (writeSketch x) (sketch_image x).
Proof. unfold writeSketch, sketch_image. repeat first [apply lays_write | apply lays_string | apply lays_bind]. Qed.

Lemma readSketch_takes x : sketch_ok x → takes readSketch (sketch_image x) x.
Proof.
  intros (H1 & H2 & [s Hs]). unfold readSketch, sketch_image. rewrite wrap_small by done. rewrite <- (app_nil_r x.2) at 2.
  eapply takes_bind; [by apply takes_read|]. eapply takes_bind; [by apply takes_read|].
  eapply takes_bind; [apply takes_string|]. rewrite Hs. destruct x. apply takes_ret.
Qed.

Lemma sketches_length l : length (concat (sketch_image <$> l)) = sketches_size l.
Proof.
  induction l as [|x l IH]; [done|]. cbn [fmap list_fmap concat sketches_size foldr]. fold (sketches_size l).
  unfold sketch_image at 1. rewrite !length_app, !le_encode_length, IH. lia.
Qed.

Lemma sketches_size_ge l : (8 * length l <= sketches_size l)%nat.
Proof. induction l as [|x l IH]; [done|]. cbn [length sketches_size foldr]. fold (sketches_size l). lia. Qed.

(** Every field has the width of its place on the wire. *)
Record response_ok (response : DigestResponse) : Prop := mkResponseOk {
  ro_groups : u64s (group_hashes response);
  ro_hashes : Forall (hash_ok (2 ^ 32)) (bucket_hashes response);
  ro_hashes_n : Z.of_nat (length (bucket_hashes response)) < 2 ^ 32;
  ro_covered : Forall (in_u 32) (covered_buckets response);
  ro_covered_n : Z.of_nat (length (covered_buckets response)) < 2 ^ 32;
  ro_rows : Forall row_ok (rows response);
  ro_rows_n : 4 + Z.of_nat (length (rows response)) * 29 < 2 ^ 32;
  ro_sketches : Forall sketch_ok (iblt_sketches response);
  ro_sketches_n : Z.of_nat (length (iblt_sketches response)) < 2 ^ 32 }.

Definition response_image (response : DigestResponse) : bytes :=
  le_encode 4 K_DIGEST_RESPONSE_MAGIC ++ le_encode 4 (count32 (group_hashes response)) ++
  concat (le_encode 8 <$> group_hashes response) ++ le_encode 4 (count32 (bucket_hashes response)) ++
  concat (hash_image <$> bucket_hashes response) ++ le_encode 4 (count32 (covered_buckets response)) ++
  concat (le_encode 4 <$> covered_buckets response) ++ le_encode 4 (wrap 32 (zlen (rows_image (rows response)))) ++
  rows_image (rows response) ++ le_encode 4 (count32 (iblt_sketches response)) ++
  concat (sketch_image <$> iblt_sketches response).

Lemma encodeDigestResponse_image response : encodeDigestResponse response = Some (response_image response).
Proof.
  unfold encodeDigestResponse. rewrite encodeMetaRows_image. cbn [mbind option_bind]. apply filled_lays.
  - unfold response_image. repeat first [apply lays_write | apply lays_string | apply lays_bind | apply (lays_all _ sketch_image) |
      apply (lays_all _ hash_image) | apply (lays_all (BufferWriter.write 8)) | apply (lays_all (BufferWriter.write 4)) |
      apply writeBucketHash_lays | apply writeSketch_lays | intros ?].
  - unfold response_image. rewrite !length_app, !le_encode_length, u64_images, sketches_length.
    rewrite (images_length _ 12) by apply hash_image_length. rewrite (images_length _ 4) by (intros; apply le_encode_length).
    rewrite rows_image_length. lia.
Qed.

Lemma tryView_before s r rest : before r (s ++ rest) → BufferReader.tryView (zlen s) r = Some (s, skip (length s) r).
Proof. apply readString_before. Qed.

Lemma decodeDigestResponse_image response :
  response_ok response → validResponse response = true →
  decodeDigestResponse (response_image response) (Z.of_nat (length (group_hashes response))) = Some response.
Proof.
  intros [[Hg Hgn] Hh Hhn Hc Hcn Hr Hrn Hs Hsn] Hv. unfold decodeDigestResponse, readDigestResponse.
  destruct response as [gs hs cs rs ss]. cbn [group_hashes bucket_hashes covered_buckets rows iblt_sketches] in *.
  destruct (count32_small gs Hgn) as [Eg Ug]. destruct (count32_small hs Hhn) as [Eh Uh].
  destruct (count32_small cs Hcn) as [Ec Uc]. destruct (count32_small ss Hsn) as [Es Us].
  assert (in_u 32 (zlen (rows_image rs))) as Ur by (unfold zlen, in_u; rewrite rows_image_length; lia).
  set (resp := mkDigestResponse gs hs cs rs ss) in *.
  pose proof (before_make (response_image resp)) as Hb. unfold response_image at 2 in Hb.
  cbn [group_hashes bucket_hashes covered_buckets rows iblt_sketches resp] in Hb. rewrite (wrap_small _ _ Ur) in Hb.
  take_int Hb. rewrite Z.eqb_refl. cbn [negb]. take_int Hb. rewrite Eg, Z.eqb_refl. cbn [negb].
  destruct (take_list _ _ _ _ _ (u64s_take _ Hg) Hb) as (r1 & -> & Hb1). cbn [mbind option_bind]. clear Hb.
  take_int Hb1. rewrite Eh, (remaining_before _ _ Hb1), length_app, (images_length _ 12) by apply hash_image_length.
  match goal with |- context [?a <? ?b] => destruct (Z.ltb_spec a b); [lia|] end.
  destruct (take_list readBucketHash hash_image hs _ _ ltac:(eapply Forall_impl; [exact Hh|]; intros; by apply readBucketHash_takes) Hb1)
    as (r2 & -> & Hb2). cbn [mbind option_bind]. clear Hb1.
  take_int Hb2. rewrite Ec, (remaining_before _ _ Hb2), !length_app, (images_length _ 4), le_encode_length by (intros; apply le_encode_length).
  match goal with |- context [?a <? ?b] => destruct (Z.ltb_spec a b); [lia|] end.
  destruct (take_list (BufferReader.read 4) (le_encode 4) cs _ _ ltac:(eapply Forall_impl; [exact Hc|]; intros; by apply takes_read) Hb2)
    as (r3 & -> & Hb3). cbn [mbind option_bind]. clear Hb2.
  take_int Hb3. rewrite (remaining_before _ _ Hb3), !length_app, le_encode_length.
  match goal with |- context [?a <? ?b] => destruct (Z.ltb_spec a b); [unfold zlen in *; lia|] end.
  rewrite (tryView_before _ _ _ Hb3). cbn [mbind option_bind]. apply before_skip in Hb3.
  rewrite decodeMetaRows_image by (done || lia). cbn [mbind option_bind].
  take_int Hb3. rewrite Es, (remaining_before _ _ Hb3), sketches_length, Z.gtb_ltb.
  pose proof (sketches_size_ge ss). destruct (Z.ltb_spec (Z.of_nat (sketches_size ss) / (2 * 4)) (Z.of_nat (length ss))) as [Hlt|_].
  { assert (Z.of_nat (length ss) <= Z.of_nat (sketches_size ss) / 8) by (apply Z.div_le_lower_bound; lia). change (2 * 4) with 8 in Hlt. lia. }
  rewrite <- (app_nil_r (concat _)) in Hb3.
  destruct (take_list readSketch sketch_image ss _ _ ltac:(eapply Forall_impl; [exact Hs|]; intros; by apply readSketch_takes) Hb3)
    as (r4 & -> & Hb4). cbn [mbind option_bind]. rewrite (remaining_before _ _ Hb4). simpl. fold resp. by rewrite Hv.
Qed.

(** What the checks of the decoder mean. *)
Lemma sketchBuckets_spec covered buckets seen seen' :
  NoDup seen → sketchBuckets covered seen buckets = Some seen' →
  seen' = seen ++ buckets ∧ NoDup seen' ∧ Forall (λ b, b ∈ covered) buckets.
Proof.
  revert seen. induction buckets as [|b bs IH]; intros seen Hnd; cbn [sketchBuckets].
  { intros [= <-]. by rewrite app_nil_r. }
  unfold covers. destruct (bool_decide_reflect (b ∈ covered)) as [Hc|]; [|done]. cbn [negb].
  destruct (b >=? seen_size covered); [done|]. destruct (bool_decide_reflect (b ∈ seen)) as [|Hs]; [done|]. cbn [orb].
  intros E. destruct (IH (seen ++ [b])) as (-> & Hn & Hf); [|done|].
  - apply NoDup_app. split_and!; [done|by intros x Hx ->%list_elem_of_singleton|apply NoDup_singleton].
  - rewrite <- app_assoc in *. split_and!; [done|done|by constructor].
Qed.

Lemma foldr_max_ge l b : b ∈ l → b <= foldr Z.max 0 l.
Proof. induction 1; simpl; lia. Qed.

Lemma seen_size_gt l b : b ∈ l → b < seen_size l.
Proof. destruct l as [|x l]; [by intros ?%not_elem_of_nil|]. intros H%foldr_max_ge. unfold seen_size. lia. Qed.

Lemma sketchBuckets_complete covered buckets seen :
  NoDup (seen ++ buckets) → Forall (λ b, b ∈ covered) buckets → sketchBuckets covered seen buckets = Some (seen ++ buckets).
Proof.
  revert seen. induction buckets as [|b bs IH]; intros seen Hnd Hc; cbn [sketchBuckets]; [by rewrite app_nil_r|].
  apply Forall_cons in Hc as [Hb Hc]. unfold covers. rewrite bool_decide_true by done. cbn [negb].
  pose proof (seen_size_gt _ _ Hb). rewrite Z.geb_leb. destruct (Z.leb_spec (seen_size covered) b); [lia|].
  rewrite bool_decide_false; [|intros Hin; apply NoDup_app in Hnd as (_ & Hd & _); apply (Hd b Hin); by constructor].
  cbn [orb]. rewrite IH; [by rewrite <- app_assoc|by rewrite <- app_assoc|done].
Qed.

Definition consistent (response : DigestResponse) : Prop :=
  Forall (λ row, r_bucket row ∈ covered_buckets response ∧ r_bucket row ∉ (iblt_sketches response).*1) (rows response) ∧
  NoDup (iblt_sketches response).*1 ∧ Forall (λ b, b ∈ covered_buckets response) (iblt_sketches response).*1.

Lemma validResponse_iff response : validResponse response = true ↔ consistent response.
Proof.
  unfold validResponse, consistent. rewrite andb_true_iff, forallb_forall. split.
  - intros [Hr Hs]. destruct (sketchBuckets _ _ _) as [seen|] eqn:E; [|done].
    apply sketchBuckets_spec in E as (Es & Hnd & Hf); [|constructor]. simpl in Es. subst seen.
    apply andb_true_iff in Hs as [_ Hs]. rewrite forallb_forall in Hs. split_and!; [|done|done].
    apply Forall_forall. intros row Hin. rewrite list_elem_of_In in Hin. specialize (Hr row Hin). specialize (Hs row Hin).
    unfold covers in Hr, Hs. apply bool_decide_eq_true in Hr. split; [done|].
    pose proof (seen_size_gt _ _ Hr). destruct (Z.ltb_spec (r_bucket row) (seen_size (covered_buckets response))); [|lia].
    simpl in Hs. apply negb_true_iff, bool_decide_eq_false in Hs. done.
  - intros (Hr & Hnd & Hf). rewrite Forall_forall in Hr. split.
    + intros row Hin%list_elem_of_In. unfold covers. apply bool_decide_eq_true. by apply Hr.
    + rewrite sketchBuckets_complete by done. simpl. rewrite bool_decide_true by done. simpl. apply forallb_forall.
      intros row Hin%list_elem_of_In. apply Hr in Hin as [_ Hin]. unfold covers. rewrite (bool_decide_false _ Hin). by rewrite andb_false_r.
Qed.

(** ** Sync messages *)

Lemma word_ext e e' :
  Entry.wf e → Entry.wf e' → version e = version e' → hasTtl e = hasTtl e' → isTombstone e = isTombstone e' →
  version_and_ttl e = version_and_ttl e'.
Proof.
  intros He He' Hv Ht Hd. apply Z.bits_inj'. intros n Hn. rewrite !EntryFacts.hasTtl_bit in Ht. rewrite !EntryFacts.isTombstone_bit in Hd.
  destruct (decide (n = 0)) as [->|]; [done|]. destruct (decide (n = 1)) as [->|]; [done|].
  replace n with (n - 2 + 2) by lia. rewrite <- !EntryFacts.version_bit by lia. by rewrite Hv.
Qed.

Lemma entry_ext e e' :
  Entry.wf e → Entry.wf e' → version e = version e' → hasTtl e = hasTtl e' → isTombstone e = isTombstone e' →
  expires_at e = expires_at e' → writer_node_hash e = writer_node_hash e' → value e = value e' → e = e'.
Proof.
  intros He He' Hv Ht Hd. pose proof (word_ext e e' He He' Hv Ht Hd) as Hw. clear -Hw. destruct e, e'. simpl in *. by intros -> -> ->; subst.
Qed.

(** The entry the receiver, with its clock [c'], makes of [e]. *)
Definition received (c c' : Clock) (e : VersionedEntry) : VersionedEntry :=
  mkEntry (version_and_ttl e) (if hasTtl e then toSteadyExpiry c' (expiryPoint (toSystemMs c (expires_at e))) else 0)
    (writer_node_hash e) (value e).

Definition entry_flags (e : VersionedEntry) : Z := Z.lor (if hasTtl e then 1 else 0) (if isTombstone e then 2 else 0).

Lemma entryOf_received c c' e ms :
  Entry.wf e → (hasTtl e = true → ms = toSystemMs c (expires_at e)) →
  entryOf c' (version e) (writer_node_hash e) (entry_flags e) ms (value e) = received c c' e.
Proof.
  intros Hwf Hms. unfold entryOf, received, entry_flags. set (e0 := setVersion (version e) emptyEntry).
  assert (Entry.wf e0) as H0 by apply EntryFacts.setVersion_wf, EntryFacts.emptyEntry_wf.
  assert (Entry.wf (with_value (value e) (with_writer (writer_node_hash e) e0))) as H1 by exact H0.
  assert (∀ b, version (setTombstone b (with_value (value e) (with_writer (writer_node_hash e) e0))) = version e) as Hv.
  { intros b. rewrite EntryFacts.setTombstone_version by done. transitivity (version e0); [done|].
    unfold e0. rewrite EntryFacts.setVersion_version by apply EntryFacts.emptyEntry_wf. apply wrap_small. by apply EntryFacts.version_range. }
  assert (hasTtl e0 = false) as Ht0 by (unfold e0; by rewrite EntryFacts.setVersion_hasTtl by apply EntryFacts.emptyEntry_wf).
  assert (∀ a b : bool, negb (Z.land (Z.lor (if a then 1 else 0) (if b then 2 else 0)) 2 =? 0) = b ∧
    negb (Z.land (Z.lor (if a then 1 else 0) (if b then 2 else 0)) 1 =? 0) = a) as Hf by (by intros [] []).
  destruct (Hf (hasTtl e) (isTombstone e)) as [-> ->].
  set (e1 := with_value (value e) (with_writer (writer_node_hash e) e0)) in *.
  set (e2 := setTombstone (isTombstone e) e1). assert (Entry.wf e2) as H2 by (by apply EntryFacts.setTombstone_wf).
  destruct (hasTtl e) eqn:Et.
  - rewrite Hms by done. apply entry_ext; [by apply EntryFacts.setHasTtl_wf|done|..|done|done|done].
    + transitivity (version e2); [by apply EntryFacts.setHasTtl_version|apply Hv].
    + transitivity true; [by apply EntryFacts.setHasTtl_hasTtl|done].
    + transitivity (isTombstone e2); [by apply EntryFacts.setHasTtl_isTombstone|by apply EntryFacts.setTombstone_isTombstone].
  - apply entry_ext; [done|done|apply Hv| |by apply EntryFacts.setTombstone_isTombstone|done|done|done].
    transitivity (hasTtl e1); [by apply EntryFacts.setTombstone_hasTtl|]. transitivity false; [exact Ht0|done].
Qed.

Definition entry_image (c : Clock) (x : bytes * VersionedEntry) : bytes :=
  le_encode 4 (wrap 32 (zlen x.1)) ++ x.1 ++ le_encode 8 (version x.2) ++ le_encode 8 (writer_node_hash x.2) ++
  le_encode 1 (entry_flags x.2) ++ (if hasTtl x.2 then le_encode 8 (toSystemMs c (expires_at x.2)) else []) ++
  le_encode 4 (wrap 32 (zlen (value x.2))) ++ value x.2.

Definition item_ok (x : bytes * VersionedEntry) : Prop :=
  in_u 32 (zlen x.1) ∧ in_u 32 (zlen (value x.2)) ∧ Entry.wf x.2 ∧ in_u 64 (writer_node_hash x.2).

Lemma entry_image_length c x : length (entry_image c x) = syncEntryWireSize x.1 x.2.
Proof.
  unfold entry_image, syncEntryWireSize. rewrite !length_app, !le_encode_length.
  destruct (hasTtl x.2); rewrite ?le_encode_length; simpl; lia.
Qed.

Lemma writeEntry_lays c x : lays (writeEntry c x) (entry_image c x).
Proof.
  destruct x as [key e]. unfold writeEntry, entry_image. cbn [fst snd].
  repeat (apply lays_bind; [first [apply lays_write | apply lays_string | destruct (hasTtl e); [apply lays_write|apply lays_ret]]|]).
  apply lays_string.
Qed.

Lemma entry_flags_range e : in_u 8 (entry_flags e) ∧ Z.land (entry_flags e) 3 = entry_flags e ∧ negb (Z.land (entry_flags e) 1 =? 0) = hasTtl e.
Proof. unfold entry_flags. by destruct (hasTtl e), (isTombstone e). Qed.

Lemma parseSingleEntry_takes c c' x :
  item_ok x → takes (λ r, parsed (parseSingleEntry c' r)) (entry_image c x) (x.1, received c c' x.2).
Proof.
  intros (Hk & Hval & Hwf & Hw) r rest Hb. destruct x as [key e]. cbn [fst snd] in *.
  destruct (entry_flags_range e) as (Hfr & Hf3 & Hft). pose proof (EntryFacts.version_range e Hwf) as Hv.
  assert (in_u 64 (version e)) as Hv' by (unfold in_u in *; lia).
  assert (in_u 64 (toSystemMs c (expires_at e))) as Hms by (apply wrap_range; lia).
  rewrite entry_image_length. cbn [fst snd]. unfold syncEntryWireSize, entry_image in *. cbn [fst snd] in Hb. rewrite !wrap_small in Hb by done.
  rewrite <- !app_assoc in Hb. unfold parseSingleEntry. take_int Hb. rewrite (readString_before _ _ _ Hb). cbn [mbind option_bind].
  apply before_skip in Hb. do 2 take_int Hb. rewrite (remaining_before _ _ Hb), length_app, le_encode_length.
  cbn [Nat.add Nat.ltb Nat.leb]. take_int Hb. rewrite Hf3, Z.eqb_refl, Hft. cbn [negb].
  assert (∃ ms r', (if hasTtl e then BufferReader.read 8 (skip 1 (skip 8 (skip 8 (skip (length key) (skip 4 r))))) else
      Some (0, skip 1 (skip 8 (skip 8 (skip (length key) (skip 4 r)))))) = Some (ms, r') ∧
    r' = skip (if hasTtl e then 8 else 0) (skip 1 (skip 8 (skip 8 (skip (length key) (skip 4 r))))) ∧
    (hasTtl e = true → ms = toSystemMs c (expires_at e)) ∧
    before r' (le_encode 4 (zlen (value e)) ++ value e ++ rest)) as (ms & r' & -> & Er & Ems & Hb').
  { destruct (hasTtl e); cbn [app] in Hb.
    - take_int Hb. eauto 8.
    - do 2 eexists. split_and!; [done|by rewrite skip_0|done|done]. }
  take_int Hb'. rewrite (readString_before _ _ _ Hb'). cbn [parsed]. rewrite (entryOf_received c c' e ms Hwf Ems). do 2 f_equal.
  rewrite Er, !skip_skip. f_equal. destruct (hasTtl e); lia.
Qed.

Definition sync_ok (msg : SyncMessage) : Prop :=
  Forall item_ok (entries msg) ∧ Z.of_nat (length (entries msg)) < 2 ^ 32 ∧ u64s (needs msg).

Definition sync_image (c : Clock) (msg : SyncMessage) : bytes :=
  le_encode 4 K_SYNC_MAGIC ++ le_encode 4 (count32 (entries msg)) ++ concat (entry_image c <$> entries msg) ++
  le_encode 4 (count32 (needs msg)) ++ concat (le_encode 8 <$> needs msg).

Lemma entries_image_length c l :
  length (concat (entry_image c <$> l)) = foldr (λ x a, (syncEntryWireSize x.1 x.2 + a)%nat) O l.
Proof. induction l as [|x l IH]; [done|]. cbn [fmap list_fmap concat foldr]. by rewrite length_app, entry_image_length, IH. Qed.

Lemma encodeSync_image c msg : encodeSync c msg = Some (sync_image c msg).
Proof.
  apply filled_lays; unfold sync_image.
  - repeat first [apply lays_write | apply lays_bind | apply (lays_all _ (entry_image c)) | apply (lays_all (BufferWriter.write 8)) |
      apply writeEntry_lays | intros ?].
  - rewrite !length_app, !le_encode_length, entries_image_length, u64_images. lia.
Qed.

(** A list of which the reader makes another. *)
Lemma takes_map {A B} (p : BufferReader.t → option (B * BufferReader.t)) (img : A → bytes) (f : A → B) l :
  Forall (λ x, takes p (img x) (f x)) l → takes (readAll p (length l)) (concat (img <$> l)) (f <$> l).
Proof.
  induction 1 as [|x l Hx _ IH]; [apply takes_ret|]. cbn [length readAll fmap list_fmap concat].
  eapply takes_bind; [done|]. rewrite <- (app_nil_r (concat _)). eapply takes_bind; [done|apply takes_ret].
Qed.

Lemma decodeSync_image c c' msg :
  sync_ok msg →
  decodeSync c' (sync_image c msg) = Some (mkSync ((λ x, (x.1, received c c' x.2)) <$> entries msg) (needs msg)).
Proof.
  destruct msg as [es ns]. intros (He & Hen & Hn & Hnn). cbn [entries needs] in *.
  destruct (count32_small es Hen) as [Ee Ue]. destruct (count32_small ns Hnn) as [En Un].
  unfold decodeSync. set (msg := mkSync es ns). pose proof (before_make (sync_image c msg)) as Hb. unfold sync_image at 2 in Hb.
  cbn [entries needs msg] in Hb. take_int Hb. rewrite Z.eqb_refl. cbn [negb]. take_int Hb. rewrite Ee, Nat2Z.id.
  rewrite (takes_map (λ r, parsed (parseSingleEntry c' r)) (entry_image c) (λ x, (x.1, received c c' x.2)) es
    ltac:(eapply Forall_impl; [exact He|]; intros; by apply parseSingleEntry_takes) _ _ Hb).
  cbn [mbind option_bind]. apply before_skip in Hb. take_int Hb. rewrite En, (remaining_before _ _ Hb), u64_images.
  destruct (Z.eqb_spec (Z.of_nat (length ns * 8)) (Z.of_nat (length ns) * 8)); [|lia].
  cbn [negb]. by destruct (take_list_end _ _ _ _ (u64s_take _ Hn) Hb) as (r' & ->).
Qed.

(** ** The properties *)

(** a digest response survives the wire, and the decoder lets through
    only consistent ones: every row and every sketch is of a covered bucket, no
    bucket has two sketches, and none has both a sketch and rows. *)
Theorem digest_response_roundtrip response :
  response_ok response → consistent response →
  (∃ blob, encodeDigestResponse response = Some blob ∧
    decodeDigestResponse blob (Z.of_nat (length (group_hashes response))) = Some response) ∧
  ∀ data groups r, decodeDigestResponse data groups = Some r → consistent r.
Proof.
  intros Hok Hc. split.
  - exists (response_image response). split; [apply encodeDigestResponse_image|].
    by apply decodeDigestResponse_image, validResponse_iff.
  - intros data groups r. unfold decodeDigestResponse. destruct (readDigestResponse _ _) as [[x rd]|]; [|done]. simpl.
    destruct (_ =? _)%nat; [|done]. destruct (validResponse x) eqn:E; [|done]. intros [= <-]. by apply validResponse_iff.
Qed.

(** a sync message survives the wire between two nodes.  The needlist
    and the LWW identity, value and flags of every entry arrive as they were
    sent; an expiry arrives as the sender's system time, cut to milliseconds,
    on the receiver's clock. *)
Theorem sync_roundtrip c c' msg :
  sync_ok msg →
  ∃ blob, encodeSync c msg = Some blob ∧
    decodeSync c' blob = Some (mkSync ((λ x, (x.1, received c c' x.2)) <$> entries msg) (needs msg)).
Proof. intros Hok. exists (sync_image c msg). split; [apply encodeSync_image|by apply decodeSync_image]. Qed.

(** ** Concrete messages *)

Definition demo_sync : SyncMessage := mkSync [(lit "k", mkEntry 13 5000000 9 (lit "v")); (lit "gone", mkEntry 22 0 9 [])] [77].

Lemma sync_roundtrip_witness :
  ∃ blob, encodeSync (mkClock 1000000 2000000) demo_sync = Some blob ∧
    decodeSync (mkClock 500000 3000000) blob =
      Some (mkSync [(lit "k", mkEntry 13 3500000 9 (lit "v")); (lit "gone", mkEntry 22 0 9 [])] [77]).
Proof.
  apply (sync_roundtrip (mkClock 1000000 2000000) (mkClock 500000 3000000) demo_sync).
  repeat constructor; vm_compute; done.
Defined.

Definition demo_response : DigestResponse :=
  mkDigestResponse [5; 6] [(0, 1); (1, 2)] [1; 0] [mkRow 1 false 8 9 10]
    [(0, default [] (iblt.encode (iblt.mkSketch (replicate 3 iblt.emptyCell))))].

Lemma digest_response_roundtrip_witness :
  (∃ blob, encodeDigestResponse demo_response = Some blob ∧ decodeDigestResponse blob 2 = Some demo_response) ∧
  ∀ data groups r, decodeDigestResponse data groups = Some r → consistent r.
Proof.
  apply (digest_response_roundtrip demo_response).
  - split; try (repeat constructor; vm_compute; done). apply Forall_singleton. vm_compute. repeat split; try discriminate. eexists. reflexivity.
  - by apply validResponse_iff.
Defined.
