(* ===== verification/CacheStore.v ===== *)
(** * The interface of the stores (include/cinder/store/cache_store.hpp)

    What the replication side of a node sees of a store: the operations of the
    abstract class, each with the clock it reads, and the laws its clients rely
    on.  The eviction stores are instances.  The mutation sink is a list of
    calls, oldest first, that a client takes away. *)

From S2P Require Import Prelude Types Bytes Clock Wal WheelHeap TtlWheel Store StoreFacts LruStore LfuStore.
From S2P Require Import StoreSpec Persistence Recovery Disk Durability.
Local Open Scope Z_scope.

(** [None] is a failed assertion of the store. *)
Class CacheStore (S : Type) := {
  cs_putVersioned : Clock → bytes → VersionedEntry → S → option (Result () * S);
  cs_getVersioned : Clock → bytes → S → option (option VersionedEntry * S);
  cs_removeVersioned : Clock → bytes → Z → Z → S → option (Result () * S);
  cs_get : Clock → bytes → S → option (option bytes * S);
  cs_put : Clock → bytes → bytes → option Z → S → option (Result () * S);
  cs_remove : bytes → S → option (bool * S);
  cs_mintVersion : S → Z * S;
  cs_liveEntries : Clock → S → list (bytes * VersionedEntry);
  cs_takeEvents : S → list Mutation * S }.

(** The entry a reader sees. *)
Definition unexpired (c : Clock) (o : option VersionedEntry) : option VersionedEntry :=
  e ← o; if expired (now c) e then None else Some e.

(** The marker [removeVersioned] plants, with its deadline. *)
Definition tombstoneEntry (ver writer deadline : Z) : VersionedEntry :=
  setHasTtl true (with_expires deadline (with_writer writer (setTombstone true (setVersion ver emptyEntry)))).

Class CacheStoreLaws (S : Type) `{CacheStore S} := {
  cs_inv : S → Prop;
  cs_lookup : S → bytes → option VersionedEntry;
  cs_room : Z → S → Prop;        (* bytes that fit without an eviction *)
  cs_node_bytes : Z;             (* the cost of an entry beside its key and value *)
  cs_room_le n m s : cs_room n s → m <= n → cs_room m s;
  cs_node_pos : 0 <= cs_node_bytes;
  cs_live_keys c s : cs_inv s → NoDup (cs_liveEntries c s).*1;
  cs_live c s k e : cs_inv s → (k, e) ∈ cs_liveEntries c s ↔ cs_lookup s k = Some e ∧ expired (now c) e = false;
  cs_entry_wf s k e : cs_inv s → cs_lookup s k = Some e → Entry.wf e;
  cs_get_law c k s : cs_inv s →
    ∃ s', cs_getVersioned c k s = Some (unexpired c (cs_lookup s k), s') ∧ cs_inv s' ∧
      (∀ k', cs_lookup s' k' = if decide (k' = k) then unexpired c (cs_lookup s k) else cs_lookup s k') ∧
      ∀ n, cs_room n s → cs_room n s';
  cs_put_law c k e n s : cs_inv s → Entry.wf e → 0 <= n → cs_room (zlen k + zlen (value e) + cs_node_bytes + n) s →
    ∃ s', cs_putVersioned c k e s = Some (Ok (), s') ∧ cs_inv s' ∧
      (∀ k', cs_lookup s' k' = if decide (k' = k) then Some (applyLww (cs_lookup s k) e) else cs_lookup s k') ∧ cs_room n s';
  cs_mintable : S → Prop;        (* the Lamport clock has not run out *)
  cs_mint_law s : cs_inv s → cs_mintable s →
    let '(v, s') := cs_mintVersion s in
    cs_inv s' ∧ (∀ k, cs_lookup s' k = cs_lookup s k) ∧ (∀ n, cs_room n s → cs_room n s') ∧
    in_u 62 v ∧ ∀ k e, cs_lookup s k = Some e → version e < v;
  cs_remove_versioned_law c k ver writer n s : cs_inv s → 0 <= n → cs_room (zlen k + cs_node_bytes + n) s →
    ∃ s' deadline, cs_removeVersioned c k ver writer s = Some (Ok (), s') ∧ cs_inv s' ∧
      (∀ k', cs_lookup s' k' = if decide (k' = k) then Some (applyLww (cs_lookup s k) (tombstoneEntry ver writer deadline)) else cs_lookup s k') ∧
      cs_room n s';
  cs_remove_law k s : cs_inv s →
    ∃ b s', cs_remove k s = Some (b, s') ∧ cs_inv s' ∧ (∀ k', cs_lookup s' k' = if decide (k' = k) then None else cs_lookup s k') ∧
      ∀ n, cs_room n s → cs_room n s';
  cs_take_law s : cs_inv s →
    cs_inv (cs_takeEvents s).2 ∧ (∀ k, cs_lookup (cs_takeEvents s).2 k = cs_lookup s k) ∧
    (∀ n, cs_room n s → cs_room n (cs_takeEvents s).2) }.

Definition cs_forEach {S A} `{CacheStore S} (c : Clock) (fn : A → bytes → VersionedEntry → A) (a : A) (s : S) : A :=
  foldl (λ a '(k, e), fn a k e) a (cs_liveEntries c s).

Section instance.
Context {PN PS : Type} `{PolicyLaws PN PS}.
Context (hash : bytes → Z).

Definition takeEvents (s : Store PN PS) : list Mutation * Store PN PS :=
  match sink (glob s) with
  | None => ([], s)
  | Some l => (l, mkStore (setMutationSink (glob s)) (shards s))
  end.

Definition eviction_cache : CacheStore (Store PN PS) := {|
  cs_putVersioned := putVersioned hash;
  cs_getVersioned := getVersioned hash;
  cs_removeVersioned := removeVersioned hash;
  cs_get := get hash;
  cs_put := put hash;
  cs_remove := removeKey hash;
  cs_mintVersion s := let '(v, g) := mintVersion (glob s) in (v, mkStore g (shards s));
  cs_liveEntries := liveEntries;
  cs_takeEvents := takeEvents |}.

Lemma takeEvents_spec s :
  store_inv hash s →
  store_inv hash (takeEvents s).2 ∧ (∀ k, lookup_store hash (takeEvents s).2 k = lookup_store hash s k) ∧
  (∀ n, room n s → room n (takeEvents s).2).
Proof.
  unfold takeEvents. destruct (sink (glob s)); [|done]. intros Hs. split; [|done]. destruct Hs. by split.
Qed.

Lemma getVersioned_law c k s :
  store_inv hash s →
  ∃ s', getVersioned hash c k s = Some (unexpired c (lookup_store hash s k), s') ∧ store_inv hash s' ∧
    (∀ k', lookup_store hash s' k' = if decide (k' = k) then unexpired c (lookup_store hash s k) else lookup_store hash s k') ∧
    ∀ n, room n s → room n s'.
Proof.
  intros Hs. destruct (getVersioned_spec hash c k s Hs) as (s' & E & Hs' & _ & Hl). exists s'. split_and!; [done..|].
  intros n. by eapply getVersioned_room.
Qed.

Lemma tombstoneEntry_wf ver writer t : Entry.wf (tombstoneEntry ver writer t).
Proof.
  unfold tombstoneEntry. apply EntryFacts.setHasTtl_wf.
  apply (EntryFacts.setTombstone_wf true (setVersion ver emptyEntry)), EntryFacts.setVersion_wf, EntryFacts.emptyEntry_wf.
Qed.

Lemma tombstoneEntry_size k ver writer t : coreSize (k, tombstoneEntry ver writer t) = zlen k + node_bytes.
Proof. unfold coreSize. simpl. unfold zlen. simpl. lia. Qed.

Definition eviction_laws : @CacheStoreLaws (Store PN PS) eviction_cache.
Proof.
  refine (@Build_CacheStoreLaws _ eviction_cache (store_inv hash) (lookup_store hash) room node_bytes _ _ _ _ _ _ _
    (λ s, 0 <= next_version (glob s) < 2 ^ 62) _ _ _ _).
  - intros n m s. apply room_le.
  - pose proof (coreSize_pos ([], emptyEntry)) as Hp. unfold coreSize in Hp. simpl in Hp. unfold zlen in Hp. simpl in Hp. lia.
  - intros c s. apply liveEntries_keys.
  - intros c s k e. apply liveEntries_elem.
  - intros s k e Hs He. destruct (home_shard hash k s Hs) as (sh & Hsh & Hinv & Hl). rewrite Hl in He.
    by destruct (si_entry _ _ Hs _ _ _ _ Hsh He).
  - intros c k s. apply getVersioned_law.
  - intros c k e n s Hs Hwf Hn Hr. destruct (putVersionedAt_roomy hash c k e (if hasTtl e then now c else 0) n s Hs Hwf Hn Hr) as (s' & E & Hs' & Hr' & Hl & _).
    exists s'. done.
  - intros s Hs Hv. destruct (mint_store hash s Hs) as (Hs1 & _ & Hl1); [lia|]. cbn [cs_mintVersion eviction_cache mintVersion] in *.
    split_and!; [done|done| |done|].
    + intros n Hr i sh Hi. apply (Hr i sh Hi).
    + intros k e He. destruct (home_shard hash k s Hs) as (sh & Hsh & Hinv & Hl). rewrite Hl in He.
      by destruct (si_entry _ _ Hs _ _ _ _ Hsh He).
  - intros c k ver writer n s Hs Hn Hr.
    destruct (putVersionedAt_roomy hash c k (tombstoneEntry ver writer (now c + tombstone_gc (glob s) * 1000000)) (now c) n s Hs) as (s' & E & Hs' & Hr' & Hl & _);
      [apply tombstoneEntry_wf|done|by rewrite tombstoneEntry_size|]. exists s', (now c + tombstone_gc (glob s) * 1000000). done.
  - intros k s Hs. destruct (removeKey_spec hash k s Hs) as (s' & E & Hs' & _ & Hl & _). do 2 eexists. split_and!; [done..|].
    intros n Hr. by destruct (removeKey_room hash k n s _ s' Hs E Hr).
  - intros s. apply takeEvents_spec.
Defined.
End instance.

(** A store of one shard. *)
Lemma roomy (s : Store () ()) (sh : Shard () ()) n : shards s = [sh] → current_bytes sh + n <= shardCapacity s → room n s.
Proof. intros E Hn i sh' Hi. rewrite E in Hi. destruct i as [|i]; [|done]. by injection Hi as <-. Qed.

(** ** Replicas *)

(** A write as it arrives: when, where and what. *)
Definition Arrival : Type := Clock * bytes * VersionedEntry.

(** The writes that go to a key. *)
Definition arrived_for (k : bytes) (ws : list Arrival) : list VersionedEntry := (filter (λ w : Arrival, w.1.2 = k) ws).*2.

Lemma arrived_for_elem k e ws : e ∈ arrived_for k ws ↔ ∃ c, (c, k, e) ∈ ws.
Proof.
  unfold arrived_for. rewrite list_elem_of_fmap. split.
  - intros ([[c k'] e'] & -> & [Hk Hin]%list_elem_of_filter). simpl in *. subst k'. eauto.
  - intros (c & Hin). exists (c, k, e). split; [done|]. by apply list_elem_of_filter.
Qed.

Section receiving.
Context {PN PS : Type} `{PolicyLaws PN PS} (hash : bytes → Z).

(** The bytes they take in a store with this policy. *)
Definition arrival_size (w : Arrival) : Z := coreSize (PN := PN) (PS := PS) (w.1.2, w.2).

Definition arrivals_size (ws : list Arrival) : Z := foldr (λ w n, arrival_size w + n) 0 ws.

Lemma arrivals_size_nonneg ws : 0 <= arrivals_size ws.
Proof.
  induction ws as [|[[c k] e] ws IH]; simpl; [lia|]. pose proof (coreSize_pos (PN := PN) (PS := PS) (k, e)). unfold arrival_size. cbn [fst snd] in *. lia.
Qed.

Fixpoint receive (ws : list Arrival) (s : Store PN PS) : option (Store PN PS) :=
  match ws with
  | [] => Some s
  | (c, k, e) :: ws => '(_, s) ← putVersioned hash c k e s; receive ws s
  end.

Lemma receive_spec ws s :
  store_inv hash s → Forall (λ w : Arrival, Entry.wf w.2) ws → room (arrivals_size ws) s →
  ∃ s', receive ws s = Some s' ∧ store_inv hash s' ∧ ∀ k, lookup_store hash s' k = LwwFacts.deliver (lookup_store hash s k) (arrived_for k ws).
Proof.
  revert s. induction ws as [|[[c k] e] ws IH]; intros s Hs Hwf Hr; [by exists s|]. apply Forall_cons in Hwf as [Hwe Hwf]. cbn [receive].
  pose proof (arrivals_size_nonneg ws) as Hnn. change (room (coreSize (k, e) + arrivals_size ws) s) in Hr.
  destruct (putVersionedAt_roomy hash c k e (if hasTtl e then now c else 0) (arrivals_size ws) s Hs Hwe Hnn Hr) as (s1 & E1 & Hs1 & Hr1 & Hl1 & _).
  unfold putVersioned. rewrite E1. cbn [mbind option_bind]. destruct (IH s1 Hs1 Hwf Hr1) as (s' & E & Hs' & Hl). exists s'. split; [done|]. split; [done|].
  intros k'. rewrite Hl, Hl1. unfold arrived_for. rewrite filter_cons. cbn [fst snd].
  destruct (decide (k = k')) as [->|Hne]; [by rewrite decide_True|by rewrite decide_False by congruence].
Qed.
End receiving.

Section replicas.
Context {PN1 PS1 PN2 PS2 : Type} `{PolicyLaws PN1 PS1} `{PolicyLaws PN2 PS2} (hash1 hash2 : bytes → Z).

(** C9: replicas converge.  Two stores, whatever their eviction policies, that
    hold the same entries and receive the same writes through [putVersioned],
    in any order, at any times and with any repetition, end with the same entry
    for every key: a write that was delivered and that no other write to the key
    beats.  Reads of the two stores then give the same answers.  Assumed are
    room for the writes and that equal stamps for a key mean equal entries. *)
Theorem lww_replicas_converge (ws1 ws2 : list Arrival) (s1 : Store PN1 PS1) (s2 : Store PN2 PS2) :
  store_inv hash1 s1 → store_inv hash2 s2 → (∀ k, lookup_store hash1 s1 k = lookup_store hash2 s2 k) →
  (∀ k e, (∃ c, (c, k, e) ∈ ws1) ↔ ∃ c, (c, k, e) ∈ ws2) → Forall (λ w : Arrival, Entry.wf w.2) ws1 →
  (∀ k x y, lookup_store hash1 s1 k = Some x ∨ (∃ c, (c, k, x) ∈ ws1) → lookup_store hash1 s1 k = Some y ∨ (∃ c, (c, k, y) ∈ ws1) →
    stampOf x = stampOf y → x = y) →
  room (arrivals_size (PN := PN1) (PS := PS1) ws1) s1 → room (arrivals_size (PN := PN2) (PS := PS2) ws2) s2 →
  ∃ s1' s2', receive hash1 ws1 s1 = Some s1' ∧ receive hash2 ws2 s2 = Some s2' ∧ store_inv hash1 s1' ∧ store_inv hash2 s2' ∧
    (∀ k, lookup_store hash1 s1' k = lookup_store hash2 s2' k) ∧
    (∀ k e, lookup_store hash1 s1 k = Some e ∨ (∃ c, (c, k, e) ∈ ws1) → ∃ m, lookup_store hash1 s1' k = Some m ∧
      (lookup_store hash1 s1 k = Some m ∨ ∃ c, (c, k, m) ∈ ws1) ∧ lwwCovers (stampOf m) (stampOf e) = true) ∧
    ∀ c k, ∃ r s1'' s2'', getVersioned hash1 c k s1' = Some (r, s1'') ∧ getVersioned hash2 c k s2' = Some (r, s2'').
Proof.
  intros Hs1 Hs2 Heq Hset Hwf Hinj Hr1 Hr2.
  assert (Forall (λ w : Arrival, Entry.wf w.2) ws2) as Hwf2.
  { apply Forall_forall. intros [[c k] e] Hin. destruct (proj2 (Hset k e) (ex_intro _ c Hin)) as [c' Hin']. by apply (proj1 (Forall_forall _ _) Hwf _ Hin'). }
  destruct (receive_spec hash1 ws1 s1 Hs1 Hwf Hr1) as (s1' & E1 & Hs1' & Hl1). destruct (receive_spec hash2 ws2 s2 Hs2 Hwf2 Hr2) as (s2' & E2 & Hs2' & Hl2).
  assert (∀ k, lookup_store hash1 s1' k = lookup_store hash2 s2' k) as Hsame.
  { intros k. rewrite Hl1, Hl2, <- Heq. apply LwwFacts.deliver_any_order.
    - intros x. by rewrite !arrived_for_elem.
    - intros x y Hx Hy. unfold LwwFacts.seen in Hx, Hy. rewrite arrived_for_elem in Hx, Hy. by apply (Hinj k). }
  exists s1', s2'. split_and!; try done.
  - intros k e He. rewrite <- arrived_for_elem in He. destruct (LwwFacts.deliver_Some (lookup_store hash1 s1 k) (arrived_for k ws1)) as [m Hm].
    { destruct He as [He|He]; [left; congruence|right]. intros E. rewrite E in He. by apply not_elem_of_nil in He. }
    exists m. rewrite Hl1. split; [done|]. apply LwwFacts.deliver_max in Hm as [Hin Hmax]. split; [by rewrite <- arrived_for_elem|].
    apply LwwFacts.lwwCovers_le. by apply Hmax.
  - intros c k. destruct (getVersioned_spec hash1 c k s1' Hs1') as (t1 & G1 & _). destruct (getVersioned_spec hash2 c k s2' Hs2') as (t2 & G2 & _).
    rewrite Hsame in G1. by eexists _, t1, t2.
Qed.
End replicas.

(** An LRU node and an LFU node, two keys, a late delete and a repeated write. *)
Definition demo_arrivals : list Arrival :=
  [(demo_clock, lit "a", demo_entry "1" 3); (demo_clock, lit "b", demo_entry "2" 4); (later_clock, lit "a", dead "" 9)].

Definition demo_arrivals' : list Arrival :=
  [(later_clock, lit "a", dead "" 9); (demo_clock, lit "a", demo_entry "1" 3); (later_clock, lit "a", dead "" 9); (later_clock, lit "b", demo_entry "2" 4)].

Lemma lww_replicas_converge_witness :
  ∃ (s1 : Store () ()) (s2 : Store Freq FreqMap), receive demo_hash demo_arrivals (attached demo_clock 5000) = Some s1 ∧
    receive demo_hash demo_arrivals' (attached demo_clock 5000) = Some s2 ∧ ∀ k, lookup_store demo_hash s1 k = lookup_store demo_hash s2 k.
Proof.
  destruct (lww_replicas_converge demo_hash demo_hash demo_arrivals demo_arrivals' (attached (PN := ()) (PS := ()) demo_clock 5000)
    (attached (PN := Freq) (PS := FreqMap) demo_clock 5000)) as (s1 & s2 & E1 & E2 & _ & _ & Hs & _).
  - exact (attached_inv demo_hash demo_clock 5000).
  - exact (attached_inv demo_hash demo_clock 5000).
  - intros k. rewrite (proj1 (attached_facts demo_hash 5000 demo_clock)), (proj1 (attached_facts demo_hash 5000 demo_clock)). reflexivity.
  - intros k e. unfold demo_arrivals, demo_arrivals'. set_solver.
  - repeat constructor; (apply demo_entry_wf || apply dead_wf).
  - intros k x y. rewrite (proj1 (attached_facts demo_hash 5000 demo_clock)). unfold demo_arrivals.
    intros [|[c Hx]] [|[c' Hy]]; try done. rewrite !elem_of_cons in Hx, Hy. destruct_or!; try (by apply not_elem_of_nil in Hx); try (by apply not_elem_of_nil in Hy);
      apply pair_equal_spec in Hx as [[_ ->]%pair_equal_spec ->], Hy as [[_ Ek]%pair_equal_spec ->]; try (by vm_compute in Ek); by vm_compute.
  - apply (room_le (share 5000)); [exact (proj2 (attached_facts demo_hash 5000 demo_clock))|]. vm_compute. discriminate.
  - apply (room_le (share 5000)); [exact (proj2 (attached_facts demo_hash 5000 demo_clock))|]. vm_compute. discriminate.
  - exists s1, s2. split; [exact E1|]. split; [exact E2|exact Hs].
Defined.
