(* ===== verification/AntiEntropy.v ===== *)
(** * Anti-entropy repair (include/cinder/node/anti_entropy.hpp, src/node/anti_entropy/core.cpp)

    The manager of one node: the incremental digest fed by the store's
    mutation sink, the handlers of the two requests of a round, and the
    initiator.  The store is any [CacheStore]; the transport is a function that
    delivers a request to the world and brings the response back.  XXH3, the
    hash of the ring and the sort are arguments.  [None] throughout is a failed
    assertion, an access outside a vector or a write past a buffer.  Metrics
    are left out but for the two counters of [fullRehash]; spans and logs are
    left out. *)

From S2P Require Import Prelude Types Bytes HashRing Protocol Buffers Clock Iblt AeCodec.
From S2P Require Import Wal WheelHeap TtlWheel Store CacheStore.
Export ae ae_codec.
Local Open Scope Z_scope.

Record Manager := mkManager {
  num_buckets : Z;
  fetch_bytes : Z;
  full_rehash_interval : Z;      (* milliseconds *)
  partner_idx : Z;
  xor_ : list Z;
  last_full_rehash_ns : Z;
  pending : list (Z * Z);
  partners : list bytes;
  self : bytes;
  partners_dirty : bool;
  xor_valid : bool;
  rehashing : bool;
  capturing : bool;
  rehash_mismatches : Z;
  full_rehashes : Z }.

Definition K_DEFAULT_FULL_REHASH_INTERVAL : Z := 300000.

(** The constructor, whose store reports to it from now on. *)
Definition newManager (me : bytes) (n fetch interval : Z) : Manager :=
  let n := if n =? 0 then 1 else n in
  mkManager n fetch interval 0 (replicate (Z.to_nat n) 0) 0 [] [] me true false false false 0 0.

Definition with_xor (l : list Z) (m : Manager) : Manager :=
  mkManager (num_buckets m) (fetch_bytes m) (full_rehash_interval m) (partner_idx m) l (last_full_rehash_ns m) (pending m)
    (partners m) (self m) (partners_dirty m) (xor_valid m) (rehashing m) (capturing m) (rehash_mismatches m) (full_rehashes m).

Definition with_capture (p : list (Z * Z)) (on : bool) (m : Manager) : Manager :=
  mkManager (num_buckets m) (fetch_bytes m) (full_rehash_interval m) (partner_idx m) (xor_ m) (last_full_rehash_ns m) p
    (partners m) (self m) (partners_dirty m) (xor_valid m) (rehashing m) on (rehash_mismatches m) (full_rehashes m).

Definition with_rehashing (b : bool) (m : Manager) : Manager :=
  mkManager (num_buckets m) (fetch_bytes m) (full_rehash_interval m) (partner_idx m) (xor_ m) (last_full_rehash_ns m) (pending m)
    (partners m) (self m) (partners_dirty m) (xor_valid m) b (capturing m) (rehash_mismatches m) (full_rehashes m).

Definition with_partners (idx : Z) (ps : list bytes) (dirty : bool) (m : Manager) : Manager :=
  mkManager (num_buckets m) (fetch_bytes m) (full_rehash_interval m) idx (xor_ m) (last_full_rehash_ns m) (pending m)
    ps (self m) dirty (xor_valid m) (rehashing m) (capturing m) (rehash_mismatches m) (full_rehashes m).

Definition setFetchBytes (n : Z) (m : Manager) : Manager :=
  mkManager (num_buckets m) n (full_rehash_interval m) (partner_idx m) (xor_ m) (last_full_rehash_ns m) (pending m)
    (partners m) (self m) (partners_dirty m) (xor_valid m) (rehashing m) (capturing m) (rehash_mismatches m) (full_rehashes m).

Definition setFullRehashInterval (ms : Z) (m : Manager) : Manager :=
  mkManager (num_buckets m) (fetch_bytes m) ms (partner_idx m) (xor_ m) (last_full_rehash_ns m) (pending m)
    (partners m) (self m) (partners_dirty m) (xor_valid m) (rehashing m) (capturing m) (rehash_mismatches m) (full_rehashes m).

(** [l[i] ^= h], within the vector. *)
Definition xor_at (i : Z) (h : Z) (l : list Z) : list Z := alter (λ x, Z.lxor x h) (Z.to_nat i) l.

(** [std::ranges::binary_search] *)
Definition binary_search (l : list Z) (x : Z) : bool :=
  match l !! lower_bound l x with Some y => y <=? x | None => false end.

(** [std::ranges::unique] and the erase after it, on a sorted vector. *)
Fixpoint unique (l : list Z) : list Z :=
  match l with
  | x :: ((y :: _) as l') => if x =? y then unique l' else x :: unique l'
  | _ => l
  end.

(** [wanted[id] = 1] for the ids in range. *)
Definition marked (n : Z) (ids : list Z) (b : Z) : bool := (b <? n) && covers ids b.

Definition toIbltItems (rs : list MetaRow) : list iblt.Item :=
  (λ r, iblt.mkItem (r_key_hash r) (r_version r) (r_writer r) (r_tombstone r)) <$> rs.

Definition toMetaRows (bucket : Z) (items : list iblt.Item) : list MetaRow :=
  (λ i, mkRow bucket (iblt.tombstone i) (iblt.key_hash i) (iblt.version i) (iblt.writer i)) <$> items.

Record IbltDiff := mkIbltDiff { remote_only : list MetaRow; local_only : list MetaRow }.

Definition groups_of (m : Manager) : Z := (num_buckets m + Z.of_nat K_BUCKETS_PER_GROUP - 1) / Z.of_nat K_BUCKETS_PER_GROUP.

Section manager.
Context {S : Type} `{CacheStore S} `{Sorter}.
Context (xxh3 : bytes → Z).
Implicit Types (m : Manager) (s : S).

Definition bucketFor m (key : bytes) : Z := xxh3 key mod num_buckets m.

(** 64-bit arithmetic throughout. *)
Definition entryHashRaw (key : bytes) (version_and_ttl writer : Z) : Z :=
  let h := xxh3 key in
  let h := u64 (h + (0x9E3779B97F4A7C15 + u64 (Z.shiftl version_and_ttl 1) + version_and_ttl)) in
  let h := Z.lxor h (u64 (writer + 0x9E3779B97F4A7C15 + u64 (Z.shiftl h 6) + Z.shiftr h 2)) in
  iblt.mix h.

Definition entryHash (key : bytes) (e : VersionedEntry) : Z := entryHashRaw key (version_and_ttl e) (writer_node_hash e).

Definition onStoreMutation m (u : Mutation) : Manager :=
  let h := entryHashRaw (m_key u) (m_vt u) (m_writer u) in
  let bucket := bucketFor m (m_key u) in
  if capturing m then with_capture (pending m ++ [(bucket, h)]) true m
  else with_xor (xor_at bucket h (xor_ m)) m.

(** The sink is called in the course of the store's operations. *)
Definition absorb (s : S) m : S * Manager := let '(evs, s) := cs_takeEvents s in (s, foldl onStoreMutation m evs).

(** ** Digests *)

Definition computeDigest (c : Clock) m s : list Z :=
  cs_forEach c (λ digest k e, xor_at (bucketFor m k) (entryHash k e) digest) (replicate (Z.to_nat (num_buckets m)) 0) s.

Definition snapshotXor m : list Z := xor_ m.

(** The three parts of [fullRehash], between which the sink may be called. *)
Definition rehashBegin m : Manager := with_capture [] true m.

Definition rehashScan : Clock → Manager → S → list Z := computeDigest.

Definition rehashPublish (c : Clock) (local : list Z) m : Manager :=
  let local := foldl (λ l '(b, h), if b <? Z.of_nat (length l) then xor_at b h l else l) local (pending m) in
  let match_ := (Z.of_nat (length local) =? num_buckets m) && bool_decide (xor_ m = local) in
  mkManager (num_buckets m) (fetch_bytes m) (full_rehash_interval m) (partner_idx m) local (now c) []
    (partners m) (self m) true true (rehashing m) false
    (if match_ then rehash_mismatches m else rehash_mismatches m + 1) (full_rehashes m + 1).

Definition fullRehash (c : Clock) (s : S) m : Manager :=
  let m := rehashBegin m in rehashPublish c (rehashScan c m s) m.

Definition digestForRound (c : Clock) (s : S) m : list Z * Manager :=
  if rehashing m then (snapshotXor m, m)
  else
    let m := with_rehashing true m in
    let need_rehash := negb (xor_valid m) || (now c - last_full_rehash_ns m >=? full_rehash_interval m * 1000000) in
    let m := if need_rehash then fullRehash c s m else m in
    let m := with_rehashing false m in
    (snapshotXor m, m).

(** ** Sketches *)

Definition buildIblt (rs : list MetaRow) (cell_count : nat) : option (option iblt.Sketch) :=
  iblt.build xxh3 (toIbltItems rs) cell_count.

Definition decodeIbltDifference (remote local : iblt.Sketch) (bucket : Z) : option (option IbltDiff) :=
  d ← iblt.difference xxh3 remote local;
  Some (d ← d; Some (mkIbltDiff (toMetaRows bucket (iblt.remote_only d)) (toMetaRows bucket (iblt.local_only d)))).

(** ** Metadata *)

Definition rowFor m (key : bytes) (e : VersionedEntry) : MetaRow :=
  mkRow (bucketFor m key) (isTombstone e) (xxh3 key) (version e) (writer_node_hash e).

Definition bucketRows (c : Clock) m s (b : Z) : list MetaRow :=
  cs_forEach c (λ rs k e, if bucketFor m k =? b then rs ++ [rowFor m k e] else rs) [] s.

(** The loop over the buckets.  [covered] is the caller's vector, when there
    is one. *)
Fixpoint fillBuckets (rows_of : Z → list MetaRow) (max_bytes : Z) (bs : list Z) (rs : list MetaRow) (nbytes : Z)
    (covered : option (list Z)) : list MetaRow * option (list Z) :=
  match bs with
  | [] => (rs, covered)
  | b :: bs =>
      let vec := sort_by r_key_hash (rows_of b) in
      if (nbytes + 4 >? max_bytes) && match covered with Some (_ :: _) => true | _ => false end then (rs, covered)
      else
        let nbytes := nbytes + 4 in
        let covered' := (λ l, l ++ [b]) <$> covered in
        let need := Z.of_nat (length vec) * Z.of_nat K_META_ROW_BYTES in
        if (nbytes + need >? max_bytes) && match covered' with Some l => (1 <? length l)%nat | None => false end then (rs, covered)
        else
          let nbytes := nbytes + need in
          let rs := rs ++ vec in
          if nbytes >? max_bytes then (rs, covered') else fillBuckets rows_of max_bytes bs rs nbytes covered'
  end.

Definition bucket_ids_of m : list Z := Z.of_nat <$> seq 0 (Z.to_nat (num_buckets m)).

Definition collectRows (c : Clock) m s (bucket_ids : list Z) (max_bytes : Z) (covered : option (list Z)) : list MetaRow * option (list Z) :=
  fillBuckets (bucketRows c m s) max_bytes (filter (λ b, marked (num_buckets m) bucket_ids b = true) (bucket_ids_of m)) [] (2 * 4) covered.

Definition collectMetadata (c : Clock) m s (bucket_ids : list Z) (max_bytes : Z) (covered : option (list Z)) : option (bytes * option (list Z)) :=
  let '(rs, covered) := collectRows c m s bucket_ids max_bytes covered in
  blob ← encodeMetaRows rs;
  Some (blob, covered).

(** ** Entries *)

Fixpoint selectEntries (c : Clock) (pairs : list (Z * bytes)) (max_bytes nbytes : Z) (items : list (bytes * VersionedEntry)) s
    : option (list (bytes * VersionedEntry) * S) :=
  match pairs with
  | [] => Some (items, s)
  | (_, key) :: pairs =>
      '(existing, s) ← cs_getVersioned c key s;
      match existing with
      | None => selectEntries c pairs max_bytes nbytes items s
      | Some e =>
          let cost := Z.of_nat (syncEntryWireSize key e) in
          if (nbytes + cost >? max_bytes) && match items with [] => false | _ => true end then Some (items, s)
          else
            let nbytes := nbytes + cost in
            let items := items ++ [(key, e)] in
            if nbytes >? max_bytes then Some (items, s) else selectEntries c pairs max_bytes nbytes items s
      end
  end.

Definition selectEntriesForPairs (c : Clock) (pairs : list (Z * bytes)) (max_bytes : Z) s : option (list (bytes * VersionedEntry) * S) :=
  selectEntries c pairs max_bytes 0 [] s.

(** [try_emplace] keeps the first key of a hash. *)
Definition resolveHashes (c : Clock) (sorted : list Z) s : gmap Z bytes :=
  cs_forEach c (λ res k _, let h := xxh3 k in
    if binary_search sorted h then match res !! h with Some _ => res | None => <[h := k]> res end else res) ∅ s.

Definition selectEntriesForHashes (c : Clock) (hashes : list Z) (max_bytes : Z) s : option (list (bytes * VersionedEntry) * S) :=
  match hashes with
  | [] => Some ([], s)
  | _ =>
      let sorted := unique (sort_by id hashes) in
      let resolved := resolveHashes c sorted s in
      selectEntriesForPairs c (sort_by fst (map_to_list resolved)) max_bytes s
  end.

Definition collectEntriesForHashes (c : Clock) (hashes : list Z) (max_bytes : Z) s : option (bytes * S) :=
  '(items, s) ← selectEntriesForHashes c hashes max_bytes s;
  blob ← encodeSync c (mkSync items []);
  Some (blob, s).

Definition collectEntriesByKeys (c : Clock) (keys : list bytes) (max_bytes : Z) s : option (bytes * S) :=
  '(items, s) ← selectEntriesForPairs c (sort_by fst ((λ k, (xxh3 k, k)) <$> keys)) max_bytes s;
  blob ← encodeSync c (mkSync items []);
  Some (blob, s).

(** ** The difference of two sides *)

Definition rowStamp (r : MetaRow) : LwwStamp := mkStamp (r_version r) (r_writer r) (r_tombstone r).

(** The rows not yet matched, the hashes to fetch and the keys to push. *)
Definition DiffState : Type := gmap Z MetaRow * list Z * list (Z * bytes).

Definition diffEntry m (wanted covered : Z → bool) (st : DiffState) (key : bytes) (e : VersionedEntry) : DiffState :=
  let '(by_hash, need, have) := st in
  if negb (wanted (bucketFor m key)) then st
  else
    let h := xxh3 key in
    match by_hash !! h with
    | None => if covered (bucketFor m key) then (by_hash, need, have ++ [(h, key)]) else st
    | Some row =>
        let need' := if lwwWinsOver (rowStamp row) (stampOf e) then need ++ [h] else need in
        let have' :=
          if lwwWinsOver (rowStamp row) (stampOf e) then have
          else if lwwWinsOver (stampOf e) (rowStamp row) then have ++ [(h, key)] else have in
        (delete h by_hash, need', have')
    end.

Definition coveredBy m (covered_buckets : list Z) (b : Z) : bool :=
  match covered_buckets with [] => b <? num_buckets m | _ => marked (num_buckets m) covered_buckets b end.

Definition diffRows (c : Clock) m s (rs : list MetaRow) (divergent covered_buckets : list Z) : option MetaDiff :=
  match divergent with
  | [] => Some (mkMetaDiff [] [])
  | _ =>
      let wanted := marked (num_buckets m) divergent in
      let covered := coveredBy m covered_buckets in
      let by_hash := foldl (λ bh r, <[r_key_hash r := r]> bh) (∅ : gmap Z MetaRow) rs in
      let '(rest, need, have) := cs_forEach c (diffEntry m wanted covered) (by_hash, [], []) s in
      more ← mapM (λ '(h, row), if (r_bucket row <? num_buckets m) then Some (if covered (r_bucket row) then [h] else []) else None)
        (map_to_list rest);
      Some (mkMetaDiff (sort_by id (need ++ concat more)) (sort_by fst have))
  end.

(** ** Applying *)

Definition isNewer (c : Clock) (key : bytes) (stamp : LwwStamp) s : option (bool * S) :=
  '(existing, s) ← cs_getVersioned c key s;
  Some (match existing with None => true | Some e => lwwWinsOver stamp (stampOf e) end, s).

Fixpoint applyItems (c : Clock) (items : list (bytes * VersionedEntry)) (applied : Z) s : option (Z * S) :=
  match items with
  | [] => Some (applied, s)
  | (key, e) :: items =>
      '(is_new, s) ← isNewer c key (stampOf e) s;
      '(_, s) ← cs_putVersioned c key e s;
      applyItems c items (if (is_new : bool) then applied + 1 else applied) s
  end.

Definition applySync (c : Clock) (msg : SyncMessage) s : option (Z * S) := applyItems c (entries msg) 0 s.

Definition applyEntries (c : Clock) (data : bytes) s : option (Z * S) :=
  match decodeSync c data with
  | Some (mkSync es []) => applySync c (mkSync es []) s
  | _ => Some (0, s)
  end.

(** ** Partners *)

Section partners.
Context (hash64 : bytes → Z).

(** The candidates so far, as the sorted set; stops above 64. *)
Fixpoint considerKeys m (ring : Ring) (replica_factor : Z) (keys : list bytes) (candidates : gset bytes) : option (gset bytes) :=
  match keys with
  | [] => Some candidates
  | key :: keys =>
      match getNodes hash64 key replica_factor ring with
      | Done nodes =>
          let candidates := foldl (λ cs n, if decide (n = self m) then cs else {[n]} ∪ cs) candidates nodes in
          if (64 <? size candidates)%nat then Some candidates else considerKeys m ring replica_factor keys candidates
      | _ => None
      end
  end.

Definition refreshPartners (c : Clock) (ring : Ring) (replica_factor : Z) (s : S) m : option (list bytes) :=
  if replica_factor <=? 1 then Some []
  else
    candidates ← considerKeys m ring replica_factor (cs_liveEntries c s).*1 ∅;
    Some (merge_sort bytes_le (elements candidates)).

Definition pickPartner (c : Clock) (ring : Ring) (replica_factor : Z) (s : S) m : option (option bytes * Manager) :=
  if replica_factor <=? 1 then Some (None, m)
  else
    let refresh := match partners m with [] => true | _ => partners_dirty m end in
    (* an empty cache short-circuits the exchange of the flag *)
    let dirty := match partners m with [] => partners_dirty m | _ => false end in
    ps ← (if refresh then refreshPartners c ring replica_factor s m else Some (partners m));
    let m := with_partners (partner_idx m) ps dirty m in
    match ps with
    | [] => Some (None, m)
    | _ =>
        p ← ps !! Z.to_nat (partner_idx m mod Z.of_nat (length ps));
        Some (Some p, with_partners (u64 (partner_idx m + 1)) ps dirty m)
    end.
End partners.

(** ** The responder *)

Definition respond (status : Errc) (v : option bytes) (req : Request) : Response :=
  mkResponse (Errc_code status) v 0 0 None false (trace_id req) (span_id req).

Definition K_REFINEMENT_KEY : bytes := lit "bucket-refinement-v3".

(** A bucket of the answer: rows up to the threshold, a sketch from there on. *)
Record BucketBuild := mkBuild { b_sample : list MetaRow; b_sketch : option iblt.Sketch }.

Definition buildRow (row : MetaRow) (b : BucketBuild) : option BucketBuild :=
  match b_sketch b with
  | None =>
      let sample := b_sample b ++ [row] in
      if (length sample =? K_IBLT_MIN_ROWS)%nat then
        sketch ← buildIblt sample K_IBLT_DEFAULT_CELLS;
        Some (match sketch with Some sk => mkBuild [] (Some sk) | None => mkBuild sample None end)
      else Some (mkBuild sample None)
  | Some sk =>
      sk ← iblt.insert xxh3 (iblt.mkItem (r_key_hash row) (r_version row) (r_writer row) (r_tombstone row)) sk;
      Some (mkBuild (b_sample b) (Some sk))
  end.

Definition buildBucket (rs : list MetaRow) : option BucketBuild :=
  foldl (λ b row, b ← b; buildRow row b) (Some (mkBuild [] None)) rs.

(** The rows and sketches of the requested buckets, in their order. *)
Fixpoint answerBuckets (c : Clock) m s (bs : list Z) (rs : list MetaRow) (sketches : list (Z * bytes))
    : option (list MetaRow * list (Z * bytes)) :=
  match bs with
  | [] => Some (rs, sketches)
  | b :: bs =>
      build ← buildBucket (bucketRows c m s b);
      match b_sketch build with
      | Some sk => blob ← iblt.encode sk; answerBuckets c m s bs rs (sketches ++ [(b, blob)])
      | None => answerBuckets c m s bs (rs ++ b_sample build) sketches
      end
  end.

Definition pair_le (a b : Z * Z) : Prop := a.1 < b.1 ∨ a.1 = b.1 ∧ a.2 <= b.2.

#[local] Instance pair_le_dec : RelDecision pair_le.
Proof. intros a b. unfold pair_le. apply _. Defined.

Definition onBucketRefinement (c : Clock) (req : Request) (s : S) m : option (Response * (S * Manager)) :=
  match decodeBucketRefinement (Protocol.value req) (num_buckets m) with
  | None => Some (respond InvalidArgument None req, (s, m))
  | Some request =>
      let '(local, m) := digestForRound c s m in
      hashes ← mapM (λ '(b, h), x ← local !! Z.to_nat b; Some (b, x, h)) (br_hashes request);
      let requested := sort_by id (omap (λ '(b, x, h), if negb (x =? h) then Some b else None) hashes) in
      let bucket_hashes := merge_sort pair_le (fst <$> hashes) in
      let groups := groupDigests xxh3 local in
      if force_metadata request then
        '(meta, covered) ← collectMetadata c m s requested K_MAX_METADATA_BYTES (Some []);
        match decodeMetaRows meta with
        | None => Some (respond InternalError None req, (s, m))
        | Some rs =>
            v ← encodeDigestResponse (mkDigestResponse groups bucket_hashes (default [] covered) rs []);
            Some (respond OK (Some v) req, (s, m))
        end
      else
        '(rs, sketches) ← answerBuckets c m s requested [] [];
        v ← encodeDigestResponse (mkDigestResponse groups bucket_hashes requested rs sketches);
        Some (respond OK (Some v) req, (s, m))
  end.

Definition onDigestRequest (c : Clock) (req : Request) (s : S) m : option (Response * (S * Manager)) :=
  if decide (Protocol.key req = K_REFINEMENT_KEY) then onBucketRefinement c req s m
  else
    match decodeGroupDigest (Protocol.value req) (groups_of m) with
    | None => Some (respond InvalidArgument None req, (s, m))
    | Some _ =>
        let '(local, m) := digestForRound c s m in
        v ← encodeDigestResponse (mkDigestResponse (groupDigests xxh3 local) [] [] [] []);
        Some (respond OK (Some v) req, (s, m))
    end.

Definition onSyncRequest (c : Clock) (req : Request) (s : S) m : option (Response * (S * Manager)) :=
  match decodeSync c (Protocol.value req) with
  | None => Some (respond InvalidArgument None req, (s, m))
  | Some msg =>
      '(_, s) ← applySync c msg s;
      '(items, s) ← (match needs msg with [] => Some ([], s) | ns => selectEntriesForHashes c ns (fetch_bytes m) s end);
      v ← encodeSync c (mkSync items []);
      Some (respond OK (Some v) req, absorb s m)
  end.

(** ** The initiator *)

Definition request (op : Opcode) (key v : bytes) (ctx : Z * Z) : Request :=
  mkRequest op ctx.1 ctx.2 key v 0 0 None None false.

(** The value of a response that is there and says so. *)
Definition accepted_value (r : Result Response) : option bytes :=
  match r with Ok resp => if status resp =? Errc_code OK then r_value resp else None | Err _ => None end.

Section world.
(** The transport: the world answers a request, with an error perhaps. *)
Context {W : Type} (send : Request → W → option (Result Response * W)).
Context (ctx : Z * Z).

(** The fetch: entries only, applied. *)
Definition finishSync (c : Clock) (r : Result Response) (s : S) m : option (S * Manager) :=
  match accepted_value r with
  | None => Some (s, m)
  | Some v =>
      match decodeSync c v with
      | Some (mkSync es []) => '(_, s) ← applySync c (mkSync es []) s; Some (absorb s m)
      | _ => Some (s, m)
      end
  end.

Definition divergentGroups (local remote : list Z) : list Z :=
  omap (λ '(g, (x, y)), if negb (x =? y) then Some g else None) (zip (Z.of_nat <$> seq 0 (length local)) (zip local remote)).

(** No bucket out of range and none twice. *)
Fixpoint remoteBuckets (n : Z) (hashes : list (Z * Z)) (acc : gmap Z Z) : option (gmap Z Z) :=
  match hashes with
  | [] => Some acc
  | (b, h) :: hashes =>
      if (b >=? n) || match acc !! b with Some _ => true | None => false end then None
      else remoteBuckets n hashes (<[b := h]> acc)
  end.

(** From the remote rows on: what differs, what to push, what to fetch.
    [has_diff] are the buckets whose sketch showed a difference and [sketched]
    those that came as a sketch. *)
Definition finishRows (c : Clock) (local : list Z) (response : DigestResponse) (rs : list MetaRow) (covered sketched has_diff : list Z)
    (s : S) m (w : W) : option (S * Manager * W) :=
  match remoteBuckets (num_buckets m) (bucket_hashes response) ∅ with
  | None => Some (s, m, w)
  | Some remote =>
      if negb (forallb (λ b, b <? num_buckets m) sketched && bool_decide (NoDup sketched)) then Some (s, m, w)
      else if negb (Z.of_nat (length (group_hashes response)) =? groups_of m) then Some (s, m, w)
      else
        divergent ← mapM (λ b,
            x ← local !! Z.to_nat b;
            Some (match remote !! b with
                  | Some h => if negb (x =? h) then [b] else if covers sketched b && covers covered b && covers has_diff b then [b] else []
                  | None => if covers sketched b && covers covered b && covers has_diff b then [b] else []
                  end)) (bucket_ids_of m);
        let divergent := concat divergent in
        match divergent with
        | [] => Some (s, m, w)
        | _ =>
            let covered := sort_by id (covered ++ filter (λ b, covers sketched b && negb (covers covered b) = true) (bucket_ids_of m)) in
            if negb (forallb (λ b, b <? num_buckets m) covered) then Some (s, m, w)
            else if negb (forallb (λ r, (r_bucket r <? num_buckets m) && covers covered (r_bucket r) && covers divergent (r_bucket r)) rs)
            then Some (s, m, w)
            else
              diff ← diffRows c m s rs divergent covered;
              '(items, s) ← selectEntriesForPairs c (have diff) (fetch_bytes m) s;
              let '(s, m) := absorb s m in
              v ← encodeSync c (mkSync items (need diff));
              '(r, w) ← send (request AntiEntropySync [] v ctx) w;
              '(s, m) ← finishSync c r s m;
              Some (s, m, w)
        end
  end.

(** One sketch against the local rows of its bucket; [None] inside is a bucket
    that failed. *)
Definition sketchDifference (c : Clock) (local : list Z) (response : DigestResponse) m s (bucket : Z) (blob : bytes)
    : option (option (list MetaRow * bool)) :=
  if bucket >=? num_buckets m then Some None
  else if negb (binary_search (covered_buckets response) bucket) then Some None
  else
    '(local_blob, local_covered) ← collectMetadata c m s [bucket] K_MAX_METADATA_BYTES (Some []);
    let local_rows := decodeMetaRows local_blob in
    local_sketch ← (match local_rows with Some rs => buildIblt rs K_IBLT_DEFAULT_CELLS | None => Some None end);
    difference ← (match iblt.decode blob, local_sketch with
                  | Some remote, Some local =>
                      if binary_search (default [] local_covered) bucket then decodeIbltDifference remote local bucket else Some None
                  | _, _ => Some None
                  end);
    match difference with
    | None => Some None
    | Some d =>
        x ← local !! Z.to_nat bucket;
        let empty := match remote_only d, local_only d with [], [] => true | _, _ => false end in
        match list_find (λ y, y.1 = bucket) (bucket_hashes response) with
        | None => Some None
        | Some (_, (_, h)) =>
            if negb (x =? h) && empty then Some None
            else
              let removed := r_key_hash <$> local_only d in
              let kept := filter (λ r, r_key_hash r ∉ removed) (default [] local_rows) in
              Some (Some (kept ++ remote_only d, negb empty))
        end
    end.

(** All sketches: the rows rebuilt, the buckets that differ and those that failed. *)
Fixpoint readSketches (c : Clock) (local : list Z) (response : DigestResponse) m s (sketches : list (Z * bytes))
    (rs : list MetaRow) (has_diff failed : list Z) : option (list MetaRow * list Z * list Z) :=
  match sketches with
  | [] => Some (rs, has_diff, failed)
  | (b, blob) :: sketches =>
      d ← sketchDifference c local response m s b blob;
      match d with
      | None => readSketches c local response m s sketches rs has_diff (failed ++ [b])
      | Some (more, differs) =>
          readSketches c local response m s sketches (rs ++ more) (if (differs : bool) then has_diff ++ [b] else has_diff) failed
      end
  end.

(** [it->second = hash] for the bucket, or a new pair. *)
Definition setBucketHash (hashes : list (Z * Z)) (x : Z * Z) : list (Z * Z) :=
  match list_find (λ y, y.1 = x.1) hashes with
  | Some (i, _) => <[i := x]> hashes
  | None => hashes ++ [x]
  end.

(** The response with the buckets that failed replaced by explicit rows. *)
Definition mergeFallback (response fallback : DigestResponse) (failed covered : list Z) (rs : list MetaRow) : DigestResponse :=
  let covered := filter (λ b, binary_search failed b = false) covered in
  let rs := filter (λ r, binary_search failed (r_bucket r) = false) rs in
  mkDigestResponse (group_hashes response) (foldl setBucketHash (bucket_hashes response) (bucket_hashes fallback))
    (unique (sort_by id (covered ++ covered_buckets fallback))) (rs ++ rows fallback) [].

Definition finishRefinement (c : Clock) (local : list Z) (response : DigestResponse) (s : S) m (w : W) : option (S * Manager * W) :=
  '(rs, has_diff, failed) ← readSketches c local response m s (iblt_sketches response) (rows response) [] [];
  let failed := unique (sort_by id failed) in
  let covered := sort_by id (covered_buckets response) in
  match failed with
  | [] => finishRows c local response rs covered (iblt_sketches response).*1 has_diff s m w
  | _ =>
      let hashes := omap (λ b, h ← local !! Z.to_nat b; Some (b, h)) failed in
      v ← encodeBucketRefinement (mkRefinement hashes true);
      '(r, w) ← send (request AntiEntropyDigest K_REFINEMENT_KEY v ctx) w;
      match accepted_value r with
      | None => Some (s, m, w)
      | Some v =>
          match decodeDigestResponse v (groups_of m) with
          | None => Some (s, m, w)
          | Some fallback =>
              let merged := mergeFallback response fallback failed covered rs in
              finishRows c local merged (rows merged) (sort_by id (covered_buckets merged)) [] [] s m w
          end
      end
  end.

(** The buckets of the divergent groups, with our hashes. *)
Definition refinementFor m (local : list Z) (groups : list Z) : option BucketRefinement :=
  hashes ← mapM (λ g,
    let lo := g * Z.of_nat K_BUCKETS_PER_GROUP in
    let hi := Z.min (lo + Z.of_nat K_BUCKETS_PER_GROUP) (num_buckets m) in
    mapM (λ b, h ← local !! Z.to_nat b; Some (b, h)) (seqZ lo (hi - lo))) groups;
  Some (mkRefinement (concat hashes) false).

End world.

(** The exchange with a partner that has been picked.  The requests carry the
    ids of the round's span, those sent from the refinement on the ids of
    their parent span. *)
Definition exchange {W} (send : Request → W → option (Result Response * W)) (ctx refinement_parent : Z * Z)
    (c : Clock) (s : S) m (w : W) : option (S * Manager * W) :=
  let '(local, m) := digestForRound c s m in
  let local_groups := groupDigests xxh3 local in
  v ← encodeGroupDigest local_groups;
  '(r, w) ← send (request AntiEntropyDigest [] v ctx) w;
  match accepted_value r with
  | None => Some (s, m, w)
  | Some v =>
      match decodeDigestResponse v (groups_of m) with
      | None => Some (s, m, w)
      | Some response =>
          match divergentGroups local_groups (group_hashes response) with
          | [] => Some (s, m, w)
          | groups =>
              refinement ← refinementFor m local groups;
              v ← encodeBucketRefinement refinement;
              '(r, w) ← send (request AntiEntropyDigest K_REFINEMENT_KEY v ctx) w;
              match accepted_value r with
              | None => Some (s, m, w)
              | Some v =>
                  match decodeDigestResponse v (groups_of m) with
                  | None => Some (s, m, w)
                  | Some decoded => finishRefinement send refinement_parent c local decoded s m w
                  end
              end
          end
      end
  end.

(** The world in which every request reaches its partner by name. *)
Definition runRound {W} (send : bytes → Request → W → option (Result Response * W)) (ctx refinement_parent : Z * Z) (hash64 : bytes → Z)
    (c : Clock) (ring : Ring) (replica_factor : Z) (s : S) m (w : W) : option (S * Manager * W) :=
  '(partner, m) ← pickPartner hash64 c ring replica_factor s m;
  match partner with
  | None => Some (s, m, w)
  | Some p => exchange (send p) ctx refinement_parent c s m w
  end.

End manager.
