(* ===== verification/AeDigest.v ===== *)
(** * The incremental digest

    The accumulators of the anti-entropy manager against the full scan: after
    a rehash, every sequence of store operations keeps them equal to what a
    scan would give; and the two situations in which they are not, a rehash
    over entries that have expired and a write during a rehash. *)

From S2P Require Import Prelude Types Bytes HashRing Protocol Buffers Clock Iblt AeCodec.
From S2P Require Import Wal WheelHeap TtlWheel Store StoreFacts LruStore LfuStore StoreSpec Persistence Recovery Disk Durability CacheStore.
From S2P Require Import AntiEntropy.
Local Open Scope Z_scope.

(** ** Sums of exclusive or *)

Section xsum.
Context {A : Type} `{EqDecision A}.
Implicit Types (f : A → Z) (l : list A).

Definition xsum (f : A → Z) (l : list A) : Z := foldr (λ i a, Z.lxor (f i) a) 0 l.

Definition count_of (i : A) (l : list A) : nat := length (filter (λ j, j = i) l).

Lemma xsum_app f l k : xsum f (l ++ k) = Z.lxor (xsum f l) (xsum f k).
Proof. induction l as [|i l IH]; simpl; [done|]. by rewrite IH, Z.lxor_assoc. Qed.

Lemma xsum_perm f l k : l ≡ₚ k → xsum f l = xsum f k.
Proof.
  induction 1; simpl; [done|by f_equal| |congruence]. rewrite <- !Z.lxor_assoc. f_equal. apply Z.lxor_comm.
Qed.

Lemma count_app i l k : count_of i (l ++ k) = (count_of i l + count_of i k)%nat.
Proof. unfold count_of. by rewrite filter_app, length_app. Qed.

Lemma count_nil i : count_of i [] = O.
Proof. done. Qed.

Lemma count_cons i j l : count_of i (j :: l) = ((if decide (j = i) then 1 else 0) + count_of i l)%nat.
Proof. unfold count_of. rewrite filter_cons. by destruct (decide (j = i)). Qed.

Lemma count_perm i l k : l ≡ₚ k → count_of i l = count_of i k.
Proof. intros E. unfold count_of. by rewrite E. Qed.

(** What occurs an even number of times cancels. *)
Lemma xsum_even f l : (∀ i, Nat.Even (count_of i l)) → xsum f l = 0.
Proof.
  remember (length l) as n eqn:Hn. revert l Hn. induction (lt_wf n) as [n _ IH]. intros [|i l] Hn He; [done|].
  assert (i ∈ l) as Hi.
  { destruct (decide (i ∈ l)) as [|Hno]; [done|]. exfalso. specialize (He i). rewrite count_cons, decide_True in He by done.
    assert (count_of i l = O) as Hz.
    { unfold count_of. destruct (filter (λ j, j = i) l) as [|j k] eqn:E; [done|].
      assert (j ∈ filter (λ j, j = i) l) as [-> Hj]%list_elem_of_filter by (rewrite E; apply list_elem_of_here). done. }
    rewrite Hz in He. by destruct He as [[|] ?]; lia. }
  apply elem_of_Permutation in Hi as [k Hk]. cbn [xsum foldr]. fold (xsum f l). rewrite (xsum_perm f l _ Hk). cbn [xsum foldr]. fold (xsum f k).
  rewrite <- Z.lxor_assoc, Z.lxor_nilpotent, Z.lxor_0_l. apply (IH (length k)); [|done|].
  - simpl in Hn. rewrite (Permutation_length Hk) in Hn. simpl in Hn. lia.
  - intros j. specialize (He j). rewrite count_cons, (count_perm j l _ Hk), count_cons in He.
    destruct (decide (i = j)); simpl in He; [|done]. destruct He as [p Hp]. exists (p - 1)%nat. lia.
Qed.

Lemma xsum_parity f l k : (∀ i, Nat.Even (count_of i l + count_of i k)) → xsum f l = xsum f k.
Proof.
  intros He. assert (xsum f (l ++ k) = 0) as E by (apply xsum_even; intros i; by rewrite count_app).
  rewrite xsum_app in E. by apply Z.lxor_eq in E.
Qed.

Lemma count_NoDup i l : NoDup l → count_of i l = if decide (i ∈ l) then 1%nat else O.
Proof.
  induction 1 as [|j l Hj _ IH]; [done|]. rewrite count_cons, IH.
  destruct (decide (j = i)) as [->|Hne].
  - rewrite (decide_False (P := i ∈ l)) by done. by rewrite decide_True by (by constructor).
  - destruct (decide (i ∈ l)); [rewrite decide_True by (by constructor)|rewrite decide_False by (rewrite elem_of_cons; naive_solver)]; done.
Qed.
End xsum.

(** ** Accumulators as sums *)

Section digest.
Context (xxh3 : bytes → Z).
Implicit Types (m : Manager).

(** What an identity adds to a bucket. *)
Definition weight (n : Z) (b : nat) (i : Ident) : Z :=
  let '(k, vt, w) := i in if decide (Z.to_nat (xxh3 k mod n) = b) then entryHashRaw xxh3 k vt w else 0.

Definition mut_ident (u : Mutation) : Ident := (m_key u, m_vt u, m_writer u).

(** The table [l] with the identities [is] on top. *)
Definition folded (n : Z) (is_ : list Ident) (l : list Z) : list Z := imap (λ b x, Z.lxor x (xsum (weight n b) is_)) l.

Lemma folded_nil n l : folded n [] l = l.
Proof. unfold folded. apply list_eq. intros i. rewrite list_lookup_imap. destruct (l !! i); simpl; [|done]. by rewrite Z.lxor_0_r. Qed.

Lemma folded_app n a b l : folded n (a ++ b) l = folded n b (folded n a l).
Proof.
  apply list_eq. intros i. unfold folded. rewrite !list_lookup_imap. destruct (l !! i); simpl; [|done].
  by rewrite xsum_app, Z.lxor_assoc.
Qed.

Lemma folded_ext n a b l : (∀ i, xsum (weight n i) a = xsum (weight n i) b) → folded n a l = folded n b l.
Proof. intros E. apply imap_ext. intros i x _. by rewrite E. Qed.

Lemma folded_length n a l : length (folded n a l) = length l.
Proof. apply length_imap. Qed.

Lemma xor_at_folded n k vt w l :
  xor_at (xxh3 k mod n) (entryHashRaw xxh3 k vt w) l = folded n [(k, vt, w)] l.
Proof.
  apply list_eq. intros i. unfold xor_at, folded. rewrite list_lookup_imap. destruct (decide (Z.to_nat (xxh3 k mod n) = i)) as [<-|Hne].
  - rewrite list_lookup_alter_eq. destruct (l !! _); [|done]. simpl. by rewrite decide_True, Z.lxor_0_r by done.
  - rewrite list_lookup_alter_ne by done. destruct (l !! i); [|done]. simpl. by rewrite decide_False, !Z.lxor_0_r by done.
Qed.

(** Calls of the sink outside a rehash. *)
Lemma mutations_folded evs m :
  capturing m = false →
  foldl (onStoreMutation xxh3) m evs = with_xor (folded (num_buckets m) (mut_ident <$> evs) (xor_ m)) m.
Proof.
  revert m. induction evs as [|u evs IH]; intros m Hc; cbn [foldl fmap list_fmap].
  - rewrite folded_nil. by destruct m.
  - assert (onStoreMutation xxh3 m u = with_xor (folded (num_buckets m) [mut_ident u] (xor_ m)) m) as ->.
    { unfold onStoreMutation, bucketFor. rewrite Hc, xor_at_folded. done. }
    rewrite IH by done. cbn [num_buckets xor_ with_xor]. by rewrite <- folded_app.
Qed.

(** Calls during a rehash go to the log. *)
Lemma mutations_pending evs m :
  capturing m = true →
  foldl (onStoreMutation xxh3) m evs =
  with_capture (pending m ++ ((λ u, (bucketFor xxh3 m (m_key u), entryHashRaw xxh3 (m_key u) (m_vt u) (m_writer u))) <$> evs)) true m.
Proof.
  revert m. induction evs as [|u evs IH]; intros m Hc; cbn [foldl fmap list_fmap].
  - rewrite app_nil_r. destruct m. simpl in *. by subst.
  - unfold onStoreMutation at 2. rewrite Hc. rewrite IH by done. unfold with_capture. simpl. by rewrite <- app_assoc.
Qed.

Lemma drain_folded evs n l :
  Z.of_nat (length l) = n → 0 < n →
  foldl (λ l '(b, h), if b <? Z.of_nat (length l) then xor_at b h l else l) l
    ((λ u, (xxh3 (m_key u) mod n, entryHashRaw xxh3 (m_key u) (m_vt u) (m_writer u))) <$> evs) =
  folded n (mut_ident <$> evs) l.
Proof.
  intros Hl Hn. revert l Hl. induction evs as [|u evs IH]; intros l Hl; cbn [foldl fmap list_fmap]; [by rewrite folded_nil|].
  pose proof (Z.mod_pos_bound (xxh3 (m_key u)) n Hn). destruct (Z.ltb_spec (xxh3 (m_key u) mod n) (Z.of_nat (length l))); [|lia].
  rewrite xor_at_folded, IH by (by rewrite folded_length). rewrite <- folded_app. done.
Qed.

(** ** The scan *)

Context {PN PS : Type} `{PolicyLaws PN PS}.
Context (hash : bytes → Z).
Implicit Types (s : Store PN PS).
#[local] Existing Instance eviction_cache.

Definition digest (c : Clock) m s : list Z := computeDigest (H := eviction_cache hash) xxh3 c m s.

Lemma digest_folded c m s :
  digest c m s = folded (num_buckets m) (ident <$> liveEntries c s) (replicate (Z.to_nat (num_buckets m)) 0).
Proof.
  unfold digest, computeDigest, cs_forEach. simpl. generalize (replicate (Z.to_nat (num_buckets m)) 0).
  induction (liveEntries c s) as [|[k e] es IH]; intros l; cbn [foldl fmap list_fmap]; [by rewrite folded_nil|].
  unfold bucketFor, entryHash. rewrite xor_at_folded, IH, <- folded_app. done.
Qed.

Definition fresh (c : Clock) s : Prop := ∀ k e, lookup_store hash s k = Some e → expired (now c) e = false.

Lemma live_NoDup c s : store_inv hash s → NoDup (ident <$> liveEntries c s).
Proof.
  intros Hs. pose proof (liveEntries_keys hash c s Hs) as Hn.
  apply (NoDup_fmap_1 (λ i : Ident, i.1.1)). rewrite <- list_fmap_compose. exact Hn.
Qed.

(** The scan has the live identities, once each. *)
Lemma live_count c s k vt w :
  store_inv hash s →
  Z.of_nat (count_of (k, vt, w) (ident <$> liveEntries c s)) =
  from_option (λ e, one (k, e) (k, vt, w)) 0 (unexpired c (lookup_store hash s k)).
Proof.
  intros Hs. rewrite count_NoDup by (by apply live_NoDup). unfold unexpired.
  case_decide as Hin.
  - apply list_elem_of_fmap in Hin as ([k' e] & E & Hin). injection E as <- -> ->.
    apply (liveEntries_elem hash c s) in Hin as [Hl Hx]; [|done]. rewrite Hl. cbn. rewrite Hx. cbn. unfold one. rewrite decide_True by done. done.
  - destruct (lookup_store hash s k) as [e|] eqn:El; simpl; [|done]. destruct (expired (now c) e) eqn:Ex; simpl; [done|].
    unfold one. rewrite decide_False; [done|]. intros E. apply Hin, list_elem_of_fmap. exists (k, e). split; [done|].
    by apply (liveEntries_elem hash c s).
Qed.

Lemma live_residents c s i :
  store_inv hash s → fresh c s → Z.of_nat (count_of i (ident <$> liveEntries c s)) = residents (shards s) i.
Proof.
  intros Hs Hf. destruct i as [[k vt] w]. rewrite live_count, (residents_lookup hash) by done. unfold unexpired.
  destruct (lookup_store hash s k) as [e|] eqn:El; [|done]. simpl. by rewrite (Hf k e El).
Qed.

(** ** The feed *)

Lemma balance_parity evs i : ∃ z, balance evs i = Z.of_nat (count_of i (mut_ident <$> evs)) + 2 * z.
Proof.
  induction evs as [|u evs [z IH]]; [by exists 0|]. cbn [fmap list_fmap balance foldr]. fold (balance evs i).
  rewrite count_cons, IH. repeat case_decide; try done; [destruct (m_removed u)|];
    [exists (z - 1)|exists z|exists z]; lia.
Qed.

(** Sums over the calls of the sink are determined by what they change. *)
Lemma balanced_xsum f evs (a b : list Ident) :
  (∀ i, balance evs i = Z.of_nat (count_of i a) - Z.of_nat (count_of i b)) →
  xsum f (mut_ident <$> evs) = Z.lxor (xsum f a) (xsum f b).
Proof.
  intros Hb. rewrite <- xsum_app. apply xsum_parity. intros i. rewrite count_app. destruct (balance_parity evs i) as [z Hz].
  rewrite Hb in Hz. exists (Z.to_nat (Z.of_nat (count_of i a) - z)). lia.
Qed.

Lemma folded_balanced n evs a b l :
  (∀ i, balance evs i = Z.of_nat (count_of i a) - Z.of_nat (count_of i b)) →
  folded n (mut_ident <$> evs) (folded n b l) = folded n a l.
Proof.
  intros Hb. rewrite <- folded_app. apply folded_ext. intros i. rewrite xsum_app, (balanced_xsum _ evs a b Hb).
  rewrite Z.lxor_comm, Z.lxor_assoc, Z.lxor_nilpotent. apply Z.lxor_0_r.
Qed.

Lemma clean_feed (ops : list StoreOp) s s' :
  store_inv hash s → 0 <= next_version (glob s) → Z.max (next_version (glob s)) (2 ^ 62) + Z.of_nat (length ops) < 2 ^ 64 - 1 →
  clean_runs hash ops s s' →
  store_inv hash s' ∧ ∃ evs, noted evs (glob s) (glob s') ∧ ∀ i, balance evs i = residents (shards s') i - residents (shards s) i.
Proof.
  intros Hs Hv Hb Hrun. induction Hrun as [s|op ops s r s1 s2 Hok Hmay E Hkept _ IH].
  { split; [done|]. exists []. split; [by apply noted_nil|]. intros i. simpl. lia. }
  cbn [length] in Hb. destruct (run_op_spec hash op s Hs Hok Hmay) as (r' & s1' & E' & Hs1 & Hv1 & Hv1'); [lia|].
  rewrite E in E'. injection E' as <- <-. destruct IH as (Hs2 & evs2 & Hn2 & Hb2); [done|lia..|]. split; [done|].
  destruct (run_op_feed hash op s r s1 Hs Hok Hmay) as (evs & Hn & Hbal); [lia|done|].
  exists (evs ++ evs2). split.
  - unfold noted in *. rewrite Hn2, Hn. destruct (sink (glob s)); simpl; [|done]. by rewrite app_assoc.
  - intros i. rewrite balance_app, Hb2, Hbal. assert (op_lost hash op s r s1 i = 0) as ->; [|lia].
    unfold op_lost. destruct (op_writes op s) as [[k e]|] eqn:Ew; [|done]. simpl. unfold lost. destruct r as [[]|]; [|done].
    by destruct (Hkept k e eq_refl eq_refl) as [? ->].
Qed.

(** ** Rehashes *)

Definition rehash (c : Clock) s m : Manager := fullRehash (H := eviction_cache hash) xxh3 c s m.

Lemma rehash_spec c s m :
  let m' := rehash c s m in
  xor_ m' = digest c m s ∧ capturing m' = false ∧ num_buckets m' = num_buckets m ∧ xor_valid m' = true ∧ last_full_rehash_ns m' = now c.
Proof. done. Qed.

(** Absorbing what the store reported. *)
Definition absorbs s m : Store PN PS * Manager := absorb (H := eviction_cache hash) xxh3 s m.

Lemma absorb_folded evs s m :
  sink (glob s) = Some evs → capturing m = false →
  let '(s', m') := absorbs s m in
  xor_ m' = folded (num_buckets m) (mut_ident <$> evs) (xor_ m) ∧ num_buckets m' = num_buckets m ∧ capturing m' = false ∧
  shards s' = shards s ∧ sink (glob s') = Some [].
Proof. intros Hs Hc. unfold absorbs, absorb. simpl. unfold takeEvents. rewrite Hs, mutations_folded by done. done. Qed.

Lemma digest_shards c m m' s s' : shards s = shards s' → num_buckets m = num_buckets m' → digest c m s = digest c m' s'.
Proof. intros Hs Hn. rewrite !digest_folded, Hn. unfold liveEntries. by rewrite Hs. Qed.

(** Calls that account for the change of what is live keep the sum. *)
Lemma feed_digest c c' evs m s s' :
  (∀ i, balance evs i = Z.of_nat (count_of i (ident <$> liveEntries c' s')) - Z.of_nat (count_of i (ident <$> liveEntries c s))) →
  folded (num_buckets m) (mut_ident <$> evs) (digest c m s) = digest c' m s'.
Proof. intros Hb. rewrite !digest_folded. by apply folded_balanced. Qed.

(** C10: the incremental digest is exact.  From a full rehash on, after any
    sequence of store operations in which no accepted write is at once evicted
    again and no wheel runs out of ticks, the accumulators fed by the mutation
    sink are what a full scan computes, as long as no resident entry has expired
    at the rehash or at the scan. *)
Theorem digest_tracks_store (ops : list StoreOp) c c' m s s' :
  store_inv hash s → sink (glob s) = Some [] → 0 <= next_version (glob s) →
  Z.max (next_version (glob s)) (2 ^ 62) + Z.of_nat (length ops) < 2 ^ 64 - 1 →
  fresh c s → clean_runs hash ops s s' → fresh c' s' →
  let '(s2, m2) := absorbs s' (rehash c s m) in xor_ m2 = digest c' m2 s2.
Proof.
  intros Hs Hk Hv Hb Hf Hrun Hf'. destruct (clean_feed ops s s' Hs Hv Hb Hrun) as (Hs' & evs & Hn & Hbal).
  unfold noted in Hn. rewrite Hk in Hn. simpl in Hn. destruct (rehash_spec c s m) as (Ex & Ec & En & _).
  pose proof (absorb_folded evs s' (rehash c s m) Hn Ec) as Ha. destruct (absorbs s' (rehash c s m)) as [s2 m2].
  destruct Ha as (-> & En2 & _ & Esh & _). rewrite (digest_shards c' m2 m s2 s') by congruence. rewrite Ex, En.
  apply feed_digest. intros i. by rewrite Hbal, !live_residents.
Qed.

Lemma folded_twice n a l : folded n a (folded n a l) = l.
Proof.
  apply list_eq. intros i. unfold folded. rewrite !list_lookup_imap. destruct (l !! i); [|done]. simpl.
  by rewrite Z.lxor_assoc, Z.lxor_nilpotent, Z.lxor_0_r.
Qed.

Lemma one_count x i : one x i = Z.of_nat (count_of i [ident x]).
Proof. unfold one. rewrite count_cons. by destruct (decide (ident x = i)). Qed.

(** a rehash over an entry that has expired corrupts the digest.  The scan
    leaves the entry out while it is still resident; when it is reaped, the
    sink takes its hash out of the accumulators once more, and from then on
    they differ from a scan by the hash of an entry that is gone. *)
Theorem rehash_over_expired c k e m s :
  store_inv hash s → sink (glob s) = Some [] → 0 <= next_version (glob s) < 2 ^ 64 - 1 →
  lookup_store hash s k = Some e → expired (now c) e = true →
  ∃ s', getVersioned hash c k s = Some (None, s') ∧
  let '(s2, m2) := absorbs s' (rehash c s m) in
  lookup_store hash s2 k = None ∧ xor_ m2 = xor_at (bucketFor xxh3 m k) (entryHash xxh3 k e) (digest c m2 s2).
Proof.
  intros Hs Hk Hv El Hx. destruct (getVersioned_spec hash c k s Hs) as (s' & E & Hs' & _ & Hl). rewrite El in E, Hl. simpl in E, Hl. rewrite Hx in E, Hl.
  exists s'. split; [done|]. destruct (run_op_feed hash (OGetVersioned c k) s (Ok ()) s' Hs) as (evs & Hn & Hbal); [done|done|done|simpl; by rewrite E|].
  unfold noted in Hn. rewrite Hk in Hn. simpl in Hn. destruct (rehash_spec c s m) as (Ex & Ec & En & _).
  pose proof (absorb_folded evs s' (rehash c s m) Hn Ec) as Ha. destruct (absorbs s' (rehash c s m)) as [s2 m2].
  destruct Ha as (-> & En2 & _ & Esh & _). rewrite En in En2.
  split; [unfold lookup_store, shardFor; rewrite Esh; fold (shardFor hash k s'); fold (lookup_store hash s' k); rewrite Hl; by rewrite decide_True|].
  rewrite (digest_shards c m2 m s2 s') by congruence. rewrite Ex, En. unfold bucketFor, entryHash. rewrite xor_at_folded.
  assert (digest c m s' = digest c m s) as ->.
  { symmetry. rewrite <- (folded_nil (num_buckets m) (digest c m s)). apply (feed_digest c c []). intros [[k' vt] w]. rewrite !live_count by done. rewrite Hl.
    destruct (decide (k' = k)) as [->|]; [rewrite El; simpl; rewrite Hx; done|]. simpl. lia. }
  apply folded_ext. intros b. rewrite (balanced_xsum _ evs [] [ident (k, e)]); [done|]. intros i. rewrite Hbal. cbn [op_lost op_writes from_option].
  destruct i as [[k' vt] w]. rewrite !(residents_lookup hash) by done. rewrite Hl, <- one_count, count_nil.
  destruct (decide (k' = k)) as [->|Hne]; [rewrite El; simpl; lia|].
  unfold one at 3. rewrite decide_False by (unfold ident; simpl; congruence). unfold op_lost. simpl. lia.
Qed.

(** C38: a write during a rehash is lost to the digest, and the self-check does
    not see it.  The write goes to the pending log and, its shard not having
    been scanned yet, into the scan as well; the two cancel, the accumulators
    are published as they were before the write, and agree with the old ones. *)
Theorem rehash_loses_concurrent_write c k e m s :
  store_inv hash s → sink (glob s) = Some [] → 0 <= next_version (glob s) < 2 ^ 64 - 1 → 0 < num_buckets m → fresh c s →
  xor_ m = digest c m s → Entry.wf e → expired (now c) e = false → lookup_store hash s k = None → room (coreSize (k, e)) s →
  ∃ s', putVersioned hash c k e s = Some (Ok (), s') ∧
  let '(s2, m2) := absorbs s' (rehashBegin m) in
  let m3 := rehashPublish c (digest c m2 s2) m2 in
  lookup_store hash s2 k = Some e ∧ digest c m3 s2 = xor_at (bucketFor xxh3 m k) (entryHash xxh3 k e) (xor_ m3) ∧
  xor_ m3 = xor_ m ∧ rehash_mismatches m3 = rehash_mismatches m.
Proof.
  intros Hs Hk Hv Hn Hf Hx Hwf He El Hr.
  destruct (putVersionedAt_roomy hash c k e (if hasTtl e then now c else 0) 0 s Hs Hwf) as (s' & E & Hs' & _ & Hl & _); [lia|by rewrite Z.add_0_r|].
  rewrite El in Hl. exists s'. split; [done|].
  destruct (run_op_feed hash (OPutVersioned c k e) s (Ok ()) s' Hs) as (evs & Hnt & Hbal); [done|done|done|exact E|].
  assert (∀ i, balance evs i = Z.of_nat (count_of i [ident (k, e)])) as Hone.
  { intros [[k' vt] w]. rewrite Hbal, !(residents_lookup hash) by done. rewrite <- one_count. unfold op_lost. simpl. unfold lost. rewrite !Hl.
    destruct (decide (k' = k)) as [->|Hne]; [rewrite El, decide_True by done; simpl; lia|]. rewrite decide_True by done.
    unfold one at 3. rewrite decide_False by (unfold ident; simpl; congruence). lia. }
  assert (folded (num_buckets m) (mut_ident <$> evs) (digest c m s) = digest c m s') as Hd.
  { apply feed_digest. intros [[k' vt] w]. rewrite Hone, !live_count, <- one_count by done. rewrite Hl.
    destruct (decide (k' = k)) as [->|Hne]; [rewrite El; simpl; rewrite He; simpl; lia|].
    unfold one at 1. rewrite decide_False by (unfold ident; simpl; congruence). lia. }
  assert (folded (num_buckets m) [ident (k, e)] (digest c m s) = digest c m s') as Hd1.
  { rewrite <- Hd. apply folded_ext. intros b. rewrite (balanced_xsum _ evs [ident (k, e)] []); [by rewrite Z.lxor_0_r|].
    intros i. rewrite Hone, count_nil. lia. }
  unfold noted in Hnt. rewrite Hk in Hnt. simpl in Hnt. unfold absorbs, absorb. simpl. unfold takeEvents. rewrite Hnt, mutations_pending by done.
  split; [change (lookup_store hash s' k = Some e); rewrite Hl; by rewrite decide_True|].
  unfold rehashPublish. cbn [pending with_capture rehashBegin num_buckets xor_ rehash_mismatches app]. unfold bucketFor.
  cbn [num_buckets with_capture rehashBegin].
  rewrite (digest_shards c (with_capture _ true (rehashBegin m)) m _ s') by done.
  rewrite drain_folded; [|rewrite digest_folded, folded_length, length_replicate; lia|done].
  assert (folded (num_buckets m) (mut_ident <$> evs) (digest c m s') = digest c m s) as Hb by (by rewrite <- Hd, folded_twice).
  rewrite Hb. split_and!; [unfold entryHash; rewrite xor_at_folded; etransitivity; [by apply (digest_shards c _ m _ s')|symmetry; exact Hd1]|by rewrite Hx|].
  rewrite bool_decide_true by done. rewrite digest_folded, folded_length, length_replicate, Z2Nat.id, Z.eqb_refl by lia. done.
Qed.

End digest.

(** ** At work *)

Definition fresh_b {PN PS} (t : Z) (s : Store PN PS) : bool :=
  forallb (λ sh, forallb (λ x, negb (expired t (n_entry x.2))) (map_to_list (nodes sh))) (shards s).

Lemma fresh_check {PN PS} `{PolicyLaws PN PS} (hash : bytes → Z) c (s : Store PN PS) : fresh_b (now c) s = true → fresh hash c s.
Proof.
  intros Hb k e. unfold lookup_store. destruct (shards s !! shardFor hash k s) as [sh|] eqn:Esh; [|done]. simpl. unfold entry_at.
  destruct (index sh !! k) as [n|]; [|done]. simpl. unfold cores. rewrite lookup_fmap.
  destruct (nodes sh !! n) as [nd|] eqn:En; [|done]. simpl. intros [= <-].
  unfold fresh_b in Hb. rewrite forallb_forall in Hb. specialize (Hb sh). apply list_elem_of_lookup_2, list_elem_of_In in Esh.
  specialize (Hb Esh). rewrite forallb_forall in Hb. apply elem_of_map_to_list, list_elem_of_In in En. specialize (Hb _ En). simpl in Hb.
  by apply negb_true_iff in Hb.
Qed.

Definition demo_manager : Manager := newManager (lit "n1") 4 1000 K_DEFAULT_FULL_REHASH_INTERVAL.

Lemma digest_tracks_store_witness :
  let '(s2, m2) := absorbs demo_sum demo_hash demo_store (rehash demo_sum demo_hash demo_clock (attached demo_clock 500) demo_manager) in
  xor_ m2 = digest demo_sum demo_hash demo_clock m2 s2.
Proof.
  apply (digest_tracks_store demo_sum demo_hash demo_ops demo_clock demo_clock demo_manager (attached demo_clock 500) demo_store);
    [apply attached_inv|reflexivity|by vm_compute|by vm_compute|apply fresh_check; vm_compute; reflexivity| |apply fresh_check; vm_compute; reflexivity].
  apply after_sync; [by vm_compute|apply demo_ops_ok|by vm_compute|vm_compute; reflexivity].
Defined.

(** The store of the demo, its reports taken, with "b" expired at [later_clock]. *)
Definition quiet_store : Store () () := (takeEvents demo_store).2.

Lemma quiet_store_inv : store_inv demo_hash quiet_store.
Proof. apply (takeEvents_spec demo_hash demo_store demo_store_inv). Qed.

Lemma rehash_over_expired_witness :
  ∃ s', getVersioned demo_hash later_clock (lit "b") quiet_store = Some (None, s') ∧
  let '(s2, m2) := absorbs demo_sum demo_hash s' (rehash demo_sum demo_hash later_clock quiet_store demo_manager) in
  lookup_store demo_hash s2 (lit "b") = None ∧
  xor_ m2 = xor_at (bucketFor demo_sum demo_manager (lit "b"))
    (entryHash demo_sum (lit "b") (local_entry demo_clock (lit "2") (Some 500) 1000000000)) (digest demo_sum demo_hash later_clock m2 s2).
Proof.
  apply (rehash_over_expired demo_sum demo_hash later_clock (lit "b") (local_entry demo_clock (lit "2") (Some 500) 1000000000) demo_manager quiet_store);
    [apply quiet_store_inv|vm_compute; reflexivity..| |vm_compute; reflexivity|vm_compute; reflexivity]. by vm_compute.
Defined.

Lemma rehash_loses_concurrent_write_witness :
  ∃ s', putVersioned demo_hash demo_clock (lit "z") (demo_entry "9" 5) (attached (PN := ()) (PS := ()) demo_clock 5000) = Some (Ok (), s') ∧
  let '(s2, m2) := absorbs demo_sum demo_hash s' (rehashBegin demo_manager) in
  let m3 := rehashPublish demo_clock (digest demo_sum demo_hash demo_clock m2 s2) m2 in
  lookup_store demo_hash s2 (lit "z") = Some (demo_entry "9" 5) ∧
  digest demo_sum demo_hash demo_clock m3 s2 =
    xor_at (bucketFor demo_sum demo_manager (lit "z")) (entryHash demo_sum (lit "z") (demo_entry "9" 5)) (xor_ m3) ∧
  xor_ m3 = xor_ demo_manager ∧ rehash_mismatches m3 = rehash_mismatches demo_manager.
Proof.
  apply (rehash_loses_concurrent_write (PN := ()) (PS := ()) demo_sum demo_hash demo_clock (lit "z") (demo_entry "9" 5) demo_manager (attached demo_clock 5000)).
  - apply attached_inv.
  - reflexivity.
  - by vm_compute.
  - by vm_compute.
  - apply fresh_check. vm_compute. reflexivity.
  - vm_compute. reflexivity.
  - apply demo_entry_wf.
  - vm_compute. reflexivity.
  - vm_compute. reflexivity.
  - intros i sh Hi. vm_compute in Hi. destruct i as [|i]; [|done]. injection Hi as <-. vm_compute. discriminate.
Defined.
