(* ===== verification/AeSync.v ===== *)
(** * Repair: metadata, entries and their application

    What the two sides of a round compute from their stores, for any store
    that keeps the laws of [CacheStore]: the rows and entries they select, the
    difference they derive, and the effect of applying a sync message. *)

From S2P Require Import Prelude Types Bytes HashRing Protocol Buffers Clock Iblt AeCodec.
From S2P Require Import Wal WheelHeap TtlWheel Store CacheStore AntiEntropy.
Import LwwFacts.
Local Open Scope Z_scope.

(** ** Sorted vectors *)

Lemma binary_search_spec l x : Sorted Z.le l → binary_search l x = bool_decide (x ∈ l).
Proof.
  intros Hs. unfold binary_search. destruct (lower_bound_spec l x Hs) as (Hp & Hlo & Hhi).
  destruct (l !! lower_bound l x) as [y|] eqn:E.
  - pose proof (Hhi _ y E ltac:(lia)). destruct (Z.leb_spec y x).
    + assert (y = x) as -> by lia. symmetry. apply bool_decide_eq_true. by eapply list_elem_of_lookup_2.
    + symmetry. apply bool_decide_eq_false. intros [i Hi]%list_elem_of_lookup.
      destruct (decide (i < lower_bound l x)%nat) as [Hlt|Hge]; [pose proof (Hlo i x Hi Hlt); lia|].
      pose proof (sorted_le l (lower_bound l x) i y x Hs ltac:(lia) E Hi). lia.
  - symmetry. apply bool_decide_eq_false. intros [i Hi]%list_elem_of_lookup. apply lookup_ge_None in E.
    pose proof (lookup_lt_Some _ _ _ Hi). pose proof (Hlo i x Hi ltac:(lia)). lia.
Qed.

Lemma unique_elem l x : x ∈ unique l ↔ x ∈ l.
Proof.
  induction l as [|a [|b l] IH]; [done|done|]. change (unique (a :: b :: l)) with (if a =? b then unique (b :: l) else a :: unique (b :: l)).
  destruct (Z.eqb_spec a b) as [->|].
  - rewrite IH, !elem_of_cons. naive_solver.
  - rewrite elem_of_cons, IH. by rewrite (elem_of_cons (b :: l)).
Qed.

Lemma unique_sorted l : Sorted Z.le l → Sorted Z.le (unique l).
Proof.
  intros Hs%Sorted_StronglySorted; [|intros ???; lia]. apply StronglySorted_Sorted.
  induction Hs as [|a l Hs IH Hall]; [constructor|]. destruct l as [|b l]; [by constructor|].
  change (unique (a :: b :: l)) with (if a =? b then unique (b :: l) else a :: unique (b :: l)).
  destruct (a =? b); [done|]. constructor; [done|]. apply Forall_forall. intros x Hx. apply (proj1 (Forall_forall _ _) Hall). by apply unique_elem.
Qed.

Lemma sort_by_elem `{Sorter} {A} (f : A → Z) l x : x ∈ sort_by f l ↔ x ∈ l.
Proof. by rewrite (sort_by_perm f l). Qed.

Lemma sort_id_sorted `{Sorter} l : Sorted Z.le (sort_by id l).
Proof. pose proof (sort_by_sorted id l) as Hs. by rewrite list_fmap_id in Hs. Qed.

Lemma marked_spec n ids b : marked n ids b = true ↔ b < n ∧ b ∈ ids.
Proof. unfold marked, covers. rewrite andb_true_iff, Z.ltb_lt, bool_decide_eq_true. done. Qed.

Lemma filter_ext_bool {A} (f g : A → bool) (l : list A) :
  (∀ x, x ∈ l → f x = g x) → filter (λ x, f x = true) l = filter (λ x, g x = true) l.
Proof.
  induction l as [|a l IH]; intros E; [done|]. rewrite !filter_cons, (E a), IH; [done| |constructor]. intros x Hx. apply E. by constructor.
Qed.

Section sync.
Context {S : Type} `{CacheStoreLaws S} `{Sorter}.
Context (xxh3 : bytes → Z).
Implicit Types (m : Manager) (s : S) (c : Clock).

(** No resident entry has expired. *)
Definition all_fresh c s : Prop := ∀ k e, cs_lookup s k = Some e → expired (now c) e = false.

(** The hash tells the keys of [P] apart. *)
Definition injective_on (P : bytes → Prop) : Prop := ∀ k k', P k → P k' → xxh3 k = xxh3 k' → k = k'.

Definition has_key s (k : bytes) : Prop := is_Some (cs_lookup s k).

Lemma live_fresh c s k e : cs_inv s → all_fresh c s → (k, e) ∈ cs_liveEntries c s ↔ cs_lookup s k = Some e.
Proof. intros Hi Hf. rewrite cs_live by done. split; [by intros [? _]|]. intros E. split; [done|by eapply Hf]. Qed.

Lemma unexpired_fresh c s k : all_fresh c s → unexpired c (cs_lookup s k) = cs_lookup s k.
Proof. intros Hf. unfold unexpired. destruct (cs_lookup s k) as [e|] eqn:E; [|done]. simpl. by rewrite (Hf k e E). Qed.

(** A read in a fresh store changes nothing that shows. *)
Definition same_view s s' : Prop := cs_inv s' ∧ (∀ k, cs_lookup s' k = cs_lookup s k) ∧ ∀ n, cs_room n s → cs_room n s'.

Lemma same_view_refl s : cs_inv s → same_view s s.
Proof. done. Qed.

Lemma same_view_trans s1 s2 s3 : same_view s1 s2 → same_view s2 s3 → same_view s1 s3.
Proof. intros (_ & A1 & A2) (A3 & A4 & A5). split_and!; [done|intros k; by rewrite A4|auto]. Qed.

Lemma same_view_fresh c s s' : same_view s s' → all_fresh c s → all_fresh c s'.
Proof. intros (_ & Hl & _) Hf k e. rewrite Hl. apply Hf. Qed.

Lemma get_fresh c k s : cs_inv s → all_fresh c s → ∃ s', cs_getVersioned c k s = Some (cs_lookup s k, s') ∧ same_view s s'.
Proof.
  intros Hi Hf. destruct (cs_get_law c k s Hi) as (s' & E & Hi' & Hl & Hr). rewrite unexpired_fresh in E by done.
  exists s'. split; [done|]. split_and!; [done| |done]. intros k'. rewrite Hl, unexpired_fresh by done.
  by destruct (decide (k' = k)) as [->|].
Qed.

Lemma take_view s : cs_inv s → same_view s (cs_takeEvents s).2.
Proof. intros Hi. destruct (cs_take_law s Hi) as (? & ? & ?). done. Qed.

(** ** Selecting entries *)

Definition wire_cost (l : list (bytes * VersionedEntry)) : Z := foldr (λ x a, Z.of_nat (syncEntryWireSize x.1 x.2) + a) 0 l.

Lemma wire_cost_nonneg l : 0 <= wire_cost l.
Proof. induction l as [|x l IH]; simpl; lia. Qed.

Lemma wire_cost_app l k : wire_cost (l ++ k) = wire_cost l + wire_cost k.
Proof. induction l as [|x l IH]; simpl; lia. Qed.

Definition picked s (pairs : list (Z * bytes)) : list (bytes * VersionedEntry) :=
  omap (λ p, (λ e, (p.2, e)) <$> cs_lookup s p.2) pairs.

Lemma picked_view s s' pairs : same_view s s' → picked s' pairs = picked s pairs.
Proof. intros (_ & Hl & _). unfold picked. induction pairs as [|p pairs IH]; [done|]. cbn. rewrite Hl. destruct (cs_lookup s p.2); simpl; [f_equal|]; exact IH. Qed.

(** Within the budget, every entry of the keys is selected, in their order. *)
Lemma selectEntries_spec c max pairs nbytes items s :
  cs_inv s → all_fresh c s → nbytes + wire_cost (picked s pairs) <= max →
  ∃ s', selectEntries c pairs max nbytes items s = Some (items ++ picked s pairs, s') ∧ same_view s s'.
Proof.
  revert nbytes items s. induction pairs as [|[h k] pairs IH]; intros nbytes items s Hi Hf Hb; cbn [selectEntries].
  { rewrite app_nil_r. eauto using same_view_refl. }
  destruct (get_fresh c k s Hi Hf) as (s1 & -> & Hv). cbn [mbind option_bind].
  pose proof (picked_view s s1 pairs Hv) as Hp. cbn [picked omap list_omap fst snd] in Hb |- *. fold (picked s pairs) in *.
  destruct (cs_lookup s k) as [e|] eqn:Ek; cbn [fmap option_fmap option_map] in Hb |- *.
  - cbn [wire_cost foldr fst snd] in Hb. fold (wire_cost (picked s pairs)) in Hb. pose proof (wire_cost_nonneg (picked s pairs)).
    rewrite !Z.gtb_ltb. destruct (Z.ltb_spec max (nbytes + Z.of_nat (syncEntryWireSize k e))); [lia|]. cbn [andb].
    destruct (IH (nbytes + Z.of_nat (syncEntryWireSize k e)) (items ++ [(k, e)]) s1) as (s2 & -> & Hv2);
      [apply Hv|by eapply same_view_fresh|rewrite Hp; lia|].
    exists s2. split; [rewrite Hp, <- app_assoc; done|by eapply same_view_trans].
  - destruct (IH nbytes items s1) as (s2 & -> & Hv2); [apply Hv|by eapply same_view_fresh|by rewrite Hp|].
    exists s2. split; [by rewrite Hp|by eapply same_view_trans].
Qed.

(** ** Resolving hashes *)

Lemma resolve_fold (L : list (bytes * VersionedEntry)) (sorted : list Z) (res : gmap Z bytes) :
  let f := λ (res : gmap Z bytes) '(k, _), let h := xxh3 k in
    if binary_search sorted h then match res !! h with Some _ => res | None => <[h := k]> res end else res in
  ∀ h k, NoDup (xxh3 <$> L.*1) → (∀ x, x ∈ L.*1 → res !! xxh3 x = None) →
  foldl f res L !! h = Some k ↔
    res !! h = Some k ∨ (k ∈ L.*1 ∧ xxh3 k = h ∧ binary_search sorted h = true).
Proof.
  intros f. revert res. induction L as [|[k0 e0] L IH]; intros res h k Hnd Hno; cbn [foldl].
  { split; [auto|]. intros [?|[Hn _]]; [done|]. by apply not_elem_of_nil in Hn. }
  cbn [fmap list_fmap fst] in Hnd, Hno. apply NoDup_cons in Hnd as [Hk0 Hnd].
  assert (∀ x, x ∈ L.*1 → xxh3 x ≠ xxh3 k0) as Hdiff by (intros x Hx E; apply Hk0; rewrite <- E; by apply list_elem_of_fmap_2).
  rewrite IH; [|done|].
  - unfold f at 1. cbn [fmap list_fmap fst]. rewrite (elem_of_cons L.*1).
    destruct (binary_search sorted (xxh3 k0)) eqn:Eb.
    + rewrite (Hno k0) by (by constructor). rewrite lookup_insert. destruct (decide (xxh3 k0 = h)) as [<-|Hne].
      * split.
        -- intros [[= <-]|(Hk & E & _)]; [right; split; [by left|done]|]. by destruct (Hdiff k Hk).
        -- intros [E|([->|Hk] & E & _)]; [|by left|by destruct (Hdiff k Hk)]. by rewrite (Hno k0) in E by (by constructor).
      * split; [intros [?|(? & ? & ?)]; [by left|right; split; [by right|done]]|].
        intros [?|([->|?] & ? & ?)]; [by left|done|by right].
    + split; [intros [?|(? & ? & ?)]; [by left|right; split; [by right|done]]|].
      intros [?|([->|?] & <- & ?)]; [by left|congruence|by right].
  - intros x Hx. unfold f. destruct (binary_search sorted (xxh3 k0)); [|apply Hno; by constructor].
    rewrite (Hno k0) by (by constructor). rewrite lookup_insert_ne by (intros E; by apply (Hdiff x Hx)). apply Hno. by constructor.
Qed.

Lemma live_hashes c s : cs_inv s → injective_on (has_key s) → NoDup (xxh3 <$> (cs_liveEntries c s).*1).
Proof.
  intros Hi Hinj. apply NoDup_fmap_2_strong; [|by apply cs_live_keys].
  intros k k' Hk Hk' E. apply list_elem_of_fmap in Hk as ([k1 e1] & -> & Hk1). apply list_elem_of_fmap in Hk' as ([k2 e2] & -> & Hk2).
  apply cs_live in Hk1 as [E1 _], Hk2 as [E2 _]; try done. apply Hinj; unfold has_key; eauto.
Qed.

Lemma resolveHashes_spec c sorted s h k :
  cs_inv s → all_fresh c s → injective_on (has_key s) → Sorted Z.le sorted →
  resolveHashes xxh3 c sorted s !! h = Some k ↔ has_key s k ∧ xxh3 k = h ∧ h ∈ sorted.
Proof.
  intros Hi Hf Hinj Hs. unfold resolveHashes, cs_forEach.
  pose proof (resolve_fold (cs_liveEntries c s) sorted ∅ h k (live_hashes c s Hi Hinj)) as Hr. cbn zeta in Hr. rewrite Hr by done.
  rewrite lookup_empty, binary_search_spec, bool_decide_eq_true by done. split.
  - intros [|(Hk & E & Hh)]; [done|]. apply list_elem_of_fmap in Hk as ([k1 e1] & -> & Hk). apply live_fresh in Hk; [|done..].
    split; [by eexists|done].
  - intros ([e He] & E & Hh). right. split; [|done]. apply list_elem_of_fmap. exists (k, e). split; [done|]. by apply live_fresh.
Qed.

(** Within the budget, exactly the entries whose keys have the hashes are
    served, once each. *)
Lemma selectEntriesForHashes_spec c hashes max s :
  cs_inv s → all_fresh c s → injective_on (has_key s) →
  (∀ l, NoDup l.*1 → (∀ k e, (k, e) ∈ l → cs_lookup s k = Some e ∧ xxh3 k ∈ hashes) → wire_cost l <= max) →
  ∃ items s', selectEntriesForHashes xxh3 c hashes max s = Some (items, s') ∧ same_view s s' ∧ NoDup items.*1 ∧
    ∀ k e, (k, e) ∈ items ↔ cs_lookup s k = Some e ∧ xxh3 k ∈ hashes.
Proof.
  intros Hi Hf Hinj Hbud. destruct (decide (hashes = [])) as [->|Hne].
  { exists [], s. split_and!; [done|by apply same_view_refl|constructor|]. intros k e. split; [by intros ?%not_elem_of_nil|].
    by intros [_ ?%not_elem_of_nil]. }
  set (sorted := unique (sort_by id hashes)).
  assert (Sorted Z.le sorted) as Hs by (apply unique_sorted, sort_id_sorted).
  set (pairs := sort_by fst (map_to_list (resolveHashes xxh3 c sorted s))).
  assert (∀ h k, (h, k) ∈ pairs ↔ has_key s k ∧ xxh3 k = h ∧ h ∈ hashes) as Hpairs.
  { intros h k. unfold pairs. rewrite sort_by_elem, elem_of_map_to_list, resolveHashes_spec by done.
    unfold sorted. by rewrite unique_elem, sort_by_elem. }
  assert (∀ k e, (k, e) ∈ picked s pairs ↔ cs_lookup s k = Some e ∧ xxh3 k ∈ hashes) as Hel.
  { intros k e. unfold picked. rewrite list_elem_of_omap. split.
    - intros ([h k'] & Hin & E). simpl in E. apply fmap_Some in E as (e' & He & [= -> ->]). apply Hpairs in Hin as (_ & <- & Hh). done.
    - intros [He Hh]. exists (xxh3 k, k). split; [apply Hpairs; split; [by eexists|done]|]. simpl. by rewrite He. }
  assert (NoDup (picked s pairs).*1) as Hnd.
  { assert (NoDup pairs.*2) as Hp2.
    { unfold pairs. rewrite (sort_by_perm fst). apply NoDup_fmap_2_strong; [|apply NoDup_map_to_list].
      intros [h k] [h' k'] Hin Hin' E. simpl in E. subst k'.
      apply elem_of_map_to_list, resolveHashes_spec in Hin as (_ & <- & _); [|done..].
      apply elem_of_map_to_list, resolveHashes_spec in Hin' as (_ & <- & _); [|done..]. done. }
    clear Hel Hpairs Hbud. induction pairs as [|[h k] ps IH]; [constructor|]. apply NoDup_cons in Hp2 as [Hk Hp2]. simpl in Hk.
    unfold picked. cbn [omap list_omap snd]. fold (picked s ps). destruct (cs_lookup s k) as [e|]; simpl; [|by apply IH].
    apply NoDup_cons. split; [|by apply IH]. intros Hin. apply Hk. apply list_elem_of_fmap in Hin as ([k' e'] & -> & Hin).
    unfold picked in Hin. apply list_elem_of_omap in Hin as ([h' k''] & Hin & E). simpl in E. apply fmap_Some in E as (? & _ & [= -> _]).
    apply list_elem_of_fmap. by exists (h', k''). }
  destruct (selectEntries_spec c max pairs 0 [] s Hi Hf) as (s' & E & Hv).
  { apply Hbud; [done|]. intros k e Hin. by apply Hel. }
  exists (picked s pairs), s'. split_and!; [unfold selectEntriesForHashes; by destruct hashes|done|done|done].
Qed.

(** ** Applying *)

Definition item_size (x : bytes * VersionedEntry) : Z := zlen x.1 + zlen (value x.2) + cs_node_bytes.

Definition items_size (l : list (bytes * VersionedEntry)) : Z := foldr (λ x a, item_size x + a) 0 l.

Lemma item_size_nonneg x : 0 <= item_size x.
Proof. unfold item_size, zlen. pose proof cs_node_pos. lia. Qed.

Lemma items_size_nonneg l : 0 <= items_size l.
Proof. induction l as [|x l IH]; simpl; [done|]. pose proof (item_size_nonneg x). lia. Qed.

(** The entry of a key among items without repetition. *)
Definition item_for (items : list (bytes * VersionedEntry)) (k : bytes) : option VersionedEntry :=
  snd <$> (list_find (λ x, x.1 = k) items ≫= λ x, Some x.2).

Lemma item_for_cons k e items k' : item_for ((k, e) :: items) k' = if decide (k' = k) then Some e else item_for items k'.
Proof.
  unfold item_for. cbn [list_find fst]. destruct (decide (k = k')) as [->|Hne]; [by rewrite decide_True|].
  rewrite decide_False by done. by destruct (list_find _ items) as [[]|].
Qed.

Lemma item_for_spec items k e : NoDup items.*1 → item_for items k = Some e ↔ (k, e) ∈ items.
Proof.
  induction items as [|[k' e'] items IH]; intros Hnd; [split; [done|by intros ?%not_elem_of_nil]|].
  apply NoDup_cons in Hnd as [Hk Hnd]. rewrite item_for_cons, elem_of_cons. destruct (decide (k = k')) as [->|Hne].
  - split; [intros [= ->]; by left|]. intros [[= ->]|Hin]; [done|]. destruct Hk. apply list_elem_of_fmap. by exists (k', e).
  - rewrite IH by done. split; [by right|]. by intros [[= ? ?]|].
Qed.

Definition is_new s (x : bytes * VersionedEntry) : bool :=
  match cs_lookup s x.1 with None => true | Some r => lwwWinsOver (stampOf x.2) (stampOf r) end.

(** Every key of the message has the winner of its two entries, no other key
    changes; the count is of the keys that were missing or older. *)
Lemma applyItems_spec c items n0 n s :
  cs_inv s → all_fresh c s → NoDup items.*1 → Forall (λ x, Entry.wf x.2) items → 0 <= n → cs_room (items_size items + n) s →
  ∃ count s', applyItems c items n0 s = Some (count, s') ∧ cs_inv s' ∧ cs_room n s' ∧
    (∀ k, cs_lookup s' k = match item_for items k with Some e => Some (applyLww (cs_lookup s k) e) | None => cs_lookup s k end) ∧
    count = n0 + Z.of_nat (length (filter (λ x, is_new s x = true) items)).
Proof.
  intros Hi Hf Hnd Hwf Hn. assert (∀ k, k ∈ items.*1 → unexpired c (cs_lookup s k) = cs_lookup s k) as Hfi by (intros; by apply unexpired_fresh).
  clear Hf. revert n0 s Hi Hfi. induction items as [|[k e] items IH]; intros n0 s Hi Hf Hr; cbn [applyItems].
  { exists n0, s. split_and!; [done..|]. simpl. lia. }
  apply NoDup_cons in Hnd as [Hk Hnd]. apply Forall_cons in Hwf as [He Hwf]. cbn [fst snd] in *.
  unfold isNewer. destruct (cs_get_law c k s Hi) as (s1 & -> & Hi1 & Hl1 & Hr1). cbn [mbind option_bind].
  rewrite Hf in Hl1 |- * by (by constructor). cbn [items_size foldr] in Hr. fold (items_size items) in Hr.
  pose proof (items_size_nonneg items) as Hp.
  destruct (cs_put_law c k e (items_size items + n) s1 Hi1 He) as (s2 & -> & Hi2 & Hl2 & Hr2); [lia| |].
  { apply Hr1. unfold item_size in Hr. cbn [fst snd] in Hr. eapply cs_room_le; [exact Hr|lia]. }
  assert (∀ k', cs_lookup s1 k' = cs_lookup s k') as Hsame by (intros k'; rewrite Hl1; by destruct (decide (k' = k)) as [->|]).
  cbn [mbind option_bind]. destruct (IH Hnd Hwf (if is_new s (k, e) then n0 + 1 else n0) s2 Hi2) as (count & s3 & E & Hi3 & Hr3 & Hl3 & Hc3); [|exact Hr2|].
  { intros k' Hin. rewrite Hl2. rewrite decide_False by (intros ->; done). rewrite Hsame. apply Hf. by constructor. }
  exists count, s3. split_and!; [exact E|done|done| |].
  - intros k'. rewrite Hl3, item_for_cons, Hl2, Hsame. destruct (decide (k' = k)) as [->|Hne]; [|by rewrite Hsame].
    destruct (item_for items k) as [e'|] eqn:E'; [|done]. apply item_for_spec in E'; [|done].
    destruct Hk. apply list_elem_of_fmap. by exists (k, e').
  - rewrite Hc3, filter_cons. cbn [fst snd].
    assert (filter (λ x, is_new s2 x = true) items =
      filter (λ x, is_new s x = true) items) as ->.
    { apply filter_ext_bool. intros x Hx. unfold is_new. rewrite Hl2. rewrite decide_False; [by rewrite Hsame|].
      intros Ex. apply Hk. rewrite <- Ex. by apply list_elem_of_fmap_2. }
    destruct (is_new s (k, e)); simpl; lia.
Qed.

(** ** The difference *)

(** Rows by hash: any two rows with the same hash are the same row. *)
Definition functional (rs : list MetaRow) : Prop := ∀ r r', r ∈ rs → r' ∈ rs → r_key_hash r = r_key_hash r' → r = r'.

Lemma by_hash_spec (rs : list MetaRow) (bh : gmap Z MetaRow) h r :
  functional rs → (∀ h' r', bh !! h' = Some r' → r_key_hash r' = h' ∧ ∀ r'', r'' ∈ rs → r_key_hash r'' = h' → r'' = r') →
  foldl (λ bh r, <[r_key_hash r := r]> bh) bh rs !! h = Some r ↔ bh !! h = Some r ∨ (r ∈ rs ∧ r_key_hash r = h).
Proof.
  revert bh. induction rs as [|r0 rs IH]; intros bh Hfun Hbh; cbn [foldl].
  { split; [by left|]. intros [?|[Hn _]]; [done|]. by apply not_elem_of_nil in Hn. }
  rewrite IH.
  - rewrite lookup_insert, elem_of_cons. destruct (decide (r_key_hash r0 = h)) as [Eh|Hne].
    + split; [intros [[= <-]|[? ?]]; [right; split; [by left|done]|right; split; [by right|done]]|].
      intros [Hb|[[->|Hr] Hh]]; [|by left|by right]. left. destruct (Hbh h r Hb) as [_ Hu]. rewrite (Hu r0) by (by constructor || done). done.
    + split; [intros [?|[? ?]]; [by left|right; split; [by right|done]]|]. intros [?|[[->|?] ?]]; [by left|done|by right].
  - intros r1 r2 ? ?. apply Hfun; by constructor.
  - intros h' r'. rewrite lookup_insert. destruct (decide (r_key_hash r0 = h')) as [<-|Hne].
    + intros [= <-]. split; [done|]. intros r'' Hr E. apply Hfun; [by constructor|constructor|done].
    + intros Hb. destruct (Hbh h' r' Hb) as [? Hu]. split; [done|]. intros r'' ? ?. apply Hu; [by constructor|done].
Qed.

Section diff.
Context (m : Manager) (wanted covered : Z → bool).

Definition needs_entry (bh : gmap Z MetaRow) (x : bytes * VersionedEntry) : option Z :=
  if wanted (bucketFor xxh3 m x.1) then
    row ← bh !! xxh3 x.1; if lwwWinsOver (rowStamp row) (stampOf x.2) then Some (xxh3 x.1) else None
  else None.

Definition has_entry (bh : gmap Z MetaRow) (x : bytes * VersionedEntry) : option (Z * bytes) :=
  if wanted (bucketFor xxh3 m x.1) then
    match bh !! xxh3 x.1 with
    | None => if covered (bucketFor xxh3 m x.1) then Some (xxh3 x.1, x.1) else None
    | Some row =>
        if lwwWinsOver (rowStamp row) (stampOf x.2) then None
        else if lwwWinsOver (stampOf x.2) (rowStamp row) then Some (xxh3 x.1, x.1) else None
    end
  else None.

Lemma diff_fold (L : list (bytes * VersionedEntry)) (bh bh0 : gmap Z MetaRow) need have :
  NoDup (xxh3 <$> L.*1) → (∀ k, k ∈ L.*1 → bh !! xxh3 k = bh0 !! xxh3 k) →
  ∃ bh', foldl (λ st '(k, e), diffEntry xxh3 m wanted covered st k e) (bh, need, have) L =
    (bh', need ++ omap (needs_entry bh0) L, have ++ omap (has_entry bh0) L) ∧
  ∀ h r, bh' !! h = Some r ↔ bh !! h = Some r ∧ ∀ k, k ∈ L.*1 → wanted (bucketFor xxh3 m k) = true → xxh3 k ≠ h.
Proof.
  revert bh need have. induction L as [|[k e] L IH]; intros bh need have Hnd Hbh; cbn [foldl].
  { exists bh. rewrite !app_nil_r. split; [done|]. intros h r. split; [|by intros [? _]]. intros ?. split; [done|]. by intros k ?%not_elem_of_nil. }
  cbn [fmap list_fmap fst] in Hnd, Hbh. apply NoDup_cons in Hnd as [Hk Hnd].
  assert (∀ x, x ∈ L.*1 → xxh3 x ≠ xxh3 k) as Hdiff by (intros x Hx E; apply Hk; rewrite <- E; by apply list_elem_of_fmap_2).
  assert (∃ bh1, diffEntry xxh3 m wanted covered (bh, need, have) k e =
      (bh1, need ++ option_list (needs_entry bh0 (k, e)), have ++ option_list (has_entry bh0 (k, e))) ∧
    ∀ h r, bh1 !! h = Some r ↔ bh !! h = Some r ∧ (wanted (bucketFor xxh3 m k) = true → xxh3 k ≠ h)) as (bh1 & -> & Hbh1).
  { unfold diffEntry, needs_entry, has_entry. cbn [fst snd]. rewrite <- (Hbh k) by (by constructor).
    destruct (wanted (bucketFor xxh3 m k)); cbn [negb]; [|exists bh; rewrite !app_nil_r; split; [done|]; intros; naive_solver].
    destruct (bh !! xxh3 k) as [row|] eqn:Er; cbn [mbind option_bind].
    - exists (delete (xxh3 k) bh). split.
      + destruct (lwwWinsOver (rowStamp row) (stampOf e)), (lwwWinsOver (stampOf e) (rowStamp row)); simpl; by rewrite ?app_nil_r.
      + intros h r. rewrite lookup_delete_Some. split; [intros [? ?]; auto|]. intros [? Hw]. split; [by apply Hw|done].
    - exists bh. split; [destruct (covered (bucketFor xxh3 m k)); simpl; by rewrite ?app_nil_r|].
      intros h r. split; [|by intros [? _]]. intros E. split; [done|]. intros _ <-. congruence. }
  destruct (IH bh1 (need ++ option_list (needs_entry bh0 (k, e))) (have ++ option_list (has_entry bh0 (k, e)))) as (bh' & -> & Hbh'); [done| |].
  { intros x Hx. apply option_eq. intros r. rewrite Hbh1, <- (Hbh x) by (by constructor).
    split; [by intros [? _]|]. intros E. split; [done|]. intros _ E'. by destruct (Hdiff x Hx). }
  exists bh'. split.
  - rewrite <- !app_assoc. cbn [omap list_omap]. destruct (needs_entry bh0 (k, e)), (has_entry bh0 (k, e)); done.
  - intros h r. rewrite Hbh', Hbh1. cbn [fmap list_fmap fst]. split.
    + intros [[Hb Hw] Hall]. split; [done|]. intros x [->|Hx]%elem_of_cons; [by apply Hw|by apply Hall].
    + intros [Hb Hall]. split; [split; [done|]; intros; apply Hall; [constructor|done]|]. intros x Hx. apply Hall. by constructor.
Qed.
End diff.

(** The keys offered are keys of the list, once each. *)
Lemma has_entry_key m wanted covered bh k e h' k' : has_entry m wanted covered bh (k, e) = Some (h', k') → k' = k.
Proof. unfold has_entry. cbn [fst snd]. repeat case_match; intros; by simplify_eq. Qed.

Lemma has_entries_NoDup m wanted covered bh L : NoDup L.*1 → NoDup (omap (has_entry m wanted covered bh) L).*2.
Proof.
  induction L as [|[k e] L IH]; intros Hnd; [constructor|]. apply NoDup_cons in Hnd as [Hk Hnd]. cbn [omap list_omap].
  destruct (has_entry m wanted covered bh (k, e)) as [[h' k']|] eqn:E; [|by apply IH].
  rewrite (has_entry_key _ _ _ _ _ _ _ _ E). cbn [fmap list_fmap snd]. apply NoDup_cons. split; [|by apply IH]. intros Hin. apply Hk.
  apply list_elem_of_fmap in Hin as ([h2 k2] & -> & Hin). apply list_elem_of_omap in Hin as ([k3 e3] & Hin & E3).
  rewrite (has_entry_key _ _ _ _ _ _ _ _ E3). apply list_elem_of_fmap. by exists (k3, e3).
Qed.

Lemma needs_entry_hash m wanted bh x h : needs_entry m wanted bh x = Some h → h = xxh3 x.1 ∧ wanted (bucketFor xxh3 m x.1) = true.
Proof. unfold needs_entry. destruct (wanted _); [|done]. destruct (bh !! xxh3 x.1); [|done]. simpl. case_match; [|done]. by intros [= <-]. Qed.

Lemma needs_entries_NoDup m wanted bh L : NoDup (xxh3 <$> L.*1) → NoDup (omap (needs_entry m wanted bh) L).
Proof.
  induction L as [|[k e] L IH]; intros Hnd; [constructor|]. apply NoDup_cons in Hnd as [Hk Hnd]. cbn [omap list_omap].
  destruct (needs_entry m wanted bh (k, e)) as [h|] eqn:E; [|by apply IH]. apply needs_entry_hash in E as [-> _].
  apply NoDup_cons. split; [|by apply IH]. intros ([k' e'] & Hin & [E _]%needs_entry_hash)%list_elem_of_omap. apply Hk. cbn [fst] in *. rewrite E.
  apply list_elem_of_fmap_2, list_elem_of_fmap. by exists (k', e').
Qed.

(** The rows are those of the divergent buckets, and these are covered. *)
Record diff_input m (rs : list MetaRow) (divergent covered_buckets : list Z) : Prop := mkDiffInput {
  di_fun : functional rs;
  di_rows r : r ∈ rs → r_bucket r < num_buckets m ∧ r_bucket r ∈ divergent ∧ r_bucket r = r_key_hash r mod num_buckets m;
  di_buckets b : b ∈ divergent → b < num_buckets m ∧ b ∈ covered_buckets }.

Section diff_result.
Context (c : Clock) (m : Manager) (s : S) (rs : list MetaRow) (divergent covered_buckets : list Z).
Context (Hi : cs_inv s) (Hf : all_fresh c s) (Hinj : injective_on (has_key s)) (Hin : diff_input m rs divergent covered_buckets).

Notation wanted := (marked (num_buckets m) divergent).
Notation covered := (coveredBy m covered_buckets).
Notation bh := (foldl (λ bh r, <[r_key_hash r := r]> bh) (∅ : gmap Z MetaRow) rs).

Lemma rows_by_hash h r : bh !! h = Some r ↔ r ∈ rs ∧ r_key_hash r = h.
Proof.
  rewrite by_hash_spec by (apply (di_fun _ _ _ _ Hin) || by intros ? ?; rewrite lookup_empty).
  rewrite lookup_empty. split; [by intros [|]|by right].
Qed.

Lemma divergent_marks b : b ∈ divergent → wanted b = true ∧ covered b = true.
Proof.
  intros Hb. destruct (di_buckets _ _ _ _ Hin b Hb) as [Hn Hc]. split; [by apply marked_spec|]. unfold coveredBy.
  destruct covered_buckets as [|c0 cs]; [by apply not_elem_of_nil in Hc|]. by apply marked_spec.
Qed.

Lemma row_marks r : r ∈ rs → r_bucket r <? num_buckets m = true ∧ covered (r_bucket r) = true.
Proof. intros Hr. destruct (di_rows _ _ _ _ Hin r Hr) as (Hn & Hd & _). split; [by apply Z.ltb_lt|by apply divergent_marks]. Qed.

Lemma row_wanted r k : r ∈ rs → xxh3 k = r_key_hash r → wanted (bucketFor xxh3 m k) = true.
Proof.
  intros Hr Ek. destruct (di_rows _ _ _ _ Hin r Hr) as (_ & Hd & Hb). unfold bucketFor. rewrite Ek, <- Hb. by apply divergent_marks.
Qed.

(** Asked for, among the local keys. *)
Lemma needs_elem h r :
  r ∈ rs → r_key_hash r = h → (∀ k e, cs_lookup s k = Some e → xxh3 k = h → lwwWinsOver (rowStamp r) (stampOf e) = true) →
  h ∈ omap (needs_entry m wanted bh) (cs_liveEntries c s) ∨ ∀ k, k ∈ (cs_liveEntries c s).*1 → wanted (bucketFor xxh3 m k) = true → xxh3 k ≠ h.
Proof.
  intros Hr Eh Hall. destruct (decide (Exists (λ x, xxh3 x.1 = h) (cs_liveEntries c s))) as [Hex|Hno].
  - left. apply Exists_exists in Hex as ([k e] & Hk & Ek). simpl in Ek. apply list_elem_of_omap. exists (k, e). split; [done|].
    unfold needs_entry. cbn [fst snd]. rewrite (row_wanted r k Hr ltac:(congruence)), Ek, (proj2 (rows_by_hash h r)) by done. simpl.
    rewrite (Hall k e); [done|by apply (live_fresh c)|done].
  - right. intros k Hk _ Ek. apply Hno, Exists_exists. apply list_elem_of_fmap in Hk as ([k' e] & -> & Hk). by exists (k', e).
Qed.

Lemma needs_sound h :
  h ∈ omap (needs_entry m wanted bh) (cs_liveEntries c s) →
  ∃ r, r ∈ rs ∧ r_key_hash r = h ∧ ∀ k e, cs_lookup s k = Some e → xxh3 k = h → lwwWinsOver (rowStamp r) (stampOf e) = true.
Proof.
  intros ([k e] & Hk & E)%list_elem_of_omap. unfold needs_entry in E. cbn [fst snd] in E. destruct (wanted (bucketFor xxh3 m k)); [|done].
  destruct (bh !! xxh3 k) as [r|] eqn:Er; [|done]. simpl in E. destruct (lwwWinsOver _ _) eqn:Ew; [|done]. injection E as <-.
  apply rows_by_hash in Er as [Hr Eh]. apply (live_fresh c) in Hk; [|done..]. exists r. split_and!; [done|done|]. intros k' e' He' Ek.
  assert (k' = k) as -> by (apply Hinj; [by eexists|by eexists|done]). congruence.
Qed.

(** Offered. *)
Lemma has_elem h k :
  (h, k) ∈ omap (has_entry m wanted covered bh) (cs_liveEntries c s) ↔
  h = xxh3 k ∧ ∃ e, cs_lookup s k = Some e ∧ bucketFor xxh3 m k ∈ divergent ∧
    ∀ r, r ∈ rs → r_key_hash r = h → lwwWinsOver (stampOf e) (rowStamp r) = true.
Proof.
  rewrite list_elem_of_omap. split.
  - intros ([k' e] & Hk & E). pose proof (has_entry_key _ _ _ _ _ _ _ _ E) as ->. unfold has_entry in E. cbn [fst snd] in E.
    destruct (wanted (bucketFor xxh3 m k')) eqn:Ew; [|done]. apply marked_spec in Ew as [_ Ew]. apply (live_fresh c) in Hk; [|done..].
    destruct (bh !! xxh3 k') as [r|] eqn:Er.
    + destruct (lwwWinsOver (rowStamp r) (stampOf e)); [done|]. destruct (lwwWinsOver (stampOf e) (rowStamp r)) eqn:Ew2; [|done].
      injection E as <-. split; [done|]. exists e. split_and!; [done|done|]. intros r' Hr' Eh'. apply rows_by_hash in Er as [Hr Eh].
      by rewrite (di_fun _ _ _ _ Hin r' r Hr' Hr ltac:(congruence)).
    + destruct (covered _); [|done]. injection E as <-. split; [done|]. exists e. split_and!; [done|done|].
      intros r Hr Eh. assert (bh !! xxh3 k' = Some r) by (by apply rows_by_hash). congruence.
  - intros (-> & e & He & Hd & Hall). exists (k, e). split; [by apply (live_fresh c)|]. destruct (divergent_marks _ Hd) as [Hw Hc].
    unfold has_entry. cbn [fst snd]. rewrite Hw. destruct (bh !! xxh3 k) as [r|] eqn:Er; [|by rewrite Hc].
    apply rows_by_hash in Er as [Hr Eh]. pose proof (Hall r Hr Eh) as Hwin. rewrite Hwin. unfold lwwWinsOver in *.
    destruct (compareLww_spec (stampOf e) (rowStamp r)) as [Hlt|Heq|Hgt]; try done.
    destruct (compareLww_spec (rowStamp r) (stampOf e)) as [Hlt'|Heq'|Hgt']; try done. by destruct (lww_lt_asymm _ _ Hgt).
Qed.

(** What the initiator asks for and what it offers, once it has all rows of the
    divergent buckets: the rows that beat or miss the local entry, and the
    local entries that beat or miss a row. *)
Lemma diffRows_spec :
  divergent ≠ [] →
  ∃ d, diffRows xxh3 c m s rs divergent covered_buckets = Some d ∧
    (∀ h, h ∈ need d ↔ ∃ r, r ∈ rs ∧ r_key_hash r = h ∧
       ∀ k e, cs_lookup s k = Some e → xxh3 k = h → lwwWinsOver (rowStamp r) (stampOf e) = true) ∧
    (∀ h k, (h, k) ∈ have d ↔ h = xxh3 k ∧ ∃ e, cs_lookup s k = Some e ∧ bucketFor xxh3 m k ∈ divergent ∧
       ∀ r, r ∈ rs → r_key_hash r = h → lwwWinsOver (stampOf e) (rowStamp r) = true) ∧
    NoDup (have d).*2 ∧ NoDup (need d).
Proof.
  intros Hne. assert (diffRows xxh3 c m s rs divergent covered_buckets =
    let '(rest, need, have) := cs_forEach c (diffEntry xxh3 m wanted covered) (bh, [], []) s in
    more ← mapM (λ '(h, row), if r_bucket row <? num_buckets m then Some (if covered (r_bucket row) then [h] else []) else None) (map_to_list rest);
    Some (mkMetaDiff (sort_by id (need ++ concat more)) (sort_by fst have))) as -> by (unfold diffRows; by destruct divergent).
  unfold cs_forEach.
  destruct (diff_fold m wanted covered (cs_liveEntries c s) bh bh [] [] (live_hashes c s Hi Hinj) ltac:(done)) as (bh' & -> & Hbh').
  assert (mapM (λ '(h, row), if r_bucket row <? num_buckets m then Some (if covered (r_bucket row) then [h] else []) else None) (map_to_list bh')
    = Some ((λ x, [x.1]) <$> map_to_list bh')) as ->.
  { apply mapM_Some_2, Forall2_fmap_r, Forall_Forall2_diag, Forall_forall. intros [h r] Hr. apply elem_of_map_to_list, Hbh' in Hr as [Hr _].
    apply rows_by_hash in Hr as [Hr _]. destruct (row_marks r Hr) as [-> ->]. done. }
  cbn [mbind option_bind]. eexists. split; [reflexivity|]. cbn [need have app].
  assert (concat ((λ x, [x.1]) <$> map_to_list bh') = (map_to_list bh').*1) as ->.
  { induction (map_to_list bh') as [|x l IH]; [done|]. cbn. f_equal. exact IH. }
  split_and!.
  - intros h. rewrite sort_by_elem, elem_of_app, list_elem_of_fmap. split.
    + intros [Hh|([h' r] & -> & Hr)]; [by apply needs_sound|]. apply elem_of_map_to_list, Hbh' in Hr as [Hr Hno]. simpl.
      apply rows_by_hash in Hr as [Hr Eh]. exists r. split_and!; [done|done|]. intros k e He Ek. exfalso.
      apply (Hno k); [apply list_elem_of_fmap; exists (k, e); split; [done|by apply live_fresh]|apply (row_wanted r); [done|congruence]|done].
    + intros (r & Hr & Eh & Hall). destruct (needs_elem h r Hr Eh Hall) as [Hh|Hno]; [by left|]. right. exists (h, r). split; [done|].
      apply elem_of_map_to_list, Hbh'. split; [by apply rows_by_hash|done].
  - intros h k. rewrite sort_by_elem. apply has_elem.
  - rewrite (sort_by_perm fst). by apply has_entries_NoDup, cs_live_keys.
  - rewrite (sort_by_perm id). apply NoDup_app. split_and!; [by apply needs_entries_NoDup, live_hashes| |apply NoDup_fst_map_to_list].
    intros h ([k e] & Hk & [-> Hw]%needs_entry_hash)%list_elem_of_omap ([h' r] & E & Hr)%list_elem_of_fmap.
    apply elem_of_map_to_list, Hbh' in Hr as [_ Hno]. apply (Hno k); [apply list_elem_of_fmap; by exists (k, e)|done|done].
Qed.
End diff_result.

(** ** Rows *)

Lemma bucketRows_filter c m s b :
  bucketRows xxh3 c m s b = (λ x, rowFor xxh3 m x.1 x.2) <$> filter (λ x, bucketFor xxh3 m x.1 = b) (cs_liveEntries c s).
Proof.
  unfold bucketRows, cs_forEach.
  assert (∀ L acc, foldl (λ rs '(k, e), if bucketFor xxh3 m k =? b then rs ++ [rowFor xxh3 m k e] else rs) acc L =
    acc ++ ((λ x, rowFor xxh3 m x.1 x.2) <$> filter (λ x, bucketFor xxh3 m x.1 = b) L)) as Gen; [|by rewrite Gen].
  intros L. induction L as [|[k e] L IH]; intros acc; cbn [foldl]; [by rewrite app_nil_r|]. rewrite IH, filter_cons. cbn [fst].
  destruct (Z.eqb_spec (bucketFor xxh3 m k) b); case_decide; try done. by rewrite <- app_assoc.
Qed.

Lemma bucketRows_elem c m s b r :
  cs_inv s → all_fresh c s →
  r ∈ bucketRows xxh3 c m s b ↔ ∃ k e, cs_lookup s k = Some e ∧ bucketFor xxh3 m k = b ∧ r = rowFor xxh3 m k e.
Proof.
  intros Hi Hf. rewrite bucketRows_filter, list_elem_of_fmap. split.
  - intros ([k e] & -> & Hin). apply list_elem_of_filter in Hin as [Hb Hin]. apply live_fresh in Hin; [|done..]. eauto.
  - intros (k & e & He & Hb & ->). exists (k, e). split; [done|]. apply list_elem_of_filter. split; [done|]. by apply live_fresh.
Qed.

Lemma bucketRows_hashes c m s b : cs_inv s → injective_on (has_key s) → NoDup (r_key_hash <$> bucketRows xxh3 c m s b).
Proof.
  intros Hi Hinj. rewrite bucketRows_filter, <- list_fmap_compose. pose proof (live_hashes c s Hi Hinj) as Hnd.
  rewrite <- list_fmap_compose in Hnd. eapply sublist_NoDup; [exact Hnd|]. apply (fmap_sublist (xxh3 ∘ fst)), sublist_filter.
Qed.

Lemma bucketRows_length c m s b : (length (bucketRows xxh3 c m s b) <= length (cs_liveEntries c s))%nat.
Proof. rewrite bucketRows_filter, length_fmap. apply length_filter. Qed.

(** ** The answer to a refinement *)

Definition item_of (r : MetaRow) : iblt.Item := iblt.mkItem (r_key_hash r) (r_version r) (r_writer r) (r_tombstone r).

(** The table of a bucket: its rows in 64 cells. *)
Definition table_of (rs : list MetaRow) : iblt.Sketch :=
  iblt.mkSketch (plus xxh3 (replicate 64 iblt.emptyCell) (signed 1 (item_of <$> rs))).

Lemma table_cells rs : length (iblt.cells (table_of rs)) = 64%nat.
Proof. unfold table_of. cbn [iblt.cells]. by rewrite plus_length, length_replicate. Qed.

Lemma buildIblt_table rs : buildIblt xxh3 rs K_IBLT_DEFAULT_CELLS = Some (Some (table_of rs)).
Proof. unfold buildIblt. apply build_plus. unfold K_IBLT_DEFAULT_CELLS, iblt.K_DEFAULT_CELLS. lia. Qed.

Lemma insert_table rs r : iblt.insert xxh3 (item_of r) (table_of rs) = Some (table_of (rs ++ [r])).
Proof.
  unfold table_of. rewrite insert_plus by (rewrite plus_length, length_replicate; lia). do 2 f_equal. rewrite <- plus_app.
  apply plus_perm. unfold signed. rewrite !fmap_app. simpl. apply Permutation_cons_append.
Qed.

(** Rows below the threshold, the table of all of them from there on. *)
Lemma buildBucket_spec rs :
  buildBucket xxh3 rs = Some (if (length rs <? K_IBLT_MIN_ROWS)%nat then mkBuild rs None else mkBuild [] (Some (table_of rs))).
Proof.
  unfold buildBucket. induction rs as [|r rs IH] using rev_ind; [done|]. rewrite foldl_app, IH. cbn [foldl mbind option_bind].
  rewrite length_app. cbn [length]. unfold buildRow, K_IBLT_MIN_ROWS. destruct (Nat.ltb_spec (length rs) 32) as [Hlt|Hge].
  - cbn [b_sketch b_sample]. rewrite length_app. cbn [length]. destruct (Nat.eqb_spec (length rs + 1) 32) as [E|E].
    + rewrite buildIblt_table. cbn [mbind option_bind]. destruct (Nat.ltb_spec (length rs + 1) 32); [lia|done].
    + destruct (Nat.ltb_spec (length rs + 1) 32); [done|lia].
  - cbn [b_sketch b_sample]. fold (item_of r). rewrite insert_table. cbn [mbind option_bind].
    destruct (Nat.ltb_spec (length rs + 1) 32); [lia|done].
Qed.

Definition small c m s (b : Z) : bool := (length (bucketRows xxh3 c m s b) <? K_IBLT_MIN_ROWS)%nat.

Definition rows_in c m s (bs : list Z) : list MetaRow := concat (bucketRows xxh3 c m s <$> filter (λ b, small c m s b = true) bs).

Definition big_in c m s (bs : list Z) : list Z := filter (λ b, small c m s b = false) bs.

Lemma answerBuckets_spec c m s bs rs sketches :
  (∀ b, b ∈ bs → ∃ blob, iblt.encode (table_of (bucketRows xxh3 c m s b)) = Some blob) →
  ∃ blobs, answerBuckets xxh3 c m s bs rs sketches = Some (rs ++ rows_in c m s bs, sketches ++ blobs) ∧
    blobs.*1 = big_in c m s bs ∧ ∀ b blob, (b, blob) ∈ blobs → iblt.encode (table_of (bucketRows xxh3 c m s b)) = Some blob.
Proof.
  revert rs sketches. induction bs as [|b bs IH]; intros rs sketches Henc; cbn [answerBuckets].
  { exists []. unfold rows_in. rewrite !app_nil_r. split_and!; [done|done|]. intros b blob Hin. exfalso. exact (not_elem_of_nil _ Hin). }
  rewrite buildBucket_spec. cbn [mbind option_bind]. unfold rows_in, big_in. rewrite !filter_cons.
  change ((length (bucketRows xxh3 c m s b) <? K_IBLT_MIN_ROWS)%nat) with (small c m s b). destruct (small c m s b) eqn:Es; cbn [b_sketch b_sample].
  - destruct (IH (rs ++ bucketRows xxh3 c m s b) sketches) as (blobs & -> & Hb & He); [intros; apply Henc; by constructor|].
    exists blobs. rewrite decide_True, decide_False by done. cbn [fmap list_fmap concat]. rewrite <- app_assoc. done.
  - destruct (Henc b) as [blob Eb]; [constructor|]. rewrite Eb. cbn [mbind option_bind].
    destruct (IH rs (sketches ++ [(b, blob)])) as (blobs & -> & Hb & He); [intros; apply Henc; by constructor|].
    exists ((b, blob) :: blobs). rewrite decide_False, decide_True by done. rewrite <- app_assoc. split_and!; [done|cbn; by f_equal|].
    intros b' blob' [[= -> ->]|Hin]%elem_of_cons; [done|by apply He].
Qed.

End sync.
