(* ===== verification/AeRound.v ===== *)
(** * A round of anti-entropy makes two nodes agree

    The whole exchange between an initiator and a responder, every message
    encoded and decoded on the way: group digests, the refinement with its rows
    and sketches, the push and the fetch. *)

From S2P Require Import Prelude Types Bytes HashRing Protocol Buffers Clock Iblt AeCodec.
From S2P Require Import Wal WheelHeap TtlWheel Store StoreFacts StoreSpec CacheStore AntiEntropy AeDigest AeSync.
Import LwwFacts.
Local Open Scope Z_scope.

(** ** Widths *)

Lemma in_u_lxor w a b : 0 <= w → in_u w a → in_u w b → in_u w (Z.lxor a b).
Proof.
  intros Hw Ha Hb. apply in_u_testbit; [done|]. intros n Hn. rewrite Z.lxor_spec.
  by rewrite (testbit_hi a w), (testbit_hi b w) by lia || done.
Qed.

Lemma in_u_shiftr w a k : 0 <= w → 0 <= k → in_u w a → in_u w (Z.shiftr a k).
Proof.
  intros Hw Hk Ha. apply in_u_testbit; [done|]. intros n Hn. rewrite Z.shiftr_spec by lia. apply (testbit_hi a w); [done|lia].
Qed.

Lemma mix_range z : in_u 64 z → in_u 64 (iblt.mix z).
Proof.
  intros Hz. unfold iblt.mix. repeat first [apply in_u_lxor; [lia| |] | apply in_u_shiftr; [lia|lia|] | apply wrap_range; lia | done].
Qed.

Lemma elem_of_concat {A} (x : A) (ls : list (list A)) : x ∈ concat ls ↔ ∃ l, x ∈ l ∧ l ∈ ls.
Proof.
  rewrite list_elem_of_In, in_concat. split; intros (l & Hl & Hx); exists l; rewrite !list_elem_of_In in *; done.
Qed.

Section round.
Context {S : Type} `{CacheStoreLaws S} `{Sorter}.
Context (xxh3 : bytes → Z) (xxh3_range : ∀ l, in_u 64 (xxh3 l)).
Implicit Types (m : Manager) (s : S) (c : Clock).

Lemma entryHash_range k e : in_u 64 (entryHash xxh3 k e).
Proof. unfold entryHash, entryHashRaw. apply mix_range. apply in_u_lxor; [lia|apply wrap_range; lia..]. Qed.

Lemma xor_at_range b h l : in_u 64 h → Forall (in_u 64) l → Forall (in_u 64) (xor_at b h l).
Proof.
  intros Hh Hl. apply Forall_lookup. intros i x. unfold xor_at. destruct (decide (i = Z.to_nat b)) as [->|].
  - rewrite list_lookup_alter_eq. intros (y & Hy & ->)%fmap_Some. apply in_u_lxor; [lia| |done]. rewrite Forall_lookup in Hl. by eapply Hl.
  - rewrite list_lookup_alter_ne by done. rewrite Forall_lookup in Hl. apply Hl.
Qed.

Lemma computeDigest_range c m s : Forall (in_u 64) (computeDigest xxh3 c m s).
Proof.
  unfold computeDigest, cs_forEach. assert (Forall (in_u 64) (replicate (Z.to_nat (num_buckets m)) 0)) as Hz by (apply Forall_replicate; unfold in_u; lia).
  revert Hz. generalize (replicate (Z.to_nat (num_buckets m)) 0). induction (cs_liveEntries c s) as [|[k e] L IH]; intros l Hl; [done|].
  cbn [foldl]. apply IH, xor_at_range; [apply entryHash_range|done].
Qed.

Lemma computeDigest_length c m s : length (computeDigest xxh3 c m s) = Z.to_nat (num_buckets m).
Proof.
  unfold computeDigest, cs_forEach. rewrite <- (length_replicate (Z.to_nat (num_buckets m)) 0) at 2.
  generalize (replicate (Z.to_nat (num_buckets m)) 0). induction (cs_liveEntries c s) as [|[k e] L IH]; intros l; [done|].
  cbn [foldl]. rewrite IH. unfold xor_at. by rewrite length_alter.
Qed.

Lemma groupDigests_range l : Forall (in_u 64) (groupDigests xxh3 l).
Proof. unfold groupDigests. apply Forall_fmap, Forall_true. intros. apply xxh3_range. Qed.

(** ** Entries that fit the wire *)

Definition entry_fits (k : bytes) (e : VersionedEntry) : Prop :=
  in_u 32 (zlen k) ∧ in_u 32 (zlen (value e)) ∧ Entry.wf e ∧ in_u 64 (writer_node_hash e).

Definition store_fits s : Prop := ∀ k e, cs_lookup s k = Some e → entry_fits k e.

Lemma rowFor_ok m k e : 0 < num_buckets m < 2 ^ 32 → entry_fits k e → row_ok (rowFor xxh3 m k e).
Proof.
  intros Hn (_ & _ & Hwf & Hw). unfold row_ok, rowFor, bucketFor. simpl. split_and!; [|apply xxh3_range| |done].
  - pose proof (Z.mod_pos_bound (xxh3 k) (num_buckets m)). unfold in_u. lia.
  - pose proof (EntryFacts.version_range e Hwf). unfold in_u in *. lia.
Qed.

Lemma bucketRows_ok c m s b :
  cs_inv s → all_fresh c s → store_fits s → 0 < num_buckets m < 2 ^ 32 → Forall row_ok (bucketRows xxh3 c m s b).
Proof.
  intros Hi Hf Hs Hn. apply Forall_forall. intros r Hr. apply bucketRows_elem in Hr as (k & e & He & _ & ->); [|done..].
  apply rowFor_ok; [done|by apply Hs].
Qed.

(** ** Tables *)

(** A cell after some rows: the count is within their number, the rest within
    the words. *)
Lemma total_ok n (D : list (Z * iblt.Item)) i (K : Z) (c : iblt.Cell) :
  (∀ (s : Z) x, (s, x) ∈ D → (s = 1 ∨ s = -1) ∧ in_u 64 (iblt.key_hash x) ∧ in_u 64 (iblt.version x) ∧ in_u 64 (iblt.writer x)) →
  - K <= iblt.count c <= K → in_u 64 (iblt.key_hash_xor c) ∧ in_u 64 (iblt.version_xor c) ∧ in_u 64 (iblt.writer_xor c) ∧
    in_u 64 (iblt.tombstone_xor c) ∧ in_u 64 (iblt.checksum_xor c) →
  let c' := total xxh3 n D i c in
  - (K + Z.of_nat (length D)) <= iblt.count c' <= K + Z.of_nat (length D) ∧ in_u 64 (iblt.key_hash_xor c') ∧ in_u 64 (iblt.version_xor c') ∧
    in_u 64 (iblt.writer_xor c') ∧ in_u 64 (iblt.tombstone_xor c') ∧ in_u 64 (iblt.checksum_xor c').
Proof.
  induction D as [|[s x] D IH]; intros HD Hc Hu; [simpl; split; [lia|done]|]. cbn [total foldr]. fold (total xxh3 n D i c).
  destruct IH as (A1 & A2 & A3 & A4 & A5 & A6); [intros s' x' ?; apply HD; by constructor|done|done|].
  destruct (HD s x) as (Hs & Hk & Hv & Hw); [constructor|]. unfold contrib. cbn [length fst snd]. case_decide; [|split_and!; try done; lia].
  unfold iblt.apply. cbn. split_and!; try lia; apply in_u_lxor; try done; try lia; [unfold in_u; destruct (iblt.tombstone x); simpl; lia|apply xxh3_range].
Qed.

Lemma table_ok rs : Forall row_ok rs → Z.of_nat (length rs) <= 2 ^ 40 → Forall cell_ok (iblt.cells (table_of xxh3 rs)).
Proof.
  intros Hr Hl. apply Forall_lookup. intros i x. unfold table_of. cbn [iblt.cells]. rewrite lookup_plus, length_replicate.
  destruct (replicate 64 iblt.emptyCell !! i) as [c0|] eqn:E; [|done]. apply lookup_replicate in E as [-> _]. intros [= <-].
  destruct (total_ok 64 (signed 1 (item_of <$> rs)) i 0 iblt.emptyCell) as (A & B).
  - intros s x Hx. unfold signed in Hx. apply list_elem_of_fmap in Hx as (y & [= -> ->] & Hy). apply list_elem_of_fmap in Hy as (r & -> & Hr').
    rewrite Forall_forall in Hr. destruct (Hr r Hr') as (_ & ? & ? & ?). split; [by left|done].
  - done.
  - simpl. unfold in_u. lia.
  - assert (length (signed 1 (item_of <$> rs)) = length rs) as El by (unfold signed; by rewrite !length_fmap). rewrite El in A. split; [lia|exact B].
Qed.

Lemma table_wire rs :
  Forall row_ok rs → Z.of_nat (length rs) <= 2 ^ 40 →
  ∃ blob, iblt.encode (table_of xxh3 rs) = Some blob ∧ iblt.decode blob = Some (table_of xxh3 rs) ∧ in_u 32 (zlen blob).
Proof.
  intros Hr Hl. destruct (encode_decode (table_of xxh3 rs)) as (blob & E & Hlen & Hd); [rewrite table_cells; lia|by apply table_ok|].
  exists blob. split_and!; [done|done|]. unfold zlen, in_u. rewrite Hlen, table_cells. lia.
Qed.

(** ** One sketch against the local rows *)

Lemma bucket_ids_elem m b : b ∈ bucket_ids_of m ↔ 0 <= b < num_buckets m.
Proof.
  unfold bucket_ids_of. rewrite list_elem_of_fmap. split.
  - intros (i & -> & Hi%elem_of_seq). lia.
  - intros Hb. exists (Z.to_nat b). split; [lia|]. apply elem_of_seq. lia.
Qed.

Lemma bucket_ids_NoDup m : NoDup (bucket_ids_of m).
Proof. unfold bucket_ids_of. apply NoDup_fmap_2; [apply _|apply NoDup_seq]. Qed.

Lemma NoDup_filter_singleton {A} (P : A → Prop) `{!∀ x, Decision (P x)} (l : list A) (a : A) :
  NoDup l → a ∈ l → (∀ x, P x ↔ x = a) → filter P l = [a].
Proof.
  induction 1 as [|x l Hx Hnd IH]; intros Ha HP; [by apply not_elem_of_nil in Ha|]. rewrite filter_cons.
  destruct (decide (P x)) as [Hpx|Hpx].
  - apply HP in Hpx as ->. f_equal. destruct (filter P l) as [|y k] eqn:E; [done|].
    assert (y ∈ filter P l) as [Hy Hyl]%list_elem_of_filter by (rewrite E; apply list_elem_of_here). apply HP in Hy as ->. done.
  - apply elem_of_cons in Ha as [->|Ha]; [destruct Hpx; by apply HP|]. by apply IH.
Qed.

(** A single bucket is always covered, over budget or not. *)
Lemma collectRows_one c m s b max :
  0 <= b < num_buckets m → collectRows xxh3 c m s [b] max (Some []) = (sort_by r_key_hash (bucketRows xxh3 c m s b), Some [b]).
Proof.
  intros Hb. unfold collectRows.
  assert (filter (λ b', marked (num_buckets m) [b] b' = true) (bucket_ids_of m) = [b]) as ->.
  { apply NoDup_filter_singleton; [apply bucket_ids_NoDup|by apply bucket_ids_elem|]. intros x. rewrite marked_spec, list_elem_of_singleton.
    split; [by intros [_ ?]|]. intros ->. split; [lia|done]. }
  cbn [fillBuckets fmap option_fmap option_map app length Nat.ltb Nat.leb]. rewrite !andb_false_r. by destruct (_ >? max).
Qed.

Lemma NoDup_fmap_inj_in {A B} (f : A → B) (l : list A) x y : NoDup (f <$> l) → x ∈ l → y ∈ l → f x = f y → x = y.
Proof.
  intros Hn [i Hi]%list_elem_of_lookup [j Hj]%list_elem_of_lookup E.
  assert (i = j) as ->; [|congruence]. eapply NoDup_lookup; [exact Hn|rewrite list_lookup_fmap, Hi; reflexivity|rewrite list_lookup_fmap, Hj; simpl; by rewrite E].
Qed.

Section sketch.
Context (b : Z) (LA RB : list MetaRow).

Definition only_remote : list iblt.Item := filter (λ i, i ∉ (item_of <$> LA)) (item_of <$> RB).
Definition only_local : list iblt.Item := filter (λ i, i ∉ (item_of <$> RB)) (item_of <$> LA).
Definition both : list iblt.Item := filter (λ i, i ∈ (item_of <$> LA)) (item_of <$> RB).

Context (HL : NoDup (r_key_hash <$> LA)) (HR : NoDup (r_key_hash <$> RB)).
Context (HLb : ∀ r, r ∈ LA → r_bucket r = b) (HRb : ∀ r, r ∈ RB → r_bucket r = b).

Lemma hashes_items l : NoDup (r_key_hash <$> l) → NoDup (item_of <$> l).
Proof. intros Hn. apply (NoDup_fmap_1 iblt.key_hash). by rewrite <- list_fmap_compose. Qed.

Lemma filter_split {A} (P : A → Prop) `{!∀ x, Decision (P x)} (l : list A) : l ≡ₚ filter P l ++ filter (λ x, ¬ P x) l.
Proof.
  induction l as [|x l IH]; [done|]. rewrite !filter_cons. destruct (decide (P x)), (decide (¬ P x)); try done; simpl.
  - by f_equiv.
  - rewrite <- Permutation_middle. by f_equiv.
Qed.

Lemma remote_split : item_of <$> RB ≡ₚ both ++ only_remote.
Proof. apply filter_split. Qed.

Lemma local_split : item_of <$> LA ≡ₚ both ++ only_local.
Proof.
  rewrite (filter_split (λ i, i ∈ (item_of <$> RB)) (item_of <$> LA)). unfold both, only_local. f_equiv. apply NoDup_Permutation.
  - by apply NoDup_filter, hashes_items.
  - by apply NoDup_filter, hashes_items.
  - intros i. rewrite !list_elem_of_filter. tauto.
Qed.

Lemma row_item r r' : r ∈ LA ∨ r ∈ RB → r' ∈ LA ∨ r' ∈ RB → item_of r = item_of r' → r = r'.
Proof.
  intros Hr Hr' E. assert (r_bucket r = b) by (destruct Hr; auto). assert (r_bucket r' = b) by (destruct Hr'; auto).
  destruct r, r'. injection E as -> -> -> ->. simpl in *. congruence.
Qed.

(** The rows rebuilt from what the two sides do not share. *)
Lemma rebuilt_rows ro lo L' r :
  ro ≡ₚ only_remote → lo ≡ₚ only_local → L' ≡ₚ LA →
  r ∈ filter (λ r, r_key_hash r ∉ (r_key_hash <$> toMetaRows b lo)) L' ++ toMetaRows b ro ↔ r ∈ RB.
Proof.
  intros Hro Hlo HL'.
  assert (∀ r, r ∈ LA → r_key_hash r ∈ (r_key_hash <$> toMetaRows b lo) ↔ item_of r ∉ (item_of <$> RB)) as Hgone.
  { intros r0 Hr0. unfold toMetaRows. rewrite <- list_fmap_compose, list_elem_of_fmap. split.
    - intros (i & Ei & Hi). rewrite Hlo in Hi. apply list_elem_of_filter in Hi as [Hno Hi]. apply list_elem_of_fmap in Hi as (r1 & -> & Hr1). simpl in Ei.
      assert (r0 = r1) as ->; [|done]. eapply (NoDup_fmap_inj_in r_key_hash LA); done.
    - intros Hno. exists (item_of r0). split; [done|]. rewrite Hlo. apply list_elem_of_filter. split; [done|]. by apply list_elem_of_fmap_2. }
  assert (r ∈ toMetaRows b ro ↔ ∃ i, r = mkRow b (iblt.tombstone i) (iblt.key_hash i) (iblt.version i) (iblt.writer i) ∧ i ∈ ro) as Hrow
    by apply list_elem_of_fmap.
  rewrite elem_of_app, list_elem_of_filter, HL', Hrow. split.
  - intros [[Hh Hr]|(i & -> & Hi)].
    + destruct (decide (item_of r ∈ (item_of <$> RB))) as [Hin|Hno]; [|by destruct Hh; apply Hgone].
      apply list_elem_of_fmap in Hin as (r1 & E & Hr1). by rewrite (row_item r r1) by auto.
    + rewrite Hro in Hi. apply list_elem_of_filter in Hi as [_ Hi]. apply list_elem_of_fmap in Hi as (r1 & -> & Hr1).
      destruct r1 as [b1 t k v w] eqn:E. simpl. assert (b1 = b) as <-; [|done]. exact (HRb _ Hr1).
  - intros Hr. destruct (decide (item_of r ∈ (item_of <$> LA))) as [Hin|Hno].
    + left. apply list_elem_of_fmap in Hin as (r1 & E & Hr1). rewrite (row_item r r1) in Hr |- * by auto. split; [|done].
      rewrite Hgone by done. intros Hn. apply Hn. by apply list_elem_of_fmap_2.
    + right. exists (item_of r). split; [|rewrite Hro; apply list_elem_of_filter; split; [done|by apply list_elem_of_fmap_2]].
      destruct r as [b1 t k v w]. unfold item_of. simpl. f_equal. exact (HRb _ Hr).
Qed.
End sketch.

(** ** Digests *)

(** The accumulators, if they are in use, are what a scan gives. *)
Definition current c s m : Prop := rehashing m = false ∧ (xor_valid m = true → xor_ m = computeDigest xxh3 c m s).

Definition same_conf m m' : Prop := num_buckets m' = num_buckets m ∧ fetch_bytes m' = fetch_bytes m.

Lemma computeDigest_conf c m m' s : num_buckets m' = num_buckets m → computeDigest xxh3 c m' s = computeDigest xxh3 c m s.
Proof. intros E. unfold computeDigest, bucketFor. by rewrite E. Qed.

Lemma digestForRound_spec c s m :
  current c s m → ∃ m', digestForRound xxh3 c s m = (computeDigest xxh3 c m s, m') ∧ current c s m' ∧ same_conf m m'.
Proof.
  intros [Hr Hx]. unfold digestForRound. rewrite Hr. cbn [with_rehashing xor_valid last_full_rehash_ns full_rehash_interval num_buckets].
  destruct (xor_valid m) eqn:Ev; cbn [negb orb].
  - destruct (_ >=? _).
    + eexists. split; [reflexivity|]. done.
    + unfold snapshotXor. cbn [with_rehashing xor_]. rewrite Hx by done. eexists. split; [reflexivity|]. split; [|done].
      split; [done|]. intros _. cbn. by rewrite Hx.
  - eexists. split; [reflexivity|]. done.
Qed.

(** The hash of a bucket. *)
Definition hash_at (d : list Z) (b : Z) : Z := default 0 (d !! Z.to_nat b).

Lemma digest_at c m s b :
  0 <= b < num_buckets m → computeDigest xxh3 c m s !! Z.to_nat b = Some (hash_at (computeDigest xxh3 c m s) b).
Proof.
  intros Hb. unfold hash_at. destruct (lookup_lt_is_Some_2 (computeDigest xxh3 c m s) (Z.to_nat b)) as [x Hx].
  - rewrite computeDigest_length. lia.
  - by rewrite Hx.
Qed.

Lemma hash_at_range c m s b : in_u 64 (hash_at (computeDigest xxh3 c m s) b).
Proof.
  unfold hash_at. destruct (computeDigest xxh3 c m s !! Z.to_nat b) as [x|] eqn:E; [|unfold in_u; simpl; lia].
  pose proof (computeDigest_range c m s) as Hr. rewrite Forall_lookup in Hr. by eapply Hr.
Qed.

Lemma computeDigest_folded c m s :
  computeDigest xxh3 c m s = folded xxh3 (num_buckets m) (ident <$> cs_liveEntries c s) (replicate (Z.to_nat (num_buckets m)) 0).
Proof.
  unfold computeDigest, cs_forEach. generalize (replicate (Z.to_nat (num_buckets m)) 0).
  induction (cs_liveEntries c s) as [|[k e] es IH]; intros l; cbn [foldl fmap list_fmap]; [by rewrite folded_nil|].
  unfold bucketFor, entryHash. rewrite xor_at_folded, IH, <- folded_app. done.
Qed.

Lemma xsum_filter {A} (P : A → Prop) `{!∀ x, Decision (P x)} f (l : list A) : (∀ x, ¬ P x → f x = 0) → xsum f l = xsum f (filter P l).
Proof.
  intros Hz. induction l as [|x l IH]; [done|]. rewrite filter_cons. cbn [xsum foldr]. fold (xsum f l). rewrite IH.
  destruct (decide (P x)); [done|]. rewrite Hz by done. apply Z.lxor_0_l.
Qed.

(** Stores with the same identities in a bucket have the same hash there. *)
Lemma bucket_hash_eq c c' m m' s s' b :
  num_buckets m' = num_buckets m → 0 <= b < num_buckets m → cs_inv s → cs_inv s' →
  (∀ k vt w, bucketFor xxh3 m k = b → (k, vt, w) ∈ ident <$> cs_liveEntries c s ↔ (k, vt, w) ∈ ident <$> cs_liveEntries c' s') →
  hash_at (computeDigest xxh3 c m s) b = hash_at (computeDigest xxh3 c' m' s') b.
Proof.
  intros En Hb Hi Hi' Hsame. unfold hash_at. rewrite !computeDigest_folded, En. unfold folded. rewrite !list_lookup_imap.
  rewrite lookup_replicate_2 by lia. simpl. f_equal.
  assert (∀ i : Ident, xxh3 i.1.1 mod num_buckets m ≠ b → weight xxh3 (num_buckets m) (Z.to_nat b) i = 0) as Hw.
  { intros [[k vt] w] Hne. simpl in *. rewrite decide_False; [done|]. intros E. apply Hne.
    pose proof (Z.mod_pos_bound (xxh3 k) (num_buckets m)). apply (f_equal Z.of_nat) in E. rewrite !Z2Nat.id in E; lia. }
  rewrite !(xsum_filter (λ i : Ident, xxh3 i.1.1 mod num_buckets m = b) _ (ident <$> _) Hw). apply xsum_perm, NoDup_Permutation.
  - apply NoDup_filter, (NoDup_fmap_1 (λ i : Ident, i.1.1)). rewrite <- list_fmap_compose. by apply cs_live_keys.
  - apply NoDup_filter, (NoDup_fmap_1 (λ i : Ident, i.1.1)). rewrite <- list_fmap_compose. by apply cs_live_keys.
  - intros [[k vt] w]. rewrite !list_elem_of_filter. simpl. split; intros [E Hin]; (split; [done|]); by apply Hsame.
Qed.

(** ** Groups *)

Lemma group_count_Z n : 0 <= n → Z.of_nat (group_count (Z.to_nat n)) = (n + 16 - 1) / 16.
Proof.
  intros Hn. unfold group_count, K_BUCKETS_PER_GROUP. rewrite Nat2Z.inj_div. f_equal. lia.
Qed.

Lemma groupDigests_length l : length (groupDigests xxh3 l) = group_count (length l).
Proof. unfold groupDigests. by rewrite length_fmap, length_seq. Qed.

Lemma groups_length c m s : 0 < num_buckets m → Z.of_nat (length (groupDigests xxh3 (computeDigest xxh3 c m s))) = groups_of m.
Proof. intros Hn. rewrite groupDigests_length, computeDigest_length, group_count_Z by lia. done. Qed.

Lemma divergentGroups_elem local remote g :
  g ∈ divergentGroups local remote ↔ ∃ i x y, g = Z.of_nat i ∧ local !! i = Some x ∧ remote !! i = Some y ∧ x ≠ y.
Proof.
  unfold divergentGroups. rewrite list_elem_of_omap. split.
  - intros ([g' [x y]] & [i Hi]%list_elem_of_lookup & E). rewrite lookup_zip_with in Hi. rewrite list_lookup_fmap in Hi.
    destruct (seq 0 (length local) !! i) as [j|] eqn:Ej; [|done]. simpl in Hi. rewrite lookup_zip_with in Hi.
    destruct (local !! i) as [x'|] eqn:Ex; [|done]. simpl in Hi. destruct (remote !! i) as [y'|] eqn:Ey; [|done]. simpl in Hi.
    injection Hi as <- <- <-. apply lookup_seq in Ej as [-> _]. destruct (Z.eqb_spec x' y'); [done|]. injection E as <-. exists i, x', y'. done.
  - intros (i & x & y & -> & Hx & Hy & Hne). exists (Z.of_nat i, (x, y)). split; [|by destruct (Z.eqb_spec x y)].
    apply list_elem_of_lookup. exists i. rewrite lookup_zip_with, list_lookup_fmap, lookup_seq_lt by (by eapply lookup_lt_Some). simpl.
    by rewrite lookup_zip_with, Hx, Hy.
Qed.

Lemma zip_fst_NoDup {A B} (k : list A) (l : list B) : NoDup k → NoDup (zip k l).*1.
Proof.
  intros Hk. revert l. induction Hk as [|x k Hx _ IH]; intros [|y l]; try constructor.
  - intros ([x' y'] & E & Hin)%list_elem_of_fmap. simpl in E. subst x'. by apply elem_of_zip_l in Hin.
  - apply IH.
Qed.

Lemma omap_fst_NoDup {A B} (f : A * B → option A) (l : list (A * B)) : (∀ x a, f x = Some a → a = x.1) → NoDup l.*1 → NoDup (omap f l).
Proof.
  intros Hf. induction l as [|x l IH]; intros Hnd; [constructor|]. apply NoDup_cons in Hnd as [Hx Hnd]. cbn [omap list_omap].
  destruct (f x) as [a|] eqn:E; [|by apply IH]. apply NoDup_cons. split; [|by apply IH]. intros (y & Hy & Ey)%list_elem_of_omap. apply Hx.
  apply Hf in E as ->, Ey as Ey. rewrite Ey. by apply list_elem_of_fmap_2.
Qed.

Lemma divergentGroups_NoDup local remote : NoDup (divergentGroups local remote).
Proof.
  apply omap_fst_NoDup.
  - intros [g [x y]] a E. simpl. destruct (negb _); by simplify_eq.
  - apply zip_fst_NoDup, NoDup_fmap_2; [apply _|apply NoDup_seq].
Qed.

(** The buckets of a group. *)
Definition group_buckets m (g : Z) : list Z := seqZ (g * 16) (Z.min (g * 16 + 16) (num_buckets m) - g * 16).

Lemma group_buckets_elem m g b : b ∈ group_buckets m g ↔ g * 16 <= b < g * 16 + 16 ∧ b < num_buckets m.
Proof. unfold group_buckets. rewrite elem_of_seqZ. lia. Qed.

Lemma mapM_total {A B} (f : A → option B) (g : A → B) l : (∀ x, x ∈ l → f x = Some (g x)) → mapM f l = Some (g <$> l).
Proof. intros E. apply mapM_Some_2, Forall2_fmap_r, Forall_Forall2_diag, Forall_forall. done. Qed.

Lemma refinementFor_spec c m s groups :
  (∀ g, g ∈ groups → 0 <= g) →
  refinementFor m (computeDigest xxh3 c m s) groups =
  Some (mkRefinement ((λ b, (b, hash_at (computeDigest xxh3 c m s) b)) <$> (groups ≫= group_buckets m)) false).
Proof.
  intros Hg. unfold refinementFor.
  rewrite (mapM_total _ (λ g, (λ b, (b, hash_at (computeDigest xxh3 c m s) b)) <$> group_buckets m g)).
  - cbn [mbind option_bind]. do 2 f_equal. clear Hg. induction groups as [|g gs IH]; [done|]. cbn. rewrite IH. by rewrite fmap_app.
  - intros g Hin. apply mapM_total. intros b Hb. fold (group_buckets m g) in Hb. apply group_buckets_elem in Hb. specialize (Hg g Hin).
    rewrite digest_at by lia. done.
Qed.

Lemma groups_buckets_NoDup m groups : NoDup groups → NoDup (groups ≫= group_buckets m).
Proof.
  induction 1 as [|g gs Hg _ IH]; [constructor|]. cbn. apply NoDup_app. split_and!; [apply NoDup_seqZ| |done].
  intros b Hb Hb'. apply list_elem_of_bind in Hb' as (g' & Hb' & Hg'). apply group_buckets_elem in Hb, Hb'.
  assert (g = g') as -> by lia. done.
Qed.

(** ** The responder's answers *)

Lemma bucketRows_conf c m m' s b : num_buckets m' = num_buckets m → bucketRows xxh3 c m' s b = bucketRows xxh3 c m s b.
Proof. intros E. unfold bucketRows, rowFor, bucketFor. by rewrite E. Qed.

Lemma small_conf c m m' s b : num_buckets m' = num_buckets m → small xxh3 c m' s b = small xxh3 c m s b.
Proof. intros E. unfold small. by rewrite (bucketRows_conf c m m'). Qed.

(** What a node must satisfy to take part in a round. *)
Record node_ok c s m : Prop := mkNodeOk {
  no_inv : cs_inv s;
  no_fresh : all_fresh c s;
  no_fits : store_fits s;
  no_current : current c s m;
  no_buckets : 0 < num_buckets m < 2 ^ 32;
  no_count : Z.of_nat (length (cs_liveEntries c s)) * 29 + 4 < 2 ^ 32;
  no_inj : injective_on xxh3 (has_key s) }.

Lemma node_ok_conf c s m m' : node_ok c s m → current c s m' → same_conf m m' → node_ok c s m'.
Proof. intros [] Hc [En _]. split; try done. by rewrite En. Qed.

Lemma groups_small m : 0 < num_buckets m < 2 ^ 32 → 0 <= groups_of m < 2 ^ 32.
Proof.
  intros Hn. unfold groups_of, K_BUCKETS_PER_GROUP. split; [apply Z.div_pos; lia|]. apply Z.div_lt_upper_bound; lia.
Qed.

(** The first answer: the group hashes and nothing else. *)
Lemma onDigestRequest_groups c s m groups tr :
  node_ok c s m → Forall (in_u 64) groups → Z.of_nat (length groups) = groups_of m →
  ∃ v w m', encodeGroupDigest groups = Some v ∧
    onDigestRequest xxh3 c (request AntiEntropyDigest [] v tr) s m = Some (respond OK (Some w) (request AntiEntropyDigest [] v tr), (s, m')) ∧
    node_ok c s m' ∧ same_conf m m' ∧
    decodeDigestResponse w (groups_of m) = Some (mkDigestResponse (groupDigests xxh3 (computeDigest xxh3 c m s)) [] [] [] []).
Proof.
  intros Hok Hg Hl. pose proof (groups_small m (no_buckets _ _ _ Hok)) as Hgs.
  destruct (groupDigest_roundtrip groups) as (v & Ev & Dv); [split; [done|lia]|].
  destruct (digestForRound_spec c s m (no_current _ _ _ Hok)) as (m' & Ed & Hc & Hs).
  set (resp := mkDigestResponse (groupDigests xxh3 (computeDigest xxh3 c m s)) [] [] [] []).
  exists v, (response_image resp), m'. split_and!; [done| |by eapply node_ok_conf|done|].
  - unfold onDigestRequest. cbn [request Protocol.key Protocol.value]. rewrite decide_False by done. rewrite <- Hl, Dv, Ed.
    unfold resp. rewrite encodeDigestResponse_image. done.
  - pose proof (groups_length c m s ltac:(apply Hok)) as Hgl. rewrite <- Hgl. apply (decodeDigestResponse_image resp).
    + split; try (by constructor); simpl; try lia. split; [apply groupDigests_range|lia].
    + done.
Qed.

Section refine.
Context (c : Clock) (s : S) (m : Manager) (Hok : node_ok c s m).
Context (theirs : Z → Z) (hs : list Z).
Context (Htheirs : ∀ b, in_u 64 (theirs b)) (Hnd : NoDup hs) (Hhs : ∀ b, b ∈ hs → 0 <= b < num_buckets m).

Notation ours := (hash_at (computeDigest xxh3 c m s)).

Definition requested : list Z := sort_by id (filter (λ b, ours b ≠ theirs b) hs).

Lemma requested_elem b : b ∈ requested ↔ b ∈ hs ∧ ours b ≠ theirs b.
Proof. unfold requested. rewrite sort_by_elem, list_elem_of_filter. tauto. Qed.

Lemma requested_NoDup : NoDup requested.
Proof. unfold requested. rewrite (sort_by_perm id). by apply NoDup_filter. Qed.

Lemma requested_sorted : Sorted Z.le requested.
Proof. apply sort_id_sorted. Qed.

(** The answer, given the sketches. *)
Definition answer (blobs : list (Z * bytes)) : DigestResponse :=
  mkDigestResponse (groupDigests xxh3 (computeDigest xxh3 c m s)) (merge_sort pair_le ((λ b, (b, ours b)) <$> hs))
    requested (rows_in xxh3 c m s requested) blobs.

Definition blobs_ok (blobs : list (Z * bytes)) : Prop :=
  blobs.*1 = big_in xxh3 c m s requested ∧
  ∀ b blob, (b, blob) ∈ blobs → iblt.encode (table_of xxh3 (bucketRows xxh3 c m s b)) = Some blob.

Lemma bucket_rows_ok b : Forall row_ok (bucketRows xxh3 c m s b) ∧ Z.of_nat (length (bucketRows xxh3 c m s b)) <= 2 ^ 40.
Proof.
  split; [by apply bucketRows_ok; apply Hok|]. pose proof (bucketRows_length xxh3 c m s b). pose proof (no_count _ _ _ Hok). lia.
Qed.

Lemma hs_length : Z.of_nat (length hs) <= num_buckets m.
Proof.
  assert (length hs <= length (bucket_ids_of m))%nat as Hl.
  { apply submseteq_length, NoDup_submseteq; [done|]. intros b Hb. apply bucket_ids_elem. by apply Hhs. }
  unfold bucket_ids_of in Hl. rewrite length_fmap, length_seq in Hl. pose proof (no_buckets _ _ _ Hok). lia.
Qed.

(** Rows of different buckets are different entries. *)
Lemma concat_rows_length bs : NoDup bs → (length (concat (bucketRows xxh3 c m s <$> bs)) <= length (cs_liveEntries c s))%nat.
Proof.
  intros Hb. assert (length (concat (bucketRows xxh3 c m s <$> bs)) =
    length (concat ((λ b, filter (λ x, bucketFor xxh3 m x.1 = b) (cs_liveEntries c s)) <$> bs))) as ->.
  { clear Hb. induction bs as [|b bs IH]; [done|]. cbn [fmap list_fmap concat]. rewrite !length_app, IH, bucketRows_filter, length_fmap. done. }
  apply submseteq_length, NoDup_submseteq.
  - pose proof (cs_live_keys c s (no_inv _ _ _ Hok)) as Hk. apply NoDup_fmap_1 in Hk. induction Hb as [|b bs Hb _ IH]; [constructor|].
    cbn [fmap list_fmap concat]. apply NoDup_app. split_and!; [by apply NoDup_filter| |done]. intros x [Hx _]%list_elem_of_filter Hx'.
    apply elem_of_concat in Hx' as (l & Hl & Hin). apply list_elem_of_fmap in Hin as (b' & -> & Hb').
    apply list_elem_of_filter in Hl as [Hx'' _]. congruence.
  - intros x Hx. apply elem_of_concat in Hx as (l & Hl & Hin). apply list_elem_of_fmap in Hin as (b' & -> & Hb').
    by apply list_elem_of_filter in Hl as [_ ?].
Qed.

Lemma rows_in_elem bs r : r ∈ rows_in xxh3 c m s bs ↔ ∃ b, b ∈ bs ∧ small xxh3 c m s b = true ∧ r ∈ bucketRows xxh3 c m s b.
Proof.
  unfold rows_in. rewrite elem_of_concat. split.
  - intros (l & Hl & Hin). apply list_elem_of_fmap in Hin as (b & -> & Hb). apply list_elem_of_filter in Hb as [Hs Hb]. eauto.
  - intros (b & Hb & Hs & Hr). exists (bucketRows xxh3 c m s b). split; [done|]. apply list_elem_of_fmap. exists b. split; [done|].
    by apply list_elem_of_filter.
Qed.

Lemma bucketRows_bucket b r : r ∈ bucketRows xxh3 c m s b → r_bucket r = b.
Proof. intros Hr. apply bucketRows_elem in Hr as (k & e & _ & <- & ->); [done|apply Hok..]. Qed.

Lemma answer_ok blobs : blobs_ok blobs → response_ok (answer blobs) ∧ consistent (answer blobs).
Proof.
  intros [Hb Hblob]. pose proof (no_buckets _ _ _ Hok) as Hn. pose proof hs_length as Hhl.
  assert (∀ b, b ∈ requested → 0 <= b < num_buckets m) as Hrq by (intros b [Hb' _]%requested_elem; by apply Hhs).
  assert (length requested <= length hs)%nat as Hrl.
  { unfold requested. rewrite (Permutation_length (sort_by_perm id _)). apply length_filter. }
  split.
  - split; cbn [answer group_hashes bucket_hashes covered_buckets rows iblt_sketches].
    + split; [apply groupDigests_range|]. rewrite groups_length by lia. apply (groups_small m Hn).
    + apply Forall_forall. intros x Hx. rewrite merge_sort_Permutation in Hx. apply list_elem_of_fmap in Hx as (b & -> & Hb').
      specialize (Hhs b Hb'). split; [simpl; lia|apply hash_at_range].
    + rewrite (Permutation_length (merge_sort_Permutation _ _)), length_fmap. lia.
    + apply Forall_forall. intros b Hb'. specialize (Hrq b Hb'). unfold in_u. lia.
    + lia.
    + apply Forall_forall. intros r (b & _ & _ & Hr)%rows_in_elem. destruct (bucket_rows_ok b) as [Hro _]. rewrite Forall_forall in Hro. by apply Hro.
    + pose proof (concat_rows_length (filter (λ b, small xxh3 c m s b = true) requested) ltac:(apply NoDup_filter, requested_NoDup)).
      pose proof (no_count _ _ _ Hok). unfold rows_in. lia.
    + apply Forall_forall. intros [b blob] Hin. pose proof (Hblob b blob Hin) as Eb. destruct (bucket_rows_ok b) as [Hro Hlo].
      destruct (table_wire _ Hro Hlo) as (blob' & E' & Hd & Hz). rewrite Eb in E'. injection E' as <-. split_and!; [|done|by eexists].
      pose proof (list_elem_of_fmap_2 fst blobs (b, blob) Hin) as Hb'. cbn [fst] in Hb'. rewrite Hb in Hb'.
      apply list_elem_of_filter in Hb' as [_ Hb']. specialize (Hrq b Hb'). unfold in_u. simpl. lia.
    + assert (length blobs <= length requested)%nat; [|lia]. rewrite <- (length_fmap fst), Hb. apply length_filter.
  - unfold consistent. cbn [answer rows covered_buckets iblt_sketches]. rewrite Hb. split_and!.
    + apply Forall_forall. intros r (b & Hb' & Hs & Hr)%rows_in_elem. rewrite (bucketRows_bucket b r Hr). split; [done|].
      unfold big_in. rewrite list_elem_of_filter. intros [Hs' _]. congruence.
    + apply NoDup_filter, requested_NoDup.
    + apply Forall_forall. intros b [_ ?]%list_elem_of_filter. done.
Qed.

(** The second answer: hashes of all requested buckets, rows or a sketch for
    those that differ. *)
Lemma onBucketRefinement_answer tr :
  ∃ v w m' blobs, encodeBucketRefinement (mkRefinement ((λ b, (b, theirs b)) <$> hs) false) = Some v ∧
    onDigestRequest xxh3 c (request AntiEntropyDigest K_REFINEMENT_KEY v tr) s m =
      Some (respond OK (Some w) (request AntiEntropyDigest K_REFINEMENT_KEY v tr), (s, m')) ∧
    node_ok c s m' ∧ same_conf m m' ∧ blobs_ok blobs ∧ decodeDigestResponse w (groups_of m) = Some (answer blobs).
Proof.
  pose proof (no_buckets _ _ _ Hok) as Hn. pose proof hs_length as Hhl.
  destruct (refinement_roundtrip (mkRefinement ((λ b, (b, theirs b)) <$> hs) false) (num_buckets m)) as (v & Ev & Dv); cbn [br_hashes].
  { lia. }
  { apply Forall_fmap, Forall_forall. intros b Hb. split; [simpl; by apply Hhs|apply Htheirs]. }
  { rewrite length_fmap. lia. }
  destruct (digestForRound_spec c s m (no_current _ _ _ Hok)) as (m' & Ed & Hc & Hs). pose proof Hs as [En _].
  destruct (answerBuckets_spec xxh3 c m' s requested [] []) as (blobs & Ea & Hb & Hblob).
  { intros b _. rewrite (bucketRows_conf c m m') by done. destruct (bucket_rows_ok b) as [Hro Hlo].
    destruct (table_wire _ Hro Hlo) as (blob & ? & _). eauto. }
  assert (rows_in xxh3 c m' s requested = rows_in xxh3 c m s requested ∧ big_in xxh3 c m' s requested = big_in xxh3 c m s requested) as [Er Eg].
  { unfold rows_in, big_in, small, bucketRows, rowFor, bucketFor. by rewrite En. }
  assert (blobs_ok blobs) as Hbo.
  { split; [by rewrite Hb|]. intros b blob Hin. rewrite <- (bucketRows_conf c m m') by done. by apply Hblob. }
  destruct (answer_ok blobs Hbo) as [Hro Hco].
  exists v, (response_image (answer blobs)), m', blobs. split_and!; [done| |by eapply node_ok_conf|done|done|].
  - unfold onDigestRequest. cbn [request Protocol.key]. rewrite decide_True by done. unfold onBucketRefinement. cbn [request Protocol.value].
    rewrite Dv, Ed. cbn [br_hashes force_metadata].
    assert (mapM (λ '(b, h), x ← computeDigest xxh3 c m s !! Z.to_nat b; Some (b, x, h)) ((λ b, (b, theirs b)) <$> hs) =
      Some ((λ x, (x.1, ours x.1, x.2)) <$> ((λ b, (b, theirs b)) <$> hs))) as ->.
    { apply mapM_total. intros [b h] Hin. apply list_elem_of_fmap in Hin as (b' & [= -> ->] & Hb'). rewrite digest_at by (by apply Hhs). done. }
    cbn [mbind option_bind]. rewrite <- !list_fmap_compose.
    assert (sort_by id (omap (λ '(b, x, h), if negb (x =? h) then Some b else None)
      ((λ x, (x.1, ours x.1, x.2)) ∘ (λ b, (b, theirs b)) <$> hs)) = requested) as ->.
    { unfold requested. f_equal. clear. induction hs as [|b l IH]; [done|]. cbn [fmap list_fmap omap list_omap compose fst snd]. rewrite filter_cons, <- IH.
      destruct (Z.eqb_spec (ours b) (theirs b)); case_decide; done. }
    rewrite Ea. cbn [mbind option_bind app]. rewrite Er, encodeDigestResponse_image. cbn [mbind option_bind]. unfold answer.
    rewrite <- ?list_fmap_compose. reflexivity.
  - rewrite <- (groups_length c m s) by lia. apply decodeDigestResponse_image; [done|by apply validResponse_iff].
Qed.
End refine.

(** ** The push and the fetch *)

(** The transport between the two: every request reaches the partner. *)
Definition partner (c : Clock) (req : Request) (w : S * Manager) : option (Result Response * (S * Manager)) :=
  match opcode req with
  | AntiEntropyDigest => '(r, w) ← onDigestRequest xxh3 c req w.1 w.2; Some (Ok r, w)
  | AntiEntropySync => '(r, w) ← onSyncRequest xxh3 c req w.1 w.2; Some (Ok r, w)
  | _ => None
  end.

(** What identifies a write: the packed word, the writer and the value. *)
Definition write_id (e : VersionedEntry) : Z * Z * bytes := (version_and_ttl e, writer_node_hash e, value e).

Lemma received_id c c' e : write_id (received c c' e) = write_id e ∧ stampOf (received c c' e) = stampOf e ∧ (Entry.wf e → Entry.wf (received c c' e)).
Proof. done. Qed.

Definition winner (a b : option VersionedEntry) : option VersionedEntry :=
  match a, b with
  | Some x, Some y => if lwwWinsOver (stampOf y) (stampOf x) then Some y else Some x
  | None, _ => b
  | _, None => a
  end.

(** Entries of a store, some of them, cost no more than all. *)
Lemma sub_live c s l : cs_inv s → all_fresh c s → NoDup l.*1 → (∀ k e, (k, e) ∈ l → cs_lookup s k = Some e) → l ⊆+ cs_liveEntries c s.
Proof.
  intros Hi Hf Hnd Hl. apply NoDup_submseteq; [by apply NoDup_fmap_1 in Hnd|]. intros [k e] Hin. apply live_fresh; auto.
Qed.

Lemma wire_cost_sub l k : l ⊆+ k → wire_cost l <= wire_cost k.
Proof. induction 1; simpl; try lia. Qed.

Lemma items_size_sub l k : l ⊆+ k → items_size l <= items_size k.
Proof. induction 1; cbn [items_size foldr]; repeat fold (items_size l1) (items_size l2); try lia; pose proof (item_size_nonneg x); lia. Qed.

Lemma item_for_map (f : VersionedEntry → VersionedEntry) items k : item_for ((λ x, (x.1, f x.2)) <$> items) k = f <$> item_for items k.
Proof.
  induction items as [|[k' e'] items IH]; [done|]. cbn [fmap list_fmap fst snd]. rewrite !item_for_cons.
  destruct (decide (k = k')); [done|exact IH].
Qed.

Lemma items_fit s items :
  store_fits s → (∀ k e, (k, e) ∈ items → cs_lookup s k = Some e) → Forall item_ok items.
Proof.
  intros Hs Hit. apply Forall_forall. intros [k e] Hin. destruct (Hs k e (Hit k e Hin)) as (? & ? & ? & ?). done.
Qed.

Lemma received_keys c c' (items : list (bytes * VersionedEntry)) : ((λ x, (x.1, received c c' x.2)) <$> items).*1 = items.*1.
Proof. rewrite <- list_fmap_compose. done. Qed.

Lemma received_size c c' items : items_size ((λ x, (x.1, received c c' x.2)) <$> items) = items_size items.
Proof. induction items as [|x l IH]; [done|]. cbn [fmap list_fmap items_size foldr]. fold (items_size l). rewrite <- IH. done. Qed.

Lemma live_length c s l : l ⊆+ cs_liveEntries c s → Z.of_nat (length l) <= Z.of_nat (length (cs_liveEntries c s)).
Proof. intros Hl. apply submseteq_length in Hl. lia. Qed.

Section sync_phase.
Context (ca cb : Clock) (sa sb : S) (ma mb : Manager) (Ha : node_ok ca sa ma) (Hb : node_ok cb sb mb).
Context (Hinj : injective_on xxh3 (λ k, has_key sa k ∨ has_key sb k)).
Context (Harrive : ∀ k e, cs_lookup sa k = Some e → expired (now cb) (received ca cb e) = false).
Context (Hroom : cs_room (items_size (cs_liveEntries ca sa)) sb) (Hfetch : wire_cost (cs_liveEntries cb sb) <= fetch_bytes mb).
Context (items : list (bytes * VersionedEntry)) (ns : list Z).
Context (Hitems : ∀ k e, (k, e) ∈ items → cs_lookup sa k = Some e) (Hnd : NoDup items.*1).
Context (Hns : Forall (in_u 64) ns) (Hnl : Z.of_nat (length ns) < 2 ^ 32).
Context (Hdisj : ∀ k e, (k, e) ∈ items → xxh3 k ∉ ns).

(** The responder applies the push, then serves the needlist from its own
    entries. *)
Lemma onSyncRequest_spec tr :
  ∃ v w s' m' served, encodeSync ca (mkSync items ns) = Some v ∧
    onSyncRequest xxh3 cb (request AntiEntropySync [] v tr) sb mb = Some (respond OK (Some w) (request AntiEntropySync [] v tr), (s', m')) ∧
    (∀ k, cs_lookup s' k = match item_for items k with Some e => Some (applyLww (cs_lookup sb k) (received ca cb e)) | None => cs_lookup sb k end) ∧
    NoDup served.*1 ∧ (∀ k e, (k, e) ∈ served ↔ cs_lookup sb k = Some e ∧ xxh3 k ∈ ns) ∧
    decodeSync ca w = Some (mkSync ((λ x, (x.1, received cb ca x.2)) <$> served) []).
Proof.
  pose proof (sub_live ca sa items (no_inv _ _ _ Ha) (no_fresh _ _ _ Ha) Hnd Hitems) as Hsub.
  pose proof (live_length ca sa items Hsub) as Hil. pose proof (no_count _ _ _ Ha) as Hca. pose proof (no_count _ _ _ Hb) as Hcb.
  pose proof (items_fit sa items (no_fits _ _ _ Ha) Hitems) as Hfit.
  set (got := (λ x, (x.1, received ca cb x.2)) <$> items).
  assert (decodeSync cb (sync_image ca (mkSync items ns)) = Some (mkSync got ns)) as Hdec.
  { apply (decodeSync_image ca cb (mkSync items ns)). split_and!; [done|simpl; lia|by split]. }
  destruct (applyItems_spec cb got 0 0 sb (no_inv _ _ _ Hb) (no_fresh _ _ _ Hb)) as (cnt & s1 & Eapp & Hi1 & _ & Hl1 & _).
  { unfold got. by rewrite received_keys. }
  { apply Forall_fmap. eapply Forall_impl; [exact Hfit|]. intros x (_ & _ & Hwf & _). exact Hwf. }
  { lia. }
  { unfold got. rewrite received_size, Z.add_0_r. eapply cs_room_le; [exact Hroom|by apply items_size_sub]. }
  unfold got in Hl1.
  assert (∀ k, cs_lookup s1 k = match item_for items k with Some e => Some (applyLww (cs_lookup sb k) (received ca cb e)) | None => cs_lookup sb k end) as Hl.
  { intros k. rewrite Hl1, item_for_map. by destruct (item_for items k). }
  assert (∀ k, xxh3 k ∈ ns → cs_lookup s1 k = cs_lookup sb k) as Hkeep.
  { intros k Hk. rewrite Hl. destruct (item_for items k) as [e|] eqn:E; [|done]. apply item_for_spec in E; [|done]. by destruct (Hdisj k e E). }
  assert (all_fresh cb s1) as Hf1.
  { intros k e. rewrite Hl. destruct (item_for items k) as [e'|] eqn:E; [|apply (no_fresh _ _ _ Hb)]. apply item_for_spec in E; [|done].
    intros [= <-]. unfold applyLww. destruct (cs_lookup sb k) as [r|] eqn:Er; [|by eapply Harrive, Hitems].
    destruct (lwwCovers _ _); [by eapply Harrive, Hitems|by eapply (no_fresh _ _ _ Hb)]. }
  assert (injective_on xxh3 (has_key s1)) as Hinj1.
  { assert (∀ k, has_key s1 k → has_key sa k ∨ has_key sb k) as Hk1.
    { intros k. unfold has_key. rewrite Hl. destruct (item_for items k) as [e|] eqn:E; [|by right]. apply item_for_spec in E; [|done].
      intros _. left. exists e. by apply Hitems. }
    intros k k' Hk Hk'. apply Hinj; by apply Hk1. }
  assert (∃ served s2, (match ns with [] => Some ([], s1) | z :: l => selectEntriesForHashes xxh3 cb (z :: l) (fetch_bytes mb) s1 end) = Some (served, s2) ∧
    same_view s1 s2 ∧ NoDup served.*1 ∧ ∀ k e, (k, e) ∈ served ↔ cs_lookup s1 k = Some e ∧ xxh3 k ∈ ns) as (served & s2 & Esel & Hv & Hsn & Hse).
  { destruct (selectEntriesForHashes_spec xxh3 cb ns (fetch_bytes mb) s1 Hi1 Hf1 Hinj1) as (served & s2 & E & Hv & Hsn & Hse).
    - intros l Hl0 Hin. etransitivity; [|exact Hfetch]. apply wire_cost_sub, sub_live; [apply Hb..|done|].
      intros k e Hk. destruct (Hin k e Hk) as [He Hh]. by rewrite <- Hkeep.
    - exists served, s2. split; [|done]. rewrite <- E. by destruct ns. }
  destruct Hv as (Hi2 & Hl2 & _). pose proof (take_view s2 Hi2) as (Hi3 & Hl3 & _).
  assert (∀ k e, (k, e) ∈ served → cs_lookup sb k = Some e) as Hserved.
  { intros k e Hin. apply Hse in Hin as [He Hh]. by rewrite <- Hkeep. }
  pose proof (sub_live cb sb served (no_inv _ _ _ Hb) (no_fresh _ _ _ Hb) Hsn Hserved) as Hssub. pose proof (live_length cb sb served Hssub).
  destruct (absorb xxh3 s2 mb) as [s3 m3] eqn:Eab.
  assert (s3 = (cs_takeEvents s2).2) as -> by (unfold absorb in Eab; destruct (cs_takeEvents s2); by injection Eab).
  exists (sync_image ca (mkSync items ns)), (sync_image cb (mkSync served [])), (cs_takeEvents s2).2, m3, served. split_and!.
  - apply encodeSync_image.
  - unfold onSyncRequest. cbn [request Protocol.value]. rewrite Hdec. unfold applySync. cbn [entries needs]. fold got in Eapp. rewrite Eapp.
    cbn [mbind option_bind]. rewrite Esel. cbn [mbind option_bind]. rewrite encodeSync_image. cbn [mbind option_bind]. by rewrite Eab.
  - intros k. by rewrite Hl3, Hl2, Hl.
  - done.
  - intros k e. rewrite Hse. split; intros [He Hh]; (split; [|done]); [rewrite <- Hkeep|rewrite Hkeep]; done.
  - rewrite (decodeSync_image cb ca (mkSync served [])); [done|]. split_and!; [|simpl; lia|by split; [constructor|]].
    by apply (items_fit sb served (no_fits _ _ _ Hb)).
Qed.
End sync_phase.

End round.
