(* ===== verification/AeConverge.v ===== *)
(** * Two nodes agree after a round

    The round of [AeRound], from the sketches on: what the initiator rebuilds
    from the answer of its partner, what both hold in the end, and the theorem
    that these are the same last writes. *)

From S2P Require Import Prelude Types Bytes HashRing Protocol Buffers Clock Iblt AeCodec.
From S2P Require Import Wal WheelHeap TtlWheel Store StoreFacts StoreSpec Recovery CacheStore AntiEntropy AeDigest AeSync AeRound.
Import LwwFacts.
Local Open Scope Z_scope.

(** ** The order of writes *)

Lemma lwwWinsOver_asymm a b : lwwWinsOver a b = true → lwwWinsOver b a = true → False.
Proof. rewrite !lwwWinsOver_lt. intros Hx Hy. by eapply lww_lt_asymm. Qed.

Lemma lww_total a b : lwwWinsOver b a = true ∨ a = b ∨ lwwWinsOver a b = true.
Proof. rewrite !lwwWinsOver_lt. destruct (compareLww_spec a b); auto. Qed.

Lemma some_bind {A B} (f : A → option B) x : (Some x ≫= f) = f x.
Proof. done. Qed.

(** ** The buckets of an answer *)

Lemma remoteBuckets_spec n hashes (acc : gmap Z Z) :
  (∀ x, x ∈ hashes → x.1 < n ∧ acc !! x.1 = None) → NoDup hashes.*1 →
  ∃ remote, remoteBuckets n hashes acc = Some remote ∧ ∀ b h, remote !! b = Some h ↔ acc !! b = Some h ∨ (b, h) ∈ hashes.
Proof.
  revert acc. induction hashes as [|[b0 h0] hashes IH]; intros acc Hx Hnd; cbn [remoteBuckets].
  { exists acc. split; [done|]. intros b h. split; [by left|]. by intros [?|?%not_elem_of_nil]. }
  destruct (Hx (b0, h0)) as [Hn Hacc]; [constructor|]. cbn [fst] in *. rewrite Hacc, Z.geb_leb. destruct (Z.leb_spec n b0); [lia|]. cbn [orb].
  apply NoDup_cons in Hnd as [Hb0 Hnd]. cbn [fst] in Hb0. destruct (IH (<[b0 := h0]> acc)) as (remote & -> & Hr); [|done|].
  - intros x Hin. destruct (Hx x) as [? ?]; [by constructor|]. split; [done|]. rewrite lookup_insert_ne; [done|]. intros ->.
    apply Hb0. by apply list_elem_of_fmap_2.
  - exists remote. split; [done|]. intros b h. rewrite Hr, elem_of_cons, lookup_insert. destruct (decide (b0 = b)) as [<-|Hne].
    + split; [intros [[= ->]|?]; auto|]. intros [?|[[= ->]|?]]; [congruence|by left|by right].
    + split; [intros [?|?]; auto|]. intros [?|[[= -> ->]|?]]; [by left|done|by right].
Qed.

Lemma concat_optional {A} (P : A → Prop) `{!∀ x, Decision (P x)} (l : list A) x :
  x ∈ concat ((λ y, if decide (P y) then [y] else []) <$> l) ↔ P x ∧ x ∈ l.
Proof.
  rewrite elem_of_concat. split.
  - intros (k & Hx & Hk). apply list_elem_of_fmap in Hk as (y & -> & Hy). destruct (decide (P y)); [|by apply not_elem_of_nil in Hx].
    by apply list_elem_of_singleton in Hx as ->.
  - intros [Hp Hx]. exists [x]. split; [by apply list_elem_of_singleton|]. apply list_elem_of_fmap. exists x. by rewrite decide_True.
Qed.

Section converge.
Context {S : Type} `{CacheStoreLaws S} `{Sorter}.
Context (xxh3 : bytes → Z) (xxh3_range : ∀ l, in_u 64 (xxh3 l)).
Implicit Types (m : Manager) (s : S) (c : Clock).

(** The hash of a bucket on a node. *)
Definition bucket_hash c m s (b : Z) : Z := hash_at (computeDigest xxh3 c m s) b.

(** What the tables of a bucket differ in. *)
Definition bucket_difference ca ma sa cb mb sb (b : Z) : list (Z * iblt.Item) :=
  let RB := bucketRows xxh3 cb mb sb b in
  let LA := bucketRows xxh3 ca ma sa b in
  signed 1 (only_remote LA RB) ++ signed (-1) (only_local LA RB).

(** The writes of a bucket, as the digest sees them, and their hash. *)
Definition bucket_idents c m s (b : Z) : list Ident := filter (λ i : Ident, bucketFor xxh3 m i.1.1 = b) (ident <$> cs_liveEntries c s).

Definition ident_hash (i : Ident) : Z := entryHashRaw xxh3 i.1.1 i.1.2 i.2.

(** What the hash of a group is taken of. *)
Definition group_string (hashes : list Z) (g : nat) : bytes :=
  material (g * K_BUCKETS_PER_GROUP) (take K_BUCKETS_PER_GROUP (drop (g * K_BUCKETS_PER_GROUP) hashes)).

(** Two nodes about to run a round: both in order, with the same number of
    buckets, room and budget for what the other may send, and no hash that
    collides on the data at hand: not on the keys, not on the strings of the
    groups, and for no bucket do two different sets of writes have hashes with
    the same sum. *)
Record pair_ok ca sa ma cb sb mb : Prop := mkPairOk {
  p_a : node_ok xxh3 ca sa ma;
  p_b : node_ok xxh3 cb sb mb;
  p_n : num_buckets mb = num_buckets ma;
  p_inj : injective_on xxh3 (λ k, has_key sa k ∨ has_key sb k);
  p_stamp k ea eb : cs_lookup sa k = Some ea → cs_lookup sb k = Some eb → stampOf ea = stampOf eb → write_id ea = write_id eb;
  p_xor b : 0 <= b < num_buckets ma → xsum ident_hash (bucket_idents ca ma sa b) = xsum ident_hash (bucket_idents cb mb sb b) →
    ∀ i, i ∈ bucket_idents ca ma sa b ↔ i ∈ bucket_idents cb mb sb b;
  p_strings : injective_on xxh3 (λ l, ∃ g, l = group_string (computeDigest xxh3 ca ma sa) g ∨ l = group_string (computeDigest xxh3 cb mb sb) g);
  p_peel b : 0 <= b < num_buckets ma → small xxh3 cb mb sb b = false → bucket_hash ca ma sa b ≠ bucket_hash cb mb sb b →
    honest xxh3 64 (bucket_difference ca ma sa cb mb sb b) ∧ peelable xxh3 64 (bucket_difference ca ma sa cb mb sb b);
  p_arrive k e : cs_lookup sa k = Some e → expired (now cb) (received ca cb e) = false;
  p_room_a : cs_room (items_size (cs_liveEntries cb sb)) sa;
  p_room_b : cs_room (items_size (cs_liveEntries ca sa)) sb;
  p_fetch_a : wire_cost (cs_liveEntries ca sa) <= fetch_bytes ma;
  p_fetch_b : wire_cost (cs_liveEntries cb sb) <= fetch_bytes mb }.

(** The hash of a bucket is the sum over its writes. *)
Lemma bucket_hash_xor c m s b : 0 <= b < num_buckets m → bucket_hash c m s b = xsum ident_hash (bucket_idents c m s b).
Proof.
  intros Hb. unfold bucket_hash, hash_at. rewrite computeDigest_folded. unfold folded. rewrite list_lookup_imap, lookup_replicate_2 by lia.
  cbn [fmap option_fmap option_map default]. rewrite Z.lxor_0_l. unfold bucket_idents.
  assert (∀ l, xsum (weight xxh3 (num_buckets m) (Z.to_nat b)) l = xsum ident_hash (filter (λ i : Ident, bucketFor xxh3 m i.1.1 = b) l)) as Hx; [|apply Hx].
  assert (∀ i, weight xxh3 (num_buckets m) (Z.to_nat b) i = if decide (bucketFor xxh3 m i.1.1 = b) then ident_hash i else 0) as Hw.
  { intros [[k vt] w]. unfold weight, bucketFor, ident_hash. cbn [fst snd]. pose proof (Z.mod_pos_bound (xxh3 k) (num_buckets m)).
    apply decide_ext. lia. }
  assert (∀ (f : Ident → Z) i l, xsum f (i :: l) = Z.lxor (f i) (xsum f l)) as Hc by done.
  induction l as [|i l IH]; [done|]. rewrite filter_cons, Hc, Hw, IH.
  destruct (decide (bucketFor xxh3 m i.1.1 = b)); [symmetry; apply Hc|apply Z.lxor_0_l].
Qed.

(** The string of a group tells the hashes of its buckets. *)
Lemma material_inj n l l' : Forall (in_u 64) l → Forall (in_u 64) l' → length l = length l' → material n l = material n l' → l = l'.
Proof.
  revert n l'. induction l as [|x l IH]; intros n [|x' l'] Hl Hl' Hlen; try done. cbn [material]. intros E.
  apply Forall_cons in Hl as [Hx Hl]. apply Forall_cons in Hl' as [Hx' Hl'].
  apply app_inv_head in E. apply app_inj_1 in E as [Eh Et]; [|by rewrite !le_encode_length].
  apply (f_equal le_decode) in Eh. rewrite !le_decode_encode in Eh. change (256 ^ Z.of_nat 8) with (2 ^ 64) in Eh. unfold in_u in *.
  rewrite !Z.mod_small in Eh by lia. subst x'. f_equal. apply (IH (Datatypes.S n)); auto.
Qed.

Lemma rowStamp_rowFor m k e : rowStamp (rowFor xxh3 m k e) = stampOf e.
Proof. done. Qed.

Lemma partner_digest c key v tr s m :
  partner xxh3 c (request AntiEntropyDigest key v tr) (s, m) =
  ('(r, w) ← onDigestRequest xxh3 c (request AntiEntropyDigest key v tr) s m; Some (Ok r, w)).
Proof. done. Qed.

Section pair.
Context (ca cb : Clock) (sa sb : S) (ma mb : Manager) (P : pair_ok ca sa ma cb sb mb).

Notation DA := (bucket_hash ca ma sa).
Notation DB := (bucket_hash cb mb sb).
Notation LA := (bucketRows xxh3 ca ma sa).
Notation RB := (bucketRows xxh3 cb mb sb).

Let Ha : node_ok xxh3 ca sa ma := p_a _ _ _ _ _ _ P.
Let Hb : node_ok xxh3 cb sb mb := p_b _ _ _ _ _ _ P.

(** Equal hashes of a bucket mean equal stamps in it. *)
Lemma equal_bucket b k :
  0 <= b < num_buckets ma → DA b = DB b → bucketFor xxh3 ma k = b → stampOf <$> cs_lookup sa k = stampOf <$> cs_lookup sb k.
Proof.
  intros Hbn E Hk. rewrite !bucket_hash_xor in E by (rewrite ?(p_n _ _ _ _ _ _ P); done). pose proof (p_xor _ _ _ _ _ _ P b Hbn E) as Hsame.
  assert (∀ k', bucketFor xxh3 mb k' = bucketFor xxh3 ma k') as Ebf by (intros k'; unfold bucketFor; by rewrite (p_n _ _ _ _ _ _ P)).
  assert (∀ e, cs_lookup sa k = Some e → ∃ e', cs_lookup sb k = Some e' ∧ ident (k, e') = ident (k, e)) as H1'.
  { intros e He%(live_fresh ca); [|apply Ha..]. apply (list_elem_of_fmap_2 ident) in He. pose proof (proj1 (Hsame (ident (k, e))) ltac:(by apply list_elem_of_filter)) as [_ H2]%list_elem_of_filter.
    apply list_elem_of_fmap in H2 as ([k' e'] & E' & Hin). assert (k' = k) as -> by (by injection E'). apply live_fresh in Hin; [|apply Hb..]. by exists e'. }
  assert (∀ e, cs_lookup sb k = Some e → ∃ e', cs_lookup sa k = Some e' ∧ ident (k, e') = ident (k, e)) as H2'.
  { intros e He%(live_fresh cb); [|apply Hb..]. apply (list_elem_of_fmap_2 ident) in He. pose proof (proj2 (Hsame (ident (k, e))) ltac:(apply list_elem_of_filter; by rewrite Ebf)) as [_ H2]%list_elem_of_filter.
    apply list_elem_of_fmap in H2 as ([k' e'] & E' & Hin). assert (k' = k) as -> by (by injection E'). apply live_fresh in Hin; [|apply Ha..]. by exists e'. }
  destruct (cs_lookup sa k) as [ea|] eqn:Ea.
  - destruct (H1' ea eq_refl) as (eb & -> & [= Ev Ew]). cbn. f_equal. unfold stampOf, version, isTombstone. by rewrite Ev, Ew.
  - destruct (cs_lookup sb k) as [eb|] eqn:Eb; [|done]. by destruct (H2' eb eq_refl) as (? & ? & _).
Qed.

(** Equal hashes of a group mean equal hashes of its buckets. *)
Lemma equal_group (g : nat) b :
  groupDigests xxh3 (computeDigest xxh3 ca ma sa) !! g = groupDigests xxh3 (computeDigest xxh3 cb mb sb) !! g →
  0 <= b < num_buckets ma → b / 16 = Z.of_nat g → DA b = DB b.
Proof.
  intros Hg Hbn Hbg. set (la := computeDigest xxh3 ca ma sa) in *. set (lb := computeDigest xxh3 cb mb sb) in *.
  assert (length la = Z.to_nat (num_buckets ma) ∧ length lb = length la) as [La Lb]
    by (unfold la, lb; rewrite !computeDigest_length, (p_n _ _ _ _ _ _ P); done).
  pose proof (Z.div_mod b 16 ltac:(lia)) as Hdm. pose proof (Z.mod_pos_bound b 16 ltac:(lia)).
  assert (g < group_count (length la))%nat as Hlt.
  { unfold group_count, K_BUCKETS_PER_GROUP. apply Nat.div_le_lower_bound; lia. }
  unfold groupDigests in Hg. rewrite !list_lookup_fmap, Lb, lookup_seq_lt in Hg by done. cbn [fmap option_fmap option_map Nat.add] in Hg. injection Hg as Hg.
  apply (p_strings _ _ _ _ _ _ P) in Hg; [|exists g; by left|exists g; by right].
  apply material_inj in Hg; [|apply Forall_take, Forall_drop, computeDigest_range; apply xxh3_range|apply Forall_take, Forall_drop, computeDigest_range; apply xxh3_range|
    rewrite !length_take, !length_drop; lia].
  unfold bucket_hash, hash_at. fold la lb. apply (f_equal (λ l, l !! (Z.to_nat (b mod 16)))) in Hg.
  rewrite !lookup_take_lt, !lookup_drop in Hg by (unfold K_BUCKETS_PER_GROUP; lia).
  replace (g * K_BUCKETS_PER_GROUP + Z.to_nat (b mod 16))%nat with (Z.to_nat b) in Hg by (unfold K_BUCKETS_PER_GROUP; lia). by rewrite Hg.
Qed.

Lemma rows_A r b : r ∈ LA b ↔ ∃ k e, cs_lookup sa k = Some e ∧ bucketFor xxh3 ma k = b ∧ r = rowFor xxh3 ma k e.
Proof. apply bucketRows_elem; apply Ha. Qed.

Lemma rows_B r b : r ∈ RB b ↔ ∃ k e, cs_lookup sb k = Some e ∧ bucketFor xxh3 ma k = b ∧ r = rowFor xxh3 ma k e.
Proof.
  rewrite bucketRows_elem by apply Hb. unfold rowFor, bucketFor. by rewrite (p_n _ _ _ _ _ _ P).
Qed.

(** Entries with the same row are the same write. *)
Lemma same_item k k' e e' :
  cs_lookup sa k = Some e → cs_lookup sb k' = Some e' → item_of (rowFor xxh3 ma k e) = item_of (rowFor xxh3 ma k' e') →
  k' = k ∧ write_id e' = write_id e.
Proof.
  intros He He' E. assert (xxh3 k = xxh3 k' ∧ stampOf e = stampOf e') as [Ek Es].
  { unfold item_of, rowFor in E. cbn in E. unfold stampOf. by injection E as -> -> -> ->. }
  assert (k = k') as <- by (apply (p_inj _ _ _ _ _ _ P); [left; by eexists|right; by eexists|done]).
  split; [done|]. symmetry. by eapply (p_stamp _ _ _ _ _ _ P).
Qed.

(** Buckets with different hashes have different rows. *)
Lemma differs_nonempty b : 0 <= b < num_buckets ma → DA b ≠ DB b → only_remote (LA b) (RB b) = [] → only_local (LA b) (RB b) = [] → False.
Proof.
  intros Hbn Hd Hr Hl. apply Hd, bucket_hash_eq; [apply P|done|apply Ha|apply Hb|]. intros k vt w Hk.
  assert (∀ i, i ∈ item_of <$> RB b → i ∈ item_of <$> LA b) as Hsub.
  { intros i Hi. destruct (decide (i ∈ item_of <$> LA b)) as [|Hn]; [done|]. exfalso.
    apply (not_elem_of_nil i). rewrite <- Hr. by apply list_elem_of_filter. }
  assert (∀ i, i ∈ item_of <$> LA b → i ∈ item_of <$> RB b) as Hsub'.
  { intros i Hi. destruct (decide (i ∈ item_of <$> RB b)) as [|Hn]; [done|]. exfalso.
    apply (not_elem_of_nil i). rewrite <- Hl. by apply list_elem_of_filter. }
  rewrite !list_elem_of_fmap. split.
  - intros ([k0 e] & [= -> -> ->] & Hin). apply live_fresh in Hin; [|apply Ha..].
    destruct (proj1 (list_elem_of_fmap item_of _ _) (Hsub' (item_of (rowFor xxh3 ma k0 e)) ltac:(apply list_elem_of_fmap_2, rows_A; eauto))) as (r & E & Hrr).
    apply rows_B in Hrr as (k' & e' & He' & _ & ->). destruct (same_item k0 k' e e' Hin He' E) as [-> [= Ev Ew _]].
    exists (k0, e'). split; [unfold ident; cbn; congruence|]. apply live_fresh; [apply Hb..|done].
  - intros ([k0 e] & [= -> -> ->] & Hin). apply live_fresh in Hin; [|apply Hb..].
    destruct (proj1 (list_elem_of_fmap item_of _ _) (Hsub (item_of (rowFor xxh3 ma k0 e)) ltac:(apply list_elem_of_fmap_2, rows_B; eauto))) as (r & E & Hrr).
    apply rows_A in Hrr as (k' & e' & He' & _ & ->). destruct (same_item k' k0 e' e He' Hin ltac:(done)) as [-> [= Ev Ew _]].
    exists (k', e'). split; [unfold ident; cbn; congruence|]. apply live_fresh; [apply Ha..|done].
Qed.

(** ** The sketches of an answer *)

Context (hs : list Z) (Hnd : NoDup hs) (Hhs : ∀ b, b ∈ hs → 0 <= b < num_buckets ma).
Context (Hall : ∀ b, 0 <= b < num_buckets ma → DA b ≠ DB b → b ∈ hs).

Notation asked := (requested xxh3 cb sb mb DA hs).
Notation response := (answer xxh3 cb sb mb DA hs).

Lemma asked_elem b : b ∈ asked ↔ 0 <= b < num_buckets ma ∧ DA b ≠ DB b.
Proof.
  rewrite requested_elem. split.
  - intros [Hb' Hd]. split; [by apply Hhs|]. intros E. by apply Hd.
  - intros [Hb' Hd]. split; [by apply Hall|]. intros E. by apply Hd.
Qed.

Lemma hash_found b : b ∈ hs → ∃ i b', list_find (λ y, y.1 = b) (merge_sort pair_le ((λ b, (b, DB b)) <$> hs)) = Some (i, (b', DB b)).
Proof.
  intros Hin. destruct (list_find_elem_of (λ y : Z * Z, y.1 = b) (merge_sort pair_le ((λ b, (b, DB b)) <$> hs)) (b, DB b)) as [[i [b' h]] Hf].
  - rewrite merge_sort_Permutation. apply list_elem_of_fmap. by exists b.
  - done.
  - exists i, b'. rewrite Hf. do 3 f_equal. apply list_find_Some in Hf as (Hi & Hb' & _). apply list_elem_of_lookup_2 in Hi.
    rewrite merge_sort_Permutation in Hi. apply list_elem_of_fmap in Hi as (b0 & [= -> ->] & _). cbn in Hb'. by rewrite Hb'.
Qed.

(** A sketch gives exactly the rows of the partner. *)
Lemma sketchDifference_exact blobs b blob :
  blobs_ok xxh3 cb sb mb DA hs blobs → (b, blob) ∈ blobs →
  ∃ rs, sketchDifference xxh3 ca (computeDigest xxh3 ca ma sa) (response blobs) ma sa b blob = Some (Some (rs, true)) ∧ ∀ r, r ∈ rs ↔ r ∈ RB b.
Proof.
  intros [Hbl Hblob] Hin. pose proof (list_elem_of_fmap_2 fst blobs (b, blob) Hin) as Hk. rewrite Hbl in Hk. cbn [fst] in Hk.
  apply list_elem_of_filter in Hk as [Hbig Hask]. pose proof (proj1 (asked_elem b) Hask) as [Hbn Hd].
  destruct (bucket_rows_ok xxh3 xxh3_range cb sb mb Hb b) as [Hro Hlo]. destruct (table_wire xxh3 xxh3_range _ Hro Hlo) as (blob' & Eb & Db & _).
  rewrite (Hblob b blob Hin) in Eb. injection Eb as <-.
  destruct (bucket_rows_ok xxh3 xxh3_range ca sa ma Ha b) as [Hra Hla]. set (L' := sort_by r_key_hash (LA b)).
  assert (L' ≡ₚ LA b) as HL' by apply (sort_by_perm r_key_hash).
  assert (decodeMetaRows (rows_image L') = Some L') as Hdec.
  { apply decodeMetaRows_image; [by rewrite HL'|]. rewrite HL'. pose proof (bucketRows_length xxh3 ca ma sa b).
    pose proof (no_count _ _ _ _ Ha). lia. }
  assert (NoDup (r_key_hash <$> LA b)) as HndA by (apply bucketRows_hashes; apply Ha).
  assert (NoDup (r_key_hash <$> RB b)) as HndB by (apply bucketRows_hashes; apply Hb).
  destruct (p_peel _ _ _ _ _ _ P b Hbn Hbig Hd) as [Hh Hp].
  destruct (difference_tables xxh3 64 (item_of <$> RB b) (item_of <$> L') (both (LA b) (RB b)) (only_remote (LA b) (RB b)) (only_local (LA b) (RB b)))
    as (d & Ed & Hdr & Hdl); [lia|apply remote_split|rewrite HL'; by apply local_split|exact Hh|exact Hp|].
  destruct (hash_found b (proj1 (proj1 (requested_elem xxh3 cb sb mb DA hs b) Hask))) as (i & b' & Hf).
  exists (filter (λ r, r_key_hash r ∉ (r_key_hash <$> toMetaRows b (iblt.local_only d))) L' ++ toMetaRows b (iblt.remote_only d)). split.
  - unfold sketchDifference. rewrite Z.geb_leb. destruct (Z.leb_spec (num_buckets ma) b); [lia|]. cbn [answer covered_buckets].
    rewrite binary_search_spec by apply requested_sorted. rewrite bool_decide_true by exact Hask. cbn [negb].
    unfold collectMetadata. rewrite collectRows_one by done. fold L'. rewrite encodeMetaRows_image. cbn [mbind option_bind].
    rewrite Hdec, buildIblt_table. cbn [mbind option_bind]. rewrite Db. cbn [default]. rewrite binary_search_spec by (repeat constructor).
    rewrite bool_decide_true by (by apply list_elem_of_singleton). unfold decodeIbltDifference.
    change (iblt.difference xxh3 (table_of xxh3 (RB b)) (table_of xxh3 L')) with (iblt.difference xxh3
      (iblt.mkSketch (plus xxh3 (replicate 64 iblt.emptyCell) (signed 1 (item_of <$> RB b))))
      (iblt.mkSketch (plus xxh3 (replicate 64 iblt.emptyCell) (signed 1 (item_of <$> L'))))).
    rewrite Ed. cbn [mbind option_bind]. rewrite digest_at by done. cbn [mbind option_bind remote_only local_only bucket_hashes default].
    unfold answer, bucket_hash in *. cbn [bucket_hashes]. rewrite Hf.
    destruct (iblt.remote_only d) as [|r0 ro] eqn:Er, (iblt.local_only d) as [|l0 lo] eqn:El; cbn [toMetaRows fmap list_fmap];
      rewrite ?andb_false_r; try reflexivity.
    exfalso. apply Permutation_nil_l in Hdr, Hdl. eapply (differs_nonempty b); done.
  - intros r. apply (rebuilt_rows b (LA b) (RB b)); [done| | |done|done|done].
    + exact (bucketRows_bucket xxh3 ca sa ma Ha b).
    + exact (bucketRows_bucket xxh3 cb sb mb Hb b).
Qed.

Lemma readSketches_exact blobs sketches rs hd :
  blobs_ok xxh3 cb sb mb DA hs blobs → (∀ x, x ∈ sketches → x ∈ blobs) →
  ∃ rs' hd', readSketches xxh3 ca (computeDigest xxh3 ca ma sa) (response blobs) ma sa sketches rs hd [] = Some (rs', hd', []) ∧
    ∀ r, r ∈ rs' ↔ r ∈ rs ∨ ∃ b, b ∈ sketches.*1 ∧ r ∈ RB b.
Proof.
  intros Hbo. revert rs hd. induction sketches as [|[b blob] sketches IH]; intros rs hd Hsub; cbn [readSketches].
  { exists rs, hd. split; [done|]. intros r. split; [by left|]. intros [?|(b & Hb' & _)]; [done|by apply not_elem_of_nil in Hb']. }
  destruct (sketchDifference_exact blobs b blob Hbo ltac:(apply Hsub; constructor)) as (more & -> & Hmore). cbn [mbind option_bind].
  destruct (IH (rs ++ more) (hd ++ [b])) as (rs' & hd' & -> & Hrs'); [intros; apply Hsub; by constructor|].
  exists rs', hd'. split; [done|]. intros r. rewrite Hrs', elem_of_app, Hmore. cbn [fmap list_fmap fst]. split.
  - intros [[?|?]|(b' & ? & ?)]; [by left|right; exists b; split; [constructor|done]|right; exists b'; split; [by constructor|done]].
  - intros [?|(b' & [->|?]%elem_of_cons & ?)]; [by left; left|by left; right|right; eauto].
Qed.

(** ** What both hold in the end *)

Definition converged sa' sb' : Prop := ∀ k,
  write_id <$> cs_lookup sa' k = write_id <$> winner (cs_lookup sa k) (cs_lookup sb k) ∧
  write_id <$> cs_lookup sb' k = write_id <$> winner (cs_lookup sa k) (cs_lookup sb k).

Lemma bucketFor_range k : 0 <= bucketFor xxh3 ma k < num_buckets ma.
Proof. unfold bucketFor. pose proof (no_buckets _ _ _ _ Ha). apply Z.mod_pos_bound. lia. Qed.

(** Nothing to exchange. *)
Lemma equal_converged k :
  stampOf <$> cs_lookup sa k = stampOf <$> cs_lookup sb k →
  write_id <$> cs_lookup sa k = write_id <$> winner (cs_lookup sa k) (cs_lookup sb k) ∧
  write_id <$> cs_lookup sb k = write_id <$> winner (cs_lookup sa k) (cs_lookup sb k).
Proof.
  destruct (cs_lookup sa k) as [ea|] eqn:Ea, (cs_lookup sb k) as [eb|] eqn:Eb; cbn; try done. intros E%(inj Some).
  pose proof (p_stamp _ _ _ _ _ _ P k ea eb Ea Eb E) as Hid. destruct (lwwWinsOver _ _); cbn; by rewrite Hid.
Qed.

(** A push wins where it is new. *)
Lemma applyLww_new (r : option VersionedEntry) e e' :
  stampOf e' = stampOf e → write_id e' = write_id e → (∀ r0, r = Some r0 → lwwWinsOver (stampOf e) (stampOf r0) = true) → write_id (applyLww r e') = write_id e.
Proof.
  intros Es Ei Hw. unfold applyLww. destruct r as [r0|]; [|done]. rewrite Es. specialize (Hw r0 eq_refl).
  unfold lwwCovers, lwwWinsOver in *. destruct (compareLww (stampOf e) (stampOf r0)); done.
Qed.

(** Which entry goes which way, and both nodes hold the winner. *)
Lemma exchanged_converged sa' sb' pushed served :
  NoDup pushed.*1 → NoDup served.*1 →
  (∀ k e, (k, e) ∈ pushed ↔ cs_lookup sa k = Some e ∧ bucketFor xxh3 ma k ∈ asked ∧
     ∀ e', cs_lookup sb k = Some e' → lwwWinsOver (stampOf e) (stampOf e') = true) →
  (∀ k e, (k, e) ∈ served ↔ cs_lookup sb k = Some e ∧ bucketFor xxh3 ma k ∈ asked ∧
     ∀ e', cs_lookup sa k = Some e' → lwwWinsOver (stampOf e) (stampOf e') = true) →
  (∀ k, cs_lookup sb' k = match item_for pushed k with Some e => Some (applyLww (cs_lookup sb k) (received ca cb e)) | None => cs_lookup sb k end) →
  (∀ k, cs_lookup sa' k = match item_for served k with Some e => Some (applyLww (cs_lookup sa k) (received cb ca e)) | None => cs_lookup sa k end) →
  converged sa' sb'.
Proof.
  intros Hnp Hns Hp Hs Hb' Ha' k. rewrite Hb', Ha'. pose proof (item_for_spec pushed k) as Ip. pose proof (item_for_spec served k) as Is.
  destruct (item_for pushed k) as [e|], (item_for served k) as [e'|].
  - destruct (proj1 (Hp k e)) as (E & _ & W); [by apply Ip|]. destruct (proj1 (Hs k e')) as (E' & _ & W'); [by apply Is|].
    specialize (W e' E'). specialize (W' e E). exfalso. by eapply lwwWinsOver_asymm.
  - destruct (proj1 (Hp k e)) as (E & Hk & W); [by apply Ip|]. rewrite E. cbn. rewrite (applyLww_new _ e) by done.
    destruct (cs_lookup sb k) as [eb|]; [|done]. specialize (W eb eq_refl). cbn.
    destruct (lwwWinsOver (stampOf eb) (stampOf e)) eqn:W'; [|done]. exfalso. by eapply lwwWinsOver_asymm.
  - destruct (proj1 (Hs k e')) as (E & Hk & W); [by apply Is|]. rewrite E. cbn. rewrite (applyLww_new _ e') by done.
    destruct (cs_lookup sa k) as [ea|]; [|done]. specialize (W ea eq_refl). cbn. by rewrite W.
  - assert (∀ e, (k, e) ∉ pushed) as Np by (intros e He; by apply Ip in He). assert (∀ e, (k, e) ∉ served) as Ns by (intros e He; by apply Is in He).
    apply equal_converged. destruct (decide (bucketFor xxh3 ma k ∈ asked)) as [Hin|Hout].
    + destruct (cs_lookup sa k) as [ea|] eqn:Ea, (cs_lookup sb k) as [eb|] eqn:Eb; cbn; [| | |done].
      * f_equal. destruct (lww_total (stampOf ea) (stampOf eb)) as [W|[E|W]]; [|done|]; exfalso.
        -- apply (Ns eb), Hs. split_and!; [done|done|]. intros e' He'. by assert (e' = ea) as -> by congruence.
        -- apply (Np ea), Hp. split_and!; [done|done|]. intros e' He'. by assert (e' = eb) as -> by congruence.
      * destruct (Np ea). apply Hp. split_and!; [done|done|]. congruence.
      * destruct (Ns eb). apply Hs. split_and!; [done|done|]. congruence.
    + apply (equal_bucket (bucketFor xxh3 ma k) k (bucketFor_range k)); [|done].
      destruct (decide (DA (bucketFor xxh3 ma k) = DB (bucketFor xxh3 ma k))) as [|Hd]; [done|]. destruct Hout. apply asked_elem. split; [apply bucketFor_range|done].
Qed.

(** ** From the rows on *)

Section finish.
Context (blobs : list (Z * bytes)) (Hbo : blobs_ok xxh3 cb sb mb DA hs blobs) (tr : Z * Z).
Context (rs : list MetaRow) (hd : list Z) (Hrs : ∀ r, r ∈ rs ↔ ∃ b, b ∈ asked ∧ r ∈ RB b).

Lemma sketched_asked b : b ∈ blobs.*1 → b ∈ asked.
Proof. rewrite (proj1 Hbo). by intros [_ ?]%list_elem_of_filter. Qed.

(** A row of the answer is a row of an entry of the partner. *)
Lemma answer_row r : r ∈ rs ↔ ∃ k e, cs_lookup sb k = Some e ∧ bucketFor xxh3 ma k ∈ asked ∧ r = rowFor xxh3 ma k e.
Proof.
  rewrite Hrs. split.
  - intros (b & Hb' & Hr). apply rows_B in Hr as (k & e & He & <- & ->). eauto.
  - intros (k & e & He & Hk & ->). exists (bucketFor xxh3 ma k). split; [done|]. apply rows_B. eauto.
Qed.

Lemma rows_input divergent covered :
  (∀ b, b ∈ divergent ↔ b ∈ asked) → (∀ b, b ∈ covered ↔ b ∈ asked) → diff_input ma rs divergent covered.
Proof.
  intros Hd Hc. split.
  - intros r r' (k & e & He & _ & ->)%answer_row (k' & e' & He' & _ & ->)%answer_row E. cbn in E.
    assert (k = k') as <- by (apply (no_inj _ _ _ _ Hb); [by eexists|by eexists|done]). congruence.
  - intros r (k & e & He & Hk & ->)%answer_row. cbn. rewrite Hd. split_and!; [|done|done]. apply bucketFor_range.
  - intros b Hb'%Hd. rewrite Hc. split; [|done]. apply asked_elem in Hb' as [? _]. lia.
Qed.

(** The rows decide between two entries of a key. *)
Lemma row_decides (k : bytes) (Q : LwwStamp → Prop) :
  has_key sa k ∨ has_key sb k → bucketFor xxh3 ma k ∈ asked →
  (∀ r, r ∈ rs → r_key_hash r = xxh3 k → Q (rowStamp r)) ↔ ∀ e, cs_lookup sb k = Some e → Q (stampOf e).
Proof.
  intros Hk Hin. split.
  - intros Hq e He. rewrite <- (rowStamp_rowFor ma k e). apply Hq; [|done]. apply answer_row. eauto.
  - intros Hq r (k' & e & He & _ & ->)%answer_row E. cbn in E. rewrite rowStamp_rowFor. apply Hq.
    assert (k' = k) as ->; [|done]. apply (p_inj _ _ _ _ _ _ P); [right; by eexists|done|done].
Qed.

Lemma picked_elem pairs k e : (k, e) ∈ picked sa pairs ↔ cs_lookup sa k = Some e ∧ k ∈ pairs.*2.
Proof.
  unfold picked. rewrite list_elem_of_omap. split.
  - intros ([h k'] & Hin & E). cbn in E. destruct (cs_lookup sa k') as [e'|] eqn:Ek; [|done]. injection E as -> ->.
    split; [done|]. by apply (list_elem_of_fmap_2 snd) in Hin.
  - intros [He Hin]. apply list_elem_of_fmap in Hin as ([h k'] & -> & Hin). exists (h, k'). split; [done|]. cbn in *. by rewrite He.
Qed.

Lemma picked_NoDup pairs : NoDup pairs.*2 → NoDup (picked sa pairs).*1.
Proof.
  induction pairs as [|[h k] pairs IH]; intros Hn; [constructor|]. apply NoDup_cons in Hn as [Hk Hn]. cbn.
  destruct (cs_lookup sa k) as [e|]; cbn; [|by apply IH]. apply NoDup_cons. split; [|by apply IH]. intros Hin. apply Hk.
  apply list_elem_of_fmap in Hin as ([k' e'] & -> & Hin). by apply picked_elem in Hin as [_ ?].
Qed.

Section diffed.
Context (d : MetaDiff) (divergent : list Z) (Hdiv : ∀ b, b ∈ divergent ↔ b ∈ asked).
Context (Hneed : ∀ h, h ∈ need d ↔ ∃ r, r ∈ rs ∧ r_key_hash r = h ∧
  ∀ k e, cs_lookup sa k = Some e → xxh3 k = h → lwwWinsOver (rowStamp r) (stampOf e) = true).
Context (Hhave : ∀ h k, (h, k) ∈ have d ↔ h = xxh3 k ∧ ∃ e, cs_lookup sa k = Some e ∧ bucketFor xxh3 ma k ∈ divergent ∧
  ∀ r, r ∈ rs → r_key_hash r = h → lwwWinsOver (stampOf e) (rowStamp r) = true).
Context (Hhd : NoDup (have d).*2) (Hndd : NoDup (need d)).

Lemma pushed_elem k e :
  (k, e) ∈ picked sa (have d) ↔ cs_lookup sa k = Some e ∧ bucketFor xxh3 ma k ∈ asked ∧
    ∀ e', cs_lookup sb k = Some e' → lwwWinsOver (stampOf e) (stampOf e') = true.
Proof.
  rewrite picked_elem. split.
  - intros [He Hin]. apply list_elem_of_fmap in Hin as ([h k'] & -> & Hin). cbn in *. apply Hhave in Hin as (-> & e0 & He0 & Hk & Hw).
    rewrite He in He0. injection He0 as <-. rewrite Hdiv in Hk. split_and!; [done|done|].
    apply (row_decides k' (λ st, lwwWinsOver (stampOf e) st = true)); [left; by eexists|done|done].
  - intros (He & Hk & Hw). split; [done|]. apply (list_elem_of_fmap_2 snd (have d) (xxh3 k, k)), Hhave. split; [done|]. exists e.
    rewrite Hdiv. split_and!; [done|done|]. apply (row_decides k (λ st, lwwWinsOver (stampOf e) st = true)); [left; by eexists|done|done].
Qed.

Lemma served_elem k e :
  cs_lookup sb k = Some e ∧ xxh3 k ∈ need d ↔ cs_lookup sb k = Some e ∧ bucketFor xxh3 ma k ∈ asked ∧
    ∀ e', cs_lookup sa k = Some e' → lwwWinsOver (stampOf e) (stampOf e') = true.
Proof.
  split; intros [He Hn]; (split; [done|]).
  - apply Hneed in Hn as (r & (k' & e0 & He0 & Hk & ->)%answer_row & Eh & Hw). cbn in Eh.
    assert (k' = k) as -> by (apply (no_inj _ _ _ _ Hb); [by eexists|by eexists|done]). assert (e0 = e) as -> by congruence.
    split; [done|]. intros e' He'. by apply (Hw k e').
  - destruct Hn as [Hk Hw]. apply Hneed. exists (rowFor xxh3 ma k e). split_and!; [apply answer_row; eauto|done|].
    intros k' e' He' Eh. rewrite rowStamp_rowFor. apply Hw.
    assert (k' = k) as <-; [|done]. apply (p_inj _ _ _ _ _ _ P); [left; by eexists|right; by eexists|done].
Qed.

Lemma need_ok : Forall (in_u 64) (need d) ∧ Z.of_nat (length (need d)) < 2 ^ 32.
Proof.
  assert (∀ h, h ∈ need d → h ∈ xxh3 <$> (cs_liveEntries cb sb).*1) as Hin.
  { intros h (r & (k & e & He & _ & ->)%answer_row & <- & _)%Hneed. cbn [rowFor r_key_hash]. apply list_elem_of_fmap_2, list_elem_of_fmap. exists (k, e).
    split; [done|]. apply live_fresh; [apply Hb..|done]. }
  split.
  - apply Forall_forall. intros h Hh. apply Hin, list_elem_of_fmap in Hh as (k & -> & _). apply xxh3_range.
  - pose proof (submseteq_length _ _ (NoDup_submseteq _ _ Hndd Hin)) as Hl. rewrite !length_fmap in Hl. pose proof (no_count _ _ _ _ Hb). lia.
Qed.

(** Push, then fetch. *)
Lemma push_fetch :
  ∃ sa' ma' sb' mb', ('(items, s) ← selectEntriesForPairs ca (have d) (fetch_bytes ma) sa;
      let '(s, m) := absorb xxh3 s ma in
      v ← encodeSync ca (mkSync items (need d));
      '(r, w) ← partner xxh3 cb (request AntiEntropySync [] v tr) (sb, mb);
      '(s, m) ← finishSync xxh3 ca r s m;
      Some (s, m, w)) = Some (sa', ma', (sb', mb')) ∧ converged sa' sb'.
Proof.
  pose proof (picked_NoDup (have d) Hhd) as Hnp.
  assert (∀ k e, (k, e) ∈ picked sa (have d) → cs_lookup sa k = Some e) as Hpl by (intros k e [? _]%picked_elem; done).
  pose proof (wire_cost_sub _ _ (sub_live ca sa _ (no_inv _ _ _ _ Ha) (no_fresh _ _ _ _ Ha) Hnp Hpl)) as Hcost. pose proof (p_fetch_a _ _ _ _ _ _ P).
  destruct (selectEntries_spec ca (fetch_bytes ma) (have d) 0 [] sa (no_inv _ _ _ _ Ha) (no_fresh _ _ _ _ Ha) ltac:(lia)) as (s1 & Esel & Hv1).
  destruct need_ok as [Hn64 Hnl].
  destruct (onSyncRequest_spec xxh3 ca cb sa sb ma mb Ha Hb (p_inj _ _ _ _ _ _ P) (p_arrive _ _ _ _ _ _ P) (p_room_b _ _ _ _ _ _ P) (p_fetch_b _ _ _ _ _ _ P)
    (picked sa (have d)) (need d) Hpl Hnp Hn64 Hnl) with (tr := tr) as (v & w & sb' & mb' & served & Ev & Ereq & Hlb & Hns & Hse & Edec).
  { intros k e (He & Hk & Hw)%pushed_elem Hin. pose proof Hin as (r & (k' & e' & He' & _ & ->)%answer_row & Eh & Hw')%Hneed. cbn in Eh.
    assert (k' = k) as -> by (apply (p_inj _ _ _ _ _ _ P); [right; by eexists|left; by eexists|done]).
    eapply lwwWinsOver_asymm; [by apply Hw|by apply (Hw' k e)]. }
  destruct (absorb xxh3 s1 ma) as [s2 m2] eqn:Eab.
  assert (s2 = (cs_takeEvents s1).2) as -> by (unfold absorb in Eab; destruct (cs_takeEvents s1); by injection Eab).
  pose proof (same_view_trans _ _ _ Hv1 (take_view s1 (proj1 Hv1))) as Hv2. destruct Hv2 as (Hi2 & Hl2 & Hr2).
  assert (∀ k e, (k, e) ∈ served → cs_lookup sb k = Some e) as Hsl by (intros k e [? _]%Hse; done).
  destruct (applyItems_spec ca ((λ x, (x.1, received cb ca x.2)) <$> served) 0 0 (cs_takeEvents s1).2 Hi2) as (cnt & s3 & Eapp & Hi3 & _ & Hl3 & _).
  { intros k e. rewrite Hl2. apply (no_fresh _ _ _ _ Ha). }
  { by rewrite received_keys. }
  { apply Forall_fmap. eapply Forall_impl; [exact (items_fit sb served (no_fits _ _ _ _ Hb) Hsl)|]. intros x (_ & _ & Hwf & _). exact Hwf. }
  { done. }
  { rewrite received_size, Z.add_0_r. apply Hr2. eapply cs_room_le; [apply (p_room_a _ _ _ _ _ _ P)|].
    apply items_size_sub, sub_live; [apply Hb..|done|done]. }
  pose proof (take_view s3 Hi3) as (_ & Hl4 & _). destruct (absorb xxh3 s3 m2) as [s4 m4] eqn:Eab4.
  assert (s4 = (cs_takeEvents s3).2) as -> by (unfold absorb in Eab4; destruct (cs_takeEvents s3); by injection Eab4).
  exists (cs_takeEvents s3).2, m4, sb', mb'. split.
  - unfold selectEntriesForPairs. rewrite Esel. cbn [mbind option_bind app]. rewrite Eab, Ev. cbn [mbind option_bind].
    unfold partner. cbn [request opcode fst snd]. fold (request AntiEntropySync [] v tr). rewrite Ereq. cbn [mbind option_bind].
    unfold finishSync. cbn [accepted_value respond status r_value]. rewrite Z.eqb_refl, Edec. unfold applySync. cbn [entries]. rewrite Eapp. cbn [mbind option_bind]. by rewrite Eab4.
  - apply (exchanged_converged _ _ (picked sa (have d)) served); [done|done|exact pushed_elem| |done|].
    + intros k e. rewrite Hse. apply served_elem.
    + intros k. rewrite Hl4, Hl3, item_for_map, Hl2. by destruct (item_for served k).
Qed.
End diffed.

(** The divergent buckets are those whose hashes differ. *)
Lemma divergent_spec (remote : gmap Z Z) covered :
  (∀ b h, remote !! b = Some h ↔ (b, h) ∈ merge_sort pair_le ((λ b, (b, DB b)) <$> hs)) →
  ∃ ds, mapM (λ b,
      x ← computeDigest xxh3 ca ma sa !! Z.to_nat b;
      Some (match remote !! b with
            | Some h => if negb (x =? h) then [b] else if covers blobs.*1 b && covers covered b && covers hd b then [b] else []
            | None => if covers blobs.*1 b && covers covered b && covers hd b then [b] else []
            end)) (bucket_ids_of ma) = Some ds ∧ ∀ b, b ∈ concat ds ↔ b ∈ asked.
Proof.
  intros Hr. exists ((λ b, if decide (DA b ≠ DB b) then [b] else []) <$> bucket_ids_of ma). split.
  - apply mapM_total. intros b Hb'%bucket_ids_elem. rewrite digest_at by done. cbn [mbind option_bind]. fold (DA b). f_equal.
    assert (DA b = DB b → covers blobs.*1 b = false) as Hsk.
    { intros E. apply bool_decide_false. intros [_ Hd]%sketched_asked%asked_elem. done. }
    destruct (remote !! b) as [h|] eqn:Er.
    + apply Hr in Er. rewrite merge_sort_Permutation in Er. apply list_elem_of_fmap in Er as (b' & [= -> ->] & _).
      destruct (Z.eqb_spec (DA b') (DB b')) as [E|E]; cbn [negb]; [rewrite Hsk by done; rewrite decide_False by tauto; done|by rewrite decide_True].
    + destruct (decide (DA b = DB b)) as [E|E]; [rewrite Hsk by done; rewrite decide_False by tauto; done|].
      exfalso. assert (remote !! b = Some (DB b)); [|congruence]. apply Hr. rewrite merge_sort_Permutation. apply list_elem_of_fmap.
      exists b. split; [done|by apply Hall].
  - intros b. rewrite concat_optional, bucket_ids_elem, asked_elem. tauto.
Qed.

Lemma finishRows_converges :
  ∃ sa' ma' sb' mb', finishRows xxh3 (partner xxh3 cb) tr ca (computeDigest xxh3 ca ma sa) (response blobs) rs (sort_by id asked) blobs.*1 hd sa ma (sb, mb)
    = Some (sa', ma', (sb', mb')) ∧ converged sa' sb'.
Proof.
  unfold finishRows.
  destruct (remoteBuckets_spec (num_buckets ma) (merge_sort pair_le ((λ b, (b, DB b)) <$> hs)) ∅) as (remote & Er & Hr).
  { intros x Hx. rewrite merge_sort_Permutation in Hx. apply list_elem_of_fmap in Hx as (b & -> & Hb'). cbn. rewrite lookup_empty.
    split; [by apply Hhs|done]. }
  { rewrite merge_sort_Permutation, <- list_fmap_compose. by rewrite list_fmap_id. }
  assert (remoteBuckets (num_buckets ma) (bucket_hashes (response blobs)) ∅ = Some remote) as -> by exact Er.
  assert (forallb (λ b, b <? num_buckets ma) blobs.*1 && bool_decide (NoDup blobs.*1) = true) as ->.
  { apply andb_true_iff. split.
    - apply forallb_forall. intros b Hb'%list_elem_of_In%sketched_asked%asked_elem. apply Z.ltb_lt. lia.
    - apply bool_decide_true. rewrite (proj1 Hbo). by apply NoDup_filter, requested_NoDup. }
  cbn [answer group_hashes]. rewrite (groups_length xxh3 cb mb sb) by (pose proof (no_buckets _ _ _ _ Hb); lia). unfold groups_of. rewrite (p_n _ _ _ _ _ _ P), Z.eqb_refl. cbn [negb].
  destruct (divergent_spec remote (sort_by id asked)) as (ds & Ed & Hds).
  { intros b h. rewrite Hr, lookup_empty. split; [by intros [|]|by right]. }
  rewrite Ed. cbn [mbind option_bind]. destruct (concat ds) as [|d0 dl] eqn:Econ.
  { exists sa, ma, sb, mb. split; [done|]. intros k. apply equal_converged.
    apply (equal_bucket (bucketFor xxh3 ma k) k (bucketFor_range k)); [|done].
    destruct (decide (DA (bucketFor xxh3 ma k) = DB (bucketFor xxh3 ma k))) as [|Hd]; [done|]. exfalso.
    apply (not_elem_of_nil (bucketFor xxh3 ma k)), Hds, asked_elem. split; [apply bucketFor_range|done]. }
  rewrite <- Econ in Hds |- *. set (cov := sort_by id (sort_by id asked ++ _)).
  assert (∀ b, b ∈ cov ↔ b ∈ asked) as Hcov.
  { intros b. unfold cov. rewrite sort_by_elem, elem_of_app, sort_by_elem, list_elem_of_filter. split; [|by left].
    intros [?|[Hc _]]; [done|]. apply andb_true_iff in Hc as [Hc _]. by apply bool_decide_eq_true, sketched_asked in Hc. }
  assert (forallb (λ b, b <? num_buckets ma) cov = true) as ->.
  { apply forallb_forall. intros b Hb'%list_elem_of_In%Hcov%asked_elem. apply Z.ltb_lt. lia. }
  pose proof (rows_input (concat ds) cov Hds Hcov) as Hinp.
  assert (forallb (λ r, (r_bucket r <? num_buckets ma) && covers cov (r_bucket r) && covers (concat ds) (r_bucket r)) rs = true) as ->.
  { apply forallb_forall. intros r Hin%list_elem_of_In. destruct (di_rows _ _ _ _ Hinp r Hin) as (? & Hd & _). unfold covers.
    rewrite !andb_true_iff, !bool_decide_eq_true, Hcov, <- Hds. split; [split; [by apply Z.ltb_lt|done]|done]. }
  cbn [negb]. destruct (diffRows_spec xxh3 ca ma sa rs (concat ds) cov (no_inv _ _ _ _ Ha) (no_fresh _ _ _ _ Ha) (no_inj _ _ _ _ Ha) Hinp)
    as (d & Edf & Hneed & Hhave & Hn2 & Hn3); [by rewrite Econ|].
  rewrite Edf. cbn [mbind option_bind]. by apply (push_fetch d (concat ds)).
Qed.
End finish.

(** The answer to the refinement, to the end of the round. *)
Lemma finishRefinement_converges blobs tr :
  blobs_ok xxh3 cb sb mb DA hs blobs →
  ∃ sa' ma' sb' mb', finishRefinement xxh3 (partner xxh3 cb) tr ca (computeDigest xxh3 ca ma sa) (response blobs) sa ma (sb, mb)
    = Some (sa', ma', (sb', mb')) ∧ converged sa' sb'.
Proof.
  intros Hbo. unfold finishRefinement. cbn [answer iblt_sketches rows covered_buckets].
  destruct (readSketches_exact blobs blobs (rows_in xxh3 cb mb sb asked) [] Hbo ltac:(done)) as (rs & hd & E & Hrs). rewrite E. cbn [mbind option_bind].
  assert (unique (sort_by id ([] : list Z)) = []) as ->.
  { destruct (unique (sort_by id [])) as [|x l] eqn:Eu; [done|]. exfalso. apply (not_elem_of_nil x), (sort_by_elem id), unique_elem. rewrite Eu. constructor. }
  apply finishRows_converges; [done|]. intros r. rewrite Hrs, rows_in_elem, (proj1 Hbo). split.
  - intros [(b & ? & _ & ?)|(b & [_ ?]%list_elem_of_filter & ?)]; eauto.
  - intros (b & Hb' & Hr). destruct (small xxh3 cb mb sb b) eqn:Es; [by left; eauto|]. right. exists b. split; [|done]. by apply list_elem_of_filter.
Qed.
End pair.

(** A digest moves no setting of the pair. *)
Lemma pair_ok_conf ca cb sa sb ma mb ma' mb' :
  pair_ok ca sa ma cb sb mb → node_ok xxh3 ca sa ma' → same_conf ma ma' → node_ok xxh3 cb sb mb' → same_conf mb mb' → pair_ok ca sa ma' cb sb mb'.
Proof.
  intros [] Hna [Ea Fa] Hnb [Eb Fb]. assert (∀ b, bucket_hash ca ma' sa b = bucket_hash ca ma sa b) as EA.
  { intros b. unfold bucket_hash. by rewrite (computeDigest_conf xxh3 ca ma ma'). }
  assert (∀ b, bucket_hash cb mb' sb b = bucket_hash cb mb sb b) as EB.
  { intros b. unfold bucket_hash. by rewrite (computeDigest_conf xxh3 cb mb mb'). }
  split; try done.
  - by rewrite Ea, Eb.
  - intros b. rewrite Ea. unfold bucket_idents, bucketFor. rewrite Ea, Eb. by apply p_xor0.
  - by rewrite (computeDigest_conf xxh3 ca ma ma'), (computeDigest_conf xxh3 cb mb mb') by done.
  - intros b. rewrite Ea, EA, EB, (small_conf xxh3 cb mb mb') by done. unfold bucket_difference.
    rewrite (bucketRows_conf xxh3 ca ma ma'), (bucketRows_conf xxh3 cb mb mb') by done. by apply p_peel0.
  - by rewrite Fa.
  - by rewrite Fb.
Qed.

Lemma groups_cover ca cb sa sb ma mb b :
  pair_ok ca sa ma cb sb mb → 0 <= b < num_buckets ma → bucket_hash ca ma sa b ≠ bucket_hash cb mb sb b →
  b ∈ divergentGroups (groupDigests xxh3 (computeDigest xxh3 ca ma sa)) (groupDigests xxh3 (computeDigest xxh3 cb mb sb)) ≫= group_buckets ma.
Proof.
  intros P Hb Hd. apply list_elem_of_bind. exists (b / 16). pose proof (Z.div_mod b 16 ltac:(lia)) as Hdm. pose proof (Z.mod_pos_bound b 16 ltac:(lia)).
  assert (0 <= b / 16) as Hp by (apply Z.div_pos; lia). split; [apply group_buckets_elem; lia|]. apply divergentGroups_elem. set (g := Z.to_nat (b / 16)).
  assert (Z.of_nat g < groups_of ma) as Hg.
  { unfold groups_of, K_BUCKETS_PER_GROUP, g. rewrite Z2Nat.id by lia. pose proof (Z.div_le_mono (b + 1 * 16) (num_buckets ma + Z.of_nat 16 - 1) 16 ltac:(lia) ltac:(lia)) as Hm.
    rewrite (Z.div_add b 1 16) in Hm by lia. lia. }
  pose proof (groups_length xxh3 ca ma sa ltac:(lia)) as La. pose proof (groups_length xxh3 cb mb sb ltac:(rewrite (p_n _ _ _ _ _ _ P); lia)) as Lb.
  assert (groups_of mb = groups_of ma) as Eg by (unfold groups_of; by rewrite (p_n _ _ _ _ _ _ P)).
  destruct (lookup_lt_is_Some_2 (groupDigests xxh3 (computeDigest xxh3 ca ma sa)) g ltac:(lia)) as [x Hx].
  destruct (lookup_lt_is_Some_2 (groupDigests xxh3 (computeDigest xxh3 cb mb sb)) g ltac:(lia)) as [y Hy].
  exists g, x, y. split_and!; [unfold g; lia|done|done|]. intros ->. apply Hd, (equal_group ca cb sa sb ma mb P g); [by rewrite Hx, Hy|done|unfold g; lia].
Qed.

(** The refinement and its answer. *)
Lemma refinement_converges ca cb sa sb ma mb tr tr' :
  pair_ok ca sa ma cb sb mb →
  let hs := divergentGroups (groupDigests xxh3 (computeDigest xxh3 ca ma sa)) (groupDigests xxh3 (computeDigest xxh3 cb mb sb)) ≫= group_buckets ma in
  ∃ v w mb1 decoded sa' ma' sb' mb',
    encodeBucketRefinement (mkRefinement ((λ b, (b, bucket_hash ca ma sa b)) <$> hs) false) = Some v ∧
    onDigestRequest xxh3 cb (request AntiEntropyDigest K_REFINEMENT_KEY v tr) sb mb =
      Some (respond OK (Some w) (request AntiEntropyDigest K_REFINEMENT_KEY v tr), (sb, mb1)) ∧
    decodeDigestResponse w (groups_of ma) = Some decoded ∧
    finishRefinement xxh3 (partner xxh3 cb) tr' ca (computeDigest xxh3 ca ma sa) decoded sa ma (sb, mb1) = Some (sa', ma', (sb', mb')) ∧
    converged sa sb sa' sb'.
Proof.
  intros P hs. pose proof (p_b _ _ _ _ _ _ P) as Hb. assert (groups_of mb = groups_of ma) as Eg by (unfold groups_of; by rewrite (p_n _ _ _ _ _ _ P)).
  assert (NoDup hs) as Hnd by apply groups_buckets_NoDup, divergentGroups_NoDup.
  assert (∀ b, b ∈ hs → 0 <= b < num_buckets ma) as Hhs.
  { intros b (g & Hb' & (i & _ & _ & -> & _)%divergentGroups_elem)%list_elem_of_bind. apply group_buckets_elem in Hb'. lia. }
  destruct (onBucketRefinement_answer xxh3 xxh3_range cb sb mb Hb (bucket_hash ca ma sa) hs) with (tr := tr)
    as (v & w & mb1 & blobs & Ev & Ereq & Hok1 & Hconf & Hbo & Edec).
  { intros b. apply hash_at_range. }
  { done. }
  { intros b Hb'. rewrite (p_n _ _ _ _ _ _ P). by apply Hhs. }
  assert (pair_ok ca sa ma cb sb mb1) as P1 by (eapply pair_ok_conf; [exact P|apply P|done|exact Hok1|exact Hconf]).
  assert (answer xxh3 cb sb mb1 (bucket_hash ca ma sa) hs blobs = answer xxh3 cb sb mb (bucket_hash ca ma sa) hs blobs ∧
    blobs_ok xxh3 cb sb mb1 (bucket_hash ca ma sa) hs blobs) as [Ea Hbo1].
  { destruct Hconf as [En _]. unfold blobs_ok, answer, requested, rows_in, big_in, small, bucketRows, rowFor, bucketFor in *.
    rewrite (computeDigest_conf xxh3 cb mb mb1) by done. by rewrite !En. }
  destruct (finishRefinement_converges ca cb sa sb ma mb1 P1 hs Hnd Hhs) with (blobs := blobs) (tr := tr') as (sa' & ma' & sb' & mb' & Efin & Hcv).
  { intros b Hb' Hd. assert (bucket_hash cb mb1 sb b = bucket_hash cb mb sb b) as E1 by
      (unfold bucket_hash; by rewrite (computeDigest_conf xxh3 cb mb mb1) by apply Hconf).
    apply (groups_cover ca cb sa sb ma mb); [done|done|by rewrite <- E1]. }
  { done. }
  exists v, w, mb1, (answer xxh3 cb sb mb (bucket_hash ca ma sa) hs blobs), sa', ma', sb', mb'.
  split_and!; [done|done|by rewrite <- Eg|by rewrite <- Ea|done].
Qed.

End converge.

(** ** Two nodes *)

Definition left_ops : list StoreOp :=
  [OPutVersioned demo_clock (lit "a") (demo_entry "1" 3); OPutVersioned demo_clock (lit "c") (demo_entry "x" 7)].

Definition right_ops : list StoreOp :=
  [OPutVersioned demo_clock (lit "b") (demo_entry "2" 4); OPutVersioned demo_clock (lit "c") (dead "" 9)].

Definition left_store : Store () () := after demo_hash demo_clock 5000 left_ops.

Definition right_store : Store () () := after demo_hash demo_clock 5000 right_ops.

Definition round_manager : Manager := newManager (lit "n1") 4 1000 K_DEFAULT_FULL_REHASH_INTERVAL.

Local Instance demo_cache : CacheStore (Store () ()) := eviction_cache demo_hash.
Local Instance demo_laws : CacheStoreLaws (Store () ()) := eviction_laws demo_hash.

Lemma demo_sum_range l : in_u 64 (demo_sum l).
Proof. unfold demo_sum. apply wrap_range. lia. Qed.

Lemma left_ok : cs_inv left_store ∧ all_fresh demo_clock left_store.
Proof.
  split; [|apply fresh_check; vm_compute; reflexivity].
  apply after_inv; [by vm_compute|repeat constructor; (apply demo_entry_wf || apply dead_wf)|by vm_compute|by vm_compute].
Qed.

Lemma right_ok : cs_inv right_store ∧ all_fresh demo_clock right_store.
Proof.
  split; [|apply fresh_check; vm_compute; reflexivity].
  apply after_inv; [by vm_compute|repeat constructor; (apply demo_entry_wf || apply dead_wf)|by vm_compute|by vm_compute].
Qed.

Lemma left_holds k e : cs_lookup left_store k = Some e → (k, e) ∈ [(lit "c", demo_entry "x" 7); (lit "a", demo_entry "1" 3)].
Proof.
  intros He. apply (live_fresh demo_clock) in He; [|apply left_ok..]. vm_compute in He. exact He.
Qed.

Lemma right_holds k e : cs_lookup right_store k = Some e → (k, e) ∈ [(lit "c", dead "" 9); (lit "b", demo_entry "2" 4)].
Proof.
  intros He. apply (live_fresh demo_clock) in He; [|apply right_ok..]. vm_compute in He. exact He.
Qed.

Ltac by_entry Hin := repeat (apply elem_of_cons in Hin as [[= -> ->]|Hin]); [..|by apply not_elem_of_nil in Hin].

Lemma left_node : node_ok demo_sum demo_clock left_store round_manager.
Proof.
  split; [apply left_ok|apply left_ok| |done|by vm_compute|by vm_compute|].
  - intros k e Hin%left_holds. by_entry Hin; (split_and!; [done|done|apply demo_entry_wf|done]).
  - intros k k' [e Hin%left_holds] [e' Hin'%left_holds]. by_entry Hin; by_entry Hin'; first [reflexivity|by vm_compute].
Qed.

Lemma right_node : node_ok demo_sum demo_clock right_store round_manager.
Proof.
  split; [apply right_ok|apply right_ok| |done|by vm_compute|by vm_compute|].
  - intros k e Hin%right_holds. by_entry Hin; (split_and!; [done|done|(apply demo_entry_wf || apply dead_wf)|done]).
  - intros k k' [e Hin%right_holds] [e' Hin'%right_holds]. by_entry Hin; by_entry Hin'; first [reflexivity|by vm_compute].
Qed.

Lemma nodes_small b : small demo_sum demo_clock round_manager right_store b = true.
Proof.
  unfold small, K_IBLT_MIN_ROWS. apply Nat.ltb_lt. eapply Nat.le_lt_trans; [apply bucketRows_length|].
  assert (length (cs_liveEntries demo_clock right_store) = 2%nat) as -> by (vm_compute; reflexivity). lia.
Qed.

Lemma room_check n (s : Store () ()) : forallb (λ sh, current_bytes sh + n <=? shardCapacity s) (shards s) = true → cs_room n s.
Proof. intros Hf i sh Hi. rewrite forallb_forall in Hf. apply Z.leb_le, Hf, list_elem_of_In. by eapply list_elem_of_lookup_2. Qed.

(** Conditions on the entries of both nodes, checked one by one. *)
Section checks.
Context (sa sb : Store () ()) (Ha : cs_inv sa ∧ all_fresh demo_clock sa) (Hb : cs_inv sb ∧ all_fresh demo_clock sb).

Lemma each_entry (f : bytes → VersionedEntry → bool) k e :
  forallb (λ x, f x.1 x.2) (cs_liveEntries demo_clock sa) = true → cs_lookup sa k = Some e → f k e = true.
Proof. intros Hf He%(live_fresh demo_clock); [|apply Ha..]. rewrite forallb_forall in Hf. by apply (Hf (k, e)), list_elem_of_In. Qed.

Lemma keys_apart :
  (let ks := (cs_liveEntries demo_clock sa).*1 ++ (cs_liveEntries demo_clock sb).*1 in
   forallb (λ k, forallb (λ k', negb (demo_sum k =? demo_sum k') || bool_decide (k = k')) ks) ks) = true →
  injective_on demo_sum (λ k, has_key sa k ∨ has_key sb k).
Proof.
  intros Hf. assert (∀ k, has_key sa k ∨ has_key sb k → In k ((cs_liveEntries demo_clock sa).*1 ++ (cs_liveEntries demo_clock sb).*1)) as Hin.
  { intros k Hk. apply list_elem_of_In, elem_of_app. destruct Hk as [[e He]|[e He]]; [left|right];
      apply (list_elem_of_fmap_2 fst _ (k, e)), live_fresh; (apply Ha || apply Hb || done). }
  intros k k' Hk%Hin Hk'%Hin E. cbv zeta in Hf. rewrite forallb_forall in Hf. specialize (Hf k Hk). rewrite forallb_forall in Hf. specialize (Hf k' Hk').
  rewrite E, Z.eqb_refl in Hf. by apply bool_decide_eq_true in Hf.
Qed.

Lemma same_stamps :
  forallb (λ x, forallb (λ y, bool_decide (x.1 = y.1 ∧ stampOf x.2 = stampOf y.2 → write_id x.2 = write_id y.2)) (cs_liveEntries demo_clock sb))
    (cs_liveEntries demo_clock sa) = true →
  ∀ k ea eb, cs_lookup sa k = Some ea → cs_lookup sb k = Some eb → stampOf ea = stampOf eb → write_id ea = write_id eb.
Proof.
  intros Hf k ea eb Hea Heb E. apply (live_fresh demo_clock) in Hea; [|apply Ha..]. apply (live_fresh demo_clock) in Heb; [|apply Hb..].
  rewrite forallb_forall in Hf. specialize (Hf (k, ea) (proj1 (list_elem_of_In _ _) Hea)).
  rewrite forallb_forall in Hf. specialize (Hf (k, eb) (proj1 (list_elem_of_In _ _) Heb)). apply bool_decide_eq_true in Hf. by apply Hf.
Qed.

(** All strings of groups. *)
Lemma strings_apart m (n : nat) :
  (Z.to_nat (num_buckets m) <= n * 16)%nat →
  (let ls := [] :: (group_string (computeDigest demo_sum demo_clock m sa) <$> seq 0 n) ++
       (group_string (computeDigest demo_sum demo_clock m sb) <$> seq 0 n) in
   forallb (λ k, forallb (λ k', negb (demo_sum k =? demo_sum k') || bool_decide (k = k')) ls) ls) = true →
  injective_on demo_sum (λ l, ∃ g, l = group_string (computeDigest demo_sum demo_clock m sa) g ∨ l = group_string (computeDigest demo_sum demo_clock m sb) g).
Proof.
  intros Hn Hf.
  assert (∀ (s : Store () ()) g, group_string (computeDigest demo_sum demo_clock m s) g ∈ [] :: (group_string (computeDigest demo_sum demo_clock m s) <$> seq 0 n)) as Hin.
  { intros s g. destruct (decide (g < n)%nat) as [Hg|Hg]; [right; apply list_elem_of_fmap_2, elem_of_seq; lia|].
    unfold group_string. rewrite drop_ge; [left|]. rewrite computeDigest_length. unfold K_BUCKETS_PER_GROUP. lia. }
  intros l l' (g & Hl) (g' & Hl') E. cbv zeta in Hf. set (ls := [] :: _ ++ _) in Hf.
  assert (∀ g l, l = group_string (computeDigest demo_sum demo_clock m sa) g ∨ l = group_string (computeDigest demo_sum demo_clock m sb) g → In l ls) as Hls.
  { intros g0 l0 Hl0. apply list_elem_of_In. unfold ls. rewrite elem_of_cons, elem_of_app.
    destruct Hl0 as [->| ->]; [specialize (Hin sa g0)|specialize (Hin sb g0)]; apply elem_of_cons in Hin as [?|?]; auto. }
  rewrite forallb_forall in Hf. specialize (Hf l (Hls _ _ Hl)). rewrite forallb_forall in Hf. specialize (Hf l' (Hls _ _ Hl')).
  rewrite E, Z.eqb_refl in Hf. by apply bool_decide_eq_true in Hf.
Qed.

(** No two sets of writes with the same sum. *)
Lemma sums_apart m :
  forallb (λ b, negb (xsum (ident_hash demo_sum) (bucket_idents demo_sum demo_clock m sa b) =? xsum (ident_hash demo_sum) (bucket_idents demo_sum demo_clock m sb b)) ||
      bool_decide (bucket_idents demo_sum demo_clock m sa b = bucket_idents demo_sum demo_clock m sb b)) (seqZ 0 (num_buckets m)) = true →
  ∀ b, 0 <= b < num_buckets m →
    xsum (ident_hash demo_sum) (bucket_idents demo_sum demo_clock m sa b) = xsum (ident_hash demo_sum) (bucket_idents demo_sum demo_clock m sb b) →
    ∀ i, i ∈ bucket_idents demo_sum demo_clock m sa b ↔ i ∈ bucket_idents demo_sum demo_clock m sb b.
Proof.
  intros Hf b Hb0 E i. rewrite forallb_forall in Hf. specialize (Hf b (proj1 (list_elem_of_In _ _) (proj2 (elem_of_seqZ _ _ _) Hb0))).
  rewrite E, Z.eqb_refl in Hf. apply bool_decide_eq_true in Hf. by rewrite Hf.
Qed.
End checks.

Lemma nodes_pair : pair_ok demo_sum demo_clock left_store round_manager demo_clock right_store round_manager.
Proof.
  split; [exact left_node|exact right_node|done| | | | | | | | |by vm_compute|by vm_compute].
  - apply (keys_apart _ _ left_ok right_ok). vm_compute. reflexivity.
  - apply (same_stamps _ _ left_ok right_ok). vm_compute. reflexivity.
  - apply sums_apart. vm_compute. reflexivity.
  - apply (strings_apart _ _ _ 1); [vm_compute; lia|]. vm_compute. reflexivity.
  - intros b. by rewrite nodes_small.
  - intros k e He. pose proof (each_entry _ left_ok (λ k e, negb (expired (now demo_clock) (received demo_clock demo_clock e))) k e ltac:(vm_compute; reflexivity) He) as Hx.
    by apply negb_true_iff in Hx.
  - apply room_check. vm_compute. reflexivity.
  - apply room_check. vm_compute. reflexivity.
Qed.

(** Two nodes with a bucket of more than 32 rows, which is sketched. *)
Definition shared_ops : list StoreOp := (λ n, OPutVersioned demo_clock (le_encode 1 (Z.of_nat n)) (demo_entry "v" 5)) <$> seq 0 33.

Definition big_left : Store () () := after demo_hash demo_clock 20000 (shared_ops ++ [OPutVersioned demo_clock (lit "a") (demo_entry "1" 3)]).

Definition big_right : Store () () := after demo_hash demo_clock 20000 (shared_ops ++ [OPutVersioned demo_clock (lit "b") (dead "" 9)]).

Definition big_manager : Manager := newManager (lit "n1") 1 2000 K_DEFAULT_FULL_REHASH_INTERVAL.

Lemma big_left_ok : cs_inv big_left ∧ all_fresh demo_clock big_left.
Proof.
  split; [|apply fresh_check; vm_compute; reflexivity].
  apply after_inv; [by vm_compute|apply Forall_app; split; [apply Forall_fmap, Forall_true; intros; apply demo_entry_wf|repeat constructor; apply demo_entry_wf]|by vm_compute|by vm_compute].
Qed.

Lemma big_right_ok : cs_inv big_right ∧ all_fresh demo_clock big_right.
Proof.
  split; [|apply fresh_check; vm_compute; reflexivity].
  apply after_inv; [by vm_compute|apply Forall_app; split; [apply Forall_fmap, Forall_true; intros; apply demo_entry_wf|repeat constructor; apply dead_wf]|by vm_compute|by vm_compute].
Qed.

(** The conditions of a node, but for the invariant. *)
Definition fits_b (k : bytes) (e : VersionedEntry) : bool :=
  bool_decide (0 <= zlen k < 2 ^ 32 ∧ 0 <= zlen (value e) < 2 ^ 32 ∧ 0 <= version_and_ttl e < 2 ^ 64 ∧ 0 <= writer_node_hash e < 2 ^ 64).

Lemma node_check s :
  cs_inv s ∧ all_fresh demo_clock s →
  forallb (λ x, fits_b x.1 x.2) (cs_liveEntries demo_clock s) = true →
  injective_on demo_sum (λ k, has_key s k ∨ has_key s k) → Z.of_nat (length (cs_liveEntries demo_clock s)) * 29 + 4 < 2 ^ 32 →
  node_ok demo_sum demo_clock s big_manager.
Proof.
  intros Hs Hf Hi Hl. split; [apply Hs|apply Hs| |done|by vm_compute|done|intros k k' ? ?; apply Hi; auto].
  intros k e He. pose proof (each_entry s Hs fits_b k e Hf He) as Hx. apply bool_decide_eq_true in Hx. exact Hx.
Qed.

Lemma big_pair : pair_ok demo_sum demo_clock big_left big_manager demo_clock big_right big_manager.
Proof.
  split; [| |done| | | | | | | | |by vm_compute|by vm_compute].
  - apply node_check; [exact big_left_ok|vm_compute; reflexivity|apply (keys_apart _ _ big_left_ok big_left_ok); vm_compute; reflexivity|by vm_compute].
  - apply node_check; [exact big_right_ok|vm_compute; reflexivity|apply (keys_apart _ _ big_right_ok big_right_ok); vm_compute; reflexivity|by vm_compute].
  - apply (keys_apart _ _ big_left_ok big_right_ok). vm_compute. reflexivity.
  - apply (same_stamps _ _ big_left_ok big_right_ok). vm_compute. reflexivity.
  - apply sums_apart. vm_compute. reflexivity.
  - apply (strings_apart _ _ _ 1); [vm_compute; lia|]. vm_compute. reflexivity.
  - intros b Hb _ _. assert (b = 0) as -> by (change (num_buckets big_manager) with 1 in Hb; lia).
    split; [apply honest_check|apply peelable_check]; vm_compute; reflexivity.
  - intros k e He. pose proof (each_entry _ big_left_ok (λ k e, negb (expired (now demo_clock) (received demo_clock demo_clock e))) k e ltac:(vm_compute; reflexivity) He) as Hx.
    by apply negb_true_iff in Hx.
  - apply room_check. vm_compute. reflexivity.
  - apply room_check. vm_compute. reflexivity.
Qed.

