(* ===== verification/HintQueue.v ===== *)
(** * Pending replication hints (include/cinder/node/hint_queue.hpp)

    The bounded queue as the code has it: an array of slots threaded by a
    doubly linked list in arrival order and by a free list, each slot with a
    generation that tags the handles given out for it.  [fifo] is what the queue
    promises: a list of hints, at most one per target and key, whose handles are
    never issued twice. *)

From S2P Require Import Prelude Types Bytes Protocol.
Import Lww LwwFacts.
Local Open Scope Z_scope.

Definition K_CAPACITY : nat := 1024.
Definition K_NONE : nat := K_CAPACITY.
Definition K_DEFAULT_MAX_BYTES : Z := 67108864.

Record QueuedHint := mkHint {
  hint_target : bytes;
  hint_req : Request;
  hint_expires : Z }.

Record Handle := mkHandle { h_index : nat; h_generation : Z }.

#[global] Instance Handle_eq_dec : EqDecision Handle.
Proof. solve_decision. Defined.

Record SnapshotEntry := mkSnap { snap_hint : QueuedHint; snap_handle : Handle }.

#[global] Instance QueuedHint_eq_dec : EqDecision QueuedHint.
Proof. solve_decision. Defined.

#[global] Instance SnapshotEntry_eq_dec : EqDecision SnapshotEntry.
Proof. solve_decision. Defined.

Record Slot := mkSlot {
  hint : option QueuedHint;
  sprev : nat;
  snext : nat;
  free_next : nat;
  generation : Z }.

#[global] Instance Slot_eq_dec : EqDecision Slot.
Proof. solve_decision. Defined.

Definition emptySlot : Slot := mkSlot None K_NONE K_NONE K_NONE 0.

(** The three sinks are the values behind the pointers; [None] is a null one. *)
Record HintQueue := mkQueue {
  slots : list Slot;
  next_unused : nat;
  free_head : nat;
  head : nat;
  tail : nat;
  qsize : Z;
  current_bytes : Z;
  peak_bytes : Z;
  max_bytes : Z;
  dropped : Z;
  entries_metric : option Z;
  bytes_metric : option Z;
  bytes_peak_metric : option Z }.

#[global] Instance HintQueue_eq_dec : EqDecision HintQueue.
Proof. solve_decision. Defined.

Definition emptyQueue : HintQueue :=
  mkQueue (replicate K_CAPACITY emptySlot) 0 K_NONE K_NONE K_NONE 0 0 0 K_DEFAULT_MAX_BYTES 0 None None None.

Definition with_slots (s : list Slot) (q : HintQueue) : HintQueue :=
  mkQueue s (next_unused q) (free_head q) (head q) (tail q) (qsize q) (current_bytes q) (peak_bytes q)
    (max_bytes q) (dropped q) (entries_metric q) (bytes_metric q) (bytes_peak_metric q).
Definition with_next_unused (n : nat) (q : HintQueue) : HintQueue :=
  mkQueue (slots q) n (free_head q) (head q) (tail q) (qsize q) (current_bytes q) (peak_bytes q)
    (max_bytes q) (dropped q) (entries_metric q) (bytes_metric q) (bytes_peak_metric q).
Definition with_free_head (n : nat) (q : HintQueue) : HintQueue :=
  mkQueue (slots q) (next_unused q) n (head q) (tail q) (qsize q) (current_bytes q) (peak_bytes q)
    (max_bytes q) (dropped q) (entries_metric q) (bytes_metric q) (bytes_peak_metric q).
Definition with_head (n : nat) (q : HintQueue) : HintQueue :=
  mkQueue (slots q) (next_unused q) (free_head q) n (tail q) (qsize q) (current_bytes q) (peak_bytes q)
    (max_bytes q) (dropped q) (entries_metric q) (bytes_metric q) (bytes_peak_metric q).
Definition with_tail (n : nat) (q : HintQueue) : HintQueue :=
  mkQueue (slots q) (next_unused q) (free_head q) (head q) n (qsize q) (current_bytes q) (peak_bytes q)
    (max_bytes q) (dropped q) (entries_metric q) (bytes_metric q) (bytes_peak_metric q).
Definition with_size (n : Z) (q : HintQueue) : HintQueue :=
  mkQueue (slots q) (next_unused q) (free_head q) (head q) (tail q) n (current_bytes q) (peak_bytes q)
    (max_bytes q) (dropped q) (entries_metric q) (bytes_metric q) (bytes_peak_metric q).
Definition with_bytes (n : Z) (q : HintQueue) : HintQueue :=
  mkQueue (slots q) (next_unused q) (free_head q) (head q) (tail q) (qsize q) n (peak_bytes q)
    (max_bytes q) (dropped q) (entries_metric q) (bytes_metric q) (bytes_peak_metric q).
Definition with_dropped (n : Z) (q : HintQueue) : HintQueue :=
  mkQueue (slots q) (next_unused q) (free_head q) (head q) (tail q) (qsize q) (current_bytes q) (peak_bytes q)
    (max_bytes q) n (entries_metric q) (bytes_metric q) (bytes_peak_metric q).

Definition setMaxBytes (n : Z) (q : HintQueue) : HintQueue :=
  mkQueue (slots q) (next_unused q) (free_head q) (head q) (tail q) (qsize q) (current_bytes q) (peak_bytes q)
    n (dropped q) (entries_metric q) (bytes_metric q) (bytes_peak_metric q).

Definition publishMetrics (q : HintQueue) : HintQueue :=
  let peak := Z.max (peak_bytes q) (current_bytes q) in
  mkQueue (slots q) (next_unused q) (free_head q) (head q) (tail q) (qsize q) (current_bytes q) peak
    (max_bytes q) (dropped q) ((λ _, qsize q) <$> entries_metric q) ((λ _, current_bytes q) <$> bytes_metric q)
    (Z.max peak <$> bytes_peak_metric q).

Definition setMetrics (entries bytes peak : option Z) (q : HintQueue) : HintQueue :=
  publishMetrics (mkQueue (slots q) (next_unused q) (free_head q) (head q) (tail q) (qsize q) (current_bytes q)
    (peak_bytes q) (max_bytes q) (dropped q) entries bytes peak).

(** LWW order on the payloads. *)
Definition hintStamp (r : Request) : LwwStamp := mkStamp (version r) (writer_node_hash r) (tombstone r).

Definition isNewerThan (a b : Request) : bool := lwwCovers (hintStamp a) (hintStamp b).

(** A field of a slot; out of the array is undefined. *)
Definition set_next (i v : nat) (q : HintQueue) : option HintQueue :=
  s ← slots q !! i;
  Some (with_slots (<[i := mkSlot (hint s) (sprev s) v (free_next s) (generation s)]> (slots q)) q).
Definition set_prev (i v : nat) (q : HintQueue) : option HintQueue :=
  s ← slots q !! i;
  Some (with_slots (<[i := mkSlot (hint s) v (snext s) (free_next s) (generation s)]> (slots q)) q).

Definition acquireSlot (q : HintQueue) : option (nat * HintQueue) :=
  if decide (free_head q ≠ K_NONE) then
    let index := free_head q in
    s ← slots q !! index;
    Some (index, with_slots (<[index := mkSlot (hint s) (sprev s) (snext s) K_NONE (generation s)]> (slots q))
                   (with_free_head (free_next s) q))
  else Some (next_unused q, with_next_unused (S (next_unused q)) q).

Definition linkAtTail (index : nat) (q : HintQueue) : option HintQueue :=
  q ← set_prev index (tail q) q;
  q ← set_next index K_NONE q;
  q ← (if decide (tail q ≠ K_NONE) then set_next (tail q) index q else Some (with_head index q));
  Some (with_tail index q).

Section queue.
(** [sizeof(Hint)]. *)
Context (hint_size : Z).

Definition estimatedPayloadBytes (h : QueuedHint) : Z :=
  u64 (hint_size + zlen (hint_target h) + zlen (key (hint_req h)) + zlen (value (hint_req h))).

(** [None]: an index out of the array, or an empty slot dereferenced. *)
Definition unlinkAndRelease (index : nat) (q : HintQueue) : option HintQueue :=
  s ← slots q !! index;
  h ← hint s;
  let q := with_bytes (u64 (current_bytes q - estimatedPayloadBytes h)) q in
  q ← (if decide (sprev s ≠ K_NONE) then set_next (sprev s) (snext s) q else Some (with_head (snext s) q));
  s ← slots q !! index;
  q ← (if decide (snext s ≠ K_NONE) then set_prev (snext s) (sprev s) q else Some (with_tail (sprev s) q));
  s ← slots q !! index;
  let q := with_slots (<[index := mkSlot None K_NONE K_NONE (free_head q) (generation s)]> (slots q)) q in
  Some (with_size (u64 (qsize q - 1)) (with_free_head index q)).

(** The walk of [push] for a queued hint of the same target and key; [false] is
    the early return for an older write. *)
Fixpoint coalesce (fuel index : nat) (h : QueuedHint) (q : HintQueue) : option (bool * HintQueue) :=
  if decide (index = K_NONE) then Some (true, q)
  else match fuel with
  | O => None
  | S fuel =>
      s ← slots q !! index;
      x ← hint s;
      let next := snext s in
      if decide (hint_target x = hint_target h ∧ key (hint_req x) = key (hint_req h)) then
        if negb (isNewerThan (hint_req h) (hint_req x)) then Some (false, q)
        else q ← unlinkAndRelease index q; Some (true, q)
      else coalesce fuel next h q
  end.

Fixpoint evict (fuel : nat) (incoming : Z) (q : HintQueue) : option HintQueue :=
  if decide (qsize q = Z.of_nat K_CAPACITY ∨ max_bytes q < u64 (current_bytes q + incoming)) then
    match fuel with
    | O => None
    | S fuel =>
        q ← unlinkAndRelease (head q) q;
        evict fuel incoming (with_dropped (u64 (dropped q + 1)) q)
    end
  else Some q.

(** The end of [push]: the hint in a free slot, at the tail. *)
Definition enqueue (h : QueuedHint) (q : HintQueue) : option HintQueue :=
  '(index, q) ← acquireSlot q;
  s ← slots q !! index;
  let q := with_bytes (u64 (current_bytes q + estimatedPayloadBytes h)) q in
  let q := with_slots (<[index := mkSlot (Some h) (sprev s) (snext s) (free_next s)
                                    (u64 (generation s + 1))]> (slots q)) q in
  q ← linkAtTail index q;
  Some (publishMetrics (with_size (u64 (qsize q + 1)) q)).

(** No list is longer than [K_CAPACITY]. *)
Definition push (h : QueuedHint) (q : HintQueue) : option (bool * HintQueue) :=
  let incoming := estimatedPayloadBytes h in
  if decide (max_bytes q < incoming) then
    Some (false, publishMetrics (with_dropped (u64 (dropped q + 1)) q))
  else
    '(go, q) ← (if decide (0 < qsize q) then coalesce K_CAPACITY (head q) h q else Some (true, q));
    if negb go then Some (false, q)
    else
      q ← evict K_CAPACITY incoming q;
      q ← enqueue h q;
      Some (true, q).

Fixpoint scan (fuel index : nat) (now : Z) (max_entries : nat) (live : list SnapshotEntry) (q : HintQueue)
  : option (list SnapshotEntry * HintQueue) :=
  if decide (index ≠ K_NONE ∧ (length live < max_entries)%nat) then
    match fuel with
    | O => None
    | S fuel =>
        s ← slots q !! index;
        h ← hint s;
        let next := snext s in
        if decide (hint_expires h <= now) then
          q ← unlinkAndRelease index q; scan fuel next now max_entries live q
        else scan fuel next now max_entries (live ++ [mkSnap h (mkHandle index (generation s))]) q
    end
  else Some (live, q).

Definition snapshot (now : Z) (max_entries : nat) (q : HintQueue) : option (list SnapshotEntry * HintQueue) :=
  '(live, q) ← scan K_CAPACITY (head q) now max_entries [] q;
  Some (live, publishMetrics q).

(** The visitor is called outside the lock and may change the queue. *)
Definition replay (fn : QueuedHint → HintQueue → option HintQueue) (now : Z) (q : HintQueue)
  : option (nat * HintQueue) :=
  '(live, q) ← snapshot now K_CAPACITY q;
  q ← foldl (λ q e, q ← q; fn (snap_hint e) q) (Some q) live;
  Some (length live, q).

Definition removeHandle (hd : Handle) (q : HintQueue) : option HintQueue :=
  if decide (K_CAPACITY <= h_index hd)%nat then Some q
  else
    s ← slots q !! h_index hd;
    if decide (hint s = None ∨ generation s ≠ h_generation hd) then Some q
    else q ← unlinkAndRelease (h_index hd) q; Some (publishMetrics q).

Fixpoint removeFrom (fuel index : nat) (t : bytes) (r : Request) (q : HintQueue) : option HintQueue :=
  if decide (index = K_NONE) then Some q
  else match fuel with
  | O => None
  | S fuel =>
      s ← slots q !! index;
      h ← hint s;
      let next := snext s in
      if decide (hint_target h = t ∧ key (hint_req h) = key r ∧ version (hint_req h) = version r) then
        q ← unlinkAndRelease index q; Some (publishMetrics q)
      else removeFrom fuel next t r q
  end.

Definition removeRequest (t : bytes) (r : Request) (q : HintQueue) : option HintQueue :=
  removeFrom K_CAPACITY (head q) t r q.

End queue.

(** ** What the queue promises *)

Record Fifo := mkFifo {
  entries : list (Handle * QueuedHint);
  limit : Z;
  drops : Z;
  issued : list Handle }.

Definition emptyFifo : Fifo := mkFifo [] K_DEFAULT_MAX_BYTES 0 [].

Definition same_slot (h x : QueuedHint) : Prop :=
  hint_target x = hint_target h ∧ key (hint_req x) = key (hint_req h).

#[global] Instance same_slot_dec : RelDecision same_slot.
Proof. intros h x. unfold same_slot. apply _. Defined.

(** The hint a completion that names target, key and version is about. *)
Definition names_hint (t : bytes) (r : Request) (h : QueuedHint) : Prop :=
  hint_target h = t ∧ key (hint_req h) = key r ∧ version (hint_req h) = version r.

#[global] Instance names_hint_dec t r h : Decision (names_hint t r h).
Proof. unfold names_hint. apply _. Defined.

(** The hints a bounded scan hands out, and what it leaves. *)
Fixpoint sweep (now : Z) (n : nat) (l : list (Handle * QueuedHint))
  : list (Handle * QueuedHint) * list (Handle * QueuedHint) :=
  match n, l with
  | O, _ => ([], l)
  | _, [] => ([], [])
  | S n', e :: l' =>
      if decide (hint_expires e.2 <= now) then sweep now n l'
      else let '(live, rest) := sweep now n' l' in (e :: live, e :: rest)
  end.

Inductive QueueOp :=
  | Push (h : QueuedHint)
  | Snapshot (now : Z) (max_entries : nat)
  | RemoveHandle (hd : Handle)
  | RemoveRequest (t : bytes) (r : Request)
  | SetMaxBytes (n : Z)
  | SetMetrics (e b p : option Z).

Inductive QueueOut := Pushed (b : bool) | Snapped (l : list (Handle * QueuedHint)) | Done.

Section spec.
Context (hint_size : Z).

Definition weight (h : QueuedHint) : Z :=
  hint_size + zlen (hint_target h) + zlen (key (hint_req h)) + zlen (value (hint_req h)).

Definition total (l : list (Handle * QueuedHint)) : Z := foldr (λ e n, weight e.2 + n) 0 l.

Definition fits (max incoming : Z) (l : list (Handle * QueuedHint)) : Prop :=
  (length l < K_CAPACITY)%nat ∧ total l + incoming <= max.

#[global] Instance fits_dec max incoming l : Decision (fits max incoming l).
Proof. unfold fits. apply _. Defined.

(** The longest suffix, newest hints, beside which the new one fits. *)
Fixpoint trim (max incoming : Z) (l : list (Handle * QueuedHint)) : list (Handle * QueuedHint) :=
  match l with
  | [] => []
  | _ :: l' => if decide (fits max incoming l) then l else trim max incoming l'
  end.

Inductive fifo_step : QueueOp → QueueOut → Fifo → Fifo → Prop :=
  | fifo_push_large h a :
      limit a < weight h →
      fifo_step (Push h) (Pushed false) a (mkFifo (entries a) (limit a) (u64 (drops a + 1)) (issued a))
  | fifo_push_stale h hd x a :
      weight h <= limit a → (hd, x) ∈ entries a → same_slot h x → isNewerThan (hint_req h) (hint_req x) = false →
      fifo_step (Push h) (Pushed false) a a
  | fifo_push h hd a rest kept :
      weight h <= limit a →
      (∀ e, e ∈ entries a → same_slot h e.2 → isNewerThan (hint_req h) (hint_req e.2) = true) →
      hd ∉ issued a →
      rest = filter (λ e, ¬ same_slot h e.2) (entries a) → kept = trim (limit a) (weight h) rest →
      fifo_step (Push h) (Pushed true) a
        (mkFifo (kept ++ [(hd, h)]) (limit a) (u64 (drops a + (Z.of_nat (length rest) - Z.of_nat (length kept))))
           (hd :: issued a))
  | fifo_snapshot now n a :
      fifo_step (Snapshot now n) (Snapped (sweep now n (entries a)).1) a
        (mkFifo (sweep now n (entries a)).2 (limit a) (drops a) (issued a))
  | fifo_remove hd a :
      fifo_step (RemoveHandle hd) Done a
        (mkFifo (filter (λ e, e.1 ≠ hd) (entries a)) (limit a) (drops a) (issued a))
  | fifo_remove_request t r a :
      fifo_step (RemoveRequest t r) Done a
        (mkFifo (filter (λ e, ¬ names_hint t r e.2) (entries a)) (limit a) (drops a) (issued a))
  | fifo_limit n a :
      fifo_step (SetMaxBytes n) Done a (mkFifo (entries a) n (drops a) (issued a))
  | fifo_metrics e b p a : fifo_step (SetMetrics e b p) Done a a.

Inductive fifo_run : list QueueOp → list QueueOut → Fifo → Fifo → Prop :=
  | fifo_nil a : fifo_run [] [] a a
  | fifo_cons op ops o os a a1 a2 :
      fifo_step op o a a1 → fifo_run ops os a1 a2 → fifo_run (op :: ops) (o :: os) a a2.

(** One call, and a sequence of them. *)
Definition queue_step (op : QueueOp) (q : HintQueue) : option (QueueOut * HintQueue) :=
  match op with
  | Push h => '(b, q) ← push hint_size h q; Some (Pushed b, q)
  | Snapshot now n =>
      '(live, q) ← snapshot hint_size now n q;
      Some (Snapped ((λ e, (snap_handle e, snap_hint e)) <$> live), q)
  | RemoveHandle hd => q ← removeHandle hint_size hd q; Some (Done, q)
  | RemoveRequest t r => q ← removeRequest hint_size t r q; Some (Done, q)
  | SetMaxBytes n => Some (Done, setMaxBytes n q)
  | SetMetrics e b p => Some (Done, setMetrics e b p q)
  end.

Fixpoint queue_run (ops : list QueueOp) (q : HintQueue) : option (list QueueOut * HintQueue) :=
  match ops with
  | [] => Some ([], q)
  | op :: ops => '(o, q) ← queue_step op q; '(os, q) ← queue_run ops q; Some (o :: os, q)
  end.

End spec.

(** ** Links

    The ends of the list are neighbours of [K_NONE], whose links are [head_] and
    [tail_]. *)

Definition nextOf (q : HintQueue) (a : nat) : nat :=
  if decide (a = K_NONE) then head q else from_option snext K_NONE (slots q !! a).

Definition prevOf (q : HintQueue) (b : nat) : nat :=
  if decide (b = K_NONE) then tail q else from_option sprev K_NONE (slots q !! b).

Definition qpoints (q : HintQueue) (P : list (nat * nat)) : Prop :=
  ∀ a b, (a, b) ∈ P → nextOf q a = b ∧ prevOf q b = a.

Definition cells (c : list nat) : list (nat * nat) := adj (K_NONE :: c ++ [K_NONE]).

(** What a slot holds besides its links in the list. *)
Definition core_of (s : Slot) : option QueuedHint * nat * Z := (hint s, free_next s, generation s).

Definition core (q : HintQueue) : list (option QueuedHint * nat * Z) := core_of <$> slots q.

Definition relink (q q' : HintQueue) : Prop :=
  core q' = core q ∧ q' = with_tail (tail q') (with_head (head q') (with_slots (slots q') q)).

Definition link_next (a v : nat) (q : HintQueue) : option HintQueue :=
  if decide (a ≠ K_NONE) then set_next a v q else Some (with_head v q).

Definition link_prev (b v : nat) (q : HintQueue) : option HintQueue :=
  if decide (b ≠ K_NONE) then set_prev b v q else Some (with_tail v q).

Lemma core_set q i s s' : slots q !! i = Some s → core_of s' = core_of s → core_of <$> <[i := s']> (slots q) = core q.
Proof.
  intros Hi E. unfold core. rewrite list_fmap_insert, E. apply list_insert_id. by rewrite list_lookup_fmap, Hi.
Qed.

Lemma insert_field {A B} (l : list A) (i x : nat) (v : A) (g : A → B) d :
  (i < length l)%nat → from_option g d (<[i := v]> l !! x) = if decide (x = i) then g v else from_option g d (l !! x).
Proof.
  intros Hi. case_decide as E; [subst; by rewrite list_lookup_insert_eq|by rewrite list_lookup_insert_ne].
Qed.

Lemma field_id {A B} (l : list A) (i x : nat) (s : A) (g : A → B) d :
  l !! i = Some s → (if decide (x = i) then g s else from_option g d (l !! x)) = from_option g d (l !! x).
Proof. intros Hi. case_decide; [subst; by rewrite Hi|done]. Qed.

Lemma link_next_spec a v q :
  (a = K_NONE ∨ a < length (slots q))%nat →
  ∃ q', link_next a v q = Some q' ∧ relink q q' ∧
    (∀ x, nextOf q' x = if decide (x = a) then v else nextOf q x) ∧ (∀ x, prevOf q' x = prevOf q x).
Proof.
  intros Ha. unfold link_next, nextOf, prevOf. case_decide as Hn.
  - destruct Ha as [|Ha]; [done|]. destruct (lookup_lt_is_Some_2 _ _ Ha) as [s Hs]. unfold set_next. rewrite Hs. cbn [mbind option_bind].
    eexists. split; [done|]. split_and!.
    + split; [|by destruct q]. by apply (core_set q a s).
    + intros x. cbn [slots with_slots head]. rewrite insert_field by done.
      destruct (decide (x = K_NONE)) as [->|]; [by rewrite decide_False|done].
    + intros x. cbn [slots with_slots tail]. rewrite insert_field by done. cbn [sprev]. by rewrite field_id.
  - subst a. eexists. split; [done|]. split_and!; [by destruct q| |by destruct q].
    intros x. cbn [slots with_head head]. by case_decide.
Qed.

Lemma link_prev_spec b v q :
  (b = K_NONE ∨ b < length (slots q))%nat →
  ∃ q', link_prev b v q = Some q' ∧ relink q q' ∧
    (∀ x, prevOf q' x = if decide (x = b) then v else prevOf q x) ∧ (∀ x, nextOf q' x = nextOf q x).
Proof.
  intros Ha. unfold link_prev, nextOf, prevOf. case_decide as Hn.
  - destruct Ha as [|Ha]; [done|]. destruct (lookup_lt_is_Some_2 _ _ Ha) as [s Hs]. unfold set_prev. rewrite Hs. cbn [mbind option_bind].
    eexists. split; [done|]. split_and!.
    + split; [|by destruct q]. by apply (core_set q b s).
    + intros x. cbn [slots with_slots tail]. rewrite insert_field by done.
      destruct (decide (x = K_NONE)) as [->|]; [by rewrite decide_False|done].
    + intros x. cbn [slots with_slots head]. rewrite insert_field by done. cbn [snext]. by rewrite field_id.
  - subst b. eexists. split; [done|]. split_and!; [by destruct q| |by destruct q].
    intros x. cbn [slots with_tail tail]. by case_decide.
Qed.

Lemma relink_trans q1 q2 q3 : relink q1 q2 → relink q2 q3 → relink q1 q3.
Proof. intros [C1 E1] [C2 E2]. split; [congruence|]. rewrite E2, E1. by destruct q1. Qed.

Lemma core_length q : length (core q) = length (slots q).
Proof. apply length_fmap. Qed.

Lemma relink_length q q' : relink q q' → length (slots q') = length (slots q).
Proof. intros [E _]. by rewrite <- !core_length, E. Qed.

Lemma core_lookup q i s : slots q !! i = Some s → core q !! i = Some (core_of s).
Proof. intros E. unfold core. by rewrite list_lookup_fmap, E. Qed.

Lemma core_inv q i x : core q !! i = Some x → ∃ s, slots q !! i = Some s ∧ core_of s = x.
Proof. unfold core. rewrite list_lookup_fmap. intros (s & -> & E)%fmap_Some. eauto. Qed.

Lemma slot_prev q i s : slots q !! i = Some s → i ≠ K_NONE → prevOf q i = sprev s.
Proof. intros E Hi. unfold prevOf. by rewrite decide_False, E. Qed.

Lemma slot_next q i s : slots q !! i = Some s → i ≠ K_NONE → nextOf q i = snext s.
Proof. intros E Hi. unfold nextOf. by rewrite decide_False, E. Qed.

Lemma cells_fst c : (cells c).*1 = K_NONE :: c.
Proof. apply (adj_fst (K_NONE :: c)). Qed.

Lemma cells_snd c : (cells c).*2 = c ++ [K_NONE].
Proof. apply adj_snd. Qed.

Lemma cells_nodup c : NoDup c → K_NONE ∉ c → NoDup (cells c).*1 ∧ NoDup (cells c).*2.
Proof.
  intros Hc Hn. rewrite cells_fst, cells_snd. split; [by apply NoDup_cons|].
  apply NoDup_app. split_and!; [done| |apply NoDup_singleton]. intros x Hx ->%list_elem_of_singleton. done.
Qed.

Lemma cells_unlink c1 i c2 :
  NoDup (c1 ++ i :: c2) → (∀ j, j ∈ c1 ++ i :: c2 → j < K_NONE)%nat →
  ∃ p r P, cells (c1 ++ i :: c2) ≡ₚ (p, i) :: (i, r) :: P ∧ cells (c1 ++ c2) ≡ₚ (p, r) :: P ∧
    (p = K_NONE ∨ p < K_NONE)%nat ∧ (r = K_NONE ∨ r < K_NONE)%nat ∧ i ≠ p ∧ r ≠ i ∧
    ∀ a b, (a, b) ∈ P → a ≠ p ∧ a ≠ i ∧ b ≠ i ∧ b ≠ r.
Proof.
  intros Hnd Hb. destruct (adj_split K_NONE c1 i c2 K_NONE) as (p & r & P & E1 & E2).
  fold (cells (c1 ++ i :: c2)) in E1. fold (cells (c1 ++ c2)) in E2. exists p, r, P.
  destruct (cells_nodup _ Hnd) as [N1 N2]; [intros ?%Hb; lia|]. rewrite E1 in N1, N2.
  pose proof (nodup_pairs _ _ _ N1 N2) as HA. rewrite fmap_cons in N1, N2. apply NoDup_cons in N1 as [_ N1], N2 as [_ N2].
  pose proof (nodup_pairs _ _ _ N1 N2) as HB. destruct (HA i r) as [Hip Hri]; [by left|]. split_and!; try done.
  - assert (p ∈ (cells (c1 ++ i :: c2)).*1) as Hp by (rewrite E1; by left). rewrite cells_fst in Hp.
    apply elem_of_cons in Hp as [?|Hp]; [by left|right; by apply Hb].
  - assert (r ∈ (cells (c1 ++ i :: c2)).*2) as Hr by (rewrite E1; right; by left). rewrite cells_snd in Hr.
    apply elem_of_app in Hr as [Hr|Hr%list_elem_of_singleton]; [right; by apply Hb|by left].
  - intros a b Hab. destruct (HA a b) as [??]; [by right|]. by destruct (HB a b Hab) as [??].
Qed.

(** ** Unlinking a slot *)

(** The slots of the free list, from its head on. *)
Fixpoint flist (k : list (option QueuedHint * nat * Z)) (start : nat) (f : list nat) : Prop :=
  match f with
  | [] => start = K_NONE
  | i :: f' => start = i ∧ i ≠ K_NONE ∧ ∃ x n g, k !! i = Some (x, n, g) ∧ flist k n f'
  end.

Lemma flist_ext k k' start f : (∀ i, i ∈ f → k' !! i = k !! i) → flist k start f → flist k' start f.
Proof.
  revert start. induction f as [|i f IH]; intros start HE; simpl; [done|].
  intros (-> & Hn & x & n & g & Hk & Hf). split_and!; [done..|]. exists x, n, g. rewrite HE by (by left).
  split; [done|]. apply IH; [|done]. intros j Hj. apply HE. by right.
Qed.

Section links.
Context (hint_size : Z).
Local Abbreviation unlinkAndRelease := (unlinkAndRelease hint_size).
Local Abbreviation estimatedPayloadBytes := (estimatedPayloadBytes hint_size).

Definition released (i : nat) (h : QueuedHint) (g : Z) (q q' : HintQueue) : Prop :=
  core q' = <[i := (None, free_head q, g)]> (core q) ∧
  q' = mkQueue (slots q') (next_unused q) i (head q') (tail q') (u64 (qsize q - 1))
         (u64 (current_bytes q - estimatedPayloadBytes h)) (peak_bytes q) (max_bytes q) (dropped q)
         (entries_metric q) (bytes_metric q) (bytes_peak_metric q).

(** The two writes that take [i] out of the list. *)
Lemma splice_links q c1 i c2 x :
  length (slots q) = K_NONE → NoDup (c1 ++ i :: c2) → (∀ j, j ∈ c1 ++ i :: c2 → j < K_NONE)%nat →
  qpoints q (cells (c1 ++ i :: c2)) → core q !! i = Some x →
  ∃ q1 q2, link_next (prevOf q i) (nextOf q i) q = Some q1 ∧ link_prev (nextOf q1 i) (prevOf q1 i) q1 = Some q2 ∧
    relink q q1 ∧ relink q1 q2 ∧
    ∀ a b, (a, b) ∈ cells (c1 ++ c2) → a ≠ i ∧ b ≠ i ∧ nextOf q2 a = b ∧ prevOf q2 b = a.
Proof.
  intros Hlen Hnd Hb HP Hx. destruct (cells_unlink c1 i c2 Hnd Hb) as (p & r & P & E1 & E2 & Hp & Hr & Hpi & Hri & HD).
  destruct (HP p i) as [_ ->]; [rewrite E1; by left|]. destruct (HP i r) as [Hir _]; [rewrite E1; right; by left|]. rewrite Hir.
  destruct (link_next_spec p r q) as (q1 & Eq1 & R1 & X1 & Y1); [by rewrite Hlen|].
  destruct (link_prev_spec r p q1) as (q2 & Eq2 & R2 & X2 & Y2); [by rewrite (relink_length _ _ R1), Hlen|].
  exists q1, q2. rewrite X1, Y1, decide_False, Hir by done.
  destruct (HP p i) as [_ ->]; [rewrite E1; by left|]. split_and!; [done..|].
  intros a b Hab. rewrite E2 in Hab. rewrite Y2, X1, X2, Y1. apply elem_of_cons in Hab as [[= -> ->]|Hab].
  - by rewrite !decide_True.
  - destruct (HD a b Hab) as (? & ? & ? & ?). rewrite !decide_False by done. split_and!; [done..| |]; apply HP; rewrite E1; by do 2 right.
Qed.

Lemma unlink_links q c1 i c2 h n g :
  length (slots q) = K_NONE → NoDup (c1 ++ i :: c2) → (∀ j, j ∈ c1 ++ i :: c2 → j < K_NONE)%nat →
  qpoints q (cells (c1 ++ i :: c2)) → core q !! i = Some (Some h, n, g) →
  ∃ q', unlinkAndRelease i q = Some q' ∧ released i h g q q' ∧ qpoints q' (cells (c1 ++ c2)).
Proof.
  intros Hlen Hnd Hb HP Hx. destruct (core_inv _ _ _ Hx) as (s & Hs & [= Hh Hn Hg]).
  assert (Hi : i ≠ K_NONE) by (intros ->; specialize (Hb K_NONE ltac:(set_solver)); lia).
  set (q0 := with_bytes (u64 (current_bytes q - estimatedPayloadBytes h)) q).
  destruct (splice_links q0 c1 i c2 (Some h, n, g)) as (q1 & q2 & Eq1 & Eq2 & R1 & R2 & HQ); try done.
  assert (core q1 !! i = Some (Some h, n, g)) as (s1 & Hs1 & Es1)%core_inv by (by rewrite (proj1 R1)).
  assert (core q2 !! i = Some (Some h, n, g)) as (s2 & Hs2 & Es2)%core_inv.
  { rewrite (proj1 R2), (core_lookup _ _ _ Hs1). by rewrite Es1. }
  rewrite (slot_next q0 i s), (slot_prev q0 i s) in Eq1 by done. rewrite (slot_next q1 i s1), (slot_prev q1 i s1) in Eq2 by done.
  unfold HintQueue.unlinkAndRelease. rewrite Hs. cbn [mbind option_bind]. rewrite Hh. cbn [mbind option_bind]. cbv zeta. fold q0.
  change (if decide (sprev s ≠ K_NONE) then _ else _) with (link_next (sprev s) (snext s) q0).
  rewrite Eq1. cbn [mbind option_bind]. rewrite Hs1. cbn [mbind option_bind].
  change (if decide (snext s1 ≠ K_NONE) then _ else _) with (link_prev (snext s1) (sprev s1) q1).
  rewrite Eq2. cbn [mbind option_bind]. rewrite Hs2. cbn [mbind option_bind]. cbv zeta. eexists. split; [done|].
  destruct (relink_trans _ _ _ R1 R2) as [C12 Q12]. assert (generation s2 = g) as -> by (by injection Es2).
  assert (Hfree : free_head q2 = free_head q) by (by rewrite Q12). split; [split|].
  - unfold core at 1. cbn [slots with_size with_free_head with_slots]. rewrite list_fmap_insert.
    change (core_of <$> slots q2) with (core q2). by rewrite C12, Hfree.
  - cbn [slots with_size with_free_head with_slots]. rewrite Q12. by destruct q.
  - intros a b Hab. destruct (HQ a b Hab) as (Ha & Hb' & Hna & Hpb). unfold nextOf, prevOf in *.
    cbn [slots with_size with_free_head with_slots head tail]. by rewrite !list_lookup_insert_ne.
Qed.

(** ** Linking a slot at the tail *)

Lemma cells_push c i :
  NoDup (c ++ [i]) → (∀ j, j ∈ c ++ [i] → j < K_NONE)%nat →
  ∃ p P, cells c ≡ₚ (p, K_NONE) :: P ∧ cells (c ++ [i]) ≡ₚ (p, i) :: (i, K_NONE) :: P ∧
    (p = K_NONE ∨ p < K_NONE)%nat ∧ i ≠ p ∧ ∀ a b, (a, b) ∈ P → a ≠ p ∧ a ≠ i ∧ b ≠ i ∧ b ≠ K_NONE.
Proof.
  intros Hnd Hb. destruct (adj_push K_NONE c i K_NONE) as (p & P & E1 & E2).
  fold (cells c) in E1. fold (cells (c ++ [i])) in E2. exists p, P.
  destruct (cells_nodup _ Hnd) as [N1 N2]; [intros ?%Hb; lia|]. rewrite E2 in N1, N2.
  pose proof (nodup_pairs _ _ _ N1 N2) as HA. rewrite fmap_cons in N1, N2. apply NoDup_cons in N1 as [_ N1], N2 as [_ N2].
  pose proof (nodup_pairs _ _ _ N1 N2) as HB. destruct (HA i K_NONE) as [Hip _]; [by left|]. split_and!; try done.
  - assert (p ∈ (cells (c ++ [i])).*1) as Hp by (rewrite E2; by left). rewrite cells_fst in Hp.
    apply elem_of_cons in Hp as [?|Hp]; [by left|right; by apply Hb].
  - intros a b Hab. destruct (HA a b) as [??]; [by right|]. by destruct (HB a b Hab) as [??].
Qed.

Lemma linkAtTail_as index q :
  index ≠ K_NONE →
  linkAtTail index q =
    (q1 ← link_prev index (prevOf q K_NONE) q; q2 ← link_next index K_NONE q1;
     q3 ← link_next (prevOf q2 K_NONE) index q2; link_prev K_NONE index q3).
Proof.
  intros Hi. unfold linkAtTail, link_prev, link_next, prevOf.
  destruct (decide (index ≠ K_NONE)); [|done].
  destruct (decide (K_NONE = K_NONE)); [|done]. by destruct (decide (K_NONE ≠ K_NONE)).
Qed.

Lemma link_links q c i x :
  length (slots q) = K_NONE → NoDup (c ++ [i]) → (∀ j, j ∈ c ++ [i] → j < K_NONE)%nat →
  qpoints q (cells c) → core q !! i = Some x →
  ∃ q', linkAtTail i q = Some q' ∧ relink q q' ∧ qpoints q' (cells (c ++ [i])).
Proof.
  intros Hlen Hnd Hb HP Hx. destruct (cells_push c i Hnd Hb) as (p & P & E1 & E2 & Hp & Hip & HD).
  assert (Hi : (i < K_NONE)%nat) by (apply Hb; set_solver). rewrite linkAtTail_as by lia.
  destruct (HP p K_NONE) as [_ Ep]; [rewrite E1; by left|]. rewrite Ep.
  destruct (link_prev_spec i p q) as (q1 & -> & R1 & X1 & Y1); [rewrite Hlen; by right|]. cbn [mbind option_bind].
  assert (Hl1 := relink_length _ _ R1). destruct (link_next_spec i K_NONE q1) as (q2 & -> & R2 & X2 & Y2); [right; lia|]. cbn [mbind option_bind].
  rewrite Y2, X1, decide_False, Ep by lia. assert (Hl2 := relink_length _ _ R2).
  destruct (link_next_spec p i q2) as (q3 & -> & R3 & X3 & Y3); [destruct Hp; [by left|right; lia]|]. cbn [mbind option_bind].
  destruct (link_prev_spec K_NONE i q3) as (q4 & -> & R4 & X4 & Y4); [by left|].
  exists q4. split; [done|]. split; [eauto using relink_trans|]. intros a b. rewrite E2, Y4, X3, X2, Y1, X4, Y3, Y2, X1.
  intros [[= -> ->]|[[= -> ->]|Hab]%elem_of_cons]%elem_of_cons.
  - by rewrite decide_True, decide_False, decide_True by (done || lia).
  - by rewrite decide_False, !decide_True by done.
  - destruct (HD a b Hab) as (? & ? & ? & ?). rewrite !decide_False by done. apply HP. rewrite E1. by right.
Qed.

End links.

(** ** The representation *)

Definition indices (es : list (Handle * QueuedHint)) : list nat := (λ e, h_index e.1) <$> es.

Definition slot_key (e : Handle * QueuedHint) : bytes * bytes := (hint_target e.2, key (hint_req e.2)).

Definition first (es : list (Handle * QueuedHint)) : nat :=
  match es with [] => K_NONE | e :: _ => h_index e.1 end.

Section rep.
Context (hint_size : Z).
Local Abbreviation weight := (weight hint_size).
Local Abbreviation total := (total hint_size).

(** The lists threaded through the slots: the queued hints, and the free slots
    [f]. *)
Record shape (q : HintQueue) (es : list (Handle * QueuedHint)) (f : list nat) : Prop := mkShape {
  sh_length : length (slots q) = K_NONE;
  sh_perm : indices es ++ f ≡ₚ seq 0 (next_unused q);
  sh_unused : (next_unused q <= K_NONE)%nat;
  sh_points : qpoints q (cells (indices es));
  sh_entry : ∀ e, e ∈ es → ∃ n, core q !! h_index e.1 = Some (Some e.2, n, h_generation e.1);
  sh_hint : ∀ i h n g, core q !! i = Some (Some h, n, g) → i ∈ indices es;
  sh_free : flist (core q) (free_head q) f;
  sh_size : qsize q = Z.of_nat (length es) }.

(** What is counted, and the bounds that keep the counters from wrapping. *)
Record accounts (q : HintQueue) (a : Fifo) : Prop := mkAccounts {
  ac_bytes : current_bytes q = total (entries a);
  ac_limit : max_bytes q = limit a;
  ac_drops : dropped q = drops a ∧ in_u 64 (drops a);
  ac_weight : ∀ e, e ∈ entries a → in_u 63 (weight e.2);
  ac_total : total (entries a) < 2 ^ 63;
  ac_max : in_u 63 (limit a);
  ac_keys : NoDup (slot_key <$> entries a) }.

(** The generations are no older than the handles given out. *)
Definition history (q : HintQueue) (hs : list Handle) : Prop :=
  (∀ i x n g, core q !! i = Some (x, n, g) → 0 <= g <= Z.of_nat (length hs)) ∧
  (∀ hd, hd ∈ hs → ∃ x n g, core q !! h_index hd = Some (x, n, g) ∧ h_generation hd <= g).

Record rep (q : HintQueue) (a : Fifo) (f : list nat) : Prop := mkRep {
  rp_shape : shape q (entries a) f;
  rp_accounts : accounts q a;
  rp_history : history q (issued a) }.

Lemma queue_total_app l l' : total (l ++ l') = total l + total l'.
Proof. induction l as [|e l IH]; csimpl; lia. Qed.

Lemma total_nonneg l : (∀ e, e ∈ l → in_u 63 (weight e.2)) → 0 <= total l.
Proof.
  induction l as [|e l IH]; intros Hw; simpl; [lia|].
  destruct (Hw e) as [??]; [by left|]. enough (0 <= total l) by lia. apply IH. intros e' He'. apply Hw. by right.
Qed.

Lemma estimated_weight h : in_u 63 (weight h) → estimatedPayloadBytes hint_size h = weight h.
Proof. intros H. apply wrap_small. unfold in_u in *. change (2 ^ 64) with (2 * 2 ^ 63). lia. Qed.

Lemma shape_nodup q es f : shape q es f → NoDup (indices es) ∧ ∀ j, j ∈ indices es → (j < K_NONE)%nat.
Proof.
  intros R. pose proof (NoDup_seq 0 (next_unused q)) as Hnd. rewrite <- (sh_perm _ _ _ R) in Hnd.
  apply NoDup_app in Hnd as (? & _ & _). split; [done|]. intros j Hj.
  assert (j ∈ seq 0 (next_unused q)) as Hs by (rewrite <- (sh_perm _ _ _ R); apply elem_of_app; by left).
  apply elem_of_seq in Hs. pose proof (sh_unused _ _ _ R). lia.
Qed.

Lemma shape_count q es f : shape q es f → (length es + length f = next_unused q)%nat.
Proof.
  intros R. pose proof (Permutation_length (sh_perm _ _ _ R)) as E.
  unfold indices in E. rewrite length_app, length_fmap, length_seq in E. done.
Qed.

Lemma shape_bound q es f : shape q es f → Z.of_nat (length es) <= 1024.
Proof.
  intros R. pose proof (shape_count _ _ _ R). pose proof (sh_unused _ _ _ R). assert (Z.of_nat K_NONE = 1024) by done. lia.
Qed.

Lemma cells_next c1 i c2 n : list.head (c2 ++ [K_NONE]) = Some n → (i, n) ∈ cells (c1 ++ i :: c2).
Proof.
  intros Hn. unfold cells. rewrite <- app_assoc. simpl. rewrite app_comm_cons, adj_app.
  apply elem_of_app. right. destruct (c2 ++ [K_NONE]); [done|]. injection Hn as ->. by left.
Qed.

Lemma first_head es : list.head (indices es ++ [K_NONE]) = Some (first es).
Proof. by destruct es. Qed.

Lemma shape_first q es f : shape q es f → head q = first es.
Proof.
  intros R. destruct (sh_points _ _ _ R K_NONE (first es)) as [<- _]; [|done].
  unfold cells. pose proof (first_head es) as E.
  destruct (indices es ++ [K_NONE]); [done|]. injection E as ->. by left.
Qed.

Lemma indices_app l l' : indices (l ++ l') = indices l ++ indices l'.
Proof. apply fmap_app. Qed.

(** The slot of a queued hint. *)
Lemma shape_at q e1 e e2 f :
  shape q (e1 ++ e :: e2) f →
  h_index e.1 ≠ K_NONE ∧
  ∃ s, slots q !! h_index e.1 = Some s ∧ hint s = Some e.2 ∧ generation s = h_generation e.1 ∧ snext s = first e2.
Proof.
  intros R. destruct (shape_nodup _ _ _ R) as [_ Hb]. rewrite indices_app in Hb.
  assert (h_index e.1 < K_NONE)%nat as Hi by (apply Hb; set_solver).
  split; [lia|]. destruct (sh_entry _ _ _ R e) as (n & (s & Hs & [= Eh En Eg])%core_inv); [set_solver|].
  exists s. split_and!; [done..|]. rewrite <- (slot_next _ _ _ Hs) by lia. apply (sh_points _ _ _ R).
  rewrite indices_app. apply cells_next, first_head.
Qed.

(** ** Releasing the slot of a queued hint *)

Lemma release_shape q q' e1 e e2 f :
  shape q (e1 ++ e :: e2) f → released hint_size (h_index e.1) e.2 (h_generation e.1) q q' →
  qpoints q' (cells (indices (e1 ++ e2))) → shape q' (e1 ++ e2) (h_index e.1 :: f).
Proof.
  intros R [Hcore Hq] HP. destruct (shape_nodup _ _ _ R) as [Hnd Hb]. rewrite indices_app in Hnd, Hb.
  assert (Hi : (h_index e.1 < K_NONE)%nat) by (apply Hb; set_solver).
  assert (Hlen : length (core q) = K_NONE) by (rewrite core_length; apply (sh_length _ _ _ R)).
  assert (Hni : h_index e.1 ∉ indices (e1 ++ e2)).
  { rewrite indices_app. apply NoDup_app in Hnd as (_ & Hd & [Hn2 _]%NoDup_cons).
    rewrite elem_of_app. intros [Hin|Hin]; [|done]. apply (Hd _ Hin). by left. }
  assert (Hold : ∀ j, j ≠ h_index e.1 → core q' !! j = core q !! j) by (intros j Hj; rewrite Hcore; by rewrite list_lookup_insert_ne).
  assert (Hnew : core q' !! h_index e.1 = Some (None, free_head q, h_generation e.1)).
  { rewrite Hcore. apply list_lookup_insert_eq. lia. }
  split; [| | |done| | | |].
  - by rewrite <- core_length, Hcore, length_insert, Hlen.
  - rewrite Hq. cbn [next_unused]. rewrite <- (sh_perm _ _ _ R), !indices_app. cbn [indices fmap list_fmap].
    rewrite <- !app_assoc. by rewrite <- Permutation_middle.
  - rewrite Hq. apply (sh_unused _ _ _ R).
  - intros x Hx. rewrite Hold; [apply (sh_entry _ _ _ R); set_solver|].
    intros Ex. apply Hni. rewrite <- Ex. apply list_elem_of_fmap. eauto.
  - intros j h m g Hj. destruct (decide (j = h_index e.1)) as [->|Hne]; [congruence|]. rewrite Hold in Hj by done.
    apply (sh_hint _ _ _ R) in Hj. rewrite indices_app in *. set_solver.
  - rewrite Hq at 2. cbn [free_head flist]. split_and!; [done|lia|]. do 3 eexists. split; [exact Hnew|].
    eapply flist_ext; [|apply (sh_free _ _ _ R)]. intros j Hj. apply Hold. intros ->.
    pose proof (NoDup_seq 0 (next_unused q)) as Hn. rewrite <- (sh_perm _ _ _ R) in Hn.
    apply NoDup_app in Hn as (_ & Hd & _). apply (Hd (h_index e.1)); [rewrite indices_app; set_solver|done].
  - rewrite Hq. cbn [qsize]. pose proof (shape_bound _ _ _ R) as HL. rewrite (sh_size _ _ _ R).
    rewrite !length_app, length_cons in *. rewrite wrap_small; [lia|]. unfold in_u. lia.
Qed.

Definition with_entries (es : list (Handle * QueuedHint)) (a : Fifo) : Fifo :=
  mkFifo es (limit a) (drops a) (issued a).

Lemma release_accounts q q' a e1 e e2 :
  accounts q a → entries a = e1 ++ e :: e2 → released hint_size (h_index e.1) e.2 (h_generation e.1) q q' →
  accounts q' (with_entries (e1 ++ e2) a).
Proof.
  intros A E [_ Hq]. pose proof (ac_total _ _ A) as HT. pose proof (ac_weight _ _ A) as HW. pose proof (ac_keys _ _ A) as HK.
  rewrite E in HT, HW, HK. assert (Hw : in_u 63 (weight e.2)) by (apply HW; set_solver).
  assert (0 <= total e1) by (apply total_nonneg; intros x Hx; apply HW; set_solver).
  assert (0 <= total e2) by (apply total_nonneg; intros x Hx; apply HW; set_solver).
  rewrite queue_total_app in HT. change (total (e :: e2)) with (weight e.2 + total e2) in HT.
  split; cbn [entries limit drops with_entries].
  - rewrite Hq. cbn [current_bytes]. rewrite (ac_bytes _ _ A), (estimated_weight _ Hw), E, !queue_total_app.
    change (total (e :: e2)) with (weight e.2 + total e2). unfold in_u in Hw.
    rewrite wrap_small; [lia|]. unfold in_u. change (2 ^ 64) with (2 * 2 ^ 63). lia.
  - rewrite Hq. apply (ac_limit _ _ A).
  - rewrite Hq. apply (ac_drops _ _ A).
  - intros x Hx. apply HW. set_solver.
  - rewrite queue_total_app. unfold in_u in Hw. lia.
  - apply (ac_max _ _ A).
  - rewrite fmap_app, fmap_cons, <- Permutation_middle in HK. rewrite fmap_app. by apply NoDup_cons in HK as [_ ?].
Qed.

(** Only the generations matter. *)
Lemma history_ext q q' hs :
  (∀ i, snd <$> core q' !! i = snd <$> core q !! i) → history q hs → history q' hs.
Proof.
  intros HE [H1 H2]. split.
  - intros i x n g Hi. specialize (HE i). rewrite Hi in HE. symmetry in HE. apply fmap_Some in HE as ([[x' n'] g'] & E & [= ->]). eauto.
  - intros hd (x & n & g & E & Hg)%H2. specialize (HE (h_index hd)). rewrite E in HE.
    apply fmap_Some in HE as ([[x' n'] g'] & E' & [= ->]). eauto.
Qed.

Lemma release_rep q a f e1 e e2 :
  rep q a f → entries a = e1 ++ e :: e2 →
  ∃ q', unlinkAndRelease hint_size (h_index e.1) q = Some q' ∧ rep q' (with_entries (e1 ++ e2) a) (h_index e.1 :: f).
Proof.
  intros [R A H] E. rewrite E in R. destruct (shape_nodup _ _ _ R) as [Hnd Hb].
  destruct (sh_entry _ _ _ R e) as (n & Hc); [set_solver|].
  pose proof (sh_points _ _ _ R) as HP. rewrite indices_app in Hnd, Hb, HP.
  destruct (unlink_links hint_size q (indices e1) (h_index e.1) (indices e2) e.2 n (h_generation e.1)) as (q' & Eq & Hq & HP');
    [apply (sh_length _ _ _ R)|done..|].
  exists q'. split; [done|]. split.
  - apply (release_shape q); [done..|]. by rewrite indices_app.
  - by eapply release_accounts.
  - apply (history_ext q); [|done]. intros i. rewrite (proj1 Hq). destruct (decide (i = h_index e.1)) as [->|].
    + rewrite list_lookup_insert_eq, Hc; [done|]. by eapply lookup_lt_Some.
    + by rewrite list_lookup_insert_ne.
Qed.

(** ** [push] *)

Lemma same_slot_key h e : same_slot h e.2 ↔ slot_key e = (hint_target h, key (hint_req h)).
Proof. unfold same_slot, slot_key. split; [by intros [-> ->]|by intros [= -> ->]]. Qed.

Lemma other_slots (e1 e2 : list (Handle * QueuedHint)) e h :
  NoDup (slot_key <$> e1 ++ e :: e2) → same_slot h e.2 → ∀ x, x ∈ e1 ++ e2 → ¬ same_slot h x.2.
Proof.
  rewrite fmap_app, fmap_cons, <- Permutation_middle. intros [Hn _]%NoDup_cons He x Hx Hs.
  apply Hn. rewrite <- fmap_app. apply list_elem_of_fmap. exists x. split; [|done].
  apply same_slot_key in He, Hs. congruence.
Qed.

Lemma coalesce_rep h e2 fuel e1 q a f :
  rep q a f → entries a = e1 ++ e2 → (length e2 <= fuel)%nat → (∀ x, x ∈ e1 → ¬ same_slot h x.2) →
  ∃ b q' f', coalesce hint_size fuel (first e2) h q = Some (b, q') ∧
    ((b = false ∧ q' = q ∧ f' = f ∧ ∃ e, e ∈ e2 ∧ same_slot h e.2 ∧ isNewerThan (hint_req h) (hint_req e.2) = false) ∨
     (b = true ∧ (∀ e, e ∈ e2 → same_slot h e.2 → isNewerThan (hint_req h) (hint_req e.2) = true) ∧
      rep q' (with_entries (e1 ++ filter (λ e, ¬ same_slot h e.2) e2) a) f')).
Proof.
  revert fuel e1. induction e2 as [|e e2 IH]; intros fuel e1 R E Hf He1.
  - exists true, q, f. split; [by destruct fuel|]. right. split_and!; [done|by intros ? ?%not_elem_of_nil|].
    rewrite filter_nil, <- E. by destruct a.
  - destruct fuel as [|fuel]; simpl in Hf; [lia|]. pose proof (rp_shape _ _ _ R) as Sh. rewrite E in Sh.
    destruct (shape_at _ _ _ _ _ Sh) as (Hi & s & Hs & Hh & _ & Hn). simpl. rewrite decide_False, Hs by done.
    cbn [mbind option_bind]. rewrite Hh. cbn [mbind option_bind].
    pose proof (ac_keys _ _ (rp_accounts _ _ _ R)) as HK. rewrite E in HK.
    case_decide as Hsame; fold (same_slot h e.2) in Hsame.
    + pose proof (other_slots _ _ _ _ HK Hsame) as Hoth.
      destruct (isNewerThan _ _) eqn:Hnew; simpl.
      2:{ exists false, q, f. split; [done|]. left. split_and!; [done..|]. exists e. split_and!; [by left|done..]. }
      destruct (release_rep _ _ _ _ _ _ R E) as (q' & -> & R'). simpl. exists true, q', (h_index e.1 :: f).
      split; [done|]. right. split_and!; [done| |].
      * intros x [->|Hx]%elem_of_cons Hx'; [done|]. destruct (Hoth x); [set_solver|done].
      * rewrite filter_cons_False, filter_all_true; [done| |tauto]. intros x Hx. apply Hoth. set_solver.
    + rewrite Hn. destruct (IH fuel (e1 ++ [e])) as (b & q' & f' & Eq & Hcase); [done| |lia| |].
      * by rewrite E, <- app_assoc.
      * intros x [Hx| ->%list_elem_of_singleton]%elem_of_app; [by apply He1|done].
      * exists b, q', f'. split; [done|]. rewrite filter_cons_True by done. rewrite <- app_assoc in Hcase.
        destruct Hcase as [(-> & -> & -> & x & Hx & ?)|(-> & Hx & R')]; [left|right]; split_and!; try done.
        -- exists x. split; [by right|done].
        -- intros x [->|Hx']%elem_of_cons; [done|by apply Hx].
Qed.

Lemma with_dropped_rep q a f n : in_u 64 n → rep q a f → rep (with_dropped n q) (mkFifo (entries a) (limit a) n (issued a)) f.
Proof. intros Hn [Sh A H]. split; [|destruct A|exact H]; [by destruct Sh|by split]. Qed.

Lemma publish_rep q a f : rep q a f → rep (publishMetrics q) a f.
Proof. intros [Sh A H]. split; [by destruct Sh|by destruct A|exact H]. Qed.

Lemma full_iff q a f h :
  rep q a f → weight h <= limit a → in_u 63 (weight h) →
  (qsize q = Z.of_nat K_CAPACITY ∨ max_bytes q < u64 (current_bytes q + weight h)) ↔
  ¬ fits hint_size (limit a) (weight h) (entries a).
Proof.
  intros [Sh A _] Hl Hw. rewrite (sh_size _ _ _ Sh), (ac_bytes _ _ A), (ac_limit _ _ A).
  pose proof (ac_total _ _ A). pose proof (total_nonneg _ (ac_weight _ _ A)). unfold in_u in Hw.
  rewrite wrap_small by (unfold in_u; change (2 ^ 64) with (2 * 2 ^ 63); lia).
  pose proof (shape_bound _ _ _ Sh). assert (Z.of_nat K_CAPACITY = 1024) by done. unfold fits. lia.
Qed.

Lemma evict_rep h es fuel q a f :
  rep q a f → entries a = es → (length es <= fuel)%nat → weight h <= limit a → in_u 63 (weight h) →
  ∃ q' f' kept, kept = trim hint_size (limit a) (weight h) es ∧ evict hint_size fuel (weight h) q = Some q' ∧
    rep q' (mkFifo kept (limit a) (u64 (drops a + (Z.of_nat (length es) - Z.of_nat (length kept)))) (issued a)) f' ∧
    fits hint_size (limit a) (weight h) kept.
Proof.
  revert fuel q a f. induction es as [|e es IH]; intros fuel q a f R E Hf Hl Hw.
  - assert (fits hint_size (limit a) (weight h) []) as Hfit by (split; [apply Nat.lt_0_succ|simpl; lia]).
    exists q, f, []. split_and!; [done| | |done].
    + destruct fuel; simpl; rewrite decide_False; try done; rewrite full_iff by done; rewrite E; tauto.
    + rewrite Z.add_0_r, wrap_small by apply (ac_drops _ _ (rp_accounts _ _ _ R)). rewrite <- E. by destruct a.
  - cbn [trim]. destruct (decide (fits hint_size (limit a) (weight h) (e :: es))) as [Hfit|Hfull].
    + exists q, f, (e :: es). split_and!; [done| | |done].
      * destruct fuel; cbn [evict]; rewrite decide_False; try done; rewrite full_iff by done; rewrite E; tauto.
      * rewrite Z.sub_diag, Z.add_0_r, wrap_small by apply (ac_drops _ _ (rp_accounts _ _ _ R)). rewrite <- E. by destruct a.
    + destruct fuel as [|fuel]; [simpl in Hf; lia|]. cbn [evict].
      rewrite decide_True by (rewrite full_iff by done; by rewrite E).
      rewrite (shape_first _ _ _ (rp_shape _ _ _ R)), E. cbn [first].
      destruct (release_rep _ _ _ [] e es R) as (q' & -> & R'); [done|]. cbn [mbind option_bind].
      destruct (ac_drops _ _ (rp_accounts _ _ _ R)) as [_ Hd].
      destruct (IH fuel (with_dropped (u64 (drops a + 1)) q') (mkFifo es (limit a) (u64 (drops a + 1)) (issued a)) (h_index e.1 :: f))
        as (q2 & f2 & kept & Ek & Eq & R2 & Hfit); [|done|simpl in Hf; lia|done..|].
      { apply (with_dropped_rep _ (with_entries es a)); [|done]. apply wrap_range. lia. }
      exists q2, f2, kept. destruct (ac_drops _ _ (rp_accounts _ _ _ R')) as [-> _]. split_and!; try done.
      replace (u64 (drops a + _)) with (u64 (u64 (drops a + 1) + (Z.of_nat (length es) - Z.of_nat (length kept)))); [done|].
      unfold wrap. rewrite Zplus_mod_idemp_l. f_equal. rewrite length_cons. lia.
Qed.

(** Everything but the slots, the free list and the list ends. *)
Definition fields (q : HintQueue) : Z * Z * Z * Z * Z * option Z * option Z * option Z :=
  (qsize q, current_bytes q, peak_bytes q, max_bytes q, dropped q, entries_metric q, bytes_metric q, bytes_peak_metric q).

Definition same_links (q q' : HintQueue) : Prop := ∀ x, nextOf q' x = nextOf q x ∧ prevOf q' x = prevOf q x.

(** A slot written without its links. *)
Lemma write_slot q i s s' :
  slots q !! i = Some s → sprev s' = sprev s → snext s' = snext s →
  ∀ q', slots q' = <[i := s']> (slots q) → head q' = head q → tail q' = tail q →
  same_links q q' ∧ core q' = <[i := core_of s']> (core q).
Proof.
  intros Hs Ep En q' E Hh Ht. assert (Hi : (i < length (slots q))%nat) by (by eapply lookup_lt_Some). split.
  - intros x. unfold nextOf, prevOf. rewrite E, Hh, Ht, !insert_field, Ep, En by done. by rewrite !(field_id _ _ _ _ _ _ Hs).
  - unfold core. by rewrite E, list_fmap_insert.
Qed.

(** A free slot: taken off the free list, or the first one never used. *)
Record acquired (q q1 : HintQueue) (es : list (Handle * QueuedHint)) (i : nat) (f : list nat) : Prop := mkAcquired {
  aq_slot : ∃ n g, core q1 !! i = Some (None, n, g) ∧ snd <$> core q !! i = Some g;
  aq_others : ∀ j, j ≠ i → core q1 !! j = core q !! j;
  aq_perm : (indices es ++ [i]) ++ f ≡ₚ seq 0 (next_unused q1);
  aq_unused : (next_unused q1 <= K_NONE)%nat;
  aq_free : flist (core q1) (free_head q1) f;
  aq_links : same_links q q1;
  aq_fields : fields q1 = fields q;
  aq_length : length (slots q1) = K_NONE }.

Lemma no_hint q es f i :
  shape q es f → (i < K_NONE)%nat → i ∉ indices es → ∃ s, slots q !! i = Some s ∧ hint s = None.
Proof.
  intros Sh Hi Hn. destruct (lookup_lt_is_Some_2 (slots q) i) as [s Hs]; [by rewrite (sh_length _ _ _ Sh)|].
  exists s. split; [done|]. destruct (hint s) as [h|] eqn:Hh; [|done]. destruct Hn.
  apply (sh_hint _ _ _ Sh i h (free_next s) (generation s)). rewrite (core_lookup _ _ _ Hs). unfold core_of. by rewrite Hh.
Qed.

Lemma shape_disjoint q es f j : shape q es f → j ∈ f → j ∉ indices es ∧ (j < next_unused q)%nat.
Proof.
  intros Sh Hj. pose proof (NoDup_seq 0 (next_unused q)) as Hn. rewrite <- (sh_perm _ _ _ Sh) in Hn.
  apply NoDup_app in Hn as (_ & Hd & _). split; [intros Hin; by apply (Hd j)|].
  assert (j ∈ seq 0 (next_unused q)) as Hs by (rewrite <- (sh_perm _ _ _ Sh); set_solver). apply elem_of_seq in Hs. lia.
Qed.

Lemma acquire_spec q es f :
  shape q es f → (length es < K_CAPACITY)%nat → ∃ i q1 f', acquireSlot q = Some (i, q1) ∧ acquired q q1 es i f'.
Proof.
  intros Sh Hl. pose proof (sh_free _ _ _ Sh) as Hfree. pose proof (sh_unused _ _ _ Sh) as Hu. unfold acquireSlot. destruct f as [|i f].
  - simpl in Hfree. rewrite decide_False by tauto. exists (next_unused q), (with_next_unused (S (next_unused q)) q), [].
    split; [done|]. pose proof (shape_count _ _ _ Sh) as Hc. simpl in Hc. assert (Hi : (next_unused q < K_NONE)%nat) by (unfold K_NONE; lia).
    destruct (no_hint _ _ _ (next_unused q) Sh Hi) as (s & Hs & Hh).
    { intros Hin. assert (next_unused q ∈ seq 0 (next_unused q)) as ?%elem_of_seq; [|lia]. rewrite <- (sh_perm _ _ _ Sh). set_solver. }
    split; try done.
    + exists (free_next s), (generation s). change (core _) with (core q). rewrite (core_lookup _ _ _ Hs). split; [|done]. unfold core_of. by rewrite Hh.
    + pose proof (sh_perm _ _ _ Sh) as HP. rewrite app_nil_r in *. cbn [next_unused with_next_unused]. rewrite seq_S, HP. done.
    + apply (sh_length _ _ _ Sh).
  - destruct Hfree as (Efree & Hni & x & n & g & Hx & Hf). rewrite decide_True by congruence. rewrite Efree.
    destruct (shape_disjoint _ _ _ i Sh) as [Hdis Hlt]; [by left|].
    destruct (no_hint _ _ _ i Sh) as (s & Hs & Hh); [lia|done|]. rewrite Hs. cbn [mbind option_bind].
    eexists i, _, f. split; [done|]. rewrite (core_lookup _ _ _ Hs) in Hx. injection Hx as <- <- <-.
    destruct (write_slot q i s (mkSlot (hint s) (sprev s) (snext s) K_NONE (generation s)) Hs eq_refl eq_refl
      (with_slots (<[i := mkSlot (hint s) (sprev s) (snext s) K_NONE (generation s)]> (slots q)) (with_free_head (free_next s) q)) eq_refl eq_refl eq_refl) as [HL HC].
    assert (Hi : (i < length (core q))%nat) by (rewrite core_length; by eapply lookup_lt_Some).
    split; try done.
    + exists K_NONE, (generation s). rewrite HC, list_lookup_insert_eq, (core_lookup _ _ _ Hs) by done. unfold core_of. simpl. by rewrite Hh.
    + intros j Hj. by rewrite HC, list_lookup_insert_ne.
    + cbn [next_unused with_slots with_free_head]. rewrite <- (sh_perm _ _ _ Sh), <- app_assoc. done.
    + cbn [free_head with_slots with_free_head]. eapply flist_ext; [|exact Hf]. intros j Hj. rewrite HC, list_lookup_insert_ne; [done|].
      intros ->. pose proof (NoDup_seq 0 (next_unused q)) as Hn. rewrite <- (sh_perm _ _ _ Sh) in Hn.
      apply NoDup_app in Hn as (_ & _ & [Hn _]%NoDup_cons). done.
    + cbn [slots with_slots with_free_head]. rewrite length_insert. apply (sh_length _ _ _ Sh).
Qed.

(** The hint [h] written to the acquired slot [i] with generation [g], and the
    slot linked. *)
Record enqueued (q q' : HintQueue) (i : nat) (h : QueuedHint) (n : nat) (g : Z) : Prop := mkEnqueued {
  eq_core : core q' = <[i := (Some h, n, g)]> (core q);
  eq_unused : next_unused q' = next_unused q;
  eq_free : free_head q' = free_head q;
  eq_fields : fields (publishMetrics (with_size (u64 (qsize q + 1)) (with_bytes (u64 (current_bytes q + estimatedPayloadBytes hint_size h)) q))) = fields q' }.

Lemma enqueue_spec q es f h :
  shape q es f → (length es < K_CAPACITY)%nat →
  ∃ i q1 f1 n g q', acquired q q1 es i f1 ∧ core q1 !! i = Some (None, n, g) ∧ enqueue hint_size h q = Some q' ∧
    enqueued q1 q' i h n (u64 (g + 1)) ∧ qpoints q' (cells (indices es ++ [i])).
Proof.
  intros Sh Hl. destruct (acquire_spec _ _ _ Sh Hl) as (i & q1 & f1 & Ea & Q). exists i, q1, f1.
  destruct (aq_slot _ _ _ _ _ Q) as (n & g & Hc & Hg). exists n, g. destruct (core_inv _ _ _ Hc) as (s & Hs & [= Hh En Eg]).
  unfold enqueue. rewrite Ea. cbn [mbind option_bind]. rewrite Hs. cbn [mbind option_bind]. cbv zeta.
  set (s' := mkSlot (Some h) (sprev s) (snext s) (free_next s) (u64 (generation s + 1))).
  set (qb := with_bytes (u64 (current_bytes q1 + estimatedPayloadBytes hint_size h)) q1).
  set (q2 := with_slots (<[i := s']> (slots qb)) qb).
  destruct (write_slot q1 i s s' Hs eq_refl eq_refl q2 eq_refl eq_refl eq_refl) as [HL HC].
  pose proof (NoDup_seq 0 (next_unused q1)) as Hnd. rewrite <- (aq_perm _ _ _ _ _ Q) in Hnd. apply NoDup_app in Hnd as (Hnd & _ & _).
  destruct (link_links q2 (indices es) i (core_of s')) as (q3 & -> & [C3 Q3] & HP3).
  - cbn [slots q2 qb with_slots with_bytes]. rewrite length_insert. apply (aq_length _ _ _ _ _ Q).
  - done.
  - intros j Hj. assert (j ∈ seq 0 (next_unused q1)) as Hin by (rewrite <- (aq_perm _ _ _ _ _ Q); set_solver).
    apply elem_of_seq in Hin. pose proof (aq_unused _ _ _ _ _ Q). lia.
  - intros x y Hxy. destruct (HL x) as [-> _], (HL y) as [_ ->]. destruct (aq_links _ _ _ _ _ Q x) as [-> _], (aq_links _ _ _ _ _ Q y) as [_ ->].
    by apply (sh_points _ _ _ Sh).
  - rewrite HC. apply list_lookup_insert_eq. by eapply lookup_lt_Some.
  - cbn [mbind option_bind]. eexists. split_and!; [done..| |exact HP3].
    unfold core_of in HC. cbn [hint free_next generation s'] in HC. rewrite En, Eg in HC.
    split; [change (core q3 = <[i:=(Some h, n, u64 (g + 1))]> (core q1)); congruence|rewrite Q3; done..].
Qed.

Lemma enqueue_shape q q1 q' es f f1 i h n g x0 :
  shape q es f → acquired q q1 es i f1 → core q1 !! i = Some x0 → enqueued q1 q' i h n g →
  qpoints q' (cells (indices es ++ [i])) → (length es < K_CAPACITY)%nat →
  ∀ hd, hd = mkHandle i g → shape q' (es ++ [(hd, h)]) f1.
Proof.
  intros Sh Q Hc EQ HP Hl hd ->. pose proof (NoDup_seq 0 (next_unused q1)) as Hnd. rewrite <- (aq_perm _ _ _ _ _ Q) in Hnd.
  apply NoDup_app in Hnd as (Hnd & Hd & _). apply NoDup_app in Hnd as (_ & Hi & _).
  assert (Hi' : i ∉ indices es) by (intros Hin; apply (Hi i Hin); by left).
  assert (Hold : ∀ j, j ≠ i → core q' !! j = core q !! j).
  { intros j Hj. rewrite (eq_core _ _ _ _ _ _ EQ), list_lookup_insert_ne by done. by apply (aq_others _ _ _ _ _ Q). }
  assert (Hnew : core q' !! i = Some (Some h, n, g)).
  { rewrite (eq_core _ _ _ _ _ _ EQ). apply list_lookup_insert_eq. by eapply lookup_lt_Some. }
  split.
  - rewrite <- core_length, (eq_core _ _ _ _ _ _ EQ), length_insert, core_length. apply (aq_length _ _ _ _ _ Q).
  - rewrite indices_app, (eq_unused _ _ _ _ _ _ EQ). apply (aq_perm _ _ _ _ _ Q).
  - rewrite (eq_unused _ _ _ _ _ _ EQ). apply (aq_unused _ _ _ _ _ Q).
  - by rewrite indices_app.
  - intros e [He| ->%list_elem_of_singleton]%elem_of_app; [|eauto]. rewrite Hold; [by apply (sh_entry _ _ _ Sh)|].
    intros <-. apply Hi'. apply list_elem_of_fmap. eauto.
  - intros j x m k Hj. rewrite indices_app. destruct (decide (j = i)) as [->|Hne]; [set_solver|].
    rewrite Hold in Hj by done. apply (sh_hint _ _ _ Sh) in Hj. set_solver.
  - rewrite (eq_free _ _ _ _ _ _ EQ). eapply flist_ext; [|apply (aq_free _ _ _ _ _ Q)]. intros j Hj.
    rewrite (eq_core _ _ _ _ _ _ EQ), list_lookup_insert_ne; [done|]. intros ->. apply (Hd j); [set_solver|done].
  - pose proof (eq_fields _ _ _ _ _ _ EQ) as [= <- _ _ _ _ _ _ _]. cbn [qsize]. pose proof (aq_fields _ _ _ _ _ Q) as [= -> _ _ _ _ _ _ _].
    rewrite (sh_size _ _ _ Sh), length_app. simpl. pose proof (shape_bound _ _ _ Sh). rewrite wrap_small; [lia|]. unfold in_u. lia.
Qed.

Lemma enqueue_accounts q q1 q' a f1 i h n g hd :
  accounts q a → acquired q q1 (entries a) i f1 → enqueued q1 q' i h n g →
  fits hint_size (limit a) (weight h) (entries a) → in_u 63 (weight h) → (∀ e, e ∈ entries a → ¬ same_slot h e.2) →
  accounts q' (mkFifo (entries a ++ [(hd, h)]) (limit a) (drops a) (hd :: issued a)).
Proof.
  intros A Q EQ [_ Hfit] Hw Hoth. pose proof (eq_fields _ _ _ _ _ _ EQ) as [= _ Eb _ Em Ed _ _ _].
  pose proof (aq_fields _ _ _ _ _ Q) as [= _ Eb1 _ Em1 Ed1 _ _ _].
  pose proof (ac_max _ _ A) as [??]. pose proof (total_nonneg _ (ac_weight _ _ A)). pose proof Hw as [??].
  split; cbn [entries limit drops].
  - rewrite <- Eb. cbn [current_bytes]. rewrite Eb1, (ac_bytes _ _ A), (estimated_weight _ Hw), queue_total_app. simpl.
    rewrite wrap_small; [lia|]. unfold in_u. change (2 ^ 64) with (2 * 2 ^ 63). lia.
  - rewrite <- Em. cbn [max_bytes]. rewrite Em1. apply (ac_limit _ _ A).
  - rewrite <- Ed. cbn [dropped]. rewrite Ed1. apply (ac_drops _ _ A).
  - intros e [He| ->%list_elem_of_singleton]%elem_of_app; [by apply (ac_weight _ _ A)|done].
  - rewrite queue_total_app. simpl. lia.
  - apply (ac_max _ _ A).
  - rewrite fmap_app. apply NoDup_app. split_and!; [apply (ac_keys _ _ A)| |apply NoDup_singleton].
    intros k (e & -> & He)%list_elem_of_fmap Hk%list_elem_of_singleton. apply (Hoth e He), same_slot_key. done.
Qed.

Lemma enqueue_rep q a f h :
  rep q a f → fits hint_size (limit a) (weight h) (entries a) → in_u 63 (weight h) →
  (∀ e, e ∈ entries a → ¬ same_slot h e.2) → Z.of_nat (length (issued a)) + 1 < 2 ^ 64 →
  ∃ hd q' f', hd ∉ issued a ∧ enqueue hint_size h q = Some q' ∧
    rep q' (mkFifo (entries a ++ [(hd, h)]) (limit a) (drops a) (hd :: issued a)) f'.
Proof.
  intros [Sh A [H1 H2]] Hfit Hw Hoth Hiss.
  destruct (enqueue_spec _ _ _ h Sh (proj1 Hfit)) as (i & q1 & f1 & n & g & q' & Q & Hc & Eq & EQ & HP).
  destruct (aq_slot _ _ _ _ _ Q) as (n' & g' & Hc' & Hg). rewrite Hc in Hc'. injection Hc' as <- <-.
  apply fmap_Some in Hg as ([[x m] k] & Hci & ->). simpl in *. destruct (H1 _ _ _ _ Hci) as [Hk0 Hk1].
  rewrite wrap_small in EQ by (unfold in_u; lia). exists (mkHandle i (k + 1)), q', f1. split_and!; [|done|split].
  - intros (y & m' & k' & Hy & Hle)%H2. simpl in *. rewrite Hci in Hy. injection Hy as <- <- <-. lia.
  - cbn [entries]. by eapply enqueue_shape; try apply Hfit.
  - by eapply enqueue_accounts.
  - assert (Hcore : ∀ j, core q' !! j = if decide (j = i) then Some (Some h, n, k + 1) else core q !! j).
    { intros j. rewrite (eq_core _ _ _ _ _ _ EQ). case_decide as Ej; [subst j; apply list_lookup_insert_eq; by eapply lookup_lt_Some|].
      rewrite list_lookup_insert_ne by done. by apply (aq_others _ _ _ _ _ Q). }
    cbn [issued]. split.
    + intros j y m' k'. rewrite Hcore, length_cons. case_decide; [intros [= <- <- <-]; lia|intros Hy%H1; lia].
    + intros hd [->|(y & m' & k' & Hy & Hle)%H2]%elem_of_cons; rewrite Hcore; simpl.
      * rewrite decide_True by done. do 3 eexists. split; [done|lia].
      * case_decide as Ej; [|eauto 6]. rewrite Ej, Hci in Hy. injection Hy as <- <- <-. do 3 eexists. split; [done|lia].
Qed.

Lemma trim_sub max n l e : e ∈ trim hint_size max n l → e ∈ l.
Proof. induction l as [|x l IH]; cbn [trim]; [done|]. case_decide; [done|]. intros. right. auto. Qed.

Lemma shape_capacity q es f : shape q es f → (length es <= K_CAPACITY)%nat.
Proof. intros Sh. pose proof (shape_count _ _ _ Sh). pose proof (sh_unused _ _ _ Sh). unfold K_NONE in *. lia. Qed.

Lemma coalesce_all q a f h :
  rep q a f →
  ∃ b q1 f1, (if decide (0 < qsize q) then coalesce hint_size K_CAPACITY (HintQueue.head q) h q else Some (true, q)) = Some (b, q1) ∧
    ((b = false ∧ q1 = q ∧ ∃ e, e ∈ entries a ∧ same_slot h e.2 ∧ isNewerThan (hint_req h) (hint_req e.2) = false) ∨
     (b = true ∧ (∀ e, e ∈ entries a → same_slot h e.2 → isNewerThan (hint_req h) (hint_req e.2) = true) ∧
      rep q1 (with_entries (filter (λ e, ¬ same_slot h e.2) (entries a)) a) f1)).
Proof.
  intros R. rewrite (sh_size _ _ _ (rp_shape _ _ _ R)). case_decide as Hsz.
  - rewrite (shape_first _ _ _ (rp_shape _ _ _ R)).
    destruct (coalesce_rep h (entries a) K_CAPACITY [] q a f) as (b & q1 & f1 & Eq & Hb); try done.
    + apply (shape_capacity _ _ _ (rp_shape _ _ _ R)).
    + by intros ? ?%not_elem_of_nil.
    + exists b, q1, f1. split; [done|]. destruct Hb as [(? & ? & _ & ?)|?]; [by left|by right].
  - exists true, q, f. split; [done|]. right. destruct (entries a) as [|e es] eqn:Ee; [|simpl in Hsz; lia].
    split_and!; [done|by intros ? ?%not_elem_of_nil|]. rewrite filter_nil, <- Ee. by destruct a.
Qed.

Lemma push_sim q a f h :
  rep q a f → in_u 63 (weight h) → Z.of_nat (length (issued a)) + 1 < 2 ^ 64 →
  ∃ b q' a' f', push hint_size h q = Some (b, q') ∧ fifo_step hint_size (Push h) (Pushed b) a a' ∧ rep q' a' f' ∧
    (length (issued a') <= S (length (issued a)))%nat.
Proof.
  intros R Hw Hiss. unfold push. rewrite (estimated_weight _ Hw). pose proof (rp_accounts _ _ _ R) as A.
  rewrite (ac_limit _ _ A). case_decide as Hbig.
  { do 2 eexists. exists (mkFifo (entries a) (limit a) (u64 (drops a + 1)) (issued a)), f. split_and!; [done|by constructor| |cbn; lia].
    destruct (ac_drops _ _ A) as [-> _]. apply publish_rep, with_dropped_rep; [apply wrap_range; lia|done]. }
  destruct (coalesce_all q a f h R) as (b & q1 & f1 & -> & Hb). cbn [mbind option_bind].
  destruct Hb as [(-> & -> & [hd x] & He & Hs & Hn)|(-> & Hnew & R1)]; cbn [negb].
  { exists false, q, a, f. split_and!; [done|econstructor; (done || lia)|done|lia]. }
  destruct (evict_rep h (filter (λ e, ¬ same_slot h e.2) (entries a)) K_CAPACITY _ _ _ R1) as (q2 & f2 & kept & Ek & -> & R2 & Hfit).
  { done. }
  { apply (shape_capacity _ _ _ (rp_shape _ _ _ R1)). }
  { cbn [with_entries limit]. lia. }
  { done. }
  cbn [mbind option_bind]. destruct (enqueue_rep _ _ _ h R2 Hfit Hw) as (hd & q3 & f3 & Hfresh & -> & R3); [|done|].
  { intros e He. cbn [entries] in He. rewrite Ek in He. apply trim_sub, list_elem_of_filter in He. tauto. }
  cbn [mbind option_bind]. exists true, q3. eexists. exists f3. split_and!; [done| |exact R3|cbn; lia].
  eapply (fifo_push _ h hd a _ kept); [lia|exact Hnew|exact Hfresh|reflexivity|exact Ek].
Qed.

(** ** [snapshot] and the removals *)

Lemma scan_rep now e2 fuel e1 n live q a f :
  rep q a f → entries a = e1 ++ e2 → (length e2 <= fuel)%nat → (length live <= n)%nat →
  ∃ q' f', scan hint_size fuel (first e2) now n live q =
      Some (live ++ ((λ e, mkSnap e.2 e.1) <$> (sweep now (n - length live) e2).1), q') ∧
    rep q' (with_entries (e1 ++ (sweep now (n - length live) e2).2) a) f'.
Proof.
  revert fuel e1 live q a f. induction e2 as [|e e2 IH]; intros fuel e1 live q a f R E Hf Hn.
  - exists q, f. split; [|by destruct (n - length live)%nat; cbn [sweep snd]; rewrite <- E; destruct a].
    assert (scan hint_size fuel (first []) now n live q = Some (live, q)) as ->.
    { by destruct fuel; cbn [scan first]; rewrite decide_False by (intros [? _]; done). }
    by destruct (n - length live)%nat; rewrite app_nil_r.
  - destruct (decide (length live < n)%nat) as [Hlt|Hge].
    2:{ exists q, f. replace (n - length live)%nat with O by lia. cbn [sweep fst snd fmap list_fmap]. rewrite app_nil_r, <- E.
        split; [|by destruct a]. destruct fuel; cbn [scan]; rewrite decide_False; try done; tauto. }
    destruct fuel as [|fuel]; [simpl in Hf; lia|]. pose proof (rp_shape _ _ _ R) as Sh. rewrite E in Sh.
    destruct (shape_at _ _ _ _ _ Sh) as (Hi & s & Hs & Hh & Hg & Hx). cbn [scan first].
    rewrite decide_True, Hs by done. cbn [mbind option_bind]. rewrite Hh, Hx, Hg. cbn [mbind option_bind].
    destruct (n - length live)%nat as [|k] eqn:Ek; [lia|]. cbn [sweep]. case_decide as Hexp.
    + destruct (release_rep _ _ _ _ _ _ R E) as (q1 & -> & R1). cbn [mbind option_bind].
      destruct (IH fuel e1 live q1 _ _ R1) as (q' & f' & Eq & R'); [done|simpl in Hf; lia|lia|]. rewrite Ek in Eq, R'. eauto.
    + destruct (IH fuel (e1 ++ [e]) (live ++ [mkSnap e.2 (mkHandle (h_index e.1) (h_generation e.1))]) q a f R) as (q' & f' & Eq & R').
      { by rewrite E, <- app_assoc. } { simpl in Hf; lia. } { rewrite length_app. simpl. lia. }
      exists q', f'. rewrite length_app in Eq, R'. cbn [length] in Eq, R'. replace (n - (length live + 1))%nat with k in Eq, R' by lia.
      destruct (sweep now k e2) as [lv rest]. cbn [fst snd] in *. rewrite <- !app_assoc in *. split; [|done].
      rewrite Eq. by destruct e as [[] ?].
Qed.

Lemma snapshot_sim q a f now n :
  rep q a f →
  ∃ live q' f', snapshot hint_size now n q = Some (live, q') ∧
    (λ e, (snap_handle e, snap_hint e)) <$> live = (sweep now n (entries a)).1 ∧
    rep q' (with_entries (sweep now n (entries a)).2 a) f'.
Proof.
  intros R. unfold snapshot. rewrite (shape_first _ _ _ (rp_shape _ _ _ R)).
  destruct (scan_rep now (entries a) K_CAPACITY [] n [] q a f R) as (q' & f' & -> & R');
    [done|apply (shape_capacity _ _ _ (rp_shape _ _ _ R))|cbn; lia|].
  cbn [mbind option_bind]. do 2 eexists. exists f'. split; [done|]. cbn [length] in *. rewrite Nat.sub_0_r in *. split.
  - cbn [app]. rewrite <- list_fmap_compose. rewrite <- (list_fmap_id (sweep now n (entries a)).1) at 2.
    apply list_fmap_ext. by intros ? [] ?.
  - by apply publish_rep.
Qed.

Lemma removeHandle_sim q a f hd :
  rep q a f →
  ∃ q' f', removeHandle hint_size hd q = Some q' ∧ rep q' (with_entries (filter (λ e, e.1 ≠ hd) (entries a)) a) f'.
Proof.
  intros R. pose proof (rp_shape _ _ _ R) as Sh. unfold removeHandle.
  assert (Hid : (∀ e, e ∈ entries a → e.1 ≠ hd) → rep q (with_entries (filter (λ e, e.1 ≠ hd) (entries a)) a) f).
  { intros Hne. rewrite filter_all_true by done. by destruct a. }
  case_decide as Hbig.
  { exists q, f. split; [done|]. apply Hid. intros e He <-. destruct (shape_nodup _ _ _ Sh) as [_ Hb].
    assert (h_index e.1 < K_NONE)%nat; [|unfold K_NONE in *; lia]. apply Hb, list_elem_of_fmap. eauto. }
  destruct (lookup_lt_is_Some_2 (slots q) (h_index hd)) as [s Hs]; [rewrite (sh_length _ _ _ Sh); unfold K_NONE; lia|].
  rewrite Hs. cbn [mbind option_bind]. case_decide as Hno.
  { exists q, f. split; [done|]. apply Hid. intros e He <-. destruct (sh_entry _ _ _ Sh e He) as (n & Hc).
    rewrite (core_lookup _ _ _ Hs) in Hc. injection Hc as ? ? ?. destruct Hno; congruence. }
  apply Decidable.not_or in Hno as [Hh Hg]. apply dec_stable in Hg.
  destruct (hint s) as [h|] eqn:Eh; [clear Hh|done].
  assert (Hin : h_index hd ∈ indices (entries a)).
  { apply (sh_hint _ _ _ Sh _ h (free_next s) (generation s)). rewrite (core_lookup _ _ _ Hs). unfold core_of. by rewrite Eh. }
  apply list_elem_of_fmap in Hin as (e & Ei & He). destruct (sh_entry _ _ _ Sh e He) as (n & Hc).
  rewrite <- Ei, (core_lookup _ _ _ Hs) in Hc. injection Hc as _ _ Ege.
  assert (Ehd : e.1 = hd) by (destruct e as [[] ?], hd; simpl in *; congruence).
  apply list_elem_of_split in He as (e1 & e2 & E). destruct (release_rep _ _ _ _ _ _ R E) as (q' & Eq & R').
  rewrite Ei, Eq. cbn [mbind option_bind]. exists (publishMetrics q'), (h_index e.1 :: f). split; [done|].
  apply publish_rep. replace (filter _ (entries a)) with (e1 ++ e2); [done|].
  destruct (shape_nodup _ _ _ Sh) as [Hnd _]. rewrite E, indices_app in Hnd. cbn [indices fmap list_fmap] in Hnd.
  rewrite <- Permutation_middle in Hnd. apply NoDup_cons in Hnd as [Hnd _].
  assert (Hne : ∀ x, x ∈ e1 ++ e2 → x.1 ≠ hd).
  { intros x Hx <-. apply Hnd. rewrite <- indices_app, Ehd. apply list_elem_of_fmap. eauto. }
  rewrite E, filter_app, filter_cons_False by tauto.
  rewrite !filter_all_true; [done|intros x Hx; apply Hne; set_solver..].
Qed.

Lemma names_same t r h x : names_hint t r h → names_hint t r x → same_slot h x.
Proof. unfold names_hint, same_slot. intros (-> & -> & _) (-> & -> & _). done. Qed.

Lemma removeFrom_rep t r e2 fuel e1 q a f :
  rep q a f → entries a = e1 ++ e2 → (length e2 <= fuel)%nat → (∀ x, x ∈ e1 → ¬ names_hint t r x.2) →
  ∃ q' f', removeFrom hint_size fuel (first e2) t r q = Some q' ∧
    rep q' (with_entries (filter (λ e, ¬ names_hint t r e.2) (entries a)) a) f'.
Proof.
  revert fuel e1. induction e2 as [|e e2 IH]; intros fuel e1 R E Hf He1.
  - exists q, f. split; [by destruct fuel|]. rewrite app_nil_r in E. rewrite filter_all_true by (by rewrite E). by destruct a.
  - destruct fuel as [|fuel]; simpl in Hf; [lia|]. pose proof (rp_shape _ _ _ R) as Sh. rewrite E in Sh.
    destruct (shape_at _ _ _ _ _ Sh) as (Hi & s & Hs & Hh & _ & Hn). cbn [removeFrom first]. rewrite decide_False, Hs by done.
    cbn [mbind option_bind]. rewrite Hh. cbn [mbind option_bind]. rewrite Hn.
    case_decide as Hm; fold (names_hint t r e.2) in Hm.
    + destruct (release_rep _ _ _ _ _ _ R E) as (q' & -> & R'). cbn [mbind option_bind]. do 2 eexists. split; [done|].
      apply publish_rep. replace (filter _ (entries a)) with (e1 ++ e2); [exact R'|].
      pose proof (ac_keys _ _ (rp_accounts _ _ _ R)) as HK. rewrite E in HK.
      assert (Hne : ∀ x, x ∈ e1 ++ e2 → ¬ names_hint t r x.2).
      { intros x Hx Hx'. apply (other_slots e1 e2 e e.2 HK (conj eq_refl eq_refl) x Hx). by eapply names_same. }
      rewrite E, filter_app, filter_cons_False by tauto.
      rewrite !filter_all_true; [done|intros x Hx; apply Hne; set_solver..].
    + apply (IH fuel (e1 ++ [e])); [done|by rewrite E, <- app_assoc|lia|].
      intros x [Hx| ->%list_elem_of_singleton]%elem_of_app; [by apply He1|done].
Qed.

(** ** Sequences of calls *)

Definition op_ok (op : QueueOp) : Prop :=
  match op with Push h => in_u 63 (weight h) | SetMaxBytes n => in_u 63 n | _ => True end.

Lemma step_sim op q a f :
  rep q a f → op_ok op → Z.of_nat (length (issued a)) + 1 < 2 ^ 64 →
  ∃ o q' a' f', queue_step hint_size op q = Some (o, q') ∧ fifo_step hint_size op o a a' ∧ rep q' a' f' ∧
    (length (issued a') <= S (length (issued a)))%nat.
Proof.
  intros R Hok Hiss. destruct op as [h|now n|hd|t r|n|e b p]; cbn [queue_step].
  - destruct (push_sim q a f h R Hok Hiss) as (b & q' & a' & f' & -> & Hs & R' & Hl). cbn [mbind option_bind]. eauto 8.
  - destruct (snapshot_sim q a f now n R) as (live & q' & f' & -> & El & R'). cbn [mbind option_bind]. rewrite El.
    do 3 eexists. exists f'. split_and!; [done|constructor|done|cbn; lia].
  - destruct (removeHandle_sim q a f hd R) as (q' & f' & -> & R'). cbn [mbind option_bind].
    do 3 eexists. exists f'. split_and!; [done|constructor|done|cbn; lia].
  - unfold removeRequest. rewrite (shape_first _ _ _ (rp_shape _ _ _ R)).
    destruct (removeFrom_rep t r (entries a) K_CAPACITY [] q a f R) as (q' & f' & -> & R');
      [done|apply (shape_capacity _ _ _ (rp_shape _ _ _ R))|by intros ? ?%not_elem_of_nil|].
    cbn [mbind option_bind]. do 3 eexists. exists f'. split_and!; [done|constructor|done|cbn; lia].
  - do 3 eexists. exists f. split_and!; [done|constructor| |cbn; lia].
    destruct R as [Sh A H]. split; [by destruct Sh|by destruct A|exact H].
  - do 3 eexists. exists f. split_and!; [done|constructor| |cbn; lia].
    apply publish_rep. destruct R as [Sh A H]. split; [by destruct Sh|by destruct A|exact H].
Qed.

Lemma run_sim ops q a f :
  rep q a f → Forall op_ok ops → Z.of_nat (length (issued a)) + Z.of_nat (length ops) < 2 ^ 64 →
  ∃ os q' a' f', queue_run hint_size ops q = Some (os, q') ∧ fifo_run hint_size ops os a a' ∧ rep q' a' f'.
Proof.
  revert q a f. induction ops as [|op ops IH]; intros q a f R Hok Hl.
  - exists [], q, a, f. split_and!; [done|constructor|done].
  - apply Forall_cons in Hok as [Ho Hok]. rewrite length_cons in Hl.
    destruct (step_sim op q a f R Ho) as (o & q1 & a1 & f1 & Eq & Hs & R1 & Hl1); [lia|].
    destruct (IH q1 a1 f1 R1 Hok) as (os & q2 & a2 & f2 & Eq2 & Hr & R2); [lia|].
    cbn [queue_run]. rewrite Eq. cbn [mbind option_bind]. rewrite Eq2. cbn [mbind option_bind].
    exists (o :: os), q2, a2, f2. split_and!; [done|by econstructor|done].
Qed.

Lemma queue_run_app ops1 ops2 q :
  queue_run hint_size (ops1 ++ ops2) q =
    ('(os1, q) ← queue_run hint_size ops1 q; '(os2, q) ← queue_run hint_size ops2 q; Some (os1 ++ os2, q)).
Proof.
  revert q. induction ops1 as [|op ops1 IH]; intros q; cbn [app queue_run].
  - cbn [mbind option_bind]. by destruct (queue_run hint_size ops2 q) as [[]|].
  - destruct (queue_step hint_size op q) as [[o q1]|]; [|done]. cbn [mbind option_bind]. rewrite IH.
    destruct (queue_run hint_size ops1 q1) as [[os q2]|]; [|done]. cbn [mbind option_bind].
    by destruct (queue_run hint_size ops2 q2) as [[]|].
Qed.

Lemma empty_rep : rep emptyQueue emptyFifo [].
Proof.
  assert (Hcore : ∀ i x, core emptyQueue !! i = Some x → x = (None, K_NONE, 0)).
  { intros i x (s & [-> _]%lookup_replicate & <-)%core_inv. done. }
  split; [split|split|split]; cbn [entries limit drops issued emptyFifo emptyQueue slots next_unused]; try done.
  - apply Nat.le_0_l.
  - intros a b Hab. apply list_elem_of_singleton in Hab as [= -> ->]. done.
  - by intros e ?%not_elem_of_nil.
  - intros i h n g Hi%Hcore. done.
  - by intros e ?%not_elem_of_nil.
  - constructor.
  - intros i x n g [= -> -> ->]%Hcore. done.
  - by intros e ?%not_elem_of_nil.
Qed.

End rep.

(** C11: the hint queue implements a bounded first-in first-out list.  From the
    empty queue, any sequence of fewer than 2^64 calls of [push], [snapshot],
    both [remove]s, [setMaxBytes] and [setMetrics] (hints and budgets below
    2^63 bytes) runs to its end without an index out of the array or an empty
    slot dereferenced; what the calls return and what stays queued is what the
    list machine allows: a newer write replaces the queued one of its target and
    key and an older one is refused, the oldest hints make room, expired hints
    leave on a scan, and a handle removes its own hint or nothing.  The counters
    are those of the list, which holds at most 1024 hints, one per target and
    key, each under a handle of its own. *)
Theorem hint_queue_refines_fifo (hint_size : Z) (ops : list QueueOp) :
  Forall (op_ok hint_size) ops → Z.of_nat (length ops) < 2 ^ 64 →
  ∃ os q a, queue_run hint_size ops emptyQueue = Some (os, q) ∧ fifo_run hint_size ops os emptyFifo a ∧
    qsize q = Z.of_nat (length (entries a)) ∧ qsize q <= 1024 ∧ current_bytes q = total hint_size (entries a) ∧
    dropped q = drops a ∧ max_bytes q = limit a ∧
    NoDup ((λ e, (hint_target e.2, key (hint_req e.2))) <$> entries a) ∧ NoDup (entries a).*1.
Proof.
  intros Hok Hl. destruct (run_sim hint_size ops _ _ _ (empty_rep hint_size) Hok) as (os & q & a & f & Eq & Hr & [Sh A _]); [cbn; lia|].
  exists os, q, a. split_and!; try done.
  - apply (sh_size _ _ _ Sh).
  - rewrite (sh_size _ _ _ Sh). by eapply shape_bound.
  - apply (ac_bytes _ _ _ A).
  - apply (ac_drops _ _ _ A).
  - apply (ac_limit _ _ _ A).
  - apply (ac_keys _ _ _ A).
  - destruct (shape_nodup _ _ _ Sh) as [Hnd _]. unfold indices in Hnd.
    change (NoDup ((h_index ∘ fst) <$> entries a)) in Hnd. rewrite list_fmap_compose in Hnd. by eapply NoDup_fmap_1.
Qed.

(** A queue at work: a replacement, a stale handle, an eviction. *)
Definition demo_hint (t k v : String.string) (ver : Z) : QueuedHint :=
  mkHint (lit t) (mkRequest Replicate 0 0 (lit k) (lit v) ver 7 None None false) 100.

Definition demo_ops : list QueueOp :=
  [Push (demo_hint "n2" "k" "old" 1); Snapshot 5 10; Push (demo_hint "n2" "k" "new" 2);
   RemoveHandle (mkHandle 0 1); Push (demo_hint "n2" "k" "late" 1); SetMaxBytes 70;
   Push (demo_hint "n3" "k" "x" 3)].

Lemma hint_queue_refines_fifo_witness :
  ((λ r, (r.1, qsize r.2, dropped r.2)) <$> queue_run 64 demo_ops emptyQueue =
    Some ([Pushed true; Snapped [(mkHandle 0 1, demo_hint "n2" "k" "old" 1)]; Pushed true; Done; Pushed false; Done; Pushed true], 1, 1)) ∧
  ∃ os q a, queue_run 64 demo_ops emptyQueue = Some (os, q) ∧ fifo_run 64 demo_ops os emptyFifo a ∧
    qsize q = Z.of_nat (length (entries a)) ∧ qsize q <= 1024 ∧ current_bytes q = total 64 (entries a) ∧
    dropped q = drops a ∧ max_bytes q = limit a ∧
    NoDup ((λ e, (hint_target e.2, key (hint_req e.2))) <$> entries a) ∧ NoDup (entries a).*1.
Proof.
  split.
  - vm_compute. reflexivity.
  - apply (hint_queue_refines_fifo 64 demo_ops); [|vm_compute; reflexivity].
    repeat (apply Forall_cons; split; [try exact I; split; vm_compute; congruence|]). apply Forall_nil. exact I.
Defined.
