(* ===== verification/HintJournal.v ===== *)
(** * The hint journal (include/cinder/node/hint_journal.hpp, src/node/hint_journal.cpp)

    The file of pending hints: its records, the scan that replays them into a
    [HintQueue] when the node starts, the appends and the compaction.  The
    descriptor is its offset in the file of that name, because the journal is
    not opened for appending: a write lands where the descriptor stands.  The
    answers of the file system are arguments; reads fail only at the end of the
    file. *)

From S2P Require Import Prelude Types Bytes Protocol Buffers Clock Wal Persistence HintQueue.
Local Open Scope Z_scope.

Definition K_HINTS_FILENAME : bytes := lit "hints.journal".
Definition K_COMPACT_RECORDS : Z := 4096.
Definition K_OP_ADD : Z := 1.
Definition K_OP_DEL : Z := 2.
(** milliseconds(30'000) *)
Definition K_RECOVERED_TTL : Z := 30000 * 1000000.

(** The fields of [ParsedRecord] that [is_add] makes meaningful. *)
Inductive ParsedRecord :=
  | RecAdd (h : QueuedHint) (sys_expiry_ms : Z)
  | RecDel (target key : bytes) (version : Z).

Record HintJournal := mkJournal { j_fd : option nat; j_path : bytes; j_records : Z }.

#[global] Instance HintJournal_eq_dec : EqDecision HintJournal.
Proof. solve_decision. Defined.

Definition emptyJournal : HintJournal := mkJournal None [] 0.

Definition recordCount (j : HintJournal) : Z := j_records j.

Definition needsCompaction (j : HintJournal) : bool := K_COMPACT_RECORDS <? j_records j.

Definition sysNowMs (c : Clock) : Z := nowSystemMs c.

(** ** Reading and writing at an offset *)

(** [readExactly]: a short read consumes what there is. *)
Definition readAt (n off : nat) (file : bytes) : option bytes * nat :=
  if (length file - off <? n)%nat then (None, Nat.max off (length file))
  else (Some (take n (drop off file)), (off + n)%nat).

(** [write(2)] at an offset; a gap before it reads as zeros. *)
Definition pwrite (off : nat) (bs file : bytes) : bytes :=
  take off file ++ replicate (off - length file) x00 ++ bs ++ drop (off + length bs) file.

Fixpoint writeAt (os : list WriteOutcome) (bs : bytes) (off : nat) (file : bytes)
  : bool * list WriteOutcome * nat * bytes :=
  match bs with
  | [] => (true, os, off, file)
  | _ =>
      match os with
      | [] => (false, [], off, file)
      | WriteError :: os | Wrote O :: os => (false, os, off, file)
      | Eintr :: os => writeAt os bs off file
      | Wrote n :: os =>
          let chunk := take n bs in
          writeAt os (drop n bs) (off + length chunk) (pwrite off chunk file)
      end
  end.

(** ** Records *)

Definition encodeAdd (h : QueuedHint) (sys_expiry_ms : Z) : option bytes :=
  let r := hint_req h in
  let reserve := (length (hint_target h) + length (key r) + length (value r) + 64 + 8 + 1)%nat in
  let out := BufferWriter.make (resize reserve []) in
  out ← BufferWriter.write 1 K_OP_ADD out;
  out ← BufferWriter.write 8 sys_expiry_ms out;
  out ← BufferWriter.write 4 (u32 (zlen (hint_target h))) out;
  out ← BufferWriter.writeString (hint_target h) out;
  out ← BufferWriter.write 4 (u32 (zlen (key r))) out;
  out ← BufferWriter.writeString (key r) out;
  out ← BufferWriter.write 4 (u32 (zlen (value r))) out;
  out ← BufferWriter.writeString (value r) out;
  out ← BufferWriter.write 8 (version r) out;
  out ← BufferWriter.write 8 (writer_node_hash r) out;
  let entry_expiry_ms := match expires_at r with Some t => u64 (Z.quot t 1000000) | None => 0 end in
  out ← BufferWriter.write 8 entry_expiry_ms out;
  out ← BufferWriter.write 1 (flag (tombstone r)) out;
  Some (resize (BufferWriter.offset out) (ByteWriter.out out)).

Definition encodeDel (target key : bytes) (version : Z) : option bytes :=
  let out := BufferWriter.make (resize (length target + length key + 32) []) in
  out ← BufferWriter.write 1 K_OP_DEL out;
  out ← BufferWriter.write 4 (u32 (zlen target)) out;
  out ← BufferWriter.writeString target out;
  out ← BufferWriter.write 4 (u32 (zlen key)) out;
  out ← BufferWriter.writeString key out;
  out ← BufferWriter.write 8 version out;
  Some (resize (BufferWriter.offset out) (ByteWriter.out out)).

(** The fields every ADD record has. *)
Definition readAddFields (r : BufferReader.t) : Parse (Z * bytes * bytes * bytes * Z * Z) :=
  (let? exp := pread 8 in
   let? tlen := pread 4 in
   let? target := preadString tlen in
   let? klen := pread 4 in
   let? key := preadString klen in
   let? vlen := pread 4 in
   let? value := preadString vlen in
   let? version := pread 8 in
   let? writer := pread 8 in
   pret (exp, target, key, value, version, writer))%parse r.

(** The trailing expiry and tombstone marker; a legacy record has neither. *)
Definition readAddTail (r : BufferReader.t) : option (option Z * bool) :=
  if decide (BufferReader.remaining r = 0%nat) then Some (None, false)
  else
    '(exp_ms, r) ← BufferReader.read 8 r;
    '(tombstone_byte, r) ← BufferReader.read 1 r;
    if (tombstone_byte >? 1) || negb (bool_decide (BufferReader.remaining r = 0%nat)) then None
    else Some (if exp_ms =? 0 then None else Some (to_signed 64 exp_ms * 1000000), negb (tombstone_byte =? 0)).

Definition parseAdd (c : Clock) (r : BufferReader.t) : option ParsedRecord :=
  match readAddFields r with
  | Got (exp, target, key, value, version, writer) r =>
      '(entry_expiry, tombstone) ← readAddTail r;
      Some (RecAdd (mkHint target (mkRequest Replicate 0 0 key value version writer None entry_expiry tombstone)
                      (now c + K_RECOVERED_TTL)) exp)
  | _ => None
  end.

Definition parseDel (r : BufferReader.t) : option ParsedRecord :=
  match (let? tlen := pread 4 in
         let? target := preadString tlen in
         let? klen := pread 4 in
         let? key := preadString klen in
         let? version := pread 8 in
         pret (target, key, version))%parse r with
  | Got (target, key, version) r =>
      if decide (BufferReader.remaining r = 0%nat) then Some (RecDel target key version) else None
  | _ => None
  end.

Definition parseRecord (c : Clock) (payload : bytes) : option ParsedRecord :=
  if decide (payload = []) then None
  else
    '(op, r) ← BufferReader.read 1 (BufferReader.make payload);
    if op =? K_OP_ADD then parseAdd c r
    else if op =? K_OP_DEL then parseDel r
    else None.

(** The probe that [open] builds for a DEL. *)
Definition probe (key : bytes) (version : Z) : Request := mkRequest Get 0 0 key [] version 0 None None false.

Record OpenJournalIo := mkOpenJournalIo { jo_dir : bool; jo_open : bool; jo_stat : bool; jo_truncate : bool }.

Record CompactIo := mkCompactIo {
  jc_open : bool;
  jc_write : list WriteOutcome;
  jc_sync : bool;
  jc_publish : PubIo;
  jc_reopen : bool }.

Section journal.
Context (hint_size : Z) (xxh3 : bytes → Z).

(** A record of the file through the queue. *)
Definition applyRecord (now_ms : Z) (rec : ParsedRecord) (q : HintQueue) : option HintQueue :=
  match rec with
  | RecAdd h exp => if now_ms <? exp then snd <$> push hint_size h q else Some q
  | RecDel t k v => removeRequest hint_size t (probe k v) q
  end.

(** The scan of [open]: the queue, the offset it stops at and the number of
    records.  [None] is fuel spent or a failure of the queue. *)
Fixpoint recover (fuel : nat) (c : Clock) (stat_ok : bool) (file : bytes) (off : nat) (q : HintQueue) (n : Z)
  : option (HintQueue * nat * Z) :=
  match fuel with
  | O => None
  | S fuel =>
      match readAt 4 off file with
      | (None, off) => Some (q, off, n)
      | (Some len_bytes, off) =>
          let len := le_decode len_bytes in
          if negb stat_ok || (len >? zlen file - Z.of_nat off - 8) then Some (q, off, n)
          else match readAt 8 off file with
          | (None, off) => Some (q, off, n)
          | (Some expected, off) =>
              match readAt (Z.to_nat len) off file with
              | (None, off) => Some (q, off, n)
              | (Some payload, off) =>
                  if negb (xxh3 payload =? le_decode expected) then Some (q, off, n)
                  else match parseRecord c payload with
                  | None => Some (q, off, n)
                  | Some rec =>
                      q ← applyRecord (sysNowMs c) rec q;
                      recover fuel c stat_ok file off q (u64 (n + 1))
                  end
              end
          end
      end
  end.

(** Every record is at least twelve bytes.  [::open] creates a missing file. *)
Definition openJournal (io : OpenJournalIo) (c : Clock) (path : bytes) (q : HintQueue) (j : HintJournal) (d : Dir)
  : option (Z * HintQueue * HintJournal * Dir) :=
  if negb (jo_dir io) then Some (0, q, j, d)
  else if negb (jo_open io) then Some (0, q, mkJournal None (j_path j) (j_records j), d)
  else
    let file := default [] (d !! path) in
    '(q, end_, n) ← recover (S (length file)) c (jo_stat io) file 0 q 0;
    let size := length file in
    let file := if (end_ <? size)%nat && jo_truncate io then take end_ file else file in
    Some (qsize q, q, mkJournal (Some size) path n, <[path := file]> d).

(** The three writes of a record. *)
Definition writeFrame (os : list WriteOutcome) (payload : bytes) (off : nat) (file : bytes)
  : bool * list WriteOutcome * nat * bytes :=
  let '(ok, os, off, file) := writeAt os (le_encode 4 (u32 (zlen payload))) off file in
  if negb ok then (false, os, off, file)
  else
    let '(ok, os, off, file) := writeAt os (le_encode 8 (xxh3 payload)) off file in
    if negb ok then (false, os, off, file)
    else writeAt os payload off file.

Definition writeRecord (os : list WriteOutcome) (payload : bytes) (j : HintJournal) (d : Dir) : bool * HintJournal * Dir :=
  match j_fd j with
  | None => (false, j, d)
  | Some off =>
      let '(ok, _, off, file) := writeFrame os payload off (default [] (d !! j_path j)) in
      (ok, mkJournal (Some off) (j_path j) (j_records j), <[j_path j := file]> d)
  end.

Definition appendPayload (os : list WriteOutcome) (payload : bytes) (j : HintJournal) (d : Dir) : HintJournal * Dir :=
  let '(ok, j, d) := writeRecord os payload j d in
  if negb ok then (j, d) else (mkJournal (j_fd j) (j_path j) (u64 (j_records j + 1)), d).

Definition appendAdd (os : list WriteOutcome) (h : QueuedHint) (sys_expiry_ms : Z) (j : HintJournal) (d : Dir)
  : option (HintJournal * Dir) :=
  if decide (j_fd j = None) then Some (j, d)
  else payload ← encodeAdd h sys_expiry_ms; Some (appendPayload os payload j d).

Definition appendDel (os : list WriteOutcome) (target key : bytes) (version : Z) (j : HintJournal) (d : Dir)
  : option (HintJournal * Dir) :=
  if decide (j_fd j = None) then Some (j, d)
  else payload ← encodeDel target key version; Some (appendPayload os payload j d).

(** The records of a snapshot, with their remaining time to live. *)
Fixpoint writeLive (os : list WriteOutcome) (c : Clock) (live : list SnapshotEntry) (off : nat) (file : bytes) (kept : Z)
  : option (bool * nat * bytes * Z) :=
  match live with
  | [] => Some (true, off, file, kept)
  | e :: live =>
      let remaining_ms := Z.quot (hint_expires (snap_hint e) - now c) 1000000 in
      if decide (remaining_ms <= 0) then writeLive os c live off file kept
      else
        payload ← encodeAdd (snap_hint e) (u64 (sysNowMs c + remaining_ms));
        let '(ok, os, off, file) := writeFrame os payload off file in
        if negb ok then Some (false, off, file, kept) else writeLive os c live off file (u64 (kept + 1))
  end.

Definition compact (io : CompactIo) (c : Clock) (q : HintQueue) (j : HintJournal) (d : Dir)
  : option (HintQueue * HintJournal * Dir) :=
  if decide (j_fd j = None ∨ j_path j = []) then Some (q, j, d)
  else
    '(live, q) ← snapshot hint_size (now c) K_CAPACITY q;
    let tmp_path := tmp_of (j_path j) in
    if negb (jc_open io) then Some (q, j, d)
    else
      '(ok, _, file, kept) ← writeLive (jc_write io) c live 0 [] 0;
      if negb (ok && jc_sync io) then Some (q, j, delete tmp_path d)
      else
        let '(published, d) := publishTempFile (jc_publish io) tmp_path (j_path j) "hint journal" (<[tmp_path := file]> d) in
        let fd := if jc_reopen io then Some 0%nat else None in
        match published with
        | Err _ => Some (q, mkJournal fd (j_path j) (j_records j), d)
        | Ok _ => Some (q, mkJournal fd (j_path j) kept, d)
        end.

End journal.

(** ** Writes *)

Lemma prefix_length_take off (file : bytes) :
  length (take off file ++ replicate (off - length file) x00) = off.
Proof. rewrite length_app, length_take, length_replicate. lia. Qed.

Lemma pwrite_app off a b file : pwrite (off + length a) b (pwrite off a file) = pwrite off (a ++ b) file.
Proof.
  unfold pwrite. set (p := take off file ++ replicate (off - length file) x00).
  assert (Hp : length p = off) by apply prefix_length_take. rewrite !(app_assoc (take off file)). fold p.
  assert (Hl : (length (p ++ a ++ drop (off + length a) file) >= off + length a)%nat) by (rewrite !length_app; lia).
  replace (off + length a - length (p ++ a ++ drop (off + length a) file))%nat with 0%nat by lia. cbn [replicate app].
  rewrite (app_assoc p), take_app_length' by (rewrite length_app; lia).
  rewrite drop_app_ge by (rewrite length_app; lia). rewrite length_app, Hp, drop_drop, length_app, <- !app_assoc. cbn [app].
  do 4 f_equal. lia.
Qed.

Lemma pwrite_end bs (file : bytes) : pwrite (length file) bs file = file ++ bs.
Proof. unfold pwrite. rewrite take_ge, Nat.sub_diag, drop_ge by lia. cbn [replicate app]. by rewrite app_nil_r. Qed.

Lemma pwrite_nil off (file : bytes) : (off <= length file)%nat → pwrite off [] file = file.
Proof.
  intros H. unfold pwrite. replace (off - length file)%nat with 0%nat by lia. cbn [replicate app length].
  by rewrite Nat.add_0_r, take_drop.
Qed.

Lemma pwrite_length off bs (file : bytes) : (off + length bs <= length (pwrite off bs file))%nat.
Proof. unfold pwrite. rewrite app_assoc, length_app, prefix_length_take, length_app. lia. Qed.

Lemma writeAt_true os bs off file os' off' file' :
  (bs ≠ [] ∨ off <= length file)%nat →
  writeAt os bs off file = (true, os', off', file') → file' = pwrite off bs file ∧ off' = (off + length bs)%nat.
Proof.
  revert bs off file. induction os as [|o os IH]; intros [|b bs] off file Hne; cbn [writeAt]; try done.
  - intros [= _ <- <-]. destruct Hne as [|Hne]; [done|]. rewrite pwrite_nil by done. split; [done|simpl; lia].
  - intros [= _ <- <-]. destruct Hne as [|Hne]; [done|]. rewrite pwrite_nil by done. split; [done|simpl; lia].
  - destruct o as [[|n]| |]; try done.
    + set (chunk := take (S n) (b :: bs)). intros E. apply IH in E as [-> ->].
      * rewrite pwrite_app. unfold chunk. rewrite take_drop. split; [done|].
        rewrite length_drop, length_take. cbn [length]. lia.
      * right. apply pwrite_length.
    + apply IH. by left.
Qed.

(** A descriptor at the end of the file appends. *)
Lemma writeAt_end os bs file os' off' file' :
  writeAt os bs (length file) file = (true, os', off', file') → file' = file ++ bs ∧ off' = length file'.
Proof.
  intros E. apply writeAt_true in E as [-> ->]; [|by right]. rewrite pwrite_end, length_app. done.
Qed.

(** ** Layout *)

Definition entryExpiryMs (r : Request) : Z := match expires_at r with Some t => u64 (Z.quot t 1000000) | None => 0 end.

Definition addBody (h : QueuedHint) (exp : Z) : bytes :=
  le_encode 8 exp ++ le_encode 4 (zlen (hint_target h)) ++ hint_target h ++ le_encode 4 (zlen (key (hint_req h))) ++
  key (hint_req h) ++ le_encode 4 (zlen (value (hint_req h))) ++ value (hint_req h) ++ le_encode 8 (version (hint_req h)) ++
  le_encode 8 (writer_node_hash (hint_req h)).

Definition addTail (h : QueuedHint) : bytes :=
  le_encode 8 (entryExpiryMs (hint_req h)) ++ le_encode 1 (flag (tombstone (hint_req h))).

Definition delBody (t k : bytes) (v : Z) : bytes :=
  le_encode 4 (zlen t) ++ t ++ le_encode 4 (zlen k) ++ k ++ le_encode 8 v.

Definition payload_of (rec : ParsedRecord) : bytes :=
  match rec with
  | RecAdd h exp => le_encode 1 K_OP_ADD ++ addBody h exp ++ addTail h
  | RecDel t k v => le_encode 1 K_OP_DEL ++ delBody t k v
  end.

(** What comes back: a fresh thirty seconds, expiries to the millisecond. *)
Definition restored (c : Clock) (h : QueuedHint) : QueuedHint :=
  let r := hint_req h in
  let ms := entryExpiryMs r in
  mkHint (hint_target h)
    (mkRequest Replicate 0 0 (key r) (value r) (version r) (writer_node_hash r) None
       (if ms =? 0 then None else Some (to_signed 64 ms * 1000000)) (tombstone r))
    (now c + K_RECOVERED_TTL).

Definition restoredRecord (c : Clock) (rec : ParsedRecord) : ParsedRecord :=
  match rec with RecAdd h exp => RecAdd (restored c h) exp | RecDel t k v => RecDel t k v end.

Definition record_ok (rec : ParsedRecord) : Prop :=
  zlen (payload_of rec) <= u32_max ∧
  match rec with
  | RecAdd h exp => in_u 64 exp ∧ in_u 64 (version (hint_req h)) ∧ in_u 64 (writer_node_hash (hint_req h))
  | RecDel _ _ v => in_u 64 v
  end.

Definition encodeRecord (rec : ParsedRecord) : option bytes :=
  match rec with RecAdd h exp => encodeAdd h exp | RecDel t k v => encodeDel t k v end.

Lemma wrote_resize w pre n : wrote w pre n → resize (BufferWriter.offset w) (ByteWriter.out w) = pre.
Proof.
  intros (rest & E & Ho & _). unfold resize, BufferWriter.offset. rewrite E, Ho, take_app_length, length_app.
  replace (length pre - (length pre + length rest))%nat with 0%nat by lia. apply app_nil_r.
Qed.

Lemma payload_parts rec :
  record_ok rec →
  match rec with
  | RecAdd h _ => in_u 32 (zlen (hint_target h)) ∧ in_u 32 (zlen (key (hint_req h))) ∧ in_u 32 (zlen (value (hint_req h)))
  | RecDel t k _ => in_u 32 (zlen t) ∧ in_u 32 (zlen k)
  end.
Proof.
  intros [Hl _]. destruct rec as [h exp|t k v]; unfold zlen in Hl; cbn [payload_of] in Hl; unfold addBody, delBody in Hl;
    rewrite !length_app in Hl; unfold in_u, u32_max, zlen in *; split_and?; lia.
Qed.

Lemma encodeRecord_spec rec : record_ok rec → encodeRecord rec = Some (payload_of rec).
Proof.
  intros Hok. pose proof (payload_parts _ Hok) as Hp. destruct rec as [h exp|t k v]; cbn [encodeRecord].
  - destruct Hp as (Ht & Hk & Hv). unfold encodeAdd, BufferWriter.make. cbv zeta.
    rewrite (wrap_small _ _ Ht), (wrap_small _ _ Hk), (wrap_small _ _ Hv).
    match goal with |- context [ByteWriter.make ?b] => pose proof (wrote_make b) as Hw end. rewrite resize_length in Hw.
    do 12 wrote_step. match goal with H : wrote _ _ _ |- _ => rewrite (wrote_resize _ _ _ H) end.
    unfold payload_of, addBody, addTail. by rewrite <- !app_assoc.
  - destruct Hp as (Ht & Hk). unfold encodeDel, BufferWriter.make. cbv zeta.
    rewrite (wrap_small _ _ Ht), (wrap_small _ _ Hk).
    match goal with |- context [ByteWriter.make ?b] => pose proof (wrote_make b) as Hw end. rewrite resize_length in Hw.
    do 6 wrote_step. match goal with H : wrote _ _ _ |- _ => rewrite (wrote_resize _ _ _ H) end.
    unfold payload_of, delBody. by rewrite <- !app_assoc.
Qed.

Lemma reads_addFields h exp :
  record_ok (RecAdd h exp) →
  reads readAddFields (addBody h exp)
    (exp, hint_target h, key (hint_req h), value (hint_req h), version (hint_req h), writer_node_hash (hint_req h)).
Proof.
  intros Hok. destruct (payload_parts _ Hok) as (Ht & Hk & Hv). destruct Hok as (_ & He & Hver & Hw).
  unfold addBody. eapply reads_eq; [|reflexivity|by rewrite <- (app_nil_r (le_encode 8 (writer_node_hash (hint_req h))))].
  apply reads_bind with exp; [by apply reads_read|].
  apply reads_bind with (zlen (hint_target h)); [by apply reads_read|].
  apply reads_bind with (hint_target h); [apply reads_readString|].
  apply reads_bind with (zlen (key (hint_req h))); [by apply reads_read|].
  apply reads_bind with (key (hint_req h)); [apply reads_readString|].
  apply reads_bind with (zlen (value (hint_req h))); [by apply reads_read|].
  apply reads_bind with (value (hint_req h)); [apply reads_readString|].
  apply reads_bind with (version (hint_req h)); [by apply reads_read|].
  apply reads_bind with (writer_node_hash (hint_req h)); [by apply reads_read|].
  apply reads_ret.
Qed.

Lemma flag_byte b : in_u 8 (flag b).
Proof. by destruct b. Qed.

Lemma expiry_u64 r : in_u 64 (entryExpiryMs r).
Proof. unfold entryExpiryMs. destruct (expires_at r); [apply wrap_range; lia|done]. Qed.

Lemma readAddTail_spec h r :
  before r (addTail h) →
  readAddTail r = Some (expires_at (hint_req (restored (mkClock 0 0) h)), tombstone (hint_req h)).
Proof.
  intros Hb. unfold readAddTail, addTail in *. rewrite (remaining_before _ _ Hb), decide_False by (by rewrite length_app, le_encode_length).
  rewrite (read_before 8 (entryExpiryMs (hint_req h)) _ _ (expiry_u64 _) Hb). cbn [mbind option_bind].
  apply before_skip_le in Hb. rewrite <- (app_nil_r (le_encode 1 _)) in Hb.
  rewrite (read_before 1 (flag (tombstone (hint_req h))) _ _ (flag_byte _) Hb). cbn [mbind option_bind].
  apply before_skip_le in Hb. rewrite (remaining_before _ _ Hb). by destruct (tombstone (hint_req h)).
Qed.

Lemma parseRecord_op c rec op body :
  payload_of rec = le_encode 1 op ++ body → in_u 8 op →
  parseRecord c (payload_of rec) =
    (if op =? K_OP_ADD then parseAdd c (skip 1 (BufferReader.make (payload_of rec)))
     else if op =? K_OP_DEL then parseDel (skip 1 (BufferReader.make (payload_of rec))) else None) ∧
  before (skip 1 (BufferReader.make (payload_of rec))) body.
Proof.
  intros E Ho. unfold parseRecord. pose proof (before_make (payload_of rec)) as Hb. rewrite E in Hb at 2.
  rewrite decide_False by (rewrite E; by destruct (le_encode 1 op) eqn:E1).
  rewrite (read_before 1 op _ _ Ho Hb). split; [done|]. by apply before_skip_le in Hb.
Qed.

Lemma parseRecord_spec c rec : record_ok rec → parseRecord c (payload_of rec) = Some (restoredRecord c rec).
Proof.
  intros Hok. destruct rec as [h exp|t k v].
  - destruct (parseRecord_op c (RecAdd h exp) K_OP_ADD (addBody h exp ++ addTail h) eq_refl) as [-> Hb]; [done|].
    cbn [Z.eqb K_OP_ADD]. unfold parseAdd. rewrite (reads_full _ _ _ (reads_addFields h exp Hok) _ _ Hb).
    apply before_skip in Hb. by rewrite (readAddTail_spec h _ Hb).
  - destruct (parseRecord_op c (RecDel t k v) K_OP_DEL (delBody t k v) eq_refl) as [-> Hb]; [done|].
    destruct (payload_parts _ Hok) as (Ht & Hk). destruct Hok as (_ & Hv).
    change (K_OP_DEL =? K_OP_ADD) with false. change (K_OP_DEL =? K_OP_DEL) with true. cbv iota. unfold parseDel, delBody in *.
    assert (reads (let? tlen := pread 4 in let? target := preadString tlen in let? klen := pread 4 in
      let? key := preadString klen in let? version := pread 8 in pret (target, key, version))%parse (delBody t k v) (t, k, v)) as HR.
    { unfold delBody. eapply reads_eq; [|reflexivity|by rewrite <- (app_nil_r (le_encode 8 v))].
      apply reads_bind with (zlen t); [by apply reads_read|]. apply reads_bind with t; [apply reads_readString|].
      apply reads_bind with (zlen k); [by apply reads_read|]. apply reads_bind with k; [apply reads_readString|].
      apply reads_bind with v; [by apply reads_read|]. apply reads_ret. }
    rewrite <- (app_nil_r (le_encode 4 _ ++ _)) in Hb. rewrite (reads_full _ _ _ HR _ _ Hb).
    apply before_skip in Hb. by rewrite decide_True by apply (remaining_before _ _ Hb).
Qed.

(** ** The scan *)

Section scan.
Context (hint_size : Z) (xxh3 : bytes → Z).
Hypothesis xxh3_range : ∀ b, in_u 64 (xxh3 b).

Definition frame (rec : ParsedRecord) : bytes :=
  le_encode 4 (zlen (payload_of rec)) ++ le_encode 8 (xxh3 (payload_of rec)) ++ payload_of rec.

Definition journal (recs : list ParsedRecord) : bytes := concat (frame <$> recs).

Fixpoint replayRecords (now_ms : Z) (recs : list ParsedRecord) (q : HintQueue) : option HintQueue :=
  match recs with
  | [] => Some q
  | rec :: recs => q ← applyRecord hint_size now_ms rec q; replayRecords now_ms recs q
  end.

(** The record a crash cut short; and bytes that end a scan because there is no
    room for the record they announce. *)
Definition torn (tail : bytes) : Prop := tail = [] ∨ ∃ rec, record_ok rec ∧ tail `prefix_of` frame rec ∧ tail ≠ frame rec.

Definition stuck (tail : bytes) : Prop := (length tail < 4)%nat ∨ zlen tail - 12 < le_decode (take 4 tail).

Lemma frame_length rec : length (frame rec) = (12 + length (payload_of rec))%nat.
Proof. unfold frame. rewrite !length_app, !le_encode_length. lia. Qed.

Lemma readAt_app pre bs rest : readAt (length bs) (length pre) (pre ++ bs ++ rest) = (Some bs, (length pre + length bs)%nat).
Proof.
  unfold readAt. rewrite !length_app.
  destruct (Nat.ltb_spec (length pre + (length bs + length rest) - length pre) (length bs)); [lia|].
  by rewrite drop_app_length, take_app_length.
Qed.

Lemma readAt_le n z pre rest :
  readAt n (length pre) (pre ++ le_encode n z ++ rest) = (Some (le_encode n z), (length pre + n)%nat).
Proof. pose proof (readAt_app pre (le_encode n z) rest) as E. by rewrite le_encode_length in E. Qed.

Lemma readAt_short n (pre tail : bytes) :
  (length tail < n)%nat → readAt n (length pre) (pre ++ tail) = (None, length (pre ++ tail)).
Proof.
  intros H. unfold readAt. rewrite length_app. destruct (Nat.ltb_spec (length pre + length tail - length pre) n); [|lia].
  f_equal. lia.
Qed.

(** Where the scan stops in a torn tail: at the end when not even the length is
    there, behind the length otherwise. *)
Definition stop_at (pre tail : bytes) : nat := if (length tail <? 4)%nat then length (pre ++ tail) else (length pre + 4)%nat.

Lemma len_value rec : record_ok rec → le_decode (le_encode 4 (zlen (payload_of rec))) = zlen (payload_of rec).
Proof. intros [Hl _]. rewrite le_decode_encode. apply Z.mod_small. unfold zlen, u32_max in *. lia. Qed.

Lemma torn_length tail rec :
  tail `prefix_of` frame rec → (4 <= length tail)%nat → take 4 tail = le_encode 4 (zlen (payload_of rec)).
Proof.
  intros [k Hk] Hl. pose proof (f_equal (take 4) Hk) as E. unfold frame in E.
  rewrite take_app_length' in E by (by rewrite le_encode_length). rewrite take_app_le in E by done. done.
Qed.

Lemma torn_stuck tail : torn tail → stuck tail.
Proof.
  intros Ht. destruct (decide (length tail < 4)%nat) as [|Hl]; [by left|right].
  destruct Ht as [->|(rec & Hok & Hp & Hne)]; [simpl in Hl; lia|].
  rewrite (torn_length _ _ Hp), (len_value _ Hok) by lia. pose proof (prefix_length _ _ Hp) as HL. rewrite frame_length in HL.
  unfold zlen. destruct (decide (length tail = 12 + length (payload_of rec))%nat) as [E|]; [|lia].
  destruct Hne. apply prefix_length_eq; [done|]. rewrite frame_length. lia.
Qed.

Lemma recover_stuck fuel c pre tail q n :
  stuck tail → recover hint_size xxh3 (S fuel) c true (pre ++ tail) (length pre) q n = Some (q, stop_at pre tail, n).
Proof.
  intros Ht. cbn [recover]. unfold stop_at. destruct (Nat.ltb_spec (length tail) 4) as [Hs|Hl]; [by rewrite readAt_short|].
  destruct Ht as [|Ht]; [lia|]. pose proof (readAt_app pre (take 4 tail) (drop 4 tail)) as E.
  rewrite take_drop, length_take, Nat.min_l in E by done. rewrite E. cbn [negb orb].
  destruct (Z.gtb_spec (le_decode (take 4 tail)) (zlen (pre ++ tail) - Z.of_nat (length pre + 4) - 8)) as [|Hge]; [done|].
  unfold zlen in *. rewrite length_app in Hge. lia.
Qed.

Lemma recover_step fuel c pre rec rest q n :
  record_ok rec →
  recover hint_size xxh3 (S fuel) c true (pre ++ frame rec ++ rest) (length pre) q n =
    (q ← applyRecord hint_size (sysNowMs c) (restoredRecord c rec) q;
     recover hint_size xxh3 fuel c true (pre ++ frame rec ++ rest) (length (pre ++ frame rec)) q (u64 (n + 1))).
Proof.
  intros Hok. cbn [recover]. set (file := pre ++ frame rec ++ rest). set (p := payload_of rec).
  assert (E1 : file = pre ++ le_encode 4 (zlen p) ++ le_encode 8 (xxh3 p) ++ p ++ rest).
  { unfold file, frame. fold p. by rewrite <- !app_assoc. }
  assert (E2 : file = (pre ++ le_encode 4 (zlen p)) ++ le_encode 8 (xxh3 p) ++ p ++ rest) by (rewrite E1; by rewrite <- app_assoc).
  assert (E3 : file = ((pre ++ le_encode 4 (zlen p)) ++ le_encode 8 (xxh3 p)) ++ p ++ rest) by (rewrite E1; by rewrite <- !app_assoc).
  assert (Hlen : le_decode (le_encode 4 (zlen p)) = zlen p) by (by apply len_value).
  rewrite E1 at 1. rewrite readAt_le, Hlen. cbn [negb orb].
  destruct (Z.gtb_spec (zlen p) (zlen file - Z.of_nat (length pre + 4) - 8)) as [Hlt|_].
  { unfold zlen in Hlt. rewrite E1, !length_app, !le_encode_length in Hlt. lia. }
  replace (length pre + 4)%nat with (length (pre ++ le_encode 4 (zlen p))) by (by rewrite length_app, le_encode_length).
  rewrite E2 at 1. rewrite readAt_le.
  replace (length (pre ++ le_encode 4 (zlen p)) + 8)%nat with (length ((pre ++ le_encode 4 (zlen p)) ++ le_encode 8 (xxh3 p)))
    by (by rewrite !length_app, !le_encode_length).
  unfold zlen at 1. rewrite Nat2Z.id. rewrite E3 at 1. rewrite readAt_app.
  assert (xxh3 p =? le_decode (le_encode 8 (xxh3 p)) = true) as ->.
  { apply Z.eqb_eq. rewrite le_decode_encode. symmetry. apply Z.mod_small. apply xxh3_range. }
  cbn [negb]. unfold p. rewrite (parseRecord_spec c _ Hok). fold p.
  replace (length ((pre ++ le_encode 4 (zlen p)) ++ le_encode 8 (xxh3 p)) + length p)%nat with (length (pre ++ frame rec)); [done|].
  rewrite !length_app, frame_length, !le_encode_length. fold p. lia.
Qed.

Lemma journal_recover_spec recs tail c pre q n fuel :
  Forall record_ok recs → stuck tail → (length recs < fuel)%nat → in_u 64 n →
  recover hint_size xxh3 fuel c true (pre ++ journal recs ++ tail) (length pre) q n =
    (q ← replayRecords (sysNowMs c) (restoredRecord c <$> recs) q;
     Some (q, stop_at (pre ++ journal recs) tail, u64 (n + Z.of_nat (length recs)))).
Proof.
  intros Hok Ht. revert pre q n fuel. induction Hok as [|rec recs Hr _ IH]; intros pre q n fuel Hf Hn.
  - destruct fuel as [|fuel]; [simpl in Hf; lia|]. cbn [journal fmap list_fmap concat app]. rewrite recover_stuck by done.
    cbn [replayRecords mbind option_bind length]. by rewrite app_nil_r, Z.add_0_r, wrap_small.
  - destruct fuel as [|fuel]; [simpl in Hf; lia|]. unfold journal. rewrite !fmap_cons. cbn [concat]. fold (journal recs).
    rewrite <- app_assoc, recover_step by done. cbn [replayRecords]. destruct (applyRecord _ _ _ q) as [q1|]; [|done]. cbn [mbind option_bind].
    rewrite app_assoc. rewrite (IH (pre ++ frame rec)); [|simpl in Hf; lia|apply wrap_range; lia].
    destruct (replayRecords _ _ q1) as [q2|]; [|done]. cbn [mbind option_bind]. rewrite <- app_assoc. do 2 f_equal.
    unfold wrap. rewrite Zplus_mod_idemp_l. f_equal. rewrite length_cons. lia.
Qed.

(** ** Appends *)

Definition appendRecord (os : list WriteOutcome) (rec : ParsedRecord) (j : HintJournal) (d : Dir) : option (HintJournal * Dir) :=
  match rec with
  | RecAdd h exp => appendAdd xxh3 os h exp j d
  | RecDel t k v => appendDel xxh3 os t k v j d
  end.

Fixpoint appendAll (calls : list (list WriteOutcome * ParsedRecord)) (j : HintJournal) (d : Dir) : option (HintJournal * Dir) :=
  match calls with
  | [] => Some (j, d)
  | (os, rec) :: calls => '(j, d) ← appendRecord os rec j d; appendAll calls j d
  end.

Lemma pwrite_app3 off a b e file :
  pwrite (off + length a + length b) e (pwrite (off + length a) b (pwrite off a file)) = pwrite off (a ++ b ++ e) file.
Proof. by rewrite !pwrite_app. Qed.

Lemma writeFrame_true os rec off file os' off' file' :
  record_ok rec → writeFrame xxh3 os (payload_of rec) off file = (true, os', off', file') →
  file' = pwrite off (frame rec) file ∧ off' = (off + length (frame rec))%nat.
Proof.
  intros [Hl _]. unfold writeFrame. rewrite wrap_small by (unfold in_u, zlen, u32_max in *; lia).
  destruct (writeAt os _ off file) as [[[ok1 os1] off1] file1] eqn:E1. destruct ok1; [|done]. cbn [negb].
  apply writeAt_true in E1 as [-> ->]; [|by left]. rewrite le_encode_length.
  destruct (writeAt os1 _ _ _) as [[[ok2 os2] off2] file2] eqn:E2. destruct ok2; [|done]. cbn [negb].
  apply writeAt_true in E2 as [-> ->]; [|by left]. rewrite le_encode_length. intros E3.
  apply writeAt_true in E3 as [-> ->].
  - unfold frame. rewrite <- pwrite_app3, !length_app, !le_encode_length. split; [done|lia].
  - left. by destruct rec.
Qed.

Lemma appendRecord_spec os rec off j d :
  record_ok rec → j_fd j = Some off →
  ∃ j' d', appendRecord os rec j d = Some (j', d') ∧ j_path j' = j_path j ∧ is_Some (j_fd j') ∧
    (j_records j' = j_records j ∨
     j_records j' = u64 (j_records j + 1) ∧ j_fd j' = Some (off + length (frame rec))%nat ∧
     d' = <[j_path j := pwrite off (frame rec) (default [] (d !! j_path j))]> d).
Proof.
  intros Hok Hfd. assert (Ha : appendRecord os rec j d = Some (appendPayload xxh3 os (payload_of rec) j d)).
  { pose proof (encodeRecord_spec rec Hok) as E. destruct rec; cbn [appendRecord encodeRecord] in *;
      unfold appendAdd, appendDel; rewrite decide_False by congruence; by rewrite E. }
  rewrite Ha. unfold appendPayload, writeRecord. rewrite Hfd.
  destruct (writeFrame _ _ _ _ _) as [[[ok os'] off'] file'] eqn:E. destruct ok; cbn [negb]; do 2 eexists; (split; [done|]).
  - apply writeFrame_true in E as [-> ->]; [|done]. split_and!; [done|by eexists|]. right. done.
  - split_and!; [done|by eexists|]. by left.
Qed.

Lemma appendAll_total calls j d :
  Forall record_ok (calls.*2) → is_Some (j_fd j) → 0 <= j_records j → j_records j + Z.of_nat (length calls) < 2 ^ 64 →
  ∃ j' d', appendAll calls j d = Some (j', d') ∧ j_records j' <= j_records j + Z.of_nat (length calls).
Proof.
  revert j d. induction calls as [|[os rec] calls IH]; intros j d Hok [off Hfd] Hn Hb; [exists j, d; split; [done|simpl; lia]|].
  cbn [appendAll]. rewrite fmap_cons in Hok. apply Forall_cons in Hok as [Hr Hok]. cbn [snd] in Hr. rewrite length_cons in *.
  destruct (appendRecord_spec os rec _ j d Hr Hfd) as (j1 & d1 & -> & _ & Hfd1 & Hcase). cbn [mbind option_bind].
  assert (Hj1 : 0 <= j_records j1 <= j_records j + 1).
  { destruct Hcase as [->|[-> _]]; [lia|]. rewrite wrap_small by (unfold in_u; lia). lia. }
  destruct (IH j1 d1 Hok Hfd1) as (j' & d' & E & Hle); [lia..|]. exists j', d'. split; [done|lia].
Qed.

Lemma journal_snoc recs rec : journal (recs ++ [rec]) = journal recs ++ frame rec.
Proof. unfold journal. rewrite fmap_app, concat_app. simpl. by rewrite app_nil_r. Qed.

Lemma appendAll_spec calls recs j d :
  Forall record_ok (calls.*2) → j_fd j = Some (length (journal recs)) → d !! j_path j = Some (journal recs) →
  0 <= j_records j → j_records j + Z.of_nat (length calls) < 2 ^ 64 →
  ∃ j' d', appendAll calls j d = Some (j', d') ∧ j_records j' <= j_records j + Z.of_nat (length calls) ∧
    (j_records j' = j_records j + Z.of_nat (length calls) → d' !! j_path j = Some (journal (recs ++ calls.*2))).
Proof.
  revert recs j d. induction calls as [|[os rec] calls IH]; intros recs j d Hok Hfd Hd Hn Hb.
  { exists j, d. split_and!; [done|simpl; lia|]. by rewrite app_nil_r. }
  cbn [appendAll]. rewrite fmap_cons in Hok. apply Forall_cons in Hok as [Hr Hok]. cbn [snd] in Hr.
  destruct (appendRecord_spec os rec _ j d Hr Hfd) as (j1 & d1 & -> & Hp & HS & Hcase). cbn [mbind option_bind]. rewrite length_cons in *.
  destruct Hcase as [Hfail|(Hrec & Hfd1 & ->)].
  - destruct (appendAll_total calls j1 d1 Hok HS) as (j' & d' & E & Hle); [lia..|]. exists j', d'. split_and!; [done|lia|lia].
  - rewrite wrap_small in Hrec by (unfold in_u; lia).
    destruct (IH (recs ++ [rec]) j1 (<[j_path j := pwrite (length (journal recs)) (frame rec) (default [] (d !! j_path j))]> d))
      as (j' & d' & E & Hle & Hd'); [done| | |lia|lia|].
    + by rewrite Hfd1, journal_snoc, length_app.
    + rewrite Hp, lookup_insert_eq, Hd. cbn [default from_option id]. by rewrite pwrite_end, journal_snoc.
    + exists j', d'. rewrite Hp in Hd'. split_and!; [done|lia|]. intros Hc. rewrite Hd' by lia. by rewrite <- app_assoc.
Qed.

(** ** Recovery *)

(** The call of the queue a record stands for. *)
Definition record_ops (c : Clock) (rec : ParsedRecord) : list QueueOp :=
  match rec with
  | RecAdd h exp => if sysNowMs c <? exp then [Push (restored c h)] else []
  | RecDel t k v => [RemoveRequest t (probe k v)]
  end.

Lemma record_ops_length c recs : (length (recs ≫= record_ops c) <= length recs)%nat.
Proof.
  induction recs as [|rec recs IH]; [done|]. cbn [mbind list_bind length] in *. rewrite length_app.
  destruct rec as [h exp|t k v]; cbn [record_ops length]; [destruct (_ <? _)|]; cbn [length]; lia.
Qed.

Lemma replay_run c recs q os q' :
  queue_run hint_size (recs ≫= record_ops c) q = Some (os, q') →
  replayRecords (sysNowMs c) (restoredRecord c <$> recs) q = Some q'.
Proof.
  revert q os. induction recs as [|rec recs IH]; intros q os; [by intros [= _ ->]|].
  rewrite fmap_cons. cbn [replayRecords mbind list_bind]. destruct rec as [h exp|t k v]; cbn [record_ops restoredRecord applyRecord].
  - destruct (sysNowMs c <? exp); cbn [app mbind option_bind]; [|by apply IH]. cbn [queue_run queue_step].
    destruct (push hint_size (restored c h) q) as [[b q1]|]; [|done]. cbn [mbind option_bind fmap option_fmap option_map snd].
    destruct (queue_run _ _ q1) as [[os' q2]|] eqn:E; [|done]. intros [= _ ->]. by eapply IH.
  - cbn [app queue_run queue_step]. destruct (removeRequest hint_size t (probe k v) q) as [q1|]; [|done]. cbn [mbind option_bind].
    destruct (queue_run _ _ q1) as [[os' q2]|] eqn:E; [|done]. intros [= _ ->]. by eapply IH.
Qed.

Definition open_ok_io : OpenJournalIo := mkOpenJournalIo true true true true.

Lemma journal_count recs : (length recs <= length (journal recs))%nat.
Proof.
  induction recs as [|rec recs IH]; [simpl; lia|]. unfold journal in *. rewrite fmap_cons. cbn [concat length].
  rewrite length_app, frame_length. lia.
Qed.

Lemma open_spec c path recs tail q j d :
  Forall record_ok recs → stuck tail → d !! path = Some (journal recs ++ tail) → Z.of_nat (length recs) < 2 ^ 64 →
  openJournal hint_size xxh3 open_ok_io c path q j d =
    (q' ← replayRecords (sysNowMs c) (restoredRecord c <$> recs) q;
     Some (qsize q', q', mkJournal (Some (length (journal recs ++ tail))) path (Z.of_nat (length recs)),
           <[path := journal recs ++ take (if (length tail <? 4)%nat then length tail else 4) tail]> d)).
Proof.
  intros Hok Ht Hd Hn. unfold openJournal. cbn [jo_dir jo_open jo_stat jo_truncate open_ok_io negb]. cbv zeta. rewrite Hd. cbn [default from_option id].
  pose proof (journal_recover_spec recs tail c [] q 0 (S (length (journal recs ++ tail))) Hok Ht) as E. cbn [app length] in E.
  rewrite E; [|rewrite length_app; pose proof (journal_count recs); lia|done].
  destruct (replayRecords _ _ q) as [q'|]; [|done]. cbn [mbind option_bind]. rewrite Z.add_0_l, wrap_small by (unfold in_u; lia). do 3 f_equal.
  unfold stop_at. rewrite andb_true_r. destruct (Nat.ltb_spec (length tail) 4) as [Hl|Hl].
  - by rewrite Nat.ltb_irrefl, (take_ge tail).
  - rewrite length_app. destruct (Nat.ltb_spec (length (journal recs) + 4) (length (journal recs) + length tail)).
    + rewrite take_app_ge by lia. do 2 f_equal. f_equal. lia.
    + by rewrite take_ge by lia.
Qed.

End scan.

(** C21: a crash loses no hint that was journalled whole.  Records appended to a
    journal (all writes answered in full, as the record count shows), the file
    then cut at any byte, and [open] on what is left: recovery replays exactly
    the records that are whole, in order, through [push] and [remove], skips
    those that expired, and leaves the queue that these calls leave. *)
Theorem journal_crash_recovery (hint_size : Z) (xxh3 : bytes → Z) (c : Clock) (path : bytes) (d d1 d2 : Dir)
    (old : list ParsedRecord) (calls : list (list WriteOutcome * ParsedRecord)) (j1 : HintJournal) (k : nat)
    (setup : list QueueOp) (os0 : list QueueOut) (q0 : HintQueue) :
  (∀ b, in_u 64 (xxh3 b)) → Forall record_ok (old ++ calls.*2) →
  d !! path = Some (journal xxh3 old) →
  appendAll xxh3 calls (mkJournal (Some (length (journal xxh3 old))) path (Z.of_nat (length old))) d = Some (j1, d1) →
  recordCount j1 = Z.of_nat (length (old ++ calls.*2)) →
  d2 !! path = take k <$> d1 !! path →
  queue_run hint_size setup emptyQueue = Some (os0, q0) →
  Forall (op_ok hint_size) (setup ++ ((old ++ calls.*2) ≫= record_ops c)) →
  Z.of_nat (length setup + length old + length calls) < 2 ^ 64 →
  ∃ kept os q j d3, kept `prefix_of` old ++ calls.*2 ∧
    (∀ p, p `prefix_of` old ++ calls.*2 → (length (journal xxh3 p) <= k)%nat → p `prefix_of` kept) ∧
    queue_run hint_size (kept ≫= record_ops c) q0 = Some (os, q) ∧
    openJournal hint_size xxh3 open_ok_io c path q0 emptyJournal d2 = Some (qsize q, q, j, d3) ∧
    recordCount j = Z.of_nat (length kept).
Proof.
  intros Hx Hok Hd Ha Hcount Hd2 Hsetup Hops Hb. set (recs := old ++ calls.*2) in *.
  assert (Hlen : length recs = (length old + length calls)%nat) by (unfold recs; by rewrite length_app, length_fmap).
  assert (Hfile : d1 !! path = Some (journal xxh3 recs)).
  { apply Forall_app in Hok as [_ Hok]. destruct (appendAll_spec xxh3 calls old
      (mkJournal (Some (length (journal xxh3 old))) path (Z.of_nat (length old))) d Hok eq_refl Hd) as (j' & d' & Ha' & _ & Hd'); [cbn [j_records]; lia..|].
    rewrite Ha in Ha'. injection Ha' as <- <-. apply Hd'. unfold recordCount in Hcount. cbn [j_records]. lia. }
  destruct (cut_concat (frame xxh3) recs k) as (kept & tail & Ecut & Ht & [rest Hrest] & Hmax).
  assert (Hkept : Forall record_ok kept) by (rewrite Hrest in Hok; by apply Forall_app in Hok as [? _]).
  assert (Htorn : stuck tail).
  { apply (torn_stuck xxh3). destruct Ht as [->|(rec & Hin & ?)]; [by left|right]. exists rec. split; [|done]. by apply (proj1 (Forall_forall _ _) Hok). }
  apply Forall_app in Hops as [Hs0 Hops]. rewrite Hrest, bind_app in Hops. apply Forall_app in Hops as [Hops _].
  assert (Hcnt : (length (kept ≫= record_ops c) <= length kept)%nat) by apply record_ops_length.
  assert (length kept <= length recs)%nat by (rewrite Hrest, length_app; lia).
  destruct (run_sim hint_size (setup ++ (kept ≫= record_ops c)) _ _ _ (empty_rep hint_size)) as (o1 & q & a1 & f1 & E1 & _ & _);
    [by apply Forall_app|cbn [issued emptyFifo length]; rewrite length_app; lia|].
  rewrite queue_run_app, Hsetup in E1. cbn [mbind option_bind] in E1.
  destruct (queue_run hint_size (kept ≫= record_ops c) q0) as [[os q']|] eqn:Erun; [|done]. injection E1 as _ ->.
  rewrite Hfile in Hd2. cbn [fmap option_fmap option_map] in Hd2. unfold journal in Hd2. rewrite Ecut in Hd2.
  exists kept, os, q. do 2 eexists. split_and!; [by exists rest|done|done| |].
  - rewrite (open_spec hint_size xxh3 Hx c path kept tail) by (done || lia). by rewrite (replay_run _ _ _ _ _ _ Erun).
  - done.
Qed.

Lemma xxh3_demo_range : ∀ b, in_u 64 (u64 (zlen b)).
Proof. intros b. apply wrap_range. lia. Qed.

(** Two hints and the removal of the first, journalled; the last record cut. *)
Definition demo_calls : list (list WriteOutcome * ParsedRecord) :=
  let all := [Wrote 100; Wrote 100; Wrote 100]%nat in
  [(all, RecAdd (demo_hint "n2" "a" "x" 1) 50); (all, RecAdd (demo_hint "n3" "b" "y" 2) 50);
   ([Wrote 2; Eintr; Wrote 100; Wrote 100; Wrote 100]%nat, RecDel (lit "n2") (lit "a") 1)].

Definition demo_sum (b : bytes) : Z := u64 (zlen b).

Definition demo_file : bytes := journal demo_sum demo_calls.*2.

Lemma demo_records_ok : Forall record_ok demo_calls.*2.
Proof. repeat (apply Forall_cons; split; [split; [vm_compute; congruence|repeat split; vm_compute; congruence]|]). apply Forall_nil. exact I. Qed.

Lemma journal_crash_recovery_witness :
  ∃ kept os q j d3, kept `prefix_of` [] ++ demo_calls.*2 ∧
    (∀ p, p `prefix_of` [] ++ demo_calls.*2 → (length (journal demo_sum p) <= 150)%nat → p `prefix_of` kept) ∧
    queue_run 64 (kept ≫= record_ops (mkClock 0 0)) emptyQueue = Some (os, q) ∧
    openJournal 64 demo_sum open_ok_io (mkClock 0 0) (lit "j") emptyQueue emptyJournal {[lit "j" := take 150 demo_file]} = Some (qsize q, q, j, d3) ∧
    recordCount j = Z.of_nat (length kept).
Proof.
  apply (journal_crash_recovery 64 demo_sum (mkClock 0 0) (lit "j") {[lit "j" := []]} {[lit "j" := demo_file]} {[lit "j" := take 150 demo_file]}
    [] demo_calls (mkJournal (Some (length demo_file)) (lit "j") 3) 150 [] [] emptyQueue).
  - exact xxh3_demo_range.
  - exact demo_records_ok.
  - apply lookup_singleton_eq.
  - apply (bool_decide_unpack _). vm_compute. exact I.
  - reflexivity.
  - rewrite !lookup_singleton_eq. reflexivity.
  - reflexivity.
  - repeat (apply Forall_cons; split; [try exact I; split; vm_compute; congruence|]). apply Forall_nil. exact I.
  - vm_compute. reflexivity.
Defined.

(** ** Where the journal gives way *)

Section live.
Context (xxh3 : bytes → Z).

(** The records compaction writes. *)
Definition live_records (c : Clock) (live : list SnapshotEntry) : list ParsedRecord :=
  live ≫= λ e, let remaining_ms := Z.quot (hint_expires (snap_hint e) - now c) 1000000 in
               if decide (remaining_ms <= 0) then [] else [RecAdd (snap_hint e) (u64 (sysNowMs c + remaining_ms))].

Lemma writeLive_true os c live recs kept off' file' kept' :
  Forall record_ok (live_records c live) →
  writeLive xxh3 os c live (length (journal xxh3 recs)) (journal xxh3 recs) kept = Some (true, off', file', kept') →
  file' = journal xxh3 (recs ++ live_records c live).
Proof.
  revert os recs kept. induction live as [|e live IH]; intros os recs kept Hok; cbn [writeLive].
  { intros [= _ <- _]. by rewrite app_nil_r. }
  unfold live_records in *. cbn [mbind list_bind] in *. case_decide as Hr; cbn [app] in *; [by apply IH|].
  apply Forall_cons in Hok as [He Hok]. pose proof (encodeRecord_spec _ He) as Ee. cbn [encodeRecord] in Ee. rewrite Ee. cbn [mbind option_bind].
  destruct (writeFrame _ _ _ _ _) as [[[ok os1] off1] file1] eqn:E. destruct ok; cbn [negb]; [|done].
  apply writeFrame_true in E as [-> ->]; [|done]. rewrite pwrite_end, <- length_app, <- journal_snoc. intros E.
  apply IH in E as ->; [|done]. by rewrite <- app_assoc.
Qed.

End live.

Definition compact_ok_io (os : list WriteOutcome) : CompactIo := mkCompactIo true os true pub_ok true.

(** C40: an append after a compaction overwrites the compacted journal.  The
    rewritten file is reopened without [O_APPEND] and the descriptor stays at
    its start: when compaction succeeded and left the records [first :: rest],
    the next record of the size of [first] takes its place, and the hint of
    [first] is in the file no more. *)
Theorem append_after_compaction_overwrites (hint_size : Z) (xxh3 : bytes → Z) (os os' : list WriteOutcome) (c : Clock)
    (q q1 : HintQueue) (j j1 j2 : HintJournal) (d d1 d2 : Dir) (live : list SnapshotEntry)
    (first rec : ParsedRecord) (rest : list ParsedRecord) (off : nat) (file : bytes) (kept : Z) :
  j_fd j ≠ None → j_path j ≠ [] →
  snapshot hint_size (now c) K_CAPACITY q = Some (live, q1) →
  writeLive xxh3 os c live 0 [] 0 = Some (true, off, file, kept) →
  live_records c live = first :: rest → Forall record_ok (rec :: first :: rest) →
  compact hint_size xxh3 (compact_ok_io os) c q j d = Some (q1, j1, d1) →
  length (frame xxh3 rec) = length (frame xxh3 first) →
  appendRecord xxh3 os' rec j1 d1 = Some (j2, d2) → recordCount j2 ≠ recordCount j1 →
  d1 !! j_path j = Some (journal xxh3 (first :: rest)) ∧ d2 !! j_path j = Some (journal xxh3 (rec :: rest)).
Proof.
  intros Hfd Hpath Hsnap Hlive Erec Hok Hc Hlen Ha Hcount. apply Forall_cons in Hok as [Hr Hok].
  assert (file = journal xxh3 (first :: rest)) as ->.
  { rewrite <- Erec in Hok. apply (writeLive_true xxh3 os c live [] 0 off file kept) in Hlive; [|done]. by rewrite Hlive, Erec. }
  unfold compact in Hc. rewrite decide_False, Hsnap in Hc by tauto. cbn [mbind option_bind] in Hc.
  cbn [jc_open jc_write jc_sync jc_publish jc_reopen compact_ok_io negb] in Hc. rewrite Hlive in Hc. cbn [mbind option_bind andb negb] in Hc.
  unfold publishTempFile in Hc. cbn [pub_sync pub_rename pub_dir pub_ok negb view exec dir_fs fs_apply] in Hc. rewrite !lookup_insert_eq in Hc.
  injection Hc as <- <-. split; [by rewrite lookup_insert_eq|].
  destruct (appendRecord_spec xxh3 os' rec 0 (mkJournal (Some 0%nat) (j_path j) kept)
    (<[j_path j := journal xxh3 (first :: rest)]> (delete (tmp_of (j_path j)) (<[tmp_of (j_path j) := journal xxh3 (first :: rest)]> d))) Hr eq_refl)
    as (j' & d' & Ha' & Hp & _ & Hcase). rewrite Ha in Ha'. injection Ha' as <- <-. cbn [j_path j_records] in *.
  destruct Hcase as [Hcase|(_ & _ & ->)]; [done|]. rewrite !lookup_insert_eq. cbn [default from_option id]. f_equal.
  unfold pwrite, journal. rewrite !fmap_cons, take_0. cbn [concat].
  rewrite (proj2 (Nat.sub_0_le 0 _)), Hlen by lia. cbn [replicate app Nat.add]. f_equal. apply drop_app_length.
Qed.

(** A queued hint with a minute to live, and the journal compacted from it. *)
Definition minute_hint (k v : String.string) (ver : Z) : QueuedHint :=
  mkHint (lit "n2") (mkRequest Replicate 0 0 (lit k) (lit v) ver 7 None None false) 60000000000.

Definition demo_queue : HintQueue := match push 64 (minute_hint "a" "x" 1) emptyQueue with Some (_, q) => q | None => emptyQueue end.

Definition all_written : list WriteOutcome := replicate 9 (Wrote 1000).

Definition demo_first : ParsedRecord := RecAdd (minute_hint "a" "x" 1) 60000.
Definition demo_second : ParsedRecord := RecAdd (minute_hint "b" "y" 2) 60000.

Definition demo_dir : Dir := {[lit "j" := journal demo_sum [demo_first]]}.

Lemma append_after_compaction_overwrites_witness :
  ∃ j1 d1 j2 d2, compact 64 demo_sum (compact_ok_io all_written) (mkClock 0 0) demo_queue (mkJournal (Some 0%nat) (lit "j") 1) demo_dir = Some (demo_queue, j1, d1) ∧
    appendRecord demo_sum all_written demo_second j1 d1 = Some (j2, d2) ∧
    d1 !! lit "j" = Some (journal demo_sum [demo_first]) ∧ d2 !! lit "j" = Some (journal demo_sum [demo_second]).
Proof.
  exists (mkJournal (Some 0%nat) (lit "j") 1), demo_dir,
    (mkJournal (Some (length (frame demo_sum demo_second))) (lit "j") 2), {[lit "j" := journal demo_sum [demo_second]]}.
  split; [apply (bool_decide_unpack _); vm_compute; exact I|]. split; [apply (bool_decide_unpack _); vm_compute; exact I|].
  apply (append_after_compaction_overwrites 64 demo_sum all_written all_written (mkClock 0 0) demo_queue demo_queue (mkJournal (Some 0%nat) (lit "j") 1)
    (mkJournal (Some 0%nat) (lit "j") 1) (mkJournal (Some (length (frame demo_sum demo_second))) (lit "j") 2) demo_dir demo_dir _
    [mkSnap (minute_hint "a" "x" 1) (mkHandle 0 1)] demo_first demo_second [] (length (frame demo_sum demo_first)) (journal demo_sum [demo_first]) 1).
  - discriminate.
  - discriminate.
  - apply (bool_decide_unpack _). vm_compute. exact I.
  - vm_compute. reflexivity.
  - vm_compute. reflexivity.
  - repeat (apply Forall_cons; split; [split; [vm_compute; congruence|repeat split; vm_compute; congruence]|]). apply Forall_nil. exact I.
  - apply (bool_decide_unpack _). vm_compute. exact I.
  - vm_compute. reflexivity.
  - apply (bool_decide_unpack _). vm_compute. exact I.
  - discriminate.
Defined.

(** a record appended behind a torn tail is lost.  [open] stops behind the
    length field of the torn record, cuts the file there and leaves the
    descriptor at the old end: a record [rec] appended next lies behind the
    stale length and a run of zeros, and when it is no longer than what the torn
    record lacked, the next [open] recovers the old records only. *)
Theorem append_behind_torn_tail_lost (hint_size : Z) (xxh3 : bytes → Z) (c c' : Clock) (path : bytes) (d d1 d2 : Dir)
    (recs : list ParsedRecord) (bad rec : ParsedRecord) (tail : bytes) (os : list WriteOutcome)
    (q0 q1 q2 : HintQueue) (n : Z) (j1 j2 : HintJournal) :
  (∀ b, in_u 64 (xxh3 b)) → Forall record_ok recs → record_ok bad → record_ok rec → Z.of_nat (length recs) < 2 ^ 64 - 1 →
  tail `prefix_of` frame xxh3 bad → (4 <= length tail)%nat → (length tail + length (frame xxh3 rec) < length (frame xxh3 bad))%nat →
  d !! path = Some (journal xxh3 recs ++ tail) →
  openJournal hint_size xxh3 open_ok_io c path q0 emptyJournal d = Some (n, q1, j1, d1) →
  appendRecord xxh3 os rec j1 d1 = Some (j2, d2) → recordCount j2 = recordCount j1 + 1 →
  replayRecords hint_size (sysNowMs c') (restoredRecord c' <$> recs) q0 = Some q2 →
  ∃ j3 d3, openJournal hint_size xxh3 open_ok_io c' path q0 emptyJournal d2 = Some (qsize q2, q2, j3, d3) ∧
    recordCount j3 = Z.of_nat (length recs).
Proof.
  intros Hx Hok Hbad Hrec Hn Hp Hl Hlt Hd Hopen Ha Hcount Hq2.
  assert (Hs : stuck tail).
  { apply (torn_stuck xxh3). right. exists bad. split_and!; [done..|]. intros ->. lia. }
  rewrite (open_spec hint_size xxh3 Hx c path recs tail) in Hopen by (done || lia).
  destruct (replayRecords _ _ _ q0) as [q3|] in Hopen; [|done]. cbn [mbind option_bind] in Hopen. injection Hopen as _ _ <- <-.
  destruct (Nat.ltb_spec (length tail) 4) as [|_] in Ha; [lia|].
  destruct (appendRecord_spec xxh3 os rec (length (journal xxh3 recs ++ tail))
    (mkJournal (Some (length (journal xxh3 recs ++ tail))) path (Z.of_nat (length recs)))
    (<[path := journal xxh3 recs ++ take 4 tail]> d) Hrec eq_refl) as (j' & d' & Ha' & _ & _ & Hcase). rewrite Ha in Ha'. injection Ha' as <- <-.
  unfold recordCount in *. destruct Hcase as [Hcase|(_ & _ & ->)]; [lia|].
  cbn [j_path j_records] in *. rewrite lookup_insert_eq. cbn [default from_option id].
  set (tail2 := take 4 tail ++ replicate (length tail - 4) x00 ++ frame xxh3 rec).
  assert (Efile : pwrite (length (journal xxh3 recs ++ tail)) (frame xxh3 rec) (journal xxh3 recs ++ take 4 tail) = journal xxh3 recs ++ tail2).
  { unfold pwrite, tail2. rewrite !length_app, length_take, Nat.min_l by done. rewrite take_ge, drop_ge by (rewrite length_app, length_take; lia).
    rewrite app_nil_r, <- !app_assoc. do 3 f_equal. f_equal. lia. }
  rewrite Efile. assert (Hs2 : stuck tail2).
  { right. unfold tail2. rewrite take_app_length' by (rewrite length_take; lia). rewrite (torn_length xxh3 _ _ Hp Hl), (len_value bad Hbad).
    unfold zlen. rewrite !length_app, le_encode_length, length_replicate. rewrite (frame_length xxh3 bad) in Hlt. lia. }
  do 2 eexists. split; [|shelve]. rewrite (open_spec hint_size xxh3 Hx c' path recs tail2); [by rewrite Hq2|done|done|by rewrite lookup_insert_eq|lia].
  Unshelve. done.
Qed.

(** A record with a longer value, torn in its middle. *)
Definition long_record : ParsedRecord := RecAdd (minute_hint "c" "a value much longer than that of the other hints, so that it is torn" 3) 60000.

Definition torn_dir : Dir := {[lit "j" := take 20 (frame demo_sum long_record)]}.
Definition healed_dir : Dir := {[lit "j" := take 4 (frame demo_sum long_record)]}.
Definition appended_dir : Dir :=
  {[lit "j" := take 4 (frame demo_sum long_record) ++ replicate 16 x00 ++ frame demo_sum demo_second]}.
Definition appended_journal : HintJournal := mkJournal (Some (20 + length (frame demo_sum demo_second))%nat) (lit "j") 1.

Lemma append_behind_torn_tail_lost_witness :
  appendRecord demo_sum all_written demo_second (mkJournal (Some 20%nat) (lit "j") 0) healed_dir = Some (appended_journal, appended_dir) ∧
  ∃ j3 d3, openJournal 64 demo_sum open_ok_io (mkClock 0 0) (lit "j") emptyQueue emptyJournal appended_dir
      = Some (qsize emptyQueue, emptyQueue, j3, d3) ∧ recordCount j3 = Z.of_nat (length (@nil ParsedRecord)).
Proof.
  split; [apply (bool_decide_unpack _); vm_compute; exact I|].
  apply (append_behind_torn_tail_lost 64 demo_sum (mkClock 0 0) (mkClock 0 0) (lit "j") torn_dir healed_dir appended_dir
    [] long_record demo_second (take 20 (frame demo_sum long_record)) all_written emptyQueue emptyQueue emptyQueue 0
    (mkJournal (Some 20%nat) (lit "j") 0) appended_journal).
  - exact xxh3_demo_range.
  - apply Forall_nil. exact I.
  - split; [vm_compute; congruence|repeat split; vm_compute; congruence].
  - split; [vm_compute; congruence|repeat split; vm_compute; congruence].
  - vm_compute. reflexivity.
  - exists (drop 20 (frame demo_sum long_record)). by rewrite take_drop.
  - apply (bool_decide_unpack _). vm_compute. exact I.
  - apply (bool_decide_unpack _). vm_compute. exact I.
  - apply lookup_singleton_eq.
  - apply (bool_decide_unpack _). vm_compute. exact I.
  - apply (bool_decide_unpack _). vm_compute. exact I.
  - reflexivity.
  - reflexivity.
Defined.
