(* ===== verification/Fanout.v ===== *)
(** * Quorum fan-out (include/cinder/node/fanout.hpp)

    One decision over [n] asynchronous sends.  Reports come from any thread, in
    any order and perhaps more than once; a single consumer reduces them, inline
    while the channel has some and then in the detached tail.  Both phases take
    one report off the channel and treat it the same way, so a run is a list of
    actions: a report, or a turn of the consumer.  The closures work on a state
    of the caller's; they do not throw, so [fail] has no part in it. *)

From S2P Require Import Prelude.
Local Open Scope nat_scope.

(** [FanOutDrain] with the channel and the state of the closures. *)
Record FanOutDrain (R S : Type) := mkDrain {
  fired : bool;
  seen : nat;
  delivered : list bool;
  channel : list (nat * R);
  reduced : S }.
Arguments mkDrain {R S}.
Arguments fired {R S}.
Arguments seen {R S}.
Arguments delivered {R S}.
Arguments channel {R S}.
Arguments reduced {R S}.

Inductive Action (R : Type) := Report (i : nat) (r : R) | Receive.
Arguments Report {R}.
Arguments Receive {R}.

Definition reports {R} (acts : list (Action R)) : list (nat * R) :=
  omap (λ a, match a with Report i r => Some (i, r) | Receive => None end) acts.

Section first.
Context {R : Type} (n : nat).
Implicit Types evs : list (nat * R).

(** The reports that count: the first one of each target. *)
Fixpoint first_reports (known : list nat) (evs : list (nat * R)) : list (nat * R) :=
  match evs with
  | [] => []
  | (i, r) :: evs =>
      if decide (i < n ∧ i ∉ known) then (i, r) :: first_reports (i :: known) evs else first_reports known evs
  end.

Lemma first_reports_range known evs i : i ∈ (first_reports known evs).*1 → i < n ∧ i ∉ known.
Proof.
  revert known. induction evs as [|[j r] evs IH]; intros known; cbn [first_reports]; [by intros ?%not_elem_of_nil|].
  case_decide as Hj; [|apply IH]. rewrite fmap_cons, elem_of_cons. intros [->|Hi%IH]; [done|]. set_solver.
Qed.

Lemma first_reports_subset known evs ev : ev ∈ first_reports known evs → ev ∈ evs.
Proof.
  revert known. induction evs as [|[j r] evs IH]; intros known; cbn [first_reports]; [done|].
  case_decide; [rewrite !elem_of_cons; intros [->|?]; eauto|]. intros ?%IH. by right.
Qed.

Lemma first_reports_nodup known evs : NoDup (first_reports known evs).*1.
Proof.
  revert known. induction evs as [|[j r] evs IH]; intros known; cbn [first_reports]; [constructor|].
  case_decide as Hj; [|apply IH]. rewrite fmap_cons. apply NoDup_cons. split; [|apply IH].
  intros [_ Hn]%first_reports_range. apply Hn. by left.
Qed.

Lemma first_reports_snoc known evs i r :
  first_reports known (evs ++ [(i, r)]) =
    first_reports known evs ++ if decide (i < n ∧ i ∉ known ∧ i ∉ (first_reports known evs).*1) then [(i, r)] else [].
Proof.
  revert known. induction evs as [|[j t] evs IH]; intros known; cbn [app first_reports].
  - rewrite fmap_nil. repeat case_decide; (done || set_solver).
  - destruct (decide (j < n ∧ j ∉ known)) as [Hj|Hj]; [|apply IH]. rewrite IH, fmap_cons. cbn [app fst]. do 2 f_equal.
    destruct (decide (i < n ∧ i ∉ j :: known ∧ _)), (decide (i < n ∧ i ∉ known ∧ _)); (done || set_solver).
Qed.

Lemma first_reports_length evs : length (first_reports [] evs) <= n.
Proof.
  rewrite <- (length_fmap fst), <- (length_seq n 0). apply submseteq_length, NoDup_submseteq; [apply first_reports_nodup|].
  intros i [? _]%first_reports_range. apply elem_of_seq. lia.
Qed.

End first.

Section fanout.
Context {R S : Type} (n : nat) (on_each : nat → R → bool → S → S) (should_fire : S → bool) (fire : S → S).

Definition initDrain (s : S) : FanOutDrain R S := mkDrain false 0 (replicate n false) [] s.

(** [report_once]: the first delivery of a target goes to the channel, which
    holds [n] and drops what does not fit. *)
Definition reportOnce (i : nat) (r : R) (d : FanOutDrain R S) : FanOutDrain R S :=
  match delivered d !! i with
  | Some false =>
      mkDrain (fired d) (seen d) (<[i := true]> (delivered d))
        (if length (channel d) <? n then channel d ++ [(i, r)] else channel d) (reduced d)
  | _ => d
  end.

(** One turn of the consumer, in either phase. *)
Definition receive (d : FanOutDrain R S) : FanOutDrain R S :=
  if seen d <? n then
    match channel d with
    | [] => d
    | (i, r) :: chan =>
        let s := on_each i r (negb (fired d)) (reduced d) in
        if negb (fired d) && should_fire s then mkDrain true (seen d + 1) (delivered d) chan (fire s)
        else mkDrain (fired d) (seen d + 1) (delivered d) chan s
    end
  else d.

Definition act (a : Action R) (d : FanOutDrain R S) : FanOutDrain R S :=
  match a with Report i r => reportOnce i r d | Receive => receive d end.

Definition fanOutQuorum (acts : list (Action R)) (s : S) : FanOutDrain R S := foldl (flip act) (initDrain s) acts.

(** ** What it computes *)

Definition each (active : bool) (s : S) (ev : nat * R) : S := on_each ev.1 ev.2 active s.

(** The decision: reports are folded in until [should_fire] holds; [fire] runs
    there, and the rest is folded in as late. *)
Definition decided (evs : list (nat * R)) (s : S) (f : bool) (s' : S) : Prop :=
  (f = false ∧ s' = foldl (each true) s evs ∧
     ∀ p, p `prefix_of` evs → p ≠ [] → should_fire (foldl (each true) s p) = false) ∨
  (f = true ∧ ∃ p q, evs = p ++ q ∧ p ≠ [] ∧ should_fire (foldl (each true) s p) = true ∧
     (∀ p', p' `prefix_of` p → p' ≠ [] → p' ≠ p → should_fire (foldl (each true) s p') = false) ∧
     s' = foldl (each false) (fire (foldl (each true) s p)) q).

Lemma decided_snoc evs s f s' ev :
  decided evs s f s' →
  let s1 := on_each ev.1 ev.2 (negb f) s' in
  if negb f && should_fire s1 then decided (evs ++ [ev]) s true (fire s1) else decided (evs ++ [ev]) s f s1.
Proof.
  intros [(-> & -> & Hno)|(-> & p & q & -> & Hp & Hf & Hno & ->)]; cbn [negb andb].
  - destruct (should_fire _) eqn:E.
    + right. split; [done|]. exists (evs ++ [ev]), []. rewrite app_nil_r, foldl_app. split_and!; [done| |done| |done].
      { by destruct evs. }
      intros p' [Hp'|?]%prefix_snoc Hne Hne'; [by apply Hno|done].
    + left. rewrite foldl_app. split_and!; [done..|]. intros p [Hp| ->]%prefix_snoc Hne; [by apply Hno|]. by rewrite foldl_app.
  - right. split; [done|]. exists p, (q ++ [ev]). rewrite app_assoc, foldl_app. done.
Qed.

(** Every report that went to the channel was either reduced or is in it. *)
Record drain_inv (evs : list (nat * R)) (s : S) (d : FanOutDrain R S) : Prop := mkDrainInv {
  dr_split : first_reports n [] evs = take (seen d) (first_reports n [] evs) ++ channel d;
  dr_seen : seen d <= length (first_reports n [] evs);
  dr_delivered : ∀ i, i < n → delivered d !! i = Some (bool_decide (i ∈ (first_reports n [] evs).*1));
  dr_length : length (delivered d) = n;
  dr_decided : decided (take (seen d) (first_reports n [] evs)) s (fired d) (reduced d) }.

Lemma report_inv evs s d i r : drain_inv evs s d → drain_inv (evs ++ [(i, r)]) s (reportOnce i r d).
Proof.
  intros [Hs Hl Hd Hn Hdec]. unfold reportOnce. destruct (decide (i < n)) as [Hi|Hi].
  - rewrite (Hd i Hi). case_bool_decide as Hin.
    + assert (E : first_reports n [] (evs ++ [(i, r)]) = first_reports n [] evs).
      { rewrite first_reports_snoc, decide_False, app_nil_r by tauto. done. }
      split; rewrite ?E; done.
    + assert (E : first_reports n [] (evs ++ [(i, r)]) = first_reports n [] evs ++ [(i, r)]).
      { rewrite first_reports_snoc, decide_True; [done|]. split_and!; [done|apply not_elem_of_nil|done]. }
      assert (Hroom : length (channel d) < n).
      { pose proof (first_reports_length n (evs ++ [(i, r)])) as HL. rewrite E, length_app in HL. simpl in HL.
        rewrite Hs, length_app in HL. lia. }
      apply Nat.ltb_lt in Hroom. rewrite Hroom.
      split; cbn [seen channel delivered fired reduced]; rewrite ?E.
      * rewrite take_app_le by done. rewrite Hs at 1. by rewrite <- app_assoc.
      * rewrite length_app. lia.
      * intros k Hk. rewrite fmap_app. destruct (decide (k = i)) as [->|Hne].
        -- rewrite list_lookup_insert_eq by lia. f_equal. symmetry. apply bool_decide_eq_true. set_solver.
        -- rewrite list_lookup_insert_ne, Hd by done. f_equal. apply bool_decide_ext. set_solver.
      * by rewrite length_insert.
      * by rewrite take_app_le.
  - rewrite (lookup_ge_None_2 (delivered d)) by lia.
    assert (E : first_reports n [] (evs ++ [(i, r)]) = first_reports n [] evs).
    { rewrite first_reports_snoc, decide_False, app_nil_r by tauto. done. }
    split; rewrite ?E; done.
Qed.

Lemma receive_inv evs s d : drain_inv evs s d → drain_inv evs s (receive d).
Proof.
  intros [Hs Hl Hd Hn Hdec]. unfold receive. destruct (Nat.ltb_spec (seen d) n); [|done].
  destruct (channel d) as [|[i r] chan] eqn:Ec; [by split; rewrite ?Ec|]. set (l := first_reports n [] evs) in *.
  assert (Et : take (seen d + 1) l = take (seen d) l ++ [(i, r)]).
  { rewrite Hs at 1. rewrite take_app_ge, length_take, Nat.min_l by (rewrite ?length_take; lia).
    f_equal. by replace (seen d + 1 - seen d) with 1 by lia. }
  assert (Hlen : length l = seen d + (1 + length chan)).
  { rewrite Hs, length_app, length_take, Nat.min_l by done. done. }
  pose proof (decided_snoc _ _ _ _ (i, r) Hdec) as Hdec'. cbn [fst snd] in Hdec'. cbv zeta in Hdec'.
  rewrite <- Et in Hdec'. assert (Hs' : l = take (seen d + 1) l ++ chan) by (rewrite Et, <- app_assoc; exact Hs).
  destruct (negb (fired d) && should_fire _); split; cbn [seen channel delivered fired reduced]; fold l; (done || lia).
Qed.

Lemma fanOut_inv acts s : drain_inv (reports acts) s (fanOutQuorum acts s).
Proof.
  induction acts as [|a acts IH] using rev_ind.
  - split; try done; cbn [seen channel delivered fired reduced initDrain fanOutQuorum foldl reports omap list_omap first_reports].
    + intros i Hi. rewrite lookup_replicate_2 by done. done.
    + apply length_replicate.
    + left. split_and!; [done..|]. intros p Hp%prefix_nil_inv. done.
  - unfold fanOutQuorum, reports. rewrite foldl_app, omap_app. cbn [foldl]. destruct a as [i r|]; cbn [flip act omap list_omap].
    + by apply report_inv.
    + rewrite app_nil_r. by apply receive_inv.
Qed.

(** The consumer ends when it has had [n] turns on a channel that was not
    empty; then every target was reduced. *)
Lemma fanOut_done acts s :
  seen (fanOutQuorum acts s) = n →
  decided (first_reports n [] (reports acts)) s (fired (fanOutQuorum acts s)) (reduced (fanOutQuorum acts s)) ∧
  (first_reports n [] (reports acts)).*1 ≡ₚ seq 0 n.
Proof.
  intros Hn. destruct (fanOut_inv acts s) as [_ Hl _ _ Hdec]. pose proof (first_reports_length n (reports acts)) as HL.
  rewrite take_ge in Hdec by lia. split; [done|].
  apply submseteq_length_Permutation; [|rewrite length_fmap, length_seq; lia].
  apply NoDup_submseteq; [apply first_reports_nodup|]. intros i [? _]%first_reports_range. apply elem_of_seq. lia.
Qed.

(** A consumer with enough turns behind the last report has reduced them all. *)
Lemma turns_drain k evs s d : drain_inv evs s d → length (channel d) <= k → seen (Nat.iter k receive d) = length (first_reports n [] evs).
Proof.
  revert d. induction k as [|k IH]; intros d I Hk.
  - destruct I as [Hs Hl _ _ _]. destruct (channel d) as [|x l]; simpl in Hk; [|lia]. apply (f_equal length) in Hs.
    rewrite app_nil_r, length_take in Hs. change (Nat.iter 0 receive d) with d. lia.
  - rewrite Nat.iter_succ_r. apply IH; [by apply receive_inv|]. destruct I as [Hs Hl _ _ _]. pose proof (first_reports_length n evs) as HL.
    unfold receive. destruct (Nat.ltb_spec (seen d) n) as [Hlt|Hge].
    + destruct (channel d) as [|[i r] chan] eqn:Ec; [rewrite Ec; simpl; lia|]. simpl in Hk. destruct (negb (fired d) && should_fire _); cbn [channel]; lia.
    + apply (f_equal length) in Hs. rewrite length_app, length_take in Hs. lia.
Qed.

Lemma fanOut_drained acts s : seen (fanOutQuorum (acts ++ replicate n Receive) s) = length (first_reports n [] (reports acts)).
Proof.
  assert (fanOutQuorum (acts ++ replicate n Receive) s = Nat.iter n receive (fanOutQuorum acts s)) as ->.
  { unfold fanOutQuorum. rewrite foldl_app. generalize (foldl (flip act) (initDrain s) acts).
    assert (∀ k d, foldl (flip act) d (replicate k Receive) = Nat.iter k receive d) as Hk; [|apply Hk].
    induction k as [|k IH]; intros d; [done|]. rewrite Nat.iter_succ_r. apply IH. }
  pose proof (fanOut_inv acts s) as I. apply (turns_drain _ (reports acts) s); [done|]. pose proof (first_reports_length n (reports acts)) as HL.
  rewrite (dr_split _ _ _ I), length_app in HL. lia.
Qed.

End fanout.

Lemma reports_turns {R} (acts : list (Action R)) k : reports (acts ++ replicate k Receive) = reports acts.
Proof.
  unfold reports. rewrite omap_app. rewrite <- (app_nil_r (omap _ acts)) at 2. f_equal. induction k as [|k IH]; [done|exact IH].
Qed.

(** C24: a fan-out decides once, over each target once.  Whatever the threads
    report, in whatever order, however often and however the consumer's turns
    fall between: no report of a target that counts is dropped by the channel,
    the consumer never reduces a target twice, [fire] runs at most once, at the
    first report after which [should_fire] holds, and every later report is
    folded in as late.  Once it is through, all [n] targets were reduced. *)
Theorem fanout_decides_once {R S : Type} (n : nat) (on_each : nat → R → bool → S → S) (should_fire : S → bool) (fire : S → S)
    (acts : list (Action R)) (s : S) :
  let d := fanOutQuorum n on_each should_fire fire acts s in
  let evs := take (seen d) (first_reports n [] (reports acts)) in
  first_reports n [] (reports acts) = evs ++ channel d ∧ NoDup evs.*1 ∧ seen d <= n ∧
  decided on_each should_fire fire evs s (fired d) (reduced d) ∧
  (seen d = n → evs.*1 ≡ₚ seq 0 n).
Proof.
  intros d evs. pose proof (fanOut_inv n on_each should_fire fire acts s) as I. fold d in I.
  pose proof (first_reports_length n (reports acts)) as HL. split_and!.
  - apply (dr_split _ _ _ _ _ _ _ I).
  - unfold evs. rewrite fmap_take. eapply sublist_NoDup; [apply (first_reports_nodup n [] (reports acts))|apply sublist_take].
  - pose proof (dr_seen _ _ _ _ _ _ _ I). lia.
  - apply (dr_decided _ _ _ _ _ _ _ I).
  - intros Hn. destruct (fanOut_done n on_each should_fire fire acts s Hn) as [_ HP].
    unfold evs. rewrite take_ge; [done|]. lia.
Qed.
