(* ===== verification/ReadQuorum.v ===== *)
(** * Quorum reads (include/cinder/node/read_quorum.hpp)

    The registry that lets concurrent reads of a key share one fan-out, and the
    reducer that keeps the last-writer-wins maximum of the votes.  A flight is a
    shared object: the table and the leader's completion closure refer to it by
    its number in [heap]. *)

From S2P Require Import Prelude Types Bytes Protocol Clock.
Import Lww LwwFacts.
Local Open Scope Z_scope.

(** ** The registry *)

Abbreviation FlightKey := (bytes * nat)%type.

Section registry.
Context {Cb Res : Type}.

Record ReadFlightRegistry := mkRegistry {
  flights : gmap FlightKey nat;
  heap : gmap nat (list Cb);
  next_flight : nat }.

Definition emptyRegistry : ReadFlightRegistry := mkRegistry ∅ ∅ 0.

(** The flight, and whether the caller leads it. *)
Definition attach (key : bytes) (r : nat) (cb : Cb) (g : ReadFlightRegistry) : nat * bool * ReadFlightRegistry :=
  match flights g !! (key, r) with
  | None =>
      let id := next_flight g in
      (id, true, mkRegistry (<[(key, r) := id]> (flights g)) (<[id := [cb]]> (heap g)) (S id))
  | Some id => (id, false, mkRegistry (flights g) (<[id := default [] (heap g !! id) ++ [cb]]> (heap g)) (next_flight g))
  end.

(** Erase, take the waiters, then call each with the result. *)
Definition finish (key : bytes) (r : nat) (id : nat) (result : Res) (g : ReadFlightRegistry)
  : list (Cb * Res) * ReadFlightRegistry :=
  let table := if decide (flights g !! (key, r) = Some id) then delete (key, r) (flights g) else flights g in
  let waiters := default [] (heap g !! id) in
  ((λ cb, (cb, result)) <$> waiters, mkRegistry table (<[id := []]> (heap g)) (next_flight g)).

(** A history of reads: a caller arrives, or the completion closure of a leader
    runs.  The closure has captured the key, the quorum and the flight, and runs
    once: the fan-out of a read fires once. *)
Inductive FlightOp := Arrive (key : bytes) (r : nat) (cb : Cb) | Complete (id : nat) (result : Res).

Record FlightRun := mkRun {
  registry : ReadFlightRegistry;
  closures : gmap nat FlightKey;
  arrived : list Cb;
  answered : list (Cb * Res) }.

Definition emptyRun : FlightRun := mkRun emptyRegistry ∅ [] [].

Definition flight_step (op : FlightOp) (s : FlightRun) : FlightRun :=
  match op with
  | Arrive key r cb =>
      let '(id, leader, g) := attach key r cb (registry s) in
      mkRun g (if leader then <[id := (key, r)]> (closures s) else closures s) (arrived s ++ [cb]) (answered s)
  | Complete id result =>
      match closures s !! id with
      | None => s
      | Some (key, r) =>
          let '(calls, g) := finish key r id result (registry s) in
          mkRun g (delete id (closures s)) (arrived s) (answered s ++ calls)
      end
  end.

Definition flight_run (ops : list FlightOp) : FlightRun := foldl (flip flight_step) emptyRun ops.

End registry.
Arguments ReadFlightRegistry : clear implicits.
Arguments FlightOp : clear implicits.
Arguments FlightRun : clear implicits.

(** ** The reducer *)

Record ReadReducer := mkReducer {
  rd_r : Z;
  rd_pending : Z;
  rd_acks : Z;
  best_version : Z;
  best_writer : Z;
  best_tombstone : bool;
  needs_repair : bool;
  best_entry : option Entry.VersionedEntry }.

Definition newReducer (r total : Z) (local : option Entry.VersionedEntry) : ReadReducer :=
  match local with
  | Some e => mkReducer r total 1 (Entry.version e) (Entry.writer_node_hash e) (Entry.isTombstone e) false (Some e)
  | None => mkReducer r total 0 0 0 false false None
  end.

Definition voteStamp (r : Response) : LwwStamp := mkStamp (r_version r) (r_writer_node_hash r) (r_tombstone r).

Definition bestStamp (d : ReadReducer) : LwwStamp := mkStamp (best_version d) (best_writer d) (best_tombstone d).

(** The entry rebuilt from a vote. *)
Definition voteEntry (c : Clock) (r : Response) : Entry.VersionedEntry :=
  let e := match r_value r with Some v => Entry.with_value v Entry.emptyEntry | None => Entry.emptyEntry end in
  let e := Entry.setTombstone (r_tombstone r) (Entry.with_writer (r_writer_node_hash r) (Entry.setVersion (r_version r) e)) in
  match r_expires_at r with
  | Some t => Entry.with_expires (toSteadyExpiry c t) (Entry.setHasTtl true e)
  | None => e
  end.

Definition noteRemote (c : Clock) (res : Result Response) (active : bool) (d : ReadReducer) : ReadReducer :=
  if negb active then d
  else
    let pending := u64 (rd_pending d - 1) in
    let keep := mkReducer (rd_r d) pending (rd_acks d) (best_version d) (best_writer d) (best_tombstone d)
                  (needs_repair d) (best_entry d) in
    match res with
    | Err _ => keep
    | Ok r =>
        if (status r =? Errc_code OK) && negb (r_version r =? 0) then
          let acks := u64 (rd_acks d + 1) in
          if lwwWinsOver (voteStamp r) (bestStamp d) then
            mkReducer (rd_r d) pending acks (r_version r) (r_writer_node_hash r) (r_tombstone r) true (Some (voteEntry c r))
          else
            mkReducer (rd_r d) pending acks (best_version d) (best_writer d) (best_tombstone d)
              (if decide (compareLww (voteStamp r) (bestStamp d) ≠ Equal) then true else needs_repair d) (best_entry d)
        else if status r =? Errc_code NotFound then
          mkReducer (rd_r d) pending (rd_acks d) (best_version d) (best_writer d) (best_tombstone d) true (best_entry d)
        else keep
    end.

Definition shouldFire (d : ReadReducer) : bool := (rd_r d <=? rd_acks d) || (rd_pending d =? 0).

(** ** Every caller is answered once *)

Section flights.
Context {Cb Res : Type}.
Implicit Types (s : FlightRun Cb Res) (ops : list (FlightOp Cb Res)).

(** The callers still waiting. *)
Definition waiting s : list Cb := map_to_list (heap (registry s)) ≫= snd.

Record run_inv s : Prop := mkRunInv {
  ri_table : ∀ k id, flights (registry s) !! k = Some id → closures s !! id = Some k ∧ is_Some (heap (registry s) !! id);
  ri_fresh : ∀ id, (next_flight (registry s) <= id)%nat → heap (registry s) !! id = None ∧ closures s !! id = None;
  ri_heap : ∀ id, is_Some (closures s !! id) → is_Some (heap (registry s) !! id);
  ri_done : ∀ id ws, heap (registry s) !! id = Some ws → closures s !! id = None → ws = [];
  ri_all : arrived s ≡ₚ (answered s).*1 ++ waiting s }.

Lemma waiting_insert (m : gmap nat (list Cb)) id ws :
  m !! id = None → map_to_list (<[id := ws]> m) ≫= snd ≡ₚ ws ++ (map_to_list m ≫= snd).
Proof. intros Hn. rewrite map_to_list_insert by done. done. Qed.

Lemma waiting_update (m : gmap nat (list Cb)) id old ws :
  m !! id = Some old →
  ∃ rest, map_to_list m ≫= snd ≡ₚ old ++ rest ∧ map_to_list (<[id := ws]> m) ≫= snd ≡ₚ ws ++ rest.
Proof.
  intros Hm. exists (map_to_list (delete id m) ≫= snd). split.
  - rewrite <- (insert_id m id old) at 1 by done. rewrite <- insert_delete_eq. apply waiting_insert, lookup_delete_eq.
  - rewrite <- insert_delete_eq. apply waiting_insert, lookup_delete_eq.
Qed.

Lemma arrive_inv s key r cb : run_inv s → run_inv (flight_step (Arrive key r cb) s).
Proof.
  intros [Ht Hf Hh Hd Ha]. cbn [flight_step]. unfold attach. destruct (flights (registry s) !! (key, r)) as [id|] eqn:E.
  - destruct (Ht _ _ E) as [Hc [ws Hw]]. rewrite Hw. change (default [] (Some ws)) with ws.
    assert (Hdom : ∀ id', is_Some (<[id := ws ++ [cb]]> (heap (registry s)) !! id') ↔ is_Some (heap (registry s) !! id')).
    { intros id'. destruct (decide (id = id')) as [->|]; [rewrite lookup_insert_eq, Hw; split; by eexists|by rewrite lookup_insert_ne]. }
    split; cbn [registry flights heap next_flight closures arrived answered].
    + intros k id' Hk. rewrite Hdom. by apply Ht.
    + intros id' Hid. destruct (Hf id' Hid) as [Hn ?]. split; [|done]. rewrite lookup_insert_ne; [done|]. intros ->. congruence.
    + intros id' Hid. by apply Hdom, Hh.
    + intros id' ws' Hw' Hn. rewrite lookup_insert_ne in Hw' by congruence. by eapply Hd.
    + unfold waiting. cbn [registry heap]. destruct (waiting_update _ _ _ (ws ++ [cb]) Hw) as (rest & E1 & E2).
      rewrite Ha. unfold waiting. rewrite E1, E2. rewrite <- !app_assoc. do 2 apply Permutation_app_head. apply Permutation_app_comm.
  - destruct (Hf (next_flight (registry s))) as [Hn Hcn]; [done|].
    split; cbn [registry flights heap next_flight closures arrived answered].
    + intros k id'. rewrite lookup_insert_Some. intros [[<- <-]|[Hne Hk]].
      * rewrite !lookup_insert_eq. split; [done|by eexists].
      * destruct (Ht k id' Hk) as [Hc Hs]. assert (next_flight (registry s) ≠ id') by (intros <-; congruence). by rewrite !lookup_insert_ne.
    + intros id' Hid. destruct (Hf id') as [??]; [lia|]. by rewrite !lookup_insert_ne by lia.
    + intros id'. destruct (decide (next_flight (registry s) = id')) as [->|]; [rewrite !lookup_insert_eq; by eexists|].
      rewrite !lookup_insert_ne by done. apply Hh.
    + intros id' ws. destruct (decide (next_flight (registry s) = id')) as [->|]; [by rewrite !lookup_insert_eq|].
      rewrite !lookup_insert_ne by done. apply Hd.
    + unfold waiting. cbn [registry heap]. rewrite (waiting_insert _ _ _ Hn), Ha. rewrite <- !app_assoc. apply Permutation_app_head, Permutation_app_comm.
Qed.

Lemma calls_fst (ws : list Cb) (result : Res) : ((λ cb, (cb, result)) <$> ws).*1 = ws.
Proof. induction ws as [|w ws IH]; [done|]. csimpl. by rewrite IH. Qed.

Lemma complete_inv s id result : run_inv s → run_inv (flight_step (Complete id result) s).
Proof.
  intros Hi. pose proof Hi as [Ht Hf Hh Hd Ha]. cbn [flight_step]. destruct (closures s !! id) as [[key r]|] eqn:E; [|done].
  destruct (Hh id) as [ws Hw]; [by rewrite E|]. unfold finish. rewrite Hw. change (default [] (Some ws)) with ws.
  assert (Hdom : ∀ id', is_Some (<[id := []]> (heap (registry s)) !! id') ↔ is_Some (heap (registry s) !! id')).
  { intros id'. destruct (decide (id = id')) as [->|]; [rewrite lookup_insert_eq, Hw; split; by eexists|by rewrite lookup_insert_ne]. }
  split; cbn [registry flights heap next_flight closures arrived answered].
  - intros k id' Hk. rewrite Hdom. assert (flights (registry s) !! k = Some id' ∧ id' ≠ id) as [Hk' Hne].
    { case_decide as Hc.
      - apply lookup_delete_Some in Hk as [Hkk Hk]. split; [done|]. intros ->. destruct (Ht k id Hk) as [Hc' _]. congruence.
      - split; [done|]. intros ->. destruct (Ht k id Hk) as [Hc' _]. rewrite E in Hc'. injection Hc' as <-. done. }
    rewrite lookup_delete_ne by done. by apply Ht.
  - intros id' Hid. destruct (Hf id' Hid) as [Hn ?]. assert (id ≠ id') by congruence. by rewrite lookup_insert_ne, lookup_delete_ne.
  - intros id' [x [_ Hx]%lookup_delete_Some]. apply Hdom, Hh. by eexists.
  - intros id' ws'. destruct (decide (id = id')) as [->|]; [rewrite lookup_insert_eq; congruence|].
    rewrite lookup_insert_ne, lookup_delete_ne by done. apply Hd.
  - unfold waiting. cbn [registry heap]. destruct (waiting_update _ _ _ [] Hw) as (rest & E1 & E2).
    rewrite Ha. unfold waiting. rewrite E1, E2, fmap_app, calls_fst. cbn [app]. by rewrite app_assoc.
Qed.

Lemma run_ok ops : run_inv (flight_run ops).
Proof.
  unfold flight_run. induction ops as [|op ops IH] using rev_ind.
  - split; cbn [foldl emptyRun registry emptyRegistry flights heap closures next_flight].
    + intros k id Hk. by rewrite lookup_empty in Hk.
    + done.
    + intros id. rewrite !lookup_empty. by intros [].
    + intros id ws Hw. by rewrite lookup_empty in Hw.
    + done.
  - rewrite foldl_app. cbn [foldl]. unfold flip at 1. destruct op; [by apply arrive_inv|by apply complete_inv].
Qed.

Lemma complete_closures s id id' result :
  closures (flight_step (Complete id result) s) !! id' = if decide (id' = id) then None else closures s !! id'.
Proof.
  cbn [flight_step]. destruct (closures s !! id) as [[key r]|] eqn:E; cbn [finish closures].
  - destruct (decide (id' = id)) as [->|]; [apply lookup_delete_eq|by apply lookup_delete_ne].
  - by destruct (decide (id' = id)) as [->|].
Qed.

Lemma complete_all results s :
  run_inv s →
  let s' := foldl (flip flight_step) s ((λ '(id, r), Complete id r) <$> results) in
  run_inv s' ∧ arrived s' = arrived s ∧ ∀ id, is_Some (closures s' !! id) → is_Some (closures s !! id) ∧ id ∉ results.*1.
Proof.
  revert s. induction results as [|[id r] results IH]; intros s Hi.
  { split_and!; [done..|]. intros id Hid. split; [done|]. apply not_elem_of_nil. }
  rewrite !fmap_cons. cbn [foldl fst]. unfold flip at 2. set (s1 := flight_step (Complete id r) s).
  assert (arrived s1 = arrived s) as Ea by (unfold s1; cbn [flight_step]; by destruct (closures s !! id) as [[]|]).
  destruct (IH s1) as (Hi' & Ea' & Hcl); [by apply complete_inv|]. split_and!; [exact Hi'|etransitivity; [exact Ea'|exact Ea]|].
  intros id' Hid'. apply Hcl in Hid' as [Hc Hin]. unfold s1 in Hc. rewrite complete_closures in Hc.
  destruct (decide (id' = id)) as [->|]; [by destruct Hc|]. split; [done|]. by rewrite not_elem_of_cons.
Qed.

Lemma waiting_nil s : (∀ id ws, heap (registry s) !! id = Some ws → ws = []) → waiting s = [].
Proof.
  intros Hn. unfold waiting. assert (∀ e, e ∈ map_to_list (heap (registry s)) → e.2 = []) as Hall.
  { intros [id ws] Hin%elem_of_map_to_list. by apply (Hn id). }
  induction (map_to_list (heap (registry s))) as [|e l IH]; [done|]. cbn [mbind list_bind].
  rewrite (Hall e) by (by left). apply IH. intros e' He'. apply Hall. by right.
Qed.

End flights.

(** C25: a shared read answers every caller once.  Over any history of arriving
    reads and completing leaders, in which the closure of a leader runs once at
    most, the calls made and the callers still waiting are together exactly the
    callers that arrived, none twice and none lost; a caller waits only on a
    flight whose leader has not completed, so that when the closures have run
    nobody waits; and no flight of the table has completed. *)
Theorem flights_answer_once {Cb Res : Type} (ops : list (FlightOp Cb Res)) :
  let s := flight_run ops in
  arrived s ≡ₚ (answered s).*1 ++ waiting s ∧
  (∀ id ws, heap (registry s) !! id = Some ws → ws ≠ [] → is_Some (closures s !! id)) ∧
  (∀ k id, flights (registry s) !! k = Some id → closures s !! id = Some k) ∧
  (closures s = ∅ → (answered s).*1 ≡ₚ arrived s) ∧
  ∀ results : list (nat * Res), (∀ id, is_Some (closures s !! id) → id ∈ results.*1) →
    let s' := flight_run (ops ++ ((λ '(id, r), Complete id r) <$> results)) in
    arrived s' = arrived s ∧ closures s' = ∅ ∧ (answered s').*1 ≡ₚ arrived s'.
Proof.
  intros s. pose proof (run_ok ops) as Hi. fold s in Hi.
  assert (∀ s0 : FlightRun Cb Res, run_inv s0 → closures s0 = ∅ → (answered s0).*1 ≡ₚ arrived s0) as Hdone.
  { intros s0 Hi0 Hc. rewrite (ri_all _ Hi0), waiting_nil, app_nil_r; [done|]. intros id ws Hw. apply (ri_done _ Hi0 id ws Hw). by rewrite Hc, lookup_empty. }
  split_and!.
  - apply (ri_all _ Hi).
  - intros id ws Hw Hne. destruct (closures s !! id) eqn:E; [by eexists|]. by destruct Hne, (ri_done _ Hi id ws Hw E).
  - intros k id Hk. by apply (ri_table _ Hi).
  - by apply Hdone.
  - intros results Hall s'. assert (Hrun : s' = foldl (flip flight_step) s ((λ '(id, r), Complete id r) <$> results)).
    { unfold s', flight_run. by rewrite foldl_app. }
    rewrite Hrun. destruct (complete_all results s Hi) as (Hi' & Ea & Hcl). split; [done|].
    match goal with |- closures ?x = ∅ ∧ _ => assert (closures x = ∅) as Hc end.
    { apply map_empty. intros id. apply eq_None_not_Some. intros [Hs Hn]%Hcl. by apply Hn, Hall. }
    split; [done|by apply Hdone].
Qed.

Lemma flights_answer_once_witness :
  let ops := [Arrive (lit "k") 2 1%nat; Arrive (lit "k") 2 2%nat; Complete 0 true; Arrive (lit "k") 2 3%nat] in
  arrived (flight_run ops) ≡ₚ (answered (flight_run ops)).*1 ++ waiting (flight_run ops) ∧
  let s' := flight_run (ops ++ ((λ '(id, r), Complete id r) <$> [(0%nat, false); (1%nat, false)])) in
  answered s' = [(1%nat, true); (2%nat, true); (3%nat, false)] ∧ arrived s' = arrived (flight_run ops) ∧ (answered s').*1 ≡ₚ arrived s'.
Proof.
  intros ops. destruct (flights_answer_once ops) as (H1 & _ & _ & _ & H2). split; [exact H1|]. intros s'. split; [vm_compute; reflexivity|].
  destruct (H2 [(0%nat, false); (1%nat, false)]) as (Ea & _ & Hp); [|split; [exact Ea|exact Hp]].
  intros id Hid. change (closures (flight_run ops)) with (<[1%nat := (lit "k", 2%nat)]> (delete 0%nat {[0%nat := (lit "k", 2%nat)]}) : gmap nat FlightKey) in Hid.
  destruct Hid as [x Hx]. apply lookup_insert_Some in Hx as [[<- _]|[_ [_ [<- _]%lookup_singleton_Some]%lookup_delete_Some]]; [right; left|left]; done.
Defined.

(** ** The winner of the votes *)

(** A response that counts toward the quorum. *)
Definition counts (res : Result Response) : option Response :=
  match res with
  | Ok r => if (status r =? Errc_code OK) && negb (r_version r =? 0) then Some r else None
  | Err _ => None
  end.

Definition misses (res : Result Response) : bool :=
  match res with
  | Ok r => negb ((status r =? Errc_code OK) && negb (r_version r =? 0)) && (status r =? Errc_code NotFound)
  | Err _ => false
  end.

Abbreviation Answer := (Clock * Result Response)%type.

Definition note (d : ReadReducer) (a : Answer) : ReadReducer := noteRemote a.1 a.2 true d.

Definition votes (l : list Answer) : list Response := omap (λ a, counts a.2) l.

(** Versions come from entries, which have 62 bits for them. *)
Definition answer_ok (a : Answer) : Prop := ∀ r, counts a.2 = Some r → in_u 62 (r_version r).

Lemma voteEntry_stamp c r : in_u 62 (r_version r) → stampOf (voteEntry c r) = voteStamp r.
Proof.
  intros Hv. unfold voteEntry, stampOf, voteStamp. cbv zeta.
  set (e0 := match r_value r with Some v => _ | None => _ end).
  assert (Hw0 : Entry.wf e0) by (unfold e0; destruct (r_value r); done).
  set (e1 := Entry.with_writer _ _). assert (Hw1 : Entry.wf e1) by (apply (EntryFacts.setVersion_wf (r_version r) e0 Hw0)).
  assert (Hver : Entry.version (Entry.setTombstone (r_tombstone r) e1) = r_version r).
  { rewrite EntryFacts.setTombstone_version by done. change (Entry.version (Entry.setVersion (r_version r) e0) = r_version r).
    rewrite EntryFacts.setVersion_version by done. by apply wrap_small. }
  assert (Htomb : Entry.isTombstone (Entry.setTombstone (r_tombstone r) e1) = r_tombstone r) by (by apply EntryFacts.setTombstone_isTombstone).
  assert (Hw2 : Entry.wf (Entry.setTombstone (r_tombstone r) e1)) by (by apply EntryFacts.setTombstone_wf).
  destruct (r_expires_at r) as [t|]; [|by rewrite Hver, Htomb].
  change (mkStamp (Entry.version (Entry.setHasTtl true (Entry.setTombstone (r_tombstone r) e1))) (r_writer_node_hash r)
    (Entry.isTombstone (Entry.setHasTtl true (Entry.setTombstone (r_tombstone r) e1))) = mkStamp (r_version r) (r_writer_node_hash r) (r_tombstone r)).
  by rewrite EntryFacts.setHasTtl_version, EntryFacts.setHasTtl_isTombstone, Hver, Htomb.
Qed.

(** What the reducer knows after some answers. *)
Record summary (r total : Z) (local : option Entry.VersionedEntry) (l : list Answer) (d : ReadReducer) : Prop := mkSummary {
  sm_r : rd_r d = r;
  sm_pending : rd_pending d = total - Z.of_nat (length l);
  sm_acks : rd_acks d = (if local then 1 else 0) + Z.of_nat (length (votes l));
  sm_none : best_entry d = None → local = None ∧ votes l = [] ∧ bestStamp d = mkStamp 0 0 false;
  sm_best : ∀ e, best_entry d = Some e →
    stampOf e = bestStamp d ∧ (local = Some e ∨ ∃ c v, v ∈ votes l ∧ e = voteEntry c v ∧ stampOf e = voteStamp v) ∧
    (∀ x, local = Some x → lww_le (stampOf x) (stampOf e)) ∧ ∀ v, v ∈ votes l → lww_le (voteStamp v) (stampOf e);
  sm_repair : needs_repair d = false ↔
    (∀ a, a ∈ l → misses a.2 = false) ∧ ∀ v, v ∈ votes l → ∃ x, local = Some x ∧ stampOf x = voteStamp v }.

Lemma summary_init r total local : summary r total local [] (newReducer r total local).
Proof.
  split; destruct local as [e|]; simpl; try done; try lia.
  - intros x [= <-]. split_and!; [done|by left|intros ? [= <-]; by left|by intros ? ?%not_elem_of_nil].
  - split; [|done]. split; [by intros ? ?%not_elem_of_nil|by intros ? ?%not_elem_of_nil].
  - split; [|done]. split; [by intros ? ?%not_elem_of_nil|by intros ? ?%not_elem_of_nil].
Qed.

Lemma votes_snoc l a : votes (l ++ [a]) = votes l ++ from_option (λ r, [r]) [] (counts a.2).
Proof. unfold votes. rewrite omap_app. cbn [omap list_omap]. by destruct (counts a.2). Qed.

Lemma votes_length l : (length (votes l) <= length l)%nat.
Proof. unfold votes. induction l as [|a l IH]; [done|]. cbn [omap list_omap length] in *. destruct (counts a.2); cbn [length]; lia. Qed.

(** Nothing but the counter changes on an answer that is no vote and no miss. *)
Lemma summary_pass r total local l d d' a :
  summary r total local l d → counts a.2 = None →
  rd_r d' = rd_r d → rd_pending d' = rd_pending d - 1 → rd_acks d' = rd_acks d → best_entry d' = best_entry d →
  bestStamp d' = bestStamp d → needs_repair d' = (if misses a.2 then true else needs_repair d) →
  summary r total local (l ++ [a]) d'.
Proof.
  intros [H1 H2 H3 H4 H5 H6] Hc E1 E2 E3 E4 E5 E6.
  assert (Ev : votes (l ++ [a]) = votes l) by (rewrite votes_snoc, Hc; apply app_nil_r).
  split; rewrite ?Ev, ?E1, ?E2, ?E3, ?E4, ?E5; try done.
  - rewrite H2, length_app. simpl. lia.
  - rewrite E6. destruct (misses a.2) eqn:Em.
    + split; [done|]. intros [Hm _]. rewrite (Hm a) in Em by set_solver. done.
    + rewrite H6. split; (intros [Hm Hv]; split; [|done]); intros x Hx; [|apply Hm; set_solver].
      apply elem_of_app in Hx as [?| ->%list_elem_of_singleton]; [by apply Hm|done].
Qed.

Lemma best_ok d l r total local v :
  summary r total local l d → r_version v ≠ 0 → 0 <= r_version v →
  lwwWinsOver (voteStamp v) (bestStamp d) = false → ∃ e, best_entry d = Some e.
Proof.
  intros Sm Hv Hpos Hw. destruct (best_entry d) as [e|] eqn:E; [eauto|]. exfalso.
  destruct (sm_none _ _ _ _ _ Sm E) as (_ & _ & Eb). rewrite Eb in Hw. apply not_true_iff_false in Hw. apply Hw, lwwWinsOver_lt.
  left. simpl. lia.
Qed.

Lemma lww_lt_of_le a b c : lww_le a b → lww_lt b c → lww_lt a c.
Proof. intros [->|H] H'; [done|]. by eapply lww_lt_trans. Qed.

(** No repair means that the winner is what the local store has. *)
Lemma best_is_local r total local l d e :
  summary r total local l d → best_entry d = Some e →
  (∀ v, v ∈ votes l → ∃ x, local = Some x ∧ stampOf x = voteStamp v) → ∃ x, local = Some x ∧ stampOf x = stampOf e.
Proof.
  intros Sm E Hv. destruct (sm_best _ _ _ _ _ Sm e E) as (_ & [Hl|(c & v & Hin & _ & ->)] & _); [eauto|]. by apply Hv.
Qed.

Lemma best_beaten r total local l d v :
  summary r total local l d → lww_lt (bestStamp d) (voteStamp v) →
  (∀ x, local = Some x → lww_lt (stampOf x) (voteStamp v)) ∧ ∀ w, w ∈ votes l → lww_lt (voteStamp w) (voteStamp v).
Proof.
  intros [_ _ _ H4 H5 _] Hw. destruct (best_entry d) as [b|] eqn:Eb.
  - destruct (H5 b eq_refl) as (Es & _ & Hloc & Hvs). rewrite <- Es in Hw.
    split; [intros x Hx|intros x Hx]; (eapply lww_lt_of_le; [|exact Hw]); auto.
  - destruct (H4 eq_refl) as (-> & -> & _). split; [done|]. by intros ? ?%not_elem_of_nil.
Qed.

Lemma summary_vote r total local l d c v :
  summary r total local l d → in_u 62 (r_version v) → counts (Ok v) = Some v →
  0 <= total - Z.of_nat (length l) - 1 → total < 2 ^ 63 →
  summary r total local (l ++ [(c, Ok v)]) (note d (c, Ok v)).
Proof.
  intros Sm Hv Hc Hp Ht. pose proof Sm as [H1 H2 H3 H4 H5 H6].
  assert (Ev : votes (l ++ [(c, Ok v)]) = votes l ++ [v]) by (rewrite votes_snoc; cbn [snd]; by rewrite Hc).
  assert (Hmiss : misses (Ok v) = false) by (unfold misses, counts in *; by destruct (_ && _)).
  assert (Hne : (status v =? Errc_code OK) && negb (r_version v =? 0) = true) by (unfold counts in Hc; by destruct (_ && _)).
  assert (Hlen : (length (votes l) <= length l)%nat) by apply votes_length.
  unfold note, noteRemote. cbn [fst snd negb]. cbv zeta. rewrite Hne.
  assert (Hacks : u64 (rd_acks d + 1) = (if local then 1 else 0) + Z.of_nat (length (votes l ++ [v]))).
  { rewrite H3, length_app. simpl. rewrite wrap_small; [lia|]. unfold in_u. destruct local; change (2 ^ 64) with (2 * 2 ^ 63); lia. }
  assert (Hpend : u64 (rd_pending d - 1) = total - Z.of_nat (length (l ++ [(c, Ok v)]))).
  { rewrite H2, length_app. simpl. rewrite wrap_small; [lia|]. unfold in_u. change (2 ^ 64) with (2 * 2 ^ 63). lia. }
  assert (Hins : ∀ P : Response → Prop, (∀ w, w ∈ votes l ++ [v] → P w) ↔ (∀ w, w ∈ votes l → P w) ∧ P v) by set_solver.
  assert (Hms : (∀ a, a ∈ l ++ [(c, Ok v)] → misses a.2 = false) ↔ ∀ a, a ∈ l → misses a.2 = false).
  { split; intros Hm a Ha; [apply Hm; set_solver|]. apply elem_of_app in Ha as [?| ->%list_elem_of_singleton]; [by apply Hm|done]. }
  destruct (lwwWinsOver (voteStamp v) (bestStamp d)) eqn:Hw.
  - apply lwwWinsOver_lt in Hw. destruct (best_beaten _ _ _ _ _ _ Sm Hw) as [Hloc Hvs].
    split; cbn [rd_r rd_pending rd_acks best_entry needs_repair]; rewrite ?Ev, ?Hms; try done.
    + intros e [= <-]. rewrite voteEntry_stamp, Hins by done.
      split_and!; [done|right; exists c, v; split_and!; [set_solver|done..]| | |by left].
      * intros x Hx. right. by apply Hloc.
      * intros w Hx. right. by apply Hvs.
    + split; [done|]. intros [_ Hall]. destruct (Hall v) as (x & Hx & Ex); [set_solver|].
      apply Hloc in Hx. rewrite Ex in Hx. by apply lww_lt_irrefl in Hx.
  - assert (Hle : lww_le (voteStamp v) (bestStamp d)).
    { destruct (compareLww_spec (voteStamp v) (bestStamp d)) as [?|?|Hgt]; [by right|by left|]. apply lwwWinsOver_lt in Hgt. congruence. }
    assert (∃ e, best_entry d = Some e) as [e Ee].
    { apply andb_true_iff in Hne as [_ Hne%negb_true_iff%Z.eqb_neq]. destruct Hv. by eapply (best_ok d l). }
    destruct (H5 e Ee) as (Es & Hor & Hloc & Hvs).
    split; cbn [rd_r rd_pending rd_acks best_entry needs_repair]; rewrite ?Ev, ?Hms; try done.
    + intros E. rewrite E in Ee. done.
    + intros x E. rewrite Ee in E. injection E as <-. rewrite Hins. split_and!; [done| |done|done|by rewrite Es].
      destruct Hor as [?|(c' & w & Hin & ?)]; [by left|right]. exists c', w. split; [set_solver|done].
    + rewrite Hins. case_decide as Hcmp.
      * split; [done|]. intros (_ & Hall & (x & Hx & Ex)). destruct (best_is_local _ _ _ _ _ _ Sm Ee Hall) as (y & Hy & Ey).
        rewrite Hx in Hy. injection Hy as <-. destruct Hcmp. apply compareLww_Equal. congruence.
      * rewrite H6. split; [|tauto]. intros [Hm Hall]. split_and!; [done..|].
        destruct (best_is_local _ _ _ _ _ _ Sm Ee Hall) as (y & Hy & Ey). exists y. split; [done|].
        apply compareLww_Equal in Hcmp. congruence.
Qed.

Lemma summary_note r total local l d a :
  summary r total local l d → answer_ok a → 0 <= total - Z.of_nat (length l) - 1 → total < 2 ^ 63 →
  summary r total local (l ++ [a]) (note d a).
Proof.
  intros Sm Hok Hp Ht. destruct a as [c [v|err]].
  - destruct (counts (Ok v)) as [w|] eqn:Hc.
    + assert (w = v) as -> by (unfold counts in Hc; destruct (_ && _); by simplify_eq). apply summary_vote; try done. by apply Hok.
    + assert (Hpend : u64 (rd_pending d - 1) = rd_pending d - 1).
      { rewrite (sm_pending _ _ _ _ _ Sm). apply wrap_small. unfold in_u. change (2 ^ 64) with (2 * 2 ^ 63). lia. }
      assert (Hne : (status v =? Errc_code OK) && negb (r_version v =? 0) = false) by (unfold counts in Hc; by destruct (_ && _)).
      eapply summary_pass; try done; unfold note, noteRemote, misses; cbn [fst snd negb]; cbv zeta; rewrite Hne;
        destruct (status v =? Errc_code NotFound); done.
  - assert (Hpend : u64 (rd_pending d - 1) = rd_pending d - 1).
    { rewrite (sm_pending _ _ _ _ _ Sm). apply wrap_small. unfold in_u. change (2 ^ 64) with (2 * 2 ^ 63). lia. }
    by eapply summary_pass.
Qed.

(** The reducer after a list of answers. *)
Lemma summary_fold r total local l :
  Forall answer_ok l → Z.of_nat (length l) <= total → total < 2 ^ 63 →
  summary r total local l (foldl note (newReducer r total local) l).
Proof.
  intros Hok. induction l as [|a l IH] using rev_ind; intros Hl Ht; [apply summary_init|].
  apply Forall_app in Hok as [Hok Ha]. rewrite length_app in Hl. simpl in Hl.
  rewrite foldl_app. cbn [foldl]. apply summary_note; [apply IH; [done|lia|done]|by apply Forall_cons in Ha as [? _]|lia|done].
Qed.
