(* ===== verification/Replication.v ===== *)
(** * The replication manager (include/cinder/node/replication_manager.hpp, src/node/replication_manager.cpp)

    Writes, deletes and reads of one node: the local store, the fan-out to the
    replicas with the quorum rules, the hints for replicas that failed and their
    replay.  The transport is the list of sends in [outbox] and the reports that
    come back; an operation is given the actions of its fan-out, each report with
    the clock and the file-system answers of its moment.  What the reduction does
    to the manager (hints, repairs, removals) is applied in its order.  Spans,
    log lines and metric counters are left out. *)

From S2P Require Import Prelude Types Bytes Protocol Buffers Clock Wal Persistence CacheStore HintQueue HintJournal Fanout ReadQuorum.
Import Lww LwwFacts.
Local Open Scope Z_scope.

Inductive ConsistencyMode := Async | Quorum.

#[global] Instance ConsistencyMode_eq_dec : EqDecision ConsistencyMode.
Proof. solve_decision. Defined.

Definition K_REPLAY_BATCH : nat := 256.
(** milliseconds, and as a steady duration *)
Definition K_HINT_TTL_MS : Z := 30000.
Definition K_HINT_TTL : Z := K_HINT_TTL_MS * 1000000.

Definition fnv1a64 (s : bytes) : Z :=
  foldl (λ h c, u64 (Z.lxor h (Z_of_byte c) * 1099511628211)) 14695981039346656037 s.

Definition sysHintExpiryMs (c : Clock) : Z := u64 (nowSystemMs c + K_HINT_TTL_MS).

(** The moment of a report: the clocks, and what the journal's file answers. *)
Record Moment := mkMoment { at_clock : Clock; at_append : list WriteOutcome; at_compact : CompactIo }.

Record ReplicationManager (St : Type) := mkRepl {
  local_ : St;
  hints_ : HintQueue;
  hint_journal_path : bytes;
  journal_ : option HintJournal;
  files : Dir;
  replaying : bool;
  read_flights : ReadFlightRegistry nat;
  outbox : list (bytes * Request) }.
Arguments mkRepl {St}.
Arguments local_ {St}.
Arguments hints_ {St}.
Arguments hint_journal_path {St}.
Arguments journal_ {St}.
Arguments files {St}.
Arguments replaying {St}.
Arguments read_flights {St}.
Arguments outbox {St}.

Definition err_quorum : Error := mkError NotReady (lit "quorum not reached").
Definition err_not_found : Error := mkError NotFound (lit "key not found").

(** ** Write quorums *)

Record WriteQuorum := mkWriteQuorum {
  wq_acks : Z;
  wq_pending : Z;
  wq_w : Z;
  wq_done : list (Result ());             (* the calls of on_done *)
  wq_hinted : list (bytes * Moment) }.    (* the calls of enqueueHint *)

Section write_quorum.
Context (replicas : list bytes).

Definition wq_each (i : nat) (rep : Result () * Moment) (active : bool) (st : WriteQuorum) : WriteQuorum :=
  match rep.1 with
  | Err _ =>
      mkWriteQuorum (wq_acks st) (u64 (wq_pending st - 1)) (wq_w st) (wq_done st)
        (wq_hinted st ++ [(default [] (replicas !! i), rep.2)])
  | Ok _ =>
      mkWriteQuorum (if active then u64 (wq_acks st + 1) else wq_acks st) (u64 (wq_pending st - 1)) (wq_w st)
        (wq_done st) (wq_hinted st)
  end.

Definition wq_should_fire (st : WriteQuorum) : bool :=
  (wq_w st <=? wq_acks st) || (wq_pending st =? 0) || (u64 (wq_acks st + wq_pending st) <? wq_w st).

Definition wq_fire (st : WriteQuorum) : WriteQuorum :=
  mkWriteQuorum (wq_acks st) (wq_pending st) (wq_w st)
    (wq_done st ++ [if wq_w st <=? wq_acks st then Ok () else Err err_quorum]) (wq_hinted st).

(** [total / 2 + 1] *)
Definition write_quorum : Z := Z.of_nat (length replicas + 1) / 2 + 1.

Definition initWriteQuorum : WriteQuorum := mkWriteQuorum 1 (Z.of_nat (length replicas)) write_quorum [] [].

Definition quorumWrite (acts : list (Action (Result () * Moment))) : FanOutDrain (Result () * Moment) WriteQuorum :=
  fanOutQuorum (length replicas) wq_each wq_should_fire wq_fire acts initWriteQuorum.

(** The fan-out of a write: the calls of [on_done] and of [enqueueHint].  In
    async mode every failed report of a known replica is a hint. *)
Definition fanOutWrite (mode : ConsistencyMode) (acts : list (Action (Result () * Moment)))
  : list (Result ()) * list (bytes * Moment) :=
  match mode with
  | Async =>
      ([Ok ()], omap (λ ev, match ev.2.1 with
                            | Ok _ => None
                            | Err _ => (λ node, (node, ev.2.2)) <$> replicas !! ev.1
                            end) (reports acts))
  | Quorum =>
      if decide (replicas = []) then ([Ok ()], [])
      else let d := reduced (quorumWrite acts) in (wq_done d, wq_hinted d)
  end.

End write_quorum.

(** ** Read quorums *)

Record ReadQuorum := mkReadQuorum {
  rq_reducer : ReadReducer;
  rq_decision : list (option Entry.VersionedEntry * bool) }.   (* winner, whether to repair *)

Definition rq_each (i : nat) (a : Answer) (active : bool) (st : ReadQuorum) : ReadQuorum :=
  mkReadQuorum (noteRemote a.1 a.2 active (rq_reducer st)) (rq_decision st).

Definition rq_should_fire (st : ReadQuorum) : bool := shouldFire (rq_reducer st).

Definition rq_fire (st : ReadQuorum) : ReadQuorum :=
  mkReadQuorum (rq_reducer st) (rq_decision st ++ [(best_entry (rq_reducer st), needs_repair (rq_reducer st))]).

Definition quorumRead (n : nat) (R : Z) (local : option Entry.VersionedEntry) (acts : list (Action Answer))
  : FanOutDrain Answer ReadQuorum :=
  fanOutQuorum n rq_each rq_should_fire rq_fire acts (mkReadQuorum (newReducer R (Z.of_nat n) local) []).

(** ** Hint replay *)

Record HintReplay := mkHintReplay {
  hr_pending : Z;
  hr_replayed : Z;
  hr_removed : list (SnapshotEntry * Moment);
  hr_done : list Z }.

Section replay.
Context (batch : list SnapshotEntry).

Definition hr_each (i : nat) (rep : Result () * Moment) (active : bool) (st : HintReplay) : HintReplay :=
  match rep.1, batch !! i with
  | Ok _, Some e =>
      mkHintReplay (u64 (hr_pending st - 1)) (u64 (hr_replayed st + 1)) (hr_removed st ++ [(e, rep.2)]) (hr_done st)
  | _, _ => mkHintReplay (u64 (hr_pending st - 1)) (hr_replayed st) (hr_removed st) (hr_done st)
  end.

Definition hr_should_fire (st : HintReplay) : bool := hr_pending st =? 0.

Definition hr_fire (st : HintReplay) : HintReplay :=
  mkHintReplay (hr_pending st) (hr_replayed st) (hr_removed st) (hr_done st ++ [hr_replayed st]).

Definition replayBatch (acts : list (Action (Result () * Moment))) : FanOutDrain (Result () * Moment) HintReplay :=
  fanOutQuorum (length batch) hr_each hr_should_fire hr_fire acts (mkHintReplay (Z.of_nat (length batch)) 0 [] []).

End replay.

(** ** The manager *)

Section manager.
Context {St : Type} `{CacheStore St}.
Context (hint_size : Z) (xxh3 : bytes → Z) (self : bytes).
Implicit Types m : ReplicationManager St.

Definition with_local (s : St) m : ReplicationManager St :=
  mkRepl s (hints_ m) (hint_journal_path m) (journal_ m) (files m) (replaying m) (read_flights m) (outbox m).
Definition with_hints (q : HintQueue) m : ReplicationManager St :=
  mkRepl (local_ m) q (hint_journal_path m) (journal_ m) (files m) (replaying m) (read_flights m) (outbox m).
Definition with_journal (j : option HintJournal) (d : Dir) m : ReplicationManager St :=
  mkRepl (local_ m) (hints_ m) (hint_journal_path m) j d (replaying m) (read_flights m) (outbox m).
Definition with_replaying (b : bool) m : ReplicationManager St :=
  mkRepl (local_ m) (hints_ m) (hint_journal_path m) (journal_ m) (files m) b (read_flights m) (outbox m).
Definition with_flights (g : ReadFlightRegistry nat) m : ReplicationManager St :=
  mkRepl (local_ m) (hints_ m) (hint_journal_path m) (journal_ m) (files m) (replaying m) g (outbox m).
Definition send (msgs : list (bytes * Request)) m : ReplicationManager St :=
  mkRepl (local_ m) (hints_ m) (hint_journal_path m) (journal_ m) (files m) (replaying m) (read_flights m) (outbox m ++ msgs).

Definition hintCount m : Z := qsize (hints_ m).

Definition setMaxHintBytes (n : Z) m : ReplicationManager St := with_hints (setMaxBytes n (hints_ m)) m.

Definition setHintJournal (path : bytes) m : ReplicationManager St :=
  mkRepl (local_ m) (hints_ m) path (journal_ m) (files m) (replaying m) (read_flights m) (outbox m).

Definition recoverHints (io : OpenJournalIo) (c : Clock) m : option (Z * ReplicationManager St) :=
  if decide (hint_journal_path m = []) then Some (0, m)
  else
    '(n, q, j, d) ← openJournal hint_size xxh3 io c (hint_journal_path m) (hints_ m) emptyJournal (files m);
    Some (n, with_journal (Some j) d (with_hints q m)).

(** [None] is a failed assertion of a component. *)
Definition enqueueHint (target : bytes) (req : Request) (mo : Moment) m : option (ReplicationManager St) :=
  let c := at_clock mo in
  let h := mkHint target req (now c + K_HINT_TTL) in
  m ← match journal_ m with
      | None => Some m
      | Some j =>
          '(j, d) ← appendAdd xxh3 (at_append mo) h (sysHintExpiryMs c) j (files m);
          if needsCompaction j then
            '(q, j, d) ← compact hint_size xxh3 (at_compact mo) c (hints_ m) j d;
            Some (with_journal (Some j) d (with_hints q m))
          else Some (with_journal (Some j) d m)
      end;
  '(_, q) ← push hint_size h (hints_ m);
  Some (with_hints q m).

Fixpoint enqueueAll (req : Request) (calls : list (bytes * Moment)) m : option (ReplicationManager St) :=
  match calls with
  | [] => Some m
  | (target, mo) :: calls => m ← enqueueHint target req mo m; enqueueAll req calls m
  end.

(** The local commit has happened: the sends, the decision and the hints. *)
Definition replicate_ (req : Request) (replicas : list bytes) (mode : ConsistencyMode)
    (acts : list (Action (Result () * Moment))) m : option (list (Result ()) * ReplicationManager St) :=
  let '(done, hinted) := fanOutWrite replicas mode acts in
  m ← enqueueAll req hinted (send ((λ node, (node, req)) <$> replicas) m);
  Some (done, m).

Definition writeEntry (c : Clock) (v : bytes) (ttl : option Z) (ver : Z) : Entry.VersionedEntry :=
  let e := Entry.with_writer (fnv1a64 self) (Entry.setVersion ver (Entry.with_value v Entry.emptyEntry)) in
  match ttl with
  | Some ms => Entry.setHasTtl true (Entry.with_expires (now c + ms * 1000000) e)
  | None => e
  end.

Definition wireExpiry (c : Clock) (e : Entry.VersionedEntry) : option Z :=
  if Entry.hasTtl e then Some (toSystemExpiry c (Entry.expires_at e)) else None.

Definition writeAsync (c : Clock) (key v : bytes) (ttl : option Z) (replicas : list bytes) (mode : ConsistencyMode)
    (trace span : Z) (acts : list (Action (Result () * Moment))) m : option (list (Result ()) * ReplicationManager St) :=
  let '(ver, s) := cs_mintVersion (local_ m) in
  let entry := writeEntry c v ttl ver in
  '(res, s) ← cs_putVersioned c key entry s;
  let m := with_local s m in
  match res with
  | Err e => Some ([Err e], m)
  | Ok _ =>
      let req := mkRequest Replicate trace span key v ver (fnv1a64 self) None (wireExpiry c entry) false in
      replicate_ req replicas mode acts m
  end.

Definition deleteAsync (c : Clock) (key : bytes) (replicas : list bytes) (mode : ConsistencyMode)
    (trace span : Z) (acts : list (Action (Result () * Moment))) m : option (list (Result ()) * ReplicationManager St) :=
  let '(ver, s) := cs_mintVersion (local_ m) in
  '(res, s) ← cs_removeVersioned c key ver (fnv1a64 self) s;
  match res with
  | Err e => Some ([Err e], with_local s m)
  | Ok _ =>
      '(tomb, s) ← cs_getVersioned c key s;
      let expiry := match tomb with
                    | Some t => if Entry.isTombstone t then wireExpiry c t else None
                    | None => None
                    end in
      let req := mkRequest Replicate trace span key [] ver (fnv1a64 self) None expiry true in
      replicate_ req replicas mode acts (with_local s m)
  end.

(** The request of a repair; [ctx] is the context of its span. *)
Definition repairRequest (c : Clock) (ctx : Z * Z) (key : bytes) (winner : Entry.VersionedEntry) : Request :=
  mkRequest Replicate ctx.1 ctx.2 key (Entry.value winner) (Entry.version winner) (Entry.writer_node_hash winner) None
    (wireExpiry c winner) (Entry.isTombstone winner).

Definition sendRepairFanOut (c : Clock) (ctx : Z * Z) (key : bytes) (targets : list bytes) (winner : Entry.VersionedEntry) m
  : ReplicationManager St := send ((λ t, (t, repairRequest c ctx key winner)) <$> targets) m.

Definition served (best : option Entry.VersionedEntry) : Result Entry.VersionedEntry :=
  match best with Some e => Ok e | None => Err err_not_found end.

(** The decision of a read: heal the local store, repair the replicas, answer
    the flight.  A failed heal is ignored. *)
Definition decideRead (c : Clock) (ctx : Z * Z) (key : bytes) (R : nat) (replicas : list bytes) (flight : nat)
    (decision : option Entry.VersionedEntry * bool) m
  : option (list (nat * Result Entry.VersionedEntry) * ReplicationManager St) :=
  m ← match decision with
      | (Some best, true) =>
          '(_, s) ← cs_putVersioned c key best (local_ m);
          Some (sendRepairFanOut c ctx key replicas best (with_local s m))
      | _ => Some m
      end;
  let '(calls, g) := finish key R flight (served decision.1) (read_flights m) in
  Some (calls, with_flights g m).

Fixpoint decideAll (c : Clock) (ctx : Z * Z) (key : bytes) (R : nat) (replicas : list bytes) (flight : nat)
    (decisions : list (option Entry.VersionedEntry * bool)) m
  : option (list (nat * Result Entry.VersionedEntry) * ReplicationManager St) :=
  match decisions with
  | [] => Some ([], m)
  | x :: xs =>
      '(calls, m) ← decideRead c ctx key R replicas flight x m;
      '(more, m) ← decideAll c ctx key R replicas flight xs m;
      Some (calls ++ more, m)
  end.

(** The callbacks called, each with its result; [cb] is the caller's.  [c'] is
    the clock at the decision. *)
Definition readAsync (c c' : Clock) (ctx : Z * Z) (key : bytes) (replicas : list bytes) (R : nat) (cb : nat)
    (trace span : Z) (acts : list (Action Answer)) m
  : option (list (nat * Result Entry.VersionedEntry) * ReplicationManager St) :=
  '(local_entry, s) ← cs_getVersioned c key (local_ m);
  let m := with_local s m in
  if decide (replicas = [] ∨ (R <= 1)%nat) then Some ([(cb, served local_entry)], m)
  else
    let '(flight, is_leader, g) := attach key R cb (read_flights m) in
    let m := with_flights g m in
    if negb is_leader then Some ([], m)
    else
      let req := mkRequest GetVersioned trace span key [] 0 0 None None false in
      let m := send ((λ node, (node, req)) <$> replicas) m in
      let d := reduced (quorumRead (length replicas) (Z.of_nat R) local_entry acts) in
      decideAll c' ctx key R replicas flight (rq_decision d) m.

(** A hint that was delivered leaves the queue and the journal. *)
Definition dropReplayed (e : SnapshotEntry) (mo : Moment) m : option (ReplicationManager St) :=
  q ← removeHandle hint_size (snap_handle e) (hints_ m);
  let m := with_hints q m in
  match journal_ m with
  | None => Some m
  | Some j =>
      let r := hint_req (snap_hint e) in
      '(j, d) ← appendDel xxh3 (at_append mo) (hint_target (snap_hint e)) (key r) (version r) j (files m);
      Some (with_journal (Some j) d m)
  end.

Fixpoint dropAll (l : list (SnapshotEntry * Moment)) m : option (ReplicationManager St) :=
  match l with
  | [] => Some m
  | (e, mo) :: l => m ← dropReplayed e mo m; dropAll l m
  end.

Definition replayHints (c : Clock) (acts : list (Action (Result () * Moment))) m
  : option (list Z * ReplicationManager St) :=
  if replaying m then Some ([0], m)
  else
    '(batch, q) ← snapshot hint_size (now c) K_REPLAY_BATCH (hints_ m);
    let m := with_hints q m in
    if decide (batch = []) then Some ([0], m)
    else
      let m := send ((λ e, (hint_target (snap_hint e), hint_req (snap_hint e))) <$> batch) m in
      let d := reduced (replayBatch batch acts) in
      m ← dropAll (hr_removed d) m;
      Some (hr_done d, with_replaying (bool_decide (hr_done d = [])) m).

End manager.

(** ** The write decision *)

Section write_facts.
Context (replicas : list bytes).
Implicit Types evs : list (nat * (Result () * Moment)).

Definition acked (ev : nat * (Result () * Moment)) : bool := match ev.2.1 with Ok _ => true | Err _ => false end.

Definition acks_of evs : Z := Z.of_nat (length (filter acked evs)).
Definition fails_of evs : Z := Z.of_nat (length (filter (λ ev, negb (acked ev)) evs)).

(** The calls of [enqueueHint]: one for each failed report, in their order. *)
Definition hints_of evs : list (bytes * Moment) :=
  (λ ev, (default [] (replicas !! ev.1), ev.2.2)) <$> filter (λ ev, negb (acked ev)) evs.

Lemma acks_cons ev evs : acks_of (ev :: evs) = (if acked ev then 1 else 0) + acks_of evs.
Proof. unfold acks_of. rewrite filter_cons. destruct (acked ev); case_decide; cbn [Is_true] in *; try tauto; cbn [length]; lia. Qed.

Lemma fails_cons ev evs : fails_of (ev :: evs) = (if acked ev then 0 else 1) + fails_of evs.
Proof. unfold fails_of. rewrite filter_cons. destruct (acked ev); case_decide; cbn [negb Is_true] in *; try tauto; cbn [length]; lia. Qed.

Lemma hints_cons ev evs :
  hints_of (ev :: evs) = (if acked ev then [] else [(default [] (replicas !! ev.1), ev.2.2)]) ++ hints_of evs.
Proof. unfold hints_of. rewrite filter_cons. by destruct (acked ev). Qed.

Lemma acks_fails evs : acks_of evs + fails_of evs = Z.of_nat (length evs).
Proof.
  induction evs as [|ev evs IH]; [done|]. rewrite acks_cons, fails_cons. cbn [length]. destruct (acked ev); lia.
Qed.

Lemma acks_app evs evs' : acks_of (evs ++ evs') = acks_of evs + acks_of evs'.
Proof. unfold acks_of. rewrite filter_app, length_app. lia. Qed.

Lemma fails_app evs evs' : fails_of (evs ++ evs') = fails_of evs + fails_of evs'.
Proof. unfold fails_of. rewrite filter_app, length_app. lia. Qed.

Lemma wq_fold active evs st :
  0 <= wq_acks st -> Z.of_nat (length evs) <= wq_pending st → wq_pending st < 2 ^ 62 → wq_acks st + Z.of_nat (length evs) < 2 ^ 64 →
  foldl (each (wq_each replicas) active) st evs =
    mkWriteQuorum (wq_acks st + if active then acks_of evs else 0) (wq_pending st - Z.of_nat (length evs)) (wq_w st)
      (wq_done st) (wq_hinted st ++ hints_of evs).
Proof.
  revert st. induction evs as [|[i [[[]|e] mo]] evs IH]; intros st Ha Hl Hp Hs; cbn [foldl length] in *.
  - unfold hints_of. rewrite filter_nil, fmap_nil, app_nil_r. destruct st. cbn. destruct active; f_equal; unfold acks_of; cbn; lia.
  - unfold each at 2. cbn [wq_each fst snd]. rewrite (wrap_small 64 (wq_pending st - 1)) by (unfold in_u; lia).
    rewrite (wrap_small 64 (wq_acks st + 1)) by (unfold in_u; lia). rewrite IH by (destruct active; cbn; lia).
    cbn [wq_acks wq_pending wq_w wq_done wq_hinted]. rewrite acks_cons, hints_cons. cbn [acked fst snd app].
    f_equal; [destruct active; lia|lia].
  - unfold each at 2. cbn [wq_each fst snd]. rewrite (wrap_small 64 (wq_pending st - 1)) by (unfold in_u; lia).
    rewrite IH by (cbn; lia). cbn [wq_acks wq_pending wq_w wq_done wq_hinted]. rewrite acks_cons, hints_cons, <- app_assoc. cbn [acked fst snd]. f_equal; lia.
Qed.

(** What a quorum of the reports decides. *)
Definition write_verdict evs : list (Result ()) :=
  let w := write_quorum replicas in
  if w <=? 1 + acks_of evs then [Ok ()]
  else if 1 + (Z.of_nat (length replicas) - fails_of evs) <? w then [Err err_quorum]
  else [].

Lemma wq_decided evs f st :
  (0 < length replicas)%nat → Z.of_nat (length replicas) < 2 ^ 62 → (length evs <= length replicas)%nat →
  decided (wq_each replicas) wq_should_fire wq_fire evs (initWriteQuorum replicas) f st →
  wq_done st = write_verdict evs ∧ wq_hinted st = hints_of evs.
Proof.
  intros Hpos Hn Hl Hd. unfold write_verdict, initWriteQuorum in *. remember (Z.of_nat (length replicas)) as n eqn:En.
  assert (Hw : 2 <= write_quorum replicas <= n + 1).
  { unfold write_quorum. rewrite Nat2Z.inj_add, <- En. change (Z.of_nat 1) with 1. pose proof (Z.div_mod (n + 1) 2). pose proof (Z.mod_pos_bound (n + 1) 2). lia. }
  set (w := write_quorum replicas) in *.
  assert (Hfold : ∀ p, (length p <= length replicas)%nat →
    foldl (each (wq_each replicas) true) (mkWriteQuorum 1 n w [] []) p = mkWriteQuorum (1 + acks_of p) (n - Z.of_nat (length p)) w [] (hints_of p)).
  { intros p Hp. rewrite wq_fold; cbn [wq_acks wq_pending wq_w wq_done wq_hinted]; [done|lia..]. }
  assert (Hfire : ∀ p, (length p <= length replicas)%nat →
    wq_should_fire (mkWriteQuorum (1 + acks_of p) (n - Z.of_nat (length p)) w [] (hints_of p)) =
      (w <=? 1 + acks_of p) || (1 + (n - fails_of p) <? w)).
  { intros p Hp. unfold wq_should_fire. cbn [wq_acks wq_pending wq_w]. pose proof (acks_fails p).
    assert (0 <= acks_of p) by (unfold acks_of; lia). assert (0 <= fails_of p) by (unfold fails_of; lia).
    rewrite wrap_small by (unfold in_u; lia). 
    destruct (Z.leb_spec w (1 + acks_of p)), (Z.eqb_spec (n - Z.of_nat (length p)) 0), (Z.ltb_spec (1 + acks_of p + (n - Z.of_nat (length p))) w),
      (Z.ltb_spec (1 + (n - fails_of p)) w); cbn [orb]; (done || (exfalso; lia)). }
  destruct Hd as [(-> & -> & Hno)|(-> & p & q & -> & Hp & Hf & Hno & ->)].
  - rewrite Hfold by done. cbn [wq_done wq_hinted]. split; [|done]. destruct (decide (evs = [])) as [->|Hne].
    + unfold acks_of, fails_of. rewrite !filter_nil. cbn [length]. destruct (Z.leb_spec w (1 + Z.of_nat 0)); [lia|].
      destruct (Z.ltb_spec (1 + (n - Z.of_nat 0)) w); [lia|done].
    + specialize (Hno evs (reflexivity _) Hne). rewrite Hfold, Hfire in Hno by done. apply orb_false_iff in Hno as [-> ->]. done.
  - rewrite length_app in Hl. rewrite Hfold in Hf |- * by lia. rewrite Hfire in Hf by lia.
    assert (Hap : acks_of p + fails_of p = Z.of_nat (length p)) by apply acks_fails.
    assert (Haq : acks_of q + fails_of q = Z.of_nat (length q)) by apply acks_fails.
    assert (0 <= acks_of q ∧ 0 <= fails_of q ∧ 0 <= acks_of p ∧ 0 <= fails_of p) as (? & ? & ? & ?) by (unfold acks_of, fails_of; lia).
    rewrite wq_fold; unfold wq_fire; cbn [wq_acks wq_pending wq_w wq_done wq_hinted]; [|lia..].
    split; [|unfold hints_of; by rewrite filter_app, fmap_app]. rewrite acks_app, fails_app. cbn [app].
    apply orb_true_iff in Hf as [Hf%Z.leb_le|Hf%Z.ltb_lt].
    + destruct (Z.leb_spec w (1 + acks_of p)); [|lia]. destruct (Z.leb_spec w (1 + (acks_of p + acks_of q))); [done|lia].
    + destruct (Z.leb_spec w (1 + acks_of p)); [lia|]. destruct (Z.leb_spec w (1 + (acks_of p + acks_of q))); [lia|].
      destruct (Z.ltb_spec (1 + (n - (fails_of p + fails_of q))) w); [done|lia].
Qed.

(** The reports a fan-out has reduced. *)
Lemma quorumWrite_spec acts :
  replicas ≠ [] → Z.of_nat (length replicas) < 2 ^ 62 →
  let d := quorumWrite replicas acts in
  let evs := take (Fanout.seen d) (first_reports (length replicas) [] (reports acts)) in
  wq_done (reduced d) = write_verdict evs ∧ wq_hinted (reduced d) = hints_of evs.
Proof.
  intros Hne Hn d evs. pose proof (fanOut_inv (length replicas) (wq_each replicas) wq_should_fire wq_fire acts (initWriteQuorum replicas)) as I.
  pose proof (first_reports_length (length replicas) (reports acts)) as HL.
  eapply wq_decided; [destruct replicas; [done|simpl; lia]|done| |exact (dr_decided _ _ _ _ _ _ _ I)].
  unfold evs. rewrite length_take. lia.
Qed.

End write_facts.

(** C22: the decision of a quorum write is the quorum's.  Whatever the order of
    the reports and of the consumer's turns, [on_done] is called at most once:
    with success exactly when the local write and the replicas that acknowledged
    make a quorum, with an error exactly when those that have not failed cannot
    make one any more, and not yet otherwise; when the fan-out is through it was
    called.  Each failed replica got one hint, early or late, and no other. *)
Theorem write_quorum_decision (replicas : list bytes) (acts : list (Action (Result () * Moment))) :
  replicas ≠ [] → Z.of_nat (length replicas) < 2 ^ 62 →
  let d := quorumWrite replicas acts in
  let evs := take (Fanout.seen d) (first_reports (length replicas) [] (reports acts)) in
  fanOutWrite replicas Quorum acts = (write_verdict replicas evs, hints_of replicas evs) ∧
  (Fanout.seen d = length replicas → write_verdict replicas evs ≠ [] ∧ evs.*1 ≡ₚ seq 0 (length replicas)).
Proof.
  intros Hne Hn d evs. pose proof (first_reports_length (length replicas) (reports acts)) as HL.
  destruct (quorumWrite_spec replicas acts Hne Hn) as [E1 E2]. fold d in E1, E2. fold evs in E1, E2.
  unfold fanOutWrite. rewrite decide_False by done. fold d. rewrite E1, E2. split; [done|]. intros Hs.
  destruct (fanOut_done _ _ _ _ _ _ Hs) as [_ HP].
  assert (Ee : evs = first_reports (length replicas) [] (reports acts)) by (unfold evs; apply take_ge; lia).
  rewrite Ee at 2. split; [|exact HP].
  pose proof (acks_fails evs) as Ha. apply Permutation_length in HP. rewrite length_fmap, length_seq in HP.
  rewrite Ee, HP, <- Ee in Ha. unfold write_verdict. destruct (Z.leb_spec (write_quorum replicas) (1 + acks_of evs)); [done|].
  destruct (Z.ltb_spec (1 + (Z.of_nat (length replicas) - fails_of evs)) (write_quorum replicas)); [done|lia].
Qed.

(** ** The read decision *)

Lemma rq_fold evs st :
  foldl (each rq_each true) st evs = mkReadQuorum (foldl note (rq_reducer st) evs.*2) (rq_decision st).
Proof. revert st. induction evs as [|[i a] evs IH]; intros st; [by destruct st|]. cbn [foldl]. rewrite IH. done. Qed.

Lemma rq_fold_late evs st : foldl (each rq_each false) st evs = st.
Proof. revert st. induction evs as [|[i a] evs IH]; intros st; [done|]. cbn [foldl]. rewrite IH. by destruct st. Qed.

(** The decision of a read: over the answers [p] that came before it, the last
    of which completed the quorum or was the last of all. *)
Definition read_verdict (n : nat) (R : Z) (local : option Entry.VersionedEntry) (evs : list (nat * Answer))
    (decisions : list (option Entry.VersionedEntry * bool)) : Prop :=
  decisions = [] ∧ (length evs < n)%nat ∧ (evs = [] ∨ (if local then 1 else 0) + Z.of_nat (length (votes evs.*2)) < R) ∨
  ∃ p q d, evs = p ++ q ∧ decisions = [(best_entry d, needs_repair d)] ∧ summary R (Z.of_nat n) local p.*2 d ∧
    p ≠ [] ∧ (R <= (if local then 1 else 0) + Z.of_nat (length (votes p.*2)) ∨ q = [] ∧ length p = n) ∧
    ∀ p', p' `prefix_of` p → p' ≠ [] → p' ≠ p → (if local then 1 else 0) + Z.of_nat (length (votes p'.*2)) < R.

Lemma rq_decided n R local evs f st :
  (0 < n)%nat → Z.of_nat n < 2 ^ 63 → (length evs <= n)%nat → Forall answer_ok evs.*2 →
  decided rq_each rq_should_fire rq_fire evs (mkReadQuorum (newReducer R (Z.of_nat n) local) []) f st →
  read_verdict n R local evs (rq_decision st).
Proof.
  intros Hpos Hn Hl Hok Hd.
  assert (Hsum : ∀ p q, evs = p ++ q → summary R (Z.of_nat n) local p.*2 (foldl note (newReducer R (Z.of_nat n) local) p.*2)).
  { intros p q ->. rewrite fmap_app in Hok. apply Forall_app in Hok as [Hok _]. rewrite length_app in Hl.
    apply summary_fold; [done|rewrite length_fmap; lia|done]. }
  assert (Hfire : ∀ p q, evs = p ++ q →
    rq_should_fire (foldl (each rq_each true) (mkReadQuorum (newReducer R (Z.of_nat n) local) []) p) =
      (R <=? (if local then 1 else 0) + Z.of_nat (length (votes p.*2))) || (Z.of_nat n - Z.of_nat (length p) =? 0)).
  { intros p q E. rewrite rq_fold. unfold rq_should_fire, shouldFire. cbn [rq_reducer]. destruct (Hsum p q E) as [-> -> -> _ _ _].
    by rewrite length_fmap. }
  destruct Hd as [(-> & -> & Hno)|(-> & p & q & -> & Hp & Hf & Hno & ->)].
  - left. rewrite rq_fold. cbn [rq_decision]. destruct (decide (evs = [])) as [->|Hne]; [split_and!; [done|done|by left]|].
    specialize (Hno evs (reflexivity _) Hne). rewrite (Hfire evs []) in Hno by (by rewrite app_nil_r).
    apply orb_false_iff in Hno as [H1%Z.leb_gt H2%Z.eqb_neq]. split_and!; [done|lia|by right].
  - right. rewrite rq_fold_late, rq_fold. cbn [rq_fire rq_decision rq_reducer app].
    exists p, q, (foldl note (newReducer R (Z.of_nat n) local) p.*2). split_and!; [done..|by eapply Hsum|done| |].
    + rewrite (Hfire p q eq_refl) in Hf. apply orb_true_iff in Hf as [Hf%Z.leb_le|Hf%Z.eqb_eq]; [by left|right].
      rewrite length_app in Hl. split; [apply nil_length_inv; lia|lia].
    + intros p' Hp' Hne Hne'. specialize (Hno p' Hp' Hne Hne'). destruct Hp' as [x ->]. rewrite (Hfire p' (x ++ q)) in Hno by (by rewrite app_assoc).
      apply orb_false_iff in Hno as [Hno%Z.leb_gt _]. done.
Qed.

Lemma quorumRead_verdict n R local acts :
  (0 < n)%nat → Z.of_nat n < 2 ^ 63 → Forall answer_ok (reports acts).*2 →
  let d := quorumRead n R local acts in
  read_verdict n R local (take (Fanout.seen d) (first_reports n [] (reports acts))) (rq_decision (reduced d)).
Proof.
  intros Hpos Hn Hok d. pose proof (fanOut_inv n rq_each rq_should_fire rq_fire acts (mkReadQuorum (newReducer R (Z.of_nat n) local) [])) as I.
  pose proof (first_reports_length n (reports acts)) as HL.
  eapply rq_decided; [done..| | |exact (dr_decided _ _ _ _ _ _ _ I)].
  - rewrite length_take. lia.
  - rewrite fmap_take. apply Forall_take. apply Forall_fmap, Forall_forall. intros ev Hev.
    apply Forall_fmap, Forall_forall with (x := ev) in Hok; [done|]. by eapply first_reports_subset.
Qed.
