(* ===== verification/ReplicationSpec.v ===== *)
(** * What the replication manager does

    Writes, deletes and reads of the manager over any store that keeps the laws
    of the interface, and the replay of hints: the local effect, the messages
    sent, the answers given, the hints queued and removed. *)

From S2P Require Import Prelude Types Bytes Protocol Buffers Clock Wal Persistence CacheStore HintQueue HintJournal Fanout ReadQuorum Replication.
Import Lww LwwFacts.
Local Open Scope Z_scope.

(** A version above the resident one wins. *)
Lemma applyLww_newer o e : (∀ x, o = Some x → Entry.version x < Entry.version e) → applyLww o e = e.
Proof.
  intros Hv. destruct (applyLww_max o e) as ([?|Ho] & Hle & _); [done|]. exfalso. specialize (Hv _ Ho).
  assert (Hge : Entry.version e <= Entry.version (applyLww o e)).
  { destruct Hle as [Hle|Hle]; [apply (f_equal s_version) in Hle|destruct Hle as [Hle|[Hle _]]]; cbn in Hle; lia. }
  lia.
Qed.

(** The calls of [push] for the calls of [enqueueHint]. *)
Definition hint_pushes (req : Request) (calls : list (bytes * Moment)) : list QueueOp :=
  (λ '(t, mo), Push (mkHint t req (now (at_clock mo) + K_HINT_TTL))) <$> calls.

Section manager.
Context {St : Type} `{CacheStoreLaws St}.
Context (hint_size : Z) (xxh3 : bytes → Z) (self : bytes).
Implicit Types m : ReplicationManager St.

Lemma enqueueAll_run req calls m os q :
  journal_ m = None → queue_run hint_size (hint_pushes req calls) (hints_ m) = Some (os, q) →
  enqueueAll hint_size xxh3 req calls m = Some (with_hints q m).
Proof.
  intros Hj. revert m os Hj. induction calls as [|[t mo] calls IH]; intros m os Hj; cbn [hint_pushes fmap list_fmap queue_run].
  { intros [= _ <-]. by destruct m. }
  cbn [queue_step enqueueAll]. unfold enqueueHint. cbv zeta. rewrite Hj. cbn [mbind option_bind].
  destruct (push _ _ _) as [[b q1]|]; [|done]. cbn [mbind option_bind].
  destruct (queue_run _ _ q1) as [[os1 q2]|] eqn:E; [|done]. cbn [mbind option_bind]. intros [= _ <-].
  rewrite (IH (with_hints q1 m) os1 Hj E). done.
Qed.

Lemma setVersion_of ver e : in_u 62 ver → Entry.wf e → Entry.version (Entry.setVersion ver e) = ver.
Proof. intros Hv Hw. rewrite EntryFacts.setVersion_version by done. by apply wrap_small. Qed.

Lemma writeEntry_facts c v ttl ver :
  in_u 62 ver → Entry.wf (writeEntry self c v ttl ver) ∧
  stampOf (writeEntry self c v ttl ver) = mkStamp ver (fnv1a64 self) false ∧ Entry.value (writeEntry self c v ttl ver) = v.
Proof.
  intros Hv. unfold writeEntry. cbv zeta. set (e0 := Entry.with_value v Entry.emptyEntry).
  assert (Hw0 : Entry.wf e0) by done. assert (Hw1 : Entry.wf (Entry.setVersion ver e0)) by (by apply EntryFacts.setVersion_wf).
  assert (Ht : Entry.isTombstone (Entry.setVersion ver e0) = false) by (by rewrite EntryFacts.setVersion_isTombstone).
  destruct ttl as [ms|].
  - split_and!; [by apply EntryFacts.setHasTtl_wf| |done]. unfold stampOf.
    rewrite EntryFacts.setHasTtl_version, EntryFacts.setHasTtl_isTombstone by done.
    change (mkStamp (Entry.version (Entry.setVersion ver e0)) (fnv1a64 self) (Entry.isTombstone (Entry.setVersion ver e0)) = mkStamp ver (fnv1a64 self) false).
    by rewrite Ht, setVersion_of.
  - split_and!; [done| |done]. unfold stampOf.
    change (mkStamp (Entry.version (Entry.setVersion ver e0)) (fnv1a64 self) (Entry.isTombstone (Entry.setVersion ver e0)) = mkStamp ver (fnv1a64 self) false).
    by rewrite Ht, setVersion_of.
Qed.

Definition writeRequest (c : Clock) (trace span : Z) (k v : bytes) (ttl : option Z) (ver : Z) : Request :=
  mkRequest Replicate trace span k v ver (fnv1a64 self) None (wireExpiry c (writeEntry self c v ttl ver)) false.

(** The reports a fan-out has reduced. *)
Definition reduced_reports {A} (n : nat) (seen : nat) (acts : list (Action A)) : list (nat * A) :=
  take seen (first_reports n [] (reports acts)).

(** All of them, when the consumer had its turns behind the last one. *)
Definition all_turns {A} (n : nat) (acts : list (Action A)) : Prop := ∃ early, acts = early ++ replicate n Receive.

Lemma all_reduced {A S} n (on_each : nat → A → bool → S → S) should_fire fire acts (s : S) :
  all_turns n acts → reduced_reports n (Fanout.seen (fanOutQuorum n on_each should_fire fire acts s)) acts = first_reports n [] (reports acts).
Proof. intros [early ->]. unfold reduced_reports. rewrite fanOut_drained, reports_turns. apply take_ge. done. Qed.

(** What a fan-out of a write does: the calls of [on_done], and the replicas
    that get a hint. *)
Definition write_outcome (replicas : list bytes) (mode : ConsistencyMode) (acts : list (Action (Result () * Moment)))
  : list (Result ()) * list (bytes * Moment) :=
  match mode with
  | Async => ([Ok ()], hints_of replicas (filter (λ ev, (ev.1 < length replicas)%nat) (reports acts)))
  | Quorum =>
      if decide (replicas = []) then ([Ok ()], [])
      else let evs := reduced_reports (length replicas) (Fanout.seen (quorumWrite replicas acts)) acts in
           (write_verdict replicas evs, hints_of replicas evs)
  end.

Lemma fanOutWrite_outcome replicas mode acts : Z.of_nat (length replicas) < 2 ^ 62 → fanOutWrite replicas mode acts = write_outcome replicas mode acts.
Proof.
  intros Hn. unfold fanOutWrite, write_outcome. destruct mode.
  - f_equal. induction (reports acts) as [|[i [r mo]] evs IH]; [done|]. cbn [omap list_omap fst snd]. rewrite filter_cons. cbn [fst].
    destruct (decide (i < length replicas)%nat) as [Hi|Hi].
    + rewrite hints_cons. cbn [acked fst snd]. destruct r; [exact IH|]. destruct (lookup_lt_is_Some_2 _ _ Hi) as [x Hx]. rewrite Hx.
      cbn [fmap option_fmap option_map default app]. by rewrite IH.
    + rewrite lookup_ge_None_2 by lia. cbn [fmap option_fmap option_map]. by destruct r.
  - case_decide as Hne; [done|]. destruct (quorumWrite_spec replicas acts Hne Hn) as [-> ->]. done.
Qed.

(** The hints of a fan-out are for its replicas. *)
Lemma fanOutWrite_targets replicas mode acts t mo :
  Z.of_nat (length replicas) < 2 ^ 62 → (t, mo) ∈ (fanOutWrite replicas mode acts).2 → t ∈ replicas.
Proof.
  intros Hn. unfold fanOutWrite. destruct mode; cbn [snd].
  - intros ([i [r mo']] & _ & E)%list_elem_of_omap. cbn [fst snd] in E. destruct r; [done|].
    destruct (replicas !! i) eqn:Ei; [|done]. cbn in E. injection E as -> ->. by eapply list_elem_of_lookup_2.
  - case_decide as Hne; [by intros ?%not_elem_of_nil|]. cbn [snd].
    destruct (quorumWrite_spec replicas acts Hne Hn) as [_ ->].
    unfold hints_of. intros ([i [r mo']] & E & [_ Hin]%list_elem_of_filter)%list_elem_of_fmap. cbn [fst snd] in E.
    injection E as -> ->. assert (Hi : i ∈ (first_reports (length replicas) [] (reports acts)).*1).
    { apply list_elem_of_fmap. exists (i, (r, mo')). split; [done|]. apply elem_of_take in Hin as (j & Hj & _). by eapply list_elem_of_lookup_2. }
    apply first_reports_range in Hi as [Hi _]. destruct (lookup_lt_is_Some_2 _ _ Hi) as [x Hx]. rewrite Hx. by eapply list_elem_of_lookup_2.
Qed.

Lemma fanOutWrite_once replicas mode acts : Z.of_nat (length replicas) < 2 ^ 62 → (length (fanOutWrite replicas mode acts).1 <= 1)%nat.
Proof.
  intros Hn. unfold fanOutWrite. destruct mode; [done|]. case_decide as Hne; [done|]. cbn [fst].
  destruct (quorumWrite_spec replicas acts Hne Hn) as [-> _]. unfold write_verdict. destruct (_ <=? _); [done|]. destruct (_ <? _); cbn; lia.
Qed.

Lemma replicate_run req replicas mode acts m a f :
  Z.of_nat (length replicas) < 2 ^ 62 → journal_ m = None → rep hint_size (hints_ m) a f →
  (∀ t, t ∈ replicas → in_u 63 (hint_size + zlen t + zlen (key req) + zlen (value req))) →
  let '(done, hinted) := fanOutWrite replicas mode acts in
  Z.of_nat (length (issued a)) + Z.of_nat (length hinted) < 2 ^ 64 →
  ∃ os q a' f', replicate_ hint_size xxh3 req replicas mode acts m =
      Some (done, with_hints q (send ((λ node, (node, req)) <$> replicas) m)) ∧
    fifo_run hint_size (hint_pushes req hinted) os a a' ∧ rep hint_size q a' f'.
Proof.
  intros Hn Hj R Hw. pose proof (λ t mo, fanOutWrite_targets replicas mode acts t mo Hn) as Ht. unfold replicate_.
  destruct (fanOutWrite replicas mode acts) as [dn hinted]. cbn [snd] in Ht. intros Hl.
  destruct (run_sim hint_size (hint_pushes req hinted) (hints_ m) a f R) as (os & q & a' & f' & Eq & Hr & R').
  - apply Forall_forall. intros op ([t mo] & -> & Hin)%list_elem_of_fmap. cbn [op_ok]. unfold weight. cbn [hint_target hint_req]. by eapply Hw, Ht.
  - unfold hint_pushes. by rewrite length_fmap.
  - exists os, q, a', f'. split_and!; [|done..]. by rewrite (enqueueAll_run req hinted (send _ m) os q Hj Eq).
Qed.

(** What one replicated mutation has done to the manager: the key holds [o],
    whose version [ver] is above all there were. *)
Record committed (m m' : ReplicationManager St) (k : bytes) (o : option Entry.VersionedEntry) (ver n : Z) : Prop := mkCommitted {
  cm_inv : cs_inv (local_ m');
  cm_lookup : ∀ k', cs_lookup (local_ m') k' = if decide (k' = k) then o else cs_lookup (local_ m) k';
  cm_version : in_u 62 ver ∧ ∀ k' x, cs_lookup (local_ m) k' = Some x → Entry.version x < ver;
  cm_room : cs_room n (local_ m') }.

Lemma writeAsync_run c k v ttl replicas mode trace span acts m a f n :
  cs_inv (local_ m) → cs_mintable (local_ m) → 0 <= n → cs_room (zlen k + zlen v + cs_node_bytes + n) (local_ m) →
  Z.of_nat (length replicas) < 2 ^ 62 → journal_ m = None → rep hint_size (hints_ m) a f →
  (∀ t, t ∈ replicas → in_u 63 (hint_size + zlen t + zlen k + zlen v)) →
  let '(done, hinted) := fanOutWrite replicas mode acts in
  Z.of_nat (length (issued a)) + Z.of_nat (length hinted) < 2 ^ 64 →
  ∃ ver os a' f' m', let req := writeRequest c trace span k v ttl ver in
    writeAsync hint_size xxh3 self c k v ttl replicas mode trace span acts m = Some (done, m') ∧
    committed m m' k (Some (writeEntry self c v ttl ver)) ver n ∧
    outbox m' = outbox m ++ ((λ node, (node, req)) <$> replicas) ∧ read_flights m' = read_flights m ∧
    fifo_run hint_size (hint_pushes req hinted) os a a' ∧ rep hint_size (hints_ m') a' f'.
Proof.
  intros Hi Hm Hn0 Hr Hn Hj R Hw. unfold writeAsync. pose proof (cs_mint_law (local_ m) Hi Hm) as Hmint.
  destruct (cs_mintVersion (local_ m)) as [ver s1]. destruct Hmint as (Hi1 & Hl1 & Hr1 & Hver & Hlt).
  destruct (writeEntry_facts c v ttl ver Hver) as (Hwf & Hst & Hval).
  destruct (cs_put_law c k (writeEntry self c v ttl ver) n s1) as (s2 & -> & Hi2 & Hl2 & Hr2); [done|done|done|by rewrite Hval; apply Hr1|].
  cbn [mbind option_bind].
  pose proof (replicate_run (writeRequest c trace span k v ttl ver) replicas mode acts (with_local s2 m) a f Hn Hj R Hw) as Hrun.
  destruct (fanOutWrite replicas mode acts) as [dn hinted]. intros Hl. destruct (Hrun Hl) as (os & q & a' & f' & E & Hf & R').
  unfold writeRequest in E. cbv zeta. rewrite E.
  assert (Hve : Entry.version (writeEntry self c v ttl ver) = ver) by (by injection Hst).
  exists ver, os, a', f'. eexists. split_and!; [done| |done..].
  split; cbn [with_hints with_local send local_]; [done| |done|done].
  intros k'. rewrite Hl2. case_decide; [subst k'|apply Hl1]. f_equal. apply applyLww_newer. intros x. rewrite Hl1, Hve. apply Hlt.
Qed.

Definition deleteRequest (c : Clock) (trace span : Z) (k : bytes) (ver : Z) (tomb : option Entry.VersionedEntry) : Request :=
  mkRequest Replicate trace span k [] ver (fnv1a64 self) None (tomb ≫= wireExpiry c) true.

Lemma tombstoneEntry_facts ver writer t :
  in_u 62 ver → Entry.wf (tombstoneEntry ver writer t) ∧ stampOf (tombstoneEntry ver writer t) = mkStamp ver writer true.
Proof.
  intros Hv. split; [apply tombstoneEntry_wf|]. unfold tombstoneEntry, stampOf.
  assert (Hw : Entry.wf (Entry.setVersion ver Entry.emptyEntry)) by apply EntryFacts.setVersion_wf, EntryFacts.emptyEntry_wf.
  set (e := Entry.setTombstone true (Entry.setVersion ver Entry.emptyEntry)). assert (He : Entry.wf e) by (by apply EntryFacts.setTombstone_wf).
  rewrite EntryFacts.setHasTtl_version, EntryFacts.setHasTtl_isTombstone by done.
  change (mkStamp (Entry.version e) writer (Entry.isTombstone e) = mkStamp ver writer true).
  unfold e. rewrite EntryFacts.setTombstone_version, EntryFacts.setTombstone_isTombstone, setVersion_of by done. done.
Qed.

Lemma deleteAsync_run c k replicas mode trace span acts m a f n :
  cs_inv (local_ m) → cs_mintable (local_ m) → 0 <= n → cs_room (zlen k + cs_node_bytes + n) (local_ m) →
  Z.of_nat (length replicas) < 2 ^ 62 → journal_ m = None → rep hint_size (hints_ m) a f →
  (∀ t, t ∈ replicas → in_u 63 (hint_size + zlen t + zlen k + 0)) →
  let '(done, hinted) := fanOutWrite replicas mode acts in
  Z.of_nat (length (issued a)) + Z.of_nat (length hinted) < 2 ^ 64 →
  ∃ ver deadline os a' f' m',
    let tomb := unexpired c (Some (tombstoneEntry ver (fnv1a64 self) deadline)) in
    let req := deleteRequest c trace span k ver tomb in
    deleteAsync hint_size xxh3 self c k replicas mode trace span acts m = Some (done, m') ∧ committed m m' k tomb ver n ∧
    outbox m' = outbox m ++ ((λ node, (node, req)) <$> replicas) ∧ read_flights m' = read_flights m ∧
    fifo_run hint_size (hint_pushes req hinted) os a a' ∧ rep hint_size (hints_ m') a' f'.
Proof.
  intros Hi Hm Hn0 Hr Hn Hj R Hw. unfold deleteAsync. pose proof (cs_mint_law (local_ m) Hi Hm) as Hmint.
  destruct (cs_mintVersion (local_ m)) as [ver s1]. destruct Hmint as (Hi1 & Hl1 & Hr1 & Hver & Hlt).
  destruct (cs_remove_versioned_law c k ver (fnv1a64 self) n s1) as (s2 & dl & -> & Hi2 & Hl2 & Hr2); [done|done|by apply Hr1|].
  cbn [mbind option_bind]. destruct (tombstoneEntry_facts ver (fnv1a64 self) dl Hver) as [Hwf Hst].
  set (t := tombstoneEntry ver (fnv1a64 self) dl) in *. assert (Hvt : Entry.version t = ver ∧ Entry.isTombstone t = true) by (by injection Hst).
  assert (Hk : cs_lookup s2 k = Some t).
  { rewrite Hl2, decide_True by done. f_equal. apply applyLww_newer. intros x. rewrite Hl1, (proj1 Hvt). apply Hlt. }
  destruct (cs_get_law c k s2 Hi2) as (s3 & -> & Hi3 & Hl3 & Hr3). cbn [mbind option_bind]. rewrite Hk in *.
  pose proof (replicate_run (deleteRequest c trace span k ver (unexpired c (Some t))) replicas mode acts (with_local s3 m) a f Hn Hj R Hw) as Hrun.
  destruct (fanOutWrite replicas mode acts) as [dn hinted]. intros Hl. destruct (Hrun Hl) as (os & q & a' & f' & E & Hf & R').
  assert (Ex : match unexpired c (Some t) with Some t => if Entry.isTombstone t then wireExpiry c t else None | None => None end =
               (unexpired c (Some t) ≫= wireExpiry c)).
  { unfold unexpired. cbn [mbind option_bind]. destruct (Store.expired (now c) t); [done|]. cbn [option_bind]. by rewrite (proj2 Hvt). }
  cbv zeta. rewrite Ex. unfold deleteRequest in E. rewrite E.
  exists ver, dl, os, a', f'. eexists. split_and!; [done| |done..].
  split; cbn [with_hints with_local send local_]; [done| |done|by apply Hr3].
  intros k'. rewrite Hl3. case_decide; [done|]. rewrite Hl2, decide_False by done. apply Hl1.
Qed.

(** ** Reads *)

Definition readRequest (trace span : Z) (k : bytes) : Request := mkRequest GetVersioned trace span k [] 0 0 None None false.

(** What the decision of a read does: the callers of the flight get the winner,
    and when some replica differs the winner goes to the local store and out. *)
Record decided_read (c : Clock) (ctx : Z * Z) (k : bytes) (replicas : list bytes) (cb : nat) (local : option Entry.VersionedEntry)
    (sent : list (bytes * Request)) (decisions : list (option Entry.VersionedEntry * bool))
    (calls : list (nat * Result Entry.VersionedEntry)) (m m' : ReplicationManager St) (n : Z) : Prop := mkDecidedRead {
  dd_inv : cs_inv (local_ m');
  dd_calls : calls = (λ x, (cb, served x.1)) <$> decisions;
  dd_outbox : outbox m' = outbox m ++ sent ++
    (decisions ≫= λ x, match x with
                       | (Some e, true) => (λ t, (t, repairRequest c ctx k e)) <$> replicas
                       | _ => []
                       end);
  dd_lookup : ∀ k', cs_lookup (local_ m') k' =
    if decide (k' = k) then match decisions with [(Some e, true)] => Some (applyLww local e) | _ => local end
    else cs_lookup (local_ m) k';
  dd_hints : hints_ m' = hints_ m;
  dd_room : cs_room n (local_ m') }.

Lemma finish_own k R (cb : nat) g (res : Result Entry.VersionedEntry) :
  flights g !! (k, R) = None →
  (finish k R (next_flight g) res (attach k R cb g).2).1 = [(cb, res)].
Proof. intros Hf. unfold attach. rewrite Hf. unfold finish. cbn [snd heap fst]. rewrite lookup_insert_eq. done. Qed.

Lemma decideRead_run c ctx k R replicas cb g local e b m n :
  flights g !! (k, R) = None → read_flights m = (attach k R cb g).2 → cs_inv (local_ m) → cs_lookup (local_ m) k = local →
  (∀ x, e = Some x → Entry.wf x ∧ cs_room (zlen k + zlen (Entry.value x) + cs_node_bytes + n) (local_ m)) → 0 <= n → cs_room n (local_ m) →
  ∃ m', decideRead c ctx k R replicas (next_flight g) (e, b) m = Some ([(cb, served e)], m') ∧
    decided_read c ctx k replicas cb local [] [(e, b)] [(cb, served e)] m m' n.
Proof.
  intros Hf Hg Hi Hl He Hn Hr. pose proof (λ res, finish_own k R cb g res Hf) as Hfin. unfold decideRead.
  assert (Hkeep : ∀ k', cs_lookup (local_ m) k' = if decide (k' = k) then local else cs_lookup (local_ m) k').
  { intros k'. case_decide; [by subst|done]. }
  destruct e as [x|]; [destruct b|]; cbn [fst mbind option_bind].
  - destruct (He x eq_refl) as [Hwf Hrx]. destruct (cs_put_law c k x n (local_ m) Hi Hwf Hn Hrx) as (s & -> & Hi' & Hl' & Hr').
    cbn [mbind option_bind sendRepairFanOut send with_local read_flights]. rewrite Hg.
    specialize (Hfin (served (Some x))). destruct (finish _ _ _ _ _) as [calls g']. cbn [fst] in Hfin. subst calls.
    eexists. split; [done|]. split; [done|done|by rewrite bind_singleton| |done|done].
    intros k'. cbn [with_flights local_ sendRepairFanOut send with_local]. rewrite Hl'. case_decide; [|done]. by rewrite Hl.
  - rewrite Hg. specialize (Hfin (served (Some x))). destruct (finish _ _ _ _ _) as [calls g']. cbn [fst] in Hfin. subst calls.
    eexists. split; [done|]. split; try done. cbn [with_flights outbox mbind list_bind app]. by rewrite app_nil_r.
  - rewrite Hg. specialize (Hfin (served None)). destruct (finish _ _ _ _ _) as [calls g']. cbn [fst] in Hfin. subst calls.
    eexists. split; [done|]. split; try done. cbn [with_flights outbox mbind list_bind app]. by rewrite app_nil_r.
Qed.

(** The entries a read may write: what is there and what is voted. *)
Definition heal_room (k : bytes) (n : Z) (s : St) (acts : list (Action Answer)) : Prop :=
  (∀ x, cs_lookup s k = Some x → cs_room (zlen k + zlen (Entry.value x) + cs_node_bytes + n) s) ∧
  ∀ v, v ∈ votes (reports acts).*2 → cs_room (zlen k + zlen (default [] (r_value v)) + cs_node_bytes + n) s.

Lemma voteEntry_facts c v : Entry.wf (voteEntry c v) ∧ Entry.value (voteEntry c v) = default [] (r_value v).
Proof.
  unfold voteEntry. cbv zeta. set (e0 := match r_value v with Some x => _ | None => _ end).
  assert (Hw0 : Entry.wf e0 ∧ Entry.value e0 = default [] (r_value v)) by (unfold e0; by destruct (r_value v)). destruct Hw0 as [Hw0 Hv0].
  set (e1 := Entry.with_writer _ _). assert (Hw1 : Entry.wf e1) by (apply (EntryFacts.setVersion_wf (r_version v) e0 Hw0)).
  assert (Hw2 : Entry.wf (Entry.setTombstone (r_tombstone v) e1)) by (by apply EntryFacts.setTombstone_wf).
  destruct (r_expires_at v); split; try done. by apply (EntryFacts.setHasTtl_wf true).
Qed.

Lemma votes_sub (evs evs' : list (nat * Answer)) v :
  (∀ ev, ev ∈ evs → ev ∈ evs') → v ∈ votes evs.*2 → v ∈ votes evs'.*2.
Proof.
  intros Hs (a & Ha & Hc)%list_elem_of_omap. apply list_elem_of_omap. exists a. split; [|done].
  apply list_elem_of_fmap in Ha as (ev & -> & Hev). apply list_elem_of_fmap. eauto.
Qed.

Lemma reduced_sub {A} n seen (acts : list (Action A)) ev : ev ∈ reduced_reports n seen acts → ev ∈ reports acts.
Proof. intros (j & Hj & _)%elem_of_take. eapply first_reports_subset, list_elem_of_lookup_2. exact Hj. Qed.

Lemma verdict_winner nr R (local : option Entry.VersionedEntry) acts seen decisions e b k s n :
  cs_inv s → cs_lookup s k = local → heal_room k n s acts →
  read_verdict nr R local (reduced_reports nr seen acts) decisions → decisions = [(Some e, b)] →
  Entry.wf e ∧ cs_room (zlen k + zlen (Entry.value e) + cs_node_bytes + n) s.
Proof.
  intros Hi Hl [Hr1 Hr2] [(-> & _)|(p & q & d & Ee & -> & Sm & _)]; [done|]. intros [= Eb _].
  destruct (sm_best _ _ _ _ _ Sm e Eb) as (_ & [He|(c & v & Hv & -> & _)] & _).
  - rewrite <- Hl in He. split; [by eapply cs_entry_wf|by apply Hr1].
  - destruct (voteEntry_facts c v) as [Hw ->]. split; [done|]. apply Hr2. eapply votes_sub; [|exact Hv].
    intros ev Hev. eapply (reduced_sub nr seen acts). rewrite Ee. apply elem_of_app. by left.
Qed.

Lemma readAsync_run c c' ctx k replicas R cb trace span acts m n :
  cs_inv (local_ m) → replicas ≠ [] → (1 < R)%nat → Z.of_nat (length replicas) < 2 ^ 63 →
  flights (read_flights m) !! (k, R) = None → Forall answer_ok (reports acts).*2 →
  0 <= n → cs_room n (local_ m) → heal_room k n (local_ m) acts →
  let local := unexpired c (cs_lookup (local_ m) k) in
  let d := quorumRead (length replicas) (Z.of_nat R) local acts in
  let decisions := rq_decision (reduced d) in
  ∃ calls m', readAsync c c' ctx k replicas R cb trace span acts m = Some (calls, m') ∧
    read_verdict (length replicas) (Z.of_nat R) local (reduced_reports (length replicas) (Fanout.seen d) acts) decisions ∧
    decided_read c' ctx k replicas cb local ((λ t, (t, readRequest trace span k)) <$> replicas) decisions calls m m' n.
Proof.
  intros Hi Hne HR Hn Hfl Hok Hn0 Hr [Hh1 Hh2] local d decisions. unfold readAsync.
  destruct (cs_get_law c k (local_ m) Hi) as (s & -> & Hi' & Hl & Hr'). cbn [mbind option_bind]. rewrite decide_False by (intros [?|?]; [done|lia]).
  assert (Hv : read_verdict (length replicas) (Z.of_nat R) local (reduced_reports (length replicas) (Fanout.seen d) acts) decisions).
  { apply quorumRead_verdict; [destruct replicas; [done|simpl; lia]|done|done]. }
  assert (Hlk : cs_lookup s k = local) by (by rewrite Hl, decide_True).
  assert (Hh : heal_room k n s acts).
  { split; [|intros v Hv'; by apply Hr', Hh2]. intros x Hx. apply Hr', Hh1. rewrite Hlk in Hx. unfold local, unexpired in Hx.
    destruct (cs_lookup (local_ m) k) as [y|]; [|done]. cbn in Hx. destruct (Store.expired _ y); by simplify_eq. }
  destruct (attach k R cb (read_flights (with_local s m))) as [[id leader] g] eqn:Ea.
  assert (Hid : id = next_flight (read_flights m) ∧ leader = true ∧ g = (attach k R cb (read_flights m)).2).
  { change (read_flights (with_local s m)) with (read_flights m) in Ea. rewrite Ea. unfold attach in Ea. rewrite Hfl in Ea. by injection Ea as <- <- <-. }
  destruct Hid as (-> & -> & Hg). cbn [negb]. cbv zeta. fold local. fold d. fold decisions.
  set (m1 := send _ _). assert (Hshape : decisions = [] ∨ ∃ e b, decisions = [(e, b)]).
  { destruct Hv as [(-> & _)|(p & q & x & _ & -> & _)]; eauto. }
  assert (Hothers : ∀ k', k' ≠ k → cs_lookup s k' = cs_lookup (local_ m) k') by (intros k' ?; by rewrite Hl, decide_False).
  destruct Hshape as [E|(e & b & E)].
  - rewrite E in *. exists [], m1. split_and!; [done|done|]. split; [done|done|by rewrite app_nil_r| |done|by apply Hr'].
    intros k'. cbn [m1 send with_flights with_local local_]. case_decide; [by subst k'|by apply Hothers].
  - rewrite E in *. cbn [decideAll].
    destruct (decideRead_run c' ctx k R replicas cb (read_flights m) local e b m1 n) as (m' & -> & [D1 D2 D3 D4 D5 D6]);
      [done|exact Hg|exact Hi'|exact Hlk| |done|by apply Hr'|].
    { intros x ->. by eapply verdict_winner. }
    cbn [mbind option_bind]. exists [(cb, served e)], m'. split_and!; [done|done|]. split; [done|done| | |done|done].
    + rewrite D3. cbn [m1 send with_flights with_local outbox app]. by rewrite <- app_assoc.
    + intros k'. rewrite D4. case_decide; [done|]. by apply Hothers.
Qed.

(** ** Hint replay *)

(** The hints that were delivered, with the moments of their reports. *)
Definition delivered_hints (batch : list SnapshotEntry) (evs : list (nat * (Result () * Moment))) : list (SnapshotEntry * Moment) :=
  omap (λ ev, match ev.2.1 with Ok _ => (λ e, (e, ev.2.2)) <$> batch !! ev.1 | Err _ => None end) evs.

Lemma hr_fold batch active evs st :
  Z.of_nat (length evs) <= hr_pending st → hr_pending st < 2 ^ 64 → 0 <= hr_replayed st → hr_replayed st + Z.of_nat (length evs) < 2 ^ 64 →
  foldl (each (hr_each batch) active) st evs =
    mkHintReplay (hr_pending st - Z.of_nat (length evs)) (hr_replayed st + Z.of_nat (length (delivered_hints batch evs)))
      (hr_removed st ++ delivered_hints batch evs) (hr_done st).
Proof.
  revert st. induction evs as [|[i [r mo]] evs IH]; intros st Hp Hb Hr0 Hr; cbn [foldl length] in *.
  { rewrite app_nil_r. destruct st. cbn. f_equal; lia. }
  assert (Es : each (hr_each batch) active st (i, (r, mo)) =
    mkHintReplay (hr_pending st - 1) (hr_replayed st + Z.of_nat (length (delivered_hints batch [(i, (r, mo))])))
      (hr_removed st ++ delivered_hints batch [(i, (r, mo))]) (hr_done st)).
  { unfold each, hr_each, delivered_hints. cbn [fst snd omap list_omap]. rewrite (wrap_small 64 (hr_pending st - 1)) by (unfold in_u; lia).
    destruct r; [destruct (batch !! i)|]; cbn [fmap option_fmap option_map length]; rewrite ?app_nil_r.
    - by rewrite wrap_small by (unfold in_u; lia).
    - f_equal. lia.
    - f_equal. lia. }
  assert (Hd : delivered_hints batch ((i, (r, mo)) :: evs) = delivered_hints batch [(i, (r, mo))] ++ delivered_hints batch evs).
  { apply (omap_app _ [(i, (r, mo))] evs). }
  assert (Hl : (length (delivered_hints batch [(i, (r, mo))]) <= 1)%nat).
  { unfold delivered_hints. cbn [omap list_omap]. destruct (match _ with Ok _ => _ | Err _ => _ end); cbn [length]; lia. }
  rewrite Es, IH; cbn [hr_pending hr_replayed hr_removed hr_done]; [|lia..]. rewrite Hd, length_app, <- app_assoc. f_equal; lia.
Qed.

Lemma hr_decided batch evs f st :
  (0 < length batch)%nat → Z.of_nat (length batch) < 2 ^ 63 → length evs = length batch →
  decided (hr_each batch) hr_should_fire hr_fire evs (mkHintReplay (Z.of_nat (length batch)) 0 [] []) f st →
  hr_done st = [Z.of_nat (length (delivered_hints batch evs))] ∧ hr_removed st = delivered_hints batch evs.
Proof.
  intros Hpos Hn Hl Hd.
  assert (Hfold : ∀ p, (length p <= length batch)%nat →
    foldl (each (hr_each batch) true) (mkHintReplay (Z.of_nat (length batch)) 0 [] []) p =
      mkHintReplay (Z.of_nat (length batch) - Z.of_nat (length p)) (Z.of_nat (length (delivered_hints batch p))) (delivered_hints batch p) []).
  { intros p Hp. rewrite hr_fold; cbn [hr_pending hr_replayed hr_removed hr_done]; [done|lia..]. }
  destruct Hd as [(-> & -> & Hno)|(-> & p & q & -> & Hp & Hf & Hno & ->)].
  - assert (Hne : evs ≠ []) by (by destruct evs; [simpl in Hl; lia|]).
    specialize (Hno evs (reflexivity _) Hne). rewrite Hfold in Hno by lia. apply Z.eqb_neq in Hno. cbn in Hno. lia.
  - rewrite length_app in Hl. rewrite Hfold in Hf |- * by lia. apply Z.eqb_eq in Hf. cbn [hr_pending] in Hf.
    assert (q = []) as -> by (apply nil_length_inv; lia). rewrite app_nil_r. done.
Qed.

Definition del_ok (h : QueuedHint) : Prop := record_ok (RecDel (hint_target h) (key (hint_req h)) (version (hint_req h))).

Lemma appendDel_total os h j d :
  del_ok h → ∃ j' d', appendDel xxh3 os (hint_target h) (key (hint_req h)) (version (hint_req h)) j d = Some (j', d').
Proof.
  intros Hok. destruct (j_fd j) as [off|] eqn:Hfd.
  - destruct (appendRecord_spec xxh3 os _ off j d Hok Hfd) as (j' & d' & E & _). eauto.
  - unfold appendDel. rewrite decide_True by done. eauto.
Qed.

Lemma dropAll_run l m a f :
  rep hint_size (hints_ m) a f → (∀ e, e ∈ l.*1 → del_ok (snap_hint e)) →
  ∃ m' f', dropAll hint_size xxh3 l m = Some m' ∧
    rep hint_size (hints_ m') (with_entries (filter (λ e, e.1 ∉ snap_handle <$> l.*1) (entries a)) a) f' ∧
    outbox m' = outbox m ∧ local_ m' = local_ m.
Proof.
  revert m a f. induction l as [|[e mo] l IH]; intros m a f R Hok; cbn [dropAll].
  { exists m, f. split_and!; [done| |done|done]. rewrite filter_all_true; [by destruct a|]. intros x _. apply not_elem_of_nil. }
  unfold dropReplayed. destruct (removeHandle_sim hint_size (hints_ m) a f (snap_handle e) R) as (q & f1 & -> & R1). cbn [mbind option_bind].
  assert (Hstep : ∃ m1, match journal_ (with_hints q m) with
    | None => Some (with_hints q m)
    | Some j => '(j, d) ← appendDel xxh3 (at_append mo) (hint_target (snap_hint e)) (key (hint_req (snap_hint e))) (version (hint_req (snap_hint e))) j (files (with_hints q m));
                Some (with_journal (Some j) d (with_hints q m))
    end = Some m1 ∧ hints_ m1 = q ∧ outbox m1 = outbox m ∧ local_ m1 = local_ m).
  { destruct (journal_ (with_hints q m)) as [j|]; [|eauto].
    destruct (appendDel_total (at_append mo) (snap_hint e) j (files (with_hints q m))) as (j' & d' & ->); [apply Hok; by left|].
    cbn [mbind option_bind]. eauto. }
  destruct Hstep as (m1 & E1 & Eq & Eo & El). cbv zeta. rewrite E1. cbn [option_bind]. rewrite <- Eq in R1.
  destruct (IH m1 _ f1 R1) as (m' & f' & E' & R' & Eo' & El'); [intros x Hx; apply Hok; by right|].
  exists m', f'. split_and!; [done| |congruence|congruence]. cbn [with_entries entries limit drops issued] in R'.
  rewrite list_filter_filter in R'. erewrite list_filter_iff; [exact R'|]. intros x. rewrite fmap_cons. csimpl. rewrite not_elem_of_cons. tauto.
Qed.

Lemma sweep_sub now n l e : e ∈ (sweep now n l).1 → e ∈ l.
Proof.
  revert n. induction l as [|x l IH]; intros [|n]; cbn [sweep]; try (by intros ?%not_elem_of_nil).
  case_decide; [intros ?%IH; by right|]. specialize (IH n). destruct (sweep now n l) as [live rest]. cbn [fst] in *.
  rewrite !elem_of_cons. intros [->|?]; eauto.
Qed.

Lemma sweep_length now n l : (length (sweep now n l).1 <= n)%nat.
Proof.
  revert n. induction l as [|x l IH]; intros [|n]; cbn [sweep]; try (cbn; lia).
  case_decide; [apply IH|]. specialize (IH n). destruct (sweep now n l) as [live rest]. cbn [fst length] in *. lia.
Qed.

Definition batch_of (live : list (Handle * QueuedHint)) : list SnapshotEntry := (λ e, mkSnap e.2 e.1) <$> live.

Lemma batch_of_inv live : batch_of ((λ e, (snap_handle e, snap_hint e)) <$> live) = live.
Proof. unfold batch_of. rewrite <- list_fmap_compose. rewrite <- (list_fmap_id live) at 2. apply list_fmap_ext. by intros ? [] ?. Qed.

Lemma delivered_sub batch evs e : e ∈ (delivered_hints batch evs).*1 → e ∈ batch.
Proof.
  intros ([x mo] & -> & Hin)%list_elem_of_fmap. apply list_elem_of_omap in Hin as ([i [r mo']] & _ & E). cbn [fst snd] in *.
  destruct r; [|done]. destruct (batch !! i) eqn:Ei; [|done]. injection E as -> ->. by eapply list_elem_of_lookup_2.
Qed.

Lemma replayHints_run c acts m a f :
  rep hint_size (hints_ m) a f → replaying m = false → (∀ e, e ∈ entries a → del_ok e.2) →
  let live := (sweep (now c) K_REPLAY_BATCH (entries a)).1 in
  live ≠ [] → Fanout.seen (replayBatch (batch_of live) acts) = length live →
  let gone := delivered_hints (batch_of live) (first_reports (length live) [] (reports acts)) in
  ∃ m' f', replayHints hint_size xxh3 c acts m = Some ([Z.of_nat (length gone)], m') ∧ replaying m' = false ∧
    outbox m' = outbox m ++ ((λ e, (hint_target e.2, hint_req e.2)) <$> live) ∧ local_ m' = local_ m ∧
    rep hint_size (hints_ m')
      (with_entries (filter (λ e, e.1 ∉ snap_handle <$> gone.*1) (sweep (now c) K_REPLAY_BATCH (entries a)).2) a) f'.
Proof.
  intros R Hre Hok live Hne Hs gone. unfold replayHints. rewrite Hre.
  destruct (snapshot_sim hint_size (hints_ m) a f (now c) K_REPLAY_BATCH R) as (batch & q & f1 & -> & Eb & R1).
  assert (batch = batch_of live) as -> by (unfold live; rewrite <- Eb; symmetry; apply batch_of_inv).
  cbn [mbind option_bind]. rewrite decide_False by (unfold batch_of; destruct live; done).
  assert (El : length (batch_of live) = length live) by (unfold batch_of; by rewrite length_fmap).
  set (d := replayBatch (batch_of live) acts) in *.
  destruct (fanOut_done (length (batch_of live)) (hr_each (batch_of live)) hr_should_fire hr_fire acts
    (mkHintReplay (Z.of_nat (length (batch_of live))) 0 [] [])) as [Hd HP]; [etransitivity; [exact Hs|by rewrite El]|].
  apply hr_decided in Hd as [E1 E2].
  2: { rewrite El. destruct live; [done|simpl; lia]. }
  2: { rewrite El. pose proof (sweep_length (now c) K_REPLAY_BATCH (entries a)). change (Z.of_nat (length live) < 2 ^ 63). unfold live, K_REPLAY_BATCH in *. lia. }
  2: { apply Permutation_length in HP. by rewrite length_fmap, length_seq in HP. }
  rewrite El in E1, E2. fold gone in E1, E2. cbv zeta. fold d in E1, E2.
  change (reduced d) with (reduced (fanOutQuorum (length (batch_of live)) (hr_each (batch_of live)) hr_should_fire hr_fire acts
    (mkHintReplay (Z.of_nat (length (batch_of live))) 0 [] []))). rewrite El, E1, E2.
  destruct (dropAll_run gone (send ((λ e, (hint_target (snap_hint e), hint_req (snap_hint e))) <$> batch_of live) (with_hints q m)) _ f1 R1)
    as (m' & f' & -> & R' & Eo & Elo).
  { intros e He%delivered_sub. apply list_elem_of_fmap in He as (x & -> & Hx). by eapply Hok, sweep_sub. }
  cbn [mbind option_bind]. exists (with_replaying false m'), f'. split_and!; [done|done| |done|done].
  cbn [with_replaying outbox]. rewrite Eo. cbn [send outbox with_hints]. f_equal. unfold batch_of. by rewrite <- list_fmap_compose.
Qed.

End manager.

(** C12: a replicated write commits locally first and is decided by its quorum.
    On a store with room and without a hint journal, [writeAsync] mints a version
    above everything the node holds, the key holds the new entry and no other
    key changed; every replica is sent the write under the same version and
    writer.  In async mode [on_done] is called with success at once and every
    failed report leaves a hint.  In quorum mode [on_done] is called with success
    exactly when the local write and the acknowledgements make a quorum, with an
    error exactly when they no longer can, and every failed replica leaves one
    hint; what counts is the first report of each replica, and all of them do
    once the consumer has had its turns.  The hint queue takes these hints as
    its list machine does. *)
Theorem replicated_write {St : Type} `{CacheStoreLaws St} (hint_size : Z) (xxh3 : bytes → Z) (self : bytes) (c : Clock)
    (k v : bytes) (ttl : option Z) (replicas : list bytes) (mode : ConsistencyMode) (trace span : Z)
    (acts : list (Action (Result () * Moment))) (m : ReplicationManager St) (a : Fifo) (f : list nat) (n : Z) :
  cs_inv (local_ m) → cs_mintable (local_ m) → 0 <= n → cs_room (zlen k + zlen v + cs_node_bytes + n) (local_ m) →
  Z.of_nat (length replicas) < 2 ^ 62 → journal_ m = None → rep hint_size (hints_ m) a f →
  (∀ t, t ∈ replicas → in_u 63 (hint_size + zlen t + zlen k + zlen v)) →
  let '(done, hinted) := write_outcome replicas mode acts in
  Z.of_nat (length (issued a)) + Z.of_nat (length hinted) < 2 ^ 64 →
  (all_turns (length replicas) acts → reduced_reports (length replicas) (Fanout.seen (quorumWrite replicas acts)) acts =
    first_reports (length replicas) [] (reports acts)) ∧
  ∃ ver os a' f' m', let req := writeRequest self c trace span k v ttl ver in
    writeAsync hint_size xxh3 self c k v ttl replicas mode trace span acts m = Some (done, m') ∧ (length done <= 1)%nat ∧
    committed m m' k (Some (writeEntry self c v ttl ver)) ver n ∧
    stampOf (writeEntry self c v ttl ver) = hintStamp req ∧
    outbox m' = outbox m ++ ((λ node, (node, req)) <$> replicas) ∧
    fifo_run hint_size (hint_pushes req hinted) os a a' ∧ rep hint_size (hints_ m') a' f' ∧
    ∀ t mo, (t, mo) ∈ hinted → t ∈ replicas.
Proof.
  intros Hi Hm Hn0 Hr Hn Hj R Hw.
  pose proof (writeAsync_run hint_size xxh3 self c k v ttl replicas mode trace span acts m a f n Hi Hm Hn0 Hr Hn Hj R Hw) as Hrun.
  pose proof (λ t mo, fanOutWrite_targets replicas mode acts t mo Hn) as Ht. pose proof (fanOutWrite_once replicas mode acts Hn) as Ho.
  rewrite fanOutWrite_outcome in * by done. destruct (write_outcome replicas mode acts) as [dn hinted]. intros Hl. split; [apply all_reduced|].
  destruct (Hrun Hl) as (ver & os & a' & f' & m' & E & Hc & Ho' & _ & Hf & R'). exists ver, os, a', f', m'.
  split_and!; try done. by destruct (writeEntry_facts self c v ttl ver) as (_ & -> & _); [apply Hc|].
Qed.

(** C13: a quorum read answers the maximum of its votes.  A read that leads its
    flight sends one request to each replica and answers its caller at most
    once: at the first report with which [R] copies, the local one included,
    have been counted, or at the last report of all; and not before.  The
    first report of each replica counts, and all of them are reduced once the
    consumer has had its turns.  The winner is the local entry or one of the
    votes, no counted vote and not the local entry is newer, and a miss is
    answered only when nobody had the key.  When some vote differed or some
    replica lacked the key, the winner is merged into the local store and sent
    to all replicas; otherwise the store keeps what it had. *)
Theorem replicated_read {St : Type} `{CacheStoreLaws St} (c c' : Clock) (ctx : Z * Z) (k : bytes) (replicas : list bytes)
    (R cb : nat) (trace span : Z) (acts : list (Action Answer)) (m : ReplicationManager St) (n : Z) :
  cs_inv (local_ m) → replicas ≠ [] → (1 < R)%nat → Z.of_nat (length replicas) < 2 ^ 63 →
  flights (read_flights m) !! (k, R) = None → Forall answer_ok (reports acts).*2 →
  0 <= n → cs_room n (local_ m) → heal_room k n (local_ m) acts →
  let local := unexpired c (cs_lookup (local_ m) k) in
  let evs := reduced_reports (length replicas) (Fanout.seen (quorumRead (length replicas) (Z.of_nat R) local acts)) acts in
  (all_turns (length replicas) acts → evs = first_reports (length replicas) [] (reports acts)) ∧
  ∃ decisions calls m', readAsync c c' ctx k replicas R cb trace span acts m = Some (calls, m') ∧
    read_verdict (length replicas) (Z.of_nat R) local evs decisions ∧
    decided_read c' ctx k replicas cb local ((λ t, (t, readRequest trace span k)) <$> replicas) decisions calls m m' n.
Proof.
  intros Hi Hne HR Hn Hfl Hok Hn0 Hr Hh local evs. split; [apply all_reduced|].
  destruct (readAsync_run c c' ctx k replicas R cb trace span acts m n Hi Hne HR Hn Hfl Hok Hn0 Hr Hh) as (calls & m' & E & Hv & Hd).
  eauto 8.
Qed.

(** C23: a replay delivers a batch of hints and forgets what was delivered.  With
    live hints in the queue and all sends reported, one call sends the oldest
    [K_REPLAY_BATCH] of them to their targets and reports how many were
    acknowledged; exactly the acknowledged ones have left the queue, with the
    expired ones the scan passed, the others stay in their order; and the next
    call may start. *)
Theorem hint_replay {St : Type} `{CacheStoreLaws St} (hint_size : Z) (xxh3 : bytes → Z) (c : Clock)
    (acts : list (Action (Result () * Moment))) (m : ReplicationManager St) (a : Fifo) (f : list nat) :
  rep hint_size (hints_ m) a f → replaying m = false → (∀ e, e ∈ entries a → del_ok e.2) →
  let live := (sweep (now c) K_REPLAY_BATCH (entries a)).1 in
  live ≠ [] → Fanout.seen (replayBatch (batch_of live) acts) = length live →
  let gone := delivered_hints (batch_of live) (first_reports (length live) [] (reports acts)) in
  ∃ m' f', replayHints hint_size xxh3 c acts m = Some ([Z.of_nat (length gone)], m') ∧ replaying m' = false ∧
    outbox m' = outbox m ++ ((λ e, (hint_target e.2, hint_req e.2)) <$> live) ∧ local_ m' = local_ m ∧
    rep hint_size (hints_ m')
      (with_entries (filter (λ e, e.1 ∉ snap_handle <$> gone.*1) (sweep (now c) K_REPLAY_BATCH (entries a)).2) a) f'.
Proof. apply replayHints_run. Qed.

(** ** A node at work *)

Local Instance demo_cache : CacheStore (Store.Store () ()) := eviction_cache StoreSpec.demo_hash.
Local Instance demo_laws : CacheStoreLaws (Store.Store () ()) := eviction_laws StoreSpec.demo_hash.

Definition node_store : Store.Store () () :=
  StoreSpec.after StoreSpec.demo_hash StoreFacts.demo_clock 5000 [StoreSpec.OPutVersioned StoreFacts.demo_clock (lit "k") (StoreFacts.demo_entry "old" 3)].

Definition node_manager (q : HintQueue) (j : option HintJournal) : ReplicationManager (Store.Store () ()) :=
  mkRepl node_store q (lit "j") j ∅ false emptyRegistry [].

Lemma node_store_inv : cs_inv node_store.
Proof. apply StoreSpec.after_inv; [by vm_compute|repeat constructor; apply StoreFacts.demo_entry_wf|by vm_compute|by vm_compute]. Qed.

Lemma node_store_room n : n <= 4000 → cs_room n node_store.
Proof.
  intros Hn. apply (cs_room_le 4000); [|done]. eapply roomy; [vm_compute; reflexivity|]. apply Z.leb_le. vm_compute. reflexivity.
Qed.

Definition moment : Moment := mkMoment StoreFacts.demo_clock all_written (compact_ok_io all_written).
Definition three_acts : list (Action (Result () * Moment)) :=
  [Report 1 (Err err_quorum, moment); Report 0 (Ok (), moment); Receive; Report 1 (Ok (), moment); Receive].

Lemma write_quorum_decision_witness :
  fanOutWrite [lit "n2"; lit "n3"] Quorum three_acts = ([Ok ()], [(lit "n3", moment)]) ∧
  let evs := take 2 (first_reports 2 [] (reports three_acts)) in
  fanOutWrite [lit "n2"; lit "n3"] Quorum three_acts = (write_verdict [lit "n2"; lit "n3"] evs, hints_of [lit "n2"; lit "n3"] evs).
Proof.
  split; [vm_compute; reflexivity|].
  destruct (write_quorum_decision [lit "n2"; lit "n3"] three_acts) as [E _]; [discriminate|by vm_compute|exact E].
Defined.

Lemma replicated_write_witness :
  ∃ ver m', writeAsync 64 demo_sum (lit "n1") StoreFacts.demo_clock (lit "k") (lit "new") None [lit "n2"; lit "n3"] Quorum 7 9 three_acts
      (node_manager emptyQueue None) = Some ([Ok ()], m') ∧
    cs_lookup (local_ m') (lit "k") = Some (writeEntry (lit "n1") StoreFacts.demo_clock (lit "new") None ver).
Proof.
  destruct (replicated_write 64 demo_sum (lit "n1") StoreFacts.demo_clock (lit "k") (lit "new") None [lit "n2"; lit "n3"] Quorum 7 9 three_acts
    (node_manager emptyQueue None) emptyFifo [] 0) as (_ & ver & _ & _ & _ & m' & E & _ & Hc & _).
  - exact node_store_inv.
  - vm_compute. split; congruence.
  - lia.
  - apply node_store_room. vm_compute. congruence.
  - by vm_compute.
  - done.
  - apply empty_rep.
  - intros t Ht. repeat (apply elem_of_cons in Ht as [->|Ht]); [by vm_compute..|by apply not_elem_of_nil in Ht].
  - by vm_compute.
  - exists ver, m'. split; [exact E|]. rewrite (cm_lookup _ _ _ _ _ _ Hc). by rewrite decide_True.
Defined.

Definition vote (v : String.string) (ver : Z) : Response := mkResponse (Errc_code OK) (Some (lit v)) ver 5 None false 0 0.

Definition two_votes : list (Action Answer) :=
  [Report 0 (StoreFacts.demo_clock, Ok (vote "older" 2)); Report 1 (StoreFacts.demo_clock, Ok (vote "newer" 4)); Receive; Receive].

Lemma replicated_read_witness :
  ∃ decisions calls m', readAsync StoreFacts.demo_clock StoreFacts.demo_clock (1, 2) (lit "k") [lit "n2"; lit "n3"] 3 42 7 9 two_votes (node_manager emptyQueue None) = Some (calls, m') ∧
    read_verdict 2 3 (Some (StoreFacts.demo_entry "old" 3)) (first_reports 2 [] (reports two_votes)) decisions ∧
    calls = (λ x, (42%nat, served x.1)) <$> decisions ∧
    option_map (λ r, (λ x, match x.2 with Ok e => Some (Entry.value e) | Err _ => None end) <$> r.1)
      (readAsync StoreFacts.demo_clock StoreFacts.demo_clock (1, 2) (lit "k") [lit "n2"; lit "n3"] 3 42 7 9 two_votes (node_manager emptyQueue None))
      = Some [Some (lit "newer")].
Proof.
  destruct (replicated_read StoreFacts.demo_clock StoreFacts.demo_clock (1, 2) (lit "k") [lit "n2"; lit "n3"] 3 42 7 9 two_votes
    (node_manager emptyQueue None) 0) as (Hall & decisions & calls & m' & E & Hv & Hd).
  - exact node_store_inv.
  - discriminate.
  - lia.
  - by vm_compute.
  - done.
  - apply Forall_cons. split; [intros r [= <-]; by vm_compute|]. apply Forall_cons. split; [intros r [= <-]; by vm_compute|]. apply Forall_nil. exact I.
  - lia.
  - apply node_store_room. lia.
  - split; [intros x Hx; apply node_store_room; assert (x = StoreFacts.demo_entry "old" 3) as -> by (by vm_compute in Hx; injection Hx); vm_compute; congruence|].
    intros v Hv. apply node_store_room. repeat (apply elem_of_cons in Hv as [->|Hv]); [vm_compute; congruence..|by apply not_elem_of_nil in Hv].
  - rewrite Hall in Hv by (exists (take 2 two_votes); reflexivity). exists decisions, calls, m'. split; [exact E|]. split; [exact Hv|]. split; [apply Hd|vm_compute; reflexivity].
Defined.

Lemma demo_queue_rep : ∃ hd f, rep 64 demo_queue (mkFifo [(hd, minute_hint "a" "x" 1)] K_DEFAULT_MAX_BYTES 0 [hd]) f.
Proof.
  destruct (push_sim 64 emptyQueue emptyFifo [] (minute_hint "a" "x" 1)) as (b & q & a & f & E & Hs & R & _); [apply empty_rep|by vm_compute|by vm_compute|].
  assert (Eq : demo_queue = q) by (unfold demo_queue; by rewrite E).
  assert (b = true) as ->.
  { assert (fst <$> push 64 (minute_hint "a" "x" 1) emptyQueue = Some true) as Ht by (vm_compute; reflexivity). rewrite E in Ht. by injection Ht. }
  inversion Hs as [| |h hd a0 rest kept Hw Hn Hi Er Ek Eh Eb Ea| | | | |]. subst. exists hd, f. exact R.
Qed.

Definition one_ack : list (Action (Result () * Moment)) := [Report 0 (Ok (), moment); Receive].

Lemma hint_replay_witness :
  ∃ m' f' a', replayHints 64 demo_sum (mkClock 0 0) one_ack (node_manager demo_queue None) = Some ([1], m') ∧ replaying m' = false ∧
    outbox m' = [(lit "n2", hint_req (minute_hint "a" "x" 1))] ∧ rep 64 (hints_ m') a' f' ∧ entries a' = [].
Proof.
  destruct demo_queue_rep as (hd & f & R).
  destruct (hint_replay 64 demo_sum (mkClock 0 0) one_ack (node_manager demo_queue None) _ f R) as (m' & f' & E & Er & Eo & _ & R').
  - done.
  - intros e He. apply elem_of_cons in He as [->|He]; [|by apply not_elem_of_nil in He]. split; [by vm_compute|by vm_compute].
  - discriminate.
  - vm_compute. reflexivity.
  - exists m', f'. eexists. split; [exact E|]. split; [exact Er|]. split; [exact Eo|]. split; [exact R'|].
    cbn [with_entries entries]. vm_compute sweep. cbn [snd]. rewrite filter_cons_False; [reflexivity|]. clear. intros Hn. apply Hn. left.
Defined.

(** a compaction forgets the hint that set it off.  [enqueueHint] journals
    the hint, compacts when the journal has grown past its limit, and queues the
    hint only then: the rewritten journal holds the hints that were queued
    before, and the new one, though queued, is in no record, so that a restart
    does not bring it back. *)
Theorem compaction_forgets_hint {St : Type} `{CacheStore St} (hint_size : Z) (xxh3 : bytes → Z) (os os' : list WriteOutcome) (c : Clock)
    (t : bytes) (req : Request) (m m' : ReplicationManager St) (j j1 : HintJournal) (d1 : Dir)
    (live : list SnapshotEntry) (q1 : HintQueue) (off : nat) (file : bytes) (kept : Z) :
  let h := mkHint t req (now c + K_HINT_TTL) in
  journal_ m = Some j → j_path j1 ≠ [] → j_fd j1 ≠ None →
  appendAdd xxh3 os h (sysHintExpiryMs c) j (files m) = Some (j1, d1) → needsCompaction j1 = true →
  snapshot hint_size (now c) K_CAPACITY (hints_ m) = Some (live, q1) → Forall record_ok (live_records c live) →
  writeLive xxh3 os' c live 0 [] 0 = Some (true, off, file, kept) → (∀ e, e ∈ live → ¬ same_slot h (snap_hint e)) →
  enqueueHint hint_size xxh3 t req (mkMoment c os (compact_ok_io os')) m = Some m' →
  files m' !! j_path j1 = Some (journal xxh3 (live_records c live)) ∧
  (∀ h' exp, RecAdd h' exp ∈ live_records c live → ¬ same_slot h h') ∧
  ∃ b, push hint_size h q1 = Some (b, hints_ m').
Proof.
  intros h Hj Hp Hfd Ha Hn Hs Hok Hl Hne. unfold enqueueHint. cbn [at_clock at_append at_compact]. cbv zeta. fold h. rewrite Hj, Ha. cbn [mbind option_bind].
  rewrite Hn. unfold compact. rewrite decide_False, Hs by tauto. cbn [mbind option_bind].
  cbn [jc_open jc_write jc_sync jc_publish jc_reopen compact_ok_io negb]. rewrite Hl. cbn [mbind option_bind andb negb].
  unfold publishTempFile. cbn [pub_sync pub_rename pub_dir pub_ok negb]. cbn [view exec dir_fs fs_apply]; rewrite !lookup_insert_eq. cbn [mbind option_bind with_journal with_hints hints_].
  destruct (push hint_size h q1) as [[b q2]|] eqn:Ep; [|done]. cbn [mbind option_bind]. intros [= <-]. cbn [with_hints with_journal files hints_].
  apply (writeLive_true xxh3 os' c live [] 0 off file kept) in Hl as ->; [|done]. split_and!; [by rewrite lookup_insert_eq| |eauto].
  intros h' exp (e & Hin & He)%list_elem_of_bind. cbv zeta in Hin. case_decide; [by apply not_elem_of_nil in Hin|].
  apply list_elem_of_singleton in Hin as [= -> _]. by apply Hne.
Qed.

Definition full_journal : HintJournal := mkJournal (Some 0%nat) (lit "j") 4096.

Definition hint_b : Request := hint_req (minute_hint "b" "y" 2).

Definition overfull_journal : HintJournal := mkJournal (Some (length (frame demo_sum (RecAdd (minute_hint "b" "y" 2) 30000)))) (lit "j") 4097.

Definition overfull_dir : Dir := {[lit "j" := frame demo_sum (RecAdd (minute_hint "b" "y" 2) 30000)]}.

Definition demo_live : list SnapshotEntry := [mkSnap (minute_hint "a" "x" 1) (mkHandle 0 1)].

Lemma demo_live_other e : e ∈ demo_live → ¬ same_slot (mkHint (lit "n2") hint_b (now (mkClock 0 0) + K_HINT_TTL)) (snap_hint e).
Proof. intros He. apply list_elem_of_singleton in He as ->. intros [_ Hk]. discriminate Hk. Qed.

Lemma enqueue_total :
  is_Some (enqueueHint 64 demo_sum (lit "n2") hint_b (mkMoment (mkClock 0 0) all_written (compact_ok_io all_written)) (node_manager demo_queue (Some full_journal))).
Proof. apply (bool_decide_unpack _). vm_compute. exact I. Qed.

Lemma compaction_forgets_hint_witness :
  ∃ m', enqueueHint 64 demo_sum (lit "n2") hint_b (mkMoment (mkClock 0 0) all_written (compact_ok_io all_written)) (node_manager demo_queue (Some full_journal)) = Some m' ∧
    files m' !! lit "j" = Some (journal demo_sum [demo_first]) ∧ ∃ b, push 64 (mkHint (lit "n2") hint_b K_HINT_TTL) demo_queue = Some (b, hints_ m').
Proof.
  destruct enqueue_total as [m' E]. exists m'. split; [exact E|].
  destruct (compaction_forgets_hint 64 demo_sum all_written all_written (mkClock 0 0) (lit "n2") hint_b (node_manager demo_queue (Some full_journal)) m'
    full_journal overfull_journal overfull_dir demo_live demo_queue (length (frame demo_sum demo_first)) (journal demo_sum [demo_first]) 1) as (Hf & _ & Hpush).
  - reflexivity.
  - discriminate.
  - discriminate.
  - apply (bool_decide_unpack _). vm_compute. exact I.
  - reflexivity.
  - apply (bool_decide_unpack _). vm_compute. exact I.
  - apply Forall_cons. split; [split; [by vm_compute|repeat split; vm_compute; congruence]|]. apply Forall_nil. exact I.
  - vm_compute. reflexivity.
  - exact demo_live_other.
  - exact E.
  - split; [exact Hf|exact Hpush].
Defined.
