(* ===== verification/Auth.v ===== *)
(** * Authentication tokens (src/common/hmac.cpp, include/cinder/common/hmac.hpp)

    Tokens of nodes and of clients.  The HMAC is OpenSSL's, a parameter; whether
    the build has it ([CINDER_ENABLE_CRYPTO]) is another.  [time] is what
    [std::time] returns, in seconds. *)

From S2P Require Import Prelude Types Text.
Local Open Scope Z_scope.

Definition K_CLIENT_AUTH_DOMAIN : bytes := lit "cinder-client-v1".

(** Constant-time digest comparison: the differences are or-ed together. *)
Fixpoint diff_bytes (diff : Z) (a b : bytes) : Z :=
  match a, b with
  | x :: a, y :: b => diff_bytes (u8 (Z.lor diff (u8 (Z.lxor (Z_of_byte x) (Z_of_byte y))))) a b
  | _, _ => diff
  end.

Definition constantTimeEqual (a b : bytes) : bool :=
  if negb (length a =? length b)%nat then false else diff_bytes 0 a b =? 0.

Section auth.
Context (crypto : bool) (HMAC : bytes → bytes → bytes).

Definition computeHmacSha256 (key message : bytes) : bytes :=
  if crypto then HMAC key message else replicate 32 x00.

(** [node_id + ":" + std::to_string(ts)] *)
Definition token_data (node_id : bytes) (ts : Z) : bytes := node_id ++ c_colon :: to_string ts.

Definition generateAuthToken (secret node_id : bytes) (time : Z) : bytes :=
  if decide (secret = []) then []
  else if negb crypto then []
  else computeHmacSha256 secret (token_data node_id (u64 time / 10)).

(** The loop over the windows [i .. i + n]. *)
Fixpoint any_window (n : nat) (i : Z) (secret node_id token : bytes) (now : Z) : bool :=
  let ts := u64 (now / 10 - i) in
  if constantTimeEqual token (computeHmacSha256 secret (token_data node_id ts)) then true
  else match n with
       | O => false
       | S n => any_window n (i + 1) secret node_id token now
       end.

Definition verifyAuthToken (secret node_id token : bytes) (time : Z) (window_seconds : Z) : bool :=
  if decide (secret = [] ∨ token = []) then false
  else if negb (length token =? 32)%nat then false
  else if negb crypto then false
  else
    let window_windows := Z.quot window_seconds 10 + 1 in
    if window_windows <? 0 then false
    else any_window (Z.to_nat window_windows) 0 secret node_id token (u64 time).

(** The default argument. *)
Definition K_AUTH_WINDOW : Z := 30.

Definition generateClientAuthToken (secret : bytes) : bytes :=
  if decide (secret = []) then []
  else if negb crypto then []
  else computeHmacSha256 secret K_CLIENT_AUTH_DOMAIN.

Definition verifyClientAuthToken (secret token : bytes) : bool :=
  if decide (secret = [] ∨ length token ≠ 32%nat) then false
  else if negb crypto then false
  else constantTimeEqual token (computeHmacSha256 secret K_CLIENT_AUTH_DOMAIN).

End auth.

(** ** The comparison *)

Lemma lor_bound w a b : 0 <= w → in_u w a → in_u w b → in_u w (Z.lor a b).
Proof.
  intros Hw Ha Hb. apply in_u_testbit; [done|]. intros i Hi. by rewrite Z.lor_spec, (testbit_hi a w), (testbit_hi b w) by done.
Qed.

Lemma lxor_bound w a b : 0 <= w → in_u w a → in_u w b → in_u w (Z.lxor a b).
Proof.
  intros Hw Ha Hb. apply in_u_testbit; [done|]. intros i Hi. by rewrite Z.lxor_spec, (testbit_hi a w), (testbit_hi b w) by done.
Qed.

Lemma diff_bytes_zero a b d : length a = length b → in_u 8 d → diff_bytes d a b = 0 ↔ d = 0 ∧ a = b.
Proof.
  revert b d. induction a as [|x a IH]; intros [|y b] d Hl Hd; try done; cbn [diff_bytes]; [naive_solver|].
  assert (Hx : in_u 8 (Z.lxor (Z_of_byte x) (Z_of_byte y))) by (apply lxor_bound; [lia|apply Z_of_byte_range..]).
  rewrite (wrap_small 8 (Z.lxor _ _)) by done. assert (Ho : in_u 8 (Z.lor d (Z.lxor (Z_of_byte x) (Z_of_byte y)))) by (by apply lor_bound).
  rewrite wrap_small by done. rewrite IH by (done || by injection Hl). rewrite Z.lor_eq_0_iff, Z.lxor_eq_0_iff. split.
  - intros [[-> Hxy%Z_of_byte_inj] ->]. by subst.
  - intros [-> [= -> ->]]. done.
Qed.

Lemma constantTimeEqual_iff a b : constantTimeEqual a b = true ↔ a = b.
Proof.
  unfold constantTimeEqual. destruct (Nat.eqb_spec (length a) (length b)) as [Hl|Hl]; cbn [negb].
  - rewrite Z.eqb_eq, diff_bytes_zero by done. naive_solver.
  - split; [done|]. intros ->. done.
Qed.

(** ** Node tokens *)

Section facts.
Context (HMAC : bytes → bytes → bytes).

Lemma any_window_iff n i secret id token now :
  any_window true HMAC n i secret id token now = true ↔
    ∃ j, i <= j <= i + Z.of_nat n ∧ token = HMAC secret (token_data id (u64 (now / 10 - j))).
Proof.
  revert i. induction n as [|n IH]; intros i; cbn [any_window]; unfold computeHmacSha256.
  - destruct (constantTimeEqual _ _) eqn:E.
    + apply constantTimeEqual_iff in E. split; [|done]. intros _. exists i. split; [lia|done].
    + split; [done|]. intros (j & Hj & ->). replace j with i in E by lia. by rewrite (proj2 (constantTimeEqual_iff _ _) eq_refl) in E.
  - destruct (constantTimeEqual _ _) eqn:E.
    + apply constantTimeEqual_iff in E. split; [|done]. intros _. exists i. split; [lia|done].
    + rewrite IH. split; intros (j & Hj & ->).
      * exists j. split; [lia|done].
      * destruct (decide (j = i)) as [->|]; [by rewrite (proj2 (constantTimeEqual_iff _ _) eq_refl) in E|]. exists j. split; [lia|done].
Qed.

(** The text names the node and the window. *)
Lemma token_data_inj id id' ts ts' :
  in_u 64 ts → in_u 64 ts' → token_data id ts = token_data id' ts' → id = id' ∧ ts = ts'.
Proof.
  intros Ht Ht' E. apply split_last_inj in E as [-> E]; [|apply to_string_no_sep; [apply Ht|done]|apply to_string_no_sep; [apply Ht'|done]].
  split; [done|]. by rewrite <- (to_string_value ts), <- (to_string_value ts'), E.
Qed.

End facts.

(** What the nodes rely on of the HMAC: 32 bytes, and no two of the texts that
    the nodes of a cluster sign have the same one. *)
Record hmac_ok (HMAC : bytes → bytes → bytes) (secret : bytes) (ids : list bytes) : Prop := mkHmacOk {
  hmac_length : ∀ msg, length (HMAC secret msg) = 32%nat;
  hmac_distinct : ∀ id id' ts ts', id ∈ ids → id' ∈ ids → in_u 64 ts → in_u 64 ts' →
    HMAC secret (token_data id ts) = HMAC secret (token_data id' ts') → token_data id ts = token_data id' ts' }.

(** When [verifyAuthToken] accepts a token of another moment and node. *)
Lemma verify_generated HMAC secret ids id id' t t' :
  secret ≠ [] → hmac_ok HMAC secret ids → id ∈ ids → id' ∈ ids → in_u 64 t → 40 <= t' < 2 ^ 64 →
  verifyAuthToken true HMAC secret id' (generateAuthToken true HMAC secret id t) t' K_AUTH_WINDOW = true ↔
    id = id' ∧ t' / 10 - 4 <= t / 10 <= t' / 10.
Proof.
  intros Hs [Hlen Hinj] Hin Hin' Ht Ht'. unfold verifyAuthToken, generateAuthToken. rewrite !(decide_False (P := secret = [])) by done.
  cbn [negb]. unfold computeHmacSha256. specialize (Hlen (token_data id (u64 t / 10))) as Hl. rewrite (wrap_small 64 t) in * by done.
  rewrite decide_False by (intros [?|E]; [done|by rewrite E in Hl]). rewrite Hl. cbn [Nat.eqb negb].
  change (Z.quot K_AUTH_WINDOW 10 + 1 <? 0) with false. cbv iota. change (Z.to_nat (Z.quot K_AUTH_WINDOW 10 + 1)) with 4%nat.
  rewrite (wrap_small 64 t') by (unfold in_u; lia). rewrite any_window_iff.
  assert (Hd : 0 <= t / 10 < 2 ^ 64) by (destruct Ht; split; [by apply Z.div_pos|apply Z.div_lt_upper_bound; lia]).
  assert (Hd' : 4 <= t' / 10 < 2 ^ 64) by (split; [apply Z.div_le_lower_bound; lia|apply Z.div_lt_upper_bound; lia]). split.
  - intros (j & Hj & E). rewrite wrap_small in E by (unfold in_u; lia).
    apply Hinj in E; [|done|done|unfold in_u; lia|unfold in_u; lia].
    apply token_data_inj in E as [-> E]; [|unfold in_u; lia..]. split; [done|lia].
  - intros [-> Hw]. exists (t' / 10 - t / 10). split; [lia|]. rewrite wrap_small by (unfold in_u; lia). do 2 f_equal. lia.
Qed.

(** C31: what a token opens.  With an HMAC that tells the nodes' texts apart, the
    token a node signs for itself is accepted under its own name in its own
    10-second window and the four after it, and never under another node's name,
    in a later window or in an earlier one; a client token is accepted exactly
    if it is that of the secret; and a build without cryptography accepts
    nothing. *)
Theorem token_verdicts (HMAC : bytes → bytes → bytes) (secret : bytes) (ids : list bytes) (id id' : bytes) (t t' : Z) :
  secret ≠ [] → hmac_ok HMAC secret ids → id ∈ ids → id' ∈ ids → in_u 64 t → 40 <= t' < 2 ^ 64 →
  (verifyAuthToken true HMAC secret id' (generateAuthToken true HMAC secret id t) t' K_AUTH_WINDOW = true ↔
     id = id' ∧ t' / 10 - 4 <= t / 10 <= t' / 10) ∧
  (∀ token, verifyClientAuthToken true HMAC secret token = true ↔ token = generateClientAuthToken true HMAC secret) ∧
  ∀ token w, verifyAuthToken false HMAC secret id token t w = false ∧ verifyClientAuthToken false HMAC secret token = false.
Proof.
  intros Hs Hok Hin Hin' Ht Ht'. split; [by eapply verify_generated|]. split.
  - intros token. unfold verifyClientAuthToken, generateClientAuthToken. rewrite (decide_False (P := secret = [])) by done.
    cbn [negb]. pose proof (hmac_length _ _ _ Hok K_CLIENT_AUTH_DOMAIN) as Hl. case_decide as Hd.
    + split; [done|]. intros ->. destruct Hd as [?|Hd]; [done|]. by destruct Hd.
    + apply constantTimeEqual_iff.
  - intros token w. unfold verifyAuthToken, verifyClientAuthToken. cbn [negb].
    split; repeat case_decide; try done. by destruct (negb _).
Qed.

(** A stand-in that keeps the first 31 bytes. *)
Definition pad_mac (k msg : bytes) : bytes := take 32 (byte_of_Z (Z.of_nat (length msg)) :: msg ++ replicate 32 x00).

Lemma to_dec_length f z acc : (length (to_dec f z acc) <= f + length acc)%nat.
Proof.
  revert z acc. induction f as [|f IH]; intros z acc; cbn [to_dec]; [done|]. case_match; [cbn [length]; lia|].
  etransitivity; [apply IH|]. cbn [length]. lia.
Qed.

Lemma pad_mac_ok ids : (∀ id, id ∈ ids → (length id <= 10)%nat) → hmac_ok pad_mac (lit "s3cret") ids.
Proof.
  intros Hids. split.
  - intros msg. unfold pad_mac. rewrite length_take. cbn [length]. rewrite length_app, length_replicate. lia.
  - intros id id' ts ts' Hin Hin' _ _. assert (Hb : ∀ i t, i ∈ ids → (length (token_data i t) <= 31)%nat).
    { intros i t Hi%Hids. unfold token_data. rewrite length_app. cbn [length]. pose proof (to_dec_length 20 t []). unfold to_string. cbn [length] in *. lia. }
    pose proof (Hb id ts Hin) as Hl. pose proof (Hb id' ts' Hin') as Hl'. revert Hl Hl'. generalize (token_data id ts), (token_data id' ts').
    intros m m' Hl Hl' E. unfold pad_mac in E. cbn [take] in E. injection E as Elen E.
    assert (length m = length m') as El.
    { apply (f_equal Z_of_byte) in Elen. rewrite !Z_of_byte_of_Z in Elen. rewrite !Z.mod_small in Elen by lia. lia. }
    apply (f_equal (take (length m))) in E. rewrite !take_take, Nat.min_l in E by lia. rewrite take_app_length in E. rewrite El, take_app_length in E. done.
Qed.

Lemma token_verdicts_witness :
  verifyAuthToken true pad_mac (lit "s3cret") (lit "n1") (generateAuthToken true pad_mac (lit "s3cret") (lit "n1") 1000) 1040 K_AUTH_WINDOW = true ∧
  verifyAuthToken true pad_mac (lit "s3cret") (lit "n2") (generateAuthToken true pad_mac (lit "s3cret") (lit "n1") 1000) 1000 K_AUTH_WINDOW = false.
Proof.
  assert (Hok : hmac_ok pad_mac (lit "s3cret") [lit "n1"; lit "n2"]).
  { apply pad_mac_ok. intros id Hid. repeat (apply elem_of_cons in Hid as [->|Hid]); [by vm_compute; lia..|by apply not_elem_of_nil in Hid]. }
  assert (H1 : lit "n1" ∈ [lit "n1"; lit "n2"]) by left. assert (H2 : lit "n2" ∈ [lit "n1"; lit "n2"]) by (right; left).
  split.
  - destruct (token_verdicts pad_mac (lit "s3cret") [lit "n1"; lit "n2"] (lit "n1") (lit "n1") 1000 1040) as [[_ Hv] _];
      [discriminate|exact Hok|exact H1|exact H1|unfold in_u; lia|lia|].
    apply Hv. split; [reflexivity|]. split; apply Z.leb_le; reflexivity.
  - destruct (token_verdicts pad_mac (lit "s3cret") [lit "n1"; lit "n2"] (lit "n1") (lit "n2") 1000 1000) as [[Hv _] _];
      [discriminate|exact Hok|exact H1|exact H2|unfold in_u; lia|lia|].
    apply not_true_iff_false. intros E. destruct (Hv E) as [Hid _]. discriminate Hid.
Defined.
