(* ===== verification/Operations.v ===== *)
(** * Cache operations (include/cinder/node/cache_operations.hpp)

    Reads, writes and deletes as the adapters of a node call them: on the local
    store alone, or through the replication manager with the replicas the ring
    names.  [local_] of the manager is the store.  [None] is a failed assertion
    or an exception of the ring. *)

From S2P Require Import Prelude Types Bytes Protocol Clock CacheStore HashRing.
From S2P Require Import HintQueue HintJournal Fanout ReadQuorum Replication.
Local Open Scope Z_scope.

Record CacheOperations := mkOperations {
  ops_node_id : bytes;
  ops_replica_factor : Z;          (* int *)
  ops_replication : bool;          (* the manager pointer is not null *)
  ops_mode : ConsistencyMode }.

Section operations.
Context {St : Type} `{CacheStore St}.
Context (hint_size : Z) (xxh3 hash64 : bytes → Z) (ops : CacheOperations) (ring : Ring).
Implicit Types m : ReplicationManager St.

Definition local_only : bool := (ops_replica_factor ops <=? 1) || negb (ops_replication ops).

Definition replicaNodesFor (key : bytes) : option (list bytes) :=
  match getNodes hash64 key (ops_replica_factor ops) ring with
  | HashRing.Done nodes => Some (filter (λ node, node ≠ ops_node_id ops) nodes)
  | _ => None
  end.

Definition setAsync (c : Clock) (key value : bytes) (ttl : option Z) (trace span : Z)
    (acts : list (Action (Result () * Moment))) m : option (list (Result ()) * ReplicationManager St) :=
  if local_only then '(r, s) ← cs_put c key value ttl (local_ m); Some ([r], with_local s m)
  else
    replicas ← replicaNodesFor key;
    writeAsync hint_size xxh3 (ops_node_id ops) c key value ttl replicas (ops_mode ops) trace span acts m.

Definition removeAsync (c : Clock) (key : bytes) (trace span : Z)
    (acts : list (Action (Result () * Moment))) m : option (list (Result ()) * ReplicationManager St) :=
  if local_only then
    let '(v, s) := cs_mintVersion (local_ m) in
    '(r, s) ← cs_removeVersioned c key v 0 s; Some ([r], with_local s m)
  else
    replicas ← replicaNodesFor key;
    deleteAsync hint_size xxh3 (ops_node_id ops) c key replicas (ops_mode ops) trace span acts m.

(** The callback that [getAsync] wraps around the caller's. *)
Definition exposed (r : Result Entry.VersionedEntry) : Result bytes :=
  match r with
  | Err e => Err e
  | Ok e => if Entry.isTombstone e then Err err_not_found else Ok (Entry.value e)
  end.

Definition expose_all (calls : list (nat * Result Entry.VersionedEntry)) : list (nat * Result bytes) :=
  (λ x, (x.1, exposed x.2)) <$> calls.

Definition found (v : option bytes) : Result bytes := match v with Some v => Ok v | None => Err err_not_found end.

Definition getAsync (c c' : Clock) (ctx : Z * Z) (key : bytes) (cb : nat) (trace span : Z) (acts : list (Action Answer)) m
  : option (list (nat * Result bytes) * ReplicationManager St) :=
  if local_only then
    '(v, s) ← cs_get c key (local_ m);
    Some ([(cb, found v)], with_local s m)
  else
    replicas ← replicaNodesFor key;
    '(calls, m) ← readAsync c c' ctx key replicas (Z.to_nat (ops_replica_factor ops)) cb trace span acts m;
    Some (expose_all calls, m).

End operations.

(** ** The replica plan *)

Lemma filter_other (self : bytes) (l : list bytes) :
  NoDup l → self ∈ l → self :: filter (λ node, node ≠ self) l ≡ₚ l.
Proof.
  intros Hnd Hin. apply list_elem_of_split in Hin as (l1 & l2 & ->). rewrite filter_app, filter_cons_False by tauto.
  apply NoDup_app in Hnd as (_ & Hd & [Hx _]%NoDup_cons). rewrite !filter_all_true.
  - apply Permutation_middle.
  - intros x Hx' ->. done.
  - intros x Hx' ->. apply (Hd self Hx'). left.
Qed.

(** The plan of a key at one of its nodes: the node and the replicas are the
    nodes of the key. *)
Lemma replica_plan hash64 `{Sorter} (ops : CacheOperations) (ring : Ring) (key : bytes) :
  reachable hash64 ring → physical_nodes (HashRing.snapshot ring) ≠ [] → 0 < ops_replica_factor ops <= K_MAX_REPLICAS →
  ∃ nodes replicas, getNodes hash64 key (ops_replica_factor ops) ring = HashRing.Done nodes ∧ NoDup nodes ∧
    length nodes = Nat.min (Z.to_nat (ops_replica_factor ops)) (length (physical_nodes (HashRing.snapshot ring))) ∧
    replicaNodesFor hash64 ops ring key = Some replicas ∧ NoDup replicas ∧ ops_node_id ops ∉ replicas ∧
    (ops_node_id ops ∈ nodes → ops_node_id ops :: replicas ≡ₚ nodes).
Proof.
  intros Hwf%ring_reachable_wf Hne Hk. destruct (getNodes_plan hash64 ring key _ Hwf Hne Hk) as (l & El & Hnd & _ & Hlen & _).
  exists l. eexists. unfold replicaNodesFor. rewrite El. split_and!; [done|done|done|done|by apply NoDup_filter| |by apply filter_other].
  intros [? _]%list_elem_of_filter. done.
Qed.
