(* ===== verification/Handlers.v ===== *)
(** * Request handling of a node (src/net/tcp/connection.cpp)

    From a decoded request to its response: the class of the opcode, the
    credential, the ownership of the key, and the handler, over the parts of the
    node the connection refers to.  The outcome of an operation that completes
    through a callback is the list of the callbacks' results; the responses made
    of them are functions of their own.  Metrics, spans and log lines are left
    out; [None] is a failed assertion of a component. *)

From S2P Require Import Prelude Types Bytes AntiEntropy Text Gossip HashRing CacheStore Auth.
From S2P Require Import HintQueue HintJournal Fanout ReadQuorum Replication Operations Clock Protocol.
Local Open Scope Z_scope.

Inductive OpcodeClass := ClientClass | ReplicationClass | AdminClass.

#[global] Instance OpcodeClass_eq_dec : EqDecision OpcodeClass.
Proof. solve_decision. Defined.

Definition classifyOpcode (op : Opcode) : OpcodeClass :=
  match op with
  | Replicate | Hint | Protocol.Gossip | AntiEntropyDigest | AntiEntropySync => ReplicationClass
  | AdminInfo | AdminCluster | AdminRing | AdminCompact | AdminConfigReload | AdminShutdown => AdminClass
  | _ => ClientClass
  end.

(** What the getters would return, and which triggers are set. *)
Record AdminCallbacks := mkAdmin {
  info_getter : option bytes;
  cluster_getter : option bytes;
  ring_getter : option bytes;
  compact_trigger : bool;
  config_reload_trigger : bool;
  shutdown_trigger : bool }.

(** What a connection is constructed with and never changes. *)
Record ConnectionConfig := mkConnConfig {
  operations : CacheOperations;      (* node id, replica factor, manager pointer, mode *)
  shared_secret : bytes;
  client_shared_secret : bytes;
  addr_resolver : option (bytes → option (bytes * Z));
  admin : option AdminCallbacks }.

Definition conn_node_id (cfg : ConnectionConfig) : bytes := ops_node_id (operations cfg).

(** The parts of the node a connection refers to; [triggered] lists the admin
    triggers called. *)
Record Node (St : Type) := mkNode {
  n_repl : ReplicationManager St;
  n_ring : Ring;
  n_gossip : option Gossip.Manager;
  n_anti_entropy : option AntiEntropy.Manager;
  triggered : list Opcode }.
Arguments mkNode {St}.
Arguments n_repl {St}.
Arguments n_ring {St}.
Arguments n_gossip {St}.
Arguments n_anti_entropy {St}.
Arguments triggered {St}.

Definition emptyResponse : Response := mkResponse (Errc_code OK) None 0 0 None false 0 0.

Definition with_trace (trace span : Z) (r : Response) : Response :=
  mkResponse (status r) (r_value r) (r_version r) (r_writer_node_hash r) (r_expires_at r) (r_tombstone r) trace span.

Definition status_response (e : Errc) (v : option bytes) : Response := mkResponse (Errc_code e) v 0 0 None false 0 0.

(** The error code of a result, [OK] without one. *)
Definition result_code {A} (r : Result A) : Errc := match r with Ok _ => OK | Err e => code e end.

Section handlers.
Context {St : Type} `{CacheStore St}.
Context (hint_size : Z) (xxh3 hash64 : bytes → Z) `{Sorter} (crypto : bool) (HMAC : bytes → bytes → bytes).
Context (cfg : ConnectionConfig).
Implicit Types n : Node St.

Definition with_repl m n : Node St := mkNode m (n_ring n) (n_gossip n) (n_anti_entropy n) (triggered n).
Definition with_ring r n : Node St := mkNode (n_repl n) r (n_gossip n) (n_anti_entropy n) (triggered n).
Definition with_store (s : St) n : Node St := with_repl (with_local s (n_repl n)) n.

Definition redirectValue (owner : bytes) : bytes :=
  let value := lit "moved to " ++ owner in
  match addr_resolver cfg with
  | None => value
  | Some resolve =>
      match resolve owner with
      | Some (host, port) =>
          if negb (port =? 0) && negb (bool_decide (host = [])) then value ++ lit "@" ++ host ++ lit ":" ++ to_string port else value
      | None => value
      end
  end.

Definition checkAuth (op : Opcode) (auth_token : bytes) (cls : OpcodeClass) (time : Z) : bool :=
  let client_auth_enabled := negb (bool_decide (client_shared_secret cfg = [])) in
  let node_secret := negb (bool_decide (shared_secret cfg = [])) in
  let node_token := verifyAuthToken crypto HMAC (shared_secret cfg) (conn_node_id cfg) auth_token time K_AUTH_WINDOW in
  let client_token := verifyClientAuthToken crypto HMAC (client_shared_secret cfg) auth_token in
  if bool_decide (cls = ReplicationClass) && node_secret then node_token
  else if bool_decide (cls = AdminClass) then
    if client_auth_enabled then client_token
    else if node_secret then node_token
    else true
  else if client_auth_enabled then client_token
  else true.

(** The responses sent on a denial and on a redirect. *)
Definition denial (rq : Request) : Response := with_trace (trace_id rq) (span_id rq) (status_response PermissionDenied None).

Definition redirect (owner : bytes) (trace span : Z) : Response :=
  with_trace trace span (status_response NotReady (Some (redirectValue owner))).

(** The owner to redirect to, if the request must not proceed. *)
Definition checkWriteOwnership (rq : Request) n : option (option bytes) :=
  if bool_decide (opcode rq = Ping) || bool_decide (opcode rq = Get) || bool_decide (opcode rq = GetVersioned) then Some None
  else
    owner ← getNode hash64 (key rq) (n_ring n);
    Some (if decide (owner = conn_node_id cfg) then None else Some owner).

Definition quorum_ops : bool := (1 <? ops_replica_factor (operations cfg)) && ops_replication (operations cfg).

(** [decrementLoad] once for each completion. *)
Fixpoint release_load (k : nat) (r : Ring) : option Ring :=
  match k with
  | O => Some r
  | S k => r ← decrementLoad (conn_node_id cfg) r; release_load k r
  end.

(** What the callbacks of a read are called with. *)
Definition handleGet (c c' : Clock) (ctx : Z * Z) (rq : Request) (cb : nat) (acts : list (Action Answer)) n
  : option (list (nat * Result bytes) * Node St) :=
  ring ← (if quorum_ops then incrementLoad (conn_node_id cfg) (n_ring n) else Some (n_ring n));
  '(calls, m) ← getAsync hash64 (operations cfg) ring c c' ctx (key rq) cb (trace_id rq) (span_id rq) acts (n_repl n);
  ring ← (if quorum_ops then release_load (length calls) ring else Some ring);
  Some (calls, with_ring ring (with_repl m n)).

(** The response to a completed read. *)
Definition getResponse (rq : Request) (result : Result bytes) n : option Response :=
  match result with
  | Ok v => Some (with_trace (trace_id rq) (span_id rq) (status_response OK (Some v)))
  | Err e =>
      if bool_decide (code e = NotFound) && negb quorum_ops then
        owner ← getNode hash64 (key rq) (n_ring n);
        Some (if decide (owner = conn_node_id cfg) then with_trace (trace_id rq) (span_id rq) (status_response (code e) None)
              else redirect owner (trace_id rq) (span_id rq))
      else Some (with_trace (trace_id rq) (span_id rq) (status_response (code e) None))
  end.

(** The response, and whether it was sent by the handler. *)
Definition handleGetVersioned (c : Clock) (rq : Request) (is_internal : bool) n : option (Response * bool * Node St) :=
  '(entry, s) ← cs_getVersioned c (key rq) (local_ (n_repl n));
  let n := with_store s n in
  match entry with
  | Some e =>
      Some (mkResponse (Errc_code OK) (if Entry.isTombstone e then None else Some (Entry.value e)) (Entry.version e)
              (Entry.writer_node_hash e) (if Entry.hasTtl e then Some (toSystemExpiry c (Entry.expires_at e)) else None)
              (Entry.isTombstone e) 0 0, false, n)
  | None =>
      owner ← getNode hash64 (key rq) (n_ring n);
      if negb is_internal && negb (bool_decide (owner = conn_node_id cfg)) then Some (redirect owner (trace_id rq) (span_id rq), true, n)
      else Some (status_response NotFound None, false, n)
  end.

(** Both write handlers hold a unit of load until the operation completes. *)
Definition handleSet (c : Clock) (rq : Request) (acts : list (Action (Result () * Moment))) n
  : option (list (Result ()) * Node St) :=
  ring ← incrementLoad (conn_node_id cfg) (n_ring n);
  '(results, m) ← setAsync hint_size xxh3 hash64 (operations cfg) ring c (key rq) (value rq) (ttl rq) (trace_id rq) (span_id rq) acts (n_repl n);
  ring ← release_load (length results) ring;
  Some (results, with_ring ring (with_repl m n)).

Definition handleDelete (c : Clock) (rq : Request) (acts : list (Action (Result () * Moment))) n
  : option (list (Result ()) * Node St) :=
  ring ← incrementLoad (conn_node_id cfg) (n_ring n);
  '(results, m) ← removeAsync hint_size xxh3 hash64 (operations cfg) ring c (key rq) (trace_id rq) (span_id rq) acts (n_repl n);
  ring ← release_load (length results) ring;
  Some (results, with_ring ring (with_repl m n)).

(** The response of [onWriteComplete]. *)
Definition writeResponse (rq : Request) (result : Result ()) : Response :=
  with_trace (trace_id rq) (span_id rq) (status_response (result_code result) None).

(** The entry of a replicated write. *)
Definition replicaEntry (c : Clock) (rq : Request) : Entry.VersionedEntry :=
  let e := Entry.with_writer (writer_node_hash rq) (Entry.setVersion (version rq) (Entry.with_value (value rq) Entry.emptyEntry)) in
  let e := match expires_at rq with
           | Some t => Entry.setHasTtl true (Entry.with_expires (toSteadyExpiry c t) e)
           | None => e
           end in
  if tombstone rq then Entry.setTombstone true e else e.

Definition handleReplicate (c : Clock) (rq : Request) n : option (Response * Node St) :=
  let s := local_ (n_repl n) in
  '(r, s) ← (if tombstone rq && bool_decide (expires_at rq = None)
             then cs_removeVersioned c (key rq) (version rq) (writer_node_hash rq) s
             else cs_putVersioned c (key rq) (replicaEntry c rq) s);
  Some (status_response (result_code r) None, with_store s n).

Definition handleGossip (c : Clock) (rq : Request) n : Response * Node St :=
  (emptyResponse, mkNode (n_repl n) (n_ring n) (Gossip.handleMessage (now c) rq <$> n_gossip n) (n_anti_entropy n) (triggered n)).

(** [None] inside: the manager is absent and the caller answers. *)
Definition handleAntiEntropy (h : Clock → Request → St → AntiEntropy.Manager → option (Response * (St * AntiEntropy.Manager)))
    (c : Clock) (rq : Request) n : option (option Response * Node St) :=
  match n_anti_entropy n with
  | None => Some (None, n)
  | Some ae =>
      '(r, (s, ae)) ← h c rq (local_ (n_repl n)) ae;
      Some (Some r, mkNode (with_local s (n_repl n)) (n_ring n) (n_gossip n) (Some ae) (triggered n))
  end.

Definition handleAntiEntropyDigest (c : Clock) (rq : Request) n : option (option Response * Node St) :=
  if decide (key rq = lit "bucket-refinement-v3") then handleAntiEntropy (onBucketRefinement xxh3) c rq n
  else handleAntiEntropy (onDigestRequest xxh3) c rq n.

Definition handleAntiEntropySync (c : Clock) (rq : Request) n : option (option Response * Node St) :=
  handleAntiEntropy (onSyncRequest xxh3) c rq n.

Definition trigger (set : AdminCallbacks → bool) (op : Opcode) n : Node St :=
  match admin cfg with
  | Some a => if set a then mkNode (n_repl n) (n_ring n) (n_gossip n) (n_anti_entropy n) (triggered n ++ [op]) else n
  | None => n
  end.

Definition handleAdmin (rq : Request) n : Response * Node St :=
  match opcode rq with
  | AdminInfo => (status_response OK (admin cfg ≫= info_getter), n)
  | AdminCluster => (status_response OK (admin cfg ≫= cluster_getter), n)
  | AdminRing => (status_response OK (admin cfg ≫= ring_getter), n)
  | AdminCompact => (emptyResponse, trigger compact_trigger AdminCompact n)
  | AdminConfigReload => (emptyResponse, trigger config_reload_trigger AdminConfigReload n)
  | AdminShutdown => (emptyResponse, trigger shutdown_trigger AdminShutdown n)
  | _ => (emptyResponse, n)
  end.

(** A response, or the results of an operation that completes by callback. *)
Inductive Handled :=
  | Replied (r : Response)
  | Reading (calls : list (nat * Result bytes))
  | Writing (results : list (Result ())).

(** What comes from outside while a request is handled: the clocks at its start
    and at a read's decision, the time of the day, the repair span, the number
    of the caller, and the reports of the fan-outs. *)
Record Outside := mkOutside {
  o_clock : Clock;
  o_later : Clock;
  o_time : Z;
  o_ctx : Z * Z;
  o_cb : nat;
  o_reads : list (Action Answer);
  o_writes : list (Action (Result () * Moment)) }.

Definition dispatchRequest (o : Outside) (rq : Request) (is_internal : bool) n : option (Handled * Node St) :=
  let c := o_clock o in
  let echo r := with_trace (trace_id rq) (span_id rq) r in
  match opcode rq with
  | Get => '(calls, n) ← handleGet c (o_later o) (o_ctx o) rq (o_cb o) (o_reads o) n; Some (Reading calls, n)
  | GetVersioned =>
      '(r, sent, n) ← handleGetVersioned c rq is_internal n; Some (Replied (if sent : bool then r else echo r), n)
  | Set_ => '(results, n) ← handleSet c rq (o_writes o) n; Some (Writing results, n)
  | Del => '(results, n) ← handleDelete c rq (o_writes o) n; Some (Writing results, n)
  | Ping => Some (Replied (echo emptyResponse), n)
  | Replicate | Hint => '(r, n) ← handleReplicate c rq n; Some (Replied (echo r), n)
  | Protocol.Gossip => let '(r, n) := handleGossip c rq n in Some (Replied (echo r), n)
  | AntiEntropyDigest => '(r, n) ← handleAntiEntropyDigest c rq n; Some (Replied (default (echo emptyResponse) r), n)
  | AntiEntropySync => '(r, n) ← handleAntiEntropySync c rq n; Some (Replied (default (echo emptyResponse) r), n)
  | _ => let '(r, n) := handleAdmin rq n in Some (Replied (echo r), n)
  end.

Definition handleRequest (o : Outside) (rq : Request) (auth_token : bytes) n : option (Handled * Node St) :=
  let cls := classifyOpcode (opcode rq) in
  if negb (checkAuth (opcode rq) auth_token cls (o_time o)) then Some (Replied (denial rq), n)
  else
    owner ← (if decide (cls = ClientClass) then checkWriteOwnership rq n else Some None);
    match owner with
    | Some owner => Some (Replied (redirect owner (trace_id rq) (span_id rq)), n)
    | None => dispatchRequest o rq (negb (bool_decide (cls = ClientClass))) n
    end.

(** Missing trace ids are drawn from one counter, two at a time. *)
Definition mintTrace (rq : Request) (next_id : Z) : Request * Z :=
  if (trace_id rq =? 0) || (span_id rq =? 0) then
    (mkRequest (opcode rq) (if trace_id rq =? 0 then next_id else trace_id rq) (if span_id rq =? 0 then u64 (next_id + 1) else span_id rq)
       (key rq) (value rq) (version rq) (writer_node_hash rq) (ttl rq) (expires_at rq) (tombstone rq), u64 (next_id + 2))
  else (rq, next_id).

(** A complete frame; the request is handed back for the completions. *)
Definition onPayload (o : Outside) (frame : bytes) (next_id : Z) n : option (Handled * Request * Z * Node St) :=
  match decode frame with
  | Err _ => Some (Replied (status_response InvalidArgument None), mkRequest Get 0 0 [] [] 0 0 None None false, next_id, n)
  | Ok d =>
      let '(rq, next_id) := mintTrace (req d) next_id in
      '(h, n) ← handleRequest o rq (auth_token d) n;
      Some (h, rq, next_id, n)
  end.

End handlers.

(** ** Credentials *)

Section credentials.
Context {St : Type} `{CacheStore St}.
Context (hint_size : Z) (xxh3 hash64 : bytes → Z) `{Sorter} (HMAC : bytes → bytes → bytes) (cfg : ConnectionConfig).

(** The token of this node at the time of the day, or the client's. *)
Definition node_credential (token : bytes) (time : Z) : Prop :=
  ∃ ts, u64 time / 10 - 4 <= ts <= u64 time / 10 ∧ token = HMAC (shared_secret cfg) (token_data (conn_node_id cfg) (u64 ts)).

Definition client_credential (token : bytes) : Prop := token = HMAC (client_shared_secret cfg) K_CLIENT_AUTH_DOMAIN.

Lemma verify_credential token time :
  verifyAuthToken true HMAC (shared_secret cfg) (conn_node_id cfg) token time K_AUTH_WINDOW = true → node_credential token time.
Proof.
  unfold verifyAuthToken. case_decide; [done|]. destruct (negb _); [done|]. cbn [negb].
  change (Z.quot K_AUTH_WINDOW 10 + 1 <? 0) with false. cbv iota. change (Z.to_nat (Z.quot K_AUTH_WINDOW 10 + 1)) with 4%nat.
  rewrite any_window_iff. intros (j & Hj & ->). exists (u64 time / 10 - j). split; [lia|done].
Qed.

Lemma verify_client token : verifyClientAuthToken true HMAC (client_shared_secret cfg) token = true → client_credential token.
Proof. unfold verifyClientAuthToken. case_decide; [done|]. cbn [negb]. by intros ?%constantTimeEqual_iff. Qed.

(** What each request asks for, opcode by opcode. *)
Definition credentials (op : Opcode) (token : bytes) (time : Z) : Prop :=
  match op with
  | Get | Set_ | Del | Ping | GetVersioned => client_shared_secret cfg ≠ [] → client_credential token
  | Protocol.Gossip | Replicate | Hint | AntiEntropyDigest | AntiEntropySync => shared_secret cfg ≠ [] → node_credential token time
  | AdminInfo | AdminCluster | AdminRing | AdminCompact | AdminConfigReload | AdminShutdown =>
      (client_shared_secret cfg ≠ [] → client_credential token) ∧
      (client_shared_secret cfg = [] → shared_secret cfg ≠ [] → node_credential token time)
  end.

Lemma checkAuth_credentials op token time :
  checkAuth true HMAC cfg op token (classifyOpcode op) time = true → credentials op token time.
Proof.
  assert (credentials op token time ↔ match classifyOpcode op with
    | ReplicationClass => shared_secret cfg ≠ [] → node_credential token time
    | AdminClass => (client_shared_secret cfg ≠ [] → client_credential token) ∧
                    (client_shared_secret cfg = [] → shared_secret cfg ≠ [] → node_credential token time)
    | ClientClass => client_shared_secret cfg ≠ [] → client_credential token
    end) as -> by (by destruct op).
  unfold checkAuth. cbv zeta. destruct (classifyOpcode op).
  - rewrite !(bool_decide_eq_false_2 (ClientClass = _)) by done. cbn [andb]. intros E Hne. rewrite bool_decide_eq_false_2 in E by done. by apply verify_client.
  - rewrite (bool_decide_eq_true_2 (ReplicationClass = _)) by done. cbn [andb]. intros E Hne. rewrite bool_decide_eq_false_2 in E by done. by apply verify_credential.
  - rewrite (bool_decide_eq_false_2 (AdminClass = ReplicationClass)), (bool_decide_eq_true_2 (AdminClass = AdminClass)) by done. cbn [andb]. intros E. split.
    + intros Hne. rewrite (bool_decide_eq_false_2 (client_shared_secret cfg = [])) in E by done. by apply verify_client.
    + intros Hc Hne. rewrite (bool_decide_eq_true_2 (client_shared_secret cfg = [])), (bool_decide_eq_false_2 (shared_secret cfg = [])) in E by done.
      by apply verify_credential.
Qed.

End credentials.

(** C26: nothing happens without a credential.  Whatever is sent to a node with
    cryptography, a request that changes any part of the node, or that is
    answered with anything but a denial, carries what its opcode asks for:
    [Gossip], [Replicate], [Hint] and the two anti-entropy requests the token of
    the node for one of the last five windows when a shared secret is set, the
    six admin requests the client's token when client authentication is on and
    else the node's, [Get], [Set], [Del], [Ping] and [GetVersioned] the
    client's when client authentication is on. *)
Theorem requests_need_credentials {St : Type} `{CacheStore St} (hint_size : Z) (xxh3 hash64 : bytes → Z) `{Sorter} (HMAC : bytes → bytes → bytes)
    (cfg : ConnectionConfig) (o : Outside) (rq : Request) (token : bytes) (n n' : Node St) (h : Handled) :
  handleRequest hint_size xxh3 hash64 true HMAC cfg o rq token n = Some (h, n') →
  n' ≠ n ∨ h ≠ Replied (denial rq) → credentials HMAC cfg (opcode rq) token (o_time o).
Proof.
  unfold handleRequest. cbv zeta. destruct (checkAuth _ _ _ _ _ _ _) eqn:E; cbn [negb].
  - intros _ _. by apply checkAuth_credentials.
  - intros [= <- <-] [?|?]; done.
Qed.

(** a shared secret shuts the nodes off from each other.  A node signs its
    tokens with its own name and the receiver checks them under its own: when
    the secret is set on both, every replication request of a peer (writes,
    hints, gossip, anti-entropy) is denied, at any time, and changes nothing. *)
Theorem peers_denied {St : Type} `{CacheStore St} (hint_size : Z) (xxh3 hash64 : bytes → Z) `{Sorter} (HMAC : bytes → bytes → bytes)
    (cfg : ConnectionConfig) (o : Outside) (rq : Request) (peer : bytes) (ids : list bytes) (t : Z) (n : Node St) :
  shared_secret cfg ≠ [] → hmac_ok HMAC (shared_secret cfg) ids → peer ∈ ids → conn_node_id cfg ∈ ids → peer ≠ conn_node_id cfg →
  in_u 64 t → 40 <= o_time o < 2 ^ 64 → classifyOpcode (opcode rq) = ReplicationClass →
  handleRequest hint_size xxh3 hash64 true HMAC cfg o rq (generateAuthToken true HMAC (shared_secret cfg) peer t) n = Some (Replied (denial rq), n).
Proof.
  intros Hs Hok Hp Hme Hne Ht Ho Hc. unfold handleRequest. cbv zeta. rewrite Hc. unfold checkAuth. cbv zeta.
  rewrite (bool_decide_eq_true_2 (ReplicationClass = ReplicationClass)), (bool_decide_eq_false_2 (shared_secret cfg = [])) by done. cbn [negb andb].
  destruct (verifyAuthToken _ _ _ _ _ _ _) eqn:E; [|done]. by apply (verify_generated HMAC _ ids) in E as [? _].
Qed.

(** a replica without the key is taken for one that failed.  Asked for its
    vote on a key it does not hold, a node that is not the first of the key on
    the ring answers with a redirect, which the reader counts neither as a copy
    nor as a miss, so that the read does not repair it. *)
Theorem absent_replica_not_repaired {St : Type} `{CacheStoreLaws St} (hint_size : Z) (xxh3 hash64 : bytes → Z) `{Sorter} (crypto : bool)
    (HMAC : bytes → bytes → bytes) (cfg : ConnectionConfig) (o : Outside) (rq : Request) (token owner : bytes) (n : Node St) (d : ReadReducer) (c : Clock) :
  shared_secret cfg = [] → client_shared_secret cfg = [] → opcode rq = GetVersioned →
  cs_inv (local_ (n_repl n)) → cs_lookup (local_ (n_repl n)) (key rq) = None →
  getNode hash64 (key rq) (n_ring n) = Some owner → owner ≠ conn_node_id cfg →
  ∃ r n', handleRequest hint_size xxh3 hash64 crypto HMAC cfg o rq token n = Some (Replied r, n') ∧
    status r = Errc_code NotReady ∧ counts (Ok r) = None ∧ misses (Ok r) = false ∧
    needs_repair (note d (c, Ok r)) = needs_repair d ∧ best_entry (note d (c, Ok r)) = best_entry d.
Proof.
  intros Es Ec Eo Hi Hl Hg Hne. unfold handleRequest. cbv zeta. rewrite Eo. cbn [classifyOpcode].
  unfold checkAuth. cbv zeta. rewrite !(bool_decide_eq_false_2 (ClientClass = _)), (bool_decide_eq_true_2 (client_shared_secret cfg = [])) by done. cbn [andb negb].
  rewrite decide_True by done. unfold checkWriteOwnership. rewrite Eo, (bool_decide_eq_true_2 (GetVersioned = GetVersioned)), !orb_true_r by done. cbn [mbind option_bind].
  unfold dispatchRequest. rewrite Eo, bool_decide_eq_true_2 by done. cbn [negb]. unfold handleGetVersioned.
  destruct (cs_get_law (o_clock o) (key rq) (local_ (n_repl n)) Hi) as (s & -> & _). rewrite Hl. cbn [mbind option_bind unexpired].
  change (n_ring (with_store s n)) with (n_ring n). rewrite Hg. cbn [mbind option_bind negb andb]. rewrite bool_decide_eq_false_2 by done. cbn [negb].
  do 2 eexists. split; [done|]. done.
Qed.

(** ** A node that is asked *)

Local Instance demo_cache : CacheStore (Store.Store () ()) := eviction_cache StoreSpec.demo_hash.
Local Instance demo_laws : CacheStoreLaws (Store.Store () ()) := eviction_laws StoreSpec.demo_hash.

Definition demo_node : Node (Store.Store () ()) :=
  mkNode (mkRepl StoreSpec.demo_store emptyQueue [] None ∅ false emptyRegistry []) ring2 None None [].

Definition demo_config (id secret : bytes) : ConnectionConfig := mkConnConfig (mkOperations id 3 true Quorum) secret [] None None.

Definition at_time (t : Z) : Outside := mkOutside StoreFacts.demo_clock StoreFacts.demo_clock t (0, 0) 0 [] [].

Definition gossip_rq : Request := mkRequest Protocol.Gossip 7 9 [] [] 0 0 None None false.

Definition vote_rq (k : bytes) : Request := mkRequest GetVersioned 7 9 k [] 0 0 None None false.

Lemma requests_need_credentials_witness :
  handleRequest 64 demo_sum toy_hash true pad_mac (demo_config (lit "n1") (lit "s3cret")) (at_time 1000) gossip_rq
    (generateAuthToken true pad_mac (lit "s3cret") (lit "n1") 1000) demo_node = Some (Replied (with_trace 7 9 emptyResponse), demo_node) ∧
  credentials pad_mac (demo_config (lit "n1") (lit "s3cret")) Protocol.Gossip (generateAuthToken true pad_mac (lit "s3cret") (lit "n1") 1000) 1000.
Proof.
  assert (E : handleRequest 64 demo_sum toy_hash true pad_mac (demo_config (lit "n1") (lit "s3cret")) (at_time 1000) gossip_rq
    (generateAuthToken true pad_mac (lit "s3cret") (lit "n1") 1000) demo_node = Some (Replied (with_trace 7 9 emptyResponse), demo_node)) by reflexivity.
  split; [exact E|]. apply (requests_need_credentials 64 demo_sum toy_hash pad_mac _ _ _ _ _ _ _ E). right. discriminate.
Defined.

Lemma peers_denied_witness :
  handleRequest 64 demo_sum toy_hash true pad_mac (demo_config (lit "n1") (lit "s3cret")) (at_time 1000) gossip_rq
    (generateAuthToken true pad_mac (lit "s3cret") (lit "n2") 1000) demo_node = Some (Replied (denial gossip_rq), demo_node).
Proof.
  apply (peers_denied 64 demo_sum toy_hash pad_mac (demo_config (lit "n1") (lit "s3cret")) (at_time 1000) gossip_rq (lit "n2") [lit "n1"; lit "n2"] 1000 demo_node).
  - discriminate.
  - apply pad_mac_ok. intros id Hid. repeat (apply elem_of_cons in Hid as [->|Hid]); [by vm_compute; lia..|by apply not_elem_of_nil in Hid].
  - right. left.
  - left.
  - discriminate.
  - unfold in_u. lia.
  - cbn. lia.
  - reflexivity.
Defined.

Lemma absent_replica_not_repaired_witness :
  ∃ r n', handleRequest 64 demo_sum toy_hash false pad_mac (demo_config (lit "n9") []) (at_time 0) (vote_rq (lit "nokey")) [] demo_node = Some (Replied r, n') ∧
    status r = Errc_code NotReady ∧ counts (Ok r) = None ∧ misses (Ok r) = false ∧
    needs_repair (note (newReducer 3 2 None) (StoreFacts.demo_clock, Ok r)) = false ∧
    best_entry (note (newReducer 3 2 None) (StoreFacts.demo_clock, Ok r)) = None.
Proof.
  apply (absent_replica_not_repaired 64 demo_sum toy_hash false pad_mac (demo_config (lit "n9") []) (at_time 0) (vote_rq (lit "nokey")) [] (lit "a") demo_node
    (newReducer 3 2 None) StoreFacts.demo_clock).
  - reflexivity.
  - reflexivity.
  - reflexivity.
  - apply StoreSpec.demo_store_inv.
  - vm_compute. reflexivity.
  - vm_compute. reflexivity.
  - discriminate.
Defined.
