(* ===== verification/Cluster.v ===== *)
(** * Quorums across nodes

    Nodes that answer each other's requests through their connection handlers:
    what a replica that acknowledged a write answers to a later vote, and what a
    quorum read returns after a quorum write.  The nodes have no shared secret
    configured (see [peers_denied] in the file Handlers for what happens when they
    have). *)

From S2P Require Import Prelude Types Bytes AntiEntropy Text Gossip HashRing CacheStore Auth.
From S2P Require Import HintQueue HintJournal Fanout ReadQuorum Replication ReplicationSpec Operations Handlers Clock Protocol.
Import Lww LwwFacts.
Local Open Scope Z_scope.

(** ** A replica *)

Lemma replicaEntry_facts c rq :
  in_u 62 (version rq) →
  Entry.wf (replicaEntry c rq) ∧ stampOf (replicaEntry c rq) = hintStamp rq ∧ Entry.value (replicaEntry c rq) = value rq.
Proof.
  intros Hv. unfold replicaEntry. cbv zeta. set (e0 := Entry.with_value (value rq) Entry.emptyEntry).
  set (e1 := Entry.with_writer (writer_node_hash rq) (Entry.setVersion (version rq) e0)).
  assert (H1 : Entry.wf e1) by (apply (EntryFacts.setVersion_wf (version rq) e0); done).
  assert (V1 : Entry.version e1 = version rq) by (apply (setVersion_of (version rq) e0); done).
  assert (T1 : Entry.isTombstone e1 = false) by (apply (EntryFacts.setVersion_isTombstone (version rq) e0); done).
  set (e2 := match expires_at rq with Some t => _ | None => e1 end).
  assert (H2 : Entry.wf e2 ∧ Entry.version e2 = version rq ∧ Entry.isTombstone e2 = false ∧ Entry.writer_node_hash e2 = writer_node_hash rq ∧
    Entry.value e2 = value rq).
  { unfold e2. destruct (expires_at rq) as [t|]; [|done]. set (e1' := Entry.with_expires _ e1).
    assert (Hw : Entry.wf e1') by exact H1. split_and!; [by apply EntryFacts.setHasTtl_wf| | |done|done].
    - rewrite EntryFacts.setHasTtl_version by done. exact V1.
    - rewrite EntryFacts.setHasTtl_isTombstone by done. exact T1. }
  destruct H2 as (H2 & V2 & T2 & W2 & X2). unfold hintStamp, stampOf. destruct (tombstone rq).
  - split_and!; [by apply EntryFacts.setTombstone_wf| |exact X2].
    rewrite EntryFacts.setTombstone_version, EntryFacts.setTombstone_isTombstone, V2 by done. f_equal. exact W2.
  - split_and!; [done| |exact X2]. by rewrite V2, T2, W2.
Qed.

Lemma expired_mono e t t' : t <= t' → Store.expired t' e = false → Store.expired t e = false.
Proof.
  unfold Store.expired. intros Ht. destruct (Entry.hasTtl e); [|done]. cbn [andb]. rewrite !Z.leb_gt. lia.
Qed.

Section replica.
Context {St : Type} `{CacheStoreLaws St}.
Context (hint_size : Z) (xxh3 hash64 : bytes → Z) `{Sorter} (crypto : bool) (HMAC : bytes → bytes → bytes).
Context (cfg : ConnectionConfig).
Implicit Types n : Node St.

(** No credential is asked for. *)
Definition open_node : Prop := shared_secret cfg = [] ∧ client_shared_secret cfg = [].

Lemma open_auth op tok t : open_node → checkAuth crypto HMAC cfg op tok (classifyOpcode op) t = true.
Proof.
  intros [Es Ec]. unfold checkAuth. cbv zeta. rewrite !(bool_decide_eq_true_2 (_ = [])) by done. cbn [negb].
  rewrite andb_false_r. by destruct (bool_decide (classifyOpcode op = AdminClass)).
Qed.

(** The key holds a write at least as new as [σ]. *)
Definition covers (σ : LwwStamp) (k : bytes) n : Prop :=
  ∃ x, cs_lookup (local_ (n_repl n)) k = Some x ∧ lww_le σ (stampOf x).

(** A node with room, whose key [k] does not expire before [T]. *)
Record node_ok (T : Z) (k : bytes) (room : Z) n : Prop := mkNodeOk {
  no_inv : cs_inv (local_ (n_repl n));
  no_room : cs_room room (local_ (n_repl n));
  no_lasts : ∀ x, cs_lookup (local_ (n_repl n)) k = Some x → Store.expired T x = false;
  no_ring : ∀ key, is_Some (getNode hash64 key (n_ring n)) }.

(** Requests of peers while the key is read and written: writes and votes, before
    [T]; what is written to the key itself lasts until then. *)
Record peer_request (T : Z) (k : bytes) (o : Outside) (rq : Request) : Prop := mkPeerRequest {
  pr_opcode : opcode rq = Replicate ∨ opcode rq = Hint ∨ opcode rq = GetVersioned;
  pr_time : now (o_clock o) <= T;
  pr_version : in_u 62 (version rq);
  pr_lasts : opcode rq ≠ GetVersioned → key rq = k →
    (tombstone rq = true → expires_at rq ≠ None) ∧ Store.expired T (replicaEntry (o_clock o) rq) = false }.

Definition cost (rq : Request) : Z :=
  if decide (opcode rq = GetVersioned) then 0 else zlen (key rq) + zlen (value rq) + cs_node_bytes.

(** One entry merged into the key. *)
Lemma merged T k e n n' :
  (∀ x, cs_lookup (local_ (n_repl n)) k = Some x → Store.expired T x = false) → Store.expired T e = false →
  cs_lookup (local_ (n_repl n')) k = Some (applyLww (cs_lookup (local_ (n_repl n)) k) e) →
  (∀ x, cs_lookup (local_ (n_repl n')) k = Some x → Store.expired T x = false) ∧
  (∀ σ, covers σ k n → covers σ k n') ∧ covers (stampOf e) k n'.
Proof.
  intros Hlast He Hl. destruct (applyLww_max (cs_lookup (local_ (n_repl n)) k) e) as (Hsel & Hge & Hold). split_and!.
  - intros x. rewrite Hl. intros [= <-]. destruct Hsel as [Hsel|Hsel]; [by rewrite Hsel|by apply Hlast].
  - intros σ (x & Hx & Hle). eexists. split; [exact Hl|]. eapply lww_le_trans; [exact Hle|by apply Hold].
  - eexists. split; [exact Hl|exact Hge].
Qed.

(** The key is not touched. *)
Lemma untouched T k room n n' :
  cs_lookup (local_ (n_repl n')) k = cs_lookup (local_ (n_repl n)) k → n_ring n' = n_ring n →
  cs_inv (local_ (n_repl n')) → cs_room room (local_ (n_repl n')) →
  (∀ x, cs_lookup (local_ (n_repl n)) k = Some x → Store.expired T x = false) → (∀ key, is_Some (getNode hash64 key (n_ring n))) →
  node_ok T k room n' ∧ ∀ σ, covers σ k n → covers σ k n'.
Proof.
  intros E Er Hi Hr Hl Hg. split; [split; [done|done|by rewrite E|by rewrite Er]|]. intros σ (x & Hx & Hle). exists x. by rewrite E.
Qed.

Lemma replicate_step T k o rq room n :
  node_ok T k (cost rq + room) n → 0 <= room → peer_request T k o rq → opcode rq ≠ GetVersioned →
  ∃ n', handleReplicate (o_clock o) rq n = Some (status_response OK None, n') ∧ node_ok T k room n' ∧
    (∀ σ, covers σ k n → covers σ k n') ∧ (key rq = k → covers (hintStamp rq) k n').
Proof.
  intros [Hi Hr Hl Hg] Hroom [Hop Ht Hv Hlast] Hng. specialize (Hlast Hng). unfold cost in Hr. rewrite decide_False in Hr by done.
  destruct (replicaEntry_facts (o_clock o) rq Hv) as (Hwf & Hst & Hval). unfold handleReplicate.
  destruct (tombstone rq && bool_decide (expires_at rq = None)) eqn:Et.
  - apply andb_true_iff in Et as [Et Ee%bool_decide_eq_true]. assert (Hk : k ≠ key rq) by (intros E; destruct (Hlast (eq_sym E)) as [Hne _]; by apply Hne).
    destruct (cs_remove_versioned_law (o_clock o) (key rq) (version rq) (writer_node_hash rq) room (local_ (n_repl n)) Hi Hroom)
      as (s & dl & -> & Hi' & Hl' & Hr'); [eapply cs_room_le; [exact Hr|unfold zlen; lia]|].
    eexists. split; [done|]. destruct (untouched T k room n (with_store s n)) as [Hok Hc]; [|done|done|done|done|done|split_and!; [done..|]; intros E'; by destruct Hk].
    cbn [with_store with_repl with_local n_repl local_]. by rewrite Hl', decide_False.
  - destruct (cs_put_law (o_clock o) (key rq) (replicaEntry (o_clock o) rq) room (local_ (n_repl n)) Hi Hwf Hroom)
      as (s & -> & Hi' & Hl' & Hr'); [by rewrite Hval|].
    eexists. split; [done|]. destruct (decide (k = key rq)) as [E|E].
    + destruct (Hlast (eq_sym E)) as [_ Hex]. destruct (merged T k (replicaEntry (o_clock o) rq) n (with_store s n)) as (M1 & M2 & M3); [done|done| |].
      { cbn [with_store with_repl with_local n_repl local_]. by rewrite Hl', decide_True, E. }
      rewrite Hst in M3. by split_and!.
    + destruct (untouched T k room n (with_store s n)) as [Hok Hc]; [|done|done|done|done|done|split_and!; [done..|]; intros E'; by destruct E].
      cbn [with_store with_repl with_local n_repl local_]. by rewrite Hl', decide_False.
Qed.

Lemma unexpired_lasting T c o : (∀ x : Entry.VersionedEntry, o = Some x → Store.expired T x = false) → now c <= T → unexpired c o = o.
Proof.
  intros Hl Ht. destruct o as [x|]; [|done]. unfold unexpired. cbn [mbind option_bind].
  by rewrite (expired_mono x _ T Ht (Hl x eq_refl)).
Qed.

Lemma vote_step T k o rq room n :
  node_ok T k (cost rq + room) n → peer_request T k o rq → opcode rq = GetVersioned →
  ∃ r sent n', handleGetVersioned hash64 cfg (o_clock o) rq false n = Some (r, sent, n') ∧ node_ok T k room n' ∧
    (∀ σ, covers σ k n → covers σ k n') ∧ in_u 62 (r_version r) ∧
    (key rq = k → ∀ σ, covers σ k n → 0 < s_version σ → sent = false ∧ counts (Ok r) = Some r ∧ lww_le σ (voteStamp r)).
Proof.
  intros [Hi Hr Hl Hg] [Hop Ht Hv _] Hgv. unfold cost in Hr. rewrite decide_True in Hr by done. cbn in Hr. unfold handleGetVersioned.
  destruct (cs_get_law (o_clock o) (key rq) (local_ (n_repl n)) Hi) as (s & -> & Hi' & Hl' & Hr'). cbn [mbind option_bind].
  destruct (untouched T k room n (with_store s n)) as [Hok Hc]; [|done|done|by apply Hr'|done|done|].
  { cbn [with_store with_repl with_local n_repl local_]. rewrite Hl'. case_decide as E; [|done]. subst k. by eapply unexpired_lasting. }
  destruct (unexpired (o_clock o) (cs_lookup (local_ (n_repl n)) (key rq))) as [e|] eqn:Eu.
  - assert (He : cs_lookup (local_ (n_repl n)) (key rq) = Some e).
    { unfold unexpired in Eu. destruct (cs_lookup (local_ (n_repl n)) (key rq)); [|done]. cbn in Eu. by destruct (Store.expired _ _). }
    assert (Hwf : in_u 62 (Entry.version e)) by (apply EntryFacts.version_range; exact (cs_entry_wf _ _ _ Hi He)).
    do 3 eexists. split; [done|]. split; [done|]. split; [done|]. split; [done|]. intros <- σ (x & Hx & Hle) Hpos.
    rewrite (unexpired_lasting T) in Eu by done. rewrite Hx in Eu. injection Eu as ->.
    assert (Hver : s_version σ <= Entry.version e).
    { destruct Hle as [->|[Hlt|[Heq _]]]; cbn in *; lia. }
    split_and!; [done| |done].
    unfold counts. cbn [status r_version]. rewrite Z.eqb_refl. destruct (Z.eqb_spec (Entry.version e) 0); [lia|done].
  - change (n_ring (with_store s n)) with (n_ring n). destruct (Hg (key rq)) as [owner ->]. cbn [mbind option_bind].
    assert (Hno : key rq = k → ∀ σ, ¬ covers σ k n).
    { intros <- σ (x & Hx & _). rewrite (unexpired_lasting T) in Eu by done. congruence. }
    destruct (negb false && negb (bool_decide (owner = conn_node_id cfg))); do 3 eexists;
      (split; [done|]; split; [done|]; split; [done|]; split; [done|]; intros E σ Hcov; by destruct (Hno E σ)).
Qed.

(** ** A replica serving requests *)

Lemma counts_trace a b r : counts (Ok r) = Some r → counts (Ok (with_trace a b r)) = Some (with_trace a b r).
Proof. unfold counts. cbn [with_trace status r_version]. by destruct (_ && _). Qed.

Definition Call := (Outside * Request * bytes)%type.

Fixpoint serve (l : list Call) n : option (list Handled * Node St) :=
  match l with
  | [] => Some ([], n)
  | (o, rq, tok) :: l =>
      '(h, n) ← handleRequest hint_size xxh3 hash64 crypto HMAC cfg o rq tok n;
      '(hs, n) ← serve l n;
      Some (h :: hs, n)
  end.

Lemma request_step T k o rq tok room n :
  open_node → node_ok T k (cost rq + room) n → 0 <= room → peer_request T k o rq →
  ∃ r n', handleRequest hint_size xxh3 hash64 crypto HMAC cfg o rq tok n = Some (Replied r, n') ∧ node_ok T k room n' ∧
    (∀ σ, covers σ k n → covers σ k n') ∧
    (opcode rq ≠ GetVersioned → status r = Errc_code OK ∧ (key rq = k → covers (hintStamp rq) k n')) ∧
    (opcode rq = GetVersioned → in_u 62 (r_version r) ∧
       (key rq = k → ∀ σ, covers σ k n → 0 < s_version σ → counts (Ok r) = Some r ∧ lww_le σ (voteStamp r))).
Proof.
  intros Hopen Hok Hroom Hpr. unfold handleRequest. cbv zeta. rewrite open_auth by done. cbn [negb].
  destruct (decide (opcode rq = GetVersioned)) as [E|E].
  - rewrite E. cbn [classifyOpcode]. rewrite decide_True by done. unfold checkWriteOwnership. rewrite E. cbn [bool_decide_eq_true].
    rewrite (bool_decide_eq_true_2 (GetVersioned = GetVersioned)), !orb_true_r by done. cbn [mbind option_bind].
    unfold dispatchRequest. rewrite E. rewrite bool_decide_eq_true_2 by done. cbn [negb].
    destruct (vote_step T k o rq room n Hok Hpr E) as (r & sent & n' & -> & Hok' & Hmono & Hver & Hvote). cbn [mbind option_bind].
    do 2 eexists. split; [done|]. split; [done|]. split; [done|]. split; [done|]. intros _. split; [by destruct sent|].
    intros Hk σ Hc Hpos. destruct (Hvote Hk σ Hc Hpos) as (-> & Hcnt & Hle). split; [by apply counts_trace|done].
  - destruct (replicate_step T k o rq room n Hok Hroom Hpr E) as (n' & Eh & Hok' & Hmono & Hcov).
    assert (Hcls : classifyOpcode (opcode rq) = ReplicationClass ∧ (opcode rq = Replicate ∨ opcode rq = Hint)).
    { destruct (pr_opcode _ _ _ _ Hpr) as [Ho|[Ho|Ho]]; [rewrite Ho; eauto..|done]. }
    destruct Hcls as [-> Hop]. rewrite decide_False by done. cbn [mbind option_bind]. unfold dispatchRequest.
    destruct Hop as [Ho|Ho]; rewrite Ho, Eh; cbn [mbind option_bind]; do 2 eexists; (split; [done|]); by split_and!.
Qed.

Definition costs (l : list Call) : Z := foldr (λ x z, cost x.1.2 + z) 0 l.

Lemma cost_pos rq : 0 <= cost rq.
Proof. unfold cost. case_decide; [done|]. pose proof cs_node_pos. unfold zlen. lia. Qed.

Lemma costs_pos l : 0 <= costs l.
Proof. induction l as [|x l IH]; [done|]. cbn [costs foldr]. pose proof (cost_pos x.1.2). fold (costs l). lia. Qed.

(** A node serves all of it and forgets nothing it has acknowledged. *)
Lemma serve_covers T k room l n :
  open_node → node_ok T k (costs l + room) n → 0 <= room → Forall (λ x : Call, peer_request T k x.1.1 x.1.2) l →
  ∃ hs n', serve l n = Some (hs, n') ∧ node_ok T k room n' ∧ (∀ σ, covers σ k n → covers σ k n') ∧
    ∀ o rq tok, (o, rq, tok) ∈ l → opcode rq ≠ GetVersioned → key rq = k → covers (hintStamp rq) k n'.
Proof.
  intros Hopen. revert n. induction l as [|[[o rq] tok] l IH]; intros n Hok Hroom Hl.
  - exists [], n. split_and!; [done|done|done|]. by intros ? ? ? ?%not_elem_of_nil.
  - apply Forall_cons in Hl as [Hpr Hl]. cbn [fst snd] in Hpr. cbn [costs foldr fst snd] in Hok. fold (costs l) in Hok. rewrite <- Z.add_assoc in Hok.
    destruct (request_step T k o rq tok (costs l + room) n Hopen Hok) as (r & n1 & E & Hok1 & Hm1 & Hw1 & _); [pose proof (costs_pos l); lia|done|].
    destruct (IH n1 Hok1 Hroom Hl) as (hs & n2 & E2 & Hok2 & Hm2 & Hw2). cbn [serve]. rewrite E. cbn [mbind option_bind]. rewrite E2. cbn [mbind option_bind].
    exists (Replied r :: hs), n2. split_and!; [done|done|by auto|]. intros o' rq' tok' [[= -> -> ->]|Hin]%elem_of_cons Hne Hk; [|by eapply Hw2].
    apply Hm2. by apply Hw1.
Qed.

End replica.

(** ** Quorums meet *)

Lemma quorums_meet {A} `{EqDecision A} (names q1 q2 : list A) :
  NoDup q1 → NoDup q2 → (∀ x, x ∈ q1 → x ∈ names) → (∀ x, x ∈ q2 → x ∈ names) → (length names < length q1 + length q2)%nat →
  ∃ x, x ∈ q1 ∧ x ∈ q2.
Proof.
  intros H1 H2 S1 S2 Hl. destruct (decide (Exists (.∈ q2) q1)) as [[x Hx]%Exists_exists|Hno]; [eauto|]. exfalso.
  assert (Hnd : NoDup (q1 ++ q2)).
  { apply NoDup_app. split_and!; [done| |done]. intros x Hx1 Hx2. apply Hno, Exists_exists. eauto. }
  assert (Hs : q1 ++ q2 ⊆+ names) by (apply NoDup_submseteq; [done|]; intros x [?|?]%elem_of_app; auto).
  apply submseteq_length in Hs. rewrite length_app in Hs. lia.
Qed.

Section nodes_of.
Context {A : Type} (replicas : list bytes) (P : nat * A → bool).

(** The replicas whose reports satisfy [P]. *)
Definition nodes_of (evs : list (nat * A)) : list bytes := omap (λ ev, if P ev then replicas !! ev.1 else None) evs.

Lemma nodes_of_facts evs :
  NoDup replicas → NoDup evs.*1 → (∀ i, i ∈ evs.*1 → (i < length replicas)%nat) →
  NoDup (nodes_of evs) ∧ length (nodes_of evs) = length (filter P evs) ∧
  ∀ x, x ∈ nodes_of evs → ∃ ev, ev ∈ evs ∧ P ev = true ∧ replicas !! ev.1 = Some x.
Proof.
  intros Hr. induction evs as [|ev evs IH]; intros Hnd Hi; cbn [nodes_of omap list_omap].
  { split_and!; [constructor|done|by intros ? ?%not_elem_of_nil]. }
  rewrite fmap_cons in Hnd, Hi. apply NoDup_cons in Hnd as [Hn Hnd]. destruct IH as (I1 & I2 & I3); [done|intros i Hin; apply Hi; by right|].
  fold (nodes_of evs). rewrite filter_cons. destruct (P ev) eqn:Ep.
  - rewrite decide_True by done. destruct (lookup_lt_is_Some_2 replicas ev.1) as [x Hx]; [apply Hi; by left|].
    cbn [omap list_omap]. rewrite Hx. split_and!.
    + apply NoDup_cons. split; [|done]. intros (ev' & Hin & _ & Hx')%I3. apply Hn.
      rewrite (NoDup_lookup _ _ _ _ Hr Hx Hx'). by apply list_elem_of_fmap_2.
    + cbn [length]. by rewrite I2.
    + intros y [->|Hy]%elem_of_cons; [exists ev; split_and!; [by left|done|done]|].
      destruct (I3 y Hy) as (ev' & ? & ? & ?). exists ev'. split_and!; [by right|done|done].
  - rewrite decide_False by (cbn; tauto). split_and!; [done|done|].
    intros y Hy. destruct (I3 y Hy) as (ev' & ? & ? & ?). exists ev'. split_and!; [by right|done|done].
Qed.

End nodes_of.

Definition is_vote (ev : nat * Answer) : bool := match counts ev.2.2 with Some _ => true | None => false end.

Lemma votes_filter evs : length (votes evs.*2) = length (filter is_vote evs).
Proof.
  induction evs as [|ev evs IH]; [done|]. rewrite fmap_cons, filter_cons. unfold votes in *. cbn [omap list_omap].
  assert (Hv : is_vote ev = match counts ev.2.2 with Some _ => true | None => false end) by done.
  destruct (counts ev.2.2).
  - rewrite decide_True by (by rewrite Hv). cbn [length]. by rewrite IH.
  - rewrite decide_False by (rewrite Hv; cbn; tauto). done.
Qed.

Lemma reduced_facts {A} n seen (acts : list (Action A)) :
  NoDup (reduced_reports n seen acts).*1 ∧ ∀ i, i ∈ (reduced_reports n seen acts).*1 → (i < n)%nat.
Proof.
  unfold reduced_reports. rewrite fmap_take. split.
  - eapply sublist_NoDup; [apply (first_reports_nodup n [] (reports acts))|apply sublist_take].
  - intros i (j & Hj & _)%elem_of_take. apply list_elem_of_lookup_2, first_reports_range in Hj as [? _]. done.
Qed.

Section quorum.
Context {St : Type} `{CacheStoreLaws St}.
Context (hint_size : Z) (xxh3 hash64 : bytes → Z) `{Sorter} (crypto : bool) (HMAC : bytes → bytes → bytes).
Context (cfgs : bytes → ConnectionConfig) (T : Z) (k : bytes).

(** A node from [start], having served [hist], is [after]. *)
Record has_served (x : bytes) (start : Node St) (hist : list Call) (after : Node St) : Prop := mkHasServed {
  hs_open : open_node (cfgs x);
  hs_ok : node_ok hash64 T k (costs (St := St) hist) start;
  hs_calls : Forall (λ y : Call, peer_request T k y.1.1 y.1.2) hist;
  hs_run : ∃ hs, serve hint_size xxh3 hash64 crypto HMAC (cfgs x) hist start = Some (hs, after) }.

Lemma has_served_covers x start hist after :
  has_served x start hist after →
  node_ok hash64 T k 0 after ∧ (∀ σ, covers σ k start → covers σ k after) ∧
  ∀ o rq tok, (o, rq, tok) ∈ hist → opcode rq ≠ GetVersioned → key rq = k → covers (hintStamp rq) k after.
Proof.
  intros [Ho Hok Hc [hs Hs]]. rewrite <- (Z.add_0_r (costs hist)) in Hok.
  destruct (serve_covers hint_size xxh3 hash64 crypto HMAC (cfgs x) T k 0 hist start Ho Hok (Z.le_refl 0) Hc) as (hs' & n' & E & R1 & R2 & R3).
  rewrite Hs in E. by injection E as <- <-.
Qed.

(** The answers of a read are what the nodes answer now. *)
Definition answers_of (world : bytes → Node St) (rs : list bytes) (rq : Request) (acts : list (Action Answer)) : Prop :=
  ∀ j cl resp, (j, (cl, Ok resp)) ∈ reports acts →
    ∃ x o tok n', rs !! j = Some x ∧ peer_request T k o rq ∧ handleRequest hint_size xxh3 hash64 crypto HMAC (cfgs x) o rq tok (world x) = Some (Replied resp, n').

Lemma node_vote x start hist after o tok tr sp resp n' :
  has_served x start hist after → peer_request T k o (readRequest tr sp k) →
  handleRequest hint_size xxh3 hash64 crypto HMAC (cfgs x) o (readRequest tr sp k) tok after = Some (Replied resp, n') →
  in_u 62 (r_version resp) ∧ ∀ σ, covers σ k after → 0 < s_version σ → counts (Ok resp) = Some resp ∧ lww_le σ (voteStamp resp).
Proof.
  intros Hs Hpr E. destruct (has_served_covers _ _ _ _ Hs) as (Hok & _ & _).
  destruct (request_step hint_size xxh3 hash64 crypto HMAC (cfgs x) T k o (readRequest tr sp k) tok 0 after (hs_open _ _ _ _ Hs)) as (r & n1 & E' & _ & _ & _ & Hv);
    [exact Hok|done|done|]. rewrite E in E'. injection E' as -> ->. destruct (Hv eq_refl) as [Hver Hc]. split; [done|]. by apply Hc.
Qed.

(** The nodes that have the write when it is acknowledged. *)
Lemma write_holders w ws req wacts :
  NoDup (w :: ws) → Z.of_nat (length ws) < 2 ^ 62 → ws ≠ [] → (fanOutWrite ws Quorum wacts).1 = [Ok ()] →
  ∃ q : list bytes, NoDup q ∧ (∀ x, x ∈ q → x ∈ w :: ws) ∧ write_quorum ws <= Z.of_nat (length q) ∧
    ∀ x start hist after, x ∈ q → has_served x start hist after → opcode req = Replicate → key req = k →
      (∀ i mo y, (i, (Ok (), mo)) ∈ reports wacts → ws !! i = Some y → y = x → ∃ o tok, (o, req, tok) ∈ hist) →
      (x = w → covers (hintStamp req) k start) → covers (hintStamp req) k after.
Proof.
  intros [Hw Hnd]%NoDup_cons Hn Hne Hd. unfold fanOutWrite in Hd. rewrite decide_False in Hd by done. cbn [fst] in Hd.
  destruct (quorumWrite_spec ws wacts Hne Hn) as [E _]. rewrite E in Hd. set (seen := Fanout.seen (quorumWrite ws wacts)) in *.
  change (take seen (first_reports (length ws) [] (reports wacts))) with (reduced_reports (length ws) seen wacts) in Hd.
  destruct (reduced_facts (length ws) seen wacts) as [Hi Hr].
  destruct (nodes_of_facts ws acked (reduced_reports (length ws) seen wacts) Hnd Hi Hr) as (N1 & N2 & N3).
  exists (w :: nodes_of ws acked (reduced_reports (length ws) seen wacts)). split_and!.
  - apply NoDup_cons. split; [|done]. intros (ev & _ & _ & Hx)%N3. apply Hw. by eapply list_elem_of_lookup_2.
  - intros x [->|Hx]%elem_of_cons; [by left|]. destruct (N3 x Hx) as (ev & _ & _ & Hl). right. by eapply list_elem_of_lookup_2.
  - cbn [length]. rewrite N2. unfold write_verdict in Hd. destruct (Z.leb_spec (write_quorum ws) (1 + acks_of (reduced_reports (length ws) seen wacts))) as [Hle|];
      [unfold acks_of in Hle; lia|]. by destruct (_ <? _) in Hd.
  - intros x start hist after Hx Hs Ho Hk Hack Hst. destruct (has_served_covers _ _ _ _ Hs) as (_ & Hmono & Hcov).
    apply elem_of_cons in Hx as [->|Hx]; [by apply Hmono, Hst|]. destruct (N3 x Hx) as ([i [rep mo]] & Hin%reduced_sub & Ha & Hl). cbn [fst] in Hl.
    unfold acked in Ha. cbn [fst snd] in Ha. destruct rep as [[]|]; [|done]. destruct (Hack i mo x Hin Hl eq_refl) as (o & tok & Hc).
    eapply Hcov; [exact Hc|by rewrite Ho|done].
Qed.

(** The copies a read has counted. *)
Lemma read_voters r rs (local : option Entry.VersionedEntry) seen racts (p q : list (nat * Answer)) :
  NoDup (r :: rs) → reduced_reports (length rs) seen racts = p ++ q →
  ∃ v : list bytes, NoDup v ∧ (∀ x, x ∈ v → x ∈ r :: rs) ∧ Z.of_nat (length v) = (if local then 1 else 0) + Z.of_nat (length (votes p.*2)) ∧
    ∀ x, x ∈ v → x = r ∧ is_Some local ∨ ∃ ev resp, ev ∈ p ∧ counts ev.2.2 = Some resp ∧ rs !! ev.1 = Some x.
Proof.
  intros [Hr Hnd]%NoDup_cons E. destruct (reduced_facts (length rs) seen racts) as [Hi Hb]. rewrite E, fmap_app in Hi, Hb.
  apply NoDup_app in Hi as [Hi _]. destruct (nodes_of_facts rs is_vote p Hnd Hi) as (N1 & N2 & N3); [intros i Hin; apply Hb, elem_of_app; by left|].
  assert (Hv : ∀ x, x ∈ nodes_of rs is_vote p → ∃ ev resp, ev ∈ p ∧ counts ev.2.2 = Some resp ∧ rs !! ev.1 = Some x).
  { intros x (ev & Hin & Hvote & Hl)%N3. unfold is_vote in Hvote. destruct (counts ev.2.2) as [resp|] eqn:Ec; [|done]. by exists ev, resp. }
  assert (Hsub : ∀ x, x ∈ nodes_of rs is_vote p → x ∈ rs).
  { intros x (ev & resp & _ & _ & Hl)%Hv. by eapply list_elem_of_lookup_2. }
  destruct local as [e|].
  - exists (r :: nodes_of rs is_vote p). split_and!.
    + apply NoDup_cons. split; [|done]. intros Hx%Hsub. done.
    + intros x [->|Hx]%elem_of_cons; [by left|right; by apply Hsub].
    + cbn [length]. rewrite N2, votes_filter. lia.
    + intros x [->|Hx]%elem_of_cons; [by left|right; by apply Hv].
  - exists (nodes_of rs is_vote p). split_and!; [done|intros x Hx; right; by apply Hsub|by rewrite N2, votes_filter|intros x Hx; right; by apply Hv].
Qed.

Lemma counts_id res resp : counts res = Some resp → res = Ok resp.
Proof. unfold counts. destruct res; [|done]. destruct (_ && _); by intros [= ->]. Qed.

Lemma answers_ok world rs tr sp racts :
  (∀ x, x ∈ rs → ∃ start hist, has_served x start hist (world x)) → answers_of world rs (readRequest tr sp k) racts →
  Forall answer_ok (reports racts).*2.
Proof.
  intros Hs Hans. apply Forall_fmap, Forall_forall. intros [j [cl res]] Hin v Hv. cbn [snd] in Hv. apply counts_id in Hv as ->.
  destruct (Hans j cl v Hin) as (x & o & tok & n' & Hx & Hpr & E). destruct (Hs x) as (start & hist & Hsx); [by eapply list_elem_of_lookup_2|].
  edestruct node_vote as [Hv _]; [exact Hsx|exact Hpr|exact E|]. exact Hv.
Qed.

(** A node that has the write, with its copy or its vote counted, makes the
    winner at least as new. *)
Lemma winner_covers σ (local : option Entry.VersionedEntry) R r rs x p d world tr sp racts :
  0 < s_version σ → covers σ k (world x) → (∃ start hist, has_served x start hist (world x)) →
  answers_of world rs (readRequest tr sp k) racts → (∀ ev, ev ∈ p → ev ∈ reports racts) →
  summary R (Z.of_nat (length rs)) local p.*2 d →
  (x = r ∧ local = cs_lookup (local_ (n_repl (world x))) k ∨ ∃ ev resp, ev ∈ p ∧ counts ev.2.2 = Some resp ∧ rs !! ev.1 = Some x) →
  ∀ e, best_entry d = Some e → lww_le σ (stampOf e).
Proof.
  intros Hpos Hcov (start & hist & Hs) Hans Hsub Sm Hx e Eb. destruct (sm_best _ _ _ _ _ Sm e Eb) as (_ & _ & Hl & Hvs).
  destruct Hx as [[_ El]|([j [cl res]] & resp & Hin & Hc & Hx)].
  - destruct Hcov as (z & Hz & Hle). eapply lww_le_trans; [exact Hle|]. apply Hl. by rewrite El.
  - cbn [fst snd] in *. pose proof (counts_id _ _ Hc) as ->. destruct (Hans j cl resp (Hsub _ Hin)) as (x' & o & tok & n' & Hx' & Hpr & Eh).
    rewrite Hx in Hx'. injection Hx' as <-. edestruct node_vote as [_ Hvote]; [exact Hs|exact Hpr|exact Eh|].
    destruct (Hvote _ Hcov Hpos) as [_ Hle]. eapply lww_le_trans; [exact Hle|]. apply Hvs. apply list_elem_of_omap. exists (cl, Ok resp).
    split; [|done]. apply list_elem_of_fmap. by exists (j, (cl, Ok resp)).
Qed.

End quorum.

(** A write acknowledged by a quorum: its coordinator [w] had committed it, and
    each replica that reported success has served the request; since then every
    node has served other requests too. *)
Record acknowledged {St : Type} `{CacheStoreLaws St} (hint_size : Z) (xxh3 hash64 : bytes → Z) `{Sorter} (crypto : bool)
    (HMAC : bytes → bytes → bytes) (cfgs : bytes → ConnectionConfig) (T : Z) (names : list bytes) (w : bytes) (ws : list bytes)
    (rq : Request) (acts : list (Action (Result () * Moment))) (start : bytes → Node St) (hist : bytes → list Call)
    (world : bytes → Node St) : Prop := mkAcknowledged {
  ak_names : w :: ws ≡ₚ names ∧ NoDup names ∧ ws ≠ [] ∧ Z.of_nat (length names) < 2 ^ 62;
  ak_request : opcode rq = Replicate ∧ 0 < version rq;
  ak_local : covers (hintStamp rq) (key rq) (start w);
  ak_done : (fanOutWrite ws Quorum acts).1 = [Ok ()];
  ak_sent : ∀ i mo y, (i, (Ok (), mo)) ∈ reports acts → ws !! i = Some y → ∃ o tok, (o, rq, tok) ∈ hist y;
  ak_served : ∀ x, x ∈ names → has_served hint_size xxh3 hash64 crypto HMAC cfgs T (key rq) x (start x) (hist x) (world x) }.


(** ** Three nodes *)

Local Instance demo_cache : CacheStore (Store.Store () ()) := eviction_cache StoreSpec.demo_hash.
Local Instance demo_laws : CacheStoreLaws (Store.Store () ()) := eviction_laws StoreSpec.demo_hash.

Definition three : list bytes := [lit "n1"; lit "n2"; lit "n3"].

Definition cfg_of (x : bytes) : ConnectionConfig := mkConnConfig (mkOperations x 3 true Quorum) [] [] None None.

(** The coordinator [n1] has committed version 9. *)
Definition first_store : Store.Store () () :=
  StoreSpec.after StoreSpec.demo_hash StoreFacts.demo_clock 5000
    [StoreSpec.OPutVersioned StoreFacts.demo_clock (lit "k") (StoreFacts.demo_entry "new" 9)].

Definition node_with (s : Store.Store () ()) : Node (Store.Store () ()) :=
  mkNode (mkRepl s emptyQueue [] None ∅ false emptyRegistry []) ring2 None None [].

Definition start_of (x : bytes) : Node (Store.Store () ()) :=
  if decide (x = lit "n1") then node_with first_store else node_with node_store.

Definition write_rq : Request := mkRequest Replicate 7 9 (lit "k") (lit "new") 9 0 None None false.

Definition calm : Outside := mkOutside StoreFacts.demo_clock StoreFacts.demo_clock 0 (0, 0) 0 [] [].

Definition hist_of (x : bytes) : list Call := if decide (x = lit "n2") then [(calm, write_rq, [])] else [].

Definition serve_demo (x : bytes) : list Call → Node (Store.Store () ()) → option (list Handled * Node (Store.Store () ())) :=
  serve 64 demo_sum toy_hash false (λ _ _, []) (cfg_of x).

Definition world_of (x : bytes) : Node (Store.Store () ()) :=
  match serve_demo x (hist_of x) (start_of x) with Some (_, n) => n | None => start_of x end.

Definition demo_T : Z := now StoreFacts.demo_clock.

Lemma first_store_inv : cs_inv first_store.
Proof. apply StoreSpec.after_inv; [by vm_compute|repeat constructor; apply StoreFacts.demo_entry_wf|by vm_compute|by vm_compute]. Qed.

Lemma first_store_room n : n <= 4000 → cs_room n first_store.
Proof.
  intros Hn. apply (cs_room_le 4000); [|done]. eapply roomy; [vm_compute; reflexivity|]. apply Z.leb_le. vm_compute. reflexivity.
Qed.

Lemma node_with_ok s e room :
  cs_inv s → cs_room room s → cs_lookup s (lit "k") = Some e → Entry.hasTtl e = false → node_ok toy_hash demo_T (lit "k") room (node_with s).
Proof.
  intros Hi Hr Hl He. split; [done|done| |].
  - intros x. cbn [node_with n_repl local_]. rewrite Hl. intros [= <-]. unfold Store.expired. by rewrite He.
  - intros k. cbn [node_with n_ring]. destruct (getNode_first toy_hash k ring2) as (h & n & -> & _); [eapply ring_reachable_wf, ring2_reachable|by rewrite ring2_nodes|by eexists].
Qed.

Lemma peer_calm rq : opcode rq = Replicate ∨ opcode rq = GetVersioned → version rq = 9 ∨ version rq = 0 → expires_at rq = None → tombstone rq = false →
  peer_request demo_T (lit "k") calm rq.
Proof.
  intros Ho Hv He Ht. split; [tauto|done|unfold in_u; lia|]. intros _ _. split; [by rewrite Ht|].
  unfold replicaEntry, Store.expired. cbv zeta. rewrite He, Ht.
  assert (Entry.hasTtl (Entry.with_writer (writer_node_hash rq) (Entry.setVersion (version rq) (Entry.with_value (value rq) Entry.emptyEntry))) = false) as ->; [|done].
  change (Entry.hasTtl (Entry.setVersion (version rq) (Entry.with_value (value rq) Entry.emptyEntry)) = false). by rewrite EntryFacts.setVersion_hasTtl.
Qed.

Lemma start_of_ok x : node_ok toy_hash demo_T (lit "k") 2000 (start_of x).
Proof.
  unfold start_of. case_decide.
  - eapply node_with_ok; [apply first_store_inv|apply first_store_room; lia|vm_compute; reflexivity|reflexivity].
  - eapply node_with_ok; [apply node_store_inv|apply node_store_room; lia|vm_compute; reflexivity|reflexivity].
Qed.

Lemma hist_ok x : costs (St := Store.Store () ()) (hist_of x) <= 2000 ∧ Forall (λ y : Call, peer_request demo_T (lit "k") y.1.1 y.1.2) (hist_of x).
Proof.
  unfold hist_of. case_decide; (split; [by vm_compute|]); [|by apply Forall_nil]. apply Forall_cons. split; [|by apply Forall_nil].
  apply peer_calm; [by left|by left|done|done].
Qed.

Lemma three_served x : has_served 64 demo_sum toy_hash false (λ _ _, []) cfg_of demo_T (lit "k") x (start_of x) (hist_of x) (world_of x).
Proof.
  destruct (hist_ok x) as [Hc Hh]. pose proof (start_of_ok x) as [Hi Hr Hl Hg].
  assert (Hok : node_ok toy_hash demo_T (lit "k") (costs (hist_of x) + 0) (start_of x)).
  { split; [done| |done|done]. eapply cs_room_le; [exact Hr|lia]. }
  split; [done|by rewrite <- (Z.add_0_r (costs _))|done|].
  destruct (serve_covers 64 demo_sum toy_hash false (λ _ _, []) (cfg_of x) demo_T (lit "k") 0 (hist_of x) (start_of x) (conj eq_refl eq_refl) Hok (Z.le_refl 0) Hh)
    as (hs & n & E & _). exists hs. unfold world_of, serve_demo. by rewrite E.
Qed.

Definition third_manager : ReplicationManager (Store.Store () ()) := n_repl (world_of (lit "n3")).

Definition new_vote : Response := mkResponse (Errc_code OK) (Some (lit "new")) 9 0 None false 7 9.

Definition read_acts : list (Action Answer) :=
  [Report 1 (StoreFacts.demo_clock, Ok new_vote); Report 0 (StoreFacts.demo_clock, Ok new_vote); Receive; Receive].

(** [n2] acknowledges, [n3] does not answer in time. *)
Definition write_acts : list (Action (Result () * Moment)) := [Report 0 (Ok (), moment); Receive; Report 1 (Err err_quorum, moment)].

Lemma voted x : x = lit "n1" ∨ x = lit "n2" →
  ∃ n', handleRequest 64 demo_sum toy_hash false (λ _ _, []) (cfg_of x) calm (readRequest 7 9 (lit "k")) [] (world_of x) = Some (Replied new_vote, n').
Proof.
  intros Hx.
  assert (E : fst <$> handleRequest 64 demo_sum toy_hash false (λ _ _, []) (cfg_of x) calm (readRequest 7 9 (lit "k")) [] (world_of x) = Some (Replied new_vote)).
  { destruct Hx as [->| ->]; vm_compute; reflexivity. }
  destruct (handleRequest _ _ _ _ _ _ _ _ _ _) as [[h n']|]; [|done]. injection E as ->. by exists n'.
Qed.

Lemma three_acknowledged :
  acknowledged 64 demo_sum toy_hash false (λ _ _, []) cfg_of demo_T three (lit "n1") [lit "n2"; lit "n3"] write_rq write_acts start_of hist_of world_of.
Proof.
  split; [|done| |vm_compute; reflexivity| |intros x _; apply three_served].
  - split; [done|]. split; [|done]. apply (bool_decide_unpack _). vm_compute. exact I.
  - exists (StoreFacts.demo_entry "new" 9). split; [vm_compute; reflexivity|]. left. vm_compute. reflexivity.
  - intros i mo y Hin Hy. apply elem_of_cons in Hin as [[= -> _]|Hin]; [|apply elem_of_cons in Hin as [Hin|Hin]; [discriminate Hin|by apply not_elem_of_nil in Hin]].
    injection Hy as <-. exists calm, []. left.
Qed.

