(* ===== verification/Connection.v ===== *)
(** * The connection state machine (src/net/tcp/connection.cpp, include/cinder/net/tcp_connection.hpp)

    Reading, the write queue, draining and closing of one TCP connection.  All of
    it runs on the connection's strand, so a history is a sequence of handlers:
    completions of reads and writes, completions of operations, and calls of
    [drain] and [close].  The asynchronous operations a connection has started
    and not yet seen complete are counted; [handed] lists the frames given to the
    queue and [written] those whose write completed.  Timers, TLS, metrics and
    log lines are left out; whether metrics are attached matters to
    [sendResponse] and is a field. *)

From S2P Require Import Prelude Types Bytes Protocol.
Local Open Scope Z_scope.

Definition K_BUFFER_SIZE : Z := 1048576.
Definition K_MAX_WRITE_QUEUE : Z := 64.
Definition K_MAX_WRITE_QUEUE_BYTES : Z := 4 * 1024 * 1024.

Record TcpConnection := mkConnection {
  is_open : bool;
  flags : Z;                       (* bit 0 writing, bit 1 reading, bit 2 draining *)
  payload_len : Z;
  pending_opcode : option Opcode;
  write_queue : list bytes;
  write_queue_bytes : Z;           (* size_t *)
  encode_buf : bytes;
  metrics : bool;
  header_reads : nat;
  payload_reads : nat;
  writes : nat;
  deferred : nat;                  (* operations that have not completed *)
  handed : list bytes;
  written : list bytes }.

#[global] Instance TcpConnection_eq_dec : EqDecision TcpConnection.
Proof. solve_decision. Defined.

Definition newConnection (with_metrics : bool) : TcpConnection :=
  mkConnection true 0 0 None [] 0 (replicate 512 x00) with_metrics 0 0 0 0 [] [].

Implicit Types c : TcpConnection.

Definition with_open (b : bool) c := mkConnection b (flags c) (payload_len c) (pending_opcode c) (write_queue c) (write_queue_bytes c)
  (encode_buf c) (metrics c) (header_reads c) (payload_reads c) (writes c) (deferred c) (handed c) (written c).
Definition with_flags (f : Z) c := mkConnection (is_open c) f (payload_len c) (pending_opcode c) (write_queue c) (write_queue_bytes c)
  (encode_buf c) (metrics c) (header_reads c) (payload_reads c) (writes c) (deferred c) (handed c) (written c).
Definition with_pending (o : option Opcode) c := mkConnection (is_open c) (flags c) (payload_len c) o (write_queue c) (write_queue_bytes c)
  (encode_buf c) (metrics c) (header_reads c) (payload_reads c) (writes c) (deferred c) (handed c) (written c).
Definition with_payload_len (n : Z) c := mkConnection (is_open c) (flags c) n (pending_opcode c) (write_queue c) (write_queue_bytes c)
  (encode_buf c) (metrics c) (header_reads c) (payload_reads c) (writes c) (deferred c) (handed c) (written c).
Definition with_queue (q : list bytes) (n : Z) (buf : bytes) c := mkConnection (is_open c) (flags c) (payload_len c) (pending_opcode c) q n
  buf (metrics c) (header_reads c) (payload_reads c) (writes c) (deferred c) (handed c) (written c).
Definition with_reads (h p : nat) c := mkConnection (is_open c) (flags c) (payload_len c) (pending_opcode c) (write_queue c) (write_queue_bytes c)
  (encode_buf c) (metrics c) h p (writes c) (deferred c) (handed c) (written c).
Definition with_writes (w : nat) c := mkConnection (is_open c) (flags c) (payload_len c) (pending_opcode c) (write_queue c) (write_queue_bytes c)
  (encode_buf c) (metrics c) (header_reads c) (payload_reads c) w (deferred c) (handed c) (written c).
Definition with_trace_of (h w : list bytes) c := mkConnection (is_open c) (flags c) (payload_len c) (pending_opcode c) (write_queue c) (write_queue_bytes c)
  (encode_buf c) (metrics c) (header_reads c) (payload_reads c) (writes c) (deferred c) h w.
Definition with_deferred (n : nat) c := mkConnection (is_open c) (flags c) (payload_len c) (pending_opcode c) (write_queue c) (write_queue_bytes c)
  (encode_buf c) (metrics c) (header_reads c) (payload_reads c) (writes c) n (handed c) (written c).

Definition isWriting c : bool := negb (Z.land (flags c) 1 =? 0).
Definition isReading c : bool := negb (Z.land (flags c) 2 =? 0).
Definition isDraining c : bool := negb (Z.land (flags c) 4 =? 0).

(** [flags & ~bit | (v ? bit : 0)], to eight bits *)
Definition set_bit (bit : Z) (v : bool) (f : Z) : Z := u8 (Z.lor (Z.land f (2 ^ 32 - 1 - bit)) (if v then bit else 0)).

Definition setWriting (v : bool) c : TcpConnection := with_flags (set_bit 1 v (flags c)) c.
Definition setReading (v : bool) c : TcpConnection := with_flags (set_bit 2 v (flags c)) c.
Definition setDraining (v : bool) c : TcpConnection := with_flags (set_bit 4 v (flags c)) c.

Definition closeConnection c : TcpConnection := with_open false c.

Definition doReadHeader c : TcpConnection := with_reads (header_reads c + 1) (payload_reads c) c.

Definition doReadPayload c : TcpConnection := with_reads (header_reads c) (payload_reads c + 1) c.

Definition maybeRead c : TcpConnection :=
  if isDraining c || (negb (isReading c) && (Z.of_nat (length (write_queue c)) <? K_MAX_WRITE_QUEUE) && (write_queue_bytes c <? K_MAX_WRITE_QUEUE_BYTES))
  then doReadHeader (setReading true c)
  else c.

(** A header arrived, or the read failed. *)
Definition onHeader (header : option bytes) c : TcpConnection :=
  match header with
  | None => closeConnection c
  | Some h =>
      if negb (byte_at h 0 =? K_MAGIC) || negb (byte_at h 1 =? K_VERSION) then closeConnection c
      else
        let len := readBe32 (drop 3 h) in
        let c := with_payload_len len c in
        if (K_MAX_MESSAGE_SIZE <? len) || (K_BUFFER_SIZE <? len + K_FRAME_HEADER_SIZE) then closeConnection c
        else doReadPayload c
  end.

Definition doWrite c : TcpConnection :=
  match write_queue c with
  | [] => setWriting false c
  | _ :: _ => let c := setWriting true c in with_writes (writes c + 1) c
  end.

(** [None] is a write past the end of the buffer. *)
Definition sendResponse (res : Response) c : option TcpConnection :=
  let c := if bool_decide (is_Some (pending_opcode c)) && metrics c then with_pending None c else c in
  result ← encodeResponseInto res (encode_buf c);
  Some (match result with
  | Err _ => closeConnection c
  | Ok frame =>
      let c := with_trace_of (handed c ++ [frame]) (written c) (with_queue (write_queue c ++ [frame]) (u64 (write_queue_bytes c + zlen frame)) [] c) in
      if K_MAX_WRITE_QUEUE_BYTES <? write_queue_bytes c then closeConnection c
      else
        let c := if negb (isWriting c) then doWrite c else c in
        if isDraining c && bool_decide (pending_opcode c = None) && bool_decide (write_queue c = []) && negb (isWriting c) then closeConnection c
        else c
  end).

(** What a frame led to: a reply to a frame that does not decode, a request
    answered at once, or one that completes later. *)
Inductive Payload := BadFrame (res : Response) | Answered (op : Opcode) (res : Response) | Deferred (op : Opcode).

Definition onPayload (p : option Payload) c : option TcpConnection :=
  let c := setReading false c in
  match p with
  | None => Some (closeConnection c)
  | Some (BadFrame res) => sendResponse res c
  | Some (Answered op res) => c ← sendResponse res (with_pending (Some op) c); Some (maybeRead c)
  | Some (Deferred op) => Some (with_deferred (deferred c + 1) (with_pending (Some op) c))
  end.

(** The completion handler of a deferred operation, posted to the strand. *)
Definition onComplete (res : Response) c : option TcpConnection := c ← sendResponse res c; Some (maybeRead c).

(** The completion of a write, with or without an error. *)
Definition onWriteDone (ok : bool) c : TcpConnection :=
  if negb ok then closeConnection (setWriting false (with_queue [] 0 (encode_buf c) c))
  else
    match write_queue c with
    | [] => c
    | front :: rest =>
        let c := with_trace_of (handed c) (written c ++ [front]) (with_queue rest (u64 (write_queue_bytes c - zlen front)) front c) in
        match rest with
        | _ :: _ => doWrite c
        | [] =>
            let c := setWriting false c in
            if isDraining c then closeConnection c else maybeRead c
        end
    end.

Definition drain c : TcpConnection :=
  let c := setDraining true c in
  if bool_decide (pending_opcode c = None) && bool_decide (write_queue c = []) && negb (isWriting c) then closeConnection c else c.

Inductive ConnEvent :=
  | Started
  | HeaderDone (header : option bytes)
  | PayloadDone (p : option Payload)
  | OperationDone (res : Response)
  | WriteDone (ok : bool)
  | DrainCalled
  | CloseCalled.

(** A completion handler runs only if its operation was started. *)
Definition conn_step (e : ConnEvent) c : option TcpConnection :=
  match e with
  | Started => Some (maybeRead c)
  | HeaderDone h =>
      match header_reads c with O => None | S n => Some (onHeader h (with_reads n (payload_reads c) c)) end
  | PayloadDone p =>
      match payload_reads c with O => None | S n => onPayload p (with_reads (header_reads c) n c) end
  | OperationDone res => match deferred c with O => None | S n => onComplete res (with_deferred n c) end
  | WriteDone ok => match writes c with O => None | S n => Some (onWriteDone ok (with_writes n c)) end
  | DrainCalled => Some (drain c)
  | CloseCalled => Some (closeConnection c)
  end.

Fixpoint conn_run (es : list ConnEvent) c : option TcpConnection :=
  match es with
  | [] => Some c
  | e :: es => c ← conn_step e c; conn_run es c
  end.

(** ** The flags *)

Lemma set_bit_spec k v f j :
  (k = 0 ∨ k = 1 ∨ k = 2) → (j = 0 ∨ j = 1 ∨ j = 2) → Z.testbit (set_bit (2 ^ k) v f) j = if decide (j = k) then v else Z.testbit f j.
Proof.
  intros Hk Hj. unfold set_bit. rewrite testbit_wrap, Z.lor_spec, Z.land_spec by lia.
  destruct Hk as [->|[->| ->]], Hj as [->|[->| ->]]; case_decide as E; try done; try (by destruct E);
    destruct v; cbn; by rewrite ?andb_true_r, ?andb_false_r, ?orb_false_r, ?orb_true_r.
Qed.

(** The three flags of a connection. *)
Definition bits c : bool * bool * bool := (isWriting c, isReading c, isDraining c).

Lemma bits_flags c : bits c = (Z.testbit (flags c) 0, Z.testbit (flags c) 1, Z.testbit (flags c) 2).
Proof.
  unfold bits, isWriting, isReading, isDraining. change 1 with (2 ^ 0) at 1. change 2 with (2 ^ 1) at 2. change 4 with (2 ^ 2).
  by rewrite !land_pow2_testbit by lia.
Qed.

Lemma setWriting_bits v c : bits (setWriting v c) = (v, isReading c, isDraining c).
Proof.
  pose proof (bits_flags c) as [= _ -> ->]. rewrite bits_flags. unfold setWriting. cbn [with_flags flags]. change 1 with (2 ^ 0) at 1 2 3.
  rewrite !(set_bit_spec 0) by auto. done.
Qed.

Lemma setReading_bits v c : bits (setReading v c) = (isWriting c, v, isDraining c).
Proof.
  pose proof (bits_flags c) as [= -> _ ->]. rewrite bits_flags. unfold setReading. cbn [with_flags flags]. change (set_bit 2) with (set_bit (2 ^ 1)).
  rewrite !(set_bit_spec 1) by auto. done.
Qed.

Lemma setDraining_bits v c : bits (setDraining v c) = (isWriting c, isReading c, v).
Proof.
  pose proof (bits_flags c) as [= -> -> _]. rewrite bits_flags. unfold setDraining. cbn [with_flags flags]. change (set_bit 4) with (set_bit (2 ^ 2)).
  rewrite !(set_bit_spec 2) by auto. done.
Qed.

(** ** One reader, one writer, in order *)

Definition queue_bytes (q : list bytes) : Z := foldr (λ f z, zlen f + z) 0 q.

Lemma queue_bytes_app q q' : queue_bytes (q ++ q') = queue_bytes q + queue_bytes q'.
Proof. induction q as [|f q IH]; [done|]. cbn. fold (queue_bytes (q ++ q')). fold (queue_bytes q). lia. Qed.

Lemma queue_bytes_pos q : 0 <= queue_bytes q.
Proof. induction q as [|f q IH]; [done|]. cbn. fold (queue_bytes q). unfold zlen. lia. Qed.

(** A connection that is open and has not been told to drain. *)
Record conn_inv c : Prop := mkConnInv {
  ci_draining : isDraining c = false;
  ci_bytes : write_queue_bytes c = queue_bytes (write_queue c);
  ci_limit : write_queue_bytes c <= K_MAX_WRITE_QUEUE_BYTES;
  ci_writing : isWriting c = negb (bool_decide (write_queue c = []));
  ci_writes : writes c = if isWriting c then 1%nat else 0%nat;
  ci_reads : (header_reads c + payload_reads c)%nat = if isReading c then 1%nat else 0%nat;
  ci_order : handed c = written c ++ write_queue c }.

Lemma maybeRead_inv c : conn_inv c → conn_inv (maybeRead c).
Proof.
  intros [H1 H2 H3 H4 H5 H6 H7]. unfold maybeRead. rewrite H1. cbn [orb]. destruct (isReading c) eqn:Er; cbn [negb andb].
  - by split; rewrite ?Er.
  - destruct (_ && _); [|by split; rewrite ?Er]. pose proof (setReading_bits true c) as [= B1 B2 B3].
    split; cbn [doReadHeader with_reads setReading with_flags write_queue write_queue_bytes writes header_reads payload_reads handed written];
      [exact (eq_trans B3 H1)|done|done|exact (eq_trans B1 H4)| | |done].
    + rewrite H5. change (isWriting (doReadHeader (setReading true c))) with (isWriting (setReading true c)). by rewrite B1.
    + change (isReading (doReadHeader (setReading true c))) with (isReading (setReading true c)). rewrite B2. lia.
Qed.

Lemma frame_of_length op payload : zlen payload <= K_MAX_PAYLOAD_SIZE → 0 <= zlen (frame_of op payload) <= K_MAX_MESSAGE_SIZE.
Proof.
  unfold frame_of, K_MAX_PAYLOAD_SIZE. intros Hp. unfold zlen in *. rewrite !length_app, be_length. cbn [length]. change K_FRAME_HEADER_SIZE with 7 in Hp. lia.
Qed.

Lemma sendResponse_inv res c c' : conn_inv c → sendResponse res c = Some c' → is_open c' = true → conn_inv c' ∧ is_open c = true.
Proof.
  intros I. unfold sendResponse. set (c1 := if bool_decide (is_Some (pending_opcode c)) && metrics c then with_pending None c else c).
  assert (I1 : conn_inv c1 ∧ is_open c1 = is_open c) by (unfold c1; destruct (_ && _); [|done]; destruct I; by split).
  clearbody c1. destruct I1 as [I1 <-]. clear I c. rename c1 into c. rewrite encodeResponseInto_eq.
  destruct (Z.ltb_spec K_MAX_PAYLOAD_SIZE (zlen (response_payload res))) as [|Hl]; cbn [mbind option_bind]; [by intros [= <-]|].
  pose proof (frame_of_length 0 _ Hl) as Hf. set (frame := frame_of 0 (response_payload res)) in *. clearbody frame.
  destruct I1 as [H1 H2 H3 H4 H5 H6 H7]. cbv zeta. set (c2 := with_trace_of _ _ _).
  assert (Hb : write_queue_bytes c2 = queue_bytes (write_queue c ++ [frame])).
  { unfold c2. cbn [with_trace_of with_queue write_queue_bytes]. rewrite wrap_small, queue_bytes_app, H2; [cbn; lia|].
    pose proof (queue_bytes_pos (write_queue c)). unfold in_u, K_MAX_WRITE_QUEUE_BYTES, K_MAX_MESSAGE_SIZE in *. lia. }
  assert (Hq : write_queue c2 = write_queue c ++ [frame]) by done.
  destruct (Z.ltb_spec K_MAX_WRITE_QUEUE_BYTES (write_queue_bytes c2)) as [|Hlim]; [by intros [= <-]|].
  assert (I3 : conn_inv (if negb (isWriting c2) then doWrite c2 else c2) ∧ is_open (if negb (isWriting c2) then doWrite c2 else c2) = is_open c).
  { change (isWriting c2) with (isWriting c). destruct (isWriting c) eqn:Ew; cbn [negb].
    - split; [|done]. split; [exact H1|by rewrite Hb, Hq|done| |change (isWriting c2) with (isWriting c); by rewrite Ew|exact H6|].
      + change (isWriting c2) with (isWriting c). rewrite Ew, bool_decide_eq_false_2; [done|]. rewrite Hq. by destruct (write_queue c).
      + rewrite Hq. unfold c2. cbn [with_trace_of handed written]. by rewrite H7, app_assoc.
    - unfold doWrite. rewrite Hq. destruct (write_queue c ++ [frame]) as [|x q] eqn:Eq; [by destruct (write_queue c)|].
      pose proof (setWriting_bits true c2) as [= B1 B2 B3]. split; [|done].
      split; cbn [with_writes setWriting with_flags write_queue write_queue_bytes writes header_reads payload_reads handed written];
        [exact (eq_trans B3 H1)|by rewrite Hb, Hq|done| | | |].
      + change (isWriting (setWriting true c2) = negb (bool_decide (write_queue c2 = []))). rewrite B1, bool_decide_eq_false_2; [done|]. by rewrite Hq.
      + change ((writes c + 1)%nat = if isWriting (setWriting true c2) then 1%nat else 0%nat). rewrite B1, H5. done.
      + change ((header_reads c + payload_reads c)%nat = if isReading (setWriting true c2) then 1%nat else 0%nat). by rewrite B2.
      + change (handed c ++ [frame] = written c ++ write_queue c2). by rewrite Hq, <- Eq, H7, app_assoc. }
  destruct I3 as [I3 Ho]. set (c3 := if negb (isWriting c2) then doWrite c2 else c2) in *. clearbody c3. rewrite (ci_draining c3 I3). cbn [andb].
  intros [= <-] Hopen. by rewrite <- Ho.
Qed.

(** A connection is not opened again. *)
Lemma sendResponse_open res c c' : sendResponse res c = Some c' → is_open c' = true → is_open c = true.
Proof.
  unfold sendResponse. set (c1 := if _ && metrics c then with_pending None c else c).
  assert (is_open c1 = is_open c) as <- by (unfold c1; by destruct (_ && _)). clearbody c1. rewrite encodeResponseInto_eq.
  destruct (_ <? _); cbn [mbind option_bind]; [by intros [= <-]|]. cbv zeta. set (c2 := with_trace_of _ _ _).
  assert (is_open c2 = is_open c1) as <- by done. clearbody c2. destruct (_ <? _); [by intros [= <-]|].
  set (c3 := if negb (isWriting c2) then doWrite c2 else c2). assert (is_open c3 = is_open c2) as <-.
  { unfold c3, doWrite. destruct (negb _); [|done]. by destruct (write_queue c2). }
  clearbody c3. destruct (_ && _); by intros [= <-].
Qed.

Lemma maybeRead_open c : is_open (maybeRead c) = is_open c.
Proof. unfold maybeRead. by destruct (_ || _). Qed.

Lemma step_open e c c' : conn_step e c = Some c' → is_open c' = true → is_open c = true.
Proof.
  destruct e as [|h|p|res|ok| |]; cbn [conn_step].
  - intros [= <-]. by rewrite maybeRead_open.
  - destruct (header_reads c); [done|]. intros [= <-]. unfold onHeader. destruct h; [|done]. destruct (_ || _); [done|]. cbv zeta. by destruct (_ || _).
  - destruct (payload_reads c); [done|]. unfold onPayload. cbv zeta. destruct p as [[res|op res|op]|].
    + intros E Ho. by apply sendResponse_open in E.
    + destruct (sendResponse _ _) eqn:E; [|done]. intros [= <-]. rewrite maybeRead_open. intros Ho. by apply sendResponse_open in E.
    + by intros [= <-].
    + by intros [= <-].
  - destruct (deferred c); [done|]. unfold onComplete. destruct (sendResponse _ _) eqn:E; [|done]. intros [= <-]. rewrite maybeRead_open.
    intros Ho. by apply sendResponse_open in E.
  - destruct (writes c); [done|]. intros [= <-]. unfold onWriteDone. destruct ok; cbn [negb]; [|done].
    cbn [with_writes write_queue]. destruct (write_queue c) as [|f [|f' rest]]; [done| |done]. cbv zeta. destruct (isDraining _); [done|]. by rewrite maybeRead_open.
  - intros [= <-]. unfold drain. cbv zeta. by destruct (_ && _).
  - by intros [= <-].
Qed.

Lemma header_inv n h c : header_reads c = S n → conn_inv c → is_open (onHeader h (with_reads n (payload_reads c) c)) = true →
  conn_inv (onHeader h (with_reads n (payload_reads c) c)).
Proof.
  intros En [H1 H2 H3 H4 H5 H6 H7]. unfold onHeader. destruct h; [|done]. destruct (_ || _); [done|]. cbv zeta. destruct (_ || _); [done|]. intros _.
  split; [exact H1|exact H2|exact H3|exact H4|exact H5| |exact H7].
  change ((n + (payload_reads c + 1))%nat = if isReading c then 1%nat else 0%nat). lia.
Qed.

Lemma payload_read_inv n c : payload_reads c = S n → conn_inv c → conn_inv (setReading false (with_reads (header_reads c) n c)).
Proof.
  intros En [H1 H2 H3 H4 H5 H6 H7]. set (c1 := with_reads (header_reads c) n c). pose proof (setReading_bits false c1) as [= B1 B2 B3].
  split; [exact (eq_trans B3 H1)|exact H2|exact H3|exact (eq_trans B1 H4)| | |exact H7].
  - rewrite B1. exact H5.
  - rewrite B2. change ((header_reads c + n)%nat = 0%nat). destruct (isReading c); lia.
Qed.

Lemma with_pending_inv o c : conn_inv c → conn_inv (with_pending o c).
Proof. by intros [H1 H2 H3 H4 H5 H6 H7]. Qed.

Lemma with_deferred_inv n c : conn_inv c → conn_inv (with_deferred n c).
Proof. by intros [H1 H2 H3 H4 H5 H6 H7]. Qed.

(** Something is under way: a read, a write or an operation. *)
Definition live c : Prop := (0 < header_reads c + payload_reads c + writes c + deferred c)%nat.

Lemma maybeRead_live c : conn_inv c → live (maybeRead c).
Proof.
  intros [H1 H2 H3 H4 H5 H6 H7]. unfold maybeRead, live. rewrite H1. cbn [orb]. destruct (isReading c); cbn [negb andb]; [lia|].
  destruct (Z.ltb_spec (Z.of_nat (length (write_queue c))) K_MAX_WRITE_QUEUE) as [|Hq];
    [destruct (Z.ltb_spec (write_queue_bytes c) K_MAX_WRITE_QUEUE_BYTES) as [|Hb]|]; cbn [andb].
  - cbn [doReadHeader with_reads header_reads setReading with_flags payload_reads]. lia.
  - destruct (write_queue c); [rewrite H2 in Hb; cbn in Hb; unfold K_MAX_WRITE_QUEUE_BYTES in Hb; lia|].
    rewrite bool_decide_eq_false_2 in H4 by done. rewrite H4 in H5. cbn in H5. lia.
  - destruct (write_queue c); [cbn in Hq; unfold K_MAX_WRITE_QUEUE in Hq; lia|].
    rewrite bool_decide_eq_false_2 in H4 by done. rewrite H4 in H5. cbn in H5. lia.
Qed.

Lemma write_done_inv n c :
  writes c = S n → conn_inv c → conn_inv (onWriteDone true (with_writes n c)) ∧ live (onWriteDone true (with_writes n c)).
Proof.
  intros En [H1 H2 H3 H4 H5 H6 H7]. unfold onWriteDone. cbn [negb with_writes write_queue].
  assert (Hw : isWriting c = true ∧ n = 0%nat) by (destruct (isWriting c); [split; [done|lia]|lia]). destruct Hw as [Ew ->].
  rewrite Ew in H4. destruct (write_queue c) as [|front rest] eqn:Eq; [done|]. cbv zeta. set (c1 := with_trace_of _ _ _).
  assert (Hb : write_queue_bytes c1 = queue_bytes rest).
  { change (u64 (write_queue_bytes c - zlen front) = queue_bytes rest). rewrite H2. cbn. fold (queue_bytes rest). pose proof (queue_bytes_pos rest).
    rewrite wrap_small; [lia|]. rewrite H2 in H3. cbn in H3. fold (queue_bytes rest) in H3. pose proof (zlen_nonneg front). unfold in_u, K_MAX_WRITE_QUEUE_BYTES in *. lia. }
  assert (Hlim : write_queue_bytes c1 <= K_MAX_WRITE_QUEUE_BYTES).
  { rewrite Hb. rewrite H2 in H3. cbn in H3. fold (queue_bytes rest) in H3. pose proof (zlen_nonneg front). lia. }
  assert (Ho : handed c1 = written c1 ++ rest) by (change (handed c = (written c ++ [front]) ++ rest); by rewrite H7, <- app_assoc).
  destruct rest as [|f rest].
  - pose proof (setWriting_bits false c1) as [= B1 B2 B3]. change (isDraining (setWriting false c1)) with (isDraining (setWriting false c1)).
    assert (Hd : isDraining (setWriting false c1) = false) by (rewrite B3; exact H1). rewrite Hd.
    assert (conn_inv (setWriting false c1)).
    { split; [done|exact Hb|exact Hlim|by rewrite B1|by rewrite B1|rewrite B2; exact H6|exact Ho]. }
    split; [by apply maybeRead_inv|by apply maybeRead_live].
  - unfold doWrite. change (write_queue c1) with (f :: rest). cbv iota. pose proof (setWriting_bits true c1) as [= B1 B2 B3].
    split; [|unfold live; cbn [with_writes writes setWriting with_flags c1 with_trace_of with_queue]; lia].
    split; [exact (eq_trans B3 H1)|exact Hb|exact Hlim|exact B1| |exact (eq_trans H6 (f_equal (λ b : bool, if b then 1%nat else 0%nat) (eq_sym B2)))|exact Ho].
    change ((0 + 1)%nat = if isWriting (setWriting true c1) then 1%nat else 0%nat). by rewrite B1.
Qed.

Lemma step_inv e c c' : e ≠ DrainCalled → conn_inv c → conn_step e c = Some c' → is_open c' = true → conn_inv c'.
Proof.
  intros He I. destruct e as [|h|p|res|ok| |]; cbn [conn_step].
  - intros [= <-] _. by apply maybeRead_inv.
  - destruct (header_reads c) eqn:En; [done|]. intros [= <-]. by apply header_inv.
  - destruct (payload_reads c) eqn:En; [done|]. unfold onPayload. cbv zeta. pose proof (payload_read_inv _ c En I) as I1. destruct p as [[res|op res|op]|].
    + intros E Ho. by eapply sendResponse_inv.
    + destruct (sendResponse _ _) eqn:E; [|done]. intros [= <-]. rewrite maybeRead_open. intros Ho. apply maybeRead_inv.
      eapply sendResponse_inv; [|exact E|done]. by apply with_pending_inv.
    + intros [= <-] _. by apply with_deferred_inv, with_pending_inv.
    + by intros [= <-].
  - destruct (deferred c); [done|]. unfold onComplete. destruct (sendResponse _ _) eqn:E; [|done]. intros [= <-]. rewrite maybeRead_open. intros Ho.
    apply maybeRead_inv. eapply sendResponse_inv; [|exact E|done]. by apply with_deferred_inv.
  - destruct (writes c) eqn:En; [done|]. intros [= <-]. destruct ok; [|done]. intros _. by apply (write_done_inv n c).
  - done.
  - by intros [= <-].
Qed.

Lemma sendResponse_queue res c c' : sendResponse res c = Some c' → is_open c' = true → write_queue c' ≠ [].
Proof.
  unfold sendResponse. set (c1 := if _ && metrics c then with_pending None c else c). clearbody c1. rewrite encodeResponseInto_eq.
  destruct (_ <? _); cbn [mbind option_bind]; [by intros [= <-]|]. cbv zeta. set (c2 := with_trace_of _ _ _).
  assert (Hq : write_queue c2 ≠ []) by (unfold c2; cbn [with_trace_of with_queue write_queue]; by destruct (write_queue c1)). clearbody c2.
  destruct (_ <? _); [by intros [= <-]|]. set (c3 := if negb (isWriting c2) then doWrite c2 else c2).
  assert (write_queue c3 = write_queue c2) as E by (unfold c3, doWrite; destruct (negb _); [|done]; destruct (write_queue c2) eqn:Eq; [done|]; done).
  clearbody c3. rewrite <- E in Hq. destruct (_ && _); by intros [= <-].
Qed.

Lemma step_live e c c' : e ≠ DrainCalled → conn_inv c → conn_step e c = Some c' → is_open c' = true → live c'.
Proof.
  intros He I E Ho. pose proof (step_inv e c c' He I E Ho) as I'. revert E. destruct e as [|h|p|res|ok| |]; cbn [conn_step].
  - intros [= <-]. by apply maybeRead_live.
  - destruct (header_reads c); [done|]. unfold onHeader. intros [= <-]. destruct h; [|done]. destruct (_ || _); [done|]. cbv zeta in *. destruct (_ || _); [done|].
    unfold live. cbn [doReadPayload with_reads with_payload_len header_reads payload_reads]. lia.
  - destruct (payload_reads c) eqn:En; [done|]. unfold onPayload. cbv zeta. pose proof (payload_read_inv _ c En I) as I1. destruct p as [[res|op res|op]|].
    + intros E. pose proof (sendResponse_queue _ _ _ E Ho) as Hq. destruct I' as [_ _ _ H4 H5 _ _]. rewrite bool_decide_eq_false_2 in H4 by done. rewrite H4 in H5.
      unfold live. cbn in H5. lia.
    + destruct (sendResponse _ _) eqn:E; [|done]. intros [= <-]. rewrite maybeRead_open in Ho. apply maybeRead_live.
      eapply sendResponse_inv; [|exact E|done]. by apply with_pending_inv.
    + intros [= <-]. unfold live. cbn [with_deferred deferred]. lia.
    + by intros [= <-].
  - destruct (deferred c); [done|]. unfold onComplete. destruct (sendResponse _ _) eqn:E; [|done]. intros [= <-]. rewrite maybeRead_open in Ho. apply maybeRead_live.
    eapply sendResponse_inv; [|exact E|done]. by apply with_deferred_inv.
  - destruct (writes c) eqn:En; [done|]. intros [= <-]. destruct ok; [|done].
    by apply (write_done_inv n c).
  - done.
  - by intros [= <-].
Qed.

Lemma run_open es c c' : conn_run es c = Some c' → is_open c' = true → is_open c = true.
Proof.
  revert c. induction es as [|e es IH]; intros c; cbn [conn_run]; [by intros [= <-]|].
  destruct (conn_step e c) as [c1|] eqn:E; [|done]. intros E' Ho. eapply step_open; [exact E|]. by eapply IH.
Qed.

Lemma conn_run_inv es c c' :
  DrainCalled ∉ es → conn_inv c → live c → conn_run es c = Some c' → is_open c' = true → conn_inv c' ∧ live c'.
Proof.
  revert c. induction es as [|e es IH]; intros c Hd I L; cbn [conn_run]; [by intros [= <-]|].
  apply not_elem_of_cons in Hd as [Hne Hd]. destruct (conn_step e c) as [c1|] eqn:E; [|done]. cbn [mbind option_bind]. intros E' Ho.
  pose proof (run_open es c1 c' E' Ho) as Ho1. assert (Hne' : e ≠ DrainCalled) by congruence.
  eapply IH; [done|by eapply step_inv|by eapply step_live|exact E'|done].
Qed.

Lemma new_inv b : conn_inv (newConnection b).
Proof. by split. Qed.

(** C19: a connection has one reader, one writer and keeps its answers in order.
    After any history of completions from the start on, without [drain] and as
    long as the socket is open: at most one read is outstanding, and one exactly
    if the flag says so; a write is outstanding exactly while frames are queued,
    and only one; the frames written and the frames queued are together the
    frames handed over, in their order; the byte counter is the size of the
    queue and at most [K_MAX_WRITE_QUEUE_BYTES]; and the connection is never
    stuck, a read, a write or an operation is under way. *)
Theorem connection_invariant (b : bool) (es : list ConnEvent) (c : TcpConnection) :
  DrainCalled ∉ es → conn_run (Started :: es) (newConnection b) = Some c → is_open c = true →
  (header_reads c + payload_reads c)%nat = (if isReading c then 1%nat else 0%nat) ∧
  (writes c = if bool_decide (write_queue c = []) then 0%nat else 1%nat) ∧
  handed c = written c ++ write_queue c ∧
  write_queue_bytes c = queue_bytes (write_queue c) ∧ write_queue_bytes c <= K_MAX_WRITE_QUEUE_BYTES ∧
  (0 < header_reads c + payload_reads c + writes c + deferred c)%nat.
Proof.
  intros Hd E Ho. cbn [conn_run conn_step mbind option_bind] in E.
  destruct (conn_run_inv es (maybeRead (newConnection b)) c Hd) as [[H1 H2 H3 H4 H5 H6 H7] L];
    [apply maybeRead_inv, new_inv|apply maybeRead_live, new_inv|done|done|].
  split_and!; try done. rewrite H5, H4. by destruct (bool_decide _).
Qed.

(** a draining connection starts reads.  [drain] is to stop reading, but the
    test of [maybeRead] lets a draining connection read whatever its reading
    flag says: a history exists in which the answer to the request in flight
    starts a second read while the first is outstanding, on one socket and into
    one buffer. *)
Theorem drain_starts_second_read (c : TcpConnection) :
  isDraining c = true →
  maybeRead c = doReadHeader (setReading true c) ∧ header_reads (maybeRead c) = (header_reads c + 1)%nat ∧
  ∃ es c', conn_run es (newConnection true) = Some c' ∧ is_open c' = true ∧ isDraining c' = true ∧
    (header_reads c' + payload_reads c')%nat = 2%nat.
Proof.
  intros Hd. unfold maybeRead. rewrite Hd. cbn [orb]. split; [done|]. split; [done|].
  set (header := [byte_of_Z K_MAGIC; byte_of_Z K_VERSION; byte_of_Z 4; x00; x00; x00; x00]).
  set (pong := mkResponse 0 None 0 0 None false 1 2).
  exists [Started; HeaderDone (Some header); PayloadDone (Some (Answered Ping pong)); HeaderDone (Some header);
          PayloadDone (Some (Deferred Set_)); WriteDone true; DrainCalled; OperationDone pong].
  eexists. split; [vm_compute; reflexivity|]. done.
Qed.

Definition ping_events : list ConnEvent :=
  [HeaderDone (Some [byte_of_Z K_MAGIC; byte_of_Z K_VERSION; byte_of_Z 4; x00; x00; x00; x00]);
   PayloadDone (Some (Answered Ping (mkResponse 0 None 0 0 None false 1 2)))].

Lemma ping_run :
  (λ c, (is_open c, isReading c, bool_decide (write_queue c = []))) <$> conn_run (Started :: ping_events) (newConnection true) = Some (true, true, false).
Proof. vm_compute. reflexivity. Qed.

Lemma connection_invariant_witness :
  ∃ c, conn_run (Started :: ping_events) (newConnection true) = Some c ∧ (header_reads c + payload_reads c)%nat = 1%nat ∧ writes c = 1%nat.
Proof.
  pose proof ping_run as Hp. destruct (conn_run (Started :: ping_events) (newConnection true)) as [c|] eqn:E; [|discriminate Hp].
  exists c. split; [reflexivity|]. injection Hp as Ho Hr Hq.
  destruct (connection_invariant true ping_events c) as (R1 & R2 & _); [|exact E|exact Ho|].
  - intros Hin. repeat (apply elem_of_cons in Hin as [Hin|Hin]; [discriminate Hin|]). by apply not_elem_of_nil in Hin.
  - rewrite Hr in R1. rewrite Hq in R2. split; [exact R1|exact R2].
Defined.

Lemma drain_starts_second_read_witness :
  header_reads (maybeRead (setDraining true (maybeRead (newConnection true)))) = 2%nat.
Proof.
  destruct (drain_starts_second_read (setDraining true (maybeRead (newConnection true)))) as (_ & E & _); [reflexivity|]. rewrite E. reflexivity.
Defined.
