(* ===== verification/ShardManager.v ===== *)
(** * Rebalancing (src/node/shard_manager.cpp, include/cinder/node/shard_manager.hpp)

    After the ring changed, a node reconciles each key it holds with the owners
    the ring names: it copies the key to the other owners, or hands it over to
    them and drops its own copy.  Requests go out through the transport and are
    answered later, in any order; the calls in flight, with the callback each of
    them was given, are part of the state.  No callback writes anything that
    [rebalance] reads after its first send, so a transport that answers at once
    is the case of an answer right after the rebalance. *)

From S2P Require Import Prelude Types Bytes Membership AntiEntropy Text Gossip HashRing CacheStore Auth.
From S2P Require Import HintQueue HintJournal Fanout ReadQuorum Replication ReplicationSpec Operations Handlers Cluster Clock Protocol.
Import Lww LwwFacts.
Local Open Scope Z_scope.

(** ** State *)

Record CopyPush := mkCopy { cp_key : bytes; cp_entry : Entry.VersionedEntry; cp_owner : bytes }.

Record MigratePush := mkMigrate {
  mp_key : bytes;
  mp_entry : Entry.VersionedEntry;
  mp_primary : bytes;
  mp_replica_peers : list bytes }.

Record Plan := mkPlan { copies : list CopyPush; migrates : list MigratePush; deferred_count : nat }.

(** What a callback captured; the tally is shared by the calls of a migration. *)
Inductive Callback :=
  | PushDone
  | PeerDone (tally : nat)
  | OwnerDone (tally : nat) (key : bytes) (expected : nat).

#[global] Instance Callback_eq_dec : EqDecision Callback.
Proof. solve_decision. Defined.

(** A request handed to the transport; [sc_outcome] is what its callback was
    called with. *)
Record ShardCall := mkCall {
  sc_to : bytes;
  sc_request : Request;
  sc_callback : Callback;
  sc_outcome : option (Result ()) }.

Record RebalanceMetrics := mkRebalanceMetrics {
  rebalance_copies : Z;
  rebalance_migrations : Z;
  rebalance_migration_failures : Z;
  rebalance_dropped_underreplicated : Z }.

Record ShardConfig := mkShardConfig {
  sm_self : bytes;
  sm_replica_factor : Z;            (* int *)
  sm_quarantine_interval : Z;       (* milliseconds *)
  sm_on_migration_failed : bool     (* a callback is set *) }.

Record ShardManager (St : Type) := mkShard {
  sm_store : St;
  sm_acks : list nat;               (* the tallies, in the order they were made *)
  sm_calls : list ShardCall;
  sm_metrics : option RebalanceMetrics;
  sm_failed : nat                   (* calls of on_migration_failed_ *) }.
Arguments mkShard {St} _ _ _ _ _.
Arguments sm_store {St} _.
Arguments sm_acks {St} _.
Arguments sm_calls {St} _.
Arguments sm_metrics {St} _.
Arguments sm_failed {St} _.

Section shard.
Context {St : Type} `{CacheStore St}.
Context (hash64 : bytes → Z) (cfg : ShardConfig).
Implicit Types (sh : ShardManager St) (tb : MembershipTable.t).

Definition with_sm_store (s : St) sh : ShardManager St := mkShard s (sm_acks sh) (sm_calls sh) (sm_metrics sh) (sm_failed sh).
Definition with_acks (l : list nat) sh : ShardManager St := mkShard (sm_store sh) l (sm_calls sh) (sm_metrics sh) (sm_failed sh).
Definition with_calls (l : list ShardCall) sh : ShardManager St := mkShard (sm_store sh) (sm_acks sh) l (sm_metrics sh) (sm_failed sh).
Definition count_metrics (f : RebalanceMetrics → RebalanceMetrics) sh : ShardManager St :=
  mkShard (sm_store sh) (sm_acks sh) (sm_calls sh) (f <$> sm_metrics sh) (sm_failed sh).

(** ** Sending *)

Definition makeReplicateRequest (c : Clock) (key : bytes) (entry : Entry.VersionedEntry) : Request :=
  mkRequest Replicate 0 0 key (Entry.value entry) (Entry.version entry) (Entry.writer_node_hash entry) None
    (if Entry.hasTtl entry then Some (toSystemExpiry c (Entry.expires_at entry)) else None)
    (Entry.isTombstone entry).

Definition sendAsync (to : bytes) (req : Request) (cb : Callback) sh : ShardManager St :=
  with_calls (sm_calls sh ++ [mkCall to req cb None]) sh.

(** The table knows the owner and does not think it alive. *)
Definition not_alive (owner : bytes) tb : bool :=
  match MembershipTable.get owner tb with
  | Some info => negb (bool_decide (state info = Alive))
  | None => false
  end.

Definition pushReplica (c : Clock) tb (p : CopyPush) sh : ShardManager St :=
  if not_alive (cp_owner p) tb then sh
  else sendAsync (cp_owner p) (makeReplicateRequest c (cp_key p) (cp_entry p)) PushDone sh.

Definition migrateKey (c : Clock) tb (p : MigratePush) sh : ShardManager St :=
  if not_alive (mp_primary p) tb then sh
  else
    let tally := length (sm_acks sh) in
    let sh := with_acks (sm_acks sh ++ [0%nat]) sh in
    let expected := (1 + length (mp_replica_peers p))%nat in
    let req := makeReplicateRequest c (mp_key p) (mp_entry p) in
    let sh := foldl (λ sh peer, sendAsync peer req (PeerDone tally) sh) sh (mp_replica_peers p) in
    sendAsync (mp_primary p) req (OwnerDone tally (mp_key p) expected) sh.

(** ** Planning *)

Definition quarantined (c : Clock) tb (owner : bytes) : bool :=
  MembershipTable.isQuarantined owner (now c) (sm_quarantine_interval cfg) tb.

Definition planCopy (c : Clock) tb (key : bytes) (entry : Entry.VersionedEntry) (p : Plan) (owner : bytes) : Plan :=
  if bool_decide (owner = sm_self cfg) || quarantined c tb owner then
    if decide (owner = sm_self cfg) then p else mkPlan (copies p) (migrates p) (S (deferred_count p))
  else mkPlan (copies p ++ [mkCopy key entry owner]) (migrates p) (deferred_count p).

Definition planPeer (c : Clock) tb (x : list bytes * nat) (owner : bytes) : list bytes * nat :=
  let '(replica_peers, deferred) := x in
  if quarantined c tb owner then (replica_peers, S deferred) else (replica_peers ++ [owner], deferred).

Definition planMigrate (c : Clock) tb (key : bytes) (entry : Entry.VersionedEntry) (primary : bytes) (rest : list bytes) (p : Plan) : Plan :=
  if quarantined c tb primary then mkPlan (copies p) (migrates p) (S (deferred_count p))
  else
    let '(replica_peers, deferred) := foldl (planPeer c tb) ([], deferred_count p) rest in
    mkPlan (copies p) (migrates p ++ [mkMigrate key entry primary replica_peers]) deferred.

(** [None] is an exception of the ring. *)
Definition planKey (c : Clock) tb (ring : Ring) (p : Plan) (x : bytes * Entry.VersionedEntry) : option Plan :=
  let '(key, entry) := x in
  match getNodes hash64 key (sm_replica_factor cfg) ring with
  | HashRing.Done [] => Some p
  | HashRing.Done (primary :: rest) =>
      if decide (sm_self cfg ∈ primary :: rest)
      then Some (foldl (planCopy c tb key entry) p (primary :: rest))
      else Some (planMigrate c tb key entry primary rest p)
  | _ => None
  end.

Fixpoint planKeys (c : Clock) tb (ring : Ring) (p : Plan) (l : list (bytes * Entry.VersionedEntry)) : option Plan :=
  match l with
  | [] => Some p
  | x :: l => p ← planKey c tb ring p x; planKeys c tb ring p l
  end.

Definition rebalance (c : Clock) tb (ring : Ring) sh : option (bool * ShardManager St) :=
  plan ← planKeys c tb ring (mkPlan [] [] 0) (cs_liveEntries c (sm_store sh));
  let sh := foldl (λ sh p, pushReplica c tb p sh) sh (copies plan) in
  let sh := foldl (λ sh p, migrateKey c tb p sh) sh (migrates plan) in
  let sh := count_metrics (λ m, mkRebalanceMetrics
    (u64 (rebalance_copies m + Z.of_nat (length (copies plan)))) (u64 (rebalance_migrations m + Z.of_nat (length (migrates plan))))
    (rebalance_migration_failures m) (rebalance_dropped_underreplicated m)) sh in
  Some (bool_decide (0 < deferred_count plan)%nat, sh).

(** ** Answers *)

Definition migrationFailed sh : ShardManager St :=
  let sh := count_metrics (λ m, mkRebalanceMetrics (rebalance_copies m) (rebalance_migrations m)
    (u64 (rebalance_migration_failures m + 1)) (rebalance_dropped_underreplicated m)) sh in
  if sm_on_migration_failed cfg
  then mkShard (sm_store sh) (sm_acks sh) (sm_calls sh) (sm_metrics sh) (S (sm_failed sh)) else sh.

Definition underReplicated sh : ShardManager St :=
  count_metrics (λ m, mkRebalanceMetrics (rebalance_copies m) (rebalance_migrations m)
    (rebalance_migration_failures m) (u64 (rebalance_dropped_underreplicated m + 1))) sh.

(** A callback runs.  [None] is a failed assertion of the store. *)
Definition called (cb : Callback) (r : Result ()) sh : option (ShardManager St) :=
  match cb, r with
  | PushDone, _ => Some sh
  | PeerDone t, Err _ => Some sh
  | PeerDone t, Ok _ => acks ← sm_acks sh !! t; Some (with_acks (<[t := S acks]> (sm_acks sh)) sh)
  | OwnerDone _ _ _, Err _ => Some (migrationFailed sh)
  | OwnerDone t key expected, Ok _ =>
      acks ← sm_acks sh !! t;
      let acks := S acks in
      let sh := with_acks (<[t := acks]> (sm_acks sh)) sh in
      if decide (acks = expected) then '(_, s) ← cs_remove key (sm_store sh); Some (with_sm_store s sh)
      else Some (underReplicated sh)
  end.

(** The transport answers call [i], which it does once. *)
Definition complete (i : nat) (r : Result ()) sh : option (ShardManager St) :=
  call ← sm_calls sh !! i;
  match sc_outcome call with
  | Some _ => None
  | None =>
      called (sc_callback call) r
        (with_calls (<[i := mkCall (sc_to call) (sc_request call) (sc_callback call) (Some r)]> (sm_calls sh)) sh)
  end.

(** ** The manager over time *)

(** What happens to a manager: rebalances, answers of the transport, and writes
    of the node to its store. *)
Inductive ShardEvent :=
  | Rebalanced (c : Clock) (tb : MembershipTable.t) (ring : Ring)
  | Completed (i : nat) (r : Result ())
  | Written (c : Clock) (key : bytes) (entry : Entry.VersionedEntry).

Definition shard_step (ev : ShardEvent) sh : option (ShardManager St) :=
  match ev with
  | Rebalanced c tb ring => '(_, sh) ← rebalance c tb ring sh; Some sh
  | Completed i r => complete i r sh
  | Written c key entry => '(_, s) ← cs_putVersioned c key entry (sm_store sh); Some (with_sm_store s sh)
  end.

Fixpoint shard_run (evs : list ShardEvent) sh : option (ShardManager St) :=
  match evs with
  | [] => Some sh
  | ev :: evs => sh ← shard_step ev sh; shard_run evs sh
  end.

Definition newShard (s : St) (m : option RebalanceMetrics) : ShardManager St := mkShard s [] [] m 0.

End shard.

(** ** What is planned *)

Section plan.
Context {St : Type} `{CacheStore St}.
Context (hash64 : bytes → Z) (cfg : ShardConfig) (c : Clock) (tb : MembershipTable.t) (ring : Ring).
Implicit Types (p : Plan) (k o : bytes) (e : Entry.VersionedEntry).

(** The owners [os] that take a copy now. *)
Definition ready (os : list bytes) : list bytes := filter (λ o, quarantined cfg c tb o = false) os.

Definition owners (k : bytes) : Outcome (list bytes) := getNodes hash64 k (sm_replica_factor cfg) ring.

(** A copy and a migration that the keys of [L] ask for. *)
Definition copy_for (L : list (bytes * Entry.VersionedEntry)) (x : CopyPush) : Prop :=
  (cp_key x, cp_entry x) ∈ L ∧
  ∃ os, owners (cp_key x) = HashRing.Done os ∧ sm_self cfg ∈ os ∧ cp_owner x ∈ ready os ∧ cp_owner x ≠ sm_self cfg.

Definition migration_for (L : list (bytes * Entry.VersionedEntry)) (x : MigratePush) : Prop :=
  (mp_key x, mp_entry x) ∈ L ∧
  ∃ rest, owners (mp_key x) = HashRing.Done (mp_primary x :: rest) ∧ sm_self cfg ∉ mp_primary x :: rest ∧
    quarantined cfg c tb (mp_primary x) = false ∧ mp_replica_peers x = ready rest.

Lemma planCopies_spec k e p os :
  migrates (foldl (planCopy cfg c tb k e) p os) = migrates p ∧
  copies (foldl (planCopy cfg c tb k e) p os) = copies p ++ (mkCopy k e <$> filter (λ o, o ≠ sm_self cfg) (ready os)).
Proof.
  unfold ready. revert p. induction os as [|o os IH]; intros p; cbn [foldl]; [by split; [|rewrite app_nil_r]|]. destruct (IH (planCopy cfg c tb k e p o)) as [-> ->].
  unfold planCopy. rewrite filter_cons. destruct (quarantined cfg c tb o) eqn:Eq.
  - rewrite orb_true_r, (decide_False (P := true = false)) by done. by case_decide.
  - rewrite orb_false_r, (decide_True (P := false = false)), filter_cons by done. destruct (decide (o = sm_self cfg)) as [E|E].
    + rewrite bool_decide_eq_true_2, decide_False by tauto. done.
    + rewrite bool_decide_eq_false_2, decide_True by done. cbn [copies migrates fmap list_fmap]. split; [done|]. by rewrite <- app_assoc.
Qed.

Lemma planPeers_spec l d rest : (foldl (planPeer cfg c tb) (l, d) rest).1 = l ++ ready rest.
Proof.
  unfold ready. revert l d. induction rest as [|o rest IH]; intros l d; cbn [foldl]; [by rewrite app_nil_r|]. rewrite filter_cons. cbn [planPeer].
  destruct (quarantined cfg c tb o) eqn:Eq; rewrite IH; [by rewrite decide_False|]. rewrite decide_True by done. by rewrite <- app_assoc.
Qed.

Lemma planMigrate_spec k e o rest p :
  copies (planMigrate cfg c tb k e o rest p) = copies p ∧
  migrates (planMigrate cfg c tb k e o rest p) = migrates p ++ (if quarantined cfg c tb o then [] else [mkMigrate k e o (ready rest)]).
Proof.
  unfold planMigrate. destruct (quarantined cfg c tb o); [by rewrite app_nil_r|]. pose proof (planPeers_spec [] (deferred_count p) rest) as E.
  destruct (foldl _ _ rest) as [l d]. cbn [fst] in E. by subst l.
Qed.

(** One key: what it adds to the plan. *)
Lemma planKey_spec k e p p' :
  planKey hash64 cfg c tb ring p (k, e) = Some p' →
  ∃ cs ms, copies p' = copies p ++ cs ∧ migrates p' = migrates p ++ ms ∧
    (∀ x, x ∈ cs ↔ copy_for [(k, e)] x) ∧ (∀ x, x ∈ ms ↔ migration_for [(k, e)] x).
Proof.
  unfold planKey, copy_for, migration_for. fold (owners k). destruct (owners k) as [[|o rest]| |] eqn:Eo; [| |done..].
  - intros [= <-]. exists [], []. rewrite !app_nil_r. split_and!; [done..| |]; intros x; (split; [by intros ?%not_elem_of_nil|]).
    + destruct x as [k' e' w]. cbn. intros ([= -> ->]%list_elem_of_singleton & os & Hos & Hin & _). rewrite Eo in Hos. injection Hos as <-. by apply not_elem_of_nil in Hin.
    + destruct x as [k' e' w l]. cbn. intros ([= -> ->]%list_elem_of_singleton & rest & Hos & _). by rewrite Eo in Hos.
  - case_decide as Hself; intros [= <-].
    + pose proof (planCopies_spec k e p (o :: rest)) as [Em Ec]. eexists _, []. rewrite (app_nil_r (migrates p)). split; [exact Ec|]. split; [exact Em|]. split; intros x; split.
      * intros (w & -> & [Hne Hw]%list_elem_of_filter)%list_elem_of_fmap. cbn. split; [by left|]. by exists (o :: rest).
      * destruct x as [k' e' w]. cbn. intros ([= -> ->]%list_elem_of_singleton & os & Hos & _ & Hw & Hne). rewrite Eo in Hos. injection Hos as <-.
        apply list_elem_of_fmap. exists w. split; [done|]. by apply list_elem_of_filter.
      * by intros ?%not_elem_of_nil.
      * destruct x as [k' e' w l]. cbn. intros ([= -> ->]%list_elem_of_singleton & rest' & Hos & Hn & _). rewrite Eo in Hos. injection Hos as <- <-. done.
    + pose proof (planMigrate_spec k e o rest p) as [Ec Em]. eexists [], _. rewrite (app_nil_r (copies p)). split; [exact Ec|]. split; [exact Em|]. split; intros x; split.
      * by intros ?%not_elem_of_nil.
      * destruct x as [k' e' w]. cbn. intros ([= -> ->]%list_elem_of_singleton & os & Hos & Hn & _). rewrite Eo in Hos. by injection Hos as <-.
      * destruct (quarantined cfg c tb o) eqn:Eq; [by intros ?%not_elem_of_nil|]. intros ->%list_elem_of_singleton. cbn. split; [by left|]. by exists rest.
      * destruct x as [k' e' w l]. cbn. intros ([= -> ->]%list_elem_of_singleton & rest' & Hos & _ & Eq & ->). rewrite Eo in Hos. injection Hos as <- <-.
        rewrite Eq. by left.
Qed.

Lemma copy_for_cons y L x : copy_for (y :: L) x ↔ copy_for [y] x ∨ copy_for L x.
Proof. unfold copy_for. rewrite elem_of_cons, list_elem_of_singleton. tauto. Qed.

Lemma migration_for_cons y L x : migration_for (y :: L) x ↔ migration_for [y] x ∨ migration_for L x.
Proof. unfold migration_for. rewrite elem_of_cons, list_elem_of_singleton. tauto. Qed.

Lemma planKeys_spec L p p' :
  planKeys hash64 cfg c tb ring p L = Some p' →
  ∃ cs ms, copies p' = copies p ++ cs ∧ migrates p' = migrates p ++ ms ∧
    (∀ x, x ∈ cs ↔ copy_for L x) ∧ (∀ x, x ∈ ms ↔ migration_for L x).
Proof.
  revert p. induction L as [|[k e] L IH]; intros p.
  - intros [= <-]. exists [], []. rewrite !app_nil_r. unfold copy_for, migration_for. split_and!; [done..| |]; intros x; split; try by intros ?%not_elem_of_nil.
    + by intros [?%not_elem_of_nil _].
    + by intros [?%not_elem_of_nil _].
  - cbn [planKeys]. destruct (planKey _ _ _ _ _ _ _) as [p1|] eqn:E1; [|done]. cbn [mbind option_bind]. intros E2.
    destruct (planKey_spec _ _ _ _ E1) as (cs1 & ms1 & Ec1 & Em1 & Hc1 & Hm1). destruct (IH _ E2) as (cs2 & ms2 & Ec2 & Em2 & Hc2 & Hm2).
    exists (cs1 ++ cs2), (ms1 ++ ms2). rewrite Ec2, Em2, Ec1, Em1, !app_assoc. split_and!; [done..| |]; intros x.
    + by rewrite elem_of_app, copy_for_cons, Hc1, Hc2.
    + by rewrite elem_of_app, migration_for_cons, Hm1, Hm2.
Qed.

(** With no exception of the ring the plan is made. *)
Lemma planKeys_total L p : (∀ k e, (k, e) ∈ L → ∃ os, owners k = HashRing.Done os) → is_Some (planKeys hash64 cfg c tb ring p L).
Proof.
  revert p. induction L as [|[k e] L IH]; intros p Hos; [by eexists|]. cbn [planKeys]. destruct (Hos k e ltac:(by left)) as [os Eo].
  assert (is_Some (planKey hash64 cfg c tb ring p (k, e))) as [p1 ->].
  { unfold planKey. fold (owners k). rewrite Eo. destruct os; [by eexists|]. case_decide; by eexists. }
  cbn [mbind option_bind]. apply IH. intros k' e' Hin. apply (Hos k' e'). by right.
Qed.

End plan.

(** ** The calls of a migration *)

Definition tally_of (cb : Callback) : option nat :=
  match cb with
  | PushDone => None
  | PeerDone t | OwnerDone t _ _ => Some t
  end.

Definition acked (x : ShardCall) : bool := match sc_outcome x with Some (Ok _) => true | _ => false end.

Definition shape (x : ShardCall) : bytes * Request * Callback := (sc_to x, sc_request x, sc_callback x).

Definition unanswered (x : bytes * Request * Callback) : ShardCall := mkCall x.1.1 x.1.2 x.2 None.

Definition of_tally (t : nat) (l : list ShardCall) : list ShardCall := filter (λ x, tally_of (sc_callback x) = Some t) l.

Definition acks_in (t : nat) (l : list ShardCall) : nat := length (filter (λ x, acked x = true) (of_tally t l)).

Definition migration_calls (c : Clock) (x : MigratePush) (t : nat) : list (bytes * Request * Callback) :=
  let req := makeReplicateRequest c (mp_key x) (mp_entry x) in
  ((λ o, (o, req, PeerDone t)) <$> mp_replica_peers x) ++
  [(mp_primary x, req, OwnerDone t (mp_key x) (1 + length (mp_replica_peers x))%nat)].

Lemma of_tally_app t l l' : of_tally t (l ++ l') = of_tally t l ++ of_tally t l'.
Proof. apply filter_app. Qed.

Lemma of_tally_none t l : (∀ x, x ∈ l → tally_of (sc_callback x) ≠ Some t) → of_tally t l = [].
Proof. apply filter_all_false. Qed.

Lemma acks_in_app t l l' : acks_in t (l ++ l') = (acks_in t l + acks_in t l')%nat.
Proof. unfold acks_in. by rewrite of_tally_app, filter_app, length_app. Qed.

Lemma acks_in_fresh t l : (∀ x, x ∈ l → tally_of (sc_callback x) ≠ Some t) → acks_in t l = 0%nat.
Proof. intros Hl. unfold acks_in. by rewrite of_tally_none. Qed.

Lemma acks_in_unanswered t l : acks_in t (unanswered <$> l) = 0%nat.
Proof.
  unfold acks_in. rewrite filter_all_false; [done|]. intros x [_ (y & -> & _)%list_elem_of_fmap]%list_elem_of_filter. done.
Qed.

Lemma migration_calls_tally c x t y : y ∈ unanswered <$> migration_calls c x t → tally_of (sc_callback y) = Some t.
Proof.
  intros (z & -> & Hz)%list_elem_of_fmap. unfold migration_calls in Hz. apply elem_of_app in Hz as [(o & -> & _)%list_elem_of_fmap| ->%list_elem_of_singleton]; done.
Qed.

Lemma shape_unanswered (l : list (bytes * Request * Callback)) : shape <$> (unanswered <$> l) = l.
Proof. rewrite <- list_fmap_compose. rewrite <- (list_fmap_id l) at 2. apply list_fmap_ext. by intros _ [[a b] d] _. Qed.

Section sends.
Context {St : Type} `{CacheStore St}.
Implicit Types sh : ShardManager St.

Lemma sends_spec (req : Request) (cb : Callback) (os : list bytes) sh :
  foldl (λ sh o, sendAsync o req cb sh) sh os = with_calls (sm_calls sh ++ (unanswered <$> ((λ o, (o, req, cb)) <$> os))) sh.
Proof.
  revert sh. induction os as [|o os IH]; intros sh; cbn [foldl].
  - cbn. rewrite app_nil_r. by destruct sh.
  - rewrite IH. cbn [sendAsync with_calls sm_calls fmap list_fmap]. by rewrite <- app_assoc.
Qed.

Lemma migrateKey_spec c tb x sh :
  migrateKey c tb x sh =
  if not_alive (mp_primary x) tb then sh
  else mkShard (sm_store sh) (sm_acks sh ++ [0%nat]) (sm_calls sh ++ (unanswered <$> migration_calls c x (length (sm_acks sh)))) (sm_metrics sh) (sm_failed sh).
Proof.
  unfold migrateKey. destruct (not_alive _ _); [done|]. cbv zeta. rewrite sends_spec. unfold migration_calls. cbv zeta.
  rewrite (fmap_app unanswered). unfold sendAsync, with_calls, with_acks. cbn [sm_calls sm_acks sm_store sm_metrics sm_failed]. by rewrite <- app_assoc.
Qed.

Lemma pushReplica_spec c tb x sh :
  pushReplica c tb x sh =
  if not_alive (cp_owner x) tb then sh
  else with_calls (sm_calls sh ++ [unanswered (cp_owner x, makeReplicateRequest c (cp_key x) (cp_entry x), PushDone)]) sh.
Proof. done. Qed.

End sends.

(** ** The tallies count the acknowledgements *)

Section tallies.
Context {St : Type} `{CacheStore St}.
Context (hash64 : bytes → Z) (cfg : ShardConfig) (sh0 : ShardManager St).
Implicit Types (sh : ShardManager St) (evs : list ShardEvent).

(** The migration [x] was planned by a rebalance in the past. *)
Definition planned evs (c : Clock) (x : MigratePush) : Prop :=
  ∃ evs1 evs2 tb ring sh1, evs = evs1 ++ Rebalanced c tb ring :: evs2 ∧ shard_run hash64 cfg evs1 sh0 = Some sh1 ∧
    migration_for hash64 cfg c tb ring (cs_liveEntries c (sm_store sh1)) x.

Record shard_inv evs sh : Prop := mkShardInv {
  si_acks : ∀ t n, sm_acks sh !! t = Some n → n = acks_in t (sm_calls sh);
  si_made : ∀ t, (t < length (sm_acks sh))%nat → ∃ c x, planned evs c x ∧ shape <$> of_tally t (sm_calls sh) = migration_calls c x t;
  si_range : ∀ x t, x ∈ sm_calls sh → tally_of (sc_callback x) = Some t → (t < length (sm_acks sh))%nat }.

Lemma planned_app evs evs' c x : planned evs c x → planned (evs ++ evs') c x.
Proof. intros (e1 & e2 & tb & ring & sh1 & -> & Hr). exists e1, (e2 ++ evs'), tb, ring, sh1. by rewrite <- app_assoc. Qed.

Lemma inv_app evs evs' sh : shard_inv evs sh → shard_inv (evs ++ evs') sh.
Proof.
  intros [Ha Hm Hr]. split; [done| |done]. intros t Ht. destruct (Hm t Ht) as (c & x & Hp & E). exists c, x. split; [by apply planned_app|done].
Qed.

Lemma inv_same evs sh sh' : sm_acks sh' = sm_acks sh → sm_calls sh' = sm_calls sh → shard_inv evs sh → shard_inv evs sh'.
Proof. intros Ea Ec [H1 H2 H3]. split; rewrite Ea, Ec; done. Qed.

Lemma inv_push evs c tb x sh : shard_inv evs sh → shard_inv evs (pushReplica c tb x sh).
Proof.
  intros [Ha Hm Hr]. rewrite pushReplica_spec. destruct (not_alive _ _); [done|].
  set (y := unanswered _). assert (Hy : ∀ t z, z ∈ [y] → tally_of (sc_callback z) ≠ Some t) by (by intros t z ->%list_elem_of_singleton).
  split; cbn [with_calls sm_acks sm_calls].
  - intros t n E. rewrite acks_in_app, (acks_in_fresh _ [y]) by apply Hy. rewrite Nat.add_0_r. by apply Ha.
  - intros t Ht. rewrite of_tally_app, (of_tally_none _ [y]), app_nil_r by apply Hy. by apply Hm.
  - intros z t [Hz|Hz]%elem_of_app E; [by eapply Hr|]. by destruct (Hy t z Hz).
Qed.

Lemma inv_migrate evs c tb x sh : planned evs c x → shard_inv evs sh → shard_inv evs (migrateKey c tb x sh).
Proof.
  intros Hx [Ha Hm Hr]. rewrite migrateKey_spec. destruct (not_alive _ _); [done|]. set (t0 := length (sm_acks sh)).
  pose proof (migration_calls_tally c x t0) as Hy. set (ys := migration_calls c x t0) in *.
  assert (Hold : ∀ z, z ∈ sm_calls sh → tally_of (sc_callback z) ≠ Some t0) by (intros z Hz E; pose proof (Hr z t0 Hz E); lia).
  assert (Hnew : ∀ t z, t ≠ t0 → z ∈ unanswered <$> ys → tally_of (sc_callback z) ≠ Some t) by (intros t z Ht Hz; rewrite (Hy z Hz); congruence).
  split; cbn [sm_acks sm_calls].
  - intros t n [E|[Ht E]]%lookup_app_Some; rewrite acks_in_app, acks_in_unanswered, Nat.add_0_r; [by apply Ha|].
    apply list_lookup_singleton_Some in E as [Et <-]. replace t with t0 by lia. by rewrite acks_in_fresh.
  - intros t Ht. rewrite length_app in Ht. cbn in Ht. rewrite of_tally_app. destruct (decide (t = t0)) as [->|Hne].
    + exists c, x. split; [done|]. rewrite (of_tally_none t0 (sm_calls sh)) by done. unfold of_tally. rewrite filter_all_true; [apply shape_unanswered|done].
    + rewrite (of_tally_none t (unanswered <$> ys)), app_nil_r by (intros z; by apply Hnew). apply Hm. lia.
  - intros z t [Hz|Hz]%elem_of_app E; rewrite length_app; cbn; [pose proof (Hr z t Hz E); lia|]. rewrite (Hy z Hz) in E. injection E as <-. lia.
Qed.

Lemma inv_rebalance evs c tb ring sh d sh' :
  shard_run hash64 cfg evs sh0 = Some sh → shard_inv evs sh → rebalance hash64 cfg c tb ring sh = Some (d, sh') →
  shard_inv (evs ++ [Rebalanced c tb ring]) sh'.
Proof.
  intros Hrun Hinv. unfold rebalance. destruct (planKeys _ _ _ _ _ _ _) as [plan|] eqn:Ep; [|done]. cbn [mbind option_bind]. intros [= _ <-].
  apply planKeys_spec in Ep as (cs & ms & _ & Em & _ & Hms). cbn [migrates app] in Em. rewrite Em. set (evs' := evs ++ _).
  set (sh1 := foldl (λ sh p, pushReplica c tb p sh) sh (copies plan)).
  apply (inv_same _ (foldl (λ sh p, migrateKey c tb p sh) sh1 ms)); [done|done|]. assert (Hpl : ∀ x, x ∈ ms → planned evs' c x).
  { intros x Hx%Hms. by exists evs, [], tb, ring, sh. }
  assert (Hc : shard_inv evs' sh1).
  { apply inv_app with (evs' := [Rebalanced c tb ring]) in Hinv. unfold sh1. clear -Hinv. revert sh Hinv.
    induction (copies plan) as [|x l IH]; intros sh Hinv; [done|]. cbn [foldl]. by apply IH, inv_push. }
  revert Hc. generalize sh1. clear -Hpl. induction ms as [|x ms IH]; intros sh Hsh; [done|]. cbn [foldl]. apply IH; [intros y Hy; apply Hpl; by right|]. apply inv_migrate; [apply Hpl; by left|done].
Qed.

Definition answered (r : Result ()) (x : ShardCall) : ShardCall := mkCall (sc_to x) (sc_request x) (sc_callback x) (Some r).

Definition counted (t : nat) (r : Result ()) (x : ShardCall) : nat :=
  if decide (tally_of (sc_callback x) = Some t) then match r with Ok _ => 1 | Err _ => 0 end else 0.

(** Answering a call: only its outcome changes. *)
Lemma answer_calls i r x l t :
  l !! i = Some x → sc_outcome x = None →
  shape <$> of_tally t (<[i := answered r x]> l) = shape <$> of_tally t l ∧
  acks_in t (<[i := answered r x]> l) = (acks_in t l + counted t r x)%nat.
Proof.
  intros (l1 & l2 & -> & ->)%list_elem_of_split_length Hx. rewrite <- (Nat.add_0_r (length l1)), insert_app_r. cbn [insert list_insert].
  rewrite !of_tally_app, !acks_in_app, !fmap_app. unfold of_tally, acks_in, of_tally, counted. rewrite !filter_cons. cbn [answered sc_callback].
  case_decide; [|by rewrite !Nat.add_0_r]. rewrite !filter_cons. cbn [fmap list_fmap]. split; [done|].
  unfold acked. rewrite Hx. cbn [answered sc_outcome]. rewrite (decide_False (P := false = true)) by done.
  destruct r; [rewrite decide_True by done; cbn [length]; lia|rewrite decide_False by done; lia].
Qed.

Lemma inv_answer evs i r x sh acks' s m f :
  shard_inv evs sh → sm_calls sh !! i = Some x → sc_outcome x = None →
  (∀ t, acks' !! t = (λ n, (n + counted t r x)%nat) <$> sm_acks sh !! t) →
  shard_inv evs (mkShard s acks' (<[i := answered r x]> (sm_calls sh)) m f).
Proof.
  intros [Ha Hm Hr] Hx Ho Hk.
  assert (Hlen : length acks' = length (sm_acks sh)).
  { apply Nat.le_antisymm; apply Nat.nlt_ge; intros Hlt%lookup_lt_is_Some; destruct Hlt as [n Hn].
    - rewrite Hk in Hn. apply fmap_Some in Hn as (n' & Hn%lookup_lt_Some & _). lia.
    - pose proof (Hk (length acks')) as E. rewrite Hn, lookup_ge_None_2 in E; [done|lia]. }
  split; cbn [sm_acks sm_calls].
  - intros t n E. rewrite Hk in E. apply fmap_Some in E as (n' & E & ->). destruct (answer_calls i r x _ t Hx Ho) as [_ ->]. f_equal. by apply Ha.
  - intros t Ht. rewrite Hlen in Ht. destruct (answer_calls i r x _ t Hx Ho) as [-> _]. by apply Hm.
  - intros y t Hy E. rewrite Hlen. apply list_elem_of_lookup in Hy as [j Hj]. apply list_lookup_insert_Some in Hj as [(-> & <- & _)|[_ Hj]].
    + eapply Hr; [by eapply list_elem_of_lookup_2|exact E].
    + eapply Hr; [by eapply list_elem_of_lookup_2|exact E].
Qed.

Lemma counted_tally r x t acks (l : list nat) :
  tally_of (sc_callback x) = Some t → l !! t = Some acks → r = Ok () →
  ∀ u, <[t := S acks]> l !! u = (λ n, (n + counted u r x)%nat) <$> l !! u.
Proof.
  intros Hx Ht -> u. unfold counted. rewrite Hx. destruct (decide (u = t)) as [->|Hne].
  - rewrite list_lookup_insert_eq by (by eapply lookup_lt_Some). rewrite Ht, decide_True by done. cbn. f_equal. lia.
  - rewrite list_lookup_insert_ne, decide_False by congruence. destruct (l !! u); [|done]. cbn. f_equal. lia.
Qed.

Lemma counted_none r x (l : list nat) :
  (∀ u, counted u r x = 0%nat) → ∀ u, l !! u = (λ n, (n + counted u r x)%nat) <$> l !! u.
Proof. intros Hz u. rewrite Hz. destruct (l !! u); [|done]. cbn. f_equal. lia. Qed.

(** An answer: the call is marked, and the store is left alone unless this was
    the last of the acknowledgements a migration waits for. *)
Lemma complete_spec evs i r sh sh' :
  shard_inv evs sh → complete cfg i r sh = Some sh' →
  ∃ x, sm_calls sh !! i = Some x ∧ sc_outcome x = None ∧ sm_calls sh' = <[i := answered r x]> (sm_calls sh) ∧ shard_inv evs sh' ∧
    match sc_callback x, r with
    | OwnerDone t k expected, Ok _ =>
        if decide (acks_in t (sm_calls sh') = expected) then ∃ b, cs_remove k (sm_store sh) = Some (b, sm_store sh')
        else sm_store sh' = sm_store sh
    | _, _ => sm_store sh' = sm_store sh
    end.
Proof.
  intros Hinv. unfold complete. destruct (sm_calls sh !! i) as [x|] eqn:Ex; [|done]. cbn [mbind option_bind].
  destruct (sc_outcome x) eqn:Eo; [done|]. intros E. exists x. split; [done|]. split; [done|]. fold (answered r x) in E. revert E.
  assert (Hz : ∀ acks' s m f, (∀ u, acks' !! u = (λ n, (n + counted u r x)%nat) <$> sm_acks sh !! u) →
    shard_inv evs (mkShard s acks' (<[i := answered r x]> (sm_calls sh)) m f)) by (intros; by apply inv_answer).
  unfold called. destruct (sc_callback x) as [|t|t k expected] eqn:Ecb, r as [[]|err].
  - intros [= <-]. split_and!; [done| |done]. apply Hz, counted_none. intros u. unfold counted. by rewrite Ecb.
  - intros [= <-]. split_and!; [done| |done]. apply Hz, counted_none. intros u. unfold counted. by rewrite Ecb.
  - cbn [sm_acks with_calls]. destruct (sm_acks sh !! t) as [acks|] eqn:Et; [|done]. intros [= <-]. split_and!; [done| |done]. apply Hz, counted_tally; [by rewrite Ecb|done|done].
  - intros [= <-]. split_and!; [done| |done]. apply Hz, counted_none. intros u. unfold counted. by case_decide.
  - cbn [sm_acks with_calls]. destruct (sm_acks sh !! t) as [acks|] eqn:Et; [|done]. cbn [mbind option_bind].
    assert (Hc : ∀ s m f, shard_inv evs (mkShard s (<[t := S acks]> (sm_acks sh)) (<[i := answered (Ok ()) x]> (sm_calls sh)) m f)).
    { intros s m f. apply Hz, counted_tally; [by rewrite Ecb|done|done]. }
    assert (Hn : acks_in t (<[i := answered (Ok ()) x]> (sm_calls sh)) = S acks).
    { destruct (answer_calls i (Ok ()) x _ t Ex Eo) as [_ ->]. rewrite <- (si_acks _ _ Hinv t acks Et). unfold counted. rewrite Ecb, decide_True by done. lia. }
    case_decide as Hexp.
    + cbn [with_acks sm_store with_calls]. destruct (cs_remove k (sm_store sh)) as [[b s]|] eqn:Er; [|done]. intros [= <-]. split_and!; [done|apply Hc|].
      unfold with_sm_store, with_acks, with_calls. cbn [sm_calls sm_store]. rewrite Hn, decide_True by done. by exists b.
    + intros [= <-]. split_and!; [done|apply Hc|]. unfold underReplicated, count_metrics, with_acks, with_calls. cbn [sm_calls sm_store].
      rewrite Hn, decide_False by done. done.
  - intros [= <-]. unfold migrationFailed. destruct (sm_on_migration_failed cfg); (split_and!; [done| |done]); apply Hz, counted_none; intros u; unfold counted; by case_decide.
Qed.

Lemma shard_run_app evs evs' sh : shard_run hash64 cfg (evs ++ evs') sh = sh1 ← shard_run hash64 cfg evs sh; shard_run hash64 cfg evs' sh1.
Proof. revert sh. induction evs as [|ev evs IH]; intros sh; [done|]. cbn. destruct (shard_step _ _ ev sh); [cbn; by rewrite IH|done]. Qed.

Lemma run_shard_inv evs sh :
  sm_acks sh0 = [] → sm_calls sh0 = [] → shard_run hash64 cfg evs sh0 = Some sh → shard_inv evs sh.
Proof.
  intros Ea Ec. revert sh. induction evs as [|ev evs IH] using rev_ind; intros sh.
  - intros [= <-]. split; rewrite ?Ea, ?Ec; [done|cbn; lia|by intros ? ? ?%not_elem_of_nil].
  - rewrite shard_run_app. destruct (shard_run _ _ evs sh0) as [sh1|] eqn:E1; [|done]. cbn [mbind option_bind shard_run]. specialize (IH sh1 eq_refl).
    destruct ev as [c tb ring|i r|c k e]; cbn [shard_step].
    + destruct (rebalance _ _ _ _ _ _) as [[d sh2]|] eqn:E2; [|done]. intros [= <-]. by eapply inv_rebalance.
    + destruct (complete _ _ _ _) as [sh2|] eqn:E2; [|done]. intros [= <-]. destruct (complete_spec evs i r sh1 sh2 IH E2) as (_ & _ & _ & _ & Hi & _). by apply inv_app.
    + destruct (cs_putVersioned _ _ _ _) as [[r s]|]; [|done]. intros [= <-]. by apply inv_app, (inv_same _ sh1).
Qed.

Lemma filter_full {A} (P : A → Prop) `{∀ x, Decision (P x)} (l : list A) : (length l <= length (filter P l))%nat → filter P l = l.
Proof.
  induction l as [|x l IH]; [done|]. rewrite filter_cons. case_decide; cbn [length]; intros Hle.
  - f_equal. apply IH. lia.
  - pose proof (length_filter P l). lia.
Qed.

(** All calls of the migration have succeeded when its key is removed. *)
Lemma all_acked evs sh t k exp x :
  shard_inv evs sh → x ∈ sm_calls sh → sc_callback x = OwnerDone t k exp → exp = acks_in t (sm_calls sh) →
  ∃ c m, planned evs c m ∧ mp_key m = k ∧
    ∀ o, o ∈ mp_primary m :: mp_replica_peers m →
      ∃ y, y ∈ sm_calls sh ∧ sc_to y = o ∧ sc_request y = makeReplicateRequest c k (mp_entry m) ∧ acked y = true.
Proof.
  intros Hinv Hx Ecb Hexp. destruct (si_made _ _ Hinv t) as (c & m & Hp & Hs); [eapply si_range; [done|done|by rewrite Ecb]|].
  assert (Hin : shape x ∈ migration_calls c m t).
  { rewrite <- Hs. apply list_elem_of_fmap_2, list_elem_of_filter. by rewrite Ecb. }
  unfold migration_calls in Hin. apply elem_of_app in Hin as [(o & E & _)%list_elem_of_fmap|E%list_elem_of_singleton].
  { unfold shape in E. rewrite Ecb in E. discriminate E. }
  unfold shape in E. rewrite Ecb in E. injection E as _ _ Ek Ee. subst k.
  assert (Hall : filter (λ x, acked x = true) (of_tally t (sm_calls sh)) = of_tally t (sm_calls sh)).
  { apply filter_full. fold (acks_in t (sm_calls sh)). rewrite <- Hexp, Ee, <- (length_fmap shape (of_tally t _)), Hs. unfold migration_calls. rewrite length_app, length_fmap. cbn. lia. }
  exists c, m. split; [done|]. split; [done|]. intros o Ho.
  assert (Hcall : ∃ cb, (o, makeReplicateRequest c (mp_key m) (mp_entry m), cb) ∈ migration_calls c m t).
  { unfold migration_calls. apply elem_of_cons in Ho as [->|Ho]; eexists; apply elem_of_app; [right; by apply list_elem_of_singleton|left].
    apply list_elem_of_fmap. by exists o. }
  destruct Hcall as [cb Hcall]. rewrite <- Hs in Hcall. apply list_elem_of_fmap in Hcall as (y & [= Eo Er _] & Hy).
  exists y. rewrite <- Hall in Hy. apply list_elem_of_filter in Hy as [Hack [_ Hy]%list_elem_of_filter]. done.
Qed.

End tallies.

(** ** The calls of a rebalance *)

Section rebalanced.
Context {St : Type} `{CacheStore St}.
Context (hash64 : bytes → Z) (cfg : ShardConfig) (c : Clock) (tb : MembershipTable.t) (ring : Ring).
Implicit Types sh : ShardManager St.

Definition copy_call (x : CopyPush) : ShardCall := unanswered (cp_owner x, makeReplicateRequest c (cp_key x) (cp_entry x), PushDone).

Lemma pushes_calls l sh :
  let sh' := foldl (λ sh p, pushReplica c tb p sh) sh l in
  sm_store sh' = sm_store sh ∧ sm_calls sh' = sm_calls sh ++ (copy_call <$> filter (λ x, not_alive (cp_owner x) tb = false) l).
Proof.
  cbv zeta. revert sh. induction l as [|x l IH]; intros sh; cbn [foldl]; [by split; [|rewrite app_nil_r]|].
  destruct (IH (pushReplica c tb x sh)) as [-> ->]. rewrite pushReplica_spec, filter_cons.
  destruct (not_alive _ _); [by rewrite decide_False|]. rewrite decide_True by done. split; [done|].
  cbn [with_calls sm_calls fmap list_fmap]. by rewrite <- app_assoc.
Qed.

Lemma migrations_calls l sh :
  let sh' := foldl (λ sh p, migrateKey c tb p sh) sh l in
  sm_store sh' = sm_store sh ∧ ∃ new, sm_calls sh' = sm_calls sh ++ (unanswered <$> new) ∧
    (∀ z, z ∈ new → ∃ x t, x ∈ l ∧ not_alive (mp_primary x) tb = false ∧ z ∈ migration_calls c x t) ∧
    (∀ x, x ∈ l → not_alive (mp_primary x) tb = false → ∃ t, ∀ z, z ∈ migration_calls c x t → z ∈ new).
Proof.
  cbv zeta. revert sh. induction l as [|x l IH]; intros sh; cbn [foldl].
  { split; [done|]. exists []. rewrite app_nil_r. split_and!; [done|by intros ? ?%not_elem_of_nil..]. }
  destruct (IH (migrateKey c tb x sh)) as (-> & new & -> & Hfrom & Hto). rewrite migrateKey_spec. destruct (not_alive (mp_primary x) tb) eqn:Ea.
  - split; [done|]. exists new. split; [done|]. split.
    + intros z Hz. destruct (Hfrom z Hz) as (y & t & Hy & Hzy). exists y, t. split; [by right|done].
    + intros y [->|Hy]%elem_of_cons; [by rewrite Ea|by apply Hto].
  - split; [done|]. exists (migration_calls c x (length (sm_acks sh)) ++ new). cbn [sm_calls]. rewrite fmap_app, app_assoc. split; [done|]. split.
    + intros z [Hz|Hz]%elem_of_app; [exists x; eexists; split_and!; [by left|done|done]|]. destruct (Hfrom z Hz) as (y & t & Hy & Hzy). exists y, t. split; [by right|done].
    + intros y [->|Hy]%elem_of_cons Hal; [eexists; intros z Hz; apply elem_of_app; by left|].
      destruct (Hto y Hy Hal) as [t Ht]. exists t. intros z Hz%Ht. apply elem_of_app. by right.
Qed.

(** What a rebalance of an idle manager sends. *)
Lemma rebalance_calls s m d sh1 :
  rebalance hash64 cfg c tb ring (newShard s m) = Some (d, sh1) →
  let live := cs_liveEntries c s in
  sm_store sh1 = s ∧ (∀ y, y ∈ sm_calls sh1 → sc_outcome y = None) ∧
  (∀ y, y ∈ sm_calls sh1 → (∃ x, copy_for hash64 cfg c tb ring live x ∧ y = copy_call x) ∨
     ∃ x t, migration_for hash64 cfg c tb ring live x ∧ not_alive (mp_primary x) tb = false ∧ shape y ∈ migration_calls c x t) ∧
  (∀ x, copy_for hash64 cfg c tb ring live x → not_alive (cp_owner x) tb = false → copy_call x ∈ sm_calls sh1) ∧
  (∀ x, migration_for hash64 cfg c tb ring live x → not_alive (mp_primary x) tb = false →
     ∃ t, ∀ z, z ∈ migration_calls c x t → unanswered z ∈ sm_calls sh1).
Proof.
  unfold rebalance. cbv zeta. cbn [newShard sm_store]. destruct (planKeys _ _ _ _ _ _ _) as [plan|] eqn:Ep; [|done]. cbn [mbind option_bind]. intros [= _ <-].
  apply planKeys_spec in Ep as (cs & ms & Ec & Em & Hcs & Hms). cbn [copies migrates app] in Ec, Em. rewrite Ec, Em. cbn [count_metrics sm_store sm_calls].
  destruct (pushes_calls cs (newShard s m)) as [Es Epc]. set (sh' := foldl (λ sh p, pushReplica c tb p sh) (newShard s m) cs) in *.
  destruct (migrations_calls ms sh') as (Es' & new & Emc & Hfrom & Hto). rewrite Es', Emc, Epc. cbn [newShard sm_calls app]. split; [done|]. split_and!.
  - intros y [(x & -> & _)%list_elem_of_fmap|(z & -> & _)%list_elem_of_fmap]%elem_of_app; done.
  - intros y [(x & -> & [_ Hx]%list_elem_of_filter)%list_elem_of_fmap|(z & -> & Hz)%list_elem_of_fmap]%elem_of_app.
    + left. exists x. by rewrite <- Hcs.
    + right. destruct (Hfrom z Hz) as (x & t & Hx%Hms & Hal & Hzx). exists x, t. by destruct z as [[]].
  - intros x Hx%Hcs Hal. apply elem_of_app. left. apply list_elem_of_fmap_2. by apply list_elem_of_filter.
  - intros x Hx%Hms Hal. destruct (Hto x Hx Hal) as [t Ht]. exists t. intros z Hz%Ht. apply elem_of_app. right. by apply list_elem_of_fmap_2.
Qed.

End rebalanced.

(** ** Handing over *)

Section handover.
Context {St : Type} `{CacheStoreLaws St}.
Context (hash64 : bytes → Z) (cfg : ShardConfig).
Implicit Types sh : ShardManager St.

(** The key a call gives up when it is the last to succeed. *)
Definition gives_up (x : ShardCall) : option bytes := match sc_callback x with OwnerDone _ k _ => Some k | _ => None end.

(** The calls are answered with success, in some order. *)
Definition answers (order : list nat) : list ShardEvent := (λ i, Completed i (Ok ())) <$> order.

Definition all_answered (n : nat) : list ShardEvent := answers (seq 0 n).

(** The call that gives up [k] is answered behind all others of its migration. *)
Definition primary_last (order : list nat) (l : list ShardCall) (k : bytes) : Prop :=
  ∃ before j after x, order = before ++ j :: after ∧ l !! j = Some x ∧ gives_up x = Some k ∧
    ∀ i y, l !! i = Some y → tally_of (sc_callback y) = tally_of (sc_callback x) → i ∈ before ∨ i = j.

(** The owner is called last: when it answers after the others, it completes the
    tally. *)
Lemma owner_last sh0 evs sh j x t k exp :
  shard_inv hash64 cfg sh0 evs sh → sm_calls sh !! j = Some x → sc_callback x = OwnerDone t k exp →
  exp = S (length (of_tally t (take j (sm_calls sh)))).
Proof.
  intros Hinv Hj Ecb. destruct (si_made _ _ _ _ _ Hinv t) as (c & m & _ & Hs); [eapply si_range; [done|by eapply list_elem_of_lookup_2|by rewrite Ecb]|].
  rewrite <- (take_drop_middle (sm_calls sh) j x Hj), of_tally_app in Hs. unfold of_tally at 2 in Hs.
  rewrite filter_cons_True in Hs by (by rewrite Ecb). fold (of_tally t (drop (S j) (sm_calls sh))) in Hs. rewrite fmap_app in Hs. cbn [fmap list_fmap] in Hs.
  assert (Hsx : shape x = (sc_to x, sc_request x, OwnerDone t k exp)) by (unfold shape; by rewrite Ecb). rewrite Hsx in Hs.
  unfold migration_calls in Hs. destruct (of_tally t (drop (S j) (sm_calls sh))) as [|y l _] using rev_ind.
  - apply app_inj_tail in Hs as [Hl [= _ _ _ ->]]. apply (f_equal length) in Hl. rewrite !length_fmap in Hl. by rewrite Hl.
  - rewrite fmap_app in Hs. cbn [fmap list_fmap] in Hs. rewrite app_comm_cons, app_assoc in Hs. apply app_inj_tail in Hs as [Hl _].
    assert (Hin : (sc_to x, sc_request x, OwnerDone t k exp) ∈ ((λ o : bytes, (o, makeReplicateRequest c (mp_key m) (mp_entry m), PeerDone t)) <$> mp_replica_peers m)).
    { rewrite <- Hl. apply elem_of_app. right. by left. }
    apply list_elem_of_fmap in Hin as (o & Hin & _). discriminate Hin.
Qed.

Lemma complete_total sh0 evs i r x sh :
  shard_inv hash64 cfg sh0 evs sh → sm_calls sh !! i = Some x → sc_outcome x = None → cs_inv (sm_store sh) → is_Some (complete cfg i r sh).
Proof.
  intros Hinv Hx Ho Hi. unfold complete. rewrite Hx. cbn [mbind option_bind]. rewrite Ho.
  assert (Hacks : ∀ t, tally_of (sc_callback x) = Some t → is_Some (sm_acks sh !! t)).
  { intros t Et. apply lookup_lt_is_Some. eapply si_range; [done|by eapply list_elem_of_lookup_2|done]. }
  unfold called. destruct (sc_callback x) as [|t|t k expected], r as [[]|err]; try by eexists.
  - destruct (Hacks t eq_refl) as [n E]. cbn [with_calls sm_acks]. rewrite E. by eexists.
  - destruct (Hacks t eq_refl) as [n E]. cbn [with_calls sm_acks]. rewrite E. cbn [mbind option_bind]. case_decide; [|by eexists].
    cbn [with_acks with_calls sm_store]. destruct (cs_remove_law k (sm_store sh) Hi) as (b & s & -> & _). by eexists.
Qed.

Lemma owner_expects sh0 evs sh x t k exp :
  shard_inv hash64 cfg sh0 evs sh → x ∈ sm_calls sh → sc_callback x = OwnerDone t k exp → exp = length (of_tally t (sm_calls sh)).
Proof.
  intros Hinv Hx Ecb. destruct (si_made _ _ _ _ _ Hinv t) as (c & m & _ & Hs); [eapply si_range; [done|done|by rewrite Ecb]|].
  assert (shape x ∈ migration_calls c m t) as Hin.
  { rewrite <- Hs. apply list_elem_of_fmap_2, list_elem_of_filter. by rewrite Ecb. }
  apply (f_equal length) in Hs. rewrite length_fmap in Hs. rewrite Hs. unfold migration_calls in Hin |- *. rewrite length_app, length_fmap. cbn [length].
  unfold shape in Hin. rewrite Ecb in Hin. apply elem_of_app in Hin as [(o & E & _)%list_elem_of_fmap|E%list_elem_of_singleton]; [done|]. injection E as _ _ _ ->. lia.
Qed.

Lemma all_acks t l : acks_in t l = length (of_tally t l) ↔ ∀ y, y ∈ l → tally_of (sc_callback y) = Some t → acked y = true.
Proof.
  unfold acks_in. split.
  - intros E y Hy Ht. assert (y ∈ of_tally t l) as Hin by (by apply list_elem_of_filter).
    rewrite <- (filter_full (λ x, acked x = true) (of_tally t l)) in Hin by lia. by apply list_elem_of_filter in Hin as [? _].
  - intros Hall. rewrite filter_all_true; [done|]. intros y [Ht Hy]%list_elem_of_filter. by apply Hall.
Qed.

(** The calls in [done] have been answered, with success. *)
Definition marked (done : list nat) (l : list ShardCall) : list ShardCall :=
  imap (λ i x, if decide (i ∈ done) then answered (Ok ()) x else x) l.

Lemma marked_lookup done l i : marked done l !! i = (λ x, if decide (i ∈ done) then answered (Ok ()) x else x) <$> l !! i.
Proof. unfold marked. by rewrite list_lookup_imap. Qed.

Lemma marked_snoc done l j x : l !! j = Some x → <[j := answered (Ok ()) x]> (marked done l) = marked (done ++ [j]) l.
Proof.
  intros Hx. apply list_eq. intros i. rewrite marked_lookup. destruct (decide (i = j)) as [->|Hne].
  - rewrite list_lookup_insert_eq by (unfold marked; rewrite length_imap; by eapply lookup_lt_Some). rewrite Hx. cbn. rewrite decide_True by set_solver. done.
  - rewrite list_lookup_insert_ne, marked_lookup by done. destruct (l !! i); [|done]. cbn. f_equal. apply decide_ext. set_solver.
Qed.

Lemma marked_acks done l t :
  (∀ y, y ∈ l → sc_outcome y = None) →
  acks_in t (marked done l) = length (of_tally t l) ↔ ∀ i y, l !! i = Some y → tally_of (sc_callback y) = Some t → i ∈ done.
Proof.
  intros Hno. assert (length (of_tally t l) = length (of_tally t (marked done l))) as ->.
  { unfold marked. revert done. clear Hno. assert (∀ (f : nat → bool) l, length (of_tally t l) = length (of_tally t (imap (λ i x, if f i then answered (Ok ()) x else x) l))) as Hf.
    { intros f l0. revert f. induction l0 as [|x l0 IH]; intros f; [done|]. rewrite imap_cons. unfold of_tally. rewrite !filter_cons.
      assert (tally_of (sc_callback (if f 0%nat then answered (Ok ()) x else x)) = tally_of (sc_callback x)) as -> by (by destruct (f 0%nat)).
      specialize (IH (λ i, f (S i))). unfold of_tally in IH. case_decide; cbn [length]; [by f_equal|done]. }
    intros done. rewrite (Hf (λ i, bool_decide (i ∈ done)) l). f_equal. f_equal. apply imap_ext. intros i x _. case_bool_decide; by case_decide. }
  rewrite all_acks. split.
  - intros Hall i y Hi Ht. destruct (decide (i ∈ done)) as [|Hn]; [done|exfalso].
    assert (marked done l !! i = Some y) as Hm by (rewrite marked_lookup, Hi; cbn; by rewrite decide_False).
    apply list_elem_of_lookup_2 in Hm. specialize (Hall y Hm Ht). unfold acked in Hall. rewrite Hno in Hall by (by eapply list_elem_of_lookup_2). done.
  - intros Hall y [i Hi]%list_elem_of_lookup Ht. rewrite marked_lookup in Hi. apply fmap_Some in Hi as (x & Hx & ->).
    case_decide as Hd; [done|]. destruct Hd. by apply (Hall i x).
Qed.

Lemma next_answer sh0 evs sh sh1 done j x :
  shard_inv hash64 cfg sh0 evs sh → (∀ y, y ∈ sm_calls sh → sc_outcome y = None) → sm_calls sh !! j = Some x → j ∉ done →
  shard_inv hash64 cfg sh0 evs sh1 → cs_inv (sm_store sh1) → sm_calls sh1 = marked done (sm_calls sh) →
  let last k := gives_up x = Some k ∧ ∀ i y, sm_calls sh !! i = Some y → tally_of (sc_callback y) = tally_of (sc_callback x) → i ∈ done ∨ i = j in
  ∃ sh2, complete cfg j (Ok ()) sh1 = Some sh2 ∧ shard_inv hash64 cfg sh0 evs sh2 ∧ cs_inv (sm_store sh2) ∧
    sm_calls sh2 = marked (done ++ [j]) (sm_calls sh) ∧
    ∀ k, (last k → cs_lookup (sm_store sh2) k = None) ∧ (¬ last k → cs_lookup (sm_store sh2) k = cs_lookup (sm_store sh1) k).
Proof.
  intros Hinv Hno Hx Hj Hinv1 Hi1 Hc1 last.
  assert (sm_calls sh1 !! j = Some x) as Hx1 by (rewrite Hc1, marked_lookup, Hx; cbn; by rewrite decide_False).
  assert (Hin : x ∈ sm_calls sh) by (by eapply list_elem_of_lookup_2).
  destruct (complete_total sh0 evs j (Ok ()) x sh1 Hinv1 Hx1 (Hno x Hin) Hi1) as [sh2 E2].
  destruct (complete_spec hash64 cfg sh0 evs j (Ok ()) sh1 sh2 Hinv1 E2) as (x' & Hx' & _ & Hc2 & Hinv2 & Hst). rewrite Hx1 in Hx'. injection Hx' as <-.
  rewrite Hc1, (marked_snoc done _ j x Hx) in Hc2. exists sh2. split; [done|]. split; [done|].
  unfold last, gives_up. destruct (sc_callback x) as [|t|t k expected] eqn:Ecb; [rewrite Hst; split_and!; try done; intros k; split; [by intros []|done]..|].
  assert (acks_in t (sm_calls sh2) = expected ↔
    ∀ i y, sm_calls sh !! i = Some y → tally_of (sc_callback y) = Some t → i ∈ done ∨ i = j) as Hiff.
  { rewrite (owner_expects _ _ _ _ _ _ _ Hinv Hin Ecb), Hc2, marked_acks by done. set_solver. }
  destruct (decide (acks_in t (sm_calls sh2) = expected)) as [Hd|Hd].
  - destruct Hst as [b Er]. destruct (cs_remove_law k (sm_store sh1) Hi1) as (b' & s & Er' & Hi' & Hl' & _). rewrite Er in Er'. injection Er' as _ <-.
    split_and!; [done|done|]. intros k'. rewrite Hl'. split.
    + intros [[= ->] _]. by rewrite decide_True.
    + intros Hn. rewrite decide_False; [done|]. intros ->. apply Hn. split; [done|]. by apply Hiff.
  - rewrite Hst. split_and!; [done|done|]. intros k'. split; [|done]. intros [_ Hall]. destruct Hd. by apply Hiff.
Qed.

(** The calls answered in any order, all with success. *)
Lemma answers_any_order sh0 evs sh order :
  shard_inv hash64 cfg sh0 evs sh → cs_inv (sm_store sh) → (∀ y, y ∈ sm_calls sh → sc_outcome y = None) →
  NoDup order → (∀ i, i ∈ order → (i < length (sm_calls sh))%nat) →
  ∃ sh', shard_run hash64 cfg (answers order) sh = Some sh' ∧ shard_inv hash64 cfg sh0 evs sh' ∧ cs_inv (sm_store sh') ∧
    sm_calls sh' = marked order (sm_calls sh) ∧
    ∀ k, (primary_last order (sm_calls sh) k → cs_lookup (sm_store sh') k = None) ∧
      (¬ primary_last order (sm_calls sh) k → cs_lookup (sm_store sh') k = cs_lookup (sm_store sh) k).
Proof.
  intros Hinv Hi Hno. induction order as [|j order IH] using rev_ind; intros Hnd Hlt.
  { exists sh. split_and!; try done.
    - apply list_eq. intros i. rewrite marked_lookup. by destruct (sm_calls sh !! i).
    - intros k. split; [|done]. by intros ([|] & ? & ? & ? & ? & _). }
  apply NoDup_app in Hnd as (Hnd & Hj & _). destruct IH as (sh1 & Hrun & Hinv1 & Hi1 & Hc1 & Hl1); [done|intros i Hin; apply Hlt; set_solver|].
  destruct (lookup_lt_is_Some_2 (sm_calls sh) j) as [x Hx]; [apply Hlt; set_solver|].
  destruct (next_answer sh0 evs sh sh1 order j x Hinv Hno Hx) as (sh2 & E2 & Hinv2 & Hi2 & Hc2 & Hl2); [set_solver|done..|].
  exists sh2. split_and!; try done.
  - unfold answers. rewrite fmap_app, shard_run_app. fold (answers order). rewrite Hrun. cbn. by rewrite E2.
  - intros k. destruct (Hl2 k) as [Hy Hn], (Hl1 k) as [Hy1 Hn1].
    assert (primary_last (order ++ [j]) (sm_calls sh) k ↔ primary_last order (sm_calls sh) k ∨
      gives_up x = Some k ∧ ∀ i y, sm_calls sh !! i = Some y → tally_of (sc_callback y) = tally_of (sc_callback x) → i ∈ order ∨ i = j) as Hiff.
    { split.
      - intros (before & j' & after & x' & E & Hx' & Hg & Hall). destruct after as [|z after _] using rev_ind.
        + apply app_inj_tail in E as [<- <-]. rewrite Hx in Hx'. injection Hx' as <-. by right.
        + rewrite app_comm_cons, app_assoc in E. apply app_inj_tail in E as [-> _]. left. by exists before, j', after, x'.
      - intros [(before & j' & after & x' & -> & Hx' & Hg & Hall)|[Hg Hall]].
        + exists before, j', (after ++ [j]), x'. rewrite app_comm_cons, app_assoc. done.
        + by exists order, j, [], x. }
    rewrite Hiff. split.
    + intros [Hp|Hp]; [|by apply Hy]. 
      destruct (decide (cs_lookup (sm_store sh2) k = None)) as [|Hne]; [done|]. exfalso. apply Hne. rewrite Hn; [by apply Hy1|]. intros Hp'. by apply Hne, Hy.
    + intros Hno'. rewrite Hn, Hn1; [done|tauto..].
Qed.

(** The requests are sent with the first owner last, so that answers in that order hand everything over. *)
Lemma in_order_last sh0 evs sh k :
  shard_inv hash64 cfg sh0 evs sh → primary_last (seq 0 (length (sm_calls sh))) (sm_calls sh) k ↔ k ∈ omap gives_up (sm_calls sh).
Proof.
  intros Hinv. rewrite list_elem_of_omap. split.
  - intros (_ & j & _ & x & _ & Hx & Hg & _). exists x. split; [by eapply list_elem_of_lookup_2|done].
  - intros (x & [j Hx]%list_elem_of_lookup & Hg). pose proof (lookup_lt_Some _ _ _ Hx) as Hlt.
    exists (seq 0 j), j, (seq (S j) (length (sm_calls sh) - S j)), x. split_and!; [|done|done|].
    + rewrite cons_seq, <- (seq_app j _ 0). f_equal. lia.
    + intros i y Hy Ht. destruct (Nat.lt_total i j) as [?|[?|Hgt]]; [left; apply elem_of_seq; lia|by right|exfalso].
      unfold gives_up in Hg. destruct (sc_callback x) as [| |t k' exp] eqn:Ecb; try done. cbn [tally_of] in Ht.
      pose proof (owner_last sh0 evs sh j x t k' exp Hinv Hx Ecb) as E1. pose proof (owner_expects sh0 evs sh x t k' exp Hinv) as E2.
      specialize (E2 ltac:(by eapply list_elem_of_lookup_2) Ecb).
      assert (length (of_tally t (sm_calls sh)) = length (of_tally t (take j (sm_calls sh))) + S (length (of_tally t (drop (S j) (sm_calls sh)))))%nat as E3.
      { rewrite <- (take_drop_middle (sm_calls sh) j x Hx) at 1. rewrite of_tally_app, length_app. f_equal. unfold of_tally.
        by rewrite filter_cons_True by (by rewrite Ecb). }
      assert (y ∈ of_tally t (drop (S j) (sm_calls sh))) as Hin.
      { apply list_elem_of_filter. split; [done|]. apply (list_elem_of_lookup_2 _ (i - S j)). rewrite lookup_drop. by replace (S j + (i - S j))%nat with i by lia. }
      destruct (of_tally t (drop (S j) (sm_calls sh))); [by apply not_elem_of_nil in Hin|cbn [length] in E3; lia].
Qed.

End handover.

Section settled.
Context {St : Type} `{CacheStoreLaws St}.
Context (hash64 : bytes → Z) `{Sorter} (cfg : ShardConfig) (c : Clock) (tb : MembershipTable.t) (ring : Ring).
Context (s : St) (m : option RebalanceMetrics).

(** The ring has nodes, and the replica factor is one it accepts. *)
Definition placeable : Prop :=
  reachable hash64 ring ∧ physical_nodes (HashRing.snapshot ring) ≠ [] ∧ 0 < sm_replica_factor cfg <= K_MAX_REPLICAS.

Context (Hring : placeable) (Hinv : cs_inv s).

Lemma owners_total k : ∃ p rest, owners hash64 cfg ring k = HashRing.Done (p :: rest).
Proof.
  destruct Hring as (Hwf%ring_reachable_wf & Hne & Hk). destruct (getNodes_plan hash64 ring k _ Hwf Hne Hk) as (l & El & _ & _ & Hlen & _).
  destruct l as [|p rest]; [|by exists p, rest]. destruct (physical_nodes (HashRing.snapshot ring)); [done|]. cbn in Hlen. lia.
Qed.

Lemma rebalance_total : ∃ d sh1, rebalance hash64 cfg c tb ring (newShard s m) = Some (d, sh1).
Proof.
  unfold rebalance. destruct (planKeys_total hash64 cfg c tb ring (cs_liveEntries c s) (mkPlan [] [] 0)) as [plan Ep].
  { intros k e _. destruct (owners_total k) as (p & rest & E). by exists (p :: rest). }
  cbn [newShard sm_store]. rewrite Ep. by do 2 eexists.
Qed.

Context (d : bool) (sh1 : ShardManager St) (Hreb : rebalance hash64 cfg c tb ring (newShard s m) = Some (d, sh1)).

Lemma rebalanced_inv : shard_inv hash64 cfg (newShard s m) [Rebalanced c tb ring] sh1.
Proof. apply run_shard_inv; [done|done|]. cbn. by rewrite Hreb. Qed.

(** The keys whose copy is given up are those handed over. *)
Lemma gives_up_iff k :
  k ∈ omap gives_up (sm_calls sh1) ↔
  ∃ x, migration_for hash64 cfg c tb ring (cs_liveEntries c s) x ∧ mp_key x = k ∧ not_alive (mp_primary x) tb = false.
Proof.
  destruct (rebalance_calls _ _ _ _ _ _ _ _ _ Hreb) as (_ & _ & Hfrom & _ & Hto). rewrite list_elem_of_omap. split.
  - intros (y & Hy & Hg). destruct (Hfrom y Hy) as [(x & _ & ->)|(x & t & Hx & Hal & Hs)]; [done|]. exists x. split; [done|]. split; [|done].
    unfold gives_up in Hg. apply elem_of_app in Hs as [(o & E & _)%list_elem_of_fmap|E%list_elem_of_singleton]; unfold shape in E; injection E as _ _ E; rewrite E in Hg; [done|].
    by injection Hg.
  - intros (x & Hx & <- & Hal). destruct (Hto x Hx Hal) as [t Ht]. eexists. split; [apply Ht, elem_of_app; right; by apply list_elem_of_singleton|done].
Qed.

(** The one migration a live key can be in. *)
Lemma migration_unique k e p rest x :
  (k, e) ∈ cs_liveEntries c s → owners hash64 cfg ring k = HashRing.Done (p :: rest) →
  migration_for hash64 cfg c tb ring (cs_liveEntries c s) x → mp_key x = k → mp_primary x = p ∧ mp_entry x = e ∧ mp_replica_peers x = ready cfg c tb rest.
Proof.
  intros [Hl _]%cs_live Hos ([Hl' _]%cs_live & rest' & Hos' & _ & _ & Hp) <-; [|done..]. rewrite Hos in Hos'. injection Hos' as <- <-. by rewrite Hl in Hl'; injection Hl'.
Qed.

(** A key that this node keeps, or that waits for its first owner. *)
Definition stays (p : bytes) (rest : list bytes) : Prop := sm_self cfg ∈ p :: rest ∨ quarantined cfg c tb p = true ∨ not_alive p tb = true.

#[global] Instance stays_dec p rest : Decision (stays p rest).
Proof. unfold stays. apply _. Defined.

Lemma handed_over k e p rest :
  (k, e) ∈ cs_liveEntries c s → owners hash64 cfg ring k = HashRing.Done (p :: rest) →
  k ∈ omap gives_up (sm_calls sh1) ↔ ¬ stays p rest.
Proof.
  intros Hin Hos. rewrite gives_up_iff. unfold stays. split.
  - intros (x & Hx & Ek & Hal). destruct (migration_unique k e p rest x Hin Hos Hx Ek) as (Ep & _ & _). destruct Hx as (_ & rest' & Hos' & Hself & Hq & _).
    rewrite Ek, Hos in Hos'. injection Hos' as _ <-. rewrite Ep in *. intros [?|[?|?]]; [done|congruence..].
  - intros Hno. exists (mkMigrate k e p (ready cfg c tb rest)). split; [|split; [done|cbn; destruct (not_alive p tb); tauto]].
    split; [done|]. exists rest. cbn. split_and!; [done|tauto|destruct (quarantined cfg c tb p); tauto|done].
Qed.

(** The owners a key is sent to. *)
Lemma sent_to k e p rest o :
  (k, e) ∈ cs_liveEntries c s → owners hash64 cfg ring k = HashRing.Done (p :: rest) →
  o ∈ p :: rest → o ≠ sm_self cfg → quarantined cfg c tb o = false → not_alive o tb = false → (sm_self cfg ∈ p :: rest ∨ ¬ stays p rest) →
  ∃ cb, unanswered (o, makeReplicateRequest c k e, cb) ∈ sm_calls sh1.
Proof.
  intros Hin Hos Ho Hne Hq Hal Hor. destruct (rebalance_calls _ _ _ _ _ _ _ _ _ Hreb) as (_ & _ & _ & Hcopy & Hmig). destruct Hor as [Hself|Hno].
  - exists PushDone. apply (Hcopy (mkCopy k e o)); [|done]. split; [done|]. exists (p :: rest). split_and!; [done|done| |done]. by apply list_elem_of_filter.
  - pose proof (proj2 (handed_over k e p rest Hin Hos) Hno) as Hg. apply gives_up_iff in Hg as (x & Hx & Ek & Halx).
    destruct (migration_unique k e p rest x Hin Hos Hx Ek) as (Ep & Ee & Epeers). destruct (Hmig x Hx Halx) as [t Ht].
    assert (Hz : ∃ cb, (o, makeReplicateRequest c k e, cb) ∈ migration_calls c x t).
    { unfold migration_calls. rewrite Ek, Ee, Ep, Epeers. apply elem_of_cons in Ho as [->|Ho]; eexists; apply elem_of_app; [right; by apply list_elem_of_singleton|left].
      apply list_elem_of_fmap. exists o. split; [done|]. by apply list_elem_of_filter. }
    destruct Hz as [cb Hz]. exists cb. by apply Ht.
Qed.

(** Every request about a live key carries the entry, to an owner that is ready. *)
Lemma sent_requests k e p rest y :
  (k, e) ∈ cs_liveEntries c s → owners hash64 cfg ring k = HashRing.Done (p :: rest) →
  y ∈ sm_calls sh1 → key (sc_request y) = k → sc_request y = makeReplicateRequest c k e ∧ sc_to y ∈ ready cfg c tb (p :: rest).
Proof.
  intros Hin Hos Hy Ek. destruct (rebalance_calls _ _ _ _ _ _ _ _ _ Hreb) as (_ & _ & Hfrom & _). destruct (Hfrom y Hy) as [(x & Hx & ->)|(x & t & Hx & Hal & Hs)].
  - destruct Hx as (Hx & os & Hos' & _ & Hr & _). cbn in Ek. rewrite Ek in *. rewrite Hos in Hos'. injection Hos' as <-.
    apply cs_live in Hx as [Hx _], Hin as [Hin _]; [|done..]. rewrite Hin in Hx. injection Hx as ->. unfold copy_call. cbn. by rewrite Ek.
  - assert (Exk : mp_key x = k).
    { unfold migration_calls in Hs. apply elem_of_app in Hs as [(o & E & _)%list_elem_of_fmap|E%list_elem_of_singleton]; unfold shape in E; injection E as _ E _;
        rewrite E in Ek; exact Ek. }
    destruct (migration_unique k e p rest x Hin Hos Hx Exk) as (Ep & Ee & Epeers). destruct Hx as (_ & _ & _ & _ & Hq & _).
    unfold migration_calls in Hs. rewrite Exk, Ee, Ep, Epeers in Hs. rewrite Ep in Hq. unfold ready.
    apply elem_of_app in Hs as [(o & E & [Ho Hor]%list_elem_of_filter)%list_elem_of_fmap|E%list_elem_of_singleton]; unfold shape in E; injection E as Eto Er _;
      rewrite Eto, Er; (split; [done|]); apply list_elem_of_filter; (split; [done|]); [by right|by left].
Qed.

(** All calls answered with success, in any order: what the store then holds. *)
Lemma settle_order sh order : sm_calls sh = sm_calls sh1 → sm_acks sh = sm_acks sh1 → cs_inv (sm_store sh) → order ≡ₚ seq 0 (length (sm_calls sh1)) →
  ∃ sh2, shard_run hash64 cfg (answers order) sh = Some sh2 ∧ sm_calls sh2 = answered (Ok ()) <$> sm_calls sh1 ∧
    ∀ k, (primary_last order (sm_calls sh1) k → cs_lookup (sm_store sh2) k = None) ∧
      (¬ primary_last order (sm_calls sh1) k → cs_lookup (sm_store sh2) k = cs_lookup (sm_store sh) k).
Proof.
  intros Ec Ea Hi Ho. destruct (rebalance_calls _ _ _ _ _ _ _ _ _ Hreb) as (_ & Hno & _).
  destruct (answers_any_order hash64 cfg (newShard s m) [Rebalanced c tb ring] sh order) as (sh2 & Hrun & _ & _ & Hc & Hl).
  - by apply (inv_same _ _ _ _ sh1), rebalanced_inv.
  - done.
  - by rewrite Ec.
  - rewrite Ho. apply NoDup_seq.
  - intros i. rewrite Ho, elem_of_seq, Ec. lia.
  - rewrite Ec in *. exists sh2. split; [done|]. split; [|done]. rewrite Hc. apply list_eq. intros i. rewrite marked_lookup, list_lookup_fmap.
    destruct (sm_calls sh1 !! i) as [x|] eqn:Ex; [|done]. cbn. rewrite decide_True; [done|]. rewrite Ho. apply elem_of_seq. apply lookup_lt_Some in Ex. lia.
Qed.

(** In the order they were sent. *)
Lemma settle sh : sm_calls sh = sm_calls sh1 → sm_acks sh = sm_acks sh1 → cs_inv (sm_store sh) →
  ∃ sh2, shard_run hash64 cfg (all_answered (length (sm_calls sh1))) sh = Some sh2 ∧ sm_calls sh2 = answered (Ok ()) <$> sm_calls sh1 ∧
    ∀ k e p rest, (k, e) ∈ cs_liveEntries c s → owners hash64 cfg ring k = HashRing.Done (p :: rest) →
      cs_lookup (sm_store sh2) k = if decide (stays p rest) then cs_lookup (sm_store sh) k else None.
Proof.
  intros Ec Ea Hi. destruct (settle_order sh (seq 0 (length (sm_calls sh1))) Ec Ea Hi) as (sh2 & Hrun & Hc & Hl); [done|].
  exists sh2. split; [done|]. split; [done|]. intros k e p rest Hin Hos. destruct (Hl k) as [Hy Hn].
  pose proof (handed_over k e p rest Hin Hos) as Hg. rewrite <- (in_order_last hash64 cfg _ _ _ k rebalanced_inv) in Hg.
  case_decide; [apply Hn|apply Hy]; tauto.
Qed.

End settled.

(** ** Handing a key over *)

(** C8: a copy is given up only once the owners it was sent to hold what was
    sent.  When, at any point in the life of a manager, an answer of the
    transport makes a key disappear from the store, an earlier rebalance found
    the key live with an entry [e] and this node not among its owners; and every
    owner that was not in quarantine at that rebalance now holds [e] or
    something newer.  That is the entry the rebalance saw, not one written since.
    Assumed is that the requests the transport reports as acknowledged were
    served, by owners with room and without secrets that otherwise serve
    requests of their peers only and on which nothing written to the key
    expires. *)
Theorem handover_safe {St : Type} `{CacheStoreLaws St} (hint_size : Z) (xxh3 hash64 : bytes → Z) `{Sorter} (crypto : bool)
    (HMAC : bytes → bytes → bytes) (cfgs : bytes → ConnectionConfig) (T : Z) (start world : bytes → Node St) (hist : bytes → list Call)
    (cfg : ShardConfig) (s : St) (m : option RebalanceMetrics) (evs : list ShardEvent) (sh sh' : ShardManager St) (i : nat) (r : Result ()) (k : bytes) :
  shard_run hash64 cfg evs (newShard s m) = Some sh → cs_inv (sm_store sh) → complete cfg i r sh = Some sh' →
  cs_lookup (sm_store sh) k ≠ None → cs_lookup (sm_store sh') k = None →
  (∀ y, y ∈ sm_calls sh' → acked y = true → key (sc_request y) = k →
     has_served hint_size xxh3 hash64 crypto HMAC cfgs T k (sc_to y) (start (sc_to y)) (hist (sc_to y)) (world (sc_to y)) ∧
     ∃ o tok, (o, sc_request y, tok) ∈ hist (sc_to y)) →
  ∃ evs1 evs2 c tb ring sh1 e p rest, evs = evs1 ++ Rebalanced c tb ring :: evs2 ∧ shard_run hash64 cfg evs1 (newShard s m) = Some sh1 ∧
    (k, e) ∈ cs_liveEntries c (sm_store sh1) ∧ getNodes hash64 k (sm_replica_factor cfg) ring = HashRing.Done (p :: rest) ∧
    sm_self cfg ∉ p :: rest ∧ ∀ o, o ∈ p :: rest → quarantined cfg c tb o = false → covers (stampOf e) k (world o).
Proof.
  intros Hrun Hi Hc Hbefore Hafter Hserved. pose proof (run_shard_inv hash64 cfg (newShard s m) evs sh eq_refl eq_refl Hrun) as Hinv.
  destruct (complete_spec hash64 cfg _ evs i r sh sh' Hinv Hc) as (x & Hx & _ & Hcalls & Hinv' & Hst).
  destruct (sc_callback x) as [|t|t k' expected] eqn:Ecb, r as [u|err]; try (by rewrite Hst in Hafter). case_decide as Hexp; [|by rewrite Hst in Hafter].
  destruct Hst as [b Er]. destruct (cs_remove_law k' (sm_store sh) Hi) as (b' & s' & Er' & _ & Hl & _). rewrite Er in Er'. injection Er' as _ <-.
  rewrite Hl in Hafter. case_decide as Ek; [|done]. subst k'.
  assert (Hx' : answered (Ok u) x ∈ sm_calls sh').
  { rewrite Hcalls. eapply list_elem_of_lookup_2, list_lookup_insert_eq. by eapply lookup_lt_Some. }
  destruct (all_acked hash64 cfg _ evs sh' t k expected _ Hinv' Hx' Ecb (eq_sym Hexp)) as (c & mg & (evs1 & evs2 & tb & ring & sh1 & -> & Hrun1 & Hlive & rest & Hos & Hself & Hq & Hpeers) & Ek & Hall).
  rewrite Ek in Hlive, Hos. exists evs1, evs2, c, tb, ring, sh1, (mp_entry mg), (mp_primary mg), rest. split_and!; [done..|].
  intros o Ho Hoq. destruct (Hall o) as (y & Hy & <- & Hreq & Hack).
  { rewrite Hpeers. apply elem_of_cons in Ho as [->|Ho]; [by left|right]. by apply list_elem_of_filter. }
  destruct (Hserved y Hy Hack) as [Hs (o' & tok & Hin)]; [by rewrite Hreq|].
  destruct (has_served_covers hint_size xxh3 hash64 crypto HMAC cfgs T k _ _ _ _ Hs) as (_ & _ & Hcov).
  specialize (Hcov o' (sc_request y) tok Hin). rewrite Hreq in Hcov. by apply Hcov.
Qed.


(** an owner in quarantine is left out of the count.  A comment of the code
    says the local copy is dropped only once every new owner has acknowledged; but
    when one of the other owners is in quarantine, all requests succeed, the copy
    is dropped, and no request ever carried the key to that owner. *)
Theorem quarantined_owner_left_out {St : Type} `{CacheStoreLaws St} (hash64 : bytes → Z) `{Sorter} (cfg : ShardConfig) (c : Clock)
    (tb : MembershipTable.t) (ring : Ring) (s : St) (m : option RebalanceMetrics) (k : bytes) (e : Entry.VersionedEntry) (p q : bytes) (rest : list bytes) :
  placeable hash64 cfg ring → cs_inv s → (k, e) ∈ cs_liveEntries c s →
  getNodes hash64 k (sm_replica_factor cfg) ring = HashRing.Done (p :: rest) → ¬ stays cfg c tb p rest →
  q ∈ rest → quarantined cfg c tb q = true →
  ∃ d sh1 sh2, rebalance hash64 cfg c tb ring (newShard s m) = Some (d, sh1) ∧
    shard_run hash64 cfg (all_answered (length (sm_calls sh1))) sh1 = Some sh2 ∧ cs_lookup (sm_store sh2) k = None ∧
    ∀ y, y ∈ sm_calls sh2 → key (sc_request y) = k → sc_to y ≠ q.
Proof.
  intros Hring Hi Hin Hos Hno Hqin Hq. destruct (rebalance_total hash64 cfg c tb ring s m Hring) as (d & sh1 & Hreb). exists d, sh1.
  destruct (rebalance_calls _ _ _ _ _ _ _ _ _ Hreb) as (Es & _). destruct (settle hash64 cfg c tb ring s m Hi d sh1 Hreb sh1) as (sh2 & Hrun & Hc & Hl); [done|done|by rewrite Es|].
  exists sh2. split_and!; [done|done|by rewrite (Hl k e p rest Hin Hos), decide_False|]. rewrite Hc. intros y (z & -> & Hz)%list_elem_of_fmap Ek.
  destruct (sent_requests hash64 cfg c tb ring s m Hi d sh1 Hreb k e p rest z Hin Hos Hz Ek) as [_ [Hr _]%list_elem_of_filter].
  change (sc_to (answered (Ok ()) z)) with (sc_to z). intros E. rewrite E in Hr. congruence.
Qed.

(** C39: a write that arrives during a hand-over is lost with the copy.  The entry
    a migration sends is the one the rebalance saw; a newer entry stored
    afterwards is removed with the key when the last owner acknowledges, and no
    request carried it. *)
Theorem newer_write_dropped {St : Type} `{CacheStoreLaws St} (hash64 : bytes → Z) `{Sorter} (cfg : ShardConfig) (c c' : Clock)
    (tb : MembershipTable.t) (ring : Ring) (s : St) (m : option RebalanceMetrics) (k : bytes) (e e' : Entry.VersionedEntry) (p : bytes) (rest : list bytes) :
  placeable hash64 cfg ring → cs_inv s → (k, e) ∈ cs_liveEntries c s →
  getNodes hash64 k (sm_replica_factor cfg) ring = HashRing.Done (p :: rest) → ¬ stays cfg c tb p rest →
  Entry.wf e' → lww_lt (stampOf e) (stampOf e') → cs_room (zlen k + zlen (Entry.value e') + cs_node_bytes) s →
  ∃ d sh1 sh2 sh3, rebalance hash64 cfg c tb ring (newShard s m) = Some (d, sh1) ∧
    shard_step hash64 cfg (Written c' k e') sh1 = Some sh2 ∧ cs_lookup (sm_store sh2) k = Some e' ∧
    shard_run hash64 cfg (all_answered (length (sm_calls sh1))) sh2 = Some sh3 ∧ cs_lookup (sm_store sh3) k = None ∧
    ∀ y, y ∈ sm_calls sh3 → key (sc_request y) = k → hintStamp (sc_request y) = stampOf e.
Proof.
  intros Hring Hi Hin Hos Hno Hwf Hlt Hroom. destruct (rebalance_total hash64 cfg c tb ring s m Hring) as (d & sh1 & Hreb).
  destruct (rebalance_calls _ _ _ _ _ _ _ _ _ Hreb) as (Es & _). rewrite <- (Z.add_0_r (_ + _)) in Hroom.
  destruct (cs_put_law c' k e' 0 s Hi Hwf (Z.le_refl 0) Hroom) as (s' & Ep & Hi' & Hl' & _). exists d, sh1, (with_sm_store s' sh1).
  destruct (settle hash64 cfg c tb ring s m Hi d sh1 Hreb (with_sm_store s' sh1)) as (sh3 & Hrun & Hc & Hl); [done|done|done|]. exists sh3. split_and!; [done| | |done| |].
  - cbn [shard_step]. by rewrite Es, Ep.
  - cbn [with_sm_store sm_store]. rewrite Hl', decide_True by done. apply cs_live in Hin as [-> _]; [|done]. unfold applyLww.
    destruct (lwwCovers (stampOf e') (stampOf e)) eqn:E; [done|]. apply lwwCovers_false in E. by apply lww_lt_asymm in E.
  - by rewrite (Hl k e p rest Hin Hos), decide_False.
  - rewrite Hc. intros y (z & -> & Hz)%list_elem_of_fmap Ek.
    destruct (sent_requests hash64 cfg c tb ring s m Hi d sh1 Hreb k e p rest z Hin Hos Hz Ek) as [E _]. unfold answered. cbn [sc_request]. by rewrite E.
Qed.

(** ** Witnesses

    [n9] is not on the ring of [a] and [b], and holds a key. *)

#[local] Existing Instance Cluster.demo_cache.
#[local] Existing Instance Cluster.demo_laws.

Definition demo_shard : ShardConfig := mkShardConfig (lit "n9") 2 1000 true.

Definition quiet_table : MembershipTable.t := MembershipTable.make (lit "n9").

(** [b] has just joined. *)
Definition warm_table : MembershipTable.t :=
  MembershipTable.seed (now StoreFacts.demo_clock) [mkNodeConfig (lit "b") [] 0] (MembershipTable.make (lit "n9")).

Lemma demo_placeable : placeable toy_hash demo_shard ring2.
Proof. split; [apply ring2_reachable|]. split; [by rewrite ring2_nodes|]. by vm_compute. Qed.

Definition held : Entry.VersionedEntry := StoreFacts.demo_entry "new" 9.

Lemma held_live : (lit "k", held) ∈ cs_liveEntries StoreFacts.demo_clock first_store.
Proof. apply (bool_decide_unpack _). vm_compute. exact I. Qed.

Definition handover_rq : Request := makeReplicateRequest StoreFacts.demo_clock (lit "k") held.

Definition handover_hist (x : bytes) : list Call := [(calm, handover_rq, [])].

Definition handover_start (x : bytes) : Node (Store.Store () ()) := node_with node_store.

Definition handover_world (x : bytes) : Node (Store.Store () ()) :=
  match serve_demo x (handover_hist x) (handover_start x) with Some (_, n) => n | None => handover_start x end.

Lemma handover_served x :
  has_served 64 demo_sum toy_hash false (λ _ _, []) cfg_of demo_T (lit "k") x (handover_start x) (handover_hist x) (handover_world x).
Proof.
  assert (Hok : node_ok toy_hash demo_T (lit "k") (costs (handover_hist x)) (handover_start x)).
  { eapply node_with_ok; [apply node_store_inv|apply node_store_room; by vm_compute|vm_compute; reflexivity|reflexivity]. }
  assert (Hh : Forall (λ y : Call, peer_request demo_T (lit "k") y.1.1 y.1.2) (handover_hist x)).
  { apply Forall_cons. split; [|by apply Forall_nil]. apply peer_calm; [by left|by left|done|done]. }
  split; [done|done|done|]. rewrite <- (Z.add_0_r (costs _)) in Hok.
  destruct (serve_covers 64 demo_sum toy_hash false (λ _ _, []) (cfg_of x) demo_T (lit "k") 0 (handover_hist x) (handover_start x) (conj eq_refl eq_refl) Hok (Z.le_refl 0) Hh)
    as (hs & n & E & _). exists hs. unfold handover_world, serve_demo. rewrite E. reflexivity.
Qed.

(** The rebalance, and the answer of [b]. *)
Definition demo_events : list ShardEvent := [Rebalanced StoreFacts.demo_clock quiet_table ring2; Completed 0 (Ok ())].

Definition one_left : ShardManager (Store.Store () ()) :=
  match shard_run toy_hash demo_shard demo_events (newShard first_store None) with Some sh => sh | None => newShard first_store None end.

Definition none_left : ShardManager (Store.Store () ()) :=
  match complete demo_shard 1 (Ok ()) one_left with Some sh => sh | None => one_left end.

Lemma none_left_calls y : y ∈ sm_calls none_left → sc_request y = handover_rq.
Proof.
  assert (Hall : Forall (λ y, sc_request y = handover_rq) (sm_calls none_left)).
  { apply (bool_decide_unpack _). vm_compute. exact I. }
  rewrite Forall_forall in Hall. apply Hall.
Qed.

Lemma handover_safe_witness :
  ∃ evs1 evs2 c tb ring sh1 e p rest, demo_events = evs1 ++ Rebalanced c tb ring :: evs2 ∧
    shard_run toy_hash demo_shard evs1 (newShard first_store None) = Some sh1 ∧ (lit "k", e) ∈ cs_liveEntries c (sm_store sh1) ∧
    getNodes toy_hash (lit "k") 2 ring = HashRing.Done (p :: rest) ∧ lit "n9" ∉ p :: rest ∧
    ∀ o, o ∈ p :: rest → quarantined demo_shard c tb o = false → covers (stampOf e) (lit "k") (handover_world o).
Proof.
  apply (handover_safe 64 demo_sum toy_hash false (λ _ _, []) cfg_of demo_T handover_start handover_world handover_hist demo_shard first_store None
    demo_events one_left none_left 1 (Ok ()) (lit "k")).
  - vm_compute. reflexivity.
  - exact first_store_inv.
  - vm_compute. reflexivity.
  - vm_compute. discriminate.
  - vm_compute. reflexivity.
  - intros y Hy _ _. split; [apply handover_served|]. exists calm, []. rewrite (none_left_calls y Hy). left.
Defined.

(** Two owners, asked in turn: the first owner comes second. *)
Lemma demo_calls d sh1 :
  rebalance toy_hash demo_shard StoreFacts.demo_clock quiet_table ring2 (newShard first_store None) = Some (d, sh1) →
  ∃ x0 x1, sm_calls sh1 = [x0; x1] ∧ gives_up x0 = None ∧ tally_of (sc_callback x0) = tally_of (sc_callback x1).
Proof.
  intros Hr. assert (match rebalance toy_hash demo_shard StoreFacts.demo_clock quiet_table ring2 (newShard first_store None) with
    | Some (_, sh) => match sm_calls sh with
        | [x0; x1] => bool_decide (gives_up x0 = None ∧ tally_of (sc_callback x0) = tally_of (sc_callback x1)) | _ => false end
    | None => false end = true) as Hb by (vm_compute; reflexivity).
  rewrite Hr in Hb. destruct (sm_calls sh1) as [|x0 [|x1 [|]]]; try discriminate Hb. apply bool_decide_eq_true in Hb. exists x0, x1. split; [reflexivity|exact Hb].
Qed.

Lemma reversed_not_last (x0 x1 : ShardCall) k :
  gives_up x0 = None → tally_of (sc_callback x0) = tally_of (sc_callback x1) → ¬ primary_last [1%nat; 0%nat] [x0; x1] k.
Proof.
  intros Hg Ht (before & j & after & x & E & Hx & Hgx & Hall). destruct before as [|b0 [|b1 before]].
  - injection E as <- _. injection Hx as <-. by destruct (Hall 0%nat x0 eq_refl Ht) as [?%not_elem_of_nil|?].
  - injection E as _ <- _. injection Hx as <-. congruence.
  - apply (f_equal length) in E. rewrite length_app in E. cbn [length] in E. lia.
Qed.


Lemma quarantined_owner_left_out_witness :
  ∃ d sh1 sh2, rebalance toy_hash demo_shard StoreFacts.demo_clock warm_table ring2 (newShard first_store None) = Some (d, sh1) ∧
    shard_run toy_hash demo_shard (all_answered (length (sm_calls sh1))) sh1 = Some sh2 ∧ cs_lookup (sm_store sh2) (lit "k") = None ∧
    ∀ y, y ∈ sm_calls sh2 → key (sc_request y) = lit "k" → sc_to y ≠ lit "b".
Proof.
  apply (quarantined_owner_left_out toy_hash demo_shard StoreFacts.demo_clock warm_table ring2 first_store None (lit "k") held (lit "a") (lit "b") [lit "b"]
    demo_placeable first_store_inv held_live).
  - vm_compute. reflexivity.
  - apply (bool_decide_unpack _). vm_compute. exact I.
  - left.
  - vm_compute. reflexivity.
Defined.

Lemma newer_write_dropped_witness :
  ∃ d sh1 sh2 sh3, rebalance toy_hash demo_shard StoreFacts.demo_clock quiet_table ring2 (newShard first_store None) = Some (d, sh1) ∧
    shard_step toy_hash demo_shard (Written StoreFacts.demo_clock (lit "k") (StoreFacts.demo_entry "newer" 12)) sh1 = Some sh2 ∧
    cs_lookup (sm_store sh2) (lit "k") = Some (StoreFacts.demo_entry "newer" 12) ∧
    shard_run toy_hash demo_shard (all_answered (length (sm_calls sh1))) sh2 = Some sh3 ∧ cs_lookup (sm_store sh3) (lit "k") = None ∧
    ∀ y, y ∈ sm_calls sh3 → key (sc_request y) = lit "k" → hintStamp (sc_request y) = stampOf held.
Proof.
  apply (newer_write_dropped toy_hash demo_shard StoreFacts.demo_clock StoreFacts.demo_clock quiet_table ring2 first_store None (lit "k") held
    (StoreFacts.demo_entry "newer" 12) (lit "a") [lit "b"] demo_placeable first_store_inv held_live).
  - vm_compute. reflexivity.
  - apply (bool_decide_unpack _). vm_compute. exact I.
  - apply StoreFacts.demo_entry_wf.
  - apply compareLww_Less. vm_compute. reflexivity.
  - apply first_store_room. by vm_compute.
Defined.
